(* ===== verification/_CoqProject ===== *)
-Q . S2P
Prelude.v
JsMap.v
JsString.v
PosixPath.v
Calendar.v
Budget.v
BudgetFacts.v
BudgetService.v
BudgetServiceFacts.v
Json.v
Messages.v
SessionTree.v
Session.v
SessionFacts.v
Uuid.v
JsonlSession.v
Checkpoint.v
CheckpointFacts.v
CheckpointJson.v
Double.v
CompactionText.v
CutPoint.v
CutPointFacts.v
PortableCheckpoint.v
Compaction.v
CompactionFacts.v
BranchSummary.v
AgentLoop.v
AgentLoopFacts.v
AgentLoopExec.v
AgentLoopStable.v
Agent.v
AgentFacts.v
StableJson.v
IsoDate.v
RegExp.v
RegExpFacts.v
ExecPolicy.v
ExecPolicyFacts.v
ToolGuard.v
ToolGuardFacts.v
AuditLog.v
AuditLogFacts.v
AuditCalls.v
Truncate.v
WorkspacePath.v
NodeEnv.v
ApplyPatch.v
ApplyPatchFacts.v
PatchFiles.v
Prompts.v
Harness.v
HarnessFacts.v
HarnessSession.v
HarnessTools.v
HarnessOps.v
ToolArguments.v
ToolArgumentsJson.v
ToolArgumentsSchema.v
DiffModel.v
DiffModelWords.v
DiffModelFacts.v
ProviderErrors.v
ToolFailures.v
OutputGuard.v
TurnSteps.v
TurnCalls.v
TurnRunner.v
TurnRunnerFacts.v
TurnTraces.v
TurnJournal.v
TurnPhases.v
TurnPhasesFacts.v
TurnDemo.v
TurnModelCalls.v
TurnAnswers.v
TurnSystem.v
TurnSystemFacts.v
TurnOnce.v
