(* ===== verification/Prelude.v ===== *)
(** * Berry: a verification development

    Berry is a self-hosted AI assistant: an agent that talks to a model, runs
    tools and keeps its conversation in a session tree, on a desktop or behind an
    API server for an organization. This library models the parts of it that
    decide something - what a model is shown, what a tool may do, what a request
    may cost, what is remembered and what is recorded - as executable definitions
    that follow the TypeScript of src/ function by function, and proves what those
    parts promise.

    ** How to read it

    A component is a file of definitions, named after what it models, and a file
    of the same name with [Facts] (or a last part of the same file) for its
    theorems. A mutable object is a record that is passed on; code that may throw
    is in [result] or in the state-and-exception monad [M] below, whose state
    survives a throw as it does in JavaScript. The clock, fresh ids, random bytes,
    the network, model clients, zod, SHA-256 and URL parsing are arguments of the
    definitions that use them; strings are lists of 16-bit code units, a [Map] is
    an association list in insertion order, money and counts are integers.

    Foundations: Prelude (results, the monad, lists), JsMap ([Map] and [Set]),
    JsString ([String.prototype]), Json ([JSON] both ways), StableJson (the
    canonical text of a value), IsoDate and Calendar (dates), Double (IEEE
    products), RegExp and RegExpFacts (regular expressions: a parser, a matcher,
    and that the matcher computes the meaning).

    ** Parts and theorems

    - Budgets (apps/api/src/budget/budget.service.ts). Budget: the in-memory
      repository behind the interface [BudgetRepository]; BudgetService: the
      service over any repository and hot counters, in memory or in Redis;
      Calendar: allowance cycles. An admitted request keeps every hard limit, the
      counters are the ledger of the reservations, requests are idempotent, the
      counters of Redis are the open reservations of the repository but for what the
      server refused (a refinement, proved against the class [RepositoryLaws] for a
      client that writes down the refused commands), windows tile time.
    - Audit log (apps/api/src/audit/audit.service.ts). AuditLog: the hash chain,
      repository, service and exports; AuditCalls: the calls of the service cut at
      their awaits, under any interleaving. The logs are chains as long as appends of
      one tenant do not overlap; a chain is tamper-evident; changes are recorded;
      secrets stay out; when an export vouches; what overlapping appends break.
    - Sessions (packages/harness/src/harness/session). SessionTree: entries and the
      in-memory storage; Session: the operations over the storage interface, forks,
      the context of the model; JsonlSession: the storage in a file; Uuid: ids;
      Messages: message kinds. Histories are immutable, every operation keeps the
      tree well formed, the walk to the root ends, sessions are reopened as they
      were, from memory and from the file (of a file system the laws say only what
      calls that succeed do; a failed append may have torn its line or not).
    - Compaction (packages/harness/src/harness/compaction and
      packages/shared/src/checkpoint.ts). Checkpoint: parsing, merging, bounding;
      CompactionText, CutPoint, PortableCheckpoint, Compaction, BranchSummary. A
      preparation partitions the branch, windows are adjacent, the context after a
      compaction is the summary and what was kept, tool results stay with their
      calls, a checkpoint is produced whatever the model answers, where the evidence is
      of the schema, and is read back.
    - Agent (packages/harness/src/agent-loop.ts and agent.ts). AgentLoop: both
      loops, with any interleaving of the suspended calls of a parallel batch;
      Agent: state, queues and runs. A batch gives one result per call in order; what
      the tools are given is what the schema check returned, each call at most once, in
      sequence and in parallel (AgentLoopExec, over tools that write down their
      executions); a run returns the messages it reported, ends, and leaves the agent
      idle with the transcript of its events. AgentLoopStable gives the rule by which
      what callbacks preserve is preserved by a run.
    - Harness (packages/harness/src/harness/agent-harness.ts). Harness: the layer that
      owns session, queues, configuration and handlers, and runs the loop, compactions
      and navigation; HarnessFacts: the rule by which what handlers preserve every
      operation preserves, the phase as a lock; HarnessTools: the tools, with calls that
      change them overlapping others at the await of the session; HarnessSession: a run
      persists the messages the loop returns, queued writes are flushed in order;
      HarnessOps: patches of options, aborts. Prompts: the texts of explicit
      invocations (skills.ts, prompt-templates.ts): placeholders, arguments, escapes.
    - Files and patches (packages/local-agent/src, harness/utils/truncate.ts and
      harness/env/nodejs.ts). PosixPath: node:path; WorkspacePath: which places a tool
      may write; NodeEnv: the file operations of the environment over a record of
      file system calls; ApplyPatch, ApplyPatchFacts, PatchFiles: printed patches are
      parsed back, hunks turn the old text into the new, a patch calls the file system
      only at paths it may write (by their text: links are not resolved) and leaves what
      its operations mean, through the environment as directly; Truncate: what
      is kept of a long output is within the limits and the longest that is.
    - Permissions (packages/execpolicy and packages/local-agent/src/guard.ts).
      ExecPolicy: canonical commands, rules, decisions; ToolGuard: stages, grants.
      Canonicalization ends, the strictest rule decides, a rule is accepted exactly
      when it is well formed, a built-in prohibition holds against every rule file,
      mode and grant, a call is allowed exactly when the stages let it, "always
      allow" lasts.

    - Tool calls (apps/worker/src/tool-arguments.ts and tool-failures.ts,
      packages/shared/src/provider-errors.ts). ToolArguments and ToolArgumentsJson: the
      scanner that says where arguments stop being JSON is the grammar of RFC 8259, and
      "incomplete" means a continuation exists; ToolArgumentsSchema: a call is refused
      exactly for what its schema requires; ProviderErrors: classes of failures and which
      are retried; ToolFailures: when a failed call may have had its effect.
    - Diffs (packages/thread-ui/src/diff-model.ts). DiffModel, DiffModelWords,
      DiffModelFacts: printed diffs are parsed back with their line numbers, the words
      marked as changed leave a longest common subsequence unmarked, the rows rendered
      cover the viewport.

    - Turns (apps/worker/src/turn-runner.ts and, for the requests of people,
      apps/api/src/runtime/durable-turn.service.ts). TurnSteps: steps, policies and limits;
      TurnCalls: what the history of a turn says of its next call (repeats, retries that
      cannot succeed, calls that may have taken effect, progress); TurnRunner: a claimed
      turn executing its tool calls, over a trace of what it commits, calls and
      reserves; TurnRunnerFacts: a run ends in one commit that answers each call once,
      and a call runs only past every guard. TurnTraces: which commits such a run tries,
      whatever is answered to them: only the first may let a call run or wait.
      TurnPhases: the other phases - assembling, calling the model, compacting,
      finalizing - and [execute], the whole run of a claimed turn; TurnPhasesFacts: a rule
      for what every computation keeps, and what commits these phases try;
      TurnModelCalls: the model is called once, past every limit and with its cost
      reserved; TurnAnswers: the calls of a turn are those of an answer, and every answer
      has one fate, with the commits, the events on the stream and the error of it;
      OutputGuard: the guard that stops a model in a loop; TurnDemo:
      evaluated runs. TurnJournal: the rows of a turn and the transactions of the worker
      and the API over them. TurnSystem: rows, workers and people as a step relation, in
      which a worker runs [execute], may stop anywhere, go on after its lease was taken,
      or not learn that a commit was applied. TurnSystemFacts: the invariants of that
      system; TurnOnce: over all workers a call that is not safe to repeat runs once and
      once more per retry a person decided, and a call that needs an approval runs only
      after a person approved it.

    The parts meet in the session: the agent's messages become its entries, a
    compaction reads a branch and appends one entry, whose text the next context
    starts with. BranchSummary, Compaction and Session share [SessionStorage];
    ToolGuard decides over the engine of ExecPolicy; both write canonical JSON as
    AuditLog does.

    ** Fuel

    Recursion that follows no structure takes fuel, and a theorem says how much is
    enough: the number of entries for the walk to the root ([getPathToRoot_total]),
    the length of the command for nested shells ([canonicalize_total]), the answers
    of the model client for a run ([runAgentLoop_ends]), the length of the text for
    JSON and regular expressions ([json_roundtrip_value], [parse_re_total]), and for the
    scanner of arguments ([jsonSyntaxError_spec]). Where the code itself has a limit it is
    the fuel: 32 levels of a schema, 8 causes of an error.

    ** Where the code falls short

    Lemmas at the end of the [Facts] files show inputs for which the code does not
    do what it means to: a parent cycle in a session file, short ids that repeat,
    dropped tool calls, checkpoints the fallback cannot give, commands that escape
    the policy, grants that cover too much, appends that fork the audit chain, queued
    messages a failing hook loses, torn lines of a session file, changes of the tools that
    overlap, commands Redis refuses, grants that win over a rule that asks, hunks whose
    context is not looked at, removed lines a diff loses, a call that was never sent and is held for review.

    ** Not modelled

    SQL repositories, HTTP controllers, user interfaces, processes and sockets,
    provider streams, deployment. They are input and output around the parts above.
    Of the modelled files: abort signals of compactions, the [EventStream] wrappers
    of the agent loop, fractions in JSON documents, object members named
    [__proto__] or like array indexes. Line numbers of diffs and counts are unbounded
    integers where JavaScript has doubles; the reader of regular expressions knows no
    counted repetition, lookbehind or named group.
    Of the turn runner: the messages sent to the model, the adapters of providers, the
    heartbeat around an operation, streaming, telemetry; what they answer is a function
    of what the run did before ([Environment], [ModelEnvironment]). Of the rows
    of a turn: the stored events (the runner's trace has them), messages, tool calls,
    tasks and the outbox, which no decision of
    the modelled transactions but the reference of a recovery reads; that the ids of new
    steps are new is a condition on commits ([fresh_ids]). *)

From stdpp Require Export base list gmap sets strings.
From Stdlib Require Export ZArith NArith.
From Stdlib Require Import Lia.

Set Default Goal Selector "!".

(** ** JavaScript strings

    A JavaScript string is a sequence of 16-bit code units; [js] reads an ASCII
    literal of this file as one. *)

Abbreviation jstr := (list N).

Definition code_unit (c : Ascii.ascii) : N := Ascii.N_of_ascii c.

Fixpoint js (s : string) : jstr :=
  match s with
  | EmptyString => []
  | String c s' => code_unit c :: js s'
  end.
Arguments js _%_string_scope : simpl never.

(** A string is a JavaScript string when each code unit fits in 16 bits. *)
Definition js_wf (s : jstr) : Prop := Forall (λ c, (c < 65536)%N) s.

(** JavaScript truthiness of a string, of [string | null | undefined]. *)
Definition truthy (s : jstr) : bool := match s with [] => false | _ => true end.
Definition truthy_opt (s : option jstr) : bool :=
  match s with Some s => truthy s | None => false end.

(** [a ?? b] and, for strings, [a || b]. *)
Definition nullish {A} (a : option A) (b : A) : A := default b a.
Definition or_str (a b : jstr) : jstr := if truthy a then a else b.

(** ** Results and the state-and-exception monad

    [result E A] is a computation that returns or throws. [M S E A] threads a
    mutable state through it; as in JavaScript, the state changes made before a
    throw are kept. *)

Inductive result (E A : Type) : Type :=
| Ok (a : A)
| Err (e : E).
Arguments Ok {E A} a.
Arguments Err {E A} e.

#[export] Instance result_ret E : MRet (result E) := λ A a, Ok a.
#[export] Instance result_bind E : MBind (result E) :=
  λ A B f x, match x with Ok a => f a | Err e => Err e end.
#[export] Instance result_eq_dec E A `{!EqDecision E, !EqDecision A} :
  EqDecision (result E A).
Proof. solve_decision. Defined.

Definition is_ok {E A} (r : result E A) : bool :=
  match r with Ok _ => true | Err _ => false end.

Definition M (S E A : Type) : Type := S → result E A * S.

#[export] Instance M_ret S E : MRet (M S E) := λ A a s, (Ok a, s).
#[export] Instance M_bind S E : MBind (M S E) :=
  λ A B f m s, match m s with
               | (Ok a, s') => f a s'
               | (Err e, s') => (Err e, s')
               end.

Definition get {S E} : M S E S := λ s, (Ok s, s).
Definition gets {S E A} (f : S → A) : M S E A := λ s, (Ok (f s), s).
Definition put {S E} (s : S) : M S E unit := λ _, (Ok tt, s).
Definition modify {S E} (f : S → S) : M S E unit := λ s, (Ok tt, f s).
Definition throw {S E A} (e : E) : M S E A := λ s, (Err e, s).
Definition lift {S E A} (r : result E A) : M S E A := λ s, (r, s).

Declare Scope berry_scope.
Delimit Scope berry_scope with berry.
Open Scope berry_scope.

Notation "'let!' x ':=' e 'in' k" := (mbind (λ x, k) e)
  (at level 10, x name, e at level 100, k at level 200,
   format "'[v' 'let!'  x  ':='  e  'in' '/' k ']'") : berry_scope.
Notation "'do!' e 'in' k" := (mbind (λ _, k) e)
  (at level 10, e at level 100, k at level 200,
   format "'[v' 'do!'  e  'in' '/' k ']'") : berry_scope.

(** Laws of the two monads, used to step through composed operations. *)
Lemma M_bind_ok {S E A B} (m : M S E A) (f : A → M S E B) s a s' :
  m s = (Ok a, s') → (m ≫= f) s = f a s'.
Proof. intros H. unfold mbind, M_bind. by rewrite H. Qed.

Lemma M_bind_err {S E A B} (m : M S E A) (f : A → M S E B) s e s' :
  m s = (Err e, s') → (m ≫= f) s = (Err e, s').
Proof. intros H. unfold mbind, M_bind. by rewrite H. Qed.

Lemma M_bind_Ok_inv {S E A B} (m : M S E A) (f : A → M S E B) s b s' :
  (m ≫= f) s = (Ok b, s') → ∃ a s1, m s = (Ok a, s1) ∧ f a s1 = (Ok b, s').
Proof. unfold mbind, M_bind. destruct (m s) as [[a|e] s1]; [|done]. intros H. by exists a, s1. Qed.

Lemma result_bind_ok {E A B} (m : result E A) (f : A → result E B) b :
  m ≫= f = Ok b ↔ ∃ a, m = Ok a ∧ f a = Ok b.
Proof. destruct m; simpl; naive_solver. Qed.

(** ** Sums of integers over lists *)

Section zsum.
Context {A : Type}.
Implicit Types (f g : A → Z) (l : list A).
Local Open Scope Z_scope.

Definition zsum f l : Z := foldr (λ x acc, f x + acc) 0 l.

Lemma zsum_nil f : zsum f [] = 0.
Proof. done. Qed.
Lemma zsum_cons f x l : zsum f (x :: l) = f x + zsum f l.
Proof. done. Qed.
Lemma zsum_app f l1 l2 : zsum f (l1 ++ l2) = zsum f l1 + zsum f l2.
Proof. induction l1; simpl; lia. Qed.
Lemma zsum_snoc f l x : zsum f (l ++ [x]) = zsum f l + f x.
Proof. rewrite zsum_app. simpl. lia. Qed.
Lemma zsum_ext f g l : (∀ x, x ∈ l → f x = g x) → zsum f l = zsum g l.
Proof.
  intros H. induction l as [|x l IH]; [done|]; simpl.
  rewrite H, IH; [done| |]; set_solver.
Qed.
Lemma zsum_nonneg f l : (∀ x, x ∈ l → 0 ≤ f x) → 0 ≤ zsum f l.
Proof.
  intros H. induction l as [|x l IH]; [done|]; simpl.
  pose proof (H x ltac:(set_solver)). pose proof (IH ltac:(set_solver)). lia.
Qed.
Lemma zsum_plus f g l : zsum (λ x, f x + g x) l = zsum f l + zsum g l.
Proof. induction l; simpl; lia. Qed.
Lemma zsum_perm f l1 l2 : l1 ≡ₚ l2 → zsum f l1 = zsum f l2.
Proof. induction 1; simpl; lia. Qed.
(** An accumulating loop computes the sum. *)
Lemma fold_left_zsum f l acc :
  fold_left (λ s x, s + f x) l acc = acc + zsum f l.
Proof. revert acc. induction l as [|x l IH]; intros; simpl; [lia|]. rewrite IH. lia. Qed.
End zsum.

Lemma zsum_map {A B} (f : B → Z) (g : A → B) l : zsum f (map g l) = zsum (λ x, f (g x)) l.
Proof. induction l; simpl; congruence. Qed.
Arguments zsum : simpl never.

(** ** Lists *)

(** [xs.slice(-n)]: the last [n] elements. *)
Definition last_n {A} (n : nat) (l : list A) : list A := drop (length l - n) l.

Lemma length_last_n {A} n (l : list A) : length (last_n n l) = Nat.min n (length l).
Proof. unfold last_n. rewrite length_drop. lia. Qed.

Lemma last_n_suffix {A} n (l : list A) : last_n n l `suffix_of` l.
Proof. exists (take (length l - n) l). unfold last_n. by rewrite take_drop. Qed.

(** [xs.findIndex(p)], with [-1] as [None]. *)
Fixpoint find_index {A} (p : A → bool) (l : list A) : option nat :=
  match l with
  | [] => None
  | x :: l => if p x then Some 0%nat else S <$> find_index p l
  end.

(** [xs.find(p)]. *)
Fixpoint find_first {A} (p : A → bool) (l : list A) : option A :=
  match l with
  | [] => None
  | x :: l => if p x then Some x else find_first p l
  end.

(** The first result of a loop that returns early. *)
Fixpoint first_some {A B} (f : A → option B) (l : list A) : option B :=
  match l with
  | [] => None
  | x :: l => match f x with Some y => Some y | None => first_some f l end
  end.

Lemma first_some_None {A B} (f : A → option B) l :
  first_some f l = None ↔ ∀ x, x ∈ l → f x = None.
Proof.
  induction l as [|x l IH]; simpl; [set_solver|].
  destruct (f x) eqn:Hx; [|rewrite IH; set_solver].
  split; [done|]. intros H. rewrite H in Hx; [done|set_solver].
Qed.

Lemma first_some_Some {A B} (f : A → option B) l y :
  first_some f l = Some y → ∃ x, x ∈ l ∧ f x = Some y.
Proof.
  induction l as [|x l IH]; simpl; [done|].
  destruct (f x) eqn:Hx; [intros [= ->]; exists x; set_solver|].
  intros (z & ? & ?)%IH. exists z; set_solver.
Qed.

Lemma find_index_Some {A} (p : A → bool) l i :
  find_index p l = Some i ↔
  (∃ x, l !! i = Some x ∧ p x = true) ∧ ∀ j y, (j < i)%nat → l !! j = Some y → p y = false.
Proof.
  revert i. induction l as [|x l IH]; intros i; simpl.
  { split; [done|]. intros [(y & Hy & _) _]. by destruct i. }
  destruct (p x) eqn:Hp.
  - split.
    + intros [= <-]. split; [by exists x|lia].
    + intros [(y & Hy & Hpy) Hmin]. destruct i as [|i]; [done|].
      pose proof (Hmin 0%nat x ltac:(lia) eq_refl). congruence.
  - rewrite fmap_Some. split.
    + intros (k & [(y & Hy & Hpy) Hmin]%IH & ->). split; [by exists y|].
      intros [|j] z Hj Hz; simpl in Hz; [congruence|]. apply (Hmin j); [lia|done].
    + intros [(y & Hy & Hpy) Hmin]. destruct i as [|i]; simpl in Hy; [congruence|].
      exists i. split; [|done]. apply IH. split; [by exists y|].
      intros j z Hj Hz. apply (Hmin (S j)); [lia|done].
Qed.

Lemma find_index_None {A} (p : A → bool) l :
  find_index p l = None ↔ ∀ x, x ∈ l → p x = false.
Proof.
  induction l as [|x l IH]; simpl; [set_solver|].
  destruct (p x) eqn:Hp.
  - split; [done|]. intros H. rewrite H in Hp; [done|set_solver].
  - rewrite fmap_None, IH. set_solver.
Qed.

Lemma find_first_Some {A} (p : A → bool) l x :
  find_first p l = Some x → x ∈ l ∧ p x = true.
Proof.
  induction l as [|y l IH]; simpl; [done|].
  destruct (p y) eqn:Hp; [intros [= ->]; set_solver|]. intros [? ?]%IH; set_solver.
Qed.

Lemma find_first_None {A} (p : A → bool) l :
  find_first p l = None ↔ ∀ x, x ∈ l → p x = false.
Proof.
  induction l as [|y l IH]; simpl; [set_solver|].
  destruct (p y) eqn:Hp; [|rewrite IH; set_solver].
  split; [done|]. intros H. rewrite H in Hp; [done|set_solver].
Qed.

(** ** Tactics *)

(** Destruct the scrutinee of a match or if in the goal or the hypotheses. *)
Ltac case_match_any :=
  match goal with
  | |- context [match ?x with _ => _ end] => destruct x eqn:?
  | H : context [match ?x with _ => _ end] |- _ => destruct x eqn:?
  end.

(** [lia] with the equations of [/] and [mod] by constants. *)
Ltac zlia := Z.to_euclidean_division_equations; lia.

(** Step through a successful or failing computation in a hypothesis. *)
Ltac inv_result :=
  repeat match goal with
  | H : Ok _ = Ok _ |- _ => injection H as H; subst
  | H : Err _ = Err _ |- _ => injection H as H; subst
  | H : Ok _ = Err _ |- _ => discriminate H
  | H : Err _ = Ok _ |- _ => discriminate H
  | H : (_, _) = (_, _) |- _ => injection H as H; subst
  | H : Some _ = Some _ |- _ => injection H as H; subst
  | H : Some _ = None |- _ => discriminate H
  | H : None = Some _ |- _ => discriminate H
  end.

Create HintDb berry discriminated.
Create Rewrite HintDb berry.
#[export] Hint Rewrite @zsum_nil @zsum_cons @zsum_app @zsum_snoc @zsum_map : berry.
#[export] Hint Rewrite @length_last_n @length_app @length_map @length_drop @length_take : berry.
#[export] Hint Resolve last_n_suffix : berry.
