(* ===== verification/JsMap.v ===== *)
(** * JavaScript [Map] and [Set]

    Both iterate in insertion order: setting a present key keeps its position,
    deleting and setting again moves it to the end. The order is observable in
    this program (the first exceeded limit, the kept tool calls), so the two
    are modelled as duplicate-free association lists and lists. *)

From S2P Require Import Prelude.
From Stdlib Require Import Lia.

Set Default Goal Selector "!".

Section js_map.
Context {K V : Type} `{EqDecision K}.
Implicit Types (m : list (K * V)) (k : K) (v : V).

Fixpoint map_get k m : option V :=
  match m with
  | [] => None
  | (k', v) :: m => if decide (k = k') then Some v else map_get k m
  end.

Definition map_has k m : bool := match map_get k m with Some _ => true | None => false end.

Fixpoint map_set k v m : list (K * V) :=
  match m with
  | [] => [(k, v)]
  | (k', v') :: m => if decide (k = k') then (k', v) :: m else (k', v') :: map_set k v m
  end.

Fixpoint map_delete k m : list (K * V) :=
  match m with
  | [] => []
  | (k', v') :: m => if decide (k = k') then m else (k', v') :: map_delete k m
  end.

Definition map_values m : list V := m.*2.
Definition map_keys m : list K := m.*1.

(** [new Map(entries)]. *)
Definition map_of_entries (l : list (K * V)) : list (K * V) :=
  fold_left (λ m kv, map_set kv.1 kv.2 m) l [].

Lemma map_get_set k k' v m :
  map_get k (map_set k' v m) = if decide (k = k') then Some v else map_get k m.
Proof.
  induction m as [|[j w] m IH]; simpl; [by repeat case_decide|].
  repeat (case_decide; subst; simpl); try done; by rewrite ?IH, ?decide_True, ?decide_False by done.
Qed.

Lemma map_get_set_eq k v m : map_get k (map_set k v m) = Some v.
Proof. by rewrite map_get_set, decide_True. Qed.

Lemma map_get_set_ne k k' v m : k ≠ k' → map_get k (map_set k' v m) = map_get k m.
Proof. intros. by rewrite map_get_set, decide_False. Qed.

Lemma map_keys_set k v m :
  map_keys (map_set k v m) = if decide (k ∈ map_keys m) then map_keys m else map_keys m ++ [k].
Proof.
  unfold map_keys. induction m as [|[j w] m IH]; csimpl.
  { destruct (decide (k ∈ [])); set_solver. }
  destruct (decide (k = j)) as [->|Hne]; csimpl.
  { destruct (decide (j ∈ j :: m.*1)); set_solver. }
  rewrite IH. destruct (decide (k ∈ m.*1)), (decide (k ∈ j :: m.*1)); set_solver.
Qed.

Lemma map_keys_set_NoDup k v m : NoDup (map_keys m) → NoDup (map_keys (map_set k v m)).
Proof.
  intros H. rewrite map_keys_set. case_decide; [done|].
  apply NoDup_app. split; [done|]. split; [set_solver|apply NoDup_singleton].
Qed.

Lemma map_keys_delete_NoDup k m : NoDup (map_keys m) → NoDup (map_keys (map_delete k m)).
Proof.
  unfold map_keys. induction m as [|[j w] m IH]; simpl; [done|].
  intros [Hj Hm]%NoDup_cons. case_decide; [done|]. simpl. apply NoDup_cons. split; [|auto].
  intros Hin. apply Hj. clear -Hin. induction m as [|[i u] m IHm]; simpl in *; [done|].
  case_decide; set_solver.
Qed.

Lemma map_get_elem k v m : map_get k m = Some v → (k, v) ∈ m.
Proof.
  induction m as [|[j w] m IH]; simpl; [done|].
  case_decide; [intros [= ->]; subst; set_solver|]. intros; set_solver.
Qed.

Lemma map_elem_get k v m : NoDup (map_keys m) → (k, v) ∈ m → map_get k m = Some v.
Proof.
  unfold map_keys. induction m as [|[j w] m IH]; simpl; [set_solver|].
  intros [Hj Hm]%NoDup_cons [[= -> ->]|Hin]%elem_of_cons; [by rewrite decide_True|].
  rewrite decide_False; [by apply IH|]. intros ->. apply Hj.
  apply list_elem_of_fmap. by exists (j, v).
Qed.

Lemma map_get_None k m : map_get k m = None ↔ k ∉ map_keys m.
Proof.
  unfold map_keys. induction m as [|[j w] m IH]; simpl; [set_solver|].
  case_decide; [subst; set_solver|]. rewrite IH. set_solver.
Qed.

Lemma map_get_delete_ne k k' m : k ≠ k' → map_get k (map_delete k' m) = map_get k m.
Proof.
  intros Hne. induction m as [|[j w] m IH]; simpl; [done|].
  destruct (decide (k' = j)) as [->|]; simpl; [by rewrite decide_False|].
  by case_decide.
Qed.

Lemma map_get_delete_eq k m : NoDup (map_keys m) → map_get k (map_delete k m) = None.
Proof.
  unfold map_keys. induction m as [|[j w] m IH]; simpl; [done|].
  intros [Hj Hm]%NoDup_cons. destruct (decide (k = j)) as [->|]; simpl.
  - by apply map_get_None.
  - rewrite decide_False by done. auto.
Qed.

(** The entries after a set: the old ones with the value replaced, or one
    entry more at the end. *)
Lemma map_set_new k v m : map_get k m = None → map_set k v m = m ++ [(k, v)].
Proof.
  induction m as [|[j w] m IH]; simpl; [done|].
  case_decide; [done|]. intros Hk. by rewrite IH.
Qed.

Lemma map_set_elem k v m j w :
  (j, w) ∈ map_set k v m → (j, w) = (k, v) ∨ (j, w) ∈ m.
Proof.
  induction m as [|[i u] m IH]; simpl; [set_solver|].
  destruct (decide (k = i)) as [->|]; set_solver.
Qed.

Lemma map_delete_elem k m j w : (j, w) ∈ map_delete k m → (j, w) ∈ m.
Proof.
  induction m as [|[i u] m IH]; simpl; [set_solver|]. case_decide; set_solver.
Qed.

Lemma map_set_id k v m : map_get k m = Some v → map_set k v m = m.
Proof.
  induction m as [|[j w] m IH]; simpl; [done|].
  case_decide; [intros [= ->]; by subst|]. intros Hk. by rewrite IH.
Qed.

(** A sum over the values changes by the replaced value. *)
Lemma zsum_map_set (f : V → Z) k v m :
  zsum f (map_values (map_set k v m)) =
  (zsum f (map_values m) - default 0 (f <$> map_get k m) + f v)%Z.
Proof.
  unfold map_values. induction m as [|[j w] m IH]; csimpl.
  { rewrite zsum_cons, zsum_nil. simpl. lia. }
  case_decide; csimpl; rewrite !zsum_cons; simpl; [lia|]. rewrite IH. lia.
Qed.

Lemma map_of_entries_NoDup l : NoDup (map_keys (map_of_entries l)).
Proof.
  unfold map_of_entries.
  assert (∀ m, NoDup (map_keys m) →
    NoDup (map_keys (fold_left (λ m kv, map_set kv.1 kv.2 m) l m))) as H.
  { induction l as [|[k v] l IH]; intros m Hm; simpl; [done|].
    apply IH. by apply map_keys_set_NoDup. }
  apply H. constructor.
Qed.

(** The last entry with a key wins. *)
Lemma map_get_of_entries k l :
  map_get k (map_of_entries l) = snd <$> find_first (λ kv, bool_decide (k = kv.1)) (reverse l).
Proof.
  unfold map_of_entries. rewrite <- (reverse_involutive l) at 1.
  generalize (reverse l). clear l. intros l.
  induction l as [|[j w] l IH]; [done|].
  rewrite reverse_cons, fold_left_app. simpl. rewrite map_get_set.
  case_decide; case_bool_decide; done.
Qed.
End js_map.

(** ** [Set] *)

Section js_set.
Context {K : Type} `{EqDecision K}.
Implicit Types (s l : list K) (k : K).

Definition set_has k s : bool := bool_decide (k ∈ s).
Definition set_add k s : list K := if set_has k s then s else s ++ [k].
Definition set_delete k s : list K := filter (λ x, x ≠ k) s.
(** [new Set(values)], also [[...new Set(values)]]. *)
Definition set_of_list l : list K := fold_left (λ s k, set_add k s) l [].

Lemma set_has_true k s : set_has k s = true ↔ k ∈ s.
Proof. apply bool_decide_eq_true. Qed.

Lemma elem_of_set_add k j s : j ∈ set_add k s ↔ j = k ∨ j ∈ s.
Proof. unfold set_add. destruct (set_has k s) eqn:H; [apply set_has_true in H|]; set_solver. Qed.

Lemma set_add_NoDup k s : NoDup s → NoDup (set_add k s).
Proof.
  intros H. unfold set_add. destruct (set_has k s) eqn:Hk; [done|].
  apply bool_decide_eq_false in Hk. apply NoDup_app. split; [done|].
  split; [set_solver|apply NoDup_singleton].
Qed.

Lemma fold_set_add l s :
  (∀ k, k ∈ fold_left (λ s k, set_add k s) l s ↔ k ∈ s ∨ k ∈ l) ∧
  (NoDup s → NoDup (fold_left (λ s k, set_add k s) l s)).
Proof.
  revert s. induction l as [|x l IH]; intros s; simpl; [set_solver|].
  destruct (IH (set_add x s)) as [H1 H2]. split.
  - intros k. rewrite H1, elem_of_set_add. set_solver.
  - intros Hs. apply H2. by apply set_add_NoDup.
Qed.

Lemma elem_of_set_of_list k l : k ∈ set_of_list l ↔ k ∈ l.
Proof. unfold set_of_list. rewrite (proj1 (fold_set_add l [])). set_solver. Qed.

Lemma set_of_list_NoDup l : NoDup (set_of_list l).
Proof. apply (fold_set_add l []). constructor. Qed.

(** A duplicate-free list is its own set, in order. *)
Lemma set_of_list_id l : NoDup l → set_of_list l = l.
Proof.
  intros Hl. unfold set_of_list.
  assert (∀ s, NoDup (s ++ l) → fold_left (λ s k, set_add k s) l s = s ++ l) as H.
  { clear Hl. induction l as [|x l IH]; intros s Hs; simpl; [by rewrite app_nil_r|].
    assert (set_add x s = s ++ [x]) as ->.
    { unfold set_add, set_has. rewrite bool_decide_eq_false_2; [done|].
      apply NoDup_app in Hs. set_solver. }
    rewrite IH; by rewrite <- app_assoc. }
  by apply (H []).
Qed.
End js_set.

#[export] Hint Rewrite @map_get_set_eq : berry.
#[export] Hint Resolve map_keys_set_NoDup map_keys_delete_NoDup map_of_entries_NoDup
  set_add_NoDup set_of_list_NoDup : berry.
