(* ===== verification/JsString.v ===== *)
(** * JavaScript string operations

    The members of [String.prototype] the modelled code calls, over the code
    units of [jstr], with the lemmas their clients use: [split] and [join] by a
    one-unit separator invert each other, UTF-8 lengths add up, and so on. *)

From S2P Require Import Prelude.
From Stdlib Require Import Lia.

Set Default Goal Selector "!".

Definition NL : N := 10%N.   (* "\n" *)
Definition CR : N := 13%N.   (* "\r" *)
Definition NUL : N := 0%N.   (* "\0" *)

(** ** Trimming *)

(** WhiteSpace and LineTerminator of ECMAScript, what [trim] and [\s] match. *)
Definition is_ws (c : N) : bool :=
  ((9 <=? c) && (c <=? 13) || (c =? 32) || (c =? 160) || (c =? 0x1680)
   || (0x2000 <=? c) && (c <=? 0x200a) || (c =? 0x2028) || (c =? 0x2029)
   || (c =? 0x202f) || (c =? 0x205f) || (c =? 0x3000) || (c =? 0xfeff))%N.

Fixpoint trim_start (s : jstr) : jstr :=
  match s with
  | [] => []
  | c :: s' => if is_ws c then trim_start s' else s
  end.

Definition trim_end (s : jstr) : jstr := reverse (trim_start (reverse s)).
Definition trim (s : jstr) : jstr := trim_end (trim_start s).

(** ** Order *)

(** The order of [Array.prototype.sort]: by code units, a prefix first. *)
Fixpoint js_le (a b : jstr) : bool :=
  match a, b with
  | [], _ => true
  | _, [] => false
  | x :: a, y :: b => (x <? y)%N || ((x =? y)%N && js_le a b)
  end.

(** ** Searching and slicing *)

Fixpoint starts_with (p s : jstr) : bool :=
  match p, s with
  | [], _ => true
  | a :: p, b :: s => (a =? b)%N && starts_with p s
  | _ :: _, [] => false
  end.

Definition ends_with (p s : jstr) : bool := starts_with (reverse p) (reverse s).

(** [s.slice(n)] and [s.slice(a, b)] for indices that are not negative. *)
Definition slice_from {A} (n : nat) (s : list A) : list A := drop n s.
Definition slice {A} (a b : nat) (s : list A) : list A := take (b - a) (drop a s).

(** ** Splitting and joining *)

(** [s.split(c)] for a separator of one code unit: never empty. *)
Fixpoint split_on (c : N) (s : jstr) : list jstr :=
  match s with
  | [] => [[]]
  | x :: s =>
      if (x =? c)%N then [] :: split_on c s
      else match split_on c s with
           | [] => [[x]]
           | l :: ls => (x :: l) :: ls
           end
  end.

(** [ls.join(sep)]. *)
Fixpoint join (sep : jstr) (ls : list jstr) : jstr :=
  match ls with
  | [] => []
  | [l] => l
  | l :: ls => l ++ sep ++ join sep ls
  end.

(** ** Numbers in strings *)

(** The decimal digits of a number that is not negative. *)
Fixpoint digits_of (fuel : nat) (z : Z) : jstr :=
  match fuel with
  | O => []
  | S f => (if (z <? 10)%Z then [] else digits_of f (z / 10)) ++ [Z.to_N (48 + z mod 10)]
  end.

(** [String(n)] for an integer below 10^21: the fuel covers every digit. *)
Definition dec (z : Z) : jstr :=
  let digits n := digits_of (S (Z.to_nat (Z.log2 n))) n in
  if (z <? 0)%Z then 45%N :: digits (- z)%Z else digits z.

Definition is_digit (c : N) : bool := ((48 <=? c) && (c <=? 57))%N.

Definition digit_value (c : N) : option Z :=
  if is_digit c then Some (Z.of_N c - 48)%Z
  else if ((97 <=? c) && (c <=? 102))%N then Some (Z.of_N c - 87)%Z
  else if ((65 <=? c) && (c <=? 70))%N then Some (Z.of_N c - 55)%Z
  else None.

Fixpoint parse_digits (base acc : Z) (s : jstr) : option Z :=
  match s with
  | [] => Some acc
  | c :: s =>
      match digit_value c with
      | Some d => if (d <? base)%Z then parse_digits base (acc * base + d)%Z s else None
      | None => None
      end
  end.

Definition parse_nonempty (base : Z) (s : jstr) : option Z :=
  match s with [] => None | _ => parse_digits base 0 s end.

(** StringToBigInt: surrounding white space, an optional sign on a decimal
    literal, or an unsigned literal with a radix prefix; the empty string is 0. *)
Definition parse_bigint (s : jstr) : option Z :=
  match trim s with
  | [] => Some 0%Z
  | 43%N :: s => parse_nonempty 10 s
  | 45%N :: s => Z.opp <$> parse_nonempty 10 s
  | 48%N :: 120%N :: s | 48%N :: 88%N :: s => parse_nonempty 16 s
  | 48%N :: 111%N :: s | 48%N :: 79%N :: s => parse_nonempty 8 s
  | 48%N :: 98%N :: s | 48%N :: 66%N :: s => parse_nonempty 2 s
  | s => parse_nonempty 10 s
  end.

(** ** UTF-8 *)

Definition is_high (c : N) : bool := ((0xd800 <=? c) && (c <=? 0xdbff))%N.
Definition is_low (c : N) : bool := ((0xdc00 <=? c) && (c <=? 0xdfff))%N.

Definition unit_bytes (c : N) : Z :=
  (if (c <=? 0x7f)%N then 1 else if (c <=? 0x7ff)%N then 2 else 3)%Z.

(** The bytes of the UTF-8 encoding, a lone surrogate encoded as U+FFFD: what
    [TextEncoder] and [Buffer.byteLength] count. *)
Fixpoint utf8_length (s : jstr) : Z :=
  match s with
  | [] => 0
  | c :: s' =>
      if is_high c then
        match s' with
        | d :: s'' => if is_low d then 4 + utf8_length s'' else 3 + utf8_length s'
        | [] => 3
        end
      else unit_bytes c + utf8_length s'
  end%Z.

(** ** Lemmas *)

Lemma starts_with_spec p s : starts_with p s = true ↔ p `prefix_of` s.
Proof.
  revert s. induction p as [|a p IH]; intros [|b s]; simpl.
  - split; [intros; apply prefix_nil|done].
  - split; [intros; apply prefix_nil|done].
  - split; [done|]. intros H. by apply prefix_nil_not in H.
  - rewrite andb_true_iff, N.eqb_eq, IH. split.
    + intros [-> H]. by apply prefix_cons.
    + intros H. split; [by eapply prefix_cons_inv_1|by eapply prefix_cons_inv_2].
Qed.

Lemma split_on_not_nil c s : split_on c s ≠ [].
Proof. destruct s as [|x s]; simpl; [done|]. destruct (x =? c)%N; [done|]. by case_match. Qed.

Lemma join_cons sep l ls : ls ≠ [] → join sep (l :: ls) = l ++ sep ++ join sep ls.
Proof. by destruct ls. Qed.

(** Splitting and joining back is the identity. *)
Lemma join_split c s : join [c] (split_on c s) = s.
Proof.
  induction s as [|x s IH]; [done|]. simpl.
  pose proof (split_on_not_nil c s) as Hn.
  destruct (N.eqb_spec x c) as [->|Hx].
  - rewrite join_cons by done. rewrite IH. done.
  - destruct (split_on c s) as [|l ls] eqn:Hs; [done|]. destruct ls; simpl in *; by rewrite IH.
Qed.

Lemma split_on_elem c s l : l ∈ split_on c s → c ∉ l.
Proof.
  revert l. induction s as [|x s IH]; intros l; simpl.
  - intros ->%list_elem_of_singleton. set_solver.
  - destruct (N.eqb_spec x c) as [->|Hx].
    + intros [->|H]%elem_of_cons; [set_solver|by apply IH].
    + pose proof (split_on_not_nil c s). destruct (split_on c s) as [|k ks]; [done|].
      intros [->|Hl]%elem_of_cons; [|apply IH; set_solver].
      pose proof (IH k). set_solver.
Qed.

Lemma split_on_line c l : c ∉ l → split_on c l = [l].
Proof.
  induction l as [|x l IH]; simpl; [done|]. intros H.
  destruct (N.eqb_spec x c) as [->|]; [set_solver|]. rewrite IH by set_solver. done.
Qed.

Lemma split_on_app c l s : c ∉ l → split_on c (l ++ c :: s) = l :: split_on c s.
Proof.
  induction l as [|x l IH]; simpl; intros H; [by rewrite N.eqb_refl|].
  destruct (N.eqb_spec x c) as [->|]; [set_solver|]. by rewrite IH by set_solver.
Qed.

(** Joining lines and splitting again is the identity, on a non-empty list of
    lines that hold no separator. *)
Lemma split_join c ls : ls ≠ [] → (∀ l, l ∈ ls → c ∉ l) → split_on c (join [c] ls) = ls.
Proof.
  induction ls as [|l ls IH]; [done|]. intros _ H.
  destruct ls as [|k ks]; [apply split_on_line; set_solver|].
  rewrite join_cons by done. cbn [app]. rewrite split_on_app by set_solver.
  rewrite IH; [done|done|set_solver].
Qed.

Lemma length_split_on c s : (0 < length (split_on c s))%nat.
Proof. pose proof (split_on_not_nil c s). destruct (split_on c s); simpl; [done|lia]. Qed.

Lemma unit_bytes_bounds c : (1 <= unit_bytes c <= 3)%Z.
Proof. unfold unit_bytes. repeat case_match; lia. Qed.

Lemma utf8_length_nonneg s : (0 <= utf8_length s)%Z.
Proof.
  remember (length s) as n eqn:Hn. revert s Hn.
  induction n as [n IH] using lt_wf_ind. intros [|c s] ->; simpl; [lia|].
  pose proof (unit_bytes_bounds c).
  destruct (is_high c).
  - destruct s as [|d s]; [lia|]. destruct (is_low d).
    + pose proof (IH (length s) ltac:(simpl; lia) s eq_refl). lia.
    + pose proof (IH (length (d :: s)) ltac:(simpl; lia) (d :: s) eq_refl). lia.
  - pose proof (IH (length s) ltac:(simpl; lia) s eq_refl). lia.
Qed.

(** A string that does not start with a low surrogate adds its own bytes. *)
Lemma utf8_length_app s t :
  match t with d :: _ => is_low d = false | [] => True end →
  utf8_length (s ++ t) = (utf8_length s + utf8_length t)%Z.
Proof.
  intros Ht. remember (length s) as n eqn:Hn. revert s Hn.
  induction n as [n IH] using lt_wf_ind. intros [|c s] ->; [done|].
  cbn [app utf8_length].
  destruct (is_high c) eqn:Hc.
  2:{ rewrite (IH (length s)) by (simpl; lia || done). lia. }
  destruct s as [|d s]; cbn [app].
  - destruct t as [|e t]; [simpl; lia|]. rewrite Ht. cbn. lia.
  - destruct (is_low d).
    + rewrite (IH (length s)) by (simpl; lia || done). lia.
    + change (d :: s ++ t) with ((d :: s) ++ t).
      rewrite (IH (length (d :: s)) ltac:(simpl; lia) (d :: s) eq_refl). lia.
Qed.

(** ** Decimal digits *)

Lemma parse_digits_snoc base acc s c :
  parse_digits base acc (s ++ [c])
  = parse_digits base acc s ≫= λ v,
      match digit_value c with
      | Some d => if (d <? base)%Z then Some (v * base + d)%Z else None
      | None => None
      end.
Proof.
  revert acc. induction s as [|x s IH]; intros acc; [by simpl; repeat case_match|]. simpl.
  destruct (digit_value x) as [d|]; [|done]. destruct (d <? base)%Z; [apply IH|done].
Qed.

Lemma digit_value_digit d : (0 <= d < 10)%Z → digit_value (Z.to_N (48 + d)) = Some d.
Proof.
  intros Hd. unfold digit_value, is_digit.
  rewrite !(proj2 (N.leb_le _ _)) by lia. simpl. f_equal. lia.
Qed.

Lemma digits_of_parse fuel z :
  (0 <= z < 10 ^ Z.of_nat fuel)%Z → fuel ≠ O → parse_digits 10 0 (digits_of fuel z) = Some z.
Proof.
  revert z. induction fuel as [|f IH]; intros z Hz Hf; [done|]. cbn [digits_of].
  rewrite parse_digits_snoc, digit_value_digit by (apply Z.mod_pos_bound; lia).
  rewrite (proj2 (Z.ltb_lt _ _)) by (apply Z.mod_pos_bound; lia).
  destruct (Z.ltb_spec z 10); simpl.
  - rewrite Z.mod_small by lia. done.
  - rewrite Nat2Z.inj_succ, Z.pow_succ_r in Hz by lia.
    destruct f as [|f]; [simpl in Hz; lia|].
    rewrite IH; [simpl; f_equal; zlia| |done]. split; [zlia|]. apply Z.div_lt_upper_bound; lia.
Qed.

Lemma digits_fuel z : (0 <= z)%Z → (z < 10 ^ Z.of_nat (S (Z.to_nat (Z.log2 z))))%Z.
Proof.
  intros Hz. destruct (decide (z = 0)%Z) as [->|]; [done|].
  pose proof (Z.log2_spec z ltac:(lia)) as [_ H].
  rewrite Nat2Z.inj_succ, Z2Nat.id by apply Z.log2_nonneg.
  eapply Z.lt_le_trans; [exact H|]. apply Z.pow_le_mono_l.
  pose proof (Z.log2_nonneg z). lia.
Qed.

Lemma digits_of_digits fuel z c : (0 <= z)%Z → c ∈ digits_of fuel z → is_digit c = true.
Proof.
  revert z. induction fuel as [|f IH]; intros z Hz; simpl; [set_solver|].
  pose proof (Z.mod_pos_bound z 10 ltac:(lia)).
  intros [Hin|Hin]%elem_of_app.
  - destruct (z <? 10)%Z; [set_solver|]. apply (IH (z / 10)%Z); [zlia|done].
  - apply list_elem_of_singleton in Hin as ->. unfold is_digit.
    rewrite !(proj2 (N.leb_le _ _)) by lia. done.
Qed.

(** No leading zero, but for 0 itself. *)
Lemma digits_of_head fuel z c s :
  (0 <= z)%Z → (z < 10 ^ Z.of_nat fuel)%Z → digits_of fuel z = c :: s → c = 48%N → s = [].
Proof.
  revert z s. induction fuel as [|f IH]; intros z s Hz Hf; cbn [digits_of]; [done|].
  destruct (Z.ltb_spec z 10); [by intros [= <- <-]|].
  rewrite Nat2Z.inj_succ, Z.pow_succ_r in Hf by lia.
  destruct (digits_of f (z / 10)) as [|c' s'] eqn:Hd.
  - destruct f as [|f]; [simpl in Hf; lia|]. cbn [digits_of] in Hd.
    by apply app_eq_nil in Hd as [_ ?].
  - intros [= <- <-] ->. exfalso.
    pose proof (IH (z / 10)%Z s' ltac:(zlia) ltac:(apply Z.div_lt_upper_bound; lia) Hd eq_refl) as ->.
    pose proof (digits_of_parse f (z / 10)) as Hp. rewrite Hd in Hp. simpl in Hp.
    destruct f as [|f]; [done|].
    assert (Some 0%Z = Some (z / 10)%Z) as [= Heq]; [|zlia].
    apply Hp; [split; [zlia|apply Z.div_lt_upper_bound; lia]|done].
Qed.

(** *** What [trim] keeps *)

Lemma trim_start_keeps s : (∃ c, c ∈ s ∧ is_ws c = false) → ∃ c, c ∈ trim_start s ∧ is_ws c = false.
Proof.
  induction s as [|x s IH]; intros (c & Hin & Hc); [set_solver|]. simpl.
  destruct (is_ws x) eqn:Hx; [|by exists c]. apply IH. exists c. split; [|done].
  apply elem_of_cons in Hin as [->|]; [congruence|done].
Qed.

Lemma trim_keeps s : (∃ c, c ∈ s ∧ is_ws c = false) → truthy (trim s) = true.
Proof.
  intros H. apply trim_start_keeps in H as (c & Hin & Hc).
  destruct (trim_start_keeps (reverse (trim_start s))) as (d & Hd & _).
  { exists c. by rewrite elem_of_reverse. }
  unfold trim, trim_end. apply elem_of_reverse in Hd.
  destruct (reverse (trim_start (reverse (trim_start s)))); [set_solver|done].
Qed.

#[export] Hint Rewrite join_split : berry.
#[export] Hint Resolve split_on_not_nil split_on_elem utf8_length_nonneg : berry.
