(* ===== verification/PosixPath.v ===== *)
(** * Paths

    What the code uses of node:path on POSIX systems: [normalize], [resolve],
    [relative], [dirname], [basename]. An absolute path in normal form is its list of
    segments: [abs_path] and [segments] go back and forth. *)

From S2P Require Import Prelude JsString.
From Stdlib Require Import Lia.

Set Default Goal Selector "!".

Definition slash : N := 47%N.

(** The text without the slashes it starts with. *)
Fixpoint strip_slashes (s : jstr) : jstr :=
  match s with c :: s' => if (c =? slash)%N then strip_slashes s' else s | [] => [] end.

(** The parts without empty ones and [.], each [..] removing the part before it. *)
Fixpoint normalize_parts (absolute : bool) (parts acc : list jstr) : list jstr :=
  match parts with
  | [] => acc
  | p :: parts =>
      if negb (truthy p) || bool_decide (p = js ".") then normalize_parts absolute parts acc
      else if bool_decide (p = js "..") then
        match last acc with
        | Some q => if bool_decide (q = js "..") then normalize_parts absolute parts (acc ++ [p])
                    else normalize_parts absolute parts (take (length acc - 1) acc)
        | None => normalize_parts absolute parts (if absolute then acc else acc ++ [p])
        end
      else normalize_parts absolute parts (acc ++ [p])
  end.
Definition posix_normalize (path : jstr) : jstr :=
  match path with
  | [] => js "."
  | c :: _ =>
      let absolute := (c =? slash)%N in
      let body := join [slash] (normalize_parts absolute (split_on slash path) []) in
      let trailing := ends_with [slash] path in
      let body := if truthy body then (if trailing then body ++ [slash] else body)
                  else if absolute then [] else if trailing then js "./" else js "." in
      if absolute then slash :: body else body
  end.

Definition isAbsolute (p : jstr) : bool := match p with c :: _ => (c =? slash)%N | [] => false end.

(** The parts between slashes that are not empty. *)
Definition segments (p : jstr) : list jstr := filter (λ s, truthy s = true) (split_on slash p).
Definition abs_path (segs : list jstr) : jstr := slash :: join [slash] segs.

(** [resolve]: the arguments from the last to the first, up to an absolute one; the
    working directory [cwd] is absolute. *)
Fixpoint resolve_text (cwd : jstr) (rev : list jstr) (acc : jstr) : jstr :=
  match rev with
  | [] => cwd ++ slash :: acc
  | p :: rev =>
      if truthy p then
        if isAbsolute p then p ++ slash :: acc else resolve_text cwd rev (p ++ slash :: acc)
      else resolve_text cwd rev acc
  end.
Definition resolve (cwd : jstr) (paths : list jstr) : jstr :=
  abs_path (normalize_parts true (split_on slash (resolve_text cwd (reverse paths) [])) []).

(** [relative]: up from the one path to the common ancestor, down to the other. *)
Fixpoint common_length (a b : list jstr) : nat :=
  match a, b with x :: a, y :: b => if bool_decide (x = y) then S (common_length a b) else O | _, _ => O end.
Definition relative (cwd from to : jstr) : jstr :=
  let f := segments (resolve cwd [from]) in
  let t := segments (resolve cwd [to]) in
  let n := common_length f t in
  join [slash] (replicate (length f - n) (js "..") ++ drop n t).

(** [basename] and, for paths in normal form, [dirname]. *)
Definition path_basename (p : jstr) : jstr := default [] (last (segments p)).
Definition dirname (p : jstr) : jstr :=
  let segs := segments p in
  if isAbsolute p then abs_path (take (length segs - 1) segs)
  else if (length segs <=? 1)%nat then js "." else join [slash] (take (length segs - 1) segs).

(** ** Segments in normal form *)

Definition seg (s : jstr) : Prop := s ≠ [] ∧ s ≠ js "." ∧ s ≠ js ".." ∧ slash ∉ s.
#[export] Instance seg_dec s : Decision (seg s).
Proof. unfold seg. apply _. Defined.

Lemma truthy_spec s : truthy s = true ↔ s ≠ [].
Proof. destruct s; simpl; split; done. Qed.

Lemma normalize_parts_segs parts acc :
  (∀ p, p ∈ parts → slash ∉ p) → Forall seg acc → Forall seg (normalize_parts true parts acc).
Proof.
  revert acc. induction parts as [|p parts IH]; intros acc Hp Ha; simpl; [done|].
  assert (∀ q, q ∈ parts → slash ∉ q) as Hps by (intros; apply Hp; by right).
  destruct (negb (truthy p) || bool_decide (p = js ".")) eqn:E1; [by apply IH|].
  apply orb_false_iff in E1 as [E1%negb_false_iff%truthy_spec E2%bool_decide_eq_false].
  case_bool_decide as E3.
  - destruct (last acc) as [q|] eqn:El; [|by apply IH].
    rewrite bool_decide_false; [by apply IH, Forall_take|].
    apply last_Some in El as [acc' ->]. rewrite Forall_app, Forall_singleton in Ha. by destruct Ha as (_ & _ & _ & ? & _).
  - apply IH; [done|]. apply Forall_app. split; [done|]. apply Forall_singleton. split_and!; try done. apply Hp. by left.
Qed.

Lemma normalize_parts_app parts parts' acc absolute :
  normalize_parts absolute (parts ++ parts') acc = normalize_parts absolute parts' (normalize_parts absolute parts acc).
Proof.
  revert acc. induction parts as [|p parts IH]; intros acc; simpl; [done|].
  repeat case_match; by rewrite IH.
Qed.

Lemma normalize_parts_seg segs acc absolute :
  Forall seg segs → normalize_parts absolute segs acc = acc ++ segs.
Proof.
  intros H. revert acc. induction H as [|s segs (Hs1 & Hs2 & Hs3 & _) _ IH]; intros acc; simpl; [by rewrite app_nil_r|].
  rewrite !bool_decide_false by done. destruct s; [done|]. simpl. by rewrite IH, <- (assoc_L (++)).
Qed.

Lemma split_on_slash_cons a b : split_on slash (a ++ slash :: b) = split_on slash a ++ split_on slash b.
Proof.
  induction a as [|x a IH]; [done|]. simpl. destruct (N.eqb_spec x slash) as [->|Hx]; [by rewrite IH|].
  rewrite IH. pose proof (split_on_not_nil slash a). by destruct (split_on slash a).
Qed.

Lemma segments_abs segs : Forall seg segs → segments (abs_path segs) = segs.
Proof.
  intros H. unfold segments, abs_path. change (slash :: ?x) with ([] ++ slash :: x). rewrite split_on_slash_cons.
  destruct segs as [|s segs]; [done|]. rewrite split_join; [|done|].
  - cbn [split_on app]. rewrite filter_cons_False by done. induction H as [|x l (Hx & _) _ IH]; [done|].
    rewrite filter_cons_True by (by apply truthy_spec). by f_equal.
  - intros l Hl. rewrite Forall_forall in H. by destruct (H l Hl) as (_ & _ & _ & ?).
Qed.

Lemma abs_path_inj a b : Forall seg a → Forall seg b → abs_path a = abs_path b → a = b.
Proof. intros Ha Hb H. rewrite <- (segments_abs a), <- (segments_abs b) by done. by rewrite H. Qed.

(** Normal form reached from an absolute path by a list of steps. *)
Definition walk (from : list jstr) (p : jstr) : list jstr := normalize_parts true (split_on slash p) from.

Lemma walk_segs from p : Forall seg from → Forall seg (walk from p).
Proof. intros H. apply normalize_parts_segs; [|done]. intros q. apply split_on_elem. Qed.

Lemma walk_app from a b : walk from (a ++ slash :: b) = walk (walk from a) b.
Proof. unfold walk. by rewrite split_on_slash_cons, normalize_parts_app. Qed.

Lemma walk_nil from : walk from [] = from.
Proof. done. Qed.

Lemma walk_abs segs : Forall seg segs → walk [] (abs_path segs) = segs.
Proof.
  intros H. unfold walk, abs_path. change (slash :: ?x) with ([] ++ slash :: x). rewrite split_on_slash_cons.
  destruct segs as [|s segs]; [done|]. rewrite split_join; [|done|].
  - change (normalize_parts true (s :: segs) [] = s :: segs). by rewrite normalize_parts_seg.
  - intros l Hl. rewrite Forall_forall in H. by destruct (H l Hl) as (_ & _ & _ & ?).
Qed.

(** The directory a list of arguments is resolved from, and where it leads. *)
Definition step_from (from : list jstr) (p : jstr) : list jstr := walk (if isAbsolute p then [] else from) p.

Lemma resolve_text_walk cwd rev acc :
  walk [] (resolve_text cwd rev acc) = walk (foldl step_from (walk [] cwd) (reverse rev)) acc.
Proof.
  revert acc. induction rev as [|p rev IH]; intros acc; simpl.
  - by rewrite walk_app.
  - rewrite reverse_cons, foldl_snoc. unfold step_from at 1.
    destruct p as [|c p]; simpl truthy; cbn [isAbsolute]; [by rewrite IH|].
    destruct (c =? slash)%N; [by rewrite walk_app|]. by rewrite IH, walk_app.
Qed.

(** [resolve] steps from the working directory through its arguments. *)
Lemma resolve_spec cwd paths : resolve cwd paths = abs_path (foldl step_from (walk [] cwd) paths).
Proof.
  unfold resolve. fold (walk [] (resolve_text cwd (reverse paths) [])).
  by rewrite resolve_text_walk, walk_nil, reverse_involutive.
Qed.

Lemma foldl_step_segs from paths : Forall seg from → Forall seg (foldl step_from from paths).
Proof.
  revert from. induction paths as [|p paths IH]; intros from H; simpl; [done|]. apply IH.
  unfold step_from. destruct (isAbsolute p); by apply walk_segs.
Qed.

Lemma resolve_segs cwd paths : ∃ segs, Forall seg segs ∧ resolve cwd paths = abs_path segs.
Proof. rewrite resolve_spec. eexists. split; [|done]. by apply foldl_step_segs, walk_segs. Qed.

Lemma step_from_abs from segs : Forall seg segs → step_from from (abs_path segs) = segs.
Proof. apply walk_abs. Qed.

Lemma resolve_abs cwd segs : Forall seg segs → resolve cwd [abs_path segs] = abs_path segs.
Proof. intros H. rewrite resolve_spec. simpl. by rewrite step_from_abs. Qed.

Lemma resolve_abs_2 cwd segs p :
  Forall seg segs → resolve cwd [abs_path segs; p] = abs_path (step_from segs p).
Proof. intros H. rewrite resolve_spec. simpl. by rewrite step_from_abs. Qed.

Lemma common_length_app a b : common_length a (a ++ b) = length a.
Proof. induction a as [|x a IH]; simpl; [by destruct b|]. by rewrite bool_decide_true, IH. Qed.

Lemma relative_below cwd segs rel :
  Forall seg segs → Forall seg rel → relative cwd (abs_path segs) (abs_path (segs ++ rel)) = join [slash] rel.
Proof.
  intros H1 H2. unfold relative. rewrite !resolve_abs, !segments_abs by (try apply Forall_app; done).
  by rewrite common_length_app, Nat.sub_diag, drop_app_length.
Qed.

(** A path starts with a directory and a slash when it is below the directory. *)
Lemma starts_below a b :
  a ≠ [] → Forall seg a → Forall seg b →
  starts_with (abs_path a ++ [slash]) (abs_path b) = true ↔ ∃ r, r ≠ [] ∧ b = a ++ r.
Proof.
  intros Hne Ha Hb. rewrite starts_with_spec. split.
  - intros [t Ht]. rewrite <- (assoc_L (++)) in Ht. simpl app in Ht.
    assert (Hs : split_on slash (abs_path b) = split_on slash (abs_path a) ++ split_on slash t)
      by (rewrite Ht; apply (split_on_slash_cons (abs_path a) t)).
    apply (f_equal (filter (λ s, truthy s = true))) in Hs. rewrite filter_app in Hs.
    change (segments (abs_path b) = segments (abs_path a) ++ segments t) in Hs.
    rewrite !segments_abs in Hs by done. exists (segments t). split; [|done].
    intros Hn. rewrite Hn, app_nil_r in Hs. subst b. apply (f_equal length) in Ht.
    assert (length (abs_path a ++ slash :: t) = length (abs_path a) + S (length t))%nat as Hl by apply length_app.
    change (length (abs_path a) = length (abs_path a ++ slash :: t)) in Ht. lia.
  - intros (r & Hr & ->). exists (join [slash] r). unfold abs_path. simpl. f_equal.
    clear Hb Ha. induction a as [|x a IH]; [done|]. destruct a as [|y a].
    + simpl app. rewrite join_cons by (by destruct r). by rewrite <- (assoc_L (++)).
    + rewrite <- app_comm_cons, !join_cons by (simpl; done). rewrite IH by done. by rewrite <- !(assoc_L (++)).
Qed.

Lemma dirname_abs segs s : Forall seg (segs ++ [s]) → dirname (abs_path (segs ++ [s])) = abs_path segs.
Proof.
  intros H. unfold dirname. rewrite segments_abs by done. simpl isAbsolute. cbn iota.
  rewrite length_app. simpl length. by rewrite Nat.add_sub, take_app_length.
Qed.

Lemma segments_join rel : Forall seg rel → segments (join [slash] rel) = rel.
Proof.
  intros H. rewrite <- (segments_abs rel) at 2 by done. unfold segments, abs_path.
  change (slash :: ?x) with ([] ++ slash :: x). by rewrite split_on_slash_cons.
Qed.
