(* ===== verification/Calendar.v ===== *)
(** * Calendar arithmetic and allowance cycles

    The ECMAScript day and time functions the code calls through [Date.UTC] and
    [Intl.DateTimeFormat], and the allowance-cycle windows of
    apps/api/src/budget/budget.service.ts built on them. Times are integral
    milliseconds since the epoch. A time zone is the function from an instant to
    its local date parts, which [Intl.DateTimeFormat.formatToParts] computes. *)

From S2P Require Import Prelude.
From Stdlib Require Import Lia.
Local Open Scope Z_scope.

(** ** ECMAScript dates *)

Definition ms_per_day : Z := 86400000.

Definition is_leap (y : Z) : bool :=
  ((y mod 4 =? 0) && negb (y mod 100 =? 0)) || (y mod 400 =? 0).

(** Day number of January 1st (DayFromYear). *)
Definition day_from_year (y : Z) : Z :=
  365 * (y - 1970) + (y - 1969) / 4 - (y - 1901) / 100 + (y - 1601) / 400.

(** Days before the month (0 is January) in its year. *)
Definition month_offset (leap : bool) (m : Z) : Z :=
  let l := if leap then 1 else 0 in
  if m <=? 0 then 0 else if m <=? 1 then 31 else if m <=? 2 then 59 + l
  else if m <=? 3 then 90 + l else if m <=? 4 then 120 + l else if m <=? 5 then 151 + l
  else if m <=? 6 then 181 + l else if m <=? 7 then 212 + l else if m <=? 8 then 243 + l
  else if m <=? 9 then 273 + l else if m <=? 10 then 304 + l else 334 + l.

(** MakeDay, with the month carried into the year. *)
Definition make_day (year month date : Z) : Z :=
  let ym := year + month / 12 in
  day_from_year ym + month_offset (is_leap ym) (month mod 12) + date - 1.

(** [Date.UTC], which reads the years 0 to 99 as 1900 to 1999. *)
Definition full_year (y : Z) : Z := if (0 <=? y) && (y <=? 99) then 1900 + y else y.
Definition date_utc (year month day hour minute second : Z) : Z :=
  make_day (full_year year) month day * ms_per_day
  + hour * 3600000 + minute * 60000 + second * 1000.

(** YearFromTime: the largest year that starts no later than the day. *)
Definition year_from_day (d : Z) : Z :=
  let y := 1970 + (400 * d) / 146097 in
  if day_from_year (y + 1) <=? d then y + 1
  else if day_from_year y <=? d then y else y - 1.

(** MonthFromTime, 0 for January. *)
Definition month_from_doy (leap : bool) (doy : Z) : Z :=
  if doy <? month_offset leap 1 then 0 else if doy <? month_offset leap 2 then 1
  else if doy <? month_offset leap 3 then 2 else if doy <? month_offset leap 4 then 3
  else if doy <? month_offset leap 5 then 4 else if doy <? month_offset leap 6 then 5
  else if doy <? month_offset leap 7 then 6 else if doy <? month_offset leap 8 then 7
  else if doy <? month_offset leap 9 then 8 else if doy <? month_offset leap 10 then 9
  else if doy <? month_offset leap 11 then 10 else 11.

(** ** Local date parts *)

Record LocalDateParts := {
  lp_year : Z; lp_month : Z; lp_day : Z; lp_hour : Z; lp_minute : Z; lp_second : Z;
}.

(** The parts in UTC: months count from 1, hours are [h23]. *)
Definition utc_parts (t : Z) : LocalDateParts :=
  let d := t / ms_per_day in
  let y := year_from_day d in
  let doy := d - day_from_year y in
  let m := month_from_doy (is_leap y) doy in
  let r := t mod ms_per_day in
  {| lp_year := y; lp_month := m + 1; lp_day := doy - month_offset (is_leap y) m + 1;
     lp_hour := r / 3600000; lp_minute := r / 60000 mod 60; lp_second := r / 1000 mod 60 |}.

(** A zone at a constant offset from UTC. *)
Definition fixed_offset_parts (offset t : Z) : LocalDateParts := utc_parts (t + offset).

(** ** Windows *)

Record Window := { w_start : Z; w_end : Z }.

Record AllowanceCycleSettings := {
  acs_tenantId : jstr; acs_timezone : jstr; acs_anchorDay : Z;
  acs_updatedBy : option jstr; acs_updatedAt : Z;
}.

Section windows.
(** [localDateParts timezone at]: the parts of an instant in a zone. *)
Variable localDateParts : jstr → Z → LocalDateParts.

(** Iterate at most [n] corrections towards local midnight. *)
Fixpoint midnight_loop (n : nat) (desired candidate : Z) (timezone : jstr) : Z :=
  match n with
  | O => candidate
  | S n =>
      let actual := localDateParts timezone candidate in
      let represented := date_utc (lp_year actual) (lp_month actual - 1) (lp_day actual)
                           (lp_hour actual) (lp_minute actual) (lp_second actual) in
      let difference := desired - represented in
      let candidate := candidate + difference in
      if difference =? 0 then candidate else midnight_loop n desired candidate timezone
  end.

Definition zonedLocalMidnightToUtc (year month day : Z) (timezone : jstr) : Z :=
  let desired := date_utc year (month - 1) day 0 0 0 in
  midnight_loop 4 desired desired timezone.

Definition nextCalendarMonth (year month : Z) : Z * Z :=
  if month =? 12 then (year + 1, 1) else (year, month + 1).

(** The month the cycle containing [local] starts in. *)
Definition cycle_month (local : LocalDateParts) (anchorDay : Z) : Z * Z :=
  let year := lp_year local in
  let month := lp_month local in
  if lp_day local <? anchorDay then
    let month := month - 1 in
    if month =? 0 then (year - 1, 12) else (year, month)
  else (year, month).

Definition allowanceCycleWindow (settings : AllowanceCycleSettings) (at_ : Z) : Window :=
  let tz := acs_timezone settings in
  let anchor := acs_anchorDay settings in
  let '(year, month) := cycle_month (localDateParts tz at_) anchor in
  let '(nyear, nmonth) := nextCalendarMonth year month in
  {| w_start := zonedLocalMidnightToUtc year month anchor tz;
     w_end := zonedLocalMidnightToUtc nyear nmonth anchor tz |}.
End windows.

(** ** Correctness of the date functions *)

Lemma day_from_year_succ y :
  day_from_year (y + 1) = day_from_year y + 365 + (if is_leap y then 1 else 0).
Proof.
  unfold day_from_year, is_leap.
  destruct (Z.eqb_spec (y mod 4) 0), (Z.eqb_spec (y mod 100) 0), (Z.eqb_spec (y mod 400) 0);
    simpl; zlia.
Qed.

Lemma year_from_day_spec d :
  day_from_year (year_from_day d) <= d < day_from_year (year_from_day d + 1).
Proof.
  unfold year_from_day.
  set (y := 1970 + 400 * d / 146097).
  assert (day_from_year (y - 1) <= d < day_from_year (y + 2)) as [Hl Hu].
  { unfold day_from_year, y. zlia. }
  destruct (Z.leb_spec (day_from_year (y + 1)) d).
  { replace (y + 1 + 1) with (y + 2) by lia. lia. }
  destruct (Z.leb_spec (day_from_year y) d); [lia|].
  replace (y - 1 + 1) with y by lia. lia.
Qed.

Lemma month_from_doy_spec leap doy (m := month_from_doy leap doy) :
  0 <= doy < 365 + (if leap then 1 else 0) →
  0 <= m <= 11 ∧ month_offset leap m <= doy ∧
  (m < 11 → doy < month_offset leap (m + 1)).
Proof.
  intros H. unfold month_from_doy in m. subst m. destruct leap; unfold month_offset; simpl;
    repeat (match goal with |- context [?a <? ?b] => destruct (Z.ltb_spec a b) end; [simpl; lia|]);
    simpl; lia.
Qed.

(** The day number of a date is recovered from its parts. *)
Lemma make_day_parts t (p := utc_parts t) :
  make_day (lp_year p) (lp_month p - 1) (lp_day p) = t / ms_per_day.
Proof.
  subst p. simpl. unfold make_day.
  set (d := t / ms_per_day). pose proof (year_from_day_spec d) as Hy.
  rewrite day_from_year_succ in Hy.
  pose proof (month_from_doy_spec (is_leap (year_from_day d)) (d - day_from_year (year_from_day d))
    ltac:(lia)) as (Hm & _ & _).
  rewrite Z.add_simpl_r, Z.div_small, Z.mod_small, Z.add_0_r by lia. lia.
Qed.

Lemma day_from_year_mono y z : y <= z → day_from_year y <= day_from_year z.
Proof. unfold day_from_year. intros. zlia. Qed.

Lemma year_from_day_unique d y :
  day_from_year y <= d < day_from_year (y + 1) → year_from_day d = y.
Proof.
  intros H. pose proof (year_from_day_spec d) as Hs.
  destruct (Z.lt_trichotomy (year_from_day d) y) as [Hlt|[->|Hgt]]; [|done|].
  - pose proof (day_from_year_mono (year_from_day d + 1) y ltac:(lia)). lia.
  - pose proof (day_from_year_mono (y + 1) (year_from_day d) ltac:(lia)). lia.
Qed.

(** Days of month [m] (1 is January) of year [y]. *)
Definition month_length (y m : Z) : Z :=
  (if m =? 12 then 365 + (if is_leap y then 1 else 0) else month_offset (is_leap y) m)
  - month_offset (is_leap y) (m - 1).

Lemma month_length_bounds y m : 1 <= m <= 12 → 28 <= month_length y m <= 31.
Proof.
  intros H. unfold month_length, month_offset.
  assert (m = 1 ∨ m = 2 ∨ m = 3 ∨ m = 4 ∨ m = 5 ∨ m = 6 ∨ m = 7 ∨ m = 8 ∨ m = 9 ∨ m = 10
    ∨ m = 11 ∨ m = 12) as Hm by lia.
  destruct (is_leap y); repeat destruct Hm as [->|Hm]; subst; simpl; lia.
Qed.

Lemma make_day_month y m d : 1 <= m <= 12 →
  make_day y (m - 1) d = day_from_year y + month_offset (is_leap y) (m - 1) + d - 1.
Proof. intros H. unfold make_day. by rewrite Z.div_small, Z.mod_small, Z.add_0_r by lia. Qed.

Lemma make_day_next y m d (n := nextCalendarMonth y m) : 1 <= m <= 12 →
  1 <= n.2 <= 12 ∧ make_day n.1 (n.2 - 1) d = make_day y (m - 1) d + month_length y m.
Proof.
  intros H. subst n. unfold nextCalendarMonth, month_length.
  destruct (Z.eqb_spec m 12) as [->|Hm]; cbn [fst snd]; (split; [lia|]).
  - rewrite !make_day_month, day_from_year_succ by lia.
    change (month_offset (is_leap (y + 1)) (1 - 1)) with 0. lia.
  - rewrite !make_day_month by lia. rewrite Z.add_simpl_r. lia.
Qed.

Lemma utc_parts_range t (p := utc_parts t) :
  1 <= lp_month p <= 12 ∧ 1 <= lp_day p <= month_length (lp_year p) (lp_month p).
Proof.
  subst p. simpl. set (d := t / ms_per_day). pose proof (year_from_day_spec d) as Hy.
  rewrite day_from_year_succ in Hy.
  pose proof (month_from_doy_spec (is_leap (year_from_day d)) (d - day_from_year (year_from_day d))
    ltac:(lia)) as (Hm & Hlo & Hhi).
  split; [lia|]. unfold month_length. rewrite Z.add_simpl_r.
  destruct (Z.eqb_spec (month_from_doy (is_leap (year_from_day d))
    (d - day_from_year (year_from_day d)) + 1) 12) as [He|]; lia.
Qed.

(** Every date of the calendar is the local date of its first instant. *)
Lemma utc_parts_make_day y m d :
  1 <= m <= 12 → 1 <= d <= month_length y m →
  utc_parts (make_day y (m - 1) d * ms_per_day)
  = {| lp_year := y; lp_month := m; lp_day := d; lp_hour := 0; lp_minute := 0; lp_second := 0 |}.
Proof.
  intros Hm Hd. unfold utc_parts.
  rewrite Z.div_mul, Z.mod_mul by (unfold ms_per_day; lia).
  rewrite make_day_month by lia. unfold month_length, month_offset in *.
  rewrite (year_from_day_unique _ y).
  2:{ rewrite day_from_year_succ. destruct (is_leap y); repeat case_match; lia. }
  assert (month_from_doy (is_leap y)
    (day_from_year y + month_offset (is_leap y) (m - 1) + d - 1 - day_from_year y) = m - 1) as Hmo.
  { set (o := day_from_year y). replace (o + month_offset (is_leap y) (m - 1) + d - 1 - o)
      with (month_offset (is_leap y) (m - 1) + d - 1) by lia.
    assert (m = 1 ∨ m = 2 ∨ m = 3 ∨ m = 4 ∨ m = 5 ∨ m = 6 ∨ m = 7 ∨ m = 8 ∨ m = 9 ∨ m = 10
      ∨ m = 11 ∨ m = 12) as Hmm by lia.
    unfold month_from_doy, month_offset.
    destruct (is_leap y); repeat destruct Hmm as [->|Hmm]; subst; simpl in *;
      repeat (case_match; try lia); lia. }
  unfold month_offset in Hmo. rewrite Hmo. f_equal; try lia.
Qed.

(** ** Allowance windows in a zone with a constant offset *)

(** The first instant of the year 100, below which [Date.UTC] shifts years. *)
Definition year_100 : Z := day_from_year 100 * ms_per_day.

Lemma utc_parts_year_100 t : year_100 <= t → 100 <= lp_year (utc_parts t).
Proof.
  intros H. simpl. set (d := t / ms_per_day).
  assert (day_from_year 100 <= d).
  { unfold d. apply Z.div_le_lower_bound; unfold ms_per_day in *; [lia|].
    unfold year_100, ms_per_day in H. lia. }
  pose proof (year_from_day_spec d) as Hs.
  destruct (Z.le_gt_cases 100 (year_from_day d)) as [|Hlt]; [done|].
  pose proof (day_from_year_mono (year_from_day d + 1) 100 ltac:(lia)). lia.
Qed.

(** Reading the local parts of a whole second back with [Date.UTC]. *)
Lemma date_utc_parts t (p := utc_parts t) :
  year_100 <= t → t mod 1000 = 0 →
  date_utc (lp_year p) (lp_month p - 1) (lp_day p) (lp_hour p) (lp_minute p) (lp_second p) = t.
Proof.
  intros Hy Ht. unfold date_utc, full_year.
  pose proof (utc_parts_year_100 t Hy) as H100. subst p.
  destruct (Z.leb_spec (lp_year (utc_parts t)) 99); [lia|].
  rewrite andb_false_r, make_day_parts. simpl. unfold ms_per_day. zlia.
Qed.

Lemma date_utc_day y m d : 100 <= y → date_utc y m d 0 0 0 = make_day y m d * ms_per_day.
Proof.
  intros H. unfold date_utc, full_year.
  destruct (Z.leb_spec y 99); [lia|]. rewrite andb_false_r. lia.
Qed.

(** The correction loop finds local midnight after one step. *)
Lemma midnight_fixed_offset offset zone y m d (t := make_day y (m - 1) d * ms_per_day) :
  100 <= y → year_100 <= t → year_100 <= t + offset → offset mod 1000 = 0 →
  zonedLocalMidnightToUtc (λ _, fixed_offset_parts offset) y m d zone = t - offset.
Proof.
  intros Hy Ht Hto Hoff. unfold zonedLocalMidnightToUtc. rewrite date_utc_day by done.
  fold t. assert (t mod 1000 = 0) as Htm by (subst t; unfold ms_per_day; zlia).
  unfold midnight_loop, fixed_offset_parts.
  rewrite date_utc_parts; [|done|zlia].
  destruct (Z.eqb_spec (t - (t + offset)) 0) as [He|He]; [lia|].
  replace (t + (t - (t + offset)) + offset) with t by lia.
  rewrite date_utc_parts by done. rewrite Z.sub_diag. simpl. lia.
Qed.

(** The start and end day of the cycle of a date. *)
Lemma cycle_month_spec p anchor (c := cycle_month p anchor) :
  1 <= anchor <= 28 → 1 <= lp_month p <= 12 → 1 <= lp_day p <= month_length (lp_year p) (lp_month p) →
  1 <= c.2 <= 12 ∧ lp_year p - 1 <= c.1 ∧
  make_day c.1 (c.2 - 1) anchor <= make_day (lp_year p) (lp_month p - 1) (lp_day p)
    < make_day c.1 (c.2 - 1) anchor + month_length c.1 c.2.
Proof.
  intros Ha Hm Hd. subst c. unfold cycle_month.
  destruct (Z.ltb_spec (lp_day p) anchor) as [Hlt|Hge].
  2:{ cbn [fst snd]. rewrite !make_day_month by lia. lia. }
  destruct (Z.eqb_spec (lp_month p - 1) 0) as [He|He]; cbn [fst snd].
  - pose proof (month_length_bounds (lp_year p - 1) 12 ltac:(lia)).
    pose proof (make_day_next (lp_year p - 1) 12 anchor ltac:(lia)) as [_ Hn].
    cbn in Hn. replace (lp_year p - 1 + 1) with (lp_year p) in Hn by lia.
    replace (lp_month p) with 1 by lia. cbn [Z.sub] in *.
    unfold make_day in *. simpl in *. lia.
  - pose proof (month_length_bounds (lp_year p) (lp_month p - 1) ltac:(lia)).
    pose proof (make_day_next (lp_year p) (lp_month p - 1) anchor ltac:(lia)) as [_ Hn].
    unfold nextCalendarMonth in Hn.
    destruct (Z.eqb_spec (lp_month p - 1) 12); [lia|]. cbn [fst snd] in Hn.
    rewrite Z.sub_add in Hn. rewrite (make_day_month _ (lp_month p)) in * by lia. lia.
Qed.

Section fixed_offset.
(** A zone whose offset is a whole number of seconds of at most a day. *)
Variables (offset : Z) (settings : AllowanceCycleSettings).
Hypothesis Hoffset : - ms_per_day <= offset <= ms_per_day.
Hypothesis Hseconds : offset mod 1000 = 0.
Hypothesis Hanchor : 1 <= acs_anchorDay settings <= 28.

Let anchor := acs_anchorDay settings.
Let window := allowanceCycleWindow (λ _, fixed_offset_parts offset) settings.
Let local (at_ : Z) := cycle_month (fixed_offset_parts offset at_) anchor.

Lemma make_day_after_1960 y m d : 1960 <= y → 1 <= m <= 12 → 1 <= d →
  year_100 + ms_per_day <= make_day y (m - 1) d * ms_per_day.
Proof.
  intros Hy Hm Hd. rewrite make_day_month by done.
  pose proof (day_from_year_mono 1960 y Hy) as H.
  assert (0 <= month_offset (is_leap y) (m - 1)) by (unfold month_offset; repeat case_match; lia).
  unfold year_100, ms_per_day. change (day_from_year 1960) with (-3653) in H.
  change (day_from_year 100) with (-683003). lia.
Qed.

Lemma local_year at_ : 0 <= at_ → 1969 <= lp_year (fixed_offset_parts offset at_).
Proof.
  intros H. unfold fixed_offset_parts. simpl. set (d := (at_ + offset) / ms_per_day).
  assert (-1 <= d) by (unfold d, ms_per_day in *; zlia).
  pose proof (year_from_day_spec d) as Hs.
  destruct (Z.le_gt_cases 1969 (year_from_day d)); [done|].
  pose proof (day_from_year_mono (year_from_day d + 1) 1969 ltac:(lia)) as Hm.
  change (day_from_year 1969) with (-365) in Hm. lia.
Qed.

Lemma window_fixed_offset at_ (c := local at_) (n := nextCalendarMonth c.1 c.2) :
  0 <= at_ →
  window at_ = {| w_start := make_day c.1 (c.2 - 1) anchor * ms_per_day - offset;
                  w_end := make_day n.1 (n.2 - 1) anchor * ms_per_day - offset |}.
Proof.
  intros Hat. pose proof (local_year at_ Hat) as Hy.
  destruct (utc_parts_range (at_ + offset)) as [Hm Hd].
  destruct (cycle_month_spec (fixed_offset_parts offset at_) anchor Hanchor Hm Hd) as (Hc & Hcy & _).
  fold (local at_) in Hc, Hcy. fold c in Hc, Hcy.
  pose proof (make_day_next c.1 c.2 anchor Hc) as [Hn _]. fold n in Hn.
  assert (1960 <= n.1).
  { unfold n, nextCalendarMonth. case_match; simpl; lia. }
  pose proof (make_day_after_1960 c.1 c.2 anchor ltac:(lia) ltac:(lia) ltac:(lia)).
  pose proof (make_day_after_1960 n.1 n.2 anchor ltac:(lia) ltac:(lia) ltac:(lia)).
  unfold window, allowanceCycleWindow. fold anchor (local at_).
  subst n c. destruct (local at_) as [y m]. cbn [fst snd] in *.
  destruct (nextCalendarMonth y m) as [ny nm]. cbn [fst snd] in *.
  f_equal; apply midnight_fixed_offset; (lia || done).
Qed.

(** The window of an instant contains it. *)
Lemma window_contains at_ : 0 <= at_ → w_start (window at_) <= at_ < w_end (window at_).
Proof.
  intros Hat. rewrite window_fixed_offset by done. cbn [w_start w_end].
  destruct (utc_parts_range (at_ + offset)) as [Hm Hd].
  destruct (cycle_month_spec (fixed_offset_parts offset at_) anchor Hanchor Hm Hd) as (Hc & _ & Hlo & Hhi).
  fold (local at_) in *. unfold fixed_offset_parts in Hlo, Hhi.
  rewrite make_day_parts in Hlo, Hhi.
  rewrite (proj2 (make_day_next _ _ anchor Hc)).
  unfold ms_per_day in *. zlia.
Qed.

(** The next window starts where this one ends. *)
Lemma window_next at_ : 0 <= at_ → w_start (window (w_end (window at_))) = w_end (window at_).
Proof.
  intros Hat. pose proof (window_contains at_ Hat) as Hin.
  rewrite (window_fixed_offset (w_end (window at_))) by lia. cbn [w_start].
  rewrite (window_fixed_offset at_) by done. cbn [w_end].
  destruct (utc_parts_range (at_ + offset)) as [Hm Hd].
  destruct (cycle_month_spec (fixed_offset_parts offset at_) anchor Hanchor Hm Hd) as (Hc & _ & _).
  fold (local at_) in Hc. set (c := local at_) in *.
  pose proof (make_day_next c.1 c.2 anchor Hc) as [Hn _].
  destruct (nextCalendarMonth c.1 c.2) as [ny nm] eqn:Hnx. cbn [fst snd] in *.
  assert (local (make_day ny (nm - 1) anchor * ms_per_day - offset) = (ny, nm)) as ->; [|done].
  unfold local, fixed_offset_parts. rewrite Z.sub_add.
  pose proof (month_length_bounds ny nm Hn). rewrite utc_parts_make_day by lia.
  unfold cycle_month. simpl. by rewrite Z.ltb_irrefl.
Qed.
End fixed_offset.

(** for any zone at a fixed whole-second offset and any anchor day the
    schema admits (1 to 28), the allowance cycle windows tile time after the
    epoch: each instant lies in its window, and the window that follows starts
    exactly where it ends, so no spend falls between two cycles or in both. *)
Theorem allowance_windows_tile offset settings at_
    (w := allowanceCycleWindow (λ _, fixed_offset_parts offset) settings at_) :
  - ms_per_day <= offset <= ms_per_day → offset mod 1000 = 0 →
  1 <= acs_anchorDay settings <= 28 → 0 <= at_ →
  w_start w <= at_ < w_end w ∧
  w_start (allowanceCycleWindow (λ _, fixed_offset_parts offset) settings (w_end w)) = w_end w.
Proof. intros. split; [by apply window_contains|by apply window_next]. Qed.

Definition demo_cycle : AllowanceCycleSettings :=
  {| acs_tenantId := js "t1"; acs_timezone := js "Asia/Dubai"; acs_anchorDay := 15;
     acs_updatedBy := None; acs_updatedAt := 0 |}.

(** 2026-03-03T20:30Z is the fourth of March in Dubai (UTC+4), in the cycle from
    2026-02-14T20:00Z to 2026-03-14T20:00Z. *)
Example demo_window :
  allowanceCycleWindow (λ _, fixed_offset_parts 14400000) demo_cycle 1772569800000
  = {| w_start := 1771099200000; w_end := 1773518400000 |}.
Proof. reflexivity. Qed.

Lemma allowance_windows_tile_witness :
  let w := allowanceCycleWindow (λ _, fixed_offset_parts 14400000) demo_cycle 1772569800000 in
  w_start w <= 1772569800000 < w_end w ∧
  w_start (allowanceCycleWindow (λ _, fixed_offset_parts 14400000) demo_cycle (w_end w)) = w_end w.
Proof.
  apply (allowance_windows_tile 14400000 demo_cycle 1772569800000);
    first [reflexivity | unfold ms_per_day; simpl; lia].
Defined.
