(* ===== verification/Budget.v ===== *)
(** * Budgets: admission, settlement and allowance balances

    apps/api/src/budget/budget.service.ts: the repository interface, the in-memory
    repository and the limit checks it shares with the other one. Money is in micros. A decimal string field of a
    stored record is modelled by the integer [BigInt] reads from it; input
    amounts keep their string, number or bigint form. The clock ([now]) and
    [randomUUID] are arguments. *)

From S2P Require Import Prelude JsMap JsString Calendar.
From Stdlib Require Import Lia.
Local Open Scope Z_scope.

Set Default Goal Selector "!".

(** ** Data *)

Inductive ScopeType := ScopeOrg | ScopeDepartment | ScopeUser.
#[export] Instance ScopeType_eq_dec : EqDecision ScopeType.
Proof. solve_decision. Defined.

Definition scope_type_name (t : ScopeType) : jstr :=
  match t with
  | ScopeOrg => js "org" | ScopeDepartment => js "department" | ScopeUser => js "user"
  end.

Record BudgetScope := Scope { scopeType : ScopeType; scopeId : jstr }.
#[export] Instance BudgetScope_eq_dec : EqDecision BudgetScope.
Proof. solve_decision. Defined.

Inductive Period := Day | Month.
#[export] Instance Period_eq_dec : EqDecision Period.
Proof. solve_decision. Defined.

Definition period_name (p : Period) : jstr :=
  match p with Day => js "day" | Month => js "month" end.

Inductive LimitStatus := LimitActive | LimitDisabled.
#[export] Instance LimitStatus_eq_dec : EqDecision LimitStatus.
Proof. solve_decision. Defined.

Record BudgetLimit := {
  bl_id : jstr; bl_tenantId : jstr; bl_scopeType : ScopeType; bl_scopeId : jstr;
  bl_period : Period; bl_softLimitMicros : Z; bl_hardLimitMicros : Z;
  bl_requestLimit : option Z; bl_tokenLimit : option Z; bl_sandboxMinuteLimit : option Z;
  bl_thresholdPercentages : list Z; bl_status : LimitStatus; bl_updatedAt : Z;
}.
#[export] Instance BudgetLimit_eq_dec : EqDecision BudgetLimit.
Proof. solve_decision. Defined.

Record BudgetLimitInput := {
  bli_tenantId : jstr; bli_scopeType : ScopeType; bli_scopeId : jstr; bli_period : Period;
  bli_softLimitMicros : Z; bli_hardLimitMicros : Z; bli_requestLimit : option Z;
  bli_tokenLimit : option Z; bli_sandboxMinuteLimit : option Z;
  bli_thresholdPercentages : option (list Z); bli_status : LimitStatus;
}.

Inductive ReservationStatus := Reserved | Reconciled | Released | Blocked.
#[export] Instance ReservationStatus_eq_dec : EqDecision ReservationStatus.
Proof. solve_decision. Defined.

Record BudgetReservation := {
  br_id : jstr; br_tenantId : jstr; br_requestId : jstr; br_userId : option jstr;
  br_departmentId : option jstr; br_taskId : option jstr; br_sessionId : option jstr;
  br_feature : jstr; br_provider : option jstr; br_model : option jstr;
  br_estimatedCostMicros : Z; br_reservedMicros : Z; br_actualCostMicros : option Z;
  br_status : ReservationStatus; br_blockReason : option jstr;
  br_createdAt : Z; br_updatedAt : Z;
}.
#[export] Instance BudgetReservation_eq_dec : EqDecision BudgetReservation.
Proof. solve_decision. Defined.

(** [string | number | bigint]; a finite number is the fraction [num / den]. *)
Inductive MicrosValue := MStr (s : jstr) | MNum (num : Z) (den : positive) | MBig (z : Z).

Record ReserveBudgetInput := {
  ri_tenantId : option jstr; ri_requestId : jstr; ri_userId : option jstr;
  ri_departmentId : option jstr; ri_taskId : option jstr; ri_sessionId : option jstr;
  ri_feature : jstr; ri_provider : option jstr; ri_model : option jstr;
  ri_estimatedCostMicros : MicrosValue; ri_requestUnits : option Z;
  ri_estimatedTokens : option Z; ri_estimatedSandboxMinutes : option Z;
}.

Record ReconcileBudgetInput := {
  rc_tenantId : option jstr; rc_requestId : jstr; rc_actualCostMicros : MicrosValue;
}.

(** [BudgetCheck & { reused?: boolean }], an absent [reused] as false. *)
Record BudgetCheckResult := {
  bc_allowed : bool; bc_reason : option jstr; bc_reservation : option BudgetReservation;
  bc_limit : option BudgetLimit; bc_retryAfterSeconds : option Z; bc_reused : bool;
}.

Record AllowanceAdjustment := {
  aa_id : jstr; aa_tenantId : jstr; aa_userId : jstr; aa_amountMicros : Z; aa_reason : jstr;
  aa_idempotencyKey : jstr; aa_cycleStart : Z; aa_cycleEnd : Z; aa_createdBy : jstr;
  aa_createdAt : Z;
}.

Record UserAllowanceSpend := { us_userId : jstr; us_usedMicros : Z; us_reservedMicros : Z }.

Inductive BaseSource := SourceOrganization | SourceDepartment | SourceMember | SourceUnlimited.
#[export] Instance BaseSource_eq_dec : EqDecision BaseSource.
Proof. solve_decision. Defined.

Record AllowanceBaseAttribution := {
  at_userId : jstr; at_source : BaseSource; at_sourceId : option jstr;
}.

Inductive BalanceStatus := BalHealthy | BalWarning | BalBlocked | BalUnlimited.
#[export] Instance BalanceStatus_eq_dec : EqDecision BalanceStatus.
Proof. solve_decision. Defined.

Record AllowanceBalance := {
  ab_tenantId : jstr; ab_userId : jstr; ab_cycleStart : Z; ab_cycleEnd : Z;
  ab_baseLimitMicros : option Z; ab_adjustmentMicros : Z; ab_effectiveLimitMicros : option Z;
  ab_usedMicros : Z; ab_reservedMicros : Z; ab_availableMicros : option Z;
  ab_status : BalanceStatus; ab_baseSource : BaseSource; ab_baseSourceId : option jstr;
}.

(** What the operations throw. *)
Inductive BudgetError :=
| BigIntSyntaxError                                   (* BigInt("...") *)
| ZodError                                            (* a schema rejects the record *)
| RequestIdTaken                                      (* a different operation owns the id *)
| InvalidTimeZone                                     (* RangeError of Intl.DateTimeFormat *)
| MemberAllowanceNotPositive                          (* RangeError *)
| BudgetExceeded (message : jstr) (check : BudgetCheckResult).   (* HTTP 402 *)

Definition SELF_HOST_TENANT_ID : jstr := js "00000000-0000-7000-8000-000000000001".

(** ** Amounts, scopes and keys *)

(** [Math.max(0, Math.trunc(value))] for a number. *)
Definition toMicros (value : MicrosValue) : result BudgetError Z :=
  match value with
  | MBig z => Ok z
  | MNum num den => Ok (Z.max 0 (Z.quot num (Zpos den)))
  | MStr s => match parse_bigint s with Some z => Ok z | None => Err BigIntSyntaxError end
  end.

Definition maxBigInt (left right : Z) : Z := if right <? left then left else right.

Definition budgetScopes (tenantId : jstr) (userId departmentId : option jstr) : list BudgetScope :=
  [Scope ScopeOrg tenantId]
  ++ (match departmentId with
      | Some d => if truthy d then [Scope ScopeDepartment d] else []
      | None => [] end)
  ++ (match userId with
      | Some u => if truthy u then [Scope ScopeUser u] else []
      | None => [] end).

Definition scopeKey (tenantId : jstr) (scope : BudgetScope) : jstr :=
  tenantId ++ js ":" ++ scope_type_name (scopeType scope) ++ js ":" ++ scopeId scope.

Definition spentKey (tenantId : jstr) (scope : BudgetScope) (period : Period) : jstr :=
  scopeKey tenantId scope ++ js ":" ++ period_name period.

Definition reservationKey (tenantId requestId : jstr) : jstr := tenantId ++ js ":" ++ requestId.

Definition limitKey (tenantId : jstr) (t : ScopeType) (id : jstr) (p : Period) : jstr :=
  tenantId ++ js ":" ++ scope_type_name t ++ js ":" ++ id ++ js ":" ++ period_name p.

Inductive QuotaMetric := Requests | Tokens | SandboxMinutes.
#[export] Instance QuotaMetric_eq_dec : EqDecision QuotaMetric.
Proof. solve_decision. Defined.

Definition metric_name (m : QuotaMetric) : jstr :=
  match m with
  | Requests => js "requests" | Tokens => js "tokens" | SandboxMinutes => js "sandbox_minutes"
  end.

(** [metric.replace("_", " ")]: the first underscore only. *)
Definition metric_label (m : QuotaMetric) : jstr :=
  match m with
  | Requests => js "requests" | Tokens => js "tokens" | SandboxMinutes => js "sandbox minutes"
  end.

Definition quotaEntries (input : ReserveBudgetInput) : list (QuotaMetric * Z) :=
  [(Requests, nullish (ri_requestUnits input) 1);
   (Tokens, nullish (ri_estimatedTokens input) 0);
   (SandboxMinutes, nullish (ri_estimatedSandboxMinutes input) 0)].

Definition quotaLimit (limit : BudgetLimit) (metric : QuotaMetric) : option Z :=
  match metric with
  | Requests => bl_requestLimit limit
  | Tokens => bl_tokenLimit limit
  | SandboxMinutes => bl_sandboxMinuteLimit limit
  end.

Definition quotaKey (tenantId : jstr) (scope : BudgetScope) (metric : QuotaMetric) : jstr :=
  scopeKey tenantId scope ++ js ":" ++ metric_name metric.

(** ** Limit checks *)

Definition limit_scope (limit : BudgetLimit) : BudgetScope :=
  Scope (bl_scopeType limit) (bl_scopeId limit).

(** [scopes.some(scope => scope matches the limit)]. *)
Definition limit_applies (limit : BudgetLimit) (scopes : list BudgetScope) : bool :=
  existsb (λ s, bool_decide (scopeType s = bl_scopeType limit)
                && bool_decide (scopeId s = bl_scopeId limit)) scopes.

(** [map.get(key) ?? 0]. *)
Definition counter (m : gmap jstr Z) (k : jstr) : Z := default 0 (m !! k).
Definition counter_add (k : jstr) (n : Z) (m : gmap jstr Z) : gmap jstr Z :=
  <[k := counter m k + n]> m.

Definition firstExceededQuota (limits : list BudgetLimit) (scopes : list BudgetScope)
    (used : gmap jstr Z) (input : ReserveBudgetInput) : option (BudgetLimit * jstr) :=
  let applicable := filter (λ l, limit_applies l scopes = true) limits in
  first_some (λ '(metric, amount),
    if amount <=? 0 then None
    else first_some (λ limit,
      match quotaLimit limit metric with
      | None => None
      | Some maximum =>
          if maximum <? counter used (quotaKey (bl_tenantId limit) (limit_scope limit) metric) + amount
          then Some (limit, scope_type_name (bl_scopeType limit) ++ js " " ++ metric_label metric
                            ++ js " quota exceeded")
          else None
      end) applicable) (quotaEntries input).

Definition firstExceededLimit (limits : list BudgetLimit) (scopes : list BudgetScope)
    (spent : gmap jstr Z) (estimate : Z) : option (BudgetLimit * jstr) :=
  first_some (λ limit,
    if negb (limit_applies limit scopes) then None
    else
      let hard := bl_hardLimitMicros limit in
      if hard =? 0 then None
      else
        let next := counter spent (spentKey (bl_tenantId limit) (limit_scope limit) (bl_period limit))
                    + estimate in
        if hard <? next
        then Some (limit, scope_type_name (bl_scopeType limit) ++ js " budget hard limit exceeded")
        else None) limits.

Definition firstSoftLimit (limits : list BudgetLimit) (scopes : list BudgetScope)
    (spent : gmap jstr Z) (estimate : Z) : option (BudgetLimit * jstr) :=
  first_some (λ limit,
    if negb (limit_applies limit scopes) then None
    else
      let soft := bl_softLimitMicros limit in
      if soft =? 0 then None
      else
        let next := counter spent (spentKey (bl_tenantId limit) (limit_scope limit) (bl_period limit))
                    + estimate in
        if soft <? next
        then Some (limit, scope_type_name (bl_scopeType limit) ++ js " budget soft limit exceeded")
        else None) limits.

Definition reserveQuotas (used : gmap jstr Z) (tenantId : jstr) (scope : BudgetScope)
    (input : ReserveBudgetInput) : gmap jstr Z :=
  fold_left (λ used '(metric, amount),
    if 0 <? amount then counter_add (quotaKey tenantId scope metric) amount used else used)
    (quotaEntries input) used.

Definition set_limits (l : BudgetLimit) (soft hard : Z) : BudgetLimit :=
  {| bl_id := bl_id l; bl_tenantId := bl_tenantId l; bl_scopeType := bl_scopeType l;
     bl_scopeId := bl_scopeId l; bl_period := bl_period l; bl_softLimitMicros := soft;
     bl_hardLimitMicros := hard; bl_requestLimit := bl_requestLimit l;
     bl_tokenLimit := bl_tokenLimit l; bl_sandboxMinuteLimit := bl_sandboxMinuteLimit l;
     bl_thresholdPercentages := bl_thresholdPercentages l; bl_status := bl_status l;
     bl_updatedAt := bl_updatedAt l |}.

Definition adjust_limit (userId : jstr) (adjustment : Z) (limit : BudgetLimit) : BudgetLimit :=
  if negb (bool_decide (bl_scopeType limit = ScopeUser))
     || negb (bool_decide (bl_scopeId limit = userId))
     || negb (bool_decide (bl_period limit = Month))
  then limit
  else
    let hard := bl_hardLimitMicros limit in
    let soft := bl_softLimitMicros limit in
    if hard =? 0 then limit
    else set_limits limit (if soft =? 0 then 0 else maxBigInt 0 (soft + adjustment))
           (maxBigInt 0 (hard + adjustment)).

Definition applyMemberAdjustment (limits : list BudgetLimit) (userId : option jstr)
    (adjustment : Z) : list BudgetLimit :=
  match userId with
  | Some u => if negb (truthy u) || (adjustment =? 0) then limits
              else map (adjust_limit u adjustment) limits
  | None => limits
  end.

(** A replayed request id: the stored outcome, or an error when the id belongs
    to another operation. *)
Definition reusedBudgetCheck (reservation : BudgetReservation) (input : ReserveBudgetInput)
    : result BudgetError BudgetCheckResult :=
  if negb (bool_decide (br_userId reservation = ri_userId input))
     || negb (bool_decide (br_taskId reservation = ri_taskId input))
     || negb (bool_decide (br_sessionId reservation = ri_sessionId input))
     || negb (bool_decide (br_feature reservation = ri_feature input))
  then Err RequestIdTaken
  else
    let allowed := bool_decide (br_status reservation = Reserved) in
    let reason := match br_status reservation with
      | Released => Some (js "This budget reservation expired before turn admission; submit a new operation key.")
      | Reconciled => Some (js "This budget reservation was already settled; submit a new operation key.")
      | _ => br_blockReason reservation
      end in
    Ok {| bc_allowed := allowed; bc_reason := reason; bc_reservation := Some reservation;
          bc_limit := None; bc_retryAfterSeconds := None; bc_reused := true |}.

(** ** The repository interface *)

(** The clock and the random UUID one call reads. *)
Record Env := { env_now : Z; env_uuid : jstr }.

Record CycleInput := {
  ci_tenantId : jstr; ci_timezone : jstr; ci_anchorDay : Z; ci_updatedBy : jstr;
}.

Record AdjustmentInput := {
  ai_tenantId : jstr; ai_userId : jstr; ai_amountMicros : Z; ai_reason : jstr;
  ai_idempotencyKey : jstr; ai_cycleStart : Z; ai_cycleEnd : Z; ai_createdBy : jstr;
}.

(** A reservation and the [reused] mark of a settlement that changed nothing. *)
Abbreviation reconcile_result := (option (BudgetReservation * bool)).

Class BudgetRepository (R : Type) := {
  repo_reserve : Env → ReserveBudgetInput → list BudgetScope → M R BudgetError BudgetCheckResult;
  repo_reconcile : Env → ReconcileBudgetInput → M R BudgetError reconcile_result;
  repo_listLimits : jstr → R → list BudgetLimit;
  repo_upsertLimit : Env → BudgetLimitInput → M R BudgetError BudgetLimit;
  repo_getAllowanceCycle : Env → jstr → R → AllowanceCycleSettings;
  repo_upsertAllowanceCycle : Env → CycleInput → M R BudgetError AllowanceCycleSettings;
  repo_createAllowanceAdjustment : Env → AdjustmentInput → M R BudgetError AllowanceAdjustment;
  repo_listAllowanceAdjustments : jstr → option jstr → R → list AllowanceAdjustment;
  repo_currentUserSpendForUsers : jstr → list jstr → Z → Z → R → list UserAllowanceSpend;
  repo_setMemberAllowanceBase : Env → jstr → jstr → option Z → M R BudgetError unit;
  repo_allowanceBaseAttributions : jstr → list jstr → R → list AllowanceBaseAttribution;
}.

(** ** The in-memory repository *)

Record InMemoryBudgetRepository := {
  limits : list (jstr * BudgetLimit);
  reservations : list (jstr * BudgetReservation);
  spent : gmap jstr Z;
  quotaSpent : gmap jstr Z;
  allowanceCycles : gmap jstr AllowanceCycleSettings;
  allowanceAdjustments : list (jstr * AllowanceAdjustment);
}.

Definition empty_repository : InMemoryBudgetRepository :=
  {| limits := []; reservations := []; spent := ∅; quotaSpent := ∅;
     allowanceCycles := ∅; allowanceAdjustments := [] |}.

Definition with_limits (f : list (jstr * BudgetLimit) → list (jstr * BudgetLimit))
    (st : InMemoryBudgetRepository) : InMemoryBudgetRepository :=
  {| limits := f (limits st); reservations := reservations st; spent := spent st;
     quotaSpent := quotaSpent st; allowanceCycles := allowanceCycles st;
     allowanceAdjustments := allowanceAdjustments st |}.
Definition with_reservation (k : jstr) (r : BudgetReservation)
    (st : InMemoryBudgetRepository) : InMemoryBudgetRepository :=
  {| limits := limits st; reservations := map_set k r (reservations st); spent := spent st;
     quotaSpent := quotaSpent st; allowanceCycles := allowanceCycles st;
     allowanceAdjustments := allowanceAdjustments st |}.
Definition with_counters (spent' quota' : gmap jstr Z)
    (st : InMemoryBudgetRepository) : InMemoryBudgetRepository :=
  {| limits := limits st; reservations := reservations st; spent := spent';
     quotaSpent := quota'; allowanceCycles := allowanceCycles st;
     allowanceAdjustments := allowanceAdjustments st |}.
Definition with_cycle (k : jstr) (c : AllowanceCycleSettings)
    (st : InMemoryBudgetRepository) : InMemoryBudgetRepository :=
  {| limits := limits st; reservations := reservations st; spent := spent st;
     quotaSpent := quotaSpent st; allowanceCycles := <[k := c]> (allowanceCycles st);
     allowanceAdjustments := allowanceAdjustments st |}.
Definition with_adjustment (k : jstr) (a : AllowanceAdjustment)
    (st : InMemoryBudgetRepository) : InMemoryBudgetRepository :=
  {| limits := limits st; reservations := reservations st; spent := spent st;
     quotaSpent := quotaSpent st; allowanceCycles := allowanceCycles st;
     allowanceAdjustments := map_set k a (allowanceAdjustments st) |}.

Definition defaultAllowanceCycle (env : Env) (tenantId : jstr) : AllowanceCycleSettings :=
  {| acs_tenantId := tenantId; acs_timezone := js "UTC"; acs_anchorDay := 1;
     acs_updatedBy := None; acs_updatedAt := env_now env |}.

(** The private [#reservation]: a blocked request reserves nothing. *)
Definition reservation (env : Env) (input : ReserveBudgetInput) (tenantId : jstr)
    (status : ReservationStatus) (amount : Z) (blockReason : option jstr) : BudgetReservation :=
  {| br_id := env_uuid env; br_tenantId := tenantId; br_requestId := ri_requestId input;
     br_userId := ri_userId input; br_departmentId := ri_departmentId input;
     br_taskId := ri_taskId input; br_sessionId := ri_sessionId input;
     br_feature := ri_feature input; br_provider := ri_provider input; br_model := ri_model input;
     br_estimatedCostMicros := amount;
     br_reservedMicros := if bool_decide (status = Blocked) then 0 else amount;
     br_actualCostMicros := None; br_status := status; br_blockReason := blockReason;
     br_createdAt := env_now env; br_updatedAt := env_now env |}.

Definition settled (env : Env) (r : BudgetReservation) (actual : Z) : BudgetReservation :=
  {| br_id := br_id r; br_tenantId := br_tenantId r; br_requestId := br_requestId r;
     br_userId := br_userId r; br_departmentId := br_departmentId r; br_taskId := br_taskId r;
     br_sessionId := br_sessionId r; br_feature := br_feature r; br_provider := br_provider r;
     br_model := br_model r; br_estimatedCostMicros := br_estimatedCostMicros r;
     br_reservedMicros := br_reservedMicros r; br_actualCostMicros := Some actual;
     br_status := Reconciled; br_blockReason := br_blockReason r;
     br_createdAt := br_createdAt r; br_updatedAt := env_now env |}.

(** The nested loop over scopes and both periods that moves the spent counters. *)
Definition add_spent (tenantId : jstr) (scopes : list BudgetScope) (delta : Z)
    (m : gmap jstr Z) : gmap jstr Z :=
  fold_left (λ m scope,
    fold_left (λ m period, counter_add (spentKey tenantId scope period) delta m) [Day; Month] m)
    scopes m.

Definition blocked_check (reason : jstr) (r : BudgetReservation) (l : BudgetLimit)
    : BudgetCheckResult :=
  {| bc_allowed := false; bc_reason := Some reason; bc_reservation := Some r;
     bc_limit := Some l; bc_retryAfterSeconds := None; bc_reused := false |}.

(** Schema checks of [BudgetLimitSchema]: counts are not negative, threshold
    percentages lie in 1..100. *)
Definition opt_nonneg (o : option Z) : bool :=
  match o with Some z => 0 <=? z | None => true end.
Definition limit_schema_ok (l : BudgetLimit) : bool :=
  opt_nonneg (bl_requestLimit l) && opt_nonneg (bl_tokenLimit l)
  && opt_nonneg (bl_sandboxMinuteLimit l)
  && forallb (λ p, (1 <=? p) && (p <=? 100)) (bl_thresholdPercentages l).

Definition parse_limit (input : BudgetLimitInput) (id : jstr) (now : Z) : BudgetLimit :=
  {| bl_id := id; bl_tenantId := bli_tenantId input; bl_scopeType := bli_scopeType input;
     bl_scopeId := bli_scopeId input; bl_period := bli_period input;
     bl_softLimitMicros := bli_softLimitMicros input; bl_hardLimitMicros := bli_hardLimitMicros input;
     bl_requestLimit := bli_requestLimit input; bl_tokenLimit := bli_tokenLimit input;
     bl_sandboxMinuteLimit := bli_sandboxMinuteLimit input;
     bl_thresholdPercentages := nullish (bli_thresholdPercentages input) [80; 100];
     bl_status := bli_status input; bl_updatedAt := now |}.

(** [AllowanceCycleSettingsSchema]: a zone name of 1 to 100 units, an anchor day
    that every month has. *)
Definition cycle_schema_ok (c : AllowanceCycleSettings) : bool :=
  (1 <=? Z.of_nat (length (acs_timezone c))) && (Z.of_nat (length (acs_timezone c)) <=? 100)
  && (1 <=? acs_anchorDay c) && (acs_anchorDay c <=? 28).

Definition cycle_of_input (input : CycleInput) (now : Z) : AllowanceCycleSettings :=
  {| acs_tenantId := ci_tenantId input; acs_timezone := ci_timezone input;
     acs_anchorDay := ci_anchorDay input; acs_updatedBy := Some (ci_updatedBy input);
     acs_updatedAt := now |}.

Definition adjustment_of_input (input : AdjustmentInput) (env : Env) : AllowanceAdjustment :=
  {| aa_id := env_uuid env; aa_tenantId := ai_tenantId input; aa_userId := ai_userId input;
     aa_amountMicros := ai_amountMicros input; aa_reason := ai_reason input;
     aa_idempotencyKey := ai_idempotencyKey input; aa_cycleStart := ai_cycleStart input;
     aa_cycleEnd := ai_cycleEnd input; aa_createdBy := ai_createdBy input;
     aa_createdAt := env_now env |}.

Section repository.
(** The time-zone database behind [Intl.DateTimeFormat]. *)
Context (localDateParts : jstr → Z → LocalDateParts).
Implicit Types (st : InMemoryBudgetRepository) (env : Env).

Definition getAllowanceCycle env (tenantId : jstr) st : AllowanceCycleSettings :=
  nullish (allowanceCycles st !! tenantId) (defaultAllowanceCycle env tenantId).

Definition listLimits (tenantId : jstr) st : list BudgetLimit :=
  filter (λ l, bl_tenantId l = tenantId) (map_values (limits st)).

Definition listAllowanceAdjustments (tenantId : jstr) (userId : option jstr) st
    : list AllowanceAdjustment :=
  filter (λ a, aa_tenantId a = tenantId
               ∧ (truthy_opt userId = false ∨ Some (aa_userId a) = userId))
    (map_values (allowanceAdjustments st)).

Definition currentAdjustment env (tenantId userId : jstr) st : Z :=
  let window := allowanceCycleWindow localDateParts (getAllowanceCycle env tenantId st) (env_now env) in
  zsum aa_amountMicros
    (filter (λ a, aa_cycleStart a = w_start window ∧ aa_cycleEnd a = w_end window)
       (listAllowanceAdjustments tenantId (Some userId) st)).

(** The limits [reserve] checks: active ones of the tenant, the member's month
    limit moved by the adjustments of the current cycle. *)
Definition activeLimits env (tenantId : jstr) (input : ReserveBudgetInput) st : list BudgetLimit :=
  let adjustment := match ri_userId input with
    | Some u => if truthy u then currentAdjustment env tenantId u st else 0
    | None => 0
    end in
  applyMemberAdjustment
    (filter (λ l, bl_tenantId l = tenantId ∧ bl_status l = LimitActive) (map_values (limits st)))
    (ri_userId input) adjustment.

Definition tenant_of (t : option jstr) : jstr := nullish t SELF_HOST_TENANT_ID.

Definition reserve env (input : ReserveBudgetInput) (scopes : list BudgetScope)
    : M InMemoryBudgetRepository BudgetError BudgetCheckResult :=
  λ st,
    let tenantId := tenant_of (ri_tenantId input) in
    let key := reservationKey tenantId (ri_requestId input) in
    match map_get key (reservations st) with
    | Some replayed => (reusedBudgetCheck replayed input, st)
    | None =>
        match toMicros (ri_estimatedCostMicros input) with
        | Err e => (Err e, st)
        | Ok estimated =>
            let active := activeLimits env tenantId input st in
            match firstExceededQuota active scopes (quotaSpent st) input with
            | Some (l, reason) =>
                let blocked := reservation env input tenantId Blocked estimated (Some reason) in
                (Ok (blocked_check reason blocked l), with_reservation key blocked st)
            | None =>
                match firstExceededLimit active scopes (spent st) estimated with
                | Some (l, reason) =>
                    let blocked := reservation env input tenantId Blocked estimated (Some reason) in
                    (Ok (blocked_check reason blocked l), with_reservation key blocked st)
                | None =>
                    let softExceeded := firstSoftLimit active scopes (spent st) estimated in
                    let r := reservation env input tenantId Reserved estimated None in
                    let spent' := add_spent tenantId scopes estimated (spent st) in
                    let quota' := fold_left (λ q s, reserveQuotas q tenantId s input) scopes
                                    (quotaSpent st) in
                    (Ok {| bc_allowed := true; bc_reason := snd <$> softExceeded;
                           bc_reservation := Some r; bc_limit := fst <$> softExceeded;
                           bc_retryAfterSeconds := None; bc_reused := false |},
                     with_counters spent' quota' (with_reservation key r st))
                end
            end
        end
    end.

Definition reconcile env (input : ReconcileBudgetInput)
    : M InMemoryBudgetRepository BudgetError reconcile_result :=
  λ st,
    let tenantId := tenant_of (rc_tenantId input) in
    let key := reservationKey tenantId (rc_requestId input) in
    match map_get key (reservations st) with
    | None => (Ok None, st)
    | Some existing =>
        if negb (bool_decide (br_status existing = Reserved)) then (Ok (Some (existing, true)), st)
        else
          match toMicros (rc_actualCostMicros input) with
          | Err e => (Err e, st)
          | Ok actual =>
              let next := settled env existing actual in
              let scopes := budgetScopes (br_tenantId existing) (br_userId existing)
                              (br_departmentId existing) in
              let spent' := add_spent tenantId scopes (actual - br_reservedMicros existing) (spent st) in
              (Ok (Some (next, false)),
               with_counters spent' (quotaSpent st) (with_reservation key next st))
          end
    end.

Definition upsertLimit env (input : BudgetLimitInput)
    : M InMemoryBudgetRepository BudgetError BudgetLimit :=
  λ st,
    let key := limitKey (bli_tenantId input) (bli_scopeType input) (bli_scopeId input)
                 (bli_period input) in
    let current := map_get key (limits st) in
    let limit := parse_limit input (nullish (bl_id <$> current) (env_uuid env)) (env_now env) in
    if limit_schema_ok limit then (Ok limit, with_limits (map_set key limit) st)
    else (Err ZodError, st).

(** [BigInt(amount) * 8n / 10n] truncates towards zero. *)
Definition member_limit_input (tenantId userId : jstr) (amount : Z) : BudgetLimitInput :=
  {| bli_tenantId := tenantId; bli_scopeType := ScopeUser; bli_scopeId := userId;
     bli_period := Month; bli_softLimitMicros := Z.quot (amount * 8) 10;
     bli_hardLimitMicros := amount; bli_requestLimit := None; bli_tokenLimit := None;
     bli_sandboxMinuteLimit := None; bli_thresholdPercentages := None;
     bli_status := LimitActive |}.

Definition setMemberAllowanceBase env (tenantId userId : jstr) (amountMicros : option Z)
    : M InMemoryBudgetRepository BudgetError unit :=
  λ st,
    let limitKey := limitKey tenantId ScopeUser userId Month in
    match amountMicros with
    | None => (Ok tt, with_limits (map_delete limitKey) st)
    | Some amount =>
        match upsertLimit env (member_limit_input tenantId userId amount) st with
        | (Ok _, st') => (Ok tt, st')
        | (Err e, st') => (Err e, st')
        end
    end.

Definition allowanceBaseAttributions (tenantId : jstr) (userIds : list jstr) st
    : list AllowanceBaseAttribution :=
  map (λ u,
    let hasBase := map_has (limitKey tenantId ScopeUser u Month) (limits st) in
    {| at_userId := u; at_source := if hasBase then SourceMember else SourceUnlimited;
       at_sourceId := if hasBase then Some u else None |}) userIds.

Definition upsertAllowanceCycle env (input : CycleInput)
    : M InMemoryBudgetRepository BudgetError AllowanceCycleSettings :=
  λ st,
    let row := cycle_of_input input (env_now env) in
    if cycle_schema_ok row then (Ok row, with_cycle (ci_tenantId input) row st)
    else (Err ZodError, st).

Definition createAllowanceAdjustment env (input : AdjustmentInput)
    : M InMemoryBudgetRepository BudgetError AllowanceAdjustment :=
  λ st,
    let key := reservationKey (ai_tenantId input) (ai_idempotencyKey input) in
    match map_get key (allowanceAdjustments st) with
    | Some existing => (Ok existing, st)
    | None =>
        let row := adjustment_of_input input env in
        (Ok row, with_adjustment key row st)
    end.

(** The reservations of one user created in a window. *)
Definition spend_rows (tenantId userId : jstr) (cycleStart cycleEnd : Z) st
    : list BudgetReservation :=
  filter (λ r, br_tenantId r = tenantId ∧ br_userId r = Some userId ∧ truthy userId = true
               ∧ cycleStart <= br_createdAt r ∧ br_createdAt r < cycleEnd)
    (map_values (reservations st)).

Definition used_part (r : BudgetReservation) : Z :=
  if bool_decide (br_status r = Reconciled) then nullish (br_actualCostMicros r) 0 else 0.
Definition reserved_part (r : BudgetReservation) : Z :=
  if bool_decide (br_status r = Reserved) then br_reservedMicros r else 0.

(** The totals accumulated in one pass over the reservations, read per user. *)
Definition currentUserSpendForUsers (tenantId : jstr) (userIds : list jstr)
    (cycleStart cycleEnd : Z) st : list UserAllowanceSpend :=
  let totals : gmap jstr (Z * Z) :=
    fold_left (λ totals r,
      match br_userId r with
      | Some u =>
          if bool_decide (br_tenantId r = tenantId) && truthy u && bool_decide (u ∈ userIds)
             && (cycleStart <=? br_createdAt r) && (br_createdAt r <? cycleEnd)
          then let '(used, reserved) := default (0, 0) (totals !! u) in
               <[u := (used + used_part r, reserved + reserved_part r)]> totals
          else totals
      | None => totals
      end) (map_values (reservations st)) ∅ in
  map (λ u, let '(used, reserved) := default (0, 0) (totals !! u) in
            {| us_userId := u; us_usedMicros := used; us_reservedMicros := reserved |}) userIds.

#[export] Instance InMemoryRepository : BudgetRepository InMemoryBudgetRepository := {|
  repo_reserve := reserve; repo_reconcile := reconcile; repo_listLimits := listLimits;
  repo_upsertLimit := upsertLimit; repo_getAllowanceCycle := getAllowanceCycle;
  repo_upsertAllowanceCycle := upsertAllowanceCycle;
  repo_createAllowanceAdjustment := createAllowanceAdjustment;
  repo_listAllowanceAdjustments := listAllowanceAdjustments;
  repo_currentUserSpendForUsers := currentUserSpendForUsers;
  repo_setMemberAllowanceBase := setMemberAllowanceBase;
  repo_allowanceBaseAttributions := allowanceBaseAttributions |}.

End repository.

Arguments add_spent : simpl never.
Arguments budgetScopes : simpl never.
Arguments reserveQuotas : simpl never.
Arguments reservationKey : simpl never.
Arguments spentKey : simpl never.
