(* ===== verification/BudgetFacts.v ===== *)
(** * The in-memory budget repository: keys, ledger and admission

    Theorems about Budget.v. The [spent] counters are a ledger of the stored
    reservations, an admitted request keeps every hard limit that applies to
    it, and a request id is admitted and settled once. *)

From S2P Require Import Prelude JsMap JsString Calendar Budget.
From Stdlib Require Import Lia.
Local Open Scope Z_scope.

Set Default Goal Selector "!".

(** ** Definitions of the statements *)

(** A tenant id holds no colon, the separator of every key. *)
Definition colon : N := 58%N.
Definition colon_free (s : jstr) : Prop := colon ∉ s.

(** How often a key is moved by one admission with these scopes. *)
Definition key_hits (t : jstr) (scopes : list BudgetScope) (k : jstr) : Z :=
  zsum (λ s, zsum (λ p, if bool_decide (spentKey t s p = k) then 1 else 0) [Day; Month]) scopes.

(** What a reservation holds of a budget: nothing when blocked or released, the
    reserved amount while it is open, the actual cost once settled. *)
Definition held (r : BudgetReservation) : Z :=
  match br_status r with
  | Reserved => br_reservedMicros r
  | Reconciled => nullish (br_actualCostMicros r) (br_reservedMicros r)
  | Released | Blocked => 0
  end.

Definition reservation_scopes (r : BudgetReservation) : list BudgetScope :=
  budgetScopes (br_tenantId r) (br_userId r) (br_departmentId r).

Definition contribution (k : jstr) (r : BudgetReservation) : Z :=
  held r * key_hits (br_tenantId r) (reservation_scopes r) k.

(** Every counter is the sum of what the stored reservations hold under it. *)
Definition ledger (st : InMemoryBudgetRepository) : Prop :=
  ∀ k, counter (spent st) k = zsum (contribution k) (map_values (reservations st)).

(** Reservations are stored under the key of their own tenant and request. *)
Definition keyed (st : InMemoryBudgetRepository) : Prop :=
  ∀ k r, (k, r) ∈ reservations st →
    k = reservationKey (br_tenantId r) (br_requestId r) ∧ colon_free (br_tenantId r).

(** The operations that change a repository, as the service calls them. *)
Inductive RepoOp :=
| OpReserve (env : Env) (input : ReserveBudgetInput)
| OpReconcile (env : Env) (input : ReconcileBudgetInput)
| OpUpsertLimit (env : Env) (input : BudgetLimitInput)
| OpSetMemberBase (env : Env) (tenantId userId : jstr) (amount : option Z)
| OpUpsertCycle (env : Env) (input : CycleInput)
| OpCreateAdjustment (env : Env) (input : AdjustmentInput).

(** The scopes [BudgetService.reserve] passes to the repository. *)
Definition input_scopes (input : ReserveBudgetInput) : list BudgetScope :=
  budgetScopes (tenant_of (ri_tenantId input)) (ri_userId input) (ri_departmentId input).
Arguments input_scopes : simpl never.

Definition op_tenant (op : RepoOp) : jstr :=
  match op with
  | OpReserve _ i => tenant_of (ri_tenantId i)
  | OpReconcile _ i => tenant_of (rc_tenantId i)
  | OpUpsertLimit _ i => bli_tenantId i
  | OpSetMemberBase _ t _ _ => t
  | OpUpsertCycle _ i => ci_tenantId i
  | OpCreateAdjustment _ i => ai_tenantId i
  end.

Section runs.
Context (localDateParts : jstr → Z → LocalDateParts).

Definition run_op (op : RepoOp) (st : InMemoryBudgetRepository) : InMemoryBudgetRepository :=
  match op with
  | OpReserve env i => (reserve localDateParts env i (input_scopes i) st).2
  | OpReconcile env i => (reconcile env i st).2
  | OpUpsertLimit env i => (upsertLimit env i st).2
  | OpSetMemberBase env t u a => (setMemberAllowanceBase env t u a st).2
  | OpUpsertCycle env i => (upsertAllowanceCycle env i st).2
  | OpCreateAdjustment env i => (createAllowanceAdjustment env i st).2
  end.

Definition run_ops (ops : list RepoOp) (st : InMemoryBudgetRepository)
    : InMemoryBudgetRepository := fold_left (λ st op, run_op op st) ops st.
End runs.

(** ** A concrete run

    One organisation with a hard limit of 100 micros a month and two requests a
    month, seen by a clock that does not move. *)

Definition demo_env : Env := {| env_now := 0; env_uuid := js "id" |}.
Definition demo_tenant : jstr := js "t".
Definition demo_limit : BudgetLimitInput :=
  {| bli_tenantId := demo_tenant; bli_scopeType := ScopeOrg; bli_scopeId := demo_tenant;
     bli_period := Month; bli_softLimitMicros := 80; bli_hardLimitMicros := 100;
     bli_requestLimit := Some 2; bli_tokenLimit := None; bli_sandboxMinuteLimit := None;
     bli_thresholdPercentages := None; bli_status := LimitActive |}.
Definition demo_request (id : string) (cost : Z) : ReserveBudgetInput :=
  {| ri_tenantId := Some demo_tenant; ri_requestId := js id; ri_userId := Some (js "u");
     ri_departmentId := None; ri_taskId := None; ri_sessionId := None; ri_feature := js "chat";
     ri_provider := None; ri_model := None; ri_estimatedCostMicros := MBig cost;
     ri_requestUnits := None; ri_estimatedTokens := None; ri_estimatedSandboxMinutes := None |}.
Definition demo_settle (id : string) (cost : Z) : ReconcileBudgetInput :=
  {| rc_tenantId := Some demo_tenant; rc_requestId := js id; rc_actualCostMicros := MBig cost |}.
Definition demo_repo : InMemoryBudgetRepository :=
  run_ops (λ _, utc_parts) [OpUpsertLimit demo_env demo_limit] empty_repository.
Definition demo_ops : list RepoOp :=
  [OpUpsertLimit demo_env demo_limit; OpReserve demo_env (demo_request "a" 60);
   OpReserve demo_env (demo_request "b" 50); OpReconcile demo_env (demo_settle "a" 20);
   OpReserve demo_env (demo_request "c" 70)].
Definition demo_adjustment : AdjustmentInput :=
  let w := allowanceCycleWindow (λ _, utc_parts) (defaultAllowanceCycle demo_env demo_tenant) 0 in
  {| ai_tenantId := demo_tenant; ai_userId := js "u"; ai_amountMicros := 5; ai_reason := js "why";
     ai_idempotencyKey := js "key"; ai_cycleStart := w_start w; ai_cycleEnd := w_end w;
     ai_createdBy := js "admin" |}.

(** ** Keys *)

Lemma app_sep_inj (c : N) (a b x y : jstr) :
  c ∉ a → c ∉ b → a ++ c :: x = b ++ c :: y → a = b ∧ x = y.
Proof.
  revert b. induction a as [|h a IH]; intros [|g b] Ha Hb; simpl; intros H;
    injection H as H1 H2 || injection H as H1; subst.
  - done.
  - set_solver.
  - set_solver.
  - destruct (IH b) as [-> ->]; [set_solver..|done|done].
Qed.

Lemma app_sep_inj_r (c : N) (a b x y : jstr) :
  c ∉ x → c ∉ y → a ++ c :: x = b ++ c :: y → a = b ∧ x = y.
Proof.
  intros Hx Hy H. apply (f_equal reverse) in H.
  rewrite !reverse_app, !reverse_cons, <- !(assoc_L (++)) in H. simpl in H.
  apply app_sep_inj in H as [H1 H2]; [|by rewrite elem_of_reverse..].
  split; by apply (inj reverse).
Qed.

Lemma scope_type_name_colon t : colon ∉ scope_type_name t.
Proof. destruct t; vm_compute; set_solver. Qed.
Lemma period_name_colon p : colon ∉ period_name p.
Proof. destruct p; vm_compute; set_solver. Qed.
Lemma scope_type_name_inj t t' : scope_type_name t = scope_type_name t' → t = t'.
Proof. by destruct t, t'. Qed.
Lemma period_name_inj p p' : period_name p = period_name p' → p = p'.
Proof. by destruct p, p'. Qed.

Lemma spentKey_unfold t s p :
  spentKey t s p
  = t ++ colon :: (scope_type_name (scopeType s) ++ colon :: scopeId s) ++ colon :: period_name p.
Proof. unfold spentKey, scopeKey. rewrite <- !(assoc_L (++)). done. Qed.

(** The key of a counter determines its scope and period, whatever the ids hold. *)
Lemma spentKey_inj t s p s' p' : spentKey t s p = spentKey t s' p' → s = s' ∧ p = p'.
Proof.
  rewrite !spentKey_unfold. intros [= H]%(inj (app t)).
  apply app_sep_inj_r in H as [H ->%period_name_inj]; [|apply period_name_colon..].
  apply app_sep_inj in H as [Ht Hi]; [|apply scope_type_name_colon..].
  apply scope_type_name_inj in Ht. destruct s, s'; simpl in *; by subst.
Qed.

Lemma reservationKey_inj t r t' r' :
  colon_free t → colon_free t' → reservationKey t r = reservationKey t' r' → t = t' ∧ r = r'.
Proof. intros Ht Ht'. by apply app_sep_inj. Qed.

Lemma budgetScopes_NoDup t u d : NoDup (budgetScopes t u d).
Proof.
  unfold budgetScopes.
  destruct d as [d|]; [destruct (truthy d)|]; (destruct u as [u|]; [destruct (truthy u)|]); simpl;
    repeat (apply NoDup_cons; split; [set_solver|]); apply NoDup_nil_2.
Qed.

(** ** Counters *)

Lemma counter_add_spec k n m k' :
  counter (counter_add k n m) k' = counter m k' + (if bool_decide (k = k') then n else 0).
Proof.
  unfold counter_add, counter. case_bool_decide.
  - subst. rewrite lookup_insert_eq. simpl. lia.
  - rewrite lookup_insert_ne by done. lia.
Qed.

Lemma add_spent_spec t scopes d m k :
  counter (add_spent t scopes d m) k = counter m k + d * key_hits t scopes k.
Proof.
  unfold add_spent, key_hits. revert m.
  induction scopes as [|s scopes IH]; intros m; [rewrite zsum_nil; simpl; lia|].
  cbn [fold_left]. rewrite IH, !counter_add_spec, !zsum_cons, zsum_nil.
  repeat case_bool_decide; lia.
Qed.

Lemma key_hits_notin t scopes s p :
  s ∉ scopes → key_hits t scopes (spentKey t s p) = 0.
Proof.
  unfold key_hits. induction scopes as [|s' scopes IH]; intros Hs; [done|].
  rewrite !zsum_cons, zsum_nil, IH by set_solver.
  rewrite !bool_decide_eq_false_2; [lia|..]; intros [-> _]%spentKey_inj; set_solver.
Qed.

(** One admission moves each counter of its scopes exactly once. *)
Lemma key_hits_once t scopes s p :
  NoDup scopes → s ∈ scopes → key_hits t scopes (spentKey t s p) = 1.
Proof.
  induction scopes as [|s' scopes IH]; intros Hn Hs; [set_solver|].
  apply NoDup_cons in Hn as [Hs' Hn]. unfold key_hits. rewrite !zsum_cons, zsum_nil.
  change (zsum _ scopes) with (key_hits t scopes (spentKey t s p)).
  destruct (decide (s = s')) as [->|Hne].
  - rewrite key_hits_notin by done.
    destruct p; [rewrite bool_decide_eq_true_2, bool_decide_eq_false_2
                |rewrite bool_decide_eq_false_2, bool_decide_eq_true_2]; try done; try lia;
      by intros [_ ?]%spentKey_inj.
  - rewrite IH by set_solver.
    rewrite !bool_decide_eq_false_2; [lia|..]; intros [-> _]%spentKey_inj; done.
Qed.

Lemma reserve_quotas_frame t scope input q k :
  (∀ m, k ≠ quotaKey t scope m) → counter (reserveQuotas q t scope input) k = counter q k.
Proof.
  intros Hk. unfold reserveQuotas, quotaEntries. simpl.
  repeat case_match; rewrite ?counter_add_spec, ?bool_decide_eq_false_2;
    try lia; intros <-; by eapply Hk.
Qed.

(** ** What each operation does to the reservations and the counters *)

(** The two ways an operation touches the reservations: not at all, or by one
    entry whose contribution the counters follow. *)
Inductive ledger_step (st st' : InMemoryBudgetRepository) : Prop :=
| step_same :
    reservations st' = reservations st → spent st' = spent st → ledger_step st st'
| step_entry k r :
    reservations st' = map_set k r (reservations st) →
    k = reservationKey (br_tenantId r) (br_requestId r) →
    colon_free (br_tenantId r) →
    (∀ c, counter (spent st') c
          = counter (spent st) c - default 0 (contribution c <$> map_get k (reservations st))
            + contribution c r) →
    ledger_step st st'.

Lemma reserve_step ldp env i st :
  colon_free (tenant_of (ri_tenantId i)) →
  ledger_step st (reserve ldp env i (input_scopes i) st).2.
Proof.
  intros Hc. unfold reserve.
  destruct (map_get _ (reservations st)) eqn:Hk; [by apply step_same|].
  destruct (toMicros _) as [est|]; [|by apply step_same].
  destruct (firstExceededQuota _ _ _ _) as [[l why]|].
  { eapply step_entry; simpl; [done..|]. intros c. rewrite Hk. simpl.
    unfold contribution, held. simpl. lia. }
  destruct (firstExceededLimit _ _ _ _) as [[l why]|].
  { eapply step_entry; simpl; [done..|]. intros c. rewrite Hk. simpl.
    unfold contribution, held. simpl. lia. }
  eapply step_entry; simpl; [done..|]. intros c. rewrite Hk, add_spent_spec. simpl.
  unfold contribution, held, reservation_scopes, input_scopes. simpl. lia.
Qed.

Lemma reconcile_step env i st :
  colon_free (tenant_of (rc_tenantId i)) → keyed st → ledger_step st (reconcile env i st).2.
Proof.
  intros Hc Hkeyed. unfold reconcile.
  destruct (map_get _ (reservations st)) as [r|] eqn:Hk; [|by apply step_same].
  destruct (bool_decide_reflect (br_status r = Reserved)) as [Hr|]; simpl; [|by apply step_same].
  destruct (toMicros _) as [actual|]; [|by apply step_same].
  apply map_get_elem in Hk as Hin. destruct (Hkeyed _ _ Hin) as [Heq Hrc].
  apply reservationKey_inj in Heq as [Ht _]; [|done..]. rewrite Ht in *.
  eapply step_entry; simpl; [done|by apply (Hkeyed _ _ Hin)|done|]. intros c.
  rewrite Hk, add_spent_spec. simpl.
  unfold contribution, held, reservation_scopes. simpl. rewrite Hr. lia.
Qed.

Lemma upsertLimit_frame env i st :
  reservations (upsertLimit env i st).2 = reservations st
  ∧ spent (upsertLimit env i st).2 = spent st.
Proof. unfold upsertLimit. by case_match. Qed.

Lemma run_op_step ldp op st :
  colon_free (op_tenant op) → keyed st → ledger_step st (run_op ldp op st).
Proof.
  intros Hc Hk. destruct op as [env i|env i|env i|env t u a|env i|env i]; simpl in *.
  - by apply reserve_step.
  - by apply reconcile_step.
  - destruct (upsertLimit_frame env i st). by apply step_same.
  - unfold setMemberAllowanceBase. destruct a as [a|]; [|by apply step_same].
    pose proof (upsertLimit_frame env (member_limit_input t u a) st) as [H1 H2].
    destruct (upsertLimit _ _ _) as [[?|?] ?]; by apply step_same.
  - unfold upsertAllowanceCycle. case_match; by apply step_same.
  - unfold createAllowanceAdjustment. case_match; by apply step_same.
Qed.

Lemma ledger_step_preserves st st' :
  ledger_step st st' → keyed st → ledger st → keyed st' ∧ ledger st'.
Proof.
  intros [Hr Hs|k r Hr Hk Hc Hs] Hkeyed Hl; unfold keyed, ledger in *.
  - rewrite Hr, Hs. done.
  - rewrite Hr. split.
    + intros j w [[= -> ->]|Hin]%map_set_elem; [done|by apply Hkeyed].
    + intros c. rewrite Hs, zsum_map_set, Hl. lia.
Qed.

Lemma run_ops_ledger ldp ops st :
  Forall (λ op, colon_free (op_tenant op)) ops → keyed st → ledger st →
  keyed (run_ops ldp ops st) ∧ ledger (run_ops ldp ops st).
Proof.
  intros Hops. revert st. induction Hops as [|op ops Hop Hops IH]; intros st Hk Hl; [done|].
  simpl. destruct (ledger_step_preserves st (run_op ldp op st)) as [Hk' Hl']; [|done..|by apply IH].
  by apply run_op_step.
Qed.

Lemma empty_ledger : keyed empty_repository ∧ ledger empty_repository.
Proof. split; [|done]. intros k r H. simpl in H. set_solver. Qed.

(** ** Stored outcomes are stable *)

Definition op_reconciles (k : jstr) (op : RepoOp) : bool :=
  match op with
  | OpReconcile _ i =>
      bool_decide (reservationKey (tenant_of (rc_tenantId i)) (rc_requestId i) = k)
  | _ => false
  end.

Lemma reserve_fresh_only ldp env i scopes st k r :
  map_get k (reservations st) = Some r →
  map_get k (reservations (reserve ldp env i scopes st).2) = Some r.
Proof.
  intros Hk. unfold reserve. destruct (map_get (reservationKey _ _) _) eqn:Hk'; [done|].
  assert (k ≠ reservationKey (tenant_of (ri_tenantId i)) (ri_requestId i)) by congruence.
  repeat case_match; simpl; by rewrite ?map_get_set_ne.
Qed.

(** Only a settlement of an open reservation changes what is stored. *)
Lemma run_op_keeps ldp op st k r :
  map_get k (reservations st) = Some r →
  br_status r ≠ Reserved ∨ op_reconciles k op = false →
  map_get k (reservations (run_op ldp op st)) = Some r.
Proof.
  intros Hk Hop. destruct op as [env i|env i|env i|env t u a|env i|env i]; simpl in *.
  - by apply reserve_fresh_only.
  - unfold reconcile.
    destruct (decide (reservationKey (tenant_of (rc_tenantId i)) (rc_requestId i) = k)) as [<-|Hne].
    + rewrite bool_decide_eq_true_2 in Hop by done. destruct Hop as [Hop|]; [|done].
      rewrite Hk. by rewrite bool_decide_eq_false_2.
    + repeat case_match; simpl; by rewrite ?map_get_set_ne.
  - by rewrite (proj1 (upsertLimit_frame env i st)).
  - unfold setMemberAllowanceBase. destruct a as [a|]; [|done].
    pose proof (upsertLimit_frame env (member_limit_input t u a) st) as [H1 _].
    destruct (upsertLimit _ _ _) as [[?|?] ?]; simpl in *; by rewrite H1.
  - unfold upsertAllowanceCycle. by case_match.
  - unfold createAllowanceAdjustment. by case_match.
Qed.

Lemma run_ops_keeps ldp ops st k r :
  map_get k (reservations st) = Some r →
  br_status r ≠ Reserved ∨ Forall (λ op, op_reconciles k op = false) ops →
  map_get k (reservations (run_ops ldp ops st)) = Some r.
Proof.
  revert st. induction ops as [|op ops IH]; intros st Hk Hops; [done|].
  apply IH; [apply run_op_keeps; [done|]|];
    (destruct Hops as [?|Hf]; [by left|right; by inversion Hf]).
Qed.

(** What an admission leaves behind: its outcome under the key of the request. *)
Lemma reserve_stored ldp env i scopes st c st' :
  reserve ldp env i scopes st = (Ok c, st') →
  ∃ r, map_get (reservationKey (tenant_of (ri_tenantId i)) (ri_requestId i)) (reservations st')
       = Some r
     ∧ bc_reservation c = Some r ∧ bc_allowed c = bool_decide (br_status r = Reserved)
     ∧ br_userId r = ri_userId i ∧ br_taskId r = ri_taskId i ∧ br_sessionId r = ri_sessionId i
     ∧ br_feature r = ri_feature i.
Proof.
  unfold reserve. destruct (map_get _ _) as [r|] eqn:Hk.
  - unfold reusedBudgetCheck. case_match eqn:Hsame; [done|]. intros. inv_result.
    rewrite !orb_false_iff, !negb_false_iff, !bool_decide_eq_true in Hsame.
    destruct Hsame as [[[? ?] ?] ?]. by exists r.
  - repeat case_match; intros; inv_result; try done; eexists; simpl;
      (split; [by rewrite map_get_set_eq|]); done.
Qed.

(** ** Admission *)

Lemma limit_applies_spec l scopes : limit_applies l scopes = true ↔ limit_scope l ∈ scopes.
Proof.
  unfold limit_applies, limit_scope. rewrite existsb_exists. split.
  - intros ([t i] & Hin & [Ht Hi]%andb_true_iff).
    apply bool_decide_eq_true in Ht, Hi. simpl in *; subst. by apply list_elem_of_In.
  - intros Hin. eexists. split; [by apply list_elem_of_In|]. simpl.
    by rewrite !bool_decide_eq_true_2.
Qed.

Lemma adjust_limit_frame u a l :
  bl_tenantId (adjust_limit u a l) = bl_tenantId l
  ∧ limit_scope (adjust_limit u a l) = limit_scope l
  ∧ bl_period (adjust_limit u a l) = bl_period l.
Proof. unfold adjust_limit. repeat case_match; done. Qed.

(** Every limit [reserve] checks belongs to the tenant. *)
Lemma activeLimits_tenant ldp env t i st l :
  l ∈ activeLimits ldp env t i st → bl_tenantId l = t.
Proof.
  unfold activeLimits, applyMemberAdjustment. intros H.
  assert (∀ l, l ∈ filter (λ l, bl_tenantId l = t ∧ bl_status l = LimitActive)
                     (map_values (limits st)) → bl_tenantId l = t) as Hf.
  { intros l' [[? ?] ?]%list_elem_of_filter. done. }
  destruct (ri_userId i) as [u|]; [|by apply Hf].
  case_match; [by apply Hf|].
  apply list_elem_of_fmap in H as (l' & -> & Hl'). rewrite (proj1 (adjust_limit_frame _ _ _)). by apply Hf.
Qed.

(** What the two scans promise. *)
Definition within_hard (st : InMemoryBudgetRepository) (est : Z) (l : BudgetLimit) : Prop :=
  bl_hardLimitMicros l = 0
  ∨ counter (spent st) (spentKey (bl_tenantId l) (limit_scope l) (bl_period l)) + est
    <= bl_hardLimitMicros l.

Definition within_quota (st : InMemoryBudgetRepository) (input : ReserveBudgetInput)
    (l : BudgetLimit) : Prop :=
  ∀ m amount maximum,
    (m, amount) ∈ quotaEntries input → 0 < amount → quotaLimit l m = Some maximum →
    counter (quotaSpent st) (quotaKey (bl_tenantId l) (limit_scope l) m) + amount <= maximum.

Lemma firstExceededLimit_None ls scopes st est :
  firstExceededLimit ls scopes (spent st) est = None ↔
  ∀ l, l ∈ ls → limit_scope l ∈ scopes → within_hard st est l.
Proof.
  unfold firstExceededLimit. rewrite first_some_None. unfold within_hard.
  setoid_rewrite <- limit_applies_spec.
  split; intros H l Hl; specialize (H l Hl).
  - intros Ha. rewrite Ha in H. simpl in H. revert H.
    destruct (Z.eqb_spec (bl_hardLimitMicros l) 0); [auto|].
    destruct (Z.ltb_spec (bl_hardLimitMicros l)
      (counter (spent st) (spentKey (bl_tenantId l) (limit_scope l) (bl_period l)) + est));
      [done|auto].
  - destruct (limit_applies l scopes); [|done]. simpl.
    destruct (H eq_refl) as [->|Hle]; [done|]. case_match; [done|].
    by rewrite (proj2 (Z.ltb_ge _ _) Hle).
Qed.

Lemma firstExceededQuota_None ls scopes st i :
  firstExceededQuota ls scopes (quotaSpent st) i = None ↔
  ∀ l, l ∈ ls → limit_scope l ∈ scopes → within_quota st i l.
Proof.
  unfold firstExceededQuota, within_quota. rewrite first_some_None.
  setoid_rewrite <- limit_applies_spec. split.
  - intros H l Hl Ha m amount maximum Hin Hpos Hq. specialize (H _ Hin). simpl in H.
    rewrite (proj2 (Z.leb_gt _ _) Hpos), first_some_None in H.
    specialize (H l). rewrite Hq in H. rewrite list_elem_of_filter in H.
    specialize (H (conj Ha Hl)). case_match eqn:Hlt; [done|]. by apply Z.ltb_ge in Hlt.
  - intros H [m amount] Hin. destruct (Z.leb_spec amount 0) as [|Hpos]; [done|].
    rewrite first_some_None. intros l [Ha Hl]%list_elem_of_filter.
    destruct (quotaLimit l m) as [maximum|] eqn:Hq; [|done].
    by rewrite (proj2 (Z.ltb_ge _ _) (H l Hl Ha m amount maximum Hin Hpos Hq)).
Qed.

(** ** Quota counters *)

Lemma metric_name_colon m : colon ∉ metric_name m.
Proof. destruct m; vm_compute; set_solver. Qed.

Lemma quotaKey_inj t s m s' m' : quotaKey t s m = quotaKey t s' m' → s = s' ∧ m = m'.
Proof.
  unfold quotaKey. intros H.
  apply app_sep_inj_r in H as [H Hm]; [|apply metric_name_colon..].
  assert (spentKey t s Day = spentKey t s' Day) as [-> _]%spentKey_inj by (unfold spentKey; by rewrite H).
  split; [done|]. by destruct m, m'.
Qed.

Definition quota_amount (input : ReserveBudgetInput) (m : QuotaMetric) : Z :=
  match m with
  | Requests => nullish (ri_requestUnits input) 1
  | Tokens => nullish (ri_estimatedTokens input) 0
  | SandboxMinutes => nullish (ri_estimatedSandboxMinutes input) 0
  end.

Lemma quotaEntries_spec input m amount :
  (m, amount) ∈ quotaEntries input ↔ amount = quota_amount input m.
Proof.
  unfold quotaEntries. rewrite !elem_of_cons, elem_of_nil.
  split; [by intros [[= -> ->]|[[= -> ->]|[[= -> ->]|[]]]]|].
  intros ->. destruct m; auto.
Qed.

Lemma counter_add_quota t s m' n q m :
  counter (counter_add (quotaKey t s m') n q) (quotaKey t s m)
  = counter q (quotaKey t s m) + (if bool_decide (m' = m) then n else 0).
Proof.
  rewrite counter_add_spec. do 2 case_bool_decide; subst; try done.
  by match goal with H : quotaKey _ _ _ = _ |- _ => apply quotaKey_inj in H as [_ ?] end.
Qed.

Lemma reserveQuotas_self t s input q m :
  counter (reserveQuotas q t s input) (quotaKey t s m)
  = counter q (quotaKey t s m) + Z.max 0 (quota_amount input m).
Proof.
  unfold reserveQuotas, quotaEntries, quota_amount. cbn [fold_left].
  destruct m; repeat case_match; rewrite ?counter_add_quota; simpl; lia.
Qed.

Lemma reserveQuotas_scopes_notin t scopes s input q m :
  s ∉ scopes →
  counter (fold_left (λ q s, reserveQuotas q t s input) scopes q) (quotaKey t s m)
  = counter q (quotaKey t s m).
Proof.
  revert q. induction scopes as [|s' scopes IH]; intros q Hs; [done|]. simpl.
  rewrite IH by set_solver. apply reserve_quotas_frame.
  intros m' [-> _]%quotaKey_inj. set_solver.
Qed.

Lemma reserveQuotas_scopes_once t scopes s input q m :
  NoDup scopes → s ∈ scopes →
  counter (fold_left (λ q s, reserveQuotas q t s input) scopes q) (quotaKey t s m)
  = counter q (quotaKey t s m) + Z.max 0 (quota_amount input m).
Proof.
  revert q. induction scopes as [|s' scopes IH]; intros q Hn Hs; [set_solver|].
  apply NoDup_cons in Hn as [Hs' Hn]. simpl.
  destruct (decide (s = s')) as [->|Hne].
  - rewrite reserveQuotas_scopes_notin by done. apply reserveQuotas_self.
  - rewrite IH by set_solver. rewrite reserve_quotas_frame; [done|].
    intros m' [-> _]%quotaKey_inj. done.
Qed.

(** ** Theorems *)

(** C5: after any sequence of repository operations (admissions with the
    scopes of the service, settlements, limit, cycle and adjustment changes),
    every [spent] counter equals the sum of what the stored reservations hold
    under it: reserved amounts of open ones, actual costs of settled ones,
    nothing for blocked ones. *)
Theorem spent_is_ledger ldp ops k :
  Forall (λ op, colon_free (op_tenant op)) ops →
  let st := run_ops ldp ops empty_repository in
  counter (spent st) k = zsum (contribution k) (map_values (reservations st)).
Proof.
  intros Hops. destruct empty_ledger as [Hk Hl].
  apply (run_ops_ledger ldp ops empty_repository Hops Hk Hl).
Qed.

(** C11: a request with a fresh id and a readable amount is admitted
    exactly when no active limit that applies to its scopes would be passed,
    neither a hard limit nor a quota; a refused request is stored as blocked
    and moves no counter. *)
Theorem reserve_decision ldp env i st est :
  let t := tenant_of (ri_tenantId i) in
  let key := reservationKey t (ri_requestId i) in
  map_get key (reservations st) = None →
  toMicros (ri_estimatedCostMicros i) = Ok est →
  ∃ c st', reserve ldp env i (input_scopes i) st = (Ok c, st')
    ∧ (bc_allowed c = true ↔
       ∀ l, l ∈ activeLimits ldp env t i st → limit_scope l ∈ input_scopes i →
            within_hard st est l ∧ within_quota st i l)
    ∧ (bc_allowed c = false →
       spent st' = spent st ∧ quotaSpent st' = quotaSpent st
       ∧ ∃ r, map_get key (reservations st') = Some r
            ∧ br_status r = Blocked ∧ br_reservedMicros r = 0).
Proof.
  intros t key Hk He. unfold reserve. fold t. fold key. rewrite Hk, He.
  destruct (firstExceededQuota _ _ _ _) as [[l why]|] eqn:Hq.
  { eexists _, _. split; [done|]. split.
    - split; [done|]. intros H. assert (Some (l, why) = None); [|done].
      rewrite <- Hq. apply firstExceededQuota_None. intros; by apply H.
    - intros _. do 2 (split; [done|]). eexists. simpl. by rewrite map_get_set_eq. }
  destruct (firstExceededLimit _ _ _ _) as [[l why]|] eqn:Hl.
  { eexists _, _. split; [done|]. split.
    - split; [done|]. intros H. assert (Some (l, why) = None); [|done].
      rewrite <- Hl. apply firstExceededLimit_None. intros; by apply H.
    - intros _. do 2 (split; [done|]). eexists. simpl. by rewrite map_get_set_eq. }
  eexists _, _. split; [done|]. split; [|done]. split; [|done]. intros _ l Hin Hs. split.
  - by eapply firstExceededLimit_None.
  - by eapply firstExceededQuota_None.
Qed.

(** C4: an admitted request keeps every active limit that applies to it: after
    the admission no hard limit (0 means none) and no quota of a requested
    metric is exceeded by the new counters. *)
Theorem reserve_respects_limits ldp env i st c st' l :
  reserve ldp env i (input_scopes i) st = (Ok c, st') →
  bc_allowed c = true → bc_reused c = false →
  l ∈ activeLimits ldp env (tenant_of (ri_tenantId i)) i st →
  limit_scope l ∈ input_scopes i →
  (bl_hardLimitMicros l ≠ 0 →
   counter (spent st') (spentKey (bl_tenantId l) (limit_scope l) (bl_period l))
   <= bl_hardLimitMicros l)
  ∧ (∀ m maximum, quotaLimit l m = Some maximum → 0 < quota_amount i m →
     counter (quotaSpent st') (quotaKey (bl_tenantId l) (limit_scope l) m) <= maximum).
Proof.
  intros Hr Ha Hu Hl Hs. unfold reserve in Hr.
  apply activeLimits_tenant in Hl as Ht. rewrite Ht.
  destruct (map_get _ _) as [r|].
  { unfold reusedBudgetCheck in Hr. case_match; inv_result; simpl in *; congruence. }
  destruct (toMicros _) as [est|]; [|done].
  destruct (firstExceededQuota _ _ _ _) as [[]|] eqn:Hq; [inv_result; simpl in *; congruence|].
  destruct (firstExceededLimit _ _ _ _) as [[]|] eqn:Hh; [inv_result; simpl in *; congruence|].
  apply pair_equal_spec in Hr as [_ <-]. cbn [spent quotaSpent with_counters].
  assert (NoDup (input_scopes i)) as Hn by apply budgetScopes_NoDup.
  split.
  - intros Hz. rewrite add_spent_spec, key_hits_once by done.
    destruct (proj1 (firstExceededLimit_None _ _ _ _) Hh l Hl Hs) as [|Hle]; [done|].
    rewrite Ht in Hle. lia.
  - intros m maximum Hm Hpos. rewrite (reserveQuotas_scopes_once _ _ _ _ _ m Hn Hs).
    pose proof (proj1 (firstExceededQuota_None _ _ _ _) Hq l Hl Hs m (quota_amount i m) maximum) as H'.
    rewrite quotaEntries_spec, Ht in H'. specialize (H' eq_refl Hpos Hm). lia.
Qed.

(** a request id is admitted once. However many other operations follow
    (other than the settlement of that request), the same operation sent again
    under the same id gets the stored outcome, marked as reused, and changes
    nothing. *)
Theorem reserve_idempotent ldp env i scopes st c st1 ops env' i' scopes' :
  reserve ldp env i scopes st = (Ok c, st1) →
  Forall (λ op, op_reconciles (reservationKey (tenant_of (ri_tenantId i)) (ri_requestId i)) op
                = false) ops →
  tenant_of (ri_tenantId i') = tenant_of (ri_tenantId i) → ri_requestId i' = ri_requestId i →
  ri_userId i' = ri_userId i → ri_taskId i' = ri_taskId i →
  ri_sessionId i' = ri_sessionId i → ri_feature i' = ri_feature i →
  let st2 := run_ops ldp ops st1 in
  ∃ c', reserve ldp env' i' scopes' st2 = (Ok c', st2)
    ∧ bc_allowed c' = bc_allowed c ∧ bc_reservation c' = bc_reservation c ∧ bc_reused c' = true.
Proof.
  intros Hr Hops Ht Hq Hu Hk Hs Hf st2.
  apply reserve_stored in Hr as (r & Hget & Hres & Hall & H1 & H2 & H3 & H4).
  pose proof (run_ops_keeps ldp ops st1 _ r Hget (or_intror Hops)) as Hget2.
  unfold reserve. rewrite Ht, Hq. subst st2. rewrite Hget2. unfold reusedBudgetCheck.
  rewrite Hu, Hk, Hs, Hf, H1, H2, H3, H4, !bool_decide_eq_true_2 by done. simpl.
  eexists. split; [done|]. simpl. by rewrite Hall, Hres.
Qed.

(** a request is settled once. The first settlement stores the actual cost
    and moves the spent counters from the reserved to the actual amount; every
    later one, with whatever amount and after whatever other operations,
    returns the stored reservation as reused and changes nothing. *)
Theorem reconcile_once ldp env i st r st1 :
  reconcile env i st = (Ok (Some (r, false)), st1) →
  br_status r = Reconciled
  ∧ toMicros (rc_actualCostMicros i) = Ok (nullish (br_actualCostMicros r) 0)
  ∧ (∀ k, counter (spent st1) k = counter (spent st) k
       + (nullish (br_actualCostMicros r) 0 - br_reservedMicros r)
         * key_hits (tenant_of (rc_tenantId i)) (reservation_scopes r) k)
  ∧ ∀ ops env' i',
      tenant_of (rc_tenantId i') = tenant_of (rc_tenantId i) →
      rc_requestId i' = rc_requestId i →
      let st2 := run_ops ldp ops st1 in
      reconcile env' i' st2 = (Ok (Some (r, true)), st2).
Proof.
  unfold reconcile at 1. intros Hr.
  destruct (map_get _ (reservations st)) as [r0|] eqn:Hk; [|done].
  destruct (bool_decide_reflect (br_status r0 = Reserved)) as [H0|]; simpl in Hr; [|done].
  destruct (toMicros (rc_actualCostMicros i)) as [actual|] eqn:Ha; [|done].
  inv_result. split; [done|]. split; [done|]. split.
  { intros k. simpl. by rewrite add_spent_spec. }
  intros ops env' i' Ht Hq. set (st1 := with_counters _ _ _).
  assert (map_get (reservationKey (tenant_of (rc_tenantId i)) (rc_requestId i))
            (reservations (run_ops ldp ops st1)) = Some (settled env r0 actual)) as Hget.
  { apply run_ops_keeps; [apply map_get_set_eq|by left]. }
  unfold reconcile. by rewrite Ht, Hq, Hget.
Qed.

(** ** Spend of a cycle *)

(** One step of the accumulation over the reservations. *)
Definition spend_step (tenantId : jstr) (userIds : list jstr) (cycleStart cycleEnd : Z)
    (totals : gmap jstr (Z * Z)) (r : BudgetReservation) : gmap jstr (Z * Z) :=
  match br_userId r with
  | Some u =>
      if bool_decide (br_tenantId r = tenantId) && truthy u && bool_decide (u ∈ userIds)
         && (cycleStart <=? br_createdAt r) && (br_createdAt r <? cycleEnd)
      then let '(used, reserved) := default (0, 0) (totals !! u) in
           <[u := (used + used_part r, reserved + reserved_part r)]> totals
      else totals
  | None => totals
  end.

Definition is_spend_row (tenantId userId : jstr) (cycleStart cycleEnd : Z)
    (r : BudgetReservation) : Prop :=
  br_tenantId r = tenantId ∧ br_userId r = Some userId ∧ truthy userId = true
  ∧ cycleStart <= br_createdAt r ∧ br_createdAt r < cycleEnd.
#[export] Instance is_spend_row_dec t u s e r : Decision (is_spend_row t u s e r).
Proof. unfold is_spend_row. apply _. Defined.

Lemma spend_step_spec t us s e totals r u :
  u ∈ us →
  default (0, 0) (spend_step t us s e totals r !! u)
  = if decide (is_spend_row t u s e r)
    then ((default (0, 0) (totals !! u)).1 + used_part r, (default (0, 0) (totals !! u)).2 + reserved_part r)
    else default (0, 0) (totals !! u).
Proof.
  intros Hu. unfold spend_step.
  destruct (decide (is_spend_row t u s e r)) as [(Ht & Hr & Hn & Hs & He)|Hno].
  - rewrite Hr, Hn, !bool_decide_eq_true_2, (proj2 (Z.leb_le _ _) Hs), (proj2 (Z.ltb_lt _ _) He)
      by done. simpl.
    destruct (default (0, 0) (totals !! u)) eqn:Hd. by rewrite lookup_insert_eq.
  - destruct (br_userId r) as [v|] eqn:Hr; [|done]. case_match eqn:Hb; [|done].
    rewrite !andb_true_iff, !bool_decide_eq_true, Z.leb_le, Z.ltb_lt in Hb.
    destruct Hb as [[[[? ?] ?] ?] ?].
    destruct (default (0, 0) (totals !! v)). rewrite lookup_insert_ne; [done|].
    intros ->. by apply Hno.
Qed.

Lemma spend_fold_spec t us s e rs totals u :
  u ∈ us →
  default (0, 0) (fold_left (spend_step t us s e) rs totals !! u)
  = ((default (0, 0) (totals !! u)).1 + zsum used_part (filter (is_spend_row t u s e) rs),
     (default (0, 0) (totals !! u)).2 + zsum reserved_part (filter (is_spend_row t u s e) rs)).
Proof.
  intros Hu. revert totals. induction rs as [|r rs IH]; intros totals; simpl.
  - rewrite filter_nil, !zsum_nil. destruct (default _ _); simpl. f_equal; lia.
  - rewrite IH, spend_step_spec, filter_cons by done.
    destruct (decide (is_spend_row t u s e r)); [|done].
    rewrite !zsum_cons. simpl. f_equal; lia.
Qed.

(** the one-pass spend report is, for every requested user and in the order
    of the request, the sum of the actual costs of the settled reservations and
    the sum of the reserved amounts of the open ones among that user's
    reservations created in the window. *)
Theorem currentUserSpendForUsers_spec t us s e st :
  currentUserSpendForUsers t us s e st =
  map (λ u, {| us_userId := u; us_usedMicros := zsum used_part (spend_rows t u s e st);
               us_reservedMicros := zsum reserved_part (spend_rows t u s e st) |}) us.
Proof.
  unfold currentUserSpendForUsers. apply map_ext_in. intros u Hu%list_elem_of_In.
  pose proof (spend_fold_spec t us s e (map_values (reservations st)) ∅ u Hu) as H.
  unfold spend_step in H. rewrite H, lookup_empty. simpl. f_equal; lia.
Qed.

(** ** Adjustments *)

(** an allowance adjustment is applied once per idempotency key: creating
    it moves the member's adjustment of the current cycle by its amount when
    its key is new (and its window is the current one), and repeating the call
    returns the stored adjustment and changes nothing. *)
Theorem createAllowanceAdjustment_once ldp env i st :
  map_get (reservationKey (ai_tenantId i) (ai_idempotencyKey i)) (allowanceAdjustments st) = None →
  truthy (ai_userId i) = true →
  let w := allowanceCycleWindow ldp (getAllowanceCycle env (ai_tenantId i) st) (env_now env) in
  ai_cycleStart i = w_start w → ai_cycleEnd i = w_end w →
  ∃ row st1, createAllowanceAdjustment env i st = (Ok row, st1)
    ∧ currentAdjustment ldp env (ai_tenantId i) (ai_userId i) st1
      = currentAdjustment ldp env (ai_tenantId i) (ai_userId i) st + ai_amountMicros i
    ∧ ∀ env' i', ai_tenantId i' = ai_tenantId i → ai_idempotencyKey i' = ai_idempotencyKey i →
        createAllowanceAdjustment env' i' st1 = (Ok row, st1).
Proof.
  intros Hk Hu w Hs He. unfold createAllowanceAdjustment at 1. rewrite Hk.
  eexists _, _. split; [done|]. split.
  - unfold currentAdjustment. change (getAllowanceCycle env (ai_tenantId i) (with_adjustment _ _ st))
      with (getAllowanceCycle env (ai_tenantId i) st). fold w.
    unfold listAllowanceAdjustments, with_adjustment. cbn [allowanceAdjustments].
    rewrite map_set_new by done. unfold map_values. rewrite fmap_app, !filter_app, zsum_app.
    simpl. rewrite filter_cons_True by (simpl; auto). rewrite filter_nil.
    rewrite filter_cons_True by done. rewrite filter_nil, zsum_cons, zsum_nil. simpl. lia.
  - intros env' i' Ht Hi. unfold createAllowanceAdjustment. rewrite Ht, Hi. simpl.
    by rewrite map_get_set_eq.
Qed.

(** ** Witnesses *)

Lemma spent_is_ledger_witness :
  let st := run_ops (λ _, utc_parts) demo_ops empty_repository in
  let k := spentKey demo_tenant (Scope ScopeOrg demo_tenant) Month in
  counter (spent st) k = 90
  ∧ counter (spent st) k = zsum (contribution k) (map_values (reservations st)).
Proof.
  split; [vm_compute; reflexivity|]. apply (spent_is_ledger (λ _, utc_parts) demo_ops).
  repeat constructor; unfold colon_free; vm_compute; set_solver.
Defined.

Lemma reserve_decision_witness :
  ∃ c st', reserve (λ _, utc_parts) demo_env (demo_request "a" 120)
             (input_scopes (demo_request "a" 120)) demo_repo = (Ok c, st')
    ∧ (bc_allowed c = false → spent st' = spent demo_repo).
Proof.
  destruct (reserve_decision (λ _, utc_parts) demo_env (demo_request "a" 120) demo_repo 120)
    as (c & st' & H & _ & Hno); [vm_compute; reflexivity..|].
  exists c, st'. split; [exact H|]. intros Hc. apply (Hno Hc).
Defined.

Definition demo_outcome : result BudgetError BudgetCheckResult * InMemoryBudgetRepository :=
  reserve (λ _, utc_parts) demo_env (demo_request "a" 60) (input_scopes (demo_request "a" 60)) demo_repo.
Definition demo_check : BudgetCheckResult :=
  match demo_outcome.1 with
  | Ok c => c
  | Err _ => {| bc_allowed := false; bc_reason := None; bc_reservation := None; bc_limit := None;
                bc_retryAfterSeconds := None; bc_reused := false |}
  end.

Lemma reserve_respects_limits_witness :
  let l := parse_limit demo_limit (js "id") 0 in
  counter (spent demo_outcome.2) (spentKey (bl_tenantId l) (limit_scope l) (bl_period l)) <= 100.
Proof.
  destruct (reserve_respects_limits (λ _, utc_parts) demo_env (demo_request "a" 60) demo_repo
      demo_check demo_outcome.2 (parse_limit demo_limit (js "id") 0)) as [H _];
    [vm_compute; reflexivity..|vm_compute; left|vm_compute; left|].
  apply H. discriminate.
Defined.

Lemma reserve_idempotent_witness :
  let st2 := run_ops (λ _, utc_parts) [OpReserve demo_env (demo_request "b" 10)] demo_outcome.2 in
  ∃ c', reserve (λ _, utc_parts) demo_env (demo_request "a" 99) [] st2 = (Ok c', st2)
    ∧ bc_allowed c' = bc_allowed demo_check ∧ bc_reservation c' = bc_reservation demo_check
    ∧ bc_reused c' = true.
Proof.
  apply (reserve_idempotent (λ _, utc_parts) demo_env (demo_request "a" 60)
           (input_scopes (demo_request "a" 60)) demo_repo demo_check demo_outcome.2);
    [vm_compute; reflexivity|repeat constructor|done..].
Defined.

Definition demo_settled : InMemoryBudgetRepository :=
  (reconcile demo_env (demo_settle "a" 20) demo_outcome.2).2.

Lemma reconcile_once_witness :
  ∃ r, reconcile demo_env (demo_settle "a" 99) demo_settled = (Ok (Some (r, true)), demo_settled)
       ∧ br_actualCostMicros r = Some 20.
Proof.
  eexists. split; [|shelve].
  apply (reconcile_once (λ _, utc_parts) demo_env (demo_settle "a" 20) demo_outcome.2 _ demo_settled)
    with (ops := []); [vm_compute; reflexivity|done..].
  Unshelve. reflexivity.
Defined.

Lemma createAllowanceAdjustment_once_witness :
  ∃ row st1, createAllowanceAdjustment demo_env demo_adjustment demo_repo = (Ok row, st1)
    ∧ currentAdjustment (λ _, utc_parts) demo_env demo_tenant (js "u") st1 = 0 + 5.
Proof.
  destruct (createAllowanceAdjustment_once (λ _, utc_parts) demo_env demo_adjustment demo_repo)
    as (row & st1 & H & Ha & _); [vm_compute; reflexivity..|].
  exists row, st1. split; [exact H|exact Ha].
Defined.
