(* ===== verification/BudgetService.v ===== *)
(** * The budget service over a repository and hot counters

    [BudgetService] of apps/api/src/budget/budget.service.ts against the
    [BudgetRepository] interface of Budget.v and the [HotCounters] interface
    below, the two hot counters of the same file (the Redis client is a
    parameter with the documented effect of INCRBY and DECRBY, which may fail
    one by one), and the balance
    of a member. What the service's theorems need of a repository is the class
    [RepositoryLaws]; the in-memory repository satisfies it. *)

From S2P Require Import Prelude JsMap JsString Calendar Budget BudgetFacts.
From Stdlib Require Import Lia.
Local Open Scope Z_scope.

Set Default Goal Selector "!".

(** ** Hot counters *)

(** [healthy] may connect, so it returns the next state. *)
Class HotCounters (C : Type) := {
  hc_healthy : C → bool * C;
  hc_reserve : list BudgetScope → Z → C → C;
  hc_reconcile : list BudgetScope → Z → Z → C → C;
}.

Record InMemoryBudgetHotCounters := { imc_healthy : bool }.

#[export] Instance InMemoryHotCounters : HotCounters InMemoryBudgetHotCounters := {|
  hc_healthy c := (imc_healthy c, c); hc_reserve _ _ c := c; hc_reconcile _ _ _ c := c |}.

(** *** Redis *)

Inductive CounterKind := ReservedCounter | SpentCounter.
Definition kind_name (k : CounterKind) : jstr :=
  match k with ReservedCounter => js "reserved" | SpentCounter => js "spent" end.

Definition redisCounterKey (scope : BudgetScope) (kind : CounterKind) : jstr :=
  js "berry:budget:" ++ scope_type_name (scopeType scope) ++ js ":" ++ scopeId scope ++ js ":"
  ++ kind_name kind.

Inductive RedisCommand := IncrBy (key : jstr) (n : Z) | DecrBy (key : jstr) (n : Z).

Definition command_delta (k : jstr) (c : RedisCommand) : Z :=
  match c with
  | IncrBy k' n => if bool_decide (k' = k) then n else 0
  | DecrBy k' n => if bool_decide (k' = k) then - n else 0
  end.

(** The client library and the server. [None] is a rejected promise; a pipeline
    resolves with an error or a reply for each of its commands. *)
Class RedisClient (C : Type) := {
  redis_waiting : C → bool;                          (* status === "wait" *)
  redis_connect : C → option unit * C;
  redis_ping : C → option jstr;
  redis_exec : list RedisCommand → C → list (result jstr Z) * C;  (* pipeline(...).exec() *)
  redis_value : jstr → C → Z;                        (* the value of a key, absent as 0 *)
}.

Definition accepted_delta (k : jstr) (x : RedisCommand * result jstr Z) : Z :=
  if is_ok x.2 then command_delta k x.1 else 0.

(** INCRBY and DECRBY move the integer at a key, absent as 0, one command after
    the other; a command that fails - the server is gone, or the result does not fit
    64 bits - leaves it alone, and so does connecting. *)
Class RedisLaws (C : Type) `{RedisClient C} := {
  redis_exec_length cmds c : length (redis_exec cmds c).1 = length cmds;
  redis_exec_value k cmds c :
    redis_value k (redis_exec cmds c).2
    = redis_value k c + zsum (accepted_delta k) (zip cmds (redis_exec cmds c).1);
  redis_connect_value k c : redis_value k (redis_connect c).2 = redis_value k c;
}.

Section redis.
Context {C : Type} `{RedisClient C}.

Definition redis_healthy (c : C) : bool * C :=
  let '(connected, c') := if redis_waiting c then redis_connect c else (Some tt, c) in
  match connected with
  | None => (false, c')
  | Some _ =>
      match redis_ping c' with
      | Some pong => (bool_decide (pong = js "PONG"), c')
      | None => (false, c')
      end
  end.

Definition redis_reserve (scopes : list BudgetScope) (amountMicros : Z) (c : C) : C :=
  (redis_exec (map (λ s, IncrBy (redisCounterKey s ReservedCounter) amountMicros) scopes) c).2.

Definition redis_reconcile (scopes : list BudgetScope) (reservedMicros actualMicros : Z) (c : C) : C :=
  (redis_exec (flat_map (λ s,
    [DecrBy (redisCounterKey s ReservedCounter) reservedMicros;
     IncrBy (redisCounterKey s SpentCounter) actualMicros]) scopes) c).2.

#[export] Instance RedisBudgetHotCounters : HotCounters C := {|
  hc_healthy := redis_healthy; hc_reserve := redis_reserve; hc_reconcile := redis_reconcile |}.
End redis.

(** ** The service *)

Record BudgetServiceOptions := { opt_enabled : option bool; opt_failClosed : option bool }.

Definition open_check : BudgetCheckResult :=
  {| bc_allowed := true; bc_reason := None; bc_reservation := None; bc_limit := None;
     bc_retryAfterSeconds := None; bc_reused := false |}.

Definition unhealthy_check : BudgetCheckResult :=
  {| bc_allowed := false; bc_reason := Some (js "billing_unhealthy"); bc_reservation := None;
     bc_limit := None; bc_retryAfterSeconds := Some 60; bc_reused := false |}.

Definition unhealthy_message : jstr :=
  js "Budget counters are unavailable; spending is fail-closed until billing health recovers.".

Record BalanceInput := {
  bi_tenantId : jstr; bi_userId : jstr; bi_cycleStart : Z; bi_cycleEnd : Z;
  bi_limits : list BudgetLimit; bi_adjustment : Z; bi_usage : UserAllowanceSpend;
}.

Definition is_member_limit (u : jstr) (l : BudgetLimit) : bool :=
  bool_decide (bl_scopeType l = ScopeUser) && bool_decide (bl_scopeId l = u)
  && bool_decide (bl_period l = Month) && bool_decide (bl_status l = LimitActive).

Definition allowanceBalanceForUser (input : BalanceInput) : AllowanceBalance :=
  let limit := find_first (is_member_limit (bi_userId input)) (bi_limits input) in
  let rawBase := match limit with Some l => bl_hardLimitMicros l | None => 0 end in
  let base := if 0 <? rawBase then Some rawBase else None in
  let effective := (λ b, b + bi_adjustment input) <$> base in
  let used := us_usedMicros (bi_usage input) in
  let reserved := us_reservedMicros (bi_usage input) in
  let consumed := used + reserved in
  let available := (λ e, maxBigInt 0 (e - consumed)) <$> effective in
  let status := match effective, available with
    | Some e, Some a => if a =? 0 then BalBlocked
                        else if e * 4 <=? consumed * 5 then BalWarning else BalHealthy
    | _, _ => BalUnlimited
    end in
  {| ab_tenantId := bi_tenantId input; ab_userId := bi_userId input;
     ab_cycleStart := bi_cycleStart input; ab_cycleEnd := bi_cycleEnd input;
     ab_baseLimitMicros := base; ab_adjustmentMicros := bi_adjustment input;
     ab_effectiveLimitMicros := effective; ab_usedMicros := used; ab_reservedMicros := reserved;
     ab_availableMicros := available; ab_status := status;
     ab_baseSource := if base then SourceMember else SourceUnlimited;
     ab_baseSourceId := if base then Some (bi_userId input) else None |}.

(** [{ ...balance, baseSource, baseSourceId }]. *)
Definition with_source (b : AllowanceBalance) (src : BaseSource) (id : option jstr)
    : AllowanceBalance :=
  {| ab_tenantId := ab_tenantId b; ab_userId := ab_userId b; ab_cycleStart := ab_cycleStart b;
     ab_cycleEnd := ab_cycleEnd b; ab_baseLimitMicros := ab_baseLimitMicros b;
     ab_adjustmentMicros := ab_adjustmentMicros b;
     ab_effectiveLimitMicros := ab_effectiveLimitMicros b; ab_usedMicros := ab_usedMicros b;
     ab_reservedMicros := ab_reservedMicros b; ab_availableMicros := ab_availableMicros b;
     ab_status := ab_status b; ab_baseSource := src; ab_baseSourceId := id |}.

(** The input of [createAllowanceAdjustment] before the window is added. *)
Record AdjustmentRequest := {
  ar_tenantId : jstr; ar_userId : jstr; ar_amountMicros : Z; ar_reason : jstr;
  ar_idempotencyKey : jstr; ar_createdBy : jstr;
}.

Section service.
(** The time-zone database: the zones it knows and their local parts. *)
Context (zone_known : jstr → bool) (localDateParts : jstr → Z → LocalDateParts).
Context {R C : Type} `{BudgetRepository R} `{HotCounters C}.
Context (options : BudgetServiceOptions).

Definition serviceReserve (env : Env) (input : ReserveBudgetInput)
    : M (R * C) BudgetError BudgetCheckResult :=
  λ '(repo, hot),
    if bool_decide (opt_enabled options = Some false) then (Ok open_check, (repo, hot))
    else
      let '(healthy, hot1) :=
        if bool_decide (opt_failClosed options = Some false) then (true, hot) else hc_healthy hot in
      if negb healthy then (Err (BudgetExceeded unhealthy_message unhealthy_check), (repo, hot1))
      else
        let scopes := budgetScopes (tenant_of (ri_tenantId input)) (ri_userId input)
                        (ri_departmentId input) in
        match repo_reserve env input scopes repo with
        | (Err e, repo') => (Err e, (repo', hot1))
        | (Ok check, repo') =>
            if negb (bc_allowed check)
            then (Err (BudgetExceeded (nullish (bc_reason check) (js "Budget hard limit exceeded."))
                         check), (repo', hot1))
            else
              match bc_reservation check with
              | Some r => if bc_reused check then (Ok check, (repo', hot1))
                          else (Ok check, (repo', hc_reserve scopes (br_reservedMicros r) hot1))
              | None => (Ok check, (repo', hot1))
              end
        end.

Definition serviceReconcile (env : Env) (input : ReconcileBudgetInput)
    : M (R * C) BudgetError reconcile_result :=
  λ '(repo, hot),
    match repo_reconcile env input repo with
    | (Err e, repo') => (Err e, (repo', hot))
    | (Ok None, repo') => (Ok None, (repo', hot))
    | (Ok (Some (r, reused)), repo') =>
        let scopes := budgetScopes (br_tenantId r) (br_userId r) (br_departmentId r) in
        let hot' := if reused then hot
                    else hc_reconcile scopes (br_reservedMicros r)
                           (nullish (br_actualCostMicros r) (br_reservedMicros r)) hot in
        (Ok (Some (r, reused)), (repo', hot'))
    end.

(** The window is computed first only to reject an unknown zone. *)
Definition serviceUpsertAllowanceCycle (env : Env) (input : CycleInput)
    : M R BudgetError AllowanceCycleSettings :=
  λ repo,
    if negb (cycle_schema_ok (cycle_of_input input (env_now env))) then (Err ZodError, repo)
    else if negb (zone_known (ci_timezone input)) then (Err InvalidTimeZone, repo)
    else repo_upsertAllowanceCycle env input repo.

Definition serviceCreateAllowanceAdjustment (env : Env) (input : AdjustmentRequest)
    : M R BudgetError AllowanceAdjustment :=
  λ repo,
    let cycle := repo_getAllowanceCycle env (ar_tenantId input) repo in
    let window := allowanceCycleWindow localDateParts cycle (env_now env) in
    repo_createAllowanceAdjustment env
      {| ai_tenantId := ar_tenantId input; ai_userId := ar_userId input;
         ai_amountMicros := ar_amountMicros input; ai_reason := ar_reason input;
         ai_idempotencyKey := ar_idempotencyKey input; ai_cycleStart := w_start window;
         ai_cycleEnd := w_end window; ai_createdBy := ar_createdBy input |} repo.

Definition sum_adjustments (window : Window) (adjustments : list AllowanceAdjustment)
    : list (jstr * Z) :=
  fold_left (λ m a,
    if negb (bool_decide (aa_cycleStart a = w_start window))
       || negb (bool_decide (aa_cycleEnd a = w_end window)) then m
    else map_set (aa_userId a) (nullish (map_get (aa_userId a) m) 0 + aa_amountMicros a) m)
    adjustments [].

Definition allowanceBalances (env : Env) (tenantId : jstr) (userIds : list jstr) (repo : R)
    : list AllowanceBalance :=
  let uniqueUserIds := set_of_list userIds in
  match uniqueUserIds with
  | [] => []
  | _ =>
      let window := allowanceCycleWindow localDateParts (repo_getAllowanceCycle env tenantId repo)
                      (env_now env) in
      let limits := repo_listLimits tenantId repo in
      let adjustments := repo_listAllowanceAdjustments tenantId None repo in
      let usageRows := repo_currentUserSpendForUsers tenantId uniqueUserIds (w_start window)
                         (w_end window) repo in
      let attributions := repo_allowanceBaseAttributions tenantId uniqueUserIds repo in
      let usageByUser := map_of_entries (map (λ u, (us_userId u, u)) usageRows) in
      let attributionByUser := map_of_entries (map (λ a, (at_userId a, a)) attributions) in
      let adjustmentsByUser := sum_adjustments window adjustments in
      map (λ userId,
        let balance := allowanceBalanceForUser
          {| bi_tenantId := tenantId; bi_userId := userId; bi_cycleStart := w_start window;
             bi_cycleEnd := w_end window; bi_limits := limits;
             bi_adjustment := nullish (map_get userId adjustmentsByUser) 0;
             bi_usage := nullish (map_get userId usageByUser)
               {| us_userId := userId; us_usedMicros := 0; us_reservedMicros := 0 |} |} in
        let attribution := map_get userId attributionByUser in
        with_source balance
          (match ab_baseLimitMicros balance with
           | None => SourceUnlimited
           | Some _ => nullish (at_source <$> attribution) SourceMember
           end)
          (match ab_baseLimitMicros balance with
           | None => None
           | Some _ => Some (nullish (attribution ≫= at_sourceId) userId)
           end)) uniqueUserIds
  end.

Definition allowanceBalance (env : Env) (tenantId userId : jstr) (repo : R)
    : option AllowanceBalance :=
  head (allowanceBalances env tenantId [userId] repo).

Definition serviceSetMemberAllowanceBase (env : Env) (tenantId userId : jstr)
    (amountMicros : option Z) : M R BudgetError (option AllowanceBalance) :=
  λ repo,
    if match amountMicros with Some amount => amount <=? 0 | None => false end
    then (Err MemberAllowanceNotPositive, repo)
    else match repo_setMemberAllowanceBase env tenantId userId amountMicros repo with
         | (Err e, repo') => (Err e, repo')
         | (Ok _, repo') => (Ok (allowanceBalance env tenantId userId repo'), repo')
         end.
End service.

(** [createBudgetServiceFromEnv]: which counters and options the environment
    selects. An empty URL is falsy. *)
Record BudgetEnv := {
  be_BERRY_REDIS_URL : option jstr; be_REDIS_URL : option jstr;
  be_BERRY_BUDGETS_ENABLED : option jstr; be_BERRY_BUDGET_FAIL_CLOSED : option jstr;
}.

Inductive CountersChoice := UseRedis (url : jstr) | UseInMemory (healthy : bool).

Definition createBudgetServiceFromEnv (env : BudgetEnv) : CountersChoice * BudgetServiceOptions :=
  let redisUrl := match be_BERRY_REDIS_URL env with Some u => Some u | None => be_REDIS_URL env end in
  let enabled := bool_decide (be_BERRY_BUDGETS_ENABLED env = Some (js "true"))
                 || (truthy_opt redisUrl
                     && negb (bool_decide (be_BERRY_BUDGETS_ENABLED env = Some (js "false")))) in
  let failClosed := negb (bool_decide (be_BERRY_BUDGET_FAIL_CLOSED env = Some (js "false"))) in
  let options := {| opt_enabled := Some enabled; opt_failClosed := Some failClosed |} in
  match redisUrl with
  | Some url => if truthy url then (UseRedis url, options)
                else (UseInMemory (negb failClosed || negb enabled), options)
  | None => (UseInMemory (negb failClosed || negb enabled), options)
  end.

(** ** What the service needs of a repository

    [outstanding] lists the scopes and the amount of every open reservation. *)
Class RepositoryLaws (R : Type) `{BudgetRepository R} := {
  outstanding : R → list (list BudgetScope * Z);
  law_reserve env i st c st' :
    repo_reserve env i (input_scopes i) st = (Ok c, st') →
    bc_allowed c = true → bc_reused c = false →
    ∃ r, bc_reservation c = Some r
       ∧ outstanding st' ≡ₚ (input_scopes i, br_reservedMicros r) :: outstanding st;
  law_reserve_none env i st x st' :
    repo_reserve env i (input_scopes i) st = (x, st') →
    match x with Ok c => bc_allowed c = false ∨ bc_reused c = true | Err _ => True end →
    outstanding st' ≡ₚ outstanding st;
  law_reconcile env i st r st' :
    repo_reconcile env i st = (Ok (Some (r, false)), st') →
    outstanding st ≡ₚ (reservation_scopes r, br_reservedMicros r) :: outstanding st';
  law_reconcile_none env i st x st' :
    repo_reconcile env i st = (x, st') →
    (∀ r, x ≠ Ok (Some (r, false))) → outstanding st' ≡ₚ outstanding st;
}.

(** The open reservations of the in-memory repository. *)
Definition open_reservations (st : InMemoryBudgetRepository) : list (list BudgetScope * Z) :=
  map (λ r, (reservation_scopes r, br_reservedMicros r))
    (filter (λ r, br_status r = Reserved) (map_values (reservations st))).

(** The two calls of a turn, as the service makes them. *)
Inductive ServiceOp :=
| SvcReserve (env : Env) (input : ReserveBudgetInput)
| SvcReconcile (env : Env) (input : ReconcileBudgetInput).

Definition run_service {R C} `{BudgetRepository R} `{HotCounters C}
    (options : BudgetServiceOptions) (ops : list ServiceOp) (s : R * C) : R * C :=
  fold_left (λ s op, match op with
    | SvcReserve env i => (serviceReserve options env i s).2
    | SvcReconcile env i => (serviceReconcile env i s).2
    end) ops s.

(** Occurrences of a scope in a list of scopes. *)
Definition scope_count (s : BudgetScope) (scopes : list BudgetScope) : Z :=
  zsum (λ s', if bool_decide (s' = s) then 1 else 0) scopes.

(** A client that is watched: what its server refused is written down. The service
    does not look at it, as it does not look at the replies. *)
Record Watched (C : Type) := { w_client : C; w_refused : list RedisCommand }.
Arguments w_client {C}.
Arguments w_refused {C}.

Definition refused (cmds : list RedisCommand) (replies : list (result jstr Z)) : list RedisCommand :=
  map fst (List.filter (λ x, negb (is_ok x.2)) (zip cmds replies)).

#[export] Instance Watched_client {C} `{RedisClient C} : RedisClient (Watched C) := {|
  redis_waiting c := redis_waiting (w_client c);
  redis_connect c := let '(r, c') := redis_connect (w_client c) in
                     (r, {| w_client := c'; w_refused := w_refused c |});
  redis_ping c := redis_ping (w_client c);
  redis_exec cmds c := let '(replies, c') := redis_exec cmds (w_client c) in
                       (replies, {| w_client := c'; w_refused := w_refused c ++ refused cmds replies |});
  redis_value k c := redis_value k (w_client c) |}.

(** A Redis server as its integer keys, always reachable, with integers of 64 bits. *)
Record MapRedis := { mr_values : gmap jstr Z }.
Definition int64 (z : Z) : bool := (- 2 ^ 63 <=? z) && (z <? 2 ^ 63).

Definition map_redis_add (k : jstr) (n : Z) (m : gmap jstr Z) : result jstr Z * gmap jstr Z :=
  if int64 n && int64 (counter m k + n) then (Ok (counter m k + n), counter_add k n m)
  else (Err (js "ERR increment or decrement would overflow"), m).

Fixpoint map_redis_exec (cmds : list RedisCommand) (m : gmap jstr Z) : list (result jstr Z) * gmap jstr Z :=
  match cmds with
  | [] => ([], m)
  | cmd :: cmds =>
      let '(r, m) := match cmd with IncrBy k n => map_redis_add k n m | DecrBy k n => map_redis_add k (- n) m end in
      let '(replies, m) := map_redis_exec cmds m in (r :: replies, m)
  end.

#[export] Instance MapRedis_client : RedisClient MapRedis := {|
  redis_waiting _ := false; redis_connect c := (Some tt, c); redis_ping _ := Some (js "PONG");
  redis_exec cmds c := let '(replies, m) := map_redis_exec cmds (mr_values c) in (replies, {| mr_values := m |});
  redis_value k c := counter (mr_values c) k |}.
