(* ===== verification/BudgetServiceFacts.v ===== *)
(** * The budget service: fail-closed admission, hot counters, balances

    Theorems about BudgetService.v, the hot-counter invariant proved against
    the interfaces and instantiated with the in-memory repository and a Redis
    server that keeps its keys in a map. *)

From S2P Require Import Prelude JsMap JsString Calendar Budget BudgetFacts BudgetService.
From Stdlib Require Import Lia.
Local Open Scope Z_scope.

Set Default Goal Selector "!".

(** ** The in-memory repository meets the laws *)

Lemma map_values_set_new {V} (k : jstr) (v : V) m :
  map_get k m = None → map_values (map_set k v m) = map_values m ++ [v].
Proof. intros. unfold map_values. rewrite map_set_new by done. by rewrite fmap_app. Qed.

Lemma map_values_set_old {V} (k : jstr) (v v' : V) m :
  map_get k m = Some v →
  ∃ rest, map_values m ≡ₚ v :: rest ∧ map_values (map_set k v' m) ≡ₚ v' :: rest.
Proof.
  unfold map_values. induction m as [|[j w] m IH]; simpl; [done|].
  case_decide; [intros [= ->]; exists (m.*2); subst; simpl; split; done|].
  intros (rest & H1 & H2)%IH. exists (w :: rest). csimpl. rewrite H1, H2.
  split; apply Permutation_swap.
Qed.

Lemma open_reservations_new k r st :
  map_get k (reservations st) = None →
  open_reservations (with_reservation k r st)
  = open_reservations st ++
    (if bool_decide (br_status r = Reserved) then [(reservation_scopes r, br_reservedMicros r)] else []).
Proof.
  intros Hk. unfold open_reservations. simpl. rewrite map_values_set_new by done.
  rewrite filter_app, filter_cons, filter_nil, map_app.
  case_bool_decide; [by rewrite decide_True|by rewrite decide_False].
Qed.

Section in_memory.
Context (ldp : jstr → Z → LocalDateParts).

Lemma reserve_open env i st x st' :
  reserve ldp env i (input_scopes i) st = (x, st') →
  open_reservations st' = open_reservations st
    ∧ match x with Ok c => bc_allowed c = false ∨ bc_reused c = true | Err _ => True end
  ∨ ∃ c r, x = Ok c ∧ bc_allowed c = true ∧ bc_reused c = false ∧ bc_reservation c = Some r
      ∧ open_reservations st' = open_reservations st ++ [(input_scopes i, br_reservedMicros r)].
Proof.
  unfold reserve. destruct (map_get _ _) eqn:Hk.
  { intros [= <- <-]. left. split; [done|]. unfold reusedBudgetCheck.
    destruct (_ || _); [exact I|by right]. }
  destruct (toMicros _) as [est|]; [|intros [= <- <-]; by left].
  destruct (firstExceededQuota _ _ _ _) as [[l why]|].
  { intros [= <- <-]. left. rewrite open_reservations_new by done. simpl.
    rewrite app_nil_r. auto. }
  destruct (firstExceededLimit _ _ _ _) as [[l why]|].
  { intros [= <- <-]. left. rewrite open_reservations_new by done. simpl.
    rewrite app_nil_r. auto. }
  intros [= <- <-]. right. eexists _, _. repeat (split; [done|]).
  unfold with_counters. unfold open_reservations at 1. simpl.
  rewrite map_values_set_new, filter_app, map_app by done.
  f_equal.
Qed.

Lemma reconcile_open env i st x st' :
  reconcile env i st = (x, st') →
  (∃ r, x = Ok (Some (r, false))
     ∧ open_reservations st ≡ₚ (reservation_scopes r, br_reservedMicros r) :: open_reservations st')
  ∨ (∀ r, x ≠ Ok (Some (r, false))) ∧ st' = st.
Proof.
  unfold reconcile. destruct (map_get _ _) as [r|] eqn:Hk; [|intros [= <- <-]; by right].
  destruct (bool_decide_reflect (br_status r = Reserved)) as [Hr|Hr]; simpl.
  2:{ intros [= <- <-]. right. split; [congruence|done]. }
  destruct (toMicros _) as [a|]; [|intros [= <- <-]; by right].
  intros [= <- <-]. left. eexists. split; [done|].
  unfold open_reservations, with_counters, with_reservation. simpl.
  destruct (map_values_set_old _ _ (settled env r a) _ Hk) as (rest & H1 & H2).
  rewrite H1, H2, !filter_cons, decide_True by done. simpl. done.
Qed.

#[export] Instance InMemoryLaws : RepositoryLaws InMemoryBudgetRepository
  (H := InMemoryRepository ldp).
Proof.
  refine {| outstanding := open_reservations |}; simpl.
  - intros env i st c st' H Ha Hu.
    destruct (reserve_open env i st _ st' H) as [[_ [?|?]]|(c' & r & [= <-] & _ & _ & Hr & ->)];
      [congruence..|].
    exists r. split; [done|]. by rewrite Permutation_app_comm.
  - intros env i st x st' H Hx.
    destruct (reserve_open env i st x st' H) as [[-> _]|(c & r & -> & Ha & Hu & _)]; [done|].
    destruct Hx; congruence.
  - intros env i st r st' H.
    destruct (reconcile_open env i st _ st' H) as [(r' & [= <-] & Hp)|[Hn _]]; [done|].
    by exfalso; eapply Hn.
  - intros env i st x st' H Hx.
    destruct (reconcile_open env i st x st' H) as [(r' & -> & Hp)|[_ ->]]; [|done].
    by exfalso; eapply Hx.
Defined.
End in_memory.

(** ** Redis counters *)

#[export] Instance MapRedis_laws : RedisLaws MapRedis.
Proof.
  split; [..|done].
  - intros cmds [m]. simpl. revert m. induction cmds as [|cmd cmds IH]; intros m; simpl; [done|].
    destruct (match cmd with IncrBy _ _ => _ | DecrBy _ _ => _ end) as [r m'].
    specialize (IH m'). destruct (map_redis_exec cmds m') as [l m'']. simpl in *. by f_equal.
  - intros k cmds [m]. simpl. revert m.
    induction cmds as [|cmd cmds IH]; intros m; simpl; [rewrite zsum_nil; lia|].
    destruct (match cmd with IncrBy _ _ => _ | DecrBy _ _ => _ end) as [r m'] eqn:Hr.
    specialize (IH m'). destruct (map_redis_exec cmds m') as [l m'']. simpl in *.
    rewrite zsum_cons, IH. unfold accepted_delta at 2. simpl.
    assert (counter m' k = counter m k + (if is_ok r then command_delta k cmd else 0)) as ->; [|lia].
    destruct cmd; simpl; unfold map_redis_add in Hr; case_match; simplify_eq; simpl; [|lia| |lia];
      rewrite counter_add_spec; repeat case_bool_decide; try done; lia.
Defined.

Lemma kind_name_colon k : colon ∉ kind_name k.
Proof. destruct k; vm_compute; set_solver. Qed.

Lemma redisCounterKey_inj s k s' k' :
  redisCounterKey s k = redisCounterKey s' k' → s = s' ∧ k = k'.
Proof.
  unfold redisCounterKey. intros Hk%(inj (app _)).
  rewrite !(assoc_L (++) _ (scopeId _)), !(assoc_L (++) _ (js ":") (kind_name _)) in Hk.
  rewrite <- !(assoc_L (++)) in Hk.
  apply app_sep_inj in Hk as [Ht Hk]; [|apply scope_type_name_colon..].
  apply app_sep_inj_r in Hk as [Hi Hn]; [|apply kind_name_colon..].
  apply scope_type_name_inj in Ht. destruct s, s'; simpl in *; subst.
  split; [done|]. by destruct k, k'.
Qed.

Lemma reserved_key_bool s' s :
  bool_decide (redisCounterKey s' ReservedCounter = redisCounterKey s ReservedCounter)
  = bool_decide (s' = s).
Proof.
  apply bool_decide_ext. split; [by intros [? _]%redisCounterKey_inj|by intros ->].
Qed.

Lemma spent_key_bool s' s :
  bool_decide (redisCounterKey s' SpentCounter = redisCounterKey s ReservedCounter) = false.
Proof. apply bool_decide_eq_false. by intros [_ ?]%redisCounterKey_inj. Qed.

Definition outstanding_sum (s : BudgetScope) (l : list (list BudgetScope * Z)) : Z :=
  zsum (λ '(scopes, a), a * scope_count s scopes) l.

Section counters.
Context {R C : Type} `{Laws : RepositoryLaws R} `{Redis : RedisLaws C}.
Context (options : BudgetServiceOptions).
Implicit Types (repo : R) (s : BudgetScope).

(** What a pipeline moves: all its commands but the refused ones. *)
Lemma watched_exec_value k cmds (c : Watched C) :
  redis_value k (redis_exec cmds c).2 + zsum (command_delta k) (w_refused (redis_exec cmds c).2)
  = redis_value k c + zsum (command_delta k) (w_refused c) + zsum (command_delta k) cmds.
Proof.
  simpl. pose proof (redis_exec_value k cmds (w_client c)) as Hv.
  pose proof (redis_exec_length cmds (w_client c)) as Hl.
  destruct (redis_exec cmds (w_client c)) as [replies c']. simpl in *. rewrite Hv, zsum_app. clear Hv.
  enough (zsum (accepted_delta k) (zip cmds replies) + zsum (command_delta k) (refused cmds replies)
          = zsum (command_delta k) cmds) by lia.
  unfold refused. revert replies Hl. induction cmds as [|cmd cmds IH]; intros [|r replies] Hl; try done.
  injection Hl as Hl. specialize (IH _ Hl). change (zip (cmd :: cmds) (r :: replies)) with ((cmd, r) :: zip cmds replies).
  cbn [List.filter]. rewrite !zsum_cons. assert (accepted_delta k (cmd, r) = if is_ok r then command_delta k cmd else 0) as -> by done.
  destruct (is_ok r) eqn:E; cbn [fst snd]; rewrite E; cbn [negb map]; rewrite ?zsum_cons; cbn [fst]; lia.
Qed.

(** A counter, with what refused commands would have moved it by. *)
Definition intended s (c : Watched C) : Z :=
  redis_value (redisCounterKey s ReservedCounter) c
  + zsum (command_delta (redisCounterKey s ReservedCounter)) (w_refused c).

Lemma redis_reserve_value s scopes a (c : Watched C) :
  intended s (redis_reserve scopes a c) = intended s c + a * scope_count s scopes.
Proof.
  unfold intended, redis_reserve, scope_count. rewrite watched_exec_value. f_equal.
  rewrite zsum_map. induction scopes as [|s' scopes IH]; [rewrite !zsum_nil; lia|].
  rewrite !zsum_cons, IH. unfold command_delta at 1. rewrite reserved_key_bool.
  case_bool_decide; lia.
Qed.

Lemma redis_reconcile_value s scopes a b (c : Watched C) :
  intended s (redis_reconcile scopes a b c) = intended s c - a * scope_count s scopes.
Proof.
  unfold intended, redis_reconcile, scope_count. rewrite watched_exec_value.
  enough (zsum (command_delta (redisCounterKey s ReservedCounter)) (flat_map (λ s',
    [DecrBy (redisCounterKey s' ReservedCounter) a; IncrBy (redisCounterKey s' SpentCounter) b]) scopes)
    = - (a * zsum (λ s', if bool_decide (s' = s) then 1 else 0) scopes)) by lia.
  induction scopes as [|s' scopes IH]; [cbn [flat_map]; rewrite !zsum_nil; lia|]. cbn [flat_map app].
  rewrite !zsum_cons, IH. unfold command_delta at 1 2.
  rewrite spent_key_bool, reserved_key_bool. case_bool_decide; lia.
Qed.

Lemma redis_healthy_intended s (c : Watched C) : intended s (redis_healthy c).2 = intended s c.
Proof.
  unfold redis_healthy, intended. simpl. destruct (redis_waiting (w_client c)).
  - pose proof (redis_connect_value (redisCounterKey s ReservedCounter) (w_client c)) as Hc.
    destruct (redis_connect (w_client c)) as [[[]|] c']; simpl in *; [|by rewrite Hc].
    destruct (redis_ping c'); simpl; by rewrite Hc.
  - by destruct (redis_ping (w_client c)).
Qed.

Definition tracks repo (c : Watched C) : Prop := ∀ s, intended s c = outstanding_sum s (outstanding repo).

Lemma serviceReserve_tracks env i repo c :
  tracks repo c →
  tracks (serviceReserve options env i (repo, c)).2.1 (serviceReserve options env i (repo, c)).2.2.
Proof.
  intros Ht. unfold serviceReserve. case_bool_decide; [done|].
  set (h := if bool_decide (opt_failClosed options = Some false) then _ else _).
  assert (tracks repo h.2) as Ht1.
  { intros s. subst h. case_bool_decide; [apply Ht|]. cbn [hc_healthy RedisBudgetHotCounters].
    rewrite redis_healthy_intended. apply Ht. }
  destruct h as [healthy c1]. cbn [snd] in Ht1.
  destruct healthy; simpl; [|done].
  change (budgetScopes (tenant_of (ri_tenantId i)) (ri_userId i) (ri_departmentId i))
    with (input_scopes i).
  assert (∀ l l' s, l ≡ₚ l' → outstanding_sum s l = outstanding_sum s l') as Hperm
    by (intros; by apply zsum_perm).
  destruct (repo_reserve env i (input_scopes i) repo) as [x repo'] eqn:Hr.
  destruct x as [check|e]; [|intros s; rewrite (Hperm _ _ _ (law_reserve_none _ _ _ _ _ Hr I)); apply Ht1].
  destruct (bc_allowed check) eqn:Ha; simpl.
  2:{ intros s. rewrite (Hperm _ _ _ (law_reserve_none _ _ _ _ _ Hr (or_introl Ha))). apply Ht1. }
  destruct (bc_reused check) eqn:Hu.
  { assert (tracks repo' c1) by (intros s;
      rewrite (Hperm _ _ _ (law_reserve_none _ _ _ _ _ Hr (or_intror Hu))); apply Ht1).
    by destruct (bc_reservation check). }
  destruct (law_reserve _ _ _ _ _ Hr Ha Hu) as (r & -> & Hp). intros s.
  rewrite (Hperm _ _ _ Hp). unfold outstanding_sum. rewrite zsum_cons.
  simpl. rewrite redis_reserve_value, (Ht1 s). unfold outstanding_sum. lia.
Qed.

Lemma serviceReconcile_tracks env i repo c :
  tracks repo c →
  tracks (serviceReconcile env i (repo, c)).2.1 (serviceReconcile env i (repo, c)).2.2.
Proof.
  intros Ht. unfold serviceReconcile.
  destruct (repo_reconcile env i repo) as [x repo'] eqn:Hr.
  assert ((∀ r, x ≠ Ok (Some (r, false))) → tracks repo' c) as Hsame.
  { intros Hx s. unfold outstanding_sum.
    rewrite (zsum_perm _ _ _ (law_reconcile_none _ _ _ _ _ Hr Hx)). apply Ht. }
  destruct x as [[[r [|]]|]|e]; try (apply Hsame; congruence).
  intros s. simpl. rewrite redis_reconcile_value, Ht. unfold outstanding_sum.
  rewrite (zsum_perm _ _ _ (law_reconcile _ _ _ _ _ Hr)), zsum_cons. unfold reservation_scopes. lia.
Qed.

Lemma run_tracks ops repo (c : Watched C) :
  tracks repo c → tracks (run_service options ops (repo, c)).1 (run_service options ops (repo, c)).2.
Proof.
  revert repo c. induction ops as [|op ops IH]; intros repo c Ht; [apply Ht|].
  unfold run_service. cbn [fold_left]. destruct op as [env i|env i].
  - pose proof (serviceReserve_tracks env i repo c Ht) as H'. revert H'.
    destruct (serviceReserve options env i (repo, c)) as [x [repo' c']]. apply IH.
  - pose proof (serviceReconcile_tracks env i repo c Ht) as H'. revert H'.
    destruct (serviceReconcile env i (repo, c)) as [x [repo' c']]. apply IH.
Qed.

(** Watching changes nothing the service does. *)
Lemma redis_exec_watched cmds (c : Watched C) :
  w_client (redis_exec cmds c).2 = (redis_exec cmds (w_client c)).2.
Proof. simpl. by destruct (redis_exec cmds (w_client c)). Qed.

Lemma redis_healthy_watched (c : Watched C) :
  redis_healthy (w_client c) = ((redis_healthy c).1, w_client (redis_healthy c).2).
Proof.
  unfold redis_healthy. simpl. destruct (redis_waiting (w_client c)).
  - destruct (redis_connect (w_client c)) as [[[]|] c']; simpl; [|done]. by destruct (redis_ping c').
  - by destruct (redis_ping (w_client c)).
Qed.

Definition unwatch (x : R * Watched C) : R * C := (x.1, w_client x.2).

Lemma serviceReserve_watched env i x :
  (serviceReserve options env i (unwatch x)).2 = unwatch (serviceReserve options env i x).2.
Proof.
  destruct x as [repo c]. unfold serviceReserve, unwatch. cbn [fst snd]. case_bool_decide; [done|].
  cbn [hc_healthy RedisBudgetHotCounters]. rewrite redis_healthy_watched.
  set (opened := bool_decide (opt_failClosed options = Some false)).
  assert ((if opened then (true, w_client c) else ((redis_healthy c).1, w_client (redis_healthy c).2))
    = ((if opened then (true, c) else redis_healthy c).1, w_client (if opened then (true, c) else redis_healthy c).2))
    as -> by by destruct opened.
  destruct (if opened then (true, c) else redis_healthy c) as [healthy c1]. cbn [fst snd].
  destruct healthy; cbn [negb]; [|done].
  destruct (repo_reserve env i _ repo) as [[check|e] repo']; [|done].
  destruct (bc_allowed check); cbn [negb]; [|done].
  destruct (bc_reservation check) as [r|]; [|done]. destruct (bc_reused check); [done|].
  cbn [snd fst hc_reserve RedisBudgetHotCounters]. unfold redis_reserve. by rewrite redis_exec_watched.
Qed.

Lemma serviceReconcile_watched env i x :
  (serviceReconcile env i (unwatch x)).2 = unwatch (serviceReconcile env i x).2.
Proof.
  destruct x as [repo c]. unfold serviceReconcile, unwatch. cbn [fst snd].
  destruct (repo_reconcile env i repo) as [[[[r [|]]|]|e] repo']; try done.
  cbn [snd fst hc_reconcile RedisBudgetHotCounters]. unfold redis_reconcile. by rewrite redis_exec_watched.
Qed.

Lemma run_watched ops x :
  run_service options ops (unwatch x) = unwatch (run_service options ops x).
Proof.
  revert x. induction ops as [|op ops IH]; intros x; [done|]. unfold run_service in *. cbn [fold_left].
  rewrite <- IH. f_equal. destruct op; [apply serviceReserve_watched|apply serviceReconcile_watched].
Qed.

(** C33: over any repository that meets the laws and any Redis server that
    executes or refuses each INCRBY and DECRBY, the [reserved] counter of every
    scope is, through every sequence of admissions (refused, failed and replayed
    ones included) and settlements, the sum of the open reservations of that scope
    without what the server refused. So it is that sum as long as no command was
    refused. A refused command, because the connection is lost or a counter leaves
    64 bits, is not noticed: the counter is off from then on
    ([refused_command_drifts]). The watched client writes down what was refused;
    the run is otherwise the run with the plain client. *)
Theorem redis_reserved_tracks ops repo (c : C) s :
  (∀ s, redis_value (redisCounterKey s ReservedCounter) c = outstanding_sum s (outstanding repo)) →
  let after := run_service options ops (repo, {| w_client := c; w_refused := [] |}) in
  run_service options ops (repo, c) = (after.1, w_client after.2)
  ∧ redis_value (redisCounterKey s ReservedCounter) (w_client after.2)
    = outstanding_sum s (outstanding after.1)
      - zsum (command_delta (redisCounterKey s ReservedCounter)) (w_refused after.2).
Proof.
  intros Ht after. split; [apply (run_watched ops (repo, {| w_client := c; w_refused := [] |}))|].
  pose proof (run_tracks ops repo {| w_client := c; w_refused := [] |}) as Hrun.
  enough (intended s after.2 = outstanding_sum s (outstanding after.1)) as E
    by (unfold intended in E; simpl in E; lia).
  apply Hrun. intros s'. unfold intended. simpl. rewrite Ht, zsum_nil. lia.
Qed.
End counters.

(** ** Failing closed *)

(** while budgets are enabled and the service is not configured to fail
    open, unhealthy counters stop every admission: the call throws the
    [billing_unhealthy] error with its retry delay and leaves the repository
    untouched. An admission that returns was allowed by the repository. *)
Theorem serviceReserve_fails_closed {R C} `{BudgetRepository R} `{HotCounters C}
    options env i (repo : R) (c : C) :
  opt_enabled options ≠ Some false →
  (opt_failClosed options ≠ Some false → (hc_healthy c).1 = false →
   serviceReserve options env i (repo, c)
   = (Err (BudgetExceeded unhealthy_message unhealthy_check), (repo, (hc_healthy c).2)))
  ∧ (∀ check s', serviceReserve options env i (repo, c) = (Ok check, s') →
     bc_allowed check = true ∧ (opt_failClosed options = Some false ∨ (hc_healthy c).1 = true)
     ∧ repo_reserve env i (input_scopes i) repo = (Ok check, s'.1)).
Proof.
  intros He. unfold serviceReserve. rewrite bool_decide_eq_false_2 by done. split.
  - intros Hf Hh. rewrite bool_decide_eq_false_2 by done.
    destruct (hc_healthy c) as [h c1]. simpl in *. by subst h.
  - intros check s'. fold (input_scopes i).
    destruct (bool_decide_reflect (opt_failClosed options = Some false)) as [Hf|Hf].
    + simpl. destruct (repo_reserve env i _ repo) as [[ck|e] repo']; [|done].
      destruct (bc_allowed ck) eqn:Ha; [|done]. simpl.
      destruct (bc_reservation ck); [destruct (bc_reused ck)|]; intros [= <- <-]; auto.
    + destruct (hc_healthy c) as [[|] c1]; [simpl|done].
      destruct (repo_reserve env i _ repo) as [[ck|e] repo']; [|done].
      destruct (bc_allowed ck) eqn:Ha; [|done]. simpl.
      destruct (bc_reservation ck); [destruct (bc_reused ck)|]; intros [= <- <-]; auto.
Qed.

(** ** Balances *)

Lemma sum_adjustments_spec w l u :
  nullish (map_get u (sum_adjustments w l)) 0
  = zsum aa_amountMicros
      (filter (λ a, aa_cycleStart a = w_start w ∧ aa_cycleEnd a = w_end w)
         (filter (λ a, aa_userId a = u) l)).
Proof.
  unfold sum_adjustments.
  match goal with |- context [fold_left ?f l []] => set (step := f) end.
  enough (∀ m, nullish (map_get u (fold_left step l m)) 0
    = nullish (map_get u m) 0 + zsum aa_amountMicros
      (filter (λ a, aa_cycleStart a = w_start w ∧ aa_cycleEnd a = w_end w)
         (filter (λ a, aa_userId a = u) l))) as H by (by rewrite H).
  induction l as [|a l IH]; intros m; [simpl; unfold zsum; simpl; lia|].
  cbn [fold_left]. rewrite IH, !filter_cons. unfold step at 1.
  destruct (decide (aa_cycleStart a = w_start w ∧ aa_cycleEnd a = w_end w)) as [[Hs He]|Hn].
  - rewrite !bool_decide_eq_true_2 by done. simpl. rewrite map_get_set.
    destruct (decide (u = aa_userId a)) as [->|Hne].
    + rewrite decide_True, filter_cons_True, zsum_cons by done. simpl. lia.
    + by rewrite (decide_False (P := aa_userId a = u)) by done.
  - assert (negb (bool_decide (aa_cycleStart a = w_start w))
            || negb (bool_decide (aa_cycleEnd a = w_end w)) = true) as ->.
    { rewrite orb_true_iff, !negb_true_iff, !bool_decide_eq_false. by apply not_and_l. }
    destruct (decide (aa_userId a = u)); [|done]. by rewrite filter_cons_False.
Qed.

Lemma map_get_by_key {V} (key : V → jstr) (l : list V) u v :
  NoDup (map key l) → v ∈ l → key v = u →
  map_get u (map_of_entries (map (λ v, (key v, v)) l)) = Some v.
Proof.
  intros Hn Hv Hu. rewrite map_get_of_entries.
  destruct (find_first _ _) as [[k w]|] eqn:Hf.
  - apply find_first_Some in Hf as [Hin Hk]. apply bool_decide_eq_true in Hk. simpl in *.
    rewrite elem_of_reverse in Hin.
    apply list_elem_of_fmap in Hin as (w' & [= -> ->] & Hw). f_equal.
    apply list_elem_of_lookup in Hv as [p Hp], Hw as [q Hq].
    assert (p = q) as ->; [|congruence].
    apply (NoDup_lookup (key <$> l) p q u); [done|rewrite list_lookup_fmap, Hp|
      rewrite list_lookup_fmap, Hq]; simpl; congruence.
  - pose proof (proj1 (find_first_None _ _) Hf (u, v)) as H. simpl in H.
    rewrite bool_decide_eq_true_2 in H by done. exfalso. apply Bool.diff_true_false, H.
    rewrite elem_of_reverse. apply list_elem_of_fmap. exists v. by subst.
Qed.

(** Looking up the row computed for a key. *)
Lemma map_get_rows {V} (key : V → jstr) (f : jstr → V) (us : list jstr) u :
  (∀ u, key (f u) = u) → NoDup us → u ∈ us →
  map_get u (map_of_entries (map (λ v, (key v, v)) (map f us))) = Some (f u).
Proof.
  intros Hk Hn Hu. apply map_get_by_key; [|by apply (list_elem_of_fmap_2 f)|done].
  rewrite map_map. erewrite map_ext; [by rewrite map_id|done].
Qed.

Section balances.
Context (ldp : jstr → Z → LocalDateParts).

(** The numbers of a balance are tied to each other. *)
Definition balance_consistent (b : AllowanceBalance) : Prop :=
  let consumed := ab_usedMicros b + ab_reservedMicros b in
  ab_effectiveLimitMicros b = (λ z, z + ab_adjustmentMicros b) <$> ab_baseLimitMicros b
  ∧ ab_availableMicros b = (λ e, Z.max 0 (e - consumed)) <$> ab_effectiveLimitMicros b
  ∧ match ab_effectiveLimitMicros b with
    | None => ab_status b = BalUnlimited
    | Some e => (ab_status b = BalBlocked ↔ e <= consumed)
                ∧ (ab_status b = BalWarning ↔ consumed < e ∧ 80 * e <= 100 * consumed)
                ∧ ab_status b ≠ BalUnlimited
    end.

Lemma allowanceBalanceForUser_consistent i : balance_consistent (allowanceBalanceForUser i).
Proof.
  unfold balance_consistent, allowanceBalanceForUser, maxBigInt. cbn -[Z.mul Z.add].
  set (raw := match find_first _ _ with Some l => _ | None => _ end).
  set (used := us_usedMicros _). set (res := us_reservedMicros _). set (adj := bi_adjustment i).
  destruct (0 <? raw); simpl; [|done]. split; [done|].
  destruct (Z.ltb_spec (raw + adj - (used + res)) 0); simpl.
  - split; [f_equal; lia|]. repeat split; intros; done || lia.
  - split; [f_equal; lia|].
    destruct (Z.eqb_spec (raw + adj - (used + res)) 0);
      [|destruct (Z.leb_spec ((raw + adj) * 4) ((used + res) * 5))];
      repeat split; intros; done || lia.
Qed.

(** the balances of a list of members are one balance per distinct member,
    in the order of first mention; each reports the adjustment that admission
    uses for the current cycle and the sums of that member's settled and open
    reservations of the cycle, its limit is the member's base plus the
    adjustment, what is available never negative, and its status follows from
    what is consumed: blocked when nothing is left, a warning from 80 percent
    on. *)
Theorem allowanceBalances_spec env t us (st : InMemoryBudgetRepository) :
  Forall (λ u, truthy u = true) us →
  let w := allowanceCycleWindow ldp (getAllowanceCycle env t st) (env_now env) in
  let balances := allowanceBalances (H := InMemoryRepository ldp) ldp env t us st in
  map ab_userId balances = set_of_list us
  ∧ ∀ b, b ∈ balances →
      ab_adjustmentMicros b = currentAdjustment ldp env t (ab_userId b) st
      ∧ ab_usedMicros b = zsum used_part (spend_rows t (ab_userId b) (w_start w) (w_end w) st)
      ∧ ab_reservedMicros b = zsum reserved_part (spend_rows t (ab_userId b) (w_start w) (w_end w) st)
      ∧ balance_consistent b.
Proof.
  intros Hus w balances.
  assert (balances = match set_of_list us with [] => [] | _ => balances end) as Hb.
  { subst balances. unfold allowanceBalances. by destruct (set_of_list us). }
  pose proof (set_of_list_NoDup us) as Hn.
  assert (∀ u, u ∈ set_of_list us → truthy u = true) as Ht.
  { intros u Hu. rewrite elem_of_set_of_list in Hu. rewrite Forall_forall in Hus. by apply Hus. }
  subst balances. unfold allowanceBalances in *. destruct (set_of_list us) as [|u0 us'] eqn:Hset.
  { split; [done|set_solver]. }
  rewrite <- Hset in *. clear Hb Hset u0 us'. split.
  { rewrite map_map. apply map_id. }
  intros b Hb. apply list_elem_of_fmap in Hb as (u & -> & Hu). 
  cbn [ab_userId ab_adjustmentMicros ab_usedMicros ab_reservedMicros with_source bi_userId
       allowanceBalanceForUser bi_adjustment bi_usage repo_listAllowanceAdjustments
       repo_currentUserSpendForUsers repo_getAllowanceCycle InMemoryRepository].
  fold w. split; [|split; [|split]].
  - rewrite sum_adjustments_spec. unfold currentAdjustment. fold w. unfold listAllowanceAdjustments.
    rewrite !list_filter_filter. f_equal. apply list_filter_iff. intros a.
    simpl. rewrite (Ht u Hu). naive_solver.
  - rewrite currentUserSpendForUsers_spec.
    by rewrite (map_get_rows us_userId) by done.
  - rewrite currentUserSpendForUsers_spec.
    by rewrite (map_get_rows us_userId) by done.
  - apply allowanceBalanceForUser_consistent.
Qed.
End balances.

(** ** Witnesses *)

Definition demo_options : BudgetServiceOptions := {| opt_enabled := Some true; opt_failClosed := None |}.
Definition demo_ldp : jstr → Z → LocalDateParts := λ _, utc_parts.
#[export] Instance demo_repository : BudgetRepository InMemoryBudgetRepository :=
  InMemoryRepository demo_ldp.

Definition empty_redis : MapRedis := {| mr_values := ∅ |}.
Definition demo_service_ops : list ServiceOp :=
  [SvcReserve demo_env (demo_request "a" 60); SvcReserve demo_env (demo_request "b" 50);
   SvcReserve demo_env (demo_request "c" 30); SvcReconcile demo_env (demo_settle "a" 20)].

Lemma redis_reserved_tracks_witness :
  let after := run_service demo_options demo_service_ops (demo_repo, empty_redis) in
  redis_value (redisCounterKey (Scope ScopeUser (js "u")) ReservedCounter) after.2
  = outstanding_sum (Scope ScopeUser (js "u")) (open_reservations after.1).
Proof.
  destruct (redis_reserved_tracks (Laws := InMemoryLaws demo_ldp) (Redis := MapRedis_laws)
    demo_options demo_service_ops demo_repo empty_redis (Scope ScopeUser (js "u"))) as [H1 H2];
    [intros s; reflexivity|].
  cbv zeta. refine (eq_trans (f_equal (λ x, redis_value _ x.2) H1) (eq_trans H2 _)).
  vm_compute. reflexivity.
Defined.

(** Without limits, a reservation of the largest integer of Redis and one more: the
    second increment fails, and is decremented all the same when it settles. *)
Lemma refused_command_drifts :
  let after := run_service demo_options
    [SvcReserve demo_env (demo_request "a" (2 ^ 63 - 1)); SvcReserve demo_env (demo_request "b" 1);
     SvcReconcile demo_env (demo_settle "a" 20)]
    (empty_repository, empty_redis) in
  redis_value (redisCounterKey (Scope ScopeUser (js "u")) ReservedCounter) after.2 = 0
  ∧ outstanding_sum (Scope ScopeUser (js "u")) (open_reservations after.1) = 1.
Proof. by vm_compute. Qed.

Lemma serviceReserve_fails_closed_witness :
  serviceReserve demo_options demo_env (demo_request "a" 60) (demo_repo, {| imc_healthy := false |})
  = (Err (BudgetExceeded unhealthy_message unhealthy_check), (demo_repo, {| imc_healthy := false |})).
Proof.
  destruct (serviceReserve_fails_closed demo_options demo_env (demo_request "a" 60) demo_repo
              {| imc_healthy := false |}) as [H _]; [discriminate|].
  apply H; [discriminate|reflexivity].
Defined.

Lemma allowanceBalances_spec_witness :
  map ab_userId (allowanceBalances demo_ldp demo_env demo_tenant [js "u"; js "v"; js "u"] demo_repo)
  = [js "u"; js "v"].
Proof.
  apply (allowanceBalances_spec demo_ldp demo_env demo_tenant [js "u"; js "v"; js "u"] demo_repo).
  repeat constructor.
Defined.
