(* ===== verification/Json.v ===== *)
(** * JSON values, [JSON.stringify] and [JSON.parse]

    The standard library of the language, as the session files, the checkpoint
    size bound and the token estimates use it. An object is the list of its
    members in property order. Numbers are integers below 10^21, the only ones
    the modelled records hold; a document with a fraction or an exponent is
    outside the model, and [json_parse] gives [None] for it as for a
    SyntaxError. *)

From S2P Require Import Prelude JsMap JsString.
From Stdlib Require Import Lia.

Set Default Goal Selector "!".

Inductive json :=
| JNull
| JBool (b : bool)
| JNum (z : Z)
| JStr (s : jstr)
| JArr (l : list json)
| JObj (l : list (jstr * json)).

(** ** [JSON.stringify] *)

Definition hex_digit (n : N) : N := (if n <? 10 then 48 + n else 87 + n)%N.

Definition u_escape (c : N) : jstr :=
  [92; 117; hex_digit (c / 4096); hex_digit (c / 256 mod 16); hex_digit (c / 16 mod 16);
   hex_digit (c mod 16)]%N.

Definition quote_unit (c : N) : jstr :=
  (if c =? 8 then [92; 98] else if c =? 9 then [92; 116] else if c =? 10 then [92; 110]
   else if c =? 12 then [92; 102] else if c =? 13 then [92; 114] else if c =? 34 then [92; 34]
   else if c =? 92 then [92; 92] else if c <? 32 then u_escape c else [c])%N.

(** A lone surrogate is escaped, a pair is kept. *)
Fixpoint quote_body (s : jstr) : jstr :=
  match s with
  | [] => []
  | c :: s' =>
      if is_high c then
        match s' with
        | d :: s'' => if is_low d then c :: d :: quote_body s'' else u_escape c ++ quote_body s'
        | [] => u_escape c
        end
      else if is_low c then u_escape c ++ quote_body s'
      else quote_unit c ++ quote_body s'
  end.

Definition quote (s : jstr) : jstr := 34%N :: quote_body s ++ [34%N].

Definition js_true : jstr := js "true".
Definition js_false : jstr := js "false".
Definition js_null : jstr := js "null".

Fixpoint stringify (j : json) : jstr :=
  match j with
  | JNull => js_null
  | JBool b => if b then js_true else js_false
  | JNum z => dec z
  | JStr s => quote s
  | JArr l => 91%N :: join [44%N] (map stringify l) ++ [93%N]
  | JObj l => 123%N :: join [44%N] (map (λ '(k, v), quote k ++ 58%N :: stringify v) l) ++ [125%N]
  end.

(** ** [JSON.parse] *)

Definition is_json_ws (c : N) : bool := ((c =? 9) || (c =? 10) || (c =? 13) || (c =? 32))%N.

Fixpoint skip_ws (s : jstr) : jstr :=
  match s with
  | c :: s' => if is_json_ws c then skip_ws s' else s
  | [] => []
  end.

Definition hex_value (c : N) : option N := Z.to_N <$> digit_value c.

Definition hex4 (a b c d : N) : option N :=
  match hex_value a, hex_value b, hex_value c, hex_value d with
  | Some a, Some b, Some c, Some d => Some (a * 4096 + b * 256 + c * 16 + d)%N
  | _, _, _, _ => None
  end.

Definition simple_escape (c : N) : option N :=
  (if c =? 34 then Some 34 else if c =? 92 then Some 92 else if c =? 47 then Some 47
   else if c =? 98 then Some 8 else if c =? 102 then Some 12 else if c =? 110 then Some 10
   else if c =? 114 then Some 13 else if c =? 116 then Some 9 else None)%N.

(** After the opening quote: the units of the string and the rest. *)
Fixpoint parse_chars (s : jstr) : option (jstr * jstr) :=
  match s with
  | [] => None
  | c :: s1 =>
      if (c =? 34)%N then Some ([], s1)
      else if (c =? 92)%N then
        match s1 with
        | [] => None
        | e :: s2 =>
            if (e =? 117)%N then
              match s2 with
              | h1 :: h2 :: h3 :: h4 :: s3 =>
                  match hex4 h1 h2 h3 h4 with
                  | Some u => '(t, r) ← parse_chars s3; Some (u :: t, r)
                  | None => None
                  end
              | _ => None
              end
            else
              match simple_escape e with
              | Some u => '(t, r) ← parse_chars s2; Some (u :: t, r)
              | None => None
              end
        end
      else if (c <? 32)%N then None
      else '(t, r) ← parse_chars s1; Some (c :: t, r)
  end.

Fixpoint span_digits (s : jstr) : jstr * jstr :=
  match s with
  | c :: s' => if is_digit c then let '(d, r) := span_digits s' in (c :: d, r) else ([], s)
  | [] => ([], [])
  end.

Definition parse_natural (s : jstr) : option (Z * jstr) :=
  let '(ds, rest) := span_digits s in
  match ds with
  | [] => None
  | 48%N :: _ :: _ => None
  | _ =>
      match rest with
      | 46%N :: _ | 101%N :: _ | 69%N :: _ => None
      | _ => z ← parse_digits 10 0 ds; Some (z, rest)
      end
  end.

Definition parse_number (s : jstr) : option (Z * jstr) :=
  match s with
  | 45%N :: s' => '(z, r) ← parse_natural s'; Some (- z, r)%Z
  | _ => parse_natural s
  end.

(** One value after white space. The members of an object go through a [Map],
    so a repeated key keeps its place and takes the last value. *)
Fixpoint parse_value (fuel : nat) (s : jstr) : option (json * jstr) :=
  match fuel with
  | O => None
  | S fuel =>
      match skip_ws s with
      | 123%N :: s1 =>
          match skip_ws s1 with
          | 125%N :: s2 => Some (JObj [], s2)
          | _ => parse_members fuel [] s1
          end
      | 91%N :: s1 =>
          match skip_ws s1 with
          | 93%N :: s2 => Some (JArr [], s2)
          | _ => parse_elements fuel [] s1
          end
      | 34%N :: s1 => '(t, r) ← parse_chars s1; Some (JStr t, r)
      | 116%N :: 114%N :: 117%N :: 101%N :: r => Some (JBool true, r)
      | 102%N :: 97%N :: 108%N :: 115%N :: 101%N :: r => Some (JBool false, r)
      | 110%N :: 117%N :: 108%N :: 108%N :: r => Some (JNull, r)
      | s1 => '(z, r) ← parse_number s1; Some (JNum z, r)
      end
  end
with parse_elements (fuel : nat) (acc : list json) (s : jstr) : option (json * jstr) :=
  match fuel with
  | O => None
  | S fuel =>
      '(v, r) ← parse_value fuel s;
      match skip_ws r with
      | 44%N :: r => parse_elements fuel (acc ++ [v]) r
      | 93%N :: r => Some (JArr (acc ++ [v]), r)
      | _ => None
      end
  end
with parse_members (fuel : nat) (acc : list (jstr * json)) (s : jstr) : option (json * jstr) :=
  match fuel with
  | O => None
  | S fuel =>
      match skip_ws s with
      | 34%N :: s1 =>
          '(k, r) ← parse_chars s1;
          match skip_ws r with
          | 58%N :: r =>
              '(v, r) ← parse_value fuel r;
              match skip_ws r with
              | 44%N :: r => parse_members fuel (map_set k v acc) r
              | 125%N :: r => Some (JObj (map_set k v acc), r)
              | _ => None
              end
          | _ => None
          end
      | _ => None
      end
  end.

(** Every call consumes a code unit or returns, so twice the length is enough. *)
Definition json_parse (s : jstr) : option json :=
  '(v, r) ← parse_value (S (2 * length s)) s;
  match skip_ws r with [] => Some v | _ => None end.

(** ** Members *)

Definition member (k : jstr) (j : json) : option json :=
  match j with JObj l => map_get k l | _ => None end.

(** Keys are unique, as in every JavaScript object, and strings have 16-bit
    units. *)
Fixpoint json_wf (j : json) : Prop :=
  match j with
  | JNull | JBool _ | JNum _ => True
  | JStr s => js_wf s
  | JArr l => foldr (λ j P, json_wf j ∧ P) True l
  | JObj l => NoDup l.*1 ∧ foldr (λ kv P, (js_wf kv.1 ∧ json_wf kv.2) ∧ P) True l
  end.

(** A checker for it. *)
Definition js_wfb (s : jstr) : bool := forallb (λ c, (c <? 65536)%N) s.
Fixpoint json_wfb (j : json) : bool :=
  match j with
  | JNull | JBool _ | JNum _ => true
  | JStr s => js_wfb s
  | JArr l => forallb json_wfb l
  | JObj l => bool_decide (NoDup l.*1) && forallb (λ kv, js_wfb kv.1 && json_wfb kv.2) l
  end.

(** Induction with the hypothesis for every element and member. *)
Section json_ind.
Variable P : json → Prop.
Hypothesis HNull : P JNull.
Hypothesis HBool : ∀ b, P (JBool b).
Hypothesis HNum : ∀ z, P (JNum z).
Hypothesis HStr : ∀ s, P (JStr s).
Hypothesis HArr : ∀ l, Forall P l → P (JArr l).
Hypothesis HObj : ∀ l, Forall (λ kv, P kv.2) l → P (JObj l).

Fixpoint json_induction (j : json) : P j :=
  match j with
  | JNull => HNull
  | JBool b => HBool b
  | JNum z => HNum z
  | JStr s => HStr s
  | JArr l => HArr l (list_ind (Forall P) (Forall_nil_2 P)
      (λ x l H, Forall_cons_2 P x l (json_induction x) H) l)
  | JObj l => HObj l (list_ind (Forall (λ kv, P kv.2)) (Forall_nil_2 _)
      (λ kv l H, Forall_cons_2 (λ kv, P kv.2) kv l (json_induction kv.2) H) l)
  end.
End json_ind.

(** The number of nodes, a bound on the fuel of one value. *)
Fixpoint json_size (j : json) : nat :=
  match j with
  | JArr l => S (foldr (λ j n, S (json_size j) + n) O l)
  | JObj l => S (foldr (λ kv n, S (json_size kv.2) + n) O l)
  | _ => 1
  end.

Lemma js_wfb_sound s : js_wfb s = true → js_wf s.
Proof.
  unfold js_wfb, js_wf. rewrite forallb_forall, Forall_forall.
  intros H c Hc. apply N.ltb_lt, H. by apply list_elem_of_In.
Qed.

Lemma json_wfb_sound j : json_wfb j = true → json_wf j.
Proof.
  induction j as [|b|z|s|l IH|l IH] using json_induction; cbn [json_wfb json_wf]; try done.
  - apply js_wfb_sound.
  - induction IH as [|x xs Hx _ IHl]; simpl; [done|]. rewrite andb_true_iff. intros [? ?]. auto.
  - rewrite andb_true_iff. intros [Hn H]. apply bool_decide_eq_true in Hn. split; [done|]. clear Hn.
    induction IH as [|x xs Hx _ IHl]; simpl in *; [done|].
    rewrite !andb_true_iff in H. destruct H as [[? ?] ?]. auto using js_wfb_sound.
Qed.

(** ** Round trip *)

Lemma hex_digit_value n : (n < 16)%N → hex_value (hex_digit n) = Some n.
Proof.
  intros H. unfold hex_value, hex_digit, digit_value, is_digit.
  destruct (N.ltb_spec n 10).
  - rewrite !(proj2 (N.leb_le _ _)) by lia. simpl. f_equal. lia.
  - rewrite (proj2 (N.leb_gt (87 + n) 57)), (proj2 (N.leb_le 97 _)), (proj2 (N.leb_le _ 102)) by lia.
    rewrite andb_false_r. simpl. f_equal. lia.
Qed.

Lemma hex4_escape c : (c < 65536)%N →
  hex4 (hex_digit (c / 4096)) (hex_digit (c / 256 mod 16)) (hex_digit (c / 16 mod 16))
    (hex_digit (c mod 16)) = Some c.
Proof.
  intros H. unfold hex4.
  rewrite !hex_digit_value by (apply N.mod_lt || apply N.Div0.div_lt_upper_bound; done || lia).
  f_equal. zify. Z.to_euclidean_division_equations. lia.
Qed.

Lemma parse_u_escape c s : (c < 65536)%N →
  parse_chars (u_escape c ++ s) = '(t, r) ← parse_chars s; Some (c :: t, r).
Proof. intros H. cbn [u_escape app parse_chars]. simpl. by rewrite hex4_escape. Qed.

Lemma parse_quote_unit c s : (c < 65536)%N →
  parse_chars (quote_unit c ++ s) = '(t, r) ← parse_chars s; Some (c :: t, r).
Proof.
  intros H. unfold quote_unit.
  repeat match goal with |- context [(c =? ?n)%N] =>
    destruct (N.eqb_spec c n); [subst; reflexivity|] end.
  destruct (N.ltb_spec c 32) as [|Hc]; [by apply parse_u_escape|].
  cbn [app parse_chars].
  rewrite (proj2 (N.eqb_neq c 34)), (proj2 (N.eqb_neq c 92)), (proj2 (N.ltb_ge _ _)) by done.
  done.
Qed.

Lemma surrogate_raw c s : (0xd800 <= c <= 0xdfff)%N →
  parse_chars (c :: s) = '(t, r) ← parse_chars s; Some (c :: t, r).
Proof.
  intros H. cbn [parse_chars].
  rewrite (proj2 (N.eqb_neq c 34)), (proj2 (N.eqb_neq c 92)), (proj2 (N.ltb_ge _ _)) by lia. done.
Qed.

Lemma parse_quote_body s rest :
  js_wf s → parse_chars (quote_body s ++ 34%N :: rest) = Some (s, rest).
Proof.
  remember (length s) as n eqn:Hn. revert s Hn.
  induction n as [n IH] using lt_wf_ind. intros [|c s] -> Hwf; [done|].
  apply Forall_cons in Hwf as [Hc Hs].
  assert (parse_chars (quote_body s ++ 34%N :: rest) = Some (s, rest)) as Hrest
    by (apply (IH (length s)); simpl; [lia|done..]).
  cbn [quote_body]. destruct (is_high c) eqn:Hh.
  - destruct s as [|d s].
    + by rewrite parse_u_escape.
    + destruct (is_low d) eqn:Hl.
      * unfold is_high, is_low in *. rewrite !andb_true_iff, !N.leb_le in *.
        cbn [app]. rewrite !surrogate_raw by lia.
        rewrite (IH (length s)); simpl; [done|lia|done|].
        by apply Forall_cons in Hs as [_ ?].
      * rewrite <- (assoc_L (++)), parse_u_escape by done. by rewrite Hrest.
  - destruct (is_low c).
    + rewrite <- (assoc_L (++)), parse_u_escape by done. by rewrite Hrest.
    + rewrite <- (assoc_L (++)), parse_quote_unit by done. by rewrite Hrest.
Qed.

(** What may follow a number: not a digit, a point or an exponent. *)
Definition number_end (s : jstr) : Prop :=
  match s with
  | [] => True
  | c :: _ => is_digit c = false ∧ c ≠ 46%N ∧ c ≠ 101%N ∧ c ≠ 69%N
  end.

Lemma span_digits_app ds rest :
  (∀ c, c ∈ ds → is_digit c = true) → number_end rest → span_digits (ds ++ rest) = (ds, rest).
Proof.
  intros Hd Hr. induction ds as [|c ds IH]; simpl.
  - destruct rest as [|c rest]; [done|]. destruct Hr as [Hr _]. simpl. by rewrite Hr.
  - rewrite Hd by set_solver. rewrite IH by set_solver. done.
Qed.

Lemma parse_natural_digits z rest :
  (0 <= z)%Z → number_end rest →
  parse_natural (digits_of (S (Z.to_nat (Z.log2 z))) z ++ rest) = Some (z, rest).
Proof.
  intros Hz Hr. pose proof (digits_fuel z Hz) as Hf.
  set (f := S (Z.to_nat (Z.log2 z))) in *.
  pose proof (digits_of_parse f z (conj Hz Hf) ltac:(done)) as Hp.
  unfold parse_natural.
  rewrite span_digits_app; [|intros c; by apply digits_of_digits|done].
  destruct (digits_of f z) as [|c [|d ds]] eqn:Hd.
  - subst f. cbn [digits_of] in Hd. by apply app_eq_nil in Hd as [_ ?].
  - assert (match rest with 46%N :: _ | 101%N :: _ | 69%N :: _ => None | _ =>
      z ← parse_digits 10 0 [c]; Some (z, rest) end = Some (z, rest)) as H.
    { rewrite Hp. destruct rest as [|e rest]; [done|]. destruct Hr as (_ & ? & ? & ?).
      destruct e as [|e]; [done|].
      repeat (destruct e as [e|e|]; try done). }
    by destruct c as [|c]; [|repeat (destruct c as [c|c|]; try exact H)].
  - assert (c ≠ 48%N) by (intros ->; by apply (digits_of_head f z 48 (d :: ds)) in Hd).
    assert (match rest with 46%N :: _ | 101%N :: _ | 69%N :: _ => None | _ =>
      z ← parse_digits 10 0 (c :: d :: ds); Some (z, rest) end = Some (z, rest)) as H'.
    { rewrite Hp. destruct rest as [|e rest]; [done|]. destruct Hr as (_ & ? & ? & ?).
      destruct e as [|e]; [done|].
      repeat (destruct e as [e|e|]; try done). }
    by destruct c as [|c]; [|repeat (destruct c as [c|c|]; try exact H')].
Qed.

Lemma skip_ws_id c s : is_json_ws c = false → skip_ws (c :: s) = c :: s.
Proof. intros H. simpl. by rewrite H. Qed.

Lemma digits_of_cons fuel z : ∃ c s, digits_of (S fuel) z = c :: s.
Proof.
  cbn [digits_of]. destruct (_ ++ _) eqn:H; [|by eexists _, _].
  by apply app_eq_nil in H as [_ ?].
Qed.

(** The first unit of a printed value opens no other construct. *)
Lemma dec_head z : ∃ c s, dec z = c :: s ∧ (c = 45%N ∨ is_digit c = true).
Proof.
  unfold dec. destruct (Z.ltb_spec z 0); [by eexists _, _; split; [done|left]|].
  destruct (digits_of_cons (Z.to_nat (Z.log2 z)) z) as (c & s & Hd). rewrite Hd.
  exists c, s. split; [done|]. right. eapply digits_of_digits; [|rewrite Hd]; [lia|set_solver].
Qed.

Lemma stringify_head j :
  ∃ c s, stringify j = c :: s ∧ is_json_ws c = false ∧ c ≠ 93%N ∧ c ≠ 125%N.
Proof.
  destruct j as [|[]|z|s|l|l]; try by eexists _, _.
  destruct (dec_head z) as (c & s & Hd & Hc). exists c, s. split; [done|].
  unfold is_digit, is_json_ws in *. rewrite andb_true_iff, !N.leb_le in Hc.
  rewrite !orb_false_iff, !N.eqb_neq. lia.
Qed.

Definition parses (j : json) : Prop := ∀ fuel rest,
  (json_size j <= fuel)%nat → number_end rest → parse_value fuel (stringify j ++ rest) = Some (j, rest).

Lemma parse_elements_join l : ∀ fuel acc rest,
  Forall parses l → l ≠ [] → (foldr (λ j n, S (json_size j) + n) O l <= fuel)%nat →
  parse_elements fuel acc (join [44%N] (map stringify l) ++ 93%N :: rest) = Some (JArr (acc ++ l), rest).
Proof.
  induction l as [|j l IH]; intros fuel acc rest Hl Hne Hf; [done|].
  apply Forall_cons in Hl as [Hj Hl]. cbn [foldr] in Hf. destruct fuel as [|fuel]; [lia|].
  destruct l as [|k l].
  - cbn [map join parse_elements]. rewrite Hj; [done|lia|done].
  - cbn [map]. rewrite join_cons by done. rewrite <- !(assoc_L (++)).
    cbn [parse_elements]. rewrite Hj; [|lia|done]. cbn -[parse_elements join map].
    rewrite IH; [by rewrite <- (assoc_L (++))|done|done|cbn [foldr] in *; lia].
Qed.

Lemma map_set_snoc (acc l : list (jstr * json)) k v :
  NoDup (acc ++ (k, v) :: l).*1 → map_set k v acc = acc ++ [(k, v)].
Proof.
  intros Hn. apply map_set_new, map_get_None. unfold map_keys.
  rewrite fmap_app, fmap_cons in Hn. apply NoDup_app in Hn as (_ & Hn & _). set_solver.
Qed.

Definition member_text (kv : jstr * json) : jstr := quote kv.1 ++ 58%N :: stringify kv.2.

Lemma parse_members_join l : ∀ fuel acc rest,
  Forall (λ kv, js_wf kv.1 ∧ parses kv.2) l → l ≠ [] → NoDup (acc ++ l).*1 →
  (foldr (λ kv n, S (json_size kv.2) + n) O l <= fuel)%nat →
  parse_members fuel acc (join [44%N] (map member_text l) ++ 125%N :: rest)
  = Some (JObj (acc ++ l), rest).
Proof.
  induction l as [|[k v] l IH]; intros fuel acc rest Hl Hne Hn Hf; [done|].
  apply Forall_cons in Hl as [[Hk Hv] Hl]. cbn [foldr fst snd] in *. destruct fuel as [|fuel]; [lia|].
  assert (∀ tl, parse_chars (quote_body k ++ 34%N :: tl) = Some (k, tl)) as Hq
    by (intros; by apply parse_quote_body).
  pose proof (map_set_snoc acc l k v Hn) as Hset.
  destruct l as [|kv l].
  - cbn [map join]. unfold member_text at 1. unfold quote. cbn [fst snd].
    rewrite <- !(assoc_L (++)). cbn [app]. rewrite <- !(assoc_L (++)). cbn [app parse_members].
    rewrite skip_ws_id by done. rewrite Hq. cbn -[parse_value map_set].
    rewrite Hv; [|lia|done]. cbn -[map_set]. by rewrite Hset.
  - cbn [map]. rewrite join_cons by done. unfold member_text at 1. unfold quote. cbn [fst snd].
    rewrite <- !(assoc_L (++)). cbn [app]. rewrite <- !(assoc_L (++)). cbn [app].
    change (member_text kv :: map member_text l) with (map member_text (kv :: l)).
    cbn [parse_members]. rewrite skip_ws_id by done. rewrite Hq. cbn -[parse_value map_set parse_members join map].
    rewrite <- ?(assoc_L (++)).
    rewrite Hv; [|lia|done]. cbn -[map_set parse_members join map]. rewrite Hset.
    rewrite IH; [by rewrite <- (assoc_L (++))|done|done| |cbn [foldr] in *; lia].
    by rewrite <- (assoc_L (++)).
Qed.

Lemma parse_value_number fuel c s :
  c = 45%N ∨ is_digit c = true →
  parse_value (S fuel) (c :: s) = '(z, r) ← parse_number (c :: s); Some (JNum z, r).
Proof.
  intros Hc. unfold is_digit in Hc. rewrite andb_true_iff, !N.leb_le in Hc.
  assert (c = 45 ∨ c = 48 ∨ c = 49 ∨ c = 50 ∨ c = 51 ∨ c = 52 ∨ c = 53 ∨ c = 54 ∨ c = 55
          ∨ c = 56 ∨ c = 57)%N as Hd by lia.
  repeat (destruct Hd as [->|Hd]; [reflexivity|]). by subst.
Qed.

Lemma parse_number_dec z rest : number_end rest → parse_number (dec z ++ rest) = Some (z, rest).
Proof.
  intros Hr. unfold dec. destruct (Z.ltb_spec z 0).
  - cbn [app parse_number]. rewrite parse_natural_digits by (lia || done). simpl.
    by rewrite Z.opp_involutive.
  - destruct (digits_of_cons (Z.to_nat (Z.log2 z)) z) as (c & s & Hd).
    assert (is_digit c = true) as Hc by (eapply digits_of_digits; [|rewrite Hd]; [done|set_solver]).
    rewrite <- (parse_natural_digits z rest) by done. rewrite Hd. cbn [app].
    unfold is_digit in Hc. rewrite andb_true_iff, !N.leb_le in Hc.
    assert (c = 48 ∨ c = 49 ∨ c = 50 ∨ c = 51 ∨ c = 52 ∨ c = 53 ∨ c = 54 ∨ c = 55
            ∨ c = 56 ∨ c = 57)%N as Hdig by lia.
    repeat (destruct Hdig as [->|Hdig]; [reflexivity|]). by subst.
Qed.

Lemma map_member_text l :
  map (λ '(k, v), quote k ++ 58%N :: stringify v) l = map member_text l.
Proof. by apply map_ext; intros []. Qed.

Lemma skip_ws_stringify_join (sep : jstr) j l rest :
  ∃ c s, join sep (map stringify (j :: l)) ++ rest = c :: s
    ∧ is_json_ws c = false ∧ c ≠ 93%N ∧ c ≠ 125%N.
Proof.
  destruct (stringify_head j) as (c & s & Hs & Hc). cbn [map].
  exists c. destruct l as [|k l]; [exists (s ++ rest)|exists (s ++ (sep ++ join sep (map stringify (k :: l))) ++ rest)];
    cbn [map join]; rewrite Hs, <- ?(assoc_L (++)); done.
Qed.

Lemma js_parses j : json_wf j → parses j.
Proof.
  induction j as [|b|z|s|l IH|l IH] using json_induction; intros Hwf fuel rest Hf Hr;
    (destruct fuel as [|fuel]; [simpl in Hf; lia|]).
  - done.
  - by destruct b.
  - cbn [stringify]. destruct (dec_head z) as (c & s & Hd & Hc).
    rewrite Hd. cbn [app]. rewrite parse_value_number by done.
    change (c :: s ++ rest) with ((c :: s) ++ rest). rewrite <- Hd, parse_number_dec by done. done.
  - cbn [stringify]. unfold quote. cbn [app]. rewrite <- (assoc_L (++)). cbn [app parse_value].
    rewrite skip_ws_id by done. by rewrite parse_quote_body.
  - cbn [stringify]. cbn [app]. rewrite <- (assoc_L (++)). cbn [app].
    destruct l as [|j l]; [done|].
    assert (Forall parses (j :: l)) as Hl.
    { clear -IH Hwf. cbn [json_wf] in Hwf. induction IH as [|x xs Hx _ IHl]; [constructor|].
      destruct Hwf as [H1 H2]. constructor; auto. }
    pose proof (parse_elements_join (j :: l) fuel [] rest Hl ltac:(done)) as He.
    cbn [json_size] in Hf. specialize (He ltac:(lia)).
    destruct (skip_ws_stringify_join [44%N] j l (93%N :: rest)) as (c & s & Heq & Hc & H93 & _).
    rewrite Heq in *. cbn [parse_value]. rewrite !skip_ws_id by done.
    destruct c as [|c]; [exact He|]. repeat (destruct c as [c|c|]; try exact He; try done).
  - cbn [stringify]. cbn [app]. rewrite <- (assoc_L (++)). cbn [app]. rewrite map_member_text.
    destruct l as [|[k v] l]; [done|]. destruct Hwf as [Hn Hwf].
    assert (Forall (λ kv, js_wf kv.1 ∧ parses kv.2) ((k, v) :: l)) as Hl.
    { clear -IH Hwf. induction IH as [|x xs Hx _ IHl]; [constructor|].
      destruct Hwf as [[H1 H2] H3]. constructor; auto. }
    pose proof (parse_members_join ((k, v) :: l) fuel [] rest Hl ltac:(done) Hn) as He.
    cbn [json_size] in Hf. specialize (He ltac:(lia)).
    assert (∃ s, join [44%N] (map member_text ((k, v) :: l)) ++ 125%N :: rest = 34%N :: s) as [s Heq].
    { cbn [map]. destruct l; eexists; reflexivity. }
    rewrite Heq in *. cbn [parse_value]. rewrite !skip_ws_id by done. exact He.
Qed.

(** The printed text is as long as the value has nodes. *)
Lemma json_size_length j : (json_size j <= length (stringify j))%nat.
Proof.
  assert (∀ (ls : list jstr), ls ≠ [] →
    (S (length (join [44%N] ls)) = foldr (λ l n, S (length l) + n) O ls)%nat) as Hjoin.
  { induction ls as [|x ls IHl]; [done|]. intros _. destruct ls as [|y ls]; [simpl; lia|].
    rewrite join_cons by done. rewrite !length_app. cbn [foldr length] in *.
    specialize (IHl ltac:(done)). lia. }
  induction j as [|b|z|s|l IH|l IH] using json_induction; cbn [json_size stringify].
  - simpl. lia.
  - destruct b; simpl; lia.
  - destruct (dec_head z) as (c & s & -> & _). simpl. lia.
  - simpl. lia.
  - destruct l as [|j l]; [simpl; lia|].
    assert (foldr (λ j n, S (json_size j) + n) 0 (j :: l)
            <= foldr (λ l n, S (length l) + n) 0 (map stringify (j :: l)))%nat as H.
    { clear Hjoin. induction IH as [|x xs Hx _ IHl]; [simpl; lia|]. cbn [foldr map] in *. lia. }
    rewrite <- Hjoin in H by done. cbn [length]. rewrite length_app. cbn [length]. lia.
  - rewrite map_member_text. destruct l as [|kv l]; [simpl; lia|].
    assert (foldr (λ kv n, S (json_size kv.2) + n) 0 (kv :: l)
            <= foldr (λ l n, S (length l) + n) 0 (map member_text (kv :: l)))%nat as H.
    { clear Hjoin. induction IH as [|x xs Hx _ IHl]; [simpl; lia|]. cbn [foldr map] in *.
      unfold member_text at 1. rewrite length_app. cbn [length]. lia. }
    rewrite <- Hjoin in H by done. cbn [length]. rewrite length_app. cbn [length]. lia.
Qed.

Lemma json_roundtrip_value j : json_wf j → json_parse (stringify j) = Some j.
Proof.
  intros Hwf. unfold json_parse.
  pose proof (js_parses j Hwf (S (2 * length (stringify j))) []) as H.
  rewrite app_nil_r in H. pose proof (json_size_length j). rewrite H by (lia || done). done.
Qed.
