(* ===== verification/Messages.v ===== *)
(** * Messages of a conversation

    The data of packages/harness/src/harness/messages.ts and of the model
    client's message types, the constructors of the harness-only messages, and
    their conversion to what a model sees. Message timestamps are milliseconds. *)

From S2P Require Import Prelude JsString Json.

Set Default Goal Selector "!".

Inductive Block :=
| TextBlock (text : jstr)
| ImageBlock (data mimeType : jstr)
| ThinkingBlock (thinking : jstr)
| ToolCallBlock (id name : jstr) (arguments : json).

(** [string | block[]]. *)
Inductive Content := CText (s : jstr) | CBlocks (l : list Block).

Record Usage := {
  u_input : Z; u_output : Z; u_cacheRead : Z; u_cacheWrite : Z; u_totalTokens : Z;
}.

Inductive StopReason := StopStop | StopLength | StopToolUse | StopError | StopAborted.
#[export] Instance StopReason_eq_dec : EqDecision StopReason.
Proof. solve_decision. Defined.

Record AssistantMessage := {
  am_content : list Block; am_provider : jstr; am_model : jstr; am_usage : option Usage;
  am_stopReason : StopReason; am_errorMessage : option jstr; am_timestamp : Z;
}.

Record ToolResultMessage := {
  tr_toolCallId : jstr; tr_toolName : jstr; tr_content : list Block; tr_details : option json;
  tr_isError : bool; tr_timestamp : Z;
}.

Record BashExecutionMessage := {
  be_command : jstr; be_output : jstr; be_exitCode : option Z; be_cancelled : bool;
  be_truncated : bool; be_fullOutputPath : option jstr; be_timestamp : Z;
  be_excludeFromContext : bool;
}.

Inductive AgentMessage :=
| UserMessage (content : Content) (timestamp : Z)
| Assistant (m : AssistantMessage)
| ToolResult (m : ToolResultMessage)
| BashExecution (m : BashExecutionMessage)
| CustomMessage (customType : jstr) (content : Content) (display : bool) (details : option json)
    (timestamp : Z)
| BranchSummaryMessage (summary fromId : jstr) (timestamp : Z)
| CompactionSummaryMessage (summary : jstr) (tokensBefore : Z) (timestamp : Z)
| ResponsesRawItems (items : list json) (fallbackSummary : option jstr) (timestamp : Z).

(** What a model client receives: the three standard roles, and raw response
    items passed through. *)
Inductive LlmMessage :=
| LlmUser (content : Content) (timestamp : Z)
| LlmAssistant (m : AssistantMessage)
| LlmToolResult (m : ToolResultMessage)
| LlmRawItems (items : list json) (fallbackSummary : option jstr) (timestamp : Z).

Definition COMPACTION_SUMMARY_PREFIX : jstr :=
  js "The conversation history before this point was compacted into the following summary:" ++
  [NL; NL] ++ js "<summary>" ++ [NL].
Definition COMPACTION_SUMMARY_SUFFIX : jstr := NL :: js "</summary>".
Definition BRANCH_SUMMARY_PREFIX : jstr :=
  js "The following is a summary of a branch that this conversation came back from:" ++
  [NL; NL] ++ js "<summary>" ++ [NL].
Definition BRANCH_SUMMARY_SUFFIX : jstr := js "</summary>".

Definition bashExecutionToText (msg : BashExecutionMessage) : jstr :=
  js "Ran `" ++ be_command msg ++ js "`" ++ [NL]
  ++ (if truthy (be_output msg) then js "```" ++ [NL] ++ be_output msg ++ [NL] ++ js "```"
      else js "(no output)")
  ++ (if be_cancelled msg then [NL; NL] ++ js "(command cancelled)"
      else match be_exitCode msg with
           | Some code => if (code =? 0)%Z then []
                          else [NL; NL] ++ js "Command exited with code " ++ dec code
           | None => []
           end)
  ++ (match be_fullOutputPath msg with
      | Some path => if be_truncated msg && truthy path
                     then [NL; NL] ++ js "[Output truncated. Full output: " ++ path ++ js "]"
                     else []
      | None => []
      end).

Definition createBranchSummaryMessage (summary fromId : jstr) (timestamp : Z) : AgentMessage :=
  BranchSummaryMessage summary fromId timestamp.
Definition createCompactionSummaryMessage (summary : jstr) (tokensBefore timestamp : Z)
    : AgentMessage := CompactionSummaryMessage summary tokensBefore timestamp.
Definition createResponsesRawItemsMessage (items : list json) (fallbackSummary : option jstr)
    (timestamp : Z) : AgentMessage := ResponsesRawItems items fallbackSummary timestamp.
Definition createCustomMessage (customType : jstr) (content : Content) (display : bool)
    (details : option json) (timestamp : Z) : AgentMessage :=
  CustomMessage customType content display details timestamp.

Definition llm_text (s : jstr) (timestamp : Z) : LlmMessage :=
  LlmUser (CBlocks [TextBlock s]) timestamp.

(** One iteration of the loop of [convertToLlm]. *)
Definition to_llm (m : AgentMessage) : list LlmMessage :=
  match m with
  | BashExecution b =>
      if be_excludeFromContext b then [] else [llm_text (bashExecutionToText b) (be_timestamp b)]
  | CustomMessage _ content _ _ ts =>
      [LlmUser (match content with CText s => CBlocks [TextBlock s] | CBlocks l => CBlocks l end) ts]
  | BranchSummaryMessage summary _ ts =>
      [llm_text (BRANCH_SUMMARY_PREFIX ++ summary ++ BRANCH_SUMMARY_SUFFIX) ts]
  | CompactionSummaryMessage summary _ ts =>
      [llm_text (COMPACTION_SUMMARY_PREFIX ++ summary ++ COMPACTION_SUMMARY_SUFFIX) ts]
  | ResponsesRawItems items fallback ts => [LlmRawItems items fallback ts]
  | UserMessage content ts => [LlmUser content ts]
  | Assistant a => [LlmAssistant a]
  | ToolResult r => [LlmToolResult r]
  end.

Definition convertToLlm (messages : list AgentMessage) : list LlmMessage :=
  fold_left (λ converted m, converted ++ to_llm m) messages [].

Lemma convertToLlm_flat_map ms : convertToLlm ms = flat_map to_llm ms.
Proof.
  unfold convertToLlm. enough (∀ acc, fold_left (λ c m, c ++ to_llm m) ms acc = acc ++ flat_map to_llm ms)
    as H by apply (H []).
  induction ms as [|m ms IH]; intros acc; simpl; [by rewrite app_nil_r|].
  by rewrite IH, <- (assoc_L (++)).
Qed.
