(* ===== verification/SessionTree.v ===== *)
(** * Session trees: entries, storage interface, in-memory storage

    packages/harness/src/harness/types.ts (entries, [SessionStorage]) and
    session/memory-storage.ts. A session is an append-only list of entries;
    each names its parent, and the active leaf selects one branch. The entries
    a call creates take their time and the successive results of [uuidv7] from
    an [Env]. *)

From S2P Require Import Prelude JsMap JsString Json Messages.
From Stdlib Require Import Lia.

Set Default Goal Selector "!".

(** ** Entries *)

Inductive EntryData :=
| EMessage (message : AgentMessage)
| EThinkingLevelChange (thinkingLevel : jstr)
| EModelChange (provider modelId : jstr)
| EActiveToolsChange (activeToolNames : list jstr)
| ECompaction (summary firstKeptEntryId : jstr) (tokensBefore : Z) (details : option json)
    (fromHook : option bool)
| EBranchSummary (fromId summary : jstr) (details : option json) (fromHook : option bool)
| ECustom (customType : jstr) (data : option json)
| ECustomMessage (customType : jstr) (content : Content) (details : option json) (display : bool)
| ELabel (targetId : jstr) (label : option jstr)
| ESessionInfo (name : option jstr)
| ELeaf (targetId : option jstr).

Record Entry := {
  e_id : jstr; e_parentId : option jstr; e_timestamp : Z; e_data : EntryData;
}.

Inductive EntryType :=
| TMessage | TThinkingLevelChange | TModelChange | TActiveToolsChange | TCompaction
| TBranchSummary | TCustom | TCustomMessage | TLabel | TSessionInfo | TLeaf.
#[export] Instance EntryType_eq_dec : EqDecision EntryType.
Proof. solve_decision. Defined.

Definition e_type (e : Entry) : EntryType :=
  match e_data e with
  | EMessage _ => TMessage | EThinkingLevelChange _ => TThinkingLevelChange
  | EModelChange _ _ => TModelChange | EActiveToolsChange _ => TActiveToolsChange
  | ECompaction _ _ _ _ _ => TCompaction | EBranchSummary _ _ _ _ => TBranchSummary
  | ECustom _ _ => TCustom | ECustomMessage _ _ _ _ => TCustomMessage | ELabel _ _ => TLabel
  | ESessionInfo _ => TSessionInfo | ELeaf _ => TLeaf
  end.

Inductive SessionError :=
| NotFound (id : jstr)
| InvalidSession (what : jstr)
| InvalidEntry (line : nat) (what : jstr)
| InvalidForkTarget (id : jstr)
| StorageFailed (what : jstr).

(** The clock, and the results of the successive [uuidv7()] calls. *)
Record Env := { env_now : Z; env_uuid : nat → jstr }.

(** ** The storage interface

    [st_getPathToRoot] is [None] when the walk has not ended after as many
    steps as there are entries. *)
Class SessionStorage (S : Type) := {
  st_getLeafId : S → result SessionError (option jstr);
  st_setLeafId : Env → option jstr → M S SessionError unit;
  st_createEntryId : Env → S → jstr;
  st_appendEntry : Entry → M S SessionError unit;
  st_getEntry : jstr → S → option Entry;
  st_findEntries : EntryType → S → list Entry;
  st_getLabel : jstr → S → option jstr;
  st_getPathToRoot : option jstr → S → option (result SessionError (list Entry));
  st_getEntries : S → list Entry;
}.

(** ** The shared helpers of the storages *)

Abbreviation index := (gmap jstr Entry).
Abbreviation labels := (gmap jstr jstr).

Definition updateLabelCache (labelsById : labels) (entry : Entry) : labels :=
  match e_data entry with
  | ELabel targetId label =>
      match label with
      | Some l => if truthy (trim l) then <[targetId := trim l]> labelsById
                  else delete targetId labelsById
      | None => delete targetId labelsById
      end
  | _ => labelsById
  end.

Definition buildLabelsById (entries : list Entry) : labels :=
  fold_left updateLabelCache entries ∅.

(** Up to 100 attempts with the first eight units of a uuid, then a whole one. *)
Fixpoint generate_from (uuid : nat → jstr) (byId : index) (i n : nat) : jstr :=
  match n with
  | O => uuid i
  | S n =>
      let id := slice 0 8 (uuid i) in
      if bool_decide (byId !! id = None) then id else generate_from uuid byId (S i) n
  end.
Definition generateEntryId (uuid : nat → jstr) (byId : index) : jstr :=
  generate_from uuid byId 0 100.

Definition leafIdAfterEntry (entry : Entry) : option jstr :=
  match e_data entry with ELeaf targetId => targetId | _ => Some (e_id entry) end.

Definition index_of (entries : list Entry) : index :=
  fold_left (λ m e, <[e_id e := e]> m) entries ∅.

(** The walk to the root, one parent at a time. *)
Fixpoint path_loop (fuel : nat) (byId : index) (current : Entry) (path : list Entry)
    : option (result SessionError (list Entry)) :=
  match fuel with
  | O => None
  | S fuel =>
      let path := current :: path in
      match e_parentId current with
      | None => Some (Ok path)
      | Some p =>
          if negb (truthy p) then Some (Ok path)
          else match byId !! p with
               | None => Some (Err (InvalidSession p))
               | Some parent => path_loop fuel byId parent path
               end
      end
  end.

Definition path_to_root (fuel : nat) (byId : index) (leafId : option jstr)
    : option (result SessionError (list Entry)) :=
  match leafId with
  | None => Some (Ok [])
  | Some id =>
      match byId !! id with
      | None => Some (Err (NotFound id))
      | Some current => path_loop fuel byId current []
      end
  end.

(** ** The in-memory storage *)

Record InMemorySessionStorage := {
  ms_entries : list Entry; ms_byId : index; ms_labelsById : labels; ms_leafId : option jstr;
}.

Definition has_id (byId : index) (id : jstr) : bool := bool_decide (is_Some (byId !! id)).

(** The check of the constructor and of [getLeafId]. *)
Definition leaf_present (byId : index) (leafId : option jstr) : result SessionError (option jstr) :=
  match leafId with
  | Some id => if has_id byId id then Ok leafId else Err (InvalidSession id)
  | None => Ok None
  end.

Definition newInMemorySessionStorage (entries : list Entry)
    : result SessionError InMemorySessionStorage :=
  let byId := index_of entries in
  let leafId := fold_left (λ _ e, leafIdAfterEntry e) entries None in
  let! _ := leaf_present byId leafId in
  Ok {| ms_entries := entries; ms_byId := byId; ms_labelsById := buildLabelsById entries;
        ms_leafId := leafId |}.

Definition ms_getLeafId (st : InMemorySessionStorage) : result SessionError (option jstr) :=
  leaf_present (ms_byId st) (ms_leafId st).

Definition ms_setLeafId (env : Env) (leafId : option jstr)
    : M InMemorySessionStorage SessionError unit :=
  λ st,
    if match leafId with Some id => negb (has_id (ms_byId st) id) | None => false end
    then (Err (NotFound (default [] leafId)), st)
    else
      let entry := {| e_id := generateEntryId (env_uuid env) (ms_byId st);
                      e_parentId := ms_leafId st; e_timestamp := env_now env;
                      e_data := ELeaf leafId |} in
      (Ok tt, {| ms_entries := ms_entries st ++ [entry];
                 ms_byId := <[e_id entry := entry]> (ms_byId st);
                 ms_labelsById := ms_labelsById st; ms_leafId := leafId |}).

Definition ms_createEntryId (env : Env) (st : InMemorySessionStorage) : jstr :=
  generateEntryId (env_uuid env) (ms_byId st).

Definition ms_appendEntry (entry : Entry) : M InMemorySessionStorage SessionError unit :=
  λ st, (Ok tt, {| ms_entries := ms_entries st ++ [entry];
                   ms_byId := <[e_id entry := entry]> (ms_byId st);
                   ms_labelsById := updateLabelCache (ms_labelsById st) entry;
                   ms_leafId := leafIdAfterEntry entry |}).

Definition ms_getEntry (id : jstr) (st : InMemorySessionStorage) : option Entry := ms_byId st !! id.

Definition ms_findEntries (t : EntryType) (st : InMemorySessionStorage) : list Entry :=
  filter (λ e, e_type e = t) (ms_entries st).

Definition ms_getLabel (id : jstr) (st : InMemorySessionStorage) : option jstr :=
  ms_labelsById st !! id.

(** As many steps as there are entries: enough without a cycle of parents. *)
Definition ms_getPathToRoot (leafId : option jstr) (st : InMemorySessionStorage)
    : option (result SessionError (list Entry)) :=
  path_to_root (length (ms_entries st)) (ms_byId st) leafId.

#[export] Instance InMemoryStorage : SessionStorage InMemorySessionStorage := {|
  st_getLeafId := ms_getLeafId; st_setLeafId := ms_setLeafId; st_createEntryId := ms_createEntryId;
  st_appendEntry := ms_appendEntry; st_getEntry := ms_getEntry; st_findEntries := ms_findEntries;
  st_getLabel := ms_getLabel; st_getPathToRoot := ms_getPathToRoot; st_getEntries := ms_entries |}.
