(* ===== verification/Session.v ===== *)
(** * Sessions: appending, branching and the context of the model

    [Session] and [buildSessionContext] of
    packages/harness/src/harness/session/session.ts over any storage, the fork
    selection of session/repo-utils.ts and the in-memory repository of
    session/memory-repo.ts. *)

From S2P Require Import Prelude JsMap JsString Json Messages SessionTree.
From Stdlib Require Import Lia.

Set Default Goal Selector "!".

(** ** The context of the model *)

Record SessionContext := {
  sc_messages : list AgentMessage; sc_thinkingLevel : jstr;
  sc_model : option (jstr * jstr); sc_activeToolNames : option (list jstr);
}.

Definition is_object (j : json) : bool := match j with JObj _ => true | _ => false end.

Definition getResponsesCompactionItems (details : option json) : option (list json) :=
  match details with
  | Some (JObj l) =>
      match map_get (js "responsesOutputItems") l with
      | Some (JArr items) => if forallb is_object items then Some items else None
      | _ => None
      end
  | _ => None
  end.

(** The state of the first loop. *)
Record Settings := {
  set_thinkingLevel : jstr; set_model : option (jstr * jstr);
  set_activeToolNames : option (list jstr); set_compaction : option Entry;
}.

Definition settings_step (s : Settings) (entry : Entry) : Settings :=
  match e_data entry with
  | EThinkingLevelChange l =>
      {| set_thinkingLevel := l; set_model := set_model s;
         set_activeToolNames := set_activeToolNames s; set_compaction := set_compaction s |}
  | EModelChange p m =>
      {| set_thinkingLevel := set_thinkingLevel s; set_model := Some (p, m);
         set_activeToolNames := set_activeToolNames s; set_compaction := set_compaction s |}
  | EMessage (Assistant a) =>
      {| set_thinkingLevel := set_thinkingLevel s; set_model := Some (am_provider a, am_model a);
         set_activeToolNames := set_activeToolNames s; set_compaction := set_compaction s |}
  | EActiveToolsChange names =>
      {| set_thinkingLevel := set_thinkingLevel s; set_model := set_model s;
         set_activeToolNames := Some names; set_compaction := set_compaction s |}
  | ECompaction _ _ _ _ _ =>
      {| set_thinkingLevel := set_thinkingLevel s; set_model := set_model s;
         set_activeToolNames := set_activeToolNames s; set_compaction := Some entry |}
  | _ => s
  end.

Definition initial_settings : Settings :=
  {| set_thinkingLevel := js "off"; set_model := None; set_activeToolNames := None;
     set_compaction := None |}.

(** [appendMessage]: the message an entry contributes, if any. *)
Definition entry_messages (entry : Entry) : list AgentMessage :=
  match e_data entry with
  | EMessage m => [m]
  | ECustomMessage customType content details display =>
      [createCustomMessage customType content display details (e_timestamp entry)]
  | EBranchSummary fromId summary _ _ =>
      if truthy summary then [createBranchSummaryMessage summary fromId (e_timestamp entry)] else []
  | _ => []
  end.

(** The loop over the entries before the compaction. *)
Definition kept_step (firstKept : jstr) (s : bool * list AgentMessage) (entry : Entry)
    : bool * list AgentMessage :=
  let found := fst s || bool_decide (e_id entry = firstKept) in
  (found, if found then snd s ++ entry_messages entry else snd s).

Definition append_messages (entries : list Entry) (messages : list AgentMessage)
    : list AgentMessage :=
  fold_left (λ ms e, ms ++ entry_messages e) entries messages.

Definition buildSessionContext (pathEntries : list Entry) : SessionContext :=
  let s := fold_left settings_step pathEntries initial_settings in
  let messages :=
    match set_compaction s with
    | Some compaction =>
        match e_data compaction with
        | ECompaction summary firstKept tokensBefore details _ =>
            let idx := default 0%nat (find_index (λ e,
              bool_decide (e_type e = TCompaction) && bool_decide (e_id e = e_id compaction))
              pathEntries) in
            match getResponsesCompactionItems details with
            | Some items =>
                append_messages (drop (S idx) pathEntries)
                  [createResponsesRawItemsMessage items (Some summary) (e_timestamp compaction)]
            | None =>
                let kept := fold_left (kept_step firstKept) (take idx pathEntries)
                  (false, [createCompactionSummaryMessage summary tokensBefore
                             (e_timestamp compaction)]) in
                append_messages (drop (S idx) pathEntries) (snd kept)
            end
        | _ => append_messages pathEntries []      (* not a compaction: unreachable *)
        end
    | None => append_messages pathEntries []
    end in
  {| sc_messages := messages; sc_thinkingLevel := set_thinkingLevel s; sc_model := set_model s;
     sc_activeToolNames := set_activeToolNames s |}.

(** ** [Session] *)

(** [name.replace(/[\r\n]+/g, " ")]. *)
Fixpoint collapse_newlines (in_run : bool) (s : jstr) : jstr :=
  match s with
  | [] => []
  | c :: s =>
      if ((c =? CR) || (c =? NL))%N
      then if in_run then collapse_newlines true s else 32%N :: collapse_newlines true s
      else c :: collapse_newlines false s
  end.

Record BranchSummaryInput := {
  bs_summary : jstr; bs_details : option json; bs_fromHook : option bool;
}.

Section session.
Context {S : Type} `{SessionStorage S}.

Definition getBranch (fromId : option jstr) (st : S) : option (result SessionError (list Entry)) :=
  match fromId with
  | Some id => st_getPathToRoot (Some id) st
  | None => match st_getLeafId st with
            | Err e => Some (Err e)
            | Ok leafId => st_getPathToRoot leafId st
            end
  end.

Definition buildContext (st : S) : option (result SessionError SessionContext) :=
  match getBranch None st with
  | None => None
  | Some (Err e) => Some (Err e)
  | Some (Ok path) => Some (Ok (buildSessionContext path))
  end.

(** [entries[entries.length - 1]?.name?.trim() || undefined]. *)
Definition getSessionName (st : S) : option jstr :=
  match last (st_findEntries TSessionInfo st) with
  | Some e => match e_data e with
              | ESessionInfo (Some name) => if truthy (trim name) then Some (trim name) else None
              | _ => None
              end
  | None => None
  end.

Definition appendTypedEntry (entry : Entry) : M S SessionError jstr :=
  do! st_appendEntry entry in mret (e_id entry).

(** An entry with a fresh id under the current leaf. *)
Definition appendUnderLeaf (env : Env) (data : EntryData) : M S SessionError jstr :=
  let! id := gets (st_createEntryId env) in
  let! st := get in
  let! parentId := lift (st_getLeafId st) in
  appendTypedEntry {| e_id := id; e_parentId := parentId; e_timestamp := env_now env; e_data := data |}.

Definition appendMessage (env : Env) (message : AgentMessage) : M S SessionError jstr :=
  appendUnderLeaf env (EMessage message).

Definition appendThinkingLevelChange (env : Env) (thinkingLevel : jstr) : M S SessionError jstr :=
  appendUnderLeaf env (EThinkingLevelChange thinkingLevel).

Definition appendModelChange (env : Env) (provider modelId : jstr) : M S SessionError jstr :=
  appendUnderLeaf env (EModelChange provider modelId).

Definition appendActiveToolsChange (env : Env) (names : list jstr) : M S SessionError jstr :=
  appendUnderLeaf env (EActiveToolsChange names).

Definition appendCompaction (env : Env) (summary firstKeptEntryId : jstr) (tokensBefore : Z)
    (details : option json) (fromHook : option bool) : M S SessionError jstr :=
  appendUnderLeaf env (ECompaction summary firstKeptEntryId tokensBefore details fromHook).

Definition appendCustomEntry (env : Env) (customType : jstr) (data : option json)
    : M S SessionError jstr :=
  appendUnderLeaf env (ECustom customType data).

Definition appendCustomMessageEntry (env : Env) (customType : jstr) (content : Content)
    (display : bool) (details : option json) : M S SessionError jstr :=
  appendUnderLeaf env (ECustomMessage customType content details display).

Definition appendLabel (env : Env) (targetId : jstr) (label : option jstr) : M S SessionError jstr :=
  let! target := gets (st_getEntry targetId) in
  match target with
  | None => throw (NotFound targetId)
  | Some _ => appendUnderLeaf env (ELabel targetId label)
  end.

Definition appendSessionName (env : Env) (name : jstr) : M S SessionError jstr :=
  appendUnderLeaf env (ESessionInfo (Some (trim (collapse_newlines false name)))).

(** [env] serves the leaf entry, [env'] the summary entry. *)
Definition moveTo (env env' : Env) (entryId : option jstr) (summary : option BranchSummaryInput)
    : M S SessionError (option jstr) :=
  let! st := get in
  if match entryId with
     | Some id => match st_getEntry id st with None => true | Some _ => false end
     | None => false
     end
  then throw (NotFound (default [] entryId))
  else
    do! st_setLeafId env entryId in
    match summary with
    | None => mret None
    | Some s =>
        let! id := gets (st_createEntryId env') in
        let! new := appendTypedEntry
          {| e_id := id; e_parentId := entryId; e_timestamp := env_now env';
             e_data := EBranchSummary (nullish entryId (js "root")) (bs_summary s) (bs_details s)
                         (bs_fromHook s) |} in
        mret (Some new)
    end.

(** *** Forking *)

Inductive ForkPosition := ForkBefore | ForkAt.

Definition is_user_message (e : Entry) : bool :=
  match e_data e with EMessage (UserMessage _ _) => true | _ => false end.

Definition getEntriesToFork (entryId : option jstr) (position : option ForkPosition) (st : S)
    : option (result SessionError (list Entry)) :=
  match entryId with
  | None => Some (Ok (st_getEntries st))
  | Some id =>
      if negb (truthy id) then Some (Ok (st_getEntries st))
      else match st_getEntry id st with
           | None => Some (Err (InvalidForkTarget id))
           | Some target =>
               match nullish position ForkBefore with
               | ForkAt => st_getPathToRoot (Some (e_id target)) st
               | ForkBefore =>
                   if is_user_message target then st_getPathToRoot (e_parentId target) st
                   else Some (Err (InvalidForkTarget id))
               end
           end
  end.
End session.

(** ** The in-memory repository *)

Record SessionMetadata := { sm_id : jstr; sm_createdAt : Z }.

(** Sessions by id, in creation order; a session is its metadata and storage. *)
Abbreviation sessions := (list (jstr * (SessionMetadata * InMemorySessionStorage))).

Definition empty_storage : InMemorySessionStorage :=
  {| ms_entries := []; ms_byId := ∅; ms_labelsById := ∅; ms_leafId := None |}.

(** [env_uuid env 0] is the created session id. *)
Definition repo_create (env : Env) (id : option jstr) : M sessions SessionError SessionMetadata :=
  λ repo,
    let metadata := {| sm_id := nullish id (env_uuid env 0); sm_createdAt := env_now env |} in
    (Ok metadata, map_set (sm_id metadata) (metadata, empty_storage) repo).

Definition repo_open (metadata : SessionMetadata) (repo : sessions)
    : result SessionError (SessionMetadata * InMemorySessionStorage) :=
  match map_get (sm_id metadata) repo with
  | Some session => Ok session
  | None => Err (NotFound (sm_id metadata))
  end.

Definition repo_list (repo : sessions) : list SessionMetadata := map fst (map_values repo).

Definition repo_delete (metadata : SessionMetadata) (repo : sessions) : sessions :=
  map_delete (sm_id metadata) repo.

Definition repo_fork (env : Env) (source : SessionMetadata) (entryId : option jstr)
    (position : option ForkPosition) (id : option jstr) (repo : sessions)
    : option (result SessionError SessionMetadata * sessions) :=
  match repo_open source repo with
  | Err e => Some (Err e, repo)
  | Ok (_, st) =>
      match getEntriesToFork entryId position st with
      | None => None
      | Some (Err e) => Some (Err e, repo)
      | Some (Ok forked) =>
          let metadata := {| sm_id := nullish id (env_uuid env 0); sm_createdAt := env_now env |} in
          match newInMemorySessionStorage forked with
          | Err e => Some (Err e, repo)
          | Ok storage => Some (Ok metadata, map_set (sm_id metadata) (metadata, storage) repo)
          end
      end
  end.
