(* ===== verification/SessionFacts.v ===== *)
(** * Sessions: well-formed trees, immutable history, forks, contexts

    Theorems about SessionTree.v and Session.v for the in-memory storage. *)

From S2P Require Import Prelude JsMap JsString Json Messages SessionTree Session.
From Stdlib Require Import Lia.

Set Default Goal Selector "!".

(** ** Definitions of the statements *)

(** The parent id an entry really has: the empty string counts as none. *)
Definition parent_of (e : Entry) : option jstr :=
  match e_parentId e with Some p => if truthy p then Some p else None | None => None end.

(** [chain byId e l]: [l] runs from a root to [e], each entry the parent of the
    next. *)
Inductive chain (byId : index) : Entry → list Entry → Prop :=
| chain_root e : parent_of e = None → chain byId e [e]
| chain_step e p parent l :
    parent_of e = Some p → byId !! p = Some parent → chain byId parent l →
    chain byId e (l ++ [e]).

(** An id is known before position [i]. *)
Definition known_before (entries : list Entry) (i : nat) (id : jstr) : Prop :=
  ∃ j e, (j < i)%nat ∧ entries !! j = Some e ∧ e_id e = id.

(** The entry list of a session: unique ids that are not empty, parents and leaf
    targets that occur earlier. *)
Record entries_ok (entries : list Entry) : Prop := {
  ok_ids : NoDup (map e_id entries);
  ok_names : ∀ e, e ∈ entries → truthy (e_id e) = true;
  ok_parents : ∀ i e p, entries !! i = Some e → parent_of e = Some p → known_before entries i p;
  ok_targets : ∀ i e t, entries !! i = Some e → e_data e = ELeaf (Some t) → known_before entries i t;
}.

Definition leaf_of (entries : list Entry) : option jstr :=
  fold_left (λ _ e, leafIdAfterEntry e) entries None.

(** The storage is the one its entries determine. *)
Record storage_ok (st : InMemorySessionStorage) : Prop := {
  ok_entries : entries_ok (ms_entries st);
  ok_byId : ms_byId st = index_of (ms_entries st);
  ok_labels : ms_labelsById st = buildLabelsById (ms_entries st);
  ok_leaf : ms_leafId st = leaf_of (ms_entries st);
}.

(** The id generator finds an id that is not in use. *)
Definition fresh_id (env : Env) (st : InMemorySessionStorage) : Prop :=
  truthy (ms_createEntryId env st) = true ∧ ms_byId st !! ms_createEntryId env st = None.

(** The public operations of a session. *)
Inductive SessionOp :=
| OpMessage (env : Env) (message : AgentMessage)
| OpThinkingLevel (env : Env) (level : jstr)
| OpModel (env : Env) (provider modelId : jstr)
| OpActiveTools (env : Env) (names : list jstr)
| OpCompaction (env : Env) (summary firstKept : jstr) (tokensBefore : Z) (details : option json)
    (fromHook : option bool)
| OpCustom (env : Env) (customType : jstr) (data : option json)
| OpCustomMessage (env : Env) (customType : jstr) (content : Content) (display : bool)
    (details : option json)
| OpLabel (env : Env) (targetId : jstr) (label : option jstr)
| OpSessionName (env : Env) (name : jstr)
| OpMoveTo (env env' : Env) (entryId : option jstr) (summary : option BranchSummaryInput).

Definition discard {S E A} (p : result E A * S) : S := p.2.

Definition run_op (op : SessionOp) (st : InMemorySessionStorage) : InMemorySessionStorage :=
  match op with
  | OpMessage env m => discard (appendMessage env m st)
  | OpThinkingLevel env l => discard (appendThinkingLevelChange env l st)
  | OpModel env p m => discard (appendModelChange env p m st)
  | OpActiveTools env ns => discard (appendActiveToolsChange env ns st)
  | OpCompaction env s f t d h => discard (appendCompaction env s f t d h st)
  | OpCustom env t d => discard (appendCustomEntry env t d st)
  | OpCustomMessage env t c di de => discard (appendCustomMessageEntry env t c di de st)
  | OpLabel env t l => discard (appendLabel env t l st)
  | OpSessionName env n => discard (appendSessionName env n st)
  | OpMoveTo env env' id s => discard (moveTo env env' id s st)
  end.

Definition run_ops (ops : list SessionOp) (st : InMemorySessionStorage) : InMemorySessionStorage :=
  fold_left (λ st op, run_op op st) ops st.

(** Every id a run generates is fresh when it is generated. *)
Definition op_fresh (op : SessionOp) (st : InMemorySessionStorage) : Prop :=
  match op with
  | OpMessage env _ | OpThinkingLevel env _ | OpModel env _ _ | OpActiveTools env _
  | OpCompaction env _ _ _ _ _ | OpCustom env _ _ | OpCustomMessage env _ _ _ _
  | OpLabel env _ _ | OpSessionName env _ => fresh_id env st
  | OpMoveTo env env' id _ => fresh_id env st ∧ fresh_id env' (discard (ms_setLeafId env id st))
  end.

Fixpoint run_fresh (ops : list SessionOp) (st : InMemorySessionStorage) : Prop :=
  match ops with
  | [] => True
  | op :: ops => op_fresh op st ∧ run_fresh ops (run_op op st)
  end.

(** A concrete session: a question, an answer, a move back to the question with
    a summary. *)
Definition demo_env (n : string) : Env := {| env_now := 0; env_uuid := λ _, js n |}.
Definition demo_user : AgentMessage := UserMessage (CText (js "hi")) 0.
Definition demo_note : AgentMessage := CustomMessage (js "note") (CText (js "ok")) true None 0.
Definition demo_summary : BranchSummaryInput :=
  {| bs_summary := js "sum"; bs_details := None; bs_fromHook := None |}.
Definition demo_ops : list SessionOp :=
  [OpMessage (demo_env "a") demo_user; OpMessage (demo_env "b") demo_note;
   OpMessage (demo_env "c") demo_user; OpLabel (demo_env "d") (js "b") (Some (js " x "));
   OpMoveTo (demo_env "e") (demo_env "f") (Some (js "b")) (Some demo_summary)].
Definition demo_storage : InMemorySessionStorage := run_ops demo_ops empty_storage.
Definition demo_meta : SessionMetadata := {| sm_id := js "s"; sm_createdAt := 0 |}.

(** What every operation leaves in place: the entries so far and the branch of
    each of them. *)
Record extends (st st' : InMemorySessionStorage) : Prop := {
  ext_entries : ms_entries st `prefix_of` ms_entries st';
  ext_byId id : is_Some (ms_byId st !! id) → ms_byId st' !! id = ms_byId st !! id;
  ext_path id : is_Some (ms_byId st !! id) →
    ms_getPathToRoot (Some id) st' = ms_getPathToRoot (Some id) st;
}.

#[export] Instance extends_preorder : PreOrder extends.
Proof.
  split.
  - by intros st; split.
  - intros s1 s2 s3 [P1 B1 Q1] [P2 B2 Q2]. split; [by etrans|..]; intros id Hid;
      (assert (is_Some (ms_byId s2 !! id)) by (by rewrite B1)); [by rewrite B2, B1|by rewrite Q2, Q1].
Qed.

(** ** The index of a list of entries *)

Lemma index_of_snoc es e : index_of (es ++ [e]) = <[e_id e := e]> (index_of es).
Proof. unfold index_of. by rewrite fold_left_app. Qed.

Lemma index_of_elem es id e : index_of es !! id = Some e → e ∈ es ∧ e_id e = id.
Proof.
  induction es as [|x es IH] using rev_ind; [unfold index_of; simpl; by rewrite lookup_empty|].
  rewrite index_of_snoc. destruct (decide (e_id x = id)) as [<-|Hne].
  - rewrite lookup_insert_eq. intros [= ->]. set_solver.
  - rewrite lookup_insert_ne by done. intros [? ?]%IH. set_solver.
Qed.

Lemma index_of_lookup es e :
  NoDup (map e_id es) → e ∈ es → index_of es !! e_id e = Some e.
Proof.
  induction es as [|x es IH] using rev_ind; [set_solver|].
  rewrite map_app, index_of_snoc. simpl. intros Hnd Hin.
  apply NoDup_app in Hnd as (Hn & Hx & _).
  destruct (decide (e_id x = e_id e)) as [Heq|Hne].
  - rewrite elem_of_app, list_elem_of_singleton in Hin.
    destruct Hin as [Hin| ->]; [|by rewrite lookup_insert_eq].
    exfalso. apply (Hx (e_id e)); [by apply (list_elem_of_fmap_2 e_id)|].
    rewrite Heq. set_solver.
  - rewrite lookup_insert_ne by done. apply IH; [done|].
    rewrite elem_of_app, list_elem_of_singleton in Hin. by destruct Hin as [?| ->].
Qed.

Lemma index_of_known es id : is_Some (index_of es !! id) ↔ known_before es (length es) id.
Proof.
  split.
  - intros [e [Hin Hid]%index_of_elem]. apply list_elem_of_lookup in Hin as [j Hj].
    exists j, e. split; [by eapply lookup_lt_Some|done].
  - intros (j & e & _ & Hj & <-). apply list_elem_of_lookup_2 in Hj.
    clear j. induction es as [|x es IH] using rev_ind; [set_solver|]. rewrite index_of_snoc.
    destruct (decide (e_id x = e_id e)) as [->|]; [by rewrite lookup_insert_eq|].
    rewrite lookup_insert_ne by done. apply IH.
    rewrite elem_of_app, list_elem_of_singleton in Hj. by destruct Hj as [?| ->].
Qed.

Lemma known_before_mono es es' i j id :
  (i <= j)%nat → known_before es i id → known_before (es ++ es') j id.
Proof.
  intros Hij (k & e & Hk & He & Hid). exists k, e. split; [lia|]. split; [|done].
  by apply lookup_app_l_Some.
Qed.

(** Adding one entry to a well-formed list. *)
Lemma entries_ok_snoc es e :
  entries_ok es → truthy (e_id e) = true → index_of es !! e_id e = None →
  (∀ p, parent_of e = Some p → known_before es (length es) p) →
  (∀ t, e_data e = ELeaf (Some t) → known_before es (length es) t) →
  entries_ok (es ++ [e]).
Proof.
  intros [Hids Hnames Hpar Htgt] Hn Hf Hp Ht. split.
  - rewrite map_app. apply NoDup_app. split; [done|]. split; [|simpl; apply NoDup_singleton].
    intros id Hid Hin. apply list_elem_of_singleton in Hin as ->.
    apply list_elem_of_fmap in Hid as (x & Hx & Hxin).
    rewrite Hx, index_of_lookup in Hf by done. done.
  - intros x. rewrite elem_of_app, list_elem_of_singleton.
    intros [?| ->]; [by apply Hnames|done].
  - intros i x p Hx Hxp. apply lookup_app_Some in Hx as [Hx|[Hlen Hx]].
    + eapply known_before_mono; [reflexivity|by eapply Hpar].
    + apply list_lookup_singleton_Some in Hx as [Hi <-].
      eapply known_before_mono; [|by apply Hp]. lia.
  - intros i x p Hx Hxp. apply lookup_app_Some in Hx as [Hx|[Hlen Hx]].
    + eapply known_before_mono; [reflexivity|by eapply Htgt].
    + apply list_lookup_singleton_Some in Hx as [Hi <-].
      eapply known_before_mono; [|by apply Ht]. lia.
Qed.

Lemma leaf_of_snoc es e : leaf_of (es ++ [e]) = leafIdAfterEntry e.
Proof. unfold leaf_of. by rewrite fold_left_app. Qed.

(** The active leaf of a well-formed list is an entry of it. *)
Lemma leaf_of_known es id : entries_ok es → leaf_of es = Some id → known_before es (length es) id.
Proof.
  intros Hok. destruct es as [|e es _] using rev_ind; [done|].
  rewrite leaf_of_snoc. intros Hl. unfold leafIdAfterEntry in Hl.
  assert ((es ++ [e]) !! length es = Some e) as He by (rewrite lookup_app_r, Nat.sub_diag; done).
  assert (Some (e_id e) = Some id → known_before (es ++ [e]) (length (es ++ [e])) id) as Hself.
  { intros [= <-]. exists (length es), e. rewrite length_app. simpl. split; [lia|done]. }
  destruct (e_data e) eqn:Hd; auto. subst targetId.
  destruct (ok_targets _ Hok _ _ _ He Hd) as (j & x & Hj & Hx & Hxid).
  exists j, x. split; [|done]. apply lookup_lt_Some in Hx. done.
Qed.

(** ** The operations keep the storage well-formed *)

Lemma has_id_known st id :
  storage_ok st → has_id (ms_byId st) id = true → known_before (ms_entries st) (length (ms_entries st)) id.
Proof.
  intros Hok H. unfold has_id in H. apply bool_decide_eq_true in H.
  rewrite (ok_byId _ Hok) in H. by apply index_of_known.
Qed.

Lemma leaf_present_ok st : storage_ok st → leaf_present (ms_byId st) (ms_leafId st) = Ok (ms_leafId st).
Proof.
  intros Hok. unfold leaf_present. destruct (ms_leafId st) as [id|] eqn:Hl; [|done].
  rewrite (ok_leaf _ Hok) in Hl. apply leaf_of_known in Hl; [|apply Hok].
  apply index_of_known in Hl. unfold has_id. rewrite (ok_byId _ Hok).
  by rewrite bool_decide_eq_true_2.
Qed.

(** The parent a new entry gets is known. *)
Lemma leaf_parent_known st e p :
  storage_ok st → e_parentId e = ms_leafId st → parent_of e = Some p →
  known_before (ms_entries st) (length (ms_entries st)) p.
Proof.
  intros Hok He Hp. unfold parent_of in Hp. rewrite He in Hp.
  destruct (ms_leafId st) as [id|] eqn:Hl; [|done].
  destruct (truthy id); [|done]. injection Hp as <-.
  rewrite (ok_leaf _ Hok) in Hl. by apply leaf_of_known in Hl; [|apply Hok].
Qed.

Lemma buildLabelsById_snoc es e :
  buildLabelsById (es ++ [e]) = updateLabelCache (buildLabelsById es) e.
Proof. unfold buildLabelsById. by rewrite fold_left_app. Qed.

Lemma append_ok st e :
  storage_ok st → truthy (e_id e) = true → ms_byId st !! e_id e = None →
  (∀ p, parent_of e = Some p → known_before (ms_entries st) (length (ms_entries st)) p) →
  (∀ t, e_data e = ELeaf (Some t) → known_before (ms_entries st) (length (ms_entries st)) t) →
  storage_ok (discard (ms_appendEntry e st)).
Proof.
  intros [He Hb Hl Hf] Ht Hn Hp Htg. split; simpl.
  - apply entries_ok_snoc; [done|done|by rewrite <- Hb|done|done].
  - by rewrite Hb, index_of_snoc.
  - by rewrite Hl, buildLabelsById_snoc.
  - by rewrite leaf_of_snoc.
Qed.

Definition leaf_entry (env : Env) (st : InMemorySessionStorage) (data : EntryData) : Entry :=
  {| e_id := ms_createEntryId env st; e_parentId := ms_leafId st; e_timestamp := env_now env;
     e_data := data |}.

Lemma appendUnderLeaf_eq env data st :
  storage_ok st →
  appendUnderLeaf env data st
  = (Ok (ms_createEntryId env st), discard (ms_appendEntry (leaf_entry env st data) st)).
Proof.
  intros Hok. unfold appendUnderLeaf, mbind, M_bind, gets, get, lift. simpl.
  unfold ms_getLeafId. by rewrite leaf_present_ok.
Qed.

Lemma appendUnderLeaf_ok env data st :
  storage_ok st → fresh_id env st → (∀ t, data ≠ ELeaf t) →
  storage_ok (discard (appendUnderLeaf env data st)).
Proof.
  intros Hok [Ht Hn] Hd. rewrite appendUnderLeaf_eq by done.
  apply append_ok; [done|done|done| |].
  - intros p. by apply leaf_parent_known.
  - intros t Hd'. by apply Hd in Hd'.
Qed.

Lemma setLeafId_eq env id st :
  discard (ms_setLeafId env id st)
  = if match id with Some i => negb (has_id (ms_byId st) i) | None => false end then st
    else discard (ms_appendEntry (leaf_entry env st (ELeaf id)) st).
Proof. unfold ms_setLeafId. by case_match. Qed.

Lemma setLeafId_ok env id st :
  storage_ok st → fresh_id env st → storage_ok (discard (ms_setLeafId env id st)).
Proof.
  intros Hok [Ht Hn]. rewrite setLeafId_eq.
  destruct id as [id|]; [destruct (has_id (ms_byId st) id) eqn:Hid; [|done]|]; simpl;
    (apply append_ok; [done..|intros p; by apply leaf_parent_known|]); intros t [= <-].
  by apply has_id_known.
Qed.

(** The summary entry of [moveTo] sits under the entry moved to. *)
Definition summary_entry (env : Env) (st : InMemorySessionStorage) (id : option jstr)
    (s : BranchSummaryInput) : Entry :=
  {| e_id := ms_createEntryId env st; e_parentId := id; e_timestamp := env_now env;
     e_data := EBranchSummary (nullish id (js "root")) (bs_summary s) (bs_details s) (bs_fromHook s) |}.

Lemma moveTo_eq env env' id s st :
  discard (moveTo env env' id s st)
  = if match id with Some i => negb (has_id (ms_byId st) i) | None => false end then st
    else let st1 := discard (ms_setLeafId env id st) in
         match s with
         | None => st1
         | Some s => discard (ms_appendEntry (summary_entry env' st1 id s) st1)
         end.
Proof.
  unfold moveTo, mbind, M_bind, gets, get. simpl. unfold ms_getEntry, ms_setLeafId.
  destruct id as [i|].
  - unfold has_id. destruct (ms_byId st !! i) eqn:Hi.
    + rewrite bool_decide_eq_true_2 by done. simpl. by destruct s.
    + rewrite bool_decide_eq_false_2 by (intros [? ?]; done). done.
  - simpl. by destruct s.
Qed.

Lemma moveTo_ok env env' id s st :
  storage_ok st → fresh_id env st → fresh_id env' (discard (ms_setLeafId env id st)) →
  storage_ok (discard (moveTo env env' id s st)).
Proof.
  intros Hok Hf [Ht' Hn']. pose proof (setLeafId_ok env id st Hok Hf) as Hok1.
  rewrite moveTo_eq. case_match eqn:Hm; [done|]. destruct s as [s|]; [|done].
  cbv zeta. set (st1 := discard (ms_setLeafId env id st)) in *.
  apply append_ok; [done..| |done]. intros p Hp.
  assert (ms_leafId st1 = id) as Hleaf.
  { subst st1. rewrite setLeafId_eq, Hm. done. }
  eapply leaf_parent_known; [done| |exact Hp]. by rewrite Hleaf.
Qed.

Lemma run_op_ok op st : storage_ok st → op_fresh op st → storage_ok (run_op op st).
Proof.
  intros Hok Hf.
  destruct op; simpl in *; try (by apply appendUnderLeaf_ok).
  - unfold appendLabel, mbind, M_bind, gets. simpl.
    destruct (ms_getEntry targetId st); [by apply appendUnderLeaf_ok|done].
  - destruct Hf. by apply moveTo_ok.
Qed.

Lemma empty_ok : storage_ok empty_storage.
Proof. split; try done. split; [constructor|set_solver|by intros [|?]..]. Qed.

(** ** Paths *)

Lemma chain_last byId e l : chain byId e l → last l = Some e.
Proof. destruct 1; [done|]. by rewrite last_snoc. Qed.

Lemma path_loop_step fuel byId e acc :
  path_loop (S fuel) byId e acc
  = match parent_of e with
    | None => Some (Ok (e :: acc))
    | Some p => match byId !! p with
                | None => Some (Err (InvalidSession p))
                | Some parent => path_loop fuel byId parent (e :: acc)
                end
    end.
Proof. cbn [path_loop]. unfold parent_of. destruct (e_parentId e) as [p|]; [|done]. by destruct (truthy p). Qed.

(** The walk collects the chain of its start, with fuel for each entry. *)
Lemma path_loop_chain byId e l : chain byId e l →
  ∀ fuel acc, (length l <= fuel)%nat → path_loop fuel byId e acc = Some (Ok (l ++ acc)).
Proof.
  induction 1 as [e Hp|e p parent l Hp Hl Hc IH]; intros [|fuel] acc Hf; simpl in Hf;
    rewrite ?length_app in Hf; simpl in Hf; try lia; rewrite path_loop_step, Hp; [done|].
  rewrite Hl, IH by lia. by rewrite <- (assoc_L (++)).
Qed.

(** Every entry of a well-formed list has a chain, no longer than its position. *)
Lemma chain_exists es : entries_ok es →
  ∀ i e, es !! i = Some e → ∃ l, chain (index_of es) e l ∧ (length l <= S i)%nat.
Proof.
  intros Hok i. induction i as [i IH] using lt_wf_ind. intros e He.
  destruct (parent_of e) as [p|] eqn:Hp.
  - destruct (ok_parents _ Hok _ _ _ He Hp) as (j & x & Hj & Hx & <-).
    destruct (IH j Hj x Hx) as (l & Hl & Hlen).
    exists (l ++ [e]). split; [|rewrite length_app; simpl; lia].
    eapply chain_step; [done| |done].
    apply index_of_lookup; [apply Hok|by eapply list_elem_of_lookup_2].
  - exists [e]. split; [by apply chain_root|simpl; lia].
Qed.

Lemma path_to_root_chain byId fuel id e l :
  byId !! id = Some e → chain byId e l → (length l <= fuel)%nat →
  path_to_root fuel byId (Some id) = Some (Ok l).
Proof.
  intros He Hc Hf. unfold path_to_root. rewrite He.
  rewrite (path_loop_chain _ _ _ Hc) by done. by rewrite app_nil_r.
Qed.

Lemma storage_chain st id e :
  storage_ok st → ms_byId st !! id = Some e →
  ∃ l, chain (ms_byId st) e l ∧ (length l <= length (ms_entries st))%nat
       ∧ ms_getPathToRoot (Some id) st = Some (Ok l).
Proof.
  intros Hok He. pose proof (ok_byId _ Hok) as Hb. rewrite Hb in *.
  destruct (index_of_elem _ _ _ He) as [Hin _]. apply list_elem_of_lookup in Hin as [i Hi].
  destruct (chain_exists _ (ok_entries _ Hok) i e Hi) as (l & Hl & Hlen).
  apply lookup_lt_Some in Hi. exists l. split; [done|]. split; [lia|].
  unfold ms_getPathToRoot. rewrite Hb. eapply path_to_root_chain; [done..|lia].
Qed.

Lemma chain_mono byId byId' e l : byId ⊆ byId' → chain byId e l → chain byId' e l.
Proof.
  intros Hsub. induction 1 as [e Hp|e p parent l Hp Hl Hc IH]; [by apply chain_root|].
  eapply chain_step; [done| |done]. by eapply lookup_weaken.
Qed.

(** Adding an entry with a fresh id changes no existing path. *)
Lemma append_path_stable st e id x :
  storage_ok st → ms_byId st !! e_id e = None → ms_byId st !! id = Some x →
  ms_getPathToRoot (Some id) (discard (ms_appendEntry e st)) = ms_getPathToRoot (Some id) st.
Proof.
  intros Hok Hn Hx. destruct (storage_chain st id x Hok Hx) as (l & Hc & Hlen & ->).
  unfold ms_getPathToRoot. simpl. rewrite length_app. simpl.
  assert (ms_byId st ⊆ <[e_id e := e]> (ms_byId st)) by by apply insert_subseteq.
  eapply path_to_root_chain; [by eapply lookup_weaken|by eapply chain_mono|lia].
Qed.

Lemma append_keeps st e id x :
  ms_byId st !! e_id e = None → ms_byId st !! id = Some x →
  ms_byId (discard (ms_appendEntry e st)) !! id = Some x.
Proof. intros Hn Hx. simpl. rewrite lookup_insert_ne; [done|congruence]. Qed.

(** The path of an entry just added, under a known parent or at the root. *)
Lemma append_child_path st e p x :
  storage_ok st → ms_byId st !! e_id e = None → parent_of e = Some p → ms_byId st !! p = Some x →
  ∃ l, ms_getPathToRoot (Some p) st = Some (Ok l)
     ∧ ms_getPathToRoot (Some (e_id e)) (discard (ms_appendEntry e st)) = Some (Ok (l ++ [e])).
Proof.
  intros Hok Hn Hp Hx. destruct (storage_chain st p x Hok Hx) as (l & Hc & Hlen & Hpath).
  exists l. split; [done|]. unfold ms_getPathToRoot. simpl.
  assert (ms_byId st ⊆ <[e_id e := e]> (ms_byId st)) as Hsub by by apply insert_subseteq.
  eapply path_to_root_chain; [apply lookup_insert_eq| |rewrite !length_app; simpl; lia].
  eapply chain_step; [done|by eapply lookup_weaken|by eapply chain_mono].
Qed.

Lemma append_root_path st e :
  parent_of e = None →
  ms_getPathToRoot (Some (e_id e)) (discard (ms_appendEntry e st)) = Some (Ok [e]).
Proof.
  intros Hp. unfold ms_getPathToRoot. simpl.
  eapply path_to_root_chain; [apply lookup_insert_eq|by apply chain_root|].
  rewrite length_app. simpl. lia.
Qed.

(** Every entry of a chain is the parent of the next, the first has none. *)
Lemma chain_linked byId e l :
  (∀ p x, byId !! p = Some x → e_id x = p) → chain byId e l →
  (∀ r, head l = Some r → parent_of r = None)
  ∧ (∀ i a b, l !! i = Some a → l !! S i = Some b → parent_of b = Some (e_id a)).
Proof.
  intros Hid Hc. induction Hc as [e Hp|e p parent l Hp Hl Hc [IH1 IH2]].
  - split; [by intros r [= <-]|]. by intros [|i].
  - split.
    + intros r Hr. apply IH1. destruct l; [by inversion Hc; destruct l|done].
    + intros i a b Ha Hb. apply lookup_app_Some in Hb as [Hb|[Hlen Hb]].
      * eapply IH2; [|done]. rewrite lookup_app_l in Ha; [done|].
        apply lookup_lt_Some in Hb. lia.
      * apply list_lookup_singleton_Some in Hb as [Hi <-].
        assert (last l = Some a) as Hlast.
        { rewrite last_lookup. rewrite lookup_app_l in Ha by (apply chain_last in Hc;
            destruct l; [done|simpl in *; lia]). by replace (pred (length l)) with i by lia. }
        rewrite (chain_last _ _ _ Hc) in Hlast. injection Hlast as <-. by rewrite (Hid p).
Qed.

Lemma append_extends st e :
  storage_ok st → ms_byId st !! e_id e = None → extends st (discard (ms_appendEntry e st)).
Proof.
  intros Hok Hn. split; [by exists [e]|..]; intros id [x Hx].
  - by rewrite (append_keeps _ _ _ _ Hn Hx), Hx.
  - by eapply append_path_stable.
Qed.

Lemma setLeafId_extends env id st :
  storage_ok st → fresh_id env st → extends st (discard (ms_setLeafId env id st)).
Proof.
  intros Hok [_ Hn]. rewrite setLeafId_eq. case_match; [done|]. by apply append_extends.
Qed.

Lemma run_op_extends op st : storage_ok st → op_fresh op st → extends st (run_op op st).
Proof.
  intros Hok Hop.
  assert (∀ env data, fresh_id env st → extends st (discard (appendUnderLeaf env data st))) as Hunder.
  { intros env data [_ Hn]. rewrite appendUnderLeaf_eq by done. by apply append_extends. }
  destruct op; simpl in *; try (by apply Hunder).
  - unfold appendLabel, mbind, M_bind, gets. simpl.
    destruct (ms_getEntry targetId st); [by apply Hunder|done].
  - destruct Hop as [Hf1 Hf2]. rewrite moveTo_eq. case_match; [done|].
    destruct summary as [s|]; cbv zeta; [|by apply setLeafId_extends].
    etrans; [by apply setLeafId_extends|].
    apply append_extends; [by apply setLeafId_ok|by apply Hf2].
Qed.

(** ** Theorems *)

(** C1: any sequence of session operations, with generated ids that are not in
    use, leaves a well-formed session: ids are unique, every parent and every
    leaf target is an earlier entry, and the index, the labels and the active
    leaf are the ones the list of entries determines. *)
Theorem session_run_ok ops st : storage_ok st → run_fresh ops st → storage_ok (run_ops ops st).
Proof.
  revert st. induction ops as [|op ops IH]; intros st Hok Hf; [done|].
  destruct Hf as [H1 H2]. apply IH; [by apply run_op_ok|done].
Qed.

(** in a well-formed session the walk to the root ends for every entry, and
    returns the branch of that entry: it starts at an entry without a parent,
    ends with the entry itself, and every entry in between is the parent of the
    next one. *)
Theorem getPathToRoot_total st id :
  storage_ok st → is_Some (ms_byId st !! id) →
  ∃ e path, ms_byId st !! id = Some e ∧ ms_getPathToRoot (Some id) st = Some (Ok path)
    ∧ chain (ms_byId st) e path ∧ last path = Some e ∧ e_id e = id
    ∧ (∀ r, head path = Some r → parent_of r = None)
    ∧ (∀ i a b, path !! i = Some a → path !! S i = Some b → parent_of b = Some (e_id a)).
Proof.
  intros Hok [e He]. destruct (storage_chain st id e Hok He) as (l & Hc & _ & Hl).
  exists e, l. split; [done|]. split; [done|]. split; [done|].
  split; [by eapply chain_last|].
  assert (∀ p x, ms_byId st !! p = Some x → e_id x = p) as Hid.
  { intros p x Hx. rewrite (ok_byId _ Hok) in Hx. by apply index_of_elem in Hx as [_ ?]. }
  split; [by apply Hid|]. by eapply chain_linked.
Qed.

(** C9: history is immutable. Whatever session operations follow, the list of
    entries only grows at its end, and the branch of every entry that exists
    stays what it is. *)
Theorem history_immutable ops st :
  storage_ok st → run_fresh ops st →
  ms_entries st `prefix_of` ms_entries (run_ops ops st)
  ∧ ∀ id, is_Some (ms_byId st !! id) →
      ms_byId (run_ops ops st) !! id = ms_byId st !! id
      ∧ ms_getPathToRoot (Some id) (run_ops ops st) = ms_getPathToRoot (Some id) st.
Proof.
  intros Hok Hf. assert (extends st (run_ops ops st)) as [H1 H2 H3]; [|auto].
  revert st Hok Hf. induction ops as [|op ops IH]; intros st Hok Hf; [done|].
  destruct Hf as [Hop Hf]. etrans; [by apply run_op_extends|].
  apply IH; [by apply run_op_ok|done].
Qed.

(** ** Contexts *)

Lemma append_messages_flat es ms : append_messages es ms = ms ++ flat_map entry_messages es.
Proof.
  unfold append_messages. revert ms. induction es as [|e es IH]; intros ms; simpl;
    [by rewrite app_nil_r|]. by rewrite IH, <- (assoc_L (++)).
Qed.

(** [drop_until p l]: from the first element that satisfies [p] on. *)
Fixpoint drop_until {A} (p : A → bool) (l : list A) : list A :=
  match l with [] => [] | x :: l => if p x then x :: l else drop_until p l end.

Lemma kept_fold firstKept es ms :
  (fold_left (kept_step firstKept) es (false, ms)).2
  = ms ++ flat_map entry_messages (drop_until (λ e, bool_decide (e_id e = firstKept)) es).
Proof.
  assert (∀ es ms, (fold_left (kept_step firstKept) es (true, ms)).2
                   = ms ++ flat_map entry_messages es) as Htrue.
  { clear. intros es. induction es as [|e es IH]; intros ms; simpl; [by rewrite app_nil_r|].
    unfold kept_step at 2. simpl. by rewrite IH, <- (assoc_L (++)). }
  revert ms. induction es as [|e es IH]; intros ms; simpl; [by rewrite app_nil_r|].
  unfold kept_step at 2. simpl. case_bool_decide; simpl.
  - by rewrite Htrue, <- (assoc_L (++)).
  - apply IH.
Qed.

Lemma settings_compaction es s :
  set_compaction (fold_left settings_step es s)
  = match find_first (λ e, bool_decide (e_type e = TCompaction)) (reverse es) with
    | Some c => Some c
    | None => set_compaction s
    end.
Proof.
  rewrite <- (reverse_involutive es) at 1. generalize (reverse es). clear es.
  intros es. induction es as [|e es IH]; [done|].
  rewrite reverse_cons, fold_left_app. simpl. unfold settings_step at 1, e_type.
  destruct (e_data e) as [m| | | | | | | | | |] eqn:Hd; try destruct m; simpl; try exact IH; done.
Qed.

Lemma find_first_app {A} (p : A → bool) l1 l2 :
  find_first p (l1 ++ l2)
  = match find_first p l1 with Some x => Some x | None => find_first p l2 end.
Proof. induction l1 as [|x l1 IH]; simpl; [done|]. by destruct (p x). Qed.

Lemma context_messages pre post c summary firstKept tokensBefore details fromHook :
  e_data c = ECompaction summary firstKept tokensBefore details fromHook →
  (∀ e, e ∈ pre → e_type e = TCompaction → e_id e ≠ e_id c) →
  (∀ e, e ∈ post → e_type e ≠ TCompaction) →
  sc_messages (buildSessionContext (pre ++ c :: post))
  = match getResponsesCompactionItems details with
    | Some items => ResponsesRawItems items (Some summary) (e_timestamp c) :: []
    | None =>
        CompactionSummaryMessage summary tokensBefore (e_timestamp c)
        :: flat_map entry_messages (drop_until (λ e, bool_decide (e_id e = firstKept)) pre)
    end ++ flat_map entry_messages post
  ∧ sc_messages (buildSessionContext post) = flat_map entry_messages post.
Proof.
  intros Hc Hpre Hpost.
  assert (e_type c = TCompaction) as Ht by (unfold e_type; by rewrite Hc).
  assert (find_first (λ e, bool_decide (e_type e = TCompaction)) (reverse post) = None) as Hnone.
  { apply find_first_None. intros e He. rewrite elem_of_reverse in He.
    apply bool_decide_eq_false. by apply Hpost. }
  split; unfold buildSessionContext; cbn [sc_messages]; rewrite settings_compaction.
  - rewrite reverse_app, reverse_cons, <- (assoc_L (++)), find_first_app, Hnone.
    simpl. rewrite bool_decide_eq_true_2 by done. rewrite Hc.
    assert (find_index (λ e, bool_decide (e_type e = TCompaction) && bool_decide (e_id e = e_id c))
              (pre ++ c :: post) = Some (length pre)) as Hidx.
    { apply find_index_Some. split.
      - exists c. rewrite lookup_app_r, Nat.sub_diag by done. simpl.
        by rewrite !bool_decide_eq_true_2.
      - intros j e Hj He. rewrite lookup_app_l in He by done. apply list_elem_of_lookup_2 in He.
        case_bool_decide; [|done]. by apply bool_decide_eq_false, Hpre. }
    rewrite Hidx. simpl.
    assert (drop (S (length pre)) (pre ++ c :: post) = post) as ->.
    { change (S (length pre)) with (1 + length pre)%nat. rewrite Nat.add_comm, <- drop_drop.
      by rewrite drop_app_length. }
    rewrite take_app_length. destruct (getResponsesCompactionItems details).
    + by rewrite append_messages_flat.
    + rewrite append_messages_flat, kept_fold. done.
  - rewrite Hnone. simpl. by rewrite append_messages_flat.
Qed.

(** C8: the context after a compaction. The newest compaction of the branch
    decides: its summary comes first, then the messages from the entry it keeps
    first up to the compaction, then the messages after it; everything older is
    gone. With raw response items the items replace the summary and the kept
    entries. Without a compaction the context is every message of the branch. *)
Theorem buildSessionContext_messages pre post c summary firstKept tokensBefore details fromHook :
  e_data c = ECompaction summary firstKept tokensBefore details fromHook →
  (∀ e, e ∈ pre → e_type e = TCompaction → e_id e ≠ e_id c) →
  (∀ e, e ∈ post → e_type e ≠ TCompaction) →
  sc_messages (buildSessionContext (pre ++ c :: post))
  = match getResponsesCompactionItems details with
    | Some items => ResponsesRawItems items (Some summary) (e_timestamp c) :: []
    | None =>
        CompactionSummaryMessage summary tokensBefore (e_timestamp c)
        :: flat_map entry_messages (drop_until (λ e, bool_decide (e_id e = firstKept)) pre)
    end ++ flat_map entry_messages post
  ∧ sc_messages (buildSessionContext post) = flat_map entry_messages post.
Proof. apply context_messages. Qed.

Lemma settings_step_message s e m :
  e_data e = EMessage m → set_compaction (settings_step s e) = set_compaction s.
Proof. intros He. unfold settings_step. rewrite He. by destruct m. Qed.

(** A new message only adds itself to the context of a branch. *)
Lemma buildSessionContext_snoc path e m :
  e_data e = EMessage m →
  sc_messages (buildSessionContext (path ++ [e])) = sc_messages (buildSessionContext path) ++ [m].
Proof.
  intros He. unfold buildSessionContext. cbn [sc_messages].
  rewrite fold_left_app. cbn [fold_left]. rewrite (settings_step_message _ _ _ He).
  assert (∀ es ms, append_messages (es ++ [e]) ms = append_messages es ms ++ [m]) as Happ.
  { intros es ms. rewrite !append_messages_flat, flat_map_app. simpl. unfold entry_messages at 2.
    rewrite He, app_nil_r. by rewrite (assoc_L (++)). }
  rewrite settings_compaction.
  destruct (find_first _ (reverse path)) as [c|] eqn:Hc; [|apply Happ].
  apply find_first_Some in Hc as [Hin Ht]. rewrite elem_of_reverse in Hin.
  apply bool_decide_eq_true in Ht.
  destruct (e_data c) eqn:Hd; try (by unfold e_type in Ht; rewrite Hd in Ht).
  set (p := λ e, bool_decide (e_type e = TCompaction) && bool_decide (e_id e = e_id c)).
  destruct (find_index p path) as [i|] eqn:Hi.
  2:{ apply find_index_None with (x := c) in Hi; [|done]. unfold p in Hi.
      by rewrite !bool_decide_eq_true_2 in Hi. }
  apply find_index_Some in Hi as [(y & Hy & Hpy) Hmin].
  assert (i < length path)%nat as Hlt by by eapply lookup_lt_Some.
  assert (find_index p (path ++ [e]) = Some i) as ->.
  { apply find_index_Some. split; [exists y; by rewrite lookup_app_l|].
    intros j z Hj Hz. apply (Hmin j); [done|]. rewrite lookup_app_l in Hz; [done|lia]. }
  replace (find_index p path) with (Some i)
    by (symmetry; apply find_index_Some; split; [by exists y|done]). simpl.
  rewrite drop_app_le by lia. rewrite take_app_le by lia.
  destruct (getResponsesCompactionItems details); apply Happ.
Qed.

(** ** Branches *)

Lemma getBranch_leaf st :
  storage_ok st → getBranch None st = ms_getPathToRoot (ms_leafId st) st.
Proof. intros Hok. unfold getBranch. simpl. unfold ms_getLeafId. by rewrite leaf_present_ok. Qed.

(** A new entry under the leaf extends the active branch by itself. *)
Lemma append_extends_branch st e path :
  storage_ok st → ms_byId st !! e_id e = None → e_parentId e = ms_leafId st →
  (∀ t, e_data e ≠ ELeaf t) →
  storage_ok (discard (ms_appendEntry e st)) →
  getBranch None st = Some (Ok path) →
  getBranch None (discard (ms_appendEntry e st)) = Some (Ok (path ++ [e])).
Proof.
  intros Hok Hn Hp Hd Hok' Hb. rewrite getBranch_leaf in * by done.
  assert (ms_leafId (discard (ms_appendEntry e st)) = Some (e_id e)) as ->.
  { simpl. unfold leafIdAfterEntry. destruct (e_data e) eqn:H; try done. by destruct (Hd targetId). }
  destruct (ms_leafId st) as [id|] eqn:Hl.
  - pose proof (leaf_present_ok _ Hok) as Hlp. unfold leaf_present in Hlp. rewrite Hl in Hlp.
    destruct (has_id (ms_byId st) id) eqn:Hid; [|done].
    apply bool_decide_eq_true in Hid as [x Hx].
    assert (parent_of e = Some id) as Hpe.
    { unfold parent_of. rewrite Hp.
      rewrite (ok_byId _ Hok) in Hx. apply index_of_elem in Hx as [Hin <-].
      by rewrite (ok_names _ (ok_entries _ Hok) _ Hin). }
    destruct (append_child_path st e id x) as (l & Hl' & Hnew); [done..|].
    rewrite Hl' in Hb. by injection Hb as ->.
  - injection Hb as <-. rewrite append_root_path; [done|]. unfold parent_of. by rewrite Hp.
Qed.

Lemma branch_exists st : storage_ok st → ∃ path, getBranch None st = Some (Ok path).
Proof.
  intros Hok. rewrite getBranch_leaf by done. destruct (ms_leafId st) as [id|] eqn:Hl; [|by exists []].
  pose proof (leaf_present_ok _ Hok) as Hlp. unfold leaf_present in Hlp. rewrite Hl in Hlp.
  destruct (has_id (ms_byId st) id) eqn:Hid; [|done]. apply bool_decide_eq_true in Hid as [x Hx].
  destruct (storage_chain st id x Hok Hx) as (l & _ & _ & ->). by exists l.
Qed.

(** appending a message extends the active branch by exactly the new entry
    and the model's context by exactly the new message. *)
Theorem appendMessage_extends env m st :
  storage_ok st → fresh_id env st →
  let e := leaf_entry env st (EMessage m) in
  ∃ path c c' st', getBranch None st = Some (Ok path) ∧ buildContext st = Some (Ok c)
    ∧ appendMessage env m st = (Ok (e_id e), st')
    ∧ getBranch None st' = Some (Ok (path ++ [e])) ∧ buildContext st' = Some (Ok c')
    ∧ sc_messages c' = sc_messages c ++ [m].
Proof.
  intros Hok Hf e. destruct (branch_exists st Hok) as [path Hp].
  pose proof (appendUnderLeaf_ok env (EMessage m) st Hok Hf ltac:(done)) as Hok'.
  rewrite appendUnderLeaf_eq in Hok' by done. fold e in Hok'.
  assert (getBranch None (discard (ms_appendEntry e st)) = Some (Ok (path ++ [e]))) as Hp'.
  { apply append_extends_branch; try done. apply Hf. }
  exists path, (buildSessionContext path), (buildSessionContext (path ++ [e])),
    (discard (ms_appendEntry e st)).
  unfold buildContext. rewrite Hp, Hp'. repeat (split; [done|]).
  split; [by apply appendUnderLeaf_eq|]. repeat (split; [done|]). by apply buildSessionContext_snoc.
Qed.

(** moving to an entry makes its branch the active one, followed by the
    summary entry when one is given; moving to the root leaves the empty
    branch. An unknown entry is an error and changes nothing. *)
Theorem moveTo_branch env env' id s st :
  storage_ok st → fresh_id env st → fresh_id env' (discard (ms_setLeafId env id st)) →
  match id with Some i => is_Some (ms_byId st !! i) | None => True end →
  ∃ path, ms_getPathToRoot id st = Some (Ok path)
    ∧ getBranch None (discard (moveTo env env' id s st))
      = Some (Ok (path ++ match s with
                          | Some s => [summary_entry env' (discard (ms_setLeafId env id st)) id s]
                          | None => [] end)).
Proof.
  intros Hok Hf Hf' Hid.
  assert (match id with Some i => negb (has_id (ms_byId st) i) | None => false end = false) as Hk.
  { destruct id; [|done]. apply negb_false_iff. by apply bool_decide_eq_true. }
  pose proof (moveTo_ok env env' id s st Hok Hf Hf') as Hokm.
  pose proof (setLeafId_ok env id st Hok Hf) as Hok1.
  pose proof (setLeafId_extends env id st Hok Hf) as [_ _ Hext].
  assert (ms_leafId (discard (ms_setLeafId env id st)) = id) as Hleaf by (rewrite setLeafId_eq, Hk; done).
  assert (∃ path, ms_getPathToRoot id st = Some (Ok path)
    ∧ getBranch None (discard (ms_setLeafId env id st)) = Some (Ok path)) as (path & Hp & Hb).
  { rewrite getBranch_leaf, Hleaf by done. destruct id as [i|]; [|by exists []].
    destruct Hid as [x Hx]. destruct (storage_chain st i x Hok Hx) as (l & _ & _ & Hl).
    exists l. split; [done|]. by rewrite Hext. }
  exists path. split; [done|]. rewrite moveTo_eq, Hk in *. cbv zeta in *.
  destruct s as [s|]; [|by rewrite app_nil_r].
  apply append_extends_branch; [done|by apply Hf'|by rewrite Hleaf|done|done|done].
Qed.

(** ** Labels *)

(** a label replaces the earlier one of its target, an empty or absent one
    removes it, and no other label changes; an unknown target is an error that
    changes nothing. *)
Theorem appendLabel_label env target label st id :
  storage_ok st →
  ms_getLabel id (discard (appendLabel env target label st)) =
    (if bool_decide (is_Some (ms_byId st !! target)) && bool_decide (id = target)
     then match label with
          | Some l => if truthy (trim l) then Some (trim l) else None
          | None => None
          end
     else ms_getLabel id st)
  ∧ (ms_byId st !! target = None → appendLabel env target label st = (Err (NotFound target), st)).
Proof.
  intros Hok.
  assert (appendLabel env target label st = match ms_byId st !! target with
    | None => (Err (NotFound target), st)
    | Some _ => appendUnderLeaf env (ELabel target label) st end) as ->.
  { unfold appendLabel, mbind, M_bind, gets. simpl. unfold ms_getEntry. by case_match. }
  destruct (ms_byId st !! target) as [x|] eqn:Hx.
  2:{ rewrite bool_decide_eq_false_2 by (intros [? ?]; done). done. }
  rewrite appendUnderLeaf_eq by done. split; [|done].
  rewrite bool_decide_eq_true_2 by done. unfold ms_getLabel, updateLabelCache. simpl.
  unfold updateLabelCache. simpl.
  destruct label as [l|]; [destruct (truthy (trim l))|]; case_bool_decide; subst;
    by rewrite ?lookup_insert_eq, ?lookup_delete_eq, ?lookup_insert_ne, ?lookup_delete_ne.
Qed.

(** ** Reopening and forking *)

Lemma new_storage_ok es : entries_ok es →
  ∃ st, newInMemorySessionStorage es = Ok st ∧ storage_ok st ∧ ms_entries st = es.
Proof.
  intros Hok. unfold newInMemorySessionStorage. fold (leaf_of es).
  set (st := {| ms_entries := es; ms_byId := index_of es; ms_labelsById := buildLabelsById es;
                ms_leafId := leaf_of es |}).
  assert (storage_ok st) as Hst by (split; done).
  exists st. split; [|done]. change (index_of es) with (ms_byId st).
  change (leaf_of es) with (ms_leafId st). by rewrite leaf_present_ok.
Qed.

(** a session rebuilt from its list of entries is the session itself: same
    index, labels and active leaf, after any sequence of operations. *)
Theorem reopen_same ops st :
  storage_ok st → run_fresh ops st →
  newInMemorySessionStorage (ms_entries (run_ops ops st)) = Ok (run_ops ops st).
Proof.
  intros Hok Hf. assert (storage_ok (run_ops ops st)) as H.
  { revert st Hok Hf. induction ops as [|op ops IH]; intros st Hok Hf; [done|].
    destruct Hf. apply IH; [by apply run_op_ok|done]. }
  destruct (new_storage_ok _ (ok_entries _ H)) as (st' & Hnew & [_ Hb Hl Hlf] & He).
  rewrite Hnew. f_equal. destruct H as [_ Hb' Hl' Hlf'].
  destruct st', (run_ops ops st); simpl in *. congruence.
Qed.

(** A chain visits entries of the list in their order. *)
Lemma chain_sublist es : entries_ok es →
  ∀ i e l, es !! i = Some e → chain (index_of es) e l → l `sublist_of` take (S i) es.
Proof.
  intros Hok i. induction i as [i IH] using lt_wf_ind. intros e l He Hc.
  rewrite (take_S_r _ _ _ He).
  destruct Hc as [e Hp|e p parent l Hp Hl Hc].
  - by apply sublist_inserts_l.
  - destruct (ok_parents _ Hok _ _ _ He Hp) as (j & x & Hj & Hx & Hxp).
    assert (parent = x) as ->.
    { rewrite <- Hxp, index_of_lookup in Hl; [by injection Hl|apply Hok|
        by eapply list_elem_of_lookup_2]. }
    apply sublist_app; [|done]. etrans; [by eapply IH|].
    replace (take (S j) es) with (take (S j) (take i es)); [apply sublist_take|].
    rewrite take_take. f_equal. lia.
Qed.

(** A branch without leaf markers is a well-formed session of its own. *)
Lemma chain_entries_ok es i e l :
  entries_ok es → es !! i = Some e → chain (index_of es) e l →
  (∀ x, x ∈ l → e_type x ≠ TLeaf) → entries_ok l ∧ leaf_of l = Some (e_id e).
Proof.
  intros Hok He Hc Hleaf.
  pose proof (chain_sublist es Hok i e l He Hc) as Hsub.
  assert (l `sublist_of` es) as Hs by (etrans; [exact Hsub|apply sublist_take]).
  assert (∀ p x, index_of es !! p = Some x → e_id x = p) as Hid
    by (intros p x Hx; by apply index_of_elem in Hx as [_ ?]).
  destruct (chain_linked _ _ _ Hid Hc) as [Hhead Hlink]. split; [split|].
  - eapply sublist_NoDup; [apply Hok|]. by apply (fmap_sublist e_id).
  - intros x Hx. apply (ok_names _ Hok). by eapply sublist_subseteq.
  - intros k x p Hx Hp. destruct k as [|k].
    + rewrite (Hhead x) in Hp; [done|]. by destruct l; simpl in *.
    + destruct (l !! k) as [a|] eqn:Ha.
      * rewrite (Hlink k a x Ha Hx) in Hp. injection Hp as <-. exists k, a. split; [lia|done].
      * apply lookup_ge_None in Ha. apply lookup_lt_Some in Hx. lia.
  - intros k x t Hx Hd. apply list_elem_of_lookup_2 in Hx. apply Hleaf in Hx.
    unfold e_type in Hx. by rewrite Hd in Hx.
  - pose proof (chain_last _ _ _ Hc) as Hlast. apply last_Some in Hlast as [l' ->].
    rewrite leaf_of_snoc. unfold leafIdAfterEntry.
    assert (e_type e ≠ TLeaf) as Ht by (apply Hleaf; set_solver).
    unfold e_type in Ht. by destruct (e_data e).
Qed.

Lemma chain_unique byId e l l' : chain byId e l → chain byId e l' → l = l'.
Proof.
  intros H. revert l'. induction H as [e Hp|e p parent l Hp Hl Hc IH];
    intros l' H'; inversion H'; subst; try congruence.
  assert (p0 = p) as -> by congruence. assert (parent0 = parent) as -> by congruence.
  f_equal. by apply IH.
Qed.

(** A chain is a chain in any index that has its entries. *)
Lemma chain_transfer byId byId' e l :
  (∀ p x, byId !! p = Some x → e_id x = p) → chain byId e l →
  (∀ x, x ∈ l → byId' !! e_id x = Some x) → chain byId' e l.
Proof.
  intros Hid Hc Hin. induction Hc as [e Hp|e p parent l Hp Hl Hc IH]; [by apply chain_root|].
  eapply chain_step; [done| |apply IH; intros x Hx; apply Hin; set_solver].
  rewrite <- (Hid _ _ Hl). apply Hin. apply chain_last in Hc.
  apply last_Some in Hc as [l' ->]. set_solver.
Qed.

(** A storage opened on a branch of another one has that branch. *)
Lemma branch_storage st storage id x path :
  storage_ok st → storage_ok storage → ms_entries storage = path →
  ms_byId st !! id = Some x → ms_getPathToRoot (Some id) st = Some (Ok path) →
  (∀ y, y ∈ path → e_type y ≠ TLeaf) → getBranch None storage = Some (Ok path).
Proof.
  intros Hok Hsok Hes Hx Hpath Hleaf.
  destruct (storage_chain st id x Hok Hx) as (l & Hc & _ & Hl).
  rewrite Hpath in Hl. injection Hl as <-. rewrite (ok_byId _ Hok) in Hc, Hx.
  pose proof (index_of_elem _ _ _ Hx) as [Hin _]. apply list_elem_of_lookup in Hin as [i Hi].
  destruct (chain_entries_ok _ i x path (ok_entries _ Hok) Hi Hc Hleaf) as [Hp Hlf].
  assert (∀ y, y ∈ path → ms_byId storage !! e_id y = Some y) as Hby.
  { intros y Hy. rewrite (ok_byId _ Hsok), Hes. by apply index_of_lookup; [apply Hp|]. }
  rewrite getBranch_leaf, (ok_leaf _ Hsok), Hes, Hlf by done.
  assert (x ∈ path) as Hxin by (apply chain_last, last_Some in Hc as [l' ->]; set_solver).
  destruct (storage_chain storage (e_id x) x Hsok (Hby x Hxin)) as (l & Hc' & _ & ->).
  do 2 f_equal. eapply chain_unique; [done|]. eapply chain_transfer; [|done|done].
  intros p y Hy. by apply index_of_elem in Hy as [_ ?].
Qed.

(** forking a session before a user message gives a well-formed session
    whose active branch is the branch of that message's parent: exactly the
    conversation before it. The source is not changed. (The branch holds no
    leaf markers, which are never the parent of a message.) *)
Theorem fork_before_message env source repo id msg sid mt st path :
  map_get (sm_id source) repo = Some (mt, st) → storage_ok st →
  truthy id = true → ms_getEntry id st = Some msg → is_user_message msg = true →
  ms_getPathToRoot (e_parentId msg) st = Some (Ok path) →
  (∀ x, x ∈ path → e_type x ≠ TLeaf) →
  ∃ meta storage,
    repo_fork env source (Some id) None sid repo
      = Some (Ok meta, map_set (sm_id meta) (meta, storage) repo)
    ∧ storage_ok storage ∧ ms_entries storage = path
    ∧ getBranch None storage = Some (Ok path).
Proof.
  intros Hrepo Hok Hid Hget Hu Hpath Hleaf.
  assert (getEntriesToFork (Some id) None st = Some (Ok path)) as Hfork.
  { unfold getEntriesToFork. rewrite Hid. simpl. by rewrite Hget, Hu. }
  assert (e_parentId msg = None ∧ path = []
    ∨ ∃ p x, e_parentId msg = Some p ∧ ms_byId st !! p = Some x) as Hcases.
  { destruct (e_parentId msg) as [p|]; [right|left; by injection Hpath].
    destruct (ms_byId st !! p) as [x|] eqn:Hx; [by exists p, x|].
    unfold ms_getPathToRoot, path_to_root in Hpath. by rewrite Hx in Hpath. }
  assert (entries_ok path) as Hp.
  { destruct Hcases as [[_ ->]|(p & x & Hpm & Hx)]; [split; [constructor|set_solver|by intros [|?]..]|].
    rewrite Hpm in Hpath. destruct (storage_chain st p x Hok Hx) as (l & Hc & _ & Hl).
    rewrite Hpath in Hl. injection Hl as <-. rewrite (ok_byId _ Hok) in Hc, Hx.
    apply index_of_elem in Hx as [Hin _]. apply list_elem_of_lookup in Hin as [i Hi].
    by eapply (chain_entries_ok _ i x path (ok_entries _ Hok)). }
  destruct (new_storage_ok path Hp) as (storage & Hnew & Hsok & Hes).
  eexists {| sm_id := nullish sid (env_uuid env 0); sm_createdAt := env_now env |}, storage.
  split; [unfold repo_fork, repo_open; by rewrite Hrepo, Hfork, Hnew|].
  split; [done|]. split; [done|].
  destruct Hcases as [[_ ->]|(p & x & Hpm & Hx)].
  - rewrite getBranch_leaf, (ok_leaf _ Hsok), Hes by done. done.
  - rewrite Hpm in Hpath. by apply (branch_storage st storage p x).
Qed.

(** ** Ids and cycles *)

(** The generator returns an id not in use as soon as one of its candidates is
    not. *)
Lemma generate_from_fresh uuid byId n i :
  (∃ k, (k < n)%nat ∧ byId !! slice 0 8 (uuid (i + k)%nat) = None) ∨ byId !! uuid (i + n)%nat = None →
  byId !! generate_from uuid byId i n = None.
Proof.
  revert i. induction n as [|n IH]; intros i H; simpl.
  - destruct H as [(k & Hk & _)|H]; [lia|]. by rewrite Nat.add_0_r in H.
  - case_bool_decide as Hn; [done|]. apply IH. destruct H as [(k & Hk & H)|H].
    + destruct k as [|k]; [by rewrite Nat.add_0_r in H|]. left. exists k. split; [lia|].
      by rewrite <- plus_n_Sm in H.
    + right. by rewrite <- plus_n_Sm in H.
Qed.

(** entries whose parents form a cycle (which the loader of session files
    accepts) have no path: the walk to the root never ends, whatever the
    number of steps. *)
Theorem path_diverges_on_cycle fuel byId e acc :
  (∃ C : list Entry, e ∈ C ∧ ∀ x, x ∈ C → ∃ p y, parent_of x = Some p ∧ byId !! p = Some y ∧ y ∈ C) →
  path_loop fuel byId e acc = None.
Proof.
  intros (C & He & HC). revert e acc He. induction fuel as [|fuel IH]; intros e acc He; [done|].
  rewrite path_loop_step. destruct (HC e He) as (p & y & -> & -> & Hy). by apply IH.
Qed.

(** ** Witnesses *)

Lemma fresh_id_compute env st :
  truthy (ms_createEntryId env st) && bool_decide (ms_byId st !! ms_createEntryId env st = None) = true →
  fresh_id env st.
Proof. intros [? ?%bool_decide_eq_true]%andb_true_iff. by split. Qed.

Lemma demo_fresh : run_fresh demo_ops empty_storage.
Proof. repeat split; apply fresh_id_compute; vm_compute; reflexivity. Qed.

Lemma demo_ok : storage_ok demo_storage.
Proof.
  unfold demo_storage. generalize demo_fresh. generalize empty_ok. generalize empty_storage.
  induction demo_ops as [|op ops IH]; intros st Hok Hf; [done|].
  destruct Hf. apply IH; [by apply run_op_ok|done].
Qed.

Lemma session_run_ok_witness : storage_ok (run_ops demo_ops empty_storage).
Proof. apply session_run_ok; [exact empty_ok|exact demo_fresh]. Defined.

Lemma getPathToRoot_total_witness :
  ∃ e path, ms_byId demo_storage !! js "f" = Some e
    ∧ ms_getPathToRoot (Some (js "f")) demo_storage = Some (Ok path).
Proof.
  destruct (getPathToRoot_total demo_storage (js "f") demo_ok) as (e & path & H1 & H2 & _).
  - vm_compute. eexists. reflexivity.
  - exists e, path. split; [exact H1|exact H2].
Defined.

Lemma history_immutable_witness :
  ms_entries empty_storage `prefix_of` ms_entries (run_ops demo_ops empty_storage).
Proof. apply (history_immutable demo_ops empty_storage empty_ok demo_fresh). Defined.

Lemma reopen_same_witness :
  newInMemorySessionStorage (ms_entries (run_ops demo_ops empty_storage))
  = Ok (run_ops demo_ops empty_storage).
Proof. apply (reopen_same demo_ops empty_storage empty_ok demo_fresh). Defined.

Lemma appendMessage_extends_witness :
  ∃ path c c' st', getBranch None demo_storage = Some (Ok path)
    ∧ buildContext demo_storage = Some (Ok c)
    ∧ appendMessage (demo_env "g") demo_user demo_storage = (Ok (js "g"), st')
    ∧ getBranch None st'
      = Some (Ok (path ++ [leaf_entry (demo_env "g") demo_storage (EMessage demo_user)]))
    ∧ buildContext st' = Some (Ok c') ∧ sc_messages c' = sc_messages c ++ [demo_user].
Proof.
  apply (appendMessage_extends (demo_env "g") demo_user demo_storage demo_ok).
  apply fresh_id_compute. vm_compute. reflexivity.
Defined.

Lemma moveTo_branch_witness :
  ∃ path, ms_getPathToRoot (Some (js "a")) demo_storage = Some (Ok path)
    ∧ getBranch None (discard (moveTo (demo_env "g") (demo_env "h") (Some (js "a")) None demo_storage))
      = Some (Ok (path ++ [])).
Proof.
  apply (moveTo_branch (demo_env "g") (demo_env "h") (Some (js "a")) None demo_storage demo_ok).
  - apply fresh_id_compute. vm_compute. reflexivity.
  - apply fresh_id_compute. vm_compute. reflexivity.
  - vm_compute. eexists. reflexivity.
Defined.

Lemma appendLabel_label_witness :
  ms_getLabel (js "b") (discard (appendLabel (demo_env "g") (js "b") (Some (js " ")) demo_storage))
  = None.
Proof. apply (appendLabel_label (demo_env "g") (js "b") (Some (js " ")) demo_storage (js "b") demo_ok). Defined.

Definition demo_compaction : Entry :=
  {| e_id := js "c"; e_parentId := Some (js "b"); e_timestamp := 0;
     e_data := ECompaction (js "sum") (js "b") 9 None None |}.
Definition demo_entry (id : string) (m : AgentMessage) : Entry :=
  {| e_id := js id; e_parentId := None; e_timestamp := 0; e_data := EMessage m |}.

Lemma buildSessionContext_messages_witness :
  sc_messages (buildSessionContext
    ([demo_entry "a" demo_user; demo_entry "b" demo_note] ++ demo_compaction :: [demo_entry "d" demo_user]))
  = [CompactionSummaryMessage (js "sum") 9 0; demo_note; demo_user].
Proof.
  apply (buildSessionContext_messages [demo_entry "a" demo_user; demo_entry "b" demo_note]
    [demo_entry "d" demo_user] demo_compaction (js "sum") (js "b") 9 None None).
  - reflexivity.
  - intros e He. repeat (apply elem_of_cons in He as [->|He]; [discriminate|]).
    by apply elem_of_nil in He.
  - intros e He. apply list_elem_of_singleton in He as ->. discriminate.
Defined.

Lemma fork_before_message_witness :
  ∃ meta storage,
    repo_fork (demo_env "n") demo_meta (Some (js "c")) None None
      [(js "s", (demo_meta, demo_storage))]
      = Some (Ok meta, map_set (sm_id meta) (meta, storage) [(js "s", (demo_meta, demo_storage))])
    ∧ storage_ok storage
    ∧ ms_entries storage = take 2 (ms_entries demo_storage)
    ∧ getBranch None storage = Some (Ok (take 2 (ms_entries demo_storage))).
Proof.
  eapply (fork_before_message (demo_env "n") demo_meta [(js "s", (demo_meta, demo_storage))]
    (js "c") (default (demo_entry "" demo_user) (ms_getEntry (js "c") demo_storage)) None demo_meta
    demo_storage).
  - vm_compute. reflexivity.
  - exact demo_ok.
  - reflexivity.
  - vm_compute. reflexivity.
  - vm_compute. reflexivity.
  - vm_compute. reflexivity.
  - intros x Hx. vm_compute in Hx.
    repeat (apply elem_of_cons in Hx as [->|Hx]; [discriminate|]). by apply elem_of_nil in Hx.
Defined.

Definition demo_loop : Entry :=
  {| e_id := js "x"; e_parentId := Some (js "x"); e_timestamp := 0; e_data := ECustom (js "t") None |}.

Lemma path_diverges_on_cycle_witness : path_loop 1000 (index_of [demo_loop]) demo_loop [] = None.
Proof.
  apply path_diverges_on_cycle. exists [demo_loop]. split; [left|].
  intros x Hx. apply list_elem_of_singleton in Hx as ->. exists (js "x"), demo_loop.
  split; [reflexivity|]. split; [vm_compute; reflexivity|left].
Defined.
