(* ===== verification/Uuid.v ===== *)
(** * Version 7 uuids

    packages/harness/src/harness/session/uuid.ts: a generator with the last
    timestamp and a 32-bit sequence as module state. The clock ([Date.now()])
    and the 16 random bytes of a call are arguments; [formatUuid] is lower-case
    hexadecimal with dashes. *)

From S2P Require Import Prelude JsString Json Messages SessionTree.
From Stdlib Require Import Lia.
Local Open Scope Z_scope.

Set Default Goal Selector "!".

(** [None] is the initial [-Infinity]. *)
Record UuidState := { us_lastTimestamp : option Z; us_sequence : Z }.

Definition initial_uuid_state : UuidState := {| us_lastTimestamp := None; us_sequence := 0 |}.

Definition byte_at (bytes : list Z) (i : nat) : Z := nth i bytes 0.

(** The state after the first half of [uuidv7]. *)
Definition uuid_next (now : Z) (random : list Z) (s : UuidState) : UuidState :=
  if match us_lastTimestamp s with None => true | Some t => t <? now end
  then {| us_lastTimestamp := Some now;
          us_sequence := byte_at random 6 * 0x1000000 + byte_at random 7 * 0x10000
                         + byte_at random 8 * 0x100 + byte_at random 9 |}
  else
    let sequence := (us_sequence s + 1) mod 2 ^ 32 in
    {| us_lastTimestamp := if sequence =? 0 then (λ t, t + 1) <$> us_lastTimestamp s
                           else us_lastTimestamp s;
       us_sequence := sequence |}.

Definition uuid_bytes (s : UuidState) (random : list Z) : list Z :=
  let t := default 0 (us_lastTimestamp s) in
  let q := us_sequence s in
  [Z.land (t / 0x10000000000) 0xff; Z.land (t / 0x100000000) 0xff; Z.land (t / 0x1000000) 0xff;
   Z.land (t / 0x10000) 0xff; Z.land (t / 0x100) 0xff; Z.land t 0xff;
   Z.lor 0x70 (Z.land (Z.shiftr q 28) 0x0f); Z.land (Z.shiftr q 20) 0xff;
   Z.lor 0x80 (Z.land (Z.shiftr q 14) 0x3f); Z.land (Z.shiftr q 6) 0xff;
   Z.lor (Z.shiftl (Z.land q 0x3f) 2) (Z.land (byte_at random 10) 0x03);
   byte_at random 11; byte_at random 12; byte_at random 13; byte_at random 14; byte_at random 15].

(** [byte.toString(16).padStart(2, "0")]. *)
Definition hex_byte (b : Z) : jstr := [hex_digit (Z.to_N (b / 16)); hex_digit (Z.to_N (b mod 16))].

Definition formatUuid (bytes : list Z) : jstr :=
  let hex := map hex_byte bytes in
  let part a b := concat (slice a b hex) in
  part 0%nat 4%nat ++ js "-" ++ part 4%nat 6%nat ++ js "-" ++ part 6%nat 8%nat ++ js "-"
  ++ part 8%nat 10%nat ++ js "-" ++ part 10%nat 16%nat.

Definition uuidv7 (now : Z) (random : list Z) (s : UuidState) : jstr * UuidState :=
  let s' := uuid_next now random s in
  (formatUuid (uuid_bytes s' random), s').

(** ** Statements *)

(** A clock before the year 10889 and random bytes. *)
Definition clock_ok (now : Z) : Prop := 0 <= now < 2 ^ 48.
Definition random_ok (random : list Z) : Prop :=
  length random = 16%nat ∧ Forall (λ b, 0 <= b < 256) random.

Definition state_ok (s : UuidState) : Prop :=
  match us_lastTimestamp s with None => True | Some t => 0 <= t end ∧ 0 <= us_sequence s < 2 ^ 32.

(** The timestamp and the sequence that 16 bytes carry. *)
Definition decode (b : list Z) : Z * Z :=
  (byte_at b 0 * 2 ^ 40 + byte_at b 1 * 2 ^ 32 + byte_at b 2 * 2 ^ 24 + byte_at b 3 * 2 ^ 16
   + byte_at b 4 * 2 ^ 8 + byte_at b 5,
   byte_at b 6 mod 16 * 2 ^ 28 + byte_at b 7 * 2 ^ 20 + byte_at b 8 mod 64 * 2 ^ 14
   + byte_at b 9 * 2 ^ 6 + byte_at b 10 / 4).

(** The pair (timestamp, sequence) as one number, in the order of the bytes. *)
Definition rank (s : UuidState) : Z :=
  match us_lastTimestamp s with None => -1 | Some t => t * 2 ^ 32 + us_sequence s end.

Fixpoint uuid_run (calls : list (Z * list Z)) (s : UuidState) : list jstr :=
  match calls with
  | [] => []
  | (now, random) :: calls =>
      let '(id, s') := uuidv7 now random s in id :: uuid_run calls s'
  end.

Arguments byte_at : simpl never.

(** ** Lemmas *)

Lemma land_255 x : Z.land x 0xff = x mod 256.
Proof. change 0xff with (Z.ones 8). by rewrite Z.land_ones. Qed.
Lemma land_15 x : Z.land x 0x0f = x mod 16.
Proof. change 0x0f with (Z.ones 4). by rewrite Z.land_ones. Qed.
Lemma land_63 x : Z.land x 0x3f = x mod 64.
Proof. change 0x3f with (Z.ones 6). by rewrite Z.land_ones. Qed.
Lemma land_3 x : Z.land x 0x03 = x mod 4.
Proof. change 0x03 with (Z.ones 2). by rewrite Z.land_ones. Qed.

(** A lor of a multiple of [2^n] and a number below it is a sum. *)
Lemma lor_low a b n : 0 <= n → 0 <= b < 2 ^ n → Z.lor (a * 2 ^ n) b = a * 2 ^ n + b.
Proof.
  intros Hn Hb. rewrite <- (Z.add_lor_land (a * 2 ^ n) b).
  assert (Z.land (a * 2 ^ n) b = 0) as ->; [|lia].
  rewrite <- (Z.mod_small b (2 ^ n)), <- Z.land_ones, (Z.land_comm b), Z.land_assoc, Z.land_ones by lia.
  by rewrite Z.mod_mul, Z.land_0_l by lia.
Qed.

Lemma uuid_next_ok now random s :
  clock_ok now → random_ok random → state_ok s → state_ok (uuid_next now random s).
Proof.
  intros Hc [Hl Hr] [Ht Hs]. unfold uuid_next.
  assert (∀ i, 0 <= byte_at random i < 256) as Hb.
  { intros i. unfold byte_at. rewrite <- nth_default_eq.
    destruct (nth_in_or_default i random 0) as [Hin|Heq]; rewrite nth_default_eq.
    - rewrite Forall_forall in Hr. apply Hr. by apply list_elem_of_In.
    - rewrite Heq. lia. }
  destruct (match us_lastTimestamp s with None => true | Some t => t <? now end);
    unfold state_ok; cbn [us_lastTimestamp us_sequence].
  - pose proof (Hb 6%nat). pose proof (Hb 7%nat). pose proof (Hb 8%nat). pose proof (Hb 9%nat).
    unfold clock_ok in Hc. lia.
  - split; [|by apply Z.mod_pos_bound].
    destruct (us_lastTimestamp s) as [t|], (_ =? 0); simpl; lia || done.
Qed.

(** Each call moves the pair (timestamp, sequence) up. *)
Lemma uuid_next_rank now random s :
  clock_ok now → random_ok random → state_ok s → rank s < rank (uuid_next now random s).
Proof.
  intros Hc Hr Hs. pose proof (uuid_next_ok now random s Hc Hr Hs) as [_ Hq].
  destruct Hs as [Ht Hs]. unfold uuid_next, rank in *.
  destruct (us_lastTimestamp s) as [t|]; simpl in *.
  - destruct (Z.ltb_spec t now); simpl in *; [lia|].
    destruct (Z.eqb_spec ((us_sequence s + 1) mod 2 ^ 32) 0) as [Hz|Hz]; simpl; [lia|].
    destruct (decide (us_sequence s + 1 = 2 ^ 32)) as [Heq|Hne]; [by rewrite Heq in Hz|].
    rewrite Z.mod_small in *; lia.
  - unfold clock_ok in Hc. lia.
Qed.

(** The six bytes of a 48-bit number. *)
Lemma split_48 t : 0 <= t < 2 ^ 48 →
  (t / 0x10000000000) mod 256 * 2 ^ 40 + (t / 0x100000000) mod 256 * 2 ^ 32
  + (t / 0x1000000) mod 256 * 2 ^ 24 + (t / 0x10000) mod 256 * 2 ^ 16
  + (t / 0x100) mod 256 * 2 ^ 8 + t mod 256 = t.
Proof.
  intros Ht.
  assert (∀ a b, 0 < a → 0 < b → t / (a * b) = t / a / b) as Hd by (intros; by rewrite Z.div_div by lia).
  change 0x10000 with (0x100 * 0x100). change 0x1000000 with (0x100 * 0x100 * 0x100).
  change 0x100000000 with (0x100 * 0x100 * 0x100 * 0x100).
  change 0x10000000000 with (0x100 * 0x100 * 0x100 * 0x100 * 0x100).
  rewrite !Hd by lia.
  set (a := t / 0x100). set (b := a / 0x100). set (c := b / 0x100). set (d := c / 0x100).
  assert (0 <= d / 256 < 256) as He.
  { subst d c b a. rewrite !Z.div_div by lia. split; [apply Z.div_pos; lia|].
    apply Z.div_lt_upper_bound; lia. }
  rewrite (Z.mod_small (d / 0x100)) by done.
  pose proof (Z.div_mod t 256 ltac:(lia)). pose proof (Z.div_mod a 256 ltac:(lia)).
  pose proof (Z.div_mod b 256 ltac:(lia)). pose proof (Z.div_mod c 256 ltac:(lia)).
  pose proof (Z.div_mod d 256 ltac:(lia)). lia.
Qed.

Lemma decode_bytes s random :
  state_ok s → match us_lastTimestamp s with Some t => t < 2 ^ 48 | None => False end →
  decode (uuid_bytes s random) = (default 0 (us_lastTimestamp s), us_sequence s).
Proof.
  intros [Ht Hq] Hlt. destruct (us_lastTimestamp s) as [t|] eqn:Hs; [|done].
  unfold decode, uuid_bytes, byte_at. rewrite Hs. cbn [nth default].
  set (q := us_sequence s) in *. set (r := nth 10 random 0).
  rewrite !land_255, land_15, !land_63, land_3, !Z.shiftr_div_pow2, Z.shiftl_mul_pow2 by lia.
  rewrite (lor_low (q mod 64) (r mod 4) 2) by (try apply Z.mod_pos_bound; lia).
  change 0x70 with (7 * 2 ^ 4). change 0x80 with (2 * 2 ^ 6).
  rewrite (lor_low 7 _ 4), (lor_low 2 _ 6) by (try apply Z.mod_pos_bound; lia).
  f_equal; [by apply split_48|]. change (2 ^ 28) with 268435456. change (2 ^ 20) with 1048576.
  change (2 ^ 14) with 16384. change (2 ^ 6) with 64. change (2 ^ 4) with 16. change (2 ^ 2) with 4.
  change (2 ^ 32) with 4294967296 in Hq.
  rewrite (Z.div_add_l (q mod 64) 4), (Z.div_small (r mod 4)) by (try apply Z.mod_pos_bound; lia).
  rewrite (Z.add_comm (7 * 16)), Z.mod_add, (Z.add_comm (2 * 64)), Z.mod_add, !Z.mod_mod by lia.
  zlia.
Qed.

(** ** The text of a uuid *)

Lemma hex_digit_inj a b : (a < 16)%N → (b < 16)%N → hex_digit a = hex_digit b → a = b.
Proof.
  intros Ha Hb H. pose proof (hex_digit_value a Ha) as H1. rewrite H, hex_digit_value in H1 by done.
  by injection H1.
Qed.

Lemma hex_byte_inj a b : 0 <= a < 256 → 0 <= b < 256 → hex_byte a = hex_byte b → a = b.
Proof.
  intros Ha Hb H. unfold hex_byte in H. injection H as H1 H2.
  apply hex_digit_inj in H1, H2; try zlia.
Qed.

Lemma formatUuid_inj a b :
  length a = 16%nat → length b = 16%nat →
  Forall (λ x, 0 <= x < 256) a → Forall (λ x, 0 <= x < 256) b →
  formatUuid a = formatUuid b → a = b.
Proof.
  intros Ha Hb Fa Fb H.
  do 16 (destruct a as [|? a]; [done|]). do 16 (destruct b as [|? b]; [done|]).
  destruct a; [|done]. destruct b; [|done].
  repeat match goal with F : Forall _ (_ :: _) |- _ => apply Forall_cons in F as [? F] end.
  unfold formatUuid, slice in H. cbn [map take drop concat app Nat.sub] in H.
  unfold hex_byte in H. cbn [app] in H. change (js "-") with [45%N] in H. cbn [app] in H.
  injection H as H.
  assert (∀ x y, 0 <= x < 256 → 0 <= y < 256 →
    hex_digit (Z.to_N (x / 16)) = hex_digit (Z.to_N (y / 16)) →
    hex_digit (Z.to_N (x mod 16)) = hex_digit (Z.to_N (y mod 16)) → x = y) as Hinj.
  { intros x y Hx Hy Hhi Hlo. apply hex_byte_inj; [done..|]. unfold hex_byte. by rewrite Hhi, Hlo. }
  repeat f_equal; apply Hinj; assumption.
Qed.

Lemma uuid_bytes_ok s random :
  state_ok s → random_ok random →
  length (uuid_bytes s random) = 16%nat ∧ Forall (λ x, 0 <= x < 256) (uuid_bytes s random).
Proof.
  intros [_ Hq] [Hl Hr]. split; [done|]. unfold uuid_bytes.
  assert (∀ i, 0 <= byte_at random i < 256) as Hb.
  { intros i. unfold byte_at. destruct (nth_in_or_default i random 0) as [Hin|Heq].
    - rewrite Forall_forall in Hr. apply Hr. by apply list_elem_of_In.
    - rewrite Heq. lia. }
  rewrite !land_255, land_15, !land_63, land_3, Z.shiftl_mul_pow2 by lia.
  rewrite (lor_low _ (_ mod 4) 2) by (try apply Z.mod_pos_bound; lia).
  change 0x70 with (7 * 2 ^ 4). change 0x80 with (2 * 2 ^ 6).
  rewrite (lor_low 7 _ 4), (lor_low 2 _ 6) by (try apply Z.mod_pos_bound; lia).
  repeat (constructor; [first [by apply Hb|zlia]|]). constructor.
Qed.

(** ** Runs *)

Definition call_ok (c : Z * list Z) : Prop := 0 <= c.1 < 2 ^ 47 ∧ random_ok c.2.

(** How far the timestamp can be ahead of the clock. *)
Definition ts_below (b : Z) (s : UuidState) : Prop :=
  match us_lastTimestamp s with None => True | Some t => t < b end.

Lemma uuid_next_below b now random s :
  0 <= now < 2 ^ 47 → 2 ^ 47 <= b → ts_below b s →
  ts_below (b + 1) (uuid_next now random s) ∧ is_Some (us_lastTimestamp (uuid_next now random s)).
Proof.
  intros Hn Hb Ht. unfold uuid_next, ts_below in *.
  destruct (us_lastTimestamp s) as [t|]; [|simpl; split; [lia|done]].
  destruct (t <? now); simpl; [split; [lia|done]|].
  destruct (_ =? 0); simpl; split; lia || done.
Qed.

(** Every id of a run decodes to a rank above the one the run started with. *)
Lemma uuid_run_ranks calls : ∀ b s id,
  Forall call_ok calls → state_ok s → ts_below b s → 2 ^ 47 <= b →
  b + Z.of_nat (length calls) <= 2 ^ 48 → id ∈ uuid_run calls s →
  ∃ s' random, id = formatUuid (uuid_bytes s' random) ∧ state_ok s' ∧ random_ok random
    ∧ rank s < rank s' ∧ match us_lastTimestamp s' with Some t => t < 2 ^ 48 | None => False end.
Proof.
  induction calls as [|[now random] calls IH]; intros b s id Hc Hs Hb Hb47 Hlen Hid; [set_solver|].
  apply Forall_cons in Hc as [[Hn Hr] Hc]. cbn [fst snd length] in *.
  assert (clock_ok now) as Hck by (unfold clock_ok; lia).
  pose proof (uuid_next_ok now random s Hck Hr Hs) as Hs'.
  pose proof (uuid_next_rank now random s Hck Hr Hs) as Hrank.
  destruct (uuid_next_below b now random s Hn Hb47 Hb) as [Hb' [t Ht]].
  cbn [uuid_run] in Hid. unfold uuidv7 in Hid. apply elem_of_cons in Hid as [->|Hid].
  - exists (uuid_next now random s), random. split; [done|]. split; [done|]. split; [done|].
    split; [done|]. unfold ts_below in Hb'. rewrite Ht in *. lia.
  - destruct (IH (b + 1) (uuid_next now random s) id) as (s' & r' & ? & ? & ? & ? & ?);
      [done..|lia|lia|done|].
    exists s', r'. split; [done|]. split; [done|]. split; [done|]. split; [lia|done].
Qed.

Lemma rank_decode s random s' random' :
  state_ok s → state_ok s' → random_ok random → random_ok random' →
  match us_lastTimestamp s with Some t => t < 2 ^ 48 | None => False end →
  match us_lastTimestamp s' with Some t => t < 2 ^ 48 | None => False end →
  formatUuid (uuid_bytes s random) = formatUuid (uuid_bytes s' random') → rank s = rank s'.
Proof.
  intros Hs Hs' Hr Hr' Ht Ht' H.
  destruct (uuid_bytes_ok s random Hs Hr) as [L1 F1].
  destruct (uuid_bytes_ok s' random' Hs' Hr') as [L2 F2].
  apply formatUuid_inj in H; [|done..]. apply (f_equal decode) in H.
  rewrite !decode_bytes in H by done. injection H as H1 H2. unfold rank.
  destruct (us_lastTimestamp s), (us_lastTimestamp s'); simpl in *; try done. congruence.
Qed.

(** ** Theorems *)

(** the generator never repeats an id: all ids of a run of fewer than 2^47
    calls, with a clock below 2^47 milliseconds that may stand still or run
    backwards and any random bytes, are distinct. *)
Theorem uuidv7_unique calls :
  Forall call_ok calls → Z.of_nat (length calls) <= 2 ^ 47 →
  NoDup (uuid_run calls initial_uuid_state).
Proof.
  assert (∀ calls b s, Forall call_ok calls → state_ok s → ts_below b s → 2 ^ 47 <= b →
    b + Z.of_nat (length calls) <= 2 ^ 48 → NoDup (uuid_run calls s)) as H.
  { clear calls. intros calls. induction calls as [|[now random] calls IH];
      intros b s Hc Hs Hb Hb47 Hlen; [constructor|].
    apply Forall_cons in Hc as [[Hn Hr] Hc]. cbn [fst snd length] in *.
    assert (clock_ok now) as Hck by (unfold clock_ok; lia).
    pose proof (uuid_next_ok now random s Hck Hr Hs) as Hs'.
    destruct (uuid_next_below b now random s Hn Hb47 Hb) as [Hb' [t Ht]].
    cbn [uuid_run]. unfold uuidv7. constructor; [|eapply (IH (b + 1)); done || lia].
    intros Hin. destruct (uuid_run_ranks calls (b + 1) _ _ Hc Hs' Hb' ltac:(lia) ltac:(lia) Hin)
      as (s' & r' & Heq & Hok & Hrok & Hrank & Ht').
    apply rank_decode in Heq; [lia|done..| |done].
    unfold ts_below in Hb'. rewrite Ht in *. lia. }
  intros Hc Hlen. apply (H calls (2 ^ 47)); try done; lia.
Qed.

(** the first eight digits of a uuid are its timestamp without the low 16
    bits, so all uuids of the same 65536 milliseconds share them, and the 100
    attempts of [generateEntryId] within that time are one: once the short id
    is in use the function returns a whole uuid. *)
Theorem entry_id_is_clock_window uuid byId states randoms :
  (∀ i, (i < 100)%nat → uuid i = formatUuid (uuid_bytes (states i) (randoms i))) →
  (∀ i, (i < 100)%nat →
     default 0 (us_lastTimestamp (states i)) / 65536
     = default 0 (us_lastTimestamp (states 0%nat)) / 65536) →
  byId !! slice 0 8 (uuid 0%nat) ≠ None →
  generateEntryId uuid byId = uuid 100%nat.
Proof.
  intros Hu Ht Hused.
  assert (∀ s r, slice 0 8 (formatUuid (uuid_bytes s r))
    = concat (map hex_byte (take 4 (uuid_bytes s r)))) as Hslice by done.
  assert (∀ i, (i < 100)%nat → slice 0 8 (uuid i) = slice 0 8 (uuid 0%nat)) as Hsame.
  { intros i Hi. rewrite (Hu i Hi), (Hu 0%nat), !Hslice by lia. specialize (Ht i Hi).
    unfold uuid_bytes. cbn [take].
    assert (∀ a t, 0 < a → t / (65536 * a) = t / 65536 / a) as Hd by (intros; by rewrite Z.div_div by lia).
    change 0x10000000000 with (65536 * 0x1000000). change 0x100000000 with (65536 * 0x10000).
    change 0x1000000 with (65536 * 0x100). rewrite !(Hd _ (default 0 _)), Ht by lia. done. }
  assert (∀ n i, (i + n = 100)%nat → generate_from uuid byId i n = uuid 100%nat) as H.
  { intros n. induction n as [|n IH]; intros i Hi; simpl; [f_equal; lia|].
    rewrite Hsame by lia. rewrite bool_decide_eq_false_2 by done. apply IH. lia. }
  by apply H.
Qed.

(** ** Witnesses *)

Definition demo_random : list Z := replicate 16 0.

Lemma uuidv7_unique_witness :
  NoDup (uuid_run [(5, demo_random); (5, demo_random); (3, demo_random)] initial_uuid_state).
Proof.
  assert (random_ok demo_random) as Hr.
  { split; [reflexivity|]. apply Forall_replicate. lia. }
  apply uuidv7_unique; [|simpl; lia].
  repeat (constructor; [split; [simpl; lia|exact Hr]|]). constructor.
Defined.

Definition demo_state (i : nat) : UuidState :=
  {| us_lastTimestamp := Some 1700000000000; us_sequence := Z.of_nat i |}.
Definition demo_uuid (i : nat) : jstr := formatUuid (uuid_bytes (demo_state i) demo_random).
Definition demo_index : index :=
  {[ slice 0 8 (demo_uuid 0) := {| e_id := []; e_parentId := None; e_timestamp := 0;
                                   e_data := ELeaf None |} ]}.

Lemma entry_id_is_clock_window_witness : generateEntryId demo_uuid demo_index = demo_uuid 100.
Proof.
  apply (entry_id_is_clock_window demo_uuid demo_index demo_state (λ _, demo_random)).
  - intros i Hi. reflexivity.
  - intros i Hi. reflexivity.
  - unfold demo_index. rewrite lookup_singleton_eq. discriminate.
Defined.
