(* ===== verification/JsonlSession.v ===== *)
(** * Session files: one JSON value per line

    packages/harness/src/harness/session/jsonl-storage.ts. The storage mirrors
    the in-memory one and appends each entry to the file before it adds it. An
    entry is the JSON object that is written; the members the storage reads are
    [type], [id], [parentId], [timestamp], [targetId] and [label], and label
    entries have a string target and a string or absent label, as the program
    writes them. The file system is a parameter. *)

From S2P Require Import Prelude JsMap JsString Json Messages SessionTree.
From Stdlib Require Import Lia.

Set Default Goal Selector "!".

(** ** The file system *)

(** No surrogate without its partner: [String.prototype.isWellFormed]. *)
Fixpoint isWellFormed (s : jstr) : bool :=
  match s with
  | [] => true
  | c :: s' =>
      if is_high c then match s' with d :: s'' => is_low d && isWellFormed s'' | [] => false end
      else negb (is_low c) && isWellFormed s'
  end.

Inductive FileErrorCode := FileNotFound | FileOther.
Record FileError := { fe_code : FileErrorCode; fe_message : jstr }.

(** [writeFile] replaces a file, [appendFile] adds to it. A file holds what was written
    when UTF-8 carries it: text without unpaired surrogates. What a call that fails
    leaves behind is not known: part of the text may have been written. *)
Class FileSystem (F : Type) := {
  fs_readTextFile : jstr → F → result FileError jstr;
  fs_readTextLines : jstr → nat → F → result FileError (list jstr);
  fs_writeFile : jstr → jstr → M F FileError unit;
  fs_appendFile : jstr → jstr → M F FileError unit;
}.

Class FileSystemLaws (F : Type) `{FileSystem F} := {
  fs_write_read path s f f' :
    isWellFormed s = true → fs_writeFile path s f = (Ok tt, f') → fs_readTextFile path f' = Ok s;
  fs_append_read path s t f f' :
    isWellFormed s = true → fs_readTextFile path f = Ok t → fs_appendFile path s f = (Ok tt, f') →
    fs_readTextFile path f' = Ok (t ++ s);
}.

Definition getFileSystemResultOrThrow {A} (r : result FileError A) (message : jstr)
    : result SessionError A :=
  match r with
  | Ok a => Ok a
  | Err e => let text := message ++ js ": " ++ fe_message e in
             match fe_code e with FileNotFound => Err (NotFound text) | FileOther => Err (StorageFailed text) end
  end.

Arguments getFileSystemResultOrThrow : simpl never.

(** ** Reading the members of an entry *)

Definition str_member (k : string) (j : json) : option jstr :=
  match member (js k) j with Some (JStr s) => Some s | _ => None end.

Definition entry_type (j : json) : option jstr := str_member "type" j.
Definition entry_id (j : json) : jstr := default [] (str_member "id" j).
Definition entry_parentId (j : json) : option jstr := str_member "parentId" j.

Definition isRecord (j : json) : bool := match j with JObj _ | JArr _ => true | _ => false end.

(** A string member that is not empty. *)
Definition has_text (k : string) (j : json) : bool :=
  match str_member k j with Some s => truthy s | None => false end.

(** [null] or a string. *)
Definition null_or_string (k : string) (j : json) : bool :=
  match member (js k) j with Some JNull | Some (JStr _) => true | _ => false end.

Record SessionHeader := {
  sh_id : jstr; sh_timestamp : jstr; sh_cwd : jstr; sh_parentSession : option jstr;
}.

Definition invalidSession (what : string) : SessionError := InvalidSession (js what).

Definition parseHeaderLine (line : jstr) : result SessionError SessionHeader :=
  match json_parse line with
  | None => Err (invalidSession "first line is not a valid session header")
  | Some parsed =>
      if negb (isRecord parsed) then Err (invalidSession "first line is not a valid session header")
      else if negb (bool_decide (entry_type parsed = Some (js "session")))
      then Err (invalidSession "first line is not a valid session header")
      else match member (js "version") parsed with
      | Some (JNum 3) =>
          if negb (has_text "id" parsed) then Err (invalidSession "session header is missing id")
          else if negb (has_text "timestamp" parsed)
          then Err (invalidSession "session header is missing timestamp")
          else if negb (has_text "cwd" parsed) then Err (invalidSession "session header is missing cwd")
          else match member (js "parentSession") parsed with
          | None | Some (JStr _) =>
              Ok {| sh_id := entry_id parsed; sh_timestamp := default [] (str_member "timestamp" parsed);
                    sh_cwd := default [] (str_member "cwd" parsed);
                    sh_parentSession := str_member "parentSession" parsed |}
          | Some _ => Err (invalidSession "session header parentSession must be a string")
          end
      | _ => Err (invalidSession "unsupported session version")
      end
  end.

(** The checks of [parseEntryLine] on a parsed line. *)
Definition check_entry (parsed : json) (lineNumber : nat) : result SessionError json :=
  if negb (isRecord parsed) then Err (InvalidEntry lineNumber (js "is not a valid session entry"))
  else match entry_type parsed with
  | None => Err (InvalidEntry lineNumber (js "is missing entry type"))
  | Some t =>
      if negb (has_text "id" parsed) then Err (InvalidEntry lineNumber (js "is missing entry id"))
      else if negb (null_or_string "parentId" parsed)
      then Err (InvalidEntry lineNumber (js "has invalid parentId"))
      else if negb (has_text "timestamp" parsed)
      then Err (InvalidEntry lineNumber (js "is missing timestamp"))
      else if bool_decide (t = js "leaf") && negb (null_or_string "targetId" parsed)
      then Err (InvalidEntry lineNumber (js "has invalid targetId"))
      else Ok parsed
  end.

Definition parseEntryLine (line : jstr) (lineNumber : nat) : result SessionError json :=
  match json_parse line with
  | None => Err (InvalidEntry lineNumber (js "is not valid JSON"))
  | Some parsed => check_entry parsed lineNumber
  end.

Definition json_leafIdAfterEntry (entry : json) : option jstr :=
  if bool_decide (entry_type entry = Some (js "leaf")) then str_member "targetId" entry
  else Some (entry_id entry).

Definition json_updateLabelCache (labelsById : gmap jstr jstr) (entry : json) : gmap jstr jstr :=
  if negb (bool_decide (entry_type entry = Some (js "label"))) then labelsById
  else
    let target := default [] (str_member "targetId" entry) in
    match str_member "label" entry with
    | Some l => if truthy (trim l) then <[target := trim l]> labelsById else delete target labelsById
    | None => delete target labelsById
    end.

Definition json_buildLabelsById (entries : list json) : gmap jstr jstr :=
  fold_left json_updateLabelCache entries ∅.

Definition json_index (entries : list json) : gmap jstr json :=
  fold_left (λ m e, <[entry_id e := e]> m) entries ∅.

Fixpoint json_generate_from (uuid : nat → jstr) (byId : gmap jstr json) (i n : nat) : jstr :=
  match n with
  | O => uuid i
  | S n =>
      let id := slice 0 8 (uuid i) in
      if bool_decide (byId !! id = None) then id else json_generate_from uuid byId (S i) n
  end.
Definition json_generateEntryId (uuid : nat → jstr) (byId : gmap jstr json) : jstr :=
  json_generate_from uuid byId 0 100.

(** ** The storage *)

Record JsonlSessionMetadata := {
  jm_id : jstr; jm_createdAt : jstr; jm_cwd : jstr; jm_path : jstr; jm_parentSessionPath : option jstr;
}.

Definition headerToSessionMetadata (header : SessionHeader) (path : jstr) : JsonlSessionMetadata :=
  {| jm_id := sh_id header; jm_createdAt := sh_timestamp header; jm_cwd := sh_cwd header;
     jm_path := path; jm_parentSessionPath := sh_parentSession header |}.

Record JsonlSessionStorage := {
  jl_filePath : jstr; jl_metadata : JsonlSessionMetadata; jl_entries : list json;
  jl_byId : gmap jstr json; jl_labelsById : gmap jstr jstr; jl_currentLeafId : option jstr;
}.

Definition header_json (h : SessionHeader) : json :=
  JObj ([(js "type", JStr (js "session")); (js "version", JNum 3); (js "id", JStr (sh_id h));
         (js "timestamp", JStr (sh_timestamp h)); (js "cwd", JStr (sh_cwd h))]
        ++ match sh_parentSession h with Some p => [(js "parentSession", JStr p)] | None => [] end).

(** [new JsonlSessionStorage(...)]. *)
Definition newJsonlSessionStorage (filePath : jstr) (header : SessionHeader) (entries : list json)
    (leafId : option jstr) : JsonlSessionStorage :=
  {| jl_filePath := filePath; jl_metadata := headerToSessionMetadata header filePath;
     jl_entries := entries; jl_byId := json_index entries;
     jl_labelsById := json_buildLabelsById entries; jl_currentLeafId := leafId |}.

(** The loop over the lines after the header, the first of them line [n]. *)
Fixpoint parse_lines (n : nat) (lines : list jstr) : result SessionError (list json) :=
  match lines with
  | [] => Ok []
  | line :: lines =>
      let! entry := parseEntryLine line n in
      let! entries := parse_lines (S n) lines in
      mret (entry :: entries)
  end.

Definition content_lines (content : jstr) : list jstr :=
  filter (λ l, truthy (trim l) = true) (split_on NL content).

Section jsonl.
Context {F : Type} `{FileSystem F}.

Definition loadJsonlSessionMetadata (filePath : jstr) (fs : F)
    : result SessionError JsonlSessionMetadata :=
  let! lines := getFileSystemResultOrThrow (fs_readTextLines filePath 1 fs)
                  (js "Failed to read session header " ++ filePath) in
  match lines with
  | line :: _ =>
      if truthy (trim line)
      then let! header := parseHeaderLine line in mret (headerToSessionMetadata header filePath)
      else Err (invalidSession "missing session header")
  | [] => Err (invalidSession "missing session header")
  end.

Definition loadJsonlStorage (filePath : jstr) (fs : F)
    : result SessionError (SessionHeader * list json * option jstr) :=
  let! content := getFileSystemResultOrThrow (fs_readTextFile filePath fs)
                    (js "Failed to read session " ++ filePath) in
  match content_lines content with
  | [] => Err (invalidSession "missing session header")
  | first :: rest =>
      let! header := parseHeaderLine first in
      let! entries := parse_lines 2 rest in
      mret (header, entries, fold_left (λ _ e, json_leafIdAfterEntry e) entries None)
  end.

Definition jsonl_open (filePath : jstr) (fs : F) : result SessionError JsonlSessionStorage :=
  let! loaded := loadJsonlStorage filePath fs in
  let '(header, entries, leafId) := loaded in
  mret (newJsonlSessionStorage filePath header entries leafId).

Definition jsonl_create (filePath : jstr) (header : SessionHeader)
    : M F SessionError JsonlSessionStorage :=
  λ fs,
    let '(r, fs') := fs_writeFile filePath (stringify (header_json header) ++ [NL]) fs in
    match getFileSystemResultOrThrow r (js "Failed to create session " ++ filePath) with
    | Err e => (Err e, fs')
    | Ok _ => (Ok (newJsonlSessionStorage filePath header [] None), fs')
    end.

(** The operations work on a storage and the file system. *)
Definition jsonl_appendEntry (entry : json) : M (JsonlSessionStorage * F) SessionError unit :=
  λ '(st, fs),
    let '(r, fs') := fs_appendFile (jl_filePath st) (stringify entry ++ [NL]) fs in
    match getFileSystemResultOrThrow r (js "Failed to append session entry " ++ entry_id entry) with
    | Err e => (Err e, (st, fs'))
    | Ok _ =>
        (Ok tt, ({| jl_filePath := jl_filePath st; jl_metadata := jl_metadata st;
                    jl_entries := jl_entries st ++ [entry];
                    jl_byId := <[entry_id entry := entry]> (jl_byId st);
                    jl_labelsById := json_updateLabelCache (jl_labelsById st) entry;
                    jl_currentLeafId := json_leafIdAfterEntry entry |}, fs'))
    end.

Definition opt_json (o : option jstr) : json := match o with Some s => JStr s | None => JNull end.

Definition leaf_json (id : jstr) (parentId : option jstr) (timestamp : jstr) (targetId : option jstr)
    : json :=
  JObj [(js "type", JStr (js "leaf")); (js "id", JStr id); (js "parentId", opt_json parentId);
        (js "timestamp", JStr timestamp); (js "targetId", opt_json targetId)].

Definition jsonl_setLeafId (uuid : nat → jstr) (timestamp : jstr) (leafId : option jstr)
    : M (JsonlSessionStorage * F) SessionError unit :=
  λ '(st, fs),
    if match leafId with Some id => negb (bool_decide (is_Some (jl_byId st !! id))) | None => false end
    then (Err (NotFound (default [] leafId)), (st, fs))
    else
      let entry := leaf_json (json_generateEntryId uuid (jl_byId st)) (jl_currentLeafId st) timestamp
                     leafId in
      let '(r, fs') := fs_appendFile (jl_filePath st) (stringify entry ++ [NL]) fs in
      match getFileSystemResultOrThrow r (js "Failed to append session leaf " ++ entry_id entry) with
      | Err e => (Err e, (st, fs'))
      | Ok _ =>
          (Ok tt, ({| jl_filePath := jl_filePath st; jl_metadata := jl_metadata st;
                      jl_entries := jl_entries st ++ [entry];
                      jl_byId := <[entry_id entry := entry]> (jl_byId st);
                      jl_labelsById := jl_labelsById st; jl_currentLeafId := leafId |}, fs'))
      end.
End jsonl.

Definition jsonl_getLeafId (st : JsonlSessionStorage) : result SessionError (option jstr) :=
  match jl_currentLeafId st with
  | Some id => if bool_decide (is_Some (jl_byId st !! id)) then Ok (Some id) else Err (InvalidSession id)
  | None => Ok None
  end.

Fixpoint json_path_loop (fuel : nat) (byId : gmap jstr json) (current : json) (path : list json)
    : option (result SessionError (list json)) :=
  match fuel with
  | O => None
  | S fuel =>
      let path := current :: path in
      match entry_parentId current with
      | None => Some (Ok path)
      | Some p =>
          if negb (truthy p) then Some (Ok path)
          else match byId !! p with
               | None => Some (Err (InvalidSession p))
               | Some parent => json_path_loop fuel byId parent path
               end
      end
  end.

Definition jsonl_getPathToRoot (leafId : option jstr) (st : JsonlSessionStorage)
    : option (result SessionError (list json)) :=
  match leafId with
  | None => Some (Ok [])
  | Some id =>
      match jl_byId st !! id with
      | None => Some (Err (NotFound id))
      | Some current => json_path_loop (length (jl_entries st)) (jl_byId st) current []
      end
  end.

Definition jsonl_findEntries (t : jstr) (st : JsonlSessionStorage) : list json :=
  filter (λ e, entry_type e = Some t) (jl_entries st).
Definition jsonl_getEntry (id : jstr) (st : JsonlSessionStorage) : option json := jl_byId st !! id.
Definition jsonl_getLabel (id : jstr) (st : JsonlSessionStorage) : option jstr := jl_labelsById st !! id.

(** ** Statements: a file and its storage *)

(** An entry the program writes: the loader accepts it, and it is a value that
    JSON can carry. *)
Definition entry_ok (e : json) : Prop := (∀ n, check_entry e n = Ok e) ∧ json_wf e.

Definition header_ok (h : SessionHeader) : Prop :=
  truthy (sh_id h) && truthy (sh_timestamp h) && truthy (sh_cwd h) = true
  ∧ json_wf (header_json h).

Inductive JsonlOp :=
| JAppend (entry : json)
| JSetLeaf (uuid : nat → jstr) (timestamp : jstr) (leafId : option jstr).

Definition run_jsonl_op {F} `{FileSystem F} (op : JsonlOp) (s : JsonlSessionStorage * F)
    : JsonlSessionStorage * F :=
  match op with
  | JAppend e => (jsonl_appendEntry e s).2
  | JSetLeaf uuid ts id => (jsonl_setLeafId uuid ts id s).2
  end.

Definition run_jsonl {F} `{FileSystem F} (ops : list JsonlOp) (s : JsonlSessionStorage * F)
    : JsonlSessionStorage * F := fold_left (λ s op, run_jsonl_op op s) ops s.

(** The entry an operation writes, if it writes one. *)
Definition op_entry (op : JsonlOp) (st : JsonlSessionStorage) : option json :=
  match op with
  | JAppend e => Some e
  | JSetLeaf uuid ts id =>
      if match id with Some i => negb (bool_decide (is_Some (jl_byId st !! i))) | None => false end then None
      else Some (leaf_json (json_generateEntryId uuid (jl_byId st)) (jl_currentLeafId st) ts id)
  end.

(** If the append of a line fails, it has written nothing. *)
Definition no_torn_line {F} `{FileSystem F} (path : jstr) (entry : json) (fs : F) : Prop :=
  match fs_appendFile path (stringify entry ++ [NL]) fs with
  | (Ok _, _) => True
  | (Err _, fs') => fs_readTextFile path fs' = fs_readTextFile path fs
  end.

(** The entries a run writes can be written, and no append that fails leaves part of its line. *)
Fixpoint jsonl_run_ok {F} `{FileSystem F} (ops : list JsonlOp) (s : JsonlSessionStorage * F) : Prop :=
  match ops with
  | [] => True
  | op :: ops =>
      match op_entry op s.1 with
      | Some e => entry_ok e ∧ no_torn_line (jl_filePath s.1) e s.2
      | None => True
      end ∧ jsonl_run_ok ops (run_jsonl_op op s)
  end.

(** A file system as a map from paths to contents, with paths that cannot be written,
    and paths on a full disk, which take one more unit and then fail. *)
Record MapFs := { mf_files : gmap jstr jstr; mf_readonly : list jstr; mf_full : list jstr }.
#[export] Instance MapFs_FileSystem : FileSystem MapFs := {|
  fs_readTextFile path f := match mf_files f !! path with
    | Some s => Ok s | None => Err {| fe_code := FileNotFound; fe_message := path |} end;
  fs_readTextLines path n f := match mf_files f !! path with
    | Some s => Ok (take n (split_on NL s))
    | None => Err {| fe_code := FileNotFound; fe_message := path |} end;
  fs_writeFile path s f :=
    if bool_decide (path ∈ mf_readonly f) then (Err {| fe_code := FileOther; fe_message := path |}, f)
    else (Ok tt, {| mf_files := <[path := s]> (mf_files f); mf_readonly := mf_readonly f; mf_full := mf_full f |});
  fs_appendFile path s f :=
    let put s := {| mf_files := <[path := default [] (mf_files f !! path) ++ s]> (mf_files f);
                    mf_readonly := mf_readonly f; mf_full := mf_full f |} in
    if bool_decide (path ∈ mf_readonly f) then (Err {| fe_code := FileOther; fe_message := path |}, f)
    else if bool_decide (path ∈ mf_full f) then (Err {| fe_code := FileOther; fe_message := path |}, put (take 1 s))
    else (Ok tt, put s) |}.

(** ** Lines *)

Lemma hex_digit_not_nl n : (n < 16)%N → hex_digit n ≠ NL.
Proof. unfold hex_digit, NL. destruct (n <? 10)%N; lia. Qed.

Lemma u_escape_no_nl c : (c < 65536)%N → NL ∉ u_escape c.
Proof.
  intros Hc. unfold u_escape.
  assert (∀ n, (n < 16)%N → hex_digit n ≠ 10%N) as H by apply hex_digit_not_nl.
  assert (c / 4096 < 16)%N by (apply N.Div0.div_lt_upper_bound; lia).
  assert (∀ n, n mod 16 < 16)%N by (intros; apply N.mod_lt; done).
  rewrite !not_elem_of_cons. unfold NL.
  repeat (split; [solve [done|apply not_eq_sym; auto]|]). set_solver.
Qed.

Lemma quote_unit_no_nl c : (c < 65536)%N → NL ∉ quote_unit c.
Proof.
  intros Hc. unfold quote_unit.
  repeat match goal with |- context [(c =? ?n)%N] =>
    destruct (N.eqb_spec c n); [vm_compute; set_solver|] end.
  destruct (c <? 32)%N; [by apply u_escape_no_nl|]. unfold NL. set_solver.
Qed.

Lemma quote_body_no_nl s : js_wf s → NL ∉ quote_body s.
Proof.
  remember (length s) as n eqn:Hn. revert s Hn.
  induction n as [n IH] using lt_wf_ind. intros [|c s] -> Hwf; [set_solver|].
  apply Forall_cons in Hwf as [Hc Hs].
  assert (NL ∉ quote_body s) as Hrest by (apply (IH (length s)); simpl; [lia|done..]).
  cbn [quote_body]. destruct (is_high c) eqn:Hh.
  - destruct s as [|d s]; [by apply u_escape_no_nl|].
    destruct (is_low d) eqn:Hl; [|rewrite not_elem_of_app; split; [by apply u_escape_no_nl|done]].
    apply Forall_cons in Hs as [_ Hs]. unfold is_high, is_low in *.
    rewrite andb_true_iff, !N.leb_le in *. unfold NL.
    rewrite !not_elem_of_cons. split; [lia|]. split; [lia|]. apply (IH (length s)); simpl; [lia|done..].
  - destruct (is_low c); rewrite not_elem_of_app; split; try done;
      [by apply u_escape_no_nl|by apply quote_unit_no_nl].
Qed.

Lemma quote_no_nl s : js_wf s → NL ∉ quote s.
Proof.
  intros H. unfold quote. rewrite not_elem_of_cons, not_elem_of_app, list_elem_of_singleton.
  split; [done|]. split; [by apply quote_body_no_nl|done].
Qed.

Lemma join_no_nl sep ls : NL ∉ sep → (∀ l, l ∈ ls → NL ∉ l) → NL ∉ join sep ls.
Proof.
  intros Hs Hl. induction ls as [|l ls IH]; [set_solver|].
  destruct ls as [|k ks]; [apply Hl; set_solver|].
  rewrite join_cons by done. rewrite !not_elem_of_app.
  split; [apply Hl; set_solver|]. split; [done|]. apply IH. set_solver.
Qed.

Lemma digits_no_nl fuel z : (0 <= z)%Z → NL ∉ digits_of fuel z.
Proof. intros Hz H. by apply digits_of_digits in H. Qed.

(** What is written for one value is one line. *)
Lemma stringify_no_nl j : json_wf j → NL ∉ stringify j.
Proof.
  induction j as [|b|z|s|l IH|l IH] using json_induction; intros Hwf; cbn [stringify].
  - vm_compute. set_solver.
  - destruct b; vm_compute; set_solver.
  - unfold dec. destruct (Z.ltb_spec z 0).
    + rewrite not_elem_of_cons. split; [done|]. apply digits_no_nl. lia.
    + by apply digits_no_nl.
  - by apply quote_no_nl.
  - rewrite not_elem_of_cons, not_elem_of_app, list_elem_of_singleton.
    split; [done|]. split; [|done]. apply join_no_nl; [vm_compute; set_solver|].
    intros t Ht. apply list_elem_of_fmap in Ht as (j & -> & Hj). clear -IH Hwf Hj.
    cbn [json_wf] in Hwf. induction IH as [|x l Hx _ IHl]; [set_solver|]. destruct Hwf as [H1 H2].
    apply elem_of_cons in Hj as [->|Hj]; [by apply Hx|by apply IHl].
  - rewrite not_elem_of_cons, not_elem_of_app, list_elem_of_singleton.
    split; [done|]. split; [|done]. apply join_no_nl; [vm_compute; set_solver|].
    intros t Ht. apply list_elem_of_fmap in Ht as ([k v] & -> & Hj).
    destruct Hwf as [_ Hwf]. clear -IH Hwf Hj.
    induction IH as [|x l Hx _ IHl]; [set_solver|]. destruct Hwf as [[Hk H1] H2].
    apply elem_of_cons in Hj as [<-|Hj]; [|by apply IHl].
    rewrite not_elem_of_app, not_elem_of_cons. split; [by apply quote_no_nl|].
    split; [done|]. by apply Hx.
Qed.

(** What is written for one value has no unpaired surrogate. *)
Lemma isWellFormed_app a b : isWellFormed a = true → isWellFormed b = true → isWellFormed (a ++ b) = true.
Proof.
  remember (length a) as n eqn:Hn. revert a Hn.
  induction n as [n IH] using lt_wf_ind. intros [|c a] -> Ha Hb; [done|]. cbn in Ha |- *.
  destruct (is_high c).
  - destruct a as [|d a]; [done|]. apply andb_true_iff in Ha as [Hd Ha]. cbn [app]. apply andb_true_iff.
    split; [done|]. apply (IH (length a)); cbn; [lia|done..].
  - apply andb_true_iff in Ha as [Hd Ha]. apply andb_true_iff. split; [done|].
    apply (IH (length a)); cbn; [lia|done..].
Qed.

(** A unit that is no surrogate. *)
Definition plain_unit (c : N) : bool := negb (is_high c) && negb (is_low c).
Lemma plain_wf s : forallb plain_unit s = true → isWellFormed s = true.
Proof.
  induction s as [|c s IH]; [done|]. cbn. unfold plain_unit at 1. rewrite !andb_true_iff, !negb_true_iff.
  intros [[-> ->] H]. by apply IH.
Qed.
Lemma small_plain c : (c < 0xd800)%N → plain_unit c = true.
Proof. intros H. unfold plain_unit, is_high, is_low. by rewrite !(proj2 (N.leb_gt _ c)) by lia. Qed.

Lemma hex_digit_small n : (n < 16)%N → (hex_digit n < 0xd800)%N.
Proof. unfold hex_digit. destruct (n <? 10)%N; lia. Qed.

Lemma u_escape_wf c : (c < 65536)%N → isWellFormed (u_escape c) = true.
Proof.
  intros Hc. apply plain_wf. unfold u_escape. cbn [forallb]. rewrite !small_plain; try done; apply hex_digit_small;
    first [by apply N.Div0.div_lt_upper_bound | by apply N.mod_lt].
Qed.

Lemma quote_unit_wf c : (c < 65536)%N → is_high c = false → is_low c = false → isWellFormed (quote_unit c) = true.
Proof.
  intros Hc Hh Hl. unfold quote_unit.
  repeat match goal with |- context [(c =? ?n)%N] => destruct (N.eqb_spec c n); [by vm_compute|] end.
  destruct (c <? 32)%N; [by apply u_escape_wf|]. cbn. by rewrite Hh, Hl.
Qed.

Lemma quote_body_wf s : js_wf s → isWellFormed (quote_body s) = true.
Proof.
  remember (length s) as n eqn:Hn. revert s Hn.
  induction n as [n IH] using lt_wf_ind. intros [|c s] -> Hwf; [done|].
  apply Forall_cons in Hwf as [Hc Hs].
  assert (isWellFormed (quote_body s) = true) as Hrest by (apply (IH (length s)); simpl; [lia|done..]).
  cbn [quote_body]. destruct (is_high c) eqn:Hh.
  - destruct s as [|d s]; [by apply u_escape_wf|].
    destruct (is_low d) eqn:Hl; [|apply isWellFormed_app; [by apply u_escape_wf|done]].
    apply Forall_cons in Hs as [_ Hs]. cbn [isWellFormed]. rewrite Hh. apply andb_true_iff. split; [done|].
    apply (IH (length s)); simpl; [lia|done..].
  - destruct (is_low c) eqn:Hl; (apply isWellFormed_app; [|done]); [by apply u_escape_wf|by apply quote_unit_wf].
Qed.

Lemma quote_wf s : js_wf s → isWellFormed (quote s) = true.
Proof.
  intros H. unfold quote. apply (isWellFormed_app [34%N]); [done|]. apply isWellFormed_app; [by apply quote_body_wf|done].
Qed.

Lemma join_wf sep ls : isWellFormed sep = true → (∀ l, l ∈ ls → isWellFormed l = true) → isWellFormed (join sep ls) = true.
Proof.
  intros Hs Hl. induction ls as [|l ls IH]; [done|].
  destruct ls as [|k ks]; [apply Hl; set_solver|].
  rewrite join_cons by done. repeat apply isWellFormed_app; [apply Hl; set_solver|done|apply IH; set_solver].
Qed.

Lemma digits_wf fuel z : (0 <= z)%Z → isWellFormed (digits_of fuel z) = true.
Proof.
  intros Hz. apply plain_wf, forallb_forall. intros c Hc%list_elem_of_In.
  apply digits_of_digits in Hc; [|done]. apply small_plain. unfold is_digit in Hc.
  rewrite andb_true_iff, !N.leb_le in Hc. lia.
Qed.

Lemma stringify_wf j : json_wf j → isWellFormed (stringify j) = true.
Proof.
  induction j as [|b|z|s|l IH|l IH] using json_induction; intros Hwf; cbn [stringify].
  - done.
  - by destruct b.
  - unfold dec. destruct (Z.ltb_spec z 0); [apply (isWellFormed_app [45%N]); [done|]|]; apply digits_wf; lia.
  - by apply quote_wf.
  - apply (isWellFormed_app [91%N]); [done|]. apply isWellFormed_app; [|done]. apply join_wf; [done|].
    intros t Ht. apply list_elem_of_fmap in Ht as (j & -> & Hj). clear -IH Hwf Hj.
    cbn [json_wf] in Hwf. induction IH as [|x l Hx _ IHl]; [set_solver|]. destruct Hwf as [H1 H2].
    apply elem_of_cons in Hj as [->|Hj]; [by apply Hx|by apply IHl].
  - apply (isWellFormed_app [123%N]); [done|]. apply isWellFormed_app; [|done]. apply join_wf; [done|].
    intros t Ht. apply list_elem_of_fmap in Ht as ([k v] & -> & Hj).
    destruct Hwf as [_ Hwf]. clear -IH Hwf Hj.
    induction IH as [|x l Hx _ IHl]; [set_solver|]. destruct Hwf as [[Hk H1] H2].
    apply elem_of_cons in Hj as [<-|Hj]; [|by apply IHl].
    apply isWellFormed_app; [by apply quote_wf|]. apply (isWellFormed_app [58%N]); [done|]. by apply Hx.
Qed.

Lemma line_wf j : json_wf j → isWellFormed (stringify j ++ [NL]) = true.
Proof. intros H. apply isWellFormed_app; [by apply stringify_wf|done]. Qed.

Definition file_text (values : list json) : jstr := concat (map (λ j, stringify j ++ [NL]) values).

Lemma split_file_text js :
  Forall json_wf js → split_on NL (file_text js) = map stringify js ++ [[]].
Proof.
  induction 1 as [|j js Hj _ IH]; [done|]. unfold file_text. cbn [map concat].
  rewrite <- (assoc_L (++)). cbn [app]. rewrite split_on_app by by apply stringify_no_nl.
  by fold (file_text js); rewrite IH.
Qed.

Lemma object_line_kept l : truthy (trim (stringify (JObj l))) = true.
Proof. apply trim_keeps. exists 123%N. split; [left|done]. Qed.

Lemma array_line_kept l : truthy (trim (stringify (JArr l))) = true.
Proof. apply trim_keeps. exists 91%N. split; [left|done]. Qed.

Lemma content_lines_text js :
  Forall (λ j, json_wf j ∧ isRecord j = true) js →
  content_lines (file_text js) = map stringify js.
Proof.
  intros Hj. unfold content_lines. rewrite split_file_text by (eapply Forall_impl; [done|naive_solver]).
  rewrite filter_app. rewrite (filter_cons_False _ []) by done. rewrite filter_nil, app_nil_r.
  induction Hj as [|j js [_ Hr] _ IH]; [done|]. cbn [map].
  rewrite filter_cons_True; [by rewrite IH|].
  destruct j; try done; [apply array_line_kept|apply object_line_kept].
Qed.

Lemma entry_ok_record e : entry_ok e → json_wf e ∧ isRecord e = true.
Proof.
  intros [H Hw]. split; [done|]. specialize (H 0). unfold check_entry in H.
  by destruct (isRecord e).
Qed.

Lemma parse_lines_text n es :
  Forall entry_ok es → parse_lines n (map stringify es) = Ok es.
Proof.
  intros He. revert n. induction He as [|e es [Hc Hw] _ IH]; intros n; [done|]. cbn [map parse_lines].
  unfold parseEntryLine. rewrite json_roundtrip_value by done. rewrite Hc. simpl. by rewrite IH.
Qed.

Lemma header_roundtrip h : header_ok h → parseHeaderLine (stringify (header_json h)) = Ok h.
Proof.
  intros [Ht Hw]. rewrite !andb_true_iff in Ht. destruct Ht as [[H1 H2] H3].
  unfold parseHeaderLine. rewrite json_roundtrip_value by done.
  destruct h as [id ts cwd [p|]]; simpl in *; unfold has_text, str_member, entry_type, entry_id, str_member; simpl;
    by rewrite H1, H2, H3.
Qed.

Lemma throw_ok {A} (a : A) m : getFileSystemResultOrThrow (Ok a) m = Ok a.
Proof. done. Qed.
Lemma throw_err {A} e m : ∃ e', getFileSystemResultOrThrow (Err e : result FileError A) m = Err e'.
Proof. unfold getFileSystemResultOrThrow. destruct (fe_code e); by eexists. Qed.

Definition json_leaf_of (es : list json) : option jstr :=
  fold_left (λ _ e, json_leafIdAfterEntry e) es None.

Section files.
Context {F : Type} `{FileSystemLaws F}.

(** The file holds the header and the entries, and the storage is what they
    determine. *)
Definition mirrors (path : jstr) (h : SessionHeader) (s : JsonlSessionStorage * F) : Prop :=
  ∃ es, Forall entry_ok es
    ∧ fs_readTextFile path s.2 = Ok (file_text (header_json h :: es))
    ∧ s.1 = newJsonlSessionStorage path h es (json_leaf_of es).

Lemma file_text_snoc js j : file_text (js ++ [j]) = file_text js ++ stringify j ++ [NL].
Proof. unfold file_text. rewrite map_app, concat_app. simpl. by rewrite app_nil_r. Qed.

Lemma storage_snoc path h es e :
  {| jl_filePath := path; jl_metadata := headerToSessionMetadata h path; jl_entries := es ++ [e];
     jl_byId := <[entry_id e := e]> (json_index es);
     jl_labelsById := json_updateLabelCache (json_buildLabelsById es) e;
     jl_currentLeafId := json_leafIdAfterEntry e |}
  = newJsonlSessionStorage path h (es ++ [e]) (json_leaf_of (es ++ [e])).
Proof.
  unfold newJsonlSessionStorage, json_index, json_buildLabelsById, json_leaf_of.
  by rewrite !fold_left_app.
Qed.

(** The append of a line, and what follows of it in memory. *)
Lemma line_appended path h es e fs r fs' :
  Forall entry_ok es → entry_ok e → no_torn_line path e fs →
  fs_readTextFile path fs = Ok (file_text (header_json h :: es)) →
  fs_appendFile path (stringify e ++ [NL]) fs = (r, fs') →
  fs_readTextFile path fs' = Ok (file_text (header_json h :: match r with Ok _ => es ++ [e] | Err _ => es end)).
Proof.
  intros Hes He Hn Hfile Ha. unfold no_torn_line in Hn. rewrite Ha in Hn. destruct r as [[]|err]; [|by rewrite Hn].
  rewrite (fs_append_read _ _ _ _ _ (line_wf _ (proj2 He)) Hfile Ha). by rewrite (app_comm_cons es), file_text_snoc.
Qed.

Lemma append_mirrors path h e s :
  entry_ok e → no_torn_line (jl_filePath s.1) e s.2 → mirrors path h s → mirrors path h (jsonl_appendEntry e s).2.
Proof.
  intros He Hn (es & Hes & Hfile & Hst). destruct s as [st fs]. cbn [fst snd] in *.
  unfold jsonl_appendEntry. assert (jl_filePath st = path) as Hp by by rewrite Hst. rewrite Hp in *.
  destruct (fs_appendFile path (stringify e ++ [NL]) fs) as [[[]|err] fs'] eqn:Ha;
    apply (line_appended _ _ _ _ _ _ _ Hes He Hn Hfile) in Ha.
  - rewrite throw_ok. exists (es ++ [e]). split; [by apply Forall_app_2; [|by constructor]|]. split; [done|].
    rewrite <- storage_snoc, Hst. done.
  - destruct (throw_err (A := unit) err (js "Failed to append session entry " ++ entry_id e)) as [e' ->].
    by exists es.
Qed.

Lemma leaf_json_facts (id : jstr) (p : option jstr) (ts : jstr) (t : option jstr) (m : gmap jstr jstr) :
  json_leafIdAfterEntry (leaf_json id p ts t) = t
  ∧ json_updateLabelCache m (leaf_json id p ts t) = m.
Proof.
  split; [|done]. unfold json_leafIdAfterEntry, str_member. simpl. by destruct t.
Qed.

Lemma setLeaf_mirrors path h uuid ts id s :
  match op_entry (JSetLeaf uuid ts id) s.1 with
  | Some e => entry_ok e ∧ no_torn_line (jl_filePath s.1) e s.2 | None => True end →
  mirrors path h s → mirrors path h (jsonl_setLeafId uuid ts id s).2.
Proof.
  intros He Hm. destruct s as [st fs]. unfold jsonl_setLeafId, op_entry in *. cbn [fst snd] in He.
  destruct (match id with Some _ => _ | None => _ end); [done|]. destruct He as [He Hn].
  destruct Hm as (es & Hes & Hfile & Hst). cbn [fst snd] in *.
  assert (jl_filePath st = path) as Hp by by rewrite Hst. rewrite Hp in *.
  destruct (leaf_json_facts (json_generateEntryId uuid (jl_byId st)) (jl_currentLeafId st) ts id
              (json_buildLabelsById es)) as [Hleaf Hlab].
  set (e := leaf_json _ _ ts id) in *.
  destruct (fs_appendFile path (stringify e ++ [NL]) fs) as [[[]|err] fs'] eqn:Ha;
    apply (line_appended _ _ _ _ _ _ _ Hes He Hn Hfile) in Ha.
  - rewrite throw_ok. exists (es ++ [e]). split; [by apply Forall_app_2; [|by constructor]|]. split; [done|].
    rewrite <- storage_snoc, Hleaf, Hlab, Hst. done.
  - destruct (throw_err (A := unit) err (js "Failed to append session leaf " ++ entry_id e)) as [e' ->].
    by exists es.
Qed.

Lemma run_mirrors path h ops s :
  jsonl_run_ok ops s → mirrors path h s → mirrors path h (run_jsonl ops s).
Proof.
  revert s. induction ops as [|op ops IH]; intros s Hops Hm; [done|].
  destruct Hops as [Hop Hops]. apply IH; [done|].
  destruct op; [by apply append_mirrors; [apply Hop..|]|by apply setLeaf_mirrors].
Qed.

Lemma mirrors_open path h s : header_ok h → mirrors path h s → jsonl_open path s.2 = Ok s.1.
Proof.
  intros Hh (es & Hes & Hfile & ->). unfold jsonl_open, loadJsonlStorage. rewrite Hfile, throw_ok.
  unfold mbind, result_bind.
  rewrite content_lines_text.
  2:{ constructor; [split; [apply Hh|done]|]. eapply Forall_impl; [done|apply entry_ok_record]. }
  cbn [map]. rewrite header_roundtrip, parse_lines_text by done. done.
Qed.

(** C10: A session file can be reopened at any time. After creating a session
    and any sequence of appends and leaf moves, one after another, opening the file
    gives exactly the storage in memory: metadata, entries, index, labels and active
    leaf. Appends of the file system may fail, as long as none that fails has written
    part of its line; of a file system it is only used that it holds what it wrote.
    (A torn line makes the session unreadable: [torn_line_loses_session].) *)
Theorem jsonl_reopen path h fs st fs' ops :
  header_ok h → jsonl_create path h fs = (Ok st, fs') → jsonl_run_ok ops (st, fs') →
  jsonl_open path (run_jsonl ops (st, fs')).2 = Ok (run_jsonl ops (st, fs')).1.
Proof.
  intros Hh Hc Hops. apply (mirrors_open path h); [done|]. apply run_mirrors; [done|].
  unfold jsonl_create in Hc.
  destruct (fs_writeFile path (stringify (header_json h) ++ [NL]) fs) as [[[]|e] f] eqn:Hw.
  2:{ destruct (throw_err (A := unit) e (js "Failed to create session " ++ path)) as [e' He].
      by rewrite He in Hc. }
  rewrite throw_ok in Hc. injection Hc as <- <-. exists []. split; [constructor|]. split; [|done]. simpl.
  rewrite (fs_write_read _ _ _ _ (line_wf _ (proj2 Hh)) Hw). unfold file_text. simpl. by rewrite app_nil_r.
Qed.
End files.

#[export] Instance MapFs_laws : FileSystemLaws MapFs.
Proof.
  split; simpl.
  - intros path s f f' _. case_bool_decide; [done|]. intros [= <-]. simpl. by rewrite lookup_insert_eq.
  - intros path s t f f' _ Ht. case_bool_decide; [done|]. case_bool_decide; [done|]. intros [= <-]. simpl.
    rewrite lookup_insert_eq. destruct (mf_files f !! path); [|done]. by injection Ht as ->.
Defined.

(** ** Witness *)

Definition demo_header : SessionHeader :=
  {| sh_id := js "s"; sh_timestamp := js "now"; sh_cwd := js "/"; sh_parentSession := None |}.
Definition demo_label : json :=
  JObj [(js "type", JStr (js "label")); (js "id", JStr (js "a")); (js "parentId", JNull);
        (js "timestamp", JStr (js "now")); (js "targetId", JStr (js "a"));
        (js "label", JStr (js "first line
second"))].
Definition demo_fs : MapFs := {| mf_files := ∅; mf_readonly := []; mf_full := [] |}.
Definition demo_jsonl : JsonlSessionStorage * MapFs :=
  match jsonl_create (js "f") demo_header demo_fs with
  | (Ok st, fs) => (st, fs)
  | (Err _, fs) => (newJsonlSessionStorage [] demo_header [] None, fs)
  end.
Definition demo_jsonl_ops : list JsonlOp :=
  [JAppend demo_label; JSetLeaf (λ _, js "b") (js "now") (Some (js "a")); JSetLeaf (λ _, js "c") (js "now") (Some (js "x"))].

Lemma jsonl_reopen_witness :
  jsonl_open (js "f") (run_jsonl demo_jsonl_ops demo_jsonl).2
  = Ok (run_jsonl demo_jsonl_ops demo_jsonl).1.
Proof.
  apply (jsonl_reopen (js "f") demo_header demo_fs demo_jsonl.1 demo_jsonl.2 demo_jsonl_ops).
  - split; [reflexivity|]. apply json_wfb_sound. vm_compute. reflexivity.
  - vm_compute. reflexivity.
  - split; [split; [|exact I]|split; [split; [|exact I]|split; [exact I|exact I]]];
      (split; [intros n; reflexivity|]); apply json_wfb_sound; vm_compute; reflexivity.
Defined.

(** ** Where the code falls short *)

(** An append that fails half way leaves its part of the line; the next line is added to
    it, and the session cannot be opened any more. *)
Definition torn_fs : MapFs := {| mf_files := mf_files demo_jsonl.2; mf_readonly := []; mf_full := [js "f"] |}.
Lemma torn_line_loses_session :
  let s := run_jsonl [JAppend demo_label] (demo_jsonl.1, torn_fs) in
  let s' := run_jsonl [JAppend demo_label] (s.1, {| mf_files := mf_files s.2; mf_readonly := []; mf_full := [] |}) in
  length (jl_entries s.1) = 0 ∧ length (jl_entries s'.1) = 1
  ∧ jsonl_open (js "f") s.2 = Err (InvalidEntry 2 (js "is not valid JSON"))
  ∧ jsonl_open (js "f") s'.2 = Err (InvalidEntry 2 (js "is not valid JSON")).
Proof. vm_compute. auto. Qed.
