(* ===== verification/Checkpoint.v ===== *)
(** * Session checkpoints

    packages/shared/src/checkpoint.ts and the [SessionCheckpointV2] schema of
    packages/shared/src/durable-context.ts: parsing, the overlay of
    deterministic evidence, merging a segment into the rolling checkpoint,
    rebasing and the byte bound. Timestamps are the strings the schema stores;
    [is_datetime] is the zod check of one. *)

From S2P Require Import Prelude JsMap JsString Json.
From Stdlib Require Import Lia.

Set Default Goal Selector "!".

(** ** Data *)

Inductive CommandStatus := CmdPassed | CmdFailed | CmdRunning | CmdUnknown.
Inductive RetryClass := ReadOnly | Idempotent | IdempotentWithKey | NonIdempotentManual.
Inductive Outcome := OutCompleted | OutFailed | OutDenied | OutPending | OutAmbiguous.
Inductive ApprovalStatus := ApRequested | ApApproved | ApDenied | ApExpired | ApPending.

Definition command_status_name (s : CommandStatus) : jstr :=
  match s with
  | CmdPassed => js "passed" | CmdFailed => js "failed" | CmdRunning => js "running"
  | CmdUnknown => js "unknown"
  end.
Definition retry_class_name (r : RetryClass) : jstr :=
  match r with
  | ReadOnly => js "read_only" | Idempotent => js "idempotent"
  | IdempotentWithKey => js "idempotent_with_key"
  | NonIdempotentManual => js "non_idempotent_manual"
  end.
Definition outcome_name (o : Outcome) : jstr :=
  match o with
  | OutCompleted => js "completed" | OutFailed => js "failed" | OutDenied => js "denied"
  | OutPending => js "pending" | OutAmbiguous => js "ambiguous"
  end.
Definition approval_status_name (a : ApprovalStatus) : jstr :=
  match a with
  | ApRequested => js "requested" | ApApproved => js "approved" | ApDenied => js "denied"
  | ApExpired => js "expired" | ApPending => js "pending"
  end.

Record CheckpointSource := { dc_entryId : jstr; dc_detail : jstr }.
Record Artifact := { ar_id : jstr; ar_path : option jstr; ar_label : jstr }.
Record Command := { cm_command : jstr; cm_status : CommandStatus; cm_result : jstr }.
Record ToolCall := {
  tc_toolCallId : jstr; tc_toolName : jstr; tc_retryClass : RetryClass;
  tc_idempotencyKey : option jstr; tc_outcome : Outcome;
}.
Record Approval := { ap_approvalId : jstr; ap_status : ApprovalStatus }.

Record SessionCheckpointV2 := {
  cp_generatedAt : jstr; cp_goal : jstr; cp_successCriteria : list jstr;
  cp_constraints : list jstr; cp_standingInstructions : list jstr; cp_completedWork : list jstr;
  cp_currentWork : list jstr; cp_blockers : list jstr; cp_waitingState : option jstr;
  cp_decisions : list CheckpointSource; cp_unresolvedQuestions : list jstr; cp_nextAction : jstr;
  cp_filesRead : list jstr; cp_filesModified : list jstr; cp_artifacts : list Artifact;
  cp_commands : list Command; cp_toolCalls : list ToolCall; cp_approvals : list Approval;
  cp_promptManifestHash : option jstr; cp_retrievalSnapshotIds : list jstr;
  cp_coveredEntryStart : option jstr; cp_coveredEntryEnd : option jstr;
  cp_currentLeafId : option jstr; cp_narrative : jstr
}.

(** Assignments of one property. *)
Definition set_goal (v : jstr) (c : SessionCheckpointV2) : SessionCheckpointV2 :=
  {|
    cp_generatedAt := cp_generatedAt c; cp_goal := v; cp_successCriteria := cp_successCriteria c;
    cp_constraints := cp_constraints c; cp_standingInstructions := cp_standingInstructions c;
    cp_completedWork := cp_completedWork c; cp_currentWork := cp_currentWork c;
    cp_blockers := cp_blockers c; cp_waitingState := cp_waitingState c;
    cp_decisions := cp_decisions c; cp_unresolvedQuestions := cp_unresolvedQuestions c;
    cp_nextAction := cp_nextAction c; cp_filesRead := cp_filesRead c;
    cp_filesModified := cp_filesModified c; cp_artifacts := cp_artifacts c;
    cp_commands := cp_commands c; cp_toolCalls := cp_toolCalls c; cp_approvals := cp_approvals c;
    cp_promptManifestHash := cp_promptManifestHash c;
    cp_retrievalSnapshotIds := cp_retrievalSnapshotIds c;
    cp_coveredEntryStart := cp_coveredEntryStart c; cp_coveredEntryEnd := cp_coveredEntryEnd c;
    cp_currentLeafId := cp_currentLeafId c; cp_narrative := cp_narrative c
  |}.
Definition set_successCriteria (v : list jstr) (c : SessionCheckpointV2) : SessionCheckpointV2 :=
  {|
    cp_generatedAt := cp_generatedAt c; cp_goal := cp_goal c; cp_successCriteria := v;
    cp_constraints := cp_constraints c; cp_standingInstructions := cp_standingInstructions c;
    cp_completedWork := cp_completedWork c; cp_currentWork := cp_currentWork c;
    cp_blockers := cp_blockers c; cp_waitingState := cp_waitingState c;
    cp_decisions := cp_decisions c; cp_unresolvedQuestions := cp_unresolvedQuestions c;
    cp_nextAction := cp_nextAction c; cp_filesRead := cp_filesRead c;
    cp_filesModified := cp_filesModified c; cp_artifacts := cp_artifacts c;
    cp_commands := cp_commands c; cp_toolCalls := cp_toolCalls c; cp_approvals := cp_approvals c;
    cp_promptManifestHash := cp_promptManifestHash c;
    cp_retrievalSnapshotIds := cp_retrievalSnapshotIds c;
    cp_coveredEntryStart := cp_coveredEntryStart c; cp_coveredEntryEnd := cp_coveredEntryEnd c;
    cp_currentLeafId := cp_currentLeafId c; cp_narrative := cp_narrative c
  |}.
Definition set_constraints (v : list jstr) (c : SessionCheckpointV2) : SessionCheckpointV2 :=
  {|
    cp_generatedAt := cp_generatedAt c; cp_goal := cp_goal c;
    cp_successCriteria := cp_successCriteria c; cp_constraints := v;
    cp_standingInstructions := cp_standingInstructions c; cp_completedWork := cp_completedWork c;
    cp_currentWork := cp_currentWork c; cp_blockers := cp_blockers c;
    cp_waitingState := cp_waitingState c; cp_decisions := cp_decisions c;
    cp_unresolvedQuestions := cp_unresolvedQuestions c; cp_nextAction := cp_nextAction c;
    cp_filesRead := cp_filesRead c; cp_filesModified := cp_filesModified c;
    cp_artifacts := cp_artifacts c; cp_commands := cp_commands c; cp_toolCalls := cp_toolCalls c;
    cp_approvals := cp_approvals c; cp_promptManifestHash := cp_promptManifestHash c;
    cp_retrievalSnapshotIds := cp_retrievalSnapshotIds c;
    cp_coveredEntryStart := cp_coveredEntryStart c; cp_coveredEntryEnd := cp_coveredEntryEnd c;
    cp_currentLeafId := cp_currentLeafId c; cp_narrative := cp_narrative c
  |}.
Definition set_standingInstructions (v : list jstr) (c : SessionCheckpointV2) : SessionCheckpointV2 :=
  {|
    cp_generatedAt := cp_generatedAt c; cp_goal := cp_goal c;
    cp_successCriteria := cp_successCriteria c; cp_constraints := cp_constraints c;
    cp_standingInstructions := v; cp_completedWork := cp_completedWork c;
    cp_currentWork := cp_currentWork c; cp_blockers := cp_blockers c;
    cp_waitingState := cp_waitingState c; cp_decisions := cp_decisions c;
    cp_unresolvedQuestions := cp_unresolvedQuestions c; cp_nextAction := cp_nextAction c;
    cp_filesRead := cp_filesRead c; cp_filesModified := cp_filesModified c;
    cp_artifacts := cp_artifacts c; cp_commands := cp_commands c; cp_toolCalls := cp_toolCalls c;
    cp_approvals := cp_approvals c; cp_promptManifestHash := cp_promptManifestHash c;
    cp_retrievalSnapshotIds := cp_retrievalSnapshotIds c;
    cp_coveredEntryStart := cp_coveredEntryStart c; cp_coveredEntryEnd := cp_coveredEntryEnd c;
    cp_currentLeafId := cp_currentLeafId c; cp_narrative := cp_narrative c
  |}.
Definition set_completedWork (v : list jstr) (c : SessionCheckpointV2) : SessionCheckpointV2 :=
  {|
    cp_generatedAt := cp_generatedAt c; cp_goal := cp_goal c;
    cp_successCriteria := cp_successCriteria c; cp_constraints := cp_constraints c;
    cp_standingInstructions := cp_standingInstructions c; cp_completedWork := v;
    cp_currentWork := cp_currentWork c; cp_blockers := cp_blockers c;
    cp_waitingState := cp_waitingState c; cp_decisions := cp_decisions c;
    cp_unresolvedQuestions := cp_unresolvedQuestions c; cp_nextAction := cp_nextAction c;
    cp_filesRead := cp_filesRead c; cp_filesModified := cp_filesModified c;
    cp_artifacts := cp_artifacts c; cp_commands := cp_commands c; cp_toolCalls := cp_toolCalls c;
    cp_approvals := cp_approvals c; cp_promptManifestHash := cp_promptManifestHash c;
    cp_retrievalSnapshotIds := cp_retrievalSnapshotIds c;
    cp_coveredEntryStart := cp_coveredEntryStart c; cp_coveredEntryEnd := cp_coveredEntryEnd c;
    cp_currentLeafId := cp_currentLeafId c; cp_narrative := cp_narrative c
  |}.
Definition set_decisions (v : list CheckpointSource) (c : SessionCheckpointV2) : SessionCheckpointV2 :=
  {|
    cp_generatedAt := cp_generatedAt c; cp_goal := cp_goal c;
    cp_successCriteria := cp_successCriteria c; cp_constraints := cp_constraints c;
    cp_standingInstructions := cp_standingInstructions c; cp_completedWork := cp_completedWork c;
    cp_currentWork := cp_currentWork c; cp_blockers := cp_blockers c;
    cp_waitingState := cp_waitingState c; cp_decisions := v;
    cp_unresolvedQuestions := cp_unresolvedQuestions c; cp_nextAction := cp_nextAction c;
    cp_filesRead := cp_filesRead c; cp_filesModified := cp_filesModified c;
    cp_artifacts := cp_artifacts c; cp_commands := cp_commands c; cp_toolCalls := cp_toolCalls c;
    cp_approvals := cp_approvals c; cp_promptManifestHash := cp_promptManifestHash c;
    cp_retrievalSnapshotIds := cp_retrievalSnapshotIds c;
    cp_coveredEntryStart := cp_coveredEntryStart c; cp_coveredEntryEnd := cp_coveredEntryEnd c;
    cp_currentLeafId := cp_currentLeafId c; cp_narrative := cp_narrative c
  |}.
Definition set_nextAction (v : jstr) (c : SessionCheckpointV2) : SessionCheckpointV2 :=
  {|
    cp_generatedAt := cp_generatedAt c; cp_goal := cp_goal c;
    cp_successCriteria := cp_successCriteria c; cp_constraints := cp_constraints c;
    cp_standingInstructions := cp_standingInstructions c; cp_completedWork := cp_completedWork c;
    cp_currentWork := cp_currentWork c; cp_blockers := cp_blockers c;
    cp_waitingState := cp_waitingState c; cp_decisions := cp_decisions c;
    cp_unresolvedQuestions := cp_unresolvedQuestions c; cp_nextAction := v;
    cp_filesRead := cp_filesRead c; cp_filesModified := cp_filesModified c;
    cp_artifacts := cp_artifacts c; cp_commands := cp_commands c; cp_toolCalls := cp_toolCalls c;
    cp_approvals := cp_approvals c; cp_promptManifestHash := cp_promptManifestHash c;
    cp_retrievalSnapshotIds := cp_retrievalSnapshotIds c;
    cp_coveredEntryStart := cp_coveredEntryStart c; cp_coveredEntryEnd := cp_coveredEntryEnd c;
    cp_currentLeafId := cp_currentLeafId c; cp_narrative := cp_narrative c
  |}.
Definition set_filesRead (v : list jstr) (c : SessionCheckpointV2) : SessionCheckpointV2 :=
  {|
    cp_generatedAt := cp_generatedAt c; cp_goal := cp_goal c;
    cp_successCriteria := cp_successCriteria c; cp_constraints := cp_constraints c;
    cp_standingInstructions := cp_standingInstructions c; cp_completedWork := cp_completedWork c;
    cp_currentWork := cp_currentWork c; cp_blockers := cp_blockers c;
    cp_waitingState := cp_waitingState c; cp_decisions := cp_decisions c;
    cp_unresolvedQuestions := cp_unresolvedQuestions c; cp_nextAction := cp_nextAction c;
    cp_filesRead := v; cp_filesModified := cp_filesModified c; cp_artifacts := cp_artifacts c;
    cp_commands := cp_commands c; cp_toolCalls := cp_toolCalls c; cp_approvals := cp_approvals c;
    cp_promptManifestHash := cp_promptManifestHash c;
    cp_retrievalSnapshotIds := cp_retrievalSnapshotIds c;
    cp_coveredEntryStart := cp_coveredEntryStart c; cp_coveredEntryEnd := cp_coveredEntryEnd c;
    cp_currentLeafId := cp_currentLeafId c; cp_narrative := cp_narrative c
  |}.
Definition set_filesModified (v : list jstr) (c : SessionCheckpointV2) : SessionCheckpointV2 :=
  {|
    cp_generatedAt := cp_generatedAt c; cp_goal := cp_goal c;
    cp_successCriteria := cp_successCriteria c; cp_constraints := cp_constraints c;
    cp_standingInstructions := cp_standingInstructions c; cp_completedWork := cp_completedWork c;
    cp_currentWork := cp_currentWork c; cp_blockers := cp_blockers c;
    cp_waitingState := cp_waitingState c; cp_decisions := cp_decisions c;
    cp_unresolvedQuestions := cp_unresolvedQuestions c; cp_nextAction := cp_nextAction c;
    cp_filesRead := cp_filesRead c; cp_filesModified := v; cp_artifacts := cp_artifacts c;
    cp_commands := cp_commands c; cp_toolCalls := cp_toolCalls c; cp_approvals := cp_approvals c;
    cp_promptManifestHash := cp_promptManifestHash c;
    cp_retrievalSnapshotIds := cp_retrievalSnapshotIds c;
    cp_coveredEntryStart := cp_coveredEntryStart c; cp_coveredEntryEnd := cp_coveredEntryEnd c;
    cp_currentLeafId := cp_currentLeafId c; cp_narrative := cp_narrative c
  |}.
Definition set_artifacts (v : list Artifact) (c : SessionCheckpointV2) : SessionCheckpointV2 :=
  {|
    cp_generatedAt := cp_generatedAt c; cp_goal := cp_goal c;
    cp_successCriteria := cp_successCriteria c; cp_constraints := cp_constraints c;
    cp_standingInstructions := cp_standingInstructions c; cp_completedWork := cp_completedWork c;
    cp_currentWork := cp_currentWork c; cp_blockers := cp_blockers c;
    cp_waitingState := cp_waitingState c; cp_decisions := cp_decisions c;
    cp_unresolvedQuestions := cp_unresolvedQuestions c; cp_nextAction := cp_nextAction c;
    cp_filesRead := cp_filesRead c; cp_filesModified := cp_filesModified c; cp_artifacts := v;
    cp_commands := cp_commands c; cp_toolCalls := cp_toolCalls c; cp_approvals := cp_approvals c;
    cp_promptManifestHash := cp_promptManifestHash c;
    cp_retrievalSnapshotIds := cp_retrievalSnapshotIds c;
    cp_coveredEntryStart := cp_coveredEntryStart c; cp_coveredEntryEnd := cp_coveredEntryEnd c;
    cp_currentLeafId := cp_currentLeafId c; cp_narrative := cp_narrative c
  |}.
Definition set_commands (v : list Command) (c : SessionCheckpointV2) : SessionCheckpointV2 :=
  {|
    cp_generatedAt := cp_generatedAt c; cp_goal := cp_goal c;
    cp_successCriteria := cp_successCriteria c; cp_constraints := cp_constraints c;
    cp_standingInstructions := cp_standingInstructions c; cp_completedWork := cp_completedWork c;
    cp_currentWork := cp_currentWork c; cp_blockers := cp_blockers c;
    cp_waitingState := cp_waitingState c; cp_decisions := cp_decisions c;
    cp_unresolvedQuestions := cp_unresolvedQuestions c; cp_nextAction := cp_nextAction c;
    cp_filesRead := cp_filesRead c; cp_filesModified := cp_filesModified c;
    cp_artifacts := cp_artifacts c; cp_commands := v; cp_toolCalls := cp_toolCalls c;
    cp_approvals := cp_approvals c; cp_promptManifestHash := cp_promptManifestHash c;
    cp_retrievalSnapshotIds := cp_retrievalSnapshotIds c;
    cp_coveredEntryStart := cp_coveredEntryStart c; cp_coveredEntryEnd := cp_coveredEntryEnd c;
    cp_currentLeafId := cp_currentLeafId c; cp_narrative := cp_narrative c
  |}.
Definition set_toolCalls (v : list ToolCall) (c : SessionCheckpointV2) : SessionCheckpointV2 :=
  {|
    cp_generatedAt := cp_generatedAt c; cp_goal := cp_goal c;
    cp_successCriteria := cp_successCriteria c; cp_constraints := cp_constraints c;
    cp_standingInstructions := cp_standingInstructions c; cp_completedWork := cp_completedWork c;
    cp_currentWork := cp_currentWork c; cp_blockers := cp_blockers c;
    cp_waitingState := cp_waitingState c; cp_decisions := cp_decisions c;
    cp_unresolvedQuestions := cp_unresolvedQuestions c; cp_nextAction := cp_nextAction c;
    cp_filesRead := cp_filesRead c; cp_filesModified := cp_filesModified c;
    cp_artifacts := cp_artifacts c; cp_commands := cp_commands c; cp_toolCalls := v;
    cp_approvals := cp_approvals c; cp_promptManifestHash := cp_promptManifestHash c;
    cp_retrievalSnapshotIds := cp_retrievalSnapshotIds c;
    cp_coveredEntryStart := cp_coveredEntryStart c; cp_coveredEntryEnd := cp_coveredEntryEnd c;
    cp_currentLeafId := cp_currentLeafId c; cp_narrative := cp_narrative c
  |}.
Definition set_approvals (v : list Approval) (c : SessionCheckpointV2) : SessionCheckpointV2 :=
  {|
    cp_generatedAt := cp_generatedAt c; cp_goal := cp_goal c;
    cp_successCriteria := cp_successCriteria c; cp_constraints := cp_constraints c;
    cp_standingInstructions := cp_standingInstructions c; cp_completedWork := cp_completedWork c;
    cp_currentWork := cp_currentWork c; cp_blockers := cp_blockers c;
    cp_waitingState := cp_waitingState c; cp_decisions := cp_decisions c;
    cp_unresolvedQuestions := cp_unresolvedQuestions c; cp_nextAction := cp_nextAction c;
    cp_filesRead := cp_filesRead c; cp_filesModified := cp_filesModified c;
    cp_artifacts := cp_artifacts c; cp_commands := cp_commands c; cp_toolCalls := cp_toolCalls c;
    cp_approvals := v; cp_promptManifestHash := cp_promptManifestHash c;
    cp_retrievalSnapshotIds := cp_retrievalSnapshotIds c;
    cp_coveredEntryStart := cp_coveredEntryStart c; cp_coveredEntryEnd := cp_coveredEntryEnd c;
    cp_currentLeafId := cp_currentLeafId c; cp_narrative := cp_narrative c
  |}.
Definition set_retrievalSnapshotIds (v : list jstr) (c : SessionCheckpointV2) : SessionCheckpointV2 :=
  {|
    cp_generatedAt := cp_generatedAt c; cp_goal := cp_goal c;
    cp_successCriteria := cp_successCriteria c; cp_constraints := cp_constraints c;
    cp_standingInstructions := cp_standingInstructions c; cp_completedWork := cp_completedWork c;
    cp_currentWork := cp_currentWork c; cp_blockers := cp_blockers c;
    cp_waitingState := cp_waitingState c; cp_decisions := cp_decisions c;
    cp_unresolvedQuestions := cp_unresolvedQuestions c; cp_nextAction := cp_nextAction c;
    cp_filesRead := cp_filesRead c; cp_filesModified := cp_filesModified c;
    cp_artifacts := cp_artifacts c; cp_commands := cp_commands c; cp_toolCalls := cp_toolCalls c;
    cp_approvals := cp_approvals c; cp_promptManifestHash := cp_promptManifestHash c;
    cp_retrievalSnapshotIds := v; cp_coveredEntryStart := cp_coveredEntryStart c;
    cp_coveredEntryEnd := cp_coveredEntryEnd c; cp_currentLeafId := cp_currentLeafId c;
    cp_narrative := cp_narrative c
  |}.
Definition set_narrative (v : jstr) (c : SessionCheckpointV2) : SessionCheckpointV2 :=
  {|
    cp_generatedAt := cp_generatedAt c; cp_goal := cp_goal c;
    cp_successCriteria := cp_successCriteria c; cp_constraints := cp_constraints c;
    cp_standingInstructions := cp_standingInstructions c; cp_completedWork := cp_completedWork c;
    cp_currentWork := cp_currentWork c; cp_blockers := cp_blockers c;
    cp_waitingState := cp_waitingState c; cp_decisions := cp_decisions c;
    cp_unresolvedQuestions := cp_unresolvedQuestions c; cp_nextAction := cp_nextAction c;
    cp_filesRead := cp_filesRead c; cp_filesModified := cp_filesModified c;
    cp_artifacts := cp_artifacts c; cp_commands := cp_commands c; cp_toolCalls := cp_toolCalls c;
    cp_approvals := cp_approvals c; cp_promptManifestHash := cp_promptManifestHash c;
    cp_retrievalSnapshotIds := cp_retrievalSnapshotIds c;
    cp_coveredEntryStart := cp_coveredEntryStart c; cp_coveredEntryEnd := cp_coveredEntryEnd c;
    cp_currentLeafId := cp_currentLeafId c; cp_narrative := v
  |}.

(** ** JSON *)

Definition jstrs (l : list jstr) : json := JArr (map JStr l).
Definition jopt (o : option jstr) : json := match o with Some s => JStr s | None => JNull end.

Definition source_json (d : CheckpointSource) : json :=
  JObj [(js "entryId", JStr (dc_entryId d)); (js "detail", JStr (dc_detail d))].
Definition artifact_json (a : Artifact) : json :=
  JObj [(js "id", JStr (ar_id a)); (js "path", jopt (ar_path a)); (js "label", JStr (ar_label a))].
Definition command_json (c : Command) : json :=
  JObj [(js "command", JStr (cm_command c)); (js "status", JStr (command_status_name (cm_status c)));
        (js "result", JStr (cm_result c))].
Definition tool_call_json (t : ToolCall) : json :=
  JObj [(js "toolCallId", JStr (tc_toolCallId t)); (js "toolName", JStr (tc_toolName t));
        (js "retryClass", JStr (retry_class_name (tc_retryClass t)));
        (js "idempotencyKey", jopt (tc_idempotencyKey t));
        (js "outcome", JStr (outcome_name (tc_outcome t)))].
Definition approval_json (a : Approval) : json :=
  JObj [(js "approvalId", JStr (ap_approvalId a)); (js "status", JStr (approval_status_name (ap_status a)))].

(** The members of a parsed checkpoint, in the order of the schema. *)
Definition checkpoint_members (c : SessionCheckpointV2) : list (jstr * json) :=
  [(js "schema", JStr (js "berry.session-checkpoint")); (js "version", JNum 2);
   (js "generatedAt", JStr (cp_generatedAt c)); (js "goal", JStr (cp_goal c));
   (js "successCriteria", jstrs (cp_successCriteria c)); (js "constraints", jstrs (cp_constraints c));
   (js "standingInstructions", jstrs (cp_standingInstructions c));
   (js "completedWork", jstrs (cp_completedWork c)); (js "currentWork", jstrs (cp_currentWork c));
   (js "blockers", jstrs (cp_blockers c)); (js "waitingState", jopt (cp_waitingState c));
   (js "decisions", JArr (map source_json (cp_decisions c)));
   (js "unresolvedQuestions", jstrs (cp_unresolvedQuestions c));
   (js "nextAction", JStr (cp_nextAction c)); (js "filesRead", jstrs (cp_filesRead c));
   (js "filesModified", jstrs (cp_filesModified c));
   (js "artifacts", JArr (map artifact_json (cp_artifacts c)));
   (js "commands", JArr (map command_json (cp_commands c)));
   (js "toolCalls", JArr (map tool_call_json (cp_toolCalls c)));
   (js "approvals", JArr (map approval_json (cp_approvals c)));
   (js "promptManifestHash", jopt (cp_promptManifestHash c));
   (js "retrievalSnapshotIds", jstrs (cp_retrievalSnapshotIds c));
   (js "coveredEntryStart", jopt (cp_coveredEntryStart c));
   (js "coveredEntryEnd", jopt (cp_coveredEntryEnd c));
   (js "currentLeafId", jopt (cp_currentLeafId c)); (js "narrative", JStr (cp_narrative c))].

Definition checkpoint_json (c : SessionCheckpointV2) : json := JObj (checkpoint_members c).

(** *** Reading one, as the schema does: unknown members are dropped, the
    members with a default may be absent. *)

Definition get_str (k : string) (j : json) : option jstr :=
  match member (js k) j with Some (JStr s) => Some s | _ => None end.
Definition get_id (k : string) (j : json) : option jstr :=
  s ← get_str k j; if truthy s then Some s else None.
Definition get_list {A} (item : json → option A) (k : string) (j : json) : option (list A) :=
  match member (js k) j with Some (JArr l) => mapM item l | _ => None end.
Definition item_str (j : json) : option jstr := match j with JStr s => Some s | _ => None end.
Definition item_id (j : json) : option jstr :=
  match j with JStr s => if truthy s then Some s else None | _ => None end.
Definition get_strs (k : string) (j : json) : option (list jstr) := get_list item_str k j.
Definition get_nullable (item : json → option jstr) (k : string) (j : json) : option (option jstr) :=
  match member (js k) j with
  | None | Some JNull => Some None
  | Some v => Some <$> item v
  end.
Definition get_enum {A} (name : A → jstr) (values : list A) (k : string) (j : json) : option A :=
  s ← get_str k j; find_first (λ a, bool_decide (name a = s)) values.

Definition source_of_json (j : json) : option CheckpointSource :=
  id ← get_id "entryId" j; detail ← get_str "detail" j;
  Some {| dc_entryId := id; dc_detail := detail |}.
Definition artifact_of_json (j : json) : option Artifact :=
  id ← get_id "id" j; path ← get_nullable item_str "path" j; label ← get_str "label" j;
  Some {| ar_id := id; ar_path := path; ar_label := label |}.
Definition command_of_json (j : json) : option Command :=
  command ← get_str "command" j;
  status ← get_enum command_status_name [CmdPassed; CmdFailed; CmdRunning; CmdUnknown] "status" j;
  result ← get_str "result" j;
  Some {| cm_command := command; cm_status := status; cm_result := result |}.
Definition tool_call_of_json (j : json) : option ToolCall :=
  id ← get_id "toolCallId" j; name ← get_str "toolName" j;
  retry ← get_enum retry_class_name [ReadOnly; Idempotent; IdempotentWithKey; NonIdempotentManual]
            "retryClass" j;
  key ← get_nullable item_str "idempotencyKey" j;
  outcome ← get_enum outcome_name [OutCompleted; OutFailed; OutDenied; OutPending; OutAmbiguous]
              "outcome" j;
  Some {| tc_toolCallId := id; tc_toolName := name; tc_retryClass := retry;
          tc_idempotencyKey := key; tc_outcome := outcome |}.
Definition approval_of_json (j : json) : option Approval :=
  id ← get_id "approvalId" j;
  status ← get_enum approval_status_name [ApRequested; ApApproved; ApDenied; ApExpired; ApPending]
             "status" j;
  Some {| ap_approvalId := id; ap_status := status |}.

(** What [schema.parse] demands of a value of the type: ids are not empty. The
    timestamp is checked by [is_datetime]. *)
Definition ids_ok (c : SessionCheckpointV2) : bool :=
  forallb (λ d, truthy (dc_entryId d)) (cp_decisions c)
  && forallb (λ a, truthy (ar_id a)) (cp_artifacts c)
  && forallb (λ t, truthy (tc_toolCallId t)) (cp_toolCalls c)
  && forallb (λ a, truthy (ap_approvalId a)) (cp_approvals c)
  && forallb truthy (cp_retrievalSnapshotIds c)
  && forallb (λ o, match o with Some s => truthy s | None => true end)
       [cp_coveredEntryStart c; cp_coveredEntryEnd c; cp_currentLeafId c].

(** ** Lists without repetition and with a limit *)

Definition unique (values : list jstr) : list jstr :=
  set_of_list (filter (λ v, truthy v = true) (map trim values)).

Definition boundedObjects {A} (values : list A) (limit : nat) : list A :=
  if decide (length values <= limit)%nat then values else last_n limit values.

Definition boundedUnique (values : list jstr) (limit : nat) : list jstr :=
  let normalized := unique values in
  if decide (length normalized <= limit)%nat then normalized else last_n limit normalized.

Definition dedupeBy {A} (values : list A) (key : A → jstr) : list A :=
  map_values (map_of_entries (map (λ v, (key v, v)) values)).

Definition mergeToolCalls (earlier later : list ToolCall) : list ToolCall :=
  let byId := fold_left (λ m item, map_set (tc_toolCallId item) item m) earlier [] in
  let byId := fold_left (λ m item, map_set (tc_toolCallId item) item m) later byId in
  boundedObjects (map_values byId) 256.

Definition commandKey (c : Command) : jstr :=
  cm_command c ++ [NUL] ++ command_status_name (cm_status c) ++ [NUL] ++ cm_result c.
Definition checkpointSourceKey (d : CheckpointSource) : jstr := stringify (source_json d).

(** ** Deterministic evidence *)

Record CheckpointDeterministicFields := {
  df_generatedAt : jstr; df_coveredEntryStart : option jstr; df_coveredEntryEnd : option jstr;
  df_currentLeafId : option jstr; df_filesRead : option (list jstr);
  df_filesModified : option (list jstr); df_commands : option (list Command);
  df_toolCalls : option (list ToolCall); df_approvals : option (list Approval);
  df_promptManifestHash : option jstr; df_retrievalSnapshotIds : option (list jstr);
}.

Definition det_start (start : option jstr) (d : CheckpointDeterministicFields)
    : CheckpointDeterministicFields :=
  {| df_generatedAt := df_generatedAt d; df_coveredEntryStart := start;
     df_coveredEntryEnd := df_coveredEntryEnd d; df_currentLeafId := df_currentLeafId d;
     df_filesRead := df_filesRead d; df_filesModified := df_filesModified d;
     df_commands := df_commands d; df_toolCalls := df_toolCalls d; df_approvals := df_approvals d;
     df_promptManifestHash := df_promptManifestHash d;
     df_retrievalSnapshotIds := df_retrievalSnapshotIds d |}.

(** [a ?? b] between two nullable strings. *)
Definition or_else {A} (a b : option A) : option A := match a with Some _ => a | None => b end.

Inductive CheckpointError := CheckpointZodError.

Section checkpoint.
(** The zod datetime check, with an offset allowed. *)
Context (is_datetime : jstr → bool).

Definition schema_check (c : SessionCheckpointV2) : result CheckpointError SessionCheckpointV2 :=
  if ids_ok c && is_datetime (cp_generatedAt c) then Ok c else Err CheckpointZodError.

Definition checkpoint_of_json (j : json) : option SessionCheckpointV2 :=
  match get_str "schema" j, member (js "version") j with
  | Some schema, Some (JNum 2) =>
      if negb (bool_decide (schema = js "berry.session-checkpoint")) then None else
      generatedAt ← get_str "generatedAt" j;
      if negb (is_datetime generatedAt) then None else
      goal ← get_str "goal" j; successCriteria ← get_strs "successCriteria" j;
      constraints ← get_strs "constraints" j;
      standingInstructions ← get_strs "standingInstructions" j;
      completedWork ← get_strs "completedWork" j; currentWork ← get_strs "currentWork" j;
      blockers ← get_strs "blockers" j; waitingState ← get_nullable item_str "waitingState" j;
      decisions ← get_list source_of_json "decisions" j;
      unresolvedQuestions ← get_strs "unresolvedQuestions" j; nextAction ← get_str "nextAction" j;
      filesRead ← get_strs "filesRead" j; filesModified ← get_strs "filesModified" j;
      artifacts ← get_list artifact_of_json "artifacts" j;
      commands ← get_list command_of_json "commands" j;
      toolCalls ← get_list tool_call_of_json "toolCalls" j;
      approvals ← get_list approval_of_json "approvals" j;
      promptManifestHash ← get_nullable item_str "promptManifestHash" j;
      retrievalSnapshotIds ← get_list item_id "retrievalSnapshotIds" j;
      coveredEntryStart ← get_nullable item_id "coveredEntryStart" j;
      coveredEntryEnd ← get_nullable item_id "coveredEntryEnd" j;
      currentLeafId ← get_nullable item_id "currentLeafId" j;
      narrative ← get_str "narrative" j;
      Some {| cp_generatedAt := generatedAt; cp_goal := goal; cp_successCriteria := successCriteria;
              cp_constraints := constraints; cp_standingInstructions := standingInstructions;
              cp_completedWork := completedWork; cp_currentWork := currentWork;
              cp_blockers := blockers; cp_waitingState := waitingState; cp_decisions := decisions;
              cp_unresolvedQuestions := unresolvedQuestions; cp_nextAction := nextAction;
              cp_filesRead := filesRead; cp_filesModified := filesModified;
              cp_artifacts := artifacts; cp_commands := commands; cp_toolCalls := toolCalls;
              cp_approvals := approvals; cp_promptManifestHash := promptManifestHash;
              cp_retrievalSnapshotIds := retrievalSnapshotIds;
              cp_coveredEntryStart := coveredEntryStart; cp_coveredEntryEnd := coveredEntryEnd;
              cp_currentLeafId := currentLeafId; cp_narrative := narrative |}
  | _, _ => None
  end.

(** [value.trim().replace(/^```(?:json)?\s*/i, "").replace(/\s*```$/, "")]. *)
Definition lower (c : N) : N := (if (65 <=? c) && (c <=? 90) then c + 32 else c)%N.
Definition stripJsonCodeFence (value : jstr) : jstr :=
  let s := trim value in
  let s :=
    if starts_with (js "```") s then
      let r := drop 3 s in
      let r := if bool_decide (map lower (take 4 r) = js "json") then drop 4 r else r in
      trim_start r
    else s in
  if ends_with (js "```") s then trim_end (take (length s - 3) s) else s.

(** The [checkpoint] of the result; the texts of the issues are not modelled. *)
Definition parseSessionCheckpoint (value : jstr + json) : option SessionCheckpointV2 :=
  match value with
  | inl text => j ← json_parse (stripJsonCodeFence text); checkpoint_of_json j
  | inr j => checkpoint_of_json j
  end.

Definition applyCheckpointDeterminism (c : SessionCheckpointV2) (d : CheckpointDeterministicFields)
    : result CheckpointError SessionCheckpointV2 :=
  schema_check
    {| cp_generatedAt := df_generatedAt d; cp_goal := cp_goal c;
       cp_successCriteria := cp_successCriteria c; cp_constraints := cp_constraints c;
       cp_standingInstructions := cp_standingInstructions c;
       cp_completedWork := cp_completedWork c; cp_currentWork := cp_currentWork c;
       cp_blockers := cp_blockers c; cp_waitingState := cp_waitingState c;
       cp_decisions := cp_decisions c; cp_unresolvedQuestions := cp_unresolvedQuestions c;
       cp_nextAction := cp_nextAction c;
       cp_filesRead := unique (cp_filesRead c ++ nullish (df_filesRead d) []);
       cp_filesModified := unique (cp_filesModified c ++ nullish (df_filesModified d) []);
       cp_artifacts := cp_artifacts c;
       cp_commands := dedupeBy (cp_commands c ++ nullish (df_commands d) []) commandKey;
       cp_toolCalls := mergeToolCalls (cp_toolCalls c) (nullish (df_toolCalls d) []);
       cp_approvals := dedupeBy (cp_approvals c ++ nullish (df_approvals d) []) ap_approvalId;
       cp_promptManifestHash := or_else (df_promptManifestHash d) (cp_promptManifestHash c);
       cp_retrievalSnapshotIds :=
         unique (cp_retrievalSnapshotIds c ++ nullish (df_retrievalSnapshotIds d) []);
       cp_coveredEntryStart := df_coveredEntryStart d; cp_coveredEntryEnd := df_coveredEntryEnd d;
       cp_currentLeafId := df_currentLeafId d; cp_narrative := cp_narrative c |}.

Definition empty_checkpoint (generatedAt narrative : jstr) : SessionCheckpointV2 :=
  {| cp_generatedAt := generatedAt; cp_goal := []; cp_successCriteria := []; cp_constraints := [];
     cp_standingInstructions := []; cp_completedWork := []; cp_currentWork := [];
     cp_blockers := []; cp_waitingState := None; cp_decisions := []; cp_unresolvedQuestions := [];
     cp_nextAction := []; cp_filesRead := []; cp_filesModified := []; cp_artifacts := [];
     cp_commands := []; cp_toolCalls := []; cp_approvals := []; cp_promptManifestHash := None;
     cp_retrievalSnapshotIds := []; cp_coveredEntryStart := None; cp_coveredEntryEnd := None;
     cp_currentLeafId := None; cp_narrative := narrative |}.

Definition emptySessionCheckpoint (d : CheckpointDeterministicFields) (narrative : jstr)
    : result CheckpointError SessionCheckpointV2 :=
  applyCheckpointDeterminism (empty_checkpoint (df_generatedAt d) narrative) d.

(** ** Size *)

Definition SESSION_CHECKPOINT_MAX_BYTES : Z := 64 * 1024.
Definition SESSION_CHECKPOINT_MAX_ITEMS : Z := 256.

(** [serializedBytes] and [tokenEstimate]. *)
Definition serializedBytes (c : SessionCheckpointV2) : Z := utf8_length (stringify (checkpoint_json c)).
Definition sessionCheckpointMetrics (c : SessionCheckpointV2) : Z * Z :=
  (serializedBytes c, (serializedBytes c + 3) / 4)%Z.

(** ** Validation *)

Inductive ValidationIssue :=
| TooManyBytes (maxBytes : Z)
| TooManyItems (field : jstr) (count maxItems : Z)
| StartMismatch | EndMismatch | LeafMismatch
| MissingToolCall (id : jstr)
| NoReduction.

(** The reduction ratio is the fraction [fst / snd]. *)
Record ValidationOptions := {
  vo_maxBytes : option Z; vo_maxItems : option Z; vo_tokensBefore : option Z;
  vo_tokensAfter : option Z; vo_minimumReductionRatio : option (Z * Z);
}.

(** The issues in the order the checks push them. *)
Definition checkpoint_issues (c : SessionCheckpointV2) (d : CheckpointDeterministicFields)
    (o : ValidationOptions) : list ValidationIssue :=
  let maxBytes := Z.max 1 (nullish (vo_maxBytes o) SESSION_CHECKPOINT_MAX_BYTES) in
  let maxItems := Z.max 1 (nullish (vo_maxItems o) SESSION_CHECKPOINT_MAX_ITEMS) in
  let toolCalls := set_of_list (map tc_toolCallId (cp_toolCalls c)) in
  (if (maxBytes <? serializedBytes c)%Z then [TooManyBytes maxBytes] else [])
  ++ flat_map (λ '(field, value),
       match value with
       | JArr l => if (Z.of_nat (length l) <=? maxItems)%Z then []
                   else [TooManyItems field (Z.of_nat (length l)) maxItems]
       | _ => []
       end) (checkpoint_members c)
  ++ (if bool_decide (cp_coveredEntryStart c = df_coveredEntryStart d) then [] else [StartMismatch])
  ++ (if bool_decide (cp_coveredEntryEnd c = df_coveredEntryEnd d) then [] else [EndMismatch])
  ++ (if bool_decide (cp_currentLeafId c = df_currentLeafId d) then [] else [LeafMismatch])
  ++ flat_map (λ required, if set_has (tc_toolCallId required) toolCalls then []
                           else [MissingToolCall (tc_toolCallId required)])
       (nullish (df_toolCalls d) [])
  ++ (match vo_tokensBefore o, vo_tokensAfter o with
      | Some before, Some after =>
          let '(num, den) := nullish (vo_minimumReductionRatio o) (1, 10)%Z in
          if (256 <=? before)%Z && (before * (den - num) <? after * den)%Z then [NoReduction] else []
      | _, _ => []
      end).

Definition validateSessionCheckpoint (c : SessionCheckpointV2) (d : CheckpointDeterministicFields)
    (o : ValidationOptions) : option SessionCheckpointV2 * list ValidationIssue :=
  match checkpoint_issues c d o with
  | [] => (Some c, [])
  | issues => (None, issues)
  end.

(** ** The byte bound *)

Definition protectedStringKeys (primary : list jstr) (secondary : option (list jstr)) : list jstr :=
  set_of_list (primary ++ nullish secondary []).
Definition protectedObjectKeys {A} (primary : list A) (secondary : option (list A)) (key : A → jstr)
    : list jstr := set_of_list (map key (primary ++ nullish secondary [])).

(** [None] is the result [false]: nothing was removed. *)
Fixpoint removeOldestUnprotected {A} (values : list A) (protectedKeys : list jstr) (key : A → jstr)
    : option (list A) :=
  match values with
  | [] => None
  | v :: rest =>
      if set_has (key v) protectedKeys
      then cons v <$> removeOldestUnprotected rest protectedKeys key
      else Some rest
  end.

Definition shrinker {A} (field : SessionCheckpointV2 → list A)
    (set_field : list A → SessionCheckpointV2 → SessionCheckpointV2) (protectedKeys : list jstr)
    (key : A → jstr) (c : SessionCheckpointV2) : option SessionCheckpointV2 :=
  (λ l, set_field l c) <$> removeOldestUnprotected (field c) protectedKeys key.

Definition shrinkers (latest : SessionCheckpointV2) (d : CheckpointDeterministicFields)
    : list (SessionCheckpointV2 → option SessionCheckpointV2) :=
  [shrinker cp_retrievalSnapshotIds set_retrievalSnapshotIds
     (protectedStringKeys (cp_retrievalSnapshotIds latest) (df_retrievalSnapshotIds d)) (λ v, v);
   shrinker cp_filesRead set_filesRead
     (protectedStringKeys (cp_filesRead latest) (df_filesRead d)) (λ v, v);
   shrinker cp_commands set_commands
     (protectedObjectKeys (cp_commands latest) (df_commands d) commandKey) commandKey;
   shrinker cp_approvals set_approvals
     (protectedObjectKeys (cp_approvals latest) (df_approvals d) ap_approvalId) ap_approvalId;
   shrinker cp_artifacts set_artifacts
     (protectedObjectKeys (cp_artifacts latest) None ar_id) ar_id;
   shrinker cp_toolCalls set_toolCalls
     (protectedObjectKeys (cp_toolCalls latest) (df_toolCalls d) tc_toolCallId) tc_toolCallId;
   shrinker cp_filesModified set_filesModified
     (protectedStringKeys (cp_filesModified latest) (df_filesModified d)) (λ v, v);
   shrinker cp_completedWork set_completedWork
     (protectedStringKeys (cp_completedWork latest) None) (λ v, v);
   shrinker cp_decisions set_decisions
     (protectedObjectKeys (cp_decisions latest) None checkpointSourceKey) checkpointSourceKey;
   shrinker cp_successCriteria set_successCriteria
     (protectedStringKeys (cp_successCriteria latest) None) (λ v, v);
   shrinker cp_standingInstructions set_standingInstructions
     (protectedStringKeys (cp_standingInstructions latest) None) (λ v, v);
   shrinker cp_constraints set_constraints
     (protectedStringKeys (cp_constraints latest) None) (λ v, v)].

(** [while (shrink()) if (it fits) return]: the flag tells whether it returned. *)
Fixpoint shrink_while (fuel : nat) (shrink : SessionCheckpointV2 → option SessionCheckpointV2)
    (limit : Z) (c : SessionCheckpointV2) : option (SessionCheckpointV2 * bool) :=
  match fuel with
  | O => None
  | S fuel =>
      match shrink c with
      | None => Some (c, false)
      | Some c' => if (serializedBytes c' <=? limit)%Z then Some (c', true)
                   else shrink_while fuel shrink limit c'
      end
  end.

Fixpoint shrink_all (fuel : nat) (l : list (SessionCheckpointV2 → option SessionCheckpointV2))
    (limit : Z) (c : SessionCheckpointV2) : option (SessionCheckpointV2 * bool) :=
  match l with
  | [] => Some (c, false)
  | shrink :: l =>
      match shrink_while fuel shrink limit c with
      | None => None
      | Some (c', true) => Some (c', true)
      | Some (c', false) => shrink_all fuel l limit c'
      end
  end.

(** More steps than any list of the checkpoint has items. *)
Definition shrink_fuel (c : SessionCheckpointV2) : nat :=
  S (length (cp_retrievalSnapshotIds c) + length (cp_filesRead c) + length (cp_commands c)
     + length (cp_approvals c) + length (cp_artifacts c) + length (cp_toolCalls c)
     + length (cp_filesModified c) + length (cp_completedWork c) + length (cp_decisions c)
     + length (cp_successCriteria c) + length (cp_standingInstructions c)
     + length (cp_constraints c))%nat.

(** [None] if the fuel runs out, which it never does ([bound_steps_spec]). *)
Definition bound_steps (c latest : SessionCheckpointV2)
    (d : CheckpointDeterministicFields) (maxBytes : Z) : option SessionCheckpointV2 :=
  let byteLimit := Z.max 1 maxBytes in
  if (serializedBytes c <=? byteLimit)%Z then Some c
  else
    match shrink_all (shrink_fuel c) (shrinkers latest d) byteLimit c with
    | None => None
    | Some (bounded, true) => Some bounded
    | Some (bounded, false) =>
        let bounded := set_goal (cp_goal latest) bounded in
        if (serializedBytes bounded <=? byteLimit)%Z then Some bounded
        else Some (set_narrative (cp_narrative latest) bounded)
    end.

Definition boundSessionCheckpoint (c latest : SessionCheckpointV2)
    (d : CheckpointDeterministicFields) (maxBytes : Z) : SessionCheckpointV2 :=
  default c (bound_steps c latest d maxBytes).

(** ** Merging *)

Definition merged_checkpoint (previous segment : SessionCheckpointV2)
    (d : CheckpointDeterministicFields) : SessionCheckpointV2 :=
  {| cp_generatedAt := df_generatedAt d;
     cp_goal := or_str (cp_goal segment) (cp_goal previous);
     cp_successCriteria := boundedUnique (cp_successCriteria previous ++ cp_successCriteria segment) 128;
     cp_constraints := boundedUnique (cp_constraints previous ++ cp_constraints segment) 128;
     cp_standingInstructions :=
       boundedUnique (cp_standingInstructions previous ++ cp_standingInstructions segment) 128;
     cp_completedWork := boundedUnique (cp_completedWork previous ++ cp_completedWork segment) 256;
     cp_currentWork := cp_currentWork segment; cp_blockers := cp_blockers segment;
     cp_waitingState := cp_waitingState segment;
     cp_decisions :=
       boundedObjects (dedupeBy (cp_decisions previous ++ cp_decisions segment) checkpointSourceKey) 128;
     cp_unresolvedQuestions := cp_unresolvedQuestions segment;
     cp_nextAction := cp_nextAction segment;
     cp_filesRead := boundedUnique (cp_filesRead previous ++ cp_filesRead segment) 256;
     cp_filesModified := boundedUnique (cp_filesModified previous ++ cp_filesModified segment) 256;
     cp_artifacts := boundedObjects (dedupeBy (cp_artifacts previous ++ cp_artifacts segment) ar_id) 256;
     cp_commands := boundedObjects (dedupeBy (cp_commands previous ++ cp_commands segment) commandKey) 128;
     cp_toolCalls := mergeToolCalls (cp_toolCalls previous) (cp_toolCalls segment);
     cp_approvals :=
       boundedObjects (dedupeBy (cp_approvals previous ++ cp_approvals segment) ap_approvalId) 256;
     cp_promptManifestHash := or_else (cp_promptManifestHash segment) (cp_promptManifestHash previous);
     cp_retrievalSnapshotIds :=
       boundedUnique (cp_retrievalSnapshotIds previous ++ cp_retrievalSnapshotIds segment) 128;
     cp_coveredEntryStart := or_else (cp_coveredEntryStart previous) (cp_coveredEntryStart segment);
     cp_coveredEntryEnd := cp_coveredEntryEnd segment; cp_currentLeafId := cp_currentLeafId segment;
     cp_narrative := last_n 8000 (or_str (cp_narrative segment) (cp_narrative previous)) |}.

Definition mergeSessionCheckpoints (previous : option SessionCheckpointV2)
    (segment : SessionCheckpointV2) (d : CheckpointDeterministicFields)
    : result CheckpointError SessionCheckpointV2 :=
  match previous with
  | None =>
      let! c := applyCheckpointDeterminism segment d in
      mret (boundSessionCheckpoint c segment d SESSION_CHECKPOINT_MAX_BYTES)
  | Some previous =>
      let rolling := det_start (or_else (cp_coveredEntryStart previous) (df_coveredEntryStart d)) d in
      let! c := applyCheckpointDeterminism (merged_checkpoint previous segment d) rolling in
      mret (boundSessionCheckpoint c segment rolling SESSION_CHECKPOINT_MAX_BYTES)
  end.

(** The evidence [rebaseSessionCheckpoint] passes for one segment. *)
Definition segment_evidence (segment : SessionCheckpointV2) (d : CheckpointDeterministicFields)
    : CheckpointDeterministicFields :=
  {| df_generatedAt := cp_generatedAt segment; df_coveredEntryStart := cp_coveredEntryStart segment;
     df_coveredEntryEnd := cp_coveredEntryEnd segment; df_currentLeafId := cp_currentLeafId segment;
     df_filesRead := Some []; df_filesModified := Some []; df_commands := Some [];
     df_toolCalls := Some []; df_approvals := Some [];
     df_promptManifestHash := df_promptManifestHash d; df_retrievalSnapshotIds := Some [] |}.

Fixpoint rebase_loop (rolling : option SessionCheckpointV2) (segments : list SessionCheckpointV2)
    (d : CheckpointDeterministicFields) : result CheckpointError (option SessionCheckpointV2) :=
  match segments with
  | [] => Ok rolling
  | segment :: segments =>
      let! rolling := mergeSessionCheckpoints rolling segment (segment_evidence segment d) in
      rebase_loop (Some rolling) segments d
  end.

Definition rebaseSessionCheckpoint (segments : list SessionCheckpointV2)
    (d : CheckpointDeterministicFields) : result CheckpointError SessionCheckpointV2 :=
  let! rolling := rebase_loop None segments d in
  let! latest := match last segments with
                 | Some latest => Ok latest
                 | None => emptySessionCheckpoint d []
                 end in
  let! c := applyCheckpointDeterminism (nullish rolling latest) d in
  mret (boundSessionCheckpoint c latest d SESSION_CHECKPOINT_MAX_BYTES).

Record FallbackOptions := {
  fo_goal : option jstr; fo_nextAction : option jstr; fo_narrative : option jstr;
  fo_completedWork : option (list jstr); fo_currentWork : option (list jstr);
}.

Definition fallback_delta (delta : SessionCheckpointV2) (o : FallbackOptions) : SessionCheckpointV2 :=
  {| cp_generatedAt := cp_generatedAt delta; cp_goal := nullish (trim <$> fo_goal o) [];
     cp_successCriteria := cp_successCriteria delta; cp_constraints := cp_constraints delta;
     cp_standingInstructions := cp_standingInstructions delta;
     cp_completedWork := unique (nullish (fo_completedWork o) []);
     cp_currentWork := unique (nullish (fo_currentWork o) []); cp_blockers := cp_blockers delta;
     cp_waitingState := cp_waitingState delta; cp_decisions := cp_decisions delta;
     cp_unresolvedQuestions := cp_unresolvedQuestions delta;
     cp_nextAction := nullish (trim <$> fo_nextAction o) []; cp_filesRead := cp_filesRead delta;
     cp_filesModified := cp_filesModified delta; cp_artifacts := cp_artifacts delta;
     cp_commands := cp_commands delta; cp_toolCalls := cp_toolCalls delta;
     cp_approvals := cp_approvals delta; cp_promptManifestHash := cp_promptManifestHash delta;
     cp_retrievalSnapshotIds := cp_retrievalSnapshotIds delta;
     cp_coveredEntryStart := cp_coveredEntryStart delta;
     cp_coveredEntryEnd := cp_coveredEntryEnd delta; cp_currentLeafId := cp_currentLeafId delta;
     cp_narrative := cp_narrative delta |}.

Definition checkpointFallback (previous : option SessionCheckpointV2)
    (d : CheckpointDeterministicFields) (o : FallbackOptions)
    : result CheckpointError SessionCheckpointV2 :=
  let! delta := emptySessionCheckpoint d (nullish (fo_narrative o) []) in
  mergeSessionCheckpoints previous (fallback_delta delta o) d.
End checkpoint.
