(* ===== verification/CheckpointFacts.v ===== *)
(** * Session checkpoints: bounds, protection, accumulation

    Theorems about Checkpoint.v: the byte bound terminates, keeps protected
    facts and stops only when it fits or nothing but protected facts is left;
    merging keeps the newest segment's state and does not repeat facts. *)

From S2P Require Import Prelude JsMap JsString Json Checkpoint.
From Stdlib Require Import Lia.

Set Default Goal Selector "!".

(** ** Definitions of the statements *)

(** [l'] is [l] without some elements whose key is not protected. *)
Definition keeps_list {A} (key : A → jstr) (prot : list jstr) (l l' : list A) : Prop :=
  l' `sublist_of` l ∧ filter (λ x, key x ∈ prot) l' = filter (λ x, key x ∈ prot) l.

Definition all_protected {A} (key : A → jstr) (prot : list jstr) (l : list A) : Prop :=
  ∀ x, x ∈ l → key x ∈ prot.

(** What the byte bound leaves alone, up to the goal and the narrative. *)
Record keeps (latest : SessionCheckpointV2) (d : CheckpointDeterministicFields)
    (c c' : SessionCheckpointV2) : Prop := {
  keeps_retrievalSnapshotIds : keeps_list (λ v, v) (protectedStringKeys (cp_retrievalSnapshotIds latest) (df_retrievalSnapshotIds d))
    (cp_retrievalSnapshotIds c) (cp_retrievalSnapshotIds c');
  keeps_filesRead : keeps_list (λ v, v) (protectedStringKeys (cp_filesRead latest) (df_filesRead d))
    (cp_filesRead c) (cp_filesRead c');
  keeps_commands : keeps_list commandKey (protectedObjectKeys (cp_commands latest) (df_commands d) commandKey)
    (cp_commands c) (cp_commands c');
  keeps_approvals : keeps_list ap_approvalId (protectedObjectKeys (cp_approvals latest) (df_approvals d) ap_approvalId)
    (cp_approvals c) (cp_approvals c');
  keeps_artifacts : keeps_list ar_id (protectedObjectKeys (cp_artifacts latest) None ar_id)
    (cp_artifacts c) (cp_artifacts c');
  keeps_toolCalls : keeps_list tc_toolCallId (protectedObjectKeys (cp_toolCalls latest) (df_toolCalls d) tc_toolCallId)
    (cp_toolCalls c) (cp_toolCalls c');
  keeps_filesModified : keeps_list (λ v, v) (protectedStringKeys (cp_filesModified latest) (df_filesModified d))
    (cp_filesModified c) (cp_filesModified c');
  keeps_completedWork : keeps_list (λ v, v) (protectedStringKeys (cp_completedWork latest) None)
    (cp_completedWork c) (cp_completedWork c');
  keeps_decisions : keeps_list checkpointSourceKey (protectedObjectKeys (cp_decisions latest) None checkpointSourceKey)
    (cp_decisions c) (cp_decisions c');
  keeps_successCriteria : keeps_list (λ v, v) (protectedStringKeys (cp_successCriteria latest) None)
    (cp_successCriteria c) (cp_successCriteria c');
  keeps_standingInstructions : keeps_list (λ v, v) (protectedStringKeys (cp_standingInstructions latest) None)
    (cp_standingInstructions c) (cp_standingInstructions c');
  keeps_constraints : keeps_list (λ v, v) (protectedStringKeys (cp_constraints latest) None)
    (cp_constraints c) (cp_constraints c');
  keeps_generatedAt : cp_generatedAt c' = cp_generatedAt c;
  keeps_currentWork : cp_currentWork c' = cp_currentWork c;
  keeps_blockers : cp_blockers c' = cp_blockers c;
  keeps_waitingState : cp_waitingState c' = cp_waitingState c;
  keeps_unresolvedQuestions : cp_unresolvedQuestions c' = cp_unresolvedQuestions c;
  keeps_nextAction : cp_nextAction c' = cp_nextAction c;
  keeps_promptManifestHash : cp_promptManifestHash c' = cp_promptManifestHash c;
  keeps_coveredEntryStart : cp_coveredEntryStart c' = cp_coveredEntryStart c;
  keeps_coveredEntryEnd : cp_coveredEntryEnd c' = cp_coveredEntryEnd c;
  keeps_currentLeafId : cp_currentLeafId c' = cp_currentLeafId c;
}.

Record only_protected (latest : SessionCheckpointV2) (d : CheckpointDeterministicFields)
    (c : SessionCheckpointV2) : Prop := {
  only_retrievalSnapshotIds : all_protected (λ v, v) (protectedStringKeys (cp_retrievalSnapshotIds latest) (df_retrievalSnapshotIds d))
    (cp_retrievalSnapshotIds c);
  only_filesRead : all_protected (λ v, v) (protectedStringKeys (cp_filesRead latest) (df_filesRead d))
    (cp_filesRead c);
  only_commands : all_protected commandKey (protectedObjectKeys (cp_commands latest) (df_commands d) commandKey)
    (cp_commands c);
  only_approvals : all_protected ap_approvalId (protectedObjectKeys (cp_approvals latest) (df_approvals d) ap_approvalId)
    (cp_approvals c);
  only_artifacts : all_protected ar_id (protectedObjectKeys (cp_artifacts latest) None ar_id)
    (cp_artifacts c);
  only_toolCalls : all_protected tc_toolCallId (protectedObjectKeys (cp_toolCalls latest) (df_toolCalls d) tc_toolCallId)
    (cp_toolCalls c);
  only_filesModified : all_protected (λ v, v) (protectedStringKeys (cp_filesModified latest) (df_filesModified d))
    (cp_filesModified c);
  only_completedWork : all_protected (λ v, v) (protectedStringKeys (cp_completedWork latest) None)
    (cp_completedWork c);
  only_decisions : all_protected checkpointSourceKey (protectedObjectKeys (cp_decisions latest) None checkpointSourceKey)
    (cp_decisions c);
  only_successCriteria : all_protected (λ v, v) (protectedStringKeys (cp_successCriteria latest) None)
    (cp_successCriteria c);
  only_standingInstructions : all_protected (λ v, v) (protectedStringKeys (cp_standingInstructions latest) None)
    (cp_standingInstructions c);
  only_constraints : all_protected (λ v, v) (protectedStringKeys (cp_constraints latest) None)
    (cp_constraints c);
}.

Definition item_count (c : SessionCheckpointV2) : nat := pred (shrink_fuel c).

(** ** Removing one item *)

Lemma keeps_list_refl {A} (key : A → jstr) prot l : keeps_list key prot l l.
Proof. done. Qed.

Lemma keeps_list_trans {A} (key : A → jstr) prot l1 l2 l3 :
  keeps_list key prot l1 l2 → keeps_list key prot l2 l3 → keeps_list key prot l1 l3.
Proof. intros [S1 F1] [S2 F2]. split; [by etrans|by rewrite F2, F1]. Qed.

Lemma remove_Some {A} (key : A → jstr) prot l l' :
  removeOldestUnprotected l prot key = Some l' →
  keeps_list key prot l l' ∧ length l = S (length l').
Proof.
  revert l'. induction l as [|x l IH]; intros l'; simpl; [done|].
  destruct (set_has (key x) prot) eqn:Hx.
  - intros (r & Hr & ->)%fmap_Some. destruct (IH r Hr) as [[Hs Hf] Hl].
    apply set_has_true in Hx. split; [|simpl; lia].
    split; [by apply sublist_skip|]. rewrite !filter_cons_True by done. by rewrite Hf.
  - intros [= ->]. split; [|done]. split; [by apply sublist_cons|].
    rewrite filter_cons_False; [done|]. intros H. apply set_has_true in H. congruence.
Qed.

Lemma remove_None {A} (key : A → jstr) prot l :
  removeOldestUnprotected l prot key = None ↔ all_protected key prot l.
Proof.
  unfold all_protected. induction l as [|x l IH]; simpl; [set_solver|].
  destruct (set_has (key x) prot) eqn:Hx.
  - rewrite fmap_None, IH. apply set_has_true in Hx. set_solver.
  - split; [done|]. intros H. pose proof (H x ltac:(set_solver)) as Hin.
    apply set_has_true in Hin. congruence.
Qed.

#[export] Instance keeps_preorder latest d : PreOrder (keeps latest d).
Proof.
  split.
  - intros c. split; done.
  - intros c1 c2 c3 [] []. split; try congruence; by eapply keeps_list_trans.
Qed.

(** A step of a shrinker. *)
Definition good_shrinker (latest : SessionCheckpointV2) (d : CheckpointDeterministicFields)
    (sh : SessionCheckpointV2 → option SessionCheckpointV2) : Prop :=
  (∀ c c', sh c = Some c' → keeps latest d c c' ∧ item_count c = S (item_count c'))
  ∧ (∀ c c', keeps latest d c c' → sh c = None → sh c' = None).

Ltac solve_shrinker :=
  split;
  [intros c c'; unfold shrinker; intros (l & Hl & ->)%fmap_Some; apply remove_Some in Hl as [Hk Hlen];
   split; [split; done|unfold item_count, shrink_fuel; destruct c; simpl in *; lia]
  |intros c c' Hk; unfold shrinker; rewrite !fmap_None, !remove_None; destruct Hk;
   intros H x Hx; apply H;
   match goal with
   | K : keeps_list _ _ (?f c) (?f c') |- x ∈ ?f c => destruct K as [K _]; by eapply elem_of_sublist
   end].

Lemma shrinkers_good latest d : Forall (good_shrinker latest d) (shrinkers latest d).
Proof. unfold shrinkers. repeat (constructor; [solve_shrinker|]). constructor. Qed.

Lemma shrinkers_exhausted latest d c :
  Forall (λ sh, sh c = None) (shrinkers latest d) → only_protected latest d c.
Proof.
  unfold shrinkers. rewrite !Forall_cons. unfold shrinker. rewrite !fmap_None, !remove_None.
  intros. destruct_and!. by split.
Qed.

(** ** The loops *)

Lemma shrink_while_spec latest d sh limit : good_shrinker latest d sh →
  ∀ fuel c, (item_count c < fuel)%nat →
  ∃ c' fits, shrink_while fuel sh limit c = Some (c', fits) ∧ keeps latest d c c'
    ∧ (item_count c' <= item_count c)%nat
    ∧ (if fits : bool then (serializedBytes c' <= limit)%Z else sh c' = None).
Proof.
  intros [Hstep _]. induction fuel as [|fuel IH]; intros c Hf; [lia|]. simpl.
  destruct (sh c) as [c1|] eqn:Hc; [|by exists c, false].
  destruct (Hstep _ _ Hc) as [Hk Hn]. destruct (Z.leb_spec (serializedBytes c1) limit).
  - exists c1, true. split; [done|]. split; [done|]. split; [lia|done].
  - destruct (IH c1) as (c' & fits & -> & Hk' & Hn' & Hend); [lia|].
    exists c', fits. split; [done|]. split; [by etrans|]. split; [lia|done].
Qed.

Lemma shrink_all_spec latest d limit shs : Forall (good_shrinker latest d) shs →
  ∀ fuel c, (item_count c < fuel)%nat →
  ∃ c' fits, shrink_all fuel shs limit c = Some (c', fits) ∧ keeps latest d c c'
    ∧ (if fits : bool then (serializedBytes c' <= limit)%Z else Forall (λ sh, sh c' = None) shs).
Proof.
  induction 1 as [|sh shs Hsh Hshs IH]; intros fuel c Hf; simpl; [by exists c, false|].
  destruct (shrink_while_spec latest d sh limit Hsh fuel c Hf) as (c1 & fits & -> & Hk & Hn & Hend).
  destruct fits; [by exists c1, true|].
  destruct (IH fuel c1 ltac:(lia)) as (c' & fits & -> & Hk' & Hend').
  exists c', fits. split; [done|]. split; [by etrans|].
  destruct fits; [done|]. constructor; [|done]. by eapply (proj2 Hsh).
Qed.

Lemma bound_steps_spec c latest d maxBytes :
  ∃ b, bound_steps c latest d maxBytes = Some b ∧ keeps latest d c b
    ∧ ((serializedBytes b <= Z.max 1 maxBytes)%Z
       ∨ only_protected latest d b ∧ cp_goal b = cp_goal latest ∧ cp_narrative b = cp_narrative latest)
    ∧ ((serializedBytes c <= Z.max 1 maxBytes)%Z → b = c).
Proof.
  unfold bound_steps. destruct (Z.leb_spec (serializedBytes c) (Z.max 1 maxBytes)) as [Hle|Hgt].
  { exists c. split; [done|]. split; [done|]. auto. }
  destruct (shrink_all_spec latest d (Z.max 1 maxBytes) (shrinkers latest d) (shrinkers_good latest d)
              (shrink_fuel c) c) as (b & fits & -> & Hk & Hend); [unfold item_count, shrink_fuel; lia|].
  destruct fits.
  { exists b. split; [done|]. split; [done|]. split; [by left|lia]. }
  pose proof (shrinkers_exhausted latest d b Hend) as Hp.
  assert (keeps latest d c (set_goal (cp_goal latest) b)) as Hg by (etrans; [exact Hk|by split]).
  destruct (Z.leb_spec (serializedBytes (set_goal (cp_goal latest) b)) (Z.max 1 maxBytes)).
  - eexists. split; [done|]. split; [done|]. split; [by left|lia].
  - eexists. split; [done|]. split; [etrans; [exact Hg|by split]|].
    split; [right|lia]. split; [|done]. destruct Hp. by split.
Qed.

(** ** Theorems *)

(** C34: the byte bound on a rolling checkpoint always ends, and its result
    either fits the limit or holds, in every list it can shorten, only facts
    that the newest segment or the deterministic evidence protects, with the
    goal and the narrative of the newest segment. A protected fact is never
    removed or reordered, no other part of the checkpoint changes, and a
    checkpoint that fits is returned as it is. *)
Theorem boundSessionCheckpoint_spec c latest d maxBytes :
  bound_steps c latest d maxBytes = Some (boundSessionCheckpoint c latest d maxBytes)
  ∧ keeps latest d c (boundSessionCheckpoint c latest d maxBytes)
  ∧ ((serializedBytes (boundSessionCheckpoint c latest d maxBytes) <= Z.max 1 maxBytes)%Z
     ∨ only_protected latest d (boundSessionCheckpoint c latest d maxBytes)
       ∧ cp_goal (boundSessionCheckpoint c latest d maxBytes) = cp_goal latest
       ∧ cp_narrative (boundSessionCheckpoint c latest d maxBytes) = cp_narrative latest)
  ∧ ((serializedBytes c <= Z.max 1 maxBytes)%Z → boundSessionCheckpoint c latest d maxBytes = c).
Proof.
  destruct (bound_steps_spec c latest d maxBytes) as (b & Hb & H).
  unfold boundSessionCheckpoint. by rewrite Hb.
Qed.

(** ** Accumulating facts *)

Lemma unique_elem v l : v ∈ unique l ↔ truthy v = true ∧ ∃ w, w ∈ l ∧ trim w = v.
Proof.
  unfold unique. rewrite elem_of_set_of_list, list_elem_of_filter, list_elem_of_fmap. naive_solver.
Qed.

Lemma unique_NoDup l : NoDup (unique l).
Proof. apply set_of_list_NoDup. Qed.

Lemma last_n_sublist {A} n (l : list A) : last_n n l `sublist_of` l.
Proof. unfold last_n. apply sublist_drop. Qed.

Lemma boundedUnique_facts l limit :
  NoDup (boundedUnique l limit) ∧ (length (boundedUnique l limit) <= limit)%nat
  ∧ (∀ v, v ∈ boundedUnique l limit → v ∈ unique l)
  ∧ ((length (unique l) <= limit)%nat → boundedUnique l limit = unique l).
Proof.
  unfold boundedUnique. destruct (decide (length (unique l) <= limit)%nat).
  - split; [apply unique_NoDup|]. done.
  - split; [eapply sublist_NoDup; [apply unique_NoDup|apply last_n_sublist]|].
    split; [rewrite length_last_n; lia|]. split; [|lia].
    intros v Hv. eapply elem_of_sublist; [done|apply last_n_sublist].
Qed.

Lemma boundedObjects_facts {A} (l : list A) limit :
  boundedObjects l limit `suffix_of` l ∧ (length (boundedObjects l limit) <= limit)%nat.
Proof.
  unfold boundedObjects. destruct (decide (length l <= limit)%nat); [done|].
  split; [apply last_n_suffix|rewrite length_last_n; lia].
Qed.

Lemma map_keys_values {V} (key : V → jstr) (m : list (jstr * V)) :
  (∀ k v, (k, v) ∈ m → key v = k) → map key (map_values m) = map_keys m.
Proof.
  unfold map_values, map_keys. induction m as [|[k v] m IH]; intros H; csimpl; [done|].
  f_equal; [apply H; set_solver|]. apply IH. set_solver.
Qed.

Definition tool_map (m : list (jstr * ToolCall)) (l : list ToolCall) : list (jstr * ToolCall) :=
  fold_left (λ m item, map_set (tc_toolCallId item) item m) l m.

Lemma tool_map_facts l m :
  NoDup (map_keys m) → (∀ k v, (k, v) ∈ m → tc_toolCallId v = k) →
  NoDup (map_keys (tool_map m l))
  ∧ (∀ k v, (k, v) ∈ tool_map m l → tc_toolCallId v = k)
  ∧ ∀ k, map_get k (tool_map m l)
         = match find_first (λ t, bool_decide (tc_toolCallId t = k)) (reverse l) with
           | Some t => Some t
           | None => map_get k m
           end.
Proof.
  intros Hn Hk. induction l as [|t l IH] using rev_ind; [done|].
  destruct IH as (IH1 & IH2 & IH3). unfold tool_map in *. rewrite fold_left_app. simpl.
  split; [by apply map_keys_set_NoDup|]. split.
  - intros k v [[= -> ->]|Hin]%map_set_elem; [done|by apply IH2].
  - intros k. rewrite map_get_set, reverse_app. simpl. rewrite IH3.
    case_decide; case_bool_decide; congruence.
Qed.

(** merging tool calls keeps one record per call id, the one of the latest
    occurrence, and at most 256 of them; while there are no more than 256 ids
    every id of either list is kept. *)
Theorem mergeToolCalls_spec earlier later :
  NoDup (map tc_toolCallId (mergeToolCalls earlier later))
  ∧ (length (mergeToolCalls earlier later) <= 256)%nat
  ∧ (∀ t, t ∈ mergeToolCalls earlier later →
       find_first (λ t', bool_decide (tc_toolCallId t' = tc_toolCallId t))
         (reverse (earlier ++ later)) = Some t)
  ∧ ((length (map_values (tool_map [] (earlier ++ later))) <= 256)%nat →
     ∀ t, t ∈ earlier ++ later → tc_toolCallId t ∈ map tc_toolCallId (mergeToolCalls earlier later)).
Proof.
  assert (mergeToolCalls earlier later
          = boundedObjects (map_values (tool_map [] (earlier ++ later))) 256) as ->.
  { unfold mergeToolCalls, tool_map. by rewrite fold_left_app. }
  destruct (tool_map_facts (earlier ++ later) []) as (Hn & Hk & Hget); [constructor|set_solver|].
  set (m := tool_map [] (earlier ++ later)) in *.
  destruct (boundedObjects_facts (map_values m) 256) as [[l Hsuf] Hlen].
  assert (∀ t, t ∈ map_values m → find_first (λ t', bool_decide (tc_toolCallId t' = tc_toolCallId t))
    (reverse (earlier ++ later)) = Some t) as Hfind.
  { intros t Ht. apply list_elem_of_fmap in Ht as ([k v] & -> & Hin). simpl.
    pose proof (map_elem_get k v m Hn Hin) as Hg. rewrite Hget in Hg. simpl in Hg.
    rewrite (Hk k v Hin). by destruct (find_first _ _). }
  split; [|split; [done|split]].
  - eapply NoDup_app. rewrite <- map_app, <- Hsuf. rewrite map_keys_values by done. exact Hn.
  - intros t Ht. apply Hfind. rewrite Hsuf. set_solver.
  - intros Hle t Ht. unfold boundedObjects. rewrite decide_True by done.
    rewrite map_keys_values by done. destruct (map_get (tc_toolCallId t) m) as [v|] eqn:Hg.
    + apply map_get_elem in Hg. unfold map_keys. apply list_elem_of_fmap. by exists (tc_toolCallId t, v).
    + rewrite Hget in Hg. simpl in Hg. destruct (find_first _ _) eqn:Hf; [done|].
      pose proof (proj1 (find_first_None _ _) Hf t) as Hno. rewrite elem_of_reverse in Hno.
      specialize (Hno Ht). by rewrite bool_decide_eq_true_2 in Hno.
Qed.

Section merge.
Context (is_datetime : jstr → bool).

(** The part of a checkpoint the newest segment owns. *)
Definition current_state (c : SessionCheckpointV2)
    : list jstr * list jstr * option jstr * list jstr * jstr :=
  (cp_currentWork c, cp_blockers c, cp_waitingState c, cp_unresolvedQuestions c, cp_nextAction c).

Definition coverage (c : SessionCheckpointV2) : option jstr * option jstr * option jstr :=
  (cp_coveredEntryStart c, cp_coveredEntryEnd c, cp_currentLeafId c).

Definition det_coverage (d : CheckpointDeterministicFields) : option jstr * option jstr * option jstr :=
  (df_coveredEntryStart d, df_coveredEntryEnd d, df_currentLeafId d).

Lemma apply_facts c d c' :
  applyCheckpointDeterminism is_datetime c d = Ok c' →
  current_state c' = current_state c ∧ coverage c' = det_coverage d
  ∧ cp_generatedAt c' = df_generatedAt d ∧ is_datetime (df_generatedAt d) = true.
Proof.
  unfold applyCheckpointDeterminism, schema_check. case_match eqn:Hc; [|done].
  intros [= <-]. apply andb_true_iff in Hc as [_ Hd]. done.
Qed.

Lemma bound_facts c latest d maxBytes :
  current_state (boundSessionCheckpoint c latest d maxBytes) = current_state c
  ∧ coverage (boundSessionCheckpoint c latest d maxBytes) = coverage c
  ∧ cp_generatedAt (boundSessionCheckpoint c latest d maxBytes) = cp_generatedAt c.
Proof.
  destruct (bound_steps_spec c latest d maxBytes) as (b & Hb & [] & _).
  unfold boundSessionCheckpoint. rewrite Hb. simpl. unfold current_state, coverage.
  split; [|split]; congruence.
Qed.

Lemma merge_facts previous segment d c :
  mergeSessionCheckpoints is_datetime previous segment d = Ok c →
  current_state c = current_state segment
  ∧ coverage c = (or_else (previous ≫= cp_coveredEntryStart) (df_coveredEntryStart d),
                  df_coveredEntryEnd d, df_currentLeafId d)
  ∧ cp_generatedAt c = df_generatedAt d.
Proof.
  unfold mergeSessionCheckpoints. destruct previous as [p|].
  - intros (c0 & H0 & [= <-])%result_bind_ok.
    destruct (apply_facts _ _ _ H0) as (H1 & H2 & H3 & _).
    destruct (bound_facts c0 segment (det_start (or_else (cp_coveredEntryStart p)
      (df_coveredEntryStart d)) d) SESSION_CHECKPOINT_MAX_BYTES) as (-> & -> & ->).
    by rewrite H1, H2, H3.
  - intros (c0 & H0 & [= <-])%result_bind_ok.
    destruct (apply_facts _ _ _ H0) as (H1 & H2 & H3 & _).
    destruct (bound_facts c0 segment d SESSION_CHECKPOINT_MAX_BYTES) as (-> & -> & ->).
    by rewrite H1, H2, H3.
Qed.

Definition is_mismatch (i : ValidationIssue) : bool :=
  match i with StartMismatch | EndMismatch | LeafMismatch => true | _ => false end.

Lemma validate_issues c d o : (validateSessionCheckpoint c d o).2 = checkpoint_issues c d o.
Proof. unfold validateSessionCheckpoint. by destruct (checkpoint_issues c d o). Qed.

Lemma Forall_flat_map {A B} (P : B → Prop) (f : A → list B) l :
  (∀ x, Forall P (f x)) → Forall P (flat_map f l).
Proof. intros H. induction l; simpl; [constructor|]. by apply Forall_app. Qed.

Lemma coverage_no_mismatch c d o :
  coverage c = det_coverage d → Forall (λ i, is_mismatch i = false) (checkpoint_issues c d o).
Proof.
  intros [= Hs He Hl]. unfold checkpoint_issues. rewrite Hs, He, Hl.
  rewrite !bool_decide_eq_true_2 by done.
  rewrite !Forall_app. split_and!; try apply Forall_flat_map.
  - case_match; repeat constructor.
  - intros [f v]. destruct v; try constructor. case_match; repeat constructor.
  - constructor.
  - constructor.
  - constructor.
  - intros t. case_match; repeat constructor.
  - repeat case_match; repeat constructor.
Qed.

(** the rolling checkpoint. Whatever was accumulated, the newest segment
    owns the current state (work, blockers, waiting state, open questions, next
    action), the coverage starts where the previous checkpoint started and ends
    with the evidence, so validating it against that evidence reports no
    coverage mismatch. *)
Theorem mergeSessionCheckpoints_state previous segment d c :
  mergeSessionCheckpoints is_datetime (Some previous) segment d = Ok c →
  current_state c = current_state segment
  ∧ coverage c = (or_else (cp_coveredEntryStart previous) (df_coveredEntryStart d),
                  df_coveredEntryEnd d, df_currentLeafId d)
  ∧ ∀ o, Forall (λ i, is_mismatch i = false) (validateSessionCheckpoint c
      (det_start (or_else (cp_coveredEntryStart previous) (df_coveredEntryStart d)) d) o).2.
Proof.
  intros H. destruct (merge_facts _ _ _ _ H) as (H1 & H2 & _). simpl in H2.
  split; [done|]. split; [done|]. intros o. rewrite validate_issues.
  by apply coverage_no_mismatch.
Qed.

Lemma rebase_loop_last segments d : ∀ rolling r,
  rebase_loop is_datetime rolling segments d = Ok r →
  match last segments with
  | Some latest => ∃ c, r = Some c ∧ current_state c = current_state latest
  | None => r = rolling
  end.
Proof.
  induction segments as [|s segments IH]; intros rolling r; simpl; [by intros [= ->]|].
  intros (c & Hc & Hr)%result_bind_ok. apply IH in Hr.
  destruct segments as [|s' segments].
  2:{ rewrite last_cons_cons. by destruct (last (s' :: segments)) eqn:El; [|apply last_None in El]. }
  simpl in *. exists c. split; [done|]. by apply merge_facts in Hc as [? _].
Qed.

Lemma rebase_facts segments latest d c :
  last segments = Some latest → rebaseSessionCheckpoint is_datetime segments d = Ok c →
  current_state c = current_state latest ∧ coverage c = det_coverage d.
Proof.
  intros Hl. unfold rebaseSessionCheckpoint.
  intros (rolling & Hroll & (l & Hlatest & (c0 & Happ & [= <-])%result_bind_ok)%result_bind_ok)%result_bind_ok.
  rewrite Hl in Hlatest. injection Hlatest as <-.
  apply rebase_loop_last in Hroll. rewrite Hl in Hroll. destruct Hroll as (r & -> & Hr).
  destruct (apply_facts _ _ _ Happ) as (H1 & H2 & _).
  destruct (bound_facts c0 latest d SESSION_CHECKPOINT_MAX_BYTES) as (-> & -> & _).
  by rewrite H1, H2.
Qed.

(** rebuilding the rolling checkpoint from the immutable segments ends in
    the current state of the newest segment, with the coverage of the
    evidence. *)
Theorem rebaseSessionCheckpoint_state segments latest d c :
  last segments = Some latest → rebaseSessionCheckpoint is_datetime segments d = Ok c →
  current_state c = current_state latest ∧ coverage c = det_coverage d.
Proof. apply rebase_facts. Qed.
End merge.

(** *** Concrete checkpoints *)

Definition demo_det (start : option jstr) : CheckpointDeterministicFields :=
  {| df_generatedAt := js "2026-01-02T00:00:00.000Z"; df_coveredEntryStart := start;
     df_coveredEntryEnd := Some (js "e9"); df_currentLeafId := Some (js "e9");
     df_filesRead := None; df_filesModified := None; df_commands := None; df_toolCalls := None;
     df_approvals := None; df_promptManifestHash := None; df_retrievalSnapshotIds := None |}.

Definition demo_checkpoint (work : jstr) (start : option jstr) : SessionCheckpointV2 :=
  let c := empty_checkpoint (js "2026-01-01T00:00:00.000Z") (js "story") in
  {| cp_generatedAt := cp_generatedAt c; cp_goal := js "ship"; cp_successCriteria := [];
     cp_constraints := []; cp_standingInstructions := []; cp_completedWork := [js "setup"];
     cp_currentWork := [work]; cp_blockers := []; cp_waitingState := None; cp_decisions := [];
     cp_unresolvedQuestions := []; cp_nextAction := js "test"; cp_filesRead := [];
     cp_filesModified := []; cp_artifacts := []; cp_commands := []; cp_toolCalls := [];
     cp_approvals := []; cp_promptManifestHash := None; cp_retrievalSnapshotIds := [];
     cp_coveredEntryStart := start; cp_coveredEntryEnd := Some (js "e5");
     cp_currentLeafId := Some (js "e5"); cp_narrative := js "story" |}.

Definition demo_tool (n : nat) : ToolCall :=
  {| tc_toolCallId := dec (Z.of_nat n); tc_toolName := js "bash"; tc_retryClass := ReadOnly;
     tc_idempotencyKey := None; tc_outcome := OutCompleted |}.

Definition ok_or {E A} (d : A) (r : result E A) : A := match r with Ok a => a | Err _ => d end.

Definition demo_merged : SessionCheckpointV2 :=
  ok_or (demo_checkpoint [] None)
    (mergeSessionCheckpoints (λ _, true) (Some (demo_checkpoint (js "old") (Some (js "e1"))))
       (demo_checkpoint (js "new") (Some (js "e4"))) (demo_det (Some (js "e4")))).

Lemma mergeSessionCheckpoints_state_witness :
  current_state demo_merged = current_state (demo_checkpoint (js "new") (Some (js "e4")))
  ∧ cp_coveredEntryStart demo_merged = Some (js "e1").
Proof.
  destruct (mergeSessionCheckpoints_state (λ _, true)
    (demo_checkpoint (js "old") (Some (js "e1"))) (demo_checkpoint (js "new") (Some (js "e4")))
    (demo_det (Some (js "e4"))) demo_merged ltac:(vm_compute; reflexivity)) as (H1 & H2 & _).
  split; [exact H1|]. vm_compute. reflexivity.
Defined.

Definition demo_rebased : SessionCheckpointV2 :=
  ok_or (demo_checkpoint [] None)
    (rebaseSessionCheckpoint (λ _, true)
       [demo_checkpoint (js "old") (Some (js "e1")); demo_checkpoint (js "new") (Some (js "e4"))]
       (demo_det (Some (js "e1")))).

Lemma rebaseSessionCheckpoint_state_witness :
  current_state demo_rebased = current_state (demo_checkpoint (js "new") (Some (js "e4")))
  ∧ coverage demo_rebased = det_coverage (demo_det (Some (js "e1"))).
Proof.
  apply (rebaseSessionCheckpoint_state (λ _, true)
    [demo_checkpoint (js "old") (Some (js "e1")); demo_checkpoint (js "new") (Some (js "e4"))]
    (demo_checkpoint (js "new") (Some (js "e4"))) (demo_det (Some (js "e1"))) demo_rebased);
    vm_compute; reflexivity.
Defined.

(** A call id that the newest segment repeats keeps the position of its first
    occurrence, so the bound of 256 drops the newest record of it. *)
Lemma mergeToolCalls_drops_newest :
  tc_toolCallId (demo_tool 0) ∉ map tc_toolCallId
    (mergeToolCalls (map demo_tool (seq 0 256)) [demo_tool 0; demo_tool 256]).
Proof. apply (bool_decide_unpack _). vm_compute. exact I. Qed.

(** Protection compares the untrimmed strings of the newest segment with the
    trimmed strings of the merged list, so a fact of the newest segment that
    has surrounding blanks can be removed. *)
Lemma bound_removes_untrimmed_fact :
  let latest := set_completedWork [js " done "] (demo_checkpoint (js "new") None) in
  let merged := set_completedWork (unique (cp_completedWork latest)) latest in
  cp_completedWork merged = [js "done"]
  ∧ cp_completedWork (boundSessionCheckpoint merged latest (demo_det None) 1) = [].
Proof. vm_compute. done. Qed.
