(* ===== verification/CheckpointJson.v ===== *)
(** * Stored checkpoints are read back

    Theorems about Checkpoint.v: what the schema accepts, what the operations
    give is accepted again, and a checkpoint survives being stored as JSON. *)

From S2P Require Import Prelude JsMap JsString Json Checkpoint CheckpointFacts.
From Stdlib Require Import Lia.

Set Default Goal Selector "!".

(** What [SessionCheckpointV2Schema] demands beyond the shape of the record. *)
Definition checkpoint_valid (is_datetime : jstr → bool) (c : SessionCheckpointV2) : Prop :=
  ids_ok c = true ∧ is_datetime (cp_generatedAt c) = true.

(** ** Reading the members back *)

Lemma mapM_map {A B} (f : A → json) (g : json → option B) (h : A → B) l :
  (∀ x, x ∈ l → g (f x) = Some (h x)) → mapM g (map f l) = Some (map h l).
Proof.
  induction l as [|x l IH]; intros H; [done|]. cbn [map mapM].
  rewrite (H x) by set_solver. simpl. rewrite IH by set_solver. done.
Qed.

Lemma mapM_inverse {A} (f : A → json) (g : json → option A) l :
  (∀ x, x ∈ l → g (f x) = Some x) → mapM g (map f l) = Some l.
Proof. intros H. rewrite (mapM_map f g id) by done. by rewrite list_fmap_id. Qed.

Lemma nullable_jopt item k j o :
  (∀ s, o = Some s → item (JStr s) = Some s) → member (js k) j = Some (jopt o) →
  get_nullable item k j = Some o.
Proof.
  intros Hi Hm. unfold get_nullable. rewrite Hm. destruct o as [s|]; [|done]. cbn [jopt].
  by rewrite (Hi s).
Qed.

Lemma get_enum_name {A} `{EqDecision A} (name : A → jstr) `{!Inj (=) (=) name} values k j a :
  a ∈ values → get_str k j = Some (name a) → get_enum name values k j = Some a.
Proof.
  intros Ha Hk. unfold get_enum. rewrite Hk. cbn.
  induction values as [|b values IH]; [by apply not_elem_of_nil in Ha|]. cbn [find_first].
  case_bool_decide as Hb; [by f_equal; apply (inj name)|].
  apply IH. apply elem_of_cons in Ha as [->|]; done.
Qed.

#[export] Instance CommandStatus_eq_dec : EqDecision CommandStatus.
Proof. solve_decision. Defined.
#[export] Instance RetryClass_eq_dec : EqDecision RetryClass.
Proof. solve_decision. Defined.
#[export] Instance Outcome_eq_dec : EqDecision Outcome.
Proof. solve_decision. Defined.
#[export] Instance ApprovalStatus_eq_dec : EqDecision ApprovalStatus.
Proof. solve_decision. Defined.

Lemma command_status_inj : Inj (=) (=) command_status_name.
Proof. intros [] []; done. Qed.
Lemma retry_class_inj : Inj (=) (=) retry_class_name.
Proof. intros [] []; done. Qed.
Lemma outcome_inj : Inj (=) (=) outcome_name.
Proof. intros [] []; done. Qed.
Lemma approval_status_inj : Inj (=) (=) approval_status_name.
Proof. intros [] []; done. Qed.

Lemma source_roundtrip d : truthy (dc_entryId d) = true → source_of_json (source_json d) = Some d.
Proof.
  intros H. unfold source_of_json. change (get_id "entryId" (source_json d))
    with (if truthy (dc_entryId d) then Some (dc_entryId d) else None).
  rewrite H. by destruct d.
Qed.

Lemma artifact_roundtrip a : truthy (ar_id a) = true → artifact_of_json (artifact_json a) = Some a.
Proof.
  intros H. unfold artifact_of_json. change (get_id "id" (artifact_json a))
    with (if truthy (ar_id a) then Some (ar_id a) else None).
  rewrite H. cbn [mbind option_bind]. rewrite (nullable_jopt _ _ _ (ar_path a)) by done. by destruct a.
Qed.

Lemma command_roundtrip c : command_of_json (command_json c) = Some c.
Proof.
  unfold command_of_json. change (get_str "command" (command_json c)) with (Some (cm_command c)).
  cbn [mbind option_bind].
  rewrite (get_enum_name (Inj0 := command_status_inj) _ _ _ _ (cm_status c)); [|destruct c as [? [] ?]; set_solver|done].
  by destruct c.
Qed.

Lemma tool_call_roundtrip t :
  truthy (tc_toolCallId t) = true → tool_call_of_json (tool_call_json t) = Some t.
Proof.
  intros H. unfold tool_call_of_json. change (get_id "toolCallId" (tool_call_json t))
    with (if truthy (tc_toolCallId t) then Some (tc_toolCallId t) else None).
  rewrite H. change (get_str "toolName" (tool_call_json t)) with (Some (tc_toolName t)).
  cbn [mbind option_bind].
  rewrite (get_enum_name (Inj0 := retry_class_inj) _ _ _ _ (tc_retryClass t));
    [|destruct (tc_retryClass t); set_solver|done]. cbn [mbind option_bind].
  rewrite (nullable_jopt _ _ _ (tc_idempotencyKey t)) by done. cbn [mbind option_bind].
  rewrite (get_enum_name (Inj0 := outcome_inj) _ _ _ _ (tc_outcome t));
    [|destruct (tc_outcome t); set_solver|done].
  by destruct t.
Qed.

Lemma approval_roundtrip a : truthy (ap_approvalId a) = true → approval_of_json (approval_json a) = Some a.
Proof.
  intros H. unfold approval_of_json. change (get_id "approvalId" (approval_json a))
    with (if truthy (ap_approvalId a) then Some (ap_approvalId a) else None).
  rewrite H. cbn [mbind option_bind].
  rewrite (get_enum_name (Inj0 := approval_status_inj) _ _ _ _ (ap_status a));
    [|destruct (ap_status a); set_solver|done].
  by destruct a.
Qed.

Lemma get_strs_jstrs k j l : member (js k) j = Some (jstrs l) → get_strs k j = Some l.
Proof. intros H. unfold get_strs, get_list. rewrite H. by apply mapM_inverse. Qed.

Lemma get_list_inverse {A} (f : A → json) (g : json → option A) k j l :
  (∀ x, x ∈ l → g (f x) = Some x) → member (js k) j = Some (JArr (map f l)) →
  get_list g k j = Some l.
Proof. intros H Hm. unfold get_list. rewrite Hm. by apply mapM_inverse. Qed.

Lemma item_id_truthy s : truthy s = true → item_id (JStr s) = Some s.
Proof. intros H. unfold item_id. by rewrite H. Qed.

Lemma forallb_elem {A} (p : A → bool) l x : forallb p l = true → x ∈ l → p x = true.
Proof. rewrite forallb_forall. intros H Hx. by apply H, list_elem_of_In. Qed.

Lemma checkpoint_json_roundtrip is_datetime c :
  checkpoint_valid is_datetime c → checkpoint_of_json is_datetime (checkpoint_json c) = Some c.
Proof.
  intros [Hids Hdate]. unfold ids_ok in Hids. rewrite !andb_true_iff in Hids.
  destruct Hids as (((((Hd & Ha) & Ht) & Hp) & Hr) & Hcov).
  assert (∀ o, o ∈ [cp_coveredEntryStart c; cp_coveredEntryEnd c; cp_currentLeafId c] →
    ∀ s, o = Some s → item_id (JStr s) = Some s) as Hitem.
  { intros o Ho s ->. apply item_id_truthy. exact (forallb_elem _ _ _ Hcov Ho). }
  unfold checkpoint_of_json. set (j := checkpoint_json c).
  change (get_str "schema" j) with (Some (js "berry.session-checkpoint")).
  change (member (js "version") j) with (Some (JNum 2)).
  cbv beta iota. rewrite bool_decide_eq_true_2 by done. cbn [negb].
  change (get_str "generatedAt" j) with (Some (cp_generatedAt c)). cbn [mbind option_bind].
  rewrite Hdate. cbn [negb].
  change (get_str "goal" j) with (Some (cp_goal c)).
  rewrite (get_strs_jstrs "successCriteria" _ (cp_successCriteria c)) by reflexivity.
  rewrite (get_strs_jstrs "constraints" _ (cp_constraints c)) by reflexivity.
  rewrite (get_strs_jstrs "standingInstructions" _ (cp_standingInstructions c)) by reflexivity.
  rewrite (get_strs_jstrs "completedWork" _ (cp_completedWork c)) by reflexivity.
  rewrite (get_strs_jstrs "currentWork" _ (cp_currentWork c)) by reflexivity.
  rewrite (get_strs_jstrs "blockers" _ (cp_blockers c)) by reflexivity.
  rewrite (nullable_jopt item_str "waitingState" _ (cp_waitingState c)) by reflexivity.
  rewrite (get_list_inverse source_json source_of_json "decisions" _ (cp_decisions c));
    [|intros d Hin; apply source_roundtrip; exact (forallb_elem _ _ _ Hd Hin)|reflexivity].
  rewrite (get_strs_jstrs "unresolvedQuestions" _ (cp_unresolvedQuestions c)) by reflexivity.
  change (get_str "nextAction" j) with (Some (cp_nextAction c)).
  rewrite (get_strs_jstrs "filesRead" _ (cp_filesRead c)) by reflexivity.
  rewrite (get_strs_jstrs "filesModified" _ (cp_filesModified c)) by reflexivity.
  rewrite (get_list_inverse artifact_json artifact_of_json "artifacts" _ (cp_artifacts c));
    [|intros a Hin; apply artifact_roundtrip; exact (forallb_elem _ _ _ Ha Hin)|reflexivity].
  rewrite (get_list_inverse command_json command_of_json "commands" _ (cp_commands c));
    [|intros x _; apply command_roundtrip|reflexivity].
  rewrite (get_list_inverse tool_call_json tool_call_of_json "toolCalls" _ (cp_toolCalls c));
    [|intros t Hin; apply tool_call_roundtrip; exact (forallb_elem _ _ _ Ht Hin)|reflexivity].
  rewrite (get_list_inverse approval_json approval_of_json "approvals" _ (cp_approvals c));
    [|intros a Hin; apply approval_roundtrip; exact (forallb_elem _ _ _ Hp Hin)|reflexivity].
  rewrite (nullable_jopt item_str "promptManifestHash" _ (cp_promptManifestHash c)) by reflexivity.
  rewrite (get_list_inverse JStr item_id "retrievalSnapshotIds" _ (cp_retrievalSnapshotIds c));
    [|intros s Hin; apply item_id_truthy; exact (forallb_elem _ _ _ Hr Hin)|reflexivity].
  rewrite (nullable_jopt item_id "coveredEntryStart" _ (cp_coveredEntryStart c));
    [|apply Hitem; set_solver|reflexivity].
  rewrite (nullable_jopt item_id "coveredEntryEnd" _ (cp_coveredEntryEnd c));
    [|apply Hitem; set_solver|reflexivity].
  rewrite (nullable_jopt item_id "currentLeafId" _ (cp_currentLeafId c));
    [|apply Hitem; set_solver|reflexivity].
  change (get_str "narrative" j) with (Some (cp_narrative c)).
  by destruct c.
Qed.

(** ** Ids stay non-empty *)

Definition opt_truthy (o : option jstr) : bool :=
  match o with Some s => truthy s | None => true end.

Record ids_valid (c : SessionCheckpointV2) : Prop := {
  iv_decisions : Forall (λ d, truthy (dc_entryId d) = true) (cp_decisions c);
  iv_artifacts : Forall (λ a, truthy (ar_id a) = true) (cp_artifacts c);
  iv_toolCalls : Forall (λ t, truthy (tc_toolCallId t) = true) (cp_toolCalls c);
  iv_approvals : Forall (λ a, truthy (ap_approvalId a) = true) (cp_approvals c);
  iv_retrieval : Forall (λ s, truthy s = true) (cp_retrievalSnapshotIds c);
  iv_coverage : Forall (λ o, opt_truthy o = true)
    [cp_coveredEntryStart c; cp_coveredEntryEnd c; cp_currentLeafId c];
}.

(** The evidence a schema check accepts. *)
Record det_valid (is_datetime : jstr → bool) (d : CheckpointDeterministicFields) : Prop := {
  dv_generatedAt : is_datetime (df_generatedAt d) = true;
  dv_toolCalls : Forall (λ t, truthy (tc_toolCallId t) = true) (nullish (df_toolCalls d) []);
  dv_approvals : Forall (λ a, truthy (ap_approvalId a) = true) (nullish (df_approvals d) []);
  dv_coverage : Forall (λ o, opt_truthy o = true)
    [df_coveredEntryStart d; df_coveredEntryEnd d; df_currentLeafId d];
}.

Lemma forallb_Forall_true {A} (p : A → bool) l : forallb p l = true ↔ Forall (λ x, p x = true) l.
Proof. rewrite forallb_forall, Forall_forall. setoid_rewrite list_elem_of_In. done. Qed.

Lemma ids_ok_valid c : ids_ok c = true ↔ ids_valid c.
Proof.
  unfold ids_ok. rewrite !andb_true_iff, !forallb_Forall_true.
  split; [intros; destruct_and!; by split|intros []; done].
Qed.

Lemma elem_dedupeBy {A} (key : A → jstr) l x : x ∈ dedupeBy l key → x ∈ l.
Proof.
  unfold dedupeBy, map_values. intros ([k v] & -> & Hin)%list_elem_of_fmap. simpl.
  pose proof (map_elem_get _ _ _ (map_of_entries_NoDup _) Hin) as Hg.
  rewrite map_get_of_entries in Hg. apply fmap_Some in Hg as ([k' v'] & Hf & ->).
  apply find_first_Some in Hf as [Hf _]. rewrite elem_of_reverse in Hf.
  apply list_elem_of_fmap in Hf as (y & [= -> ->] & Hy). done.
Qed.

Lemma elem_boundedObjects {A} (l : list A) n x : x ∈ boundedObjects l n → x ∈ l.
Proof.
  intros H. destruct (boundedObjects_facts l n) as [[l' Hl] _]. rewrite Hl. set_solver.
Qed.

Lemma elem_mergeToolCalls earlier later t : t ∈ mergeToolCalls earlier later → t ∈ earlier ++ later.
Proof.
  intros Hin%elem_boundedObjects. change (fold_left _ later (fold_left _ earlier []))
    with (tool_map (tool_map [] earlier) later) in Hin.
  assert (∀ l m, t ∈ map_values (tool_map m l) → t ∈ map_values m ∨ t ∈ l) as H.
  { clear. induction l as [|x l IH]; intros m; [by left|]. unfold tool_map in *. cbn [fold_left].
    intros [Hm|]%IH; [|set_solver]. unfold map_values in Hm.
    apply list_elem_of_fmap in Hm as ([k v] & -> & Hin). simpl in *.
    apply map_set_elem in Hin as [[= -> ->]|Hin]; [set_solver|].
    left. unfold map_values. apply list_elem_of_fmap. by exists (k, v). }
  apply H in Hin as [[]%H|]; set_solver.
Qed.

Lemma elem_unique_truthy l : Forall (λ v, truthy v = true) (unique l).
Proof. apply Forall_forall. intros v Hv. by apply unique_elem in Hv as [? _]. Qed.

Lemma Forall_dedupe {A} (P : A → Prop) (key : A → jstr) l : Forall P l → Forall P (dedupeBy l key).
Proof. rewrite !Forall_forall. intros H x Hx%elem_dedupeBy. auto. Qed.

Lemma Forall_bounded {A} (P : A → Prop) l n : Forall P l → Forall P (boundedObjects l n).
Proof. rewrite !Forall_forall. intros H x Hx%elem_boundedObjects. auto. Qed.

Lemma Forall_toolCalls (P : ToolCall → Prop) l l' :
  Forall P l → Forall P l' → Forall P (mergeToolCalls l l').
Proof. rewrite !Forall_forall. intros H H' x [Hx|Hx]%elem_mergeToolCalls%elem_of_app; auto. Qed.

Lemma Forall_boundedUnique l n : Forall (λ v, truthy v = true) (boundedUnique l n).
Proof.
  apply Forall_forall. intros v Hv. destruct (boundedUnique_facts l n) as (_ & _ & H & _).
  apply H in Hv. by apply unique_elem in Hv as [? _].
Qed.

Lemma keeps_list_Forall {A} (P : A → Prop) (key : A → jstr) prot l l' :
  keeps_list key prot l l' → Forall P l → Forall P l'.
Proof. intros [Hs _]. rewrite !Forall_forall. intros H x Hx. apply H. by eapply elem_of_sublist. Qed.

#[export] Hint Resolve Forall_dedupe Forall_bounded Forall_toolCalls Forall_boundedUnique
  elem_unique_truthy : berry.
#[export] Hint Resolve -> Forall_app : berry.
#[export] Hint Extern 1 (Forall _ (_ ++ _)) => apply Forall_app; split : berry.

Section valid.
Context (is_datetime : jstr → bool).
Implicit Types (c segment latest : SessionCheckpointV2) (d : CheckpointDeterministicFields).

Lemma valid_iff c : checkpoint_valid is_datetime c ↔ ids_valid c ∧ is_datetime (cp_generatedAt c) = true.
Proof. unfold checkpoint_valid. by rewrite ids_ok_valid. Qed.

(** The evidence overlay of anything with valid ids is accepted. *)
Lemma apply_valid c d :
  ids_valid c → det_valid is_datetime d →
  ∃ c', applyCheckpointDeterminism is_datetime c d = Ok c' ∧ checkpoint_valid is_datetime c'.
Proof.
  intros [] []. unfold applyCheckpointDeterminism, schema_check.
  match goal with |- context [if ids_ok ?x && ?b then _ else _] =>
    assert (ids_ok x = true) as Hok; [|rewrite Hok; cbn [cp_generatedAt]; rewrite dv_generatedAt0] end.
  - apply ids_ok_valid. split; cbn; auto with berry.
  - eexists. split; [reflexivity|]. by split.
Qed.

Lemma bound_valid c latest d n :
  checkpoint_valid is_datetime c → checkpoint_valid is_datetime (boundSessionCheckpoint c latest d n).
Proof.
  rewrite !valid_iff. intros [[] Hd].
  destruct (bound_steps_spec c latest d n) as (b & Hb & [] & _).
  unfold boundSessionCheckpoint. rewrite Hb. simpl.
  split; [|congruence]. split; try (by eapply keeps_list_Forall). congruence.
Qed.

Lemma or_else_truthy a b :
  opt_truthy a = true → opt_truthy b = true → opt_truthy (or_else a b) = true.
Proof. by destruct a. Qed.

Lemma det_start_valid start d :
  opt_truthy start = true → det_valid is_datetime d → det_valid is_datetime (det_start start d).
Proof.
  intros Hs []. split; [done..|]. cbn. rewrite !Forall_cons in *. naive_solver.
Qed.

Lemma merged_ids_valid previous segment d :
  ids_valid previous → ids_valid segment → ids_valid (merged_checkpoint previous segment d).
Proof.
  intros [] []. split; cbn; auto with berry.
  - rewrite !Forall_cons in *. destruct_and!. split_and!; try done. by apply or_else_truthy.
Qed.

Lemma merge_valid previous segment d :
  (∀ p, previous = Some p → checkpoint_valid is_datetime p) → ids_valid segment →
  det_valid is_datetime d →
  ∃ c, mergeSessionCheckpoints is_datetime previous segment d = Ok c ∧ checkpoint_valid is_datetime c.
Proof.
  intros Hp Hs Hd. unfold mergeSessionCheckpoints. destruct previous as [p|].
  - destruct (proj1 (valid_iff p) (Hp p eq_refl)) as [Hpi _].
    set (d' := det_start _ d). assert (det_valid is_datetime d') as Hd'.
    { apply det_start_valid; [|done]. destruct Hpi as [_ _ _ _ _ Hc1], Hd as [_ _ _ Hc2].
      rewrite !Forall_cons in *. apply or_else_truthy; tauto. }
    destruct (apply_valid (merged_checkpoint p segment d) d') as (c & -> & Hc);
      [by apply merged_ids_valid|done|].
    eexists. split; [reflexivity|]. by apply bound_valid.
  - destruct (apply_valid segment d) as (c & -> & Hc); [done|done|].
    eexists. split; [reflexivity|]. by apply bound_valid.
Qed.

Lemma empty_ids_valid now narrative : ids_valid (empty_checkpoint now narrative).
Proof. split; cbn; repeat constructor. Qed.

Lemma fallback_valid previous d o :
  (∀ p, previous = Some p → checkpoint_valid is_datetime p) → det_valid is_datetime d →
  ∃ c, checkpointFallback is_datetime previous d o = Ok c ∧ checkpoint_valid is_datetime c.
Proof.
  intros Hp Hd. unfold checkpointFallback, emptySessionCheckpoint.
  destruct (apply_valid (empty_checkpoint (df_generatedAt d) (nullish (fo_narrative o) [])) d)
    as (c & -> & Hc); [apply empty_ids_valid|done|].
  apply merge_valid; [done| |done]. apply valid_iff in Hc as [[] _]. by split.
Qed.

Lemma rebase_valid segments d :
  Forall (checkpoint_valid is_datetime) segments → det_valid is_datetime d →
  ∃ c, rebaseSessionCheckpoint is_datetime segments d = Ok c ∧ checkpoint_valid is_datetime c.
Proof.
  intros Hs Hd. unfold rebaseSessionCheckpoint.
  assert (∃ r, rebase_loop is_datetime None segments d = Ok r
               ∧ ∀ c, r = Some c → checkpoint_valid is_datetime c) as (r & -> & Hr).
  { assert (∀ p, @None SessionCheckpointV2 = Some p → checkpoint_valid is_datetime p) as Hp by done.
    revert Hp. generalize (@None SessionCheckpointV2).
    induction Hs as [|s segments Hv Hs IH]; intros p Hp; [by exists p|]. cbn [rebase_loop].
    destruct (proj1 (valid_iff s) Hv) as [Hids Hdate].
    destruct (merge_valid p s (segment_evidence s d)) as (c & -> & Hc); [done|done| |].
    { destruct Hids. split; [done|constructor..|done]. }
    apply IH. by intros ? [= <-]. }
  assert (∃ latest, match last segments with Some latest => Ok latest
                    | None => emptySessionCheckpoint is_datetime d [] end = Ok latest
                    ∧ checkpoint_valid is_datetime latest) as (latest & Hl & Hlv).
  { destruct (last segments) as [l|] eqn:El.
    - exists l. split; [done|]. rewrite Forall_forall in Hs. by apply Hs, last_Some_elem_of.
    - unfold emptySessionCheckpoint. apply apply_valid; [apply empty_ids_valid|done]. }
  cbn [mbind result_bind]. rewrite Hl. cbn [mbind result_bind].
  assert (checkpoint_valid is_datetime (nullish r latest)) as Hn by (destruct r; [by apply Hr|done]).
  destruct (apply_valid (nullish r latest) d) as (c & -> & Hc); [by apply valid_iff in Hn as [? _]|done|].
  eexists. split; [reflexivity|]. by apply bound_valid.
Qed.

(** C38: a checkpoint the schema accepts survives being stored: parsed from the
    JSON object of the details of a session entry, or from its text, it is the
    same checkpoint. *)
Theorem checkpoint_roundtrip c :
  checkpoint_valid is_datetime c →
  parseSessionCheckpoint is_datetime (inr (checkpoint_json c)) = Some c
  ∧ (json_wf (checkpoint_json c) →
     parseSessionCheckpoint is_datetime (inl (stringify (checkpoint_json c))) = Some c).
Proof.
  intros H. split; [by apply checkpoint_json_roundtrip|]. intros Hwf.
  unfold parseSessionCheckpoint. assert (stripJsonCodeFence (stringify (checkpoint_json c))
    = stringify (checkpoint_json c)) as ->.
  { cbn [checkpoint_json stringify]. generalize (join [44%N] (map (λ '(k, v), quote k ++ 58%N :: stringify v)
      (checkpoint_members c))). intros body. unfold stripJsonCodeFence.
    assert (trim (123%N :: body ++ [125%N]) = 123%N :: body ++ [125%N]) as ->.
    { unfold trim, trim_end. cbn [trim_start]. replace (is_ws 123) with false by done.
      rewrite reverse_cons, reverse_snoc. cbn [app trim_start]. replace (is_ws 125) with false by done.
      by rewrite reverse_cons, reverse_app, reverse_involutive. }
    cbn [starts_with]. replace (starts_with (js "```") (123%N :: body ++ [125%N])) with false by done.
    unfold ends_with. rewrite reverse_cons, reverse_snoc. done. }
  rewrite json_roundtrip_value by done. by apply checkpoint_json_roundtrip.
Qed.
End valid.

(** ** What an operation gives is valid *)

Section result_valid.
Context (is_datetime : jstr → bool).

Lemma apply_Ok_valid c d c' :
  applyCheckpointDeterminism is_datetime c d = Ok c' → checkpoint_valid is_datetime c'.
Proof.
  unfold applyCheckpointDeterminism, schema_check. case_match eqn:Hc; [|done].
  intros [= <-]. apply andb_true_iff in Hc. exact Hc.
Qed.

Lemma merge_Ok_valid previous segment d c :
  mergeSessionCheckpoints is_datetime previous segment d = Ok c → checkpoint_valid is_datetime c.
Proof.
  unfold mergeSessionCheckpoints. destruct previous;
    intros (c0 & H0%apply_Ok_valid & [= <-])%result_bind_ok; by apply bound_valid.
Qed.

Lemma rebase_Ok_valid segments d c :
  rebaseSessionCheckpoint is_datetime segments d = Ok c → checkpoint_valid is_datetime c.
Proof.
  unfold rebaseSessionCheckpoint.
  intros (r & _ & (l & _ & (c0 & H0%apply_Ok_valid & [= <-])%result_bind_ok)%result_bind_ok)%result_bind_ok.
  by apply bound_valid.
Qed.

Lemma fallback_Ok_valid previous d o c :
  checkpointFallback is_datetime previous d o = Ok c → checkpoint_valid is_datetime c.
Proof. unfold checkpointFallback. intros (c0 & _ & H)%result_bind_ok. by apply merge_Ok_valid in H. Qed.
End result_valid.

(** ** What the parser accepts is valid *)

Lemma mapM_Forall {A} (g : json → option A) (P : A → Prop) l l' :
  (∀ j x, g j = Some x → P x) → mapM g l = Some l' → Forall P l'.
Proof.
  intros Hg. revert l'. induction l as [|j l IH]; intros l'; cbn [mapM]; [intros [= <-]; constructor|].
  intros (x & Hx & (t & Ht & [= <-])%bind_Some)%bind_Some. constructor; [by eapply Hg|by apply IH].
Qed.

Lemma get_list_Forall {A} (g : json → option A) (P : A → Prop) k j l :
  (∀ j x, g j = Some x → P x) → get_list g k j = Some l → Forall P l.
Proof.
  intros Hg. unfold get_list. destruct (member (js k) j) as [[]|]; try done. by apply mapM_Forall.
Qed.

Lemma get_id_truthy k j s : get_id k j = Some s → truthy s = true.
Proof. unfold get_id. intros (x & _ & H)%bind_Some. by destruct (truthy x) eqn:Hx; simplify_eq. Qed.

Lemma item_id_Some j s : item_id j = Some s → truthy s = true.
Proof. destruct j; cbn; try done. by destruct (truthy _) eqn:?; intros; simplify_eq. Qed.

Lemma nullable_id_truthy k j o : get_nullable item_id k j = Some o → opt_truthy o = true.
Proof.
  unfold get_nullable. destruct (member (js k) j) as [[]|]; try (by intros [= <-]);
    intros (id & Hs%item_id_Some & ->)%fmap_Some; done.
Qed.

Lemma checkpoint_of_json_valid is_datetime j c :
  checkpoint_of_json is_datetime j = Some c → checkpoint_valid is_datetime c.
Proof.
  unfold checkpoint_of_json. repeat case_match; try done.
  intros (generatedAt & _ & Hrest)%bind_Some. destruct (is_datetime generatedAt) eqn:Hdate; [|done].
  cbn [negb] in Hrest.
  repeat (let x := fresh "x" in let Hx := fresh "G" in apply bind_Some in Hrest as (x & Hx & Hrest)).
  injection Hrest as <-. split; [|done]. apply ids_ok_valid. split; cbn.
  - eapply (get_list_Forall source_of_json); [|done]. unfold source_of_json.
    by intros ? ? (id & Hid%get_id_truthy & (? & _ & [= <-])%bind_Some)%bind_Some.
  - eapply (get_list_Forall artifact_of_json); [|done]. unfold artifact_of_json.
    by intros ? ? (id & Hid%get_id_truthy & (? & _ & (? & _ & [= <-])%bind_Some)%bind_Some)%bind_Some.
  - eapply (get_list_Forall tool_call_of_json); [|done]. unfold tool_call_of_json.
    by intros ? ? (id & Hid%get_id_truthy & (? & _ & (? & _ & (? & _ & (? & _ & [= <-])%bind_Some)%bind_Some)%bind_Some)%bind_Some)%bind_Some.
  - eapply (get_list_Forall approval_of_json); [|done]. unfold approval_of_json.
    by intros ? ? (id & Hid%get_id_truthy & (? & _ & [= <-])%bind_Some)%bind_Some.
  - by eapply (get_list_Forall item_id); [apply item_id_Some|].
  - repeat constructor; by eapply nullable_id_truthy.
Qed.

Lemma parse_valid is_datetime v c :
  parseSessionCheckpoint is_datetime v = Some c → checkpoint_valid is_datetime c.
Proof.
  destruct v as [t|j]; cbn [parseSessionCheckpoint].
  - intros (j & _ & H)%bind_Some. by eapply checkpoint_of_json_valid.
  - apply checkpoint_of_json_valid.
Qed.

Lemma checkpoint_roundtrip_witness :
  checkpoint_valid (λ _, true) (demo_checkpoint (js "w") (Some (js "e1")))
  ∧ parseSessionCheckpoint (λ _, true)
      (inl (stringify (checkpoint_json (demo_checkpoint (js "w") (Some (js "e1"))))))
    = Some (demo_checkpoint (js "w") (Some (js "e1"))).
Proof.
  assert (checkpoint_valid (λ _, true) (demo_checkpoint (js "w") (Some (js "e1")))) as H by done.
  split; [exact H|]. apply (checkpoint_roundtrip (λ _, true) _ H).
  apply json_wfb_sound. vm_compute. reflexivity.
Defined.
