(* ===== verification/Double.v ===== *)
(** * Products of an integer and a double

    The thresholds of the compaction code multiply an integer by a fraction
    such as 0.35. A non-negative finite double is an integer below 2^53 over a
    power of two, and a product is rounded to 53 significant bits, ties to
    even, as IEEE 754 has it. *)

From S2P Require Import Prelude.
From Stdlib Require Import Lia.
Local Open Scope Z_scope.

Set Default Goal Selector "!".

(** The value [d_mant / 2 ^ d_scale]. *)
Record double := { d_mant : Z; d_scale : Z }.

(** Rounding to 53 significant bits. *)
Definition round53 (p : Z) : Z :=
  let e := Z.log2 p - 52 in
  if e <=? 0 then p
  else
    let unit := 2 ^ e in
    let q := p / unit in
    let r := p mod unit in
    if (unit <? 2 * r) || ((2 * r =? unit) && Z.odd q) then (q + 1) * unit else q * unit.

(** [n * d], for an integer [0 <= n < 2 ^ 53]. *)
Definition times (n : Z) (d : double) : double :=
  {| d_mant := round53 (n * d_mant d); d_scale := d_scale d |}.

(** [Math.floor(d)]. *)
Definition dfloor (d : double) : Z := d_mant d / 2 ^ d_scale d.

(** [n < d], for an integer [n]. *)
Definition int_lt (n : Z) (d : double) : bool := n * 2 ^ d_scale d <? d_mant d.

Definition d_0_35 : double := {| d_mant := 3152519739159347; d_scale := 53 |}.
Definition d_0_8 : double := {| d_mant := 3602879701896397; d_scale := 52 |}.
Definition d_0_9 : double := {| d_mant := 8106479329266893; d_scale := 53 |}.
Definition d_0_5 : double := {| d_mant := 1; d_scale := 1 |}.
Definition d_1 : double := {| d_mant := 1; d_scale := 0 |}.

Lemma round53_exact p : p < 2 ^ 53 → round53 p = p.
Proof.
  intros H. unfold round53. destruct (Z.leb_spec (Z.log2 p - 52) 0); [done|].
  destruct (Z.leb_spec p 0); [rewrite Z.log2_nonpos in *; lia|].
  pose proof (proj1 (Z.log2_lt_pow2 p 53 ltac:(lia)) H). lia.
Qed.

(** Rounding loses at most half a unit in the last place. *)
Lemma round53_error p : 0 <= p → 2 ^ 53 * Z.abs (round53 p - p) <= p.
Proof.
  intros Hp. unfold round53. destruct (Z.leb_spec (Z.log2 p - 52) 0) as [He|He]; [rewrite Z.sub_diag; lia|].
  set (e := Z.log2 p - 52) in *.
  assert (0 < 2 ^ e) as Hu by (apply Z.pow_pos_nonneg; lia).
  assert (2 ^ 52 * 2 ^ e <= p) as Hbig.
  { rewrite <- Z.pow_add_r by lia. replace (52 + e) with (Z.log2 p) by lia.
    apply Z.log2_spec. destruct (Z.eq_dec p 0) as [->|]; [simpl in *; lia|lia]. }
  pose proof (Z.div_mod p (2 ^ e) ltac:(lia)) as Hdm.
  pose proof (Z.mod_pos_bound p (2 ^ e) Hu) as Hm.
  destruct (Z.ltb_spec (2 ^ e) (2 * (p mod 2 ^ e))); cbn [orb]; [nia|].
  destruct ((2 * (p mod 2 ^ e) =? 2 ^ e) && Z.odd (p / 2 ^ e)) eqn:Ht; [|nia].
  apply andb_true_iff in Ht as [Ht%Z.eqb_eq _]. nia.
Qed.

(** A product with a fraction below one stays at or below the integer. *)
Lemma dfloor_times_le n d :
  0 <= n → 0 <= d_mant d → 0 <= d_scale d → 2 * d_mant d <= 2 ^ d_scale d →
  0 <= dfloor (times n d) <= n.
Proof.
  intros Hn Hm Hs Hd. unfold dfloor, times. simpl.
  assert (0 < 2 ^ d_scale d) as Hp by (apply Z.pow_pos_nonneg; lia).
  pose proof (round53_error (n * d_mant d) ltac:(nia)) as He.
  assert (0 <= round53 (n * d_mant d) <= 2 * (n * d_mant d)) by nia.
  split; [apply Z.div_pos; nia|]. apply Z.div_le_upper_bound; nia.
Qed.
