(* ===== verification/CompactionText.v ===== *)
(** * The text of a compaction: touched files and the serialized conversation

    packages/harness/src/harness/compaction/utils.ts. A [Set] of paths is its
    elements in insertion order. *)

From stdpp Require Import sorting.
From S2P Require Import Prelude JsMap JsString Json Messages Double.
From Stdlib Require Import Lia.

Set Default Goal Selector "!".

(** ** The files a branch touches *)

Record FileOperations := { fo_read : list jstr; fo_written : list jstr; fo_edited : list jstr }.

Definition createFileOps : FileOperations := {| fo_read := []; fo_written := []; fo_edited := [] |}.

Definition add_read (p : jstr) (o : FileOperations) : FileOperations :=
  {| fo_read := set_add p (fo_read o); fo_written := fo_written o; fo_edited := fo_edited o |}.
Definition add_written (p : jstr) (o : FileOperations) : FileOperations :=
  {| fo_read := fo_read o; fo_written := set_add p (fo_written o); fo_edited := fo_edited o |}.
Definition add_edited (p : jstr) (o : FileOperations) : FileOperations :=
  {| fo_read := fo_read o; fo_written := fo_written o; fo_edited := set_add p (fo_edited o) |}.

(** The [path] of the arguments, when it is a non-empty string. *)
Definition path_argument (arguments : json) : option jstr :=
  match member (js "path") arguments with
  | Some (JStr p) => if truthy p then Some p else None
  | _ => None
  end.

(** One block of an assistant message. *)
Definition block_file_ops (o : FileOperations) (b : Block) : FileOperations :=
  match b with
  | ToolCallBlock _ name arguments =>
      match path_argument arguments with
      | Some path =>
          if bool_decide (name = js "read") then add_read path o
          else if bool_decide (name = js "write") then add_written path o
          else if bool_decide (name = js "edit") then add_edited path o
          else o
      | None => o
      end
  | _ => o
  end.

Definition extractFileOpsFromMessage (message : AgentMessage) (o : FileOperations) : FileOperations :=
  match message with
  | Assistant a => fold_left block_file_ops (am_content a) o
  | _ => o
  end.

Definition js_leq (a b : jstr) : Prop := js_le a b = true.
#[export] Instance js_leq_dec : RelDecision js_leq.
Proof. unfold RelDecision, js_leq. intros a b. apply _. Defined.

Definition js_sort (l : list jstr) : list jstr := merge_sort js_leq l.

(** [readFiles] and [modifiedFiles]. *)
Definition computeFileLists (o : FileOperations) : list jstr * list jstr :=
  let modified := set_of_list (fo_edited o ++ fo_written o) in
  (js_sort (filter (λ f, set_has f modified = false) (fo_read o)), js_sort modified).

Definition file_section (tag : jstr) (files : list jstr) : list jstr :=
  match files with
  | [] => []
  | _ => [js "<" ++ tag ++ js ">" ++ [NL] ++ join [NL] files ++ [NL] ++ js "</" ++ tag ++ js ">"]
  end.

Definition formatFileOperations (readFiles modifiedFiles : list jstr) : jstr :=
  match file_section (js "read-files") readFiles ++ file_section (js "modified-files") modifiedFiles with
  | [] => []
  | sections => [NL; NL] ++ join [NL; NL] sections
  end.

(** ** Truncation *)

Definition len (s : jstr) : Z := Z.of_nat (length s).

Definition USER_MESSAGE_MAX_CHARS : Z := 80000.
Definition ASSISTANT_TEXT_MAX_CHARS : Z := 40000.
Definition ASSISTANT_THINKING_MAX_CHARS : Z := 16000.
Definition TOOL_CALL_ARGS_MAX_CHARS : Z := 12000.
Definition TOOL_RESULT_MAX_CHARS : Z := 2000.

Definition truncateForSummary (text : jstr) (maxChars : Z) : jstr :=
  if (len text <=? maxChars)%Z then text
  else take (Z.to_nat maxChars) text ++ [NL; NL] ++ js "[... " ++ dec (len text - maxChars)
       ++ js " more characters truncated]".

Definition omitted_marker (omittedChars : Z) : jstr :=
  [NL; NL] ++ js "[... " ++ dec omittedChars
  ++ js " characters omitted from the middle to fit the compaction request ...]" ++ [NL; NL].

Definition truncateConversationForSummary (text : jstr) (maxChars : Z) : jstr :=
  if ((maxChars <=? 0) || (len text <=? maxChars))%Z then text
  else
    let headChars := dfloor (times maxChars d_0_35) in
    let tailChars := (maxChars - headChars)%Z in
    let omittedChars := (len text - maxChars)%Z in
    take (Z.to_nat headChars) text ++ omitted_marker omittedChars
    ++ last_n (Z.to_nat tailChars) text.

(** ** The conversation as text *)

(** [safeJsonStringify]: a JSON value always has a text. *)
Definition safeJsonStringify (value : json) : jstr := stringify value.

Definition block_texts (l : list Block) : list jstr :=
  flat_map (λ b, match b with TextBlock t => [t] | _ => [] end) l.

(** The arguments of a call are an object. *)
Definition call_arguments (arguments : json) : list (jstr * json) :=
  match arguments with JObj l => l | _ => [] end.

Definition assistant_texts (l : list Block) : list jstr :=
  flat_map (λ b, match b with
    | TextBlock t => [truncateForSummary t ASSISTANT_TEXT_MAX_CHARS] | _ => [] end) l.
Definition assistant_thinking (l : list Block) : list jstr :=
  flat_map (λ b, match b with
    | ThinkingBlock t => [truncateForSummary t ASSISTANT_THINKING_MAX_CHARS] | _ => [] end) l.
Definition assistant_calls (l : list Block) : list jstr :=
  flat_map (λ b, match b with
    | ToolCallBlock _ name arguments =>
        let argsStr := join (js ", ")
          (map (λ '(k, v), k ++ js "=" ++ safeJsonStringify v) (call_arguments arguments)) in
        [name ++ js "(" ++ truncateForSummary argsStr TOOL_CALL_ARGS_MAX_CHARS ++ js ")"]
    | _ => [] end) l.

Definition nonempty_part (label : jstr) (sep : jstr) (parts : list jstr) : list jstr :=
  match parts with [] => [] | _ => [label ++ join sep parts] end.

(** The parts one message contributes. *)
Definition serialize_message (msg : LlmMessage) : list jstr :=
  match msg with
  | LlmRawItems _ fallback _ =>
      match fallback with
      | Some s => if truthy s
                  then [js "[Compacted Responses context]: " ++ truncateForSummary s USER_MESSAGE_MAX_CHARS]
                  else []
      | None => []
      end
  | LlmUser content _ =>
      let content := match content with CText s => s | CBlocks l => mjoin (block_texts l) end in
      if truthy content
      then [js "[User]: " ++ truncateForSummary content USER_MESSAGE_MAX_CHARS] else []
  | LlmAssistant a =>
      nonempty_part (js "[Assistant thinking]: ") [NL] (assistant_thinking (am_content a))
      ++ nonempty_part (js "[Assistant]: ") [NL] (assistant_texts (am_content a))
      ++ nonempty_part (js "[Assistant tool calls]: ") (js "; ") (assistant_calls (am_content a))
  | LlmToolResult r =>
      let content := mjoin (block_texts (tr_content r)) in
      if truthy content
      then [js "[Tool result]: " ++ truncateForSummary content TOOL_RESULT_MAX_CHARS] else []
  end.

Definition serializeConversation (messages : list LlmMessage) : jstr :=
  join [NL; NL] (flat_map serialize_message messages).

(** ** The file lists are sorted sets *)

Lemma js_le_total a b : js_le a b = true ∨ js_le b a = true.
Proof.
  revert b. induction a as [|x a IH]; intros [|y b]; simpl; auto.
  destruct (N.lt_trichotomy x y) as [H|[->|H]].
  - left. apply orb_true_iff. left. by apply N.ltb_lt.
  - rewrite N.ltb_irrefl, N.eqb_refl. simpl. apply IH.
  - right. apply orb_true_iff. left. by apply N.ltb_lt.
Qed.

Lemma js_le_cons x a y b :
  js_le (x :: a) (y :: b) = true ↔ (x < y)%N ∨ x = y ∧ js_le a b = true.
Proof. simpl. rewrite orb_true_iff, andb_true_iff, N.ltb_lt, N.eqb_eq. done. Qed.

Lemma js_le_trans a b c : js_le a b = true → js_le b c = true → js_le a c = true.
Proof.
  revert b c. induction a as [|x a IH]; intros [|y b] [|z c]; try done.
  rewrite !js_le_cons. intros [?|[-> ?]] [?|[-> ?]]; [left; lia|by left|by left|].
  right. split; [done|]. by eapply IH.
Qed.

Lemma js_le_antisymm a b : js_le a b = true → js_le b a = true → a = b.
Proof.
  revert b. induction a as [|x a IH]; intros [|y b]; try done.
  rewrite !js_le_cons. intros [?|[? ?]] [?|[? ?]]; try lia. subst. f_equal. by apply IH.
Qed.

#[export] Instance js_leq_total : Total js_leq.
Proof. intros a b. apply js_le_total. Qed.
#[export] Instance js_leq_trans : Transitive js_leq.
Proof. intros a b c. apply js_le_trans. Qed.

Lemma js_sort_perm l : js_sort l ≡ₚ l.
Proof. apply merge_sort_Permutation. Qed.

Lemma js_sort_sorted l : StronglySorted js_leq (js_sort l).
Proof. apply (StronglySorted_merge_sort js_leq). Qed.

Lemma mjoin_nil_iff {A} (l : list (list A)) : mjoin l = [] ↔ Forall (λ x, x = []) l.
Proof.
  induction l as [|x l IH]; simpl; [split; [constructor|done]|].
  rewrite app_nil, Forall_cons, IH. done.
Qed.

(** The path and list a tool call adds to. *)
Definition touches (name : jstr) (p : jstr) (m : AgentMessage) : Prop :=
  ∃ a id args, m = Assistant a ∧ ToolCallBlock id name args ∈ am_content a
               ∧ path_argument args = Some p.

Definition ops_of (ms : list AgentMessage) (o : FileOperations) : FileOperations :=
  fold_left (λ o m, extractFileOpsFromMessage m o) ms o.

Lemma block_file_ops_spec o b p :
  (p ∈ fo_read (block_file_ops o b) ↔ p ∈ fo_read o
     ∨ ∃ id args, b = ToolCallBlock id (js "read") args ∧ path_argument args = Some p)
  ∧ (p ∈ fo_written (block_file_ops o b) ↔ p ∈ fo_written o
     ∨ ∃ id args, b = ToolCallBlock id (js "write") args ∧ path_argument args = Some p)
  ∧ (p ∈ fo_edited (block_file_ops o b) ↔ p ∈ fo_edited o
     ∨ ∃ id args, b = ToolCallBlock id (js "edit") args ∧ path_argument args = Some p).
Proof.
  assert (js "read" ≠ js "write" ∧ js "read" ≠ js "edit" ∧ js "write" ≠ js "edit") as (N1 & N2 & N3) by done.
  destruct b as [| | |id name args]; cbn [block_file_ops]; [naive_solver..|].
  destruct (path_argument args) as [q|] eqn:Hq; [|naive_solver].
  repeat case_bool_decide; subst; cbn [add_read add_written add_edited fo_read fo_written fo_edited];
    rewrite ?elem_of_set_add; naive_solver.
Qed.

Lemma extract_spec m o p :
  (p ∈ fo_read (extractFileOpsFromMessage m o) ↔ p ∈ fo_read o ∨ touches (js "read") p m)
  ∧ (p ∈ fo_written (extractFileOpsFromMessage m o) ↔ p ∈ fo_written o ∨ touches (js "write") p m)
  ∧ (p ∈ fo_edited (extractFileOpsFromMessage m o) ↔ p ∈ fo_edited o ∨ touches (js "edit") p m).
Proof.
  unfold touches. destruct m as [|a| | | | | |]; cbn [extractFileOpsFromMessage]; try naive_solver.
  assert (∀ name, (∃ a0 id args, Assistant a = Assistant a0
      ∧ ToolCallBlock id name args ∈ am_content a0 ∧ path_argument args = Some p)
    ↔ ∃ id args, ToolCallBlock id name args ∈ am_content a ∧ path_argument args = Some p) as E
    by naive_solver.
  rewrite !E. clear E.
  induction (am_content a) as [|b l IH] using rev_ind; [set_solver|].
  rewrite fold_left_app. cbn [fold_left].
  destruct (block_file_ops_spec (fold_left block_file_ops l o) b p) as (-> & -> & ->).
  destruct IH as (-> & -> & ->).
  split_and!; setoid_rewrite elem_of_app; setoid_rewrite list_elem_of_singleton; naive_solver.
Qed.

Lemma ops_of_spec ms o p :
  (p ∈ fo_read (ops_of ms o) ↔ p ∈ fo_read o ∨ ∃ m, m ∈ ms ∧ touches (js "read") p m)
  ∧ (p ∈ fo_written (ops_of ms o) ↔ p ∈ fo_written o ∨ ∃ m, m ∈ ms ∧ touches (js "write") p m)
  ∧ (p ∈ fo_edited (ops_of ms o) ↔ p ∈ fo_edited o ∨ ∃ m, m ∈ ms ∧ touches (js "edit") p m).
Proof.
  unfold ops_of. induction ms as [|m ms IH] using rev_ind; [set_solver|].
  rewrite fold_left_app. cbn [fold_left].
  destruct (extract_spec m (fold_left (λ o m, extractFileOpsFromMessage m o) ms o) p) as (-> & -> & ->).
  destruct IH as (-> & -> & ->).
  split_and!; setoid_rewrite elem_of_app; setoid_rewrite list_elem_of_singleton; naive_solver.
Qed.

Lemma ops_of_NoDup ms o : NoDup (fo_read o) → NoDup (fo_read (ops_of ms o)).
Proof.
  unfold ops_of. revert o. induction ms as [|m ms IH]; intros o Ho; [done|]. cbn [fold_left]. apply IH.
  destruct m as [|a| | | | | |]; try done. cbn [extractFileOpsFromMessage].
  revert o Ho. induction (am_content a) as [|b l IHl]; intros o Ho; [done|]. cbn [fold_left]. apply IHl.
  destruct b as [| | |id name args]; cbn [block_file_ops]; try done. destruct (path_argument args); [|done].
  repeat case_bool_decide; try done. by apply set_add_NoDup.
Qed.

Lemma computeFileLists_facts o :
  NoDup (fo_read o) →
  let '(readFiles, modifiedFiles) := computeFileLists o in
  StronglySorted js_leq readFiles ∧ StronglySorted js_leq modifiedFiles
  ∧ NoDup readFiles ∧ NoDup modifiedFiles
  ∧ (∀ p, p ∈ modifiedFiles ↔ p ∈ fo_edited o ∨ p ∈ fo_written o)
  ∧ (∀ p, p ∈ readFiles ↔ p ∈ fo_read o ∧ p ∉ modifiedFiles).
Proof.
  intros Hn. unfold computeFileLists. split_and!; try apply js_sort_sorted.
  - rewrite js_sort_perm. by apply NoDup_filter.
  - rewrite js_sort_perm. apply set_of_list_NoDup.
  - intros p. rewrite js_sort_perm, elem_of_set_of_list. set_solver.
  - intros p. rewrite !js_sort_perm, list_elem_of_filter, <- not_true_iff_false, set_has_true. naive_solver.
Qed.

(** ** Truncation *)

Lemma last_n_id {A} n (l : list A) : (length l <= n)%nat → last_n n l = l.
Proof. intros H. unfold last_n. by replace (length l - n)%nat with 0%nat by lia. Qed.

(** a conversation too long for the summary request keeps exactly
    [maxChars] of its characters, its opening and its end, around the marker
    that states how many are left out; a shorter one is unchanged. *)
Theorem truncateConversationForSummary_spec text maxChars :
  (0 < maxChars)%Z →
  (truncateConversationForSummary text maxChars = text ∧ (len text <= maxChars)%Z)
  ∨ (∃ head tail, truncateConversationForSummary text maxChars
        = head ++ omitted_marker (len text - maxChars) ++ tail
      ∧ head `prefix_of` text ∧ tail `suffix_of` text
      ∧ (len head + len tail)%Z = maxChars
      ∧ (maxChars < len text)%Z).
Proof.
  intros Hm. unfold truncateConversationForSummary.
  destruct (Z.leb_spec maxChars 0); [lia|]. destruct (Z.leb_spec (len text) maxChars); [by left|].
  right. cbn [orb].
  pose proof (dfloor_times_le maxChars d_0_35 ltac:(lia) ltac:(done) ltac:(done) ltac:(done)) as Hh.
  set (h := dfloor (times maxChars d_0_35)) in *. unfold len in *.
  exists (take (Z.to_nat h) text), (last_n (Z.to_nat (maxChars - h)) text). split; [reflexivity|].
  split; [apply prefix_take|]. split; [apply last_n_suffix|].
  split; [rewrite length_take, length_last_n; lia|lia].
Qed.

Lemma truncateConversationForSummary_spec_witness :
  (0 < 20)%Z ∧ truncateConversationForSummary (js "0123456789012345678901234") 20
    = js "0123456" ++ [NL; NL]
      ++ js "[... 5 characters omitted from the middle to fit the compaction request ...]"
      ++ [NL; NL] ++ js "2345678901234".
Proof.
  split; [lia|].
  destruct (truncateConversationForSummary_spec (js "0123456789012345678901234") 20 ltac:(lia))
    as [[_ H]|_]; [by vm_compute in H|vm_compute; reflexivity].
Defined.
