(* ===== verification/CutPoint.v ===== *)
(** * Token estimates and the cut of a compaction

    packages/harness/src/harness/compaction/compaction.ts, the part that
    decides whether to compact and where: estimates, threshold, valid cut
    points, the start of a turn, the cut. Indices are those of the list of
    entries; the callers pass ranges within it. *)

From S2P Require Import Prelude JsMap JsString Json Messages SessionTree Session Double CompactionText.
From Stdlib Require Import Lia.

Set Default Goal Selector "!".

(** ** Usage and estimates *)

(** [totalTokens || the sum of the parts]. *)
Definition calculateContextTokens (u : Usage) : Z :=
  (if u_totalTokens u =? 0 then u_input u + u_output u + u_cacheRead u + u_cacheWrite u
   else u_totalTokens u)%Z.

Definition getAssistantUsage (m : AgentMessage) : option Usage :=
  match m with
  | Assistant a =>
      match am_stopReason a, am_usage a with
      | StopAborted, _ | StopError, _ => None
      | _, Some u => if (0 <? calculateContextTokens u)%Z then Some u else None
      | _, None => None
      end
  | _ => None
  end.

Definition getLastAssistantUsage (entries : list Entry) : option Usage :=
  first_some (λ e, match e_data e with EMessage m => getAssistantUsage m | _ => None end)
    (reverse entries).

Definition ESTIMATED_IMAGE_CHARS : Z := 4800.

Definition block_chars (b : Block) : Z :=
  match b with TextBlock t => len t | ImageBlock _ _ => ESTIMATED_IMAGE_CHARS | _ => 0 end.

Definition estimateTextAndImageContentChars (content : Content) : Z :=
  match content with CText s => len s | CBlocks l => zsum block_chars l end.

Definition assistant_block_chars (b : Block) : Z :=
  match b with
  | TextBlock t => len t
  | ThinkingBlock t => len t
  | ToolCallBlock _ name arguments => len name + len (safeJsonStringify arguments)
  | ImageBlock _ _ => 0
  end.

(** [Math.ceil(chars / 4)]. *)
Definition ceil4 (chars : Z) : Z := ((chars + 3) / 4)%Z.

Definition estimateTokens (m : AgentMessage) : Z :=
  match m with
  | UserMessage content _ => ceil4 (estimateTextAndImageContentChars content)
  | Assistant a => ceil4 (zsum assistant_block_chars (am_content a))
  | CustomMessage _ content _ _ _ => ceil4 (estimateTextAndImageContentChars content)
  | ToolResult r => ceil4 (estimateTextAndImageContentChars (CBlocks (tr_content r)))
  | BashExecution b => ceil4 (len (be_command b) + len (be_output b))
  | BranchSummaryMessage summary _ _ => ceil4 (len summary)
  | CompactionSummaryMessage summary _ _ => ceil4 (len summary)
  | ResponsesRawItems _ _ _ => 0
  end.

Record ContextUsageEstimate := {
  cu_tokens : Z; cu_usageTokens : Z; cu_trailingTokens : Z; cu_lastUsageIndex : option nat;
}.

(** The last index whose element gives a result, with the result. *)
Fixpoint last_some {A B} (f : A → option B) (l : list A) : option (nat * B) :=
  match l with
  | [] => None
  | x :: l =>
      match last_some f l with
      | Some (i, b) => Some (S i, b)
      | None => match f x with Some b => Some (0%nat, b) | None => None end
      end
  end.

Definition getLastAssistantUsageInfo (messages : list AgentMessage) : option (nat * Usage) :=
  last_some getAssistantUsage messages.

Definition estimateContextTokens (messages : list AgentMessage) : ContextUsageEstimate :=
  match getLastAssistantUsageInfo messages with
  | None =>
      let estimated := zsum estimateTokens messages in
      {| cu_tokens := estimated; cu_usageTokens := 0; cu_trailingTokens := estimated;
         cu_lastUsageIndex := None |}
  | Some (i, u) =>
      let usageTokens := calculateContextTokens u in
      let trailingTokens := zsum estimateTokens (drop (S i) messages) in
      {| cu_tokens := usageTokens + trailingTokens; cu_usageTokens := usageTokens;
         cu_trailingTokens := trailingTokens; cu_lastUsageIndex := Some i |}
  end.

(** ** The threshold *)

Record CompactionSettings := {
  cs_enabled : bool; cs_reserveTokens : Z; cs_keepRecentTokens : Z; cs_triggerRatio : double;
  cs_maxSummarizationInputTokens : Z;
}.

Definition DEFAULT_COMPACTION_SETTINGS : CompactionSettings :=
  {| cs_enabled := true; cs_reserveTokens := 16384; cs_keepRecentTokens := 20000;
     cs_triggerRatio := d_1; cs_maxSummarizationInputTokens := 96000 |}.

Definition shouldCompact (contextTokens contextWindow : Z) (settings : CompactionSettings) : bool :=
  if negb (cs_enabled settings) then false
  else
    let reserveThreshold := (contextWindow - cs_reserveTokens settings)%Z in
    let ratioThreshold := dfloor (times contextWindow (cs_triggerRatio settings)) in
    let threshold := Z.max 1 (Z.min reserveThreshold ratioThreshold) in
    (threshold <? contextTokens)%Z.

(** ** The cut *)

Definition is_cut_point (e : Entry) : bool :=
  match e_data e with
  | EMessage (ToolResult _) | EMessage (ResponsesRawItems _ _ _) => false
  | EMessage _ | EBranchSummary _ _ _ _ | ECustomMessage _ _ _ _ => true
  | _ => false
  end.

(** A test of the entry at an index. *)
Definition at_index (p : Entry → bool) (entries : list Entry) (i : nat) : bool :=
  match entries !! i with Some e => p e | None => false end.

Definition findValidCutPoints (entries : list Entry) (startIndex endIndex : nat) : list nat :=
  filter (λ i, at_index is_cut_point entries i = true) (seq startIndex (endIndex - startIndex)).

Definition starts_turn (e : Entry) : bool :=
  match e_data e with
  | EBranchSummary _ _ _ _ | ECustomMessage _ _ _ _ => true
  | EMessage (UserMessage _ _) | EMessage (BashExecution _) => true
  | _ => false
  end.

(** [None] is the result -1. *)
Fixpoint findTurnStartIndex (entries : list Entry) (i startIndex : nat) : option nat :=
  if decide (i < startIndex)%nat then None
  else if at_index starts_turn entries i then Some i
  else match i with O => None | S i => findTurnStartIndex entries i startIndex end.

Record CutPointResult := {
  firstKeptEntryIndex : nat; turnStartIndex : option nat; isSplitTurn : bool;
}.

(** The tokens an entry counts in the loop that looks for the budget. *)
Definition entry_tokens (e : Entry) : Z :=
  match e_data e with EMessage m => estimateTokens m | _ => 0 end.
Definition is_message (e : Entry) : bool :=
  match e_data e with EMessage _ => true | _ => false end.

(** The loop over the last [k] entries of the range, from the end: the index
    where the sum reaches the budget. *)
Fixpoint budget_index (entries : list Entry) (startIndex k : nat) (keep acc : Z) : option nat :=
  match k with
  | O => None
  | S k =>
      let i := (startIndex + k)%nat in
      if negb (at_index is_message entries i) then budget_index entries startIndex k keep acc
      else
        let acc := (acc + match entries !! i with Some e => entry_tokens e | None => 0 end)%Z in
        if (keep <=? acc)%Z then Some i else budget_index entries startIndex k keep acc
  end.

(** The first cut point at or after [i], or else the last one. *)
Definition select_cut (cutPoints : list nat) (i : nat) : nat :=
  match find_first (λ c, bool_decide (i <= c)%nat) cutPoints with
  | Some c => c
  | None => default 0%nat (last cutPoints)
  end.

Definition stops_back_up (e : Entry) : bool :=
  match e_data e with ECompaction _ _ _ _ _ | EMessage _ => true | _ => false end.

Fixpoint back_up (entries : list Entry) (startIndex cutIndex : nat) : nat :=
  match cutIndex with
  | O => O
  | S prev =>
      if decide (S prev <= startIndex)%nat then S prev
      else if at_index stops_back_up entries prev then S prev
      else back_up entries startIndex prev
  end.

Definition is_user_entry (e : Entry) : bool :=
  match e_data e with EMessage (UserMessage _ _) => true | _ => false end.

Definition findCutPoint (entries : list Entry) (startIndex endIndex : nat) (keepRecentTokens : Z)
    : CutPointResult :=
  match findValidCutPoints entries startIndex endIndex with
  | [] => {| firstKeptEntryIndex := startIndex; turnStartIndex := None; isSplitTurn := false |}
  | (c0 :: _) as cutPoints =>
      let cutIndex :=
        match budget_index entries startIndex (endIndex - startIndex) keepRecentTokens 0 with
        | Some i => select_cut cutPoints i
        | None => c0
        end in
      let cutIndex := back_up entries startIndex cutIndex in
      let isUserMessage := at_index is_user_entry entries cutIndex in
      let turn := if isUserMessage then None else findTurnStartIndex entries cutIndex startIndex in
      {| firstKeptEntryIndex := cutIndex; turnStartIndex := turn;
         isSplitTurn := negb isUserMessage && bool_decide (is_Some turn) |}
  end.
