(* ===== verification/CutPointFacts.v ===== *)
(** * The cut of a compaction: bounds, tool results, budget

    Theorems about CutPoint.v: where the cut lies, that it does not separate a
    tool result from its call, and what token budget the kept range respects. *)

From stdpp Require Import sorting.
From S2P Require Import Prelude JsMap JsString Json Messages SessionTree Session Double CompactionText CutPoint.
From Stdlib Require Import Lia.

Set Default Goal Selector "!".

(** ** Definitions of the statements *)

Definition is_tool_result (e : Entry) : bool :=
  match e_data e with EMessage (ToolResult _) => true | _ => false end.

(** The estimated tokens of the messages from [c] to the end of the range. *)
Definition tokens_from (entries : list Entry) (e c : nat) : Z :=
  zsum entry_tokens (take (e - c) (drop c entries)).

(** ** Estimates are not negative *)

Lemma len_nonneg s : (0 <= len s)%Z.
Proof. unfold len. lia. Qed.

Lemma ceil4_nonneg n : (0 <= n)%Z → (0 <= ceil4 n)%Z.
Proof. intros. unfold ceil4. apply Z.div_pos; lia. Qed.

Lemma content_chars_nonneg c : (0 <= estimateTextAndImageContentChars c)%Z.
Proof.
  destruct c as [s|l]; cbn [estimateTextAndImageContentChars]; [apply len_nonneg|].
  apply zsum_nonneg. intros [] _; cbn [block_chars]; try apply len_nonneg; done.
Qed.

#[local] Hint Resolve len_nonneg ceil4_nonneg content_chars_nonneg Z.add_nonneg_nonneg : berry.

Lemma estimateTokens_nonneg m : (0 <= estimateTokens m)%Z.
Proof.
  destruct m; cbn [estimateTokens]; auto with berry; [|lia].
  apply ceil4_nonneg, zsum_nonneg. intros [] _; cbn [assistant_block_chars]; auto with berry; lia.
Qed.

Lemma entry_tokens_nonneg e : (0 <= entry_tokens e)%Z.
Proof. unfold entry_tokens. destruct (e_data e); try lia. apply estimateTokens_nonneg. Qed.

(** ** Sums over a range *)

Lemma tokens_from_step entries e c x :
  entries !! c = Some x → (c < e)%nat →
  tokens_from entries e c = (entry_tokens x + tokens_from entries e (S c))%Z.
Proof.
  intros Hx Hc. unfold tokens_from. rewrite (drop_S _ _ _ Hx).
  replace (e - c)%nat with (S (e - S c)) by lia. cbn [take]. by rewrite zsum_cons.
Qed.

Lemma tokens_from_end entries e : tokens_from entries e e = 0%Z.
Proof. unfold tokens_from. by rewrite Nat.sub_diag. Qed.

Lemma tokens_from_mono entries e c c' :
  (e <= length entries)%nat → (c <= c' <= e)%nat →
  (tokens_from entries e c' <= tokens_from entries e c)%Z.
Proof.
  intros He [Hc Hc']. induction Hc as [|c' Hc IH]; [lia|].
  destruct (lookup_lt_is_Some_2 entries c' ltac:(lia)) as [x Hx].
  pose proof (tokens_from_step entries e c' x Hx ltac:(lia)).
  pose proof (entry_tokens_nonneg x). specialize (IH ltac:(lia)). lia.
Qed.

Lemma not_message_tokens e : is_message e = false → entry_tokens e = 0%Z.
Proof. unfold is_message, entry_tokens. by destruct (e_data e). Qed.

(** ** The cut points of a range *)

Lemma elem_of_cut_points entries s e c :
  c ∈ findValidCutPoints entries s e ↔ (s <= c < e)%nat ∧ at_index is_cut_point entries c = true.
Proof. unfold findValidCutPoints. rewrite list_elem_of_filter, elem_of_seq. split; [intros []|intros [[]]]; split; try done; lia. Qed.

Lemma seq_sorted s n : StronglySorted lt (seq s n).
Proof.
  revert s. induction n as [|n IH]; intros s; simpl; constructor; [apply IH|].
  apply Forall_forall. intros x Hx%elem_of_seq. lia.
Qed.

Lemma filter_sorted {A} (R : relation A) (P : A → Prop) `{∀ x, Decision (P x)} l :
  StronglySorted R l → StronglySorted R (filter P l).
Proof.
  induction 1 as [|x l Hl IH Hx]; [constructor|]. rewrite filter_cons. case_decide; [|done].
  constructor; [done|]. rewrite Forall_forall in *. intros y [_ Hy]%list_elem_of_filter. auto.
Qed.

Lemma select_cut_spec cutPoints i :
  StronglySorted lt cutPoints → cutPoints ≠ [] →
  select_cut cutPoints i ∈ cutPoints
  ∧ (∀ c, c ∈ cutPoints → (c < select_cut cutPoints i)%nat → (c < i)%nat)
  ∧ (∀ c, c ∈ cutPoints → (select_cut cutPoints i < c)%nat → (i < c)%nat).
Proof.
  unfold select_cut. induction 1 as [|c0 l Hl IH Hx]; [done|]. intros _. cbn [find_first].
  rewrite Forall_forall in Hx. case_bool_decide as Hi.
  { split; [set_solver|]. split; intros c [->|Hc]%elem_of_cons; try lia. specialize (Hx c Hc). lia. }
  destruct l as [|c1 l]; [cbn; set_solver by lia|].
  destruct (IH ltac:(done)) as (H1 & H2 & H3). rewrite last_cons_cons.
  split; [by right|]. split; intros c [->|Hc]%elem_of_cons Hlt; [lia|by apply H2| |by apply H3].
  specialize (Hx _ H1). lia.
Qed.

(** ** The loop over the budget *)

Lemma budget_index_spec entries s e keep k :
  (0 < keep)%Z → (e <= length entries)%nat → (s + k <= e)%nat →
  (tokens_from entries e (s + k) < keep)%Z →
  match budget_index entries s k keep (tokens_from entries e (s + k)) with
  | Some i => (s <= i < s + k)%nat ∧ (keep <= tokens_from entries e i)%Z
              ∧ ∀ j, (i < j < s + k)%nat → (tokens_from entries e j < keep)%Z
  | None => ∀ j, (s <= j < s + k)%nat → (tokens_from entries e j < keep)%Z
  end.
Proof.
  intros Hkeep He. induction k as [|k IH]; intros Hk Hacc; [simpl; lia|]. cbn [budget_index].
  destruct (lookup_lt_is_Some_2 entries (s + k) ltac:(lia)) as [x Hx].
  pose proof (tokens_from_step entries e (s + k) x Hx ltac:(lia)) as Hstep.
  replace (S (s + k)) with (s + S k)%nat in Hstep by lia.
  unfold at_index. rewrite Hx. destruct (is_message x) eqn:Hm; cbn [negb].
  - replace (tokens_from entries e (s + S k) + entry_tokens x)%Z with (tokens_from entries e (s + k)) by lia.
    destruct (Z.leb_spec keep (tokens_from entries e (s + k))).
    + split; [lia|]. split; [done|]. lia.
    + specialize (IH ltac:(lia) ltac:(lia)). destruct (budget_index _ _ _ _ _) as [i|].
      * destruct IH as (? & ? & IH). split; [lia|]. split; [done|]. intros j Hj.
        destruct (decide (j = s + k)%nat) as [->|]; [done|apply IH; lia].
      * intros j Hj. destruct (decide (j = s + k)%nat) as [->|]; [done|apply IH; lia].
  - apply not_message_tokens in Hm.
    replace (tokens_from entries e (s + S k)) with (tokens_from entries e (s + k)) in * by lia.
    specialize (IH ltac:(lia) ltac:(lia)). destruct (budget_index _ _ _ _ _) as [i|].
    + destruct IH as (? & ? & IH). split; [lia|]. split; [done|]. intros j Hj.
      destruct (decide (j = s + k)%nat) as [->|]; [done|apply IH; lia].
    + intros j Hj. destruct (decide (j = s + k)%nat) as [->|]; [done|apply IH; lia].
Qed.

(** The cut point selected before backing up over metadata. *)
Definition selected_cut (entries : list Entry) (s e : nat) (keep : Z) (c0 : nat)
    (cutPoints : list nat) : nat :=
  match budget_index entries s (e - s) keep 0 with
  | Some i => select_cut cutPoints i
  | None => c0
  end.

Lemma selected_cut_spec entries s e keep c0 l :
  (e <= length entries)%nat → findValidCutPoints entries s e = c0 :: l →
  selected_cut entries s e keep c0 (c0 :: l) ∈ c0 :: l
  ∧ ((0 < keep)%Z → ∀ c, c ∈ c0 :: l →
      ((c < selected_cut entries s e keep c0 (c0 :: l))%nat → (keep <= tokens_from entries e c)%Z)
      ∧ ((selected_cut entries s e keep c0 (c0 :: l) < c)%nat → (tokens_from entries e c < keep)%Z)).
Proof.
  intros He Hcp.
  assert (StronglySorted lt (c0 :: l)) as Hsort by (rewrite <- Hcp; apply filter_sorted, seq_sorted).
  assert (∀ c, c ∈ c0 :: l → (s <= c < e)%nat) as Hin by
    (intros c Hc; rewrite <- Hcp in Hc; by apply elem_of_cut_points in Hc as [? _]).
  pose proof (Hin c0 ltac:(set_solver)) as Hc0.
  unfold selected_cut. split.
  { destruct (budget_index _ _ _ _ _); [by apply select_cut_spec|set_solver]. }
  intros Hkeep c Hc. specialize (Hin c Hc).
  pose proof (budget_index_spec entries s e keep (e - s) Hkeep He ltac:(lia)) as Hb.
  replace (s + (e - s))%nat with e in Hb by lia. rewrite tokens_from_end in Hb. specialize (Hb Hkeep).
  destruct (budget_index entries s (e - s) keep 0) as [i|].
  - destruct Hb as (Hi & Hge & Hlt). destruct (select_cut_spec (c0 :: l) i Hsort ltac:(done)) as (_ & H2 & H3).
    split; intros Hcmp.
    + pose proof (H2 c Hc Hcmp). pose proof (tokens_from_mono entries e c i He ltac:(lia)). lia.
    + apply Hlt. specialize (H3 c Hc Hcmp). lia.
  - split; [|intros _; by apply Hb]. intros Hlt. exfalso.
    apply elem_of_cons in Hc as [->|Hc]; [lia|].
    inversion Hsort as [|? ? _ Hall]; subst. rewrite Forall_forall in Hall. specialize (Hall c Hc). lia.
Qed.

Lemma back_up_spec entries s c :
  (s <= c)%nat →
  (s <= back_up entries s c <= c)%nat
  ∧ (∀ i, (back_up entries s c <= i < c)%nat → at_index stops_back_up entries i = false)
  ∧ (back_up entries s c = s ∨ at_index stops_back_up entries (back_up entries s c - 1) = true).
Proof.
  induction c as [|c IH]; intros Hs; cbn [back_up]; [split; [lia|]; split; [lia|left; lia]|].
  destruct (decide (S c <= s)%nat); [split; [lia|]; split; [lia|left; lia]|].
  destruct (at_index stops_back_up entries c) eqn:Hc.
  - split; [lia|]. split; [lia|]. right. by replace (S c - 1)%nat with c by lia.
  - destruct (IH ltac:(lia)) as (H1 & H2 & H3). split; [lia|]. split; [|done].
    intros i Hi. destruct (decide (i = c)) as [->|]; [done|apply H2; lia].
Qed.

Lemma findTurnStartIndex_spec entries i s :
  match findTurnStartIndex entries i s with
  | Some t => (s <= t <= i)%nat ∧ at_index starts_turn entries t = true
              ∧ ∀ j, (t < j <= i)%nat → at_index starts_turn entries j = false
  | None => ∀ j, (s <= j <= i)%nat → at_index starts_turn entries j = false
  end.
Proof.
  induction i as [|i IH]; cbn [findTurnStartIndex]; destruct (decide _) as [Hd|Hd]; try lia;
    destruct (at_index starts_turn entries _) eqn:Ht.
  - split; [lia|]. split; [done|lia].
  - intros j Hj. by replace j with 0%nat by lia.
  - split; [lia|]. split; [done|lia].
  - destruct (findTurnStartIndex entries i s) as [t|].
    + destruct IH as (? & ? & IH). split; [lia|]. split; [done|].
      intros j Hj. destruct (decide (j = S i)) as [->|]; [done|apply IH; lia].
    + intros j Hj. destruct (decide (j = S i)) as [->|]; [done|apply IH; lia].
Qed.

Lemma findCutPoint_unfold entries s e keep c0 l :
  findValidCutPoints entries s e = c0 :: l →
  firstKeptEntryIndex (findCutPoint entries s e keep)
  = back_up entries s (selected_cut entries s e keep c0 (c0 :: l)).
Proof. intros H. unfold findCutPoint. by rewrite H. Qed.

Lemma findCutPoint_facts entries s e keep :
  (s <= e <= length entries)%nat →
  let cut := firstKeptEntryIndex (findCutPoint entries s e keep) in
  (findValidCutPoints entries s e = [] ∧ cut = s)
  ∨ ∃ c, c ∈ findValidCutPoints entries s e ∧ (s <= cut <= c)%nat
      ∧ (∀ i, (cut <= i < c)%nat → at_index stops_back_up entries i = false)
      ∧ (cut = s ∨ at_index stops_back_up entries (cut - 1) = true)
      ∧ ((0 < keep)%Z → ∀ c', c' ∈ findValidCutPoints entries s e →
          ((c' < c)%nat → (keep <= tokens_from entries e c')%Z)
          ∧ ((c < c')%nat → (tokens_from entries e c' < keep)%Z)).
Proof.
  intros [Hs He]. cbv zeta. destruct (findValidCutPoints entries s e) as [|c0 l] eqn:Hcp.
  { left. split; [done|]. unfold findCutPoint. by rewrite Hcp. }
  right. rewrite (findCutPoint_unfold _ _ _ _ _ _ Hcp).
  destruct (selected_cut_spec entries s e keep c0 l He Hcp) as [Hin Hbud].
  set (c := selected_cut entries s e keep c0 (c0 :: l)) in *. exists c. split; [done|].
  assert (s <= c)%nat as Hsc by (rewrite <- Hcp in Hin; apply elem_of_cut_points in Hin; lia).
  destruct (back_up_spec entries s c Hsc) as (H1 & H2 & H3). done.
Qed.

Lemma findCutPoint_bounds entries s e keep :
  (s <= e <= length entries)%nat →
  (s <= firstKeptEntryIndex (findCutPoint entries s e keep) <= e)%nat
  ∧ ((s < e)%nat → (firstKeptEntryIndex (findCutPoint entries s e keep) < e)%nat).
Proof.
  intros H. destruct (findCutPoint_facts entries s e keep H) as [[_ Hs]|(c & Hc & Hcut & _)]; [lia|].
  apply elem_of_cut_points in Hc. lia.
Qed.

Lemma findCutPoint_turn entries s e keep :
  match turnStartIndex (findCutPoint entries s e keep) with
  | Some t => (s <= t <= firstKeptEntryIndex (findCutPoint entries s e keep))%nat
              ∧ isSplitTurn (findCutPoint entries s e keep) = true
  | None => isSplitTurn (findCutPoint entries s e keep) = false
  end.
Proof.
  unfold findCutPoint. destruct (findValidCutPoints entries s e) as [|c0 l]; [done|].
  cbn [turnStartIndex firstKeptEntryIndex isSplitTurn].
  set (cut := back_up _ _ _). destruct (at_index is_user_entry entries cut); [done|].
  pose proof (findTurnStartIndex_spec entries cut s) as Ht.
  destruct (findTurnStartIndex entries cut s) as [t|]; [|done].
  destruct Ht as (? & _). split; [lia|]. done.
Qed.

(** ** Theorems *)

(** the cut of a compaction lies in the range, in front of a valid cut
    point, or at the start when there is none. Only metadata, summaries of
    branches and custom messages stand between the cut and that point, and the
    point is the one the token budget asks for: at every earlier cut point the
    kept messages would reach [keepRecentTokens], at every later one they would
    stay below it. *)
Theorem findCutPoint_spec entries s e keep :
  (s < e <= length entries)%nat → (0 < keep)%Z →
  let cut := firstKeptEntryIndex (findCutPoint entries s e keep) in
  (s <= cut < e)%nat
  ∧ ((findValidCutPoints entries s e = [] ∧ cut = s)
     ∨ ∃ c, c ∈ findValidCutPoints entries s e ∧ (cut <= c)%nat
         ∧ (∀ i, (cut <= i < c)%nat → at_index stops_back_up entries i = false)
         ∧ (cut = s ∨ at_index stops_back_up entries (cut - 1) = true)
         ∧ (∀ c', c' ∈ findValidCutPoints entries s e →
             ((c' < c)%nat → (keep <= tokens_from entries e c')%Z)
             ∧ ((c < c')%nat → (tokens_from entries e c' < keep)%Z))).
Proof.
  intros He Hk cut. pose proof (findCutPoint_bounds entries s e keep ltac:(lia)) as Hb. fold cut in Hb.
  split; [lia|].
  destruct (findCutPoint_facts entries s e keep ltac:(lia)) as [H|(c & H1 & H2 & H3 & H4 & H5)]; [by left|].
  right. exists c. split; [done|]. split; [unfold cut; lia|]. auto.
Qed.

(** C36: a compaction never keeps a tool result without the message that called
    the tool: when nothing but tool results and metadata stand between the
    entry [k] of the range and a tool result [j], the cut keeps both or
    summarizes the tool result too. *)
Theorem cut_keeps_tool_calls entries s e keep k j :
  (s <= e <= length entries)%nat → (s <= k < j)%nat →
  at_index is_tool_result entries j = true →
  (∀ i, (k < i < j)%nat → at_index is_cut_point entries i = false) →
  let cut := firstKeptEntryIndex (findCutPoint entries s e keep) in
  (cut <= k)%nat ∨ (j < cut)%nat.
Proof.
  intros He Hk Hj Hbetween cut. unfold cut.
  destruct (findCutPoint_facts entries s e keep He) as [[_ Hs]|(c & Hc & Hcut & Hmeta & _)]; [lia|].
  set (cut' := firstKeptEntryIndex _) in *. apply elem_of_cut_points in Hc as [_ Hc].
  destruct (decide (cut' <= k)%nat) as [|Hk']; [by left|].
  destruct (decide (j < cut')%nat) as [|Hj']; [by right|]. exfalso.
  destruct (lt_eq_lt_dec c j) as [[Hlt|Heq]|Hgt]; [|subst c|].
  - specialize (Hbetween c ltac:(lia)). congruence.
  - unfold at_index in *. destruct (entries !! j) as [x|]; [|done].
    unfold is_tool_result, is_cut_point in *. by destruct (e_data x) as [[]| | | | | | | | | |].
  - specialize (Hmeta j ltac:(lia)). unfold at_index in *. destruct (entries !! j) as [x|]; [|done].
    unfold is_tool_result, stops_back_up in *. by destruct (e_data x).
Qed.

(** ** Concrete entries *)

Definition demo_entry (n : nat) (data : EntryData) : Entry :=
  {| e_id := dec (Z.of_nat n); e_parentId := None; e_timestamp := 0; e_data := data |}.

Definition demo_user (text : jstr) : EntryData := EMessage (UserMessage (CText text) 0).
Definition demo_assistant (blocks : list Block) : EntryData :=
  EMessage (Assistant {| am_content := blocks; am_provider := js "p"; am_model := js "m";
    am_usage := None; am_stopReason := StopToolUse; am_errorMessage := None; am_timestamp := 0 |}).
Definition demo_result (id : jstr) (text : jstr) : EntryData :=
  EMessage (ToolResult {| tr_toolCallId := id; tr_toolName := js "read"; tr_content := [TextBlock text];
    tr_details := None; tr_isError := false; tr_timestamp := 0 |}).

Definition demo_read (id path : jstr) : Block :=
  ToolCallBlock id (js "read") (JObj [(js "path", JStr path)]).

(** A turn with two tool calls, then a second turn. *)
Definition demo_path : list Entry :=
  imap demo_entry
    [demo_user (js "please read both files");
     demo_assistant [demo_read (js "c1") (js "/a"); demo_read (js "c2") (js "/b")];
     demo_result (js "c1") (js "contents of a"); demo_result (js "c2") (js "contents of b");
     EThinkingLevelChange (js "high"); demo_assistant [TextBlock (js "done")];
     demo_user (js "thanks")].

Lemma findCutPoint_spec_witness :
  let cut := firstKeptEntryIndex (findCutPoint demo_path 0 7 3) in
  cut = 4%nat ∧ (0 <= cut < 7)%nat
  ∧ isSplitTurn (findCutPoint demo_path 0 7 3) = true.
Proof.
  split; [vm_compute; reflexivity|].
  split; [|vm_compute; reflexivity].
  apply (findCutPoint_spec demo_path 0 7 3); [vm_compute; lia|lia].
Defined.

Lemma cut_keeps_tool_calls_witness :
  let cut := firstKeptEntryIndex (findCutPoint demo_path 0 7 6) in
  cut = 4%nat ∧ ((cut <= 1)%nat ∨ (3 < cut)%nat).
Proof.
  split; [vm_compute; reflexivity|].
  apply (cut_keeps_tool_calls demo_path 0 7 6 1 3); [vm_compute; lia|lia|reflexivity|].
  intros i Hi. by replace i with 2%nat by lia.
Defined.
