(* ===== verification/Compaction.v ===== *)
(** * Compaction of a session

    packages/harness/src/harness/compaction/compaction.ts: preparing a
    compaction from the entries of a branch, the summaries, the result with its
    portable checkpoint. The model client threads a state of its own; abort
    signals are not modelled. *)

From S2P Require Import Prelude JsMap JsString Json Messages SessionTree Session Checkpoint Double CompactionText CutPoint PortableCheckpoint.
From Stdlib Require Import Lia.

Set Default Goal Selector "!".

(** ** Prompts *)

Definition SUMMARIZATION_SYSTEM_PROMPT : jstr :=
  js "You are a context summarization assistant. Your task is to read a conversation between a user and an AI assistant, then produce a structured summary following the exact format specified.

Do NOT continue the conversation. Do NOT respond to any questions in the conversation. ONLY output the structured summary.".

Definition SUMMARIZATION_PROMPT : jstr :=
  js "The messages above are a conversation to summarize. Create a structured context checkpoint summary that another LLM will use to continue the work.

Use this EXACT format:

## Goal
[What is the user trying to accomplish? Can be multiple items if the session covers different tasks.]

## Constraints & Preferences
- [Any constraints, preferences, or requirements mentioned by user]
- [Or " ++ [34%N] ++ js "(none)" ++ [34%N] ++ js " if none were mentioned]

## Progress
### Done
- [x] [Completed tasks/changes]

### In Progress
- [ ] [Current work]

### Blocked
- [Issues preventing progress, if any]

## Key Decisions
- **[Decision]**: [Brief rationale]

## Next Steps
1. [Ordered list of what should happen next]

## Critical Context
- [Any data, examples, or references needed to continue]
- [Or " ++ [34%N] ++ js "(none)" ++ [34%N] ++ js " if not applicable]

Keep each section concise. Preserve exact file paths, function names, and error messages.".

Definition UPDATE_SUMMARIZATION_PROMPT : jstr :=
  js "The messages above are NEW conversation messages to incorporate into the existing summary provided in <previous-summary> tags.

Update the existing structured summary with new information. RULES:
- PRESERVE all existing information from the previous summary
- ADD new progress, decisions, and context from the new messages
- UPDATE the Progress section: move items from " ++ [34%N] ++ js "In Progress" ++ [34%N] ++ js " to " ++ [34%N] ++ js "Done" ++ [34%N] ++ js " when completed
- UPDATE " ++ [34%N] ++ js "Next Steps" ++ [34%N] ++ js " based on what was accomplished
- PRESERVE exact file paths, function names, and error messages
- If something is no longer relevant, you may remove it

Use this EXACT format:

## Goal
[Preserve existing goals, add new ones if the task expanded]

## Constraints & Preferences
- [Preserve existing, add new ones discovered]

## Progress
### Done
- [x] [Include previously done items AND newly completed items]

### In Progress
- [ ] [Current work - update based on progress]

### Blocked
- [Current blockers - remove if resolved]

## Key Decisions
- **[Decision]**: [Brief rationale] (preserve all previous, add new)

## Next Steps
1. [Update based on current state]

## Critical Context
- [Preserve important context, add new if needed]

Keep each section concise. Preserve exact file paths, function names, and error messages.".

Definition TURN_PREFIX_SUMMARIZATION_PROMPT : jstr :=
  js "This is the PREFIX of a turn that was too large to keep. The SUFFIX (recent work) is retained.

Summarize the prefix to provide context for the retained suffix:

## Original Request
[What did the user ask for in this turn?]

## Early Progress
- [Key decisions and work done in the prefix]

## Context for Suffix
- [Information needed to understand the retained recent work]

Be concise. Focus on what's needed to understand the kept suffix.".

(** ** Messages of entries *)

Definition getMessageFromEntry (entry : Entry) : option AgentMessage :=
  match e_data entry with
  | EMessage m => Some m
  | ECustomMessage customType content details display =>
      Some (createCustomMessage customType content display details (e_timestamp entry))
  | EBranchSummary fromId summary _ _ =>
      Some (createBranchSummaryMessage summary fromId (e_timestamp entry))
  | ECompaction summary _ tokensBefore _ _ =>
      Some (createCompactionSummaryMessage summary tokensBefore (e_timestamp entry))
  | _ => None
  end.

Definition getMessageFromEntryForCompaction (entry : Entry) : option AgentMessage :=
  match e_data entry with
  | ECompaction _ _ _ _ _ => None
  | _ => getMessageFromEntry entry
  end.

(** The messages of the entries from index [a] up to [b]. *)
Definition messages_between (entries : list Entry) (a b : nat) : list AgentMessage :=
  omap getMessageFromEntryForCompaction (slice a b entries).

(** The strings of an array, as the details of an entry list files. *)
Definition json_strings (j : option json) : list jstr :=
  match j with
  | Some (JArr l) => flat_map (λ j, match j with JStr s => [s] | _ => [] end) l
  | _ => []
  end.

Definition json_truthy (j : json) : bool :=
  match j with
  | JNull => false | JBool b => b | JNum z => negb (z =? 0)%Z | JStr s => truthy s
  | JArr _ | JObj _ => true
  end.

(** The files recorded by an earlier compaction or branch summary. *)
Definition recorded_files (details : option json) (fromHook : option bool) (o : FileOperations)
    : FileOperations :=
  match details with
  | Some d =>
      if negb (default false fromHook) && json_truthy d then
        fold_left (λ o f, add_edited f o) (json_strings (member (js "modifiedFiles") d))
          (fold_left (λ o f, add_read f o) (json_strings (member (js "readFiles") d)) o)
      else o
  | None => o
  end.

Definition compaction_parts (e : Entry) : option (jstr * jstr * option json * option bool) :=
  match e_data e with
  | ECompaction summary firstKept _ details fromHook => Some (summary, firstKept, details, fromHook)
  | _ => None
  end.

Definition extractFileOperations (messages : list AgentMessage)
    (prevCompaction : option (jstr * jstr * option json * option bool)) : FileOperations :=
  let fileOps :=
    match prevCompaction with
    | Some (_, _, details, fromHook) => recorded_files details fromHook createFileOps
    | None => createFileOps
    end in
  fold_left (λ o msg, extractFileOpsFromMessage msg o) messages fileOps.

(** ** Preparation *)

Inductive CompactionError :=
| CompactionAborted (message : jstr)
| SummarizationFailed (message : jstr)
| CompactionInvalidSession (message : jstr).

Record CompactionPreparation := {
  pr_firstKeptEntryId : jstr; pr_messagesToSummarize : list AgentMessage;
  pr_turnPrefixMessages : list AgentMessage; pr_isSplitTurn : bool; pr_tokensBefore : Z;
  pr_previousSummary : option jstr; pr_fileOps : FileOperations; pr_compactedTokens : Z;
  pr_retainedTokens : Z; pr_windowNumber : Z; pr_settings : CompactionSettings;
  pr_coveredEntries : list Entry; pr_sourceLeafId : jstr;
  pr_previousRollingCheckpoint : option SessionCheckpointV2;
  pr_priorSegmentCheckpoints : list SessionCheckpointV2;
}.

Section compaction.
Context (is_datetime : jstr → bool).

Definition validCheckpoint (value : option json) : option SessionCheckpointV2 :=
  match value with
  | Some (JStr s) => parseSessionCheckpoint is_datetime (inl s)
  | Some j => parseSessionCheckpoint is_datetime (inr j)
  | None => None
  end.

Definition same_coverage (a b : SessionCheckpointV2) : bool :=
  bool_decide (cp_currentLeafId a = cp_currentLeafId b)
  && bool_decide (cp_coveredEntryEnd a = cp_coveredEntryEnd b).

Definition add_prior (prior : list SessionCheckpointV2) (candidate : json) : list SessionCheckpointV2 :=
  match validCheckpoint (Some candidate) with
  | Some c => if existsb (λ item, same_coverage item c) prior then prior else prior ++ [c]
  | None => prior
  end.

Definition segment_candidates (details : option json) : list json :=
  match details ≫= member (js "segmentCheckpoints") with
  | Some (JArr l) => l
  | _ => match details ≫= member (js "segmentCheckpoint") with
         | Some j => if json_truthy j then [j] else []
         | None => []
         end
  end.

Definition prior_segments (pathEntries : list Entry) : list SessionCheckpointV2 :=
  fold_left (λ prior e,
    match compaction_parts e with
    | Some (_, _, details, _) => fold_left add_prior (segment_candidates details) prior
    | None => prior
    end) pathEntries [].

(** Where the range to compact starts, given the last compaction if any. *)
Definition boundary_start (pathEntries : list Entry)
    (prev : option (nat * (jstr * jstr * option json * option bool))) : nat :=
  match prev with
  | Some (i, (_, firstKept, _, _)) =>
      match find_index (λ e, bool_decide (e_id e = firstKept)) pathEntries with
      | Some k => k
      | None => S i
      end
  | None => 0%nat
  end.

Definition window_number (details : option json) : Z :=
  match details ≫= member (js "windowNumber") with Some (JNum n) => (n + 1)%Z | _ => 1%Z end.

Definition prepareCompaction (pathEntries : list Entry) (settings : CompactionSettings)
    : result CompactionError (option CompactionPreparation) :=
  match last pathEntries with
  | None => Ok None
  | Some leaf =>
      if bool_decide (e_type leaf = TCompaction) then Ok None
      else
        let prev := last_some compaction_parts pathEntries in
        let previousSummary := (λ '(_, (summary, _, _, _)), summary) <$> prev in
        let previousDetails := prev ≫= λ '(_, (_, _, details, _)), details in
        let boundaryStart := boundary_start pathEntries prev in
        let boundaryEnd := length pathEntries in
        let tokensBefore := cu_tokens (estimateContextTokens (sc_messages (buildSessionContext pathEntries))) in
        let cut := findCutPoint pathEntries boundaryStart boundaryEnd (cs_keepRecentTokens settings) in
        let firstKept := firstKeptEntryIndex cut in
        let firstKeptEntryId := nullish (e_id <$> pathEntries !! firstKept) [] in
        if negb (truthy firstKeptEntryId)
        then Err (CompactionInvalidSession (js "First kept entry has no UUID - session may need migration"))
        else
          let turnStart := nullish (turnStartIndex cut) 0%nat in
          let historyEnd := if isSplitTurn cut then turnStart else firstKept in
          let messagesToSummarize := messages_between pathEntries boundaryStart historyEnd in
          let turnPrefixMessages :=
            if isSplitTurn cut then messages_between pathEntries turnStart firstKept else [] in
          let fileOps := extractFileOperations messagesToSummarize (snd <$> prev) in
          let fileOps := if isSplitTurn cut
                         then fold_left (λ o msg, extractFileOpsFromMessage msg o) turnPrefixMessages fileOps
                         else fileOps in
          let retainedMessages := messages_between pathEntries firstKept boundaryEnd in
          if negb (truthy (e_id leaf))
          then Err (CompactionInvalidSession (js "Session leaf has no UUID - session may need migration"))
          else
            Ok (Some
              {| pr_firstKeptEntryId := firstKeptEntryId;
                 pr_messagesToSummarize := messagesToSummarize;
                 pr_turnPrefixMessages := turnPrefixMessages;
                 pr_isSplitTurn := isSplitTurn cut; pr_tokensBefore := tokensBefore;
                 pr_previousSummary := previousSummary; pr_fileOps := fileOps;
                 pr_compactedTokens := zsum estimateTokens (messagesToSummarize ++ turnPrefixMessages);
                 pr_retainedTokens := zsum estimateTokens retainedMessages;
                 pr_windowNumber := window_number previousDetails; pr_settings := settings;
                 pr_coveredEntries := slice boundaryStart firstKept pathEntries;
                 pr_sourceLeafId := e_id leaf;
                 pr_previousRollingCheckpoint :=
                   validCheckpoint (previousDetails ≫= member (js "rollingCheckpoint"));
                 pr_priorSegmentCheckpoints := prior_segments pathEntries |})
  end.

(** ** Summaries *)

(** [model.contextWindow || 128000]. *)
Definition context_window (model : Model) : Z :=
  (if mo_contextWindow model =? 0 then 128000 else mo_contextWindow model)%Z.

Definition trimConversationForModel (conversationText : jstr) (model : Model) (reserveTokens : Z)
    (maxInputTokens : option Z) : jstr :=
  let availableTokens := Z.max 1024 (context_window model - reserveTokens) in
  let tokenBudget := Z.max 1024 (Z.min availableTokens (nullish maxInputTokens availableTokens)) in
  truncateConversationForSummary conversationText (tokenBudget * 4).

Context {C : Type} (completeSimple : Model → Request → M C Thrown AssistantMessage)
  (parse_issues : jstr → list jstr) (entry_value : Entry → json).

Definition limit_tokens (model : Model) (n : Z) : Z :=
  (if 0 <? mo_maxTokens model then Z.min n (mo_maxTokens model) else n)%Z.

(** One summary request: the text of the answer, or the error its stop reason
    stands for, named by [what]. *)
Definition summary_request (what : jstr) (model : Model) (maxTokens : Z) (thinkingLevel : option jstr)
    (promptText : jstr) : M C Thrown (result CompactionError jstr) :=
  let! response := completeSimple model
    {| rq_systemPrompt := SUMMARIZATION_SYSTEM_PROMPT; rq_prompt := promptText;
       rq_maxTokens := maxTokens; rq_reasoning := reasoning_option model thinkingLevel |} in
  mret (match am_stopReason response with
        | StopAborted => Err (CompactionAborted
            (or_str (nullish (am_errorMessage response) []) (what ++ js " aborted")))
        | StopError => Err (SummarizationFailed
            (what ++ js " failed: " ++ or_str (nullish (am_errorMessage response) []) (js "Unknown error")))
        | _ => Ok (join [NL] (block_texts (am_content response)))
        end).

Definition conversation_prompt (conversationText : jstr) : jstr :=
  js "<conversation>" ++ [NL] ++ conversationText ++ [NL] ++ js "</conversation>" ++ [NL; NL].

Definition generateSummary (currentMessages : list AgentMessage) (model : Model) (reserveTokens : Z)
    (customInstructions previousSummary thinkingLevel : option jstr) (maxInputTokens : option Z)
    : M C Thrown (result CompactionError jstr) :=
  let maxTokens := limit_tokens model (dfloor (times reserveTokens d_0_8)) in
  let basePrompt := if truthy_opt previousSummary then UPDATE_SUMMARIZATION_PROMPT else SUMMARIZATION_PROMPT in
  let basePrompt :=
    if truthy_opt customInstructions
    then basePrompt ++ [NL; NL] ++ js "Additional focus: " ++ nullish customInstructions []
    else basePrompt in
  let conversationText := trimConversationForModel (serializeConversation (convertToLlm currentMessages))
                            model reserveTokens maxInputTokens in
  let promptText := conversation_prompt conversationText in
  let promptText :=
    if truthy_opt previousSummary
    then promptText ++ js "<previous-summary>" ++ [NL] ++ nullish previousSummary [] ++ [NL]
         ++ js "</previous-summary>" ++ [NL; NL]
    else promptText in
  summary_request (js "Summarization") model maxTokens thinkingLevel (promptText ++ basePrompt).

Definition generateTurnPrefixSummary (messages : list AgentMessage) (model : Model) (reserveTokens : Z)
    (thinkingLevel : option jstr) (maxInputTokens : option Z) : M C Thrown (result CompactionError jstr) :=
  let maxTokens := limit_tokens model (dfloor (times reserveTokens d_0_5)) in
  let conversationText := trimConversationForModel (serializeConversation (convertToLlm messages))
                            model reserveTokens maxInputTokens in
  summary_request (js "Turn prefix summarization") model maxTokens thinkingLevel
    (conversation_prompt conversationText ++ TURN_PREFIX_SUMMARIZATION_PROMPT).

(** ** The result *)

Record CompactionResult := {
  cr_summary : jstr; cr_firstKeptEntryId : jstr; cr_tokensBefore : Z; cr_details : option json;
}.

Definition status_name (s : CheckpointValidationStatus) : jstr :=
  match s with
  | StatusValid => js "valid" | StatusRepaired => js "repaired" | StatusFallback => js "fallback"
  end.

Definition checkpointInput (p : CompactionPreparation) (summary : jstr) : CheckpointGenerationInput :=
  {| gi_entries := map entry_value (pr_coveredEntries p);
     gi_messages := pr_messagesToSummarize p ++ pr_turnPrefixMessages p;
     gi_previousRolling := pr_previousRollingCheckpoint p;
     gi_priorSegments := pr_priorSegmentCheckpoints p; gi_windowNumber := pr_windowNumber p;
     gi_sourceLeafId := pr_sourceLeafId p;
     gi_coveredEntryStart := e_id <$> head (pr_coveredEntries p);
     gi_coveredEntryEnd := e_id <$> last (pr_coveredEntries p); gi_summary := summary;
     gi_maxInputTokens := cs_maxSummarizationInputTokens (pr_settings p) |}.

(** The members about the checkpoint, which both kinds of result carry. *)
Definition checkpoint_details (p : CompactionPreparation) (c : PortableCheckpointResult)
    : list (jstr * json) :=
  [(js "segmentCheckpoint", checkpoint_json (pc_segment c));
   (js "rollingCheckpoint", checkpoint_json (pc_rolling c));
   (js "segmentCheckpoints", JArr (map checkpoint_json (pr_priorSegmentCheckpoints p ++ [pc_segment c])));
   (js "checkpointValidationStatus", JStr (status_name (pc_validationStatus c)));
   (js "checkpointGenerationAttempts", JNum (pc_generationAttempts c));
   (js "checkpointRebased", JBool (pc_rebased c));
   (js "sourceLeafId", JStr (pr_sourceLeafId p));
   (js "coveredEntryStart", jopt (cp_coveredEntryStart (pc_segment c)));
   (js "coveredEntryEnd", jopt (cp_coveredEntryEnd (pc_segment c)))].

(** The summary of the history, and of the prefix of a turn that is cut. *)
Definition generate_summaries (p : CompactionPreparation) (model : Model)
    (customInstructions thinkingLevel : option jstr) : M C Thrown (result CompactionError jstr) :=
  let settings := pr_settings p in
  let history := generateSummary (pr_messagesToSummarize p) model (cs_reserveTokens settings)
    customInstructions (pr_previousSummary p) thinkingLevel
    (Some (cs_maxSummarizationInputTokens settings)) in
  if pr_isSplitTurn p && negb (bool_decide (pr_turnPrefixMessages p = [])) then
    let! historyResult :=
      (if bool_decide (pr_messagesToSummarize p = []) then mret (Ok (js "No prior history."))
       else history) in
    match historyResult with
    | Err e => mret (Err e)
    | Ok historyText =>
        let! turnPrefixResult := generateTurnPrefixSummary (pr_turnPrefixMessages p) model
          (cs_reserveTokens settings) thinkingLevel (Some (cs_maxSummarizationInputTokens settings)) in
        match turnPrefixResult with
        | Err e => mret (Err e)
        | Ok prefixText =>
            mret (Ok (historyText ++ [NL; NL] ++ js "---" ++ [NL; NL]
                      ++ js "**Turn Context (split turn):**" ++ [NL; NL] ++ prefixText))
        end
    end
  else history.

Definition compact (now : jstr) (p : CompactionPreparation) (model : Model)
    (customInstructions thinkingLevel : option jstr) : M C Thrown (result CompactionError CompactionResult) :=
  if negb (truthy (pr_firstKeptEntryId p))
  then mret (Err (CompactionInvalidSession (js "First kept entry has no UUID - session may need migration")))
  else
    let! summaryResult := generate_summaries p model customInstructions thinkingLevel in
    match summaryResult with
    | Err e => mret (Err e)
    | Ok summary =>
        let '(readFiles, modifiedFiles) := computeFileLists (pr_fileOps p) in
        let summary := summary ++ formatFileOperations readFiles modifiedFiles in
        let summaryTokens := ceil4 (len summary) in
        let summarizationInputTokens := ceil4 (len (truncateConversationForSummary
          (serializeConversation (convertToLlm (pr_messagesToSummarize p ++ pr_turnPrefixMessages p)))
          (cs_maxSummarizationInputTokens (pr_settings p) * 4))) in
        let! checkpoint := generatePortableCheckpoint is_datetime completeSimple parse_issues now
          (checkpointInput p summary) model thinkingLevel in
        mret (Ok {| cr_summary := summary; cr_firstKeptEntryId := pr_firstKeptEntryId p;
                    cr_tokensBefore := pr_tokensBefore p;
                    cr_details := Some (JObj
                      ([(js "readFiles", jstrs readFiles); (js "modifiedFiles", jstrs modifiedFiles);
                        (js "windowNumber", JNum (pr_windowNumber p));
                        (js "activeTokensBefore", JNum (pr_tokensBefore p));
                        (js "summaryTokens", JNum summaryTokens);
                        (js "compactedTokens", JNum (pr_compactedTokens p));
                        (js "retainedTokens", JNum (pr_retainedTokens p));
                        (js "summarizationInputTokens", JNum summarizationInputTokens)]
                       ++ checkpoint_details p checkpoint)) |})
    end.

Definition detail_members (details : option json) : list (jstr * json) :=
  match details with Some (JObj l) => l | _ => [] end.

Definition ensurePortableCompactionResult (now : jstr) (p : CompactionPreparation)
    (r : CompactionResult) : result CheckpointError CompactionResult :=
  match validCheckpoint (cr_details r ≫= member (js "rollingCheckpoint")),
        validCheckpoint (cr_details r ≫= member (js "segmentCheckpoint")) with
  | Some _, Some _ => Ok r
  | _, _ =>
      let! checkpoint := fallbackPortableCheckpoint is_datetime now (checkpointInput p (cr_summary r)) in
      mret {| cr_summary := cr_summary r; cr_firstKeptEntryId := cr_firstKeptEntryId r;
              cr_tokensBefore := cr_tokensBefore r;
              cr_details := Some (JObj (fold_left (λ m '(k, v), map_set k v m)
                (checkpoint_details p checkpoint) (detail_members (cr_details r)))) |}
  end.
End compaction.
