(* ===== verification/CompactionFacts.v ===== *)
(** * Compaction: nothing is lost between windows

    Theorems about Compaction.v: what a preparation covers and keeps, the
    context after the compaction, the tiling of consecutive windows, the files
    it lists, and that a portable checkpoint is always produced. *)

From stdpp Require Import sorting.
From S2P Require Import Prelude JsMap JsString Json Messages SessionTree Session SessionFacts Checkpoint CheckpointFacts CheckpointJson Double CompactionText CutPoint CutPointFacts PortableCheckpoint Compaction.
From Stdlib Require Import Lia.

Set Default Goal Selector "!".

(** ** Slices and last elements *)

Lemma slice_app {A} a b c (l : list A) : (a <= b <= c)%nat → slice a b l ++ slice b c l = slice a c l.
Proof.
  intros H. unfold slice. replace (c - a)%nat with ((b - a) + (c - b))%nat by lia.
  rewrite <- (take_take_drop (drop a l) (b - a) (c - b)), drop_drop.
  by replace (a + (b - a))%nat with b by lia.
Qed.

Lemma slice_full {A} b (l : list A) : slice b (length l) l = drop b l.
Proof. unfold slice. apply take_ge. rewrite length_drop. lia. Qed.

Lemma slice_from_start {A} b (l : list A) : slice 0 b l = take b l.
Proof. unfold slice. by rewrite Nat.sub_0_r. Qed.

Lemma slice_prefix {A} a b (l l' : list A) : (b <= length l)%nat → slice a b (l ++ l') = slice a b l.
Proof.
  intros H. unfold slice. destruct (decide (a <= length l)%nat).
  - rewrite drop_app_le by done. apply take_app_le. rewrite length_drop. lia.
  - replace (b - a)%nat with 0%nat by lia. done.
Qed.

Lemma messages_between_app entries a b c :
  (a <= b <= c)%nat →
  messages_between entries a c = messages_between entries a b ++ messages_between entries b c.
Proof. intros H. unfold messages_between. by rewrite <- omap_app, slice_app. Qed.

Lemma messages_between_same entries a : messages_between entries a a = [].
Proof. unfold messages_between, slice. by rewrite Nat.sub_diag. Qed.

Lemma last_some_None {A B} (f : A → option B) l :
  last_some f l = None ↔ ∀ x, x ∈ l → f x = None.
Proof.
  induction l as [|x l IH]; cbn [last_some]; [set_solver|].
  destruct (last_some f l) as [[i b]|].
  - split; [done|]. intros H. assert (Some (i, b) = None) by (apply IH; set_solver). done.
  - destruct (f x) eqn:Hx; [split; [done|]; intros H; rewrite (H x) in Hx by set_solver; done|].
    split; [|done]. intros _ y [->|Hy]%elem_of_cons; [done|by apply IH].
Qed.

Lemma last_some_app {A B} (f : A → option B) l x r b :
  f x = Some b → (∀ y, y ∈ r → f y = None) → last_some f (l ++ x :: r) = Some (length l, b).
Proof.
  intros Hx Hr. induction l as [|y l IH]; cbn [app last_some length]; [|by rewrite IH].
  assert (last_some f r = None) as -> by by apply last_some_None. by rewrite Hx.
Qed.

Lemma last_some_lookup {A B} (f : A → option B) l i b :
  last_some f l = Some (i, b) → ∃ x, l !! i = Some x ∧ f x = Some b.
Proof.
  revert i. induction l as [|x l IH]; intros i; cbn [last_some]; [done|].
  destruct (last_some f l) as [[j c]|].
  - intros [= <- ->]. destruct (IH j eq_refl) as (y & ? & ?). by exists y.
  - destruct (f x) eqn:Hx; [|done]. intros [= <- ->]. by exists x.
Qed.

(** ** What a preparation holds *)

Section prepare.
Context (is_datetime : jstr → bool).

Definition previous_compaction (path : list Entry) :=
  last_some compaction_parts path.

(** The range [s .. cut) is summarized, the entries from [cut] on are kept. *)
Record prepared (path : list Entry) (p : CompactionPreparation) (s cut : nat) : Prop := {
  pd_range : (s <= cut < length path)%nat;
  pd_start : s = boundary_start path (previous_compaction path);
  pd_kept : e_id <$> path !! cut = Some (pr_firstKeptEntryId p);
  pd_nonempty : truthy (pr_firstKeptEntryId p) = true;
  pd_messages : pr_messagesToSummarize p ++ pr_turnPrefixMessages p = messages_between path s cut;
  pd_covered : pr_coveredEntries p = slice s cut path;
  pd_tokens : (pr_compactedTokens p + pr_retainedTokens p)%Z
              = zsum estimateTokens (messages_between path s (length path));
  pd_leaf : e_id <$> last path = Some (pr_sourceLeafId p) ∧ truthy (pr_sourceLeafId p) = true;
  pd_summary : pr_previousSummary p = (λ '(_, (summary, _, _, _)), summary) <$> previous_compaction path;
  pd_window : pr_windowNumber p
              = window_number (previous_compaction path ≫= λ '(_, (_, _, details, _)), details);
  pd_rolling : pr_previousRollingCheckpoint p
              = validCheckpoint is_datetime ((previous_compaction path ≫= λ '(_, (_, _, details, _)), details)
                                             ≫= member (js "rollingCheckpoint"));
  pd_files : pr_fileOps p = ops_of (pr_messagesToSummarize p ++ pr_turnPrefixMessages p)
              match previous_compaction path with
              | Some (_, (_, _, details, hook)) => recorded_files details hook createFileOps
              | None => createFileOps
              end;
}.

Lemma boundary_start_lt path leaf :
  last path = Some leaf → e_type leaf ≠ TCompaction →
  (boundary_start path (previous_compaction path) < length path)%nat.
Proof.
  intros Hl Ht. assert (0 < length path)%nat as Hpos by (destruct path; [done|simpl; lia]).
  unfold boundary_start, previous_compaction.
  destruct (last_some compaction_parts path) as [[i [[[s k] d] h]]|] eqn:Hp; [|lia].
  destruct (find_index _ path) as [j|] eqn:Hj.
  - apply find_index_Some in Hj as [(x & Hx & _) _]. by apply lookup_lt_Some in Hx.
  - apply last_some_lookup in Hp as (x & Hx & Hf). pose proof (lookup_lt_Some _ _ _ Hx).
    destruct (decide (S i = length path)) as [Heq|]; [|lia]. exfalso. apply Ht.
    rewrite last_lookup in Hl. replace (pred (length path)) with i in Hl by lia.
    rewrite Hx in Hl. injection Hl as ->. unfold compaction_parts, e_type in *. by destruct (e_data leaf).
Qed.

Lemma prepare_prepared path settings p :
  prepareCompaction is_datetime path settings = Ok (Some p) → ∃ s cut, prepared path p s cut.
Proof.
  unfold prepareCompaction. destruct (last path) as [leaf|] eqn:Hlast; [|done].
  case_bool_decide as Ht; [done|].
  pose proof (boundary_start_lt path leaf Hlast Ht) as Hlt.
  fold (previous_compaction path). set (s := boundary_start path (previous_compaction path)) in *.
  set (cut := findCutPoint path s (length path) (cs_keepRecentTokens settings)).
  pose proof (findCutPoint_bounds path s (length path) (cs_keepRecentTokens settings) ltac:(lia)) as [Hb1 Hb2].
  pose proof (findCutPoint_turn path s (length path) (cs_keepRecentTokens settings)) as Hturn.
  fold cut in Hb1, Hb2, Hturn.
  destruct (lookup_lt_is_Some_2 path (firstKeptEntryIndex cut) ltac:(lia)) as [kept Hkept].
  rewrite Hkept. change (nullish (e_id <$> Some kept) []) with (e_id kept).
  destruct (truthy (e_id kept)) eqn:Hk; cbn [negb]; [|done].
  destruct (truthy (e_id leaf)) eqn:Hleaf; cbn [negb]; [|done]. intros [= <-].
  assert ((if isSplitTurn cut then messages_between path s (nullish (turnStartIndex cut) 0)
           else messages_between path s (firstKeptEntryIndex cut))
          ++ (if isSplitTurn cut then messages_between path (nullish (turnStartIndex cut) 0) (firstKeptEntryIndex cut)
              else [])
          = messages_between path s (firstKeptEntryIndex cut)) as Hmsgs.
  { destruct (turnStartIndex cut) as [t|]; [destruct Hturn as [? ->]|rewrite Hturn; by rewrite app_nil_r].
    cbn [nullish default]. symmetry. by apply messages_between_app. }
  assert (∀ (b : bool) x y, messages_between path s (if b then x else y)
          = if b then messages_between path s x else messages_between path s y) as Hif by by intros [].
  exists s, (firstKeptEntryIndex cut). split; cbn -[messages_between]; rewrite ?Hif; try done.
  - specialize (Hb2 Hlt). lia.
  - by rewrite Hkept.
  - rewrite Hmsgs. rewrite <- zsum_app. f_equal. symmetry. apply messages_between_app. lia.
  - rewrite Hlast. done.
  - unfold ops_of. rewrite fold_left_app. unfold extractFileOperations.
    destruct (previous_compaction path) as [[i [[[? ?] ?] ?]]|]; by destruct (isSplitTurn cut).
Qed.
End prepare.

Section windows.
Context (is_datetime : jstr → bool).

(** The entry a compaction of [p] appends. *)
Definition compaction_entry_of (p : CompactionPreparation) (c : Entry) (summary : jstr)
    (tokensBefore : Z) (details : option json) (hook : option bool) : Prop :=
  e_data c = ECompaction summary (pr_firstKeptEntryId p) tokensBefore details hook.

Lemma prepared_split path p s cut :
  prepared is_datetime path p s cut →
  path = take s path ++ pr_coveredEntries p ++ drop cut path.
Proof.
  intros [Hr _ _ _ _ Hc _ _ _ _ _ _]. rewrite Hc, <- slice_from_start, (assoc_L (++)), slice_app by lia.
  rewrite slice_from_start. by rewrite take_drop.
Qed.

Lemma find_index_kept path rest id cut :
  NoDup (map e_id (path ++ rest)) → e_id <$> path !! cut = Some id →
  find_index (λ e, bool_decide (e_id e = id)) (path ++ rest) = Some cut.
Proof.
  intros Hn Hc. apply fmap_Some in Hc as (x & Hx & ->). apply find_index_Some.
  pose proof (lookup_lt_Some _ _ _ Hx) as Hlt. split.
  - exists x. rewrite lookup_app_l by done. split; [done|by apply bool_decide_eq_true].
  - intros j y Hj Hy. apply bool_decide_eq_false. intros Heq.
    assert (j = cut); [|lia]. eapply NoDup_lookup; [exact Hn| |].
    + rewrite list_lookup_fmap, Hy. reflexivity.
    + rewrite list_lookup_fmap, lookup_app_l, Hx by done. cbn. by rewrite Heq.
Qed.

Lemma drop_until_index {A} (p : A → bool) path cut :
  find_index p path = Some cut → drop_until p path = drop cut path.
Proof.
  revert cut. induction path as [|e path IH]; intros cut; cbn [find_index drop_until]; [done|].
  destruct (p e); [by intros [= <-]|]. intros (k & Hk & ->)%fmap_Some. by apply IH.
Qed.

(** C35: a preparation splits the branch in three: what earlier compactions
    already replaced, the entries this one covers, and the entries it keeps,
    the first of which is the one it names. The messages to summarize and those
    of the cut turn are together exactly the messages of the covered entries,
    and the two token counts add up to those of everything not yet compacted:
    no message is lost or counted twice. *)
Theorem prepareCompaction_partition path settings p :
  prepareCompaction is_datetime path settings = Ok (Some p) →
  ∃ old kept, path = old ++ pr_coveredEntries p ++ kept
    ∧ length old = boundary_start path (previous_compaction path)
    ∧ e_id <$> head kept = Some (pr_firstKeptEntryId p)
    ∧ pr_messagesToSummarize p ++ pr_turnPrefixMessages p
      = omap getMessageFromEntryForCompaction (pr_coveredEntries p)
    ∧ (pr_compactedTokens p + pr_retainedTokens p)%Z
      = zsum estimateTokens (omap getMessageFromEntryForCompaction (pr_coveredEntries p ++ kept)).
Proof.
  intros (s & cut & Hp)%prepare_prepared. pose proof (prepared_split _ _ _ _ Hp) as Hsplit.
  destruct Hp. exists (take s path), (drop cut path). split; [done|].
  split; [rewrite length_take; lia|]. split; [rewrite head_lookup, lookup_drop, Nat.add_0_r; done|].
  split; [rewrite pd_messages0, pd_covered0; done|].
  rewrite pd_tokens0. f_equal. unfold messages_between. f_equal.
  rewrite pd_covered0, <- (slice_full cut), slice_app, slice_full by lia. done.
Qed.

(** the context after a compaction. When the compaction entry prepared for
    a branch is appended to it, the model sees the summary and then exactly the
    messages of the kept entries; the covered entries are gone from it. *)
Theorem compaction_context path settings p c summary tokensBefore details hook :
  prepareCompaction is_datetime path settings = Ok (Some p) →
  NoDup (map e_id (path ++ [c])) →
  compaction_entry_of p c summary tokensBefore details hook →
  getResponsesCompactionItems details = None →
  ∃ old kept, path = old ++ pr_coveredEntries p ++ kept
    ∧ sc_messages (buildSessionContext (path ++ [c]))
      = CompactionSummaryMessage summary tokensBefore (e_timestamp c) :: flat_map entry_messages kept.
Proof.
  intros (s & cut & Hp)%prepare_prepared Hn Hc Hd. exists (take s path), (drop cut path).
  split; [by apply prepared_split|].
  destruct (context_messages path [] c summary (pr_firstKeptEntryId p) tokensBefore details hook) as [-> _].
  - exact Hc.
  - intros e He _ Heq. rewrite map_app in Hn. apply NoDup_app in Hn as (_ & Hn & _).
    apply (Hn (e_id e)); [by apply list_elem_of_fmap_2|]. rewrite Heq. cbn. set_solver.
  - intros e He. by apply not_elem_of_nil in He.
  - rewrite Hd. cbn [flat_map]. rewrite app_nil_r. f_equal. f_equal.
    apply drop_until_index. rewrite <- (app_nil_r path).
    apply find_index_kept; [|by destruct Hp]. rewrite app_nil_r.
    rewrite map_app in Hn. by apply NoDup_app in Hn as [? _].
Qed.

Lemma next_boundary path p s cut c more summary tokensBefore details hook :
  prepared is_datetime path p s cut →
  NoDup (map e_id (path ++ c :: more)) →
  compaction_entry_of p c summary tokensBefore details hook →
  (∀ e, e ∈ more → e_type e ≠ TCompaction) →
  previous_compaction (path ++ c :: more)
    = Some (length path, (summary, pr_firstKeptEntryId p, details, hook))
  ∧ boundary_start (path ++ c :: more) (previous_compaction (path ++ c :: more)) = cut.
Proof.
  intros [] Hn Hc Hmore. unfold compaction_entry_of in Hc.
  assert (previous_compaction (path ++ c :: more)
    = Some (length path, (summary, pr_firstKeptEntryId p, details, hook))) as Hprev.
  { apply last_some_app; [unfold compaction_parts; by rewrite Hc|].
    intros y Hy%Hmore. unfold compaction_parts, e_type in *. by destruct (e_data y). }
  split; [done|]. rewrite Hprev. unfold boundary_start. by rewrite (find_index_kept _ _ _ cut).
Qed.

(** consecutive compactions leave no gap. After the entry of one window is
    appended and the branch grows, the next window starts right behind the
    entries the first one covered, reads the first one's summary, and takes its
    number from the details stored with it. *)
Theorem windows_adjacent path settings p c more summary tokensBefore details hook settings' p' :
  prepareCompaction is_datetime path settings = Ok (Some p) →
  NoDup (map e_id (path ++ c :: more)) →
  compaction_entry_of p c summary tokensBefore details hook →
  (∀ e, e ∈ more → e_type e ≠ TCompaction) →
  prepareCompaction is_datetime (path ++ c :: more) settings' = Ok (Some p') →
  (∃ old kept, path ++ c :: more = old ++ pr_coveredEntries p ++ pr_coveredEntries p' ++ kept)
  ∧ pr_previousSummary p' = Some summary ∧ pr_windowNumber p' = window_number details
  ∧ pr_previousRollingCheckpoint p'
    = validCheckpoint is_datetime (details ≫= member (js "rollingCheckpoint")).
Proof.
  intros (s & cut & Hp)%prepare_prepared Hn Hc Hmore (s' & cut' & Hp')%prepare_prepared.
  destruct (next_boundary _ _ _ _ _ _ _ _ _ _ Hp Hn Hc Hmore) as [Hprev Hstart].
  pose proof (prepared_split _ _ _ _ Hp') as Hsplit. destruct Hp, Hp'.
  rewrite Hprev in pd_summary1, pd_window1, pd_rolling1. split; [|done].
  rewrite Hstart in pd_start1. subst s'.
  exists (take s path), (drop cut' (path ++ c :: more)).
  rewrite Hsplit at 1. rewrite (assoc_L (++) (take s path)). f_equal.
  rewrite take_app_le by lia. rewrite pd_covered0, <- (slice_from_start s), slice_app by lia.
  by rewrite slice_from_start.
Qed.
End windows.

(** ** Portable checkpoints *)

Section portable.
Context (is_datetime : jstr → bool).

Definition evidence_of (now : jstr) (input : CheckpointGenerationInput) : CheckpointDeterministicFields :=
  ce_deterministic (extractCheckpointEvidence now input).

Lemma valid_ids c : checkpoint_valid is_datetime c → ids_valid c.
Proof. intros H. by apply valid_iff in H as [? _]. Qed.

(** What both ways to generate give for a segment and its rolling checkpoint. *)
Record portable_ok (now : jstr) (input : CheckpointGenerationInput) (r : PortableCheckpointResult) : Prop := {
  po_segment : checkpoint_valid is_datetime (pc_segment r);
  po_rolling : checkpoint_valid is_datetime (pc_rolling r);
  po_coverage : coverage (pc_segment r)
    = (gi_coveredEntryStart input, gi_coveredEntryEnd input, Some (gi_sourceLeafId input));
  po_current : current_state (pc_rolling r) = current_state (pc_segment r);
  po_end : cp_coveredEntryEnd (pc_rolling r) = gi_coveredEntryEnd input
           ∧ cp_currentLeafId (pc_rolling r) = Some (gi_sourceLeafId input);
}.

Lemma rolling_ok now input evidence rebase_evidence segment rolling :
  ce_deterministic evidence = evidence_of now input →
  df_coveredEntryEnd rebase_evidence = gi_coveredEntryEnd input →
  df_currentLeafId rebase_evidence = Some (gi_sourceLeafId input) →
  rolling_checkpoint is_datetime evidence input rebase_evidence segment = Ok rolling →
  checkpoint_valid is_datetime rolling ∧ current_state rolling = current_state segment
  ∧ cp_coveredEntryEnd rolling = gi_coveredEntryEnd input
  ∧ cp_currentLeafId rolling = Some (gi_sourceLeafId input).
Proof.
  intros He Hend Hleaf. unfold rolling_checkpoint. rewrite He. case_match.
  - intros H'. split; [by eapply rebase_Ok_valid|].
    destruct (rebase_facts is_datetime _ segment _ _ ltac:(apply last_snoc) H') as [? [= ? ? ?]].
    split; [done|]. split; congruence.
  - intros H'. split; [by eapply merge_Ok_valid|].
    apply merge_facts in H' as (? & [= ? ? ?] & _). split; [done|]. by split.
Qed.

Lemma rolling_total now input evidence rebase_evidence segment :
  ce_deterministic evidence = evidence_of now input →
  det_valid is_datetime (evidence_of now input) → det_valid is_datetime rebase_evidence →
  (∀ p, gi_previousRolling input = Some p → checkpoint_valid is_datetime p) →
  Forall (checkpoint_valid is_datetime) (gi_priorSegments input) →
  checkpoint_valid is_datetime segment →
  ∃ rolling, rolling_checkpoint is_datetime evidence input rebase_evidence segment = Ok rolling.
Proof.
  intros He Hd Hrd Hprev Hprior Hseg. unfold rolling_checkpoint. rewrite He. case_match.
  - destruct (rebase_valid is_datetime (gi_priorSegments input ++ [segment]) rebase_evidence)
      as (c & -> & _); [|done|by exists c].
    apply Forall_app. split; [done|]. constructor; [exact Hseg|constructor].
  - destruct (merge_valid is_datetime (gi_previousRolling input) segment
      (det_start (or_else (gi_previousRolling input ≫= cp_coveredEntryStart)
                    (df_coveredEntryStart (evidence_of now input))) (evidence_of now input)))
      as (c & -> & _); [done|by apply valid_ids| |by exists c].
    apply det_start_valid; [|done]. destruct Hd as [_ _ _ Hc]. rewrite !Forall_cons in Hc.
    apply or_else_truthy; [|tauto].
    destruct (gi_previousRolling input) as [p|] eqn:Hp; [|done]. cbn [mbind option_bind].
    destruct (valid_ids p (Hprev p eq_refl)) as [_ _ _ _ _ Hcov].
    rewrite !Forall_cons in Hcov. tauto.
Qed.

Lemma fallback_segment_facts now input c :
  fallback_segment is_datetime (extractCheckpointEvidence now input) input = Ok c →
  checkpoint_valid is_datetime c
  ∧ coverage c = (gi_coveredEntryStart input, gi_coveredEntryEnd input, Some (gi_sourceLeafId input)).
Proof.
  unfold fallback_segment. intros H. split; [by eapply fallback_Ok_valid|].
  unfold checkpointFallback in H. apply result_bind_ok in H as (delta & _ & H).
  by apply merge_facts in H as (_ & ? & _).
Qed.

(** a portable checkpoint without a model. From evidence the schema accepts
    and checkpoints read from the session, the fallback always gives a valid
    segment that covers exactly the compacted entries, and a valid rolling
    checkpoint in the segment's current state that ends where it ends. *)
Theorem fallbackPortableCheckpoint_total now input :
  det_valid is_datetime (evidence_of now input) →
  (∀ p, gi_previousRolling input = Some p → checkpoint_valid is_datetime p) →
  Forall (checkpoint_valid is_datetime) (gi_priorSegments input) →
  ∃ r, fallbackPortableCheckpoint is_datetime now input = Ok r ∧ portable_ok now input r
       ∧ pc_validationStatus r = StatusFallback ∧ pc_generationAttempts r = 0%Z.
Proof.
  intros Hd Hprev Hprior. unfold fallbackPortableCheckpoint.
  destruct (fallback_valid is_datetime None (evidence_of now input)
    {| fo_goal := Some (ce_goal (extractCheckpointEvidence now input));
       fo_nextAction := Some (ce_nextAction (extractCheckpointEvidence now input));
       fo_narrative := Some (gi_summary input); fo_completedWork := None;
       fo_currentWork := Some (ce_currentWork (extractCheckpointEvidence now input)) |})
    as (segment & Hs & Hv); [done|done|].
  change (fallback_segment is_datetime (extractCheckpointEvidence now input) input = Ok segment) in Hs.
  destruct (fallback_segment_facts _ _ _ Hs) as [_ Hcov].
  destruct (rolling_total now input (extractCheckpointEvidence now input) (evidence_of now input) segment)
    as [rolling Hr]; [done..|].
  rewrite Hs. cbn [mbind result_bind]. fold (evidence_of now input). rewrite Hr. cbn [mbind result_bind].
  eexists. split; [reflexivity|]. split; [|done].
  apply (rolling_ok now input) in Hr as (? & ? & ? & ?); [|reflexivity..]. by split.
Qed.

Section client.
Context {C : Type} (completeSimple : Model → Request → M C Thrown AssistantMessage)
  (parse_issues : jstr → list jstr) (entry_value : Entry → json).

Lemma generate_ok now input model level st r st' :
  generatePortableCheckpoint is_datetime completeSimple parse_issues now input model level st = (Ok r, st') →
  portable_ok now input r.
Proof.
  unfold generatePortableCheckpoint.
  intros ([[c status] attempts] & s1 & _ & H)%M_bind_Ok_inv.
  apply M_bind_Ok_inv in H as (segment & s2 & Hseg & H).
  apply M_bind_Ok_inv in H as (rolling & s3 & Hroll & [= <- _]).
  unfold lift_checkpoint in Hseg, Hroll.
  assert (checkpoint_valid is_datetime segment
    ∧ coverage segment = (gi_coveredEntryStart input, gi_coveredEntryEnd input, Some (gi_sourceLeafId input)))
    as [Hv Hc].
  { destruct c as [c|].
    - destruct (applyCheckpointDeterminism _ _ _) as [seg|] eqn:Ha; [|done]. injection Hseg as <- <-.
      split; [by eapply apply_Ok_valid|]. by apply apply_facts in Ha as (_ & ? & _).
    - destruct (fallback_segment _ _ _) as [seg|] eqn:Ha; [|done]. injection Hseg as <- <-.
      by apply fallback_segment_facts in Ha. }
  destruct (rolling_checkpoint _ _ _ _ _) as [roll|] eqn:Hr; [|done]. injection Hroll as <- <-.
  apply (rolling_ok now input) in Hr as (? & ? & ? & ?); [|reflexivity..]. by split.
Qed.

(** The client answers every request, if only with an error response. *)
Definition client_answers : Prop :=
  ∀ model request st, ∃ a st', completeSimple model request st = (Ok a, st').

(** The client, with every request it gets written down. *)
Definition logged : Model → Request → M (C * list Request) Thrown AssistantMessage :=
  λ model request '(st, log), let '(r, st') := completeSimple model request st in (r, (st', log ++ [request])).

Lemma completeCheckpoint_answers model level prompt st :
  client_answers → ∃ text st', completeCheckpoint completeSimple model level prompt st = (Ok text, st')
    ∧ ∃ request, rq_prompt request = prompt ∧
      ∀ log, completeCheckpoint logged model level prompt (st, log) = (Ok text, (st', log ++ [request])).
Proof.
  intros Hc. unfold completeCheckpoint, logged. unfold mbind, M_bind.
  match goal with |- context [completeSimple ?m ?r ?s] => destruct (Hc m r s) as (a & st' & ->) end.
  eexists _, _. split; [reflexivity|]. eexists. split; [|intros log; reflexivity]. reflexivity.
Qed.

(** What the answers of a client come to: the requests, in order, and the status. *)
Definition generation_steps (input : CheckpointGenerationInput) (evidence : CheckpointEvidence) model level st
    (rqs : list Request) (status : CheckpointValidationStatus) (st' : C) : Prop :=
  let prompt := checkpointPrompt input evidence false in
  ∃ first st1, completeCheckpoint completeSimple model level prompt st = (Ok first, st1) ∧
  match parseSessionCheckpoint is_datetime (inl first) with
  | Some _ => map rq_prompt rqs = [prompt] ∧ status = StatusValid ∧ st' = st1
  | None =>
      let repair := checkpointRepairPrompt prompt first (parse_issues first) in
      ∃ second, completeCheckpoint completeSimple model level repair st1 = (Ok second, st')
        ∧ map rq_prompt rqs = [prompt; repair]
        ∧ status = match parseSessionCheckpoint is_datetime (inl second) with
                   | Some _ => StatusRepaired
                   | None => StatusFallback
                   end
  end.

Lemma generate_parsed_answers input evidence model level st :
  client_answers →
  ∃ c status rqs st',
    generate_parsed is_datetime completeSimple parse_issues input evidence model level st
    = (Ok (c, status, Z.of_nat (length rqs)), st')
    ∧ generate_parsed is_datetime logged parse_issues input evidence model level (st, [])
      = (Ok (c, status, Z.of_nat (length rqs)), (st', rqs))
    ∧ (∀ x, c = Some x → checkpoint_valid is_datetime x)
    ∧ generation_steps input evidence model level st rqs status st'.
Proof.
  intros Hc. unfold generate_parsed, generation_steps. set (prompt := checkpointPrompt input evidence false).
  destruct (completeCheckpoint_answers model level prompt st Hc) as (first & st1 & H1 & rq1 & Hr1 & L1).
  rewrite (M_bind_ok _ _ _ _ _ H1), (M_bind_ok _ _ _ _ _ (L1 [])).
  destruct (parseSessionCheckpoint is_datetime (inl first)) as [c|] eqn:Hp.
  { exists (Some c), StatusValid, [rq1], st1. split; [reflexivity|]. split; [reflexivity|].
    split; [intros x [= <-]; by eapply parse_valid|].
    exists first, st1. rewrite Hp. cbn [map]. by rewrite Hr1. }
  destruct (completeCheckpoint_answers model level
    (checkpointRepairPrompt prompt first (parse_issues first)) st1 Hc) as (second & st2 & H2 & rq2 & Hr2 & L2).
  rewrite (M_bind_ok _ _ _ _ _ H2), (M_bind_ok _ _ _ _ _ (L2 _)).
  eexists _, _, [rq1; rq2], st2. split; [reflexivity|]. split; [reflexivity|].
  split; [intros x Hx; by eapply parse_valid|].
  exists first, st1. rewrite Hp. split; [done|]. exists second. cbn [map]. by rewrite Hr1, Hr2.
Qed.

Lemma first_start_truthy segments d :
  Forall (checkpoint_valid is_datetime) segments → det_valid is_datetime d →
  opt_truthy (first_start segments d) = true.
Proof.
  intros Hs [_ _ _ Hc]. rewrite !Forall_cons in Hc. unfold first_start. apply or_else_truthy; [|tauto].
  destruct Hs as [|s l Hs _]; [done|]. cbn [head mbind option_bind].
  destruct (valid_ids s Hs) as [_ _ _ _ _ Hcov]. rewrite !Forall_cons in Hcov. tauto.
Qed.

(** C37: the checkpoint model cannot stop a compaction. Where the evidence of the
    session and the checkpoints read from it are of the schema, whatever a client
    that answers says, valid JSON or not, the generation ends with a valid segment
    and rolling checkpoint as the fallback would. The requests the client gets are
    the ones of [generation_steps]: one, with the prompt, when the first answer is a
    checkpoint, and else a second with the repair prompt; the attempts reported are
    their number, and the status says which answer was a checkpoint, if any was.
    Evidence the schema refuses, such as an approval without an id, does stop it
    ([empty_approval_breaks_fallback]). *)
Theorem generatePortableCheckpoint_total now input model level st :
  client_answers → det_valid is_datetime (evidence_of now input) →
  (∀ p, gi_previousRolling input = Some p → checkpoint_valid is_datetime p) →
  Forall (checkpoint_valid is_datetime) (gi_priorSegments input) →
  ∃ r st' rqs, generatePortableCheckpoint is_datetime completeSimple parse_issues now input model level st
           = (Ok r, st')
    ∧ generatePortableCheckpoint is_datetime logged parse_issues now input model level (st, [])
      = (Ok r, (st', rqs))
    ∧ portable_ok now input r
    ∧ pc_generationAttempts r = Z.of_nat (length rqs)
    ∧ generation_steps input (extractCheckpointEvidence now input) model level st rqs (pc_validationStatus r) st'.
Proof.
  intros Hc Hd Hprev Hprior.
  destruct (generate_parsed_answers input (extractCheckpointEvidence now input) model level st Hc)
    as (c & status & rqs & st1 & H1 & L1 & Hcv & Hst).
  assert (∃ segment, (match c with
      | Some c => applyCheckpointDeterminism is_datetime c (evidence_of now input)
      | None => fallback_segment is_datetime (extractCheckpointEvidence now input) input
      end) = Ok segment ∧ checkpoint_valid is_datetime segment) as (segment & Hseg & Hv).
  { destruct c as [c|]; [apply apply_valid; [by apply valid_ids, Hcv|done]|by apply fallback_valid]. }
  destruct (rolling_total now input (extractCheckpointEvidence now input)
    (det_start (first_start (gi_priorSegments input ++ [segment]) (evidence_of now input)) (evidence_of now input))
    segment) as [rolling Hr]; [done|done| |done..|].
  { apply det_start_valid; [|done]. apply first_start_truthy; [|done].
    apply Forall_app. split; [done|]. constructor; [exact Hv|constructor]. }
  assert (generatePortableCheckpoint is_datetime completeSimple parse_issues now input model level st
    = (Ok {| pc_segment := segment; pc_rolling := rolling; pc_validationStatus := status;
             pc_generationAttempts := Z.of_nat (length rqs); pc_rebased := rebase_due (gi_windowNumber input) |}, st1))
    as Hgen.
  { unfold generatePortableCheckpoint. rewrite (M_bind_ok _ _ _ _ _ H1). cbv beta iota.
    fold (evidence_of now input). unfold lift_checkpoint. rewrite Hseg. unfold mbind, M_bind.
    rewrite Hr. reflexivity. }
  eexists _, _, rqs. split; [exact Hgen|]. split; [|split; [by eapply generate_ok|done]].
  unfold generatePortableCheckpoint. rewrite (M_bind_ok _ _ _ _ _ L1). cbv beta iota.
  fold (evidence_of now input). unfold lift_checkpoint. rewrite Hseg. unfold mbind, M_bind.
  rewrite Hr. reflexivity.
Qed.
End client.
End portable.

(** ** The result of a compaction *)

Section compact.
Context (is_datetime : jstr → bool) {C : Type}
  (completeSimple : Model → Request → M C Thrown AssistantMessage)
  (parse_issues : jstr → list jstr) (entry_value : Entry → json).

Lemma validCheckpoint_json c :
  checkpoint_valid is_datetime c → validCheckpoint is_datetime (Some (checkpoint_json c)) = Some c.
Proof. apply checkpoint_json_roundtrip. Qed.

Lemma validCheckpoint_valid v c :
  validCheckpoint is_datetime v = Some c → checkpoint_valid is_datetime c.
Proof. unfold validCheckpoint. destruct v as [[]|]; try done; apply parse_valid. Qed.

Record compact_ok (now : jstr) (p : CompactionPreparation) (r : CompactionResult)
    (ck : PortableCheckpointResult) : Prop := {
  co_kept : cr_firstKeptEntryId r = pr_firstKeptEntryId p;
  co_tokens : cr_tokensBefore r = pr_tokensBefore p;
  co_summary : ∃ text, cr_summary r = text
    ++ formatFileOperations (computeFileLists (pr_fileOps p)).1 (computeFileLists (pr_fileOps p)).2;
  co_checkpoint : portable_ok is_datetime now (checkpointInput entry_value p (cr_summary r)) ck;
  co_window : window_number (cr_details r) = (pr_windowNumber p + 1)%Z;
  co_rolling : cr_details r ≫= member (js "rollingCheckpoint") = Some (checkpoint_json (pc_rolling ck));
  co_segment : cr_details r ≫= member (js "segmentCheckpoint") = Some (checkpoint_json (pc_segment ck));
  co_responses : getResponsesCompactionItems (cr_details r) = None;
}.

Lemma compact_compact_ok now p model custom level st r st' :
  compact is_datetime completeSimple parse_issues entry_value now p model custom level st
  = (Ok (Ok r), st') → ∃ ck, compact_ok now p r ck.
Proof.
  unfold compact. case_match; [done|].
  intros ([text|e] & s1 & _ & H1)%M_bind_Ok_inv; [|done].
  destruct (computeFileLists (pr_fileOps p)) as [readFiles modifiedFiles] eqn:Hfiles.
  apply M_bind_Ok_inv in H1 as (ck & s2 & Hck & [= <- _]).
  exists ck. split; try reflexivity.
  - rewrite Hfiles. by exists text.
  - by eapply generate_ok.
Qed.

(** from one window to the next through the session. When the result of a
    compaction is appended as an entry, the branch grows and the next
    preparation reads it, then that preparation has the next window number, the
    summary as the previous one, and a rolling checkpoint that ends with the
    last entry the first window covered. *)
Theorem compact_then_prepare path settings p now model custom level st r st' c more hook settings' p' :
  prepareCompaction is_datetime path settings = Ok (Some p) →
  compact is_datetime completeSimple parse_issues entry_value now p model custom level st
    = (Ok (Ok r), st') →
  e_data c = ECompaction (cr_summary r) (cr_firstKeptEntryId r) (cr_tokensBefore r) (cr_details r) hook →
  NoDup (map e_id (path ++ c :: more)) → (∀ e, e ∈ more → e_type e ≠ TCompaction) →
  prepareCompaction is_datetime (path ++ c :: more) settings' = Ok (Some p') →
  pr_windowNumber p' = (pr_windowNumber p + 1)%Z ∧ pr_previousSummary p' = Some (cr_summary r)
  ∧ ∃ rolling, pr_previousRollingCheckpoint p' = Some rolling
      ∧ cp_coveredEntryEnd rolling = e_id <$> last (pr_coveredEntries p)
      ∧ cp_currentLeafId rolling = Some (pr_sourceLeafId p).
Proof.
  intros (s & cut & Hp)%prepare_prepared Hr Hc Hn Hmore (s' & cut' & Hp')%prepare_prepared.
  destruct (compact_compact_ok _ _ _ _ _ _ _ _ Hr) as [ck []].
  rewrite co_kept0 in Hc.
  destruct (next_boundary is_datetime _ _ _ _ _ _ _ _ _ _ Hp Hn Hc Hmore) as [Hprev _].
  destruct Hp'. rewrite Hprev in pd_summary0, pd_window0, pd_rolling0. cbn in pd_summary0, pd_window0.
  split; [congruence|]. split; [done|]. exists (pc_rolling ck).
  destruct co_checkpoint0 as [_ Hv _ _ [Hend Hleaf]].
  split; [|by split]. rewrite pd_rolling0. cbn [mbind option_bind].
  rewrite co_rolling0. by apply validCheckpoint_json.
Qed.

(** The members the guard writes. *)
Definition checkpoint_keys : list jstr :=
  [js "segmentCheckpoint"; js "rollingCheckpoint"; js "segmentCheckpoints";
   js "checkpointValidationStatus"; js "checkpointGenerationAttempts"; js "checkpointRebased";
   js "sourceLeafId"; js "coveredEntryStart"; js "coveredEntryEnd"].

(** a result that a provider made, whatever its details, leaves the session
    with checkpoints that can be read: after the guard both are valid, the
    summary and the kept entry are the provider's, and other details stay. *)
Theorem ensurePortable_spec now p r r' :
  ensurePortableCompactionResult is_datetime entry_value now p r = Ok r' →
  (∃ rolling segment,
     validCheckpoint is_datetime (cr_details r' ≫= member (js "rollingCheckpoint")) = Some rolling
     ∧ validCheckpoint is_datetime (cr_details r' ≫= member (js "segmentCheckpoint")) = Some segment
     ∧ checkpoint_valid is_datetime rolling ∧ checkpoint_valid is_datetime segment)
  ∧ cr_summary r' = cr_summary r ∧ cr_firstKeptEntryId r' = cr_firstKeptEntryId r
  ∧ cr_tokensBefore r' = cr_tokensBefore r
  ∧ ∀ members k, cr_details r = Some (JObj members) → k ∉ checkpoint_keys →
      cr_details r' ≫= member k = cr_details r ≫= member k.
Proof.
  unfold ensurePortableCompactionResult.
  destruct (validCheckpoint is_datetime (cr_details r ≫= member (js "rollingCheckpoint"))) as [c1|] eqn:H1.
  1: destruct (validCheckpoint is_datetime (cr_details r ≫= member (js "segmentCheckpoint"))) as [c2|] eqn:H2.
  1: { intros [= <-]. rewrite H1, H2. split; [|done]. exists c1, c2.
       split_and!; try done; by eapply validCheckpoint_valid. }
  all: intros (ck & Hck & [= <-])%result_bind_ok.
  all: assert (checkpoint_valid is_datetime (pc_rolling ck) ∧ checkpoint_valid is_datetime (pc_segment ck))
    as [Hv1 Hv2] by
    (unfold fallbackPortableCheckpoint in Hck;
     apply result_bind_ok in Hck as (segment & Hseg & (rolling & Hroll & [= <-])%result_bind_ok);
     apply (rolling_ok _ now) in Hroll as (? & _); [|reflexivity..];
     by apply fallback_segment_facts in Hseg as [? _]).
  all: split; [exists (pc_rolling ck), (pc_segment ck)|split; [done|split; [done|split; [done|]]]].
  1, 3: cbn [cr_details mbind option_bind member checkpoint_details fold_left];
    rewrite !(map_get_set_ne (js "rollingCheckpoint")), map_get_set_eq by done;
    rewrite !(map_get_set_ne (js "segmentCheckpoint")), map_get_set_eq by done;
    split; [by apply validCheckpoint_json|split; [by apply validCheckpoint_json|done]].
  all: intros members k Hm Hk; rewrite Hm; cbn [cr_details mbind option_bind member detail_members];
    unfold checkpoint_keys in Hk; cbn [checkpoint_details fold_left];
    rewrite !not_elem_of_cons in Hk; destruct_and!;
    by rewrite !map_get_set_ne by done.
Qed.

End compact.

Lemma add_edited_reads l o : fo_read (fold_left (λ o f, add_edited f o) l o) = fo_read o.
Proof. revert o. induction l as [|x l IH]; intros o; [done|]. cbn [fold_left]. by rewrite IH. Qed.

Lemma add_read_NoDup l o :
  NoDup (fo_read o) → NoDup (fo_read (fold_left (λ o f, add_read f o) l o)).
Proof.
  revert o. induction l as [|x l IH]; intros o Ho; [done|]. cbn [fold_left]. apply IH.
  by apply set_add_NoDup.
Qed.

(** the files a compaction lists: each list is sorted and without
    repetition, a file is modified when a summarized message writes or edits it
    or the previous compaction recorded it as modified, and it is listed as
    read when it was read and not modified. *)
Theorem prepared_files is_datetime path settings p :
  prepareCompaction is_datetime path settings = Ok (Some p) →
  let ms := pr_messagesToSummarize p ++ pr_turnPrefixMessages p in
  let old := match previous_compaction path with
             | Some (_, (_, _, details, hook)) => recorded_files details hook createFileOps
             | None => createFileOps
             end in
  let '(readFiles, modifiedFiles) := computeFileLists (pr_fileOps p) in
  StronglySorted js_leq readFiles ∧ StronglySorted js_leq modifiedFiles
  ∧ NoDup readFiles ∧ NoDup modifiedFiles
  ∧ (∀ f, f ∈ modifiedFiles ↔ f ∈ fo_edited old ∨ f ∈ fo_written old
        ∨ ∃ m, m ∈ ms ∧ (touches (js "edit") f m ∨ touches (js "write") f m))
  ∧ (∀ f, f ∈ readFiles ↔ (f ∈ fo_read old ∨ ∃ m, m ∈ ms ∧ touches (js "read") f m) ∧ f ∉ modifiedFiles).
Proof.
  intros (s & cut & Hp)%prepare_prepared. cbv zeta. destruct Hp.
  set (ms := pr_messagesToSummarize p ++ pr_turnPrefixMessages p) in *.
  set (old := match previous_compaction path with Some _ => _ | None => _ end) in *.
  assert (NoDup (fo_read (pr_fileOps p))) as Hn.
  { rewrite pd_files0. apply ops_of_NoDup. unfold old.
    destruct (previous_compaction path) as [[i [[[? ?] details] hook]]|]; [|constructor].
    unfold recorded_files. destruct details as [d|]; [|constructor]. case_match; [|constructor].
    rewrite add_edited_reads. apply add_read_NoDup. constructor. }
  pose proof (computeFileLists_facts (pr_fileOps p) Hn) as Hf.
  destruct (computeFileLists (pr_fileOps p)) as [readFiles modifiedFiles].
  destruct Hf as (H1 & H2 & H3 & H4 & H5 & H6). split_and!; try done.
  - intros f. rewrite H5, pd_files0. destruct (ops_of_spec ms old f) as (_ & -> & ->). naive_solver.
  - intros f. rewrite H6, pd_files0. destruct (ops_of_spec ms old f) as (-> & _ & _). done.
Qed.

(** ** Concrete runs *)

Definition any_time : jstr → bool := λ _, true.

Definition demo_settings (keep : Z) : CompactionSettings :=
  {| cs_enabled := true; cs_reserveTokens := 100; cs_keepRecentTokens := keep;
     cs_triggerRatio := d_1; cs_maxSummarizationInputTokens := 1000 |}.

Definition no_preparation : CompactionPreparation :=
  {| pr_firstKeptEntryId := []; pr_messagesToSummarize := []; pr_turnPrefixMessages := [];
     pr_isSplitTurn := false; pr_tokensBefore := 0; pr_previousSummary := None;
     pr_fileOps := createFileOps; pr_compactedTokens := 0; pr_retainedTokens := 0;
     pr_windowNumber := 0; pr_settings := demo_settings 0; pr_coveredEntries := [];
     pr_sourceLeafId := []; pr_previousRollingCheckpoint := None; pr_priorSegmentCheckpoints := [] |}.

Definition prepared_or (r : result CompactionError (option CompactionPreparation)) : CompactionPreparation :=
  match r with Ok (Some p) => p | _ => no_preparation end.

Definition demo_preparation : CompactionPreparation :=
  prepared_or (prepareCompaction any_time demo_path (demo_settings 3)).

Definition demo_compaction (details : option json) : Entry :=
  demo_entry 7 (ECompaction (js "sum") (pr_firstKeptEntryId demo_preparation) 30 details None).

Definition demo_more : list Entry :=
  [demo_entry 8 (demo_user (js "next task please")); demo_entry 9 (demo_assistant [TextBlock (js "working")]);
   demo_entry 10 (demo_user (js "and this"))].

Definition demo_next : CompactionPreparation :=
  prepared_or (prepareCompaction any_time (demo_path ++ demo_compaction None :: demo_more) (demo_settings 3)).

Lemma demo_prepares : prepareCompaction any_time demo_path (demo_settings 3) = Ok (Some demo_preparation).
Proof. vm_compute. reflexivity. Qed.

Lemma demo_ids details : NoDup (map e_id (demo_path ++ demo_compaction details :: demo_more)).
Proof. apply (bool_decide_unpack _). vm_compute. exact I. Qed.

Lemma demo_more_messages e : e ∈ demo_more → e_type e ≠ TCompaction.
Proof. unfold demo_more. rewrite !elem_of_cons. by intros [->|[->|[->|[]%elem_of_nil]]]. Qed.

Lemma prepareCompaction_partition_witness :
  length (pr_coveredEntries demo_preparation) = 4%nat
  ∧ ∃ old kept, demo_path = old ++ pr_coveredEntries demo_preparation ++ kept.
Proof.
  split; [vm_compute; reflexivity|].
  destruct (prepareCompaction_partition any_time demo_path (demo_settings 3) demo_preparation demo_prepares)
    as (old & kept & H & _).
  exists old, kept. exact H.
Defined.

Lemma compaction_context_witness :
  ∃ kept, sc_messages (buildSessionContext (demo_path ++ [demo_compaction None]))
          = CompactionSummaryMessage (js "sum") 30 0 :: flat_map entry_messages kept.
Proof.
  destruct (compaction_context any_time demo_path (demo_settings 3) demo_preparation (demo_compaction None)
    (js "sum") 30 None None demo_prepares
    ltac:(apply (bool_decide_unpack _); vm_compute; exact I) eq_refl eq_refl) as (old & kept & _ & H).
  exists kept. exact H.
Defined.

Lemma windows_adjacent_witness :
  pr_coveredEntries demo_next ≠ []
  ∧ ∃ old kept, demo_path ++ demo_compaction None :: demo_more
      = old ++ pr_coveredEntries demo_preparation ++ pr_coveredEntries demo_next ++ kept.
Proof.
  split; [vm_compute; discriminate|].
  destruct (windows_adjacent any_time demo_path (demo_settings 3) demo_preparation (demo_compaction None)
    demo_more (js "sum") 30 None None (demo_settings 3) demo_next demo_prepares (demo_ids None) eq_refl
    demo_more_messages ltac:(vm_compute; reflexivity)) as [H _].
  exact H.
Defined.

(** A client that logs its requests and always gives the same answer. *)
Definition demo_answer : AssistantMessage :=
  {| am_content := [TextBlock (js "a summary")]; am_provider := js "p"; am_model := js "m";
     am_usage := None; am_stopReason := StopStop; am_errorMessage := None; am_timestamp := 0 |}.
Definition demo_client (m : Model) (r : Request) : M (list jstr) Thrown AssistantMessage :=
  λ log, (Ok demo_answer, log ++ [rq_systemPrompt r]).
Definition demo_model : Model :=
  {| mo_contextWindow := 0; mo_maxTokens := 0; mo_reasoning := false |}.
Definition demo_value (e : Entry) : json := JObj [(js "id", JStr (e_id e))].
Definition demo_now : jstr := js "2026-01-02T00:00:00.000Z".

Definition demo_input : CheckpointGenerationInput :=
  checkpointInput demo_value demo_preparation (js "story").

Lemma demo_det_valid : det_valid any_time (evidence_of demo_now demo_input).
Proof. split; [reflexivity|apply forallb_Forall_true; vm_compute; reflexivity..]. Qed.

Lemma fallbackPortableCheckpoint_total_witness :
  ∃ r, fallbackPortableCheckpoint any_time demo_now demo_input = Ok r
       ∧ portable_ok any_time demo_now demo_input r.
Proof.
  destruct (fallbackPortableCheckpoint_total any_time demo_now demo_input demo_det_valid)
    as (r & H1 & H2 & _); [by vm_compute|by constructor|].
  exists r. split; [exact H1|exact H2].
Defined.

Lemma generatePortableCheckpoint_total_witness :
  ∃ r log rqs, generatePortableCheckpoint any_time demo_client (λ _, []) demo_now demo_input demo_model None []
           = (Ok r, log) ∧ portable_ok any_time demo_now demo_input r
    ∧ generatePortableCheckpoint any_time (logged demo_client) (λ _, []) demo_now demo_input demo_model None ([], [])
           = (Ok r, (log, rqs)) ∧ length rqs = 2%nat.
Proof.
  destruct (generatePortableCheckpoint_total any_time demo_client (λ _, []) demo_now demo_input demo_model
    None []) as (r & log & rqs & H1 & H2 & H3 & _ & H5);
    [by intros m q st; eexists _, _|apply demo_det_valid|by vm_compute|by constructor|].
  exists r, log, rqs. split; [exact H1|]. split; [exact H3|]. split; [exact H2|].
  destruct H5 as (first & st1 & E & H5).
  assert (∀ prompt, (completeCheckpoint demo_client demo_model None prompt []).1 = Ok (js "a summary")) as Ha
    by reflexivity.
  assert (first = js "a summary") as -> by (apply (f_equal fst) in E; rewrite Ha in E; by injection E).
  assert (parseSessionCheckpoint any_time (inl (js "a summary")) = None) as Hp by (vm_compute; reflexivity).
  rewrite Hp in H5. destruct H5 as (second & _ & H5 & _).
  apply (f_equal List.length) in H5. rewrite length_map in H5. exact H5.
Defined.

Definition no_result : CompactionResult :=
  {| cr_summary := []; cr_firstKeptEntryId := []; cr_tokensBefore := 0; cr_details := None |}.

Definition demo_run : result Thrown (result CompactionError CompactionResult) * list jstr :=
  compact any_time demo_client (λ _, []) demo_value demo_now demo_preparation demo_model None None [].
Definition demo_compacted : CompactionResult :=
  match demo_run.1 with Ok (Ok r) => r | _ => no_result end.

Definition demo_compacted_entry : Entry :=
  demo_entry 7 (ECompaction (cr_summary demo_compacted) (cr_firstKeptEntryId demo_compacted)
    (cr_tokensBefore demo_compacted) (cr_details demo_compacted) None).

Definition demo_after : CompactionPreparation :=
  prepared_or (prepareCompaction any_time (demo_path ++ demo_compacted_entry :: demo_more) (demo_settings 3)).

Lemma demo_compacts : demo_run = (Ok (Ok demo_compacted), demo_run.2).
Proof. vm_compute. reflexivity. Qed.

(** Two requests for the summaries of the split turn would be the maximum; here
    the history is empty, and the answer is no checkpoint, so it is asked for
    twice. *)
Lemma compact_then_prepare_witness :
  demo_run.2 = [SUMMARIZATION_SYSTEM_PROMPT; CHECKPOINT_SYSTEM_PROMPT; CHECKPOINT_SYSTEM_PROMPT]
  ∧ pr_windowNumber demo_after = (pr_windowNumber demo_preparation + 1)%Z
  ∧ pr_previousSummary demo_after = Some (cr_summary demo_compacted).
Proof.
  split; [vm_compute; reflexivity|].
  destruct (compact_then_prepare any_time demo_client (λ _, []) demo_value demo_path (demo_settings 3)
    demo_preparation demo_now demo_model None None [] demo_compacted demo_run.2 demo_compacted_entry
    demo_more None (demo_settings 3) demo_after demo_prepares demo_compacts eq_refl
    ltac:(apply (bool_decide_unpack _); vm_compute; exact I) demo_more_messages
    ltac:(vm_compute; reflexivity)) as (H1 & H2 & _).
  split; [exact H1|exact H2].
Defined.

Definition demo_native : CompactionResult :=
  {| cr_summary := js "native"; cr_firstKeptEntryId := pr_firstKeptEntryId demo_preparation;
     cr_tokensBefore := 30; cr_details := Some (JObj [(js "opaque", JStr (js "x"))]) |}.
Definition demo_guarded : CompactionResult :=
  ok_or no_result (ensurePortableCompactionResult any_time demo_value demo_now demo_preparation demo_native).

Lemma ensurePortable_spec_witness :
  ensurePortableCompactionResult any_time demo_value demo_now demo_preparation demo_native = Ok demo_guarded
  ∧ cr_summary demo_guarded = js "native"
  ∧ cr_details demo_guarded ≫= member (js "opaque") = Some (JStr (js "x")).
Proof.
  assert (ensurePortableCompactionResult any_time demo_value demo_now demo_preparation demo_native
          = Ok demo_guarded) as H by (vm_compute; reflexivity).
  split; [exact H|].
  destruct (ensurePortable_spec any_time demo_value demo_now demo_preparation demo_native demo_guarded H)
    as (_ & H1 & _ & _ & H2).
  split; [exact H1|].
  rewrite (H2 [(js "opaque", JStr (js "x"))] (js "opaque") eq_refl); [vm_compute; reflexivity|].
  apply (bool_decide_unpack _). vm_compute. exact I.
Defined.

Lemma prepared_files_witness :
  computeFileLists (pr_fileOps demo_preparation) = ([js "/a"; js "/b"], [])
  ∧ StronglySorted js_leq (computeFileLists (pr_fileOps demo_preparation)).1.
Proof.
  split; [vm_compute; reflexivity|].
  pose proof (prepared_files any_time demo_path (demo_settings 3) demo_preparation demo_prepares) as H.
  destruct (computeFileLists (pr_fileOps demo_preparation)) as [r m]. apply H.
Defined.

(** ** Where the code falls short *)

(** An entry that holds an empty [approvalId], as any tool output may, makes the
    schema reject the evidence, so that not even the fallback gives a
    checkpoint. *)
Lemma empty_approval_breaks_fallback :
  fallbackPortableCheckpoint any_time demo_now
    {| gi_entries := [JObj [(js "id", JStr (js "e1")); (js "details", JObj [(js "approvalId", JStr [])])]];
       gi_messages := []; gi_previousRolling := None; gi_priorSegments := []; gi_windowNumber := 1;
       gi_sourceLeafId := js "e1"; gi_coveredEntryStart := Some (js "e1");
       gi_coveredEntryEnd := Some (js "e1"); gi_summary := js "s"; gi_maxInputTokens := 1000 |}
  = Err CheckpointZodError.
Proof. vm_compute. reflexivity. Qed.

(** When a rebase is due, the fallback gives the rolling checkpoint the start of
    the newest segment, although it is built from all of them; the generated
    one starts where the first segment starts. *)
Definition rebase_input : CheckpointGenerationInput :=
  {| gi_entries := []; gi_messages := []; gi_previousRolling := None;
     gi_priorSegments := [demo_checkpoint (js "old") (Some (js "e1"))]; gi_windowNumber := 5;
     gi_sourceLeafId := js "e9"; gi_coveredEntryStart := Some (js "e6");
     gi_coveredEntryEnd := Some (js "e9"); gi_summary := js "s"; gi_maxInputTokens := 1000 |}.

Lemma fallback_rebase_loses_start :
  (∃ r, fallbackPortableCheckpoint any_time demo_now rebase_input = Ok r
        ∧ cp_coveredEntryStart (pc_rolling r) = Some (js "e6"))
  ∧ ∃ r log, generatePortableCheckpoint any_time demo_client (λ _, []) demo_now rebase_input demo_model None []
             = (Ok r, log) ∧ cp_coveredEntryStart (pc_rolling r) = Some (js "e1").
Proof.
  split; [eexists; split; vm_compute; reflexivity|]. eexists _, _. split; vm_compute; reflexivity.
Qed.
