(* ===== verification/BranchSummary.v ===== *)
(** * Summaries of abandoned branches

    packages/harness/src/harness/compaction/branch-summarization.ts: the entries
    to summarize when the session moves to another leaf, their messages within a
    token budget, and the summary. Theorems at the end: the entries are those
    the new branch does not share, and the budget. *)

From S2P Require Import Prelude JsMap JsString Json Messages SessionTree Session SessionFacts Double CompactionText CutPoint CutPointFacts PortableCheckpoint Compaction.
From Stdlib Require Import Lia.

Set Default Goal Selector "!".

Definition BRANCH_SUMMARY_PREAMBLE : jstr :=
  js "The user explored a different conversation branch before returning here.
Summary of that exploration:

".

Definition BRANCH_SUMMARY_PROMPT : jstr :=
  js "Create a structured summary of this conversation branch for context when returning later.

Use this EXACT format:

## Goal
[What was the user trying to accomplish in this branch?]

## Constraints & Preferences
- [Any constraints, preferences, or requirements mentioned]
- [Or " ++ [34%N] ++ js "(none)" ++ [34%N] ++ js " if none were mentioned]

## Progress
### Done
- [x] [Completed tasks/changes]

### In Progress
- [ ] [Work that was started but not finished]

### Blocked
- [Issues preventing progress, if any]

## Key Decisions
- **[Decision]**: [Brief rationale]

## Next Steps
1. [What should happen next to continue this work]

Keep each section concise. Preserve exact file paths, function names, and error messages.".

Section collect.
Context {S : Type} `{SessionStorage S}.

(** The walk from the old leaf up to the common ancestor, with fuel for each
    entry; an empty id ends it as null does. *)
Fixpoint collect_walk (fuel : nat) (st : S) (current ancestor : option jstr) (entries : list Entry)
    : option (result SessionError (list Entry)) :=
  match fuel with
  | O => None
  | Datatypes.S fuel =>
      match current with
      | None => Some (Ok entries)
      | Some id =>
          if negb (truthy id) || bool_decide (current = ancestor) then Some (Ok entries)
          else match st_getEntry id st with
               | None => Some (Err (InvalidSession id))
               | Some entry => collect_walk fuel st (e_parentId entry) ancestor (entry :: entries)
               end
      end
  end.

(** The entries, oldest first, and the common ancestor. *)
Definition collectEntriesForBranchSummary (oldLeafId : option jstr) (targetId : jstr) (st : S)
    : option (result SessionError (list Entry * option jstr)) :=
  match oldLeafId with
  | None => Some (Ok ([], None))
  | Some old =>
      if negb (truthy old) then Some (Ok ([], None))
      else
        match getBranch (Some old) st with
        | None => None
        | Some (Err e) => Some (Err e)
        | Some (Ok oldBranch) =>
            let oldPath := set_of_list (map e_id oldBranch) in
            match getBranch (Some targetId) st with
            | None => None
            | Some (Err e) => Some (Err e)
            | Some (Ok targetPath) =>
                let commonAncestorId :=
                  e_id <$> find_first (λ e, set_has (e_id e) oldPath) (reverse targetPath) in
                match collect_walk (Datatypes.S (length (st_getEntries st))) st oldLeafId commonAncestorId [] with
                | None => None
                | Some (Err e) => Some (Err e)
                | Some (Ok entries) => Some (Ok (entries, commonAncestorId))
                end
            end
        end
  end.
End collect.

(** The message of an entry; tool results are left out. *)
Definition branch_message (entry : Entry) : option AgentMessage :=
  match e_data entry with
  | EMessage (ToolResult _) => None
  | EMessage m => Some m
  | ECustomMessage customType content details display =>
      Some (createCustomMessage customType content display details (e_timestamp entry))
  | EBranchSummary fromId summary _ _ =>
      Some (createBranchSummaryMessage summary fromId (e_timestamp entry))
  | ECompaction summary _ tokensBefore _ _ =>
      Some (createCompactionSummaryMessage summary tokensBefore (e_timestamp entry))
  | _ => None
  end.

Record BranchPreparation := {
  bp_messages : list AgentMessage; bp_fileOps : FileOperations; bp_totalTokens : Z;
}.

Definition is_summary_entry (e : Entry) : bool :=
  match e_data e with ECompaction _ _ _ _ _ | EBranchSummary _ _ _ _ => true | _ => false end.

Definition branch_recorded (o : FileOperations) (e : Entry) : FileOperations :=
  match e_data e with
  | EBranchSummary _ _ details fromHook => recorded_files details fromHook o
  | _ => o
  end.

(** The loop from the newest entry; [rev_entries] is in that order. *)
Fixpoint branch_loop (rev_entries : list Entry) (tokenBudget : Z) (p : BranchPreparation)
    : BranchPreparation :=
  match rev_entries with
  | [] => p
  | entry :: rest =>
      match branch_message entry with
      | None => branch_loop rest tokenBudget p
      | Some message =>
          let ops := extractFileOpsFromMessage message (bp_fileOps p) in
          let tokens := estimateTokens message in
          let with_message := {| bp_messages := message :: bp_messages p; bp_fileOps := ops;
                                 bp_totalTokens := bp_totalTokens p + tokens |} in
          if ((0 <? tokenBudget) && (tokenBudget <? bp_totalTokens p + tokens))%Z then
            if is_summary_entry entry && int_lt (bp_totalTokens p) (times tokenBudget d_0_9)
            then with_message
            else {| bp_messages := bp_messages p; bp_fileOps := ops; bp_totalTokens := bp_totalTokens p |}
          else branch_loop rest tokenBudget with_message
      end
  end.

Definition prepareBranchEntries (entries : list Entry) (tokenBudget : Z) : BranchPreparation :=
  let fileOps := fold_left branch_recorded entries createFileOps in
  branch_loop (reverse entries) tokenBudget
    {| bp_messages := []; bp_fileOps := fileOps; bp_totalTokens := 0 |}.

Inductive BranchSummaryError :=
| BranchSummaryAborted (message : jstr)
| BranchSummarizationFailed (message : jstr).

Record BranchSummaryResult := {
  br_summary : jstr; br_readFiles : list jstr; br_modifiedFiles : list jstr;
}.

Section summary.
Context {C : Type} (completeSimple : Model → Request → M C Thrown AssistantMessage).

Definition generateBranchSummary (entries : list Entry) (model : Model)
    (customInstructions : option jstr) (replaceInstructions : bool) (reserveTokens : option Z)
    : M C Thrown (result BranchSummaryError BranchSummaryResult) :=
  let tokenBudget := (context_window model - nullish reserveTokens 16384)%Z in
  let p := prepareBranchEntries entries tokenBudget in
  match bp_messages p with
  | [] => mret (Ok {| br_summary := js "No content to summarize"; br_readFiles := []; br_modifiedFiles := [] |})
  | messages =>
      let conversationText := serializeConversation (convertToLlm messages) in
      let custom := nullish customInstructions [] in
      let instructions :=
        if replaceInstructions && truthy custom then custom
        else if truthy custom
        then BRANCH_SUMMARY_PROMPT ++ [NL; NL] ++ js "Additional focus: " ++ custom
        else BRANCH_SUMMARY_PROMPT in
      let! response := completeSimple model
        {| rq_systemPrompt := SUMMARIZATION_SYSTEM_PROMPT;
           rq_prompt := conversation_prompt conversationText ++ instructions;
           rq_maxTokens := 2048; rq_reasoning := None |} in
      match am_stopReason response with
      | StopAborted => mret (Err (BranchSummaryAborted
          (or_str (nullish (am_errorMessage response) []) (js "Branch summary aborted"))))
      | StopError => mret (Err (BranchSummarizationFailed
          (js "Branch summary failed: "
           ++ or_str (nullish (am_errorMessage response) []) (js "Unknown error"))))
      | _ =>
          let '(readFiles, modifiedFiles) := computeFileLists (bp_fileOps p) in
          let summary := BRANCH_SUMMARY_PREAMBLE ++ join [NL] (block_texts (am_content response))
                         ++ formatFileOperations readFiles modifiedFiles in
          mret (Ok {| br_summary := or_str summary (js "No summary generated");
                      br_readFiles := readFiles; br_modifiedFiles := modifiedFiles |})
      end
  end.
End summary.

(** ** The entries the branches do not share *)

Lemma chain_prefix byId e l x l1 l2 :
  (∀ p y, byId !! p = Some y → e_id y = p) → chain byId e l → l = l1 ++ x :: l2 →
  chain byId x (l1 ++ [x]).
Proof.
  intros Hid Hc. revert l2. induction Hc as [e Hp|e p parent l Hp Hl Hc IH]; intros l2 Heq.
  - destruct l1 as [|y l1]; [|by destruct l1]. injection Heq as <- _. by apply chain_root.
  - destruct l2 as [|y l2' _] using rev_ind.
    + apply app_inj_tail in Heq as [-> ->]. by eapply chain_step.
    + rewrite app_comm_cons, (assoc_L (++)) in Heq. apply app_inj_tail in Heq as [-> _]. by eapply IH.
Qed.

(** Two branches of one tree: a common part, then entries the other has not. *)
Lemma branches_split byId x y lx ly :
  (∀ p z, byId !! p = Some z → e_id z = p) → chain byId x lx → chain byId y ly →
  (∀ z, z ∈ lx → byId !! e_id z = Some z) → (∀ z, z ∈ ly → byId !! e_id z = Some z) →
  ∃ common ox oy, lx = common ++ ox ∧ ly = common ++ oy
    ∧ find_first (λ e, set_has (e_id e) (set_of_list (map e_id lx))) (reverse ly) = last common
    ∧ (∀ z, z ∈ oy → e_id z ∉ map e_id lx).
Proof.
  intros Hid Hx Hy Hinx Hiny. set (p := λ e, set_has (e_id e) (set_of_list (map e_id lx))).
  assert (∀ z, p z = true ↔ e_id z ∈ map e_id lx) as Hp.
  { intros z. unfold p. by rewrite set_has_true, elem_of_set_of_list. }
  assert (∃ c o, ly = c ++ o ∧ find_first p (reverse ly) = last c
          ∧ (∀ z, last c = Some z → p z = true) ∧ ∀ z, z ∈ o → p z = false) as (c & o & Hly & Hf & Hc & Ho).
  { clear. induction ly as [|z ly IH] using rev_ind; [exists [], []; set_solver|].
    rewrite reverse_snoc. cbn [find_first]. destruct (p z) eqn:Hz.
    - exists (ly ++ [z]), []. rewrite app_nil_r, last_snoc. split; [done|]. split; [done|].
      split; [by intros ? [= <-]|set_solver].
    - destruct IH as (c & o & -> & Hf & Hc & Ho). exists c, (o ++ [z]).
      rewrite (assoc_L (++)). split; [done|]. split; [done|]. split; [done|].
      intros w [Hw|Hw]%elem_of_app; [by apply Ho|]. apply list_elem_of_singleton in Hw. congruence. }
  destruct c as [|z c _] using rev_ind.
  - exists [], lx, ly. split; [done|]. split; [done|]. split; [done|].
    intros z Hz Hin. apply Hp in Hin. rewrite Ho in Hin; [done|]. by rewrite Hly in Hz.
  - rewrite last_snoc in Hf, Hc. specialize (Hc z eq_refl). apply Hp in Hc.
    apply list_elem_of_fmap in Hc as (w & Hwz & Hw).
    assert (w = z) as ->.
    { pose proof (Hinx w Hw) as H1. rewrite <- Hwz in H1.
      rewrite (Hiny z) in H1 by (rewrite Hly; set_solver). congruence. }
    apply list_elem_of_split in Hw as (l1 & l2 & Hlx).
    assert (chain byId z (l1 ++ [z])) as H1 by exact (chain_prefix byId x lx z l1 l2 Hid Hx Hlx).
    assert (chain byId z (c ++ [z])) as H2 by
      (apply (chain_prefix byId y ly z c o Hid Hy); by rewrite Hly, <- (assoc_L (++))).
    pose proof (chain_unique _ _ _ _ H1 H2) as Heq. apply app_inj_tail in Heq as [-> _].
    exists (c ++ [z]), l2, o. split; [by rewrite Hlx, <- (assoc_L (++))|]. split; [done|].
    split; [by rewrite last_snoc|]. intros w Hw Hin. apply Hp in Hin. by rewrite Ho in Hin.
Qed.

(** The walk collects the part of a chain behind the ancestor. *)
Lemma collect_walk_chain (st : InMemorySessionStorage) e l :
  (∀ p z, ms_byId st !! p = Some z → e_id z = p) →
  chain (ms_byId st) e l →
  (∀ z, z ∈ l → ms_byId st !! e_id z = Some z ∧ truthy (e_id z) = true) →
  ∀ common o ancestor fuel acc, l = common ++ o → ancestor = e_id <$> last common →
  (∀ z, z ∈ o → Some (e_id z) ≠ ancestor) → (length o < fuel)%nat →
  collect_walk fuel st (Some (e_id e)) ancestor acc = Some (Ok (o ++ acc)).
Proof.
  intros Hid Hc. induction Hc as [e Hp|e p parent l Hp Hl Hc IH];
    intros Hin common o ancestor fuel acc Heq Hanc Hno Hf;
    (destruct fuel as [|fuel]; [lia|]); cbn [collect_walk];
    (destruct (Hin e ltac:(set_solver)) as [He Ht]); rewrite Ht; cbn [negb orb];
    (destruct o as [|z o _] using rev_ind;
     [rewrite app_nil_r in Heq; subst common; rewrite Hanc;
      rewrite ?last_snoc; cbn [last fmap option_fmap option_map];
      by rewrite bool_decide_eq_true_2|]).
  - destruct common as [|? common]; [|by destruct common, o].
    destruct o as [|? o]; [|by destruct o]. injection Heq as <-.
    rewrite bool_decide_eq_false_2 by (apply Hno; set_solver).
    change (st_getEntry (e_id e) st) with (ms_byId st !! e_id e). rewrite He.
    unfold parent_of in Hp. destruct fuel as [|fuel]; [simpl in Hf; lia|]. cbn [collect_walk].
    destruct (e_parentId e) as [q|]; [|done]. by destruct (truthy q).
  - rewrite (assoc_L (++)) in Heq. apply app_inj_tail in Heq as [-> <-].
    rewrite bool_decide_eq_false_2 by (apply Hno; set_solver).
    change (st_getEntry (e_id e) st) with (ms_byId st !! e_id e). rewrite He.
    rewrite length_app in Hf. cbn [length] in Hf.
    assert (e_parentId e = Some (e_id parent)) as ->.
    { rewrite (Hid _ _ Hl). unfold parent_of in Hp. destruct (e_parentId e) as [q|]; [|done].
      destruct (truthy q); [exact Hp|done]. }
    rewrite (IH ltac:(intros; apply Hin; set_solver) common o ancestor) by (try lia; set_solver).
    by rewrite <- (assoc_L (++)).
Qed.

Lemma chain_ids st x l :
  storage_ok st → ms_byId st !! e_id x = Some x → chain (ms_byId st) x l → NoDup (map e_id l).
Proof.
  intros Hok Hx Hc. rewrite (ok_byId _ Hok) in Hx, Hc. pose proof (ok_entries _ Hok) as He.
  apply index_of_elem in Hx as [[i Hi]%list_elem_of_lookup _].
  eapply sublist_NoDup; [apply (ok_ids _ He)|]. apply (fmap_sublist e_id).
  etrans; [by eapply chain_sublist|]. apply sublist_take.
Qed.

(** what is summarized when the session moves from one leaf to another. The
    collection ends for every well-formed session and gives exactly the entries
    of the old branch behind the last entry both branches share: the branches
    are that shared part followed by these entries and by entries that are not
    on the old branch. *)
Theorem collectEntries_spec (st : InMemorySessionStorage) old target x y :
  storage_ok st → ms_byId st !! old = Some x → ms_byId st !! target = Some y →
  ∃ common entries rest,
    collectEntriesForBranchSummary (Some old) target st = Some (Ok (entries, e_id <$> last common))
    ∧ getBranch (Some old) st = Some (Ok (common ++ entries))
    ∧ getBranch (Some target) st = Some (Ok (common ++ rest))
    ∧ (∀ e, e ∈ rest → e ∉ common ++ entries).
Proof.
  intros Hok Hx Hy.
  destruct (storage_chain st old x Hok Hx) as (lx & Hcx & Hlen & Hpx).
  destruct (storage_chain st target y Hok Hy) as (ly & Hcy & _ & Hpy).
  assert (∀ p z, ms_byId st !! p = Some z → e_id z = p ∧ truthy (e_id z) = true) as Hid.
  { intros p z Hz. rewrite (ok_byId _ Hok) in Hz. apply index_of_elem in Hz as [Hin <-].
    split; [done|]. by apply (ok_names _ (ok_entries _ Hok)). }
  assert (∀ e l, chain (ms_byId st) e l → ms_byId st !! e_id e = Some e →
            ∀ z, z ∈ l → ms_byId st !! e_id z = Some z) as Hmem.
  { intros e l Hc. induction Hc as [e Hp|e p parent l Hp Hl Hc IH]; intros He z Hz.
    - apply list_elem_of_singleton in Hz. congruence.
    - apply elem_of_app in Hz as [Hz|Hz]; [|apply list_elem_of_singleton in Hz; congruence].
      apply IH; [|done]. by rewrite (proj1 (Hid _ _ Hl)). }
  destruct (Hid _ _ Hx) as [Hxid Hxt], (Hid _ _ Hy) as [Hyid _]. subst old target.
  destruct (branches_split (ms_byId st) x y lx ly) as (common & ox & oy & -> & -> & Hf & Hno);
    [by intros ? ? ?%Hid; destruct_and?|done|done|by apply (Hmem x)|by apply (Hmem y)|].
  pose proof (chain_ids st x _ Hok Hx Hcx) as Hnd.
  exists common, ox, oy. split; [|split; [exact Hpx|split; [exact Hpy|]]].
  - unfold collectEntriesForBranchSummary. rewrite Hxt. cbn [negb].
    change (getBranch (Some (e_id x)) st) with (ms_getPathToRoot (Some (e_id x)) st).
    change (getBranch (Some (e_id y)) st) with (ms_getPathToRoot (Some (e_id y)) st).
    rewrite Hpx, Hpy, Hf.
    rewrite (collect_walk_chain st x (common ++ ox)) with (common := common) (o := ox); [by rewrite app_nil_r|..].
    + by intros ? ? ?%Hid; destruct_and?.
    + done.
    + intros z Hz. pose proof (Hmem x _ Hcx Hx z Hz) as Hz'. split; [done|]. by apply Hid in Hz' as [_ ?].
    + done.
    + done.
    + intros z Hz Heq. destruct (last common) as [w|] eqn:Hw; [|done]. injection Heq as Heq.
      apply last_Some in Hw as [c' ->]. rewrite !map_app in Hnd. apply NoDup_app in Hnd as (_ & Hnd & _).
      apply (Hnd (e_id w)); [set_solver|]. rewrite <- Heq. by apply list_elem_of_fmap_2.
    + change (st_getEntries st) with (ms_entries st). rewrite length_app in Hlen. lia.
  - intros e He Hin. apply (Hno e He). by apply list_elem_of_fmap_2.
Qed.

(** ** The token budget *)

Definition is_summary_message (m : AgentMessage) : bool :=
  match m with BranchSummaryMessage _ _ _ | CompactionSummaryMessage _ _ _ => true | _ => false end.

Lemma summary_entry_message e m :
  is_summary_entry e = true → branch_message e = Some m → is_summary_message m = true.
Proof.
  unfold is_summary_entry, branch_message. by destruct (e_data e); intros; simplify_eq.
Qed.

(** The messages fit the budget, but for a summary that came first when they
    filled less than nine tenths of it. *)
Definition within_budget (tokenBudget : Z) (ms : list AgentMessage) : Prop :=
  (zsum estimateTokens ms <= tokenBudget)%Z
  ∨ ∃ m rest, ms = m :: rest ∧ is_summary_message m = true
      ∧ int_lt (zsum estimateTokens rest) (times tokenBudget d_0_9) = true.

Lemma branch_loop_spec rev tokenBudget : ∀ p,
  bp_totalTokens p = zsum estimateTokens (bp_messages p) →
  ((0 < tokenBudget)%Z → (bp_totalTokens p <= tokenBudget)%Z) →
  let q := branch_loop rev tokenBudget p in
  ∃ dropped added, omap branch_message (reverse rev) = dropped ++ added
    ∧ bp_messages q = added ++ bp_messages p
    ∧ bp_totalTokens q = zsum estimateTokens (bp_messages q)
    ∧ ((tokenBudget <= 0)%Z → dropped = [])
    ∧ ((0 < tokenBudget)%Z → within_budget tokenBudget (bp_messages q)).
Proof.
  induction rev as [|e rev IH]; intros p Ht Hb; cbn [branch_loop].
  { exists [], []. split_and!; try done. intros H. left. rewrite <- Ht. by apply Hb. }
  rewrite reverse_cons, omap_app. cbn [omap list_omap].
  destruct (branch_message e) as [m|] eqn:Hm.
  2: { destruct (IH p Ht Hb) as (dropped & added & H1 & H2). exists dropped, added.
       cbn. by rewrite app_nil_r. }
  destruct (Z.ltb_spec 0 tokenBudget) as [Hpos|Hneg]; cbn [andb].
  1: destruct (Z.ltb_spec tokenBudget (bp_totalTokens p + estimateTokens m)) as [Hover|Hfits].
  - destruct (is_summary_entry e && int_lt (bp_totalTokens p) (times tokenBudget d_0_9)) eqn:Hs.
    + exists (omap branch_message (reverse rev)), [m]. cbn [bp_messages bp_totalTokens app].
      split_and!; try done; [rewrite zsum_cons; lia|lia|].
      intros _. right. apply andb_true_iff in Hs as [Hs Hlt]. rewrite Ht in Hlt.
      exists m, (bp_messages p). split; [done|]. split; [by eapply summary_entry_message|done].
    + exists (omap branch_message (reverse rev) ++ [m]), []. rewrite app_nil_r.
      cbn [bp_messages bp_totalTokens app]. split_and!; try done; [lia|].
      intros _. left. rewrite <- Ht. by apply Hb.
  - edestruct (IH {| bp_messages := m :: bp_messages p;
                     bp_fileOps := extractFileOpsFromMessage m (bp_fileOps p);
                     bp_totalTokens := bp_totalTokens p + estimateTokens m |})
      as (dropped & added & H1 & H2 & H3 & H4 & H5); [cbn; rewrite zsum_cons; lia|cbn; lia|].
    exists dropped, (added ++ [m]). rewrite H1, <- !(assoc_L (++)). done.
  - edestruct (IH {| bp_messages := m :: bp_messages p;
                     bp_fileOps := extractFileOpsFromMessage m (bp_fileOps p);
                     bp_totalTokens := bp_totalTokens p + estimateTokens m |})
      as (dropped & added & H1 & H2 & H3 & H4 & H5); [cbn; rewrite zsum_cons; lia|cbn; lia|].
    exists dropped, (added ++ [m]). rewrite H1, <- !(assoc_L (++)). done.
Qed.

(** the messages of a branch summary are the newest ones of the branch, in
    order, with nothing left out when there is no budget; the token count is
    their estimate, and a positive budget is kept, up to one summary that opens
    them. *)
Theorem prepareBranchEntries_spec entries tokenBudget :
  let p := prepareBranchEntries entries tokenBudget in
  bp_messages p `suffix_of` omap branch_message entries
  ∧ bp_totalTokens p = zsum estimateTokens (bp_messages p)
  ∧ ((tokenBudget <= 0)%Z → bp_messages p = omap branch_message entries)
  ∧ ((0 < tokenBudget)%Z → within_budget tokenBudget (bp_messages p)).
Proof.
  unfold prepareBranchEntries.
  destruct (branch_loop_spec (reverse entries) tokenBudget
    {| bp_messages := []; bp_fileOps := fold_left branch_recorded entries createFileOps; bp_totalTokens := 0 |})
    as (dropped & added & H1 & H2 & H3 & H4 & H5); [done|cbn; lia|].
  rewrite reverse_involutive in H1. cbn [bp_messages] in H2. rewrite app_nil_r in H2.
  rewrite H2 in *. split; [by exists dropped|]. split; [done|]. split; [|done].
  intros H. by rewrite H1, (H4 H).
Qed.

(** The demo session moved from [d] back to [b], where a summary [f] follows. *)
Lemma collectEntries_spec_witness :
  ∃ entries ancestor,
    collectEntriesForBranchSummary (Some (js "d")) (js "f") demo_storage = Some (Ok (entries, ancestor))
    ∧ map e_id entries = [js "c"; js "d"] ∧ ancestor = Some (js "b").
Proof.
  destruct (ms_byId demo_storage !! js "d") as [x|] eqn:Hx; [|by vm_compute in Hx].
  destruct (ms_byId demo_storage !! js "f") as [y|] eqn:Hy; [|by vm_compute in Hy].
  destruct (collectEntries_spec demo_storage (js "d") (js "f") x y demo_ok Hx Hy)
    as (common & entries & rest & H & _).
  exists entries, (e_id <$> last common). split; [exact H|].
  assert (match collectEntriesForBranchSummary (Some (js "d")) (js "f") demo_storage with
          | Some (Ok (es, a)) => (map e_id es, a) | _ => ([], None) end
          = ([js "c"; js "d"], Some (js "b"))) as Hv by (vm_compute; reflexivity).
  rewrite H in Hv. injection Hv as -> ->. split; reflexivity.
Defined.
