(* ===== verification/AgentLoop.v ===== *)
(** * The agent loop

    packages/harness/src/agent-loop.ts. The loop runs in a world [W] that the
    embedder's callbacks, the tools, the model stream and the event listeners
    may change; besides it there is the log of the events emitted so far. What a
    callback throws is the text of its error. The events a model stream yields
    and the partial results of a tool are given with the call that opens the
    stream or runs the tool. In a parallel batch the event loop decides which
    suspended tool call resumes; [choose] reads that from the world. *)

From S2P Require Import Prelude JsMap JsString Json Messages.
From Stdlib Require Import Lia.

Set Default Goal Selector "!".

(** ** Data *)

Inductive ToolExecutionMode := Sequential | Parallel.
#[export] Instance ToolExecutionMode_eq_dec : EqDecision ToolExecutionMode.
Proof. solve_decision. Defined.

Record AgentToolResult := {
  atr_content : list Block; atr_details : option json; atr_terminate : option bool;
}.

(** A tool call block of an assistant message. *)
Record AgentToolCall := { call_id : jstr; call_name : jstr; call_arguments : json }.

Inductive AgentEvent :=
| AgentStart
| AgentEnd (messages : list AgentMessage)
| TurnStart
| TurnEnd (message : AgentMessage) (toolResults : list ToolResultMessage)
| MessageStart (message : AgentMessage)
| MessageUpdate (message : AgentMessage)
| MessageEnd (message : AgentMessage)
| ToolExecutionStart (toolCallId toolName : jstr) (args : json)
| ToolExecutionUpdate (toolCallId toolName : jstr) (args : json) (partialResult : AgentToolResult)
| ToolExecutionEnd (toolCallId toolName : jstr) (result : AgentToolResult) (isError : bool).

(** What the loop needs to know of a model. *)
Record LoopModel := { lm_id : jstr; lm_provider : jstr }.

Record BeforeToolCallResult := { bt_block : bool; bt_reason : option jstr; bt_args : option json }.
Record AfterToolCallResult := {
  af_content : option (list Block); af_details : option json; af_isError : option bool;
  af_terminate : option bool;
}.

(** The events of a model stream; [StreamUpdate] stands for the text, thinking
    and tool call events, which all carry the partial message. *)
Inductive StreamEvent :=
| StreamStart (partial : AssistantMessage)
| StreamUpdate (partial : AssistantMessage)
| StreamDone
| StreamError.

(** The events a response yields and its result. *)
Record StreamResponse := { sr_events : list StreamEvent; sr_result : AssistantMessage }.

Record LoopConfig := {
  lc_model : LoopModel; lc_reasoning : option jstr; lc_apiKey : option jstr;
  lc_toolExecution : option ToolExecutionMode;
}.

Section loop.
Context {W : Type}.

(** The world and the events emitted so far. *)
Abbreviation St := (W * list AgentEvent)%type.

(** What [execute] does: the partial results it reports, and its result or the
    text of what it throws. *)
Record AgentTool := {
  tool_name : jstr; tool_executionMode : option ToolExecutionMode;
  tool_prepareArguments : option (json → result jstr json);
  tool_execute : jstr → json → W → list AgentToolResult * result jstr AgentToolResult * W;
}.

Record AgentContext := {
  ac_systemPrompt : jstr; ac_messages : list AgentMessage; ac_tools : list AgentTool;
}.

Record BeforeToolCallContext := {
  bc_assistantMessage : AssistantMessage; bc_toolCall : AgentToolCall; bc_args : json;
  bc_context : AgentContext;
}.
Record AfterToolCallContext := {
  afc_assistantMessage : AssistantMessage; afc_toolCall : AgentToolCall; afc_args : json;
  afc_result : AgentToolResult; afc_isError : bool; afc_context : AgentContext;
}.
Record TurnContext := {
  tc_message : AssistantMessage; tc_toolResults : list ToolResultMessage;
  tc_context : AgentContext; tc_newMessages : list AgentMessage;
}.
Record AgentLoopTurnUpdate := {
  tu_context : option AgentContext; tu_model : option LoopModel; tu_thinkingLevel : option jstr;
}.

(** The callbacks of the configuration; absent ones are [None]. *)
Record Callbacks := {
  cb_convertToLlm : list AgentMessage → M W jstr (list LlmMessage);
  cb_transformContext : option (list AgentMessage → M W jstr (list AgentMessage));
  cb_getApiKey : option (jstr → M W jstr (option jstr));
  cb_beforeToolCall : option (BeforeToolCallContext → M W jstr (option BeforeToolCallResult));
  cb_afterToolCall : option (AfterToolCallContext → M W jstr (option AfterToolCallResult));
  cb_prepareNextTurn : option (TurnContext → M W jstr (option AgentLoopTurnUpdate));
  cb_shouldStopAfterTurn : option (TurnContext → M W jstr bool);
  cb_getSteeringMessages : option (M W jstr (list AgentMessage));
  cb_getFollowUpMessages : option (M W jstr (list AgentMessage));
}.

(** What the loop runs against: the configuration's callbacks, the sink of the
    events, the abort signal, the clock, the model client, the schema check of
    the client library, and the choice of the call that resumes. *)
Class LoopEnv := {
  cb : Callbacks;
  listener : AgentEvent → M W jstr unit;
  aborted : W → bool;
  now : W → Z;
  streamFn : LoopModel → jstr → list LlmMessage → list AgentTool → option jstr → option jstr →
    M W jstr StreamResponse;
  validateToolArguments : AgentTool → json → result jstr json;
  choose : W → nat * W;
}.
Context `{!LoopEnv}.

(** ** Effects *)

Definition ext {A} (m : M W jstr A) : M St jstr A := λ '(w, log), let '(r, w') := m w in (r, (w', log)).
Definition emit (e : AgentEvent) : M St jstr unit :=
  λ '(w, log), let '(r, w') := listener e w in (r, (w', log ++ [e])).
Definition is_aborted : M St jstr bool := λ s, (Ok (aborted s.1), s).
Definition date_now : M St jstr Z := λ s, (Ok (now s.1), s).
Definition try_catch {A} (m : M St jstr A) (h : jstr → M St jstr A) : M St jstr A :=
  λ s, match m s with (Ok a, s') => (Ok a, s') | (Err e, s') => h e s' end.

Fixpoint emit_all (l : list AgentEvent) : M St jstr unit :=
  match l with [] => mret tt | e :: l => do! emit e in emit_all l end.

(** Events emitted without waiting in between, and [Promise.all] of them: all
    reach the sink, the first failure is thrown. *)
Fixpoint emit_together (l : list AgentEvent) : M St jstr unit :=
  match l with
  | [] => mret tt
  | e :: l => λ s, let '(r, s) := emit e s in
                   let '(rest, s) := emit_together l s in
                   (match r with Ok _ => rest | Err x => Err x end, s)
  end.

(** The two events of a message that is complete. *)
Definition message_events (m : AgentMessage) : list AgentEvent := [MessageStart m; MessageEnd m].

(** ** One assistant response *)

Definition set_messages (c : AgentContext) (ms : list AgentMessage) : AgentContext :=
  {| ac_systemPrompt := ac_systemPrompt c; ac_messages := ms; ac_tools := ac_tools c |}.
Definition push (c : AgentContext) (m : AgentMessage) : AgentContext :=
  set_messages c (ac_messages c ++ [m]).
(** [messages[messages.length - 1] = m]. *)
Definition replace_last (c : AgentContext) (m : AgentMessage) : AgentContext :=
  set_messages c (take (length (ac_messages c) - 1) (ac_messages c) ++ [m]).

(** The end of a response, from the loop over the events or behind it. *)
Definition finish_response (c : AgentContext) (addedPartial : bool) (final : AssistantMessage)
    : M St jstr (AssistantMessage * AgentContext) :=
  let c := if addedPartial then replace_last c (Assistant final) else push c (Assistant final) in
  do! (if addedPartial then mret tt else emit (MessageStart (Assistant final))) in
  do! emit (MessageEnd (Assistant final)) in
  mret (final, c).

Fixpoint stream_loop (events : list StreamEvent) (c : AgentContext) (addedPartial : bool)
    (final : AssistantMessage) : M St jstr (AssistantMessage * AgentContext) :=
  match events with
  | [] => finish_response c addedPartial final
  | StreamStart partial :: events =>
      do! emit (MessageStart (Assistant partial)) in
      stream_loop events (push c (Assistant partial)) true final
  | StreamUpdate partial :: events =>
      if addedPartial then
        do! emit (MessageUpdate (Assistant partial)) in
        stream_loop events (replace_last c (Assistant partial)) true final
      else stream_loop events c addedPartial final
  | StreamDone :: _ | StreamError :: _ => finish_response c addedPartial final
  end.

Definition streamAssistantResponse (c : AgentContext) (config : LoopConfig)
    : M St jstr (AssistantMessage * AgentContext) :=
  let! messages := match cb_transformContext cb with
                   | Some f => ext (f (ac_messages c))
                   | None => mret (ac_messages c)
                   end in
  let! llmMessages := ext (cb_convertToLlm cb messages) in
  let! key := match cb_getApiKey cb with
              | Some f => ext (f (lm_provider (lc_model config)))
              | None => mret None
              end in
  let resolvedApiKey := if truthy_opt key then key else lc_apiKey config in
  let! response := ext (streamFn (lc_model config) (ac_systemPrompt c) llmMessages (ac_tools c)
                          (lc_reasoning config) resolvedApiKey) in
  stream_loop (sr_events response) c false (sr_result response).

(** ** One tool call *)

Record PreparedToolCall := { pt_toolCall : AgentToolCall; pt_tool : AgentTool; pt_args : json }.
Record Outcome := { oc_result : AgentToolResult; oc_isError : bool }.
Record Finalized := { fc_toolCall : AgentToolCall; fc_result : AgentToolResult; fc_isError : bool }.

Definition createErrorToolResult (message : jstr) : AgentToolResult :=
  {| atr_content := [TextBlock message]; atr_details := Some (JObj []); atr_terminate := None |}.

Definition error_outcome (message : jstr) : Outcome :=
  {| oc_result := createErrorToolResult message; oc_isError := true |}.

Definition find_tool (c : AgentContext) (name : jstr) : option AgentTool :=
  find_first (λ t, bool_decide (tool_name t = name)) (ac_tools c).

(** The arguments after [prepareArguments]. *)
Definition prepareToolCallArguments (tool : AgentTool) (call : AgentToolCall) : result jstr json :=
  match tool_prepareArguments tool with
  | None => Ok (call_arguments call)
  | Some f => f (call_arguments call)
  end.

Definition prepareToolCall (c : AgentContext) (message : AssistantMessage) (call : AgentToolCall)
    : M St jstr (PreparedToolCall + Outcome) :=
  match find_tool c (call_name call) with
  | None => mret (inr (error_outcome (js "Tool " ++ call_name call ++ js " not found")))
  | Some tool =>
      try_catch
        (let! prepared := lift (prepareToolCallArguments tool call) in
         let! validated := lift (validateToolArguments tool prepared) in
         let! checked :=
           match cb_beforeToolCall cb with
           | None => mret (inl validated)
           | Some before =>
               let! r := ext (before {| bc_assistantMessage := message; bc_toolCall := call;
                                        bc_args := validated; bc_context := c |}) in
               let! stop := is_aborted in
               if stop : bool then mret (inr (error_outcome (js "Operation aborted")))
               else match r with
                    | None => mret (inl validated)
                    | Some r =>
                        if bt_block r
                        then mret (inr (error_outcome (or_str (nullish (bt_reason r) [])
                                                         (js "Tool execution was blocked"))))
                        else match bt_args r with
                             | None => mret (inl validated)
                             | Some args => let! v := lift (validateToolArguments tool args) in mret (inl v)
                             end
                    end
           end in
         match checked with
         | inr outcome => mret (inr outcome)
         | inl args =>
             let! stop := is_aborted in
             if stop : bool then mret (inr (error_outcome (js "Operation aborted")))
             else mret (inl {| pt_toolCall := call; pt_tool := tool; pt_args := args |})
         end)
        (λ e, mret (inr (error_outcome e)))
  end.

Definition executePreparedToolCall (p : PreparedToolCall) : M St jstr Outcome :=
  let call := pt_toolCall p in
  let! r := (λ '(w, log), let '(updates, r, w') := tool_execute (pt_tool p) (call_id call) (pt_args p) w in
                         (Ok (updates, r), (w', log))) in
  let '(updates, r) := r : list AgentToolResult * result jstr AgentToolResult in
  do! emit_together (map (ToolExecutionUpdate (call_id call) (call_name call) (call_arguments call)) updates) in
  mret (match r with
        | Ok result => {| oc_result := result; oc_isError := false |}
        | Err e => error_outcome e
        end).

Definition override (o : Outcome) (a : AfterToolCallResult) : Outcome :=
  {| oc_result := {| atr_content := nullish (af_content a) (atr_content (oc_result o));
                     atr_details := match af_details a with
                                    | Some JNull | None => atr_details (oc_result o)
                                    | Some d => Some d
                                    end;
                     atr_terminate := match af_terminate a with Some t => Some t | None => atr_terminate (oc_result o) end |};
     oc_isError := nullish (af_isError a) (oc_isError o) |}.

Definition finalizeExecutedToolCall (c : AgentContext) (message : AssistantMessage)
    (p : PreparedToolCall) (executed : Outcome) : M St jstr Finalized :=
  let! o :=
    match cb_afterToolCall cb with
    | None => mret executed
    | Some after =>
        try_catch
          (let! r := ext (after {| afc_assistantMessage := message; afc_toolCall := pt_toolCall p;
                                   afc_args := pt_args p; afc_result := oc_result executed;
                                   afc_isError := oc_isError executed; afc_context := c |}) in
           mret (match r with Some a => override executed a | None => executed end))
          (λ e, mret (error_outcome e))
    end in
  mret {| fc_toolCall := pt_toolCall p; fc_result := oc_result o; fc_isError := oc_isError o |}.

Definition emitToolExecutionEnd (f : Finalized) : M St jstr unit :=
  emit (ToolExecutionEnd (call_id (fc_toolCall f)) (call_name (fc_toolCall f)) (fc_result f) (fc_isError f)).

Definition createToolResultMessage (f : Finalized) : M St jstr ToolResultMessage :=
  let! t := date_now in
  mret {| tr_toolCallId := call_id (fc_toolCall f); tr_toolName := call_name (fc_toolCall f);
          tr_content := atr_content (fc_result f); tr_details := atr_details (fc_result f);
          tr_isError := fc_isError f; tr_timestamp := t |}.

Definition emitToolResultMessage (m : ToolResultMessage) : M St jstr unit :=
  emit_all (message_events (ToolResult m)).

Definition finalized_of (call : AgentToolCall) (o : Outcome) : Finalized :=
  {| fc_toolCall := call; fc_result := oc_result o; fc_isError := oc_isError o |}.

Definition shouldTerminateToolBatch (l : list Finalized) : bool :=
  negb (bool_decide (l = [])) && forallb (λ f, default false (atr_terminate (fc_result f))) l.

Definition emit_start (call : AgentToolCall) : M St jstr unit :=
  emit (ToolExecutionStart (call_id call) (call_name call) (call_arguments call)).

(** ** A batch, one call after the other *)

Definition run_call (c : AgentContext) (message : AssistantMessage) (call : AgentToolCall)
    : M St jstr (Finalized * ToolResultMessage) :=
  do! emit_start call in
  let! preparation := prepareToolCall c message call in
  let! finalized :=
    match preparation with
    | inr o => mret (finalized_of call o)
    | inl p => let! executed := executePreparedToolCall p in
               finalizeExecutedToolCall c message p executed
    end in
  do! emitToolExecutionEnd finalized in
  let! m := createToolResultMessage finalized in
  do! emitToolResultMessage m in
  mret (finalized, m).

Fixpoint sequential_loop (c : AgentContext) (message : AssistantMessage) (calls : list AgentToolCall)
    : M St jstr (list (Finalized * ToolResultMessage)) :=
  match calls with
  | [] => mret []
  | call :: calls =>
      let! r := run_call c message call in
      let! stop := is_aborted in
      if stop : bool then mret [r]
      else let! rest := sequential_loop c message calls in mret (r :: rest)
  end.

Definition executeToolCallsSequential (c : AgentContext) (message : AssistantMessage)
    (calls : list AgentToolCall) : M St jstr (list ToolResultMessage * bool) :=
  let! l := sequential_loop c message calls in
  mret (l.*2, shouldTerminateToolBatch l.*1).

(** ** A batch in parallel *)

(** A tool call of the batch between two suspensions. *)
Inductive Proc :=
| ToExecute (p : PreparedToolCall)
| ToFinalize (p : PreparedToolCall) (executed : Outcome)
| ToEnd (f : Finalized)
| Finished (f : Finalized).

(** The loop that prepares the calls in order. *)
Fixpoint start_loop (c : AgentContext) (message : AssistantMessage) (calls : list AgentToolCall)
    : M St jstr (list Proc) :=
  match calls with
  | [] => mret []
  | call :: calls =>
      do! emit_start call in
      let! preparation := prepareToolCall c message call in
      let! entry :=
        match preparation with
        | inr o => do! emitToolExecutionEnd (finalized_of call o) in mret (Finished (finalized_of call o))
        | inl p => mret (ToExecute p)
        end in
      let! stop := is_aborted in
      if stop : bool then mret [entry]
      else let! rest := start_loop c message calls in mret (entry :: rest)
  end.

(** A call resumes and runs up to its next suspension. *)
Definition proc_step (c : AgentContext) (message : AssistantMessage) (p : Proc) : M St jstr Proc :=
  match p with
  | ToExecute p => let! executed := executePreparedToolCall p in mret (ToFinalize p executed)
  | ToFinalize p executed =>
      let! f := finalizeExecutedToolCall c message p executed in mret (ToEnd f)
  | ToEnd f => do! emitToolExecutionEnd f in mret (Finished f)
  | Finished f => mret (Finished f)
  end.

Definition steps_left (p : Proc) : nat :=
  match p with ToExecute _ => 3 | ToFinalize _ _ => 2 | ToEnd _ => 1 | Finished _ => 0 end.

Definition unfinished (l : list Proc) : list nat :=
  filter (λ i, (0 < default 0 (steps_left <$> l !! i))%nat) (seq 0 (length l)).

Definition pick : M St jstr nat := λ '(w, log), let '(n, w') := choose w in (Ok n, (w', log)).

(** [Promise.all]: [None] if the fuel runs out, which [all_steps] of it rules
    out ([run_procs_total]). *)
Fixpoint run_procs (fuel : nat) (c : AgentContext) (message : AssistantMessage) (l : list Proc)
    : M St jstr (option (list Finalized)) :=
  match unfinished l with
  | [] => mret (Some (omap (λ p, match p with Finished f => Some f | _ => None end) l))
  | i0 :: more =>
      match fuel with
      | O => mret None
      | S fuel =>
          let! n := pick in
          let i := nth (n mod S (length more)) (i0 :: more) i0 in
          match l !! i with
          | None => mret None
          | Some p => let! p' := proc_step c message p in run_procs fuel c message (<[i:=p']> l)
          end
      end
  end.

Definition all_steps (l : list Proc) : nat := sum_list_with steps_left l.

Fixpoint result_messages (l : list Finalized) : M St jstr (list ToolResultMessage) :=
  match l with
  | [] => mret []
  | f :: l =>
      let! m := createToolResultMessage f in
      do! emitToolResultMessage m in
      let! rest := result_messages l in
      mret (m :: rest)
  end.

Definition executeToolCallsParallel (c : AgentContext) (message : AssistantMessage)
    (calls : list AgentToolCall) : M St jstr (list ToolResultMessage * bool) :=
  let! procs := start_loop c message calls in
  let! finalized := run_procs (all_steps procs) c message procs in
  let l := default [] finalized in
  let! messages := result_messages l in
  mret (messages, shouldTerminateToolBatch l).

(** ** A batch *)

Definition tool_calls (l : list Block) : list AgentToolCall :=
  flat_map (λ b, match b with
    | ToolCallBlock id name arguments => [{| call_id := id; call_name := name; call_arguments := arguments |}]
    | _ => [] end) l.

Definition executeToolCalls (c : AgentContext) (message : AssistantMessage) (config : LoopConfig)
    : M St jstr (list ToolResultMessage * bool) :=
  let calls := tool_calls (am_content message) in
  let hasSequentialToolCall := existsb (λ call,
    match find_tool c (call_name call) with
    | Some t => bool_decide (tool_executionMode t = Some Sequential)
    | None => false
    end) calls in
  if bool_decide (lc_toolExecution config = Some Sequential) || hasSequentialToolCall
  then executeToolCallsSequential c message calls
  else executeToolCallsParallel c message calls.

(** ** The loop *)

Record LoopState := {
  ls_context : AgentContext; ls_config : LoopConfig; ls_newMessages : list AgentMessage;
  ls_pending : list AgentMessage; ls_hasMoreToolCalls : bool; ls_firstTurn : bool;
}.

Definition optional {A} (d : A) (m : option (M W jstr A)) : M St jstr A :=
  match m with Some m => ext m | None => mret d end.

Definition apply_update (context : AgentContext) (config : LoopConfig) (u : option AgentLoopTurnUpdate)
    : AgentContext * LoopConfig :=
  match u with
  | None => (context, config)
  | Some u =>
      (nullish (tu_context u) context,
       {| lc_model := nullish (tu_model u) (lc_model config);
          lc_reasoning := match tu_thinkingLevel u with
                          | None => lc_reasoning config
                          | Some l => if bool_decide (l = js "off") then None else Some l
                          end;
          lc_apiKey := lc_apiKey config; lc_toolExecution := lc_toolExecution config |})
  end.

Definition is_failed (m : AssistantMessage) : bool :=
  match am_stopReason m with StopError | StopAborted => true | _ => false end.

(** One iteration of the inner loop: the next state, or the messages with which
    the run ends. *)
Definition turn (s : LoopState) : M St jstr (LoopState + list AgentMessage) :=
  do! (if ls_firstTurn s then mret tt else emit TurnStart) in
  do! emit_all (flat_map message_events (ls_pending s)) in
  let context := set_messages (ls_context s) (ac_messages (ls_context s) ++ ls_pending s) in
  let newMessages := ls_newMessages s ++ ls_pending s in
  let! r := streamAssistantResponse context (ls_config s) in
  let '(message, context) := r : AssistantMessage * AgentContext in
  let newMessages := newMessages ++ [Assistant message] in
  if is_failed message then
    do! emit (TurnEnd (Assistant message) []) in
    do! emit (AgentEnd newMessages) in
    mret (inr newMessages)
  else
    let! batch := (if bool_decide (tool_calls (am_content message) = []) then mret ([], true)
                   else executeToolCalls context message (ls_config s)) in
    let '(toolResults, terminate) := batch : list ToolResultMessage * bool in
    let context := set_messages context (ac_messages context ++ map ToolResult toolResults) in
    let newMessages := newMessages ++ map ToolResult toolResults in
    do! emit (TurnEnd (Assistant message) toolResults) in
    let turnContext c := {| tc_message := message; tc_toolResults := toolResults; tc_context := c;
                            tc_newMessages := newMessages |} in
    let! update := optional None ((λ f, f (turnContext context)) <$> cb_prepareNextTurn cb) in
    let '(context, config) := apply_update context (ls_config s) update in
    let! stop := optional false ((λ f, f (turnContext context)) <$> cb_shouldStopAfterTurn cb) in
    if stop : bool then
      do! emit (AgentEnd newMessages) in mret (inr newMessages)
    else
      let! pending := optional [] (cb_getSteeringMessages cb) in
      mret (inl {| ls_context := context; ls_config := config; ls_newMessages := newMessages;
                   ls_pending := pending; ls_hasMoreToolCalls := negb terminate;
                   ls_firstTurn := false |}).

(** Both loops; [None] when the fuel runs out. *)
Fixpoint loop (fuel : nat) (s : LoopState) : M St jstr (option (list AgentMessage)) :=
  match fuel with
  | O => mret None
  | S fuel =>
      if ls_hasMoreToolCalls s || negb (bool_decide (ls_pending s = [])) then
        let! r := turn s in
        match r with
        | inr newMessages => mret (Some newMessages)
        | inl s => loop fuel s
        end
      else
        let! followUpMessages := optional [] (cb_getFollowUpMessages cb) in
        if bool_decide (followUpMessages = []) then
          do! emit (AgentEnd (ls_newMessages s)) in mret (Some (ls_newMessages s))
        else
          loop fuel {| ls_context := ls_context s; ls_config := ls_config s;
                       ls_newMessages := ls_newMessages s; ls_pending := followUpMessages;
                       ls_hasMoreToolCalls := true; ls_firstTurn := ls_firstTurn s |}
  end.

Definition runLoop (fuel : nat) (context : AgentContext) (newMessages : list AgentMessage)
    (config : LoopConfig) : M St jstr (option (list AgentMessage)) :=
  let! pending := optional [] (cb_getSteeringMessages cb) in
  loop fuel {| ls_context := context; ls_config := config; ls_newMessages := newMessages;
               ls_pending := pending; ls_hasMoreToolCalls := true; ls_firstTurn := true |}.

Definition runAgentLoop (fuel : nat) (prompts : list AgentMessage) (context : AgentContext)
    (config : LoopConfig) : M St jstr (option (list AgentMessage)) :=
  do! emit AgentStart in
  do! emit TurnStart in
  do! emit_all (flat_map message_events prompts) in
  runLoop fuel (set_messages context (ac_messages context ++ prompts)) prompts config.

Definition runAgentLoopContinue (fuel : nat) (context : AgentContext) (config : LoopConfig)
    : M St jstr (option (list AgentMessage)) :=
  match last (ac_messages context) with
  | None => throw (js "Cannot continue: no messages in context")
  | Some (Assistant _) => throw (js "Cannot continue from message role: assistant")
  | Some _ =>
      do! emit AgentStart in
      do! emit TurnStart in
      runLoop fuel context [] config
  end.
End loop.
