(* ===== verification/AgentLoopFacts.v ===== *)
(** * Facts about the agent loop

    A computation of the loop extends the log of events; [traces] states what it
    adds when it returns. The rules for it are those of a Hoare logic. *)

From stdpp Require Import sorting.
From S2P Require Import Prelude JsMap JsString Json Messages AgentLoop.
From Stdlib Require Import Lia.

Set Default Goal Selector "!".

(** ** What a trace says *)

(** The messages that are complete, in order. *)
Definition ended : list AgentEvent → list AgentMessage :=
  omap (λ e, match e with MessageEnd m => Some m | _ => None end).
(** The ids of the tool calls that started. *)
Definition tool_starts : list AgentEvent → list jstr :=
  omap (λ e, match e with ToolExecutionStart i _ _ => Some i | _ => None end).
(** Id, tool, content and error flag of the tool calls that ended. *)
Definition tool_ends : list AgentEvent → list (jstr * jstr * list Block * bool) :=
  omap (λ e, match e with ToolExecutionEnd i n r b => Some (i, n, atr_content r, b) | _ => None end).
(** No event starts or ends the run. *)
Definition inside_run (l : list AgentEvent) : bool :=
  forallb (λ e, match e with AgentStart | AgentEnd _ => false | _ => true end) l.

Definition final_key (f : Finalized) : jstr * jstr * list Block * bool :=
  (call_id (fc_toolCall f), call_name (fc_toolCall f), atr_content (fc_result f), fc_isError f).
Definition message_key (m : ToolResultMessage) : jstr * jstr * list Block * bool :=
  (tr_toolCallId m, tr_toolName m, tr_content m, tr_isError m).

Lemma ended_app l k : ended (l ++ k) = ended l ++ ended k.
Proof. apply omap_app. Qed.
Lemma tool_starts_app l k : tool_starts (l ++ k) = tool_starts l ++ tool_starts k.
Proof. apply omap_app. Qed.
Lemma tool_ends_app l k : tool_ends (l ++ k) = tool_ends l ++ tool_ends k.
Proof. apply omap_app. Qed.
Lemma inside_run_app l k : inside_run (l ++ k) = inside_run l && inside_run k.
Proof. apply forallb_app. Qed.

Lemma ended_message_events l : ended (flat_map message_events l) = l.
Proof. induction l as [|m l IH]; [done|]. simpl. by rewrite IH. Qed.
Lemma inside_message_events l : inside_run (flat_map message_events l) = true.
Proof. induction l as [|m l IH]; [done|]. simpl. exact IH. Qed.
Lemma tool_starts_message_events l : tool_starts (flat_map message_events l) = [].
Proof. induction l as [|m l IH]; [done|]. simpl. exact IH. Qed.
Lemma tool_ends_message_events l : tool_ends (flat_map message_events l) = [].
Proof. induction l as [|m l IH]; [done|]. simpl. exact IH. Qed.

(** The summary of a trace inside a run. *)
Record summary evs starts ends msgs : Prop := {
  sum_inside : inside_run evs = true;
  sum_starts : tool_starts evs = starts;
  sum_ends : tool_ends evs = ends;
  sum_msgs : ended evs = msgs;
}.

Lemma summary_app e1 e2 st1 st2 en1 en2 m1 m2 :
  summary e1 st1 en1 m1 → summary e2 st2 en2 m2 →
  summary (e1 ++ e2) (st1 ++ st2) (en1 ++ en2) (m1 ++ m2).
Proof.
  intros [H1 <- <- <-] [H2 <- <- <-]. split; [by rewrite inside_run_app, H1, H2|..].
  - apply tool_starts_app.
  - apply tool_ends_app.
  - apply ended_app.
Qed.

Lemma summary_nil : summary [] [] [] [].
Proof. done. Qed.

Lemma summary_messages l : summary (flat_map message_events l) [] [] l.
Proof.
  split; [apply inside_message_events|apply tool_starts_message_events
    |apply tool_ends_message_events|apply ended_message_events].
Qed.

Section facts.
Context {W : Type} `{!LoopEnv (W:=W)}.
Abbreviation St := (W * list AgentEvent)%type.
Abbreviation Proc := (@AgentLoop.Proc W).
Implicit Types (c : @AgentContext W).
Implicit Types (s : St) (evs : list AgentEvent).

(** ** The rules *)

Definition traces {A} (m : M St jstr A) (P : list AgentEvent → A → Prop) : Prop :=
  ∀ s a s', m s = (Ok a, s') → ∃ evs, s'.2 = s.2 ++ evs ∧ P evs a.

Lemma traces_ret {A} (a : A) P : P [] a → traces (mret a) P.
Proof. intros H s b s' [= <- <-]. exists []. by rewrite app_nil_r. Qed.

Lemma traces_bind {A B} (m : M St jstr A) (f : A → M St jstr B) P Q :
  traces m P →
  (∀ a e1, P e1 a → traces (f a) (λ e2 b, Q (e1 ++ e2) b)) →
  traces (m ≫= f) Q.
Proof.
  intros Hm Hf s b s' (a & s1 & H1 & H2)%M_bind_Ok_inv.
  destruct (Hm _ _ _ H1) as (e1 & Hs1 & HP).
  destruct (Hf a e1 HP _ _ _ H2) as (e2 & Hs2 & HQ).
  exists (e1 ++ e2). split; [|done]. by rewrite Hs2, Hs1, (assoc_L (++)).
Qed.

Lemma traces_weaken {A} (m : M St jstr A) P Q :
  traces m P → (∀ evs a, P evs a → Q evs a) → traces m Q.
Proof. intros Hm H s a s' (e & ? & ?)%Hm. exists e. eauto. Qed.

Lemma traces_emit e : traces (emit e) (λ evs _, evs = [e]).
Proof. intros [w l] [] [w' l'] H. unfold emit in H. destruct (listener e w). simplify_eq. by exists [e]. Qed.

Lemma traces_ext {A} (m : M W jstr A) : traces (ext m) (λ evs _, evs = []).
Proof.
  intros [w l] a [w' l'] H. unfold ext in H. destruct (m w). simplify_eq.
  exists []. by rewrite app_nil_r.
Qed.

Lemma traces_lift {A} (r : result jstr A) : traces (lift r) (λ evs a, evs = [] ∧ r = Ok a).
Proof. intros s a s' [= -> <-]. exists []. by rewrite app_nil_r. Qed.

Lemma traces_aborted : traces is_aborted (λ evs b, evs = [] ∧ ∃ w, b = aborted w).
Proof. intros s a s' [= <- <-]. exists []. rewrite app_nil_r. split; [done|]. split; [done|]. by eexists. Qed.

Lemma traces_now : traces date_now (λ evs _, evs = []).
Proof. intros s a s' [= <- <-]. exists []. by rewrite app_nil_r. Qed.

Lemma traces_optional {A} (d : A) (m : option (M W jstr A)) : traces (optional d m) (λ evs _, evs = []).
Proof. destruct m; simpl; [apply traces_ext|by apply traces_ret]. Qed.

Lemma traces_emit_all l : traces (emit_all l) (λ evs _, evs = l).
Proof.
  induction l as [|e l IH]; [by apply traces_ret|]. simpl.
  eapply traces_bind; [apply traces_emit|]. intros _ e1 ->.
  eapply traces_weaken; [apply IH|]. by intros ? _ ->.
Qed.

Lemma traces_emit_together l : traces (emit_together l) (λ evs _, evs = l).
Proof.
  induction l as [|e l IH]; [by apply traces_ret|]. intros s [] s' H. simpl in H.
  destruct (emit e s) as [[[]|x] s1] eqn:He; [|by destruct (emit_together l s1); simplify_eq].
  destruct (emit_together l s1) as [r s2] eqn:Hl. simplify_eq.
  destruct (traces_emit _ _ _ _ He) as (e1 & H1 & ->).
  destruct (IH _ _ _ Hl) as (e2 & H2 & ->). exists (e :: l). split; [|done].
  by rewrite H2, H1, <- (assoc_L (++)).
Qed.

(** A computation that emits nothing, whether it returns or throws. *)
Definition silent {A} (m : M St jstr A) : Prop := ∀ s, (m s).2.2 = s.2.

Lemma silent_ret {A} (a : A) : silent (mret a).
Proof. by intros s. Qed.
Lemma silent_lift {A} (r : result jstr A) : silent (lift r).
Proof. by intros s. Qed.
Lemma silent_aborted : silent is_aborted.
Proof. by intros s. Qed.
Lemma silent_ext {A} (m : M W jstr A) : silent (ext m).
Proof. intros [w l]. unfold ext. by destruct (m w). Qed.
Lemma silent_bind {A B} (m : M St jstr A) (f : A → M St jstr B) :
  silent m → (∀ a, silent (f a)) → silent (m ≫= f).
Proof.
  intros Hm Hf s. unfold mbind, M_bind. pose proof (Hm s) as H1.
  destruct (m s) as [[a|e] s1]; simpl in *; [|done]. by rewrite Hf.
Qed.
Lemma silent_try {A} (m : M St jstr A) h : silent m → (∀ e, silent (h e)) → silent (try_catch m h).
Proof.
  intros Hm Hh s. unfold try_catch. pose proof (Hm s) as H1.
  destruct (m s) as [[a|e] s1]; simpl in *; [done|]. by rewrite Hh.
Qed.

Lemma silent_traces {A} (m : M St jstr A) : silent m → traces m (λ evs _, evs = []).
Proof. intros H s a s' Hr. exists []. rewrite app_nil_r. split; [|done]. specialize (H s). by rewrite Hr in H. Qed.

(** ** Preparing a call *)

Ltac silence :=
  repeat first
    [ apply silent_bind; [|intros ?] | apply silent_try; [|intros ?] | apply silent_ret
    | apply silent_lift | apply silent_aborted | apply silent_ext | case_match ].

Lemma prepareToolCall_silent c m call : silent (prepareToolCall c m call).
Proof. unfold prepareToolCall. silence. Qed.

Lemma finalizeExecutedToolCall_silent c m p o : silent (finalizeExecutedToolCall c m p o).
Proof. unfold finalizeExecutedToolCall. silence. Qed.

Lemma try_catch_Ok_inv {A} (m : M St jstr A) h s a s' :
  try_catch m h s = (Ok a, s') →
  m s = (Ok a, s') ∨ ∃ e s1, m s = (Err e, s1) ∧ h e s1 = (Ok a, s').
Proof. unfold try_catch. destruct (m s) as [[b|e] s1]; naive_solver. Qed.

Lemma ext_Ok_inv {A} (m : M W jstr A) s a s' :
  ext m s = (Ok a, s') → m s.1 = (Ok a, s'.1) ∧ s'.2 = s.2.
Proof. destruct s as [w l]. unfold ext. simpl. destruct (m w). by intros [= -> <-]. Qed.

(** Step through a computation that returned. *)
Ltac step_ok :=
  repeat match goal with
  | H : (_ ≫= _) _ = (Ok _, _) |- _ => apply M_bind_Ok_inv in H as (? & ? & ? & ?)
  | H : lift _ _ = (Ok _, _) |- _ => injection H as H; subst
  | H : is_aborted _ = (Ok _, _) |- _ => injection H as H; subst
  | H : (mret _ : M _ _ _) _ = (Ok _, _) |- _ => injection H as H; subst
  | H : ext _ _ = (Ok _, _) |- _ => apply ext_Ok_inv in H as [? ?]
  end.

Lemma prepareToolCall_tool c m call s r s' :
  prepareToolCall c m call s = (Ok r, s') →
  match r with
  | inr o => oc_isError o = true
  | inl p => pt_toolCall p = call ∧ find_tool c (call_name call) = Some (pt_tool p) ∧ aborted s'.1 = false
  end.
Proof.
  unfold prepareToolCall. destruct (find_tool _ _) as [tool|] eqn:Ht; [|intros H; by step_ok].
  intros [H|(e & s1 & _ & H)]%try_catch_Ok_inv; [|by step_ok].
  apply M_bind_Ok_inv in H as (prepared & s1 & _ & H).
  apply M_bind_Ok_inv in H as (validated & s2 & _ & H).
  apply M_bind_Ok_inv in H as (checked & s3 & Hchecked & H).
  destruct checked as [args|o].
  - apply M_bind_Ok_inv in H as (stop & s4 & Hstop & H). injection Hstop as Hstop <-.
    destruct stop; step_ok; done.
  - step_ok. destruct (cb_beforeToolCall cb); step_ok; repeat case_match; step_ok; done.
Qed.

(** A call is prepared only after its checks: the tool is one of the context,
    the arguments it gets are what the schema check returned, for the arguments
    the tool prepared or for those the hook replaced them by, the hook did not
    block the call, and the run is not aborted at that point. *)
Lemma prepared_call_checked c m call s p s'
  (H : prepareToolCall c m call s = (Ok (inl p), s')) :
  pt_toolCall p = call ∧ find_tool c (call_name call) = Some (pt_tool p) ∧ aborted s'.1 = false
  ∧ ∃ prepared validated,
      prepareToolCallArguments (pt_tool p) call = Ok prepared
      ∧ validateToolArguments (pt_tool p) prepared = Ok validated
      ∧ match cb_beforeToolCall cb with
        | None => pt_args p = validated
        | Some before => ∃ r,
            before {| bc_assistantMessage := m; bc_toolCall := call; bc_args := validated;
                      bc_context := c |} s.1 = (Ok r, s'.1)
            ∧ match r with
              | None => pt_args p = validated
              | Some r => bt_block r = false ∧
                  match bt_args r with
                  | None => pt_args p = validated
                  | Some args => validateToolArguments (pt_tool p) args = Ok (pt_args p)
                  end
              end
        end.
Proof.
  pose proof (prepareToolCall_tool _ _ _ _ _ _ H) as (H1 & H2 & H3). split_and!; [done..|].
  unfold prepareToolCall in H. rewrite H2 in H.
  apply try_catch_Ok_inv in H as [H|(? & ? & _ & [=])].
  apply M_bind_Ok_inv in H as (prepared & s1 & [= Hp <-] & H).
  apply M_bind_Ok_inv in H as (validated & s2 & [= Hv <-] & H).
  exists prepared, validated. split; [done|]. split; [done|].
  apply M_bind_Ok_inv in H as ([args|o] & s3 & Hchecked & H); [|by step_ok].
  apply M_bind_Ok_inv in H as (stop & s4 & Hstop & H). injection Hstop as Hstop <-.
  destruct stop; [by step_ok|]. injection H as <- <-. cbn [pt_args pt_tool] in *.
  destruct (cb_beforeToolCall cb) as [before|]; [|by injection Hchecked as <- _].
  apply M_bind_Ok_inv in Hchecked as (r & s5 & Hb & H). apply ext_Ok_inv in Hb as [Hb _].
  apply M_bind_Ok_inv in H as (stop & s6 & Hst & H). injection Hst as Hst <-.
  destruct stop; [by step_ok|]. exists r.
  destruct r as [[block reason bargs]|]; cbn [bt_block bt_reason bt_args] in *; [|by step_ok].
  destruct block; [by step_ok|]. destruct bargs as [a|]; [|by step_ok].
  apply M_bind_Ok_inv in H as (v & s7 & [= Hv2 <-] & [= <- <-]). done.
Qed.

(** ** Running a call *)

Lemma summary_updates i n a l : summary (map (ToolExecutionUpdate i n a) l) [] [] [].
Proof. split; (induction l as [|x l IH]; [done|]; simpl; exact IH). Qed.

Lemma executePrepared_trace p :
  traces (executePreparedToolCall p) (λ evs _, summary evs [] [] []).
Proof.
  unfold executePreparedToolCall. eapply (traces_bind _ _ (λ e1 _, e1 = [])).
  { intros [w l] a [w' l'] H. destruct (tool_execute _ _ _ _) as [[ups r] w1]. simplify_eq.
    exists []. by rewrite app_nil_r. }
  intros [ups r] e1 ->. eapply traces_bind; [apply traces_emit_together|]. intros _ e2 ->.
  apply traces_ret. rewrite app_nil_r. apply summary_updates.
Qed.

Lemma finalize_trace c m p o :
  traces (finalizeExecutedToolCall c m p o) (λ evs f, evs = [] ∧ fc_toolCall f = pt_toolCall p).
Proof.
  intros s f s' H. destruct (silent_traces _ (finalizeExecutedToolCall_silent c m p o) _ _ _ H)
    as (evs & Hs & ->). exists []. split; [done|]. split; [done|].
  unfold finalizeExecutedToolCall in H. apply M_bind_Ok_inv in H as (? & ? & _ & H). by step_ok.
Qed.

Lemma prepare_trace c m call :
  traces (prepareToolCall c m call) (λ evs r, evs = [] ∧
    match r with inl p => pt_toolCall p = call | inr _ => True end).
Proof.
  intros s r s' H. destruct (silent_traces _ (prepareToolCall_silent c m call) _ _ _ H)
    as (evs & Hs & ->). exists []. split; [done|]. split; [done|].
  apply prepareToolCall_tool in H. destruct r; naive_solver.
Qed.

Lemma emit_trace e starts ends msgs :
  summary [e] starts ends msgs → traces (emit e) (λ evs _, summary evs starts ends msgs).
Proof. intros H. eapply traces_weaken; [apply traces_emit|]. by intros ? _ ->. Qed.

Lemma result_message_bind {B} f (k : ToolResultMessage → M St jstr B) Q :
  (∀ m e, summary e [] [] [ToolResult m] → message_key m = final_key f →
     traces (k m) (λ evs b, Q (e ++ evs) b)) →
  traces (let! m := createToolResultMessage f in do! emitToolResultMessage m in k m) Q.
Proof.
  intros Hk. eapply (traces_bind _ _ (λ evs m, evs = [] ∧ message_key m = final_key f)).
  { unfold createToolResultMessage. eapply traces_bind; [apply traces_now|]. intros t e1 ->.
    by apply traces_ret. }
  intros m e1 [-> Hm]. eapply traces_bind; [apply traces_emit_all|]. intros _ e2 ->.
  by apply Hk.
Qed.

(** What the batch gives for a list of calls. *)
Record batch_of (calls : list AgentToolCall) evs (l : list (Finalized * ToolResultMessage)) : Prop := {
  bo_calls : map fc_toolCall l.*1 = calls;
  bo_keys : map message_key l.*2 = map final_key l.*1;
  bo_summary : summary evs (map call_id calls) (map final_key l.*1) (map ToolResult l.*2);
}.

Lemma run_call_trace c m call :
  traces (run_call c m call) (λ evs r, batch_of [call] evs [r]).
Proof.
  unfold run_call. eapply traces_bind; [by apply (emit_trace _ [call_id call] [] [])|].
  intros [] e1 H1. eapply traces_bind; [apply prepare_trace|]. intros prep e2 [-> Hp].
  eapply (traces_bind _ _ (λ evs f, summary evs [] [] [] ∧ fc_toolCall f = call)).
  { destruct prep as [p|o]; [|by apply traces_ret].
    eapply traces_bind; [apply executePrepared_trace|]. intros o e3 H3.
    eapply traces_weaken; [apply finalize_trace|]. intros e4 f [-> Hf].
    rewrite app_nil_r. split; [done|congruence]. }
  intros f e3 [H3 Hf]. eapply traces_bind; [by apply (emit_trace _ [] [final_key f] [])|].
  intros [] e4 H4. apply result_message_bind. intros tm e5 H5 Hk. apply traces_ret.
  split; simpl; [by rewrite Hf|by rewrite Hk|].
  pose proof (summary_app _ _ _ _ _ _ _ _ H1 (summary_app _ _ _ _ _ _ _ _ H3
    (summary_app _ _ _ _ _ _ _ _ H4 H5))) as H. simpl in H. by rewrite app_nil_r.
Qed.

Lemma batch_of_cons call calls e1 e2 r l :
  batch_of [call] e1 [r] → batch_of calls e2 l → batch_of (call :: calls) (e1 ++ e2) (r :: l).
Proof.
  intros [Hc1 Hk1 Hs1] [Hc2 Hk2 Hs2]. injection Hc1 as Hc1. 
  split; [by rewrite !fmap_cons; simpl; rewrite Hc1, <- Hc2| |].
  { change (message_key r.2 :: map message_key l.*2 = final_key r.1 :: map final_key l.*1).
    f_equal; [|done]. exact (f_equal (List.hd (final_key r.1)) Hk1). }
  exact (summary_app _ _ _ _ _ _ _ _ Hs1 Hs2).
Qed.

(** A batch may stop early only when the run is aborted. *)
Definition batch_calls (calls done : list AgentToolCall) : Prop :=
  done `prefix_of` calls ∧ ((∀ w, aborted w = false) → done = calls) ∧ (calls ≠ [] → done ≠ []).

Lemma batch_calls_stop call calls w :
  aborted w = true → batch_calls (call :: calls) [call].
Proof.
  intros Hw. split; [by exists calls|]. split; [|done]. intros H. by rewrite H in Hw.
Qed.
Lemma batch_calls_cons call calls done :
  batch_calls calls done → batch_calls (call :: calls) (call :: done).
Proof.
  intros (H1 & H2 & H3). split; [by apply prefix_cons|]. split; [|done].
  intros H. by rewrite H2.
Qed.

Lemma sequential_trace c m calls :
  traces (sequential_loop c m calls) (λ evs l, ∃ done, batch_calls calls done ∧ batch_of done evs l).
Proof.
  induction calls as [|call calls IH]; simpl.
  { apply traces_ret. by exists []. }
  eapply traces_bind; [apply run_call_trace|]. intros r e1 H1.
  eapply traces_bind; [apply traces_aborted|]. intros stop e2 [-> [w Hw]]. destruct stop.
  - apply traces_ret. exists [call]. rewrite app_nil_r.
    split; [by eapply batch_calls_stop|done].
  - eapply traces_bind; [apply IH|]. intros l e3 (done & Hd & Hb). apply traces_ret.
    exists (call :: done). split; [by apply batch_calls_cons|].
    rewrite app_nil_r. by apply batch_of_cons.
Qed.

(** ** A batch in parallel *)

Definition proc_call (p : Proc) : AgentToolCall :=
  match p with
  | ToExecute p | ToFinalize p _ => pt_toolCall p
  | ToEnd f | Finished f => fc_toolCall f
  end.
Definition outcome_of (p : Proc) : list Finalized :=
  match p with Finished f => [f] | _ => [] end.
Definition outcomes (l : list Proc) : list Finalized := flat_map outcome_of l.

Lemma start_trace c m calls :
  traces (start_loop c m calls) (λ evs l, ∃ done, batch_calls calls done ∧
    map proc_call l = done ∧ summary evs (map call_id done) (map final_key (outcomes l)) []).
Proof.
  induction calls as [|call calls IH]; simpl.
  { apply traces_ret. by exists []. }
  eapply traces_bind; [by apply (emit_trace _ [call_id call] [] [])|]. intros [] e1 H1.
  eapply traces_bind; [apply prepare_trace|]. intros prep e2 [-> Hp].
  eapply (traces_bind _ _ (λ evs p, proc_call p = call ∧
                                    summary evs [] (map final_key (outcome_of p)) [])).
  { destruct prep as [p|o]; [by apply traces_ret|].
    eapply traces_bind; [by apply (emit_trace _ [] [final_key (finalized_of call o)] [])|].
    intros [] e3 H3. apply traces_ret. split; [done|]. by rewrite app_nil_r. }
  intros entry e3 [Hentry H3].
  pose proof (summary_app _ _ _ _ _ _ _ _ H1 H3) as H13. simpl in H13.
  eapply traces_bind; [apply traces_aborted|]. intros stop e4 [-> [w Hw]]. destruct stop.
  - apply traces_ret. exists [call]. split; [by eapply batch_calls_stop|].
    unfold outcomes; simpl. by rewrite Hentry, !app_nil_r.
  - eapply traces_bind; [apply IH|]. intros l e5 (done & Hd & Hl & H5). apply traces_ret.
    exists (call :: done). split; [by apply batch_calls_cons|]. split; [simpl; congruence|].
    pose proof (summary_app _ _ _ _ _ _ _ _ H13 H5) as H. simpl in H.
    unfold outcomes; simpl. by rewrite app_nil_r, map_app, (assoc_L (++)).
Qed.

Lemma proc_step_trace c m p :
  (0 < steps_left p)%nat →
  traces (proc_step c m p) (λ evs p', proc_call p' = proc_call p ∧
    steps_left p' = pred (steps_left p) ∧ outcome_of p = [] ∧
    summary evs [] (map final_key (outcome_of p')) []).
Proof.
  destruct p as [p|p o|f|f]; simpl; intros Hp; [..|lia].
  - eapply traces_bind; [apply executePrepared_trace|]. intros o e1 H1. apply traces_ret.
    by rewrite app_nil_r.
  - eapply traces_bind; [apply finalize_trace|]. intros f e1 [-> Hf]. by apply traces_ret.
  - eapply traces_bind; [by apply (emit_trace _ [] [final_key f] [])|]. intros [] e1 H1.
    apply traces_ret. by rewrite app_nil_r.
Qed.

Lemma unfinished_nil (l : list Proc) :
  unfinished l = [] → map proc_call l = map fc_toolCall (outcomes l) ∧
    outcomes l = omap (λ p, match p with Finished f => Some f | _ => None end) l.
Proof.
  intros H.
  assert (Hall : ∀ p, p ∈ l → steps_left p = 0%nat).
  { intros p [i Hi]%list_elem_of_lookup. destruct (decide (steps_left p = 0%nat)) as [|Hp]; [done|].
    assert (i ∈ unfinished l) as Hin; [|rewrite H in Hin; by apply elem_of_nil in Hin].
    unfold unfinished. apply list_elem_of_filter. rewrite Hi. simpl. split; [lia|].
    apply elem_of_seq. apply lookup_lt_Some in Hi. lia. }
  clear H. induction l as [|p l IH]; [done|].
  destruct IH as [IH1 IH2]; [set_solver|].
  destruct p; try (by specialize (Hall _ (list_elem_of_here _ _))).
  simpl. by rewrite IH1, IH2.
Qed.

Lemma chosen_unfinished (l : list Proc) i0 more n :
  unfinished l = i0 :: more →
  ∃ p, l !! nth (n mod S (length more)) (i0 :: more) i0 = Some p ∧ (0 < steps_left p)%nat.
Proof.
  intros H. set (i := nth _ _ _).
  assert (i ∈ unfinished l) as Hi.
  { rewrite H. apply list_elem_of_In, nth_In. apply Nat.mod_upper_bound. done. }
  unfold unfinished in Hi. apply list_elem_of_filter in Hi as [Hp _].
  destruct (l !! i) as [p|]; simpl in Hp; [by exists p|lia].
Qed.

(** Replacing one process of the batch. *)
Lemma replace_proc (l : list Proc) i p p' :
  l !! i = Some p → proc_call p' = proc_call p → outcome_of p = [] →
  map proc_call (<[i:=p']> l) = map proc_call l ∧
  outcomes (<[i:=p']> l) ≡ₚ outcome_of p' ++ outcomes l ∧
  (all_steps (<[i:=p']> l) + steps_left p = all_steps l + steps_left p')%nat.
Proof.
  intros Hi Hc Ho. destruct (list_elem_of_split_length l i p Hi) as (l1 & l2 & -> & ->).
  rewrite insert_app_r_alt, Nat.sub_diag by done. simpl.
  unfold outcomes, all_steps. rewrite !map_app, !flat_map_app, !sum_list_with_app. simpl.
  rewrite Hc, Ho. split; [done|]. split; [|lia].
  simpl. apply Permutation_app_swap_app.
Qed.

Lemma run_procs_trace fuel c m (l : list Proc) :
  traces (run_procs fuel c m l) (λ evs r, ∀ fs, r = Some fs →
    map fc_toolCall fs = map proc_call l ∧
    ∃ ends, summary evs [] ends [] ∧ ends ++ map final_key (outcomes l) ≡ₚ map final_key fs).
Proof.
  revert l. induction fuel as [|fuel IH]; intros l; cbn [run_procs]; destruct (unfinished l) as [|i0 more] eqn:Hu.
  1, 3: apply traces_ret; intros fs [= <-]; destruct (unfinished_nil l Hu) as [-> <-];
    split; [done|]; by exists [].
  - by apply traces_ret.
  - eapply (traces_bind _ _ (λ e _, e = [])).
    { intros [w log] n [w' log'] H. unfold pick in H. destruct (choose w). simplify_eq.
      exists []. by rewrite app_nil_r. }
    intros n e1 ->. destruct (chosen_unfinished l i0 more n Hu) as (p & Hp & Hs).
    rewrite Hp. eapply traces_bind; [by apply proc_step_trace|].
    intros p' e1 (Hc & _ & Ho & H1). eapply traces_weaken; [apply IH|].
    intros e2 r Hr fs Hfs. destruct (Hr fs Hfs) as [Hcalls (ends & H2 & Hends)].
    destruct (replace_proc _ _ _ p' Hp Hc Ho) as (Hc' & Ho' & _).
    rewrite Hc' in Hcalls. split; [done|].
    exists (map final_key (outcome_of p') ++ ends).
    split; [exact (summary_app _ _ _ _ _ _ _ _ H1 H2)|].
    rewrite <- Hends, Ho', map_app. by rewrite (Permutation_app_comm _ ends), <- (assoc_L (++)).
Qed.

(** The steps that are left are enough fuel. *)
Lemma run_procs_total fuel c m (l : list Proc) s r s' :
  (all_steps l ≤ fuel)%nat → run_procs fuel c m l s = (Ok r, s') → r ≠ None.
Proof.
  revert l s. induction fuel as [|fuel IH]; intros l s Hf H; cbn [run_procs] in H;
    destruct (unfinished l) as [|i0 more] eqn:Hu.
  1, 3: by injection H as <- <-.
  - destruct (chosen_unfinished l i0 more 0 Hu) as (p & Hp & Hs).
    destruct (replace_proc _ _ _ p Hp eq_refl) as (_ & _ & Hr); [by destruct p; simpl in Hs; [..|lia]|].
    unfold all_steps in Hf. rewrite <- (take_drop_middle _ _ _ Hp) in Hf.
    rewrite sum_list_with_app in Hf. simpl in Hf. lia.
  - apply M_bind_Ok_inv in H as (n & s1 & _ & H).
    destruct (chosen_unfinished l i0 more n Hu) as (p & Hp & Hs). rewrite Hp in H.
    apply M_bind_Ok_inv in H as (p' & s2 & H1 & H).
    destruct (proc_step_trace c m p Hs _ _ _ H1) as (_ & _ & Hc & Hl & Ho & _).
    destruct (replace_proc _ _ _ p' Hp Hc Ho) as (_ & _ & Hr).
    apply IH in H; [done|]. lia.
Qed.

Lemma result_messages_trace fs :
  traces (result_messages fs) (λ evs ms,
    summary evs [] [] (map ToolResult ms) ∧ map message_key ms = map final_key fs).
Proof.
  induction fs as [|f fs IH]; [by apply traces_ret|]. cbn [result_messages].
  apply result_message_bind. intros m e1 H1 Hk. eapply traces_bind; [apply IH|].
  intros ms e2 [H2 Hks]. apply traces_ret. rewrite app_nil_r.
  split; [exact (summary_app _ _ _ _ _ _ _ _ H1 H2)|]. simpl map. by rewrite Hk, Hks.
Qed.

(** ** A batch *)

Definition batch_result (calls : list AgentToolCall) evs (r : list ToolResultMessage * bool) : Prop :=
  ∃ fs ends, batch_calls calls (map fc_toolCall fs) ∧ map message_key r.1 = map final_key fs ∧
    summary evs (map call_id (map fc_toolCall fs)) ends (map ToolResult r.1) ∧
    ends ≡ₚ map final_key fs ∧ r.2 = shouldTerminateToolBatch fs.

Lemma sequential_batch c m calls : traces (executeToolCallsSequential c m calls) (batch_result calls).
Proof.
  eapply traces_bind; [apply sequential_trace|]. intros l e1 (done & Hd & [Hc Hk Hs]).
  apply traces_ret. rewrite app_nil_r. exists l.*1, (map final_key l.*1). by subst done.
Qed.

Lemma parallel_batch c m calls : traces (executeToolCallsParallel c m calls) (batch_result calls).
Proof.
  intros s r s' H. apply M_bind_Ok_inv in H as (l & s1 & H1 & H).
  apply M_bind_Ok_inv in H as (o & s2 & H2 & H).
  pose proof (run_procs_total _ _ _ _ _ _ _ (le_n _) H2) as Ho.
  apply M_bind_Ok_inv in H as (ms & s3 & H3 & [= <- <-]).
  destruct (start_trace _ _ _ _ _ _ H1) as (e1 & Hs1 & done & Hd & Hl & Hsum1).
  destruct (run_procs_trace _ _ _ _ _ _ _ H2) as (e2 & Hs2 & HP).
  destruct o as [fs|]; [|done]. destruct (HP fs eq_refl) as [Hfs (ends & Hsum2 & Hends)].
  destruct (result_messages_trace _ _ _ _ H3) as (e3 & Hs3 & Hsum3 & Hk). simpl in *.
  exists (e1 ++ e2 ++ e3). split; [by rewrite Hs3, Hs2, Hs1, <- !(assoc_L (++))|].
  exists fs, (map final_key (outcomes l) ++ ends). rewrite Hfs, Hl. split; [done|]. split; [done|].
  split; [|by rewrite <- Hends, (Permutation_app_comm ends)].
  pose proof (summary_app _ _ _ _ _ _ _ _ Hsum1 (summary_app _ _ _ _ _ _ _ _ Hsum2 Hsum3)) as H.
  simpl in H. by rewrite !app_nil_r in H.
Qed.

Lemma executeToolCalls_trace c m config :
  traces (executeToolCalls c m config) (batch_result (tool_calls (am_content m))).
Proof. unfold executeToolCalls. case_match; [apply sequential_batch|apply parallel_batch]. Qed.

(** C20: A batch of tool calls, one after the other or in parallel under any
    interleaving, gives one result message per call, in the order of the calls in
    the assistant message: the calls are all of them unless the run is aborted,
    and then a prefix. Each call starts once, in order, and ends exactly once,
    and its end event carries what the result message says. The batch terminates
    the run when it is not empty and every result asks for it. *)
Theorem executeToolCalls_results c m config s ms terminate s'
  (H : executeToolCalls c m config s = (Ok (ms, terminate), s')) :
  ∃ evs fs, s'.2 = s.2 ++ evs
    ∧ map fc_toolCall fs `prefix_of` tool_calls (am_content m)
    ∧ ((∀ w, aborted w = false) → map fc_toolCall fs = tool_calls (am_content m))
    ∧ map message_key ms = map final_key fs
    ∧ ended evs = map ToolResult ms
    ∧ tool_starts evs = map call_id (map fc_toolCall fs)
    ∧ tool_ends evs ≡ₚ map final_key fs
    ∧ inside_run evs = true
    ∧ terminate = negb (bool_decide (fs = []))
                  && forallb (λ f, bool_decide (atr_terminate (fc_result f) = Some true)) fs.
Proof.
  destruct (executeToolCalls_trace c m config s _ s' H) as (evs & Hs & fs & ends & (H1 & H2 & _) & Hk & [] & He & Ht).
  exists evs, fs. simpl in *. subst. split_and!; [done..|].
  unfold shouldTerminateToolBatch. f_equal. clear. induction fs as [|f fs IH]; [done|].
  simpl. rewrite IH. f_equal. by destruct (atr_terminate (fc_result f)) as [[]|].
Qed.

(** ** What never throws *)

Definition returns {A} (m : M St jstr A) : Prop := ∀ s, ∃ a s', m s = (Ok a, s').

Lemma returns_ret {A} (a : A) : returns (mret a).
Proof. intros s. by exists a, s. Qed.
Lemma returns_bind {A B} (m : M St jstr A) (f : A → M St jstr B) :
  returns m → (∀ a, returns (f a)) → returns (m ≫= f).
Proof.
  intros Hm Hf s. destruct (Hm s) as (a & s1 & H1). destruct (Hf a s1) as (b & s2 & H2).
  exists b, s2. by rewrite (M_bind_ok _ _ _ _ _ H1).
Qed.
Lemma returns_try {A} (m : M St jstr A) h : (∀ e, returns (h e)) → returns (try_catch m h).
Proof. intros Hh s. unfold try_catch. destruct (m s) as [[a|e] s1]; [by exists a, s1|apply Hh]. Qed.

Section quiet.
(** No listener throws. *)
Hypothesis listener_returns : ∀ e w, is_ok (listener e w).1 = true.

Lemma returns_emit e : returns (emit e).
Proof.
  intros [w log]. unfold emit. specialize (listener_returns e w).
  destruct (listener e w) as [[[]|] w']; [|done]. by eexists _, _.
Qed.
Lemma returns_emit_all l : returns (emit_all l).
Proof. induction l; simpl; [apply returns_ret|]. apply returns_bind; [apply returns_emit|done]. Qed.
Lemma returns_emit_together l : returns (emit_together l).
Proof.
  induction l as [|e l IH]; [apply returns_ret|]. intros s. cbn [emit_together].
  destruct (returns_emit e s) as (? & s1 & ->). destruct (IH s1) as (? & s2 & ->). by eexists _, _.
Qed.
Lemma returns_prepare c m call : returns (prepareToolCall c m call).
Proof. unfold prepareToolCall. case_match; [apply returns_try; intros e|]; apply returns_ret. Qed.
Lemma returns_execute p : returns (executePreparedToolCall p).
Proof.
  apply returns_bind.
  - intros [w log]. destruct (tool_execute _ _ _ _) as [[ups r] w']. by eexists _, _.
  - intros [ups r]. apply returns_bind; [apply returns_emit_together|]. intros []. apply returns_ret.
Qed.
Lemma returns_finalize c m p o : returns (finalizeExecutedToolCall c m p o).
Proof.
  apply returns_bind; [|intros ?; apply returns_ret].
  case_match; [apply returns_try; intros e|]; apply returns_ret.
Qed.
Lemma returns_aborted : returns is_aborted.
Proof. intros s. by eexists _, _. Qed.
Lemma returns_now : returns date_now.
Proof. intros s. by eexists _, _. Qed.

#[local] Hint Resolve returns_ret returns_emit returns_emit_all returns_emit_together returns_prepare
  returns_execute returns_finalize returns_aborted returns_now : returns.
#[local] Hint Extern 1 (returns (_ ≫= _)) => apply returns_bind; [|intros ?] : returns.

Lemma returns_sequential c m calls : returns (sequential_loop c m calls).
Proof.
  induction calls as [|call calls IH]; cbn [sequential_loop]; [auto with returns|].
  apply returns_bind; [|intros r; apply returns_bind; [auto with returns|intros []]; auto with returns].
  unfold run_call, emit_start, emitToolExecutionEnd, createToolResultMessage, emitToolResultMessage.
  apply returns_bind; [auto with returns|intros []].
  apply returns_bind; [auto with returns|intros [p|o]]; auto 10 with returns.
Qed.
Lemma returns_start c m calls : returns (start_loop c m calls).
Proof.
  induction calls as [|call calls IH]; cbn [start_loop]; [auto with returns|].
  unfold emit_start, emitToolExecutionEnd.
  apply returns_bind; [auto with returns|intros []].
  apply returns_bind; [auto with returns|intros prep].
  apply returns_bind; [destruct prep; auto with returns|intros p].
  apply returns_bind; [auto with returns|intros []]; auto with returns.
Qed.
Lemma returns_run_procs fuel c m l : returns (run_procs fuel c m l).
Proof.
  revert l. induction fuel as [|fuel IH]; intros l; cbn [run_procs]; case_match; auto with returns.
  apply returns_bind; [|intros k].
  - intros [w log]. unfold pick. destruct (choose w). by eexists _, _.
  - case_match; [|auto with returns]. apply returns_bind; [|auto with returns].
    destruct p; simpl; unfold emitToolExecutionEnd; auto with returns.
Qed.
Lemma returns_result_messages fs : returns (result_messages fs).
Proof.
  induction fs as [|f fs IH]; cbn [result_messages]; [auto with returns|].
  unfold createToolResultMessage, emitToolResultMessage. auto 10 with returns.
Qed.

(** A batch of tool calls always returns, as long as no event listener throws:
    an unknown tool, arguments that do not validate, a hook or a tool that throws
    each become an error result of that call, and the other calls go on. *)
Theorem executeToolCalls_returns c m config s :
  ∃ ms terminate s', executeToolCalls c m config s = (Ok (ms, terminate), s').
Proof.
  assert (returns (executeToolCalls c m config)) as Hr.
  { unfold executeToolCalls. case_match.
    - apply returns_bind; [apply returns_sequential|auto with returns].
    - apply returns_bind; [apply returns_start|intros l].
      apply returns_bind; [apply returns_run_procs|intros o].
      apply returns_bind; [apply returns_result_messages|auto with returns]. }
  destruct (Hr s) as ([ms t] & s' & H). by exists ms, t, s'.
Qed.
End quiet.

(** ** A response *)

Definition is_start (e : StreamEvent) : bool := match e with StreamStart _ => true | _ => false end.
(** The stream opens at most one partial message. *)
Definition one_start (l : list StreamEvent) : Prop := (length (List.filter is_start l) ≤ 1)%nat.

Lemma replace_last_push c m m' : replace_last (push c m) m' = push c m'.
Proof.
  unfold replace_last, push, set_messages. simpl. f_equal. f_equal.
  rewrite length_app. simpl. rewrite Nat.add_sub, take_app_length. done.
Qed.

Lemma finish_trace c added final :
  traces (finish_response c added final) (λ evs r, summary evs [] [] [Assistant final] ∧
    r = (final, if added then replace_last c (Assistant final) else push c (Assistant final))).
Proof.
  unfold finish_response.
  eapply (traces_bind _ _ (λ evs _, summary evs [] [] [])).
  { destruct added; [by apply traces_ret|by apply emit_trace]. }
  intros _ e1 H1. eapply traces_bind; [by apply (emit_trace _ [] [] [Assistant final])|].
  intros [] e2 H2. apply traces_ret. rewrite app_nil_r.
  split; [exact (summary_app _ _ _ _ _ _ _ _ H1 H2)|done].
Qed.

Lemma stream_loop_trace events c added final :
  traces (stream_loop events c added final) (λ evs r, summary evs [] [] [Assistant final] ∧
    r.1 = final ∧
    (∀ c0 m, c = (if added then push c0 m else c0) →
       length (List.filter is_start events) + Nat.b2n added ≤ 1 →
       r.2 = push c0 (Assistant final))%nat).
Proof.
  revert c added. induction events as [|[partial|partial| |] events IH]; intros c added; cbn [stream_loop].
  2: { eapply traces_bind; [by apply (emit_trace _ [] [] [])|]. intros [] e1 H1.
       eapply traces_weaken; [apply IH|]. intros e2 r (H2 & Hr & Hc).
       split; [exact (summary_app _ _ _ _ _ _ _ _ H1 H2)|]. split; [done|].
       intros c0 m -> Hl. simpl in Hl. apply (Hc _ (Assistant partial)).
       - destruct added; [simpl in Hl; lia|done].
       - simpl. lia. }
  2: { destruct added; [|exact (IH c false)].
       eapply traces_bind; [by apply (emit_trace _ [] [] [])|]. intros [] e1 H1.
       eapply traces_weaken; [apply IH|]. intros e2 r (H2 & Hr & Hc).
       split; [exact (summary_app _ _ _ _ _ _ _ _ H1 H2)|]. split; [done|].
       intros c0 m -> Hl. apply (Hc _ (Assistant partial)); [|done].
       apply replace_last_push. }
  all: eapply traces_weaken; [apply finish_trace|]; intros evs r [H ->];
    split; [done|]; split; [done|]; intros c0 m -> Hl; destruct added; simpl; [|done];
    apply replace_last_push.
Qed.

(** Every stream of the model client opens at most one partial message. *)
Definition stream_protocol : Prop := ∀ model p ms ts l k w r w',
  streamFn model p ms ts l k w = (Ok r, w') → one_start (sr_events r).

Lemma stream_trace c config :
  traces (streamAssistantResponse c config) (λ evs r, summary evs [] [] [Assistant r.1] ∧
    (stream_protocol → r.2 = push c (Assistant r.1))).
Proof.
  unfold streamAssistantResponse.
  eapply (traces_bind _ _ (λ e _, e = [])).
  { case_match; [apply traces_ext|by apply traces_ret]. }
  intros messages e1 ->. eapply traces_bind; [apply traces_ext|]. intros llm e2 ->.
  eapply (traces_bind _ _ (λ e _, e = [])).
  { case_match; [apply traces_ext|by apply traces_ret]. }
  intros key e3 ->.
  eapply (traces_bind _ _ (λ e r, e = [] ∧ (stream_protocol → one_start (sr_events r)))).
  { intros [w log] r [w' log'] H. unfold ext in H. destruct (streamFn _ _ _ _ _ _ w) eqn:Hs.
    simplify_eq. exists []. rewrite app_nil_r. split; [done|]. split; [done|].
    intros Hp. by apply Hp in Hs. }
  intros r e4 [-> Hp]. eapply traces_weaken; [apply stream_loop_trace|].
  intros evs r' (H & -> & Hc). split; [done|]. intros Hpr.
  apply (Hc c (Assistant (sr_result r))); [done|]. unfold one_start in Hp. simpl. specialize (Hp Hpr). lia.
Qed.

(** ** A turn *)

Lemma batch_result_summary calls evs r :
  batch_result calls evs r → ∃ starts ends, summary evs starts ends (map ToolResult r.1).
Proof. intros (fs & ends & _ & _ & H & _). by eexists _, _. Qed.

(** What a turn does besides its last event. *)
Definition turn_result (s : @LoopState W) evs (r : @LoopState W + list AgentMessage) : Prop :=
  match r with
  | inl s' => inside_run evs = true ∧ ls_newMessages s' = ls_newMessages s ++ ended evs
      ∧ ls_firstTurn s' = false
      ∧ (stream_protocol → cb_prepareNextTurn cb = None →
           ac_messages (ls_context s') = ac_messages (ls_context s) ++ ended evs)
  | inr ms => ∃ mid, evs = mid ++ [AgentEnd ms] ∧ inside_run mid = true
      ∧ ms = ls_newMessages s ++ ended mid
  end.

Lemma turn_end_trace m tr : traces (emit (TurnEnd m tr)) (λ evs _, summary evs [] [] []).
Proof. by apply emit_trace. Qed.

(** Right-nested appends without empty lists. *)
Ltac flatten := cbn [app] in *; rewrite ?app_nil_r, <- ?(assoc_L (++)) in *; cbn [app] in *.

Lemma turn_trace (s : LoopState) : traces (turn s) (turn_result s).
Proof.
  unfold turn.
  eapply (traces_bind _ _ (λ evs _, summary evs [] [] [])).
  { case_match; [by apply traces_ret|by apply emit_trace]. }
  intros _ e1 H1. eapply traces_bind; [apply traces_emit_all|]. intros [] e2 ->.
  pose proof (summary_app _ _ _ _ _ _ _ _ H1 (summary_messages (ls_pending s))) as H12.
  eapply traces_bind; [apply stream_trace|]. intros [message c] e3 [H3 Hc]; cbn [fst snd] in *.
  pose proof (summary_app _ _ _ _ _ _ _ _ H12 H3) as H123. clear H1 H12 H3.
  rewrite <- (assoc_L (++)) in H123. destruct (is_failed message).
  { eapply traces_bind; [apply turn_end_trace|]. intros [] e4 H4.
    eapply traces_bind; [apply traces_emit|]. intros [] e5 ->. apply traces_ret.
    pose proof (summary_app _ _ _ _ _ _ _ _ H123 H4) as [Hi _ _ Hm].
    exists (e1 ++ flat_map message_events (ls_pending s) ++ e3 ++ e4).
    flatten. split; [done|]. split; [done|].
    by rewrite Hm. }
  eapply (traces_bind _ _ (λ evs (r : list ToolResultMessage * bool),
    ∃ starts ends, summary evs starts ends (map ToolResult r.1))).
  { case_bool_decide; [apply traces_ret; by exists [], []|].
    eapply traces_weaken; [apply executeToolCalls_trace|]. intros ? ?. apply batch_result_summary. }
  intros [results terminate] e4 (starts & ends & H4); cbn [fst] in *.
  eapply traces_bind; [apply turn_end_trace|]. intros [] e5 H5.
  pose proof (summary_app _ _ _ _ _ _ _ _ H123 (summary_app _ _ _ _ _ _ _ _ H4 H5)) as [Hi _ _ Hm].
  clear H123 H4 H5.
  eapply (traces_bind _ _ (λ evs u, evs = [] ∧ (cb_prepareNextTurn cb = None → u = None))).
  { destruct (cb_prepareNextTurn cb); [|by apply traces_ret].
    eapply traces_weaken; [apply traces_optional|]. by intros ? ? ->. }
  intros update e6 [-> Hu].
  destruct (apply_update _ _ _) as [c' config'] eqn:Happ.
  eapply traces_bind; [apply traces_optional|]. intros [] e7 ->.
  - eapply traces_bind; [apply traces_emit|]. intros [] e8 ->. apply traces_ret.
    exists (e1 ++ flat_map message_events (ls_pending s) ++ e3 ++ e4 ++ e5).
    flatten. split; [done|]. split; [done|]. by rewrite Hm.
  - eapply traces_bind; [apply traces_optional|]. intros pending e8 ->. apply traces_ret.
    cbn [ls_newMessages ls_firstTurn ls_context].
    flatten. split; [done|]. rewrite Hm. split; [done|].
    split; [done|]. intros Hp Hn. rewrite (Hu Hn) in Happ. injection Happ as <- _. simpl.
    rewrite (Hc Hp). simpl. by flatten.
Qed.

(** A turn that does not end the run adds to the new messages exactly the
    messages whose end it reported, in that order, and with streams that open one
    partial message and no callback that replaces the context it adds the same
    messages to the context of the next request. *)
Theorem turn_messages (s s' : LoopState) st st' (H : turn s st = (Ok (inl s'), st')) :
  ∃ evs, st'.2 = st.2 ++ evs ∧ inside_run evs = true
    ∧ ls_newMessages s' = ls_newMessages s ++ ended evs
    ∧ (stream_protocol → cb_prepareNextTurn cb = None →
         ac_messages (ls_context s') = ac_messages (ls_context s) ++ ended evs).
Proof. destruct (turn_trace s _ _ _ H) as (evs & Hs & Hi & Hm & _ & Hc). by exists evs. Qed.

(** ** A run *)

Definition run_result (before : list AgentMessage) evs (o : option (list AgentMessage)) : Prop :=
  ∀ ms, o = Some ms → ∃ mid, evs = mid ++ [AgentEnd ms] ∧ inside_run mid = true ∧
    ms = before ++ ended mid.

Lemma loop_trace fuel (s : LoopState) : traces (loop fuel s) (run_result (ls_newMessages s)).
Proof.
  revert s. induction fuel as [|fuel IH]; intros s; cbn [loop]; [by apply traces_ret|].
  destruct (_ || _).
  - eapply traces_bind; [apply turn_trace|]. intros [s1|ms] e1 H1.
    + destruct H1 as (Hi & Hm & _ & _). eapply traces_weaken; [apply IH|].
      intros e2 o Ho ms Hms. destruct (Ho ms Hms) as (mid & -> & Hmid & ->).
      exists (e1 ++ mid). rewrite inside_run_app, Hi, Hmid, ended_app, Hm. by flatten.
    + destruct H1 as (mid & -> & Hi & Hm). apply traces_ret. intros ms' [= <-].
      exists mid. by rewrite app_nil_r.
  - eapply traces_bind; [apply traces_optional|]. intros follow e1 ->. case_bool_decide.
    + eapply traces_bind; [apply traces_emit|]. intros [] e2 ->. apply traces_ret.
      intros ms [= <-]. exists []. simpl. by rewrite app_nil_r.
    + apply (IH {| ls_context := _ |}).
Qed.

Lemma runLoop_trace fuel c before config : traces (runLoop fuel c before config) (run_result before).
Proof.
  eapply traces_bind; [apply traces_optional|]. intros pending e1 ->.
  apply (loop_trace _ {| ls_context := _ |}).
Qed.

Lemma runAgentLoop_trace fuel prompts c config st ms st' :
  runAgentLoop fuel prompts c config st = (Ok (Some ms), st') →
  ∃ mid, st'.2 = st.2 ++ AgentStart :: TurnStart :: mid ++ [AgentEnd ms]
    ∧ inside_run mid = true ∧ ended mid = ms ∧ prompts `prefix_of` ms.
Proof.
  intros H. unfold runAgentLoop in H. apply M_bind_Ok_inv in H as ([] & s1 & H1 & H).
  apply M_bind_Ok_inv in H as ([] & s2 & H2 & H). apply M_bind_Ok_inv in H as ([] & s3 & H3 & H).
  destruct (traces_emit _ _ _ _ H1) as (? & E1 & ->). destruct (traces_emit _ _ _ _ H2) as (? & E2 & ->).
  destruct (traces_emit_all _ _ _ _ H3) as (? & E3 & ->).
  destruct (runLoop_trace _ _ _ _ _ _ _ H) as (evs & E4 & Hr).
  destruct (Hr ms eq_refl) as (mid & -> & Hi & ->).
  exists (flat_map message_events prompts ++ mid).
  rewrite ended_app, ended_message_events, inside_run_app, inside_message_events, Hi, E4, E3, E2, E1.
  split_and!; [by flatten|done|done|by exists (ended mid)].
Qed.

(** The events of a completed run tell its result: it starts with
    [AgentStart], ends with the only [AgentEnd], and the messages [AgentEnd]
    carries and the run returns are the prompts and then every message whose end
    was reported, in order. *)
Theorem runAgentLoop_messages fuel prompts c config st ms st'
  (H : runAgentLoop fuel prompts c config st = (Ok (Some ms), st')) :
  ∃ mid, st'.2 = st.2 ++ AgentStart :: TurnStart :: mid ++ [AgentEnd ms]
    ∧ inside_run mid = true ∧ ended mid = ms ∧ prompts `prefix_of` ms.
Proof.
  by apply (runAgentLoop_trace fuel prompts c config).
Qed.

Lemma runAgentLoopContinue_messages fuel c config st ms st' :
  runAgentLoopContinue fuel c config st = (Ok (Some ms), st') →
  ac_messages c ≠ [] ∧ ∃ mid, st'.2 = st.2 ++ AgentStart :: TurnStart :: mid ++ [AgentEnd ms]
    ∧ inside_run mid = true ∧ ended mid = ms.
Proof.
  unfold runAgentLoopContinue. intros H. split; [by intros E; rewrite E in H|].
  assert ((do! emit AgentStart in do! emit TurnStart in runLoop fuel c [] config) st = (Ok (Some ms), st'))
    as H'; [by repeat case_match|]. clear H.
  apply M_bind_Ok_inv in H' as ([] & s1 & H1 & H). apply M_bind_Ok_inv in H as ([] & s2 & H2 & H).
  destruct (traces_emit _ _ _ _ H1) as (? & E1 & ->). destruct (traces_emit _ _ _ _ H2) as (? & E2 & ->).
  destruct (runLoop_trace _ _ _ _ _ _ _ H) as (evs & E4 & Hr).
  destruct (Hr ms eq_refl) as (mid & -> & Hi & ->).
  exists mid. rewrite E4, E2, E1. split; [by flatten|]. done.
Qed.
End facts.

(** ** A concrete run

    The world holds the answers the model client still gives; the one tool echoes
    its arguments. *)

Module Demo.
Definition World := list AssistantMessage.

Definition echo : @AgentTool World :=
  {| tool_name := js "echo"; tool_executionMode := None; tool_prepareArguments := None;
     tool_execute _ args w :=
       ([], Ok {| atr_content := [TextBlock (js "echoed")]; atr_details := Some args; atr_terminate := None |}, w) |}.

Definition callbacks : @Callbacks World :=
  {| cb_convertToLlm ms := mret (convertToLlm ms); cb_transformContext := None; cb_getApiKey := None;
     cb_beforeToolCall := Some (λ x, mret (if bool_decide (call_id (bc_toolCall x) = js "c3")
       then Some {| bt_block := true; bt_reason := None; bt_args := None |} else None));
     cb_afterToolCall := None; cb_prepareNextTurn := None; cb_shouldStopAfterTurn := None;
     cb_getSteeringMessages := None; cb_getFollowUpMessages := None |}.

Definition client : M World jstr StreamResponse := λ w,
  match w with
  | [] => (Err (js "no more answers"), [])
  | m :: w => (Ok {| sr_events := [StreamStart m; StreamUpdate m; StreamDone]; sr_result := m |}, w)
  end.

#[global] Instance env : @LoopEnv World :=
  {| cb := callbacks; listener _ := mret tt; aborted _ := false; now _ := 7%Z;
     streamFn _ _ _ _ _ _ := client; validateToolArguments _ args := Ok args;
     choose w := (1%nat, w) |}.

Definition answer (content : list Block) (stop : StopReason) : AssistantMessage :=
  {| am_content := content; am_provider := js "p"; am_model := js "m"; am_usage := None;
     am_stopReason := stop; am_errorMessage := None; am_timestamp := 5 |}.
Definition calls : AssistantMessage :=
  answer [ToolCallBlock (js "c1") (js "echo") JNull; ToolCallBlock (js "c2") (js "nope") JNull;
          ToolCallBlock (js "c3") (js "echo") JNull; ToolCallBlock (js "c4") (js "echo") JNull] StopToolUse.
Definition bye : AssistantMessage := answer [TextBlock (js "bye")] StopStop.
Definition hi : AgentMessage := UserMessage (CText (js "hi")) 1.
Definition context : @AgentContext World :=
  {| ac_systemPrompt := []; ac_messages := []; ac_tools := [echo] |}.
Definition config : LoopConfig :=
  {| lc_model := {| lm_id := js "m"; lm_provider := js "p" |}; lc_reasoning := None; lc_apiKey := None;
     lc_toolExecution := Some Parallel |}.
Definition start : World * list AgentEvent := ([calls; bye], []).
Definition started : LoopState :=
  {| ls_context := context; ls_config := config; ls_newMessages := []; ls_pending := [hi];
     ls_hasMoreToolCalls := true; ls_firstTurn := true |}.

Lemma listener_calm : ∀ e (w : World), is_ok (listener e w).1 = true.
Proof. done. Qed.
End Demo.

Lemma executeToolCalls_results_witness :
  ∃ ms st, executeToolCalls Demo.context Demo.calls Demo.config Demo.start = (Ok (ms, false), st) ∧
    map tr_toolCallId ms = [js "c1"; js "c2"; js "c3"; js "c4"] ∧
    ∃ evs fs, st.2 = Demo.start.2 ++ evs ∧ map fc_toolCall fs `prefix_of` tool_calls (am_content Demo.calls)
      ∧ tool_ends evs ≡ₚ map final_key fs.
Proof.
  destruct (executeToolCalls Demo.context Demo.calls Demo.config Demo.start) as [[[ms t]|] st] eqn:H;
    [|by vm_compute in H].
  exists ms, st.
  destruct (executeToolCalls_results _ _ _ _ _ _ _ H) as (evs & fs & H1 & H2 & _ & _ & _ & _ & H3 & _).
  vm_compute in H. injection H as <- <- <-.
  split; [done|]. split; [done|]. by exists evs, fs.
Defined.

Lemma executeToolCalls_returns_witness :
  (∀ e (w : Demo.World), is_ok (listener e w).1 = true) ∧
  ∃ ms terminate s', executeToolCalls Demo.context Demo.calls Demo.config Demo.start = (Ok (ms, terminate), s').
Proof. split; [exact Demo.listener_calm|]. apply (executeToolCalls_returns Demo.listener_calm). Defined.

Lemma turn_messages_witness :
  ∃ s' st', turn Demo.started Demo.start = (Ok (inl s'), st') ∧ length (ls_newMessages s') = 6%nat ∧
    ∃ evs, st'.2 = Demo.start.2 ++ evs ∧ inside_run evs = true.
Proof.
  destruct (turn Demo.started Demo.start) as [[[s'|]|] st'] eqn:H; [|by vm_compute in H..].
  exists s', st'. destruct (turn_messages _ _ _ _ H) as (evs & H1 & H2 & _).
  split; [reflexivity|]. split; [|exact (ex_intro _ evs (conj H1 H2))].
  clear H1 H2. vm_compute in H. injection H as <- <-. reflexivity.
Defined.

Lemma runAgentLoop_messages_witness :
  ∃ ms st', runAgentLoop 6 [Demo.hi] Demo.context Demo.config Demo.start = (Ok (Some ms), st') ∧
    length ms = 7%nat ∧ ∃ mid, ended mid = ms ∧ [Demo.hi] `prefix_of` ms.
Proof.
  destruct (runAgentLoop 6 [Demo.hi] Demo.context Demo.config Demo.start) as [[[ms|]|] st'] eqn:H;
    [|by vm_compute in H..].
  exists ms, st'. destruct (runAgentLoop_messages _ _ _ _ _ _ _ H) as (mid & _ & _ & H1 & H2).
  split; [reflexivity|]. split; [|exact (ex_intro _ mid (conj H1 H2))].
  clear H1 H2. vm_compute in H. injection H as <- <-. reflexivity.
Defined.
