(* ===== verification/AgentLoopExec.v ===== *)
(** * Which calls a batch executes

    packages/harness/src/agent-loop.ts, [executeToolCalls]. The tools of the
    context write every execution into a record of the world, with the id and the
    arguments they were run with. What a batch adds to the record is then traced
    back to the checks of [prepareToolCall]. *)

From S2P Require Import Prelude JsMap JsString Json Messages AgentLoop AgentLoopFacts.
From Stdlib Require Import Lia.

Set Default Goal Selector "!".

(** The name of the tool, the id of the call, and the arguments of an execution. *)
Record Execution := { ex_tool : jstr; ex_call : jstr; ex_args : json }.

Section exec.
Context {W : Type} `{!LoopEnv (W:=W)}.
Abbreviation St := (W * list AgentEvent)%type.
Abbreviation Proc := (@AgentLoop.Proc W).
Implicit Types (c : @AgentContext W).

(** What the checks before the execution of a call establish: the tool is one of
    the context, the arguments it gets are what the schema check returned, for
    the arguments the tool prepared or for those the hook replaced them by, the
    hook let the call pass, and the run was not aborted then. *)
Definition cleared c (m : AssistantMessage) (p : @PreparedToolCall W) : Prop :=
  find_tool c (call_name (pt_toolCall p)) = Some (pt_tool p)
  ∧ ∃ w w' prepared validated,
      prepareToolCallArguments (pt_tool p) (pt_toolCall p) = Ok prepared
      ∧ validateToolArguments (pt_tool p) prepared = Ok validated
      ∧ aborted w' = false
      ∧ match cb_beforeToolCall cb with
        | None => pt_args p = validated
        | Some before => ∃ r,
            before {| bc_assistantMessage := m; bc_toolCall := pt_toolCall p;
                      bc_args := validated; bc_context := c |} w = (Ok r, w')
            ∧ match r with
              | None => pt_args p = validated
              | Some r => bt_block r = false ∧
                  match bt_args r with
                  | None => pt_args p = validated
                  | Some args => validateToolArguments (pt_tool p) args = Ok (pt_args p)
                  end
              end
        end.

Lemma prepareToolCall_cleared c m call s p s' :
  prepareToolCall c m call s = (Ok (inl p), s') → cleared c m p ∧ pt_toolCall p = call.
Proof.
  intros H. destruct (prepared_call_checked _ _ _ _ _ _ H) as (<- & Ht & Ha & prepared & validated & H1 & H2 & H3).
  split; [|done]. split; [done|]. by exists s.1, s'.1, prepared, validated.
Qed.

(** ** The record *)

Context (record : W → list Execution).

(** The execution of a prepared call. *)
Definition exec_of (p : @PreparedToolCall W) : Execution :=
  {| ex_tool := tool_name (pt_tool p); ex_call := call_id (pt_toolCall p); ex_args := pt_args p |}.

(** The tools of the context write down their executions, and nothing else
    writes to the record. *)
Record recorded c : Prop := {
  rec_tool : ∀ t id args w, t ∈ ac_tools c →
    record (tool_execute t id args w).2 =
      record w ++ [{| ex_tool := tool_name t; ex_call := id; ex_args := args |}];
  rec_listener : ∀ e w, record (listener e w).2 = record w;
  rec_before : ∀ f x w, cb_beforeToolCall cb = Some f → record (f x w).2 = record w;
  rec_after : ∀ f x w, cb_afterToolCall cb = Some f → record (f x w).2 = record w;
  rec_choose : ∀ w, record (choose w).2 = record w;
}.

(** ** Rules: what a computation adds to the record, whether it returns or throws *)

Definition adds {A} (m : M St jstr A) (P : list Execution → result jstr A → Prop) : Prop :=
  ∀ s, ∃ new, record (m s).2.1 = record s.1 ++ new ∧ P new (m s).1.

Lemma adds_weaken {A} (m : M St jstr A) P Q :
  adds m P → (∀ new r, P new r → Q new r) → adds m Q.
Proof. intros Hm H s. destruct (Hm s) as (new & ? & ?). exists new. eauto. Qed.

Lemma adds_ret {A} (a : A) P : P [] (Ok a) → adds (mret a) P.
Proof. intros H s. exists []. by rewrite app_nil_r. Qed.

Lemma adds_bind {A B} (m : M St jstr A) (f : A → M St jstr B) P Q :
  adds m P →
  (∀ new e, P new (Err e) → Q new (Err e)) →
  (∀ new a, P new (Ok a) → adds (f a) (λ more r, Q (new ++ more) r)) →
  adds (m ≫= f) Q.
Proof.
  intros Hm He Hf s. unfold mbind, M_bind. destruct (Hm s) as (new & Hr & HP).
  destruct (m s) as [[a|e] s1]; simpl in *; [|exists new; eauto].
  destruct (Hf new a HP s1) as (more & Hr1 & HQ). exists (new ++ more).
  by rewrite Hr1, Hr, (assoc_L (++)).
Qed.

(** Nothing is added. *)
Definition inert {A} (m : M St jstr A) : Prop := adds m (λ new _, new = []).

Lemma inert_eq {A} (m : M St jstr A) : (∀ s, record (m s).2.1 = record s.1) → inert m.
Proof. intros H s. exists []. by rewrite H, app_nil_r. Qed.
Lemma inert_ret {A} (a : A) : inert (mret a).
Proof. by apply adds_ret. Qed.
Lemma inert_lift {A} (r : result jstr A) : inert (lift r).
Proof. by apply inert_eq. Qed.
Lemma inert_aborted : inert is_aborted.
Proof. by apply inert_eq. Qed.
Lemma inert_now : inert date_now.
Proof. by apply inert_eq. Qed.
Lemma inert_ext {A} (m : M W jstr A) : (∀ w, record (m w).2 = record w) → inert (ext m).
Proof. intros H. apply inert_eq. intros [w l]. unfold ext. specialize (H w). by destruct (m w). Qed.

(** A step that adds nothing, before a computation. *)
Lemma adds_after {A B} (m : M St jstr A) (f : A → M St jstr B) Q :
  inert m → (∀ e, Q [] (Err e)) → (∀ a, adds (f a) Q) → adds (m ≫= f) Q.
Proof.
  intros Hm He Hf. eapply adds_bind; [exact Hm|by intros ? e ->|].
  intros ? a ->. apply Hf.
Qed.
Lemma inert_bind {A B} (m : M St jstr A) (f : A → M St jstr B) :
  inert m → (∀ a, inert (f a)) → inert (m ≫= f).
Proof. intros Hm Hf. by apply adds_after. Qed.
Lemma inert_try {A} (m : M St jstr A) h : inert m → (∀ e, inert (h e)) → inert (try_catch m h).
Proof.
  intros Hm Hh s. unfold try_catch. destruct (Hm s) as (new & Hr & ->).
  destruct (m s) as [[a|e] s1]; simpl in *; [by exists []|].
  destruct (Hh e s1) as (more & Hr1 & ->). exists []. by rewrite Hr1, Hr, app_nil_r.
Qed.

Lemma adds_inert {A} (m : M St jstr A) (Q : list Execution → Prop) :
  inert m → Q [] → adds m (λ new _, Q new).
Proof. intros Hm HQ. eapply adds_weaken; [exact Hm|]. by intros ? ? ->. Qed.

Context c (m : AssistantMessage) (Hrec : recorded c).

Lemma inert_emit e : inert (emit e).
Proof.
  apply inert_eq. intros [w l]. unfold emit. pose proof (rec_listener _ Hrec e w).
  by destruct (listener e w).
Qed.
Lemma inert_emit_all l : inert (emit_all l).
Proof. induction l; simpl; [apply inert_ret|]. by apply inert_bind; [apply inert_emit|]. Qed.
Lemma inert_emit_together l : inert (emit_together l).
Proof.
  induction l as [|e l IH]; simpl; [apply inert_ret|]. intros s. exists [].
  rewrite app_nil_r. split; [|done]. destruct (inert_emit e s) as (n1 & H1 & ->).
  destruct (emit e s) as [r s1]. destruct (IH s1) as (n2 & H2 & ->).
  destruct (emit_together l s1) as [r2 s2]. simpl in *. by rewrite H2, H1, !app_nil_r.
Qed.

Ltac keep :=
  repeat first
    [ apply inert_bind; [|intros ?] | apply inert_try; [|intros ?] | apply inert_ret
    | apply inert_lift | apply inert_aborted | apply inert_now | apply inert_emit
    | apply inert_emit_all | case_match ].

Lemma inert_prepare call : inert (prepareToolCall c m call).
Proof. unfold prepareToolCall. keep. apply inert_ext. intros w. by apply (rec_before _ Hrec). Qed.
Lemma inert_finalize p o : inert (finalizeExecutedToolCall c m p o).
Proof. unfold finalizeExecutedToolCall. keep. apply inert_ext. intros w. by apply (rec_after _ Hrec). Qed.

(** A prepared call has been cleared, for the call it was made for. *)
Lemma prepare_adds call : adds (prepareToolCall c m call) (λ new r, new = [] ∧
  match r with Ok (inl p) => cleared c m p ∧ pt_toolCall p = call | _ => True end).
Proof.
  intros s. destruct (inert_prepare call s) as (new & Hr & ->). exists []. split; [done|]. split; [done|].
  destruct (prepareToolCall c m call s) as [[[p|]|] s'] eqn:H; simpl; [|done..].
  by eapply prepareToolCall_cleared.
Qed.

Lemma cleared_tool p : cleared c m p → pt_tool p ∈ ac_tools c.
Proof. intros [H _]. by by apply find_first_Some in H as [? _]. Qed.

(** A cleared call is executed once, with its checked arguments. *)
Lemma execute_adds p : cleared c m p → adds (executePreparedToolCall p) (λ new _, new = [exec_of p]).
Proof.
  intros Hp. unfold executePreparedToolCall.
  eapply (adds_bind _ _ (λ new r, new = [exec_of p] ∧ is_ok r = true)).
  { intros [w log]. pose proof (rec_tool _ Hrec (pt_tool p) (call_id (pt_toolCall p)) (pt_args p) w
      (cleared_tool p Hp)) as H.
    destruct (tool_execute _ _ _ _) as [[ups r] w1]. exists [exec_of p]. by split. }
  { by intros ? ? [-> _]. }
  intros ? [ups r] [-> _]. apply adds_after; [apply inert_emit_together|done|].
  intros _. by apply adds_ret.
Qed.

(** ** A batch *)

(** The executions of some of the calls, each cleared and executed once. *)
Definition executions_of (calls : list AgentToolCall) (new : list Execution) : Prop :=
  ∃ ps, new ≡ₚ map exec_of ps ∧ map pt_toolCall ps `sublist_of` calls ∧ Forall (cleared c m) ps.

Lemma executions_nil calls : executions_of calls [].
Proof. exists []. split_and!; [done|apply sublist_nil_l|constructor]. Qed.
Lemma executions_cons call calls e1 e2 :
  executions_of [call] e1 → executions_of calls e2 → executions_of (call :: calls) (e1 ++ e2).
Proof.
  intros (p1 & H1 & S1 & F1) (p2 & H2 & S2 & F2). exists (p1 ++ p2). rewrite !map_app.
  split; [by rewrite H1, H2|]. split; [by apply (sublist_app _ [call] _ calls)|by apply Forall_app].
Qed.
Lemma executions_one call calls e : executions_of [call] e → executions_of (call :: calls) e.
Proof. intros H. rewrite <- (app_nil_r e). apply executions_cons; [done|apply executions_nil]. Qed.

Lemma run_call_adds call : adds (run_call c m call) (λ new _, executions_of [call] new).
Proof.
  unfold run_call, emitToolExecutionEnd, createToolResultMessage, emitToolResultMessage, emit_start.
  apply adds_after; [keep|intros; apply executions_nil|]. intros _.
  eapply adds_bind; [apply prepare_adds|intros ? ? [-> _]; apply executions_nil|].
  intros ? prep [-> Hp]. simpl.
  eapply (adds_bind _ _ (λ new _, executions_of [call] new)); [|done|].
  - destruct prep as [p|o]; [|apply adds_ret, executions_nil]. destruct Hp as [Hp <-].
    assert (executions_of [pt_toolCall p] [exec_of p]) as H.
    { exists [p]. split_and!; [done..|]. by constructor. }
    eapply adds_bind; [by apply execute_adds|by intros ? ? ->|]. intros ? o ->.
    eapply adds_weaken; [apply inert_finalize|]. by intros ? ? ->.
  - intros new f Hn. apply (adds_inert _ (λ more, executions_of [call] (new ++ more)));
      [|by rewrite app_nil_r]. keep.
Qed.

Lemma sequential_adds calls : adds (sequential_loop c m calls) (λ new _, executions_of calls new).
Proof.
  induction calls as [|call calls IH]; simpl; [apply adds_ret, executions_nil|].
  eapply adds_bind; [apply run_call_adds|intros ? ? ?; by apply executions_one|]. intros e1 r H1.
  apply adds_after; [apply inert_aborted|intros; simpl; rewrite app_nil_r; by apply executions_one|].
  intros []; [apply adds_ret; rewrite app_nil_r; by apply executions_one|].
  eapply adds_bind; [apply IH|intros; by apply executions_cons|]. intros e2 l H2. apply adds_ret.
  rewrite app_nil_r. by apply executions_cons.
Qed.

(** The calls of a parallel batch that wait for their execution. *)
Definition waiting : list Proc → list (@PreparedToolCall W) :=
  omap (λ p, match p with ToExecute p => Some p | _ => None end).

Lemma start_adds calls : adds (start_loop c m calls) (λ new r, new = [] ∧
  match r with
  | Ok l => Forall (cleared c m) (waiting l) ∧ map pt_toolCall (waiting l) `sublist_of` calls
  | Err _ => True
  end).
Proof.
  induction calls as [|call calls IH]; simpl; [by apply adds_ret|].
  apply adds_after; [apply inert_emit|done|]. intros _.
  eapply adds_bind; [apply prepare_adds|by intros ? ? [-> _]|]. intros ? prep [-> Hp]. simpl.
  eapply (adds_bind _ _ (λ new r, new = [] ∧ match r with
    | Ok entry => Forall (cleared c m) (waiting [entry]) ∧ map pt_toolCall (waiting [entry]) `sublist_of` [call]
    | Err _ => True end)); [|by intros ? ? [-> _]|].
  { destruct prep as [p|o].
    - destruct Hp as [Hp <-]. apply adds_ret. split; [done|]. split; [by constructor|done].
    - eapply adds_after; [apply inert_emit|done|]. intros _. apply adds_ret.
      split; [done|]. split; [constructor|]. apply sublist_nil_l. }
  intros ? entry (-> & Hc & Hs). apply adds_after; [apply inert_aborted|done|]. intros [].
  - apply adds_ret. split; [done|]. split; [done|]. etrans; [exact Hs|]. apply sublist_skip, sublist_nil_l.
  - eapply adds_bind; [apply IH|by intros ? ? [-> _]|]. intros ? l (-> & Hl & Hsl). apply adds_ret.
    split; [done|]. change (entry :: l) with ([entry] ++ l). unfold waiting in *.
    rewrite omap_app, map_app. split; [by apply Forall_app|by apply (sublist_app _ [call])].
Qed.

(** A step executes the call if it waits, and takes it out of the waiting ones. *)
Lemma proc_step_adds (l : list Proc) i p :
  l !! i = Some p → Forall (cleared c m) (waiting l) →
  adds (proc_step c m p) (λ new r, ∃ l1 w l2, waiting l = l1 ++ w ++ l2 ∧ new = map exec_of w ∧
    match r with Ok p' => waiting (<[i:=p']> l) = l1 ++ l2 | Err _ => True end).
Proof.
  intros Hi Hc. destruct (list_elem_of_split_length l i p Hi) as (l1 & l2 & -> & ->).
  assert (∀ p', waiting (<[length l1:=p']> (l1 ++ p :: l2)) = waiting l1 ++ waiting [p'] ++ waiting l2) as Hw.
  { intros p'. rewrite insert_app_r_alt, Nat.sub_diag by done. simpl.
    change (p' :: l2) with ([p'] ++ l2). unfold waiting. by rewrite !omap_app. }
  assert (waiting (l1 ++ p :: l2) = waiting l1 ++ waiting [p] ++ waiting l2) as E.
  { change (p :: l2) with ([p] ++ l2). unfold waiting. by rewrite !omap_app. }
  rewrite E in Hc |- *. clear E.
  destruct p as [p|p o|f|f]; simpl.
  - assert (cleared c m p) as Hp by (simpl in Hc; decompose_Forall; done).
    eapply adds_bind; [by apply execute_adds|intros ? ? ->; by exists (waiting l1), [p], (waiting l2)|].
    intros ? o ->. apply adds_ret. exists (waiting l1), [p], (waiting l2). rewrite Hw. by split_and!.
  - eapply adds_bind; [apply inert_finalize|intros ? ? ->; by exists (waiting l1), [], (waiting l2)|].
    intros ? f ->. apply adds_ret. exists (waiting l1), [], (waiting l2). by rewrite Hw.
  - eapply adds_bind; [apply inert_emit|intros ? ? ->; by exists (waiting l1), [], (waiting l2)|].
    intros ? ? ->. apply adds_ret. exists (waiting l1), [], (waiting l2). by rewrite Hw.
  - apply adds_ret. exists (waiting l1), [], (waiting l2). by rewrite Hw.
Qed.

Lemma run_procs_adds fuel (l : list Proc) :
  Forall (cleared c m) (waiting l) →
  adds (run_procs fuel c m l) (λ new _, ∃ ps, new ≡ₚ map exec_of ps ∧ ps `sublist_of` waiting l).
Proof.
  revert l. induction fuel as [|fuel IH]; intros l Hl; cbn [run_procs]; destruct (unfinished l) as [|i0 more];
    try (apply adds_ret; exists []; split; [done|apply sublist_nil_l]).
  apply adds_after.
  { apply inert_eq. intros [w log]. unfold pick. pose proof (rec_choose _ Hrec w). by destruct (choose w). }
  { intros. exists []. split; [done|apply sublist_nil_l]. }
  intros n. destruct (l !! _) as [p|] eqn:Hp;
    [|apply adds_ret; exists []; split; [done|apply sublist_nil_l]].
  eapply adds_bind; [by apply (proc_step_adds l)|..].
  - intros new e (l1 & w & l2 & -> & -> & _). exists w. split; [done|].
    by apply sublist_inserts_l, sublist_inserts_r.
  - intros new p' (l1 & w & l2 & E & -> & Hw).
    assert (Forall (cleared c m) (waiting (<[nth (n mod S (length more)) (i0 :: more) i0:=p']> l))) as Hf.
    { rewrite Hw. rewrite E, !Forall_app in Hl. apply Forall_app. naive_solver. }
    eapply adds_weaken; [by apply IH|]. intros more' _ (ps & Hps & Hsub).
    rewrite Hw in Hsub. apply sublist_app_r in Hsub as (k1 & k2 & -> & S1 & S2).
    exists (k1 ++ w ++ k2). rewrite E, Hps. split; [rewrite !map_app; apply Permutation_app_swap_app|].
    by repeat apply sublist_app.
Qed.

Lemma parallel_adds calls : adds (executeToolCallsParallel c m calls) (λ new _, executions_of calls new).
Proof.
  unfold executeToolCallsParallel.
  eapply adds_bind; [apply start_adds|intros ? ? [-> _]; apply executions_nil|].
  intros ? procs (-> & Hc & Hs). simpl.
  eapply (adds_bind _ _ (λ new _, executions_of calls new)); [|done|].
  - eapply adds_weaken; [by apply run_procs_adds|]. intros new _ (ps & Hps & Hsub). exists ps.
    split; [done|]. split; [|apply Forall_forall; intros p Hp; rewrite Forall_forall in Hc;
      by eapply Hc, elem_of_sublist].
    etrans; [|exact Hs]. by apply fmap_sublist.
  - intros new fs Hn. apply (adds_inert _ (λ more, executions_of calls (new ++ more)));
      [|by rewrite app_nil_r].
    apply (inert_bind (result_messages _)); [|intros; apply inert_ret].
    induction (default [] fs) as [|f l IH]; simpl; [apply inert_ret|].
    unfold createToolResultMessage, emitToolResultMessage. keep. exact IH.
Qed.

(** C21: A batch executes only calls of the answer that passed their checks, each at
    most once and with the arguments that were checked: the tool is one of the
    context, the arguments are what the schema check returned, for the arguments
    the tool prepared or for those the hook replaced them by, and the hook let the
    call pass in a run that was not aborted then. This holds for calls in
    sequence and in parallel, for every choice of the call that resumes, and, up
    to the throw, for a batch that throws. The abort signal is not read again
    before the execution: a call of a parallel batch that was prepared is executed
    although the run is aborted while the others are prepared. *)
Theorem executed_calls_checked config s :
  ∃ ps, record (executeToolCalls c m config s).2.1 ≡ₚ record s.1 ++ map exec_of ps
    ∧ map pt_toolCall ps `sublist_of` tool_calls (am_content m)
    ∧ Forall (cleared c m) ps.
Proof.
  assert (adds (executeToolCalls c m config) (λ new _, executions_of (tool_calls (am_content m)) new)) as H.
  { unfold executeToolCalls. case_match; [|apply parallel_adds].
    eapply adds_bind; [apply sequential_adds|done|]. intros new l Hn. apply adds_ret.
    by rewrite app_nil_r. }
  destruct (H s) as (new & -> & ps & Hp & Hs & Hf). exists ps. by rewrite Hp.
Qed.
End exec.

(** ** A concrete batch

    The world is the record. The schema check refuses [null] and wraps what it
    accepts; the hook blocks [c3] and replaces the arguments of [c4]. *)

Module Recording.
Definition note : @AgentTool (list Execution) :=
  {| tool_name := js "note"; tool_executionMode := None; tool_prepareArguments := None;
     tool_execute id args w :=
       ([], Ok {| atr_content := []; atr_details := None; atr_terminate := None |},
        w ++ [{| ex_tool := js "note"; ex_call := id; ex_args := args |}]) |}.

Definition before (x : @BeforeToolCallContext (list Execution))
    : M (list Execution) jstr (option BeforeToolCallResult) :=
  let id := call_id (bc_toolCall x) in
  mret (if bool_decide (id = js "c3") then Some {| bt_block := true; bt_reason := None; bt_args := None |}
        else if bool_decide (id = js "c4")
             then Some {| bt_block := false; bt_reason := None; bt_args := Some (JBool false) |}
             else None).

Definition callbacks : @Callbacks (list Execution) :=
  {| cb_convertToLlm ms := mret (convertToLlm ms); cb_transformContext := None; cb_getApiKey := None;
     cb_beforeToolCall := Some before; cb_afterToolCall := None; cb_prepareNextTurn := None;
     cb_shouldStopAfterTurn := None; cb_getSteeringMessages := None; cb_getFollowUpMessages := None |}.

#[global] Instance env : @LoopEnv (list Execution) :=
  {| cb := callbacks; listener _ := mret tt; aborted _ := false; now _ := 7%Z;
     streamFn _ _ _ _ _ _ := throw (js "no client");
     validateToolArguments _ args :=
       match args with JNull => Err (js "null") | _ => Ok (JArr [args]) end;
     choose w := (1%nat, w) |}.

Definition call (id : jstr) (args : json) : Block := ToolCallBlock id (js "note") args.
Definition answer : AssistantMessage :=
  Demo.answer [call (js "c1") (JBool true); call (js "c2") JNull; call (js "c3") (JBool true);
               call (js "c4") (JBool true)] StopToolUse.
Definition context : @AgentContext (list Execution) :=
  {| ac_systemPrompt := []; ac_messages := []; ac_tools := [note] |}.

Lemma context_recorded : recorded id context.
Proof.
  split; [|done| |done|done].
  - intros t i args w Ht. apply list_elem_of_singleton in Ht as ->. reflexivity.
  - intros f x w [= <-]. unfold before. by repeat case_bool_decide.
Qed.
End Recording.

Lemma executed_calls_checked_witness :
  map ex_args (executeToolCalls Recording.context Recording.answer Demo.config ([], [])).2.1
    = [JArr [JBool false]; JArr [JBool true]] ∧
  ∃ ps, map exec_of ps ≡ₚ (executeToolCalls Recording.context Recording.answer Demo.config ([], [])).2.1
    ∧ Forall (cleared Recording.context Recording.answer) ps.
Proof.
  split; [reflexivity|].
  destruct (executed_calls_checked id Recording.context Recording.answer Recording.context_recorded
    Demo.config ([], [])) as (ps & H1 & _ & H2).
  exists ps. split; [symmetry; exact H1|exact H2].
Defined.
