(* ===== verification/AgentLoopStable.v ===== *)
(** * What a run preserves, and that it ends

    A relation between the states before and after that every callback, tool,
    listener and request respects is respected by the whole run. Two instances of
    it: a measure that nothing raises, with which a run ends, and the transcript
    of the agent of Agent.v, which follows the events. *)

From stdpp Require Import sorting.
From S2P Require Import Prelude JsMap JsString Json Messages AgentLoop AgentLoopFacts.
From Stdlib Require Import Lia.

Set Default Goal Selector "!".

Section facts.
Context {W : Type} `{!LoopEnv (W:=W)}.
Abbreviation St := (W * list AgentEvent)%type.
Abbreviation Proc := (@AgentLoop.Proc W).
Implicit Types (s : St) (c : @AgentContext W) (t : @AgentTool W).

(** ** What a run preserves *)

Section preserved.
Variable R : relation St.
Context `{!PreOrder R}.

Definition calm {A} (f : M W jstr A) : Prop := ∀ w log, R (w, log) ((f w).2, log).
Definition calm_tool t : Prop := ∀ i args w log, R (w, log) ((tool_execute t i args w).2, log).
Definition calm_context c : Prop := Forall calm_tool (ac_tools c).

(** Everything the run calls respects [R]. *)
Record calm_world : Prop := {
  cw_client : ∀ model p ms ts l k, calm (streamFn model p ms ts l k);
  cw_emit : ∀ e st, R st (emit e st).2;
  cw_choose : ∀ w log, R (w, log) ((choose w).2, log);
  cw_convert : ∀ ms, calm (cb_convertToLlm cb ms);
  cw_transform : ∀ f ms, cb_transformContext cb = Some f → calm (f ms);
  cw_key : ∀ f p, cb_getApiKey cb = Some f → calm (f p);
  cw_before : ∀ f x, cb_beforeToolCall cb = Some f → calm (f x);
  cw_after : ∀ f x, cb_afterToolCall cb = Some f → calm (f x);
  cw_prepare : ∀ f x, cb_prepareNextTurn cb = Some f → calm (f x) ∧
    ∀ w u w' c, f x w = (Ok (Some u), w') → tu_context u = Some c → calm_context c;
  cw_stop : ∀ f x, cb_shouldStopAfterTurn cb = Some f → calm (f x);
  cw_steering : ∀ f, cb_getSteeringMessages cb = Some f → calm f;
  cw_follow : ∀ f, cb_getFollowUpMessages cb = Some f → calm f;
}.
Hypothesis Hcalm : calm_world.

(** The computation respects [R], whether it returns or throws. *)
Definition keeps {A} (m : M St jstr A) : Prop := ∀ st, R st (m st).2.

Lemma keeps_ret {A} (a : A) : keeps (mret a).
Proof. by intros st. Qed.
Lemma keeps_lift {A} (r : result jstr A) : keeps (lift r).
Proof. by intros st. Qed.
Lemma keeps_throw {A} e : keeps (throw (A:=A) e).
Proof. by intros st. Qed.
Lemma keeps_aborted : keeps is_aborted.
Proof. by intros st. Qed.
Lemma keeps_now : keeps date_now.
Proof. by intros st. Qed.
Lemma keeps_bind {A B} (m : M St jstr A) (f : A → M St jstr B) :
  keeps m → (∀ a st st', m st = (Ok a, st') → keeps (f a)) → keeps (m ≫= f).
Proof.
  intros Hm Hf st. unfold mbind, M_bind. specialize (Hm st).
  destruct (m st) as [[a|e] st1] eqn:H1; simpl in *; [|done].
  etrans; [exact Hm|]. exact (Hf a _ _ H1 st1).
Qed.
Lemma keeps_try {A} (m : M St jstr A) h : keeps m → (∀ e, keeps (h e)) → keeps (try_catch m h).
Proof.
  intros Hm Hh st. unfold try_catch. specialize (Hm st).
  destruct (m st) as [[a|e] st1]; simpl in *; [done|]. etrans; [exact Hm|apply Hh].
Qed.
Lemma keeps_ext {A} (m : M W jstr A) : calm m → keeps (ext m).
Proof. intros Hm [w log]. specialize (Hm w log). unfold ext. by destruct (m w). Qed.
Lemma keeps_optional {A} (d : A) m : (∀ f, m = Some f → calm f) → keeps (optional d m).
Proof. intros Hm. destruct m; simpl; [by apply keeps_ext, Hm|apply keeps_ret]. Qed.
Lemma keeps_emit e : keeps (emit e).
Proof. intros st. apply (cw_emit Hcalm). Qed.

#[local] Hint Resolve keeps_ret keeps_lift keeps_throw keeps_aborted keeps_now keeps_emit keeps_ext : keeps.
#[local] Hint Extern 1 (keeps (_ ≫= _)) => apply keeps_bind; [|intros ????] : keeps.
#[local] Hint Extern 1 (keeps (try_catch _ _)) => apply keeps_try; [|intros ?] : keeps.
#[local] Hint Resolve cw_client cw_convert cw_transform cw_key cw_before cw_after cw_stop cw_steering cw_follow : keeps.

Lemma keeps_emit_all l : keeps (emit_all l).
Proof. induction l; simpl; auto with keeps. Qed.
Lemma keeps_emit_together l : keeps (emit_together l).
Proof.
  induction l as [|e l IH]; [apply keeps_ret|]. intros st. cbn [emit_together].
  pose proof (keeps_emit e st) as H1. destruct (emit e st) as [r st1]. specialize (IH st1).
  destruct (emit_together l st1). simpl in *. by etrans.
Qed.
#[local] Hint Resolve keeps_emit_all keeps_emit_together : keeps.

Ltac keep := repeat first
  [ apply keeps_bind; [|intros ????] | apply keeps_try; [|intros ?] | solve [auto with keeps]
  | apply keeps_ext; solve [eauto with keeps] | apply keeps_optional; solve [eauto with keeps] | case_match ].

Lemma keeps_prepare c m call : keeps (prepareToolCall c m call).
Proof. unfold prepareToolCall. keep. Qed.
Lemma keeps_execute p : calm_tool (pt_tool p) → keeps (executePreparedToolCall p).
Proof.
  intros Hp. unfold executePreparedToolCall. apply keeps_bind; [|intros ????; keep].
  intros [w log]. specialize (Hp (call_id (pt_toolCall p)) (pt_args p) w log).
  by destruct (tool_execute _ _ _ _) as [[? ?] ?].
Qed.
Lemma keeps_finalize c m p o : keeps (finalizeExecutedToolCall c m p o).
Proof. unfold finalizeExecutedToolCall. keep. Qed.

Lemma prepared_calm c m call st p st' :
  calm_context c → prepareToolCall c m call st = (Ok (inl p), st') → calm_tool (pt_tool p).
Proof.
  intros Hc (_ & Ht & _)%prepareToolCall_tool. apply find_first_Some in Ht as [Ht _].
  by apply (proj1 (Forall_forall _ _) Hc).
Qed.

Lemma keeps_sequential c m calls : calm_context c → keeps (sequential_loop c m calls).
Proof.
  intros Hc. induction calls as [|call calls IH]; cbn [sequential_loop]; [keep|].
  apply keeps_bind; [|intros ????; keep].
  unfold run_call, emit_start, emitToolExecutionEnd, createToolResultMessage, emitToolResultMessage.
  apply keeps_bind; [keep|intros _ _ _ _]. apply keeps_bind; [apply keeps_prepare|].
  intros [p|o] st st' Hp; [|keep].
  apply keeps_bind; [|intros ????; keep]. apply keeps_bind; [|intros ????; apply keeps_finalize].
  apply keeps_execute. by eapply prepared_calm.
Qed.

Definition calm_proc (p : Proc) : Prop :=
  match p with ToExecute p => calm_tool (pt_tool p) | _ => True end.

Lemma start_calm c m calls st l st' :
  calm_context c → start_loop c m calls st = (Ok l, st') → Forall calm_proc l.
Proof.
  intros Hc. revert st l st'. induction calls as [|call calls IH]; intros st l st'; cbn [start_loop].
  { by intros [= <- _]. }
  intros (_ & st1 & _ & H)%M_bind_Ok_inv. apply M_bind_Ok_inv in H as (prep & st2 & Hp & H).
  apply M_bind_Ok_inv in H as (entry & st3 & He & H). apply M_bind_Ok_inv in H as (stop & st4 & _ & H).
  assert (calm_proc entry).
  { destruct prep as [p|o]; [injection He as <- _; by eapply prepared_calm|].
    apply M_bind_Ok_inv in He as (? & ? & _ & [= <- _]). done. }
  destruct stop; [injection H as <- _; by constructor|].
  apply M_bind_Ok_inv in H as (rest & st5 & Hr & [= <- _]). constructor; [done|]. by eapply IH.
Qed.

Lemma keeps_start c m calls : keeps (start_loop c m calls).
Proof.
  induction calls as [|call calls IH]; cbn [start_loop]; [keep|].
  unfold emit_start, emitToolExecutionEnd. apply keeps_bind; [keep|intros _ _ _ _].
  apply keeps_bind; [apply keeps_prepare|intros ????]. keep.
Qed.

Lemma keeps_proc_step c m p : calm_proc p → keeps (proc_step c m p).
Proof.
  intros Hp. destruct p; cbn [proc_step]; unfold emitToolExecutionEnd; try apply keeps_ret;
    (apply keeps_bind; [|intros ????; apply keeps_ret]);
    [by apply keeps_execute|apply keeps_finalize|keep].
Qed.

Lemma proc_step_calm c m p st p' st' : proc_step c m p st = (Ok p', st') → calm_proc p'.
Proof.
  destruct p; simpl; [intros (? & ? & _ & [= <- _])%M_bind_Ok_inv..|intros [= <- _]]; done.
Qed.

Lemma keeps_run_procs fuel c m l : Forall calm_proc l → keeps (run_procs fuel c m l).
Proof.
  revert l. induction fuel as [|fuel IH]; intros l Hl; cbn [run_procs]; case_match; [keep..|].
  apply keeps_bind.
  { intros [w log]. pose proof (cw_choose Hcalm w log). unfold pick. by destruct (choose w). }
  intros k _ _ _. destruct (l !! _) as [p|] eqn:Hp; [|keep].
  apply keeps_bind; [apply keeps_proc_step; by apply (Forall_lookup_1 _ _ _ _ Hl Hp)|].
  intros p' st st' Hstep. apply IH. apply Forall_insert; [done|]. by eapply proc_step_calm.
Qed.

Lemma keeps_result_messages fs : keeps (result_messages fs).
Proof.
  induction fs as [|f fs IH]; cbn [result_messages]; [keep|].
  unfold createToolResultMessage, emitToolResultMessage. keep.
Qed.

Lemma keeps_batch c m config : calm_context c → keeps (executeToolCalls c m config).
Proof.
  intros Hc. unfold executeToolCalls. case_match.
  - apply keeps_bind; [by apply keeps_sequential|intros; keep].
  - apply keeps_bind; [apply keeps_start|intros l ?? Hl].
    apply keeps_bind; [apply keeps_run_procs; by eapply start_calm|intros o _ _ _].
    apply keeps_bind; [apply keeps_result_messages|intros; keep].
Qed.

Lemma keeps_Ok {A} (m : M St jstr A) st a st' : m st = (Ok a, st') → keeps m → R st st'.
Proof. intros H Hm. specialize (Hm st). by rewrite H in Hm. Qed.

Lemma keeps_finish c added final : keeps (finish_response c added final).
Proof. unfold finish_response. keep. Qed.
Lemma keeps_stream_loop events c added final : keeps (stream_loop events c added final).
Proof.
  revert c added. induction events as [|[] events IH]; intros c added; cbn [stream_loop];
    try apply keeps_finish; try case_match; try apply IH;
    (apply keeps_bind; [keep|intros ????; apply IH]).
Qed.

Lemma finish_tools c added final st r st' :
  finish_response c added final st = (Ok r, st') → ac_tools r.2 = ac_tools c.
Proof.
  unfold finish_response. intros (? & ? & _ & H)%M_bind_Ok_inv.
  apply M_bind_Ok_inv in H as (? & ? & _ & [= <- _]). by destruct added.
Qed.
Lemma stream_loop_tools events c added final st r st' :
  stream_loop events c added final st = (Ok r, st') → ac_tools r.2 = ac_tools c.
Proof.
  revert c added st. induction events as [|[] events IH]; intros c added st; cbn [stream_loop];
    try apply finish_tools; try case_match; try apply IH;
    (intros (? & ? & _ & Hrest)%M_bind_Ok_inv; by apply IH in Hrest).
Qed.

Lemma keeps_response c config : keeps (streamAssistantResponse c config).
Proof.
  unfold streamAssistantResponse. repeat (apply keeps_bind; [keep|intros ? _ _ _]).
  apply keeps_stream_loop.
Qed.

(** A response comes from one answer of the client, and leaves the tools. *)
Lemma response_split c config st r st' :
  streamAssistantResponse c config st = (Ok r, st') → ac_tools r.2 = ac_tools c ∧
  ∃ model p ms ts l k st1 a st2, R st st1 ∧
    streamFn model p ms ts l k st1.1 = (Ok a, st2.1) ∧ R st2 st'.
Proof.
  intros H. unfold streamAssistantResponse in H.
  apply M_bind_Ok_inv in H as (messages & st1 & H1 & H).
  apply M_bind_Ok_inv in H as (llm & st2 & H2 & H).
  apply M_bind_Ok_inv in H as (key & st3 & H3 & H).
  apply M_bind_Ok_inv in H as (response & st4 & H4 & H).
  apply keeps_Ok in H1; [|keep]. apply keeps_Ok in H2; [|keep]. apply keeps_Ok in H3; [|keep].
  apply ext_Ok_inv in H4 as [H4 _].
  pose proof (stream_loop_tools _ _ _ _ _ _ _ H) as Ht.
  apply keeps_Ok in H; [|apply keeps_stream_loop]. split; [done|].
  eexists _, _, _, _, _, _, st3, _, st4. split; [|by split]. etrans; [exact H1|by etrans].
Qed.

Lemma apply_update_calm c config u c' config' :
  calm_context c → (∀ x d, u = Some x → tu_context x = Some d → calm_context d) →
  apply_update c config u = (c', config') → calm_context c'.
Proof.
  intros Hc Hu. destruct u as [x|]; simpl; intros [= <- _]; [|done].
  destruct (tu_context x) as [d|] eqn:Hd; simpl; [by eapply Hu|done].
Qed.

(** The update that [prepareNextTurn] asks for. *)
Lemma prepare_next_calm (x : TurnContext) c config st u st' c' config' :
  calm_context c →
  optional None ((λ f, f x) <$> cb_prepareNextTurn cb) st = (Ok u, st') →
  apply_update c config u = (c', config') → calm_context c'.
Proof.
  intros Hc H Happ. destruct (cb_prepareNextTurn cb) as [f|] eqn:Hf; simpl in H.
  - edestruct (cw_prepare Hcalm f) as [_ Hu]; [done|]. apply ext_Ok_inv in H as [H _].
    apply apply_update_calm in Happ; [done|exact Hc|]. intros y e -> He. by eapply Hu.
  - injection H as <- <-. by apply apply_update_calm in Happ.
Qed.

Lemma keeps_prepare_next (x : TurnContext) :
  keeps (optional None ((λ f, f x) <$> cb_prepareNextTurn cb)).
Proof.
  destruct (cb_prepareNextTurn cb) as [f|] eqn:Hf; simpl; [|keep].
  apply keeps_ext. by apply (cw_prepare Hcalm).
Qed.
Lemma keeps_should_stop (x : TurnContext) :
  keeps (optional false ((λ f, f x) <$> cb_shouldStopAfterTurn cb)).
Proof. destruct (cb_shouldStopAfterTurn cb) as [f|] eqn:Hf; simpl; keep. Qed.

Lemma response_calm c config st r st' :
  calm_context c → streamAssistantResponse c config st = (Ok r, st') → calm_context r.2.
Proof. intros Hc (Ht & _)%response_split. unfold calm_context. by rewrite Ht. Qed.

Lemma keeps_turn (s : LoopState) : calm_context (ls_context s) → keeps (turn s).
Proof.
  intros Hc. unfold turn. apply keeps_bind; [keep|intros _ _ _ _].
  apply keeps_bind; [keep|intros _ _ _ _].
  apply keeps_bind; [apply keeps_response|intros [message c] ?? Hr].
  apply response_calm in Hr; [|done]. destruct (is_failed message); [keep|].
  apply keeps_bind; [case_match; [keep|by apply keeps_batch]|intros [results terminate] _ _ _].
  apply keeps_bind; [keep|intros _ _ _ _]. apply keeps_bind; [apply keeps_prepare_next|intros u _ _ _].
  destruct (apply_update _ _ _). apply keeps_bind; [apply keeps_should_stop|intros [] _ _ _]; keep.
Qed.

(** A turn that continues: what leads to the answer of the client, the answer,
    and what follows; its next context is as good as its own. *)
Lemma turn_split (s s' : LoopState) st st' :
  calm_context (ls_context s) → turn s st = (Ok (inl s'), st') →
  calm_context (ls_context s') ∧
  ∃ model p ms ts l k st1 a st2, R st st1 ∧
    streamFn model p ms ts l k st1.1 = (Ok a, st2.1) ∧ R st2 st'.
Proof.
  intros Hc H. unfold turn in H.
  apply M_bind_Ok_inv in H as (? & st1 & H1 & H). apply M_bind_Ok_inv in H as (? & st2 & H2 & H).
  apply M_bind_Ok_inv in H as ([message c] & st3 & H3 & H).
  apply keeps_Ok in H1; [|keep]. apply keeps_Ok in H2; [|keep].
  assert (calm_context c) as Hc1 by (by apply response_calm in H3).
  apply response_split in H3 as (_ & model & p & ms & ts & l & k & sa & a & sb & Hsa & Ha & Hsb).
  destruct (is_failed message).
  { apply M_bind_Ok_inv in H as (? & ? & _ & H). by apply M_bind_Ok_inv in H as (? & ? & _ & [=]). }
  apply M_bind_Ok_inv in H as ([results terminate] & st4 & H4 & H).
  apply keeps_Ok in H4; [|case_match; [keep|by apply keeps_batch]].
  apply M_bind_Ok_inv in H as (? & st5 & H5 & H). apply keeps_Ok in H5; [|keep].
  apply M_bind_Ok_inv in H as (u & st6 & H6 & H).
  destruct (apply_update _ _ _) as [c' config'] eqn:Happ.
  assert (calm_context c') as Hc2.
  { eapply prepare_next_calm; [|exact H6|exact Happ]. exact Hc1. }
  apply keeps_Ok in H6; [|apply keeps_prepare_next].
  apply M_bind_Ok_inv in H as (stop & st7 & H7 & H). apply keeps_Ok in H7; [|apply keeps_should_stop].
  destruct stop; [by apply M_bind_Ok_inv in H as (? & ? & _ & [=])|].
  apply M_bind_Ok_inv in H as (pending & st8 & H8 & [= <- <-]).
  apply keeps_Ok in H8; [|keep]. split; [done|].
  exists model, p, ms, ts, l, k, sa, a, sb. split; [etrans; [exact H1|by etrans]|]. split; [done|].
  etrans; [exact Hsb|]. do 4 (etrans; [eassumption|]). done.
Qed.

Lemma keeps_loop fuel (s : LoopState) : calm_context (ls_context s) → keeps (loop fuel s).
Proof.
  revert s. induction fuel as [|fuel IH]; intros s Hc; cbn [loop]; [keep|]. destruct (_ || _).
  - apply keeps_bind; [by apply keeps_turn|]. intros [s1|ms] st st' H; [|keep].
    apply IH. by apply turn_split in H as [H _].
  - apply keeps_bind; [keep|]. intros l _ _ _. case_bool_decide; [keep|]. by apply IH.
Qed.

Lemma keeps_runLoop fuel c before config : calm_context c → keeps (runLoop fuel c before config).
Proof. intros Hc. apply keeps_bind; [keep|]. intros ? _ _ _. by apply keeps_loop. Qed.

Lemma keeps_runAgentLoop fuel prompts c config :
  calm_context c → keeps (runAgentLoop fuel prompts c config).
Proof.
  intros Hc. do 3 (apply keeps_bind; [keep|intros _ _ _ _]). by apply keeps_runLoop.
Qed.

Lemma keeps_runAgentLoopContinue fuel c config :
  calm_context c → keeps (runAgentLoopContinue fuel c config).
Proof.
  intros Hc. unfold runAgentLoopContinue. repeat case_match; try apply keeps_throw;
    do 2 (apply keeps_bind; [keep|intros _ _ _ _]); by apply keeps_runLoop.
Qed.
End preserved.

(** ** Termination *)

(** A measure of the world, for instance the requests the model client still
    answers, that each answer lowers and nothing else raises. *)
Section ends.
Variable μ : W → nat.

Definition no_raise : relation St := λ st st', (μ st'.1 ≤ μ st.1)%nat.

#[local] Instance no_raise_preorder : PreOrder no_raise.
Proof. split; unfold no_raise; [intros ?|intros ???]; lia. Qed.

Hypothesis Hcalm : calm_world no_raise.
Hypothesis client_lowers : ∀ model p ms ts l k w a w',
  streamFn model p ms ts l k w = (Ok a, w') → (μ w' < μ w)%nat.

Lemma loop_ends fuel (s : LoopState) st st' :
  calm_context no_raise (ls_context s) →
  (2 * μ st.1 + (if ls_hasMoreToolCalls s || negb (bool_decide (ls_pending s = [])) then 2 else 3) ≤ fuel)%nat →
  loop fuel s st ≠ (Ok None, st').
Proof.
  revert s st. induction fuel as [|fuel IH]; intros s st Hc Hf H; [case_match; lia|].
  revert Hf H. cbn [loop]. destruct (_ || _) eqn:Hactive; intros Hf H.
  - apply M_bind_Ok_inv in H as ([s1|ms] & st1 & H1 & H); [|by injection H].
    apply (turn_split _ Hcalm) in H1 as (Hc1 & model & p & ms & ts & l & k & sa & a & sb & Ha & Hl & Hb);
      [|done]. apply client_lowers in Hl. unfold no_raise in *.
    revert H. apply IH; [done|]. case_match; lia.
  - apply M_bind_Ok_inv in H as (l & st1 & H1 & H).
    apply (keeps_Ok no_raise) in H1; [|by apply keeps_optional; [apply _|apply cw_follow]].
    unfold no_raise in H1.
    case_bool_decide as Hl; [by apply M_bind_Ok_inv in H as (? & ? & ? & ?)|].
    revert H. apply IH; [done|]. simpl. lia.
Qed.

(** C32: A run ends: when each answer of the model client lowers a measure of the
    world (the number of requests it still answers, say) and no callback, listener
    or tool raises it, the run returns or throws within two iterations per unit of
    the measure and two more. *)
Theorem runAgentLoop_ends fuel prompts c config st r st'
  (Hc : calm_context no_raise c) (Hfuel : (2 * μ st.1 + 2 ≤ fuel)%nat)
  (H : runAgentLoop fuel prompts c config st = (r, st')) : r ≠ Ok None.
Proof.
  intros ->. unfold runAgentLoop in H. apply M_bind_Ok_inv in H as (? & st1 & H1 & H).
  apply M_bind_Ok_inv in H as (? & st2 & H2 & H). apply M_bind_Ok_inv in H as (? & st3 & H3 & H).
  apply M_bind_Ok_inv in H as (pending & st4 & H4 & H).
  apply (keeps_Ok no_raise) in H1; [|by apply keeps_emit].
  apply (keeps_Ok no_raise) in H2; [|by apply keeps_emit].
  apply (keeps_Ok no_raise) in H3; [|by apply keeps_emit_all; [apply _|]].
  apply (keeps_Ok no_raise) in H4; [|by apply keeps_optional; [apply _|apply cw_steering]].
  unfold no_raise in *. revert H. apply loop_ends; [done|simpl; lia].
Qed.
End ends.
End facts.

Module DemoEnds.
Import Demo.
Definition size (w : World) : nat := length w.

Lemma client_lowers model p ms ts l k (w : World) a w' :
  streamFn model p ms ts l k w = (Ok a, w') → (size w' < size w)%nat.
Proof. destruct w as [|m w]; intros H; simplify_eq/=. lia. Qed.

Lemma world_calm : calm_world (no_raise size).
Proof.
  split; try done; unfold no_raise, calm, size; simpl; try by (intros; simplify_eq/=).
  - intros model p ms ts l k [|m w] log; simpl; lia.
  - by intros e [w log].
Qed.

Lemma context_calm : calm_context (no_raise size) context.
Proof. by repeat constructor. Qed.
End DemoEnds.

Lemma runAgentLoop_ends_witness :
  calm_world (no_raise DemoEnds.size) ∧ calm_context (no_raise DemoEnds.size) Demo.context ∧
  (runAgentLoop 6 [Demo.hi] Demo.context Demo.config Demo.start).1 ≠ Ok None.
Proof.
  split; [exact DemoEnds.world_calm|]. split; [exact DemoEnds.context_calm|].
  destruct (runAgentLoop 6 [Demo.hi] Demo.context Demo.config Demo.start) as [r st'] eqn:H.
  refine (runAgentLoop_ends DemoEnds.size DemoEnds.world_calm DemoEnds.client_lowers 6 [Demo.hi]
    Demo.context Demo.config Demo.start r st' DemoEnds.context_calm _ H). vm_compute. lia.
Defined.
