(* ===== verification/Agent.v ===== *)
(** * The agent

    packages/harness/src/agent.ts: the stateful wrapper around the loop. The world
    of the loop is here the agent itself and a world [W] of the embedder; the
    callbacks, tools and listeners may change both. The tools of the state are an
    argument of the operations that start a run, since a run works on a copy taken
    when it starts; the set of listeners is fixed during a run. *)

From S2P Require Import Prelude JsMap JsString Json Messages AgentLoop.
From Stdlib Require Import Lia.

Set Default Goal Selector "!".

(** ** The queues *)

Inductive QueueMode := All | OneAtATime.
#[export] Instance QueueMode_eq_dec : EqDecision QueueMode.
Proof. solve_decision. Defined.

Record PendingMessageQueue := { q_messages : list AgentMessage; q_mode : QueueMode }.

Definition enqueue (m : AgentMessage) (q : PendingMessageQueue) : PendingMessageQueue :=
  {| q_messages := q_messages q ++ [m]; q_mode := q_mode q |}.
Definition hasItems (q : PendingMessageQueue) : bool := negb (bool_decide (q_messages q = [])).
Definition drain (q : PendingMessageQueue) : list AgentMessage * PendingMessageQueue :=
  match q_mode q with
  | All => (q_messages q, {| q_messages := []; q_mode := q_mode q |})
  | OneAtATime =>
      match q_messages q with
      | [] => ([], q)
      | first :: rest => ([first], {| q_messages := rest; q_mode := q_mode q |})
      end
  end.
Definition clear (q : PendingMessageQueue) : PendingMessageQueue :=
  {| q_messages := []; q_mode := q_mode q |}.

(** ** The state *)

(** [ag_activeRun] is whether the run of an active agent is aborted, [ag_skip]
    the flag [skipInitialSteeringPoll] the active run has captured. *)
Record Agent := {
  ag_systemPrompt : jstr; ag_model : LoopModel; ag_thinkingLevel : jstr;
  ag_messages : list AgentMessage; ag_isStreaming : bool; ag_streamingMessage : option AgentMessage;
  ag_pendingToolCalls : gset jstr; ag_errorMessage : option jstr;
  ag_steeringQueue : PendingMessageQueue; ag_followUpQueue : PendingMessageQueue;
  ag_activeRun : option bool; ag_skip : bool;
}.

Definition set_transcript (ms : list AgentMessage) (a : Agent) : Agent :=
  {| ag_systemPrompt := ag_systemPrompt a; ag_model := ag_model a;
     ag_thinkingLevel := ag_thinkingLevel a; ag_messages := ms;
     ag_isStreaming := ag_isStreaming a; ag_streamingMessage := ag_streamingMessage a;
     ag_pendingToolCalls := ag_pendingToolCalls a; ag_errorMessage := ag_errorMessage a;
     ag_steeringQueue := ag_steeringQueue a; ag_followUpQueue := ag_followUpQueue a;
     ag_activeRun := ag_activeRun a; ag_skip := ag_skip a |}.
Definition set_streaming (b : bool) (m : option AgentMessage) (a : Agent) : Agent :=
  {| ag_systemPrompt := ag_systemPrompt a; ag_model := ag_model a;
     ag_thinkingLevel := ag_thinkingLevel a; ag_messages := ag_messages a;
     ag_isStreaming := b; ag_streamingMessage := m;
     ag_pendingToolCalls := ag_pendingToolCalls a; ag_errorMessage := ag_errorMessage a;
     ag_steeringQueue := ag_steeringQueue a; ag_followUpQueue := ag_followUpQueue a;
     ag_activeRun := ag_activeRun a; ag_skip := ag_skip a |}.
Definition set_pending (p : gset jstr) (a : Agent) : Agent :=
  {| ag_systemPrompt := ag_systemPrompt a; ag_model := ag_model a;
     ag_thinkingLevel := ag_thinkingLevel a; ag_messages := ag_messages a;
     ag_isStreaming := ag_isStreaming a; ag_streamingMessage := ag_streamingMessage a;
     ag_pendingToolCalls := p; ag_errorMessage := ag_errorMessage a;
     ag_steeringQueue := ag_steeringQueue a; ag_followUpQueue := ag_followUpQueue a;
     ag_activeRun := ag_activeRun a; ag_skip := ag_skip a |}.
Definition set_error (e : option jstr) (a : Agent) : Agent :=
  {| ag_systemPrompt := ag_systemPrompt a; ag_model := ag_model a;
     ag_thinkingLevel := ag_thinkingLevel a; ag_messages := ag_messages a;
     ag_isStreaming := ag_isStreaming a; ag_streamingMessage := ag_streamingMessage a;
     ag_pendingToolCalls := ag_pendingToolCalls a; ag_errorMessage := e;
     ag_steeringQueue := ag_steeringQueue a; ag_followUpQueue := ag_followUpQueue a;
     ag_activeRun := ag_activeRun a; ag_skip := ag_skip a |}.
Definition set_queues (s f : PendingMessageQueue) (a : Agent) : Agent :=
  {| ag_systemPrompt := ag_systemPrompt a; ag_model := ag_model a;
     ag_thinkingLevel := ag_thinkingLevel a; ag_messages := ag_messages a;
     ag_isStreaming := ag_isStreaming a; ag_streamingMessage := ag_streamingMessage a;
     ag_pendingToolCalls := ag_pendingToolCalls a; ag_errorMessage := ag_errorMessage a;
     ag_steeringQueue := s; ag_followUpQueue := f;
     ag_activeRun := ag_activeRun a; ag_skip := ag_skip a |}.
Definition set_run (r : option bool) (skip : bool) (a : Agent) : Agent :=
  {| ag_systemPrompt := ag_systemPrompt a; ag_model := ag_model a;
     ag_thinkingLevel := ag_thinkingLevel a; ag_messages := ag_messages a;
     ag_isStreaming := ag_isStreaming a; ag_streamingMessage := ag_streamingMessage a;
     ag_pendingToolCalls := ag_pendingToolCalls a; ag_errorMessage := ag_errorMessage a;
     ag_steeringQueue := ag_steeringQueue a; ag_followUpQueue := ag_followUpQueue a;
     ag_activeRun := r; ag_skip := skip |}.

(** ** Operations that do not run the loop *)

Definition steer (m : AgentMessage) (a : Agent) : Agent :=
  set_queues (enqueue m (ag_steeringQueue a)) (ag_followUpQueue a) a.
Definition followUp (m : AgentMessage) (a : Agent) : Agent :=
  set_queues (ag_steeringQueue a) (enqueue m (ag_followUpQueue a)) a.
Definition clearSteeringQueue (a : Agent) : Agent :=
  set_queues (clear (ag_steeringQueue a)) (ag_followUpQueue a) a.
Definition clearFollowUpQueue (a : Agent) : Agent :=
  set_queues (ag_steeringQueue a) (clear (ag_followUpQueue a)) a.
Definition clearAllQueues (a : Agent) : Agent := clearFollowUpQueue (clearSteeringQueue a).
Definition hasQueuedMessages (a : Agent) : bool :=
  hasItems (ag_steeringQueue a) || hasItems (ag_followUpQueue a).
Definition abort (a : Agent) : Agent :=
  match ag_activeRun a with Some _ => set_run (Some true) (ag_skip a) a | None => a end.
Definition reset (a : Agent) : Agent :=
  clearSteeringQueue (clearFollowUpQueue (set_error None (set_pending ∅
    (set_streaming false None (set_transcript [] a))))).

Definition drainSteering (a : Agent) : list AgentMessage * Agent :=
  let '(ms, q) := drain (ag_steeringQueue a) in (ms, set_queues q (ag_followUpQueue a) a).
Definition drainFollowUp (a : Agent) : list AgentMessage * Agent :=
  let '(ms, q) := drain (ag_followUpQueue a) in (ms, set_queues (ag_steeringQueue a) q a).

(** The reduction of an event of the loop. *)
Definition reduceEvent (e : AgentEvent) (a : Agent) : Agent :=
  match e with
  | MessageStart m | MessageUpdate m => set_streaming (ag_isStreaming a) (Some m) a
  | MessageEnd m =>
      set_transcript (ag_messages a ++ [m]) (set_streaming (ag_isStreaming a) None a)
  | ToolExecutionStart i _ _ => set_pending (ag_pendingToolCalls a ∪ {[i]}) a
  | ToolExecutionEnd i _ _ _ => set_pending (ag_pendingToolCalls a ∖ {[i]}) a
  | TurnEnd (Assistant m) _ =>
      if truthy_opt (am_errorMessage m) then set_error (am_errorMessage m) a else a
  | AgentEnd _ => set_streaming (ag_isStreaming a) None a
  | _ => a
  end.

Definition finishRun (a : Agent) : Agent :=
  set_run None (ag_skip a) (set_pending ∅ (set_streaming false None a)).

(** The fields a run starts with. *)
Definition startRun (skip : bool) (a : Agent) : Agent :=
  set_run (Some false) skip (set_error None (set_streaming true None a)).

(** What a prompt is given: texts with images, a message, or messages. *)
Inductive PromptInput :=
| PromptText (text : jstr) (images : list Block)
| PromptMessage (m : AgentMessage)
| PromptMessages (ms : list AgentMessage).

Definition normalizePromptInput (input : PromptInput) (now : Z) : list AgentMessage :=
  match input with
  | PromptMessages ms => ms
  | PromptMessage m => [m]
  | PromptText text images => [UserMessage (CBlocks (TextBlock text :: images)) now]
  end.

(** The roles the default conversion keeps. *)
Definition defaultConvertToLlm (ms : list AgentMessage) : list LlmMessage :=
  flat_map (λ m, match m with
    | UserMessage c t => [LlmUser c t]
    | Assistant a => [LlmAssistant a]
    | ToolResult r => [LlmToolResult r]
    | _ => [] end) ms.

(** ** Runs *)

Section agent.
Context {W : Type}.
Abbreviation World := (Agent * W)%type.

(** The options of the agent and what it runs against. *)
Class AgentEnv := {
  ae_convertToLlm : list AgentMessage → M World jstr (list LlmMessage);
  ae_transformContext : option (list AgentMessage → M World jstr (list AgentMessage));
  ae_getApiKey : option (jstr → M World jstr (option jstr));
  ae_beforeToolCall : option (@BeforeToolCallContext World → M World jstr (option BeforeToolCallResult));
  ae_afterToolCall : option (@AfterToolCallContext World → M World jstr (option AfterToolCallResult));
  ae_prepareNextTurn : option (M World jstr (option (@AgentLoopTurnUpdate World)));
  ae_prepareNextTurnWithContext : option (@TurnContext World → M World jstr (option (@AgentLoopTurnUpdate World)));
  ae_toolExecution : option ToolExecutionMode;
  ae_listeners : list (AgentEvent → M World jstr unit);
  ae_now : W → Z;
  ae_streamFn : LoopModel → jstr → list LlmMessage → list (@AgentTool World) → option jstr →
    option jstr → M World jstr StreamResponse;
  ae_validate : @AgentTool World → json → result jstr json;
  ae_choose : W → nat * W;
}.
Context `{!AgentEnv}.

Definition on_agent {A} (f : Agent → A * Agent) : M World jstr A :=
  λ '(a, w), let '(x, a) := f a in (Ok x, (a, w)).

Fixpoint notify (l : list (AgentEvent → M World jstr unit)) (e : AgentEvent) : M World jstr unit :=
  match l with [] => mret tt | f :: l => do! f e in notify l e end.

Definition processEvents (e : AgentEvent) : M World jstr unit :=
  do! on_agent (λ a, (tt, reduceEvent e a)) in
  let! active := on_agent (λ a, (ag_activeRun a, a)) in
  match active with
  | None => throw (js "Agent listener invoked outside active run")
  | Some _ => notify ae_listeners e
  end.

(** The poll of the steering queue, which a run may skip once. *)
Definition getSteeringMessages (a : Agent) : list AgentMessage * Agent :=
  if ag_skip a then ([], set_run (ag_activeRun a) false a) else drainSteering a.

(** The callbacks of [createLoopConfig]. *)
Definition loop_callbacks : @Callbacks World :=
  {| cb_convertToLlm := ae_convertToLlm; cb_transformContext := ae_transformContext;
     cb_getApiKey := ae_getApiKey; cb_beforeToolCall := ae_beforeToolCall;
     cb_afterToolCall := ae_afterToolCall;
     cb_prepareNextTurn := match ae_prepareNextTurnWithContext, ae_prepareNextTurn with
                           | Some f, _ => Some f
                           | None, Some f => Some (λ _, f)
                           | None, None => None
                           end;
     cb_shouldStopAfterTurn := None;
     cb_getSteeringMessages := Some (on_agent getSteeringMessages);
     cb_getFollowUpMessages := Some (on_agent drainFollowUp) |}.

#[export] Instance agent_loop_env : @LoopEnv World :=
  {| cb := loop_callbacks; listener := processEvents;
     aborted aw := bool_decide (ag_activeRun aw.1 = Some true);
     now aw := ae_now aw.2; streamFn := ae_streamFn; validateToolArguments := ae_validate;
     choose aw := let '(n, w) := ae_choose aw.2 in (n, (aw.1, w)) |}.

Definition loop_config (a : Agent) : LoopConfig :=
  {| lc_model := ag_model a;
     lc_reasoning := if bool_decide (ag_thinkingLevel a = js "off") then None else Some (ag_thinkingLevel a);
     lc_apiKey := None;
     lc_toolExecution := Some (nullish ae_toolExecution Parallel) |}.

Definition createContextSnapshot (a : Agent) (tools : list (@AgentTool World)) : @AgentContext World :=
  {| ac_systemPrompt := ag_systemPrompt a; ac_messages := ag_messages a; ac_tools := tools |}.

(** The monad of the loop: the events emitted so far go with the world. *)
Abbreviation St := (World * list AgentEvent)%type.

Definition failureMessage (a : Agent) (error : jstr) (aborted : bool) (t : Z) : AssistantMessage :=
  {| am_content := [TextBlock []]; am_provider := lm_provider (ag_model a); am_model := lm_id (ag_model a);
     am_usage := Some {| u_input := 0; u_output := 0; u_cacheRead := 0; u_cacheWrite := 0; u_totalTokens := 0 |};
     am_stopReason := if aborted then StopAborted else StopError; am_errorMessage := Some error;
     am_timestamp := t |}.

Definition handleRunFailure (error : jstr) : M St jstr unit :=
  let! st := get in
  let failure := Assistant (failureMessage st.1.1 error (bool_decide (ag_activeRun st.1.1 = Some true))
                              (ae_now st.1.2)) in
  do! emit (MessageStart failure) in
  do! emit (MessageEnd failure) in
  do! emit (TurnEnd failure []) in
  emit (AgentEnd [failure]).

Definition update_agent (f : Agent → Agent) : M St jstr unit := ext (on_agent (λ a, (tt, f a))).
Definition read_agent : M St jstr Agent := ext (on_agent (λ a, (a, a))).

(** [try_finally m f]: [f] runs however [m] ends. *)
Definition try_finally {A} (m : M St jstr A) (f : Agent → Agent) : M St jstr A :=
  λ st, let '(r, (a, w, log)) := m st in (r, (f a, w, log)).

(** The result is [None] when the fuel of the loop runs out. *)
Definition runWithLifecycle (skip : bool) (executor : M St jstr (option (list AgentMessage)))
    : M St jstr (option unit) :=
  let! a := read_agent in
  match ag_activeRun a with
  | Some _ => throw (js "Agent is already processing.")
  | None =>
      do! update_agent (startRun skip) in
      try_finally
        (try_catch (let! r := executor in mret ((λ _, tt) <$> r))
           (λ e, do! handleRunFailure e in mret (Some tt)))
        finishRun
  end.

Definition runPromptMessages (fuel : nat) (tools : list (@AgentTool World)) (ms : list AgentMessage)
    (skip : bool) : M St jstr (option unit) :=
  runWithLifecycle skip
    (let! a := read_agent in
     runAgentLoop fuel ms (createContextSnapshot a tools) (loop_config a)).

Definition runContinuation (fuel : nat) (tools : list (@AgentTool World)) : M St jstr (option unit) :=
  runWithLifecycle false
    (let! a := read_agent in
     runAgentLoopContinue fuel (createContextSnapshot a tools) (loop_config a)).

Definition prompt (fuel : nat) (tools : list (@AgentTool World)) (input : PromptInput)
    : M St jstr (option unit) :=
  let! a := read_agent in
  match ag_activeRun a with
  | Some _ => throw (js "Agent is already processing a prompt. Use steer() or followUp() to queue messages, or wait for completion.")
  | None =>
      let! st := get in
      runPromptMessages fuel tools (normalizePromptInput input (ae_now st.1.2)) false
  end.

Definition continue (fuel : nat) (tools : list (@AgentTool World)) : M St jstr (option unit) :=
  let! a := read_agent in
  match ag_activeRun a with
  | Some _ => throw (js "Agent is already processing. Wait for completion before continuing.")
  | None =>
      match last (ag_messages a) with
      | None => throw (js "No messages to continue from")
      | Some (Assistant _) =>
          let! queuedSteering := ext (on_agent drainSteering) in
          if negb (bool_decide (queuedSteering = [])) then runPromptMessages fuel tools queuedSteering true
          else
            let! queuedFollowUps := ext (on_agent drainFollowUp) in
            if negb (bool_decide (queuedFollowUps = [])) then runPromptMessages fuel tools queuedFollowUps false
            else throw (js "Cannot continue from message role: assistant")
      | Some _ => runContinuation fuel tools
      end
  end.
End agent.
