(* ===== verification/AgentFacts.v ===== *)
(** * Facts about the agent

    The transcript follows the events of a run, a run always leaves the agent
    idle, and what fails becomes a message of the transcript. *)

From stdpp Require Import sorting.
From S2P Require Import Prelude JsMap JsString Json Messages AgentLoop AgentLoopFacts AgentLoopStable Agent.
From Stdlib Require Import Lia.

Set Default Goal Selector "!".

(** ** The queues *)

(** Draining takes the oldest messages: one, or all of them. *)
Lemma drain_spec q :
  (drain q).1 ++ q_messages (drain q).2 = q_messages q ∧ q_mode (drain q).2 = q_mode q ∧
  ((drain q).1 = [] ↔ q_messages q = []).
Proof. unfold drain. destruct q as [[|m ms] []]; simpl; rewrite ?app_nil_r; naive_solver. Qed.

Section facts.
Context {W : Type} `{!AgentEnv (W:=W)}.
Abbreviation World := (Agent * W)%type.
Abbreviation St := (World * list AgentEvent)%type.
Implicit Types (st : St) (a : Agent).

Definition active a : bool := bool_decide (is_Some (ag_activeRun a)).

(** What the embedder's code may do to the agent: anything but change the
    transcript or start or end a run. *)
Definition respects {A} (f : M World jstr A) : Prop := ∀ aw,
  ag_messages (f aw).2.1 = ag_messages aw.1 ∧ active (f aw).2.1 = active aw.1.

(** The transcript grew by the messages that ended meanwhile. *)
Definition follows : relation St := λ st st',
  ∃ evs, st'.2 = st.2 ++ evs ∧ ag_messages st'.1.1 = ag_messages st.1.1 ++ ended evs ∧
    active st'.1.1 = active st.1.1.

#[local] Instance follows_preorder : PreOrder follows.
Proof.
  split.
  - intros st. exists []. by rewrite !app_nil_r.
  - intros st1 st2 st3 (e1 & H1 & H2 & H3) (e2 & H4 & H5 & H6). exists (e1 ++ e2).
    rewrite ended_app, H4, H5, H1, H2, !(assoc_L (++)), H6. done.
Qed.

Record respectful_env : Prop := {
  re_client : ∀ model p ms ts l k, respects (ae_streamFn model p ms ts l k);
  re_listeners : ∀ f e, f ∈ ae_listeners → respects (f e);
  re_convert : ∀ ms, respects (ae_convertToLlm ms);
  re_transform : ∀ f ms, ae_transformContext = Some f → respects (f ms);
  re_key : ∀ f p, ae_getApiKey = Some f → respects (f p);
  re_before : ∀ f x, ae_beforeToolCall = Some f → respects (f x);
  re_after : ∀ f x, ae_afterToolCall = Some f → respects (f x);
  re_next : ∀ f, ae_prepareNextTurn = Some f → respects f;
  re_next_with : ∀ f x, ae_prepareNextTurnWithContext = Some f → respects (f x);
  re_context : ∀ x, (∃ f w w', ae_prepareNextTurn = Some f ∧ f w = (Ok (Some x), w')) ∨
      (∃ f y w w', ae_prepareNextTurnWithContext = Some f ∧ f y w = (Ok (Some x), w')) →
    ∀ c, tu_context x = Some c → calm_context follows c;
}.
Definition respectful_tools (tools : list (@AgentTool World)) : Prop := Forall (calm_tool follows) tools.

Section env.
Hypothesis Henv : respectful_env.

Lemma respects_calm {A} (f : M World jstr A) : respects f → calm follows f.
Proof.
  intros Hf w log. destruct (Hf w) as [H1 H2]. exists []. simpl. by rewrite !app_nil_r.
Qed.

Lemma notify_respects l e : (∀ f, f ∈ l → respects (f e)) → respects (notify l e).
Proof.
  induction l as [|f l IH]; intros Hl aw; [done|]. simpl. unfold mbind, M_bind.
  destruct (Hl f ltac:(set_solver) aw) as [H1 H2].
  destruct (f e aw) as [[[]|x] aw1]; simpl in *; [|done].
  destruct (IH ltac:(set_solver) aw1) as [H3 H4]. by rewrite H3, H4.
Qed.

Lemma reduceEvent_messages e a :
  ag_messages (reduceEvent e a) = ag_messages a ++ ended [e] ∧ active (reduceEvent e a) = active a.
Proof.
  destruct e as [| | |[] ?| | | | | |]; simpl; rewrite ?app_nil_r; try done.
  by destruct (truthy_opt _).
Qed.

#[local] Arguments reduceEvent : simpl never.

Lemma emit_follows e st : follows st (emit e st).2.
Proof.
  destruct st as [[a w] log]. unfold emit. simpl. unfold processEvents, mbind, M_bind. simpl.
  destruct (reduceEvent_messages e a) as [H1 H2].
  destruct (ag_activeRun (reduceEvent e a)) as [b|] eqn:Hrun.
  - destruct (notify_respects ae_listeners e (λ f Hf, re_listeners Henv f e Hf) (reduceEvent e a, w)) as [H3 H4].
    destruct (notify _ _ _) as [r [a' w']]. simpl in *. exists [e]. simpl. by rewrite H3, H4, H1, H2.
  - simpl. exists [e]. simpl. by rewrite H1, H2.
Qed.

(** The environment of the loop respects the relation. *)
Lemma env_calm : calm_world (W:=World) follows.
Proof.
  split; simpl.
  - intros. by apply respects_calm, re_client.
  - apply emit_follows.
  - intros [a w] log. exists []. simpl. destruct (ae_choose w). by rewrite !app_nil_r.
  - intros. by apply respects_calm, re_convert.
  - intros. by eapply respects_calm, re_transform.
  - intros. by eapply respects_calm, re_key.
  - intros. by eapply respects_calm, re_before.
  - intros. by eapply respects_calm, re_after.
  - intros f x Hf. destruct ae_prepareNextTurnWithContext as [g|] eqn:Hg.
    + injection Hf as <-. split; [by eapply respects_calm, re_next_with|].
      intros w u w' c H Hc. eapply (re_context Henv); [right; eauto 10|done].
    + destruct ae_prepareNextTurn as [g|] eqn:Hg'; [|done]. injection Hf as <-.
      split; [by eapply respects_calm, re_next|].
      intros w u w' c H Hc. eapply (re_context Henv); [left; eauto 10|done].
  - done.
  - intros f [= <-] [a w] log. exists []. simpl. unfold getSteeringMessages, drainSteering.
    rewrite !app_nil_r. destruct (ag_skip a); [done|]. by destruct (drain _).
  - intros f [= <-] [a w] log. exists []. simpl. unfold drainFollowUp.
    rewrite !app_nil_r. by destruct (drain _).
Qed.

(** ** A run *)

Lemma keeps_failure e : keeps follows (handleRunFailure e).
Proof.
  unfold handleRunFailure. apply keeps_bind; [apply _|by intros st|intros st _ _ _].
  do 3 (apply keeps_bind; [apply _|apply (keeps_emit _ env_calm)|intros _ _ _ _]).
  apply (keeps_emit _ env_calm).
Qed.

(** What a run that was allowed to start leaves behind. *)
Definition settled st st' : Prop :=
  ∃ evs, st'.2 = st.2 ++ evs ∧ ag_messages st'.1.1 = ag_messages st.1.1 ++ ended evs ∧
    ag_activeRun st'.1.1 = None ∧ ag_isStreaming st'.1.1 = false ∧
    ag_streamingMessage st'.1.1 = None ∧ ag_pendingToolCalls st'.1.1 = ∅.

Lemma lifecycle_settled skip executor st r st' :
  keeps follows executor → ag_activeRun st.1.1 = None →
  runWithLifecycle skip executor st = (r, st') → settled st st'.
Proof.
  intros Hk Hidle H. destruct st as [[a w] log]. unfold runWithLifecycle in H.
  unfold read_agent, update_agent, ext, on_agent, mbind, M_bind in H. simpl in *. rewrite Hidle in H.
  unfold try_finally in H.
  set (m := try_catch _ _) in H.
  assert (keeps follows m) as Hm.
  { apply keeps_try; [apply _| |].
    - apply keeps_bind; [apply _|done|]. intros ? ? ? _. by apply keeps_ret, _.
    - intros e. apply keeps_bind; [apply _|apply keeps_failure|]. intros ? ? ? _. by apply keeps_ret, _. }
  destruct (Hm (startRun skip a, w, log)) as (evs & H1 & H2 & _).
  destruct (m (startRun skip a, w, log)) as [r1 [[a1 w1] log1]]. simpl in *.
  injection H as <- <-. exists evs. done.
Qed.

Lemma keeps_read_agent : keeps follows read_agent.
Proof. by intros [[a w] log]. Qed.

Lemma runPromptMessages_settled fuel tools ms skip st r st' :
  respectful_tools tools → ag_activeRun st.1.1 = None →
  runPromptMessages fuel tools ms skip st = (r, st') → settled st st'.
Proof.
  intros Ht. apply lifecycle_settled.
  apply keeps_bind; [apply _|apply keeps_read_agent|]. intros a _ _ _.
  by apply (keeps_runAgentLoop _ env_calm).
Qed.

Lemma runContinuation_settled fuel tools st r st' :
  respectful_tools tools → ag_activeRun st.1.1 = None →
  runContinuation fuel tools st = (r, st') → settled st st'.
Proof.
  intros Ht. apply lifecycle_settled.
  apply keeps_bind; [apply _|apply keeps_read_agent|]. intros a _ _ _.
  by apply (keeps_runAgentLoopContinue _ env_calm).
Qed.

(** C22: A prompt to an idle agent, whether it succeeds, fails or throws, leaves
    the agent idle with no pending tool call and no streaming message, and the
    transcript grew exactly by the messages whose end was reported, in order. *)
Theorem prompt_settled fuel tools input st r st'
  (Ht : respectful_tools tools) (Hidle : ag_activeRun st.1.1 = None)
  (H : prompt fuel tools input st = (r, st')) :
  ∃ evs, st'.2 = st.2 ++ evs ∧ ag_messages st'.1.1 = ag_messages st.1.1 ++ ended evs
    ∧ ag_activeRun st'.1.1 = None ∧ ag_isStreaming st'.1.1 = false
    ∧ ag_streamingMessage st'.1.1 = None ∧ ag_pendingToolCalls st'.1.1 = ∅.
Proof.
  destruct st as [[a w] log]. unfold prompt, read_agent, ext, on_agent, mbind, M_bind in H.
  simpl in *. rewrite Hidle in H. by eapply (runPromptMessages_settled _ _ _ _ (a, w, log)).
Qed.
End env.

(** ** A busy agent *)

(** An agent that runs refuses a prompt and a continuation, and neither
    changes anything. *)
Theorem busy_refuses fuel tools input st b (Hbusy : ag_activeRun st.1.1 = Some b) :
  prompt fuel tools input st
    = (Err (js "Agent is already processing a prompt. Use steer() or followUp() to queue messages, or wait for completion."), st)
  ∧ continue fuel tools st
    = (Err (js "Agent is already processing. Wait for completion before continuing."), st).
Proof.
  destruct st as [[a w] log]. unfold prompt, continue, read_agent, ext, on_agent, mbind, M_bind.
  simpl in *. by rewrite Hbusy.
Qed.

(** ** Failures *)

Section failures.
Hypothesis listeners_return : ∀ f e w, f ∈ ae_listeners → is_ok (f e w).1 = true.
Hypothesis Henv : respectful_env.

Lemma notify_returns (l : list (AgentEvent → M World jstr unit)) e w :
  (∀ f w, f ∈ l → is_ok (f e w).1 = true) → ∃ w', notify l e w = (Ok tt, w').
Proof.
  revert w. induction l as [|f l IH]; intros w Hl; [by exists w|]. simpl. unfold mbind, M_bind.
  pose proof (Hl f w ltac:(set_solver)) as Hf. destruct (f e w) as [[[]|] w1]; [|done].
  apply IH. intros g w2 Hg. apply Hl. set_solver.
Qed.

(** An event of an active run is reduced and delivered. *)
Lemma emit_active e a w log :
  active a = true → ∃ a' w', emit e (a, w, log) = (Ok tt, (a', w', log ++ [e])) ∧
    ag_messages a' = ag_messages a ++ ended [e] ∧ active a' = true.
Proof.
  intros Ha. unfold emit. simpl. unfold processEvents, mbind, M_bind. simpl.
  destruct (reduceEvent_messages e a) as [H1 H2]. rewrite Ha in H2.
  pose proof H2 as H2'. unfold active in H2'. destruct (ag_activeRun _) as [b|]; [|done].
  destruct (notify_returns ae_listeners e (reduceEvent e a, w)) as [[a' w'] Hn].
  { intros f w0 Hf. by apply listeners_return. }
  destruct (notify_respects Henv ae_listeners e (λ f Hf, re_listeners Henv f e Hf) (reduceEvent e a, w)) as [H3 H4].
  rewrite Hn in H3, H4 |- *. simpl in *. exists a', w'. by rewrite H3, H1, H4, H2.
Qed.

(** The failure of a run is reported as a run of its own. *)
Definition failure_events (m : AssistantMessage) : list AgentEvent :=
  [MessageStart (Assistant m); MessageEnd (Assistant m); TurnEnd (Assistant m) [];
   AgentEnd [Assistant m]].

Lemma handleRunFailure_spec e a w log :
  active a = true →
  let m := failureMessage a e (bool_decide (ag_activeRun a = Some true)) (ae_now w) in
  ∃ a' w', handleRunFailure e (a, w, log) = (Ok tt, (a', w', log ++ failure_events m)) ∧
    ag_messages a' = ag_messages a ++ [Assistant m].
Proof.
  intros Ha m. unfold handleRunFailure, mbind, M_bind, get. cbn [fst snd]. fold m.
  destruct (emit_active (MessageStart (Assistant m)) a w log Ha) as (a1 & w1 & -> & Hm1 & Ha1).
  destruct (emit_active (MessageEnd (Assistant m)) a1 w1 (log ++ [MessageStart (Assistant m)]) Ha1)
    as (a2 & w2 & -> & Hm2 & Ha2).
  edestruct (emit_active (TurnEnd (Assistant m) []) a2 w2) as (a3 & w3 & -> & Hm3 & Ha3); [done|].
  edestruct (emit_active (AgentEnd [Assistant m]) a3 w3) as (a4 & w4 & -> & Hm4 & Ha4); [done|].
  exists a4, w4. rewrite <- !(assoc_L (++)). split; [done|].
  rewrite Hm4, Hm3, Hm2, Hm1. simpl. by rewrite !app_nil_r.
Qed.

(** When the loop throws, the prompt does not: the error becomes an assistant
    message that fails (aborted when the run was aborted) with the text of the
    error, appended to the transcript behind what the loop reported, and the
    agent is idle again. *)
Theorem prompt_failure fuel tools input a w log e a1 w1 log1
  (Hidle : ag_activeRun a = None) (Ht : respectful_tools tools)
  (H : runAgentLoop fuel (normalizePromptInput input (ae_now w))
         (createContextSnapshot (startRun false a) tools) (loop_config (startRun false a))
         (startRun false a, w, log) = (Err e, (a1, w1, log1))) :
  ∃ m a2 w2, prompt fuel tools input (a, w, log) = (Ok (Some tt), (finishRun a2, w2, log1 ++ failure_events m))
    ∧ ag_messages a2 = ag_messages a1 ++ [Assistant m]
    ∧ am_errorMessage m = Some e ∧ is_failed m = true
    ∧ (am_stopReason m = StopAborted ↔ ag_activeRun a1 = Some true).
Proof.
  unfold prompt, read_agent, ext, on_agent, mbind, M_bind, get. cbn [fst snd]. rewrite Hidle.
  unfold runPromptMessages, runWithLifecycle, read_agent, update_agent, ext, on_agent, mbind, M_bind.
  rewrite Hidle. unfold try_finally, try_catch. cbv beta iota. cbn [fst snd]. rewrite H.
  assert (active a1 = true) as Ha1.
  { pose proof (keeps_runAgentLoop _ (env_calm Henv) fuel (normalizePromptInput input (ae_now w))
      (createContextSnapshot (startRun false a) tools) (loop_config (startRun false a)) Ht
      (startRun false a, w, log)) as Hk. rewrite H in Hk. destruct Hk as (_ & _ & _ & Hk). exact Hk. }
  destruct (handleRunFailure_spec e a1 w1 log1 Ha1) as (a2 & w2 & -> & Hm).
  eexists _, a2, w2. split; [done|]. split; [exact Hm|]. simpl. split; [done|].
  unfold is_failed. case_bool_decide; simpl; naive_solver.
Qed.
End failures.
End facts.

(** ** A concrete agent *)

Module DemoAgent.
Definition W := list AssistantMessage.
Abbreviation World := (Agent * W)%type.

Definition client : M World jstr StreamResponse := λ '(a, w),
  match w with
  | [] => (Err (js "offline"), (a, []))
  | m :: w => (Ok {| sr_events := [StreamStart m; StreamDone]; sr_result := m |}, (a, w))
  end.

#[global] Instance env : @AgentEnv W :=
  {| ae_convertToLlm ms := mret (convertToLlm ms); ae_transformContext := None; ae_getApiKey := None;
     ae_beforeToolCall := None; ae_afterToolCall := None; ae_prepareNextTurn := None;
     ae_prepareNextTurnWithContext := None; ae_toolExecution := None;
     ae_listeners := [λ _, mret tt]; ae_now _ := 9%Z; ae_streamFn _ _ _ _ _ _ := client;
     ae_validate _ args := Ok args; ae_choose w := (0%nat, w) |}.

Definition queue : PendingMessageQueue := {| q_messages := []; q_mode := OneAtATime |}.
Definition idle : Agent :=
  {| ag_systemPrompt := []; ag_model := {| lm_id := js "m"; lm_provider := js "p" |};
     ag_thinkingLevel := js "off"; ag_messages := []; ag_isStreaming := false;
     ag_streamingMessage := None; ag_pendingToolCalls := ∅; ag_errorMessage := None;
     ag_steeringQueue := queue; ag_followUpQueue := queue; ag_activeRun := None; ag_skip := false |}.
Definition start (answers : W) : World * list AgentEvent := (idle, answers, []).

Lemma respectful : respectful_env.
Proof.
  split; simpl; try done.
  - intros model p ms ts l k [a [|m w]]; done.
  - intros f e ->%list_elem_of_singleton. done.
  - intros x [(f & w & w' & [=] & _)|(f & y & w & w' & [=] & _)].
Qed.
Lemma returning : ∀ f e (w : World), f ∈ ae_listeners → is_ok (f e w).1 = true.
Proof. intros f e w ->%list_elem_of_singleton. done. Qed.
End DemoAgent.

Lemma prompt_settled_witness :
  respectful_env (W:=DemoAgent.W) ∧ respectful_tools (W:=DemoAgent.W) [] ∧
  ∃ r st', prompt 5 [] (PromptText (js "hi") []) (DemoAgent.start [Demo.bye]) = (r, st') ∧
    length (ag_messages st'.1.1) = 2%nat ∧ ag_activeRun st'.1.1 = None.
Proof.
  split; [exact DemoAgent.respectful|]. split; [constructor|].
  destruct (prompt 5 [] (PromptText (js "hi") []) (DemoAgent.start [Demo.bye])) as [r st'] eqn:H.
  exists r, st'.
  destruct (prompt_settled DemoAgent.respectful 5 [] _ (DemoAgent.start [Demo.bye]) r st' (List.Forall_nil _) eq_refl H) as (evs & _ & _ & H1 & _).
  split; [reflexivity|]. split; [|exact H1]. vm_compute in H. injection H as <- <-. reflexivity.
Defined.

Lemma busy_refuses_witness :
  ag_activeRun (startRun false DemoAgent.idle) = Some false ∧
  continue 5 [] (startRun false DemoAgent.idle, [Demo.bye], [])
    = (Err (js "Agent is already processing. Wait for completion before continuing."),
       (startRun false DemoAgent.idle, [Demo.bye], [])).
Proof.
  split; [reflexivity|].
  exact (proj2 (busy_refuses 5 [] (PromptMessages []) (startRun false DemoAgent.idle, [Demo.bye], []) false eq_refl)).
Defined.

Lemma prompt_failure_witness :
  ∃ m a2 w2 log, prompt 5 [] (PromptText (js "hi") []) (DemoAgent.start []) = (Ok (Some tt), (finishRun a2, w2, log))
    ∧ am_errorMessage m = Some (js "offline") ∧ last (ag_messages a2) = Some (Assistant m).
Proof.
  destruct (runAgentLoop 5 (normalizePromptInput (PromptText (js "hi") []) (ae_now ([] : DemoAgent.W)))
         (createContextSnapshot (startRun false DemoAgent.idle) []) (loop_config (startRun false DemoAgent.idle))
         (startRun false DemoAgent.idle, [], [])) as [[|e] [[a1 w1] log1]] eqn:H; [by vm_compute in H|].
  destruct (prompt_failure DemoAgent.returning DemoAgent.respectful 5 [] (PromptText (js "hi") [])
    DemoAgent.idle [] [] e a1 w1 log1 eq_refl (List.Forall_nil _) H) as (m & a2 & w2 & Hp & Hm & He & _).
  exists m, a2, w2. eexists. split; [exact Hp|]. rewrite Hm, last_snoc. split; [|reflexivity].
  rewrite He. vm_compute in H. injection H as <- _ _ _. reflexivity.
Defined.
