(* ===== verification/StableJson.v ===== *)
(** * Canonical JSON text

    packages/local-agent/src/guard.ts and apps/api/src/audit/audit.service.ts write
    a value as JSON with the members of every object in the order of their keys.
    The text determines the value up to the order of members, which is the
    equivalence [json_equiv]. *)

From stdpp Require Import sorting.
From S2P Require Import Prelude JsMap JsString Json.
From Stdlib Require Import Lia.

Set Default Goal Selector "!".

(** [Object.keys(value).sort()]: by code units. *)
Fixpoint insert_key {A} (kv : jstr * A) (l : list (jstr * A)) : list (jstr * A) :=
  match l with
  | [] => [kv]
  | x :: l' => if js_le kv.1 x.1 then kv :: l else x :: insert_key kv l'
  end.
Definition sort_keys {A} (l : list (jstr * A)) : list (jstr * A) := foldr insert_key [] l.

Fixpoint stableJson (v : json) : jstr :=
  match v with
  | JArr l => 91%N :: join [44%N] (map stableJson l) ++ [93%N]
  | JObj l => 123%N :: join [44%N] (map (λ kv, quote kv.1 ++ 58%N :: kv.2)
                (sort_keys (map (λ '(k, v), (k, stableJson v)) l))) ++ [125%N]
  | _ => stringify v
  end.

(** ** Values up to the order of members *)

Fixpoint sort_json (v : json) : json :=
  match v with
  | JArr l => JArr (map sort_json l)
  | JObj l => JObj (sort_keys (map (λ '(k, v), (k, sort_json v)) l))
  | _ => v
  end.

Definition json_equiv (a b : json) : Prop := sort_json a = sort_json b.
#[export] Instance json_equivalence : Equivalence json_equiv.
Proof. unfold json_equiv. split; red; intros; congruence. Qed.

Lemma insert_key_perm {A} (kv : jstr * A) l : insert_key kv l ≡ₚ kv :: l.
Proof.
  induction l as [|x l IH]; simpl; [done|]. destruct (js_le _ _); [done|].
  rewrite IH. apply perm_swap.
Qed.
Lemma sort_keys_perm {A} (l : list (jstr * A)) : sort_keys l ≡ₚ l.
Proof. induction l as [|x l IH]; simpl; [done|]. by rewrite insert_key_perm, IH. Qed.

Lemma sort_keys_map {A B} (f : A → B) (l : list (jstr * A)) :
  sort_keys (map (λ kv, (kv.1, f kv.2)) l) = map (λ kv, (kv.1, f kv.2)) (sort_keys l).
Proof.
  induction l as [|x l IH]; simpl; [done|]. rewrite IH. generalize (sort_keys l) as m. clear.
  induction m as [|y m IH]; simpl; [done|]. destruct (js_le _ _); [done|]. by rewrite IH.
Qed.

(** The canonical text is the plain text of the sorted value. *)
Lemma stableJson_sorted v : stableJson v = stringify (sort_json v).
Proof.
  induction v as [| | | |l IH|l IH] using json_induction; try done; simpl.
  - do 3 f_equal. rewrite map_map. apply map_ext_in. intros x Hx. by apply (proj1 (Forall_forall _ _) IH), list_elem_of_In.
  - do 3 f_equal.
    assert (map (λ '(k, v), (k, stableJson v)) l = map (λ kv, (kv.1, stringify kv.2)) (map (λ '(k, v), (k, sort_json v)) l)) as ->.
    { rewrite map_map. apply map_ext_in. intros [k v] Hx. f_equal.
      by apply (proj1 (Forall_forall _ _) IH (k, v)), list_elem_of_In. }
    rewrite sort_keys_map, map_map. by apply map_ext; intros [k v].
Qed.

Lemma json_wf_arr l : json_wf (JArr l) ↔ Forall json_wf l.
Proof. rewrite Forall_fold_right. done. Qed.
Lemma json_wf_obj l : json_wf (JObj l) ↔ NoDup l.*1 ∧ Forall (λ kv, js_wf kv.1 ∧ json_wf kv.2) l.
Proof. rewrite Forall_fold_right. done. Qed.

Lemma sort_json_wf v : json_wf v → json_wf (sort_json v).
Proof.
  induction v as [| | | |l IH|l IH] using json_induction; try done; cbn [sort_json].
  - rewrite !json_wf_arr. intros H. apply Forall_map. clear - IH H.
    induction IH; inversion H; subst; constructor; auto.
  - rewrite !json_wf_obj. intros [Hn H]. split.
    + assert ((sort_keys (map (λ '(k, v), (k, sort_json v)) l)).*1 ≡ₚ l.*1) as ->; [|done].
      rewrite sort_keys_perm. clear. induction l as [|[k v] l IH]; simpl; [done|]. by rewrite IH.
    + rewrite sort_keys_perm. apply Forall_map. clear Hn. induction IH as [|[k v] l Hx _ IHl]; [constructor|].
      inversion H as [|? ? [? ?] ?]; subst. constructor; [|by apply IHl]. split; [done|]. by apply Hx.
Qed.

(** Equal texts come from equivalent values. *)
Lemma stableJson_inj a b : json_wf a → json_wf b → stableJson a = stableJson b → json_equiv a b.
Proof.
  intros Ha%sort_json_wf%json_roundtrip_value Hb%sort_json_wf%json_roundtrip_value H.
  rewrite !stableJson_sorted in H. unfold json_equiv. rewrite H in Ha. congruence.
Qed.
