(* ===== verification/IsoDate.v ===== *)
(** * Dates as text

    [Date.prototype.toISOString] and [new Date(text).getTime()] of the language,
    for the date-time form with a zone that the schemas admit: a year of four
    digits, or of six with a sign, seconds and their fraction optional. [None] is
    the RangeError of an invalid date, and the invalid date itself. *)

From S2P Require Import Prelude JsString Calendar.
From Stdlib Require Import Lia.

Set Default Goal Selector "!".
Local Open Scope Z_scope.

(** The [n] last decimal digits of a number. *)
Fixpoint pad (n : nat) (z : Z) : jstr :=
  match n with
  | O => []
  | S n => Z.to_N (48 + z / 10 ^ Z.of_nat n mod 10) :: pad n z
  end.

Definition max_time : Z := 8640000000000000.

Definition iso_year (y : Z) : jstr :=
  if (0 <=? y) && (y <=? 9999) then pad 4 y
  else (if y <? 0 then 45%N else 43%N) :: pad 6 (Z.abs y).

Definition toISOString (t : Z) : option jstr :=
  if Z.abs t <=? max_time then
    let p := utc_parts t in
    Some (iso_year (lp_year p) ++ 45%N :: pad 2 (lp_month p) ++ 45%N :: pad 2 (lp_day p)
          ++ 84%N :: pad 2 (lp_hour p) ++ 58%N :: pad 2 (lp_minute p) ++ 58%N :: pad 2 (lp_second p)
          ++ 46%N :: pad 3 (t mod 1000) ++ [90%N])
  else None.

(** ** Reading *)

Fixpoint take_digits (n : nat) (acc : Z) (s : jstr) : option (Z * jstr) :=
  match n with
  | O => Some (acc, s)
  | S n => match s with
           | c :: s => match digit_value c with
                       | Some d => if d <? 10 then take_digits n (acc * 10 + d) s else None
                       | None => None
                       end
           | [] => None
           end
  end.

Definition eat_char (c : N) (s : jstr) : option jstr :=
  match s with d :: s => if (d =? c)%N then Some s else None | [] => None end.

Definition parse_year (s : jstr) : option (Z * jstr) :=
  match eat_char 43%N s, eat_char 45%N s with
  | Some s, _ => take_digits 6 0 s
  | None, Some s => '(y, s) ← take_digits 6 0 s; if y =? 0 then None else Some (- y, s)
  | None, None => take_digits 4 0 s
  end.

(** The first three digits of a fraction; the others are dropped. *)
Definition parse_fraction (s : jstr) : option (Z * jstr) :=
  match eat_char 46%N s with
  | None => Some (0, s)
  | Some s =>
      let digits := (fix span s := match s with
                                   | c :: s => if is_digit c then c :: span s else []
                                   | [] => []
                                   end) s in
      let d i := default 0 (digits !! i ≫= digit_value) in
      if truthy digits then Some (d 0%nat * 100 + d 1%nat * 10 + d 2%nat, drop (length digits) s) else None
  end.

Definition parse_seconds (s : jstr) : option (Z * Z * jstr) :=
  match eat_char 58%N s with
  | None => Some (0, 0, s)
  | Some s => '(sec, s) ← take_digits 2 0 s; '(ms, s) ← parse_fraction s; Some (sec, ms, s)
  end.

(** The zone: minutes ahead of UTC. *)
Definition parse_zone (s : jstr) : option Z :=
  match s with
  | [] => None
  | c :: r =>
      if (c =? 90)%N then (if truthy r then None else Some 0)
      else if (c =? 43)%N || (c =? 45)%N then
        '(h, r) ← take_digits 2 0 r; r ← eat_char 58%N r; '(m, r) ← take_digits 2 0 r;
        if truthy r || (23 <? h) || (59 <? m) then None
        else Some ((if (c =? 45)%N then -1 else 1) * (h * 60 + m))
      else None
  end.

Definition time_ok (h mi sec ms : Z) : bool :=
  (mi <=? 59) && (sec <=? 59) && ((h <=? 23) || ((h =? 24) && (mi =? 0) && (sec =? 0) && (ms =? 0))).

Definition dateValue (text : jstr) : option Z :=
  '(y, s) ← parse_year text; s ← eat_char 45%N s;
  '(m, s) ← take_digits 2 0 s; s ← eat_char 45%N s;
  '(d, s) ← take_digits 2 0 s; s ← eat_char 84%N s;
  '(h, s) ← take_digits 2 0 s; s ← eat_char 58%N s;
  '(mi, s) ← take_digits 2 0 s;
  '(sec, ms, s) ← parse_seconds s;
  zone ← parse_zone s;
  if (1 <=? m) && (m <=? 12) && (1 <=? d) && (d <=? 31) && time_ok h mi sec ms then
    let t := make_day y (m - 1) d * ms_per_day + h * 3600000 + mi * 60000 + sec * 1000 + ms - zone * 60000 in
    if Z.abs t <=? max_time then Some t else None
  else None.

(** ** Round trip *)

Lemma take_digits_pad n acc z r :
  take_digits n acc (pad n z ++ r) = Some (acc * 10 ^ Z.of_nat n + z mod 10 ^ Z.of_nat n, r).
Proof.
  revert acc. induction n as [|n IH]; intros acc; cbn [take_digits pad app].
  - rewrite Z.mod_1_r. do 2 f_equal. simpl. lia.
  - pose proof (Z.mod_pos_bound (z / 10 ^ Z.of_nat n) 10 ltac:(lia)) as Hd.
    rewrite digit_value_digit by lia. rewrite (proj2 (Z.ltb_lt _ _)) by lia. rewrite IH. do 2 f_equal.
    rewrite Nat2Z.inj_succ, Z.pow_succ_r, (Z.mul_comm 10), Z.rem_mul_r by lia. lia.
Qed.

Lemma take_pad n z r : 0 <= z < 10 ^ Z.of_nat n → take_digits n 0 (pad n z ++ r) = Some (z, r).
Proof. intros H. rewrite take_digits_pad, Z.mod_small by done. done. Qed.

Lemma eat_char_eq c s : eat_char c (c :: s) = Some s.
Proof. unfold eat_char. by rewrite N.eqb_refl. Qed.

Lemma pad_head n z : ∃ c s, pad (S n) z = c :: s ∧ is_digit c = true.
Proof.
  eexists _, _. split; [reflexivity|]. pose proof (Z.mod_pos_bound (z / 10 ^ Z.of_nat n) 10 ltac:(lia)).
  unfold is_digit. apply andb_true_iff. split; apply N.leb_le; lia.
Qed.

Lemma parse_year_iso y r : -999999 <= y <= 999999 → parse_year (iso_year y ++ r) = Some (y, r).
Proof.
  intros Hy. unfold parse_year, iso_year. destruct (Z.leb_spec 0 y), (Z.leb_spec y 9999); simpl andb; cbn iota.
  - destruct (pad_head 3 y) as (c & s & Hc & Hd). pose proof (take_pad 4 y r ltac:(simpl; lia)) as Ht.
    rewrite Hc in *. cbn [app] in *. unfold eat_char.
    destruct (N.eqb_spec c 43) as [->|]; [done|]. destruct (N.eqb_spec c 45) as [->|]; [done|]. exact Ht.
  - destruct (Z.ltb_spec y 0); [lia|]. cbn [app]. rewrite eat_char_eq. rewrite take_pad by (simpl; lia).
    do 2 f_equal. lia.
  - destruct (Z.ltb_spec y 0); [|lia]. cbn [app]. unfold eat_char at 1. rewrite eat_char_eq. simpl N.eqb.
    cbn iota. rewrite take_pad by (simpl; lia). simpl. destruct (Z.eqb_spec (Z.abs y) 0); [lia|].
    do 2 f_equal. lia.
  - destruct (Z.ltb_spec y 0); [|lia]. cbn [app]. unfold eat_char at 1. rewrite eat_char_eq. simpl N.eqb.
    cbn iota. rewrite take_pad by (simpl; lia). simpl. destruct (Z.eqb_spec (Z.abs y) 0); [lia|].
    do 2 f_equal. lia.
Qed.

Lemma utc_parts_bounds t (p := utc_parts t) :
  Z.abs t ≤ max_time →
  -999999 <= lp_year p <= 999999 ∧ 1 <= lp_month p <= 12 ∧ 1 <= lp_day p <= 31 ∧
  0 <= lp_hour p <= 23 ∧ 0 <= lp_minute p <= 59 ∧ 0 <= lp_second p <= 59.
Proof.
  intros Ht. pose proof (utc_parts_range t) as [Hm Hd]. fold p in Hm, Hd.
  pose proof (month_length_bounds (lp_year p) (lp_month p) Hm).
  subst p. cbn [utc_parts lp_year lp_month lp_day lp_hour lp_minute lp_second] in *.
  pose proof (Z.mod_pos_bound t ms_per_day ltac:(unfold ms_per_day; lia)).
  pose proof (Z.mod_pos_bound (t mod ms_per_day / 60000) 60 ltac:(lia)).
  pose proof (Z.mod_pos_bound (t mod ms_per_day / 1000) 60 ltac:(lia)).
  unfold max_time in Ht. repeat split; try lia.
  - unfold year_from_day. repeat case_match; unfold ms_per_day in *; zlia.
  - unfold year_from_day. repeat case_match; unfold ms_per_day in *; zlia.
  - unfold ms_per_day in *. zlia.
  - unfold ms_per_day in *. zlia.
Qed.

Lemma parse_seconds_iso sec ms r :
  0 <= sec <= 59 → 0 <= ms <= 999 →
  parse_seconds (58%N :: pad 2 sec ++ 46%N :: pad 3 ms ++ 90%N :: r) = Some (sec, ms, 90%N :: r).
Proof.
  intros Hs Hm. unfold parse_seconds. rewrite eat_char_eq, take_pad by (simpl; lia). cbn [mbind option_bind].
  unfold parse_fraction. rewrite eat_char_eq. cbn [pad app].
  assert (∀ x, is_digit (Z.to_N (48 + x mod 10)) = true) as Hd.
  { intros x. pose proof (Z.mod_pos_bound x 10 ltac:(lia)). unfold is_digit. apply andb_true_iff. split; apply N.leb_le; lia. }
  rewrite !Hd. change (is_digit 90) with false. cbn [truthy length drop lookup list_lookup mbind option_bind].
  rewrite !digit_value_digit by (apply Z.mod_pos_bound; lia). cbn [mbind option_bind default].
  do 3 f_equal. change (10 ^ Z.of_nat 2) with 100. change (10 ^ Z.of_nat 1) with 10.
  change (10 ^ Z.of_nat 0) with 1. unfold id.
  rewrite Z.div_1_r, (Z.mod_small (ms / 100)) by zlia. zlia.
Qed.

Lemma dateValue_toISOString t : Z.abs t ≤ max_time → ∃ s, toISOString t = Some s ∧ dateValue s = Some t.
Proof.
  intros Ht. pose proof (utc_parts_bounds t Ht) as (Hy & Hm & Hd & Hh & Hmi & Hs).
  pose proof (make_day_parts t) as Hday.
  unfold toISOString. rewrite (proj2 (Z.leb_le _ _)) by done. eexists. split; [reflexivity|].
  assert (lp_hour (utc_parts t) * 3600000 + lp_minute (utc_parts t) * 60000 + lp_second (utc_parts t) * 1000
          + t mod 1000 = t mod ms_per_day) as Htime.
  { cbn [utc_parts lp_hour lp_minute lp_second]. unfold ms_per_day. zlia. }
  set (p := utc_parts t) in *. clearbody p. unfold dateValue.
  rewrite parse_year_iso by lia. cbn [mbind option_bind]. rewrite eat_char_eq. cbn [mbind option_bind].
  rewrite take_pad by (simpl; lia). cbn [mbind option_bind]. rewrite eat_char_eq. cbn [mbind option_bind].
  rewrite take_pad by (simpl; lia). cbn [mbind option_bind]. rewrite eat_char_eq. cbn [mbind option_bind].
  rewrite take_pad by (simpl; lia). cbn [mbind option_bind]. rewrite eat_char_eq. cbn [mbind option_bind].
  rewrite take_pad by (simpl; lia). cbn [mbind option_bind].
  rewrite parse_seconds_iso by (pose proof (Z.mod_pos_bound t 1000 ltac:(lia)); lia). cbn.
  unfold time_ok. rewrite !(proj2 (Z.leb_le _ _)) by lia. cbn.
  replace (_ - 0) with t; [by rewrite (proj2 (Z.leb_le _ _))|].
  rewrite Hday, <- !Z.add_assoc, !Z.add_assoc. unfold ms_per_day in *. zlia.
Qed.
