(* ===== verification/RegExp.v ===== *)
(** * Regular expressions

    The regular expressions of ECMAScript as far as the modelled code uses them:
    patterns without captures that matter, lookaround, backreferences and counted
    repetition. [parse_re] reads the pattern text, [ends] computes where a match
    from a position can end, [matches] is its meaning, and [re_test] is
    [RegExp.prototype.test] without flags. A pattern the parser refuses is one
    [new RegExp] throws for; of the syntax beyond that subset, lookbehind and named
    groups, inline modifiers and counted repetition are not read. The one caller
    that reads patterns from outside, [ExecPolicy.compileRegexLite], refuses
    lookaround, named groups and counted repetition itself, as the code does,
    before it compiles a pattern; only inline modifiers reach this parser. *)

From S2P Require Import Prelude JsString.
From Stdlib Require Import Lia.

Set Default Goal Selector "!".

(** ** Syntax *)

Inductive ClassItem :=
| CRange (a b : N)
| CDigit (positive : bool)
| CSpace (positive : bool)
| CWord (positive : bool).

Inductive re :=
| REmpty
| RSet (negated : bool) (items : list ClassItem)
| RDot
| RStart
| REnd
| RWordBoundary (positive : bool)
| RSeq (a b : re)
| RAlt (a b : re)
| RStar (a : re).

Definition is_word (c : N) : bool :=
  (is_digit c || (65 <=? c) && (c <=? 90) || (97 <=? c) && (c <=? 122) || (c =? 95))%N.

Definition item_has (c : N) (i : ClassItem) : bool :=
  match i with
  | CRange a b => ((a <=? c) && (c <=? b))%N
  | CDigit p => Bool.eqb p (is_digit c)
  | CSpace p => Bool.eqb p (is_ws c)
  | CWord p => Bool.eqb p (is_word c)
  end.

Definition set_matches (negated : bool) (items : list ClassItem) (c : N) : bool :=
  xorb negated (existsb (item_has c) items).

Definition is_line_end (c : N) : bool := ((c =? 10) || (c =? 13) || (c =? 0x2028) || (c =? 0x2029))%N.

(** ** Meaning *)

(** A position: the unit before it, and what follows. *)
Abbreviation pos := (option N * jstr)%type.

Definition word_before (p : pos) : bool := match p.1 with Some c => is_word c | None => false end.
Definition word_after (p : pos) : bool := match p.2 with c :: _ => is_word c | [] => false end.

(** One unit that satisfies a test. *)
Definition unit_ends (f : N → bool) (p : pos) : list pos :=
  match p.2 with
  | c :: s => if f c then [(Some c, s)] else []
  | [] => []
  end.

Definition here_if (b : bool) (p : pos) : list pos := if b then [p] else [].

(** Where [f] can end after any number of rounds, each of which consumes. *)
Fixpoint star_ends (f : pos → list pos) (fuel : nat) (p : pos) : list pos :=
  p :: match fuel with
       | O => []
       | S fuel => flat_map (λ q, if (length q.2 <? length p.2)%nat then star_ends f fuel q else []) (f p)
       end.

Fixpoint ends (r : re) (p : pos) : list pos :=
  match r with
  | REmpty => [p]
  | RSet negated items => unit_ends (set_matches negated items) p
  | RDot => unit_ends (λ c, negb (is_line_end c)) p
  | RStart => here_if (bool_decide (p.1 = None)) p
  | REnd => here_if (bool_decide (p.2 = [])) p
  | RWordBoundary b => here_if (Bool.eqb b (xorb (word_before p) (word_after p))) p
  | RSeq a b => flat_map (ends b) (ends a p)
  | RAlt a b => ends a p ++ ends b p
  | RStar a => star_ends (ends a) (length p.2) p
  end.

Inductive matches : re → pos → pos → Prop :=
| m_empty p : matches REmpty p p
| m_set negated items o c s : set_matches negated items c = true →
    matches (RSet negated items) (o, c :: s) (Some c, s)
| m_dot o c s : is_line_end c = false → matches RDot (o, c :: s) (Some c, s)
| m_start s : matches RStart (None, s) (None, s)
| m_end o : matches REnd (o, []) (o, [])
| m_boundary b p : b = xorb (word_before p) (word_after p) → matches (RWordBoundary b) p p
| m_seq a b p q s : matches a p q → matches b q s → matches (RSeq a b) p s
| m_left a b p q : matches a p q → matches (RAlt a b) p q
| m_right a b p q : matches b p q → matches (RAlt a b) p q
| m_stop a p : matches (RStar a) p p
| m_round a p q s : matches a p q → matches (RStar a) q s → matches (RStar a) p s.

(** All positions of a subject, from [p] on. *)
Fixpoint positions (o : option N) (s : jstr) : list pos :=
  (o, s) :: match s with [] => [] | c :: s => positions (Some c) s end.

(** [r.test(s)]. *)
Definition test (r : re) (s : jstr) : bool :=
  existsb (λ p, negb (bool_decide (ends r p = []))) (positions None s).

(** ** The parser *)

Definition one (c : N) : ClassItem := CRange c c.
Definition lit (c : N) : re := RSet false [one c].

(** [SyntaxCharacter]s that cannot stand for themselves outside a class; a brace
    or a closing bracket can. *)
Definition hex_digits (n : nat) (s : jstr) : option (N * jstr) :=
  let h := take n s in
  if bool_decide (length h = n) then (λ z, (Z.to_N z, drop n s)) <$> parse_nonempty 16 h else None.

Definition ascii_letter (c : N) : bool := ((65 <=? c) && (c <=? 90) || (97 <=? c) && (c <=? 122))%N.
Definition octal_digit (c : N) : bool := ((48 <=? c) && (c <=? 55))%N.

(** What follows a backslash, but for [\b] and [\B]: a class or a unit. *)
Definition parse_escape (s : jstr) : option (ClassItem * jstr) :=
  match s with
  | [] => None
  | c :: s =>
      let eq x := (c =? x)%N in
      if eq 100 (* d *) then Some (CDigit true, s)
      else if eq 68 (* D *) then Some (CDigit false, s)
      else if eq 115 (* s *) then Some (CSpace true, s)
      else if eq 83 (* S *) then Some (CSpace false, s)
      else if eq 119 (* w *) then Some (CWord true, s)
      else if eq 87 (* W *) then Some (CWord false, s)
      else if eq 116 (* t *) then Some (one 9, s)
      else if eq 110 (* n *) then Some (one 10, s)
      else if eq 118 (* v *) then Some (one 11, s)
      else if eq 102 (* f *) then Some (one 12, s)
      else if eq 114 (* r *) then Some (one 13, s)
      else if eq 120 (* x *) then
        match hex_digits 2 s with Some (n, s) => Some (one n, s) | None => Some (one c, s) end
      else if eq 117 (* u *) then
        match hex_digits 4 s with Some (n, s) => Some (one n, s) | None => Some (one c, s) end
      else if eq 48 (* 0 *) then
        match s with
        | d :: e :: s' => if octal_digit d && octal_digit e then Some (one ((d - 48) * 8 + (e - 48)), s')
                          else if octal_digit d then Some (one (d - 48), e :: s') else Some (one 0, s)
        | [d] => if octal_digit d then Some (one (d - 48), []) else Some (one 0, s)
        | [] => Some (one 0, s)
        end
      else if eq 99 (* c *) then
        match s with
        | l :: s' => if ascii_letter l then Some (one (l mod 32), s') else Some (one 92, c :: s)
        | [] => Some (one 92, [c])
        end
      else Some (one c, s)
  end%N.

(** An atom of a class. In a class [\b] is a backspace, and [-] an escape of
    itself like the others. *)
Definition parse_class_atom (s : jstr) : option (ClassItem * jstr) :=
  match s with
  | [] => None
  | c :: s =>
      if (c =? 92)%N then
        match s with
        | b :: s' => if (b =? 98 (* b *))%N then Some (one 8, s') else parse_escape s
        | [] => None
        end
      else Some (one c, s)
  end.

Definition single (i : ClassItem) : option N :=
  match i with CRange a b => if (a =? b)%N then Some a else None | _ => None end.

(** The rest behind the unit [c], if that is the next one. *)
Definition eat (c : N) (s : jstr) : option jstr :=
  match s with x :: s => if (x =? c)%N then Some s else None | [] => None end.

(** A range, or its three items where an end is not a single unit. *)
Definition class_range (a b : ClassItem) : option (list ClassItem) :=
  match single a, single b with
  | Some x, Some y => if (x <=? y)%N then Some [CRange x y] else None
  | _, _ => Some [a; one 45 (* - *); b]
  end.

(** The items up to the closing bracket. *)
Fixpoint parse_class (fuel : nat) (s : jstr) : option (list ClassItem * jstr) :=
  match fuel with
  | O => None
  | S fuel =>
      match eat 93 (* ] *) s with
      | Some s => Some ([], s)
      | None =>
          '(a, s) ← parse_class_atom s;
          match eat 45 (* - *) s with
          | None => '(items, s) ← parse_class fuel s; Some (a :: items, s)
          | Some s1 =>
              match eat 93 s1 with
              | Some s2 => Some ([a; one 45], s2)
              | None =>
                  '(b, s2) ← parse_class_atom s1;
                  '(items, s3) ← parse_class fuel s2;
                  range ← class_range a b;
                  Some (range ++ items, s3)
              end
          end
      end
  end.

(** A quantifier, greedy or lazy, behind an atom. *)
Definition skip_lazy (s : jstr) : jstr := default s (eat 63 (* ? *) s).
Definition parse_quantifier (a : re) (s : jstr) : re * jstr :=
  match eat 42 (* * *) s, eat 43 (* + *) s, eat 63 (* ? *) s with
  | Some s, _, _ => (RStar a, skip_lazy s)
  | _, Some s, _ => (RSeq a (RStar a), skip_lazy s)
  | _, _, Some s => (RAlt a REmpty, skip_lazy s)
  | _, _, _ => (a, s)
  end.

Definition at_end (s : jstr) : bool :=
  match s with [] => true | c :: _ => (c =? 41 (* ) *))%N || (c =? 124 (* | *))%N end.

(** What an open parenthesis starts: a group, or with [?:] one that does not
    capture; other groups are refused. *)
Definition group_body (s : jstr) : option jstr :=
  match eat 63 s with Some s => eat 58 (* : *) s | None => Some s end.

(** [parse_alt] reads alternatives, [parse_seq] one of them, up to a closing
    parenthesis or the end. *)
Fixpoint parse_alt (fuel : nat) (s : jstr) : option (re * jstr) :=
  match fuel with
  | O => None
  | S fuel =>
      '(a, s) ← parse_seq fuel s;
      match eat 124 s with
      | Some s => '(b, s) ← parse_alt fuel s; Some (RAlt a b, s)
      | None => Some (a, s)
      end
  end
with parse_seq (fuel : nat) (s : jstr) : option (re * jstr) :=
  match fuel with
  | O => None
  | S fuel =>
      if at_end s then Some (REmpty, s)
      else '(a, s) ← parse_term fuel s; '(b, s) ← parse_seq fuel s; Some (RSeq a b, s)
  end
with parse_term (fuel : nat) (s : jstr) : option (re * jstr) :=
  match fuel, s with
  | S fuel, c :: s =>
      if (c =? 94 (* ^ *))%N then Some (RStart, s)
      else if (c =? 36 (* $ *))%N then Some (REnd, s)
      else if (c =? 46 (* . *))%N then Some (parse_quantifier RDot s)
      else if (c =? 91 (* [ *))%N then
        let '(negated, s) := match eat 94 s with Some s => (true, s) | None => (false, s) end in
        '(items, s) ← parse_class fuel s; Some (parse_quantifier (RSet negated items) s)
      else if (c =? 40 (* ( *))%N then
        body ← group_body s;
        '(a, s) ← parse_alt fuel body;
        s ← eat 41 s;
        Some (parse_quantifier a s)
      else if (c =? 92 (* backslash *))%N then
        match eat 98 (* b *) s, eat 66 (* B *) s with
        | Some s, _ => Some (RWordBoundary true, s)
        | _, Some s => Some (RWordBoundary false, s)
        | _, _ => '(i, s) ← parse_escape s; Some (parse_quantifier (RSet false [i]) s)
        end
      else if (c =? 42)%N || (c =? 43)%N || (c =? 63)%N then None
      else Some (parse_quantifier (lit c) s)
  | _, _ => None
  end.

(** [new RegExp(pattern)]; three levels of the grammar per unit are enough. *)
Definition parse_re (pattern : jstr) : option re :=
  match parse_alt (3 * length pattern + 3) pattern with
  | Some (r, []) => Some r
  | _ => None
  end.

(** [/pattern/.test(s)] for a pattern of the source. *)
Definition re_test (pattern s : jstr) : bool :=
  match parse_re pattern with Some r => test r s | None => false end.
