(* ===== verification/RegExpFacts.v ===== *)
(** * Facts about regular expressions

    The matcher computes exactly the meaning of a regular expression, and the fuel
    of the parser never runs out. *)

From S2P Require Import Prelude JsString RegExp.
From Stdlib Require Import Lia.

Set Default Goal Selector "!".

(** ** The matcher *)

(** A match stays where it is or moves on. *)
Lemma matches_moves r p q : matches r p q → q = p ∨ (length q.2 < length p.2)%nat.
Proof.
  induction 1; simpl in *; auto; try lia; try (right; simpl; lia).
  - destruct IHmatches1 as [->|]; [done|]. destruct IHmatches2 as [->|]; [by right|right; lia].
  - destruct IHmatches1 as [->|]; [done|]. destruct IHmatches2 as [->|]; [by right|right; lia].
Qed.

Lemma unit_ends_spec f p q :
  q ∈ unit_ends f p ↔ ∃ c, p.2 = c :: q.2 ∧ q.1 = Some c ∧ f c = true.
Proof.
  unfold unit_ends. destruct p as [o [|c s]], q as [o' s']; simpl.
  - split; [by intros ?%elem_of_nil|by intros (c & ? & _)].
  - destruct (f c) eqn:Hf.
    + rewrite list_elem_of_singleton. naive_solver.
    + split; [by intros ?%elem_of_nil|]. intros (c0 & [= <- <-] & _ & H). congruence.
Qed.

Lemma here_if_spec b p q : q ∈ here_if b p ↔ q = p ∧ b = true.
Proof.
  destruct b; simpl; [rewrite list_elem_of_singleton; naive_solver|].
  split; [by intros ?%elem_of_nil|naive_solver].
Qed.

Lemma elem_of_flat_map {A B} (f : A → list B) l y : y ∈ flat_map f l ↔ ∃ x, x ∈ l ∧ y ∈ f x.
Proof.
  rewrite list_elem_of_In, in_flat_map. by setoid_rewrite list_elem_of_In.
Qed.

Section star.
Variables (a : re) (f : pos → list pos).
Hypothesis f_spec : ∀ p q, q ∈ f p ↔ matches a p q.

Lemma star_ends_sound fuel p q : q ∈ star_ends f fuel p → matches (RStar a) p q.
Proof.
  revert p. induction fuel as [|fuel IH]; intros p; simpl.
  - intros ->%list_elem_of_singleton. constructor.
  - intros [->|H]%elem_of_cons; [constructor|].
    apply elem_of_flat_map in H as (x & Hx & Hq). case_match; [|set_solver].
    eapply m_round; [by apply f_spec|by apply IH].
Qed.

Lemma star_ends_complete p q : matches (RStar a) p q →
  ∀ fuel, (length p.2 ≤ fuel)%nat → q ∈ star_ends f fuel p.
Proof.
  intros H. remember (RStar a) as r eqn:Hr. induction H; simplify_eq.
  - intros [|fuel] _; simpl; set_solver.
  - intros fuel Hf. destruct (matches_moves _ _ _ H) as [->|Hlt]; [by apply IHmatches2|].
    destruct fuel as [|fuel]; [lia|]. simpl. apply elem_of_cons. right.
    apply elem_of_flat_map. exists q. split; [by apply f_spec|].
    rewrite (proj2 (Nat.ltb_lt _ _) Hlt). apply IHmatches2; [done|lia].
Qed.
End star.

(** The matcher finds exactly the positions where a match of the expression
    can end. *)
Theorem ends_spec r p q : q ∈ ends r p ↔ matches r p q.
Proof.
  revert p q. induction r; intros p q; simpl.
  - rewrite list_elem_of_singleton. split; [intros ->; constructor|by inversion 1].
  - rewrite unit_ends_spec. destruct p as [o l], q as [o' s]; simpl. split.
    + intros (c & -> & -> & H). by constructor.
    + inversion 1; subst. eauto.
  - rewrite unit_ends_spec. destruct p as [o l], q as [o' s]; simpl. split.
    + intros (c & -> & -> & H). apply negb_true_iff in H. by constructor.
    + inversion 1; subst. eexists. rewrite negb_true_iff. eauto.
  - rewrite here_if_spec, bool_decide_eq_true. destruct p as [o l]; simpl. split.
    + intros [-> ->]. constructor.
    + by inversion 1.
  - rewrite here_if_spec, bool_decide_eq_true. destruct p as [o l]; simpl. split.
    + intros [-> ->]. constructor.
    + by inversion 1.
  - rewrite here_if_spec, eqb_true_iff. split; [intros [-> ->]; by constructor|by inversion 1].
  - rewrite elem_of_flat_map. setoid_rewrite IHr1. setoid_rewrite IHr2.
    split; [intros (x & ? & ?); by eapply m_seq|inversion 1; subst; eauto].
  - rewrite elem_of_app, IHr1, IHr2. split; [intros [?|?]; by constructor|inversion 1; auto].
  - split; [by apply star_ends_sound|]. intros H. by eapply star_ends_complete.
Qed.

(** [test] looks for a match that starts anywhere in the subject. *)
Lemma positions_spec o s p : p ∈ positions o s ↔
  ∃ k, (k ≤ length s)%nat ∧ p.2 = drop k s ∧ p.1 = match k with O => o | S k => s !! k end.
Proof.
  revert o. induction s as [|c s IH]; intros o; simpl.
  - rewrite list_elem_of_singleton. split; [intros ->; by exists 0%nat|].
    intros ([|k] & Hk & H1 & H2); [|lia]. destruct p; simpl in *; congruence.
  - rewrite elem_of_cons, IH. split.
    + intros [->|(k & Hk & H1 & H2)]; [exists 0%nat; split; [lia|done]|].
      exists (S k). split; [lia|]. split; [done|]. by destruct k.
    + intros ([|k] & Hk & H1 & H2); [left; destruct p; simpl in *; congruence|].
      right. exists k. split; [lia|]. split; [done|]. by destruct k.
Qed.

Lemma test_spec r s : test r s = true ↔ ∃ p q, p ∈ positions None s ∧ matches r p q.
Proof.
  unfold test. rewrite existsb_exists. split.
  - intros (p & Hp & H). apply negb_true_iff, bool_decide_eq_false in H.
    destruct (ends r p) as [|q l] eqn:E; [done|]. exists p, q. rewrite list_elem_of_In.
    split; [done|]. apply ends_spec. rewrite E. set_solver.
  - intros (p & q & Hp & Hq). exists p. rewrite <- list_elem_of_In. split; [done|].
    apply negb_true_iff, bool_decide_eq_false. intros E. apply ends_spec in Hq.
    rewrite E in Hq. set_solver.
Qed.

(** ** The parser *)

Lemma hex_digits_length n s v r : hex_digits n s = Some (v, r) → (length r ≤ length s)%nat.
Proof.
  unfold hex_digits. case_bool_decide; [|done]. destruct (parse_nonempty _ _); [|done].
  intros [= _ <-]. rewrite length_drop. lia.
Qed.

Lemma parse_escape_length s i r : parse_escape s = Some (i, r) → (length r ≤ length s)%nat.
Proof.
  destruct s as [|c s]; [done|]. unfold parse_escape.
  repeat match goal with
  | |- (if ?b then _ else _) = _ → _ => destruct b
  | |- Some (_, _) = _ → _ => intros [= _ <-]; simpl; lia
  end.
  - destruct (hex_digits 2 s) as [[n r']|] eqn:E; intros [= _ <-]; [|simpl; lia].
    apply hex_digits_length in E. simpl. lia.
  - destruct (hex_digits 4 s) as [[n r']|] eqn:E; intros [= _ <-]; [|simpl; lia].
    apply hex_digits_length in E. simpl. lia.
  - destruct s as [|d [|e s']]; [intros [= _ <-]; simpl; lia|..];
      destruct (octal_digit d); try destruct (octal_digit e); simpl; intros [= _ <-]; simpl; lia.
  - destruct s as [|l s']; [intros [= _ <-]; simpl; lia|].
    destruct (ascii_letter l); intros [= _ <-]; simpl; lia.
Qed.

Lemma parse_class_atom_length s i r : parse_class_atom s = Some (i, r) → (length r < length s)%nat.
Proof.
  destruct s as [|c s]; [done|]. simpl. destruct (c =? 92)%N; [|intros [= _ <-]; simpl; lia].
  destruct s as [|b s]; [done|]. destruct (b =? 98)%N; [intros [= _ <-]; simpl; lia|].
  intros H%parse_escape_length. simpl in *. lia.
Qed.

Lemma eat_length c s r : eat c s = Some r → length s = S (length r).
Proof. destruct s as [|x s]; [done|]. simpl. case_match; [|done]. by intros [= <-]. Qed.

Lemma bind_Some_inv {A B} (o : option A) (f : A → option B) b :
  o ≫= f = Some b → ∃ a, o = Some a ∧ f a = Some b.
Proof. destruct o; naive_solver. Qed.

Lemma parse_class_length fuel s items r :
  parse_class fuel s = Some (items, r) → (length r < length s)%nat.
Proof.
  revert s items r. induction fuel as [|fuel IH]; intros s items r; [done|]. cbn [parse_class].
  destruct (eat 93 s) as [s1|] eqn:E1; [apply eat_length in E1; intros [= _ <-]; lia|].
  intros ([a s2] & Ha & H)%bind_Some_inv. apply parse_class_atom_length in Ha.
  destruct (eat 45 s2) as [s3|] eqn:E2.
  - apply eat_length in E2. destruct (eat 93 s3) as [s4|] eqn:E3.
    + apply eat_length in E3. injection H as _ <-. lia.
    + apply bind_Some_inv in H as ([b s4] & Hb & H). apply parse_class_atom_length in Hb.
      apply bind_Some_inv in H as ([l s5] & Hl & H). apply IH in Hl.
      apply bind_Some_inv in H as (range & _ & [= _ <-]). lia.
  - apply bind_Some_inv in H as ([l s3] & Hl & [= _ <-]). apply IH in Hl. lia.
Qed.

Lemma skip_lazy_length s : (length (skip_lazy s) ≤ length s)%nat.
Proof. unfold skip_lazy. destruct (eat 63 s) eqn:E; simpl; [apply eat_length in E|]; lia. Qed.

Lemma parse_quantifier_length a s : (length (parse_quantifier a s).2 ≤ length s)%nat.
Proof.
  unfold parse_quantifier.
  destruct (eat 42 s) eqn:E1, (eat 43 s) eqn:E2, (eat 63 s) eqn:E3; simpl; try lia;
    repeat match goal with H : eat _ _ = Some _ |- _ => apply eat_length in H end;
    match goal with |- (length (skip_lazy ?x) ≤ _)%nat => pose proof (skip_lazy_length x) end; lia.
Qed.

Lemma group_body_length s r : group_body s = Some r → (length r ≤ length s)%nat.
Proof.
  unfold group_body. destruct (eat 63 s) eqn:E; [|by intros [= <-]].
  apply eat_length in E. intros H%eat_length. lia.
Qed.

Lemma parse_length fuel :
  (∀ s a r, parse_alt fuel s = Some (a, r) → length r ≤ length s)%nat ∧
  (∀ s a r, parse_seq fuel s = Some (a, r) → length r ≤ length s)%nat ∧
  (∀ s a r, parse_term fuel s = Some (a, r) → length r < length s)%nat.
Proof.
  induction fuel as [|fuel (IHa & IHs & IHt)]; [done|]. split_and!; intros s a r H.
  - cbn [parse_alt] in H. apply bind_Some_inv in H as ([b s1] & H1 & H). apply IHs in H1.
    destruct (eat 124 s1) as [s2|] eqn:E; [|by injection H as _ <-].
    apply eat_length in E. apply bind_Some_inv in H as ([d s3] & H2 & [= _ <-]). apply IHa in H2. lia.
  - cbn [parse_seq] in H. destruct (at_end s); [by injection H as _ <-|].
    apply bind_Some_inv in H as ([b s1] & H1 & H). apply IHt in H1.
    apply bind_Some_inv in H as ([d s2] & H2 & [= _ <-]). apply IHs in H2. lia.
  - destruct s as [|c s]; [done|]. cbn [parse_term length] in *.
    assert (∀ b s', (length s' ≤ length s)%nat → Some (parse_quantifier b s') = Some (a, r) →
      (length r < S (length s))%nat) as Hq.
    { intros b s' Hs [= Hb]. pose proof (parse_quantifier_length b s'). rewrite Hb in *. simpl in *. lia. }
    repeat match type of H with (if ?b then _ else _) = _ => destruct b end.
    + injection H as _ <-. lia.
    + injection H as _ <-. lia.
    + by eapply Hq.
    + destruct (eat 94 s) as [s1|] eqn:E; [apply eat_length in E|];
        apply bind_Some_inv in H as ([items s2] & H1 & H); apply parse_class_length in H1;
        (eapply Hq; [|done]; lia).
    + apply bind_Some_inv in H as (body & H1 & H). apply group_body_length in H1.
      apply bind_Some_inv in H as ([b s2] & H2 & H). apply IHa in H2.
      apply bind_Some_inv in H as (s3 & H3 & H). apply eat_length in H3. eapply Hq; [|done]. lia.
    + destruct (eat 98 s) as [s1|] eqn:E1; [apply eat_length in E1; injection H as _ <-; lia|].
      destruct (eat 66 s) as [s1|] eqn:E2; [apply eat_length in E2; injection H as _ <-; lia|].
      apply bind_Some_inv in H as ([i s1] & H1 & H). apply parse_escape_length in H1.
      eapply Hq; [|done]. lia.
    + done.
    + by eapply Hq.
Qed.

(** Two fuels that are both enough give the same result. *)
Lemma bind_ext {A B} (o o' : option A) (f g : A → option B) :
  o = o' → (∀ a, o = Some a → f a = g a) → o ≫= f = o' ≫= g.
Proof. intros <- H. destruct o; simpl; auto. Qed.

Lemma parse_class_fuel n m s :
  (length s < n)%nat → (length s < m)%nat → parse_class n s = parse_class m s.
Proof.
  revert m s. induction n as [|n IH]; intros m s Hn Hm; [lia|]. destruct m as [|m]; [lia|].
  cbn [parse_class]. destruct (eat 93 s); [done|].
  apply bind_ext; [done|]. intros [a s1] Ha%parse_class_atom_length.
  destruct (eat 45 s1) as [s2|] eqn:E1.
  - apply eat_length in E1. destruct (eat 93 s2); [done|].
    apply bind_ext; [done|]. intros [b s3] Hb%parse_class_atom_length.
    apply bind_ext; [apply IH; lia|]. done.
  - apply bind_ext; [apply IH; lia|]. done.
Qed.

Lemma parse_fuel n :
  (∀ m s, 3 * length s + 3 ≤ n → 3 * length s + 3 ≤ m → parse_alt n s = parse_alt m s)%nat ∧
  (∀ m s, 3 * length s + 2 ≤ n → 3 * length s + 2 ≤ m → parse_seq n s = parse_seq m s)%nat ∧
  (∀ m s, 3 * length s + 1 ≤ n → 3 * length s + 1 ≤ m → parse_term n s = parse_term m s)%nat.
Proof.
  induction n as [|n (IHa & IHs & IHt)]; [split_and!; intros; lia|].
  split_and!; intros [|m] s Hn Hm; try lia.
  - cbn [parse_alt]. apply bind_ext; [apply IHs; lia|]. intros [a s1] H1.
    apply parse_length in H1. destruct (eat 124 s1) as [s2|] eqn:E; [|done].
    apply eat_length in E. apply bind_ext; [apply IHa; lia|]. done.
  - cbn [parse_seq]. destruct (at_end s); [done|].
    apply bind_ext; [apply IHt; lia|]. intros [a s1] H1. apply parse_length in H1.
    apply bind_ext; [apply IHs; lia|]. done.
  - destruct s as [|c s]; [done|]. cbn [parse_term length] in *.
    repeat match goal with |- (if ?b then _ else _) = _ => destruct b; [try done|] end; try done.
    + destruct (eat 94 s) as [s1|] eqn:E; [apply eat_length in E|];
        (apply bind_ext; [apply parse_class_fuel; lia|done]).
    + apply bind_ext; [done|]. intros body H%group_body_length.
      apply bind_ext; [apply IHa; lia|]. done.
Qed.

(** The parser's verdict does not depend on its fuel: any fuel beyond the one it
    is given reads the same expression, or refuses the pattern for its syntax. *)
Theorem parse_re_total fuel pattern (H : (3 * length pattern + 3 ≤ fuel)%nat) :
  parse_re pattern = match parse_alt fuel pattern with Some (r, []) => Some r | _ => None end.
Proof. unfold parse_re. by rewrite (proj1 (parse_fuel _) fuel pattern (le_n _) H). Qed.

Lemma parse_re_total_witness :
  (3 * length (js "a(?:b|[^c-e]*)+$") + 3 ≤ 100)%nat ∧
  is_Some (parse_re (js "a(?:b|[^c-e]*)+$")) ∧
  parse_re (js "a(?:b|[^c-e]*)+$")
    = match parse_alt 100 (js "a(?:b|[^c-e]*)+$") with Some (r, []) => Some r | _ => None end.
Proof.
  assert (3 * length (js "a(?:b|[^c-e]*)+$") + 3 ≤ 100)%nat as H by (vm_compute; lia).
  split; [exact H|]. split; [vm_compute; by eexists|]. exact (parse_re_total 100 _ H).
Defined.
