(* ===== verification/ExecPolicy.v ===== *)
(** * The execution policy

    packages/execpolicy/src/index.ts: the canonical form of a shell command, the
    rules and their validation, the built-in rules, and the decision for a command
    and for a network address. [new URL] of the platform and the text of a
    [SyntaxError] are arguments. Paths are POSIX paths. *)

From S2P Require Import Prelude JsMap JsString Json RegExp PosixPath.
From Stdlib Require Import Lia.

Set Default Goal Selector "!".

(** ** Data *)

Inductive ExecPolicyDecision := Allow | Prompt | Forbid.
Inductive ExecPolicyLayer := Managed | Workspace | User | SessionLayer | Base.
Inductive ExecPolicyRuleKind := PrefixRule | Exact | RegexLite | Network.
#[export] Instance ExecPolicyDecision_eq_dec : EqDecision ExecPolicyDecision.
Proof. solve_decision. Defined.
#[export] Instance ExecPolicyLayer_eq_dec : EqDecision ExecPolicyLayer.
Proof. solve_decision. Defined.
#[export] Instance ExecPolicyRuleKind_eq_dec : EqDecision ExecPolicyRuleKind.
Proof. solve_decision. Defined.

(** [string[] | string]. *)
Inductive Pattern := Words (l : list jstr) | Text (s : jstr).

Record ExecPolicyRule := {
  r_id : jstr; r_kind : ExecPolicyRuleKind; r_decision : ExecPolicyDecision; r_pattern : Pattern;
  r_layer : ExecPolicyLayer; r_description : option jstr;
}.

Record CanonicalCommand := {
  cc_raw : jstr; cc_argv : list jstr; cc_display : jstr; cc_ambiguous : bool;
  cc_reasons : list jstr; cc_segments : list (list jstr);
}.

Inductive TraceStage := StageCanonicalize | StageRule | StageDefault.
Record ExecPolicyTraceStep := {
  ts_stage : TraceStage; ts_ruleId : option jstr; ts_layer : option ExecPolicyLayer;
  ts_decision : option ExecPolicyDecision; ts_detail : jstr;
}.

Record ExecPolicyResult := {
  er_decision : ExecPolicyDecision; er_canonical : CanonicalCommand;
  er_matchedRules : list ExecPolicyRule; er_trace : list ExecPolicyTraceStep;
}.
Record ExecPolicyNetworkResult := {
  en_decision : ExecPolicyDecision; en_url : jstr; en_hostname : jstr;
  en_matchedRules : list ExecPolicyRule; en_trace : list ExecPolicyTraceStep;
}.

Definition decision_rank (d : ExecPolicyDecision) : Z :=
  match d with Allow => 0 | Prompt => 1 | Forbid => 2 end.

Definition decision_name (d : ExecPolicyDecision) : jstr :=
  match d with Allow => js "allow" | Prompt => js "prompt" | Forbid => js "forbid" end.
Definition layer_name (l : ExecPolicyLayer) : jstr :=
  match l with
  | Managed => js "managed" | Workspace => js "workspace" | User => js "user"
  | SessionLayer => js "session" | Base => js "base"
  end.
Definition kind_name (k : ExecPolicyRuleKind) : jstr :=
  match k with
  | PrefixRule => js "prefix_rule" | Exact => js "exact" | RegexLite => js "regex-lite"
  | Network => js "network"
  end.

Definition rule (id : string) (k : ExecPolicyRuleKind) (d : ExecPolicyDecision) (p : Pattern) : ExecPolicyRule :=
  {| r_id := js id; r_kind := k; r_decision := d; r_pattern := p; r_layer := Base; r_description := None |}.

Definition words (l : list string) : Pattern := Words (map js l).

Definition CURATED_BASE_POLICY : list ExecPolicyRule := [
  rule "base-rg" PrefixRule Allow (words ["rg"%string]);
  rule "base-pwd" Exact Allow (words ["pwd"%string]);
  rule "base-git-status" PrefixRule Allow (words ["git"; "status"]%string);
  rule "base-git-diff" PrefixRule Allow (words ["git"; "diff"]%string);
  rule "base-git-log" PrefixRule Allow (words ["git"; "log"]%string);
  rule "base-git-show" PrefixRule Allow (words ["git"; "show"]%string);
  rule "base-git-branch-current" Exact Allow (words ["git"; "branch"; "--show-current"]%string);
  rule "base-gh-pr-create" PrefixRule Prompt (words ["gh"; "pr"; "create"]%string);
  rule "base-gh-pr-comment" PrefixRule Prompt (words ["gh"; "pr"; "comment"]%string);
  rule "base-gh-api" PrefixRule Prompt (words ["gh"; "api"]%string);
  rule "base-gh-pr-merge" PrefixRule Forbid (words ["gh"; "pr"; "merge"]%string);
  rule "base-gh-api-pr-merge" RegexLite Forbid (Text (js "gh\s+api\s+.*pulls/[^\s]+/merge(?:\s|$)"));
  rule "base-gh-api-graphql-merge" RegexLite Forbid (Text (js "gh\s+api\s+graphql\s+.*mergePullRequest"));
  rule "base-sudo" PrefixRule Forbid (words ["sudo"%string]);
  rule "base-doas" PrefixRule Forbid (words ["doas"%string]);
  rule "base-rm-root" RegexLite Forbid
    (Text (js "rm\s+(?:-[A-Za-z]*r[A-Za-z]*f[A-Za-z]*|-[A-Za-z]*f[A-Za-z]*r[A-Za-z]*)\s+/(?:\s|$)"));
  rule "base-git-reset-hard" PrefixRule Forbid (words ["git"; "reset"; "--hard"]%string);
  rule "base-git-clean-force" RegexLite Forbid (Text (js "git\s+clean\s+-[^\s]*f"));
  rule "base-system-power" RegexLite Forbid (Text (js "(?:shutdown|reboot|halt|poweroff)(?:\s|$)"));
  rule "base-filesystem-format" RegexLite Forbid
    (Text (js "(?:mkfs(?:\.[A-Za-z0-9_-]+)?|diskutil\s+erase|format)(?:\s|$)"))].

(** ** Tokens of a command *)

Definition SQ : N := 39%N.  (* single quote *)
Definition DQ : N := 34%N.  (* double quote *)
Definition BSL : N := 92%N. (* backslash *)

(** The state of the tokenizer. *)
Record Tokenizer := {
  tz_tokens : list jstr; tz_reasons : list jstr; tz_current : jstr; tz_quote : option N;
  tz_escaping : bool;
}.

Definition tz_start : Tokenizer :=
  {| tz_tokens := []; tz_reasons := []; tz_current := []; tz_quote := None; tz_escaping := false |}.

Definition tz_push (t : Tokenizer) : Tokenizer :=
  {| tz_tokens := if truthy (tz_current t) then tz_tokens t ++ [tz_current t] else tz_tokens t;
     tz_reasons := tz_reasons t; tz_current := []; tz_quote := tz_quote t; tz_escaping := tz_escaping t |}.
Definition tz_token (x : jstr) (t : Tokenizer) : Tokenizer :=
  {| tz_tokens := tz_tokens t ++ [x]; tz_reasons := tz_reasons t; tz_current := tz_current t;
     tz_quote := tz_quote t; tz_escaping := tz_escaping t |}.
Definition tz_reason (x : jstr) (t : Tokenizer) : Tokenizer :=
  {| tz_tokens := tz_tokens t; tz_reasons := tz_reasons t ++ [x]; tz_current := tz_current t;
     tz_quote := tz_quote t; tz_escaping := tz_escaping t |}.
Definition tz_char (c : N) (t : Tokenizer) : Tokenizer :=
  {| tz_tokens := tz_tokens t; tz_reasons := tz_reasons t; tz_current := tz_current t ++ [c];
     tz_quote := tz_quote t; tz_escaping := false |}.
Definition tz_set (quote : option N) (escaping : bool) (t : Tokenizer) : Tokenizer :=
  {| tz_tokens := tz_tokens t; tz_reasons := tz_reasons t; tz_current := tz_current t;
     tz_quote := quote; tz_escaping := escaping |}.

Definition is_expansion (c : N) : bool := ((c =? 36) || (c =? 96))%N.      (* $ and backquote *)
Definition is_operator_char (c : N) : bool := ((c =? 59) || (c =? 124) || (c =? 38) || (c =? 10))%N. (* ; | & newline *)
Definition is_double (c d : N) : bool := ((c =? 38) && (d =? 38) || (c =? 124) && (d =? 124))%N.

(** A unit that is not the first of [&&] or [||]. *)
Definition tz_step (c : N) (t : Tokenizer) : Tokenizer :=
  if tz_escaping t then tz_char c t
  else if (c =? BSL)%N && negb (bool_decide (tz_quote t = Some SQ)) then tz_set (tz_quote t) true t
  else match tz_quote t with
       | Some q =>
           if (c =? q)%N then tz_set None false t
           else let t' := tz_char c t in
                if (q =? DQ)%N && is_expansion c then tz_reason (js "shell expansion") t' else t'
       | None =>
           if (c =? SQ)%N || (c =? DQ)%N then tz_set (Some c) false t
           else if is_operator_char c then tz_token [c] (tz_push t)
           else if is_expansion c then tz_char c (tz_reason (js "shell expansion") t)
           else if is_ws c then tz_push t
           else tz_char c t
       end.

(** Whether the tokenizer looks at pairs: outside quotes and escapes. *)
Definition tz_plain (t : Tokenizer) : bool := negb (tz_escaping t) && bool_decide (tz_quote t = None).

Fixpoint tz_run (s : jstr) (t : Tokenizer) : Tokenizer :=
  match s with
  | [] => t
  | c :: rest =>
      match rest with
      | d :: rest' =>
          if tz_plain t && is_double c d then tz_run rest' (tz_token [c; d] (tz_push t))
          else tz_run rest (tz_step c t)
      | [] => tz_step c t
      end
  end.

Definition tz_finish (t : Tokenizer) : Tokenizer :=
  let t := match tz_quote t with Some _ => tz_reason (js "unterminated quote") t | None => t end in
  let t := if tz_escaping t then tz_reason (js "trailing escape") t else t in
  tz_push t.

Definition shellTokens (input : jstr) : list jstr * list jstr :=
  let t := tz_finish (tz_run input tz_start) in (tz_tokens t, tz_reasons t).

(** ** Segments *)

Definition OPERATORS : list jstr :=
  [js ";"; js "&&"; js "||"; js "|"; js "&"; [NL]].

(** The segments between operators, the last one being filled. *)
Fixpoint split_segments (tokens : list jstr) (current : list jstr) : list (list jstr) :=
  match tokens with
  | [] => [current]
  | t :: ts => if bool_decide (t ∈ OPERATORS) then current :: split_segments ts []
               else split_segments ts (current ++ [t])
  end.

Definition nonempty {A} (l : list A) : bool := match l with [] => false | _ => true end.

Definition splitSegments (tokens : list jstr) : list (list jstr) :=
  List.filter nonempty (split_segments tokens []).

(** [basename] of node:path. *)
Definition basename (path : jstr) : jstr :=
  List.last (split_on slash (reverse (strip_slashes (reverse path)))) [].

Definition is_assignment (s : jstr) : bool := re_test (js "^[A-Za-z_][A-Za-z0-9_]*=") s.

Fixpoint drop_while {A} (p : A → bool) (l : list A) : list A :=
  match l with x :: l' => if p x then drop_while p l' else l | [] => [] end.

Definition normalizeArgv (input : list jstr) : list jstr :=
  let argv := drop_while is_assignment input in
  let argv := match argv with
              | cmd :: rest => if bool_decide (cmd = js "env")
                               then drop_while (λ x, is_assignment x || bool_decide (x = js "-i")) rest
                               else argv
              | [] => []
              end in
  match argv with
  | cmd :: rest => if truthy cmd then basename cmd :: rest else argv
  | [] => []
  end.

Definition displayToken (value : jstr) : jstr :=
  if re_test (js "^[A-Za-z0-9_./:@%+=,-]+$") value then value else quote value.

Definition display_argv (argv : list jstr) : jstr := join (js " ") (map displayToken argv).

(** ** Flags *)

Definition SAFE_FLAGS : list (jstr * jstr) := [
  (js "git status", js "^(?:-s|-b|--short|--branch|--porcelain(?:=v[12])?|--show-stash|--ahead-behind|--no-ahead-behind|--untracked-files(?:=(?:no|normal|all))?|--ignored(?:=(?:traditional|matching|no))?|--column(?:=.*)?|--no-column|-z)$");
  (js "git diff", js "^(?:--cached|--staged|--stat|--numstat|--shortstat|--dirstat(?:=.*)?|--summary|--name-only|--name-status|--check|--color(?:=.*)?|--no-color|--word-diff(?:=.*)?|--no-renames|--find-renames(?:=.*)?|--relative(?:=.*)?|--src-prefix=.*|--dst-prefix=.*|--line-prefix=.*|-U\d+|--unified=\d+)$");
  (js "git log", js "^(?:--oneline|--decorate(?:=.*)?|--graph|--stat|--shortstat|--name-only|--name-status|--no-merges|--merges|--first-parent|--all|--branches(?:=.*)?|--tags(?:=.*)?|--remotes(?:=.*)?|--since=.*|--until=.*|--author=.*|--grep=.*|-n\d+|--max-count=\d+|--skip=\d+|--format=.*|--pretty(?:=.*)?)$");
  (js "git show", js "^(?:--stat|--shortstat|--summary|--name-only|--name-status|--format=.*|--pretty(?:=.*)?|--oneline|--decorate(?:=.*)?|--color(?:=.*)?|--no-color|-U\d+|--unified=\d+)$");
  (js "rg", js "^(?:-i|-s|-S|-F|-w|-x|-v|-l|-L|-c|--count-matches|-n|-N|--column|--heading|--no-heading|-H|-h|--hidden|--no-ignore|--glob=.*|-g|--type=.*|-t|--type-not=.*|-T|--max-count=\d+|-m|--max-depth=\d+|--files|--files-with-matches|--files-without-match|--json|--stats|--sort=.*|--sortr=.*|--color(?:=.*)?|--colors=.*|-A\d+|-B\d+|-C\d+|--after-context=\d+|--before-context=\d+|--context=\d+|--)$")].

(** What every object inherits: a lookup of these keys finds a function or an
    object that has no [test] method. *)
Definition OBJECT_PROTOTYPE : list jstr := map js
  ["constructor"; "__defineGetter__"; "__defineSetter__"; "hasOwnProperty"; "__lookupGetter__";
   "__lookupSetter__"; "isPrototypeOf"; "propertyIsEnumerable"; "toString"; "valueOf";
   "__proto__"; "toLocaleString"]%string.

Definition DASH : N := 45%N.

(** The loop over the arguments, for a way to test a flag. *)
Fixpoint flag_loop (safe : jstr → result jstr bool) (argv : list jstr) : result jstr (list jstr) :=
  match argv with
  | [] => Ok []
  | candidate :: argv =>
      if bool_decide (candidate = js "--") then Ok []
      else if negb (starts_with [DASH] candidate) then flag_loop safe argv
      else
        let! ok := safe candidate in
        let! rest := flag_loop safe argv in
        Ok (if ok : bool then rest
            else (js "unknown or execution-affecting flag " ++ candidate) :: rest)
  end.

Definition flagReasons (argv : list jstr) : result jstr (list jstr) :=
  match argv with
  | [] => Ok []
  | cmd :: rest =>
      let key := if bool_decide (cmd = js "git")
                 then match rest with sub :: _ => if truthy sub then js "git " ++ sub else cmd | [] => cmd end
                 else cmd in
      let args := if starts_with (js "git ") key then drop 1 rest else rest in
      match map_get key SAFE_FLAGS with
      | Some pattern => flag_loop (λ x, Ok (re_test pattern x)) args
      | None => if bool_decide (key ∈ OBJECT_PROTOTYPE)
                then flag_loop (λ _, Err (js "safe.test is not a function")) args
                else Ok []
      end
  end.

Fixpoint concat_reasons (segments : list (list jstr)) : result jstr (list jstr) :=
  match segments with
  | [] => Ok []
  | s :: segments => let! r := flagReasons s in let! rest := concat_reasons segments in Ok (r ++ rest)
  end.

(** ** The canonical form *)

Definition is_shell (argv : list jstr) : bool :=
  match argv with
  | cmd :: flag :: _ => bool_decide (cmd ∈ [js "bash"; js "sh"; js "zsh"])
                        && bool_decide (flag ∈ [js "-lc"; js "-c"])
  | _ => false
  end.

(** [None] when the fuel runs out, which one more than the length rules out. *)
Fixpoint canonicalize (fuel : nat) (raw : jstr) : option (result jstr CanonicalCommand) :=
  match fuel with
  | O => None
  | S fuel =>
      let '(tokens, tokenReasons) := shellTokens raw in
      let segments := splitSegments tokens in
      let reasons := tokenReasons ++ (if (1 <? length segments)%nat then [js "compound shell operators"] else []) in
      let segments := List.filter nonempty (map normalizeArgv segments) in
      let argv := default [] (head segments) in
      let finish argv segments reasons : result jstr CanonicalCommand :=
        let! flags := concat_reasons segments in
        let reasons := reasons ++ flags in
        Ok {| cc_raw := raw; cc_argv := argv; cc_display := display_argv argv;
              cc_ambiguous := nonempty reasons; cc_reasons := set_of_list reasons;
              cc_segments := segments |} in
      if is_shell argv then
        let reasons := reasons ++ (if (length argv =? 3)%nat then [] else [js "shell body has positional arguments"]) in
        match canonicalize fuel (default [] (argv !! 2%nat)) with
        | None => None
        | Some (Err e) => Some (Err e)
        | Some (Ok nested) => Some (finish (cc_argv nested) (cc_segments nested) (reasons ++ cc_reasons nested))
        end
      else Some (finish argv segments reasons)
  end.

Definition canonicalizeCommand (raw : jstr) : result jstr CanonicalCommand :=
  default (Err []) (canonicalize (S (length raw)) raw).

(** ** Rules *)

(** The objects that come from files, databases and callers are JSON. *)
Definition pattern_json (p : Pattern) : json :=
  match p with Words l => JArr (map JStr l) | Text s => JStr s end.
Definition rule_json (r : ExecPolicyRule) : json :=
  JObj ([(js "id", JStr (r_id r)); (js "kind", JStr (kind_name (r_kind r)));
         (js "decision", JStr (decision_name (r_decision r))); (js "pattern", pattern_json (r_pattern r));
         (js "layer", JStr (layer_name (r_layer r)))]
        ++ match r_description r with Some d => [(js "description", JStr d)] | None => [] end).

Definition asObject (v : json) : list (jstr * json) := match v with JObj l => l | _ => [] end.

Definition stringField (o : list (jstr * json)) (key : jstr) : result jstr jstr :=
  match map_get key o with
  | Some (JStr s) => if truthy s then Ok s else Err (key ++ js " must be a non-empty string")
  | _ => Err (key ++ js " must be a non-empty string")
  end.

(** [enumField], for values given with their names. *)
Definition enumField {A} (o : list (jstr * json)) (key : jstr) (name : A → jstr) (values : list A)
    : result jstr A :=
  let failure := Err (key ++ js " must be one of " ++ join (js ", ") (map name values)) in
  match map_get key o with
  | Some (JStr s) => match find_first (λ a, bool_decide (name a = s)) values with
                     | Some a => Ok a
                     | None => failure
                     end
  | _ => failure
  end.

Section engine.
(** The text of a [SyntaxError], and [new URL] with its [toString] and [hostname]. *)
Variables (syntax_error : jstr → jstr) (parseUrl : jstr → result jstr (jstr * jstr)).

Definition compileRegexLite (pattern : jstr) : result jstr re :=
  if (500 <? length pattern)%nat || re_test (js "\(\?[=!<]|\\[1-9]|\{\d|\(\?>") pattern
  then Err (js "regex-lite forbids lookaround, backreferences, atomic groups, and counted repetition")
  else match parse_re (js "^(?:" ++ pattern ++ js ")") with
       | Some r => Ok r
       | None => Err (js "invalid regex-lite: " ++ syntax_error pattern)
       end.

Definition string_items (l : list json) : option (list jstr) :=
  mapM (λ j, match j with JStr s => if truthy s then Some s else None | _ => None end) l.

(** Letters of both cases stand for the flag [i]. *)
Definition network_pattern_ok (s : jstr) : bool :=
  re_test (js "^(?:\*\.)?[A-Za-z0-9](?:[A-Za-z0-9.-]*[A-Za-z0-9])?$") s.

Definition validatePattern (id : jstr) (kind : ExecPolicyRuleKind) (pattern : option json)
    : result jstr Pattern :=
  match kind with
  | PrefixRule | Exact =>
      let failure := Err (id ++ js ": " ++ kind_name kind ++ js " pattern must be a non-empty string array") in
      match pattern with
      | Some (JArr (x :: l)) => match string_items (x :: l) with Some ws => Ok (Words ws) | None => failure end
      | _ => failure
      end
  | RegexLite | Network =>
      match pattern with
      | Some (JStr s) =>
          if truthy (trim s) then
            match kind with
            | RegexLite => let! _ := compileRegexLite s in Ok (Text s)
            | _ => if network_pattern_ok s then Ok (Text s)
                   else Err (id ++ js ": network pattern must be an exact domain or wildcard subdomain")
            end
          else Err (id ++ js ": " ++ kind_name kind ++ js " pattern must be a string")
      | _ => Err (id ++ js ": " ++ kind_name kind ++ js " pattern must be a string")
      end
  end.

Definition validateRule (value : json) : result jstr ExecPolicyRule :=
  let o := asObject value in
  let! id := stringField o (js "id") in
  let! kind := enumField o (js "kind") kind_name [PrefixRule; Exact; RegexLite; Network] in
  let! decision := enumField o (js "decision") decision_name [Allow; Prompt; Forbid] in
  let! layer := enumField o (js "layer") layer_name [Managed; Workspace; User; SessionLayer; Base] in
  let! pattern := validatePattern id kind (map_get (js "pattern") o) in
  Ok {| r_id := id; r_kind := kind; r_decision := decision; r_pattern := pattern; r_layer := layer;
        r_description := match map_get (js "description") o with Some (JStr d) => Some d | _ => None end |}.

Fixpoint validate_loop (seen : list jstr) (rules : list json) : result jstr (list ExecPolicyRule) :=
  match rules with
  | [] => Ok []
  | candidate :: rules =>
      let! validated := validateRule candidate in
      if set_has (r_id validated) seen
      then Err (js "duplicate execpolicy rule id: " ++ r_id validated)
      else let! rest := validate_loop (set_add (r_id validated) seen) rules in Ok (validated :: rest)
  end.

Definition validateRules (rules : list json) : result jstr (list ExecPolicyRule) := validate_loop [] rules.

(** ** Matching *)

Fixpoint startsWith (value prefix : list jstr) : bool :=
  match prefix, value with
  | [], _ => true
  | p :: prefix, v :: value => bool_decide (v = p) && startsWith value prefix
  | _ :: _, [] => false
  end.
Definition arraysEqual (left right : list jstr) : bool :=
  (length left =? length right)%nat && startsWith left right.

Definition pattern_words (p : Pattern) : list jstr := match p with Words l => l | Text _ => [] end.
Definition pattern_text (p : Pattern) : jstr := match p with Text s => s | Words _ => [] end.

Definition command_segments (c : CanonicalCommand) : list (list jstr) :=
  if nonempty (cc_segments c) then cc_segments c else [cc_argv c].

Definition matchesRule (r : ExecPolicyRule) (command : CanonicalCommand) : result jstr bool :=
  let segments := command_segments command in
  match r_kind r with
  | Network => Ok false
  | Exact => Ok (existsb (λ argv, arraysEqual argv (pattern_words (r_pattern r))) segments)
  | PrefixRule => Ok (existsb (λ argv, startsWith argv (pattern_words (r_pattern r))) segments)
  | RegexLite =>
      let! e := compileRegexLite (pattern_text (r_pattern r)) in
      Ok (existsb (λ argv, test e (display_argv argv)) segments)
  end.

Fixpoint filter_rules (rules : list ExecPolicyRule) (command : CanonicalCommand)
    : result jstr (list ExecPolicyRule) :=
  match rules with
  | [] => Ok []
  | r :: rules =>
      let! m := matchesRule r command in
      let! rest := filter_rules rules command in
      Ok (if m : bool then r :: rest else rest)
  end.

Definition stricter (strictest current : ExecPolicyDecision) : ExecPolicyDecision :=
  if (decision_rank strictest <? decision_rank current)%Z then current else strictest.
Definition strictest (rules : list ExecPolicyRule) : ExecPolicyDecision :=
  fold_left (λ d r, stricter d (r_decision r)) rules Allow.

(** [new ExecPolicyEngine(rules)]. *)
Definition engine_rules (rules : list json) : result jstr (list ExecPolicyRule) :=
  validateRules (map rule_json CURATED_BASE_POLICY ++ rules).

Definition rule_step (default_detail : ExecPolicyRule → jstr) (r : ExecPolicyRule) : ExecPolicyTraceStep :=
  {| ts_stage := StageRule; ts_ruleId := Some (r_id r); ts_layer := Some (r_layer r);
     ts_decision := Some (r_decision r);
     ts_detail := match r_description r with Some d => d | None => default_detail r end |}.
Definition default_step (d : ExecPolicyDecision) (detail : jstr) : ExecPolicyTraceStep :=
  {| ts_stage := StageDefault; ts_ruleId := None; ts_layer := None; ts_decision := Some d; ts_detail := detail |}.

Definition evaluate (rules : list ExecPolicyRule) (command : jstr) : result jstr ExecPolicyResult :=
  let! canonical := canonicalizeCommand command in
  let detail := or_str (cc_display canonical) (js "(empty)") ++
    (if cc_ambiguous canonical then js "; ambiguous: " ++ join (js ", ") (cc_reasons canonical) else []) in
  let first := {| ts_stage := StageCanonicalize; ts_ruleId := None; ts_layer := None;
                  ts_decision := None; ts_detail := detail |} in
  let! matched := filter_rules rules canonical in
  let trace := first :: map (rule_step (λ r, kind_name (r_kind r) ++ js " matched")) matched in
  let decision := if nonempty matched then strictest matched else Prompt in
  let '(decision, extra) :=
    if cc_ambiguous canonical && bool_decide (decision = Allow)
    then (Prompt, [default_step Prompt (js "Ambiguous shell syntax cannot be auto-allowed.")])
    else if negb (nonempty matched)
         then (decision, [default_step decision (js "No rule matched; prompt by default.")])
         else (decision, []) in
  Ok {| er_decision := decision; er_canonical := canonical; er_matchedRules := matched;
        er_trace := trace ++ extra |}.

(** ** Network rules *)

Definition lower_unit (c : N) : N := (if (65 <=? c) && (c <=? 90) then c + 32 else c)%N.
(** [toLowerCase] of host names and validated patterns, which are ASCII. *)
Definition toLowerCase (s : jstr) : jstr := map lower_unit s.
(** [replace(/\.$/, "")]. *)
Definition strip_dot (s : jstr) : jstr :=
  match reverse s with 46%N :: r => reverse r | _ => s end.

Definition domainPatternMatches (pattern hostname : jstr) : bool :=
  let normalized := strip_dot (toLowerCase (trim pattern)) in
  if starts_with (js "*.") normalized
  then ends_with (slice_from 1 normalized) hostname
       && (length normalized - 1 <? length hostname)%nat
  else bool_decide (hostname = normalized).

Definition is_network_match (hostname : jstr) (r : ExecPolicyRule) : bool :=
  bool_decide (r_kind r = Network) && domainPatternMatches (pattern_text (r_pattern r)) hostname.

Definition evaluateNetwork (rules : list ExecPolicyRule) (rawUrl : jstr) : result jstr ExecPolicyNetworkResult :=
  let! url := parseUrl rawUrl in
  let hostname := strip_dot (toLowerCase url.2) in
  let matched := List.filter (is_network_match hostname) rules in
  let trace := map (rule_step (λ _, js "network rule matched " ++ hostname)) matched in
  let decision := if nonempty matched then strictest matched else Prompt in
  let extra := if nonempty matched then []
               else [default_step decision (js "No network rule matched " ++ hostname ++ js "; prompt by default.")] in
  Ok {| en_decision := decision; en_url := url.1; en_hostname := hostname; en_matchedRules := matched;
        en_trace := trace ++ extra |}.

(** ** Loading *)

Record LoadedExecPolicy := { lp_rules : list ExecPolicyRule; lp_diagnostics : list jstr }.

(** [{ ...asObject(value), layer }]. *)
Definition with_layer (layer : ExecPolicyLayer) (value : json) : json :=
  JObj (map_set (js "layer") (JStr (layer_name layer)) (asObject value)).

Fixpoint validate_all (layer : ExecPolicyLayer) (l : list json) : result jstr (list ExecPolicyRule) :=
  match l with
  | [] => Ok []
  | v :: l => let! r := validateRule (with_layer layer v) in let! rest := validate_all layer l in Ok (r :: rest)
  end.

(** A rule file: [None] when it does not exist; its text, or the error of reading it. *)
Definition load_file (layer : ExecPolicyLayer) (file : result jstr jstr) : result jstr (list ExecPolicyRule) :=
  let! text := file in
  match json_parse text with
  | None => Err (syntax_error text)
  | Some JNull => Err (js "Cannot read properties of null (reading 'rules')")
  | Some root => match member (js "rules") root with
                 | Some (JArr l) => validate_all layer l
                 | _ => Err (js "rules must be an array")
                 end
  end.

Definition add_file (acc : LoadedExecPolicy) (source : jstr * ExecPolicyLayer * option (result jstr jstr))
    : LoadedExecPolicy :=
  let '(path, layer, file) := source in
  match file with
  | None => acc
  | Some file =>
      match load_file layer file with
      | Ok rules => {| lp_rules := lp_rules acc ++ rules; lp_diagnostics := lp_diagnostics acc |}
      | Err e => {| lp_rules := lp_rules acc;
                    lp_diagnostics := lp_diagnostics acc ++ [path ++ js ": " ++ e] |}
      end
  end.

Definition add_value (layer : ExecPolicyLayer) (acc : LoadedExecPolicy) (value : json) : LoadedExecPolicy :=
  match validateRule (with_layer layer value) with
  | Ok r => {| lp_rules := lp_rules acc ++ [r]; lp_diagnostics := lp_diagnostics acc |}
  | Err e => {| lp_rules := lp_rules acc;
                lp_diagnostics := lp_diagnostics acc ++ [layer_name layer ++ js ": " ++ e] |}
  end.

(** The user's file and the workspace's, with their paths. *)
Definition loadExecPolicy (user workspace : jstr * option (result jstr jstr))
    (managedRules sessionRules : list json) : LoadedExecPolicy :=
  let acc := {| lp_rules := []; lp_diagnostics := [] |} in
  let acc := add_file acc (user.1, User, user.2) in
  let acc := add_file acc (workspace.1, Workspace, workspace.2) in
  let acc := fold_left (add_value Managed) managedRules acc in
  fold_left (add_value SessionLayer) sessionRules acc.
End engine.
