(* ===== verification/ExecPolicyFacts.v ===== *)
(** * Facts about the execution policy

    Canonicalization ends, quoted words are read back, the strictest rule decides,
    a built-in prohibition is final, and only a plain command is allowed without a
    question. *)

From stdpp Require Import sorting.
From S2P Require Import Prelude JsMap JsString Json RegExp RegExpFacts PosixPath ExecPolicy.
From Stdlib Require Import Lia.

Set Default Goal Selector "!".

(** ** Canonicalization ends *)

Definition units (l : list jstr) : nat := sum_list_with length l.

Lemma units_app l k : units (l ++ k) = (units l + units k)%nat.
Proof. apply sum_list_with_app. Qed.

Lemma units_elem x l : x ∈ l → (length x ≤ units l)%nat.
Proof. induction 1; unfold units in *; simpl; lia. Qed.

Definition tz_units (t : Tokenizer) : nat := (units (tz_tokens t) + length (tz_current t))%nat.

Lemma tz_push_units t : tz_units (tz_push t) = tz_units t.
Proof.
  unfold tz_units, tz_push; simpl. destruct (tz_current t) as [|c s]; simpl; [done|].
  rewrite units_app. unfold units; simpl. lia.
Qed.
Lemma tz_token_units x t : tz_units (tz_token x t) = (tz_units t + length x)%nat.
Proof. unfold tz_units, tz_token; simpl. rewrite units_app. unfold units; simpl. lia. Qed.
Lemma tz_char_units c t : tz_units (tz_char c t) = S (tz_units t).
Proof. unfold tz_units, tz_char; simpl. rewrite length_app. simpl. lia. Qed.

Lemma tz_step_units c t : (tz_units (tz_step c t) ≤ S (tz_units t))%nat.
Proof.
  unfold tz_step. repeat case_match; rewrite ?tz_token_units, ?tz_push_units, ?tz_char_units;
    try (unfold tz_units, tz_set, tz_reason, tz_char; simpl; rewrite ?length_app; simpl; lia);
    simpl; lia.
Qed.

Lemma tz_run_units s t : (tz_units (tz_run s t) ≤ tz_units t + length s)%nat.
Proof.
  assert (∀ n s t, length s ≤ n → tz_units (tz_run s t) ≤ tz_units t + length s)%nat as H;
    [|by apply (H (length s))].
  clear s t. induction n as [|n IH]; intros [|c [|d s]] t Hn; simpl in *; try lia;
    try (pose proof (tz_step_units c t); lia).
  case_match.
  - etrans; [apply IH; lia|]. rewrite tz_token_units, tz_push_units. simpl. lia.
  - etrans; [apply (IH (d :: s)); simpl; lia|]. pose proof (tz_step_units c t). simpl. lia.
Qed.

Lemma shellTokens_units input : (units (shellTokens input).1 ≤ length input)%nat.
Proof.
  unfold shellTokens. cbn zeta. cbn [fst]. pose proof (tz_run_units input tz_start) as H.
  set (t := tz_run input tz_start) in *.
  assert (tz_units (tz_finish t) = tz_units t) as Hf.
  { unfold tz_finish. rewrite tz_push_units. by destruct t as [? ? ? [] []]. }
  change (tz_units tz_start) with 0%nat in H. unfold tz_units in Hf at 1. lia.
Qed.

Lemma split_segments_units tokens current :
  (sum_list_with units (split_segments tokens current) ≤ units tokens + units current)%nat.
Proof.
  revert current. induction tokens as [|t ts IH]; intros current; simpl; [lia|].
  unfold units at 2; simpl; fold (units ts). case_bool_decide; simpl.
  - pose proof (IH []). unfold units in *; simpl in *. lia.
  - etrans; [apply IH|]. rewrite units_app. unfold units; simpl. lia.
Qed.

Lemma filter_units (l : list (list jstr)) :
  (sum_list_with units (List.filter nonempty l) ≤ sum_list_with units l)%nat.
Proof. induction l as [|x l IH]; simpl; [lia|]. destruct (nonempty x); simpl; lia. Qed.

Lemma drop_while_units p l : (units (drop_while p l) ≤ units l)%nat.
Proof. induction l as [|x l IH]; simpl; [done|]. destruct (p x); unfold units in *; simpl; lia. Qed.

Lemma strip_slashes_length s : (length (strip_slashes s) ≤ length s)%nat.
Proof. induction s as [|c s IH]; simpl; [done|]. case_match; simpl; lia. Qed.

Lemma last_split_length c s : (length (List.last (split_on c s) []) ≤ length s)%nat.
Proof.
  induction s as [|x s IH]; [done|]. simpl. pose proof (split_on_not_nil c s) as Hn.
  destruct (x =? c)%N.
  - destruct (split_on c s) as [|l ls] eqn:E; [done|]. simpl in *. lia.
  - destruct (split_on c s) as [|l ls] eqn:E; [done|].
    destruct ls as [|l' ls]; simpl in *; lia.
Qed.

Lemma basename_length path : (length (basename path) ≤ length path)%nat.
Proof.
  unfold basename. etrans; [apply last_split_length|].
  rewrite length_reverse. etrans; [apply strip_slashes_length|]. by rewrite length_reverse.
Qed.

Lemma normalizeArgv_units input : (units (normalizeArgv input) ≤ units input)%nat.
Proof.
  unfold normalizeArgv. set (a := drop_while is_assignment input).
  assert (units a ≤ units input)%nat as Ha by apply drop_while_units.
  set (b := match a with [] => [] | _ => _ end).
  assert (units b ≤ units a)%nat as Hb.
  { subst b. destruct a as [|cmd rest]; [done|]. case_bool_decide; [|done].
    etrans; [apply drop_while_units|]. unfold units; simpl. lia. }
  destruct b as [|cmd rest]; [unfold units; simpl; lia|].
  destruct (truthy cmd); [|lia]. pose proof (basename_length cmd). unfold units in *; simpl in *. lia.
Qed.

Lemma command_argv_units raw :
  let segments := List.filter nonempty (map normalizeArgv (splitSegments (shellTokens raw).1)) in
  (units (default [] (head segments)) ≤ length raw)%nat.
Proof.
  intros segments.
  assert (sum_list_with units segments ≤ length raw)%nat as H.
  { subst segments. etrans; [apply filter_units|].
    etrans; [|apply shellTokens_units]. unfold splitSegments.
    transitivity (sum_list_with units (List.filter nonempty (split_segments (shellTokens raw).1 []))).
    - generalize (List.filter nonempty (split_segments (shellTokens raw).1 [])) as l.
      induction l as [|x l IH]; simpl; [done|]. pose proof (normalizeArgv_units x). lia.
    - etrans; [apply filter_units|]. etrans; [apply split_segments_units|]. unfold units; simpl; lia. }
  destruct segments as [|x l]; simpl in *; [unfold units; simpl; lia|lia].
Qed.

(** The body of a shell is shorter than the command that runs it. *)
Lemma shell_body_shorter argv : is_shell argv = true → (length (default [] (argv !! 2%nat)) < units argv)%nat.
Proof.
  destruct argv as [|cmd [|flag rest]]; [done..|]. simpl. intros [Hc _]%andb_true_iff.
  apply bool_decide_eq_true in Hc.
  assert (0 < length cmd)%nat by (destruct cmd; [by vm_compute in Hc; set_solver|simpl; lia]).
  unfold units; simpl. destruct rest as [|b rest]; simpl; lia.
Qed.

(** Canonicalization ends: whatever the nesting of shells in shells, as many
    unfoldings as the command has characters are enough. *)
Theorem canonicalize_total fuel raw (H : (length raw < fuel)%nat) :
  canonicalize fuel raw = Some (canonicalizeCommand raw).
Proof.
  assert (∀ n fuel raw, length raw < n → length raw < fuel →
    ∃ r, canonicalize n raw = Some r ∧ canonicalize fuel raw = Some r)%nat as Hind.
  { clear. induction n as [|n IH]; intros fuel raw Hn Hf; [lia|]. destruct fuel as [|fuel]; [lia|].
    cbn [canonicalize]. pose proof (command_argv_units raw) as Hu.
    destruct (shellTokens raw) as [tokens reasons]. cbn [fst] in Hu.
    set (argv := default [] _) in *. destruct (is_shell argv) eqn:Hs; [|by eexists].
    apply shell_body_shorter in Hs.
    edestruct (IH fuel (default [] (argv !! 2%nat))) as (r & -> & ->); [lia..|].
    destruct r; by eexists. }
  unfold canonicalizeCommand. destruct (Hind (S (length raw)) fuel raw) as (r & -> & ->); [lia..|]. done.
Qed.

Lemma canonicalize_total_witness :
  (length (js "bash -c 'sh -c pwd'") < 60)%nat ∧
  canonicalize 60 (js "bash -c 'sh -c pwd'") = Some (canonicalizeCommand (js "bash -c 'sh -c pwd'")).
Proof. split; [vm_compute; lia|]. apply (canonicalize_total 60). vm_compute. lia. Defined.

(** ** Quoted words *)

Definition shell_quote (w : jstr) : jstr := SQ :: w ++ [SQ].

Lemma tz_run_cons c s t : tz_plain t = false → tz_run (c :: s) t = tz_run s (tz_step c t).
Proof. intros H. destruct s as [|d s]; [done|]. cbn [tz_run]. by rewrite H. Qed.

(** Inside single quotes every unit but the quote is taken as it is. *)
Lemma tz_run_quoted w s t :
  tz_quote t = Some SQ → tz_escaping t = false → SQ ∉ w →
  tz_run (w ++ s) t = tz_run s {| tz_tokens := tz_tokens t; tz_reasons := tz_reasons t;
                                  tz_current := tz_current t ++ w; tz_quote := Some SQ; tz_escaping := false |}.
Proof.
  intros Hq He. revert t Hq He. induction w as [|c w IH]; intros t Hq He Hw; simpl app.
  - rewrite app_nil_r, <- Hq, <- He. by destruct t.
  - rewrite tz_run_cons by (unfold tz_plain; by rewrite Hq, andb_false_r).
    apply not_elem_of_cons in Hw as [Hc Hw].
    assert (tz_step c t = tz_char c t) as ->.
    { unfold tz_step. rewrite He, Hq. rewrite bool_decide_eq_true_2 by done. rewrite andb_false_r.
      destruct (N.eqb_spec c SQ); [done|]. done. }
    rewrite IH; simpl; [|done..]. by rewrite <- (assoc_L (++)).
Qed.

Lemma tz_run_word w s tokens :
  w ≠ [] → SQ ∉ w →
  tz_run (shell_quote w ++ s) {| tz_tokens := tokens; tz_reasons := []; tz_current := []; tz_quote := None; tz_escaping := false |}
  = tz_run s {| tz_tokens := tokens; tz_reasons := []; tz_current := w; tz_quote := None; tz_escaping := false |}.
Proof.
  intros Hne Hw. unfold shell_quote. destruct w as [|c w]; [done|].
  change ((SQ :: (c :: w) ++ [SQ]) ++ s) with (SQ :: (c :: w ++ [SQ]) ++ s).
  set (t := {| tz_tokens := tokens |}).
  assert (tz_run (SQ :: (c :: w ++ [SQ]) ++ s) t = tz_run ((c :: w ++ [SQ]) ++ s) (tz_set (Some SQ) false t)) as ->.
  { cbn [app tz_run]. by destruct ((w ++ [SQ]) ++ s). }
  replace ((c :: w ++ [SQ]) ++ s) with ((c :: w) ++ SQ :: s) by (simpl; by rewrite <- (assoc_L (++))).
  rewrite tz_run_quoted; [|done..]. rewrite tz_run_cons by done. done.
Qed.

(** Words in single quotes, separated by blanks, are read back as they are and
    raise no suspicion. *)
Theorem shellTokens_quoted ws (H : Forall (λ w, w ≠ [] ∧ SQ ∉ w) ws) :
  shellTokens (join (js " ") (map shell_quote ws)) = (ws, []).
Proof.
  assert (∀ tokens current, tz_finish (tz_run
      (match ws with [] => [] | _ => js " " ++ join (js " ") (map shell_quote ws) end)
      {| tz_tokens := tokens; tz_reasons := []; tz_current := current; tz_quote := None; tz_escaping := false |})
    = {| tz_tokens := tokens ++ (if truthy current then [current] else []) ++ ws; tz_reasons := [];
         tz_current := []; tz_quote := None; tz_escaping := false |}) as Hloop.
  { induction ws as [|w ws IH]; intros tokens current.
    - unfold tz_finish, tz_push; simpl. destruct current; by rewrite !app_nil_r.
    - apply Forall_cons in H as [[Hne Hw] H].
      assert (join (js " ") (map shell_quote (w :: ws)) = shell_quote w ++
        match ws with [] => [] | _ => js " " ++ join (js " ") (map shell_quote ws) end) as ->.
      { destruct ws; simpl; [by rewrite app_nil_r|done]. }
      change (js " " ++ ?x) with (32%N :: x).
      match goal with |- tz_finish (tz_run (32%N :: ?x) ?t) = _ =>
        assert (tz_run (32%N :: x) t = tz_run x (tz_push t)) as -> by (by destruct x) end.
      unfold tz_push; cbn [tz_tokens tz_reasons tz_current tz_quote tz_escaping].
      rewrite tz_run_word by done. rewrite (IH H).
      destruct w as [|c w]; [done|]. simpl. by destruct current; simpl; rewrite <- ?(assoc_L (++)). }
  unfold shellTokens. specialize (Hloop [] []). destruct ws as [|w ws]; [done|].
  assert (∀ x, tz_run (js " " ++ x) tz_start = tz_run x tz_start) as Hblank by (by intros [|d x]).
  unfold tz_start in Hblank. rewrite Hblank in Hloop. fold tz_start in Hloop. by rewrite Hloop.
Qed.

Lemma shellTokens_quoted_witness :
  Forall (λ w, w ≠ [] ∧ SQ ∉ w) [js "rg"; js "a  b"; js "$x && y"] ∧
  shellTokens (join (js " ") (map shell_quote [js "rg"; js "a  b"; js "$x && y"]))
    = ([js "rg"; js "a  b"; js "$x && y"], []).
Proof.
  assert (Forall (λ w, w ≠ [] ∧ SQ ∉ w) [js "rg"; js "a  b"; js "$x && y"]) as H.
  { apply (bool_decide_unpack _). vm_compute. exact I. }
  split; [exact H|]. exact (shellTokens_quoted _ H).
Defined.

(** ** The decision *)

Lemma stricter_rank d e : decision_rank (stricter d e) = Z.max (decision_rank d) (decision_rank e).
Proof. by destruct d, e. Qed.

Lemma strictest_from l d :
  decision_rank (fold_left (λ d r, stricter d (r_decision r)) l d)
  = fold_left (λ z r, Z.max z (decision_rank (r_decision r))) l (decision_rank d).
Proof. revert d. induction l as [|r l IH]; intros d; [done|]. simpl. by rewrite IH, stricter_rank. Qed.

Lemma strictest_spec l d :
  let e := fold_left (λ d r, stricter d (r_decision r)) l d in
  (decision_rank d ≤ decision_rank e)%Z ∧
  (∀ r, r ∈ l → decision_rank (r_decision r) ≤ decision_rank e)%Z ∧
  (e = d ∨ ∃ r, r ∈ l ∧ r_decision r = e).
Proof.
  revert d. induction l as [|r l IH]; intros d; simpl.
  - split; [lia|]. split; [by intros r ?%elem_of_nil|by left].
  - destruct (IH (stricter d (r_decision r))) as (H1 & H2 & H3). rewrite stricter_rank in H1.
    split; [lia|]. split.
    + intros x [->|Hx]%elem_of_cons; [lia|by apply H2].
    + destruct H3 as [H3|(x & Hx & H3)].
      * rewrite H3. unfold stricter. case_match; [right; exists r; set_solver|by left].
      * right. exists x. set_solver.
Qed.

Lemma strictest_forbid l : strictest l = Forbid ↔ ∃ r, r ∈ l ∧ r_decision r = Forbid.
Proof.
  unfold strictest. destruct (strictest_spec l Allow) as (_ & H2 & H3). split.
  - intros H. rewrite H in H3. destruct H3 as [|H3]; [done|exact H3].
  - intros (r & Hr & Hd). apply H2 in Hr. rewrite Hd in Hr.
    destruct (fold_left _ l Allow); simpl in Hr; [lia..|done].
Qed.
Lemma strictest_allow l : strictest l = Allow ↔ ∀ r, r ∈ l → r_decision r = Allow.
Proof.
  unfold strictest. destruct (strictest_spec l Allow) as (_ & H2 & H3). split.
  - intros H r Hr. apply H2 in Hr. rewrite H in Hr. destruct (r_decision r); simpl in Hr; [done|lia..].
  - intros H. destruct H3 as [|(r & Hr & H3)]; [done|]. rewrite <- H3. by apply H.
Qed.

(** The decision from the rules that match. *)
Lemma decision_forbid l ambiguous :
  (let d := if nonempty l then strictest l else Prompt in
   if ambiguous && bool_decide (d = Allow) then Prompt else d) = Forbid ↔ strictest l = Forbid.
Proof. destruct l as [|x l]; simpl; [by destruct ambiguous|]. by destruct ambiguous, (strictest (x :: l)). Qed.

Section engine.
Variables (syntax_error : jstr → jstr) (parseUrl : jstr → result jstr (jstr * jstr)).
Implicit Types (rules : list ExecPolicyRule).

Lemma filter_rules_elem rules c l :
  filter_rules syntax_error rules c = Ok l →
  ∀ r, r ∈ l ↔ r ∈ rules ∧ matchesRule syntax_error r c = Ok true.
Proof.
  revert l. induction rules as [|x rules IH]; intros l; simpl; [by intros [= <-] r; set_solver|].
  intros (m & Hm & H)%result_bind_ok. apply result_bind_ok in H as (rest & Hr & [= <-]).
  intros r. specialize (IH _ Hr r). destruct m; rewrite ?elem_of_cons, IH.
  - split; [intros [->|[]]; auto|intros [[->|] ?]; auto].
  - split; [intros []; auto|]. intros [[->|] ?]; [congruence|auto].
Qed.

Lemma evaluate_inv rules command r :
  evaluate syntax_error rules command = Ok r →
  canonicalizeCommand command = Ok (er_canonical r) ∧
  filter_rules syntax_error rules (er_canonical r) = Ok (er_matchedRules r) ∧
  let d := if nonempty (er_matchedRules r) then strictest (er_matchedRules r) else Prompt in
  er_decision r = if cc_ambiguous (er_canonical r) && bool_decide (d = Allow) then Prompt else d.
Proof.
  unfold evaluate. intros (c & Hc & H)%result_bind_ok. apply result_bind_ok in H as (l & Hl & H).
  destruct (cc_ambiguous c && _) eqn:Hamb; [|destruct (negb (nonempty l)) eqn:Hn]; injection H as <-;
    simpl; (split; [done|]); (split; [done|]); simpl; by rewrite Hamb.
Qed.

(** What an allowed command has: rules that match, no other verdict among them. *)
Lemma evaluate_allow rules command r :
  evaluate syntax_error rules command = Ok r →
  er_decision r = Allow ↔ cc_ambiguous (er_canonical r) = false ∧ er_matchedRules r ≠ []
       ∧ ∀ x, x ∈ er_matchedRules r → r_decision x = Allow.
Proof.
  intros (Hc & Hm & Hd)%evaluate_inv. cbn zeta in Hd. rewrite <- strictest_allow, Hd.
  destruct (er_matchedRules r) as [|x l]; simpl nonempty; cbn iota.
  - rewrite bool_decide_eq_false_2, andb_false_r by done. split; [done|]. by intros (_ & [] & _).
  - destruct (cc_ambiguous (er_canonical r)); simpl.
    + destruct (strictest (x :: l)); simpl; (split; [done|by intros [? _]]).
    + split; [done|by intros (_ & _ & ?)].
Qed.

(** What makes a canonical command unambiguous. *)
Lemma canonical_reasons fuel raw c :
  canonicalize fuel raw = Some (Ok c) → cc_ambiguous c = false →
  (shellTokens raw).2 = [] ∧ (length (splitSegments (shellTokens raw).1) ≤ 1)%nat.
Proof.
  destruct fuel as [|fuel]; [done|]. cbn [canonicalize].
  destruct (shellTokens raw) as [tokens reasons]. cbn [fst snd].
  set (base := reasons ++ _). intros H Ha.
  assert (base = []) as Hb.
  { set (argv := default [] _) in H. destruct (is_shell argv).
    - destruct (canonicalize fuel _) as [[n|e]|]; [|done|done]. injection H as H.
      apply result_bind_ok in H as (flags & _ & [= <-]). simpl in Ha.
      destruct base as [|x base]; [done|]. by simpl in Ha.
    - injection H as H. apply result_bind_ok in H as (flags & _ & [= <-]). simpl in Ha.
      destruct base as [|x base]; [done|]. by simpl in Ha. }
  subst base. apply app_eq_nil in Hb as [-> Hb]. split; [done|].
  destruct (1 <? length (splitSegments tokens))%nat eqn:E; [done|]. by apply Nat.ltb_ge in E.
Qed.

(** The words of a command are one of the segments the rules look at. *)
Lemma canonical_argv_segment fuel raw c :
  canonicalize fuel raw = Some (Ok c) → cc_argv c = default [] (head (cc_segments c)).
Proof.
  revert raw c. induction fuel as [|fuel IH]; intros raw c; [done|]. cbn [canonicalize].
  destruct (shellTokens raw) as [tokens reasons]. set (segments := List.filter _ _).
  destruct (is_shell _).
  - destruct (canonicalize fuel _) as [[n|e]|] eqn:E; [|done|done]. intros H. injection H as H.
    apply result_bind_ok in H as (flags & _ & H). injection H as <-. exact (IH _ _ E).
  - intros H. injection H as H. apply result_bind_ok in H as (flags & _ & H). injection H as <-. reflexivity.
Qed.

Lemma command_argv_matched raw c :
  canonicalizeCommand raw = Ok c → existsb (λ argv, arraysEqual argv (cc_argv c)) (command_segments c) = true.
Proof.
  unfold canonicalizeCommand. destruct (canonicalize _ raw) as [x|] eqn:E; [|done].
  simpl. intros ->. apply canonical_argv_segment in E. apply existsb_exists. exists (cc_argv c). split.
  - unfold command_segments. destruct (cc_segments c) as [|y l]; simpl; [by left|]. simpl in E. by left.
  - unfold arraysEqual. rewrite Nat.eqb_refl, andb_true_l. generalize (cc_argv c) as argv. clear.
    induction argv as [|w l IH]; [done|]. simpl. rewrite bool_decide_eq_true_2 by done. exact IH.
Qed.

(** The strictest matching rule decides: a command is forbidden exactly when a
    rule that matches forbids it, and allowed without a question exactly when some
    rule matches, all that match allow it and nothing about it is ambiguous; an
    allowed command has one segment, and no expansion or open quote. *)
Theorem evaluate_decision rules command r (H : evaluate syntax_error rules command = Ok r) :
  (∀ x, x ∈ er_matchedRules r ↔ x ∈ rules ∧ matchesRule syntax_error x (er_canonical r) = Ok true)
  ∧ (er_decision r = Forbid ↔ ∃ x, x ∈ er_matchedRules r ∧ r_decision x = Forbid)
  ∧ (er_decision r = Allow ↔ cc_ambiguous (er_canonical r) = false ∧ er_matchedRules r ≠ []
       ∧ ∀ x, x ∈ er_matchedRules r → r_decision x = Allow)
  ∧ (er_decision r = Allow →
       (shellTokens command).2 = [] ∧ (length (splitSegments (shellTokens command).1) ≤ 1)%nat).
Proof.
  pose proof (evaluate_allow _ _ _ H) as Hallow.
  apply evaluate_inv in H as (Hc & Hm & Hd). cbn zeta in Hd.
  split; [by apply filter_rules_elem|]. split; [|split; [exact Hallow|]].
  - rewrite <- strictest_forbid, Hd. destruct (er_matchedRules r) as [|x l]; simpl nonempty; cbn iota.
    + rewrite bool_decide_eq_false_2, andb_false_r by done. by split.
    + destruct (cc_ambiguous _), (strictest (x :: l)); simpl; by split.
  - intros Ha. apply Hallow in Ha as [Ha _].
    unfold canonicalizeCommand in Hc. destruct (canonicalize _ command) as [c|] eqn:E; [|done].
    simpl in Hc. subst c. by eapply canonical_reasons.
Qed.
End engine.

(** ** Validated rules *)

Section rules.
Variable syntax_error : jstr → jstr.
Implicit Types (rules : list ExecPolicyRule).

(** The rule an engine may hold. *)
Definition rule_ok (r : ExecPolicyRule) : Prop :=
  r_id r ≠ [] ∧
  match r_kind r, r_pattern r with
  | (PrefixRule | Exact), Words l => l ≠ [] ∧ Forall (λ w, w ≠ []) l
  | RegexLite, Text s => truthy (trim s) = true ∧ is_ok (compileRegexLite syntax_error s) = true
  | Network, Text s => truthy (trim s) = true ∧ network_pattern_ok s = true
  | _, _ => False
  end.

Lemma truthy_ne (s : jstr) : truthy s = true ↔ s ≠ [].
Proof. by destruct s. Qed.

Lemma string_items_spec l ws :
  string_items l = Some ws ↔ l = map JStr ws ∧ Forall (λ w, w ≠ []) ws.
Proof.
  unfold string_items. revert ws. induction l as [|j l IH]; intros ws; simpl.
  - split; [intros [= <-]; done|]. intros [H _]. by destruct ws.
  - split.
    + destruct j as [| | |s| |]; try done. destruct (truthy s) eqn:Hs; [|done]. simpl.
      destruct (mapM _ l) as [ws'|]; [|done]. intros [= <-].
      destruct (proj1 (IH ws') eq_refl) as [-> H]. split; [done|]. constructor; [by apply truthy_ne|done].
    + intros [H Hf]. destruct ws as [|w ws]; [done|]. injection H as -> H.
      apply Forall_cons in Hf as [Hw Hf]. apply truthy_ne in Hw. rewrite Hw. simpl.
      rewrite (proj2 (IH ws) (conj H Hf)). done.
Qed.

Lemma enumField_inv {A} o key (name : A → jstr) values a :
  enumField o key name values = Ok a → map_get key o = Some (JStr (name a)).
Proof.
  unfold enumField. destruct (map_get key o) as [[]|]; try done.
  destruct (find_first _ values) as [b|] eqn:E; [|done]. intros [= <-].
  apply find_first_Some in E as [_ E]. apply bool_decide_eq_true in E. by rewrite E.
Qed.

Lemma validatePattern_ok id kind p pat :
  validatePattern syntax_error id kind p = Ok pat → p = Some (pattern_json pat) ∧
  match kind, pat with
  | (PrefixRule | Exact), Words l => l ≠ [] ∧ Forall (λ w, w ≠ []) l
  | RegexLite, Text s => truthy (trim s) = true ∧ is_ok (compileRegexLite syntax_error s) = true
  | Network, Text s => truthy (trim s) = true ∧ network_pattern_ok s = true
  | _, _ => False
  end.
Proof.
  assert (∀ f : jstr, match p with
      | Some (JArr (x :: l)) => match string_items (x :: l) with Some ws => Ok (Words ws) | None => Err (E:=jstr) f end
      | _ => Err (E:=jstr) f end = Ok pat →
    p = Some (pattern_json pat) ∧ match pat with Words l => l ≠ [] ∧ Forall (λ w, w ≠ []) l | Text _ => False end) as Hwords.
  { intros f. destruct p as [[| | | |[|x l]|]|]; try done.
    destruct (string_items (x :: l)) as [ws|] eqn:E; [|done]. intros [= <-].
    apply string_items_spec in E as [E Hf]. rewrite E. split; [done|]. split; [by intros ->|done]. }
  unfold validatePattern. destruct kind; [| |destruct p as [[| | |s| |]|]; try done..].
  - intros [H1 H2]%Hwords. by destruct pat.
  - intros [H1 H2]%Hwords. by destruct pat.
  - destruct (truthy (trim s)) eqn:Ht; [|done]. intros (e & He & [= <-])%result_bind_ok.
    rewrite He. done.
  - destruct (truthy (trim s)) eqn:Ht; [|done]. destruct (network_pattern_ok s) eqn:Hn; [|done].
    by intros [= <-].
Qed.

Lemma validatePattern_complete id kind p :
  match kind, p with
  | (PrefixRule | Exact), Words l => l ≠ [] ∧ Forall (λ w, w ≠ []) l
  | RegexLite, Text s => truthy (trim s) = true ∧ is_ok (compileRegexLite syntax_error s) = true
  | Network, Text s => truthy (trim s) = true ∧ network_pattern_ok s = true
  | _, _ => False
  end → validatePattern syntax_error id kind (Some (pattern_json p)) = Ok p.
Proof.
  assert (∀ l, Forall (λ w, w ≠ []) l → string_items (map JStr l) = Some l) as Hitems.
  { intros l Hl. by apply string_items_spec. }
  unfold validatePattern. destruct kind, p as [l|s]; try done; intros [H1 H2]; cbn [pattern_json].
  1, 2: destruct l as [|w l]; [done|]; pose proof (Hitems _ H2) as E; cbn [map] in *; by rewrite E.
  - rewrite H1. destruct (compileRegexLite _ s); done.
  - by rewrite H1, H2.
Qed.

Lemma validateRule_ok v r : validateRule syntax_error v = Ok r → rule_ok r.
Proof.
  unfold validateRule. intros (id & Hid & H)%result_bind_ok.
  apply result_bind_ok in H as (kind & Hkind & H). apply result_bind_ok in H as (d & _ & H).
  apply result_bind_ok in H as (layer & _ & H). apply result_bind_ok in H as (p & Hp & [= <-]).
  apply validatePattern_ok in Hp as [_ Hp]. split; [|exact Hp]. simpl.
  unfold stringField in Hid. destruct (map_get _ _) as [[]|]; try done.
  destruct (truthy s) eqn:E; [|done]. injection Hid as <-. by apply truthy_ne.
Qed.

(** A record with the fields of a rule is that rule. *)
Lemma validateRule_fields o id kind d layer p :
  map_get (js "id") o = Some (JStr id) → map_get (js "kind") o = Some (JStr (kind_name kind)) →
  map_get (js "decision") o = Some (JStr (decision_name d)) →
  map_get (js "layer") o = Some (JStr (layer_name layer)) →
  map_get (js "pattern") o = Some (pattern_json p) →
  id ≠ [] → validatePattern syntax_error id kind (Some (pattern_json p)) = Ok p →
  validateRule syntax_error (JObj o) =
    Ok {| r_id := id; r_kind := kind; r_decision := d; r_pattern := p; r_layer := layer;
          r_description := match map_get (js "description") o with Some (JStr t) => Some t | _ => None end |}.
Proof.
  intros H1 H2 H3 H4 H5 Hid%truthy_ne Hp. unfold validateRule. cbn [asObject].
  unfold stringField, enumField. rewrite H1, H2, H3, H4, Hid.
  assert (find_first (λ a, bool_decide (kind_name a = kind_name kind)) [PrefixRule; Exact; RegexLite; Network]
          = Some kind) as -> by (by destruct kind).
  assert (find_first (λ a, bool_decide (decision_name a = decision_name d)) [Allow; Prompt; Forbid]
          = Some d) as -> by (by destruct d).
  assert (find_first (λ a, bool_decide (layer_name a = layer_name layer)) [Managed; Workspace; User; SessionLayer; Base]
          = Some layer) as -> by (by destruct layer).
  unfold mbind, result_bind. rewrite H5, Hp. reflexivity.
Qed.

(** The value says the rule, member by member; a description that is not a string
    is dropped. *)
Definition says (o : list (jstr * json)) (r : ExecPolicyRule) : Prop :=
  map_get (js "id") o = Some (JStr (r_id r)) ∧
  map_get (js "kind") o = Some (JStr (kind_name (r_kind r))) ∧
  map_get (js "decision") o = Some (JStr (decision_name (r_decision r))) ∧
  map_get (js "layer") o = Some (JStr (layer_name (r_layer r))) ∧
  map_get (js "pattern") o = Some (pattern_json (r_pattern r)) ∧
  r_description r = match map_get (js "description") o with Some (JStr d) => Some d | _ => None end.

Lemma stringField_inv o key s : stringField o key = Ok s → map_get key o = Some (JStr s).
Proof. unfold stringField. destruct (map_get key o) as [[]|]; try done. destruct (truthy _); [|done]. by intros [= <-]. Qed.

Lemma validateRule_says v r : validateRule syntax_error v = Ok r → says (asObject v) r.
Proof.
  unfold validateRule. intros (id & Hid%stringField_inv & H)%result_bind_ok.
  apply result_bind_ok in H as (kind & Hkind%enumField_inv & H).
  apply result_bind_ok in H as (d & Hd%enumField_inv & H).
  apply result_bind_ok in H as (layer & Hlayer%enumField_inv & H).
  apply result_bind_ok in H as (p & [Hp _]%validatePattern_ok & [= <-]). by split_and!.
Qed.

(** C31: Validation accepts exactly the values that say a well-formed rule, and returns
    that rule: its id, kind, decision, layer and pattern are the ones of the value, and
    well-formed means that it has an id, a pattern of the shape its kind needs and, if
    that is an expression, one that compiles. Every other value is refused. What is
    returned, written down and validated again, is the same rule. *)
Theorem validateRule_exact v r :
  (validateRule syntax_error v = Ok r ↔ says (asObject v) r ∧ rule_ok r)
  ∧ (rule_ok r → validateRule syntax_error (rule_json r) = Ok r).
Proof.
  assert (∀ o, says o r → rule_ok r → validateRule syntax_error (JObj o) = Ok r) as Hsays.
  { intros o (H1 & H2 & H3 & H4 & H5 & H6) [Hid Hp]. destruct r as [id kind d p layer desc]. cbn in *.
    rewrite H6. apply (validateRule_fields o id kind d layer p); [done..|by apply validatePattern_complete]. }
  split.
  - split; [intros H; split; [by apply validateRule_says|by eapply validateRule_ok]|].
    intros [Hs Hok]. destruct v as [| | | | |o]; try (by destruct Hs as [Hs _]). by apply Hsays.
  - intros Hok. apply (Hsays (asObject (rule_json r))); [|done].
    destruct r as [id kind d p layer desc]. split_and!; try reflexivity. by destruct desc.
Qed.

Lemma validate_loop_spec seen l rs :
  validate_loop syntax_error seen l = Ok rs →
  Forall2 (λ v r, validateRule syntax_error v = Ok r) l rs ∧
  NoDup (map r_id rs) ∧ ∀ r, r ∈ rs → r_id r ∉ seen.
Proof.
  revert seen rs. induction l as [|v l IH]; intros seen rs; simpl.
  - intros [= <-]. split; [constructor|]. split; [constructor|]. by intros r ?%elem_of_nil.
  - intros (r & Hr & H)%result_bind_ok. destruct (set_has (r_id r) seen) eqn:Hs; [done|].
    apply result_bind_ok in H as (rest & H & [= <-]). apply IH in H as (H1 & H2 & H3).
    split; [by constructor|]. split.
    + simpl. constructor; [|done]. intros Hin. apply list_elem_of_In, in_map_iff in Hin as (x & Hx & Hin).
      apply list_elem_of_In in Hin. apply (H3 x Hin). rewrite Hx. apply elem_of_set_add. by left.
    + intros x [->|Hx]%elem_of_cons.
      * intros Hin. apply set_has_true in Hin. congruence.
      * intros Hin. apply (H3 x Hx). apply elem_of_set_add. by right.
Qed.

Lemma validate_loop_app seen l k rs :
  validate_loop syntax_error seen (l ++ k) = Ok rs →
  ∃ r1 r2, validate_loop syntax_error seen l = Ok r1 ∧ rs = r1 ++ r2.
Proof.
  revert seen rs. induction l as [|v l IH]; intros seen rs; simpl; [intros _; by exists [], rs|].
  intros (r & Hr & H)%result_bind_ok. rewrite Hr. simpl. destruct (set_has (r_id r) seen); [done|].
  apply result_bind_ok in H as (rest & H & [= <-]). apply IH in H as (r1 & r2 & -> & ->).
  by exists (r :: r1), r2.
Qed.

(** An engine's rules: the built-in ones first, all valid, with distinct ids. *)
Lemma engine_rules_ok extra rs :
  engine_rules syntax_error extra = Ok rs →
  Forall rule_ok rs ∧ NoDup (map r_id rs) ∧ CURATED_BASE_POLICY `prefix_of` rs.
Proof.
  unfold engine_rules, validateRules. intros H.
  destruct (validate_loop_app _ _ _ _ H) as (r1 & r2 & H1 & ->).
  apply validate_loop_spec in H as (Hv & Hn & _). split; [|split; [done|]].
  - clear H1. revert Hv. generalize (map rule_json CURATED_BASE_POLICY ++ extra) as l.
    intros l Hl. generalize dependent (r1 ++ r2). intros rs Hn Hl. clear Hn.
    induction Hl; constructor; [by eapply validateRule_ok|done].
  - assert (r1 = CURATED_BASE_POLICY) as ->.
    { vm_compute in H1. injection H1 as <-. reflexivity. }
    by exists r2.
Qed.

(** Every rule an engine is given is one of its rules. *)
Lemma engine_rules_elem extra rs v :
  engine_rules syntax_error extra = Ok rs → v ∈ extra → ∃ r, r ∈ rs ∧ validateRule syntax_error v = Ok r.
Proof.
  unfold engine_rules, validateRules. intros H Hv. apply validate_loop_spec in H as (H & _ & _).
  apply (list_elem_of_lookup_1 _ _) in Hv as [i Hi].
  destruct (Forall2_lookup_l _ _ _ (length (map rule_json CURATED_BASE_POLICY) + i) v H) as (r & Hr & Hvr).
  - rewrite lookup_app_r by lia. rewrite <- Hi. f_equal. lia.
  - exists r. split; [by eapply list_elem_of_lookup_2|done].
Qed.

Lemma rule_ok_matches r c : rule_ok r → is_ok (matchesRule syntax_error r c) = true.
Proof.
  intros [_ H]. unfold matchesRule. destruct (r_kind r), (r_pattern r); try done.
  destruct H as [_ H]. simpl. by destruct (compileRegexLite _ s).
Qed.

Lemma filter_rules_returns rules c :
  Forall rule_ok rules → ∃ l, filter_rules syntax_error rules c = Ok l.
Proof.
  induction 1 as [|r rules Hr _ [l IH]]; [by exists []|]. simpl.
  apply (rule_ok_matches r c) in Hr. destruct (matchesRule _ r c) as [m|]; [|done].
  simpl. rewrite IH. simpl. by eexists.
Qed.

(** The engine decides every command that has a canonical form. *)
Lemma evaluate_returns rules command c :
  Forall rule_ok rules → canonicalizeCommand command = Ok c →
  ∃ r, evaluate syntax_error rules command = Ok r.
Proof.
  intros Hok Hc. unfold evaluate. rewrite Hc. simpl.
  destruct (filter_rules_returns rules c Hok) as [l ->]. simpl.
  destruct (_ && _); [by eexists|]. destruct (negb _); by eexists.
Qed.

(** More rules never lift a prohibition. *)
Lemma forbid_extends rs rs' command r :
  rs `prefix_of` rs' → Forall rule_ok rs' →
  evaluate syntax_error rs command = Ok r → er_decision r = Forbid →
  ∃ r', evaluate syntax_error rs' command = Ok r' ∧ er_decision r' = Forbid.
Proof.
  intros [k ->] Hok He Hd. destruct (evaluate_inv _ _ _ _ He) as (Hc & Hm & Hdec0).
  destruct (evaluate_returns _ _ _ Hok Hc) as [r' Hr']. exists r'. split; [done|].
  destruct (evaluate_inv _ _ _ _ Hr') as (Hc' & Hm' & Hdec). rewrite Hc in Hc'. injection Hc' as Hcc.
  rewrite Hdec. apply decision_forbid, strictest_forbid.
  assert (∃ x, x ∈ er_matchedRules r ∧ r_decision x = Forbid) as (x & Hx & Hxd).
  { apply strictest_forbid. rewrite Hd in Hdec0. symmetry in Hdec0. by apply decision_forbid in Hdec0. }
  exists x. split; [|done]. apply (filter_rules_elem _ _ _ _ Hm').
  apply (filter_rules_elem _ _ _ _ Hm) in Hx as [Hx Hmx].
  split; [apply elem_of_app; by left|congruence].
Qed.

Lemma engine_rules_prefix extra more rs rs' :
  engine_rules syntax_error extra = Ok rs → engine_rules syntax_error (extra ++ more) = Ok rs' →
  rs `prefix_of` rs'.
Proof.
  unfold engine_rules, validateRules. rewrite (assoc_L (++)). intros H1 H2.
  apply validate_loop_app in H2 as (r1 & r2 & H & ->). rewrite H in H1. injection H1 as ->. by exists r2.
Qed.

(** A prohibition is final: when an engine forbids a command, an engine that has
    more rules, of any layer and with any decisions, is either refused for its
    rules or forbids the command too. The built-in rules are in every engine, so
    this holds of them against every rule file, database and session. *)
Theorem forbid_is_final extra more rs rs' command r
  (H1 : engine_rules syntax_error extra = Ok rs)
  (H2 : engine_rules syntax_error (extra ++ more) = Ok rs')
  (He : evaluate syntax_error rs command = Ok r) (Hd : er_decision r = Forbid) :
  ∃ r', evaluate syntax_error rs' command = Ok r' ∧ er_decision r' = Forbid.
Proof.
  apply (forbid_extends rs rs' command r); [|by apply engine_rules_ok in H2 as [? _]|done..].
  by eapply engine_rules_prefix.
Qed.
End rules.

(** ** Concrete commands *)

Definition no_text : jstr → jstr := λ s, s.
Definition base_engine : list ExecPolicyRule :=
  match engine_rules no_text [] with Ok rs => rs | Err _ => [] end.
Definition decide_base (command : string) : option ExecPolicyDecision :=
  match evaluate no_text base_engine (js command) with Ok r => Some (er_decision r) | Err _ => None end.

Definition user_allow (words : list string) : json :=
  rule_json {| r_id := js "user-allow"; r_kind := PrefixRule; r_decision := Allow;
               r_pattern := Words (map js words); r_layer := User; r_description := None |}.

Lemma evaluate_decision_witness :
  ∃ r, evaluate no_text base_engine (js "git status --short") = Ok r ∧ er_decision r = Allow ∧
    (length (splitSegments (shellTokens (js "git status --short")).1) ≤ 1)%nat.
Proof.
  destruct (evaluate no_text base_engine (js "git status --short")) as [r|] eqn:H; [|by vm_compute in H].
  exists r. split; [reflexivity|].
  destruct (evaluate_decision _ _ _ _ H) as (_ & _ & _ & H4).
  assert (er_decision r = Allow) as Ha by (vm_compute in H; by injection H as <-).
  split; [exact Ha|]. exact (proj2 (H4 Ha)).
Defined.

Lemma validateRule_exact_witness :
  ∃ r, says (asObject (user_allow ["npm"; "test"]%string)) r ∧ rule_ok no_text r ∧ r_decision r = Allow ∧
    validateRule no_text (rule_json r) = Ok r.
Proof.
  destruct (validateRule no_text (user_allow ["npm"; "test"]%string)) as [r|] eqn:H; [|by vm_compute in H].
  destruct (proj1 (proj1 (validateRule_exact no_text _ _)) H) as [Hs Hok].
  exists r. split; [exact Hs|]. split; [exact Hok|].
  split; [vm_compute in H; by injection H as <-|exact (proj2 (validateRule_exact no_text JNull r) Hok)].
Defined.

Lemma forbid_is_final_witness :
  ∃ rs' r', engine_rules no_text [user_allow ["git"; "reset"]%string] = Ok rs' ∧
    evaluate no_text rs' (js "git reset --hard") = Ok r' ∧ er_decision r' = Forbid.
Proof.
  destruct (engine_rules no_text []) as [rs|] eqn:H1; [|by vm_compute in H1].
  destruct (engine_rules no_text [user_allow ["git"; "reset"]%string]) as [rs'|] eqn:H2; [|by vm_compute in H2].
  destruct (evaluate no_text rs (js "git reset --hard")) as [r|] eqn:He;
    [|vm_compute in H1; injection H1 as <-; by vm_compute in He].
  assert (er_decision r = Forbid) as Hd.
  { vm_compute in H1; injection H1 as <-. vm_compute in He. by injection He as <-. }
  destruct (forbid_is_final no_text [] [user_allow ["git"; "reset"]%string] rs rs' _ r H1 H2 He Hd) as (r' & Hr' & Hf).
  exists rs', r'. split; [reflexivity|]. split; [exact Hr'|exact Hf].
Defined.

(** ** What escapes the policy *)

(** A command that runs a shell hides every other segment from the rules: behind
    the body of [bash -c] a forbidden command is not seen, and only the compound
    operator keeps it from being allowed. *)
Lemma shell_body_hides_segments :
  decide_base "sudo reboot" = Some Forbid ∧
  decide_base "pwd; sudo reboot" = Some Forbid ∧
  decide_base "bash -c pwd; sudo reboot" = Some Prompt.
Proof. vm_compute. done. Qed.

(** Process substitution and redirection are not operators for the tokenizer: a
    command they run, or a file they overwrite, is allowed without a question. *)
Lemma process_substitution_allowed :
  decide_base "git diff <(sudo reboot) b" = Some Allow ∧
  decide_base "rg secret . > /etc/passwd" = Some Allow.
Proof. vm_compute. done. Qed.

(** A flag of a command named like a member of every object makes the evaluation
    throw. *)
Lemma prototype_name_throws :
  evaluate no_text base_engine (js "constructor --x") = Err (js "safe.test is not a function").
Proof. vm_compute. done. Qed.

(** A quoted operator is an operator again, so an exact rule allows a command with
    one argument more. *)
Lemma quoted_operator_dropped :
  shellTokens (js "pwd '&&'") = ([js "pwd"; js "&&"], []) ∧ decide_base "pwd '&&'" = Some Allow.
Proof. vm_compute. done. Qed.
