(* ===== verification/ToolGuard.v ===== *)
(** * The tool guard

    packages/local-agent/src/guard.ts: whether a tool call runs, is blocked or
    waits for an approval, and the grants that approvals leave behind. The grant
    store keeps its session grants and the two tables it uses; their SQL
    statements are filters of the rows. [new URL], the rule files, the time and
    fresh ids are arguments. *)

From S2P Require Import Prelude JsMap JsString Json StableJson PosixPath RegExp ExecPolicy.
From Stdlib Require Import Lia.

Set Default Goal Selector "!".

(** ** Requests and decisions *)

Inductive ToolRisk := RiskRead | RiskFileEdit | RiskShell | RiskTerminal | RiskMcp | RiskBrowser
  | RiskCredential | RiskWorkspaceTrust.
#[export] Instance ToolRisk_eq_dec : EqDecision ToolRisk.
Proof. solve_decision. Defined.
Inductive PermissionMode := Ask | AutoEdit | Plan | FullAccess.
#[export] Instance PermissionMode_eq_dec : EqDecision PermissionMode.
Proof. solve_decision. Defined.
Inductive SandboxTier := ReadOnly | WorkspaceWrite | DangerFullAccess.
#[export] Instance SandboxTier_eq_dec : EqDecision SandboxTier.
Proof. solve_decision. Defined.
Inductive Egress := EgressOff | EgressOn | EgressUnrestricted.
#[export] Instance Egress_eq_dec : EqDecision Egress.
Proof. solve_decision. Defined.

Record NetworkPolicy := { np_egress : Egress; np_allowedDomains : list jstr }.

(** [q_tier] is the tier of the request's sandbox policy. *)
Record ToolGuardRequest := {
  q_workspaceId : option jstr; q_permissionMode : PermissionMode; q_risk : ToolRisk;
  q_toolName : jstr; q_payload : option json; q_tier : option SandboxTier;
  q_workspacePath : option jstr; q_execPolicyRules : option (list ExecPolicyRule);
  q_networkPolicy : option NetworkPolicy; q_requiresApproval : bool;
}.

Inductive ApprovalKind := ApproveFileEdit | ApproveShell | ApproveTerminal | ApproveMcp
  | ApproveBrowser | ApproveCredential | ApproveWorkspaceTrust.

Inductive GuardStage := StageExecpolicy | StageSandbox | StagePermissionMode | StageGrant.
Record ToolDecisionTraceStep := {
  st_stage : GuardStage; st_decision : ExecPolicyDecision; st_detail : jstr;
  st_ruleId : option jstr; st_layer : option ExecPolicyLayer;
}.

Inductive ToolGuardDecision :=
| GAllow (reason : jstr) (subject : option jstr) (trace : list ToolDecisionTraceStep)
| GBlock (reason : jstr) (trace : list ToolDecisionTraceStep)
| GApproval (kind : ApprovalKind) (reason subject : jstr) (trace : list ToolDecisionTraceStep).

Record Url := { url_href : jstr; url_protocol : jstr; url_origin : jstr; url_hostname : jstr }.

Definition mode_name (m : PermissionMode) : jstr :=
  match m with
  | Ask => js "ask" | AutoEdit => js "auto-edit" | Plan => js "plan" | FullAccess => js "full-access"
  end.
Definition risk_name (r : ToolRisk) : jstr :=
  match r with
  | RiskRead => js "read" | RiskFileEdit => js "file-edit" | RiskShell => js "shell"
  | RiskTerminal => js "terminal" | RiskMcp => js "mcp" | RiskBrowser => js "browser"
  | RiskCredential => js "credential" | RiskWorkspaceTrust => js "workspace-trust"
  end.

Definition approvalKindForRisk (r : ToolRisk) : ApprovalKind :=
  match r with
  | RiskFileEdit => ApproveFileEdit | RiskShell => ApproveShell | RiskTerminal => ApproveTerminal
  | RiskMcp => ApproveMcp | RiskBrowser => ApproveBrowser | RiskCredential => ApproveCredential
  | RiskRead | RiskWorkspaceTrust => ApproveWorkspaceTrust
  end.

Definition payload_of (q : ToolGuardRequest) : list (jstr * json) := asObject (default JNull (q_payload q)).
Definition payload_string (key : string) (q : ToolGuardRequest) : option jstr :=
  match map_get (js key) (payload_of q) with Some (JStr s) => Some s | _ => None end.

Definition is_escalated (q : ToolGuardRequest) : bool :=
  bool_decide (payload_string "sandbox_permissions" q = Some (js "require_escalated")).

Definition shellCommand (q : ToolGuardRequest) : option jstr :=
  if bool_decide (q_risk q = RiskShell) then payload_string "command" q else None.

Definition networkTarget (q : ToolGuardRequest) : option jstr :=
  if bool_decide (q_risk q = RiskBrowser)
  then match payload_string "origin" q with Some s => Some s | None => payload_string "url" q end
  else None.

(** ** Grant subjects *)

(** The tokenizer of this file: no operators, and escapes in both quotes. *)
Record GrantWords := { w_tokens : list jstr; w_current : jstr; w_quote : option N; w_escaping : bool }.

Definition w_push (t : GrantWords) : GrantWords :=
  {| w_tokens := if truthy (w_current t) then w_tokens t ++ [w_current t] else w_tokens t;
     w_current := []; w_quote := w_quote t; w_escaping := w_escaping t |}.
Definition w_char (c : N) (t : GrantWords) : GrantWords :=
  {| w_tokens := w_tokens t; w_current := w_current t ++ [c]; w_quote := w_quote t; w_escaping := false |}.
Definition w_set (quote : option N) (escaping : bool) (t : GrantWords) : GrantWords :=
  {| w_tokens := w_tokens t; w_current := w_current t; w_quote := quote; w_escaping := escaping |}.

Definition w_step (t : GrantWords) (c : N) : GrantWords :=
  if w_escaping t then w_char c t
  else if (c =? BSL)%N then w_set (w_quote t) true t
  else match w_quote t with
       | Some q => if (c =? q)%N then w_set None false t else w_char c t
       | None => if (c =? SQ)%N || (c =? DQ)%N then w_set (Some c) false t
                 else if is_ws c then w_push t
                 else w_char c t
       end.

Definition grantTokens (input : jstr) : list jstr :=
  let t := fold_left w_step input {| w_tokens := []; w_current := []; w_quote := None; w_escaping := false |} in
  let t := if w_escaping t then w_char BSL t else t in
  w_tokens (w_push t).

(** [command.trim().replace(/\s+/g, " ")]. *)
Fixpoint collapse_ws (after_ws : bool) (s : jstr) : jstr :=
  match s with
  | [] => []
  | c :: s => if is_ws c then (if after_ws then [] else [32%N]) ++ collapse_ws true s
              else c :: collapse_ws false s
  end.

(** The last nonempty part between slashes of either kind. *)
Definition last_part (s : jstr) : jstr :=
  let parts := List.filter truthy (flat_map (split_on BSL) (split_on slash s)) in
  default s (last parts).

Definition canonicalShellCommand (command : jstr) : jstr :=
  let tokens := drop_while is_assignment (grantTokens (trim command)) in
  let tokens := match tokens with
                | cmd :: rest => if bool_decide (cmd = js "env") then drop_while is_assignment rest else tokens
                | [] => []
                end in
  match tokens with
  | [] => collapse_ws false (trim command)
  | cmd :: rest => join (js " ") (last_part cmd :: rest)
  end.

Fixpoint strip_parents (fuel : nat) (s : jstr) : jstr :=
  match fuel with
  | O => s
  | S fuel => if starts_with (js "../") s then strip_parents fuel (drop 3 s) else s
  end.
Definition canonicalWorkspacePath (value : jstr) : jstr :=
  let normalized := posix_normalize (map (λ c, if (c =? BSL)%N then slash else c) value) in
  if bool_decide (normalized = js ".") then js "."
  else let s := strip_parents (length normalized) normalized in
       if starts_with (js "./") s then drop 2 s else s.

Section guard.
(** [new URL], which may throw, with the parts of it that are used; and Unicode's
    [toLowerCase], for text that is not a URL. *)
Variables (parseUrl : jstr → option Url) (lowerCase : jstr → jstr).

Definition canonicalGrantSubject (q : ToolGuardRequest) : jstr :=
  let other := risk_name (q_risk q) ++ js ":" ++ q_toolName q in
  let with_payload := other ++ js ":" ++ stableJson (JObj (payload_of q)) in
  if is_escalated q then js "sandbox:danger-full-access:" ++ q_toolName q
  else
    match (if bool_decide (q_toolName q = js "bash") then payload_string "command" q else None) with
    | Some command => js "bash:" ++ canonicalShellCommand command
    | None =>
        match q_risk q with
        | RiskFileEdit =>
            js "file:" ++ q_toolName q ++ js ":" ++
            match payload_string "path" q with
            | Some path => canonicalWorkspacePath path
            | None => stableJson (JObj (payload_of q))
            end
        | RiskBrowser =>
            match match payload_string "origin" q with Some s => Some s | None => payload_string "url" q end with
            | Some candidate =>
                if truthy candidate then
                  match parseUrl candidate with
                  | Some u => js "browser:" ++ (if bool_decide (url_origin u = js "null")
                                                then url_protocol u else url_origin u)
                  | None => js "browser:invalid-origin:" ++ lowerCase (trim candidate)
                  end
                else with_payload
            | None => with_payload
            end
        | RiskTerminal | RiskMcp | RiskCredential => with_payload
        | _ => other
        end
    end.

Definition grantKey (q : ToolGuardRequest) : jstr :=
  join [NUL] [default (js "*") (q_workspaceId q); mode_name (q_permissionMode q); canonicalGrantSubject q].

(** ** The grant store *)

Record PolicyRow := {
  pr_id : jstr; pr_workspace : option jstr; pr_layer : jstr; pr_kind : jstr; pr_decision : jstr;
  pr_pattern : jstr; pr_description : option jstr; pr_created : jstr;
}.
Record GrantRow := {
  gr_id : jstr; gr_workspace : option jstr; gr_mode : jstr; gr_subject : jstr; gr_decision : jstr;
  gr_expires : option jstr; gr_created : jstr;
}.
Record Tables := { execpolicy_rules : list PolicyRow; permission_grants : list GrantRow }.

Record GrantStore := { gs_db : option Tables; gs_session : list (jstr * ToolGuardRequest) }.

Definition allowForSession (q : ToolGuardRequest) (s : GrantStore) : GrantStore :=
  {| gs_db := gs_db s; gs_session := map_set (grantKey q) q (gs_session s) |}.

(** [allowRule], with the id and the time of the new row. *)
Definition allowRule (q : ToolGuardRequest) (id now : jstr) (s : GrantStore) : result jstr GrantStore :=
  let s := allowForSession q s in
  match gs_db s with
  | None => Ok s
  | Some db =>
      match (if truthy_opt (shellCommand q) then shellCommand q else None) with
      | Some command =>
          let! canonical := canonicalizeCommand command in
          let row := {| pr_id := id; pr_workspace := None; pr_layer := js "user"; pr_kind := js "exact";
                        pr_decision := js "allow"; pr_pattern := stringify (JArr (map JStr (cc_argv canonical)));
                        pr_description := Some (js "Always allow " ++ cc_display canonical); pr_created := now |} in
          Ok {| gs_db := Some {| execpolicy_rules := execpolicy_rules db ++ [row];
                                 permission_grants := permission_grants db |};
                gs_session := gs_session s |}
      | None =>
          let row := {| gr_id := id; gr_workspace := q_workspaceId q; gr_mode := mode_name (q_permissionMode q);
                        gr_subject := canonicalGrantSubject q; gr_decision := js "allow"; gr_expires := None;
                        gr_created := now |} in
          Ok {| gs_db := Some {| execpolicy_rules := execpolicy_rules db;
                                 permission_grants := permission_grants db ++ [row] |};
                gs_session := gs_session s |}
      end
  end.

(** [workspace_id IS NULL OR workspace_id = ?]; nothing equals NULL. *)
Definition workspace_matches (row : option jstr) (q : ToolGuardRequest) : bool :=
  match row with None => true | Some w => bool_decide (q_workspaceId q = Some w) end.
Definition grant_live (now : jstr) (q : ToolGuardRequest) (row : GrantRow) : bool :=
  bool_decide (gr_decision row = js "allow") && bool_decide (gr_mode row = mode_name (q_permissionMode q))
  && workspace_matches (gr_workspace row) q
  && match gr_expires row with None => true | Some t => negb (js_le t now) end.

Inductive GrantScope := ScopeSession | ScopeRule.

Definition match_grant (s : GrantStore) (now : jstr) (q : ToolGuardRequest) : option (jstr * GrantScope) :=
  let subject := canonicalGrantSubject q in
  if map_has (grantKey q) (gs_session s) then Some (subject, ScopeSession)
  else match gs_db s with
       | None => None
       | Some db =>
           if existsb (λ row, grant_live now q row && bool_decide (gr_subject row = subject)) (permission_grants db)
           then Some (subject, ScopeRule) else None
       end.

Definition shellGrantRule (id : jstr) (q : ToolGuardRequest) (layer : ExecPolicyLayer) : result jstr json :=
  let! canonical := canonicalizeCommand (default [] (shellCommand q)) in
  Ok (JObj [(js "id", JStr id); (js "layer", JStr (layer_name layer)); (js "kind", JStr (js "exact"));
            (js "decision", JStr (js "allow")); (js "pattern", JArr (map JStr (cc_argv canonical)));
            (js "description", JStr (layer_name layer ++ js " approval rule"))]).

(** The rows become rules as they are: the engine validates them. *)
Definition row_rule (row : PolicyRow) : list json :=
  match json_parse (pr_pattern row) with
  | None => []
  | Some p => [JObj ([(js "id", JStr (pr_id row)); (js "layer", JStr (pr_layer row));
                      (js "kind", JStr (pr_kind row)); (js "decision", JStr (pr_decision row));
                      (js "pattern", p)]
                     ++ match pr_description row with
                        | Some d => if truthy d then [(js "description", JStr d)] else []
                        | None => []
                        end)]
  end.

(** [subject LIKE 'bash:%'], which ignores the case of ASCII letters. *)
Definition like_bash (s : jstr) : bool := starts_with (js "bash:") (toLowerCase s).

Fixpoint legacy_rules (rows : list GrantRow) : result jstr (list json) :=
  match rows with
  | [] => Ok []
  | row :: rows =>
      let! canonical := canonicalizeCommand (slice_from 5 (gr_subject row)) in
      let! rest := legacy_rules rows in
      Ok (JObj [(js "id", JStr (js "legacy-" ++ gr_id row)); (js "layer", JStr (js "user"));
                (js "kind", JStr (js "exact")); (js "decision", JStr (js "allow"));
                (js "pattern", JArr (map JStr (cc_argv canonical)));
                (js "description", JStr (js "Migrated permission grant"))] :: rest)
  end.

Fixpoint insert_row (r : PolicyRow) (l : list PolicyRow) : list PolicyRow :=
  match l with
  | [] => [r]
  | x :: l' => if js_le (pr_created r) (pr_created x) then r :: l else x :: insert_row r l'
  end.

Definition policyRules (s : GrantStore) (now : jstr) (q : ToolGuardRequest) : result jstr (list json) :=
  if negb (truthy_opt (shellCommand q)) then Ok []
  else
    let! session := match map_get (grantKey q) (gs_session s) with
                    | Some g => let! r := shellGrantRule (js "session-" ++ grantKey q) g SessionLayer in Ok [r]
                    | None => Ok []
                    end in
    match gs_db s with
    | None => Ok session
    | Some db =>
        let rows := foldr insert_row [] (List.filter (λ row, workspace_matches (pr_workspace row) q)
                                           (execpolicy_rules db)) in
        let! legacy := legacy_rules (List.filter (λ row, grant_live now q row && like_bash (gr_subject row))
                                       (permission_grants db)) in
        Ok (session ++ flat_map row_rule rows ++ legacy)
    end.

(** ** The decision *)

Definition step (stage : GuardStage) (d : ExecPolicyDecision) (detail : jstr) : ToolDecisionTraceStep :=
  {| st_stage := stage; st_decision := d; st_detail := detail; st_ruleId := None; st_layer := None |}.

Definition policyTrace (l : list ExecPolicyTraceStep) : list ToolDecisionTraceStep :=
  map (λ x, {| st_stage := StageExecpolicy; st_decision := default Prompt (ts_decision x);
               st_detail := ts_detail x; st_ruleId := ts_ruleId x; st_layer := ts_layer x |}) l.

Definition networkDomainAllowed (hostname : jstr) (allowedDomains : list jstr) : bool :=
  match allowedDomains with
  | [] => true
  | _ => let host := strip_dot (toLowerCase (trim hostname)) in
         existsb (λ pattern, if starts_with (js "*.") pattern
                             then ends_with (slice_from 1 pattern) host
                                  && (length pattern - 1 <? length host)%nat
                             else bool_decide (host = pattern)) allowedDomains
  end.

(** The text of a [SyntaxError], and the rules of the files for a workspace. *)
Variables (syntax_error : jstr → jstr) (loadRules : jstr → list ExecPolicyRule).

Definition fileRules (q : ToolGuardRequest) : list json :=
  map rule_json (match q_execPolicyRules q with
                 | Some l => l
                 | None => match q_workspacePath q with
                           | Some p => if truthy p then loadRules p else []
                           | None => []
                           end
                 end).

Definition invalid_target (target : jstr) : ToolGuardDecision :=
  GBlock (js "invalid network target: " ++ target)
    [step StageExecpolicy Forbid (js "Network target is not a valid URL")].

(** What the network rules say: a decision, or the trace to go on with. *)
Definition network_check (q : ToolGuardRequest) : result jstr (ToolGuardDecision + list ToolDecisionTraceStep) :=
  match (if truthy_opt (networkTarget q) then networkTarget q else None) with
  | None => Ok (inr [])
  | Some networkUrl =>
      match parseUrl networkUrl with
      | None => Ok (inl (invalid_target networkUrl))
      | Some target =>
          if bool_decide (url_protocol target ∈ [js "http:"; js "https:"]) then
            let! rules := engine_rules syntax_error (fileRules q) in
            let! r := evaluateNetwork (λ u, match parseUrl u with
                        | Some u => Ok (url_href u, url_hostname u) | None => Err (js "Invalid URL") end)
                        rules (url_href target) in
            let trace := policyTrace (en_trace r) in
            if bool_decide (en_decision r = Forbid)
            then Ok (inl (GBlock (js "execpolicy forbids network access to " ++ en_hostname r) trace))
            else match q_networkPolicy q with
                 | None => Ok (inr trace)
                 | Some policy =>
                     if bool_decide (np_egress policy = EgressOff)
                     then Ok (inl (GBlock (js "network egress is off for " ++ mode_name (q_permissionMode q) ++ js " mode")
                                     (trace ++ [step StageSandbox Forbid (js "Sandbox tier disables network egress")])))
                     else if negb (networkDomainAllowed (en_hostname r) (np_allowedDomains policy))
                     then Ok (inl (GBlock (en_hostname r ++ js " is not in the network domain allowlist")
                                     (trace ++ [step StageSandbox Forbid (js "Domain allowlist does not include " ++ en_hostname r)])))
                     else Ok (inr trace)
                 end
          else Ok (inr [])
      end
  end.

(** What the shell rules say: the result for a shell command. *)
Definition shell_check (grants : option GrantStore) (now : jstr) (q : ToolGuardRequest)
    : result jstr (option ExecPolicyResult) :=
  match (if truthy_opt (shellCommand q) then shellCommand q else None) with
  | None => Ok None
  | Some command =>
      let! granted := match grants with Some s => policyRules s now q | None => Ok [] end in
      let! rules := engine_rules syntax_error (fileRules q ++ granted) in
      let! r := evaluate syntax_error rules command in
      Ok (Some r)
  end.

Definition scope_name (s : GrantScope) : jstr :=
  match s with ScopeSession => js "session" | ScopeRule => js "rule" end.

(** The stages behind the rules. *)
Definition mode_check (grants : option GrantStore) (now : jstr) (q : ToolGuardRequest)
    (policyDecision : option ExecPolicyDecision) (trace : list ToolDecisionTraceStep) : ToolGuardDecision :=
  let kind := approvalKindForRisk (q_risk q) in
  if bool_decide (q_risk q = RiskRead) && negb (q_requiresApproval q)
  then GAllow (js "read-only workspace operation") None
         (trace ++ [step StagePermissionMode Allow (js "Read-only workspace operation")])
  else if bool_decide (q_permissionMode q = Plan)
  then GBlock (js "plan mode does not allow mutating tools or command execution")
         (trace ++ [step StagePermissionMode Forbid (js "Plan mode blocks mutation and command execution")])
  else if is_escalated q && negb (bool_decide (q_tier q = Some DangerFullAccess))
  then GApproval kind (q_toolName q ++ js " requests danger-full-access for this tool call")
         (js "sandbox:danger-full-access:" ++ q_toolName q)
         (trace ++ [step StageSandbox Prompt (js "Explicit danger-full-access escalation requires approval")])
  else
    let trace := trace ++ [step StageSandbox Allow (js "Sandbox policy permits the tool call")] in
    if q_requiresApproval q
    then GApproval kind (q_toolName q ++ js " always requires approval by connector policy")
           (canonicalGrantSubject q)
           (trace ++ [step StageGrant Prompt (js "Connector policy requires approval for every call")])
    else if bool_decide (q_permissionMode q = FullAccess)
    then GAllow (js "full-access mode") None
           (trace ++ [step StagePermissionMode Allow (js "Full-access mode allows non-forbidden commands")])
    else if bool_decide (q_permissionMode q = AutoEdit) && bool_decide (q_risk q = RiskFileEdit)
    then GAllow (js "auto-edit mode allows workspace file edits") None
           (trace ++ [step StagePermissionMode Allow (js "Auto-edit mode allows workspace file edits")])
    else if bool_decide (policyDecision = Some Allow)
    then GAllow (js "execpolicy allow rule matched") (Some (canonicalGrantSubject q)) trace
    else match match grants with Some s => match_grant s now q | None => None end with
         | Some (subject, scope) =>
             let text := scope_name scope ++ js " grant matched " ++ subject in
             GAllow text (Some subject) (trace ++ [step StageGrant Allow text])
         | None =>
             GApproval kind
               (q_toolName q ++ js " requires approval in " ++ mode_name (q_permissionMode q) ++ js " mode")
               (canonicalGrantSubject q)
               (trace ++ [step StageGrant Prompt (js "No matching grant; approval required")])
         end.

Definition decide (grants : option GrantStore) (now : jstr) (q : ToolGuardRequest)
    : result jstr ToolGuardDecision :=
  let! network := network_check q in
  match network with
  | inl d => Ok d
  | inr trace =>
      let! shell := shell_check grants now q in
      match shell with
      | None => Ok (mode_check grants now q None trace)
      | Some r =>
          let trace := trace ++ policyTrace (er_trace r) in
          if bool_decide (er_decision r = Forbid)
          then Ok (GBlock (js "execpolicy forbids " ++ cc_display (er_canonical r)) trace)
          else Ok (mode_check grants now q (Some (er_decision r)) trace)
      end
  end.
End guard.

(** ** Slash commands *)

(** [trimmed.split(/\s+/)]. *)
Fixpoint split_ws (current : jstr) (in_ws : bool) (s : jstr) : list jstr :=
  match s with
  | [] => [current]
  | c :: s => if is_ws c then (if in_ws then split_ws current true s else current :: split_ws [] true s)
              else split_ws (current ++ [c]) false s
  end.

(** [parse], for the registry's commands and the names they go by. *)
Definition parse_slash {A} (commands : list A) (name : A → jstr) (input : jstr) : option (A * list jstr) :=
  let trimmed := trim input in
  if negb (starts_with [slash] trimmed) then None
  else match split_ws [] false trimmed with
       | nameWithSlash :: args =>
           (λ c, (c, args)) <$> find_first (λ c, bool_decide (name c = slice_from 1 nameWithSlash)) commands
       | [] => None
       end.
