(* ===== verification/ToolGuardFacts.v ===== *)
(** * Facts about the tool guard

    A command the built-in rules forbid is blocked under every mode, grant and
    rule file; a call runs without a question exactly when the stages let it; a
    command that was always allowed stays allowed. The last part shows grants
    that cover more than the call they were given for. *)

From stdpp Require Import sorting.
From S2P Require Import Prelude JsMap JsString Json StableJson RegExp ExecPolicy ExecPolicyFacts ToolGuard.
From Stdlib Require Import Lia.

Set Default Goal Selector "!".

#[local] Opaque engine_rules evaluate evaluateNetwork canonicalizeCommand grantKey canonicalGrantSubject.

Section guard.
Variables (parseUrl : jstr → option Url) (lowerCase : jstr → jstr).
Variables (syntax_error : jstr → jstr) (loadRules : jstr → list ExecPolicyRule).
Implicit Types (q : ToolGuardRequest) (s : GrantStore) (grants : option GrantStore).

Notation decide := (decide parseUrl lowerCase syntax_error loadRules).
Notation mode_check := (mode_check parseUrl lowerCase).
Notation match_grant := (match_grant parseUrl lowerCase).
Notation policyRules := (policyRules parseUrl lowerCase).
Notation shell_check := (shell_check parseUrl lowerCase syntax_error loadRules).
Notation fileRules := (fileRules loadRules).

(** ** The stages *)

Definition is_allow (d : ToolGuardDecision) : Prop := ∃ reason subject trace, d = GAllow reason subject trace.
Definition is_block (d : ToolGuardDecision) : Prop := ∃ reason trace, d = GBlock reason trace.

Lemma shell_no_network q : q_risk q = RiskShell → network_check parseUrl syntax_error loadRules q = Ok (inr []).
Proof. intros H. unfold network_check, networkTarget. by rewrite H. Qed.

(** What the engine of a request is made of. *)
Lemma shell_check_some grants now q r :
  shell_check grants now q = Ok (Some r) →
  ∃ command granted rules, shellCommand q = Some command ∧ truthy command = true ∧
    (match grants with Some s => policyRules s now q | None => Ok [] end) = Ok granted ∧
    engine_rules syntax_error (fileRules q ++ granted) = Ok rules ∧
    evaluate syntax_error rules command = Ok r.
Proof.
  unfold ToolGuard.shell_check. destruct (truthy_opt (shellCommand q)) eqn:Ht; [|done].
  destruct (shellCommand q) as [command|]; [|done].
  intros (granted & Hg & H)%result_bind_ok. apply result_bind_ok in H as (rules & Hr & H).
  apply result_bind_ok in H as (x & Hx & H). injection H as <-.
  exists command, granted, rules. repeat split; [exact Ht|exact Hg|exact Hr|exact Hx].
Qed.

(** C30: The built-in prohibitions hold everywhere: a shell command they forbid is
    blocked in every permission mode, with every grant, sandbox and rule file; if
    the rules of the request are broken there is no decision at all. *)
Theorem prohibition_blocks grants now q command rs r
  (Hrisk : q_risk q = RiskShell) (Hc : shellCommand q = Some command)
  (Hrs : engine_rules syntax_error [] = Ok rs)
  (He : evaluate syntax_error rs command = Ok r) (Hd : er_decision r = Forbid) :
  (∃ trace, decide grants now q = Ok (GBlock (js "execpolicy forbids " ++ cc_display (er_canonical r)) trace))
  ∨ ∃ e, decide grants now q = Err e ∧
      ((match grants with Some s => policyRules s now q | None => Ok [] end) = Err e
       ∨ ∃ granted, engine_rules syntax_error (fileRules q ++ granted) = Err e).
Proof.
  assert (Ht : truthy command = true).
  { destruct command; [exfalso|done]. vm_compute in Hrs. injection Hrs as <-.
    vm_compute in He. injection He as <-. done. }
  unfold ToolGuard.decide. rewrite shell_no_network by done. simpl.
  unfold ToolGuard.shell_check. rewrite Hc. simpl. rewrite Ht.
  destruct (match grants with Some s => policyRules s now q | None => Ok [] end) as [granted|e];
    [|right; exists e; auto]. simpl.
  destruct (engine_rules syntax_error (fileRules q ++ granted)) as [rules|e] eqn:Hr;
    [|right; exists e; eauto]. simpl.
  left. destruct (forbid_extends syntax_error rs rules command r) as (r' & He' & Hd').
  - exact (engine_rules_prefix _ [] _ _ _ Hrs Hr).
  - by apply engine_rules_ok in Hr as [? _].
  - done.
  - done.
  - rewrite He'. simpl. rewrite Hd', bool_decide_eq_true_2 by done.
    assert (er_canonical r' = er_canonical r) as ->; [|by eexists].
    apply evaluate_inv in He as [He _]. apply evaluate_inv in He' as [He' _]. congruence.
Qed.

(** ** When a call runs without a question *)

(** A browser target is a URL, and the rules, the egress setting and the allowlist
    let its host pass. *)
Definition network_permits q : Prop :=
  match networkTarget q with
  | None | Some [] => True
  | Some target =>
      ∃ u, parseUrl target = Some u ∧
      (url_protocol u ∈ [js "http:"; js "https:"] →
       ∃ rules r, engine_rules syntax_error (fileRules q) = Ok rules ∧
         evaluateNetwork (λ x, match parseUrl x with
           | Some x => Ok (url_href x, url_hostname x) | None => Err (js "Invalid URL") end) rules (url_href u) = Ok r ∧
         en_decision r ≠ Forbid ∧
         ∀ policy, q_networkPolicy q = Some policy →
           np_egress policy ≠ EgressOff ∧ networkDomainAllowed (en_hostname r) (np_allowedDomains policy) = true)
  end.

(** Nothing in the call asks for more than the mode may give. *)
Definition unattended q : Prop :=
  q_requiresApproval q = false ∧ q_permissionMode q ≠ Plan ∧
  (is_escalated q = true → q_tier q = Some DangerFullAccess).

(** What lets an unattended call pass: its mode, the rules or a grant. *)
Definition permitted grants now q (rule : option ExecPolicyDecision) : Prop :=
  q_permissionMode q = FullAccess
  ∨ (q_permissionMode q = AutoEdit ∧ q_risk q = RiskFileEdit)
  ∨ rule = Some Allow
  ∨ ∃ s, grants = Some s ∧ is_Some (match_grant s now q).

Lemma mode_check_allow grants now q rule trace :
  is_allow (mode_check grants now q rule trace) ↔
  (q_risk q = RiskRead ∧ q_requiresApproval q = false) ∨ (unattended q ∧ permitted grants now q rule).
Proof.
  unfold ToolGuard.mode_check, is_allow, unattended, permitted.
  destruct (q_requiresApproval q) eqn:Ha.
  - rewrite andb_false_r. split.
    + intros (? & ? & ? & H). repeat case_match; done.
    + intros [[? ?]|[[? ?] ?]]; done.
  - case_bool_decide as Hr; simpl.
    { split; [auto|by eexists _, _, _]. }
    case_bool_decide as Hp.
    { split; [by intros (? & ? & ? & ?)|]. intros [[? ?]|[(? & ? & ?) ?]]; done. }
    destruct (is_escalated q && _) eqn:He.
    { apply andb_true_iff in He as [He Hn]. apply negb_true_iff, bool_decide_eq_false in Hn.
      split; [by intros (? & ? & ? & ?)|]. intros [[? ?]|[(_ & _ & H) _]]; [done|]. by apply H in He. }
    assert (is_escalated q = true → q_tier q = Some DangerFullAccess) as Hesc.
    { intros H. rewrite H, andb_true_l in He. apply negb_false_iff in He. by apply bool_decide_eq_true in He. }
    assert (q_permissionMode q ≠ Plan → unattended q) as Hun by (intros; by split_and!).
    unfold unattended in Hun. rewrite Ha in Hun. clear He Hesc.
    case_bool_decide as Hf; [split; [intros _; right; split; [by apply Hun|by left]|by eexists _, _, _]|].
    destruct (bool_decide (_ = AutoEdit) && _) eqn:Hae.
    { apply andb_true_iff in Hae as [?%bool_decide_eq_true ?%bool_decide_eq_true].
      split; [intros _; right; split; [by apply Hun|by right; left]|by eexists _, _, _]. }
    destruct (bool_decide (rule = Some Allow)) eqn:Hpa.
    { apply bool_decide_eq_true in Hpa. split; [intros _; right; split; [by apply Hun|by do 2 right; left]|by eexists _, _, _]. }
    apply bool_decide_eq_false in Hpa.
    destruct grants as [s|]; [destruct (match_grant s now q) as [[subject scope]|] eqn:Hm|].
    + split; [|by eexists _, _, _]. intros _. right. split; [by apply Hun|]. right; right; right. eauto.
    + split; [by intros (? & ? & ? & ?)|]. intros [[? ?]|[_ H]]; [done|].
      destruct H as [?|[[Hm1 Hm2]|[?|(s' & [= <-] & [? H])]]]; try congruence; [].
      rewrite !bool_decide_eq_true_2 in Hae by done. done.
    + split; [by intros (? & ? & ? & ?)|]. intros [[? ?]|[_ H]]; [done|].
      destruct H as [?|[[Hm1 Hm2]|[?|(s' & [=] & _)]]]; try congruence; [].
      rewrite !bool_decide_eq_true_2 in Hae by done. done.
Qed.

Lemma network_check_inr q :
  (∃ trace, network_check parseUrl syntax_error loadRules q = Ok (inr trace)) ↔ network_permits q.
Proof.
  unfold network_check, network_permits.
  destruct (networkTarget q) as [[|c target]|]; simpl; [by split; eauto..| |by split; eauto].
  destruct (parseUrl (c :: target)) as [u|]; [|split; [by intros [? ?]|by intros (? & ? & _)]].
  case_bool_decide as Hp; [|split; [intros _; by eexists|by eexists]].
  destruct (engine_rules syntax_error (fileRules q)) as [rules|e]; simpl;
    [|split; [by intros [? ?]|]; intros (? & [= <-] & H); destruct (H Hp) as (? & ? & [=] & _)].
  destruct (evaluateNetwork _ rules (url_href u)) as [r|e] eqn:He; simpl;
    [|split; [by intros [? ?]|]; intros (? & [= <-] & H); destruct (H Hp) as (? & ? & [= <-] & H' & _); congruence].
  assert (∀ P : Prop, (P ↔ en_decision r ≠ Forbid ∧ ∀ policy, q_networkPolicy q = Some policy →
      np_egress policy ≠ EgressOff ∧ networkDomainAllowed (en_hostname r) (np_allowedDomains policy) = true) →
    (P ↔ ∃ u0, Some u = Some u0 ∧ (url_protocol u0 ∈ [js "http:"; js "https:"] →
       ∃ rules0 r0, Ok (E:=jstr) rules = Ok rules0 ∧ evaluateNetwork (λ x, match parseUrl x with
           | Some x => Ok (url_href x, url_hostname x) | None => Err (js "Invalid URL") end) rules0 (url_href u0) = Ok r0 ∧
         en_decision r0 ≠ Forbid ∧ ∀ policy, q_networkPolicy q = Some policy →
      np_egress policy ≠ EgressOff ∧ networkDomainAllowed (en_hostname r0) (np_allowedDomains policy) = true))) as Hu.
  { intros P ->. split.
    - intros H. exists u. split; [done|]. intros _. exists rules, r. auto.
    - intros (? & [= <-] & H). destruct (H Hp) as (? & r0 & [= <-] & H' & H2).
      rewrite He in H'. injection H' as <-. exact H2. }
  apply Hu. clear Hu. case_bool_decide as Hf; [split; [by intros [? ?]|by intros [? _]]|].
  destruct (q_networkPolicy q) as [policy|]; [|split; [intros _; by split|by eexists]].
  case_bool_decide as Hoff; [split; [by intros [? ?]|]; intros [_ H]; by destruct (H _ eq_refl)|].
  destruct (networkDomainAllowed _ _) eqn:Ha; simpl.
  - split; [|by eexists]. intros _. split; [done|]. by intros ? [= <-].
  - split; [by intros [? ?]|]. intros [_ H]. destruct (H _ eq_refl). congruence.
Qed.

Lemma network_check_inl q d : network_check parseUrl syntax_error loadRules q = Ok (inl d) → is_block d.
Proof.
  unfold network_check, is_block, invalid_target.
  destruct (if truthy_opt _ then _ else _) as [target|]; [|discriminate].
  destruct (parseUrl target) as [u|]; [|intros H; injection H as <-; by eexists _, _].
  destruct (bool_decide _); [|discriminate].
  intros (rules & _ & H)%result_bind_ok. apply result_bind_ok in H as (r & _ & H).
  destruct (bool_decide _); [injection H as <-; by eexists _, _|].
  destruct (q_networkPolicy q) as [policy|]; [|discriminate].
  destruct (bool_decide _); [injection H as <-; by eexists _, _|].
  destruct (negb _); [injection H as <-; by eexists _, _|discriminate].
Qed.

(** C29: A call runs without a question exactly when the network lets its target
    pass, the rules do not forbid its command, and either it only reads and needs
    no approval, or nothing in it asks for more than the mode may give and the
    mode, an allowing rule or a saved grant permits it. So a saved grant permits
    also a shell command for which the rules ask: it is not weighed against them
    as one more rule ([grant_overrides_prompt]). *)
Theorem decide_allow grants now q :
  (∃ d, decide grants now q = Ok d ∧ is_allow d) ↔
  network_permits q ∧ ∃ rule, (er_decision <$> rule) ≠ Some Forbid ∧ shell_check grants now q = Ok rule ∧
    ((q_risk q = RiskRead ∧ q_requiresApproval q = false)
     ∨ (unattended q ∧ permitted grants now q (er_decision <$> rule))).
Proof.
  rewrite <- network_check_inr. unfold ToolGuard.decide.
  destruct (network_check parseUrl syntax_error loadRules q) as [[d|trace]|e] eqn:Hn; simpl.
  - split; [|intros [[? ?] _]; congruence]. intros (? & Hd & Ha). injection Hd as <-. exfalso. revert Hn Ha.
    intros Hn (? & ? & ? & ->). apply network_check_inl in Hn as (? & ? & ?). discriminate.
  - split.
    + intros (d & H & Ha). split; [by eexists|].
      apply result_bind_ok in H as ([r|] & Hs & H).
      * exists (Some r). simpl. case_bool_decide as Hf.
        { injection H as <-. by destruct Ha as (? & ? & ? & ?). }
        injection H as <-. apply mode_check_allow in Ha. split; [congruence|]. by split.
      * exists None. injection H as <-. apply mode_check_allow in Ha. by split_and!.
    + intros (_ & rule & Hf & Hs & H). rewrite Hs. simpl. destruct rule as [r|]; simpl in *.
      * rewrite bool_decide_eq_false_2 by congruence. eexists. split; [reflexivity|]. by apply mode_check_allow.
      * eexists. split; [reflexivity|]. by apply mode_check_allow.
  - split; [by intros (? & ? & _)|]. intros [[? ?] _]. congruence.
Qed.
(** ** A command that is always allowed *)

Lemma insert_row_elem r x l : x ∈ insert_row r l ↔ x = r ∨ x ∈ l.
Proof.
  induction l as [|y l IH]; simpl; [set_solver|].
  destruct (js_le _ _); rewrite !elem_of_cons, ?IH; intuition.
Qed.
Lemma sorted_rows_elem x l : x ∈ foldr insert_row [] l ↔ x ∈ l.
Proof. induction l as [|y l IH]; simpl; [done|]. by rewrite insert_row_elem, IH, elem_of_cons. Qed.

(** The rule an approval stores. *)
Definition approval_row (id now : jstr) (c : CanonicalCommand) : PolicyRow :=
  {| pr_id := id; pr_workspace := None; pr_layer := js "user"; pr_kind := js "exact";
     pr_decision := js "allow"; pr_pattern := stringify (JArr (map JStr (cc_argv c)));
     pr_description := Some (js "Always allow " ++ cc_display c); pr_created := now |}.

Definition storable (c : CanonicalCommand) : Prop :=
  cc_argv c ≠ [] ∧ Forall (λ w, w ≠ [] ∧ js_wf w) (cc_argv c).

Lemma allowRule_shell q id now s command c db s' :
  shellCommand q = Some command → truthy command = true → canonicalizeCommand command = Ok c →
  gs_db s = Some db → allowRule parseUrl lowerCase q id now s = Ok s' →
  ∃ db', gs_db s' = Some db' ∧ approval_row id now c ∈ execpolicy_rules db'.
Proof.
  intros Hq Ht Hc Hdb. unfold allowRule, allowForSession. cbn [gs_db]. rewrite Hdb, Hq. cbn [truthy_opt].
  rewrite Ht, Hc. unfold mbind, result_bind. intros H. injection H as <-.
  eexists. split; [reflexivity|]. cbn [execpolicy_rules]. apply elem_of_app. right. by apply list_elem_of_singleton.
Qed.

Lemma approval_row_rule id now c :
  id ≠ [] → storable c →
  ∃ v r, row_rule (approval_row id now c) = [v] ∧ validateRule syntax_error v = Ok r ∧
    r_kind r = Exact ∧ r_decision r = Allow ∧ r_pattern r = Words (cc_argv c).
Proof.
  intros Hid [Hne Hf]. unfold row_rule. cbn [pr_pattern approval_row].
  rewrite json_roundtrip_value.
  2: { simpl. apply Forall_fold_right, Forall_map. eapply Forall_impl; [exact Hf|]. by intros w [_ ?]. }
  eexists _, _. split; [reflexivity|]. split.
  - apply (validateRule_fields syntax_error _ id Exact Allow User (Words (cc_argv c)));
      [reflexivity..|exact Hid|].
    apply validatePattern_complete. split; [exact Hne|]. eapply Forall_impl; [exact Hf|]. by intros w [? _].
  - by split_and!.
Qed.

Lemma policyRules_stored s now q db row l :
  truthy_opt (shellCommand q) = true → gs_db s = Some db → row ∈ execpolicy_rules db →
  pr_workspace row = None → policyRules s now q = Ok l → ∀ v, v ∈ row_rule row → v ∈ l.
Proof.
  intros Ht Hdb Hrow Hw. unfold ToolGuard.policyRules. rewrite Ht, Hdb. cbn [negb].
  intros (session & _ & H)%result_bind_ok. apply result_bind_ok in H as (legacy & _ & H). injection H as <-.
  intros v Hv. apply elem_of_app. right. apply elem_of_app. left.
  apply list_elem_of_In, in_flat_map. exists row. split; [|by apply list_elem_of_In].
  apply list_elem_of_In, sorted_rows_elem, list_elem_of_In, filter_In. split; [by apply list_elem_of_In|].
  unfold workspace_matches. by rewrite Hw.
Qed.

(** "Always allow" lasts: once a plain command was approved this way, a later
    process that opens the same database, for any workspace, lets the command run
    without a question in every mode that may run it, unless another rule that
    matches it asks or forbids. *)
Theorem always_allow_lasts q id now s s' command c db q' now' d
  (Hq : shellCommand q = Some command) (Ht : truthy command = true)
  (Hc : canonicalizeCommand command = Ok c) (Hamb : cc_ambiguous c = false) (Hstore : storable c)
  (Hid : id ≠ []) (Hdb : gs_db s = Some db) (Hs : allowRule parseUrl lowerCase q id now s = Ok s')
  (Hq' : shellCommand q' = Some command) (Hun : unattended q')
  (Hd : decide (Some {| gs_db := gs_db s'; gs_session := [] |}) now' q' = Ok d) :
  is_allow d ∨ ∃ r x, shell_check (Some {| gs_db := gs_db s'; gs_session := [] |}) now' q' = Ok (Some r)
    ∧ x ∈ er_matchedRules r ∧ r_decision x ≠ Allow.
Proof.
  destruct (allowRule_shell _ _ _ _ _ _ _ _ Hq Ht Hc Hdb Hs) as (db' & Hdb' & Hrow).
  rewrite Hdb' in *. set (fresh := {| gs_db := Some db' |}) in *.
  assert (Hrisk : q_risk q' = RiskShell).
  { unfold shellCommand in Hq'. destruct (bool_decide _) eqn:E; [by apply bool_decide_eq_true in E|done]. }
  unfold ToolGuard.decide in Hd. rewrite shell_no_network in Hd by done. simpl in Hd.
  apply result_bind_ok in Hd as (o & Ho & Hd).
  destruct o as [r|].
  2: { unfold ToolGuard.shell_check in Ho. rewrite Hq' in Ho. simpl in Ho. rewrite Ht in Ho.
       apply result_bind_ok in Ho as (? & _ & Ho). apply result_bind_ok in Ho as (? & _ & Ho).
       apply result_bind_ok in Ho as (? & _ & Ho). discriminate. }
  destruct (shell_check_some _ _ _ _ Ho) as (command' & granted & rules & Hq2 & _ & Hg & Hr & He).
  rewrite Hq' in Hq2. injection Hq2 as <-.
  destruct (approval_row_rule id now c Hid Hstore) as (v & x & Hv & Hx & Hk & Hxd & Hp).
  destruct (engine_rules_elem _ _ _ v Hr) as (x' & Hin & Hx').
  { apply elem_of_app. right. apply (policyRules_stored fresh now' q' db' (approval_row id now c) granted);
      [|reflexivity|exact Hrow|reflexivity|exact Hg|].
    - rewrite Hq'. exact Ht.
    - rewrite Hv. by apply list_elem_of_singleton. }
  rewrite Hx in Hx'. injection Hx' as <-.
  destruct (evaluate_inv _ _ _ _ He) as (Hcan & Hm & _). rewrite Hc in Hcan. injection Hcan as Hcan.
  assert (x ∈ er_matchedRules r) as Hxm.
  { apply (filter_rules_elem _ _ _ _ Hm). split; [done|]. rewrite <- Hcan. unfold matchesRule.
    rewrite Hk, Hp. cbn [pattern_words]. f_equal. by eapply command_argv_matched. }
  destruct (existsb (λ y, negb (bool_decide (r_decision y = Allow))) (er_matchedRules r)) eqn:Hex.
  - right. apply existsb_exists in Hex as (y & Hy & Hyd). exists r, y.
    split; [done|]. split; [by apply list_elem_of_In|]. by apply negb_true_iff, bool_decide_eq_false in Hyd.
  - left. assert (er_decision r = Allow) as Ha.
    { apply (evaluate_allow _ _ _ _ He). rewrite <- Hcan. split; [done|].
      split; [intros E; rewrite E in Hxm; by apply elem_of_nil in Hxm|]. intros y Hy.
      destruct (base.decide (r_decision y = Allow)) as [|Hn]; [done|]. apply not_true_iff_false in Hex.
      destruct Hex. apply existsb_exists.
      exists y. split; [by apply list_elem_of_In|]. by apply negb_true_iff, bool_decide_eq_false. }
    rewrite bool_decide_eq_false_2 in Hd by congruence. injection Hd as <-.
    apply mode_check_allow. right. split; [done|]. right; right; left. by rewrite Ha.
Qed.
End guard.

(** ** Concrete calls *)

Definition no_url : jstr → option Url := λ _, None.
Definition same_case : jstr → jstr := λ s, s.
Definition no_rules : jstr → list ExecPolicyRule := λ _, [].
Definition request (mode : PermissionMode) (risk : ToolRisk) (tool : string) (tier : SandboxTier)
    (payload : list (jstr * json)) : ToolGuardRequest :=
  {| q_workspaceId := Some (js "w"); q_permissionMode := mode; q_risk := risk; q_toolName := js tool;
     q_payload := Some (JObj payload); q_tier := Some tier; q_workspacePath := None;
     q_execPolicyRules := None; q_networkPolicy := None; q_requiresApproval := false |}.
Definition shell_request (mode : PermissionMode) (command : string) : ToolGuardRequest :=
  request mode RiskShell "bash" WorkspaceWrite [(js "command", JStr (js command))].
Definition escalated (command : string) : ToolGuardRequest :=
  request Ask RiskShell "bash" DangerFullAccess
    [(js "command", JStr (js command)); (js "sandbox_permissions", JStr (js "require_escalated"))].
Definition empty_store : GrantStore :=
  {| gs_db := Some {| execpolicy_rules := []; permission_grants := [] |}; gs_session := [] |}.
Definition now0 : jstr := js "2026-01-01T00:00:00.000Z".
Definition decide0 (s : GrantStore) (q : ToolGuardRequest) : result jstr ToolGuardDecision :=
  decide no_url same_case no_text no_rules (Some s) now0 q.
Definition allows (s : GrantStore) (q : ToolGuardRequest) : bool :=
  match decide0 s q with Ok (GAllow _ _ _) => true | _ => false end.
Definition asks (s : GrantStore) (q : ToolGuardRequest) : bool :=
  match decide0 s q with Ok (GApproval _ _ _ _) => true | _ => false end.
Definition session_grant (q : ToolGuardRequest) : GrantStore :=
  allowForSession no_url same_case q empty_store.
Definition rule_grant (q : ToolGuardRequest) : GrantStore :=
  match allowRule no_url same_case q (js "policy-1") now0 empty_store with Ok s => s | Err _ => empty_store end.

Lemma prohibition_blocks_witness :
  ∃ trace, decide0 (session_grant (shell_request FullAccess "git reset --hard"))
             (shell_request FullAccess "git reset --hard")
    = Ok (GBlock (js "execpolicy forbids git reset --hard") trace).
Proof.
  destruct (engine_rules no_text []) as [rs|] eqn:Hrs; [|by vm_compute in Hrs].
  destruct (evaluate no_text rs (js "git reset --hard")) as [r|] eqn:He;
    [|vm_compute in Hrs; injection Hrs as <-; by vm_compute in He].
  assert (er_decision r = Forbid ∧ cc_display (er_canonical r) = js "git reset --hard") as [Hd Hdisplay].
  { vm_compute in Hrs; injection Hrs as <-. vm_compute in He. by injection He as <-. }
  destruct (prohibition_blocks no_url same_case no_text no_rules
              (Some (session_grant (shell_request FullAccess "git reset --hard"))) now0
              (shell_request FullAccess "git reset --hard") _ rs r eq_refl eq_refl Hrs He Hd)
    as [[trace H]|(e & H & _)].
  - exists trace. rewrite Hdisplay in H. exact H.
  - exfalso. vm_compute in H. discriminate.
Defined.

Lemma always_allow_lasts_witness :
  ∃ d, decide no_url same_case no_text no_rules
         (Some {| gs_db := gs_db (rule_grant (shell_request Ask "make test")); gs_session := [] |})
         (js "2027") (shell_request Ask "make test") = Ok d ∧ is_allow d.
Proof.
  destruct (canonicalizeCommand (js "make test")) as [c|] eqn:Hc; [|by vm_compute in Hc].
  assert (cc_ambiguous c = false ∧ storable c) as [Hamb Hst].
  { vm_compute in Hc. injection Hc as <-. split; [reflexivity|]. apply (bool_decide_unpack _). vm_compute. exact I. }
  destruct (allowRule no_url same_case (shell_request Ask "make test") (js "policy-1") now0 empty_store)
    as [s'|] eqn:Hs; [|by vm_compute in Hs].
  destruct (decide no_url same_case no_text no_rules
         (Some {| gs_db := gs_db (rule_grant (shell_request Ask "make test")); gs_session := [] |})
         (js "2027") (shell_request Ask "make test")) as [d|] eqn:Hd; [|by vm_compute in Hd].
  exists d. split; [reflexivity|]. unfold rule_grant in Hd. rewrite Hs in Hd.
  edestruct (always_allow_lasts no_url same_case no_text no_rules (shell_request Ask "make test")
    (js "policy-1") now0 empty_store s' (js "make test") c {| execpolicy_rules := []; permission_grants := [] |} (shell_request Ask "make test") (js "2027") d)
    as [Ha|(r & x & Hr & Hx & Hxd)]; try exact Hd; try reflexivity; try assumption.
  - done.
  - split_and!; [reflexivity|discriminate|by vm_compute].
  - exfalso. vm_compute in Hs. injection Hs as <-. vm_compute in Hr. injection Hr as <-.
    simpl in Hx. apply list_elem_of_singleton in Hx as ->. by destruct Hxd.
Defined.

(** A pull request after a grant of the session: a built-in rule asks for it. *)
Definition pull_request : ToolGuardRequest := shell_request Ask "gh pr create".

Lemma decide_allow_witness :
  (∃ r, shell_check no_url same_case no_text no_rules (Some (session_grant pull_request)) now0 pull_request
          = Ok (Some r) ∧ er_decision r = Prompt)
  ∧ ∃ d, decide0 (session_grant pull_request) pull_request = Ok d ∧ is_allow d.
Proof.
  destruct (shell_check no_url same_case no_text no_rules (Some (session_grant pull_request)) now0 pull_request)
    as [[r|]|] eqn:Hs; [|by vm_compute in Hs..].
  assert (er_decision r = Prompt) as Hp by (vm_compute in Hs; by injection Hs as <-).
  split; [exists r; split; [exact Hs || reflexivity|exact Hp]|].
  apply (decide_allow no_url same_case no_text no_rules (Some (session_grant pull_request)) now0 pull_request).
  split; [exact I|]. exists (Some r). split; [simpl; rewrite Hp; discriminate|]. split; [exact Hs|].
  right. split.
  - split; [reflexivity|]. split; [discriminate|]. intros H. vm_compute in H. discriminate.
  - right; right; right. exists (session_grant pull_request). split; [reflexivity|].
    destruct (match_grant no_url same_case (session_grant pull_request) now0 pull_request) as [x|] eqn:Hm;
      [by exists x|by vm_compute in Hm].
Defined.

(** ** Grants that cover too much *)

(** ADR 0003 has grants become rules of the engine, where the strictest decision
    wins, and not a bypass. The grant of a shell command does become a rule, but
    is consulted again after the rules decided to ask. *)
Lemma grant_overrides_prompt :
  (∃ r, shell_check no_url same_case no_text no_rules (Some (session_grant pull_request)) now0 pull_request
          = Ok (Some r) ∧ er_decision r = Prompt
          ∧ map r_decision (er_matchedRules r) = [Prompt; Allow])
  ∧ allows (session_grant pull_request) pull_request = true.
Proof.
  split; [|by vm_compute].
  destruct (shell_check no_url same_case no_text no_rules (Some (session_grant pull_request)) now0 pull_request)
    as [[r|]|] eqn:Hs; [|by vm_compute in Hs..].
  exists r. split; [exact Hs || reflexivity|]. vm_compute in Hs. by injection Hs as <-.
Qed.

(** The subject of a shell grant is its words without their quotes: an approval of
    one command that prints a text covers the command that runs the text. The
    command's directory and its environment are not part of the subject either. *)
Lemma grant_covers_other_commands :
  asks empty_store (shell_request Ask "echo x && rm y") = true ∧
  allows (session_grant (shell_request Ask "echo 'x && rm y'")) (shell_request Ask "echo x && rm y") = true ∧
  asks empty_store (shell_request Ask "LD_PRELOAD=./evil.so ./evil/make test") = true ∧
  allows (session_grant (shell_request Ask "make test"))
    (shell_request Ask "LD_PRELOAD=./evil.so ./evil/make test") = true.
Proof. vm_compute. done. Qed.

(** The subject of an escalated call does not name its command: where the sandbox
    is off, one approval covers every escalated command of the session. *)
Lemma escalated_grant_covers_all :
  asks empty_store (escalated "dd of=disk.img") = true ∧
  allows (session_grant (escalated "echo hi")) (escalated "dd of=disk.img") = true.
Proof. vm_compute. done. Qed.

(** A file grant drops the leading parents of a path. *)
Lemma file_grant_leaves_workspace :
  canonicalGrantSubject no_url same_case
    (request Ask RiskFileEdit "write" WorkspaceWrite [(js "path", JStr (js "../../notes.md"))])
  = canonicalGrantSubject no_url same_case
      (request Ask RiskFileEdit "write" WorkspaceWrite [(js "path", JStr (js "notes.md"))]).
Proof. vm_compute. done. Qed.

(** A command without words is stored as a rule no engine accepts: after "always
    allow" of an assignment every shell call fails instead of being decided. *)
Lemma empty_rule_breaks_guard :
  decide0 (rule_grant (shell_request Ask "A=1")) (shell_request Ask "ls")
    = Err (js "policy-1: exact pattern must be a non-empty string array") ∧
  asks empty_store (shell_request Ask "ls") = true.
Proof. vm_compute. done. Qed.
