(* ===== verification/AuditLog.v ===== *)
(** * The audit log

    apps/api/src/audit/audit.service.ts: events in a hash chain per tenant, the
    settings and export configurations, the in-memory repository, the service and
    the dispatchers of exports. The arrays of events are kept in a store of their
    own, since an append holds on to its array while it waits for the settings;
    [append] runs its two halves without a pause. SHA-256, the date check of the
    schemas, and the answers of the network are arguments. Members named
    [__proto__] or like array indexes are outside the model of JSON objects. *)

From S2P Require Import Prelude JsMap JsString PosixPath Json StableJson RegExp ExecPolicy Calendar IsoDate.
From Stdlib Require Import Lia.

Set Default Goal Selector "!".

(** ** Data *)

Record CloudAuditEvent := {
  ev_id : jstr; ev_tenantId : jstr; ev_sequence : Z; ev_actorUserId : option jstr;
  ev_category : jstr; ev_action : jstr; ev_targetType : option jstr; ev_targetId : option jstr;
  ev_workspaceId : option jstr; ev_taskId : option jstr; ev_sessionId : option jstr;
  ev_before : json; ev_after : json; ev_metadata : json;
  ev_previousHash : jstr; ev_eventHash : jstr; ev_ts : jstr; ev_expiresAt : jstr; ev_createdAt : jstr;
}.

Record CloudAuditSettings := {
  se_tenantId : jstr; se_retentionDays : Z; se_clientIngestEnabled : bool;
  se_updatedBy : option jstr; se_updatedAt : jstr;
}.

Inductive ExportKind := KindWebhook | KindS3.
Inductive ExportFormat := FormatJson | FormatCsv.
#[export] Instance ExportKind_eq_dec : EqDecision ExportKind.
Proof. solve_decision. Defined.
#[export] Instance ExportFormat_eq_dec : EqDecision ExportFormat.
Proof. solve_decision. Defined.

Record CloudAuditExportConfig := {
  xc_id : jstr; xc_tenantId : jstr; xc_kind : ExportKind; xc_enabled : bool; xc_destination : jstr;
  xc_format : ExportFormat; xc_config : json; xc_lastExportedAt : option jstr;
  xc_updatedBy : option jstr; xc_updatedAt : jstr;
}.

(** [null] and [undefined] are the same for every reader of these inputs. *)
Record AppendAuditInput := {
  ap_tenantId : jstr; ap_actorUserId : option jstr; ap_category : jstr; ap_action : jstr;
  ap_targetType : option jstr; ap_targetId : option jstr; ap_workspaceId : option jstr;
  ap_taskId : option jstr; ap_sessionId : option jstr; ap_before : option json; ap_after : option json;
  ap_metadata : option json; ap_ts : option jstr;
}.

Record CloudAuditIngestEvent := {
  in_actor : option jstr; in_category : jstr; in_action : jstr; in_targetType : option jstr;
  in_targetId : option jstr; in_workspaceId : option jstr; in_taskId : option jstr;
  in_sessionId : option jstr; in_before : option json; in_after : option json;
  in_metadata : option json; in_ts : option jstr;
}.

Record AuditEventFilter := {
  f_from : option Z; f_to : option Z; f_category : option jstr; f_action : option jstr;
  f_targetType : option jstr; f_actorUserId : option jstr; f_sessionId : option jstr; f_limit : option Z;
}.
Definition no_filter : AuditEventFilter :=
  {| f_from := None; f_to := None; f_category := None; f_action := None; f_targetType := None;
     f_actorUserId := None; f_sessionId := None; f_limit := None |}.

Inductive AuditError := RangeError | SchemaError | IngestDisabled | NetworkError (message : jstr).

(** What a call reads from its surroundings: fresh ids and clock readings. *)
Record AuditEnv := { ae_begin : Z; ae_ts : Z; ae_uuid : jstr; ae_now : Z }.

Record InMemoryAuditRepository := {
  ar_arrays : list (list CloudAuditEvent);
  ar_events : list (jstr * nat);
  ar_settings : list (jstr * CloudAuditSettings);
  ar_configs : list (jstr * list CloudAuditExportConfig);
}.
Definition newInMemoryAuditRepository : InMemoryAuditRepository :=
  {| ar_arrays := []; ar_events := []; ar_settings := []; ar_configs := [] |}.

(** ** Text *)

Definition canonicalJson : json → jstr := stableJson.

Definition redacted : jstr := js "[redacted]".

Definition is_secret_key (key : jstr) : bool :=
  re_test (js "secret|token|password|authorization|cookie|api[-_]?key|private[-_]?key") (toLowerCase key).

Definition alnum (c : N) : bool :=
  (is_digit c || (65 <=? c) && (c <=? 90) || (97 <=? c) && (c <=? 122))%N.
Definition key_char (c : N) : bool := (alnum c || (c =? 95) || (c =? 45))%N.
Definition token_char (c : N) : bool := alnum c || bool_decide (c ∈ js "._~+/=-").

Fixpoint drop_chars (p : N → bool) (s : jstr) : jstr :=
  match s with c :: s' => if p c then drop_chars p s' else s | [] => [] end.
(** One or more characters of a class; the classes next to each other are disjoint. *)
Definition eat_some (p : N → bool) (s : jstr) : option jstr :=
  match s with c :: s' => if p c then Some (drop_chars p s') else None | [] => None end.

(** A match of [(Bearer|sk-[A-Za-z0-9_-]+)\s+[A-Za-z0-9._~+/=-]+] at the start. *)
Definition eat_credential (s : jstr) : option jstr :=
  s ← (if starts_with (js "Bearer") s then Some (drop 6 s)
       else if starts_with (js "sk-") s then eat_some key_char (drop 3 s) else None);
  s ← eat_some is_ws s; eat_some token_char s.

(** The match starts at a word boundary; a credential ends with a character of a token. *)
Fixpoint scrub_from (fuel : nat) (previous : option N) (s : jstr) : jstr :=
  match fuel with
  | O => s
  | S fuel =>
      match s with
      | [] => []
      | c :: rest =>
          match (if match previous with Some p => is_word p | None => false end then None
                 else eat_credential s) with
          | Some after => redacted ++ scrub_from fuel (last (take (length s - length after) s)) after
          | None => c :: scrub_from fuel (Some c) rest
          end
      end
  end.
Definition scrubString (s : jstr) : jstr := scrub_from (length s) None s.

Fixpoint scrubJson (v : json) : json :=
  match v with
  | JArr l => JArr (map scrubJson l)
  | JStr s => JStr (scrubString s)
  | JObj l => JObj (map (λ '(k, v), (k, if is_secret_key k then JStr redacted else scrubJson v)) l)
  | _ => v
  end.

Definition csvCell (value : jstr) : jstr :=
  if existsb (λ c, (c =? 34) || (c =? 44) || (c =? 10))%N value
  then 34%N :: flat_map (λ c, if (c =? 34)%N then [34; 34]%N else [c]) value ++ [34%N]
  else value.

Definition csv_headers : list jstr :=
  map js ["ts"; "sequence"; "actor_user_id"; "category"; "action"; "target_type"; "target_id";
          "session_id"; "event_hash"]%string.
Definition csv_row (e : CloudAuditEvent) : list jstr :=
  [ev_ts e; dec (ev_sequence e); nullish (ev_actorUserId e) []; ev_category e; ev_action e;
   nullish (ev_targetType e) []; nullish (ev_targetId e) []; nullish (ev_sessionId e) []; ev_eventHash e].
Definition csv_text (rows : list (list jstr)) : jstr :=
  join [NL] (map (λ row, join [44%N] (map csvCell row)) rows).
Definition auditEventsCsv (events : list CloudAuditEvent) : jstr :=
  csv_text (csv_headers :: map csv_row events).

(** [JSON.stringify(value, null, 2)]. *)
Fixpoint pretty (indent : nat) (v : json) : jstr :=
  let inner := NL :: repeat 32%N (indent + 2) in
  let outer := NL :: repeat 32%N indent in
  match v with
  | JArr [] => js "[]"
  | JArr l => 91%N :: inner ++ join (44%N :: inner) (map (pretty (indent + 2)) l) ++ outer ++ [93%N]
  | JObj [] => js "{}"
  | JObj l => 123%N :: inner
      ++ join (44%N :: inner) (map (λ '(k, v), quote k ++ js ": " ++ pretty (indent + 2) v) l)
      ++ outer ++ [125%N]
  | _ => stringify v
  end.

Definition json_opt (s : option jstr) : json := match s with Some s => JStr s | None => JNull end.

Definition event_json (e : CloudAuditEvent) : json :=
  JObj [(js "id", JStr (ev_id e)); (js "tenantId", JStr (ev_tenantId e)); (js "sequence", JNum (ev_sequence e));
        (js "actorUserId", json_opt (ev_actorUserId e)); (js "category", JStr (ev_category e));
        (js "action", JStr (ev_action e)); (js "targetType", json_opt (ev_targetType e));
        (js "targetId", json_opt (ev_targetId e)); (js "workspaceId", json_opt (ev_workspaceId e));
        (js "taskId", json_opt (ev_taskId e)); (js "sessionId", json_opt (ev_sessionId e));
        (js "before", ev_before e); (js "after", ev_after e); (js "metadata", ev_metadata e);
        (js "previousHash", JStr (ev_previousHash e)); (js "eventHash", JStr (ev_eventHash e));
        (js "ts", JStr (ev_ts e)); (js "expiresAt", JStr (ev_expiresAt e)); (js "createdAt", JStr (ev_createdAt e))].

Definition settings_json (s : CloudAuditSettings) : json :=
  JObj [(js "tenantId", JStr (se_tenantId s)); (js "retentionDays", JNum (se_retentionDays s));
        (js "clientIngestEnabled", JBool (se_clientIngestEnabled s));
        (js "updatedBy", json_opt (se_updatedBy s)); (js "updatedAt", JStr (se_updatedAt s))].

Definition kind_text (k : ExportKind) : jstr := match k with KindWebhook => js "webhook" | KindS3 => js "s3" end.
Definition format_text (f : ExportFormat) : jstr := match f with FormatJson => js "json" | FormatCsv => js "csv" end.
Definition status_text (enabled : bool) : jstr := if enabled then js "enabled" else js "disabled".

Definition config_json (c : CloudAuditExportConfig) : json :=
  JObj [(js "id", JStr (xc_id c)); (js "tenantId", JStr (xc_tenantId c)); (js "kind", JStr (kind_text (xc_kind c)));
        (js "status", JStr (status_text (xc_enabled c))); (js "destination", JStr (xc_destination c));
        (js "format", JStr (format_text (xc_format c))); (js "config", xc_config c);
        (js "lastExportedAt", json_opt (xc_lastExportedAt c)); (js "updatedBy", json_opt (xc_updatedBy c));
        (js "updatedAt", JStr (xc_updatedAt c))].

(** ** The chain *)

Definition genesis : jstr := repeat 48%N 64.

(** [Array.prototype.sort] by sequence, which is stable. *)
Fixpoint insert_event (e : CloudAuditEvent) (l : list CloudAuditEvent) : list CloudAuditEvent :=
  match l with
  | [] => [e]
  | x :: l' => if (ev_sequence e <=? ev_sequence x)%Z then e :: l else x :: insert_event e l'
  end.
Definition sort_events (l : list CloudAuditEvent) : list CloudAuditEvent := foldr insert_event [] l.

(** [slice(-n)]: [-0] is 0, and the negative of a negative number counts from the start. *)
Definition slice_last {A} (n : Z) (l : list A) : list A :=
  if (n <=? 0)%Z then drop (Z.to_nat (- n)) l else drop (length l - Z.to_nat n) l.

Section audit.
(** SHA-256 in hexadecimal, and the date-time check of the schemas. *)
Variables (sha256 : jstr → jstr) (isoDate : jstr → bool).

Definition hash_fields (e : CloudAuditEvent) : json :=
  JObj [(js "id", JStr (ev_id e)); (js "tenantId", JStr (ev_tenantId e)); (js "sequence", JNum (ev_sequence e));
        (js "actorUserId", json_opt (ev_actorUserId e)); (js "category", JStr (ev_category e));
        (js "action", JStr (ev_action e)); (js "targetType", json_opt (ev_targetType e));
        (js "targetId", json_opt (ev_targetId e)); (js "workspaceId", json_opt (ev_workspaceId e));
        (js "taskId", json_opt (ev_taskId e)); (js "sessionId", json_opt (ev_sessionId e));
        (js "before", ev_before e); (js "after", ev_after e); (js "metadata", ev_metadata e);
        (js "previousHash", JStr (ev_previousHash e)); (js "ts", JStr (ev_ts e));
        (js "expiresAt", JStr (ev_expiresAt e))].
Definition hashAuditEvent (e : CloudAuditEvent) : jstr := sha256 (canonicalJson (hash_fields e)).

Fixpoint chain_from (previousHash : jstr) (events : list CloudAuditEvent) : bool :=
  match events with
  | [] => true
  | e :: events =>
      bool_decide (ev_previousHash e = previousHash) && bool_decide (hashAuditEvent e = ev_eventHash e)
      && chain_from (ev_eventHash e) events
  end.
Definition auditChainValid (events : list CloudAuditEvent) : bool := chain_from genesis (sort_events events).

Definition parse_event (e : CloudAuditEvent) : result AuditError CloudAuditEvent :=
  if (0 <? ev_sequence e)%Z && truthy (ev_category e) && truthy (ev_action e)
     && isoDate (ev_ts e) && isoDate (ev_expiresAt e) && isoDate (ev_createdAt e)
  then Ok e else Err SchemaError.

Definition with_hash (hash : jstr) (e : CloudAuditEvent) : CloudAuditEvent :=
  {| ev_id := ev_id e; ev_tenantId := ev_tenantId e; ev_sequence := ev_sequence e;
     ev_actorUserId := ev_actorUserId e; ev_category := ev_category e; ev_action := ev_action e;
     ev_targetType := ev_targetType e; ev_targetId := ev_targetId e; ev_workspaceId := ev_workspaceId e;
     ev_taskId := ev_taskId e; ev_sessionId := ev_sessionId e; ev_before := ev_before e;
     ev_after := ev_after e; ev_metadata := ev_metadata e; ev_previousHash := ev_previousHash e;
     ev_eventHash := hash; ev_ts := ev_ts e; ev_expiresAt := ev_expiresAt e; ev_createdAt := ev_createdAt e |}.

Definition iso (t : Z) : result AuditError jstr :=
  match toISOString t with Some s => Ok s | None => Err RangeError end.

Definition createAuditEvent (env : AuditEnv) (input : AppendAuditInput) (previous : option CloudAuditEvent)
    (retentionDays : Z) : result AuditError CloudAuditEvent :=
  let! ts := match ap_ts input with Some ts => Ok ts | None => iso (ae_ts env) end in
  let! expiresAt := match dateValue ts with
                    | Some t => iso (t + retentionDays * 86400000)
                    | None => Err RangeError
                    end in
  let! createdAt := iso (ae_now env) in
  let! event := parse_event
    {| ev_id := ae_uuid env; ev_tenantId := ap_tenantId input;
       ev_sequence := match previous with Some p => ev_sequence p | None => 0 end + 1;
       ev_actorUserId := ap_actorUserId input; ev_category := ap_category input; ev_action := ap_action input;
       ev_targetType := ap_targetType input; ev_targetId := ap_targetId input;
       ev_workspaceId := ap_workspaceId input; ev_taskId := ap_taskId input; ev_sessionId := ap_sessionId input;
       ev_before := nullish (ap_before input) JNull; ev_after := nullish (ap_after input) JNull;
       ev_metadata := scrubJson (nullish (ap_metadata input) (JObj []));
       ev_previousHash := match previous with Some p => ev_eventHash p | None => genesis end;
       ev_eventHash := js "pending"; ev_ts := ts; ev_expiresAt := expiresAt; ev_createdAt := createdAt |} in
  parse_event (with_hash (hashAuditEvent event) event).

(** ** The repository *)

Abbreviation Repo A := (M InMemoryAuditRepository AuditError A).

Definition events_of (tenantId : jstr) (r : InMemoryAuditRepository) : list CloudAuditEvent :=
  match map_get tenantId (ar_events r) with Some i => default [] (ar_arrays r !! i) | None => [] end.

Definition parse_settings (s : CloudAuditSettings) : result AuditError CloudAuditSettings :=
  if (1 <=? se_retentionDays s)%Z && (se_retentionDays s <=? 3650)%Z && isoDate (se_updatedAt s)
  then Ok s else Err SchemaError.

Definition set_settings (tenantId : jstr) (s : CloudAuditSettings) : Repo unit :=
  modify (λ r, {| ar_arrays := ar_arrays r; ar_events := ar_events r;
                  ar_settings := map_set tenantId s (ar_settings r); ar_configs := ar_configs r |}).

Definition getSettings (now : Z) (tenantId : jstr) : Repo CloudAuditSettings :=
  let! r := get in
  match map_get tenantId (ar_settings r) with
  | Some s => mret s
  | None =>
      let! now := lift (iso now) in
      let! s := lift (parse_settings {| se_tenantId := tenantId; se_retentionDays := 90;
                                        se_clientIngestEnabled := false; se_updatedBy := None;
                                        se_updatedAt := now |}) in
      do! set_settings tenantId s in mret s
  end.

Record CloudAuditSettingsUpdate := { su_retentionDays : option Z; su_clientIngestEnabled : option bool }.

(** An update once the settings have been read: after the [await]. *)
Definition changeSettings (now' : Z) (actorUserId : option jstr) (input : CloudAuditSettingsUpdate) (tenantId : jstr)
    (current : CloudAuditSettings) : Repo CloudAuditSettings :=
  let! now' := lift (iso now') in
  let! s := lift (parse_settings
    {| se_tenantId := se_tenantId current;
       se_retentionDays := nullish (su_retentionDays input) (se_retentionDays current);
       se_clientIngestEnabled := nullish (su_clientIngestEnabled input) (se_clientIngestEnabled current);
       se_updatedBy := actorUserId; se_updatedAt := now' |}) in
  do! set_settings tenantId s in mret s.

Definition updateSettings (now now' : Z) (tenantId : jstr) (actorUserId : option jstr)
    (input : CloudAuditSettingsUpdate) : Repo CloudAuditSettings :=
  let! current := getSettings now tenantId in changeSettings now' actorUserId input tenantId current.

(** An append up to its [await]: the array it will push to, the event before its
    own, the retention. A tenant without events gets a new array. *)
Record PendingAppend := { pa_array : nat; pa_previous : option CloudAuditEvent; pa_retentionDays : Z }.

Definition append_begin (now : Z) (input : AppendAuditInput) : Repo PendingAppend :=
  let! r := get in
  let! i := match map_get (ap_tenantId input) (ar_events r) with
            | Some i => mret i
            | None => do! put {| ar_arrays := ar_arrays r ++ [[]]; ar_events := ar_events r;
                                 ar_settings := ar_settings r; ar_configs := ar_configs r |} in
                      mret (length (ar_arrays r))
            end in
  let! previous := gets (λ r, last (default [] (ar_arrays r !! i))) in
  let! settings := getSettings now (ap_tenantId input) in
  mret {| pa_array := i; pa_previous := previous; pa_retentionDays := se_retentionDays settings |}.

Definition append_end (env : AuditEnv) (input : AppendAuditInput) (p : PendingAppend) : Repo CloudAuditEvent :=
  let! event := lift (createAuditEvent env input (pa_previous p) (pa_retentionDays p)) in
  do! modify (λ r, {| ar_arrays := alter (λ l, l ++ [event]) (pa_array p) (ar_arrays r);
                      ar_events := map_set (ap_tenantId input) (pa_array p) (ar_events r);
                      ar_settings := ar_settings r; ar_configs := ar_configs r |}) in
  mret event.

Definition append (env : AuditEnv) (input : AppendAuditInput) : Repo CloudAuditEvent :=
  let! p := append_begin (ae_begin env) input in append_end env input p.

(** [{ source, clientActor, ...metadata }]. *)
Definition ingest_metadata (source : jstr) (e : CloudAuditIngestEvent) : json :=
  JObj (fold_left (λ o '(k, v), map_set k v o)
          match in_metadata e with Some (JObj l) => l | _ => [] end
          [(js "source", JStr source); (js "clientActor", json_opt (in_actor e))]).

Definition ingest_input (tenantId : jstr) (actorUserId : option jstr) (source : jstr)
    (e : CloudAuditIngestEvent) : AppendAuditInput :=
  {| ap_tenantId := tenantId; ap_actorUserId := actorUserId; ap_category := in_category e;
     ap_action := in_action e; ap_targetType := in_targetType e; ap_targetId := in_targetId e;
     ap_workspaceId := in_workspaceId e; ap_taskId := in_taskId e; ap_sessionId := in_sessionId e;
     ap_before := Some (nullish (in_before e) JNull); ap_after := Some (nullish (in_after e) JNull);
     ap_metadata := Some (scrubJson (ingest_metadata source e)); ap_ts := in_ts e |}.

Fixpoint ingest (env : nat → AuditEnv) (tenantId : jstr) (actorUserId : option jstr) (source : jstr)
    (events : list CloudAuditIngestEvent) : Repo (list CloudAuditEvent) :=
  match events with
  | [] => mret []
  | e :: events =>
      let! created := append (env 0%nat) (ingest_input tenantId actorUserId source e) in
      let! rest := ingest (λ n, env (S n)) tenantId actorUserId source events in
      mret (created :: rest)
  end.

Definition pass (filter value : option jstr) : bool :=
  match filter with None | Some [] => true | Some f => bool_decide (value = Some f) end.

Definition matchesFilter (event : CloudAuditEvent) (filter : AuditEventFilter) : bool :=
  let ts := dateValue (ev_ts event) in
  match f_from filter with None => true
  | Some from => match ts with Some t => from <=? t | None => false end end%Z
  && match f_to filter with None => true
     | Some to => match ts with Some t => t <? to | None => false end end%Z
  && pass (f_category filter) (Some (ev_category event)) && pass (f_action filter) (Some (ev_action event))
  && pass (f_targetType filter) (ev_targetType event) && pass (f_actorUserId filter) (ev_actorUserId event)
  && pass (f_sessionId filter) (ev_sessionId event).

Definition listEvents (tenantId : jstr) (filter : AuditEventFilter) : Repo (list CloudAuditEvent) :=
  gets (λ r, sort_events (slice_last (nullish (f_limit filter) 1000%Z)
               (List.filter (λ e, matchesFilter e filter) (events_of tenantId r)))).

Definition listExportConfigs (tenantId : jstr) : Repo (list CloudAuditExportConfig) :=
  gets (λ r, default [] (map_get tenantId (ar_configs r))).

Record CloudAuditExportConfigUpsert := {
  xu_kind : ExportKind; xu_enabled : option bool; xu_destination : jstr;
  xu_format : option ExportFormat; xu_config : option json;
}.

Definition set_configs (tenantId : jstr) (l : list CloudAuditExportConfig) : Repo unit :=
  modify (λ r, {| ar_arrays := ar_arrays r; ar_events := ar_events r; ar_settings := ar_settings r;
                  ar_configs := map_set tenantId l (ar_configs r) |}).

Definition parse_config (c : CloudAuditExportConfig) : result AuditError CloudAuditExportConfig :=
  if truthy (xc_destination c) && match xc_lastExportedAt c with Some t => isoDate t | None => true end
     && isoDate (xc_updatedAt c)
  then Ok c else Err SchemaError.

Definition upsertExportConfig (uuid : jstr) (now : Z) (tenantId : jstr) (actorUserId : option jstr)
    (input : CloudAuditExportConfigUpsert) : Repo CloudAuditExportConfig :=
  let! configs := listExportConfigs tenantId in
  let existing := find_first (λ c, bool_decide (xc_kind c = xu_kind input)
                                   && bool_decide (xc_destination c = xu_destination input)) configs in
  let! now := lift (iso now) in
  let! config := lift (parse_config
    {| xc_id := nullish (xc_id <$> existing) uuid; xc_tenantId := tenantId; xc_kind := xu_kind input;
       xc_enabled := nullish (xu_enabled input) (nullish (xc_enabled <$> existing) true);
       xc_destination := xu_destination input;
       xc_format := nullish (xu_format input) (nullish (xc_format <$> existing) FormatJson);
       xc_config := scrubJson (nullish (xu_config input) (nullish (xc_config <$> existing) (JObj [])));
       xc_lastExportedAt := existing ≫= xc_lastExportedAt; xc_updatedBy := actorUserId;
       xc_updatedAt := now |}) in
  do! set_configs tenantId
        match existing with
        | Some e => map (λ c, if bool_decide (xc_id c = xc_id e) then config else c) configs
        | None => configs ++ [config]
        end in
  mret config.

Definition markExported (tenantId configId exportedAt : jstr) : Repo unit :=
  let! configs := listExportConfigs tenantId in
  set_configs tenantId
    (map (λ c, if bool_decide (xc_id c = configId)
               then {| xc_id := xc_id c; xc_tenantId := xc_tenantId c; xc_kind := xc_kind c;
                       xc_enabled := xc_enabled c; xc_destination := xc_destination c;
                       xc_format := xc_format c; xc_config := xc_config c;
                       xc_lastExportedAt := Some exportedAt; xc_updatedBy := xc_updatedBy c;
                       xc_updatedAt := xc_updatedAt c |}
               else c) configs).

(** ** The service *)

(** A request to the network: a POST to a web hook, or an object put in a bucket. *)
Inductive ExportRequest :=
| Post (url contentType tenantId body : jstr)
| Put (bucket key contentType tenantId configId body : jstr).

(** [response.ok], or the error the call rejects with, given the earlier requests. *)
Variable network : list ExportRequest → ExportRequest → result jstr bool.

Record DispatchInput := {
  di_tenantId : jstr; di_config : CloudAuditExportConfig; di_format : ExportFormat; di_payload : jstr;
}.

(** The dispatchers the environment makes; [S3Dispatcher] with its bucket and prefix. *)
Inductive Dispatcher :=
| NoopDispatcher
| WebhookDispatcher
| S3Dispatcher (bucket : jstr) (prefix : option jstr)
| CompositeDispatcher (l : list Dispatcher).

Definition contentType (f : ExportFormat) : jstr :=
  match f with FormatCsv => js "text/csv; charset=utf-8" | FormatJson => js "application/json; charset=utf-8" end.

Definition strip_ends (s : jstr) : jstr := strip_slashes (reverse (strip_slashes (reverse s))).
Definition s3AuditKey (now tenantId : jstr) (config : CloudAuditExportConfig) (format : ExportFormat)
    (prefix : option jstr) : jstr :=
  let stamp := map (λ c, if (c =? 58)%N || (c =? 46)%N then 45%N else c) now in
  join [slash] [strip_ends (nullish prefix (js "audit")); tenantId; xc_id config; stamp ++ js "." ++ format_text format].

Abbreviation Net A := (M (list ExportRequest) AuditError A).

Definition send (r : ExportRequest) : Net bool := λ log,
  (match network log r with Ok b => Ok b | Err e => Err (NetworkError e) end, log ++ [r]).

Fixpoint dispatch (now : Z) (d : Dispatcher) (input : DispatchInput) : Net (jstr * bool) :=
  let config := di_config input in
  let refused := mret (xc_destination config, false) in
  match d with
  | NoopDispatcher => refused
  | WebhookDispatcher =>
      if negb (xc_enabled config) then refused
      else if negb (bool_decide (xc_kind config = KindWebhook)) then refused
      else let! ok := send (Post (xc_destination config) (contentType (di_format input))
                              (di_tenantId input) (di_payload input)) in
           mret (xc_destination config, ok)
  | S3Dispatcher bucket prefix =>
      if negb (xc_enabled config) then refused
      else if negb (bool_decide (xc_kind config = KindS3)) then refused
      else let! now := lift (iso now) in
           let key := s3AuditKey now (di_tenantId input) config (di_format input) prefix in
           do! send (Put bucket key (contentType (di_format input)) (di_tenantId input) (xc_id config)
                       (di_payload input)) in
           mret (js "s3://" ++ bucket ++ [slash] ++ key, true)
  | CompositeDispatcher l =>
      (fix go (l : list Dispatcher) : Net (jstr * bool) :=
         match l with
         | [] => refused
         | d :: l =>
             let! result := dispatch now d input in
             if result.2 || negb (bool_decide (result.1 = xc_destination config)) then mret result else go l
         end) l
  end.

(** Of the environment, the bucket and the prefix decide; credentials go to the client. *)
Definition createAuditExportDispatcherFromEnv (bucket prefix : option jstr) : Dispatcher :=
  CompositeDispatcher (WebhookDispatcher ::
    match bucket with
    | Some b => if truthy b then [S3Dispatcher b (Some (nullish prefix (js "audit")))] else []
    | None => []
    end).

Record ServiceState := { ss_repo : InMemoryAuditRepository; ss_log : list ExportRequest }.
Abbreviation Service A := (M ServiceState AuditError A).

Definition repo {A} (m : Repo A) : Service A := λ s,
  let '(a, r) := m (ss_repo s) in (a, {| ss_repo := r; ss_log := ss_log s |}).
Definition net {A} (m : Net A) : Service A := λ s,
  let '(a, l) := m (ss_log s) in (a, {| ss_repo := ss_repo s; ss_log := l |}).

Definition audit_input (tenantId : jstr) (actorUserId : option jstr) (action targetType targetId : jstr)
    (after : option json) (metadata : json) : AppendAuditInput :=
  {| ap_tenantId := tenantId; ap_actorUserId := actorUserId; ap_category := js "audit"; ap_action := action;
     ap_targetType := Some targetType; ap_targetId := Some targetId; ap_workspaceId := None; ap_taskId := None;
     ap_sessionId := None; ap_before := None; ap_after := after; ap_metadata := Some metadata; ap_ts := None |}.

Definition service_updateSettings (now now' : Z) (env : AuditEnv) (tenantId : jstr) (actorUserId : option jstr)
    (input : CloudAuditSettingsUpdate) : Service CloudAuditSettings :=
  let! settings := repo (updateSettings now now' tenantId actorUserId input) in
  do! repo (append env (audit_input tenantId actorUserId (js "settings-updated") (js "audit_settings") tenantId
              (Some (settings_json settings))
              (JObj [(js "retentionDays", JNum (se_retentionDays settings));
                     (js "clientIngestEnabled", JBool (se_clientIngestEnabled settings))]))) in
  mret settings.

Definition ingestClientEvents (now : Z) (envs : nat → AuditEnv) (env : AuditEnv) (tenantId : jstr)
    (actorUserId : option jstr) (source : jstr) (events : list CloudAuditIngestEvent)
    : Service (list CloudAuditEvent) :=
  let! settings := repo (getSettings now tenantId) in
  if negb (se_clientIngestEnabled settings) then throw IngestDisabled
  else
    let! created := repo (ingest envs tenantId actorUserId source events) in
    do! repo (append env (audit_input tenantId actorUserId (js "client-events-ingested") (js "audit_events") source
                None (JObj [(js "source", JStr source); (js "count", JNum (Z.of_nat (length created)))]))) in
    mret created.

Definition service_upsertExportConfig (uuid : jstr) (now : Z) (env : AuditEnv) (tenantId : jstr)
    (actorUserId : option jstr) (input : CloudAuditExportConfigUpsert) : Service CloudAuditExportConfig :=
  let! config := repo (upsertExportConfig uuid now tenantId actorUserId input) in
  do! repo (append env (audit_input tenantId actorUserId (js "export-config-upserted") (js "audit_export_config")
              (xc_id config) (Some (config_json config))
              (JObj [(js "kind", JStr (kind_text (xc_kind config))); (js "destination", JStr (xc_destination config));
                     (js "status", JStr (status_text (xc_enabled config)))]))) in
  mret config.

Record CloudAuditExportResult := {
  xr_tenantId : jstr; xr_configId : option jstr; xr_kind : option ExportKind; xr_format : ExportFormat;
  xr_count : nat; xr_chainValid : bool; xr_destination : option jstr; xr_delivered : bool; xr_exportedAt : jstr;
}.

(** A result without a kind of its own is a download. *)
Definition export (now now' : Z) (dispatcher : Dispatcher) (tenantId : jstr) (format : ExportFormat)
    (filter : AuditEventFilter) (configId : option jstr) : Service (jstr * CloudAuditExportResult) :=
  let! events := repo (listEvents tenantId filter) in
  let chainValid := auditChainValid events in
  let payload := match format with
                 | FormatCsv => auditEventsCsv events
                 | FormatJson => pretty 0 (JArr (map event_json events))
                 end in
  let! exportedAt := lift (iso now) in
  let! config := (if truthy_opt configId
                  then let! l := repo (listExportConfigs tenantId) in
                       mret (find_first (λ c, bool_decide (Some (xc_id c) = configId)) l)
                  else mret None) : Service (option CloudAuditExportConfig) in
  let! delivery := match config return Service (option (jstr * bool)) with
                   | None => mret None
                   | Some config =>
                       let! d := net (A := jstr * bool) (dispatch now' dispatcher
                         {| di_tenantId := tenantId; di_config := config; di_format := format;
                            di_payload := payload |}) in
                       do! ((if (d : jstr * bool).2 then repo (markExported tenantId (xc_id config) exportedAt)
                             else mret tt) : Service unit) in
                       mret (Some d)
                   end in
  if isoDate exportedAt then
    mret (payload,
      {| xr_tenantId := tenantId; xr_configId := xc_id <$> config; xr_kind := xc_kind <$> config;
         xr_format := format; xr_count := length events; xr_chainValid := chainValid;
         xr_destination := fst <$> delivery; xr_delivered := default false (snd <$> delivery);
         xr_exportedAt := exportedAt |})
  else throw SchemaError.
End audit.
