(* ===== verification/AuditLogFacts.v ===== *)
(** * Facts about the audit log

    Any run of the service keeps every tenant's log a hash chain that only grows;
    a chain with a given last hash has one content; an export vouches for the
    chain exactly when it holds its beginning; metadata keeps no secrets; the CSV
    export is read back. Appends that overlap break the chain. *)

From stdpp Require Import sorting.
From S2P Require Import Prelude JsMap JsString Json StableJson ExecPolicy Calendar IsoDate AuditLog.
From Stdlib Require Import Lia.

Set Default Goal Selector "!".

Abbreviation Repo A := (M InMemoryAuditRepository AuditError A).
Abbreviation Net A := (M (list ExportRequest) AuditError A).
Abbreviation Service A := (M ServiceState AuditError A).

Section audit.
Variables (sha256 : jstr → jstr) (isoDate : jstr → bool).
Variable network : list ExportRequest → ExportRequest → result jstr bool.
Implicit Types (r : InMemoryAuditRepository) (e : CloudAuditEvent) (l : list CloudAuditEvent).

Notation hashAuditEvent := (hashAuditEvent sha256).
Notation auditChainValid := (auditChainValid sha256).
Notation append := (append sha256 isoDate).

(** ** Linked logs *)

(** The log of a tenant: numbered from one, each event with its own hash and the
    hash of the one before it. *)
Fixpoint linked (tenant previous : jstr) (n : Z) l : Prop :=
  match l with
  | [] => True
  | e :: l => ev_tenantId e = tenant ∧ ev_sequence e = (n + 1)%Z ∧ ev_previousHash e = previous
              ∧ ev_eventHash e = hashAuditEvent e ∧ linked tenant (ev_eventHash e) (n + 1) l
  end.

Definition last_hash (previous : jstr) l : jstr := default previous (ev_eventHash <$> last l).

Lemma last_hash_cons previous e l : last_hash previous (e :: l) = last_hash (ev_eventHash e) l.
Proof. unfold last_hash. destruct l as [|x l]; [done|]. rewrite last_cons_cons.
  destruct (last (x :: l)) as [y|] eqn:E; [done|]. by apply last_None in E.
Qed.

Lemma linked_app tenant previous n l k :
  linked tenant previous n (l ++ k) ↔
  linked tenant previous n l ∧ linked tenant (last_hash previous l) (n + Z.of_nat (length l)) k.
Proof.
  revert previous n. induction l as [|e l IH]; intros previous n.
  - simpl. rewrite Z.add_0_r. unfold last_hash; simpl. intuition.
  - rewrite last_hash_cons. cbn [app linked length]. rewrite IH.
    replace (n + 1 + Z.of_nat (length l))%Z with (n + Z.of_nat (S (length l)))%Z by lia. intuition.
Qed.

Lemma linked_last tenant previous n l e :
  linked tenant previous n (l ++ [e]) → ev_sequence e = (n + Z.of_nat (length l) + 1)%Z.
Proof. rewrite linked_app. intros (_ & _ & H & _). lia. Qed.

Lemma linked_sequences tenant previous n l i e :
  linked tenant previous n l → l !! i = Some e → ev_sequence e = (n + Z.of_nat i + 1)%Z.
Proof.
  revert previous n i. induction l as [|x l IH]; intros previous n i; [done|].
  intros (_ & Hs & _ & _ & H) Hi. destruct i as [|i]; simpl in Hi.
  - injection Hi as <-. lia.
  - rewrite (IH _ _ _ H Hi). lia.
Qed.

Lemma insert_event_head e l : Forall (λ x, (ev_sequence e ≤ ev_sequence x)%Z) l → insert_event e l = e :: l.
Proof. intros H. destruct l as [|x l]; [done|]. inversion H; subst. simpl. by rewrite (proj2 (Z.leb_le _ _)). Qed.

Lemma linked_sorted tenant previous n l : linked tenant previous n l → sort_events l = l.
Proof.
  revert previous n. induction l as [|e l IH]; intros previous n; [done|].
  intros (_ & Hs & _ & _ & H). simpl. rewrite (IH _ _ H). apply insert_event_head, Forall_lookup.
  intros i x Hx. rewrite (linked_sequences _ _ _ _ _ _ H Hx). lia.
Qed.

Lemma linked_chain tenant previous n l : linked tenant previous n l → chain_from sha256 previous l = true.
Proof.
  revert previous n. induction l as [|e l IH]; intros previous n; [done|].
  intros (_ & _ & Hp & Hh & H). cbn [chain_from]. rewrite <- Hh, Hp, !bool_decide_eq_true_2 by done.
  exact (IH _ _ H).
Qed.

Lemma linked_valid tenant l : linked tenant genesis 0 l → auditChainValid l = true.
Proof. intros H. unfold AuditLog.auditChainValid. rewrite (linked_sorted _ _ _ _ H). by eapply linked_chain. Qed.

(** ** Appends *)

Lemma hash_with_hash h e : hashAuditEvent (with_hash h e) = hashAuditEvent e.
Proof. done. Qed.

Lemma createAuditEvent_linked env input previous retention e :
  createAuditEvent sha256 isoDate env input previous retention = Ok e →
  linked (ap_tenantId input) (default genesis (ev_eventHash <$> previous))
    (default 0%Z (ev_sequence <$> previous)) [e].
Proof.
  unfold createAuditEvent. intros (ts & _ & H)%result_bind_ok. apply result_bind_ok in H as (ex & _ & H).
  apply result_bind_ok in H as (cr & _ & H). apply result_bind_ok in H as (ev & Hev & H).
  unfold parse_event in *. destruct (_ && _) in Hev; [|done]. injection Hev as <-.
  destruct (_ && _) in H; [|done]. injection H as <-. simpl. destruct previous; by split_and!.
Qed.

(** The registered arrays exist and are not shared, and hold linked logs. *)
Definition repo_ok r : Prop :=
  (∀ t i, map_get t (ar_events r) = Some i → (i < length (ar_arrays r))%nat) ∧
  (∀ t t' i, map_get t (ar_events r) = Some i → map_get t' (ar_events r) = Some i → t = t') ∧
  ∀ t, linked t genesis 0 (events_of t r).

(** The logs of [r'] are those of [r], with [new] at the end of the log of [tenant]. *)
Definition logs_extend (tenant : jstr) (new : list CloudAuditEvent) r r' : Prop :=
  ∀ t, events_of t r' = events_of t r ++ (if decide (t = tenant) then new else []).

Definition same_logs r r' : Prop := ar_arrays r' = ar_arrays r ∧ ar_events r' = ar_events r.

Lemma same_logs_ok r r' : same_logs r r' → repo_ok r → repo_ok r'.
Proof. intros [Ha He] (H1 & H2 & H3). unfold repo_ok, events_of in *. rewrite Ha, He. by split_and!. Qed.

Lemma same_logs_events r r' t : same_logs r r' → events_of t r' = events_of t r.
Proof. intros [Ha He]. unfold events_of. by rewrite Ha, He. Qed.

Lemma getSettings_same now tenant r res r' : getSettings isoDate now tenant r = (res, r') → same_logs r r'.
Proof.
  unfold getSettings, mbind, M_bind, get, lift, set_settings, modify, mret, M_ret.
  repeat case_match; intros; simplify_eq/=; done.
Qed.

(** The array an append pushes to is the tenant's own, or new and empty. *)
Definition holds_array (tenant : jstr) (i : nat) r : Prop :=
  ar_arrays r !! i = Some (events_of tenant r) ∧
  ∀ t, map_get t (ar_events r) = Some i → t = tenant.

Lemma repo_ok_array r t i :
  repo_ok r → map_get t (ar_events r) = Some i → holds_array t i r.
Proof.
  intros (H1 & H2 & _) Hi. split; [|intros t' Ht'; by eapply H2].
  unfold events_of. rewrite Hi. destruct (lookup_lt_is_Some_2 (ar_arrays r) i (H1 _ _ Hi)) as [l Hl].
  by rewrite Hl.
Qed.

Lemma new_array_ok r :
  let r' := {| ar_arrays := ar_arrays r ++ [[]]; ar_events := ar_events r;
               ar_settings := ar_settings r; ar_configs := ar_configs r |} in
  repo_ok r → repo_ok r' ∧ (∀ t, events_of t r' = events_of t r) ∧
  ∀ t, map_get t (ar_events r) = None → holds_array t (length (ar_arrays r)) r'.
Proof.
  intros r' (H1 & H2 & H3).
  assert (∀ t, events_of t r' = events_of t r) as He.
  { intros t. unfold events_of; simpl. destruct (map_get t (ar_events r)) as [i|] eqn:Hi; [|done].
    by rewrite lookup_app_l by eauto. }
  split; [|split; [done|]].
  - split_and!; simpl; [|done|by intros t; rewrite He].
    intros t i Hi. rewrite length_app. apply H1 in Hi. simpl. lia.
  - intros t Ht. split; simpl.
    + rewrite lookup_app_r, Nat.sub_diag by lia. rewrite He. unfold events_of. by rewrite Ht.
    + intros t' Ht'. apply H1 in Ht'. lia.
Qed.

Lemma append_begin_spec now input r res r' :
  repo_ok r → append_begin isoDate now input r = (res, r') →
  repo_ok r' ∧ (∀ t, events_of t r' = events_of t r) ∧
  match res with
  | Ok p => holds_array (ap_tenantId input) (pa_array p) r' ∧ pa_previous p = last (events_of (ap_tenantId input) r)
  | Err _ => True
  end.
Proof.
  intros Hok. unfold append_begin, mbind, M_bind, get, gets, put, mret, M_ret. cbv beta iota.
  set (r1 := match map_get (ap_tenantId input) (ar_events r) with
             | Some _ => r
             | None => {| ar_arrays := ar_arrays r ++ [[]]; ar_events := ar_events r;
                          ar_settings := ar_settings r; ar_configs := ar_configs r |} end).
  set (i := match map_get (ap_tenantId input) (ar_events r) with Some i => i | None => length (ar_arrays r) end).
  assert (repo_ok r1 ∧ (∀ t, events_of t r1 = events_of t r) ∧ holds_array (ap_tenantId input) i r1)
    as (Hok1 & He1 & Hi).
  { subst r1 i. destruct (map_get _ (ar_events r)) as [i|] eqn:Hi.
    - split_and!; [done..|by apply repo_ok_array].
    - pose proof (new_array_ok r Hok) as (? & ? & ?). split_and!; auto. }
  intros H.
  assert (H' : (let '(x, s) := getSettings isoDate now (ap_tenantId input) r1 in
                match x with
                | Ok s' => (Ok (E:=AuditError) {| pa_array := i; pa_previous := last (default [] (ar_arrays r1 !! i));
                                   pa_retentionDays := se_retentionDays s' |}, s)
                | Err e => (Err e, s)
                end) = (res, r')).
  { subst r1 i. destruct (map_get _ (ar_events r)); destruct (getSettings _ _ _ _) as [[] ?]; exact H. }
  clear H. destruct (getSettings isoDate now (ap_tenantId input) r1) as [x s] eqn:Hs.
  apply getSettings_same in Hs.
  assert (s = r') as <- by (destruct x; congruence).
  split; [by eapply same_logs_ok|]. split; [intros t; rewrite (same_logs_events _ _ t Hs); apply He1|].
  destruct x as [st|e]; injection H' as <-; [|done]. cbn [pa_array pa_previous]. split.
  - destruct Hi as [Ha Ht]. split; [rewrite (same_logs_events _ _ _ Hs); by rewrite (proj1 Hs)|].
    intros t. rewrite (proj2 Hs). apply Ht.
  - rewrite (proj1 Hi). simpl. by rewrite He1.
Qed.

Lemma append_end_spec env input p r res r' :
  repo_ok r → holds_array (ap_tenantId input) (pa_array p) r →
  pa_previous p = last (events_of (ap_tenantId input) r) →
  append_end sha256 isoDate env input p r = (res, r') →
  repo_ok r' ∧ logs_extend (ap_tenantId input) (match res with Ok e => [e] | Err _ => [] end) r r'.
Proof.
  intros Hok [Ha Ht] Hp. unfold append_end, mbind, M_bind, lift, modify, mret, M_ret.
  destruct (createAuditEvent _ _ _ _ _ _) as [e|x] eqn:He; intros H; injection H as <- <-.
  2: { split; [done|]. intros t. case_decide; by rewrite app_nil_r. }
  set (t := ap_tenantId input) in *.
  set (r' := {| ar_arrays := alter (λ l, l ++ [e]) (pa_array p) (ar_arrays r);
                ar_events := map_set t (pa_array p) (ar_events r);
                ar_settings := ar_settings r; ar_configs := ar_configs r |}).
  assert (logs_extend t [e] r r') as Hext.
  { intros t'. unfold events_of; simpl. rewrite map_get_set. destruct (decide (t' = t)) as [->|Hne].
    - rewrite list_lookup_alter_eq, Ha. done.
    - rewrite app_nil_r. destruct (map_get t' (ar_events r)) as [i|] eqn:Hi; [|done].
      rewrite list_lookup_alter_ne; [done|]. intros <-. by apply Hne, Ht. }
  destruct Hok as (H1 & H2 & H3). split; [|exact Hext]. split_and!.
  - simpl. intros t' i. rewrite length_alter, map_get_set. case_decide; [|apply H1].
    intros [= <-]. by eapply lookup_lt_Some.
  - simpl. intros t' t'' i. rewrite !map_get_set. repeat case_decide; subst; [done|..].
    + intros [= <-] Hi. by apply Ht in Hi.
    + intros Hi [= <-]. by apply Ht in Hi.
    + apply H2.
  - intros t'. rewrite Hext. case_decide as Hd; [subst t'|rewrite app_nil_r; apply H3].
    apply linked_app. split; [apply H3|]. apply createAuditEvent_linked in He. fold t in He.
    rewrite Hp in He. unfold last_hash.
    assert (default 0%Z (ev_sequence <$> last (events_of t r)) = (0 + Z.of_nat (length (events_of t r)))%Z) as <-;
      [|exact He].
    destruct (last (events_of t r)) as [x|] eqn:Hl; [|apply last_None in Hl; by rewrite Hl].
    apply last_Some in Hl as [l' Hl]. specialize (H3 t). rewrite Hl in *.
    apply linked_last in H3. rewrite length_app. simpl in *. lia.
Qed.

Lemma append_spec env input r res r' :
  repo_ok r → append env input r = (res, r') →
  repo_ok r' ∧ logs_extend (ap_tenantId input) (match res with Ok e => [e] | Err _ => [] end) r r'.
Proof.
  intros Hok. unfold AuditLog.append, mbind, M_bind.
  destruct (append_begin isoDate _ input r) as [x s] eqn:Hb.
  apply append_begin_spec in Hb as (Hok1 & He & Hx); [|done]. destruct x as [p|x].
  - destruct Hx as [Ha Hp]. intros H. apply append_end_spec in H as [? Hext]; [|done|done|by rewrite He].
    split; [done|]. intros t. by rewrite Hext, He.
  - intros H. injection H as <- <-. split; [done|]. intros t. rewrite He. case_decide; by rewrite app_nil_r.
Qed.

(** ** Operations only add to the logs *)

Definition grows r r' : Prop :=
  repo_ok r → repo_ok r' ∧ ∀ t, events_of t r `prefix_of` events_of t r'.
#[local] Instance grows_preorder : PreOrder grows.
Proof.
  split; [by intros r|]. intros r1 r2 r3 H12 H23 Hok. destruct (H12 Hok) as [H2 P12].
  destruct (H23 H2) as [H3 P23]. split; [done|]. intros t. by transitivity (events_of t r2).
Qed.

#[local] Instance same_logs_preorder : PreOrder same_logs.
Proof. unfold same_logs. split; [done|]. intros r1 r2 r3 [? ?] [? ?]. split; congruence. Qed.
Lemma same_logs_grows r r' : same_logs r r' → grows r r'.
Proof.
  intros H Hok. split; [exact (same_logs_ok _ _ H Hok)|]. intros t. rewrite (same_logs_events _ _ t H). reflexivity.
Qed.

(** A computation whose state holds a repository changes it along a relation. *)
Definition steady (R : InMemoryAuditRepository → InMemoryAuditRepository → Prop) {S A}
    (view : S → InMemoryAuditRepository) (m : M S AuditError A) : Prop :=
  ∀ s, R (view s) (view (m s).2).
Abbreviation calm m := (steady grows id m).
Abbreviation quiet m := (steady same_logs id m).

Lemma steady_pure R `{!PreOrder R} {S A} (view : S → InMemoryAuditRepository) (m : M S AuditError A) :
  (∀ s, view (m s).2 = view s) → steady R view m.
Proof. intros H s. rewrite H. reflexivity. Qed.
Lemma steady_bind R `{!PreOrder R} {S A B} (view : S → InMemoryAuditRepository)
    (m : M S AuditError A) (f : A → M S AuditError B) :
  steady R view m → (∀ a, steady R view (f a)) → steady R view (m ≫= f).
Proof.
  intros Hm Hf s. unfold mbind, M_bind. specialize (Hm s). destruct (m s) as [[a|x] s']; simpl in *; [|exact Hm].
  etrans; [exact Hm|]. apply Hf.
Qed.
Lemma steady_repo R {A} (m : Repo A) : steady R id m → steady R ss_repo (repo m).
Proof. intros H s. unfold repo. specialize (H (ss_repo s)). by destruct (m (ss_repo s)). Qed.
Lemma steady_net R `{!PreOrder R} {A} (m : Net A) : steady R ss_repo (net m).
Proof. apply (steady_pure R). intros s. unfold net. by destruct (m (ss_log s)). Qed.
Lemma quiet_calm {A} (m : Repo A) : quiet m → calm m.
Proof. intros H r. apply same_logs_grows, H. Qed.

Lemma calm_append env input : calm (append env input).
Proof.
  intros r. unfold id. intros Hok. destruct (append env input r) as [res r'] eqn:H. apply append_spec in H as [Hok' Hext]; [|done].
  split; [done|]. intros t. rewrite Hext. by eexists.
Qed.
Lemma quiet_getSettings now t : quiet (getSettings isoDate now t).
Proof. intros r. unfold id. destruct (getSettings isoDate now t r) eqn:H; by eapply getSettings_same. Qed.
Lemma quiet_set_settings t s : quiet (set_settings t s).
Proof. done. Qed.
Lemma quiet_set_configs t (configs : list CloudAuditExportConfig) : quiet (set_configs t configs).
Proof. done. Qed.

#[local] Opaque AuditLog.append AuditLog.getSettings.

Ltac steady_tac :=
  repeat first
    [ apply steady_bind; [apply _| |intros ?]
    | apply steady_repo | apply steady_net; apply _
    | apply calm_append | apply quiet_getSettings | apply quiet_set_settings | apply quiet_set_configs
    | apply steady_pure; [apply _|intros ?; reflexivity]
    | apply quiet_calm; first [apply quiet_getSettings | apply quiet_set_settings | apply quiet_set_configs]
    | case_match ].

Lemma quiet_changeSettings now' t actor input current : quiet (changeSettings isoDate now' actor input t current).
Proof. unfold changeSettings. steady_tac. Qed.
Lemma quiet_updateSettings now now' t actor input : quiet (updateSettings isoDate now now' t actor input).
Proof. unfold updateSettings. apply steady_bind; [apply _|apply quiet_getSettings|intros current; apply quiet_changeSettings]. Qed.
Lemma quiet_upsert uuid now t actor input : quiet (upsertExportConfig isoDate uuid now t actor input).
Proof. unfold upsertExportConfig, listExportConfigs. steady_tac. Qed.
Lemma calm_ingest envs t actor source events : calm (ingest sha256 isoDate envs t actor source events).
Proof. revert envs. induction events as [|x l IH]; intros envs; cbn [ingest]; steady_tac; apply IH. Qed.

(** What callers of the service do, and what they do not see of its failures. *)
Inductive AuditOp :=
| OpAppend (env : AuditEnv) (input : AppendAuditInput)
| OpSettings (now now' : Z) (env : AuditEnv) (tenant : jstr) (actor : option jstr) (input : CloudAuditSettingsUpdate)
| OpIngest (now : Z) (envs : nat → AuditEnv) (env : AuditEnv) (tenant : jstr) (actor : option jstr)
    (source : jstr) (events : list CloudAuditIngestEvent)
| OpUpsert (uuid : jstr) (now : Z) (env : AuditEnv) (tenant : jstr) (actor : option jstr)
    (input : CloudAuditExportConfigUpsert)
| OpExport (now now' : Z) (d : Dispatcher) (tenant : jstr) (format : ExportFormat) (filter : AuditEventFilter)
    (config : option jstr).

Definition run_op (op : AuditOp) (s : ServiceState) : ServiceState :=
  match op with
  | OpAppend env input => (repo (append env input) s).2
  | OpSettings now now' env t a i => (service_updateSettings sha256 isoDate now now' env t a i s).2
  | OpIngest now envs env t a src l => (ingestClientEvents sha256 isoDate now envs env t a src l s).2
  | OpUpsert u now env t a i => (service_upsertExportConfig sha256 isoDate u now env t a i s).2
  | OpExport now now' d t f x c => (export sha256 isoDate network now now' d t f x c s).2
  end.
Definition run_ops (ops : list AuditOp) (s : ServiceState) : ServiceState := fold_left (λ s op, run_op op s) ops s.
Definition newService : ServiceState := {| ss_repo := newInMemoryAuditRepository; ss_log := [] |}.

Lemma run_op_grows op s : grows (ss_repo s) (ss_repo (run_op op s)).
Proof.
  assert (∀ A (m : Service A), steady grows ss_repo m → grows (ss_repo s) (ss_repo (m s).2)) as H
    by (intros A m Hm; apply Hm).
  destruct op; simpl; apply H.
  - apply steady_repo, calm_append.
  - unfold service_updateSettings. steady_tac.
  - unfold ingestClientEvents. steady_tac. apply calm_ingest.
  - unfold service_upsertExportConfig. steady_tac.
  - unfold export, listEvents, listExportConfigs. steady_tac.
Qed.

Lemma run_ops_grows ops s : grows (ss_repo s) (ss_repo (run_ops ops s)).
Proof.
  unfold run_ops. revert s. induction ops as [|op ops IH]; intros s; simpl; [done|].
  etrans; [apply run_op_grows|apply IH].
Qed.

Lemma new_ok : repo_ok newInMemoryAuditRepository.
Proof. by split_and!. Qed.

(** ** Tampering *)

Lemma chain_from_app previous l k :
  chain_from sha256 previous (l ++ k) = chain_from sha256 previous l && chain_from sha256 (last_hash previous l) k.
Proof.
  revert previous. induction l as [|e l IH]; intros previous; [done|].
  rewrite last_hash_cons. cbn [app chain_from]. by rewrite IH, !andb_assoc.
Qed.

Lemma last_hash_snoc previous l e : last_hash previous (l ++ [e]) = ev_eventHash e.
Proof. unfold last_hash. by rewrite last_snoc. Qed.

(** The same content, up to the order of members in its JSON values. *)
Definition same_record e e' : Prop :=
  ev_id e = ev_id e' ∧ ev_tenantId e = ev_tenantId e' ∧ ev_sequence e = ev_sequence e' ∧
  ev_actorUserId e = ev_actorUserId e' ∧ ev_category e = ev_category e' ∧ ev_action e = ev_action e' ∧
  ev_targetType e = ev_targetType e' ∧ ev_targetId e = ev_targetId e' ∧
  ev_workspaceId e = ev_workspaceId e' ∧ ev_taskId e = ev_taskId e' ∧ ev_sessionId e = ev_sessionId e' ∧
  json_equiv (ev_before e) (ev_before e') ∧ json_equiv (ev_after e) (ev_after e') ∧
  json_equiv (ev_metadata e) (ev_metadata e') ∧ ev_previousHash e = ev_previousHash e' ∧
  ev_ts e = ev_ts e' ∧ ev_expiresAt e = ev_expiresAt e'.

Lemma json_opt_inj a b : sort_json (json_opt a) = sort_json (json_opt b) → a = b.
Proof. destruct a, b; simpl; congruence. Qed.

Lemma hash_fields_inj e e' : json_equiv (hash_fields e) (hash_fields e') → same_record e e'.
Proof.
  unfold json_equiv, hash_fields, same_record. cbn [sort_json map].
  set (f1 := sort_json (json_opt (ev_actorUserId e))). set (f2 := sort_json (json_opt (ev_targetType e))).
  set (f3 := sort_json (json_opt (ev_targetId e))). set (f4 := sort_json (json_opt (ev_workspaceId e))).
  set (f5 := sort_json (json_opt (ev_taskId e))). set (f6 := sort_json (json_opt (ev_sessionId e))).
  set (f1' := sort_json (json_opt (ev_actorUserId e'))). set (f2' := sort_json (json_opt (ev_targetType e'))).
  set (f3' := sort_json (json_opt (ev_targetId e'))). set (f4' := sort_json (json_opt (ev_workspaceId e'))).
  set (f5' := sort_json (json_opt (ev_taskId e'))). set (f6' := sort_json (json_opt (ev_sessionId e'))).
  intros H. lazy -[f1 f2 f3 f4 f5 f6 f1' f2' f3' f4' f5' f6' sort_json ev_id ev_tenantId ev_sequence ev_category
    ev_action ev_before ev_after ev_metadata ev_previousHash ev_ts ev_expiresAt] in H.
  injection H. intros. subst f1 f2 f3 f4 f5 f6 f1' f2' f3' f4' f5' f6'.
  repeat match goal with X : sort_json (json_opt _) = _ |- _ => apply json_opt_inj in X end.
  unfold json_equiv. repeat split; assumption.
Qed.

Lemma sort_events_elem x l : x ∈ sort_events l ↔ x ∈ l.
Proof.
  assert (∀ e m, x ∈ insert_event e m ↔ x = e ∨ x ∈ m) as Hi.
  { intros e m. induction m as [|y m IH]; simpl; [set_solver|].
    destruct (_ <=? _)%Z; rewrite !elem_of_cons, ?IH; intuition. }
  induction l as [|y l IH]; simpl; [done|]. by rewrite Hi, IH, elem_of_cons.
Qed.

(** The texts two logs hash, and what their hashes are assumed to tell. *)
Definition hashes_tell l l' : Prop :=
  (∀ e e', e ∈ l → e' ∈ l' → hashAuditEvent e = hashAuditEvent e' →
     canonicalJson (hash_fields e) = canonicalJson (hash_fields e')) ∧
  (∀ e, e ∈ l ++ l' → hashAuditEvent e ≠ genesis) ∧
  Forall (λ e, json_wf (hash_fields e)) (l ++ l').

Lemma hashes_tell_incl l l' k k' :
  (∀ x, x ∈ k → x ∈ l) → (∀ x, x ∈ k' → x ∈ l') → hashes_tell l l' → hashes_tell k k'.
Proof.
  intros Hk Hk' (Hc & Hg & Hw).
  assert (∀ x, x ∈ k ++ k' → x ∈ l ++ l') as H.
  { intros x. rewrite !elem_of_app. intros [Hx|Hx]; auto. }
  split; [auto|]. split; [auto|]. rewrite !Forall_forall in *. auto.
Qed.
Lemma elem_of_snoc x l : x ∈ l ++ [x].
Proof. apply elem_of_app. right. by apply list_elem_of_singleton. Qed.

Lemma chains_equal l l' :
  hashes_tell l l' → chain_from sha256 genesis l = true → chain_from sha256 genesis l' = true →
  last_hash genesis l = last_hash genesis l' → Forall2 same_record l l'.
Proof.
  revert l'. induction l as [|e l IH] using rev_ind; intros l' Ht Hl Hl' Hlast.
  - destruct l' as [|e' l' _] using rev_ind; [constructor|]. exfalso. rewrite last_hash_snoc in Hlast.
    rewrite chain_from_app in Hl'. apply andb_true_iff in Hl' as [_ Hl']. cbn [chain_from] in Hl'.
    rewrite !andb_true_iff in Hl'. destruct Hl' as [[_ Hh%bool_decide_eq_true] _].
    apply (proj1 (proj2 Ht) e'); [apply elem_of_snoc|]. rewrite Hh. by rewrite <- Hlast.
  - rewrite last_hash_snoc in Hlast. rewrite chain_from_app in Hl. apply andb_true_iff in Hl as [Hl He].
    cbn [chain_from] in He. rewrite !andb_true_iff in He.
    destruct He as [[Hp%bool_decide_eq_true Hh%bool_decide_eq_true] _].
    destruct l' as [|e' l' _] using rev_ind.
    { exfalso. apply (proj1 (proj2 Ht) e); [apply elem_of_app; left; apply elem_of_snoc|]. by rewrite Hh, Hlast. }
    rewrite last_hash_snoc in Hlast. rewrite chain_from_app in Hl'. apply andb_true_iff in Hl' as [Hl' He'].
    cbn [chain_from] in He'. rewrite !andb_true_iff in He'.
    destruct He' as [[Hp'%bool_decide_eq_true Hh'%bool_decide_eq_true] _].
    assert (same_record e e') as Hs.
    { destruct Ht as (Hc & _ & Hw). rewrite Forall_forall in Hw. apply hash_fields_inj, stableJson_inj.
      - apply Hw, elem_of_app. left. apply elem_of_snoc.
      - apply Hw, elem_of_app. right. apply elem_of_snoc.
      - apply Hc; [apply elem_of_snoc..|congruence]. }
    apply Forall2_app; [|by constructor]. apply IH.
    + revert Ht. apply hashes_tell_incl; intros x Hx; apply elem_of_app; by left.
    + exact Hl.
    + exact Hl'.
    + rewrite <- Hp, <- Hp'. by apply Hs.
Qed.

(** C7: The chain makes a log tamper-evident: two sets of events the check accepts,
    whose last events have the same hash, hold the same events in the same order,
    as long as SHA-256 has no collision among their texts and never gives the
    hash of the start; every field counts but the time of creation. *)
Theorem chain_tamper_evident l l'
  (Hl : auditChainValid l = true) (Hl' : auditChainValid l' = true) (Ht : hashes_tell l l')
  (Hlast : last_hash genesis (sort_events l) = last_hash genesis (sort_events l')) :
  Forall2 same_record (sort_events l) (sort_events l').
Proof.
  apply chains_equal; try assumption. revert Ht.
  apply hashes_tell_incl; intros x; by rewrite sort_events_elem.
Qed.

(** ** Exports *)

Lemma linked_lower tenant previous n l e : linked tenant previous n l → e ∈ l → (n < ev_sequence e)%Z.
Proof.
  intros H [i Hi]%list_elem_of_lookup. rewrite (linked_sequences _ _ _ _ _ _ H Hi). lia.
Qed.

Lemma sublist_elem {A} (k l : list A) x : k `sublist_of` l → x ∈ k → x ∈ l.
Proof. induction 1; rewrite ?elem_of_cons; intuition. Qed.

Lemma linked_sublist_sorted tenant previous n l k :
  linked tenant previous n l → k `sublist_of` l → sort_events k = k.
Proof.
  intros H Hk. revert previous n H. induction Hk as [|e k l Hk IH|e k l Hk IH]; intros previous n; [done|..].
  - intros (_ & Hs & _ & _ & H). simpl. rewrite (IH _ _ H). apply insert_event_head, Forall_forall.
    intros x Hx. apply (sublist_elem _ _ _ Hk) in Hx. apply (linked_lower _ _ _ _ _ H) in Hx. lia.
  - intros (_ & _ & _ & _ & H). exact (IH _ _ H).
Qed.

Lemma linked_previous tenant previous n l e :
  linked tenant previous n l → e ∈ l → ev_previousHash e = previous ∨ ∃ x, x ∈ l ∧ ev_previousHash e = ev_eventHash x.
Proof.
  revert previous n. induction l as [|y l IH]; intros previous n; [by intros _ ?%elem_of_nil|].
  intros (_ & _ & Hp & _ & H) [->|He]%elem_of_cons; [by left|]. right.
  destruct (IH _ _ H He) as [->|(x & Hx & ->)]; [exists y|exists x]; split; set_solver.
Qed.

(** Events of a log form a chain from its start exactly when they are its first ones. *)
Lemma linked_sublist_prefix tenant previous n l k :
  linked tenant previous n l → k `sublist_of` l → NoDup (previous :: map ev_eventHash l) →
  chain_from sha256 previous k = true ↔ k `prefix_of` l.
Proof.
  intros H Hk Hn. split.
  - revert previous n H Hn. induction Hk as [|e k l Hk IH|e k l Hk IH]; intros previous n H Hn Hc.
    + done.
    + cbn [chain_from] in Hc. rewrite !andb_true_iff in Hc. destruct Hc as [_ Hc]. destruct H as (_ & _ & _ & _ & H).
      apply prefix_cons, (IH _ _ H); [|done]. by apply NoDup_cons in Hn as [_ Hn].
    + destruct k as [|x k]; [by eexists|]. exfalso.
      cbn [chain_from] in Hc. rewrite !andb_true_iff in Hc. destruct Hc as [[Hp%bool_decide_eq_true _] _].
      destruct H as (_ & _ & _ & _ & H). assert (x ∈ l) as Hx by (eapply sublist_elem; [exact Hk|set_solver]).
      apply NoDup_cons in Hn as [Hn _]. apply Hn. cbn [map].
      destruct (linked_previous _ _ _ _ _ H Hx) as [Hq|(y & Hy & Hq)]; rewrite <- Hp, Hq; [set_solver|].
      apply elem_of_cons. right. apply list_elem_of_fmap. eauto.
  - intros [m ->]. apply linked_app in H as [H _]. by eapply linked_chain.
Qed.

Lemma slice_last_sublist {A} n (l : list A) : slice_last n l `sublist_of` l.
Proof. unfold slice_last. destruct (n <=? 0)%Z; apply sublist_drop. Qed.
Lemma filter_sublist {A} (p : A → bool) (l : list A) : List.filter p l `sublist_of` l.
Proof. induction l as [|x l IH]; simpl; [done|]. destruct (p x); by constructor. Qed.

Definition listed (tenant : jstr) (filter : AuditEventFilter) r : list CloudAuditEvent :=
  slice_last (nullish (f_limit filter) 1000%Z) (List.filter (λ e, matchesFilter e filter) (events_of tenant r)).

Lemma listed_sublist tenant filter r : listed tenant filter r `sublist_of` events_of tenant r.
Proof. unfold listed. etrans; [apply slice_last_sublist|apply filter_sublist]. Qed.

Lemma export_ok now now' d tenant format filter configId s payload x s' :
  export sha256 isoDate network now now' d tenant format filter configId s = (Ok (payload, x), s') →
  let events := sort_events (listed tenant filter (ss_repo s)) in
  xr_chainValid x = auditChainValid events ∧ xr_count x = length events ∧
  payload = match format with
            | FormatCsv => auditEventsCsv events
            | FormatJson => pretty 0 (JArr (map event_json events))
            end.
Proof.
  intros H events. unfold export, mbind at 1, M_bind at 1, repo at 1, listEvents, gets in H.
  cbv beta iota zeta in H. fold (listed tenant filter (ss_repo s)) in H. fold events in H.
  unfold mbind, M_bind in H.
  repeat match type of H with
         | context [match ?m with (_, _) => _ end] => destruct m as [[|] ?]; [|discriminate]
         end.
  destruct (isoDate _); [|discriminate]. injection H as <- <- _. done.
Qed.

(** An export vouches for the chain exactly when the events it lists are the
    first ones of the log: an intact log that is filtered, or longer than the
    limit, is reported as broken. *)
Theorem export_vouches before now now' d tenant format filter configId payload x s'
  (s := run_ops before newService) (log := events_of tenant (ss_repo s))
  (Hn : NoDup (genesis :: map ev_eventHash log))
  (He : export sha256 isoDate network now now' d tenant format filter configId s = (Ok (payload, x), s')) :
  xr_count x = length (listed tenant filter (ss_repo s)) ∧
  (xr_chainValid x = true ↔ listed tenant filter (ss_repo s) `prefix_of` log).
Proof.
  destruct (run_ops_grows before newService new_ok) as [(_ & _ & Hok) _]. specialize (Hok tenant).
  apply export_ok in He as (Hc & Hcount & _). pose proof (listed_sublist tenant filter (ss_repo s)) as Hsub.
  rewrite (linked_sublist_sorted _ _ _ _ _ Hok Hsub) in Hcount, Hc. split; [done|].
  rewrite Hc. unfold AuditLog.auditChainValid. rewrite (linked_sublist_sorted _ _ _ _ _ Hok Hsub).
  by apply (linked_sublist_prefix tenant genesis 0).
Qed.

(** ** What is recorded *)

(** An event says what its input says; its metadata are scrubbed. *)
Definition records (input : AppendAuditInput) e : Prop :=
  ev_tenantId e = ap_tenantId input ∧ ev_actorUserId e = ap_actorUserId input ∧
  ev_category e = ap_category input ∧ ev_action e = ap_action input ∧
  ev_targetType e = ap_targetType input ∧ ev_targetId e = ap_targetId input ∧
  ev_before e = nullish (ap_before input) JNull ∧ ev_after e = nullish (ap_after input) JNull ∧
  ev_metadata e = scrubJson (nullish (ap_metadata input) (JObj [])).

Lemma createAuditEvent_records env input previous retention e :
  createAuditEvent sha256 isoDate env input previous retention = Ok e → records input e.
Proof.
  unfold createAuditEvent. intros (ts & _ & H)%result_bind_ok. apply result_bind_ok in H as (ex & _ & H).
  apply result_bind_ok in H as (cr & _ & H). apply result_bind_ok in H as (ev & Hev & H).
  unfold parse_event in *. destruct (_ && _) in Hev; [|done]. injection Hev as <-.
  destruct (_ && _) in H; [|done]. injection H as <-. by split_and!.
Qed.

Lemma repo_inv {A} (m : Repo A) s a s' : repo m s = (a, s') → m (ss_repo s) = (a, ss_repo s').
Proof. unfold repo. destruct (m (ss_repo s)). by intros [= <- <-]. Qed.

#[local] Transparent AuditLog.append.
Lemma append_records env input r e r' :
  repo_ok r → append env input r = (Ok e, r') →
  repo_ok r' ∧ logs_extend (ap_tenantId input) [e] r r' ∧ records input e.
Proof.
  intros Hok H. pose proof (append_spec _ _ _ _ _ Hok H) as [Hok' Hext]. split_and!; [done..|].
  unfold AuditLog.append in H. apply M_bind_Ok_inv in H as (p & r1 & _ & H). unfold append_end in H.
  apply M_bind_Ok_inv in H as (x & r2 & Hx & H). apply M_bind_Ok_inv in H as (u & r3 & _ & H). injection H as <- _.
  injection Hx as Hx _. by apply createAuditEvent_records in Hx.
Qed.

Lemma same_logs_extend tenant new r r1 r2 :
  same_logs r r1 → logs_extend tenant new r1 r2 → logs_extend tenant new r r2.
Proof. intros H Hext t. by rewrite Hext, (same_logs_events _ _ t H). Qed.

Lemma logs_extend_app tenant a b r r1 r2 :
  logs_extend tenant a r r1 → logs_extend tenant b r1 r2 → logs_extend tenant (a ++ b) r r2.
Proof. intros H1 H2 t. rewrite H2, H1. case_decide; [by rewrite (assoc_L (++))|by rewrite !app_nil_r]. Qed.

Lemma ingest_records envs tenant actor source events r created r' :
  repo_ok r → ingest sha256 isoDate envs tenant actor source events r = (Ok created, r') →
  repo_ok r' ∧ logs_extend tenant created r r' ∧
  Forall2 (λ i e, records (ingest_input tenant actor source i) e) events created.
Proof.
  revert envs r created. induction events as [|x l IH]; intros envs r created Hok; cbn [ingest].
  - intros H. injection H as <- <-. split; [done|]. split; [|constructor]. intros t. case_decide; by rewrite app_nil_r.
  - intros (e & r1 & H1 & H)%M_bind_Ok_inv. apply M_bind_Ok_inv in H as (rest & r2 & H2 & H). injection H as <- <-.
    apply append_records in H1 as (Hok1 & Hext1 & Hrec); [|done]. apply IH in H2 as (Hok2 & Hext2 & Hf); [|done].
    split_and!; [done| |by constructor]. exact (logs_extend_app _ [e] _ _ _ _ Hext1 Hext2).
Qed.

(** Every change is recorded: a call of the service that changes the settings or
    an export configuration adds one event to the tenant's log and to no other,
    which names the actor and holds the new value; client events are only taken
    when the settings allow it, each becomes one event in their order, and an
    event with their number follows. *)
Theorem changes_recorded before env tenant actor (s := run_ops before newService) :
  (∀ now now' input settings s',
     service_updateSettings sha256 isoDate now now' env tenant actor input s = (Ok settings, s') →
     ∃ e, logs_extend tenant [e] (ss_repo s) (ss_repo s') ∧ ev_actorUserId e = actor ∧
       ev_action e = js "settings-updated" ∧ ev_after e = settings_json settings) ∧
  (∀ uuid now input config s',
     service_upsertExportConfig sha256 isoDate uuid now env tenant actor input s = (Ok config, s') →
     ∃ e, logs_extend tenant [e] (ss_repo s) (ss_repo s') ∧ ev_actorUserId e = actor ∧
       ev_action e = js "export-config-upserted" ∧ ev_after e = config_json config) ∧
  (∀ now envs source events created s',
     ingestClientEvents sha256 isoDate now envs env tenant actor source events s = (Ok created, s') →
     (∃ settings r, getSettings isoDate now tenant (ss_repo s) = (Ok settings, r) ∧
        se_clientIngestEnabled settings = true) ∧
     Forall2 (λ i e, records (ingest_input tenant actor source i) e) events created ∧
     ∃ e, logs_extend tenant (created ++ [e]) (ss_repo s) (ss_repo s') ∧ ev_actorUserId e = actor ∧
       ev_action e = js "client-events-ingested").
Proof.
  destruct (run_ops_grows before newService new_ok) as [Hok _]. fold s in Hok. clearbody s. split_and!.
  - intros now now' input settings s' H. unfold service_updateSettings in H.
    apply M_bind_Ok_inv in H as (x & s1 & H1 & H). apply M_bind_Ok_inv in H as (e & s2 & H2 & H). injection H as <- <-.
    apply repo_inv in H1, H2. pose proof (quiet_updateSettings now now' tenant actor input (ss_repo s)) as Hq.
    unfold id in Hq. rewrite H1 in Hq. simpl in Hq.
    apply append_records in H2 as (_ & Hext & Hrec); [|exact (same_logs_ok _ _ Hq Hok)].
    exists e. split; [exact (same_logs_extend _ _ _ _ _ Hq Hext)|]. destruct Hrec as (_ & ? & _ & ? & _ & _ & _ & ? & _). done.
  - intros uuid now input config s' H. unfold service_upsertExportConfig in H.
    apply M_bind_Ok_inv in H as (x & s1 & H1 & H). apply M_bind_Ok_inv in H as (e & s2 & H2 & H). injection H as <- <-.
    apply repo_inv in H1, H2. pose proof (quiet_upsert uuid now tenant actor input (ss_repo s)) as Hq.
    unfold id in Hq. rewrite H1 in Hq. simpl in Hq.
    apply append_records in H2 as (_ & Hext & Hrec); [|exact (same_logs_ok _ _ Hq Hok)].
    exists e. split; [exact (same_logs_extend _ _ _ _ _ Hq Hext)|]. destruct Hrec as (_ & ? & _ & ? & _ & _ & _ & ? & _). done.
  - intros now envs source events created s' H. unfold ingestClientEvents in H.
    apply M_bind_Ok_inv in H as (x & s1 & H1 & H). apply repo_inv in H1.
    destruct (se_clientIngestEnabled x) eqn:Hen; [|done]. simpl in H.
    apply M_bind_Ok_inv in H as (y & s2 & H2 & H). apply M_bind_Ok_inv in H as (e & s3 & H3 & H). injection H as <- <-.
    apply repo_inv in H2, H3. pose proof (quiet_getSettings now tenant (ss_repo s)) as Hq.
    unfold id in Hq. rewrite H1 in Hq. simpl in Hq.
    apply ingest_records in H2 as (Hok2 & Hext2 & Hf); [|exact (same_logs_ok _ _ Hq Hok)].
    apply append_records in H3 as (_ & Hext3 & Hrec); [|exact Hok2].
    split; [by exists x, (ss_repo s1)|]. split; [exact Hf|]. exists e.
    split; [|destruct Hrec as (_ & ? & _ & ? & _); done].
    apply (same_logs_extend _ _ _ _ _ Hq). exact (logs_extend_app _ _ [e] _ _ _ Hext2 Hext3).
Qed.

(** ** Appends that overlap *)

(** Two calls of [append], the second of which starts while the first waits for
    the settings. *)
Definition overlap env1 (input1 : AppendAuditInput) env2 (input2 : AppendAuditInput)
    : Repo (CloudAuditEvent * CloudAuditEvent) :=
  let! p1 := append_begin isoDate (ae_begin env1) input1 in
  let! p2 := append_begin isoDate (ae_begin env2) input2 in
  let! e1 := append_end sha256 isoDate env1 input1 p1 in
  let! e2 := append_end sha256 isoDate env2 input2 p2 in
  mret (e1, e2).

Lemma append_end_previous env input p r e r' :
  append_end sha256 isoDate env input p r = (Ok e, r') →
  linked (ap_tenantId input) (default genesis (ev_eventHash <$> pa_previous p))
    (default 0%Z (ev_sequence <$> pa_previous p)) [e].
Proof.
  unfold append_end. intros (x & r1 & Hx & H)%M_bind_Ok_inv. apply M_bind_Ok_inv in H as (u & r2 & _ & H).
  injection H as <- _. injection Hx as Hx _. by eapply createAuditEvent_linked.
Qed.

Lemma chain_previous previous l :
  chain_from sha256 previous l = true → map ev_previousHash l `prefix_of` previous :: map ev_eventHash l.
Proof.
  revert previous. induction l as [|e l IH]; intros previous; simpl; [intros _; by eexists|].
  rewrite !andb_true_iff. intros [[Hp%bool_decide_eq_true _] H]. rewrite Hp. by apply prefix_cons, IH.
Qed.

Lemma sort_events_perm l : sort_events l ≡ₚ l.
Proof.
  assert (∀ e m, insert_event e m ≡ₚ e :: m) as Hi.
  { intros e m. induction m as [|y m IH]; simpl; [done|]. destruct (_ <=? _)%Z; [done|].
    rewrite IH. apply perm_swap. }
  induction l as [|y l IH]; simpl; [done|]. by rewrite Hi, IH.
Qed.

Lemma fork_invalid l e1 e2 :
  [e1; e2] ⊆+ l → ev_previousHash e1 = ev_previousHash e2 → NoDup (genesis :: map ev_eventHash l) →
  auditChainValid l = false.
Proof.
  intros Hsub Hp Hn. apply not_true_iff_false. unfold AuditLog.auditChainValid. intros Hc.
  apply chain_previous in Hc.
  assert (NoDup (map ev_previousHash l)) as Hnp.
  { rewrite <- sort_events_perm. destruct Hc as [k Hc].
    assert (NoDup (map ev_previousHash (sort_events l) ++ k)) as H; [|by apply NoDup_app in H as [? _]].
    rewrite <- Hc. by rewrite sort_events_perm. }
  assert ([ev_previousHash e1; ev_previousHash e2] ⊆+ map ev_previousHash l) as Hs
    by exact (fmap_submseteq ev_previousHash _ _ Hsub).
  apply submseteq_Permutation in Hs as [k Hk]. rewrite Hk, Hp in Hnp.
  apply NoDup_cons in Hnp as [Hnp _]. apply Hnp. simpl. by left.
Qed.

(** Appends to one tenant must not overlap: when the second starts before the
    first has pushed its event, both events take the same number and the same
    predecessor, and no log that holds both passes the check, unless hashes in it
    collide. *)
Theorem overlap_forks_chain env1 input1 env2 input2 r e1 e2 r'
  (Hok : repo_ok r) (Ht : ap_tenantId input1 = ap_tenantId input2)
  (H : overlap env1 input1 env2 input2 r = (Ok (e1, e2), r')) :
  ev_sequence e1 = ev_sequence e2 ∧ ev_previousHash e1 = ev_previousHash e2 ∧
  ∀ l, [e1; e2] ⊆+ l → NoDup (genesis :: map ev_eventHash l) → auditChainValid l = false.
Proof.
  unfold overlap in H. apply M_bind_Ok_inv in H as (p1 & r1 & H1 & H). apply M_bind_Ok_inv in H as (p2 & r2 & H2 & H).
  apply M_bind_Ok_inv in H as (x1 & r3 & H3 & H). apply M_bind_Ok_inv in H as (x2 & r4 & H4 & H).
  injection H as <- <- _.
  apply append_begin_spec in H1 as (Hok1 & He1 & _ & Hp1); [|done].
  apply append_begin_spec in H2 as (Hok2 & He2 & _ & Hp2); [|done].
  apply append_end_previous in H3 as (_ & Hs1 & Hq1 & _). apply append_end_previous in H4 as (_ & Hs2 & Hq2 & _).
  assert (pa_previous p1 = pa_previous p2) as Hp by (by rewrite Hp1, Hp2, He1, Ht).
  rewrite Hp in *. split; [congruence|]. split; [congruence|].
  intros l Hl Hn. eapply fork_invalid; [exact Hl|congruence|exact Hn].
Qed.
End audit.

(** ** Secrets *)

(** A value without what its secret members hold. *)
Fixpoint erase (v : json) : json :=
  match v with
  | JArr l => JArr (map erase l)
  | JObj l => JObj (map (λ '(k, v), (k, if is_secret_key k then JNull else erase v)) l)
  | _ => v
  end.

Lemma scrub_erase v : scrubJson (erase v) = scrubJson v.
Proof.
  induction v as [| | | |l IH|l IH] using json_induction; try done; cbn [erase scrubJson]; f_equal;
    rewrite map_map; apply map_ext_in.
  - intros x Hx. by apply (proj1 (Forall_forall _ _) IH), list_elem_of_In.
  - intros [k x] Hx. destruct (is_secret_key k); [done|]. f_equal.
    by apply (proj1 (Forall_forall _ _) IH (k, x)), list_elem_of_In.
Qed.

Definition with_metadata (m : option json) (i : AppendAuditInput) : AppendAuditInput :=
  {| ap_tenantId := ap_tenantId i; ap_actorUserId := ap_actorUserId i; ap_category := ap_category i;
     ap_action := ap_action i; ap_targetType := ap_targetType i; ap_targetId := ap_targetId i;
     ap_workspaceId := ap_workspaceId i; ap_taskId := ap_taskId i; ap_sessionId := ap_sessionId i;
     ap_before := ap_before i; ap_after := ap_after i; ap_metadata := m; ap_ts := ap_ts i |}.

(** Nothing a secret member of the metadata holds reaches the log: appends whose
    metadata differ only in what members named like secrets hold, at any depth,
    have the same outcome and leave the same repository. *)
Theorem append_ignores_secrets sha256 isoDate env input m m' r
  (H : erase m = erase m') :
  append sha256 isoDate env (with_metadata (Some m) input) r
  = append sha256 isoDate env (with_metadata (Some m') input) r.
Proof.
  assert (∀ previous retention,
    createAuditEvent sha256 isoDate env (with_metadata (Some m) input) previous retention
    = createAuditEvent sha256 isoDate env (with_metadata (Some m') input) previous retention) as Hc.
  { intros previous retention. assert (scrubJson m = scrubJson m') as E by (rewrite <- (scrub_erase m), H; apply scrub_erase).
    unfold createAuditEvent, with_metadata. cbn [ap_metadata].
    change (nullish (Some m) (JObj [])) with m. change (nullish (Some m') (JObj [])) with m'. by rewrite E. }
  unfold append, mbind, M_bind. destruct (append_begin isoDate _ (with_metadata (Some m) input) r) as [x s] eqn:Hb.
  assert (append_begin isoDate (ae_begin env) (with_metadata (Some m') input) r = (x, s)) as -> by exact Hb.
  destruct x as [p|]; [|done]. unfold append_end, mbind, M_bind, lift. rewrite Hc. done.
Qed.

(** ** CSV *)

Inductive CsvMode := AtStart | Plain | Quoted | AfterQuote.

(** A reader of comma-separated values, whose rows end with a line feed. *)
Fixpoint csv_read (mode : CsvMode) (cell : jstr) (row : list jstr) (s : jstr) : option (list (list jstr)) :=
  match s with
  | [] => match mode with Quoted => None | _ => Some [row ++ [cell]] end
  | c :: s =>
      match mode with
      | Quoted => if (c =? 34)%N then csv_read AfterQuote cell row s else csv_read Quoted (cell ++ [c]) row s
      | _ =>
          if (c =? 44)%N then csv_read AtStart [] (row ++ [cell]) s
          else if (c =? NL)%N then cons (row ++ [cell]) <$> csv_read AtStart [] [] s
          else if (c =? 34)%N then
            match mode with
            | AtStart => csv_read Quoted [] row s
            | AfterQuote => csv_read Quoted (cell ++ [c]) row s
            | _ => None
            end
          else match mode with AfterQuote => None | _ => csv_read Plain (cell ++ [c]) row s end
      end
  end.

(** Whether a cell is over: the end, a comma or a line feed follows. *)
Definition cell_end (s : jstr) : Prop := match s with [] => True | c :: _ => c = 44%N ∨ c = NL end.

Lemma csv_read_mode mode mode' cell row s :
  cell_end s → mode ≠ Quoted → mode' ≠ Quoted → csv_read mode cell row s = csv_read mode' cell row s.
Proof. destruct s as [|c s]; [by destruct mode, mode'|]. intros [->| ->] ? ?; by destruct mode, mode'. Qed.

Lemma csv_read_plain v cell row s :
  existsb (λ c, (c =? 34) || (c =? 44) || (c =? 10))%N v = false → cell_end s →
  csv_read Plain cell row (v ++ s) = csv_read Plain (cell ++ v) row s.
Proof.
  revert cell. induction v as [|c v IH]; intros cell Hv Hs; [by rewrite app_nil_r|].
  cbn [existsb] in Hv. apply orb_false_iff in Hv as [Hc Hv]. rewrite !orb_false_iff in Hc.
  destruct Hc as [[Hq Hcomma] Hnl]. cbn [app csv_read]. unfold NL. rewrite Hcomma, Hnl, Hq, IH by done.
  by rewrite <- (assoc_L (++)).
Qed.

Lemma csv_read_quoted v cell row s :
  cell_end s →
  csv_read Quoted cell row (flat_map (λ c, if (c =? 34)%N then [34; 34]%N else [c]) v ++ 34%N :: s)
  = csv_read AfterQuote (cell ++ v) row s.
Proof.
  intros Hs. revert cell. induction v as [|c v IH]; intros cell; [by rewrite app_nil_r|].
  cbn [flat_map]. destruct (N.eqb_spec c 34) as [->|Hc].
  - cbn. rewrite IH. by rewrite <- (assoc_L (++)).
  - cbn [app csv_read]. rewrite (proj2 (N.eqb_neq _ _) Hc), IH. by rewrite <- (assoc_L (++)).
Qed.

Lemma csv_read_cell v row s :
  cell_end s → csv_read AtStart [] row (csvCell v ++ s) = csv_read AfterQuote v row s.
Proof.
  intros Hs. unfold csvCell. destruct (existsb _ v) eqn:Hv.
  - cbn. rewrite <- (assoc_L (++)). cbn [app]. by rewrite csv_read_quoted.
  - destruct v as [|c v]; [simpl; by apply csv_read_mode|].
    transitivity (csv_read Plain [] row ((c :: v) ++ s)); [|rewrite csv_read_plain by done; by apply csv_read_mode].
    cbn [existsb] in Hv. apply orb_false_iff in Hv as [Hc _]. rewrite !orb_false_iff in Hc.
    destruct Hc as [[Hq Hcomma] Hnl]. cbn [app csv_read]. unfold NL. by rewrite Hcomma, Hnl, Hq.
Qed.

Lemma csv_read_row cells row s :
  cells ≠ [] → (s = [] ∨ ∃ s', s = NL :: s') →
  csv_read AtStart [] row (join [44%N] (map csvCell cells) ++ s)
  = match s with [] => Some [row ++ cells] | _ :: s' => cons (row ++ cells) <$> csv_read AtStart [] [] s' end.
Proof.
  intros Hne Hs. revert row. induction cells as [|v cells IH]; intros row; [done|].
  destruct cells as [|w cells].
  - cbn [map join]. destruct Hs as [->|[s' ->]]; rewrite csv_read_cell; [done..|by right].
  - change (join [44%N] (map csvCell (v :: w :: cells)))
      with (csvCell v ++ 44%N :: join [44%N] (map csvCell (w :: cells))).
    rewrite <- (assoc_L (++)). cbn [app]. rewrite csv_read_cell by (by left). cbn [csv_read].
    change (44 =? 44)%N with true. cbn iota. rewrite IH by done.
    destruct Hs as [->|[s' ->]]; by rewrite <- (assoc_L (++)).
Qed.

Lemma csv_read_text rows :
  rows ≠ [] → Forall (λ row, row ≠ []) rows → csv_read AtStart [] [] (csv_text rows) = Some rows.
Proof.
  unfold csv_text. intros Hne H. induction H as [|row rows Hrow H IH]; [done|].
  destruct rows as [|row' rows].
  - cbn [map join]. rewrite <- (app_nil_r (join _ _)). rewrite csv_read_row; [done..|by left].
  - set (text := join [NL] (map (λ row, join [44%N] (map csvCell row)) (row' :: rows))) in *.
    change (join [NL] (map (λ row, join [44%N] (map csvCell row)) (row :: row' :: rows)))
      with (join [44%N] (map csvCell row) ++ NL :: text).
    rewrite csv_read_row by eauto. by rewrite IH.
Qed.

(** The CSV export is read back cell by cell, whatever quotes, commas and line
    feeds the events hold. *)
Theorem auditEventsCsv_roundtrip events :
  csv_read AtStart [] [] (auditEventsCsv events) = Some (csv_headers :: map csv_row events).
Proof.
  apply csv_read_text; [done|]. constructor; [done|]. apply Forall_map, Forall_true. done.
Qed.

(** ** Concrete logs *)

Definition plain_hash : jstr → jstr := λ s, s.
Definition any_date : jstr → bool := λ _, true.
Definition offline : list ExportRequest → ExportRequest → result jstr bool := λ _ _, Ok true.
Definition env_at (n : Z) : AuditEnv :=
  {| ae_begin := n; ae_ts := n; ae_uuid := js "event-" ++ dec n; ae_now := n |}.
Definition demo_input (action : string) (metadata : json) : AppendAuditInput :=
  {| ap_tenantId := js "t"; ap_actorUserId := Some (js "u"); ap_category := js "demo"; ap_action := js action;
     ap_targetType := None; ap_targetId := None; ap_workspaceId := None; ap_taskId := None; ap_sessionId := None;
     ap_before := None; ap_after := None; ap_metadata := Some metadata; ap_ts := None |}.
Definition demo_ops (metadata : json) : list AuditOp :=
  [OpAppend (env_at 1) (demo_input "first" (JObj [])); OpAppend (env_at 2) (demo_input "second" metadata)].
Definition demo_service (metadata : json) : ServiceState :=
  run_ops plain_hash any_date offline (demo_ops metadata) newService.
Definition demo_log (metadata : json) : list CloudAuditEvent := events_of (js "t") (ss_repo (demo_service metadata)).
Definition left_first : json := JObj [(js "a", JNum 1); (js "b", JNum 2)].
Definition right_first : json := JObj [(js "b", JNum 2); (js "a", JNum 1)].

Lemma append_ignores_secrets_witness :
  let m := JObj [(js "note", JStr (js "x")); (js "API_Key", JStr (js "1"))] in
  let m' := JObj [(js "note", JStr (js "x")); (js "API_Key", JArr [JNum 2])] in
  append plain_hash any_date (env_at 1) (with_metadata (Some m) (demo_input "a" JNull)) newInMemoryAuditRepository
  = append plain_hash any_date (env_at 1) (with_metadata (Some m') (demo_input "a" JNull)) newInMemoryAuditRepository.
Proof. apply append_ignores_secrets. vm_compute. reflexivity. Defined.

Lemma chain_tamper_evident_witness :
  demo_log left_first ≠ demo_log right_first ∧
  Forall2 (same_record) (sort_events (demo_log left_first)) (sort_events (demo_log right_first)).
Proof.
  split; [intros H; apply (f_equal (map ev_metadata)) in H; vm_compute in H; discriminate|].
  apply (chain_tamper_evident plain_hash); [vm_compute; reflexivity..| |vm_compute; reflexivity].
  split; [|split].
  - intros e e' _ _ H. exact H.
  - intros e _ H. unfold hashAuditEvent, plain_hash, canonicalJson, hash_fields in H. discriminate.
  - apply Forall_forall. intros e He.
    assert (Forall (λ e, json_wfb (hash_fields e) = true) (demo_log left_first ++ demo_log right_first)) as Hw.
    { apply (bool_decide_unpack _). vm_compute. exact I. }
    apply json_wfb_sound. exact (proj1 (Forall_forall _ _) Hw e He).
Defined.

Lemma export_vouches_witness :
  ∃ payload x s', export plain_hash any_date offline 3 3 NoopDispatcher (js "t") FormatCsv no_filter None
                    (demo_service left_first) = (Ok (payload, x), s') ∧ xr_chainValid x = true.
Proof.
  destruct (export plain_hash any_date offline 3 3 NoopDispatcher (js "t") FormatCsv no_filter None
              (demo_service left_first)) as [[[payload x]|e] s'] eqn:He; [|vm_compute in He; discriminate].
  exists payload, x, s'. split; [reflexivity|].
  refine (proj2 (proj2 (export_vouches plain_hash any_date offline (demo_ops left_first) 3 3 NoopDispatcher (js "t")
            FormatCsv no_filter None payload x s' _ He)) _).
  - apply (bool_decide_unpack _). vm_compute. exact I.
  - exists []. vm_compute. reflexivity.
Defined.

Lemma overlap_forks_chain_witness :
  ∃ e1 e2 r', overlap plain_hash any_date (env_at 3) (demo_input "left" JNull) (env_at 4) (demo_input "right" JNull)
      (ss_repo (demo_service left_first)) = (Ok (e1, e2), r') ∧ ev_sequence e1 = ev_sequence e2.
Proof.
  destruct (overlap plain_hash any_date (env_at 3) (demo_input "left" JNull) (env_at 4) (demo_input "right" JNull)
      (ss_repo (demo_service left_first))) as [[[e1 e2]|e] r'] eqn:H; [|vm_compute in H; discriminate].
  exists e1, e2, r'. split; [reflexivity|].
  assert (Hok : repo_ok plain_hash (ss_repo (demo_service left_first)))
    by exact (proj1 (run_ops_grows plain_hash any_date offline (demo_ops left_first) newService (new_ok _))).
  exact (proj1 (overlap_forks_chain plain_hash any_date (env_at 3) (demo_input "left" JNull) (env_at 4)
    (demo_input "right" JNull) (ss_repo (demo_service left_first)) e1 e2 r' Hok eq_refl H)).
Defined.

(** ** Where the code falls short *)

(** Two first appends of a tenant that overlap push to different arrays: one of
    the events is lost although its append succeeds. *)
Lemma first_appends_lose_event :
  match overlap plain_hash any_date (env_at 1) (demo_input "left" JNull) (env_at 2) (demo_input "right" JNull)
          newInMemoryAuditRepository with
  | (Ok _, r) => map ev_action (events_of (js "t") r)
  | (Err _, _) => []
  end = [js "right"].
Proof. vm_compute. reflexivity. Qed.

(** An export of a filtered log says that the chain is broken. *)
Lemma filtered_export_reports_broken :
  match export plain_hash any_date offline 3 3 NoopDispatcher (js "t") FormatCsv
          {| f_from := None; f_to := None; f_category := None; f_action := Some (js "second");
             f_targetType := None; f_actorUserId := None; f_sessionId := None; f_limit := None |} None
          (demo_service left_first) with
  | (Ok (_, x), _) => Some (xr_count x, xr_chainValid x)
  | (Err _, _) => None
  end = Some (1%nat, false).
Proof. vm_compute. reflexivity. Qed.

(** A limit of zero lists every event: [slice(-0)] is [slice(0)]. *)
Lemma limit_zero_lists_all :
  (listEvents (js "t") {| f_from := None; f_to := None; f_category := None; f_action := None;
     f_targetType := None; f_actorUserId := None; f_sessionId := None; f_limit := Some 0%Z |}
     (ss_repo (demo_service left_first))).1 = Ok (demo_log left_first).
Proof. vm_compute. reflexivity. Qed.
