(* ===== verification/AuditCalls.v ===== *)
(** * Calls of the audit service that interleave

    The server runs many calls at once on one thread: a call gives way at every
    [await]. Here a call of the service is cut at its awaits of the repository and
    the dispatcher, most of all the one inside [append], which stands between
    reading the last event and pushing the new one; calls arrive and go on in any
    order. As long as no append of a tenant starts within another one, the logs
    are chains. *)

From stdpp Require Import sorting.
From S2P Require Import Prelude JsMap JsString Json StableJson ExecPolicy Calendar IsoDate AuditLog AuditLogFacts.
From Stdlib Require Import Lia.

Set Default Goal Selector "!".

(** The rest of a call: done, a piece of code up to its next [await], or an append. *)
Inductive Call :=
| Done
| Piece (run : ServiceState → Call * ServiceState)
| Appending (env : AuditEnv) (input : AppendAuditInput) (next : CloudAuditEvent → Call).

(** A call on the server; inside an append it is past the [await]. *)
Inductive Running :=
| Ready (c : Call)
| Pushing (env : AuditEnv) (input : AppendAuditInput) (p : PendingAppend) (next : CloudAuditEvent → Call).

Record Server := { sv_state : ServiceState; sv_calls : list Running }.

Section calls.
Variables (sha256 : jstr → jstr) (isoDate : jstr → bool).
Variable network : list ExportRequest → ExportRequest → result jstr bool.

(** A piece that throws ends the call. *)
Definition piece {A} (m : Service A) (next : A → Call) : Call :=
  Piece (λ s, match m s with (Ok a, s') => (next a, s') | (Err _, s') => (Done, s') end).

(** *** The calls of the service *)

Fixpoint ingesting (envs : nat → AuditEnv) (tenantId : jstr) (actorUserId : option jstr) (source : jstr)
    (events : list CloudAuditIngestEvent) (created : list CloudAuditEvent) (next : list CloudAuditEvent → Call) : Call :=
  match events with
  | [] => next created
  | e :: events =>
      Appending (envs 0%nat) (ingest_input tenantId actorUserId source e) (λ event,
        ingesting (λ n, envs (S n)) tenantId actorUserId source events (created ++ [event]) next)
  end.

Definition exporting (now now' : Z) (dispatcher : Dispatcher) (tenantId : jstr) (format : ExportFormat)
    (filter : AuditEventFilter) (configId : option jstr) : Call :=
  piece (let! events := repo (listEvents tenantId filter) in let! exportedAt := lift (iso now) in mret (events, exportedAt))
    (λ '(events, exportedAt),
    let payload := match format with
                   | FormatCsv => auditEventsCsv events
                   | FormatJson => pretty 0 (JArr (map event_json events))
                   end in
    if truthy_opt configId
    then piece (repo (listExportConfigs tenantId)) (λ l,
      match find_first (λ c, bool_decide (Some (xc_id c) = configId)) l with
      | None => Done
      | Some config =>
          piece (net (dispatch network now' dispatcher
                   {| di_tenantId := tenantId; di_config := config; di_format := format; di_payload := payload |}))
            (λ d, if (d : jstr * bool).2 then piece (repo (markExported tenantId (xc_id config) exportedAt)) (λ _, Done) else Done)
      end)
    else Done).

Definition call_of (op : AuditOp) : Call :=
  match op with
  | OpAppend env input => Appending env input (λ _, Done)
  | OpSettings now now' env tenantId actorUserId input =>
      piece (repo (getSettings isoDate now tenantId)) (λ current,
      piece (repo (changeSettings isoDate now' actorUserId input tenantId current)) (λ settings,
      Appending env (audit_input tenantId actorUserId (js "settings-updated") (js "audit_settings") tenantId
          (Some (settings_json settings))
          (JObj [(js "retentionDays", JNum (se_retentionDays settings));
                 (js "clientIngestEnabled", JBool (se_clientIngestEnabled settings))])) (λ _, Done)))
  | OpIngest now envs env tenantId actorUserId source events =>
      piece (repo (getSettings isoDate now tenantId)) (λ settings,
      if negb (se_clientIngestEnabled settings) then Done
      else ingesting envs tenantId actorUserId source events [] (λ created,
        Appending env (audit_input tenantId actorUserId (js "client-events-ingested") (js "audit_events") source None
          (JObj [(js "source", JStr source); (js "count", JNum (Z.of_nat (length created)))])) (λ _, Done)))
  | OpUpsert uuid now env tenantId actorUserId input =>
      piece (repo (upsertExportConfig isoDate uuid now tenantId actorUserId input)) (λ config,
      Appending env (audit_input tenantId actorUserId (js "export-config-upserted") (js "audit_export_config")
          (xc_id config) (Some (config_json config))
          (JObj [(js "kind", JStr (kind_text (xc_kind config))); (js "destination", JStr (xc_destination config));
                 (js "status", JStr (status_text (xc_enabled config)))])) (λ _, Done))
  | OpExport now now' d tenantId format filter configId => exporting now now' d tenantId format filter configId
  end.

(** *** The server *)

(** A call goes on until its next [await]. *)
Definition advance (r : Running) (s : ServiceState) : Running * ServiceState :=
  match r with
  | Ready Done => (r, s)
  | Ready (Piece run) => let '(c, s') := run s in (Ready c, s')
  | Ready (Appending env input next) =>
      match repo (append_begin isoDate (ae_begin env) input) s with
      | (Ok p, s') => (Pushing env input p next, s')
      | (Err _, s') => (Ready Done, s')
      end
  | Pushing env input p next =>
      match repo (append_end sha256 isoDate env input p) s with
      | (Ok event, s') => (Ready (next event), s')
      | (Err _, s') => (Ready Done, s')
      end
  end.

Inductive ServerEvent :=
| Arrive (op : AuditOp)
| GoOn (i : nat).

Definition server_step (e : ServerEvent) (y : Server) : Server :=
  match e with
  | Arrive op => {| sv_state := sv_state y; sv_calls := sv_calls y ++ [Ready (call_of op)] |}
  | GoOn i =>
      match sv_calls y !! i with
      | None => y
      | Some r => let '(r', s') := advance r (sv_state y) in {| sv_state := s'; sv_calls := <[i := r']> (sv_calls y) |}
      end
  end.
Definition server_run (events : list ServerEvent) (y : Server) : Server := fold_left (λ y e, server_step e y) events y.
Definition newServer : Server := {| sv_state := newService; sv_calls := [] |}.

Definition log_of (tenant : jstr) (y : Server) : list CloudAuditEvent := events_of tenant (ss_repo (sv_state y)).

(** The tenant in whose append a call is. *)
Definition pushing_to (r : Running) : option jstr :=
  match r with Pushing _ input _ _ => Some (ap_tenantId input) | Ready _ => None end.

(** No append starts within another one of its tenant. *)
Definition serial_step (e : ServerEvent) (y : Server) : bool :=
  match e with
  | Arrive _ => true
  | GoOn i => match sv_calls y !! i with
              | Some (Ready (Appending _ input _)) =>
                  forallb (λ r, negb (bool_decide (pushing_to r = Some (ap_tenantId input)))) (sv_calls y)
              | _ => true
              end
  end.
Fixpoint serial (events : list ServerEvent) (y : Server) : bool :=
  match events with [] => true | e :: events => serial_step e y && serial events (server_step e y) end.

(** ** A call alone *)

(** A call that nothing interrupts, from its rest to its end. *)
Inductive ends : Running → ServiceState → ServiceState → Prop :=
| ends_done s : ends (Ready Done) s s
| ends_step r s r' s1 s2 : advance r s = (r', s1) → ends r' s1 s2 → ends r s s2.

Lemma ends_piece {A} (m : Service A) next s s' :
  match m s with (Ok a, s1) => ends (Ready (next a)) s1 s' | (Err _, s1) => s1 = s' end →
  ends (Ready (piece m next)) s s'.
Proof.
  intros H. destruct (m s) as [[a|x] s1] eqn:E.
  - eapply ends_step; [|exact H]. cbn. by rewrite E.
  - subst s1. eapply ends_step; [|apply ends_done]. cbn. by rewrite E.
Qed.

Lemma ends_append env input next s s' :
  match repo (append sha256 isoDate env input) s with
  | (Ok e, s1) => ends (Ready (next e)) s1 s'
  | (Err _, s1) => s1 = s'
  end → ends (Ready (Appending env input next)) s s'.
Proof.
  unfold repo, append, mbind, M_bind. intros H.
  destruct (append_begin isoDate (ae_begin env) input (ss_repo s)) as [[p|x] r1] eqn:Eb.
  - eapply ends_step; [cbn; unfold repo; by rewrite Eb|].
    destruct (append_end sha256 isoDate env input p r1) as [[e|x] r2] eqn:Ee.
    + eapply ends_step; [cbn; unfold repo; cbn; by rewrite Ee|done].
    + subst s'. eapply ends_step; [cbn; unfold repo; cbn; by rewrite Ee|apply ends_done].
  - subst s'. eapply ends_step; [cbn; unfold repo; by rewrite Eb|apply ends_done].
Qed.

Lemma ends_ingesting envs tenant actor source events created next s s' :
  match repo (ingest sha256 isoDate envs tenant actor source events) s with
  | (Ok l, s1) => ends (Ready (next (created ++ l))) s1 s'
  | (Err _, s1) => s1 = s'
  end → ends (Ready (ingesting envs tenant actor source events created next)) s s'.
Proof.
  revert envs created s. induction events as [|e events IH]; intros envs created s; cbn [ingesting ingest].
  - unfold repo, mret, M_ret. rewrite app_nil_r. by destruct s.
  - intros H. apply ends_append. unfold repo, mbind, M_bind in *.
    destruct (append sha256 isoDate _ _ (ss_repo s)) as [[x|x] r1]; [|done]. apply IH. cbn. unfold repo, mret, M_ret in *.
    destruct (ingest sha256 isoDate _ tenant actor source events r1) as [[l|x'] r2]; [|done].
    by rewrite <- (assoc_L (++)).
Qed.

(** Cut at its awaits and run alone, a call does what it does as a whole. *)
Lemma call_alone op s : ends (Ready (call_of op)) s (run_op sha256 isoDate network op s).
Proof.
  destruct op; cbn [call_of run_op].
  - apply ends_append. destruct (repo _ s) as [[] ?]; [apply ends_done|done].
  - apply ends_piece. unfold service_updateSettings, updateSettings, repo, mbind, M_bind.
    destruct (getSettings isoDate now tenant (ss_repo s)) as [[current|x] r1]; [|done]. apply ends_piece. unfold repo.
    cbn [ss_repo]. destruct (changeSettings isoDate now' actor input tenant current r1) as [[st|x] r2]; [|done].
    apply ends_append. unfold repo. cbn [ss_repo ss_log].
    destruct (append sha256 isoDate env _ r2) as [[] ?]; [apply ends_done|done].
  - unfold ingestClientEvents. apply ends_piece. unfold mbind, M_bind.
    destruct (repo (getSettings isoDate now tenant) s) as [[st|x] s1]; [|done]. destruct (negb _); [apply ends_done|].
    apply ends_ingesting. destruct (repo (ingest _ _ _ _ _ _ _) s1) as [[created|x] s2]; [|done]. cbn.
    apply ends_append. destruct (repo _ _) as [[] ?]; [apply ends_done|done].
  - unfold service_upsertExportConfig. apply ends_piece. unfold mbind, M_bind.
    destruct (repo (upsertExportConfig _ _ _ _ _ _) s) as [[config0|x] s1]; [|done].
    apply ends_append. destruct (repo _ _) as [[] ?]; [apply ends_done|done].
  - apply ends_piece. unfold export, mbind, M_bind, lift, mret, M_ret.
    destruct (repo (listEvents tenant filter) s) as [[events|x] s1]; [|done].
    destruct (iso now) as [exportedAt|x]; [|done]. cbv beta iota.
    destruct (truthy_opt config); cbv beta iota; [|destruct (isoDate exportedAt); apply ends_done].
    apply ends_piece. destruct (repo (listExportConfigs tenant) s1) as [[l|x] s2]; [|done]. cbv beta iota.
    destruct (find_first _ l) as [c|]; cbv beta iota; [|destruct (isoDate exportedAt); apply ends_done].
    apply ends_piece. destruct (net _ s2) as [[sent|x] s3]; [|done]. cbv beta iota.
    destruct sent.2; cbv beta iota; [|destruct (isoDate exportedAt); apply ends_done].
    apply ends_piece. destruct (repo (markExported _ _ _) s3) as [[]  ?]; [|done].
    destruct (isoDate exportedAt); apply ends_done.
Qed.

(** ** Appends in flight *)

Notation logs_ok := (repo_ok sha256).

(** The pieces of a call between its appends do not touch the logs. *)
Inductive tame : Call → Prop :=
| tame_done : tame Done
| tame_piece run : (∀ s, same_logs (ss_repo s) (ss_repo (run s).2)) → (∀ s, tame (run s).1) → tame (Piece run)
| tame_append env input next : (∀ e, tame (next e)) → tame (Appending env input next).

Lemma piece_tame {A} (m : Service A) next : steady same_logs ss_repo m → (∀ a, tame (next a)) → tame (piece m next).
Proof.
  intros Hm Hn. apply tame_piece; intros s; [specialize (Hm s)|]; destruct (m s) as [[a|x] s']; cbn; auto. apply tame_done.
Qed.

Lemma same_logs_steady_repo {A} (m : M InMemoryAuditRepository AuditError A) : steady same_logs id m → steady same_logs ss_repo (repo m).
Proof. apply steady_repo. Qed.

Lemma ingesting_tame envs tenant actor source events created next :
  (∀ l, tame (next l)) → tame (ingesting envs tenant actor source events created next).
Proof.
  intros Hn. revert envs created. induction events as [|e events IH]; intros envs created; cbn; [done|].
  apply tame_append. intros event. apply IH.
Qed.

Lemma call_of_tame op : tame (call_of op).
Proof.
  assert (Hl : ∀ A (m : Service A), (∀ s, ss_repo (m s).2 = ss_repo s) → steady same_logs ss_repo m).
  { intros A m H s. by rewrite H. }
  destruct op; cbn [call_of].
  - apply tame_append. intros _. apply tame_done.
  - apply piece_tame; [apply same_logs_steady_repo, quiet_getSettings|]. intros current.
    apply piece_tame; [apply same_logs_steady_repo, quiet_changeSettings|]. intros st. apply tame_append. intros _. apply tame_done.
  - apply piece_tame; [apply same_logs_steady_repo, quiet_getSettings|]. intros st. destruct (negb _); [apply tame_done|].
    apply ingesting_tame. intros l. apply tame_append. intros _. apply tame_done.
  - apply piece_tame; [apply same_logs_steady_repo, quiet_upsert|]. intros c. apply tame_append. intros _. apply tame_done.
  - unfold exporting. apply piece_tame.
    { apply Hl. intros s. unfold mbind, M_bind, lift, mret, M_ret, repo, listEvents, gets. by destruct (iso now). }
    intros [events exportedAt]. destruct (truthy_opt config); [|apply tame_done].
    apply piece_tame; [apply Hl; intros s; reflexivity|]. intros l. destruct (find_first _ l) as [c|]; [|apply tame_done].
    apply piece_tame; [apply Hl; intros s; unfold net; by destruct (dispatch _ _ _ _ _)|]. intros sent.
    destruct sent.2; [|apply tame_done]. apply piece_tame; [apply same_logs_steady_repo; intros r; done|]. intros _. apply tame_done.
Qed.

(** What an append in flight relies on: the array it pushes to and the event before its own. *)
Definition in_flight (input : AppendAuditInput) (p : PendingAppend) (r : InMemoryAuditRepository) : Prop :=
  holds_array (ap_tenantId input) (pa_array p) r ∧ pa_previous p = last (events_of (ap_tenantId input) r).

Definition flight_ok (x : Running) (r : InMemoryAuditRepository) : Prop :=
  match x with
  | Ready c => tame c
  | Pushing _ input p next => in_flight input p r ∧ ∀ e, tame (next e)
  end.

(** Appends in flight are of different tenants and push to different arrays. *)
Definition apart (x x' : Running) : Prop :=
  match x, x' with
  | Pushing _ input p _, Pushing _ input' p' _ => ap_tenantId input ≠ ap_tenantId input' ∧ pa_array p ≠ pa_array p'
  | _, _ => True
  end.

Definition server_ok (y : Server) : Prop :=
  logs_ok (ss_repo (sv_state y)) ∧ (∀ i x, sv_calls y !! i = Some x → flight_ok x (ss_repo (sv_state y))) ∧
  ∀ i j x x', i ≠ j → sv_calls y !! i = Some x → sv_calls y !! j = Some x' → apart x x'.

(** A change of the repository that an append in flight does not notice. *)
Definition unnoticed (tenant : jstr) (i : nat) (r r' : InMemoryAuditRepository) : Prop :=
  holds_array tenant i r → holds_array tenant i r' ∧ events_of tenant r' = events_of tenant r.

Lemma flight_unnoticed x r r' :
  (∀ env input p next, x = Pushing env input p next → unnoticed (ap_tenantId input) (pa_array p) r r') →
  flight_ok x r → flight_ok x r'.
Proof.
  destruct x as [c|env input p next]; [done|]. intros H [[Ha Hp] Ht]. destruct (H _ _ _ _ eq_refl Ha) as [Ha' He].
  split; [|done]. split; [done|by rewrite He].
Qed.

Lemma same_logs_unnoticed tenant i r r' : same_logs r r' → unnoticed tenant i r r'.
Proof.
  intros H. pose proof (same_logs_events _ _ tenant H) as He. destruct H as [Ha Hm]. intros [H1 H2].
  split; [|done]. split; [by rewrite Ha, He|by rewrite Hm].
Qed.

Lemma append_begin_arrays now input r res r' :
  append_begin isoDate now input r = (res, r') →
  ar_events r' = ar_events r ∧ ar_arrays r `prefix_of` ar_arrays r' ∧
  ∀ p, res = Ok p → map_get (ap_tenantId input) (ar_events r) = Some (pa_array p) ∨ pa_array p = length (ar_arrays r).
Proof.
  unfold append_begin, mbind, M_bind, get, gets, put, mret, M_ret. cbv beta iota.
  destruct (map_get (ap_tenantId input) (ar_events r)) as [i|] eqn:Hi; cbv beta iota;
    destruct (getSettings _ _ _ _) as [st r2] eqn:Hs; apply getSettings_same in Hs as [Ha He]; cbn in Ha, He;
    destruct st as [st|x]; intros [= <- <-]; rewrite Ha, He;
    (split; [done|]; split; [first [reflexivity | by eexists]|]; intros p [= <-]; cbn; auto).
Qed.

Lemma append_end_arrays env input p r res r' :
  append_end sha256 isoDate env input p r = (res, r') →
  (∀ i, i ≠ pa_array p → ar_arrays r' !! i = ar_arrays r !! i) ∧
  ∀ t i, map_get t (ar_events r') = Some i → map_get t (ar_events r) = Some i ∨ i = pa_array p.
Proof.
  unfold append_end, mbind, M_bind, lift, modify, mret, M_ret.
  destruct (createAuditEvent _ _ _ _ _ _) as [e|x]; intros [= <- <-]; [|by auto]. cbn. split.
  - intros i Hi. by apply list_lookup_alter_ne.
  - intros t i. rewrite map_get_set. case_decide; [intros [= <-]|]; auto.
Qed.

(** A step of one append is not noticed by an append of another tenant. *)
Lemma begin_unnoticed now input r res r' tenant i :
  logs_ok r → append_begin isoDate now input r = (res, r') → unnoticed tenant i r r'.
Proof.
  intros Hok Hb [H1 H2]. pose proof (append_begin_spec _ _ _ _ _ _ _ Hok Hb) as (_ & He & _).
  apply append_begin_arrays in Hb as (Hm & [k Ha] & _). split; [|apply He]. split; [|by rewrite Hm].
  rewrite He, Ha. by apply lookup_app_l_Some.
Qed.

Lemma end_unnoticed env input p r res r' tenant i :
  logs_ok r → in_flight input p r → ap_tenantId input ≠ tenant → pa_array p ≠ i →
  append_end sha256 isoDate env input p r = (res, r') → unnoticed tenant i r r'.
Proof.
  intros Hok [Ha Hp] Hne Hi He [H1 H2]. pose proof (append_end_spec _ _ _ _ _ _ _ _ Hok Ha Hp He) as [_ Hx].
  assert (events_of tenant r' = events_of tenant r) as Et by (rewrite Hx, decide_False, app_nil_r by done; done).
  apply append_end_arrays in He as [E1 E2]. split; [|done]. split; [by rewrite E1, Et|].
  intros t Ht. destruct (E2 _ _ Ht); auto; congruence.
Qed.

(** ** The invariant of the server *)

Definition grown (y y' : Server) : Prop := server_ok y' ∧ ∀ t, log_of t y `prefix_of` log_of t y'.

(** One call goes on, the others do not notice. *)
Lemma goes_on i x x' y s' :
  server_ok y → sv_calls y !! i = Some x → logs_ok (ss_repo s') →
  flight_ok x' (ss_repo s') →
  (∀ j z, i ≠ j → sv_calls y !! j = Some z → flight_ok z (ss_repo s') ∧ apart x' z ∧ apart z x') →
  (∀ t, log_of t y `prefix_of` events_of t (ss_repo s')) →
  grown y {| sv_state := s'; sv_calls := <[i := x']> (sv_calls y) |}.
Proof.
  intros (_ & _ & Hapart) Hi Hok Hx Hz Hlog. split; [|exact Hlog]. split; [done|]. cbn.
  assert (Hin : ∀ j z, <[i := x']> (sv_calls y) !! j = Some z → j = i ∧ z = x' ∨ i ≠ j ∧ sv_calls y !! j = Some z).
  { intros j z. destruct (decide (i = j)) as [<-|Hne]; [|rewrite list_lookup_insert_ne by done; auto].
    rewrite list_lookup_insert_eq by (by eapply lookup_lt_Some). intros [= <-]. auto. }
  split.
  - intros j z [[-> ->]|[Hj Hl]]%Hin; [done|by apply (Hz j)].
  - intros j k z z' Hne [[-> ->]|[Hj Hl]]%Hin [[-> ->]|[Hk Hl']]%Hin; [done|by apply (Hz k)|by apply (Hz j)|by apply (Hapart j k)].
Qed.

Lemma server_step_ok e y : server_ok y → serial_step e y = true → grown y (server_step e y).
Proof.
  intros Hy Hs. pose proof Hy as (Hok & Hfl & Hap). destruct e as [op|i]; cbn [server_step].
  { split; [|intros t; reflexivity]. split; [done|]. cbn. split.
    - intros i x [Hx|[_ Hx]]%lookup_app_Some; [by eapply Hfl|]. apply list_lookup_singleton_Some in Hx as [_ <-]. apply call_of_tame.
    - intros i j x x' Hne [Hx|[_ Hx]]%lookup_app_Some [Hx'|[_ Hx']]%lookup_app_Some; [by eapply Hap|..];
        repeat match goal with H : [_] !! _ = Some _ |- _ => apply list_lookup_singleton_Some in H as [_ <-] end; try done.
      by destruct x. }
  cbn [serial_step] in Hs. destruct (sv_calls y !! i) as [x|] eqn:Hi; [|split; [done|intros t; reflexivity]].
  pose proof (Hfl _ _ Hi) as Hx. destruct (advance x (sv_state y)) as [x' s'] eqn:Ha.
  destruct x as [[|run|env input next]|env input p next]; cbn in Ha.
  - injection Ha as <- <-. apply (goes_on i (Ready Done)); try done.
    intros j z Hne Hj. split; [by eapply Hfl|by destruct z].
  - inversion Hx as [|? Hrun Hnext|]; subst. specialize (Hrun (sv_state y)). specialize (Hnext (sv_state y)).
    destruct (run (sv_state y)) as [c s1]. cbn in Hrun, Hnext. injection Ha as <- <-. apply (goes_on i (Ready (Piece run))); try done.
    + by eapply same_logs_ok.
    + intros j z Hne Hj. split; [|by destruct z]. eapply flight_unnoticed; [|by eapply Hfl].
      intros. by apply same_logs_unnoticed.
    + intros t. unfold log_of. by rewrite (same_logs_events _ _ t Hrun).
  - unfold repo in Ha. destruct (append_begin isoDate (ae_begin env) input (ss_repo (sv_state y))) as [r r1] eqn:Hb.
    pose proof (append_begin_spec _ _ _ _ _ _ _ Hok Hb) as (Hok1 & He & Hr).
    pose proof (append_begin_arrays _ _ _ _ _ Hb) as (Hm & Hpre & Hp).
    assert (Hothers : ∀ j z, i ≠ j → sv_calls y !! j = Some z → flight_ok z r1).
    { intros j z Hne Hj. eapply flight_unnoticed; [|by eapply Hfl]. intros. by eapply begin_unnoticed. }
    assert (Hlog : ∀ t, log_of t y `prefix_of` events_of t r1) by (intros t; by rewrite He).
    inversion Hx as [| |? ? ? Hnext]; subst.
    destruct r as [p|x]; injection Ha as <- <-; apply (goes_on i (Ready (Appending env input next))); try done.
    + cbn. split; [|done]. split; [apply Hr|]. rewrite He. apply Hr.
    + intros j z Hne Hj. split; [by eapply Hothers|]. destruct z as [c|env' input' p' next']; [done|].
      assert (ap_tenantId input' ≠ ap_tenantId input) as Ht.
      { rewrite forallb_forall in Hs. apply list_elem_of_lookup_2, list_elem_of_In, Hs in Hj.
        apply negb_true_iff, bool_decide_eq_false in Hj. cbn in Hj. congruence. }
      destruct (Hfl _ _ Hj) as [[[Ha' Ht'] _] _].
      assert (pa_array p ≠ pa_array p').
      { destruct (Hp p eq_refl) as [H|H]; [intros E; rewrite E in H; by apply Ht, eq_sym, Ht'|].
        apply lookup_lt_Some in Ha'. lia. }
      split; split; congruence.
    + apply tame_done.
    + intros j z Hne Hj. split; [by eapply Hothers|by destruct z].
  - destruct Hx as [Hf Hnext]. unfold repo in Ha.
    destruct (append_end sha256 isoDate env input p (ss_repo (sv_state y))) as [r r1] eqn:He.
    pose proof (append_end_spec _ _ _ _ _ _ _ _ Hok (proj1 Hf) (proj2 Hf) He) as [Hok1 Hext].
    assert (Hothers : ∀ j z, i ≠ j → sv_calls y !! j = Some z → flight_ok z r1).
    { intros j z Hne Hj. eapply flight_unnoticed; [|by eapply Hfl]. intros ? ? ? ? ->.
      destruct (Hap _ _ _ _ Hne Hi Hj). by eapply end_unnoticed. }
    assert (Hlog : ∀ t, log_of t y `prefix_of` events_of t r1) by (intros t; rewrite Hext; by eexists).
    destruct r as [e|x]; injection Ha as <- <-; apply (goes_on i (Pushing env input p next)); try done; try (cbn; by auto);
      try apply tame_done; intros j z Hne Hj; (split; [by eapply Hothers|by destruct z]).
Qed.

Lemma server_run_grown events y : server_ok y → serial events y = true → grown y (server_run events y).
Proof.
  revert y. induction events as [|e events IH]; intros y Hy; cbn [serial].
  - intros _. split; [done|]. intros t. reflexivity.
  - intros [He Hs]%andb_true_iff. destruct (server_step_ok e y Hy He) as [H1 P1]. destruct (IH _ H1 Hs) as [H2 P2].
    split; [exact H2|]. intros t. etrans; [apply P1|apply P2].
Qed.

Lemma newServer_ok : server_ok newServer.
Proof. split; [apply new_ok|]. split; intros ? **; done. Qed.

Lemma serial_app events events' y :
  serial (events ++ events') y = serial events y && serial events' (server_run events y).
Proof. revert y. induction events as [|e events IH]; intros y; [done|]. cbn. by rewrite IH, andb_assoc. Qed.

(** C6: Calls of the service arrive in any order and are interleaved at their awaits in any way, and may
    succeed or fail. As long as no append of a tenant starts while another append of the same tenant
    waits for the settings, every tenant's log is at any time a linked chain of its own events, numbered
    from one, which the check of exports accepts; and what happens next only adds events at its end.
    (When appends of one tenant do overlap, the chain forks: [AuditLogFacts.overlap_forks_chain].) *)
Theorem audit_logs_chained before after tenant :
  serial (before ++ after) newServer = true →
  let y := server_run before newServer in
  linked sha256 tenant genesis 0 (log_of tenant y) ∧
  auditChainValid sha256 (log_of tenant y) = true ∧
  log_of tenant y `prefix_of` log_of tenant (server_run after y).
Proof.
  rewrite serial_app, andb_true_iff. intros [H1 H2] y.
  destruct (server_run_grown before newServer newServer_ok H1) as [Hy _].
  destruct (server_run_grown after y Hy H2) as [_ Hp].
  pose proof (proj2 (proj2 (proj1 Hy)) tenant) as Hl. split; [exact Hl|]. split; [|apply Hp].
  by apply (linked_valid sha256 tenant).
Qed.
End calls.

(** ** Concrete calls *)

Definition input_of (tenant action : string) : AppendAuditInput :=
  {| ap_tenantId := js tenant; ap_actorUserId := Some (js "u"); ap_category := js "demo"; ap_action := js action;
     ap_targetType := None; ap_targetId := None; ap_workspaceId := None; ap_taskId := None; ap_sessionId := None;
     ap_before := None; ap_after := None; ap_metadata := None; ap_ts := None |}.

(** Two tenants' first appends overlap; then the settings of one change while the other appends again. *)
Definition two_tenants : list ServerEvent :=
  [Arrive (OpAppend (env_at 1) (input_of "t" "first")); Arrive (OpAppend (env_at 2) (input_of "v" "other"));
   GoOn 0; GoOn 1; GoOn 1; GoOn 0;
   Arrive (OpSettings 3 3 (env_at 3) (js "t") None {| su_retentionDays := Some 30%Z; su_clientIngestEnabled := None |});
   Arrive (OpAppend (env_at 4) (input_of "v" "again"));
   GoOn 2; GoOn 3; GoOn 2; GoOn 2; GoOn 3; GoOn 2].

Lemma audit_logs_chained_witness :
  let y := server_run plain_hash any_date offline two_tenants newServer in
  map ev_action (log_of (js "t") y) = [js "first"; js "settings-updated"] ∧
  map ev_action (log_of (js "v") y) = [js "other"; js "again"] ∧
  auditChainValid plain_hash (log_of (js "t") y) = true.
Proof.
  split; [vm_compute; reflexivity|]. split; [vm_compute; reflexivity|].
  refine (proj1 (proj2 (audit_logs_chained plain_hash any_date offline two_tenants [] (js "t") _))).
  vm_compute. reflexivity.
Defined.

(** An append that starts within another one of its tenant is not serial. *)
Lemma overlap_not_serial :
  serial plain_hash any_date offline
    [Arrive (OpAppend (env_at 1) (input_of "t" "left")); Arrive (OpAppend (env_at 2) (input_of "t" "right")); GoOn 0; GoOn 1]
    newServer = false.
Proof. vm_compute. reflexivity. Qed.
