(* ===== verification/Truncate.v ===== *)
(** * Truncation of tool output

    packages/harness/src/harness/utils/truncate.ts: the head and the tail of a text
    within a number of lines and of UTF-8 bytes. [Buffer.byteLength] counts bytes
    where it exists; [utf8Fallback] is the loop that counts elsewhere. The theorems
    say that the parts kept are the longest that fit, what the numbers reported
    are, and that the two counts agree. *)

From S2P Require Import Prelude JsString.
From Stdlib Require Import Lia.

Set Default Goal Selector "!".
Local Open Scope Z_scope.

Definition DEFAULT_MAX_LINES : Z := 2000.
Definition DEFAULT_MAX_BYTES : Z := 50 * 1024.
Definition GREP_MAX_LINE_LENGTH : Z := 500.

Inductive TruncatedBy := ByLines | ByBytes.

Record TruncationResult := {
  tr_content : jstr; tr_truncated : bool; tr_truncatedBy : option TruncatedBy;
  tr_totalLines : nat; tr_totalBytes : Z; tr_outputLines : nat; tr_outputBytes : Z;
  tr_lastLinePartial : bool; tr_firstLineExceedsLimit : bool; tr_maxLines : Z; tr_maxBytes : Z;
}.

Record TruncationOptions := { to_maxLines : option Z; to_maxBytes : option Z }.

(** ** Bytes *)

Fixpoint fallback_loop (s : jstr) : Z :=
  match s with
  | [] => 0
  | c :: rest =>
      if (c <=? 0x7f)%N then 1 + fallback_loop rest
      else if (c <=? 0x7ff)%N then 2 + fallback_loop rest
      else if is_high c then
        match rest with
        | d :: rest' => if is_low d then 4 + fallback_loop rest' else 3 + fallback_loop rest
        | [] => 3
        end
      else 3 + fallback_loop rest
  end.

(** The ASCII part in front is not looped over. *)
Fixpoint ascii_prefix (s : jstr) : nat :=
  match s with c :: s => if (c <=? 0x7f)%N then S (ascii_prefix s) else O | [] => O end.
Definition utf8Fallback (content : jstr) : Z :=
  let first := ascii_prefix content in
  if (first =? length content)%nat then Z.of_nat (length content)
  else Z.of_nat first + fallback_loop (drop first content).

Definition utf8ByteLength (content : jstr) : Z := utf8_length content.

Definition REPLACEMENT : N := 0xfffd%N.

Fixpoint replaceUnpairedSurrogates (s : jstr) : jstr :=
  match s with
  | [] => []
  | c :: rest =>
      if is_high c then
        match rest with
        | d :: rest' => if is_low d then c :: d :: replaceUnpairedSurrogates rest'
                        else REPLACEMENT :: replaceUnpairedSurrogates rest
        | [] => [REPLACEMENT]
        end
      else if is_low c then REPLACEMENT :: replaceUnpairedSurrogates rest
      else c :: replaceUnpairedSurrogates rest
  end.

(** ** The head *)

Definition untruncated (content : jstr) (totalLines : nat) (totalBytes maxLines maxBytes : Z) : TruncationResult :=
  {| tr_content := content; tr_truncated := false; tr_truncatedBy := None; tr_totalLines := totalLines;
     tr_totalBytes := totalBytes; tr_outputLines := totalLines; tr_outputBytes := totalBytes;
     tr_lastLinePartial := false; tr_firstLineExceedsLimit := false; tr_maxLines := maxLines;
     tr_maxBytes := maxBytes |}.

(** The loop over the lines: what it keeps, the bytes, and whether bytes stopped it. *)
Fixpoint head_loop (maxLines maxBytes : Z) (i : nat) (bytes : Z) (lines : list jstr)
    : list jstr * Z * bool :=
  match lines with
  | [] => ([], bytes, false)
  | line :: lines =>
      if Z.of_nat i <? maxLines then
        let lineBytes := utf8ByteLength line + (if (0 <? i)%nat then 1 else 0) in
        if maxBytes <? bytes + lineBytes then ([], bytes, true)
        else let '(kept, bytes', stopped) := head_loop maxLines maxBytes (S i) (bytes + lineBytes) lines in
             (line :: kept, bytes', stopped)
      else ([], bytes, false)
  end.

Definition truncated_by (maxLines maxBytes : Z) (kept : list jstr) (bytes : Z) (stopped : bool) : TruncatedBy :=
  if (maxLines <=? Z.of_nat (length kept)) && (bytes <=? maxBytes) then ByLines
  else if stopped then ByBytes else ByLines.

Definition truncateHead (content : jstr) (options : TruncationOptions) : TruncationResult :=
  let maxLines := nullish (to_maxLines options) DEFAULT_MAX_LINES in
  let maxBytes := nullish (to_maxBytes options) DEFAULT_MAX_BYTES in
  let totalBytes := utf8ByteLength content in
  let lines := split_on NL content in
  let totalLines := length lines in
  if (Z.of_nat totalLines <=? maxLines) && (totalBytes <=? maxBytes)
  then untruncated content totalLines totalBytes maxLines maxBytes
  else if maxBytes <? utf8ByteLength (default [] (head lines)) then
    {| tr_content := []; tr_truncated := true; tr_truncatedBy := Some ByBytes; tr_totalLines := totalLines;
       tr_totalBytes := totalBytes; tr_outputLines := 0; tr_outputBytes := 0; tr_lastLinePartial := false;
       tr_firstLineExceedsLimit := true; tr_maxLines := maxLines; tr_maxBytes := maxBytes |}
  else
    let '(kept, bytes, stopped) := head_loop maxLines maxBytes 0 0 lines in
    let output := join [NL] kept in
    {| tr_content := output; tr_truncated := true;
       tr_truncatedBy := Some (truncated_by maxLines maxBytes kept bytes stopped); tr_totalLines := totalLines;
       tr_totalBytes := totalBytes; tr_outputLines := length kept; tr_outputBytes := utf8ByteLength output;
       tr_lastLinePartial := false; tr_firstLineExceedsLimit := false; tr_maxLines := maxLines;
       tr_maxBytes := maxBytes |}.

(** ** The tail *)

(** The loop backwards over the units: the suffix taken so far, and whether it has
    an unpaired surrogate. *)
Fixpoint end_loop (maxBytes bytes : Z) (before after : jstr) (unpaired : bool) : jstr * bool :=
  match before with
  | [] => (after, unpaired)
  | c :: before =>
      match before with
      | p :: before' =>
          if is_low c && is_high p then
            if maxBytes <? bytes + 4 then (after, unpaired)
            else end_loop maxBytes (bytes + 4) before' (p :: c :: after) unpaired
          else
            let n := if is_low c || is_high c then 3 else unit_bytes c in
            if maxBytes <? bytes + n then (after, unpaired)
            else end_loop maxBytes (bytes + n) before (c :: after) (unpaired || (is_low c || is_high c))
      | [] =>
          let n := if is_low c || is_high c then 3 else unit_bytes c in
          if maxBytes <? bytes + n then (after, unpaired)
          else (c :: after, unpaired || (is_low c || is_high c))
      end
  end.

Definition truncateStringToBytesFromEnd (str : jstr) (maxBytes : Z) : jstr :=
  if maxBytes <=? 0 then []
  else let '(output, needsReplacement) := end_loop maxBytes 0 (reverse str) [] false in
       if needsReplacement : bool then replaceUnpairedSurrogates output else output.

(** The loop over the lines from the last one: what it keeps, the bytes, whether
    bytes stopped it, and whether it kept part of a line. *)
Fixpoint tail_loop (maxLines maxBytes : Z) (kept : list jstr) (bytes : Z) (before : list jstr)
    : list jstr * Z * bool * bool :=
  match before with
  | [] => (kept, bytes, false, false)
  | line :: before =>
      if Z.of_nat (length kept) <? maxLines then
        let lineBytes := utf8ByteLength line + (if (0 <? length kept)%nat then 1 else 0) in
        if maxBytes <? bytes + lineBytes then
          match kept with
          | [] => let part := truncateStringToBytesFromEnd line maxBytes in
                  ([part], utf8ByteLength part, true, true)
          | _ => (kept, bytes, true, false)
          end
        else tail_loop maxLines maxBytes (line :: kept) (bytes + lineBytes) before
      else (kept, bytes, false, false)
  end.

(** The line after a final line feed is dropped. *)
Definition tail_lines (content : jstr) : list jstr :=
  let lines := split_on NL content in
  if (1 <? length lines)%nat && negb (truthy (List.last lines [])) then removelast lines else lines.

Definition truncateTail (content : jstr) (options : TruncationOptions) : TruncationResult :=
  let maxLines := nullish (to_maxLines options) DEFAULT_MAX_LINES in
  let maxBytes := nullish (to_maxBytes options) DEFAULT_MAX_BYTES in
  let totalBytes := utf8ByteLength content in
  let lines := tail_lines content in
  let totalLines := length lines in
  if (Z.of_nat totalLines <=? maxLines) && (totalBytes <=? maxBytes)
  then untruncated content totalLines totalBytes maxLines maxBytes
  else
    let '(kept, bytes, stopped, partial) := tail_loop maxLines maxBytes [] 0 (reverse lines) in
    let output := join [NL] kept in
    {| tr_content := output; tr_truncated := true;
       tr_truncatedBy := Some (truncated_by maxLines maxBytes kept bytes stopped); tr_totalLines := totalLines;
       tr_totalBytes := totalBytes; tr_outputLines := length kept; tr_outputBytes := utf8ByteLength output;
       tr_lastLinePartial := partial; tr_firstLineExceedsLimit := false; tr_maxLines := maxLines;
       tr_maxBytes := maxBytes |}.

Definition truncateLine (line : jstr) (maxChars : Z) : jstr * bool :=
  if Z.of_nat (length line) <=? maxChars then (line, false)
  else ((if maxChars <? 0 then take (length line - Z.to_nat (- maxChars)) line
         else take (Z.to_nat maxChars) line) ++ js "... [truncated]", true).

(** [(bytes / unit).toFixed(1)] for a power of two: the quotient is exact, and of
    two nearest tenths the larger one is taken. *)
Definition toFixed1 (bytes unit : Z) : jstr :=
  let n := (20 * bytes + unit) / (2 * unit) in dec (n / 10) ++ [46%N] ++ dec (n mod 10).

Definition formatSize (bytes : Z) : jstr :=
  if bytes <? 1024 then dec bytes ++ js "B"
  else if bytes <? 1024 * 1024 then toFixed1 bytes 1024 ++ js "KB"
  else toFixed1 bytes (1024 * 1024) ++ js "MB".

(** ** Counting *)

Lemma fallback_loop_utf8 s : fallback_loop s = utf8_length s.
Proof.
  remember (length s) as n eqn:Hn. revert s Hn.
  induction n as [n IH] using lt_wf_ind. intros [|c s] ->; [done|]. cbn [fallback_loop utf8_length].
  assert (∀ t, (length t < length (c :: s))%nat → fallback_loop t = utf8_length t) as Hrec by (intros t Ht; by eapply IH).
  rewrite (Hrec s) by (simpl; lia). unfold unit_bytes, is_high.
  destruct (N.leb_spec c 0x7f) as [H1|H1].
  - rewrite (proj2 (N.leb_gt 0xd800 c)) by lia. done.
  - destruct (N.leb_spec c 0x7ff) as [H2|H2].
    + rewrite (proj2 (N.leb_gt 0xd800 c)) by lia. done.
    + destruct (_ && _); [|done]. destruct s as [|d s]; [done|]. destruct (is_low d); [|done].
      by rewrite (Hrec s) by (simpl; lia).
Qed.

Lemma ascii_prefix_utf8 s :
  utf8_length s = Z.of_nat (ascii_prefix s) + utf8_length (drop (ascii_prefix s) s).
Proof.
  induction s as [|c s IH]; [done|]. cbn [ascii_prefix]. destruct (N.leb_spec c 0x7f) as [Hc|]; [|simpl; lia].
  cbn [drop utf8_length]. unfold is_high, unit_bytes. rewrite (proj2 (N.leb_gt 0xd800 c)), (proj2 (N.leb_le c 0x7f)) by lia.
  cbn [andb]. lia.
Qed.

(** The count of bytes does not depend on the runtime: the loop for runtimes
    without [Buffer] counts what [Buffer.byteLength] counts, lone surrogates
    included. *)
Theorem utf8Fallback_correct content : utf8Fallback content = utf8ByteLength content.
Proof.
  unfold utf8Fallback, utf8ByteLength. rewrite fallback_loop_utf8, (ascii_prefix_utf8 content) at 1.
  destruct (Nat.eqb_spec (ascii_prefix content) (length content)) as [->|]; [|done].
  rewrite drop_all. simpl. lia.
Qed.

(** The bytes of lines that follow [i] others, each but the very first after a line feed. *)
Fixpoint cost (i : nat) (l : list jstr) : Z :=
  match l with
  | [] => 0
  | x :: l => utf8_length x + (if (0 <? i)%nat then 1 else 0) + cost (S i) l
  end.

Lemma cost_S i l : cost (S (S i)) l = cost (S i) l.
Proof. revert i. induction l as [|x l IH]; intros i; [done|]. cbn [cost]. rewrite IH. done. Qed.

Lemma cost_nonneg i l : 0 <= cost i l.
Proof.
  revert i. induction l as [|x l IH]; intros i; cbn [cost]; [lia|].
  pose proof (utf8_length_nonneg x). pose proof (IH (S i)). destruct (0 <? i)%nat; lia.
Qed.

Lemma cost_app i l k : cost i (l ++ k) = cost i l + cost (i + length l) k.
Proof.
  revert i. induction l as [|x l IH]; intros i; cbn [cost app length]; [by rewrite Nat.add_0_r|].
  rewrite IH, Nat.add_succ_r. simpl. lia.
Qed.

Lemma utf8_length_nl s : utf8_length (NL :: s) = 1 + utf8_length s.
Proof. done. Qed.

Lemma join_bytes l : utf8_length (join [NL] l) = cost 0 l.
Proof.
  induction l as [|x l IH]; [done|]. destruct l as [|y l]; [simpl; lia|].
  rewrite join_cons by done. cbn [app]. rewrite utf8_length_app, utf8_length_nl, IH by done.
  cbn [cost]. rewrite cost_S. simpl. lia.
Qed.

(** ** The head *)

Lemma head_loop_spec maxLines maxBytes i bytes lines kept bytes' stopped :
  head_loop maxLines maxBytes i bytes lines = (kept, bytes', stopped) →
  bytes <= maxBytes → Z.of_nat i <= maxLines →
  kept = take (length kept) lines ∧ bytes' = bytes + cost i kept ∧ bytes' <= maxBytes ∧
  Z.of_nat (i + length kept) <= maxLines ∧
  (if stopped then (length kept < length lines)%nat ∧ Z.of_nat (i + length kept) < maxLines ∧
                   maxBytes < bytes + cost i (take (S (length kept)) lines)
   else length kept = length lines ∨ maxLines <= Z.of_nat (i + length kept)).
Proof.
  revert i bytes kept. induction lines as [|line lines IH]; intros i bytes kept H Hb Hi; cbn [head_loop] in H.
  - injection H as <- <- <-. rewrite Nat.add_0_r. split_and!; [done|simpl; lia|lia|lia|by left].
  - destruct (Z.ltb_spec (Z.of_nat i) maxLines).
    2: { injection H as <- <- <-. rewrite Nat.add_0_r. split_and!; [done|simpl; lia|lia|lia|by right]. }
    destruct (Z.ltb_spec maxBytes (bytes + (utf8ByteLength line + (if (0 <? i)%nat then 1 else 0)))) as [Hlt|Hge].
    { injection H as <- <- <-. rewrite Nat.add_0_r. unfold utf8ByteLength in Hlt.
      split_and!; [done|simpl; lia|lia|lia|simpl; lia|lia|simpl; lia]. }
    destruct (head_loop _ _ (S i) _ lines) as [[kept' b] st] eqn:E. injection H as <- <- <-.
    apply IH in E as (Hk & Hc & Hle & Hn & Hst); [|lia..]. cbn [length take cost].
    replace (i + S (length kept'))%nat with (S i + length kept')%nat by lia.
    unfold utf8ByteLength in *. split_and!; [by rewrite <- Hk|lia|lia|lia|].
    destruct st.
    + destruct Hst as (? & ? & Hst). split_and!; [lia|lia|]. cbn [cost] in *. lia.
    + destruct Hst; [left; lia|by right].
Qed.

Lemma default_head_split content : ∃ l ls, split_on NL content = l :: ls.
Proof. pose proof (split_on_not_nil NL content). destruct (split_on NL content) as [|l ls]; [done|eauto]. Qed.

(** The head of a text: it is left alone exactly when it is within both limits;
    otherwise it is cut to its first lines, as many as both limits admit, and what
    is reported says which limit came first. *)
Theorem truncateHead_spec content options
  (lines := split_on NL content) (r := truncateHead content options)
  (maxLines := nullish (to_maxLines options) DEFAULT_MAX_LINES)
  (maxBytes := nullish (to_maxBytes options) DEFAULT_MAX_BYTES)
  (Hl : 0 <= maxLines) (Hb : 0 <= maxBytes) (k := tr_outputLines r) :
  (tr_truncated r = false ↔ Z.of_nat (length lines) <= maxLines ∧ utf8_length content <= maxBytes) ∧
  tr_content r = join [NL] (take k lines) ∧ tr_outputBytes r = utf8_length (tr_content r) ∧
  Z.of_nat k <= maxLines ∧ tr_outputBytes r <= maxBytes ∧
  (tr_truncated r = true → (k < length lines)%nat ∧
     (maxLines <= Z.of_nat k ∨ maxBytes < utf8_length (join [NL] (take (S k) lines))) ∧
     (tr_truncatedBy r = Some ByLines ↔ tr_firstLineExceedsLimit r = false ∧ maxLines <= Z.of_nat k)).
Proof.
  subst k r. unfold truncateHead. fold maxLines maxBytes lines. unfold utf8ByteLength.
  assert (Hall : join [NL] (take (length lines) lines) = content) by (rewrite take_ge by done; apply join_split).
  destruct (Z.leb_spec (Z.of_nat (length lines)) maxLines) as [H1|H1], (Z.leb_spec (utf8_length content) maxBytes) as [H2|H2];
    cbn [andb]; [unfold untruncated; simpl; rewrite Hall; by split_and!|..].
  all: destruct (default_head_split content) as (l & ls & Hsplit); fold lines in Hsplit.
  all: destruct (Z.ltb_spec maxBytes (utf8_length (default [] (head lines)))) as [Hf|Hf];
    [rewrite Hsplit in *; simpl in *; split_and!; [split; [done|lia]|done|done|lia|lia|];
     intros _; split_and!; [lia|by right|split; [done|by intros [? _]]]|].
  all: destruct (head_loop maxLines maxBytes 0 0 lines) as [[kept b] st] eqn:E.
  all: apply head_loop_spec in E as (Hk & Hc & Hle & Hn & Hst); [|lia..].
  all: rewrite Nat.add_0_l in *; simpl; rewrite <- Hk, !join_bytes.
  all: assert (length kept < length lines)%nat as Hlt by
    (pose proof (f_equal length Hk) as Hlen; rewrite length_take in Hlen;
     destruct (Nat.eq_dec (length kept) (length lines)) as [Heq|]; [exfalso|lia];
     rewrite Heq, take_ge in Hk by done; subst kept;
     pose proof (join_bytes lines) as Hj; unfold lines in Hj at 1; rewrite join_split in Hj; lia).
  all: split_and!; [split; [done|lia]|done|done|lia|lia|]; intros _; split_and!; [done|destruct st; lia|].
  all: unfold truncated_by; rewrite (proj2 (Z.leb_le b maxBytes)) by lia; rewrite andb_true_r.
  all: destruct (Z.leb_spec maxLines (Z.of_nat (length kept))); destruct st; split; try done; lia.
Qed.

(** ** The tail *)

Lemma utf8_length_lone c s :
  is_high c = true → match s with d :: _ => is_low d = false | [] => True end →
  utf8_length (c :: s) = 3 + utf8_length s.
Proof. intros Hh Hs. cbn [utf8_length]. rewrite Hh. destruct s; [done|]. by rewrite Hs. Qed.

Lemma replace_bytes s : utf8_length (replaceUnpairedSurrogates s) = utf8_length s.
Proof.
  remember (length s) as n eqn:Hn. revert s Hn.
  induction n as [n IH] using lt_wf_ind. intros [|c s] ->; [done|].
  assert (∀ t, (length t < length (c :: s))%nat → utf8_length (replaceUnpairedSurrogates t) = utf8_length t) as Hrec
    by (intros t Ht; by eapply IH).
  cbn [replaceUnpairedSurrogates]. destruct (is_high c) eqn:Hh.
  - destruct s as [|d s]; [cbn [utf8_length]; by rewrite Hh|]. destruct (is_low d) eqn:Hd.
    + cbn [utf8_length]. rewrite Hh, Hd, Hrec by (simpl; lia). done.
    + change (3 + utf8_length (replaceUnpairedSurrogates (d :: s)) = utf8_length (c :: d :: s)).
      rewrite Hrec by (simpl; lia). rewrite (utf8_length_lone c (d :: s) Hh Hd). done.
  - destruct (is_low c) eqn:Hl; cbn [utf8_length].
    + change (is_high REPLACEMENT) with false. change (unit_bytes REPLACEMENT) with 3.
      rewrite Hrec by (simpl; lia). rewrite Hh. unfold unit_bytes, is_low in *. apply andb_true_iff in Hl as [Hl%N.leb_le _].
      rewrite (proj2 (N.leb_gt c 0x7f)), (proj2 (N.leb_gt c 0x7ff)) by lia. done.
    + rewrite Hh, Hrec by (simpl; lia). done.
Qed.

(** No pair is cut between the units before and after. *)
Definition boundary (before after : jstr) : Prop :=
  match before, after with p :: _, d :: _ => is_high p && is_low d = false | _, _ => True end.

Lemma utf8_length_unit c before after :
  boundary (c :: before) after →
  utf8_length (c :: after) = (if is_low c || is_high c then 3 else unit_bytes c) + utf8_length after.
Proof.
  unfold boundary. intros Hb. cbn [utf8_length]. destruct (is_high c) eqn:Hh.
  - rewrite orb_true_r. destruct after as [|d after]; [done|]. simpl in Hb. rewrite Hb. done.
  - destruct (is_low c) eqn:Hl; [|done]. simpl. unfold unit_bytes, is_low in *.
    apply andb_true_iff in Hl as [Hl%N.leb_le _].
    rewrite (proj2 (N.leb_gt c 0x7f)), (proj2 (N.leb_gt c 0x7ff)) by lia. done.
Qed.

Lemma end_loop_cons maxBytes bytes c p before after unpaired (n := if is_low c || is_high c then 3 else unit_bytes c) :
  end_loop maxBytes bytes (c :: p :: before) after unpaired =
  if is_low c && is_high p then
    if maxBytes <? bytes + 4 then (after, unpaired) else end_loop maxBytes (bytes + 4) before (p :: c :: after) unpaired
  else if maxBytes <? bytes + n then (after, unpaired)
  else end_loop maxBytes (bytes + n) (p :: before) (c :: after) (unpaired || (is_low c || is_high c)).
Proof. reflexivity. Qed.

Lemma end_loop_spec maxBytes bytes before after unpaired out u :
  end_loop maxBytes bytes before after unpaired = (out, u) →
  bytes = utf8_length after → bytes <= maxBytes → boundary before after →
  ∃ n, out = reverse (take n before) ++ after ∧ (n <= length before)%nat ∧ utf8_length out <= maxBytes ∧
    ((n < length before)%nat → maxBytes < utf8_length out + 4).
Proof.
  remember (length before) as n eqn:Hn. revert bytes before after unpaired Hn.
  induction n as [n IH] using lt_wf_ind. intros bytes [|c before] after unpaired -> H Hb Hle Hbd.
  { injection H as <- <-. exists O. simpl. split_and!; [done|lia|lia|lia]. }
  assert (Hn1 : (if is_low c || is_high c then 3 else unit_bytes c) <= 4)
    by (pose proof (unit_bytes_bounds c); destruct (_ || _); lia).
  pose proof (utf8_length_unit c before after Hbd) as Hu.
  destruct before as [|p before]; [cbn [end_loop] in H|rewrite end_loop_cons in H].
  - destruct (Z.ltb_spec maxBytes (bytes + (if is_low c || is_high c then 3 else unit_bytes c))).
    + injection H as <- <-. exists O. simpl. split_and!; [done|lia|lia|lia].
    + injection H as <- <-. exists 1%nat. simpl length. split_and!; [done|lia|lia|lia].
  - destruct (is_low c && is_high p) eqn:Hp.
    + destruct (Z.ltb_spec maxBytes (bytes + 4)).
      { injection H as <- <-. exists O. simpl. split_and!; [done|lia|lia|lia]. }
      apply andb_true_iff in Hp as [Hlc Hhp].
      assert (Hpair : utf8_length (p :: c :: after) = 4 + utf8_length after) by (cbn [utf8_length]; by rewrite Hhp, Hlc).
      assert (Hlp : is_low p = false).
      { unfold is_high, is_low in *. apply andb_true_iff in Hhp as [_ Hhp%N.leb_le].
        apply andb_false_iff. left. apply N.leb_gt. lia. }
      eapply (IH (length before)) in H as (m & -> & Hm & Ho & Hs); [|simpl; lia|done|lia|lia|].
      2: { unfold boundary. destruct before; [done|]. by rewrite Hlp, andb_false_r. }
      exists (S (S m)). cbn [take length]. rewrite !reverse_cons, <- !(assoc_L (++)). simpl app. split_and!; [done|lia|done|].
      intros Hlt. apply Hs. simpl in Hlt. lia.
    + destruct (Z.ltb_spec maxBytes (bytes + (if is_low c || is_high c then 3 else unit_bytes c))).
      { injection H as <- <-. exists O. simpl. split_and!; [done|lia|lia|lia]. }
      eapply (IH (length (p :: before))) in H as (m & -> & Hm & Ho & Hs); [|simpl; lia|done|lia|lia|].
      2: { unfold boundary. by rewrite andb_comm. }
      exists (S m). cbn [take length]. rewrite reverse_cons, <- (assoc_L (++)). simpl app. split_and!; [done|simpl in *; lia|done|].
      intros Hlt. apply Hs. simpl in *. lia.
Qed.

(** Of a line that does not fit, the longest part at its end up to a character. *)
Lemma truncateStringToBytesFromEnd_spec str maxBytes :
  0 <= maxBytes → maxBytes < utf8_length str →
  let out := truncateStringToBytesFromEnd str maxBytes in
  utf8_length out <= maxBytes < utf8_length out + 4 ∧
  ∃ s, s `suffix_of` str ∧ (out = s ∨ out = replaceUnpairedSurrogates s).
Proof.
  intros H0 Hlt. unfold truncateStringToBytesFromEnd. cbn zeta. destruct (Z.leb_spec maxBytes 0).
  { simpl. split; [lia|]. exists []. split; [apply suffix_nil|by left]. }
  destruct (end_loop maxBytes 0 (reverse str) [] false) as [out u] eqn:E.
  apply end_loop_spec in E as (n & -> & Hn & Ho & Hs); [|done|lia|by destruct (reverse str)].
  rewrite app_nil_r in *. assert (reverse (take n (reverse str)) `suffix_of` str) as Hsuf.
  { exists (reverse (drop n (reverse str))). by rewrite <- reverse_app, take_drop, reverse_involutive. }
  assert (n < length (reverse str))%nat as Hn'.
  { destruct (Nat.eq_dec n (length (reverse str))) as [->|]; [|lia].
    rewrite take_ge, reverse_involutive in Ho by done. lia. }
  specialize (Hs Hn'). destruct u.
  - rewrite replace_bytes. split; [lia|]. eauto.
  - split; [lia|]. eauto.
Qed.

Lemma cost_1 l : cost 1 l = cost 0 l + (if (0 <? length l)%nat then 1 else 0).
Proof. destruct l as [|x l]; simpl; [done|]. rewrite cost_S. lia. Qed.

Lemma tail_loop_spec maxLines maxBytes kept bytes before kept' bytes' stopped partial :
  tail_loop maxLines maxBytes kept bytes before = (kept', bytes', stopped, partial) →
  bytes = cost 0 kept → bytes <= maxBytes → Z.of_nat (length kept) <= maxLines →
  (partial = true ∧ kept = [] ∧ ∃ line, head before = Some line ∧ maxBytes < utf8_length line ∧
     kept' = [truncateStringToBytesFromEnd line maxBytes] ∧ 0 < maxLines)
  ∨ (partial = false ∧ ∃ n, kept' = reverse (take n before) ++ kept ∧ (n <= length before)%nat ∧
       bytes' = cost 0 kept' ∧ bytes' <= maxBytes ∧ Z.of_nat (length kept') <= maxLines ∧
       ∀ line, before !! n = Some line → maxLines <= Z.of_nat (length kept') ∨ maxBytes < cost 0 (line :: kept')).
Proof.
  revert kept bytes. induction before as [|line before IH]; intros kept bytes H Hb Hle Hl; cbn [tail_loop] in H.
  - injection H as <- <- <- <-. right. split; [done|]. exists O. by split_and!.
  - destruct (Z.ltb_spec (Z.of_nat (length kept)) maxLines).
    2: { injection H as <- <- <- <-. right. split; [done|]. exists O. split_and!; try done; [simpl; lia|].
         intros ? _. left. lia. }
    assert (cost 0 (line :: kept) = bytes + (utf8_length line + (if (0 <? length kept)%nat then 1 else 0))) as Hc.
    { cbn [cost]. rewrite cost_1. simpl. lia. }
    unfold utf8ByteLength in H. rewrite <- Hc in H. destruct (Z.ltb_spec maxBytes (cost 0 (line :: kept))) as [Hlt|Hge].
    + destruct kept as [|x kept]; injection H as <- <- <- <-.
      * left. split_and!; [done|done|]. exists line. simpl in *. split_and!; [done|lia|done|lia].
      * right. split; [done|]. exists O. split_and!; try done; [simpl; lia|]. intros y [= <-]. by right.
    + apply IH in H as [(Hp & Hk & _)|(Hp & n & -> & Hn & Hb' & Hle' & Hl' & Hs)]; [done| |done|done|simpl; lia].
      right. split; [done|]. exists (S n). cbn [take]. rewrite reverse_cons, <- (assoc_L (++)). split_and!; try done.
      simpl. lia.
Qed.

Lemma reverse_take_reverse {A} n (l : list A) : reverse (take n (reverse l)) = last_n n l.
Proof.
  unfold last_n. destruct (Nat.le_gt_cases n (length l)).
  - rewrite <- (take_drop (length l - n) l) at 1. rewrite reverse_app, take_app_length'; [by rewrite reverse_involutive|].
    rewrite length_reverse, length_drop. lia.
  - rewrite take_ge by (rewrite length_reverse; lia). rewrite reverse_involutive.
    by replace (length l - n)%nat with 0%nat by lia.
Qed.

Lemma last_n_S {A} n (l : list A) x : reverse l !! n = Some x → last_n (S n) l = x :: last_n n l.
Proof.
  intros H. rewrite <- !reverse_take_reverse. rewrite (take_S_r _ _ _ H), reverse_app. done.
Qed.

(** The tail of a text, without the empty line after a final line feed: it is left
    alone exactly when it is within both limits; otherwise it is cut to its last
    lines, as many as both limits admit, or, when the last line alone has too many
    bytes, to the longest end of that line. *)
Theorem truncateTail_spec content options
  (lines := tail_lines content) (r := truncateTail content options)
  (maxLines := nullish (to_maxLines options) DEFAULT_MAX_LINES)
  (maxBytes := nullish (to_maxBytes options) DEFAULT_MAX_BYTES)
  (Hl : 0 <= maxLines) (Hb : 0 <= maxBytes) (k := tr_outputLines r) :
  (tr_truncated r = false ↔ Z.of_nat (length lines) <= maxLines ∧ utf8_length content <= maxBytes) ∧
  (tr_truncated r = false → tr_content r = content) ∧
  tr_outputBytes r = utf8_length (tr_content r) ∧ Z.of_nat k <= maxLines ∧ tr_outputBytes r <= maxBytes ∧
  (tr_truncated r = true →
   if tr_lastLinePartial r then
     ∃ line s, last lines = Some line ∧ maxBytes < utf8_length line ∧ s `suffix_of` line ∧
       (tr_content r = s ∨ tr_content r = replaceUnpairedSurrogates s) ∧ maxBytes < tr_outputBytes r + 4
   else
     tr_content r = join [NL] (last_n k lines) ∧ (k <= length lines)%nat ∧
     ((k < length lines)%nat → maxLines <= Z.of_nat k ∨ maxBytes < utf8_length (join [NL] (last_n (S k) lines)))).
Proof.
  subst k r. unfold truncateTail. fold maxLines maxBytes lines. unfold utf8ByteLength.
  destruct (Z.of_nat (length lines) <=? maxLines) eqn:H1, (utf8_length content <=? maxBytes) eqn:H2;
    rewrite ?Z.leb_le, ?Z.leb_gt in *; cbn [andb]; [unfold untruncated; simpl; by split_and!|..].
  all: destruct (tail_loop maxLines maxBytes [] 0 (reverse lines)) as [[[kept b] st] partial] eqn:E.
  all: apply tail_loop_spec in E as [(-> & _ & line & Hh & Hlt & -> & Hpos)|(-> & n & -> & Hn & -> & Hle & Hlen & Hs)];
    [| |done|lia|simpl; lia].
  1, 3, 5: destruct (truncateStringToBytesFromEnd_spec line maxBytes Hb Hlt) as ((Ho1 & Ho2) & s & Hsuf & Hs); simpl;
    split_and!; [split; [done|lia]|done|done|lia|lia|]; intros _; exists line, s; split_and!; try done;
    rewrite head_reverse in Hh; exact Hh.
  all: rewrite app_nil_r, reverse_take_reverse in *; rewrite length_reverse in Hn; simpl; rewrite !join_bytes.
  all: assert (length (last_n n lines) = n) as Hln by (rewrite length_last_n; lia); rewrite Hln in *.
  all: split_and!; [split; [done|lia]|done|done|lia|lia|]; intros _; split_and!; [done|lia|]; intros Hlt.
  all: destruct (lookup_lt_is_Some_2 (reverse lines) n) as [x Hx]; [rewrite length_reverse; lia|].
  all: rewrite (last_n_S _ _ _ Hx); by apply Hs.
Qed.

Definition limits (lines bytes : Z) : TruncationOptions := {| to_maxLines := Some lines; to_maxBytes := Some bytes |}.
Definition demo_text : jstr := js "ab" ++ [NL] ++ js "cde" ++ [NL] ++ js "f".

Lemma truncateHead_spec_witness :
  (0 <= 2 ∧ 0 <= 5) ∧ tr_content (truncateHead demo_text (limits 2 5)) = js "ab".
Proof.
  split; [lia|]. destruct (truncateHead_spec demo_text (limits 2 5) ltac:(simpl; lia) ltac:(simpl; lia)) as (_ & H & _).
  rewrite H. vm_compute. reflexivity.
Defined.

Lemma truncateTail_spec_witness :
  (0 <= 2 ∧ 0 <= 5) ∧ utf8_length (tr_content (truncateTail demo_text (limits 2 5))) <= 5.
Proof.
  split; [lia|].
  destruct (truncateTail_spec demo_text (limits 2 5) ltac:(simpl; lia) ltac:(simpl; lia)) as (_ & _ & H & _ & Hb & _).
  rewrite <- H. exact Hb.
Defined.

(** Cuts by bytes that are reported as cuts by lines: a text that only loses its
    final line feed, and the end of a single line that is too long. *)
Lemma truncateTail_reports_lines :
  let r := truncateTail (js "abc" ++ [NL]) (limits 10 3) in
  let r' := truncateTail (js "abcdef") (limits 1 3) in
  (tr_content r = js "abc" ∧ tr_truncatedBy r = Some ByLines ∧ tr_outputLines r = tr_totalLines r) ∧
  (tr_content r' = js "def" ∧ tr_truncatedBy r' = Some ByLines ∧ tr_totalLines r' = 1%nat).
Proof. vm_compute. done. Qed.
