(* ===== verification/WorkspacePath.v ===== *)
(** * Paths a tool may write

    packages/local-agent/src/workspace-path.ts: a requested path is resolved against
    the workspace, must not leave it, and must not name what is protected. [cwd] is
    the working directory of the process. *)

From S2P Require Import Prelude JsString PosixPath.
From Stdlib Require Import Lia.

Set Default Goal Selector "!".

Inductive PathError :=
| WorkspacePathError (path : jstr)
| WorkspaceWritePolicyError (path reason : jstr).
#[export] Instance PathError_eq_dec : EqDecision PathError.
Proof. solve_decision. Defined.

Record WorkspaceWritePolicyOptions := { wo_allowProtectedWrite : bool }.

Definition PROTECTED_SEGMENTS : list jstr := [js ".git"; js ".berry"; js ".codex"; js ".agents"; js ".ssh"].
Definition PROTECTED_ROOT_PREFIXES : list jstr :=
  [js "apps/desktop/src-tauri/binaries/"; js "apps/desktop/src-tauri/target/"; js "crates/berry-pty/target/"].
Definition PROTECTED_BASENAMES : list jstr :=
  [js ".env"; js ".npmrc"; js ".netrc"; js "id_rsa"; js "id_dsa"; js "id_ecdsa"; js "id_ed25519";
   js "known_hosts"; js "authorized_keys"].
Definition PROTECTED_EXTENSIONS : list jstr := [js ".pem"; js ".key"; js ".p12"; js ".pfx"].

(** [toLowerCase] where the result is compared with ASCII text without an "i": the
    Kelvin sign is the one other character whose lower case is an ASCII letter. *)
Definition lower_ascii (c : N) : N :=
  (if (65 <=? c) && (c <=? 90) then c + 32 else if c =? 0x212a then 107 else c)%N.

Section cwd.
Variable cwd : jstr.

Definition safeWorkspacePath (workspaceRoot requestedPath : jstr) : result PathError jstr :=
  let root := resolve cwd [workspaceRoot] in
  let target := resolve cwd [root; requestedPath] in
  if negb (bool_decide (target = root)) && negb (starts_with (root ++ [slash]) target)
  then Err (WorkspacePathError target) else Ok target.

Definition workspaceWritePolicyReason (workspaceRoot targetPath : jstr) : option jstr :=
  let root := resolve cwd [workspaceRoot] in
  let target := resolve cwd [targetPath] in
  let rel := relative cwd root target in
  if negb (truthy rel) || starts_with (js "..") rel || negb (bool_decide (resolve cwd [root; rel] = target))
  then None
  else
    let normalized := join [slash] (split_on slash rel) in
    let parts := filter (λ s, truthy s = true) (split_on slash normalized) in
    match find_first (λ part, bool_decide (part ∈ PROTECTED_SEGMENTS)) parts with
    | Some protectedSegment => Some (js "Writes to " ++ protectedSegment ++ js " are protected")
    | None =>
        if existsb (λ prefix, bool_decide (normalized = take (length prefix - 1) prefix) || starts_with prefix normalized)
             PROTECTED_ROOT_PREFIXES
        then Some (js "Writes to generated sidecar/build outputs are protected")
        else
          let name := path_basename normalized in
          let lowerName := map lower_ascii name in
          if bool_decide (name ∈ PROTECTED_BASENAMES) || starts_with (js ".env.") lowerName
          then Some (js "Writes to credential/config files are protected")
          else if existsb (λ extension, ends_with extension lowerName) PROTECTED_EXTENSIONS
          then Some (js "Writes to private key/certificate files are protected")
          else None
    end.

Definition assertWritableWorkspacePath (workspaceRoot requestedPath : jstr) (options : WorkspaceWritePolicyOptions)
    : result PathError jstr :=
  let! target := safeWorkspacePath workspaceRoot requestedPath in
  if wo_allowProtectedWrite options then Ok target
  else match workspaceWritePolicyReason workspaceRoot target with
       | Some reason => Err (WorkspaceWritePolicyError target reason)
       | None => Ok target
       end.

(** ** What is protected, by segments below the workspace *)

Definition build_outputs : list (list jstr) :=
  [[js "apps"; js "desktop"; js "src-tauri"; js "binaries"]; [js "apps"; js "desktop"; js "src-tauri"; js "target"];
   [js "crates"; js "berry-pty"; js "target"]].

Inductive protected_path (rel : list jstr) : Prop :=
| protected_segment s : s ∈ rel → s ∈ PROTECTED_SEGMENTS → protected_path rel
| protected_output out : out ∈ build_outputs → out `prefix_of` rel → protected_path rel
| protected_name name : last rel = Some name → name ∈ PROTECTED_BASENAMES → protected_path rel
| protected_env name : last rel = Some name → js ".env." `prefix_of` map lower_ascii name → protected_path rel
| protected_extension name ext : last rel = Some name → ext ∈ PROTECTED_EXTENSIONS →
    ext `suffix_of` map lower_ascii name → protected_path rel.

(** The directory of the workspace and the place a request names, as segments. *)
Definition root_segs (workspaceRoot : jstr) : list jstr := step_from (walk [] cwd) workspaceRoot.
Definition target_segs (workspaceRoot requestedPath : jstr) : list jstr :=
  step_from (root_segs workspaceRoot) requestedPath.

Lemma root_segs_ok r : Forall seg (root_segs r).
Proof. apply (foldl_step_segs (walk [] cwd) [r]). by apply walk_segs. Qed.

Lemma target_segs_ok r p : Forall seg (target_segs r p).
Proof. apply (foldl_step_segs (root_segs r) [p]), root_segs_ok. Qed.

Lemma resolve_root r : resolve cwd [r] = abs_path (root_segs r).
Proof. apply resolve_spec. Qed.

Lemma resolve_target r p : resolve cwd [resolve cwd [r]; p] = abs_path (target_segs r p).
Proof. rewrite resolve_root, resolve_abs_2; [done|apply root_segs_ok]. Qed.

(** A request is let through exactly when it names the workspace or a place below
    it; nothing is below the root of the file system. *)
Lemma safeWorkspacePath_ok r p t :
  safeWorkspacePath r p = Ok t ↔
  t = abs_path (target_segs r p) ∧ ∃ rel, target_segs r p = root_segs r ++ rel ∧ (root_segs r = [] → rel = []).
Proof.
  unfold safeWorkspacePath. cbn zeta. rewrite resolve_target, resolve_root.
  pose proof (root_segs_ok r) as Hr. pose proof (target_segs_ok r p) as Ht.
  destruct (bool_decide (abs_path (target_segs r p) = abs_path (root_segs r))) eqn:E; cbn [negb andb].
  - apply bool_decide_eq_true, abs_path_inj in E; [|done..]. rewrite E. split.
    + intros [= <-]. split; [done|]. exists []. by rewrite app_nil_r.
    + by intros [-> _].
  - apply bool_decide_eq_false in E. destruct (root_segs r) as [|s rs] eqn:Er.
    + replace (starts_with (abs_path [] ++ [slash]) (abs_path (target_segs r p))) with false.
      * cbn [negb]. split; [done|]. intros (-> & rel & Hq & Hrel). by rewrite Hq, Hrel in E.
      * destruct (target_segs r p) as [|[|c t'] ts]; [done| |].
        { by apply Forall_cons in Ht as ((? & _) & _). }
        apply Forall_cons in Ht as ((_ & _ & _ & Hc) & _).
        assert (slash ≠ c) as Hne by set_solver. apply N.eqb_neq in Hne.
        unfold abs_path. destruct ts; cbn [join app starts_with]; by rewrite N.eqb_refl, Hne.
    + destruct (starts_with (abs_path (s :: rs) ++ [slash]) (abs_path (target_segs r p))) eqn:Es; cbn [negb].
      * apply starts_below in Es as (rel & Hne & Hrel); [|done..]. split.
        -- intros [= <-]. split; [done|]. by exists rel.
        -- by intros [-> _].
      * split; [done|]. intros (-> & rel & Hrel & _). exfalso.
        assert (starts_with (abs_path (s :: rs) ++ [slash]) (abs_path (target_segs r p)) = true) as Hs; [|by rewrite Hs in Es].
        apply starts_below; [done..|]. exists rel. split; [|done].
        intros ->. by rewrite app_nil_r in Hrel; rewrite Hrel in E.
Qed.

Lemma walk_rel from rel : Forall seg rel → rel ≠ [] → step_from from (join [slash] rel) = from ++ rel.
Proof.
  intros H Hne. assert (∀ l, l ∈ rel → slash ∉ l) as Hs.
  { intros l Hl. rewrite Forall_forall in H. by destruct (H l Hl) as (_ & _ & _ & ?). }
  unfold step_from. replace (isAbsolute (join [slash] rel)) with false.
  - unfold walk. rewrite split_join by done. by apply normalize_parts_seg.
  - destruct rel as [|[|c s] rel]; [done|by apply Forall_cons in H as ((? & _) & _)|].
    pose proof (Hs (c :: s) ltac:(by left)) as Hc. assert (c ≠ slash) as Hne' by set_solver. apply N.eqb_neq in Hne'.
    destruct rel; simpl; done.
Qed.

Lemma output_prefix out rel :
  out ∈ build_outputs → Forall seg rel →
  (bool_decide (join [slash] rel = join [slash] out) || starts_with (join [slash] out ++ [slash]) (join [slash] rel)) = true
  ↔ out `prefix_of` rel.
Proof.
  intros Hout Hrel.
  assert (Forall seg out ∧ out ≠ []) as [Ho Hne].
  { unfold build_outputs in Hout. rewrite !elem_of_cons, elem_of_nil in Hout.
    destruct Hout as [->|[->|[->|[]]]]; (split; [apply (bool_decide_unpack _); by vm_compute|done]). }
  rewrite orb_true_iff, bool_decide_eq_true.
  change (starts_with (join [slash] out ++ [slash]) (join [slash] rel))
    with (starts_with (abs_path out ++ [slash]) (abs_path rel)).
  rewrite starts_below by done. split.
  - intros [E|(r & _ & ->)]; [|by apply prefix_app_r].
    assert (rel = out) as ->; [|done]. apply abs_path_inj; [done..|]. unfold abs_path. by rewrite E.
  - intros [r ->]. destruct r as [|x r]; [left; by rewrite app_nil_r|right; by exists (x :: r)].
Qed.

Lemma prefixes_spec rel :
  Forall seg rel →
  existsb (λ prefix, bool_decide (join [slash] rel = take (length prefix - 1) prefix) || starts_with prefix (join [slash] rel))
    PROTECTED_ROOT_PREFIXES = true ↔ ∃ out, out ∈ build_outputs ∧ out `prefix_of` rel.
Proof.
  intros Hrel. replace PROTECTED_ROOT_PREFIXES with (map (λ o, join [slash] o ++ [slash]) build_outputs) by reflexivity.
  rewrite existsb_exists. split.
  - intros (x & Hx & H). apply list_elem_of_In, list_elem_of_fmap in Hx as (o & -> & Ho). exists o. split; [done|].
    rewrite length_app, Nat.add_sub, take_app_length in H. by apply output_prefix.
  - intros (o & Ho & H). exists (join [slash] o ++ [slash]). split; [apply list_elem_of_In, list_elem_of_fmap; eauto|].
    rewrite length_app, Nat.add_sub, take_app_length. by apply output_prefix.
Qed.

Lemma dots_head rel :
  Forall seg rel → rel ≠ [] → starts_with (js "..") (join [slash] rel) = starts_with (js "..") (default [] (head rel)).
Proof.
  intros H Hne. destruct rel as [|h rel]; [done|]. apply Forall_cons in H as [(Hh & _ & _ & _) _].
  destruct rel as [|x rel]; [done|]. rewrite join_cons by done. simpl head. simpl default.
  change (js "..") with [46%N; 46%N]. unfold id. destruct h as [|a [|b h]]; [done| |]; cbn [app starts_with]; [|done].
  reflexivity.
Qed.

Lemma find_first_segment rel :
  find_first (λ part, bool_decide (part ∈ PROTECTED_SEGMENTS)) rel = None ↔ ∀ s, s ∈ rel → s ∉ PROTECTED_SEGMENTS.
Proof.
  rewrite find_first_None. split; intros H s Hs.
  - by apply (bool_decide_eq_false_1 _), H.
  - by apply (bool_decide_eq_false_2 _), H.
Qed.

(** The policy lets a place below the workspace be written exactly when it is not
    protected, or its first segment starts with two dots. *)
Lemma policyReason_below r rel :
  Forall seg rel → rel ≠ [] →
  workspaceWritePolicyReason r (abs_path (root_segs r ++ rel)) = None ↔
  js ".." `prefix_of` default [] (head rel) ∨ ¬ protected_path rel.
Proof.
  intros H Hne. pose proof (root_segs_ok r) as Hr. unfold workspaceWritePolicyReason. cbn zeta.
  rewrite resolve_root, resolve_abs by (by apply Forall_app). rewrite relative_below, resolve_abs_2, walk_rel by done.
  rewrite (bool_decide_true (_ = _)), orb_false_r, dots_head, join_split by done. cbn [negb].
  replace (truthy (join [slash] rel)) with true.
  2: { destruct rel as [|[|c s] rel]; [done|by apply Forall_cons in H as ((? & _) & _)|]. by destruct rel. }
  cbn [negb orb]. rewrite <- starts_with_spec.
  destruct (starts_with (js "..") (default [] (head rel))) eqn:Ed; [by split; [left|]|].
  change (filter _ (split_on slash (join [slash] rel))) with (segments (join [slash] rel)).
  unfold path_basename. rewrite segments_join by done.
  trans (¬ protected_path rel); [|split; [by right|by intros [?|]]].
  destruct (find_first _ rel) as [s|] eqn:Es.
  { split; [done|]. intros Hn. exfalso. apply Hn. apply find_first_Some in Es as (Hs & Hp).
    apply (protected_segment _ s); [done|]. by apply bool_decide_eq_true in Hp. }
  rewrite find_first_segment in Es.
  destruct (existsb _ PROTECTED_ROOT_PREFIXES) eqn:Ep.
  { split; [done|]. intros Hn. exfalso. apply Hn. apply prefixes_spec in Ep as (o & Ho & Hpre); [|done].
    by apply (protected_output _ o). }
  destruct (last rel) as [name|] eqn:El; [|by apply last_None in El]. simpl default. unfold id.
  destruct (bool_decide (name ∈ PROTECTED_BASENAMES) || _) eqn:En.
  { split; [done|]. intros Hn. exfalso. apply Hn. apply orb_true_iff in En as [En|En].
    - apply bool_decide_eq_true in En. by apply (protected_name _ name).
    - apply starts_with_spec in En. by apply (protected_env _ name). }
  apply orb_false_iff in En as [En1%bool_decide_eq_false En2].
  destruct (existsb (λ extension, _) PROTECTED_EXTENSIONS) eqn:Ee.
  { split; [done|]. intros Hn. exfalso. apply Hn. apply existsb_exists in Ee as (e & He & Hs).
    apply list_elem_of_In in He. apply (protected_extension _ name e); [done|done|].
    unfold ends_with in Hs. apply starts_with_spec in Hs. by apply suffix_prefix_reverse. }
  apply not_true_iff_false in Ep. rewrite prefixes_spec in Ep by done.
  apply not_true_iff_false in Ee. rewrite existsb_exists in Ee. apply not_true_iff_false in En2. rewrite starts_with_spec in En2.
  split; [intros _ Hp|done]. destruct Hp as [s Hs1 Hs2|o Ho Hpre|n Hl Hn|n Hl Hn|n e Hl He Hsuf];
    try (rewrite El in Hl; injection Hl as <-); [by apply (Es s)|by apply Ep; exists o|done|done|].
  apply Ee. exists e. split; [by apply list_elem_of_In|]. unfold ends_with. apply starts_with_spec.
  by apply suffix_prefix_reverse.
Qed.
End cwd.

(** ** What may be written *)

(** A place at or below the workspace that the options let be written. *)
Definition writable (cwd workspaceRoot : jstr) (options : WorkspaceWritePolicyOptions) (segs : list jstr) : Prop :=
  ∃ rel, segs = root_segs cwd workspaceRoot ++ rel ∧ (root_segs cwd workspaceRoot = [] → rel = []) ∧
    (wo_allowProtectedWrite options = true ∨ js ".." `prefix_of` default [] (head rel) ∨ ¬ protected_path rel).

Lemma protected_path_nil : ¬ protected_path [].
Proof.
  intros [s Hs _|o Ho Hp|n Hn _|n Hn _|n e Hn _ _]; try done.
  - by apply not_elem_of_nil in Hs.
  - apply prefix_nil_inv in Hp as ->. unfold build_outputs in Ho. set_solver.
Qed.

Lemma assertWritable_iff cwd r p o t :
  assertWritableWorkspacePath cwd r p o = Ok t ↔ t = abs_path (target_segs cwd r p) ∧ writable cwd r o (target_segs cwd r p).
Proof.
  unfold assertWritableWorkspacePath, writable.
  destruct (safeWorkspacePath cwd r p) as [t'|e] eqn:E; cbn [mbind result_bind].
  - apply safeWorkspacePath_ok in E as (-> & rel & Ht & Hroot).
    destruct (wo_allowProtectedWrite o).
    { split; [intros [= <-]|by intros [-> _]]. split; [done|]. exists rel. split_and!; auto. }
    rewrite Ht. destruct (decide (rel = [])) as [->|Hne].
    + assert (workspaceWritePolicyReason cwd r (abs_path (root_segs cwd r ++ [])) = None) as ->.
      { unfold workspaceWritePolicyReason. cbn zeta. rewrite resolve_root, resolve_abs by (rewrite app_nil_r; apply root_segs_ok).
        by rewrite relative_below by (done || apply root_segs_ok). }
      split; [intros [= <-]|by intros [-> _]]. split; [done|]. exists []. split_and!; [done|done|].
      right. right. apply protected_path_nil.
    + assert (Forall seg rel) as Hs by (pose proof (target_segs_ok cwd r p) as H; rewrite Ht, Forall_app in H; by destruct H).
      pose proof (policyReason_below cwd r rel Hs Hne) as Hp.
      destruct (workspaceWritePolicyReason cwd r _) as [reason|].
      * split; [done|]. intros (_ & rel' & Hr & _ & [|Hok]); [done|]. apply app_inv_head in Hr as <-.
        by apply Hp in Hok.
      * split; [intros [= <-]|by intros [-> _]]. split; [done|]. exists rel. split_and!; [done|done|]. right. by apply Hp.
  - split; [done|]. intros (-> & rel & Ht & Hroot & _). exfalso.
    assert (safeWorkspacePath cwd r p = Ok (abs_path (target_segs cwd r p))) as Hs by (apply safeWorkspacePath_ok; eauto).
    by rewrite Hs in E.
Qed.

(** A requested path may be written exactly when, with every [.] and [..] followed,
    it names the workspace or a place below it that is not protected, or that the
    caller has leave to write, or whose first segment starts with two dots; the
    path that is used is that place. *)
Theorem assertWritable_spec cwd workspaceRoot requestedPath options t
  (root := root_segs cwd workspaceRoot) (target := target_segs cwd workspaceRoot requestedPath) :
  assertWritableWorkspacePath cwd workspaceRoot requestedPath options = Ok t ↔
  t = abs_path target ∧ ∃ rel, target = root ++ rel ∧ (root = [] → rel = []) ∧
    (wo_allowProtectedWrite options = true ∨ js ".." `prefix_of` default [] (head rel) ∨ ¬ protected_path rel).
Proof. apply assertWritable_iff. Qed.

Definition strict : WorkspaceWritePolicyOptions := {| wo_allowProtectedWrite := false |}.

(** The test for a path outside the workspace also holds for a path below it whose
    first segment starts with two dots: its protected files may be written. *)
Lemma dots_hide_protected :
  assertWritableWorkspacePath (js "/") (js "/ws") (js "..a/.git/config") strict = Ok (js "/ws/..a/.git/config") ∧
  is_ok (assertWritableWorkspacePath (js "/") (js "/ws") (js "a/.git/config") strict) = false.
Proof. by vm_compute. Qed.

(** With the root of the file system as the workspace every file is outside it. *)
Lemma root_workspace_empty :
  safeWorkspacePath (js "/") (js "/") (js "a") = Err (WorkspacePathError (js "/a")).
Proof. by vm_compute. Qed.
