(* ===== verification/NodeEnv.v ===== *)
(** * File operations of the execution environment

    packages/harness/src/harness/env/nodejs.ts: the file operations of
    NodeExecutionEnv over the functions of node:fs, which are a record of arguments.
    Every operation gives a value or a [FileError] and never throws: in [M W
    FileError] the [Err] is the error it returns. An abort signal is a test of the
    world; [MemFs] is a file system in memory to run the definitions on. *)

From S2P Require Import Prelude JsString PosixPath.
From Stdlib Require Import Lia.

Set Default Goal Selector "!".

(** ** Errors and file kinds *)

(** What node:fs throws: an error with a code, as far as it is one of Node's. *)
Record NodeError := { ne_code : option jstr; ne_message : jstr }.

Inductive FileErrorCode := Aborted | NotFound | PermissionDenied | NotDirectory | IsDirectory | Invalid
  | NotSupported | Unknown.
#[export] Instance FileErrorCode_eq_dec : EqDecision FileErrorCode.
Proof. solve_decision. Defined.

Record FileError := { fe_code : FileErrorCode; fe_message : jstr; fe_path : jstr; fe_cause : option NodeError }.

Inductive FileKind := KindFile | KindDirectory | KindSymlink.
#[export] Instance FileKind_eq_dec : EqDecision FileKind.
Proof. solve_decision. Defined.

Record Stats := { st_isFile : bool; st_isDirectory : bool; st_isSymbolicLink : bool; st_size : Z; st_mtimeMs : Z }.
Record FileInfo := { fi_name : jstr; fi_path : jstr; fi_kind : FileKind; fi_size : Z; fi_mtimeMs : Z }.

Definition node_code (code : jstr) : FileErrorCode :=
  if bool_decide (code = js "ABORT_ERR") then Aborted
  else if bool_decide (code = js "ENOENT") then NotFound
  else if bool_decide (code = js "EACCES") || bool_decide (code = js "EPERM") then PermissionDenied
  else if bool_decide (code = js "ENOTDIR") then NotDirectory
  else if bool_decide (code = js "EISDIR") then IsDirectory
  else if bool_decide (code = js "EINVAL") then Invalid
  else Unknown.
Definition toFileError (error : NodeError) (path : jstr) : FileError :=
  {| fe_code := match ne_code error with Some code => node_code code | None => Unknown end;
     fe_message := ne_message error; fe_path := path; fe_cause := Some error |}.

Definition fileKindFromStats (stats : Stats) : option FileKind :=
  if st_isFile stats then Some KindFile
  else if st_isDirectory stats then Some KindDirectory
  else if st_isSymbolicLink stats then Some KindSymlink else None.

(** [path.replace(/\/+$/, "").split("/").pop()] *)
Definition info_name (path : jstr) : jstr :=
  default path (last (split_on slash (reverse (strip_slashes (reverse path))))).

Definition fileInfoFromStats (path : jstr) (stats : Stats) : result FileError FileInfo :=
  match fileKindFromStats stats with
  | None => Err {| fe_code := Invalid; fe_message := js "Unsupported file type"; fe_path := path; fe_cause := None |}
  | Some kind => Ok {| fi_name := info_name path; fi_path := path; fi_kind := kind; fi_size := st_size stats;
                       fi_mtimeMs := st_mtimeMs stats |}
  end.

(** ** node:fs

    [fs_mkdir] is recursive; [fs_rm] takes [recursive] and [force]. *)
Record NodeFs (W : Type) := {
  fs_mkdir : jstr → M W NodeError unit;
  fs_mkdir_one : jstr → M W NodeError unit;
  fs_writeFile : jstr → jstr → M W NodeError unit;
  fs_appendFile : jstr → jstr → M W NodeError unit;
  fs_readFile : jstr → M W NodeError jstr;
  fs_lstat : jstr → M W NodeError Stats;
  fs_readdir : jstr → M W NodeError (list jstr);
  fs_realpath : jstr → M W NodeError jstr;
  fs_rm : bool → bool → jstr → M W NodeError unit;
  fs_existsSync : jstr → W → bool;
}.
Arguments fs_mkdir {W}. Arguments fs_mkdir_one {W}. Arguments fs_writeFile {W}. Arguments fs_appendFile {W}.
Arguments fs_readFile {W}. Arguments fs_lstat {W}. Arguments fs_readdir {W}. Arguments fs_realpath {W}.
Arguments fs_rm {W}. Arguments fs_existsSync {W}.

Section env.
Context {W : Type} (fs : NodeFs W) (process_cwd : jstr).

Definition resolvePath (cwd path : jstr) : jstr := if isAbsolute path then path else resolve process_cwd [cwd; path].

(** [try { ... } catch (error) { return err(toFileError(error, path)) }] *)
Definition try_file {A} (path : jstr) (m : M W NodeError A) : M W FileError A := λ w,
  match m w with (Ok a, w') => (Ok a, w') | (Err e, w') => (Err (toFileError e path), w') end.

Definition abortResult (signal : option (W → bool)) (path : jstr) : M W FileError unit := λ w,
  if (match signal with Some aborted => aborted w | None => false end)
  then (Err {| fe_code := Aborted; fe_message := js "aborted"; fe_path := path; fe_cause := None |}, w)
  else (Ok tt, w).

Section ops.
Variable cwd : jstr.

Definition absolutePath (path : jstr) : M W FileError jstr := mret (resolvePath cwd path).

Definition readTextFile (path : jstr) (abortSignal : option (W → bool)) : M W FileError jstr :=
  let resolved := resolvePath cwd path in
  let! _ := abortResult abortSignal resolved in
  try_file resolved (fs_readFile fs resolved).

Definition writeFile (path content : jstr) (abortSignal : option (W → bool)) : M W FileError unit :=
  let resolved := resolvePath cwd path in
  let! _ := abortResult abortSignal resolved in
  let! _ := try_file resolved (fs_mkdir fs (resolve process_cwd [resolved; js ".."])) in
  let! _ := abortResult abortSignal resolved in
  try_file resolved (fs_writeFile fs resolved content).

Definition appendFile (path content : jstr) : M W FileError unit :=
  let resolved := resolvePath cwd path in
  try_file resolved (let! _ := fs_mkdir fs (resolve process_cwd [resolved; js ".."]) in
                     fs_appendFile fs resolved content).

Definition fileInfo (path : jstr) : M W FileError FileInfo :=
  let resolved := resolvePath cwd path in
  let! stats := try_file resolved (fs_lstat fs resolved) in
  lift (fileInfoFromStats resolved stats).

(** The loop over the entries of a directory; what is neither file, directory nor
    link is left out. *)
Fixpoint list_entries (resolved : jstr) (abortSignal : option (W → bool)) (entries : list jstr)
    : M W FileError (list FileInfo) :=
  match entries with
  | [] => mret []
  | name :: entries =>
      let! _ := abortResult abortSignal resolved in
      let entryPath := resolve process_cwd [resolved; name] in
      let! stats := try_file entryPath (fs_lstat fs entryPath) in
      let! infos := list_entries resolved abortSignal entries in
      mret (match fileInfoFromStats entryPath stats with Ok info => info :: infos | Err _ => infos end)
  end.

Definition listDir (path : jstr) (abortSignal : option (W → bool)) : M W FileError (list FileInfo) :=
  let resolved := resolvePath cwd path in
  let! _ := abortResult abortSignal resolved in
  let! entries := try_file resolved (fs_readdir fs resolved) in
  list_entries resolved abortSignal entries.

Definition canonicalPath (path : jstr) : M W FileError jstr :=
  let resolved := resolvePath cwd path in try_file resolved (fs_realpath fs resolved).

Definition env_exists (path : jstr) : M W FileError bool := λ w,
  match fileInfo path w with
  | (Ok _, w') => (Ok true, w')
  | (Err e, w') => (if bool_decide (fe_code e = NotFound) then Ok false else Err e, w')
  end.

Definition createDir (path : jstr) (recursive : option bool) : M W FileError unit :=
  let resolved := resolvePath cwd path in
  try_file resolved (if nullish recursive true then fs_mkdir fs resolved else fs_mkdir_one fs resolved).

Definition env_remove (path : jstr) (recursive force : option bool) : M W FileError unit :=
  let resolved := resolvePath cwd path in
  try_file resolved (fs_rm fs (nullish recursive false) (nullish force false) resolved).
End ops.
End env.

(** ** A file system in memory

    Directories and files by their segments. *)
Module MemFs.

Inductive node := Dir | File (content : jstr).
Abbreviation World := (gmap (list jstr) node).
#[export] Instance node_eq_dec : EqDecision node.
Proof. solve_decision. Defined.

Definition segs (p : jstr) : list jstr := walk [] p.
Definition parent (s : list jstr) : list jstr := take (length s - 1) s.
(** The directories from the root to a place; a node is there when those above it are. *)
Definition prefixes (s : list jstr) : list (list jstr) := map (λ i, take i s) (seq 1 (length s)).
Definition reachable (w : World) (s : list jstr) : bool :=
  forallb (λ d, bool_decide (w !! d = Some Dir)) (prefixes (parent s)).
Definition look (w : World) (s : list jstr) : option node :=
  match s with [] => Some Dir | _ => if reachable w s then w !! s else None end.
Definition fail {A} (code : string) : result NodeError A := Err {| ne_code := Some (js code); ne_message := js code |}.

Fixpoint make_dirs (todo : list (list jstr)) (w : World) : result NodeError unit * World :=
  match todo with
  | [] => (Ok tt, w)
  | s :: todo =>
      match w !! s with
      | Some Dir => make_dirs todo w
      | Some (File _) => (fail "EEXIST", w)
      | None => make_dirs todo (<[s := Dir]> w)
      end
  end.
Definition write (s : list jstr) (content : jstr) (w : World) : result NodeError unit * World :=
  match look w (parent s) with
  | Some Dir => match look w s with Some Dir => (fail "EISDIR", w) | _ => (Ok tt, <[s := File content]> w) end
  | Some (File _) => (fail "ENOTDIR", w)
  | None => (fail "ENOENT", w)
  end.
Definition content_of (w : World) (s : list jstr) : jstr := match look w s with Some (File c) => c | _ => [] end.
Definition is_below (s t : list jstr) : bool := bool_decide (s `prefix_of` t).

Definition mem_fs : NodeFs World := {|
  fs_mkdir := λ p w, make_dirs (prefixes (segs p)) w;
  fs_mkdir_one := λ p w, match look w (segs p), look w (parent (segs p)) with
                         | Some _, _ => (fail "EEXIST", w)
                         | None, Some Dir => (Ok tt, <[segs p := Dir]> w)
                         | None, _ => (fail "ENOENT", w)
                         end;
  fs_writeFile := λ p c w, write (segs p) c w;
  fs_appendFile := λ p c w, write (segs p) (content_of w (segs p) ++ c) w;
  fs_readFile := λ p w, (match look w (segs p) with
                         | Some (File c) => Ok c | Some Dir => fail "EISDIR" | None => fail "ENOENT" end, w);
  fs_lstat := λ p w, (match look w (segs p) with
                      | Some n => Ok {| st_isFile := negb (bool_decide (n = Dir)); st_isDirectory := bool_decide (n = Dir);
                                        st_isSymbolicLink := false;
                                        st_size := match n with File c => utf8_length c | Dir => 0 end; st_mtimeMs := 0 |}
                      | None => fail "ENOENT" end, w);
  fs_readdir := λ p w, (match look w (segs p) with
                        | Some Dir => Ok (omap (λ s, if bool_decide (parent s = segs p ∧ s ≠ []) then last s else None)
                                               (map fst (map_to_list w)))
                        | Some (File _) => fail "ENOTDIR" | None => fail "ENOENT" end, w);
  fs_realpath := λ p w, (match look w (segs p) with Some _ => Ok (abs_path (segs p)) | None => fail "ENOENT" end, w);
  fs_rm := λ recursive force p w,
    match look w (segs p) with
    | None => (if force : bool then Ok tt else fail "ENOENT", w)
    | Some Dir => if recursive : bool then (Ok tt, filter (λ kv, is_below (segs p) kv.1 = false) w) else (fail "ERR_FS_EISDIR", w)
    | Some (File _) => (Ok tt, delete (segs p) w)
    end;
  fs_existsSync := λ p w, bool_decide (is_Some (look w (segs p)));
|}.
(** The contents of the files. *)
Definition files (w : World) : gmap (list jstr) jstr := omap (λ n, match n with File c => Some c | Dir => None end) w.
End MemFs.
