(* ===== verification/ApplyPatch.v ===== *)
(** * Patches

    packages/local-agent/src/apply-patch.ts: the grammar of patches, hunks applied to
    a text, and patches applied to files below a workspace, with node:fs directly
    ([applyPatch]) and through an execution environment ([applyPatchWithEnv]). The
    awaits of the latter are points where nothing else runs. *)

From S2P Require Import Prelude JsString PosixPath WorkspacePath NodeEnv.
From Stdlib Require Import Lia.

Set Default Goal Selector "!".

Definition BEGIN_MARKER := js "*** Begin Patch".
Definition END_MARKER := js "*** End Patch".
Definition ADD_PREFIX := js "*** Add File: ".
Definition UPDATE_PREFIX := js "*** Update File: ".
Definition DELETE_PREFIX := js "*** Delete File: ".
Definition MOVE_PREFIX := js "*** Move to: ".

Definition quoted (s : jstr) : jstr := [34%N] ++ s ++ [34%N].

Record PatchHunk := { h_context : list jstr; h_removed : list jstr; h_added : list jstr }.

Inductive PatchOperation :=
| OpAdd (path content : jstr)
| OpDelete (path : jstr)
| OpUpdate (path : jstr) (moveTo : option jstr) (hunks : list PatchHunk).

(** What applying a patch may throw: an [ApplyPatchError] with its message, an error
    of the path policy, an error of the files. *)
Inductive PatchError (E : Type) :=
| ApplyPatchError (message : jstr)
| PathRefused (e : PathError)
| FilesFailed (e : E).
Arguments ApplyPatchError {E}. Arguments PathRefused {E}. Arguments FilesFailed {E}.

(** ** The grammar *)

(** [replace(/\r\n/g, "\n")] *)
Fixpoint unix_lines (s : jstr) : jstr :=
  match s with
  | [] => []
  | c :: s' =>
      match s' with
      | d :: s'' => if ((c =? CR) && (d =? NL))%N then NL :: unix_lines s'' else c :: unix_lines s'
      | [] => [c]
      end
  end.

Definition plus := js "+".
Definition minus := js "-".
Definition blank := js " ".
Definition ats := js "@@".

(** The lines of an added file. *)
Fixpoint added_lines (lines : list jstr) : list jstr * list jstr :=
  match lines with
  | line :: rest =>
      if starts_with plus line then let '(content, rest') := added_lines rest in (slice_from 1 line :: content, rest')
      else ([], lines)
  | [] => ([], [])
  end.

Definition empty_hunk : PatchHunk := {| h_context := []; h_removed := []; h_added := [] |}.
Definition flush (hunk : option PatchHunk) (hunks : list PatchHunk) : list PatchHunk :=
  match hunk with
  | Some h => if (0 <? length (h_removed h))%nat || (0 <? length (h_added h))%nat || (0 <? length (h_context h))%nat
              then hunks ++ [h] else hunks
  | None => hunks
  end.
Definition push_line (h : PatchHunk) (line : jstr) : PatchHunk :=
  if starts_with plus line
  then {| h_context := h_context h; h_removed := h_removed h; h_added := h_added h ++ [slice_from 1 line] |}
  else if starts_with minus line
  then {| h_context := h_context h; h_removed := h_removed h ++ [slice_from 1 line]; h_added := h_added h |}
  else {| h_context := h_context h ++ [if starts_with blank line then slice_from 1 line else line];
          h_removed := h_removed h; h_added := h_added h |}.

(** The hunks of an update, up to the next line with a marker. *)
Fixpoint hunk_lines (hunk : option PatchHunk) (hunks : list PatchHunk) (lines : list jstr)
    : list PatchHunk * list jstr :=
  match lines with
  | [] => (flush hunk hunks, [])
  | line :: rest =>
      if starts_with (js "*** ") line then (flush hunk hunks, lines)
      else if starts_with ats line then hunk_lines (Some empty_hunk) (flush hunk hunks) rest
      else hunk_lines (Some (push_line (default empty_hunk hunk) line)) hunks rest
  end.

(** The target of a move, when the line after the header names one. *)
Definition move_line (lines : list jstr) : option jstr * list jstr :=
  match lines with
  | line :: rest => if starts_with MOVE_PREFIX line then (Some (trim (slice_from (length MOVE_PREFIX) line)), rest)
                    else (None, lines)
  | [] => (None, [])
  end.
Definition nonempty_str (s : option jstr) : option jstr := if truthy_opt s then s else None.

(** The loop over the lines after the first marker; every turn consumes a line. *)
Fixpoint parse_operations (fuel : nat) (lines : list jstr) (operations : list PatchOperation)
    : result jstr (list PatchOperation) :=
  match fuel, lines with
  | S fuel, line :: rest =>
      if bool_decide (trim line = END_MARKER) then Ok operations
      else if starts_with ADD_PREFIX line then
        let path := trim (slice_from (length ADD_PREFIX) line) in
        let '(content, rest') := added_lines rest in
        parse_operations fuel rest' (operations ++ [OpAdd path (join [NL] content)])
      else if starts_with DELETE_PREFIX line then
        parse_operations fuel rest (operations ++ [OpDelete (trim (slice_from (length DELETE_PREFIX) line))])
      else if starts_with UPDATE_PREFIX line then
        let path := trim (slice_from (length UPDATE_PREFIX) line) in
        let '(moveTo, rest') := move_line rest in
        let '(hunks, rest'') := hunk_lines None [] rest' in
        match hunks with
        | [] => Err (js "Update for " ++ path ++ js " has no hunks")
        | _ => parse_operations fuel rest'' (operations ++ [OpUpdate path (nonempty_str moveTo) hunks])
        end
      else if bool_decide (trim line = []) then parse_operations fuel rest operations
      else Err (js "Unexpected patch line: " ++ line)
  | _, _ => Err (js "Patch is missing " ++ quoted END_MARKER)
  end.

Definition parsePatch (patch : jstr) : result jstr (list PatchOperation) :=
  let lines := split_on NL (unix_lines patch) in
  match find_index (λ line, bool_decide (trim line = BEGIN_MARKER)) lines with
  | None => Err (js "Patch must start with " ++ quoted BEGIN_MARKER)
  | Some index => parse_operations (length lines) (drop (S index) lines) []
  end.

(** ** Hunks *)

(** The first place at or after [i], the length of what was passed, where [needle] is. *)
Fixpoint find_from (needle l : list jstr) (i : nat) : option nat :=
  if bool_decide (needle `prefix_of` l) then Some i
  else match l with [] => None | _ :: l => find_from needle l (S i) end.
Definition findSequence (haystack needle : list jstr) (from : nat) : option nat :=
  match find_from needle (drop from haystack) from with
  | Some i => Some i
  | None => if (0 <? from)%nat then find_from needle haystack 0 else None
  end.

Definition findRemovalOffset (hunk : PatchHunk) : nat := length (h_context hunk).

Definition hunk_anchor (hunk : PatchHunk) : list jstr :=
  match h_removed hunk with [] => h_context hunk | removed => removed end.

(** The loop over the hunks, with the lines and the place to search from. *)
Fixpoint apply_hunks (path : jstr) (hunks : list PatchHunk) (lines : list jstr) (searchFrom : nat)
    : result jstr (list jstr) :=
  match hunks with
  | [] => Ok lines
  | hunk :: hunks =>
      let pattern := take (findRemovalOffset hunk) (h_context hunk) ++ h_removed hunk in
      let anchor := hunk_anchor hunk in
      match anchor with
      | [] => apply_hunks path hunks (lines ++ h_added hunk) searchFrom
      | _ =>
          match findSequence lines anchor searchFrom with
          | None => Err (js "Could not locate hunk in " ++ path ++ js ":" ++ [NL] ++ join [NL] pattern)
          | Some matchIndex =>
              let added := length (h_added hunk) in
              match h_removed hunk with
              | [] => let insertAt := (matchIndex + length anchor)%nat in
                      apply_hunks path hunks (take insertAt lines ++ h_added hunk ++ drop insertAt lines) (insertAt + added)
              | removed =>
                  apply_hunks path hunks
                    (take matchIndex lines ++ h_added hunk ++ drop (matchIndex + length removed) lines) (matchIndex + added)
              end
          end
      end
  end.

Definition applyHunksToContent (path content : jstr) (hunks : list PatchHunk) : result jstr jstr :=
  let! lines := apply_hunks path hunks (split_on NL content) 0 in Ok (join [NL] lines).

(** ** Files *)

Record ApplyPatchResult := { ap_added : list jstr; ap_updated : list jstr; ap_deleted : list jstr }.
Definition push_added (p : jstr) r := {| ap_added := ap_added r ++ [p]; ap_updated := ap_updated r; ap_deleted := ap_deleted r |}.
Definition push_updated (p : jstr) r := {| ap_added := ap_added r; ap_updated := ap_updated r ++ [p]; ap_deleted := ap_deleted r |}.
Definition push_deleted (p : jstr) r := {| ap_added := ap_added r; ap_updated := ap_updated r; ap_deleted := ap_deleted r ++ [p] |}.

(** An error of a part, thrown by the whole. *)
Definition throw_as {W E E' A} (f : E → E') (m : M W E A) : M W E' A := λ w,
  match m w with (Ok a, w') => (Ok a, w') | (Err e, w') => (Err (f e), w') end.
Definition pure_as {W E E' A} (f : E → E') (r : result E A) : M W E' A := throw_as f (lift r).

Section files.
Context {W : Type} (cwd workspaceRoot : jstr) (options : WorkspaceWritePolicyOptions).

Definition assert_target {E} (path : jstr) : M W (PatchError E) jstr :=
  pure_as PathRefused (assertWritableWorkspacePath cwd workspaceRoot path options).

Section sync.
Variable fs : NodeFs W.
Let io {A} (m : M W NodeError A) : M W (PatchError NodeError) A := throw_as FilesFailed m.

Definition apply_operation (operation : PatchOperation) (r : ApplyPatchResult) : M W (PatchError NodeError) ApplyPatchResult :=
  match operation with
  | OpAdd path content =>
      let! target := assert_target path in
      let! _ := io (fs_mkdir fs (dirname target)) in
      let! _ := io (fs_writeFile fs target content) in
      mret (push_added path r)
  | OpDelete path =>
      let! target := assert_target path in
      let! there := gets (fs_existsSync fs target) in
      if negb there then throw (ApplyPatchError (js "Cannot delete missing file: " ++ path))
      else let! _ := io (fs_rm fs false false target) in mret (push_deleted path r)
  | OpUpdate path moveTo hunks =>
      let! target := assert_target path in
      let! there := gets (fs_existsSync fs target) in
      if negb there then throw (ApplyPatchError (js "Cannot update missing file: " ++ path))
      else
        let! content := io (fs_readFile fs target) in
        let! next := pure_as ApplyPatchError (applyHunksToContent path content hunks) in
        match moveTo with
        | Some to =>
            let! moved := assert_target to in
            let! _ := io (fs_mkdir fs (dirname moved)) in
            let! _ := io (fs_writeFile fs moved next) in
            let! _ := io (fs_rm fs false false target) in
            mret (push_updated to r)
        | None => let! _ := io (fs_writeFile fs target next) in mret (push_updated path r)
        end
  end.
End sync.

Section env.
(** The operations of the environment that are used. *)
Variables (env_readTextFile : jstr → M W FileError jstr) (env_writeFile : jstr → jstr → M W FileError unit)
  (env_existsFile : jstr → M W FileError bool) (env_removeFile : jstr → M W FileError unit).
Let io {A} (m : M W FileError A) : M W (PatchError FileError) A := throw_as FilesFailed m.

Definition missing_as (message : jstr) (e : FileError) : PatchError FileError :=
  if bool_decide (fe_code e = NotFound) then ApplyPatchError message else FilesFailed e.

Definition apply_operation_env (operation : PatchOperation) (r : ApplyPatchResult) : M W (PatchError FileError) ApplyPatchResult :=
  match operation with
  | OpAdd path content =>
      let! target := assert_target path in
      let! _ := io (env_writeFile target content) in
      mret (push_added path r)
  | OpDelete path =>
      let! target := assert_target path in
      let! there := io (env_existsFile target) in
      if negb there then throw (ApplyPatchError (js "Cannot delete missing file: " ++ path))
      else let! _ := io (env_removeFile target) in mret (push_deleted path r)
  | OpUpdate path moveTo hunks =>
      let! target := assert_target path in
      let! content := throw_as (missing_as (js "Cannot update missing file: " ++ path)) (env_readTextFile target) in
      let! next := pure_as ApplyPatchError (applyHunksToContent path content hunks) in
      match moveTo with
      | Some to =>
          let! moved := assert_target to in
          let! _ := io (env_writeFile moved next) in
          let! _ := io (env_removeFile target) in
          mret (push_updated to r)
      | None => let! _ := io (env_writeFile target next) in mret (push_updated path r)
      end
  end.
End env.

Fixpoint apply_all {E} (apply : PatchOperation → ApplyPatchResult → M W E ApplyPatchResult)
    (operations : list PatchOperation) (r : ApplyPatchResult) : M W E ApplyPatchResult :=
  match operations with
  | [] => mret r
  | operation :: operations => let! r := apply operation r in apply_all apply operations r
  end.

Definition no_result : ApplyPatchResult := {| ap_added := []; ap_updated := []; ap_deleted := [] |}.

Definition applyPatch (fs : NodeFs W) (patch : jstr) : M W (PatchError NodeError) ApplyPatchResult :=
  let! operations := pure_as ApplyPatchError (parsePatch patch) in
  apply_all (apply_operation fs) operations no_result.

Definition applyPatchWithEnv readTextFile writeFile exists_ remove (patch : jstr)
    : M W (PatchError FileError) ApplyPatchResult :=
  let! operations := pure_as ApplyPatchError (parsePatch patch) in
  apply_all (apply_operation_env readTextFile writeFile exists_ remove) operations no_result.
End files.
