(* ===== verification/ApplyPatchFacts.v ===== *)
(** * Theorems about patches

    A printed patch is parsed back; what hunks do to a text; which paths a patch may
    touch; that both ways to apply a patch do the same; and that a patch is a
    function of the contents of the files. *)

From S2P Require Import Prelude JsString PosixPath WorkspacePath NodeEnv ApplyPatch.
From Stdlib Require Import Lia.

Set Default Goal Selector "!".

(** ** Printing and parsing *)

Definition hunk_body (h : PatchHunk) : list jstr :=
  map (app blank) (h_context h) ++ map (app minus) (h_removed h) ++ map (app plus) (h_added h).
Definition print_hunk (h : PatchHunk) : list jstr := ats :: hunk_body h.
Definition print_operation (o : PatchOperation) : list jstr :=
  match o with
  | OpAdd path content => (ADD_PREFIX ++ path) :: map (app plus) (split_on NL content)
  | OpDelete path => [DELETE_PREFIX ++ path]
  | OpUpdate path moveTo hunks =>
      (UPDATE_PREFIX ++ path) :: match moveTo with Some to => [MOVE_PREFIX ++ to] | None => [] end ++ (hunks ≫= print_hunk)
  end.
Definition print_patch (operations : list PatchOperation) : jstr :=
  join [NL] (BEGIN_MARKER :: (operations ≫= print_operation) ++ [END_MARKER]).

(** A line of a patch, a path in it, and operations that can be written. *)
Definition line_ok (s : jstr) : Prop := NL ∉ s ∧ CR ∉ s.
Definition path_ok (s : jstr) : Prop := line_ok s ∧ trim s = s.
Definition hunk_ok (h : PatchHunk) : Prop :=
  h_context h ++ h_removed h ++ h_added h ≠ [] ∧ Forall line_ok (h_context h ++ h_removed h ++ h_added h).
Definition operation_ok (o : PatchOperation) : Prop :=
  match o with
  | OpAdd path content => path_ok path ∧ CR ∉ content
  | OpDelete path => path_ok path
  | OpUpdate path moveTo hunks =>
      path_ok path ∧ match moveTo with Some to => path_ok to ∧ to ≠ [] | None => True end ∧
      hunks ≠ [] ∧ Forall hunk_ok hunks
  end.

Lemma unix_lines_id s : CR ∉ s → unix_lines s = s.
Proof.
  induction s as [|c s IH]; intros H; [done|]. cbn [unix_lines].
  destruct s as [|d s]; [done|]. rewrite IH by set_solver.
  destruct (N.eqb_spec c CR) as [->|]; [set_solver|done].
Qed.

Lemma added_lines_print content rest :
  match rest with line :: _ => starts_with plus line = false | [] => True end →
  added_lines (map (app plus) content ++ rest) = (content, rest).
Proof.
  intros H. induction content as [|c content IH]; cbn [map app added_lines].
  - destruct rest as [|line rest]; [done|]. cbn [added_lines]. by rewrite H.
  - change (starts_with plus (plus ++ c)) with true. cbn iota. by rewrite IH.
Qed.

(** The lines of a hunk, pushed one after the other. *)
Lemma push_lines h0 h :
  foldl push_line h0 (hunk_body h) =
  {| h_context := h_context h0 ++ h_context h; h_removed := h_removed h0 ++ h_removed h; h_added := h_added h0 ++ h_added h |}.
Proof.
  destruct h as [c r a]. unfold hunk_body. cbn [h_context h_removed h_added]. rewrite !foldl_app.
  assert (foldl push_line h0 (map (app blank) c) =
    {| h_context := h_context h0 ++ c; h_removed := h_removed h0; h_added := h_added h0 |}) as ->.
  { induction c as [|l c IH] using rev_ind; [by rewrite app_nil_r; destruct h0|].
    rewrite map_app, foldl_app, IH. unfold push_line. simpl. by rewrite <- (assoc_L (++)). }
  set (h1 := {| h_context := _ |}).
  assert (foldl push_line h1 (map (app minus) r) =
    {| h_context := h_context h1; h_removed := h_removed h1 ++ r; h_added := h_added h1 |}) as ->.
  { induction r as [|l r IH] using rev_ind; [by rewrite app_nil_r; destruct h1|].
    rewrite map_app, foldl_app, IH. unfold push_line. simpl. by rewrite <- (assoc_L (++)). }
  subst h1. simpl. induction a as [|l a IH] using rev_ind; [simpl; by rewrite app_nil_r|].
  rewrite map_app, foldl_app, IH. unfold push_line. simpl. by rewrite <- (assoc_L (++)).
Qed.

(** A line of the body of a hunk, as the printer writes it. *)
Definition body_line (line : jstr) : Prop := starts_with (js "*** ") line = false ∧ starts_with ats line = false.

Lemma hunk_lines_body h hunks body rest :
  Forall body_line body →
  hunk_lines (Some h) hunks (body ++ rest) = hunk_lines (Some (foldl push_line h body)) hunks rest.
Proof.
  revert h. induction body as [|l body IH]; intros h H; [done|]. apply Forall_cons in H as [[Hl1 Hl2] Hb].
  cbn [app hunk_lines foldl]. rewrite Hl1, Hl2. by rewrite IH.
Qed.

Lemma print_hunk_body h :
  Forall body_line (hunk_body h).
Proof. unfold hunk_body. rewrite !Forall_app, !Forall_forall. split_and!; intros x (y & -> & _)%list_elem_of_fmap; by split. Qed.

Lemma flush_hunk h hunks : hunk_ok h → flush (Some h) hunks = hunks ++ [h].
Proof.
  intros [Hne _]. unfold flush. destruct h as [[|c cs] [|r rs] [|a as_]]; simpl in *; done.
Qed.

Lemma hunk_lines_print prev hunks hs rest :
  Forall hunk_ok hs → hs ≠ [] → match rest with line :: _ => starts_with (js "*** ") line = true | [] => True end →
  hunk_lines prev hunks ((hs ≫= print_hunk) ++ rest) = (flush prev hunks ++ hs, rest).
Proof.
  intros H Hne Hrest. revert prev hunks Hne.
  induction H as [|h hs Hh _ IH]; intros prev hunks Hne; [done|].
  change ((h :: hs) ≫= print_hunk) with (ats :: hunk_body h ++ (hs ≫= print_hunk)).
  rewrite <- app_comm_cons, <- (assoc_L (++)). cbn [hunk_lines].
  change (starts_with (js "*** ") ats) with false. change (starts_with ats ats) with true. cbn iota.
  rewrite hunk_lines_body by apply print_hunk_body. rewrite push_lines. simpl app.
  assert ({| h_context := h_context h; h_removed := h_removed h; h_added := h_added h |} = h) as -> by (by destruct h).
  destruct hs as [|h' hs].
  - simpl. destruct rest as [|line rest]; cbn [hunk_lines]; [by rewrite flush_hunk|]. rewrite Hrest. by rewrite flush_hunk.
  - rewrite IH by done. rewrite flush_hunk by done. by rewrite <- (assoc_L (++)).
Qed.

Lemma trim_start_suffix s : trim_start s `suffix_of` s.
Proof. induction s as [|c s IH]; simpl; [done|]. destruct (is_ws c); [by apply suffix_cons_r|done]. Qed.

Lemma trim_prefix c s : is_ws c = false → trim (c :: s) `prefix_of` c :: s.
Proof.
  intros H. unfold trim. cbn [trim_start]. rewrite H. unfold trim_end. apply prefix_suffix_reverse.
  rewrite reverse_involutive. apply trim_start_suffix.
Qed.

(** A line with another marker in front does not trim to the last marker. *)
Lemma not_end_marker p s :
  match p with c :: _ => is_ws c = false | [] => False end → starts_with (take 5 p) END_MARKER = false →
  (5 <= length p)%nat → bool_decide (trim (p ++ s) = END_MARKER) = false.
Proof.
  intros Hc Hs Hl. apply bool_decide_eq_false. intros E. apply not_true_iff_false in Hs. apply Hs, starts_with_spec.
  destruct p as [|c p]; [done|]. pose proof (trim_prefix c (p ++ s) Hc) as Hp.
  change (c :: p ++ s) with ((c :: p) ++ s) in Hp. rewrite E in Hp. destruct Hp as [r Hr].
  assert (take 5 (c :: p) = take 5 END_MARKER) as ->.
  { rewrite <- (take_app_le (c :: p) s 5) by done. rewrite Hr. by rewrite take_app_le by (vm_compute; lia). }
  apply prefix_take.
Qed.

Lemma parse_add fuel path content rest ops :
  path_ok path → CR ∉ content →
  match rest with line :: _ => starts_with (js "*** ") line = true | [] => True end →
  parse_operations (S fuel) (print_operation (OpAdd path content) ++ rest) ops =
  parse_operations fuel rest (ops ++ [OpAdd path content]).
Proof.
  intros [_ Hp] _ Hrest. cbn [print_operation app parse_operations].
  rewrite not_end_marker by (done || vm_compute; lia). change (starts_with ADD_PREFIX (ADD_PREFIX ++ path)) with true. cbn iota.
  rewrite added_lines_print.
  - change (slice_from (length ADD_PREFIX) (ADD_PREFIX ++ path)) with path. by rewrite Hp, join_split.
  - destruct rest as [|line rest]; [done|]. destruct line as [|c line]; [done|].
    apply starts_with_spec in Hrest as [t Ht]. injection Ht as -> _. done.
Qed.

Lemma parse_delete fuel path rest ops :
  path_ok path →
  parse_operations (S fuel) (print_operation (OpDelete path) ++ rest) ops =
  parse_operations fuel rest (ops ++ [OpDelete path]).
Proof.
  intros [_ Hp]. cbn [print_operation app parse_operations].
  rewrite not_end_marker by (done || vm_compute; lia). change (starts_with ADD_PREFIX (DELETE_PREFIX ++ path)) with false.
  change (starts_with DELETE_PREFIX (DELETE_PREFIX ++ path)) with true. cbn iota.
  change (slice_from (length DELETE_PREFIX) (DELETE_PREFIX ++ path)) with path. by rewrite Hp.
Qed.

Lemma move_line_print moveTo hs rest :
  match moveTo with Some to => path_ok to ∧ to ≠ [] | None => True end → hs ≠ [] →
  move_line ((match moveTo with Some to => [MOVE_PREFIX ++ to] | None => [] end ++ (hs ≫= print_hunk)) ++ rest) =
  (moveTo, (hs ≫= print_hunk) ++ rest) ∧ nonempty_str moveTo = moveTo.
Proof.
  intros H Hne. destruct moveTo as [to|].
  - destruct H as [[_ Ht] Hto]. split.
    + cbn [app move_line]. change (starts_with MOVE_PREFIX (MOVE_PREFIX ++ to)) with true. cbn iota.
      change (slice_from (length MOVE_PREFIX) (MOVE_PREFIX ++ to)) with to. by rewrite Ht.
    + by destruct to.
  - destruct hs as [|h hs]; done.
Qed.

Lemma parse_update fuel path moveTo hs rest ops :
  operation_ok (OpUpdate path moveTo hs) →
  match rest with line :: _ => starts_with (js "*** ") line = true | [] => True end →
  parse_operations (S fuel) (print_operation (OpUpdate path moveTo hs) ++ rest) ops =
  parse_operations fuel rest (ops ++ [OpUpdate path moveTo hs]).
Proof.
  intros ([_ Hp] & Hm & Hne & Hh) Hrest. cbn [print_operation]. rewrite <- app_comm_cons. cbn [parse_operations].
  rewrite not_end_marker by (done || vm_compute; lia). change (starts_with ADD_PREFIX (UPDATE_PREFIX ++ path)) with false.
  change (starts_with DELETE_PREFIX (UPDATE_PREFIX ++ path)) with false.
  change (starts_with UPDATE_PREFIX (UPDATE_PREFIX ++ path)) with true. cbn iota.
  change (slice_from (length UPDATE_PREFIX) (UPDATE_PREFIX ++ path)) with path. rewrite Hp.
  destruct (move_line_print moveTo hs rest Hm Hne) as [-> ->]. rewrite hunk_lines_print by done.
  cbn [flush app]. by destruct hs.
Qed.

Lemma marker_next ops :
  match (ops ≫= print_operation) ++ [END_MARKER] with line :: _ => starts_with (js "*** ") line = true | [] => True end.
Proof. by destruct ops as [|[] ops]. Qed.

Lemma parse_operations_print ops ops0 fuel :
  Forall operation_ok ops → (length ops < fuel)%nat →
  parse_operations fuel ((ops ≫= print_operation) ++ [END_MARKER]) ops0 = Ok (ops0 ++ ops).
Proof.
  intros H. revert ops0 fuel. induction H as [|o ops Ho _ IH]; intros ops0 fuel Hf.
  { destruct fuel as [|fuel]; [simpl in Hf; lia|]. by rewrite app_nil_r. }
  destruct fuel as [|fuel]; [simpl in Hf; lia|].
  change ((o :: ops) ≫= print_operation) with (print_operation o ++ (ops ≫= print_operation)). rewrite <- (assoc_L (++)).
  pose proof (marker_next ops) as Hm.
  assert (parse_operations fuel ((ops ≫= print_operation) ++ [END_MARKER]) (ops0 ++ [o]) = Ok (ops0 ++ o :: ops)) as Hrec
    by (rewrite IH by (simpl in Hf; lia); by rewrite <- (assoc_L (++))).
  destruct o as [path content|path|path moveTo hs]; cbn [operation_ok] in Ho.
  - destruct Ho. by rewrite parse_add.
  - by rewrite parse_delete.
  - by rewrite parse_update.
Qed.

Lemma elem_of_join_line c x sep ls : x ∈ ls → c ∈ x → c ∈ join sep ls.
Proof.
  intros Hx Hc. induction ls as [|y ls IH]; [by apply not_elem_of_nil in Hx|].
  destruct ls as [|z ls]; [by apply list_elem_of_singleton in Hx as ->|]. rewrite join_cons by done.
  apply elem_of_cons in Hx as [->|Hx]; rewrite !elem_of_app; [by left|]. right. right. by apply IH.
Qed.

Lemma print_lines_ok ops :
  Forall operation_ok ops → ∀ l, l ∈ BEGIN_MARKER :: (ops ≫= print_operation) ++ [END_MARKER] → line_ok l.
Proof.
  assert (∀ p s, Forall (λ c, c ≠ NL ∧ c ≠ CR) p → line_ok s → line_ok (p ++ s)) as Happ.
  { intros p s Hp [H1 H2]. rewrite Forall_forall in Hp. split; rewrite elem_of_app; intros [E|E]; try done; by apply Hp in E as [? ?]. }
  assert (∀ p l, Forall (λ c, c ≠ NL ∧ c ≠ CR) p → Forall line_ok l → Forall line_ok (map (app p) l)) as Hmap.
  { intros p l Hp Hl. rewrite Forall_forall in *. intros x (y & -> & Hy)%list_elem_of_fmap. by apply Happ; [|apply Hl]. }
  assert (∀ h, hunk_ok h → Forall line_ok (print_hunk h)) as Hhunk.
  { intros h [_ H]. rewrite !Forall_app in H. destruct H as (H1 & H2 & H3). unfold print_hunk, hunk_body.
    apply Forall_cons. split; [apply (bool_decide_unpack _); by vm_compute|].
    rewrite !Forall_app. split_and!; (apply Hmap; [repeat constructor; done|done]). }
  intros H. apply Forall_forall, Forall_cons. split; [apply (bool_decide_unpack _); by vm_compute|].
  apply Forall_app. split; [|apply Forall_singleton, (bool_decide_unpack _); by vm_compute].
  apply Forall_forall. intros l (o & Hl & Ho)%list_elem_of_bind. rewrite Forall_forall in H. specialize (H o Ho).
  revert l Hl. apply Forall_forall. destruct o as [path content|path|path moveTo hs]; cbn [print_operation operation_ok] in *.
  - destruct H as [[Hp _] Hc]. apply Forall_cons. split; [by apply Happ; [repeat constructor|]|].
    apply Hmap; [repeat constructor; done|]. apply Forall_forall. intros x Hx. split; [by apply (split_on_elem _ content)|].
    intros Hcr. apply Hc. rewrite <- (join_split NL content). by apply (elem_of_join_line CR x).
  - destruct H as [Hp _]. apply Forall_singleton. by apply Happ; [repeat constructor|].
  - destruct H as ([Hp _] & Hm & _ & Hh). apply Forall_cons. split; [by apply Happ; [repeat constructor|]|].
    apply Forall_app. split.
    + destruct moveTo as [to|]; [|done]. destruct Hm as [[Ht _] _]. apply Forall_singleton. by apply Happ; [repeat constructor|].
    + apply Forall_forall. intros x (h & Hx & Hhs)%list_elem_of_bind. rewrite Forall_forall in Hh.
      specialize (Hhunk h (Hh h Hhs)). rewrite Forall_forall in Hhunk. by apply Hhunk.
Qed.

Lemma print_length ops : (length ops <= length (ops ≫= print_operation))%nat.
Proof.
  induction ops as [|o ops IH]; [done|].
  change ((o :: ops) ≫= print_operation) with (print_operation o ++ (ops ≫= print_operation)).
  rewrite length_app. destruct o; simpl; lia.
Qed.

(** A patch can say every list of operations on files: what is printed in its
    grammar is parsed back, for paths without blanks at their ends and text
    without carriage returns. *)
Theorem parsePatch_printed ops (H : Forall operation_ok ops) : parsePatch (print_patch ops) = Ok ops.
Proof.
  unfold parsePatch, print_patch.
  set (lines := BEGIN_MARKER :: (ops ≫= print_operation) ++ [END_MARKER]).
  pose proof (print_lines_ok ops H) as Hl. fold lines in Hl.
  assert (CR ∉ join [NL] lines) as Hcr.
  { intros Hc. assert (∃ x, x ∈ lines ∧ CR ∈ x) as (x & Hx & Hcx); [|by destruct (Hl x Hx)].
    clear Hl. revert Hc. generalize lines. intros ls. induction ls as [|y ls IH]; [intros Hc; by apply not_elem_of_nil in Hc|].
    destruct ls as [|z ls]; [exists y; split; [by left|done]|]. rewrite join_cons by done.
    rewrite !elem_of_app, list_elem_of_singleton. intros [Hc|[Hc|Hc]]; [exists y; split; [by left|done]|done|].
    destruct (IH Hc) as (x & Hx & Hcx). exists x. split; [by right|done]. }
  rewrite unix_lines_id, split_join; [|done|by intros l Hx; destruct (Hl l Hx)|done].
  subst lines. change (find_index _ (BEGIN_MARKER :: ?l)) with (Some 0%nat). cbn iota. cbn [drop].
  apply (parse_operations_print ops []); [done|]. pose proof (print_length ops). simpl. rewrite length_app. lia.
Qed.

(** The fuel is enough: more of it changes nothing. *)
Lemma added_lines_length lines : (length (added_lines lines).2 <= length lines)%nat.
Proof.
  induction lines as [|l lines IH]; [done|]. cbn [added_lines]. destruct (starts_with plus l); [|done].
  destruct (added_lines lines). simpl in *. lia.
Qed.

Lemma hunk_lines_length h hs lines : (length (hunk_lines h hs lines).2 <= length lines)%nat.
Proof.
  revert h hs. induction lines as [|l lines IH]; intros h hs; [done|]. cbn [hunk_lines].
  destruct (starts_with _ l); [done|]. destruct (starts_with ats l); (etrans; [apply IH|]; simpl; lia).
Qed.

Lemma move_line_length lines : (length (move_line lines).2 <= length lines)%nat.
Proof. destruct lines as [|l lines]; [done|]. cbn [move_line]. destruct (starts_with MOVE_PREFIX l); simpl; lia. Qed.

Lemma parse_operations_fuel fuel fuel' lines ops :
  (length lines <= fuel)%nat → (length lines <= fuel')%nat →
  parse_operations fuel lines ops = parse_operations fuel' lines ops.
Proof.
  revert fuel' lines ops. induction fuel as [|fuel IH]; intros fuel' lines ops H H'.
  { destruct lines; [|simpl in H; lia]. by destruct fuel'. }
  destruct lines as [|l lines]; [by destruct fuel'|]. destruct fuel' as [|fuel']; [simpl in H'; lia|].
  simpl in H, H'. cbn [parse_operations]. destruct (bool_decide (trim l = END_MARKER)); [done|].
  destruct (starts_with ADD_PREFIX l).
  { pose proof (added_lines_length lines). destruct (added_lines lines). simpl in *. apply IH; lia. }
  destruct (starts_with DELETE_PREFIX l); [apply IH; lia|].
  destruct (starts_with UPDATE_PREFIX l); [|destruct (bool_decide (trim l = [])); [apply IH; lia|done]].
  pose proof (move_line_length lines). destruct (move_line lines) as [mv rest]. simpl in *.
  pose proof (hunk_lines_length None [] rest). destruct (hunk_lines None [] rest) as [[|h hs] rest']; [done|].
  simpl in *. apply IH; lia.
Qed.

(** ** Where a hunk is applied *)

Definition occurs (l needle : list jstr) (i : nat) : Prop := needle `prefix_of` drop i l.

(** The place of a hunk: the first at or after [from], else the first of all. *)
Definition chosen (l needle : list jstr) (from i : nat) : Prop :=
  occurs l needle i ∧
  ((from ≤ i ∧ ∀ j, from ≤ j < i → ¬ occurs l needle j) ∨
   ((∀ j, from ≤ j → ¬ occurs l needle j) ∧ ∀ j, j < i → ¬ occurs l needle j))%nat.

Lemma occurs_length l needle i : needle ≠ [] → occurs l needle i → (i + length needle <= length l)%nat.
Proof.
  intros Hne [t Ht]. assert (length (drop i l) = length (needle ++ t)) as Hl by (by rewrite Ht).
  rewrite length_drop, length_app in Hl. destruct needle; [done|]. simpl in *. lia.
Qed.

Lemma find_from_spec needle l k : needle ≠ [] →
  match find_from needle l k with
  | Some i => ∃ d, i = (k + d)%nat ∧ occurs l needle d ∧ ∀ j, (j < d)%nat → ¬ occurs l needle j
  | None => ∀ j, ¬ occurs l needle j
  end.
Proof.
  intros Hne. revert k. induction l as [|x l IH]; intros k; cbn [find_from].
  - rewrite bool_decide_false by (intros Hp; by apply prefix_nil_inv in Hp). intros j Hj. unfold occurs in Hj.
    rewrite drop_nil in Hj. by apply prefix_nil_inv in Hj.
  - case_bool_decide as Hp.
    + exists 0%nat. split_and!; [lia|done|lia].
    + specialize (IH (S k)). destruct (find_from needle l (S k)) as [i|].
      * destruct IH as (d & -> & Ho & Hj). exists (S d). split_and!; [lia|done|].
        intros [|j] Hlt; [done|]. apply (Hj j). lia.
      * intros [|j]; [done|]. apply IH.
Qed.

(** The search of the code finds the chosen place, and fails when there is none. *)
Lemma findSequence_spec l needle from :
  needle ≠ [] →
  match findSequence l needle from with
  | Some i => chosen l needle from i
  | None => ∀ i, ¬ occurs l needle i
  end.
Proof.
  intros Hne. unfold findSequence. pose proof (find_from_spec needle (drop from l) from Hne) as H1.
  assert (∀ j, occurs (drop from l) needle j ↔ occurs l needle (from + j)) as Hd by (intros; unfold occurs; by rewrite drop_drop).
  destruct (find_from needle (drop from l) from) as [i|].
  { destruct H1 as (d & -> & Ho & Hj). split; [by apply Hd|]. left. split; [lia|]. intros j Hlt Hoc.
    apply (Hj (j - from)%nat); [lia|]. apply Hd. by replace (from + (j - from))%nat with j by lia. }
  assert (∀ j, (from ≤ j)%nat → ¬ occurs l needle j) as Hafter.
  { intros j Hle Hoc. apply (H1 (j - from)%nat), Hd. by replace (from + (j - from))%nat with j by lia. }
  destruct (Nat.ltb_spec 0 from); [|intros i; apply Hafter; lia].
  pose proof (find_from_spec needle l 0 Hne) as H2. destruct (find_from needle l 0) as [i|]; [|done].
  destruct H2 as (d & -> & Ho & Hj). split; [done|]. by right.
Qed.

Lemma chosen_unique l needle from i j : chosen l needle from i → chosen l needle from j → i = j.
Proof.
  intros [Hi [[Hi1 Hi2]|[Hi1 Hi2]]] [Hj [[Hj1 Hj2]|[Hj1 Hj2]]].
  - destruct (Nat.lt_trichotomy i j) as [?|[?|?]]; [|done|]; exfalso; [by apply (Hj2 i)|by apply (Hi2 j)].
  - exfalso. by apply (Hj1 i).
  - exfalso. by apply (Hi1 j).
  - destruct (Nat.lt_trichotomy i j) as [?|[?|?]]; [|done|]; exfalso; [by apply (Hj2 i)|by apply (Hi2 j)].
Qed.

Lemma findSequence_chosen l needle from i : needle ≠ [] → chosen l needle from i → findSequence l needle from = Some i.
Proof.
  intros Hne Hc. pose proof (findSequence_spec l needle from Hne) as H. destruct (findSequence l needle from) as [j|].
  - f_equal. by eapply chosen_unique.
  - exfalso. destruct Hc as [Hc _]. by apply (H i).
Qed.

(** What a hunk does: it replaces the lines it removes by those it adds, or puts
    those after its context, or, with neither, at the end. *)
Inductive hunk_applies (h : PatchHunk) : list jstr * nat → list jstr * nat → Prop :=
| replaces l from pre post :
    h_removed h ≠ [] → l = pre ++ h_removed h ++ post → chosen l (h_removed h) from (length pre) →
    hunk_applies h (l, from) (pre ++ h_added h ++ post, (length pre + length (h_added h))%nat)
| inserts l from pre post :
    h_removed h = [] → h_context h ≠ [] → l = pre ++ h_context h ++ post → chosen l (h_context h) from (length pre) →
    hunk_applies h (l, from) (pre ++ h_context h ++ h_added h ++ post,
                              (length pre + length (h_context h) + length (h_added h))%nat)
| appends l from :
    h_removed h = [] → h_context h = [] → hunk_applies h (l, from) (l ++ h_added h, from).

Inductive hunks_apply : list PatchHunk → list jstr * nat → list jstr → Prop :=
| hunks_done l from : hunks_apply [] (l, from) l
| hunks_step h hs s s' l' : hunk_applies h s s' → hunks_apply hs s' l' → hunks_apply (h :: hs) s l'.

Lemma occurs_split l needle i :
  needle ≠ [] → occurs l needle i → ∃ pre post, l = pre ++ needle ++ post ∧ length pre = i.
Proof.
  intros Hne Ho. pose proof (occurs_length _ _ _ Hne Ho). destruct Ho as [post Hp].
  exists (take i l), post. rewrite <- Hp, take_drop. split; [done|]. rewrite length_take. lia.
Qed.

Lemma splice_parts {A} (pre mid post : list A) :
  take (length pre) (pre ++ mid ++ post) = pre ∧ drop (length pre + length mid) (pre ++ mid ++ post) = post ∧
  take (length pre + length mid) (pre ++ mid ++ post) = pre ++ mid.
Proof.
  split_and!; [by rewrite take_app_length| |]; rewrite (assoc_L (++) pre mid post), <- length_app;
    [by rewrite drop_app_length|by rewrite take_app_length].
Qed.

Lemma apply_hunks_sound path hs l from l' : apply_hunks path hs l from = Ok l' → hunks_apply hs (l, from) l'.
Proof.
  revert l from. induction hs as [|h hs IH]; intros l from; cbn [apply_hunks]; [intros [= <-]; constructor|].
  unfold hunk_anchor. destruct (h_removed h) as [|r rs] eqn:Er; [destruct (h_context h) as [|c cs] eqn:Ec|].
  - intros H%IH. by econstructor; [apply appends|].
  - pose proof (findSequence_spec l (c :: cs) from ltac:(done)) as Hs.
    destruct (findSequence l (c :: cs) from) as [i|]; [|done].
    destruct (occurs_split l (c :: cs) i) as (pre & post & -> & <-); [done|apply Hs|].
    destruct (splice_parts pre (c :: cs) post) as (_ & -> & ->). rewrite <- (assoc_L (++)). intros H%IH.
    econstructor; [|exact H]. rewrite <- Ec in *. apply inserts; [done|by rewrite Ec|done|apply Hs].
  - pose proof (findSequence_spec l (r :: rs) from ltac:(done)) as Hs.
    destruct (findSequence l (r :: rs) from) as [i|]; [|done].
    destruct (occurs_split l (r :: rs) i) as (pre & post & -> & <-); [done|apply Hs|].
    destruct (splice_parts pre (r :: rs) post) as (-> & -> & _). intros H%IH.
    econstructor; [|exact H]. rewrite <- Er in *. apply replaces; [by rewrite Er|done|apply Hs].
Qed.

Lemma apply_hunks_complete path hs s l' : hunks_apply hs s l' → apply_hunks path hs s.1 s.2 = Ok l'.
Proof.
  induction 1 as [l from|h hs s s' l' Hh _ IH]; [done|]. cbn [apply_hunks]. unfold hunk_anchor.
  destruct Hh as [l from pre post Hr Hl Hc|l from pre post Hr Hcx Hl Hc|l from Hr Hcx]; cbn [fst snd] in *.
  - destruct (h_removed h) as [|r rs]; [done|].
    rewrite (findSequence_chosen _ _ _ _ Hr Hc). subst l.
    by destruct (splice_parts pre (r :: rs) post) as (-> & -> & _).
  - rewrite Hr. destruct (h_context h) as [|c cs]; [done|]. rewrite (findSequence_chosen _ _ _ _ Hcx Hc). subst l.
    destruct (splice_parts pre (c :: cs) post) as (_ & -> & ->). by rewrite <- (assoc_L (++)).
  - by rewrite Hr, Hcx.
Qed.

(** Hunks give a text exactly when each of them, in order, finds the lines it
    removes, or its context when it removes none, at or else before the place where
    the last one ended; the first such lines are replaced by the lines it adds, or
    followed by them; a hunk with neither adds at the end. *)
Theorem applyHunks_spec path content hunks next :
  applyHunksToContent path content hunks = Ok next ↔
  ∃ lines, hunks_apply hunks (split_on NL content, 0%nat) lines ∧ next = join [NL] lines.
Proof.
  unfold applyHunksToContent. split.
  - intros (lines & Hl & [= <-])%result_bind_ok. exists lines. split; [by apply apply_hunks_sound in Hl|done].
  - intros (lines & Hl & ->). pose proof (apply_hunks_complete path _ _ _ Hl) as H. simpl in H. by rewrite H.
Qed.

(** A difference between two texts: changed blocks, each after lines that stay. *)
Record change := { ch_gap : list jstr; ch_hunk : PatchHunk }.
Definition old_lines (d : list change) (tail : list jstr) : list jstr :=
  foldr (λ c l, ch_gap c ++ h_removed (ch_hunk c) ++ l) tail d.
Definition new_lines (d : list change) (tail : list jstr) : list jstr :=
  foldr (λ c l, ch_gap c ++ h_added (ch_hunk c) ++ l) tail d.
Fixpoint unambiguous (d : list change) (tail : list jstr) : Prop :=
  match d with
  | [] => True
  | c :: d' =>
      h_removed (ch_hunk c) ≠ [] ∧
      (∀ j, (j < length (ch_gap c))%nat → ¬ occurs (old_lines d tail) (h_removed (ch_hunk c)) j) ∧ unambiguous d' tail
  end.

Lemma occurs_app pre l needle j : occurs (pre ++ l) needle (length pre + j) ↔ occurs l needle j.
Proof. unfold occurs. by rewrite <- drop_drop, drop_app_length. Qed.

Lemma diff_applies d tail pre :
  unambiguous d tail → hunks_apply (map ch_hunk d) (pre ++ old_lines d tail, length pre) (pre ++ new_lines d tail).
Proof.
  revert pre. induction d as [|c d IH]; intros pre H; [constructor|]. destruct H as (Hne & Hj & Hd).
  cbn [map old_lines new_lines foldr] in *. fold (old_lines d tail) (new_lines d tail) in *.
  econstructor.
  - rewrite (assoc_L (++) pre). eapply (replaces _ _ _ (pre ++ ch_gap c) (old_lines d tail)); [done|done|].
    split; [|left; split].
    + unfold occurs. rewrite drop_app_length. by apply prefix_app_r.
    + rewrite length_app. lia.
    + intros j [H1 H2] Ho. rewrite length_app in H2. rewrite <- (assoc_L (++)) in Ho.
      apply (Hj (j - length pre)%nat); [lia|]. apply (occurs_app pre).
      by replace (length pre + (j - length pre))%nat with j by lia.
  - rewrite <- !(assoc_L (++)). specialize (IH (pre ++ ch_gap c ++ h_added (ch_hunk c)) Hd).
    rewrite !length_app, <- !(assoc_L (++)) in IH. by rewrite length_app, <- Nat.add_assoc.
Qed.

(** A patch made from a difference turns the old text into the new one, whatever
    context it shows, when each block it removes is not already found among the
    lines in front of it. *)
Theorem applyHunks_diff path d tail
  (Hd : d ≠ []) (Hu : unambiguous d tail) (Hl : ∀ l, l ∈ old_lines d tail → NL ∉ l) :
  applyHunksToContent path (join [NL] (old_lines d tail)) (map ch_hunk d) = Ok (join [NL] (new_lines d tail)).
Proof.
  unfold applyHunksToContent. rewrite split_join; [| |done].
  - pose proof (apply_hunks_complete path _ _ _ (diff_applies d tail [] Hu)) as H. cbn [fst snd app length] in H. by rewrite H.
  - destruct d as [|c d]; [done|]. destruct Hu as (Hne & _). cbn [old_lines foldr].
    destruct (ch_gap c); [|done]. by destruct (h_removed (ch_hunk c)).
Qed.

Definition demo_hunk : PatchHunk := {| h_context := [js "a"]; h_removed := [js "b"]; h_added := [js "c"; js "d"] |}.
Definition demo_ops : list PatchOperation :=
  [OpUpdate (js "f.ts") (Some (js "g.ts")) [demo_hunk]; OpAdd (js "h.ts") (js "x"); OpDelete (js "i.ts")].

Lemma parsePatch_printed_witness : Forall operation_ok demo_ops ∧ parsePatch (print_patch demo_ops) = Ok demo_ops.
Proof.
  assert (Forall operation_ok demo_ops) as H.
  { repeat constructor; try (apply (bool_decide_unpack _); by vm_compute); done. }
  split; [exact H|apply (parsePatch_printed demo_ops H)].
Defined.

Definition demo_diff : list change := [{| ch_gap := [js "a"]; ch_hunk := demo_hunk |}].
Lemma applyHunks_diff_witness :
  (demo_diff ≠ [] ∧ unambiguous demo_diff [js "e"]) ∧
  applyHunksToContent [] (js "a" ++ [NL] ++ js "b" ++ [NL] ++ js "e") [demo_hunk] =
  Ok (js "a" ++ [NL] ++ js "c" ++ [NL] ++ js "d" ++ [NL] ++ js "e").
Proof.
  assert (unambiguous demo_diff [js "e"]) as Hu.
  { split_and!; [done| |done]. intros j Hj. simpl in Hj. assert (j = 0%nat) as -> by lia.
    unfold occurs. by apply (bool_decide_unpack _); vm_compute. }
  split; [by split|]. apply (applyHunks_diff [] demo_diff [js "e"]); [done|exact Hu|].
  apply Forall_forall. apply (bool_decide_unpack _). by vm_compute.
Defined.

(** The context of a hunk that removes lines is not looked at: the lines are replaced
    where they are first found. *)
Lemma context_ignored :
  let hunk := {| h_context := [js "b"]; h_removed := [js "x"]; h_added := [js "y"] |} in
  applyHunksToContent [] (join [NL] [js "a"; js "x"; js "b"; js "x"]) [hunk] = Ok (join [NL] [js "a"; js "y"; js "b"; js "x"]).
Proof. by vm_compute. Qed.

(** A line added between two lines of context is put after both, and lines removed
    around a line that stays are not found. *)
Lemma order_of_lines_lost :
  let body ls := (hunk_lines None [] (map js ls)).1 in
  applyHunksToContent [] (join [NL] [js "a"; js "b"]) (body ["@@"; " a"; "+n"; " b"]) = Ok (join [NL] [js "a"; js "b"; js "n"]) ∧
  is_ok (applyHunksToContent [] (join [NL] [js "a"; js "b"; js "c"]) (body ["@@"; "-a"; " b"; "-c"])) = false.
Proof. by vm_compute. Qed.
