(* ===== verification/PatchFiles.v ===== *)
(** * Patches and files

    Which calls a patch makes of the file system, that patches applied directly and
    through the Node environment do the same, and that applying a patch is a function
    of the contents of the files. The calls are those of any file system; the other
    theorems are proved for one with the laws they name, and [MemFs] has them. *)

From S2P Require Import Prelude JsString PosixPath WorkspacePath NodeEnv ApplyPatch ApplyPatchFacts.
From Stdlib Require Import Lia.

Set Default Goal Selector "!".

Lemma bind_at {W E A B} (m : M W E A) (k : A → M W E B) w :
  (m ≫= k) w = match m w with (Ok a, w') => k a w' | (Err e, w') => (Err e, w') end.
Proof. done. Qed.

(** ** Which paths are touched *)

Section confined.
Context {W : Type} (cwd workspaceRoot : jstr) (options : WorkspaceWritePolicyOptions) (fs : NodeFs W).
Variable R : relation W.
Context `{!PreOrder R}.

Definition place (s : list jstr) : Prop := Forall seg s ∧ writable cwd workspaceRoot options s.

(** The calls that a patch may make respect [R]: reads, writes and removals of the
    places that are writable, and the making of their parent directories. *)
Record confined_fs : Prop := {
  cf_read : ∀ s w, place s → R w (fs_readFile fs (abs_path s) w).2;
  cf_mkdir : ∀ s w, place s → R w (fs_mkdir fs (dirname (abs_path s)) w).2;
  cf_write : ∀ s c w, place s → R w (fs_writeFile fs (abs_path s) c w).2;
  cf_rm : ∀ s w, place s → R w (fs_rm fs false false (abs_path s) w).2;
}.
Hypothesis Hfs : confined_fs.

Definition stays {E A} (m : M W E A) : Prop := ∀ w, R w (m w).2.

Lemma stays_ret {E A} (a : A) : stays (E:=E) (mret a).
Proof. by intros w. Qed.
Lemma stays_throw {E A} (e : E) : stays (throw (A:=A) e).
Proof. by intros w. Qed.
Lemma stays_gets {E A} (f : W → A) : stays (E:=E) (gets f).
Proof. by intros w. Qed.
Lemma stays_pure {E E' A} (f : E → E') (r : result E A) : stays (pure_as f r).
Proof. intros w. unfold pure_as, throw_as, lift. by destruct r. Qed.
Lemma stays_as {E E' A} (f : E → E') (m : M W E A) : stays m → stays (throw_as f m).
Proof. intros H w. specialize (H w). unfold throw_as. by destruct (m w) as [[] ?]. Qed.
Lemma stays_bind {E A B} (m : M W E A) (k : A → M W E B) : stays m → (∀ a, stays (k a)) → stays (m ≫= k).
Proof.
  intros H Hk w. specialize (H w). unfold mbind, M_bind. destruct (m w) as [[a|e] w']; [|done].
  etrans; [exact H|apply Hk].
Qed.

(** After the check of a path only writable places are to be considered. *)
Lemma stays_target {E A} path (k : jstr → M W (PatchError E) A) :
  (∀ s, place s → stays (k (abs_path s))) →
  stays (assert_target cwd workspaceRoot options path ≫= k).
Proof.
  intros Hk w. unfold mbind, M_bind, assert_target, pure_as, throw_as, lift.
  destruct (assertWritableWorkspacePath cwd workspaceRoot path options) as [t|e] eqn:E0; [|done].
  apply assertWritable_iff in E0 as [-> Hs]. apply Hk. split; [apply target_segs_ok|done].
Qed.

#[local] Hint Resolve stays_ret stays_throw stays_gets stays_pure stays_as cf_read cf_mkdir cf_write cf_rm : core.

Lemma apply_operation_stays o r : stays (apply_operation cwd workspaceRoot options fs o r).
Proof.
  destruct o as [path content|path|path moveTo hunks]; cbn [apply_operation]; apply stays_target; intros s Hs.
  - apply stays_bind; [apply stays_as; intros w; by apply cf_mkdir|]. intros _.
    apply stays_bind; [apply stays_as; intros w; by apply cf_write|]. intros _. apply stays_ret.
  - apply stays_bind; [apply stays_gets|]. intros [|]; [|apply stays_throw].
    apply stays_bind; [apply stays_as; intros w; by apply cf_rm|]. intros _. apply stays_ret.
  - apply stays_bind; [apply stays_gets|]. intros [|]; [|apply stays_throw].
    apply stays_bind; [apply stays_as; intros w; by apply cf_read|]. intros content.
    apply stays_bind; [apply stays_pure|]. intros next. destruct moveTo as [to|].
    + apply stays_target. intros s' Hs'.
      apply stays_bind; [apply stays_as; intros w; by apply cf_mkdir|]. intros _.
      apply stays_bind; [apply stays_as; intros w; by apply cf_write|]. intros _.
      apply stays_bind; [apply stays_as; intros w; by apply cf_rm|]. intros _. apply stays_ret.
    + apply stays_bind; [apply stays_as; intros w; by apply cf_write|]. intros _. apply stays_ret.
Qed.

Lemma apply_all_stays {E} (apply : PatchOperation → ApplyPatchResult → M W E ApplyPatchResult) ops r :
  (∀ o r, stays (apply o r)) → stays (apply_all apply ops r).
Proof. intros H. revert r. induction ops as [|o ops IH]; intros r; [apply stays_ret|]. by apply stays_bind. Qed.

(** Any relation on the states that the calls respect holds between the state before
    a patch and the state after, whether it is applied or fails on the way. *)
Lemma applyPatch_respects patch w : R w (applyPatch cwd workspaceRoot options fs patch w).2.
Proof.
  revert w. apply stays_bind; [apply stays_pure|]. intros ops. apply apply_all_stays. intros o r. apply apply_operation_stays.
Qed.
End confined.

(** *** Calls written down *)

(** A call of the file system that reads or changes it. *)
Inductive FsCall :=
| CallRead (path : jstr)
| CallMkdir (path : jstr)
| CallWrite (path content : jstr)
| CallRm (recursive force : bool) (path : jstr)
| CallOther (path : jstr).

Section recording.
Context {W : Type} (fs : NodeFs W).

(** The file system [fs], every call of which is written down. *)
Definition recorded_call {A} (call : FsCall) (m : M W NodeError A) : M (W * list FsCall) NodeError A :=
  λ '(w, calls), let '(r, w') := m w in (r, (w', calls ++ [call])).

Definition recording : NodeFs (W * list FsCall) := {|
  fs_mkdir p := recorded_call (CallMkdir p) (fs_mkdir fs p);
  fs_mkdir_one p := recorded_call (CallOther p) (fs_mkdir_one fs p);
  fs_writeFile p c := recorded_call (CallWrite p c) (fs_writeFile fs p c);
  fs_appendFile p c := recorded_call (CallOther p) (fs_appendFile fs p c);
  fs_readFile p := recorded_call (CallRead p) (fs_readFile fs p);
  fs_lstat p := recorded_call (CallOther p) (fs_lstat fs p);
  fs_readdir p := recorded_call (CallOther p) (fs_readdir fs p);
  fs_realpath p := recorded_call (CallOther p) (fs_realpath fs p);
  fs_rm recursive force p := recorded_call (CallRm recursive force p) (fs_rm fs recursive force p);
  fs_existsSync p s := fs_existsSync fs p s.1;
|}.

Context (cwd workspaceRoot : jstr) (options : WorkspaceWritePolicyOptions).
Abbreviation place := (place cwd workspaceRoot options).

(** The calls a patch may make. *)
Inductive call_allowed : FsCall → Prop :=
| allowed_read s : place s → call_allowed (CallRead (abs_path s))
| allowed_mkdir s : place s → call_allowed (CallMkdir (dirname (abs_path s)))
| allowed_write s content : place s → call_allowed (CallWrite (abs_path s) content)
| allowed_rm s : place s → call_allowed (CallRm false false (abs_path s)).

Definition only_allowed : relation (W * list FsCall) := λ x y,
  ∃ calls, y.2 = x.2 ++ calls ∧ Forall call_allowed calls.
#[local] Instance only_allowed_preorder : PreOrder only_allowed.
Proof.
  split; [intros x; exists []; by rewrite app_nil_r|].
  intros x y z (c1 & H1 & F1) (c2 & H2 & F2). exists (c1 ++ c2).
  rewrite H2, H1, (assoc_L (++)). split; [done|by apply Forall_app].
Qed.

Lemma recorded_allowed {A} call (m : M W NodeError A) x :
  call_allowed call → only_allowed x (recorded_call call m x).2.
Proof. intros H. destruct x as [w calls]. unfold recorded_call. destruct (m w). exists [call]. split; [done|by constructor]. Qed.

Lemma recording_confined : confined_fs cwd workspaceRoot options recording only_allowed.
Proof. split; intros; apply recorded_allowed; by constructor. Qed.

(** The same run, with the calls. *)
Definition traced {E A} (m : M W E A) (m' : M (W * list FsCall) E A) : Prop :=
  ∀ w calls, ∃ more, m' (w, calls) = ((m w).1, ((m w).2, calls ++ more)).

Lemma traced_ret {E A} (a : A) : traced (E:=E) (mret a) (mret a).
Proof. intros w calls. exists []. by rewrite app_nil_r. Qed.
Lemma traced_throw {E A} (e : E) : traced (throw (A:=A) e) (throw e).
Proof. intros w calls. exists []. by rewrite app_nil_r. Qed.
Lemma traced_exists {E} p : traced (E:=E) (gets (fs_existsSync fs p)) (gets (fs_existsSync recording p)).
Proof. intros w calls. exists []. by rewrite app_nil_r. Qed.
Lemma traced_pure {D E A} (f : D → E) (r : result D A) : traced (pure_as f r) (pure_as f r).
Proof. intros w calls. exists []. unfold pure_as, throw_as, lift. rewrite app_nil_r. by destruct r. Qed.
Lemma traced_as {E D A} (f : E → D) (m : M W E A) m' : traced m m' → traced (throw_as f m) (throw_as f m').
Proof. intros H w calls. destruct (H w calls) as [more E1]. exists more. unfold throw_as. rewrite E1. by destruct (m w) as [[] ?]. Qed.
Lemma traced_call {A} call (m : M W NodeError A) : traced m (recorded_call call m).
Proof. intros w calls. exists [call]. unfold recorded_call. by destruct (m w). Qed.
Lemma traced_bind {E A B} (m : M W E A) m' (k : A → M W E B) k' :
  traced m m' → (∀ a, traced (k a) (k' a)) → traced (m ≫= k) (m' ≫= k').
Proof.
  intros H Hk w calls. destruct (H w calls) as [more E1]. rewrite bind_at. unfold mbind, M_bind. rewrite E1.
  destruct (m w) as [[a|e] w']; cbn [fst snd]; [|by exists more].
  destruct (Hk a w' (calls ++ more)) as [more' E2]. exists (more ++ more'). by rewrite E2, (assoc_L (++)).
Qed.

Ltac traced_steps := repeat first
  [ apply traced_bind; [|intros ?] | apply traced_ret | apply traced_throw | apply traced_exists
  | apply traced_pure | apply traced_as, traced_call | case_match ].

Lemma apply_operation_traced o r :
  traced (apply_operation cwd workspaceRoot options fs o r) (apply_operation cwd workspaceRoot options recording o r).
Proof. destruct o; cbn [apply_operation]; traced_steps. Qed.

Lemma applyPatch_traced patch :
  traced (applyPatch cwd workspaceRoot options fs patch) (applyPatch cwd workspaceRoot options recording patch).
Proof.
  apply traced_bind; [apply traced_pure|]. intros ops. generalize no_result.
  induction ops as [|o ops IH]; intros r; [apply traced_ret|]. apply traced_bind; [apply apply_operation_traced|apply IH].
Qed.

(** C40: Whether a patch is applied or fails on the way, and whatever the file system
    is and answers, the calls it makes of it are these: reads, writes and removals
    (not recursive) of places that the workspace lets a tool write, and the making of
    the parent directories of such places. The file system that writes the calls down
    is the given one otherwise. The places are those of the text of a path: below the
    workspace, and not protected. The code resolves no symbolic links, so what a call
    at such a path changes is for the file system to say: a link in the workspace to a
    directory outside takes a write there. *)
Theorem applyPatch_confined patch w :
  ∃ calls,
    applyPatch cwd workspaceRoot options recording patch (w, [])
    = ((applyPatch cwd workspaceRoot options fs patch w).1, ((applyPatch cwd workspaceRoot options fs patch w).2, calls))
    ∧ Forall call_allowed calls.
Proof.
  destruct (applyPatch_traced patch w []) as [calls E]. exists calls. split; [exact E|].
  destruct (applyPatch_respects cwd workspaceRoot options recording only_allowed recording_confined patch (w, []))
    as (calls' & E' & H). rewrite E in E'. simpl in E'. by subst calls'.
Qed.
End recording.

(** ** Both ways to apply a patch *)

Section agree.
Context {W : Type} (cwd workspaceRoot : jstr) (options : WorkspaceWritePolicyOptions) (fs : NodeFs W) (env_cwd : jstr).

(** What node:fs promises without symbolic links, sockets and devices. *)
Record fs_laws : Prop := {
  fl_lstat : ∀ p w, (fs_lstat fs p w).2 = w;
  fl_exists : ∀ p w, fs_existsSync fs p w = is_ok (fs_lstat fs p w).1;
  fl_kind : ∀ p w st, (fs_lstat fs p w).1 = Ok st → is_Some (fileKindFromStats st);
  fl_read : ∀ p w, (fs_readFile fs p w).2 = w;
  fl_missing : ∀ p w, fs_existsSync fs p w = false → is_ok (fs_readFile fs p w).1 = false;
  fl_parent : ∀ s w, Forall seg s → fs_existsSync fs (abs_path s) w = true →
    fs_mkdir fs (dirname (abs_path s)) w = (Ok tt, w);
}.
Hypothesis Hfs : fs_laws.

(** The same state after, and the same value or both an error. *)
Definition agree_out {E E' A} (x : result E A * W) (y : result E' A * W) : Prop :=
  x.2 = y.2 ∧ match x.1, y.1 with Ok a, Ok a' => a = a' | Err _, Err _ => True | _, _ => False end.
Definition same {E E' A} (m : M W E A) (m' : M W E' A) : Prop := ∀ w, agree_out (m w) (m' w).

Lemma same_ret {E E' A} (a : A) : same (E:=E) (E':=E') (mret a) (mret a).
Proof. by intros w. Qed.
Lemma same_throw {E E' A} (e : E) (e' : E') : same (throw (A:=A) e) (throw e').
Proof. by intros w. Qed.
Lemma same_pure {D E E' A} (f : D → E) (g : D → E') (r : result D A) : same (pure_as f r) (pure_as g r).
Proof. intros w. unfold pure_as, throw_as, lift. by destruct r. Qed.
Lemma same_bind {E E' A B} (m : M W E A) (m' : M W E' A) (k : A → M W E B) (k' : A → M W E' B) :
  same m m' → (∀ a, same (k a) (k' a)) → same (m ≫= k) (m' ≫= k').
Proof.
  intros H Hk w. specialize (H w). rewrite !bind_at. unfold agree_out in H.
  destruct (m w) as [[a|e] w1], (m' w) as [[a'|e'] w2]; simpl in H; destruct H as [<- H]; try done. subst a'. apply Hk.
Qed.
Lemma same_as {E E' D D' A} (f : E → D) (g : E' → D') (m : M W E A) (m' : M W E' A) :
  same m m' → same (throw_as f m) (throw_as g m').
Proof.
  intros H w. specialize (H w). unfold throw_as, agree_out in *.
  destruct (m w) as [[a|e] w1], (m' w) as [[a'|e'] w2]; simpl in *; tauto.
Qed.
Lemma same_try {A} path (m : M W NodeError A) : same m (try_file path m).
Proof. intros w. unfold try_file. by destruct (m w) as [[] ?]. Qed.

Lemma resolvePath_abs s : resolvePath cwd env_cwd (abs_path s) = abs_path s.
Proof. done. Qed.

(** The parent directory, as [dirname] and as the step "..". *)
Lemma parent_dirname s : Forall seg s → resolve cwd [abs_path s; js ".."] = dirname (abs_path s).
Proof.
  intros H. rewrite resolve_abs_2 by done. unfold dirname. rewrite segments_abs by done. simpl isAbsolute. cbn iota. f_equal.
  unfold step_from. change (isAbsolute (js "..")) with false. cbn iota. unfold walk.
  change (split_on slash (js "..")) with [js ".."]. cbn [normalize_parts].
  change (negb (truthy (js "..")) || bool_decide (js ".." = js ".")) with false. cbn iota.
  rewrite (bool_decide_true (js ".." = js "..")) by done. destruct (last s) as [q|] eqn:El.
  - rewrite bool_decide_false; [done|]. apply last_Some in El as [s' ->]. rewrite Forall_app, Forall_singleton in H.
    by destruct H as (_ & _ & _ & ? & _).
  - apply last_None in El as ->. done.
Qed.

Definition node_read p : M W FileError jstr := readTextFile fs cwd env_cwd p None.
Definition node_write p c : M W FileError unit := writeFile fs cwd env_cwd p c None.
Definition node_exists p : M W FileError bool := env_exists fs cwd env_cwd p.
Definition node_remove p : M W FileError unit := env_remove fs cwd env_cwd p None (Some false).

Lemma same_write s c :
  Forall seg s →
  same (let! _ := fs_mkdir fs (dirname (abs_path s)) in fs_writeFile fs (abs_path s) c) (node_write (abs_path s) c).
Proof.
  intros Hs. unfold node_write, writeFile. rewrite resolvePath_abs, parent_dirname by done.
  intros w. unfold mbind, M_bind, abortResult, try_file.
  destruct (fs_mkdir fs (dirname (abs_path s)) w) as [[[]|e] w1]; [|done]. by destruct (fs_writeFile fs (abs_path s) c w1) as [[[]|e] w2].
Qed.

Lemma same_remove s : same (fs_rm fs false false (abs_path s)) (node_remove (abs_path s)).
Proof. apply same_try. Qed.

(** The test for a file does not change the world. *)
Lemma node_exists_spec s w :
  fs_existsSync fs (abs_path s) w = true ∧ node_exists (abs_path s) w = (Ok true, w) ∨
  fs_existsSync fs (abs_path s) w = false ∧ (node_exists (abs_path s) w = (Ok false, w) ∨ ∃ e, node_exists (abs_path s) w = (Err e, w)).
Proof.
  unfold node_exists, env_exists, fileInfo. rewrite resolvePath_abs, fl_exists by done.
  unfold mbind, M_bind, try_file, lift, fileInfoFromStats.
  pose proof (fl_lstat Hfs (abs_path s) w) as Hw. pose proof (fl_kind Hfs (abs_path s) w) as Hk.
  destruct (fs_lstat fs (abs_path s) w) as [[st|e] w']; simpl in Hw; subst w'; simpl.
  - left. destruct (Hk st eq_refl) as [kind ->]. done.
  - right. split; [done|]. case_bool_decide; [by left|right; eauto].
Qed.

(** A check of the path, the same for both. *)
Lemma same_target {E E' A} path (k : jstr → M W (PatchError E) A) (k' : jstr → M W (PatchError E') A) :
  (∀ s, Forall seg s → same (k (abs_path s)) (k' (abs_path s))) →
  same (assert_target cwd workspaceRoot options path ≫= k) (assert_target cwd workspaceRoot options path ≫= k').
Proof.
  intros Hk w. unfold mbind, M_bind, assert_target, pure_as, throw_as, lift.
  destruct (assertWritableWorkspacePath cwd workspaceRoot path options) as [t|e] eqn:E0; [|done].
  apply assertWritable_iff in E0 as [-> _]. apply Hk, target_segs_ok.
Qed.

Lemma bind_assoc {E A B C} (m : M W E A) (f : A → M W E B) (g : B → M W E C) w :
  ((m ≫= f) ≫= g) w = (let! a := m in let! b := f a in g b) w.
Proof. unfold mbind, M_bind. by destruct (m w) as [[] ?]. Qed.

Lemma same_write_then {A} s c (k : M W (PatchError NodeError) A) (k' : M W (PatchError FileError) A) :
  Forall seg s → same k k' →
  same (let! _ := throw_as FilesFailed (fs_mkdir fs (dirname (abs_path s))) in
        let! _ := throw_as FilesFailed (fs_writeFile fs (abs_path s) c) in k)
       (let! _ := throw_as FilesFailed (node_write (abs_path s) c) in k').
Proof.
  intros Hs Hk w. pose proof (same_bind _ _ (λ _, k) (λ _, k') (same_as FilesFailed FilesFailed _ _ (same_write s c Hs)) (λ _, Hk) w) as H.
  revert H. unfold mbind, M_bind, throw_as. by destruct (fs_mkdir fs (dirname (abs_path s)) w) as [[] ?].
Qed.

Lemma same_delete s path (r : ApplyPatchResult) :
  same (let! there := gets (fs_existsSync fs (abs_path s)) in
        if negb there then throw (ApplyPatchError (js "Cannot delete missing file: " ++ path))
        else let! _ := throw_as FilesFailed (fs_rm fs false false (abs_path s)) in mret (push_deleted path r))
       (let! there := throw_as FilesFailed (node_exists (abs_path s)) in
        if negb there then throw (ApplyPatchError (js "Cannot delete missing file: " ++ path))
        else let! _ := throw_as FilesFailed (node_remove (abs_path s)) in mret (push_deleted path r)).
Proof.
  intros w. rewrite (bind_at (gets _)), (bind_at (throw_as _ (node_exists _))). unfold gets at 1. unfold throw_as at 2.
  destruct (node_exists_spec s w) as [[-> ->]|[-> [->|[e ->]]]]; cbn [negb]; [|done|done].
  apply same_bind; [apply same_as, same_remove|]. intros _. apply same_ret.
Qed.

(** The text of a file that is there, or an error from both; the world is as before. *)
Lemma same_read {A} s path message (k : jstr → M W (PatchError NodeError) A) k' :
  (∀ content w, fs_existsSync fs (abs_path s) w = true → agree_out (k content w) (k' content w)) →
  same (let! there := gets (fs_existsSync fs (abs_path s)) in
        if negb there then throw (ApplyPatchError (js "Cannot update missing file: " ++ path))
        else let! content := throw_as FilesFailed (fs_readFile fs (abs_path s)) in k content)
       (let! content := throw_as (missing_as message) (node_read (abs_path s)) in k' content).
Proof.
  intros Hk w. rewrite (bind_at (gets _)), (bind_at (throw_as _ (node_read _))). unfold gets at 1. unfold throw_as at 2.
  replace (node_read (abs_path s) w) with (try_file (abs_path s) (fs_readFile fs (abs_path s)) w) by done.
  pose proof (fl_read Hfs (abs_path s) w) as Hw. pose proof (fl_missing Hfs (abs_path s) w) as Hm. unfold try_file.
  destruct (fs_existsSync fs (abs_path s) w) eqn:Ex; cbn [negb].
  - rewrite bind_at. unfold throw_as at 1.
    destruct (fs_readFile fs (abs_path s) w) as [[content|e] w']; simpl in Hw; subst w'; [by apply Hk|done].
  - specialize (Hm eq_refl). destruct (fs_readFile fs (abs_path s) w) as [[content|e] w']; [done|]. simpl in Hw. by subst w'.
Qed.

(** Writing over a file that is there makes no directory. *)
Lemma same_write_over s c path (r : ApplyPatchResult) w :
  Forall seg s → fs_existsSync fs (abs_path s) w = true →
  agree_out ((let! _ := throw_as FilesFailed (fs_writeFile fs (abs_path s) c) in mret (push_updated path r))
               w : result (PatchError NodeError) _ * W)
            ((let! _ := throw_as FilesFailed (node_write (abs_path s) c) in mret (push_updated path r))
               w : result (PatchError FileError) _ * W).
Proof.
  intros Hs Hex. apply (fl_parent Hfs) in Hex; [|done].
  rewrite !bind_at. unfold throw_as, node_write, writeFile. rewrite resolvePath_abs, parent_dirname by done.
  rewrite !bind_at. unfold abortResult, try_file. rewrite !bind_at, Hex, bind_at.
  by destruct (fs_writeFile fs (abs_path s) c w) as [[[]|e] w'].
Qed.

Lemma agree_bind {E E' A B} (m : M W E A) (m' : M W E' A) (k : A → M W E B) (k' : A → M W E' B) w :
  agree_out (m w) (m' w) → (∀ a, m w = (Ok a, w) → agree_out (k a w) (k' a w)) → (m w).2 = w →
  agree_out ((m ≫= k) w) ((m' ≫= k') w).
Proof.
  intros H Hk Hw. rewrite !bind_at. unfold agree_out in H.
  destruct (m w) as [[a|e] w1], (m' w) as [[a'|e'] w2]; simpl in *; destruct H as [<- H]; try done. subst. by apply Hk.
Qed.

Lemma same_operation o r :
  same (apply_operation cwd workspaceRoot options fs o r)
       (apply_operation_env cwd workspaceRoot options node_read node_write node_exists node_remove o r).
Proof.
  destruct o as [path content|path|path moveTo hunks]; cbn [apply_operation apply_operation_env];
    apply same_target; intros s Hs.
  - apply same_write_then; [done|apply same_ret].
  - apply same_delete.
  - apply same_read. intros content w Hex. apply agree_bind; [apply same_pure| |].
    2: { unfold pure_as, throw_as, lift. by destruct (applyHunksToContent path content hunks). }
    intros next _. destruct moveTo as [to|]; [|by apply same_write_over].
    apply same_target. intros s' Hs'. apply same_write_then; [done|].
    apply same_bind; [apply same_as, same_remove|]. intros _. apply same_ret.
Qed.

(** Over a file system with node:fs's promises, a patch applied through the Node
    environment and one applied directly leave the same files and give the same
    result, or both throw. *)
Theorem applyPatch_agrees patch w :
  let direct := applyPatch cwd workspaceRoot options fs patch w in
  let through := applyPatchWithEnv cwd workspaceRoot options node_read node_write node_exists node_remove patch w in
  direct.2 = through.2 ∧
  match direct.1, through.1 with Ok a, Ok b => a = b | Err _, Err _ => True | _, _ => False end.
Proof.
  cbn zeta. revert w. apply (same_bind _ _ _ _ (same_pure _ _ _)). intros ops.
  generalize no_result. induction ops as [|o ops IH]; intros r; [apply same_ret|].
  apply same_bind; [apply same_operation|apply IH].
Qed.
End agree.

(** ** Patches as functions on the contents of files *)

Section files.
Context {W : Type} (cwd workspaceRoot : jstr) (options : WorkspaceWritePolicyOptions) (fs : NodeFs W).
Variable files : W → gmap (list jstr) jstr.

(** What calls that succeed do to the contents, by places in normal form: those of
    plain files and directories, reached by no symbolic link, with texts that UTF-8
    carries (no lone surrogate). *)
Record contents_laws : Prop := {
  cl_mkdir : ∀ p w w', fs_mkdir fs p w = (Ok tt, w') → files w' = files w;
  cl_write : ∀ s c w w', Forall seg s → fs_writeFile fs (abs_path s) c w = (Ok tt, w') → files w' = <[s := c]> (files w);
  cl_read : ∀ s c w w', Forall seg s → fs_readFile fs (abs_path s) w = (Ok c, w') → files w' = files w ∧ files w !! s = Some c;
  cl_rm : ∀ s w w', Forall seg s → fs_rm fs false false (abs_path s) w = (Ok tt, w') →
    is_Some (files w !! s) ∧ files w' = delete s (files w);
}.
Hypothesis Hfs : contents_laws.

(** What an operation means for the contents. *)
Definition target (path : jstr) : option (list jstr) :=
  match assertWritableWorkspacePath cwd workspaceRoot path options with
  | Ok _ => Some (target_segs cwd workspaceRoot path) | Err _ => None
  end.
Definition ok_of {E A} (r : result E A) : option A := match r with Ok a => Some a | Err _ => None end.
Definition operation_files (o : PatchOperation) (m : gmap (list jstr) jstr) : option (gmap (list jstr) jstr) :=
  match o with
  | OpAdd path content => t ← target path; Some (<[t := content]> m)
  | OpDelete path => t ← target path; _ ← m !! t; Some (delete t m)
  | OpUpdate path moveTo hunks =>
      t ← target path; content ← m !! t; next ← ok_of (applyHunksToContent path content hunks);
      match moveTo with
      | Some to => t' ← target to; Some (delete t (<[t' := next]> m))
      | None => Some (<[t := next]> m)
      end
  end.
Fixpoint patch_files (ops : list PatchOperation) (m : gmap (list jstr) jstr) : option (gmap (list jstr) jstr) :=
  match ops with [] => Some m | o :: ops => m' ← operation_files o m; patch_files ops m' end.

(** The paths reported, by kind. *)
Definition reported (ops : list PatchOperation) : ApplyPatchResult :=
  {| ap_added := omap (λ o, match o with OpAdd p _ => Some p | _ => None end) ops;
     ap_updated := omap (λ o, match o with OpUpdate p mv _ => Some (default p mv) | _ => None end) ops;
     ap_deleted := omap (λ o, match o with OpDelete p => Some p | _ => None end) ops |}.
Definition and_then (a b : ApplyPatchResult) : ApplyPatchResult :=
  {| ap_added := ap_added a ++ ap_added b; ap_updated := ap_updated a ++ ap_updated b; ap_deleted := ap_deleted a ++ ap_deleted b |}.

Lemma throw_as_inv {E E' A} (f : E → E') (m : M W E A) w a w' : throw_as f m w = (Ok a, w') → m w = (Ok a, w').
Proof. unfold throw_as. by destruct (m w) as [[] ?]; intros [= -> ->]. Qed.

Lemma assert_target_inv {E} path w t w' :
  assert_target (W:=W) (E:=E) cwd workspaceRoot options path w = (Ok t, w') →
  w' = w ∧ t = abs_path (target_segs cwd workspaceRoot path) ∧ target path = Some (target_segs cwd workspaceRoot path).
Proof.
  unfold assert_target, pure_as. intros H%throw_as_inv. unfold lift in H. injection H as H <-. unfold target. rewrite H.
  by apply assertWritable_iff in H as [-> _].
Qed.

Lemma gets_missing_inv {E A} (f : W → bool) (e : E) (m : M W E A) w a w' :
  (let! there := gets f in if negb there then throw e else m) w = (Ok a, w') → m w = (Ok a, w').
Proof. unfold mbind, M_bind, gets. by destruct (f w). Qed.

(** A step that succeeded: its value, the state after it, and the rest. *)
Ltac step H x w1 H1 := apply M_bind_Ok_inv in H as (x & w1 & H1 & H).

Lemma apply_operation_files o r w r' w' :
  apply_operation cwd workspaceRoot options fs o r w = (Ok r', w') →
  operation_files o (files w) = Some (files w') ∧ r' = and_then r (reported [o]).
Proof.
  assert (∀ p, Forall seg (target_segs cwd workspaceRoot p)) as Hseg by (intros; apply target_segs_ok).
  assert (∀ r p, push_added p r = and_then r {| ap_added := [p]; ap_updated := []; ap_deleted := [] |} ∧
    push_updated p r = and_then r {| ap_added := []; ap_updated := [p]; ap_deleted := [] |} ∧
    push_deleted p r = and_then r {| ap_added := []; ap_updated := []; ap_deleted := [p] |}) as Hpush
    by (intros; unfold push_added, push_updated, push_deleted, and_then; simpl; by rewrite !app_nil_r).
  destruct o as [path content|path|path moveTo hunks]; cbn [apply_operation operation_files]; intros H; step H t w1 H1;
    apply assert_target_inv in H1 as (-> & -> & ->); cbn [mbind option_bind].
  - step H u1 w1 H1. step H u2 w2 H2. destruct u1, u2. injection H as <- <-.
    apply throw_as_inv, (cl_mkdir Hfs) in H1. apply throw_as_inv, (cl_write Hfs) in H2; [|done]. rewrite H2, H1.
    split; [done|apply Hpush].
  - apply gets_missing_inv in H. step H u w1 H1. destruct u. injection H as <- <-.
    apply throw_as_inv, (cl_rm Hfs) in H1 as [[c ->] ->]; [|done]. split; [done|apply Hpush].
  - apply gets_missing_inv in H. step H content w1 H1. apply throw_as_inv, (cl_read Hfs) in H1 as [Hw ->]; [|done].
    cbn [mbind option_bind]. step H next w2 H2. apply throw_as_inv in H2. injection H2 as -> <-.
    cbn [ok_of mbind option_bind]. destruct moveTo as [to|].
    + step H t w2 H2. apply assert_target_inv in H2 as (-> & -> & ->). cbn [mbind option_bind].
      step H u3 w3 H3. step H u4 w4 H4. step H u5 w5 H5. destruct u3, u4, u5. injection H as <- <-.
      apply throw_as_inv, (cl_mkdir Hfs) in H3. apply throw_as_inv, (cl_write Hfs) in H4; [|done].
      apply throw_as_inv, (cl_rm Hfs) in H5 as [_ ->]; [|done]. rewrite H4, H3, Hw. split; [done|apply Hpush].
    + step H u3 w3 H3. destruct u3. injection H as <- <-. apply throw_as_inv, (cl_write Hfs) in H3; [|done].
      rewrite H3, Hw. split; [done|apply Hpush].
Qed.

Lemma and_then_reported r ops ops' :
  and_then (and_then r (reported ops)) (reported ops') = and_then r (reported (ops ++ ops')).
Proof. unfold and_then, reported. cbn [ap_added ap_updated ap_deleted]. by rewrite !omap_app, <- !(assoc_L (++)). Qed.

(** C39: A patch is a function of the contents of the files: when it is applied, the
    contents after are those its operations, in order, make of the contents
    before - add, delete, the hunks applied to the text, a move - and the paths
    reported are those of the operations. The files are plain ones: no path leads
    through a symbolic link, and UTF-8 carries every text. *)
Theorem applyPatch_files patch w w' r
  (H : applyPatch cwd workspaceRoot options fs patch w = (Ok r, w')) :
  ∃ ops, parsePatch patch = Ok ops ∧ patch_files ops (files w) = Some (files w') ∧ r = reported ops.
Proof.
  step H ops w1 H1. apply throw_as_inv in H1. injection H1 as Hp <-. exists ops. split; [done|]. clear Hp.
  assert (∀ r0, apply_all (apply_operation cwd workspaceRoot options fs) ops r0 w = (Ok r, w') →
    patch_files ops (files w) = Some (files w') ∧ r = and_then r0 (reported ops)) as Hall.
  { clear H. revert w. induction ops as [|o ops IH]; intros w r0 H; cbn [apply_all] in H.
    - injection H as <- <-. split; [done|]. unfold and_then, reported. simpl. rewrite !app_nil_r. by destruct r0.
    - step H r1 w1 H1. apply apply_operation_files in H1 as [Ho ->]. apply IH in H as [Hm ->].
      cbn [patch_files]. rewrite Ho. split; [done|]. apply (and_then_reported r0 [o]). }
  apply Hall in H as [Hm ->]. done.
Qed.
End files.

(** ** The file system in memory has these laws *)

Module MemFsFacts.
Import MemFs.

Lemma files_insert_dir w s : w !! s = None → MemFs.files (<[s := Dir]> w) = MemFs.files w.
Proof.
  intros H. apply map_eq. intros t. unfold MemFs.files. rewrite !lookup_omap.
  destruct (decide (s = t)) as [->|]; [by rewrite lookup_insert_eq, H|by rewrite lookup_insert_ne].
Qed.

Lemma files_insert_file w s c : MemFs.files (<[s := File c]> w) = <[s := c]> (MemFs.files w).
Proof.
  apply map_eq. intros t. unfold MemFs.files. rewrite lookup_omap.
  destruct (decide (s = t)) as [->|]; [by rewrite !lookup_insert_eq|by rewrite !lookup_insert_ne, lookup_omap].
Qed.

Lemma files_delete w s : MemFs.files (delete s w) = delete s (MemFs.files w).
Proof. apply omap_delete. Qed.

Lemma make_dirs_files todo w : MemFs.files (make_dirs todo w).2 = MemFs.files w.
Proof.
  revert w. induction todo as [|s todo IH]; intros w; [done|]. cbn [make_dirs].
  destruct (w !! s) as [[|c]|] eqn:E; [apply IH|done|]. rewrite IH. by apply files_insert_dir.
Qed.

Lemma write_files s c w : (write s c w).2 = w ∨ (write s c w).2 = <[s := File c]> w ∧ (write s c w).1 = Ok tt.
Proof. unfold write. destruct (look w (parent s)) as [[|c']|]; [|by left..]. destruct (look w s) as [[|c']|]; [by left|by right..]. Qed.

Lemma write_ok s c w w' : write s c w = (Ok tt, w') → w' = <[s := File c]> w.
Proof.
  unfold write, fail. destruct (look w (parent s)) as [[|c']|]; [|done..]. by destruct (look w s) as [[|c']|]; intros [= <-].
Qed.

Lemma look_file w s c : look w s = Some (File c) → MemFs.files w !! s = Some c.
Proof.
  unfold look, MemFs.files. rewrite lookup_omap. destruct s as [|x s]; [done|]. destruct (reachable w (x :: s)); [|done].
  by intros ->.
Qed.

Lemma mem_contents_laws : contents_laws mem_fs MemFs.files.
Proof.
  split; cbn [mem_fs fs_mkdir fs_writeFile fs_readFile fs_rm].
  - intros p w w' H. by rewrite <- (make_dirs_files (prefixes (segs p)) w), H.
  - intros s c w w' Hs H. unfold segs in H. rewrite walk_abs in H by done. apply write_ok in H as ->. apply files_insert_file.
  - intros s c w w' Hs [= H <-]. unfold segs, fail in H. rewrite walk_abs in H by done. split; [done|]. apply look_file.
    by destruct (look w s) as [[|c']|]; try done; injection H as ->.
  - intros s w w' Hs H. unfold segs, fail in H. rewrite walk_abs in H by done.
    destruct (look w s) as [[|c]|] eqn:E; [done| |done]. injection H as <-. apply look_file in E. split; [eauto|apply files_delete].
Qed.

Lemma make_dirs_there todo w : forallb (λ d, bool_decide (w !! d = Some Dir)) todo = true → make_dirs todo w = (Ok tt, w).
Proof.
  induction todo as [|s todo IH]; [done|]. cbn [forallb make_dirs]. intros [H1%bool_decide_eq_true H2]%andb_true_iff.
  rewrite H1. by apply IH.
Qed.

Lemma parent_segs s : Forall seg s → segs (dirname (abs_path s)) = parent s.
Proof.
  intros H. unfold dirname, segs, parent. rewrite segments_abs by done. simpl isAbsolute. cbn iota.
  apply walk_abs. by apply Forall_take.
Qed.

Lemma mem_laws : fs_laws mem_fs.
Proof.
  split; cbn [mem_fs fs_lstat fs_existsSync fs_readFile fs_mkdir].
  - done.
  - intros p w. simpl. by destruct (look w (segs p)).
  - intros p w st. simpl. destruct (look w (segs p)) as [n|]; [|done]. intros [= <-]. unfold fileKindFromStats. simpl.
    by destruct n; eauto.
  - done.
  - intros p w. simpl. by destruct (look w (segs p)).
  - intros s w Hs Hex. rewrite parent_segs by done. unfold segs in Hex. rewrite walk_abs in Hex by done.
    apply bool_decide_eq_true in Hex as [n Hn]. unfold look in Hn. destruct s as [|x s]; [done|].
    destruct (reachable w (x :: s)) eqn:Hr; [|done]. by apply make_dirs_there.
Qed.

(** Files outside the places a patch may write keep their contents. *)
Definition untouched (cwd workspaceRoot : jstr) (options : WorkspaceWritePolicyOptions) : relation World := λ w w',
  ∀ q, ¬ place cwd workspaceRoot options q → MemFs.files w' !! q = MemFs.files w !! q.
#[export] Instance untouched_preorder cwd r o : PreOrder (untouched cwd r o).
Proof. split; [by intros w q|]. intros x y z H1 H2 q Hq. by rewrite H2, H1. Qed.

Lemma mem_confined cwd r o : confined_fs cwd r o mem_fs (untouched cwd r o).
Proof.
  split; cbn [mem_fs fs_mkdir fs_writeFile fs_readFile fs_rm].
  - by intros p w q.
  - intros s w _ q _. by rewrite make_dirs_files.
  - intros s c w Hs q Hq. unfold segs. rewrite walk_abs by apply Hs.
    destruct (write_files s c w) as [->|[-> _]]; [done|]. rewrite files_insert_file.
    destruct (decide (s = q)) as [->|]; [done|by rewrite lookup_insert_ne].
  - intros s w Hs q Hq. unfold segs. rewrite walk_abs by apply Hs.
    destruct (look w s) as [[|c]|]; [done| |done]. simpl. rewrite files_delete.
    destruct (decide (s = q)) as [->|]; [done|by rewrite lookup_delete_ne].
Qed.
End MemFsFacts.
Import MemFsFacts.

(** ** A patch applied *)

Module Demo.
Definition text (ls : list string) : jstr := join [NL] (map js ls).
Definition world : MemFs.World :=
  <[[js "ws"] := MemFs.Dir]> (<[[js "ws"; js "a.txt"] := MemFs.File (text ["one"; "two"; "three"])]> ∅).
Definition patch : jstr :=
  text ["*** Begin Patch"; "*** Update File: a.txt"; "@@"; " one"; "-two"; "+2"; "*** Add File: d/b.txt"; "+hi"; "*** End Patch"].
Definition after : MemFs.World :=
  <[[js "ws"; js "d"; js "b.txt"] := MemFs.File (js "hi")]> (<[[js "ws"; js "d"] := MemFs.Dir]>
  (<[[js "ws"; js "a.txt"] := MemFs.File (text ["one"; "2"; "three"])]> world)).
Definition done_ : ApplyPatchResult := {| ap_added := [js "d/b.txt"]; ap_updated := [js "a.txt"]; ap_deleted := [] |}.
Definition run (p : jstr) (w : MemFs.World) := applyPatch (js "/") (js "/ws") strict MemFs.mem_fs p w.
End Demo.

Lemma applyPatch_files_witness :
  Demo.run Demo.patch Demo.world = (Ok Demo.done_, Demo.after) ∧
  ∃ ops, parsePatch Demo.patch = Ok ops ∧
    patch_files (js "/") (js "/ws") strict ops (MemFs.files Demo.world) = Some (MemFs.files Demo.after) ∧
    Demo.done_ = reported ops.
Proof.
  assert (Demo.run Demo.patch Demo.world = (Ok Demo.done_, Demo.after)) as H by (vm_compute; reflexivity).
  split; [exact H|].
  exact (applyPatch_files (js "/") (js "/ws") strict MemFs.mem_fs MemFs.files mem_contents_laws
           Demo.patch Demo.world Demo.after Demo.done_ H).
Defined.

(** The file system in memory has no links: there the files elsewhere are untouched. *)
Lemma mem_patch_untouched patch w :
  untouched (js "/") (js "/ws") strict w (Demo.run patch w).2.
Proof. apply (applyPatch_respects (js "/") (js "/ws") strict MemFs.mem_fs _ (mem_confined _ _ _)). Qed.

Lemma applyPatch_confined_witness :
  (applyPatch (js "/") (js "/ws") strict (recording MemFs.mem_fs) Demo.patch (Demo.world, [])).2.2
  = [CallRead (js "/ws/a.txt"); CallWrite (js "/ws/a.txt") (Demo.text ["one"; "2"; "three"]);
     CallMkdir (js "/ws/d"); CallWrite (js "/ws/d/b.txt") (js "hi")]
  ∧ Forall (call_allowed (js "/") (js "/ws") strict)
      (applyPatch (js "/") (js "/ws") strict (recording MemFs.mem_fs) Demo.patch (Demo.world, [])).2.2.
Proof.
  split; [vm_compute; reflexivity|].
  destruct (applyPatch_confined MemFs.mem_fs (js "/") (js "/ws") strict Demo.patch Demo.world) as (calls & E & H).
  rewrite E. exact H.
Defined.

Lemma applyPatch_agrees_witness :
  fs_laws MemFs.mem_fs ∧
  (applyPatchWithEnv (js "/") (js "/ws") strict (node_read (js "/") MemFs.mem_fs (js "/"))
     (node_write (js "/") MemFs.mem_fs (js "/")) (node_exists (js "/") MemFs.mem_fs (js "/"))
     (node_remove (js "/") MemFs.mem_fs (js "/")) Demo.patch Demo.world).2 = Demo.after.
Proof.
  split; [apply mem_laws|].
  pose proof (applyPatch_agrees (js "/") (js "/ws") strict MemFs.mem_fs (js "/") mem_laws Demo.patch Demo.world) as [H _].
  rewrite <- H. vm_compute. reflexivity.
Defined.

(** A move of a file to itself deletes it. *)
Lemma move_to_itself_deletes :
  let p := Demo.text ["*** Begin Patch"; "*** Update File: a.txt"; "*** Move to: a.txt"; "-two"; "+2"; "*** End Patch"] in
  MemFs.files (Demo.run p Demo.world).2 = ∅ ∧
  (Demo.run p Demo.world).1 = Ok {| ap_added := []; ap_updated := [js "a.txt"]; ap_deleted := [] |}.
Proof. by vm_compute. Qed.
