(* ===== verification/Prompts.v ===== *)
(** * Texts of explicit invocations

    Of packages/harness/src/harness/skills.ts the text of a skill that is invoked, of
    prompt-templates.ts the arguments of a command line and their substitution in a
    template. Their loading from directories is not modelled. *)

From S2P Require Import Prelude JsString PosixPath.
From Stdlib Require Import Lia.

Set Default Goal Selector "!".

Record Skill := {
  sk_name : jstr; sk_description : jstr; sk_content : jstr; sk_filePath : jstr;
  sk_disableModelInvocation : bool; sk_resources : option (list jstr);
}.
Record PromptTemplate := { pt_name : jstr; pt_description : option jstr; pt_content : jstr }.

(** ** Skills *)

(** [replace(/c/g, text)] for one code unit and a text without a dollar sign. *)
Definition replace_unit (c : N) (text : jstr) (s : jstr) : jstr := flat_map (λ x, if (x =? c)%N then text else [x]) s.

Definition AMP : N := 38%N.
Definition LT : N := 60%N.
Definition GT : N := 62%N.
Definition QUOT : N := 34%N.
Definition APOS : N := 39%N.

Definition escapeXml (value : jstr) : jstr :=
  replace_unit APOS (js "&apos;") (replace_unit QUOT (js "&quot;") (replace_unit GT (js "&gt;")
    (replace_unit LT (js "&lt;") (replace_unit AMP (js "&amp;") value)))).

(** [replace(/\/+$/, "")] *)
Definition strip_end_slashes (path : jstr) : jstr := reverse (strip_slashes (reverse path)).

(** The text before the last slash, if there is one. *)
Fixpoint before_last_slash (s : jstr) : option jstr :=
  match s with
  | [] => None
  | c :: s => match before_last_slash s with
              | Some p => Some (c :: p)
              | None => if (c =? slash)%N then Some [] else None
              end
  end.
Definition dirnameEnvPath (path : jstr) : jstr :=
  match before_last_slash (strip_end_slashes path) with
  | Some p => if truthy p then p else js "/"
  | None => js "/"
  end.

Definition formatSkillInvocation (skill : Skill) (additionalInstructions : option jstr) : jstr :=
  let files := nullish (sk_resources skill) [] in
  let resources :=
    match files with
    | [] => []
    | _ => [NL] ++ js "<skill_resources>" ++ [NL]
           ++ join [NL] (map (λ path, js "  <file>" ++ escapeXml path ++ js "</file>") files)
           ++ [NL] ++ js "</skill_resources>"
    end in
  let directory := dirnameEnvPath (sk_filePath skill) in
  let skillBlock :=
    js "<skill_content name=" ++ [QUOT] ++ escapeXml (sk_name skill) ++ [QUOT] ++ js ">" ++ [NL]
    ++ sk_content skill ++ [NL; NL] ++ js "Skill directory: " ++ directory ++ [NL]
    ++ js "Resolve relative file references against this directory." ++ resources ++ [NL] ++ js "</skill_content>" in
  if truthy_opt additionalInstructions then skillBlock ++ [NL; NL] ++ nullish additionalInstructions [] else skillBlock.

(** ** Prompt templates *)

(** The loop over the units of a command line. *)
Fixpoint args_loop (s current : jstr) (inQuote : option N) (args : list jstr) : list jstr :=
  match s with
  | [] => if truthy current then args ++ [current] else args
  | c :: s =>
      match inQuote with
      | Some q => if (c =? q)%N then args_loop s current None args else args_loop s (current ++ [c]) inQuote args
      | None =>
          if ((c =? QUOT) || (c =? APOS))%N then args_loop s current (Some c) args
          else if ((c =? 32) || (c =? 9))%N then
            if truthy current then args_loop s [] None (args ++ [current]) else args_loop s current None args
          else args_loop s (current ++ [c]) None args
      end
  end.
Definition parseCommandArgs (argsString : jstr) : list jstr := args_loop argsString [] None [].

Definition DOLLAR : N := 36%N.

(** The digits at the front of a text, and what follows. *)
Fixpoint take_digits (s : jstr) : jstr * jstr :=
  match s with
  | c :: s' => if is_digit c then let '(d, r) := take_digits s' in (c :: d, r) else ([], s)
  | [] => ([], [])
  end.
Fixpoint number_of (acc : N) (digits : jstr) : N :=
  match digits with c :: d => number_of (10 * acc + (c - 48))%N d | [] => acc end.
(** [parseInt(digits, 10)]: exact below 2^53, and beyond every index above it. *)
Definition parse_int (digits : jstr) : N := number_of 0 digits.

(** [args[n - 1] ?? ""] *)
Definition nth_arg (args : list jstr) (n : N) : jstr :=
  if (n =? 0)%N then [] else nth (N.to_nat (N.min n (N.of_nat (S (length args))) - 1)) args [].

(** [\$(\d+)], everywhere. *)
Fixpoint replace_positions (fuel : nat) (args : list jstr) (s : jstr) : jstr :=
  match fuel, s with
  | S fuel, c :: s' =>
      if (c =? DOLLAR)%N then
        match take_digits s' with
        | ([], _) => c :: replace_positions fuel args s'
        | (digits, rest) => nth_arg args (parse_int digits) ++ replace_positions fuel args rest
        end
      else c :: replace_positions fuel args s'
  | _, _ => []
  end.

(** [\$\{@:(\d+)(?::(\d+))?\}] at the front: the two numbers and what follows. *)
Definition match_slice (s : jstr) : option (jstr * option jstr * jstr) :=
  if starts_with (js "${@:") s then
    match take_digits (drop 4 s) with
    | ([], _) => None
    | (d1, 125%N :: rest) => Some (d1, None, rest)
    | (d1, 58%N :: s2) => match take_digits s2 with
                          | ([], _) => None
                          | (d2, 125%N :: rest) => Some (d1, Some d2, rest)
                          | _ => None
                          end
    | _ => None
    end
  else None.
(** [args.slice(start)] and [args.slice(start, start + length)]. *)
Definition slice_args (args : list jstr) (start : N) (length_ : option N) : list jstr :=
  let from := drop (N.to_nat (N.min start (N.of_nat (length args)))) args in
  match length_ with None => from | Some n => take (N.to_nat (N.min n (N.of_nat (length args)))) from end.
Definition slice_text (args : list jstr) (d1 : jstr) (d2 : option jstr) : jstr :=
  join (js " ") (slice_args args (parse_int d1 - 1) (parse_int <$> d2)).
Fixpoint replace_slices (fuel : nat) (args : list jstr) (s : jstr) : jstr :=
  match fuel, s with
  | S fuel, c :: s' =>
      match match_slice s with
      | Some (d1, d2, rest) => slice_text args d1 d2 ++ replace_slices fuel args rest
      | None => c :: replace_slices fuel args s'
      end
  | _, _ => []
  end.

(** The replacement text of [String.prototype.replace]: [$$], [$&], the text before
    and after the match; there are no groups. *)
Fixpoint expand (replacement matched before after : jstr) : jstr :=
  match replacement with
  | c :: r =>
      match r with
      | d :: r' =>
          if (c =? DOLLAR)%N then
            if (d =? DOLLAR)%N then DOLLAR :: expand r' matched before after
            else if (d =? AMP)%N then matched ++ expand r' matched before after
            else if (d =? 96)%N then before ++ expand r' matched before after
            else if (d =? APOS)%N then after ++ expand r' matched before after
            else c :: expand r matched before after
          else c :: expand r matched before after
      | [] => [c]
      end
  | [] => []
  end.
(** [replace(/literal/g, replacement)]; [before] is the text of the string so far. *)
Fixpoint replace_literal (fuel : nat) (literal replacement before s : jstr) : jstr :=
  match fuel, s with
  | S fuel, c :: s' =>
      if starts_with literal s then
        let after := drop (length literal) s in
        expand replacement literal before after ++ replace_literal fuel literal replacement (before ++ literal) after
      else c :: replace_literal fuel literal replacement (before ++ [c]) s'
  | _, _ => []
  end.

Definition substituteArgs (content : jstr) (args : list jstr) : jstr :=
  let result := replace_positions (length content) args content in
  let result := replace_slices (length result) args result in
  let allArgs := join (js " ") args in
  let result := replace_literal (length result) (js "$ARGUMENTS") allArgs [] result in
  replace_literal (length result) (js "$@") allArgs [] result.

Definition formatPromptTemplateInvocation (template : PromptTemplate) (args : list jstr) : jstr :=
  substituteArgs (pt_content template) args.

(** ** Escaping *)

Definition special (c : N) : bool := existsb (N.eqb c) [AMP; LT; GT; QUOT; APOS].
Definition entity (c : N) : jstr :=
  if (c =? AMP)%N then js "&amp;" else if (c =? LT)%N then js "&lt;" else if (c =? GT)%N then js "&gt;"
  else if (c =? QUOT)%N then js "&quot;" else if (c =? APOS)%N then js "&apos;" else [c].

(** The five replacements, one after the other, are one. *)
Lemma escapeXml_flat s : escapeXml s = flat_map entity s.
Proof.
  induction s as [|c s IH]; [done|]. unfold escapeXml, replace_unit in *. cbn [flat_map].
  rewrite !flat_map_app, IH. f_equal. clear IH. unfold entity.
  destruct (N.eqb_spec c AMP) as [->|]; [done|]. cbn [flat_map app].
  destruct (N.eqb_spec c LT) as [->|]; [done|]. cbn [flat_map app].
  destruct (N.eqb_spec c GT) as [->|]; [done|]. cbn [flat_map app].
  destruct (N.eqb_spec c QUOT) as [->|]; [done|]. cbn [flat_map app].
  destruct (N.eqb_spec c APOS) as [->|]; [done|]. done.
Qed.

(** The five entities read back. *)
Fixpoint unescapeXml (fuel : nat) (s : jstr) : jstr :=
  match fuel, s with
  | S fuel, c :: s' =>
      match find_first (λ x, starts_with (entity x) s) [AMP; LT; GT; QUOT; APOS] with
      | Some x => x :: unescapeXml fuel (drop (length (entity x)) s)
      | None => c :: unescapeXml fuel s'
      end
  | _, _ => []
  end.

Lemma entity_other c : special c = false → entity c = [c].
Proof.
  unfold special, entity. simpl. intros H. rewrite !orb_false_iff in H. destruct H as (-> & -> & -> & -> & -> & _). done.
Qed.

(** The character an escaped text starts with. *)
Lemma entity_first c rest : find_first (λ x, starts_with (entity x) (entity c ++ rest)) [AMP; LT; GT; QUOT; APOS] =
  if special c then Some c else None.
Proof.
  destruct (special c) eqn:E.
  - unfold special in E. simpl in E. rewrite !orb_true_iff, !N.eqb_eq in E.
    destruct E as [->|[->|[->|[->|[->|?]]]]]; done.
  - rewrite entity_other by done. cbn [app]. unfold special in E. simpl in E. rewrite !orb_false_iff in E.
    destruct E as (E & _). cbn [find_first]. change (entity AMP) with (AMP :: js "amp;"). change (entity LT) with (AMP :: js "lt;").
    change (entity GT) with (AMP :: js "gt;"). change (entity QUOT) with (AMP :: js "quot;").
    change (entity APOS) with (AMP :: js "apos;"). cbn [starts_with]. by rewrite N.eqb_sym, E.
Qed.

(** Text put into a skill block stays text: escaped, it holds no bracket and no
    quote, and it is read back. *)
Theorem escapeXml_roundtrip s :
  (∀ c, c ∈ escapeXml s → c ∉ [LT; GT; QUOT; APOS]) ∧ unescapeXml (length (escapeXml s)) (escapeXml s) = s.
Proof.
  rewrite escapeXml_flat. split.
  - intros c (x & Hx & Hc)%list_elem_of_In%in_flat_map. apply list_elem_of_In in Hc.
    destruct (special x) eqn:E.
    + unfold special in E. simpl in E. rewrite !orb_true_iff, !N.eqb_eq in E. revert c Hc. apply Forall_forall.
      destruct E as [->|[->|[->|[->|[->|?]]]]]; [..|done]; apply (bool_decide_unpack _); by vm_compute.
    + rewrite entity_other in Hc by done. apply list_elem_of_singleton in Hc as ->.
      unfold special in E. simpl in E. rewrite !orb_false_iff, !N.eqb_neq in E. set_solver.
  - assert (∀ fuel, (length (flat_map entity s) <= fuel)%nat → unescapeXml fuel (flat_map entity s) = s) as H; [|by apply H].
    induction s as [|c s IH]; intros fuel Hf; [by destruct fuel|]. cbn [flat_map] in *.
    pose proof (entity_first c (flat_map entity s)) as He. rewrite length_app in Hf.
    assert (1 <= length (entity c))%nat as Hl by (unfold entity; repeat case_match; simpl; lia).
    destruct fuel as [|fuel]; [lia|]. destruct (entity c ++ flat_map entity s) as [|x t] eqn:Et.
    { destruct (entity c); [simpl in Hl; lia|done]. }
    cbn [unescapeXml]. rewrite He. destruct (special c) eqn:E.
    + rewrite <- Et, drop_app_length. rewrite IH by lia. done.
    + rewrite entity_other in Et by done. injection Et as <- <-. rewrite IH by lia. done.
Qed.

(** ** Arguments *)

Definition quote_arg (a : jstr) : jstr := [QUOT] ++ a ++ [QUOT].

Lemma args_loop_quoted a current rest args :
  QUOT ∉ a → args_loop (a ++ QUOT :: rest) current (Some QUOT) args = args_loop rest (current ++ a) None args.
Proof.
  revert current. induction a as [|c a IH]; intros current H; cbn [app args_loop].
  - rewrite N.eqb_refl. by rewrite app_nil_r.
  - destruct (N.eqb_spec c QUOT) as [->|]; [set_solver|]. rewrite IH by set_solver. by rewrite <- (assoc_L (++)).
Qed.

Lemma args_loop_quotes l acc :
  Forall (λ a, a ≠ [] ∧ QUOT ∉ a) l → args_loop (join (js " ") (map quote_arg l)) [] None acc = acc ++ l.
Proof.
  intros H. revert acc. induction H as [|a l [Ha Hq] _ IH]; intros acc; [by rewrite app_nil_r|].
  destruct l as [|b l].
  - cbn [map join]. unfold quote_arg. cbn [app args_loop]. change (QUOT =? QUOT)%N with true. cbn [orb].
    rewrite args_loop_quoted by done. by destruct a.
  - cbn [map]. rewrite join_cons by done. unfold quote_arg at 1. rewrite <- !(assoc_L (++)). cbn [app args_loop].
    change (QUOT =? QUOT)%N with true. cbn [orb]. rewrite args_loop_quoted by done. change (js " ") with [32%N]. cbn [app args_loop].
    change ((32 =? QUOT)%N || (32 =? APOS)%N) with false. change ((32 =? 32)%N || (32 =? 9)%N) with true. cbn iota.
    destruct a; [done|]. cbn [app truthy]. change [32%N] with (js " "). rewrite IH. by rewrite <- (assoc_L (++)).
Qed.

(** Arguments in double quotes are the arguments, whatever blanks they hold; only
    empty ones and those with the quote itself cannot be given. *)
Theorem parseCommandArgs_quoted l (H : Forall (λ a, a ≠ [] ∧ QUOT ∉ a) l) :
  parseCommandArgs (join (js " ") (map quote_arg l)) = l.
Proof. apply (args_loop_quotes l []), H. Qed.

(** An empty argument is lost. *)
Lemma empty_argument_lost : parseCommandArgs (js "a " ++ [QUOT; QUOT] ++ js " b") = [js "a"; js "b"].
Proof. reflexivity. Qed.

(** ** Templates *)

(** A template as text and placeholders. *)
Inductive token :=
| TText (s : jstr)
| TPosition (digits : jstr)
| TSlice (start : jstr) (length_ : option jstr)
| TArguments
| TAll.
Definition print_token (t : token) : jstr :=
  match t with
  | TText s => s
  | TPosition d => DOLLAR :: d
  | TSlice a l => js "${@:" ++ a ++ match l with Some l => js ":" ++ l | None => [] end ++ js "}"
  | TArguments => js "$ARGUMENTS"
  | TAll => js "$@"
  end.
Definition print_tokens (l : list token) : jstr := flat_map print_token l.
Definition token_value (args : list jstr) (t : token) : jstr :=
  match t with
  | TText s => s
  | TPosition d => nth_arg args (parse_int d)
  | TSlice a l => slice_text args a l
  | TArguments | TAll => join (js " ") args
  end.
Definition digits_ok (d : jstr) : Prop := d ≠ [] ∧ Forall (λ c, is_digit c = true) d.
Definition token_ok (t : token) : Prop :=
  match t with
  | TText s => DOLLAR ∉ s
  | TPosition d => digits_ok d
  | TSlice a l => digits_ok a ∧ match l with Some l => digits_ok l | None => True end
  | _ => True
  end.
(** A position is not followed by another digit. *)
Fixpoint separated (l : list token) : Prop :=
  match l with
  | [] => True
  | t :: l => match t, print_tokens l with TPosition _, c :: _ => is_digit c = false | _, _ => True end ∧ separated l
  end.

(** The four replacements, on tokens. *)
Definition stage (pick : token → bool) (args : list jstr) (t : token) : token :=
  if pick t then TText (token_value args t) else t.
Definition is_position t := match t with TPosition _ => true | _ => false end.
Definition is_slice t := match t with TSlice _ _ => true | _ => false end.
Definition is_arguments t := match t with TArguments => true | _ => false end.
Definition is_all t := match t with TAll => true | _ => false end.

Lemma take_digits_app d rest :
  Forall (λ c, is_digit c = true) d → match rest with c :: _ => is_digit c = false | [] => True end →
  take_digits (d ++ rest) = (d, rest).
Proof.
  intros Hd Hr. induction Hd as [|c d Hc _ IH]; cbn [app].
  - destruct rest as [|c rest]; [done|]. cbn [take_digits]. by rewrite Hr.
  - cbn [take_digits]. rewrite Hc. by rewrite IH.
Qed.

(** Text without a dollar sign is copied. *)
Lemma positions_copy args s t fuel : DOLLAR ∉ s →
  replace_positions (length s + fuel) args (s ++ t) = s ++ replace_positions fuel args t.
Proof.
  induction s as [|c s IH]; intros H; [done|]. cbn [length Nat.add app replace_positions].
  destruct (N.eqb_spec c DOLLAR) as [->|]; [set_solver|]. by rewrite IH by set_solver.
Qed.
Lemma match_slice_not c s : c ≠ DOLLAR → match_slice (c :: s) = None.
Proof.
  intros H. unfold match_slice. change (js "${@:") with (DOLLAR :: js "{@:"). cbn [starts_with].
  by apply not_eq_sym, N.eqb_neq in H as ->.
Qed.
Lemma slices_copy args s t fuel : DOLLAR ∉ s →
  replace_slices (length s + fuel) args (s ++ t) = s ++ replace_slices fuel args t.
Proof.
  induction s as [|c s IH]; intros H; [done|]. cbn [length Nat.add app replace_slices].
  rewrite match_slice_not by set_solver. by rewrite IH by set_solver.
Qed.
Lemma literal_copy l r before s t fuel : DOLLAR ∉ s →
  replace_literal (length s + fuel) (DOLLAR :: l) r before (s ++ t) = s ++ replace_literal fuel (DOLLAR :: l) r (before ++ s) t.
Proof.
  revert before. induction s as [|c s IH]; intros before H; [by rewrite app_nil_r|].
  cbn [length Nat.add app replace_literal starts_with].
  assert (DOLLAR ≠ c) as Hc by set_solver. apply N.eqb_neq in Hc as ->. cbn [andb].
  rewrite IH by set_solver. by rewrite <- (assoc_L (++)).
Qed.
Lemma expand_plain r m b a : DOLLAR ∉ r → expand r m b a = r.
Proof.
  induction r as [|c r IH]; intros H; [done|]. cbn [expand]. destruct r as [|d r]; [done|].
  destruct (N.eqb_spec c DOLLAR) as [->|]; [set_solver|]. by rewrite IH by set_solver.
Qed.

Lemma digits_plain d : digits_ok d → DOLLAR ∉ d.
Proof. intros [_ H] Hd. rewrite Forall_forall in H. by apply H in Hd. Qed.

(** The text of a token after its dollar sign. *)
Definition token_tail (t : token) : jstr := match t with TText _ => [] | _ => drop 1 (print_token t) end.
Lemma print_token_tail t : match t with TText _ => True | _ => print_token t = DOLLAR :: token_tail t end.
Proof. by destruct t. Qed.
Lemma token_tail_plain t : token_ok t → DOLLAR ∉ token_tail t.
Proof.
  destruct t as [s|d|a l| |]; cbn [token_ok token_tail print_token]; intros H; try (apply (bool_decide_unpack _); by vm_compute).
  - by apply digits_plain.
  - destruct H as [Ha Hl]. change (drop 1 (js "${@:" ++ ?x)) with (js "{@:" ++ x). rewrite !not_elem_of_app.
    split_and!; [apply (bool_decide_unpack _); by vm_compute|by apply digits_plain| |apply (bool_decide_unpack _); by vm_compute].
    destruct l as [l|]; [|apply not_elem_of_nil]. rewrite not_elem_of_app.
    split; [apply (bool_decide_unpack _); by vm_compute|by apply digits_plain].
Qed.

Lemma print_cons t l : print_tokens (t :: l) = print_token t ++ print_tokens l.
Proof. done. Qed.

Lemma split_fuel (fuel n m : nat) : (n + m <= fuel)%nat → ∃ f, fuel = (n + f)%nat ∧ (m <= f)%nat.
Proof. intros. exists (fuel - n)%nat. lia. Qed.

(** Other tokens are copied, since the scan does not match at their dollar sign. *)
Lemma positions_other args t rest fuel :
  token_ok t → is_position t = false →
  replace_positions (length (print_token t) + fuel) args (print_token t ++ rest) =
  print_token t ++ replace_positions fuel args rest.
Proof.
  intros Ht Hp. pose proof (token_tail_plain t Ht) as Htail. destruct t as [s|d|a o| |]; [by apply positions_copy|done|..];
    match goal with |- context [print_token ?t] =>
      change (print_token t) with (DOLLAR :: token_tail t);
      cbn [length Nat.add app replace_positions]; change (DOLLAR =? DOLLAR)%N with true; cbn iota;
      change (take_digits (token_tail t ++ rest)) with (@nil N, token_tail t ++ rest); cbn iota end;
    by rewrite positions_copy.
Qed.

(** A stage that replaces the tokens it picks and copies the others. *)
Lemma stage_spec (f : nat → jstr → jstr) pick args l fuel :
  (∀ n, f n [] = []) →
  (∀ t rest n, t ∈ l → token_ok t → pick t = false → f (length (print_token t) + n)%nat (print_token t ++ rest) = print_token t ++ f n rest) →
  (∀ t l' n, t ∈ l → token_ok t → pick t = true → separated (t :: l') → (length (print_token t) + length (print_tokens l') <= n)%nat →
     ∃ m, (length (print_tokens l') <= m)%nat ∧ f n (print_token t ++ print_tokens l') = token_value args t ++ f m (print_tokens l')) →
  Forall token_ok l → separated l → (length (print_tokens l) <= fuel)%nat →
  f fuel (print_tokens l) = print_tokens (map (stage pick args) l).
Proof.
  intros Hnil Hcopy Hpick H. revert fuel. induction H as [|t l Ht _ IH]; intros fuel Hs Hf; [apply Hnil|].
  pose proof Hs as [_ Hs2]. rewrite print_cons in *. cbn [map]. rewrite print_cons. rewrite length_app in Hf.
  assert (∀ fuel, (length (print_tokens l) <= fuel)%nat → f fuel (print_tokens l) = print_tokens (map (stage pick args) l)) as Hrec.
  { intros g Hg. apply IH; [intros t' l' n Hin; apply Hcopy; by right|intros t' l' n Hin; apply Hpick; by right|done|done]. }
  unfold stage at 1. destruct (pick t) eqn:E.
  - destruct (Hpick t l fuel) as (m & Hm & ->); [by left|done..|]. cbn [print_token]. by rewrite Hrec.
  - apply split_fuel in Hf as (g & -> & Hg). rewrite Hcopy; [by rewrite Hrec|by left|done|done].
Qed.

Lemma stage_positions args l fuel :
  Forall token_ok l → separated l → (length (print_tokens l) <= fuel)%nat →
  replace_positions fuel args (print_tokens l) = print_tokens (map (stage is_position args) l).
Proof.
  apply (stage_spec (λ n, replace_positions n args)); [by intros [|]|intros; by apply positions_other|].
  intros t l' n _ Ht Hp [Hs _] Hn. destruct t as [|d| | |]; try done. destruct Ht as [Hne Hd]. cbn [print_token length] in Hn.
  destruct n as [|n]; [lia|]. exists n. split; [lia|]. cbn [print_token app replace_positions].
  change (DOLLAR =? DOLLAR)%N with true. cbn iota. rewrite take_digits_app by done. by destruct d.
Qed.

Lemma match_slice_token a o rest :
  digits_ok a → match o with Some l => digits_ok l | None => True end →
  match_slice (print_token (TSlice a o) ++ rest) = Some (a, o, rest).
Proof.
  intros [Ha1 Ha2] Ho. unfold match_slice. cbn [print_token]. rewrite <- !(assoc_L (++)).
  change (starts_with (js "${@:") (js "${@:" ++ ?x)) with true. cbn iota. change (drop 4 (js "${@:" ++ ?x)) with x.
  destruct o as [l|].
  - rewrite <- (assoc_L (++)). rewrite take_digits_app by done. destruct a as [|c a]; [done|].
    change (js ":" ++ ?x) with (58%N :: x). cbn iota. destruct Ho as [Hl1 Hl2]. rewrite take_digits_app by done.
    by destruct l.
  - cbn [app]. rewrite take_digits_app by done. by destruct a.
Qed.

Lemma slices_other args t rest fuel :
  token_ok t → is_slice t = false → is_position t = false →
  replace_slices (length (print_token t) + fuel) args (print_token t ++ rest) = print_token t ++ replace_slices fuel args rest.
Proof.
  intros Ht Hp Hp'. pose proof (token_tail_plain t Ht) as Htail. destruct t as [s|d|a o| |]; [by apply slices_copy|done|done|..];
    match goal with |- context [print_token ?t] =>
      change (print_token t) with (DOLLAR :: token_tail t);
      cbn [length Nat.add app replace_slices];
      change (match_slice (DOLLAR :: token_tail t ++ rest)) with (@None (jstr * option jstr * jstr)); cbn iota end;
    by rewrite slices_copy.
Qed.

(** Without positions nothing need be separated. *)
Definition no_position (l : list token) : Prop := Forall (λ t, is_position t = false) l.
Lemma no_position_separated l : no_position l → separated l.
Proof. induction 1 as [|t l Ht _ IH]; [done|]. split; [by destruct t|done]. Qed.

Lemma stage_slices args l fuel :
  no_position l → Forall token_ok l → (length (print_tokens l) <= fuel)%nat →
  replace_slices fuel args (print_tokens l) = print_tokens (map (stage is_slice args) l).
Proof.
  intros Hp Ht. apply (stage_spec (λ n, replace_slices n args)); [by intros [|]| | |done|by apply no_position_separated].
  - intros t rest n Hin Hok Hs. apply slices_other; [done|done|]. by eapply Forall_forall in Hin; [|exact Hp].
  - intros t l' n _ Hok Hs _ Hn. destruct t as [| |a o| |]; try done. destruct Hok as [Ha Ho].
    pose proof (match_slice_token a o (print_tokens l') Ha Ho) as Hm. cbn [token_value].
    change (print_token (TSlice a o)) with (DOLLAR :: token_tail (TSlice a o)) in *. cbn [length app] in *.
    destruct n as [|n]; [lia|]. exists n. split; [lia|]. cbn [replace_slices]. by rewrite Hm.
Qed.

(** A replacement without dollar signs does not look at the text around it. *)
Lemma literal_before l r b b' s fuel : DOLLAR ∉ r → replace_literal fuel l r b s = replace_literal fuel l r b' s.
Proof.
  intros Hr. revert b b' s. induction fuel as [|fuel IH]; intros b b' s; [done|]. destruct s as [|c s]; [done|].
  cbn [replace_literal]. rewrite !expand_plain by done. destruct (starts_with l (c :: s)); f_equal; apply IH.
Qed.

(** The stage of a placeholder that is one literal. *)
Lemma stage_literal (tok : token) args l fuel :
  tok ∈ [TArguments; TAll] → DOLLAR ∉ join (js " ") args →
  Forall (λ t, t ∈ [TArguments; TAll] ∨ ∃ s, t = TText s) l → Forall token_ok l → (length (print_tokens l) <= fuel)%nat →
  replace_literal fuel (print_token tok) (join (js " ") args) [] (print_tokens l) =
  print_tokens (map (stage (match tok with TArguments => is_arguments | _ => is_all end) args) l).
Proof.
  intros Htok Hr Hl Ht.
  assert (separated l) as Hs.
  { apply no_position_separated. eapply Forall_impl; [exact Hl|]. intros t [[->|[->|[]%elem_of_nil]%elem_of_cons]%elem_of_cons|[s ->]]; done. }
  apply (stage_spec (λ n, replace_literal n (print_token tok) (join (js " ") args) [])); [by intros [|]| | |done|done].
  - intros t rest n Hin Hok Hpick. eapply Forall_forall in Hin; [|exact Hl].
    assert (∃ m, print_token tok = DOLLAR :: m) as [m Hm].
    { revert Htok. intros [->|[->|[]%elem_of_nil]%elem_of_cons]%elem_of_cons; by eexists. }
    destruct Hin as [Hin|[s ->]].
    2:{ rewrite Hm. cbn [print_token]. rewrite literal_copy by done. f_equal. by apply literal_before. }
    assert (token_tail t = [] ∨ DOLLAR ∉ token_tail t) as [?|Hq] by (right; by apply token_tail_plain).
    { revert Hin. by intros [->|[->|[]%elem_of_nil]%elem_of_cons]%elem_of_cons. }
    assert (starts_with (print_token tok) (print_token t ++ rest) = false) as Hno.
    { revert Htok Hin Hpick. by intros [->|[->|[]%elem_of_nil]%elem_of_cons]%elem_of_cons
        [->|[->|[]%elem_of_nil]%elem_of_cons]%elem_of_cons. }
    assert (print_token t = DOLLAR :: token_tail t) as Hp.
    { revert Hin. by intros [->|[->|[]%elem_of_nil]%elem_of_cons]%elem_of_cons. }
    rewrite Hp in *. cbn [length Nat.add app replace_literal] in *. rewrite Hno. rewrite Hm. rewrite literal_copy by done.
    do 2 f_equal. by apply literal_before.
  - intros t l' n _ Hok Hpick _ Hn.
    assert (t = tok) as ->.
    { revert Htok Hpick. by intros [->|[->|[]%elem_of_nil]%elem_of_cons]%elem_of_cons; destruct t. }
    assert (∃ m, print_token tok = DOLLAR :: m) as [m Hm].
    { revert Htok. intros [->|[->|[]%elem_of_nil]%elem_of_cons]%elem_of_cons; by eexists. }
    assert (token_value args tok = join (js " ") args) as ->.
    { revert Htok. by intros [->|[->|[]%elem_of_nil]%elem_of_cons]%elem_of_cons. }
    assert (starts_with (print_token tok) (print_token tok ++ print_tokens l') = true) as Hyes.
    { revert Htok. by intros [->|[->|[]%elem_of_nil]%elem_of_cons]%elem_of_cons. }
    rewrite Hm in *. cbn [length app] in *. destruct n as [|n]; [lia|]. exists n. split; [lia|].
    cbn [replace_literal]. rewrite Hyes, expand_plain by done. f_equal.
    change (drop (length (DOLLAR :: m)) (DOLLAR :: m ++ print_tokens l')) with (drop (length m) (m ++ print_tokens l')).
    rewrite drop_app_length. by apply literal_before.
Qed.

(** Values of plain arguments are plain. *)
Lemma join_plain sep args : DOLLAR ∉ sep → Forall (λ a, DOLLAR ∉ a) args → DOLLAR ∉ join sep args.
Proof.
  intros Hs. induction 1 as [|a l Ha Hl IH]; [apply not_elem_of_nil|]. destruct l as [|b l]; [done|].
  rewrite join_cons by done. rewrite !not_elem_of_app. done.
Qed.
Lemma value_plain args t : Forall (λ a, DOLLAR ∉ a) args → token_ok t → DOLLAR ∉ token_value args t.
Proof.
  intros Ha Ht. assert (DOLLAR ∉ js " ") as Hb by (apply (bool_decide_unpack _); by vm_compute).
  destruct t as [s|d|a o| |]; cbn [token_value]; [done| | |by apply join_plain..].
  - unfold nth_arg. destruct (_ =? 0)%N; [apply not_elem_of_nil|].
    destruct (nth_in_or_default (N.to_nat (N.min (parse_int d) (N.of_nat (S (length args))) - 1)) args []) as [H%list_elem_of_In| ->];
      [by eapply Forall_forall in H; [|exact Ha]|apply not_elem_of_nil].
  - unfold slice_text, slice_args. apply join_plain; [done|]. destruct (parse_int <$> o); [apply Forall_take|]; by apply Forall_drop.
Qed.

Lemma stage_ok pick args l : Forall (λ a, DOLLAR ∉ a) args → Forall token_ok l → Forall token_ok (map (stage pick args) l).
Proof.
  intros Ha. induction 1 as [|t l Ht _ IH]; constructor; [|done]. unfold stage. destruct (pick t); [by apply value_plain|done].
Qed.

(** The four stages leave text only. *)
Lemma stages_value args t :
  stage is_all args (stage is_arguments args (stage is_slice args (stage is_position args t))) = TText (token_value args t).
Proof. by destruct t. Qed.

(** In a template every placeholder stands for what it names: [$n] for the n-th
    argument, [${@:n:k}] for k arguments from the n-th on, [$ARGUMENTS] and [$@] for all
    of them; the text around stays. The arguments hold no dollar sign. *)
Theorem substituteArgs_tokens l args
  (Hok : Forall token_ok l) (Hsep : separated l) (Ha : Forall (λ a, DOLLAR ∉ a) args) :
  substituteArgs (print_tokens l) args = flat_map (token_value args) l.
Proof.
  assert (DOLLAR ∉ join (js " ") args) as Hj by (apply join_plain; [apply (bool_decide_unpack _); by vm_compute|done]).
  unfold substituteArgs. rewrite stage_positions by done. cbv zeta.
  set (l1 := map (stage is_position args) l). assert (Forall token_ok l1) as H1 by by apply stage_ok.
  rewrite stage_slices; [|apply Forall_map, Forall_forall; intros [] _; done|done|done].
  set (l2 := map (stage is_slice args) l1). assert (Forall token_ok l2) as H2 by by apply stage_ok.
  change (js "$ARGUMENTS") with (print_token TArguments). change (js "$@") with (print_token TAll).
  assert (Forall (λ t, t ∈ [TArguments; TAll] ∨ ∃ s, t = TText s) l2) as H3.
  { unfold l2, l1. rewrite map_map. apply Forall_map, Forall_forall. intros [] _; cbn; eauto; left; set_solver. }
  rewrite (stage_literal TArguments); [|set_solver|done..].
  rewrite (stage_literal TAll); [|set_solver|done| |by apply stage_ok|done].
  2:{ apply Forall_map. eapply Forall_impl; [exact H3|]. intros t [Ht|[s ->]]; cbn; [|eauto]. unfold stage.
      destruct (is_arguments t); eauto. }
  unfold l2, l1. rewrite !map_map. clear. induction l as [|t l IH]; [done|]. cbn [map]. rewrite print_cons, stages_value.
  cbn [print_token flat_map]. by rewrite IH.
Qed.

Definition sample_tokens : list token :=
  [TText (js "fix "); TPosition (js "1"); TText (js " in "); TSlice (js "2") (Some (js "1")); TAll; TText (js "; "); TArguments].
Lemma substituteArgs_tokens_witness :
  print_tokens sample_tokens = js "fix $1 in ${@:2:1}$@; $ARGUMENTS" ∧
  substituteArgs (print_tokens sample_tokens) [js "x"; js "y"] = js "fix x in yx y; x y".
Proof.
  split; [reflexivity|]. rewrite (substituteArgs_tokens sample_tokens [js "x"; js "y"]).
  - reflexivity.
  - repeat constructor; try done; apply (bool_decide_unpack _); by vm_compute.
  - by vm_compute.
  - repeat constructor; apply (bool_decide_unpack _); by vm_compute.
Defined.

Lemma parseCommandArgs_quoted_witness :
  parseCommandArgs ([QUOT] ++ js "a b" ++ [QUOT] ++ js " " ++ [QUOT] ++ js "c" ++ [QUOT]) = [js "a b"; js "c"].
Proof.
  change ([QUOT] ++ js "a b" ++ [QUOT] ++ js " " ++ [QUOT] ++ js "c" ++ [QUOT]) with (join (js " ") (map quote_arg [js "a b"; js "c"])).
  apply parseCommandArgs_quoted. repeat constructor; try done; apply (bool_decide_unpack _); by vm_compute.
Defined.

(** [$$] in an argument becomes [$] where all arguments are inserted, but not in [$1]. *)
Lemma dollar_expanded :
  substituteArgs (js "$1|$@") [js "a$$b"] = js "a$$b|a$b" ∧ substituteArgs (js "$@") [js "a$&b"] = js "a$@b".
Proof. split; reflexivity. Qed.

(** An argument that holds a placeholder is substituted again. *)
Lemma argument_substituted : substituteArgs (js "$1") [js "$@"; js "x"] = js "$@ x".
Proof. reflexivity. Qed.
