(* ===== verification/Harness.v ===== *)
(** * The agent harness

    packages/harness/src/harness/agent-harness.ts: the layer above the agent loop
    that owns the session, the queues, the configuration and the registered
    handlers. An operation is a computation over a [World]: the state of the
    harness, the storage of the session, the world of the embedder, and two heaps,
    of the runs (whose abort signal and current turn state closures share) and of
    the promises runs settle. Handlers and tools are references that the class
    [HarnessEnv] interprets, since they close over the world; listeners and hooks
    may call any operation of this file. An [await] that never settles is the
    exception [ENever], which nothing catches. *)

From S2P Require Import Prelude JsMap JsString Json Messages SessionTree Session Checkpoint PortableCheckpoint CompactionText CutPoint Compaction BranchSummary AgentLoop Agent Prompts.
From Stdlib Require Import Lia.

Set Default Goal Selector "!".

(** ** Errors *)

Inductive HarnessErrorCode :=
| Busy | InvalidState | InvalidArgument | SessionFailed | HookFailed | AuthFailed | CompactionFailed
| BranchSummaryFailed | UnknownFailed.
#[export] Instance HarnessErrorCode_eq_dec : EqDecision HarnessErrorCode.
Proof. solve_decision. Defined.

(** What may be thrown, by the class of the error object. *)
Inductive Exn :=
| EHarness (code : HarnessErrorCode) (message : jstr)
| ESession (e : SessionError)
| ECompactionError (e : CompactionError)
| EBranchSummaryError (e : BranchSummaryError)
| EOther (message : jstr)
| ENever.

Definition compaction_message (e : CompactionError) : jstr :=
  match e with CompactionAborted m | SummarizationFailed m | CompactionInvalidSession m => m end.
Definition branch_message_of (e : BranchSummaryError) : jstr :=
  match e with BranchSummaryAborted m | BranchSummarizationFailed m => m end.

(** ** Data *)

Inductive HarnessPhase := Idle | Turn | Compacting | Summarizing | Retry.
#[export] Instance HarnessPhase_eq_dec : EqDecision HarnessPhase.
Proof. solve_decision. Defined.

Record HarnessModel := { hm_loop : LoopModel; hm_limits : Model }.

Record StreamOptions := {
  so_maxTokens : option Z; so_transport : option jstr; so_timeoutMs : option Z;
  so_maxRetries : option Z; so_maxRetryDelayMs : option Z;
  so_headers : option (list (jstr * jstr)); so_metadata : option (list (jstr * json));
  so_cacheRetention : option jstr;
}.
(** An absent member is [None], one that is [undefined] is [Some None]. *)
Record StreamOptionsPatch := {
  sp_maxTokens : option (option Z); sp_transport : option (option jstr); sp_timeoutMs : option (option Z);
  sp_maxRetries : option (option Z); sp_maxRetryDelayMs : option (option Z);
  sp_headers : option (option (list (jstr * option jstr)));
  sp_metadata : option (option (list (jstr * option json)));
  sp_cacheRetention : option (option jstr);
}.

Record Resources := { rs_skills : option (list Skill); rs_promptTemplates : option (list PromptTemplate) }.

(** The constant text, or the callback that computes one. *)
Inductive SystemPrompt := SystemText (s : jstr) | SystemCallback.

(** An entry without id, parent and timestamp. *)
Definition PendingSessionWrite : Type := EntryData.

(** A tool and its name; a handler. *)
Record ToolRef := { tref_name : jstr; tref_id : nat }.
Abbreviation HandlerId := nat.

Inductive Trigger := Manual | Auto.

Inductive HarnessEvent :=
| LoopEvent (e : AgentEvent)
| QueueUpdate (steer followUp nextTurn : list AgentMessage)
| SavePoint (hadPendingMutations : bool)
| AbortEvent (clearedSteer clearedFollowUp : list AgentMessage)
| Settled (nextTurnCount : nat)
| AfterProviderResponse (status : Z) (headers : list (jstr * jstr))
| SessionCompact (compactionEntry : Entry) (fromHook : bool) (trigger : Trigger)
| SessionTreeEvent (newLeafId oldLeafId : option jstr) (summaryEntry : option Entry) (fromHook : bool)
| ModelUpdate (model previousModel : HarnessModel)
| ThinkingLevelUpdate (level previousLevel : jstr)
| ToolsUpdate (toolNames previousToolNames activeToolNames previousActiveToolNames : list jstr)
| ResourcesUpdate (resources previousResources : Resources).

Record BeforeAgentStartResult := {
  bas_messages : option (list AgentMessage); bas_systemPrompt : option jstr;
}.
Record SessionBeforeCompactResult := { bcr_cancel : bool; bcr_compaction : option CompactionResult }.
Record TreePreparation := {
  tp_targetId : jstr; tp_oldLeafId : option jstr; tp_commonAncestorId : option jstr;
  tp_entriesToSummarize : list Entry; tp_userWantsSummary : bool; tp_customInstructions : option jstr;
  tp_replaceInstructions : option bool; tp_label : option jstr;
}.
Record SessionBeforeTreeResult := {
  btr_cancel : bool; btr_summary : option (jstr * option json); btr_customInstructions : option jstr;
  btr_replaceInstructions : option bool; btr_label : option jstr;
}.
Record NavigateOptions := {
  nav_summarize : option bool; nav_customInstructions : option jstr; nav_replaceInstructions : option bool;
  nav_label : option jstr;
}.
Record NavigateTreeResult := {
  nr_cancelled : bool; nr_editorText : option jstr; nr_summaryEntry : option Entry;
}.
Record AbortResult := { ab_clearedSteer : list AgentMessage; ab_clearedFollowUp : list AgentMessage }.

(** The snapshot of one turn. *)
Record TurnState := {
  ts_messages : list AgentMessage; ts_resources : Resources; ts_streamOptions : StreamOptions;
  ts_sessionId : jstr; ts_systemPrompt : jstr; ts_model : HarnessModel; ts_thinkingLevel : jstr;
  ts_tools : list ToolRef; ts_activeTools : list ToolRef;
}.

(** The state of the harness; the members of [handlers] are numbered by [stamp] in
    the order in which they are added, and [epoch] counts how often [abort] has
    replaced the arrays of the steering and follow-up queues. *)
Record HarnessState := {
  h_phase : HarnessPhase;
  h_runAbortController : option nat;
  h_runPromise : option nat;
  h_pendingSessionWrites : list PendingSessionWrite;
  h_model : HarnessModel;
  h_thinkingLevel : jstr;
  h_systemPrompt : option SystemPrompt;
  h_streamOptions : StreamOptions;
  h_resources : Resources;
  h_tools : list (jstr * ToolRef);
  h_activeToolNames : list jstr;
  h_steerQueue : list AgentMessage;
  h_steeringQueueMode : QueueMode;
  h_followUpQueue : list AgentMessage;
  h_followUpQueueMode : QueueMode;
  h_nextTurnQueue : list AgentMessage;
  h_compactionSettings : CompactionSettings;
  h_handlers : list (jstr * list (nat * HandlerId));
  h_stamp : nat;
  h_epoch : nat;
}.

Definition set_phase (x : HarnessPhase) (h : HarnessState) : HarnessState :=
  {| h_phase := x; h_runAbortController := h_runAbortController h; h_runPromise := h_runPromise h;
     h_pendingSessionWrites := h_pendingSessionWrites h; h_model := h_model h;
     h_thinkingLevel := h_thinkingLevel h; h_systemPrompt := h_systemPrompt h;
     h_streamOptions := h_streamOptions h; h_resources := h_resources h; h_tools := h_tools h;
     h_activeToolNames := h_activeToolNames h; h_steerQueue := h_steerQueue h;
     h_steeringQueueMode := h_steeringQueueMode h; h_followUpQueue := h_followUpQueue h;
     h_followUpQueueMode := h_followUpQueueMode h; h_nextTurnQueue := h_nextTurnQueue h;
     h_compactionSettings := h_compactionSettings h; h_handlers := h_handlers h; h_stamp := h_stamp h;
     h_epoch := h_epoch h |}.
Definition set_controller (x : option nat) (h : HarnessState) : HarnessState :=
  {| h_phase := h_phase h; h_runAbortController := x; h_runPromise := h_runPromise h;
     h_pendingSessionWrites := h_pendingSessionWrites h; h_model := h_model h;
     h_thinkingLevel := h_thinkingLevel h; h_systemPrompt := h_systemPrompt h;
     h_streamOptions := h_streamOptions h; h_resources := h_resources h; h_tools := h_tools h;
     h_activeToolNames := h_activeToolNames h; h_steerQueue := h_steerQueue h;
     h_steeringQueueMode := h_steeringQueueMode h; h_followUpQueue := h_followUpQueue h;
     h_followUpQueueMode := h_followUpQueueMode h; h_nextTurnQueue := h_nextTurnQueue h;
     h_compactionSettings := h_compactionSettings h; h_handlers := h_handlers h; h_stamp := h_stamp h;
     h_epoch := h_epoch h |}.
Definition set_promise (x : option nat) (h : HarnessState) : HarnessState :=
  {| h_phase := h_phase h; h_runAbortController := h_runAbortController h; h_runPromise := x;
     h_pendingSessionWrites := h_pendingSessionWrites h; h_model := h_model h;
     h_thinkingLevel := h_thinkingLevel h; h_systemPrompt := h_systemPrompt h;
     h_streamOptions := h_streamOptions h; h_resources := h_resources h; h_tools := h_tools h;
     h_activeToolNames := h_activeToolNames h; h_steerQueue := h_steerQueue h;
     h_steeringQueueMode := h_steeringQueueMode h; h_followUpQueue := h_followUpQueue h;
     h_followUpQueueMode := h_followUpQueueMode h; h_nextTurnQueue := h_nextTurnQueue h;
     h_compactionSettings := h_compactionSettings h; h_handlers := h_handlers h; h_stamp := h_stamp h;
     h_epoch := h_epoch h |}.
Definition set_writes (x : list PendingSessionWrite) (h : HarnessState) : HarnessState :=
  {| h_phase := h_phase h; h_runAbortController := h_runAbortController h; h_runPromise := h_runPromise h;
     h_pendingSessionWrites := x; h_model := h_model h; h_thinkingLevel := h_thinkingLevel h;
     h_systemPrompt := h_systemPrompt h; h_streamOptions := h_streamOptions h; h_resources := h_resources h;
     h_tools := h_tools h; h_activeToolNames := h_activeToolNames h; h_steerQueue := h_steerQueue h;
     h_steeringQueueMode := h_steeringQueueMode h; h_followUpQueue := h_followUpQueue h;
     h_followUpQueueMode := h_followUpQueueMode h; h_nextTurnQueue := h_nextTurnQueue h;
     h_compactionSettings := h_compactionSettings h; h_handlers := h_handlers h; h_stamp := h_stamp h;
     h_epoch := h_epoch h |}.
Definition set_model (x : HarnessModel) (h : HarnessState) : HarnessState :=
  {| h_phase := h_phase h; h_runAbortController := h_runAbortController h; h_runPromise := h_runPromise h;
     h_pendingSessionWrites := h_pendingSessionWrites h; h_model := x; h_thinkingLevel := h_thinkingLevel h;
     h_systemPrompt := h_systemPrompt h; h_streamOptions := h_streamOptions h; h_resources := h_resources h;
     h_tools := h_tools h; h_activeToolNames := h_activeToolNames h; h_steerQueue := h_steerQueue h;
     h_steeringQueueMode := h_steeringQueueMode h; h_followUpQueue := h_followUpQueue h;
     h_followUpQueueMode := h_followUpQueueMode h; h_nextTurnQueue := h_nextTurnQueue h;
     h_compactionSettings := h_compactionSettings h; h_handlers := h_handlers h; h_stamp := h_stamp h;
     h_epoch := h_epoch h |}.
Definition set_thinking (x : jstr) (h : HarnessState) : HarnessState :=
  {| h_phase := h_phase h; h_runAbortController := h_runAbortController h; h_runPromise := h_runPromise h;
     h_pendingSessionWrites := h_pendingSessionWrites h; h_model := h_model h; h_thinkingLevel := x;
     h_systemPrompt := h_systemPrompt h; h_streamOptions := h_streamOptions h; h_resources := h_resources h;
     h_tools := h_tools h; h_activeToolNames := h_activeToolNames h; h_steerQueue := h_steerQueue h;
     h_steeringQueueMode := h_steeringQueueMode h; h_followUpQueue := h_followUpQueue h;
     h_followUpQueueMode := h_followUpQueueMode h; h_nextTurnQueue := h_nextTurnQueue h;
     h_compactionSettings := h_compactionSettings h; h_handlers := h_handlers h; h_stamp := h_stamp h;
     h_epoch := h_epoch h |}.
Definition set_stream (x : StreamOptions) (h : HarnessState) : HarnessState :=
  {| h_phase := h_phase h; h_runAbortController := h_runAbortController h; h_runPromise := h_runPromise h;
     h_pendingSessionWrites := h_pendingSessionWrites h; h_model := h_model h;
     h_thinkingLevel := h_thinkingLevel h; h_systemPrompt := h_systemPrompt h; h_streamOptions := x;
     h_resources := h_resources h; h_tools := h_tools h; h_activeToolNames := h_activeToolNames h;
     h_steerQueue := h_steerQueue h; h_steeringQueueMode := h_steeringQueueMode h;
     h_followUpQueue := h_followUpQueue h; h_followUpQueueMode := h_followUpQueueMode h;
     h_nextTurnQueue := h_nextTurnQueue h; h_compactionSettings := h_compactionSettings h;
     h_handlers := h_handlers h; h_stamp := h_stamp h; h_epoch := h_epoch h |}.
Definition set_resources (x : Resources) (h : HarnessState) : HarnessState :=
  {| h_phase := h_phase h; h_runAbortController := h_runAbortController h; h_runPromise := h_runPromise h;
     h_pendingSessionWrites := h_pendingSessionWrites h; h_model := h_model h;
     h_thinkingLevel := h_thinkingLevel h; h_systemPrompt := h_systemPrompt h;
     h_streamOptions := h_streamOptions h; h_resources := x; h_tools := h_tools h;
     h_activeToolNames := h_activeToolNames h; h_steerQueue := h_steerQueue h;
     h_steeringQueueMode := h_steeringQueueMode h; h_followUpQueue := h_followUpQueue h;
     h_followUpQueueMode := h_followUpQueueMode h; h_nextTurnQueue := h_nextTurnQueue h;
     h_compactionSettings := h_compactionSettings h; h_handlers := h_handlers h; h_stamp := h_stamp h;
     h_epoch := h_epoch h |}.
Definition set_tools (x0 : list (jstr * ToolRef)) (x1 : list jstr) (h : HarnessState) : HarnessState :=
  {| h_phase := h_phase h; h_runAbortController := h_runAbortController h; h_runPromise := h_runPromise h;
     h_pendingSessionWrites := h_pendingSessionWrites h; h_model := h_model h;
     h_thinkingLevel := h_thinkingLevel h; h_systemPrompt := h_systemPrompt h;
     h_streamOptions := h_streamOptions h; h_resources := h_resources h; h_tools := x0;
     h_activeToolNames := x1; h_steerQueue := h_steerQueue h; h_steeringQueueMode := h_steeringQueueMode h;
     h_followUpQueue := h_followUpQueue h; h_followUpQueueMode := h_followUpQueueMode h;
     h_nextTurnQueue := h_nextTurnQueue h; h_compactionSettings := h_compactionSettings h;
     h_handlers := h_handlers h; h_stamp := h_stamp h; h_epoch := h_epoch h |}.
Definition set_steer (x : list AgentMessage) (h : HarnessState) : HarnessState :=
  {| h_phase := h_phase h; h_runAbortController := h_runAbortController h; h_runPromise := h_runPromise h;
     h_pendingSessionWrites := h_pendingSessionWrites h; h_model := h_model h;
     h_thinkingLevel := h_thinkingLevel h; h_systemPrompt := h_systemPrompt h;
     h_streamOptions := h_streamOptions h; h_resources := h_resources h; h_tools := h_tools h;
     h_activeToolNames := h_activeToolNames h; h_steerQueue := x; h_steeringQueueMode := h_steeringQueueMode h;
     h_followUpQueue := h_followUpQueue h; h_followUpQueueMode := h_followUpQueueMode h;
     h_nextTurnQueue := h_nextTurnQueue h; h_compactionSettings := h_compactionSettings h;
     h_handlers := h_handlers h; h_stamp := h_stamp h; h_epoch := h_epoch h |}.
Definition set_steer_mode (x : QueueMode) (h : HarnessState) : HarnessState :=
  {| h_phase := h_phase h; h_runAbortController := h_runAbortController h; h_runPromise := h_runPromise h;
     h_pendingSessionWrites := h_pendingSessionWrites h; h_model := h_model h;
     h_thinkingLevel := h_thinkingLevel h; h_systemPrompt := h_systemPrompt h;
     h_streamOptions := h_streamOptions h; h_resources := h_resources h; h_tools := h_tools h;
     h_activeToolNames := h_activeToolNames h; h_steerQueue := h_steerQueue h; h_steeringQueueMode := x;
     h_followUpQueue := h_followUpQueue h; h_followUpQueueMode := h_followUpQueueMode h;
     h_nextTurnQueue := h_nextTurnQueue h; h_compactionSettings := h_compactionSettings h;
     h_handlers := h_handlers h; h_stamp := h_stamp h; h_epoch := h_epoch h |}.
Definition set_follow (x : list AgentMessage) (h : HarnessState) : HarnessState :=
  {| h_phase := h_phase h; h_runAbortController := h_runAbortController h; h_runPromise := h_runPromise h;
     h_pendingSessionWrites := h_pendingSessionWrites h; h_model := h_model h;
     h_thinkingLevel := h_thinkingLevel h; h_systemPrompt := h_systemPrompt h;
     h_streamOptions := h_streamOptions h; h_resources := h_resources h; h_tools := h_tools h;
     h_activeToolNames := h_activeToolNames h; h_steerQueue := h_steerQueue h;
     h_steeringQueueMode := h_steeringQueueMode h; h_followUpQueue := x;
     h_followUpQueueMode := h_followUpQueueMode h; h_nextTurnQueue := h_nextTurnQueue h;
     h_compactionSettings := h_compactionSettings h; h_handlers := h_handlers h; h_stamp := h_stamp h;
     h_epoch := h_epoch h |}.
Definition set_follow_mode (x : QueueMode) (h : HarnessState) : HarnessState :=
  {| h_phase := h_phase h; h_runAbortController := h_runAbortController h; h_runPromise := h_runPromise h;
     h_pendingSessionWrites := h_pendingSessionWrites h; h_model := h_model h;
     h_thinkingLevel := h_thinkingLevel h; h_systemPrompt := h_systemPrompt h;
     h_streamOptions := h_streamOptions h; h_resources := h_resources h; h_tools := h_tools h;
     h_activeToolNames := h_activeToolNames h; h_steerQueue := h_steerQueue h;
     h_steeringQueueMode := h_steeringQueueMode h; h_followUpQueue := h_followUpQueue h;
     h_followUpQueueMode := x; h_nextTurnQueue := h_nextTurnQueue h;
     h_compactionSettings := h_compactionSettings h; h_handlers := h_handlers h; h_stamp := h_stamp h;
     h_epoch := h_epoch h |}.
Definition set_next (x : list AgentMessage) (h : HarnessState) : HarnessState :=
  {| h_phase := h_phase h; h_runAbortController := h_runAbortController h; h_runPromise := h_runPromise h;
     h_pendingSessionWrites := h_pendingSessionWrites h; h_model := h_model h;
     h_thinkingLevel := h_thinkingLevel h; h_systemPrompt := h_systemPrompt h;
     h_streamOptions := h_streamOptions h; h_resources := h_resources h; h_tools := h_tools h;
     h_activeToolNames := h_activeToolNames h; h_steerQueue := h_steerQueue h;
     h_steeringQueueMode := h_steeringQueueMode h; h_followUpQueue := h_followUpQueue h;
     h_followUpQueueMode := h_followUpQueueMode h; h_nextTurnQueue := x;
     h_compactionSettings := h_compactionSettings h; h_handlers := h_handlers h; h_stamp := h_stamp h;
     h_epoch := h_epoch h |}.
Definition set_handlers (x0 : list (jstr * list (nat * HandlerId))) (x1 : nat) (h : HarnessState) : HarnessState :=
  {| h_phase := h_phase h; h_runAbortController := h_runAbortController h; h_runPromise := h_runPromise h;
     h_pendingSessionWrites := h_pendingSessionWrites h; h_model := h_model h;
     h_thinkingLevel := h_thinkingLevel h; h_systemPrompt := h_systemPrompt h;
     h_streamOptions := h_streamOptions h; h_resources := h_resources h; h_tools := h_tools h;
     h_activeToolNames := h_activeToolNames h; h_steerQueue := h_steerQueue h;
     h_steeringQueueMode := h_steeringQueueMode h; h_followUpQueue := h_followUpQueue h;
     h_followUpQueueMode := h_followUpQueueMode h; h_nextTurnQueue := h_nextTurnQueue h;
     h_compactionSettings := h_compactionSettings h; h_handlers := x0; h_stamp := x1; h_epoch := h_epoch h |}.
Definition set_epoch (x : nat) (h : HarnessState) : HarnessState :=
  {| h_phase := h_phase h; h_runAbortController := h_runAbortController h; h_runPromise := h_runPromise h;
     h_pendingSessionWrites := h_pendingSessionWrites h; h_model := h_model h;
     h_thinkingLevel := h_thinkingLevel h; h_systemPrompt := h_systemPrompt h;
     h_streamOptions := h_streamOptions h; h_resources := h_resources h; h_tools := h_tools h;
     h_activeToolNames := h_activeToolNames h; h_steerQueue := h_steerQueue h;
     h_steeringQueueMode := h_steeringQueueMode h; h_followUpQueue := h_followUpQueue h;
     h_followUpQueueMode := h_followUpQueueMode h; h_nextTurnQueue := h_nextTurnQueue h;
     h_compactionSettings := h_compactionSettings h; h_handlers := h_handlers h; h_stamp := h_stamp h;
     h_epoch := x |}.

(** A run: its abort signal and the variable [activeTurnState]. *)
Record Run := { run_aborted : bool; run_turnState : TurnState }.

Record World {S U : Type} := {
  w_h : HarnessState; w_session : S; w_user : U; w_runs : list Run; w_promises : list bool;
  w_never : bool;
}.
Arguments World : clear implicits.

(** ** Stream options *)

(** The copy is the value: nothing here changes an object in place. *)
Definition cloneStreamOptions (o : StreamOptions) : StreamOptions := o.

(** One entry of a patch of headers or metadata. *)
Definition patch_entry {V} (m : list (jstr * V)) (kv : jstr * option V) : list (jstr * V) :=
  match kv.2 with None => map_delete kv.1 m | Some v => map_set kv.1 v m end.
Definition patch_map {V} (base : option (list (jstr * V))) (patch : option (option (list (jstr * option V))))
    : option (list (jstr * V)) :=
  match patch with
  | None => base
  | Some None => None
  | Some (Some l) => match fold_left patch_entry l (nullish base []) with [] => None | m => Some m end
  end.
Definition own {A} (patch : option (option A)) (base : option A) : option A :=
  match patch with Some v => v | None => base end.

Definition applyStreamOptionsPatch (base : StreamOptions) (patch : option StreamOptionsPatch) : StreamOptions :=
  let result := cloneStreamOptions base in
  match patch with
  | None => result
  | Some p =>
      {| so_maxTokens := so_maxTokens result; so_transport := own (sp_transport p) (so_transport result);
         so_timeoutMs := own (sp_timeoutMs p) (so_timeoutMs result);
         so_maxRetries := own (sp_maxRetries p) (so_maxRetries result);
         so_maxRetryDelayMs := own (sp_maxRetryDelayMs p) (so_maxRetryDelayMs result);
         so_headers := patch_map (so_headers result) (sp_headers p);
         so_metadata := patch_map (so_metadata result) (sp_metadata p);
         so_cacheRetention := own (sp_cacheRetention p) (so_cacheRetention result) |}
  end.

(** ** Names of tools *)

(** The loop over the names: [seen] and [duplicates]. *)
Definition duplicate_step (s : list jstr * list jstr) (name : jstr) : list jstr * list jstr :=
  let '(seen, duplicates) := s in
  (set_add name seen, if set_has name seen then set_add name duplicates else duplicates).
Definition findDuplicateNames (names : list jstr) : list jstr := (fold_left duplicate_step names ([], [])).2.

Definition validateUniqueNames (names : list jstr) (message : jstr) : result Exn unit :=
  match findDuplicateNames names with
  | [] => Ok tt
  | duplicates => Err (EHarness InvalidArgument (message ++ js ": " ++ join (js ", ") duplicates))
  end.
Definition validateToolNames (toolNames : list jstr) (tools : list (jstr * ToolRef)) : result Exn unit :=
  let! _ := validateUniqueNames toolNames (js "Duplicate active tool name(s)") in
  match filter (λ name, map_has name tools = false) toolNames with
  | [] => Ok tt
  | missing => Err (EHarness InvalidArgument (js "Unknown tool(s): " ++ join (js ", ") missing))
  end.
Definition tool_map (tools : list ToolRef) : list (jstr * ToolRef) :=
  map_of_entries (map (λ t, (tref_name t, t)) tools).

(** ** The constructor *)

Record PartialCompactionSettings := {
  pcs_enabled : option bool; pcs_reserveTokens : option Z; pcs_keepRecentTokens : option Z;
  pcs_triggerRatio : option Double.double; pcs_maxSummarizationInputTokens : option Z;
}.
Inductive CompactionOption := CompactionOff | CompactionPartial (s : PartialCompactionSettings).

Definition compaction_settings (o : option CompactionOption) : CompactionSettings :=
  let d := DEFAULT_COMPACTION_SETTINGS in
  match o with
  | None => d
  | Some CompactionOff =>
      {| cs_enabled := false; cs_reserveTokens := cs_reserveTokens d;
         cs_keepRecentTokens := cs_keepRecentTokens d; cs_triggerRatio := cs_triggerRatio d;
         cs_maxSummarizationInputTokens := cs_maxSummarizationInputTokens d |}
  | Some (CompactionPartial p) =>
      {| cs_enabled := default (cs_enabled d) (pcs_enabled p);
         cs_reserveTokens := default (cs_reserveTokens d) (pcs_reserveTokens p);
         cs_keepRecentTokens := default (cs_keepRecentTokens d) (pcs_keepRecentTokens p);
         cs_triggerRatio := default (cs_triggerRatio d) (pcs_triggerRatio p);
         cs_maxSummarizationInputTokens :=
           default (cs_maxSummarizationInputTokens d) (pcs_maxSummarizationInputTokens p) |}
  end.

Record HarnessOptions := {
  op_tools : option (list ToolRef); op_resources : option Resources;
  op_systemPrompt : option SystemPrompt; op_streamOptions : option StreamOptions; op_model : HarnessModel;
  op_thinkingLevel : option jstr; op_activeToolNames : option (list jstr);
  op_steeringMode : option QueueMode; op_followUpMode : option QueueMode;
  op_compaction : option CompactionOption;
}.
Definition no_stream_options : StreamOptions :=
  {| so_maxTokens := None; so_transport := None; so_timeoutMs := None; so_maxRetries := None;
     so_maxRetryDelayMs := None; so_headers := None; so_metadata := None; so_cacheRetention := None |}.

Definition newHarness (o : HarnessOptions) : result Exn HarnessState :=
  let tools := nullish (op_tools o) [] in
  let! _ := validateUniqueNames (map tref_name tools) (js "Duplicate tool name(s)") in
  let activeToolNames := nullish (op_activeToolNames o) (map tref_name tools) in
  let! _ := validateUniqueNames activeToolNames (js "Duplicate active tool name(s)") in
  let! _ := validateToolNames activeToolNames (tool_map tools) in
  Ok {| h_phase := Idle; h_runAbortController := None; h_runPromise := None; h_pendingSessionWrites := [];
        h_model := op_model o; h_thinkingLevel := nullish (op_thinkingLevel o) (js "off");
        h_systemPrompt := op_systemPrompt o;
        h_streamOptions := cloneStreamOptions (nullish (op_streamOptions o) no_stream_options);
        h_resources := nullish (op_resources o) {| rs_skills := None; rs_promptTemplates := None |};
        h_tools := tool_map tools; h_activeToolNames := activeToolNames; h_steerQueue := [];
        h_steeringQueueMode := nullish (op_steeringMode o) OneAtATime; h_followUpQueue := [];
        h_followUpQueueMode := nullish (op_followUpMode o) OneAtATime; h_nextTurnQueue := [];
        h_compactionSettings := compaction_settings (op_compaction o); h_handlers := []; h_stamp := 0; h_epoch := 0 |}.

Section harness.
Context {S U : Type} `{SessionStorage S}.
Abbreviation World := (World S U).
Abbreviation HM A := (M World Exn A).
Abbreviation Tool := (@AgentTool World).

(** What the harness runs against: the clocks and fresh ids, the metadata of the
    session, the texts of errors, the model clients, the tools, the callback of the
    system prompt, and the handlers, one interpretation per type of event. *)
Class HarnessEnv := {
  next_env : U → Env * U;
  date : U → Z;
  iso_date : U → jstr;
  session_id : jstr;
  session_message : SessionError → jstr;
  checkpoint_message : CheckpointError → jstr;
  is_datetime : jstr → bool;
  parse_issues : jstr → list jstr;
  entry_value : Entry → json;
  validate : Tool → json → result jstr json;
  choose_call : World → nat * World;
  tool_of : ToolRef → Tool;
  systemPrompt_callback : HarnessModel → jstr → list ToolRef → Resources → HM jstr;
  streamSimple : LoopModel → jstr → list LlmMessage → list Tool → StreamOptions → jstr → option jstr → nat →
    (json → HM json) → (Z → list (jstr * jstr) → HM unit) → HM StreamResponse;
  completeSimple : Model → Request → M World Thrown AssistantMessage;
  on_event : HandlerId → HarnessEvent → option nat → HM unit;
  on_before_agent_start : HandlerId → jstr → option (list Block) → jstr → Resources →
    HM (option BeforeAgentStartResult);
  on_context : HandlerId → list AgentMessage → HM (option (list AgentMessage));
  on_before_provider_request : HandlerId → LoopModel → jstr → StreamOptions →
    HM (option StreamOptionsPatch);
  on_before_provider_payload : HandlerId → LoopModel → json → HM (option json);
  on_tool_call : HandlerId → jstr → jstr → json → HM (option BeforeToolCallResult);
  on_tool_result : HandlerId → AgentToolCall → json → AgentToolResult → bool →
    HM (option AfterToolCallResult);
  on_session_before_compact : HandlerId → CompactionPreparation → list Entry → @AgentContext World →
    HarnessModel → option jstr → Trigger → HM (option SessionBeforeCompactResult);
  on_session_before_tree : HandlerId → TreePreparation → HM (option SessionBeforeTreeResult);
}.
Context `{!HarnessEnv}.

(** ** Effects *)

Definition set_h (f : HarnessState → HarnessState) (w : World) : World :=
  {| w_h := f (w_h w); w_session := w_session w; w_user := w_user w; w_runs := w_runs w;
     w_promises := w_promises w; w_never := w_never w |}.
Definition set_session (st : S) (w : World) : World :=
  {| w_h := w_h w; w_session := st; w_user := w_user w; w_runs := w_runs w;
     w_promises := w_promises w; w_never := w_never w |}.
Definition set_user (u : U) (w : World) : World :=
  {| w_h := w_h w; w_session := w_session w; w_user := u; w_runs := w_runs w;
     w_promises := w_promises w; w_never := w_never w |}.
Definition set_runs (l : list Run) (w : World) : World :=
  {| w_h := w_h w; w_session := w_session w; w_user := w_user w; w_runs := l;
     w_promises := w_promises w; w_never := w_never w |}.
Definition set_promises (l : list bool) (w : World) : World :=
  {| w_h := w_h w; w_session := w_session w; w_user := w_user w; w_runs := w_runs w;
     w_promises := l; w_never := w_never w |}.
Definition set_never (w : World) : World :=
  {| w_h := w_h w; w_session := w_session w; w_user := w_user w; w_runs := w_runs w;
     w_promises := w_promises w; w_never := true |}.

Definition update (f : HarnessState → HarnessState) : HM unit := modify (set_h f).
Definition state : HM HarnessState := gets w_h.
(** What never settles; nothing after it runs. *)
Definition never {A} : HM A := λ w, (Err ENever, set_never w).

(** [try .. catch] and [try .. finally]. *)
Definition catch {A} (m : HM A) (h : Exn → HM A) : HM A := λ w,
  match m w with
  | (Err ENever, w') => (Err ENever, w')
  | (Err e, w') => h e w'
  | (Ok a, w') => (Ok a, w')
  end.
Definition finally {A} (m : HM A) (f : HM unit) : HM A := λ w,
  match m w with
  | (Err ENever, w') => (Err ENever, w')
  | (r, w') => match f w' with
               | (Ok _, w'') => (r, w'')
               | (Err e, w'') => (Err e, w'')
               end
  end.

(** Calls of the session; [walk] for those that follow the parents of entries. *)
Definition of_session {A} (m : Env → M S SessionError A) : HM A := λ w,
  let '(env, u) := next_env (w_user w) in
  let '(r, st) := m env (w_session w) in
  (match r with Ok a => Ok a | Err e => Err (ESession e) end, set_session st (set_user u w)).
Definition read_session {A} (f : S → result SessionError A) : HM A := λ w,
  (match f (w_session w) with Ok a => Ok a | Err e => Err (ESession e) end, w).
Definition walk {A} (f : S → option (result SessionError A)) : HM A := λ w,
  match f (w_session w) with
  | None => never w
  | Some (Ok a) => (Ok a, w)
  | Some (Err e) => (Err (ESession e), w)
  end.
Definition getEntry (id : jstr) : HM (option Entry) := gets (λ w, st_getEntry id (w_session w)).
Definition getLeafId : HM (option jstr) := read_session st_getLeafId.

(** [toError(error).message]. *)
Definition message_of (e : Exn) : jstr :=
  match e with
  | EHarness _ m | EOther m => m
  | ESession e => session_message e
  | ECompactionError e => compaction_message e
  | EBranchSummaryError e => branch_message_of e
  | ENever => []
  end.
Definition normalizeHarnessError (error : Exn) (fallbackCode : HarnessErrorCode) : Exn :=
  match error with
  | EHarness _ _ | ENever => error
  | ESession _ => EHarness SessionFailed (message_of error)
  | ECompactionError _ => EHarness CompactionFailed (message_of error)
  | EBranchSummaryError _ => EHarness BranchSummaryFailed (message_of error)
  | EOther m => EHarness fallbackCode m
  end.
Definition normalizeHookError (error : Exn) : Exn := normalizeHarnessError error HookFailed.

(** What a model client or a schema throws during a summary. *)
Definition of_thrown {A} (m : M World Thrown A) : HM A := λ w,
  let '(r, w') := m w in
  (match r with
   | Ok a => Ok a
   | Err (ClientThrew what) => Err (EOther what)
   | Err (CheckpointThrew e) => Err (EOther (checkpoint_message e))
   end, w').
(** What the loop sees of an error is its text. *)
Definition to_loop {A} (m : HM A) : M World jstr A := λ w,
  let '(r, w') := m w in (match r with Ok a => Ok a | Err e => Err (message_of e) end, w').

(** ** Handlers *)

Definition handlers_of (type : jstr) (h : HarnessState) : list (nat * HandlerId) :=
  nullish (map_get type (h_handlers h)) [].

(** [set.add]: a handler that is there stays where it is. *)
Definition register (type : jstr) (handler : HandlerId) : HM unit :=
  update (λ h,
    let l := handlers_of type h in
    if existsb (λ p, (p.2 =? handler)%nat) l then set_handlers (map_set type l (h_handlers h)) (h_stamp h) h
    else set_handlers (map_set type (l ++ [(h_stamp h, handler)]) (h_handlers h)) (Datatypes.S (h_stamp h)) h).
Definition unregister (type : jstr) (handler : HandlerId) : HM unit :=
  update (λ h, set_handlers (map_set type (List.filter (λ p, negb (p.2 =? handler)%nat) (handlers_of type h))
                               (h_handlers h)) (h_stamp h) h).
Definition SUBSCRIBER_EVENT_TYPE : jstr := js "*".
Definition subscribe (listener : HandlerId) : HM unit := register SUBSCRIBER_EVENT_TYPE listener.
Definition on (type : jstr) (handler : HandlerId) : HM unit := register type handler.

(** The loop over a set that handlers may change: the next handler is the first
    one added after the last one called. *)
Fixpoint each_handler {A} (fuel : nat) (type : jstr) (from : nat) (call : HandlerId → A → HM A) (acc : A) : HM A :=
  let! h := state in
  match find_first (λ p, (from <=? p.1)%nat) (handlers_of type h) with
  | None => mret acc
  | Some (stamp, handler) =>
      match fuel with
      | O => never
      | Datatypes.S fuel =>
          let! acc := catch (call handler acc) (λ e, throw (normalizeHookError e)) in
          each_handler fuel type (Datatypes.S stamp) call acc
      end
  end.

(** The bound on the handlers of one event and the iterations of one run. *)
Context (fuel : nat).

Definition emitAny (event : HarnessEvent) (signal : option nat) : HM unit :=
  each_handler fuel SUBSCRIBER_EVENT_TYPE 0 (λ listener _, on_event listener event signal) tt.
Definition emitOwn (event : HarnessEvent) (signal : option nat) : HM unit := emitAny event signal.
Definition emitHook {R} (type : jstr) (call : HandlerId → HM (option R)) : HM (option R) :=
  each_handler fuel type 0 (λ handler last, let! result := call handler in
    mret (match result with Some _ => result | None => last end)) None.
Definition emitBeforeProviderRequest (model : LoopModel) (sessionId : jstr) (streamOptions : StreamOptions)
    : HM StreamOptions :=
  each_handler fuel (js "before_provider_request") 0 (λ handler current,
    let! result := on_before_provider_request handler model sessionId (cloneStreamOptions current) in
    mret (match result with Some patch => applyStreamOptionsPatch current (Some patch) | None => current end))
    (cloneStreamOptions streamOptions).
Definition emitBeforeProviderPayload (model : LoopModel) (payload : json) : HM json :=
  each_handler fuel (js "before_provider_payload") 0 (λ handler current,
    let! result := on_before_provider_payload handler model current in
    mret (match result with Some payload => payload | None => current end)) payload.

Definition emitQueueUpdate : HM unit :=
  let! h := state in
  emitOwn (QueueUpdate (h_steerQueue h) (h_followUpQueue h) (h_nextTurnQueue h)) None.

(** The promise of a run, and the function that settles it. *)
Definition startRunPromise : HM nat := λ w,
  (Ok (length (w_promises w)),
   set_promises (w_promises w ++ [false]) (set_h (set_promise (Some (length (w_promises w)))) w)).
Definition finishRunPromise (promise : nat) : HM unit :=
  modify (λ w, set_promises (<[promise:=true]> (w_promises w)) (set_h (set_promise None) w)).

(** ** Turns *)

Definition getResources (h : HarnessState) : Resources := h_resources h.
Definition active_tools (h : HarnessState) : list ToolRef :=
  omap (λ name, map_get name (h_tools h)) (h_activeToolNames h).

Definition createTurnState : HM TurnState :=
  let! context := walk buildContext in
  let! h := state in
  let resources := getResources h in
  let tools := map_values (h_tools h) in
  let activeTools := active_tools h in
  let! systemPrompt :=
    match h_systemPrompt h with
    | None => mret (js "You are a helpful assistant.")
    | Some (SystemText s) => mret s
    | Some SystemCallback => systemPrompt_callback (h_model h) (h_thinkingLevel h) activeTools resources
    end in
  let! h := state in
  mret {| ts_messages := sc_messages context; ts_resources := resources;
          ts_streamOptions := cloneStreamOptions (h_streamOptions h); ts_sessionId := session_id;
          ts_systemPrompt := systemPrompt; ts_model := h_model h; ts_thinkingLevel := h_thinkingLevel h;
          ts_tools := tools; ts_activeTools := activeTools |}.

Definition createContext (turnState : TurnState) (systemPrompt : option jstr) : @AgentContext World :=
  {| ac_systemPrompt := nullish systemPrompt (ts_systemPrompt turnState); ac_messages := ts_messages turnState;
     ac_tools := map tool_of (ts_activeTools turnState) |}.

Definition getTurnState (run : nat) (default_ : TurnState) : HM TurnState :=
  gets (λ w, nullish (run_turnState <$> w_runs w !! run) default_).
Definition setTurnState (run : nat) (t : TurnState) : HM unit :=
  modify (λ w, set_runs (alter (λ r, {| run_aborted := run_aborted r; run_turnState := t |}) run (w_runs w)) w).
Definition is_signalled (run : nat) (w : World) : bool := nullish (run_aborted <$> w_runs w !! run) false.
(** [new AbortController()], with the variable of the run. *)
Definition new_run (t : TurnState) : HM nat := λ w,
  (Ok (length (w_runs w)), set_runs (w_runs w ++ [{| run_aborted := false; run_turnState := t |}]) w).
Definition signal_abort (run : nat) : HM unit :=
  modify (λ w, set_runs (alter (λ r, {| run_aborted := true; run_turnState := run_turnState r |}) run (w_runs w)) w).

Definition createStreamFn (run : nat) (initial : TurnState) (model : LoopModel) (systemPrompt : jstr)
    (messages : list LlmMessage) (tools : list Tool) (reasoning : option jstr) : HM StreamResponse :=
  let! turnState := getTurnState run initial in
  let! requestOptions := emitBeforeProviderRequest model (ts_sessionId turnState) (ts_streamOptions turnState) in
  streamSimple model systemPrompt messages tools requestOptions (ts_sessionId turnState) reasoning run
    (emitBeforeProviderPayload model)
    (λ status headers, emitOwn (AfterProviderResponse status headers) (Some run)).

(** [splice] from a queue, put back when a subscriber fails; into the array that was
    spliced, which [abort] may have replaced meanwhile. *)
Definition drainQueuedMessages (queue : HarnessState → list AgentMessage)
    (set_queue : list AgentMessage → HarnessState → HarnessState) (mode : HarnessState → QueueMode)
    : HM (list AgentMessage) :=
  let! h := state in
  let '(messages, rest) := match mode h with
                           | All => (queue h, [])
                           | OneAtATime => (take 1 (queue h), drop 1 (queue h))
                           end in
  do! update (set_queue rest) in
  match messages with
  | [] => mret []
  | _ => catch (do! emitQueueUpdate in mret messages)
               (λ e, do! update (λ h', if (h_epoch h' =? h_epoch h)%nat then set_queue (messages ++ queue h') h' else h') in
                     throw (normalizeHookError e))
  end.

(** ** Session writes *)

Definition write (data : PendingSessionWrite) : HM unit :=
  match data with
  | EMessage m => do! of_session (λ env, Session.appendMessage env m) in mret tt
  | EModelChange provider modelId => do! of_session (λ env, appendModelChange env provider modelId) in mret tt
  | EThinkingLevelChange l => do! of_session (λ env, appendThinkingLevelChange env l) in mret tt
  | EActiveToolsChange names => do! of_session (λ env, appendActiveToolsChange env names) in mret tt
  | ECustom customType data => do! of_session (λ env, appendCustomEntry env customType data) in mret tt
  | ECustomMessage customType content details display =>
      do! of_session (λ env, appendCustomMessageEntry env customType content display details) in mret tt
  | ELabel targetId label => do! of_session (λ env, appendLabel env targetId label) in mret tt
  | ESessionInfo name => do! of_session (λ env, appendSessionName env (nullish name [])) in mret tt
  | ELeaf targetId => of_session (λ env, st_setLeafId env targetId)
  | ECompaction _ _ _ _ _ | EBranchSummary _ _ _ _ => mret tt
  end.

(** The loop while there are writes; each round takes one. *)
Fixpoint flush_loop (n : nat) : HM unit :=
  let! h := state in
  match h_pendingSessionWrites h with
  | [] => mret tt
  | data :: _ =>
      match n with
      | O => never
      | Datatypes.S n =>
          do! write data in
          do! update (λ h, set_writes (drop 1 (h_pendingSessionWrites h)) h) in
          flush_loop n
      end
  end.
Definition flushPendingSessionWrites : HM unit := λ w, flush_loop (length (h_pendingSessionWrites (w_h w))) w.

(** ** Compaction *)

Definition contextWindowFor (model : HarnessModel) : Z :=
  let n := mo_contextWindow (hm_limits model) in if (0 <? n)%Z then n else 128000%Z.
Definition shouldAutoCompact (messages : list AgentMessage) (h : HarnessState) : bool :=
  if negb (cs_enabled (h_compactionSettings h)) then false
  else shouldCompact (cu_tokens (estimateContextTokens messages)) (contextWindowFor (h_model h))
         (h_compactionSettings h).

Definition is_compaction (e : Entry) : bool := bool_decide (e_type e = TCompaction).
Definition is_branch_summary (e : Entry) : bool := bool_decide (e_type e = TBranchSummary).

(** The result of the hook, completed, or of the summarizer. *)
Definition compaction_result (provided : option CompactionResult) (preparation : CompactionPreparation)
    (model : HarnessModel) (customInstructions : option jstr) (thinkingLevel : jstr) : HM CompactionResult :=
  match provided with
  | Some r => λ w, of_thrown (lift_checkpoint
      (ensurePortableCompactionResult is_datetime entry_value (iso_date (w_user w)) preparation r)) w
  | None => λ w,
      (let! r := of_thrown (compact is_datetime completeSimple parse_issues entry_value (iso_date (w_user w))
                              preparation (hm_limits model) customInstructions (Some thinkingLevel)) in
       match r with Ok r => mret r | Err e => throw (ECompactionError e) end) w
  end.

Definition runCompaction (trigger : Trigger) (customInstructions : option jstr) (requireContent : bool)
    : HM (option CompactionResult) :=
  let! h := state in
  let model := h_model h in
  do! flushPendingSessionWrites in
  let! branchEntries := walk (getBranch None) in
  let! h := state in
  let! preparation := match prepareCompaction is_datetime branchEntries (h_compactionSettings h) with
                      | Ok p => mret p
                      | Err e => throw (ECompactionError e)
                      end in
  match preparation with
  | None => if requireContent then throw (EHarness CompactionFailed (js "Nothing to compact")) else mret None
  | Some preparation =>
      let! turnState := createTurnState in
      let! hookResult := emitHook (js "session_before_compact") (λ handler,
        on_session_before_compact handler preparation branchEntries (createContext turnState None) model
          customInstructions trigger) in
      if match hookResult with Some r => bcr_cancel r | None => false end
      then throw (EHarness CompactionFailed (js "Compaction cancelled"))
      else
        let provided := hookResult ≫= bcr_compaction in
        let! h := state in
        let! result := compaction_result provided preparation model customInstructions (h_thinkingLevel h) in
        let fromHook := match provided with Some _ => true | None => false end in
        let! entryId := of_session (λ env, appendCompaction env (cr_summary result) (cr_firstKeptEntryId result)
          (cr_tokensBefore result) (cr_details result) (Some fromHook)) in
        let! entry := getEntry entryId in
        do! (match entry with
             | Some e => if is_compaction e then emitOwn (SessionCompact e fromHook trigger) None else mret tt
             | None => mret tt
             end) in
        mret (Some result)
  end.

Definition maybeAutoCompact (messages : list AgentMessage) : HM bool :=
  let! h := state in
  if negb (shouldAutoCompact messages h) then mret false
  else let! result := runCompaction Auto None false in
       mret (match result with Some _ => true | None => false end).

(** ** The loop of a run *)

Definition reasoning_of (thinkingLevel : jstr) : option jstr :=
  if bool_decide (thinkingLevel = js "off") then None else Some thinkingLevel.

Definition prepareNextTurn (run : nat) (context : @TurnContext World) : HM (option (@AgentLoopTurnUpdate World)) :=
  do! flushPendingSessionWrites in
  do! (match tc_toolResults context with
       | [] => mret false
       | _ => maybeAutoCompact (ac_messages (tc_context context))
       end) in
  let! nextTurnState := createTurnState in
  do! setTurnState run nextTurnState in
  mret (Some {| tu_context := Some (createContext nextTurnState None);
                tu_model := Some (hm_loop (ts_model nextTurnState));
                tu_thinkingLevel := Some (ts_thinkingLevel nextTurnState) |}).

Definition transformContext (messages : list AgentMessage) : HM (list AgentMessage) :=
  let! result := emitHook (js "context") (λ handler, on_context handler messages) in
  mret (nullish result messages).
Definition beforeToolCall (c : @BeforeToolCallContext World) : HM (option BeforeToolCallResult) :=
  emitHook (js "tool_call") (λ handler,
    on_tool_call handler (call_id (bc_toolCall c)) (call_name (bc_toolCall c)) (bc_args c)).
Definition afterToolCall (c : @AfterToolCallContext World) : HM (option AfterToolCallResult) :=
  emitHook (js "tool_result") (λ handler,
    on_tool_result handler (afc_toolCall c) (afc_args c) (afc_result c) (afc_isError c)).
Definition getSteeringMessages : HM (list AgentMessage) :=
  drainQueuedMessages h_steerQueue set_steer h_steeringQueueMode.
Definition getFollowUpMessages : HM (list AgentMessage) :=
  drainQueuedMessages h_followUpQueue set_follow h_followUpQueueMode.

Definition createLoopConfig (turnState : TurnState) : LoopConfig :=
  {| lc_model := hm_loop (ts_model turnState); lc_reasoning := reasoning_of (ts_thinkingLevel turnState);
     lc_apiKey := None; lc_toolExecution := None |}.
Definition loop_callbacks (run : nat) : @Callbacks World :=
  {| cb_convertToLlm := λ ms, mret (convertToLlm ms);
     cb_transformContext := Some (λ ms, to_loop (transformContext ms));
     cb_getApiKey := None;
     cb_beforeToolCall := Some (λ c, to_loop (beforeToolCall c));
     cb_afterToolCall := Some (λ c, to_loop (afterToolCall c));
     cb_prepareNextTurn := Some (λ c, to_loop (prepareNextTurn run c));
     cb_shouldStopAfterTurn := None;
     cb_getSteeringMessages := Some (to_loop getSteeringMessages);
     cb_getFollowUpMessages := Some (to_loop getFollowUpMessages) |}.

(** ** Events of the loop *)

Definition handleAgentEvent (event : AgentEvent) (signal : option nat) : HM unit :=
  match event with
  | MessageEnd m =>
      do! of_session (λ env, Session.appendMessage env m) in
      emitAny (LoopEvent event) signal
  | TurnEnd _ _ =>
      let! eventError := catch (do! emitAny (LoopEvent event) signal in mret None) (λ e, mret (Some e)) in
      let! h := state in
      let hadPendingMutations := negb (bool_decide (length (h_pendingSessionWrites h) = 0%nat)) in
      do! flushPendingSessionWrites in
      match eventError with
      | Some e => throw e
      | None => emitOwn (SavePoint hadPendingMutations) None
      end
  | AgentEnd _ =>
      do! flushPendingSessionWrites in
      do! update (set_phase Idle) in
      do! emitAny (LoopEvent event) signal in
      let! h := state in
      emitOwn (Settled (length (h_nextTurnQueue h))) signal
  | _ => emitAny (LoopEvent event) signal
  end.

#[local] Instance loop_env (run : nat) (initial : TurnState) : LoopEnv (W:=World) := {|
  cb := loop_callbacks run;
  listener := λ event, to_loop (handleAgentEvent event (Some run));
  aborted := is_signalled run;
  now := λ w, date (w_user w);
  streamFn := λ model systemPrompt messages tools reasoning _,
    to_loop (createStreamFn run initial model systemPrompt messages tools reasoning);
  validateToolArguments := validate;
  choose := choose_call |}.

(** The loop, over the world alone; the text of its error is all that is used. *)
Definition run_loop {A} (m : M (World * list AgentEvent) jstr (option A)) : HM A := λ w,
  let '(r, (w', _)) := m (w, []) in
  if w_never w' then (Err ENever, w')
  else match r with
       | Ok (Some a) => (Ok a, w')
       | Ok None => never w'
       | Err message => (Err (EOther message), w')
       end.

Definition createFailureMessage (model : HarnessModel) (error : Exn) (aborted : bool) (timestamp : Z)
    : AssistantMessage :=
  {| am_content := [TextBlock []]; am_provider := lm_provider (hm_loop model); am_model := lm_id (hm_loop model);
     am_usage := Some {| u_input := 0; u_output := 0; u_cacheRead := 0; u_cacheWrite := 0; u_totalTokens := 0 |};
     am_stopReason := if aborted then StopAborted else StopError;
     am_errorMessage := Some (message_of error); am_timestamp := timestamp |}.

Definition emitRunFailure (model : HarnessModel) (error : Exn) (aborted : bool) (signal : nat)
    : HM (list AgentMessage) :=
  let! failureMessage := gets (λ w, Assistant (createFailureMessage model error aborted (date (w_user w)))) in
  do! handleAgentEvent (MessageStart failureMessage) (Some signal) in
  do! handleAgentEvent (MessageEnd failureMessage) (Some signal) in
  do! handleAgentEvent (TurnEnd failureMessage []) (Some signal) in
  do! handleAgentEvent (AgentEnd [failureMessage]) (Some signal) in
  mret [failureMessage].

(** ** One run *)

Definition createUserMessage (text : jstr) (images : option (list Block)) (timestamp : Z) : AgentMessage :=
  UserMessage (CBlocks (TextBlock text :: nullish images [])) timestamp.

(** The last assistant message, from the end. *)
Definition last_assistant (messages : list AgentMessage) : option AssistantMessage :=
  find_first (λ _, true) (omap (λ m, match m with Assistant a => Some a | _ => None end) (reverse messages)).

(** The run is awaited; then the writes are flushed and the abort controller goes. *)
Definition await_run (without : jstr) (result : HM (list AgentMessage)) : HM AssistantMessage :=
  finally
    (let! newMessages := result in
     match last_assistant newMessages with
     | Some m => mret m
     | None => throw (EHarness InvalidState without)
     end)
    (finally flushPendingSessionWrites (update (set_controller None))).

(** The abort controller of a run, and the compaction before it. *)
Definition begin_run (turnState : TurnState) (messages : list AgentMessage) : HM nat :=
  let! run := new_run turnState in
  do! update (set_controller (Some run)) in
  let! compacted := maybeAutoCompact messages in
  do! (if compacted : bool then let! t := createTurnState in setTurnState run t else mret tt) in
  mret run.

(** Queued messages for this turn, in front of the prompt. *)
Definition take_next_turn (message : AgentMessage) : HM (list AgentMessage) :=
  let! h := state in
  match h_nextTurnQueue h with
  | [] => mret [message]
  | queuedMessages =>
      do! update (set_next []) in
      do! catch emitQueueUpdate
            (λ e, do! update (λ h, set_next (queuedMessages ++ h_nextTurnQueue h) h) in throw (normalizeHookError e)) in
      mret (queuedMessages ++ [message])
  end.

Definition executeTurn (turnState : TurnState) (text : jstr) (images : option (list Block)) : HM AssistantMessage :=
  let! message := gets (λ w, createUserMessage text images (date (w_user w))) in
  let! messages := take_next_turn message in
  let! beforeResult := emitHook (js "before_agent_start") (λ handler,
    on_before_agent_start handler text images (ts_systemPrompt turnState) (ts_resources turnState)) in
  let messages := messages ++ nullish (beforeResult ≫= bas_messages) [] in
  let! run := begin_run turnState (ts_messages turnState ++ messages) in
  let! active := getTurnState run turnState in
  await_run (js "AgentHarness prompt completed without an assistant message")
    (catch
       (run_loop (@runAgentLoop World (loop_env run turnState) fuel messages
          (createContext active (beforeResult ≫= bas_systemPrompt)) (createLoopConfig active)))
       (λ error,
          let! active := getTurnState run turnState in
          let! aborted := gets (is_signalled run) in
          catch (emitRunFailure (ts_model active) error aborted run)
            (λ _, throw (EHarness UnknownFailed (js "Agent run failed and failure reporting failed"))))).

Definition executeContinuation (turnState : TurnState) : HM AssistantMessage :=
  let! run := begin_run turnState (ts_messages turnState) in
  let! active := getTurnState run turnState in
  await_run (js "AgentHarness continuation completed without an assistant message")
    (catch
       (run_loop (@runAgentLoopContinue World (loop_env run turnState) fuel
          (createContext active None) (createLoopConfig active)))
       (λ error,
          let! active := getTurnState run turnState in
          let! aborted := gets (is_signalled run) in
          emitRunFailure (ts_model active) error aborted run)).

(** ** Operations that run the agent *)

(** The frame of [prompt], [continue], [skill] and [promptFromTemplate]. *)
Definition as_turn {A} (body : HM A) : HM A :=
  let! h := state in
  if negb (bool_decide (h_phase h = Idle)) then throw (EHarness Busy (js "AgentHarness is busy"))
  else
    do! update (set_phase Turn) in
    let! promise := startRunPromise in
    finally
      (catch body (λ error, do! update (set_phase Idle) in throw (normalizeHarnessError error UnknownFailed)))
      (finishRunPromise promise).

Definition prompt (text : jstr) (images : option (list Block)) : HM AssistantMessage :=
  as_turn (let! turnState := createTurnState in executeTurn turnState text images).

(** The assistant message of an entry that failed or was aborted. *)
Definition is_continuable (leaf : Entry) : bool :=
  match e_data leaf with EMessage (Assistant m) => is_failed m | _ => false end.
Definition is_provider_safe (m : AgentMessage) : bool :=
  match m with UserMessage _ _ | ToolResult _ => true | _ => false end.

Definition continue : HM AssistantMessage :=
  as_turn
    (do! flushPendingSessionWrites in
     let! leafId := getLeafId in
     let! leaf := match leafId with
                  | Some id => if truthy id then getEntry id else mret None
                  | None => mret None
                  end in
     match leaf with
     | Some leaf =>
         if is_continuable leaf then
           do! of_session (λ env, st_setLeafId env (e_parentId leaf)) in
           let! turnState := createTurnState in
           if match last (ts_messages turnState) with Some m => is_provider_safe m | None => false end
           then executeContinuation turnState
           else
             do! of_session (λ env, st_setLeafId env leafId) in
             throw (EHarness InvalidState (js "The failed turn has no provider-safe continuation point"))
         else throw (EHarness InvalidState (js "The last turn is not continuable"))
     | None => throw (EHarness InvalidState (js "The last turn is not continuable"))
     end).

Definition skill (name : jstr) (additionalInstructions : option jstr) : HM AssistantMessage :=
  as_turn
    (let! turnState := createTurnState in
     match find_first (λ s, bool_decide (sk_name s = name)) (nullish (rs_skills (ts_resources turnState)) []) with
     | None => throw (EHarness InvalidArgument (js "Unknown skill: " ++ name))
     | Some s => executeTurn turnState (formatSkillInvocation s additionalInstructions) None
     end).

Definition promptFromTemplate (name : jstr) (args : list jstr) : HM AssistantMessage :=
  as_turn
    (let! turnState := createTurnState in
     match find_first (λ t, bool_decide (pt_name t = name))
             (nullish (rs_promptTemplates (ts_resources turnState)) []) with
     | None => throw (EHarness InvalidArgument (js "Unknown prompt template: " ++ name))
     | Some t => executeTurn turnState (formatPromptTemplateInvocation t args) None
     end).

(** ** Queues *)

Definition push_queue (queue : HarnessState → list AgentMessage) (set_queue : list AgentMessage → HarnessState → HarnessState)
    (text : jstr) (images : option (list Block)) : HM unit :=
  let! message := gets (λ w, createUserMessage text images (date (w_user w))) in
  do! update (λ h, set_queue (queue h ++ [message]) h) in
  emitQueueUpdate.

Definition steer (text : jstr) (images : option (list Block)) : HM unit :=
  let! h := state in
  if bool_decide (h_phase h = Idle) then throw (EHarness InvalidState (js "Cannot steer while idle"))
  else push_queue h_steerQueue set_steer text images.
Definition followUp (text : jstr) (images : option (list Block)) : HM unit :=
  let! h := state in
  if bool_decide (h_phase h = Idle) then throw (EHarness InvalidState (js "Cannot follow up while idle"))
  else push_queue h_followUpQueue set_follow text images.
Definition nextTurn (text : jstr) (images : option (list Block)) : HM unit :=
  push_queue h_nextTurnQueue set_next text images.

(** ** Session and configuration *)

(** A write goes to the session when idle, and waits otherwise. *)
Definition write_or_queue (data : PendingSessionWrite) : HM unit :=
  let! h := state in
  if bool_decide (h_phase h = Idle) then write data
  else update (λ h, set_writes (h_pendingSessionWrites h ++ [data]) h).

Definition appendMessage (message : AgentMessage) : HM unit :=
  catch (write_or_queue (EMessage message)) (λ e, throw (normalizeHarnessError e SessionFailed)).

Definition getModel (h : HarnessState) : HarnessModel := h_model h.
Definition setModel (model : HarnessModel) : HM unit :=
  catch
    (let! h := state in
     let previousModel := h_model h in
     do! write_or_queue (EModelChange (lm_provider (hm_loop model)) (lm_id (hm_loop model))) in
     do! update (set_model model) in
     emitOwn (ModelUpdate model previousModel) None)
    (λ e, throw (normalizeHarnessError e SessionFailed)).

Definition getThinkingLevel (h : HarnessState) : jstr := h_thinkingLevel h.
Definition setThinkingLevel (level : jstr) : HM unit :=
  catch
    (let! h := state in
     let previousLevel := h_thinkingLevel h in
     do! write_or_queue (EThinkingLevelChange level) in
     do! update (set_thinking level) in
     emitOwn (ThinkingLevelUpdate level previousLevel) None)
    (λ e, throw (normalizeHarnessError e SessionFailed)).

Definition of_result {A} (r : result Exn A) : HM A := lift r.
Definition getTools (h : HarnessState) : list ToolRef := map_values (h_tools h).
Definition getActiveTools (h : HarnessState) : list (option ToolRef) :=
  map (λ name, map_get name (h_tools h)) (h_activeToolNames h).

(** A change of the tools whose names are checked: the next tools, none for the
    current ones, the next active names, and the names before. *)
Record ToolsChange := {
  tc_tools : option (list (jstr * ToolRef)); tc_active : list jstr;
  tc_previous : list jstr; tc_previousActive : list jstr;
}.

Definition setTools_check (tools : list ToolRef) (activeToolNames : option (list jstr)) : HM ToolsChange :=
  do! of_result (validateUniqueNames (map tref_name tools) (js "Duplicate tool name(s)")) in
  let nextTools := tool_map tools in
  let! h := state in
  let nextActiveToolNames := nullish activeToolNames (h_activeToolNames h) in
  do! of_result (validateToolNames nextActiveToolNames nextTools) in
  mret {| tc_tools := Some nextTools; tc_active := nextActiveToolNames;
          tc_previous := map_keys (h_tools h); tc_previousActive := h_activeToolNames h |}.

Definition setActiveTools_check (toolNames : list jstr) : HM ToolsChange :=
  let! h := state in
  do! of_result (validateToolNames toolNames (h_tools h)) in
  mret {| tc_tools := None; tc_active := toolNames;
          tc_previous := map_keys (h_tools h); tc_previousActive := h_activeToolNames h |}.

(** From the end of the write on: after the [await] of the session. *)
Definition tools_changed (c : ToolsChange) : HM unit :=
  do! update (λ h, set_tools (nullish (tc_tools c) (h_tools h)) (tc_active c) h) in
  let! h := state in
  emitOwn (ToolsUpdate (map_keys (h_tools h)) (tc_previous c) (h_activeToolNames h) (tc_previousActive c)) None.

(** Nothing comes between the check, the write and the change; [HarnessTools] has calls
    that overlap at the [await] of the write. *)
Definition change_tools (check : HM ToolsChange) : HM unit :=
  catch (let! c := check in do! write_or_queue (EActiveToolsChange (tc_active c)) in tools_changed c)
    (λ e, throw (normalizeHarnessError e InvalidArgument)).
Definition setTools (tools : list ToolRef) (activeToolNames : option (list jstr)) : HM unit :=
  change_tools (setTools_check tools activeToolNames).
Definition setActiveTools (toolNames : list jstr) : HM unit := change_tools (setActiveTools_check toolNames).

Definition getSteeringMode (h : HarnessState) : QueueMode := h_steeringQueueMode h.
Definition setSteeringMode (mode : QueueMode) : HM unit := update (set_steer_mode mode).
Definition getFollowUpMode (h : HarnessState) : QueueMode := h_followUpQueueMode h.
Definition setFollowUpMode (mode : QueueMode) : HM unit := update (set_follow_mode mode).

Definition setResources (resources : Resources) : HM unit :=
  let! h := state in
  let previousResources := getResources h in
  do! update (set_resources resources) in
  let! h := state in
  emitOwn (ResourcesUpdate (getResources h) previousResources) None.

Definition getStreamOptions (h : HarnessState) : StreamOptions := cloneStreamOptions (h_streamOptions h).
Definition setStreamOptions (streamOptions : StreamOptions) : HM unit :=
  update (set_stream (cloneStreamOptions streamOptions)).

(** ** Abort *)

(** Up to the wait for the run: the cleared queues, the error of a subscriber, and
    the promise that is awaited, if there is a run. *)
Definition abort_begin : HM (AbortResult * list Exn * option nat) :=
  let! h := state in
  let cleared := {| ab_clearedSteer := h_steerQueue h; ab_clearedFollowUp := h_followUpQueue h |} in
  do! update (λ h, set_epoch (Datatypes.S (h_epoch h)) (set_follow [] (set_steer [] h))) in
  do! (match h_runAbortController h with Some run => signal_abort run | None => mret tt end) in
  let! errors := catch (do! emitQueueUpdate in mret []) (λ e, mret [e]) in
  let! h := state in
  mret (cleared, errors, h_runPromise h).

(** From where the promise is settled on; awaited before that, it never returns. *)
Definition abort_end (begun : AbortResult * list Exn * option nat) : HM AbortResult :=
  let '(cleared, errors, promise) := begun in
  let! settled := gets (λ w, match promise with Some p => nullish (w_promises w !! p) false | None => true end) in
  if negb settled then never
  else
    let! more := catch (do! emitOwn (AbortEvent (ab_clearedSteer cleared) (ab_clearedFollowUp cleared)) None in mret [])
                   (λ e, mret [e]) in
    match errors ++ more with
    | [] => mret cleared
    | [e] => throw (normalizeHarnessError e HookFailed)
    | _ => throw (EHarness HookFailed (js "Abort completed with errors"))
    end.

(** ** Compaction and navigation *)

(** The frame of [compact] and [navigateTree]. *)
Definition exclusively {A} (phase : HarnessPhase) (busy : jstr) (fallback : HarnessErrorCode) (body : HM A) : HM A :=
  let! h := state in
  if negb (bool_decide (h_phase h = Idle)) then throw (EHarness Busy busy)
  else
    do! update (set_phase phase) in
    finally (catch body (λ error, throw (normalizeHarnessError error fallback))) (update (set_phase Idle)).

Definition compact (customInstructions : option jstr) : HM CompactionResult :=
  exclusively Compacting (js "compact() requires idle harness") CompactionFailed
    (let! result := runCompaction Manual customInstructions true in
     match result with
     | Some r => mret r
     | None => throw (EHarness CompactionFailed (js "Nothing to compact"))
     end).

(** The leaf to move to, and the text to edit. *)
Definition navigation_target (targetId : jstr) (target : Entry) : option jstr * option jstr :=
  let text content := match content with CText s => s | CBlocks l => join [] (block_texts l) end in
  match e_data target with
  | EMessage (UserMessage content _) => (e_parentId target, Some (text content))
  | ECustomMessage _ content _ _ => (e_parentId target, Some (text content))
  | _ => (Some targetId, None)
  end.

(** The summary of the hook or, where one is wanted, of the summarizer; [None]
    when that is aborted. *)
Definition navigation_summary (entries : list Entry) (options : option NavigateOptions)
    (hookResult : option SessionBeforeTreeResult) : HM (option (option jstr * option json)) :=
  let provided := hookResult ≫= btr_summary in
  if negb (truthy_opt (fst <$> provided)) && default false (options ≫= nav_summarize) && negb (bool_decide (length entries = 0%nat))
  then
    let! h := state in
    let first_of {A} (a b : option A) : option A := match a with Some _ => a | None => b end in
    let! r := of_thrown (generateBranchSummary completeSimple entries (hm_limits (h_model h))
      (first_of (hookResult ≫= btr_customInstructions) (options ≫= nav_customInstructions))
      (default false (first_of (hookResult ≫= btr_replaceInstructions) (options ≫= nav_replaceInstructions)))
      None) in
    match r with
    | Err (BranchSummaryAborted _) => mret None
    | Err e => throw (EHarness BranchSummaryFailed (branch_message_of e))
    | Ok s => mret (Some (Some (br_summary s),
        Some (JObj [(js "readFiles", JArr (map JStr (br_readFiles s)));
                    (js "modifiedFiles", JArr (map JStr (br_modifiedFiles s)))])))
    end
  else mret (Some (fst <$> provided, provided ≫= snd)).

Definition cancelled_navigation : NavigateTreeResult :=
  {| nr_cancelled := true; nr_editorText := None; nr_summaryEntry := None |}.

Definition navigateTree (targetId : jstr) (options : option NavigateOptions) : HM NavigateTreeResult :=
  exclusively Summarizing (js "navigateTree() requires idle harness") BranchSummaryFailed
    (let! oldLeafId := getLeafId in
     if bool_decide (oldLeafId = Some targetId)
     then mret {| nr_cancelled := false; nr_editorText := None; nr_summaryEntry := None |}
     else
     let! target := getEntry targetId in
     match target with
     | None => throw (EHarness InvalidArgument (js "Entry " ++ targetId ++ js " not found"))
     | Some target =>
         let! collected := walk (collectEntriesForBranchSummary oldLeafId targetId) in
         let '(entries, commonAncestorId) := collected : list Entry * option jstr in
         let preparation :=
           {| tp_targetId := targetId; tp_oldLeafId := oldLeafId; tp_commonAncestorId := commonAncestorId;
              tp_entriesToSummarize := entries; tp_userWantsSummary := default false (options ≫= nav_summarize);
              tp_customInstructions := options ≫= nav_customInstructions;
              tp_replaceInstructions := options ≫= nav_replaceInstructions; tp_label := options ≫= nav_label |} in
         let! hookResult := emitHook (js "session_before_tree") (λ handler, on_session_before_tree handler preparation) in
         if match hookResult with Some r => btr_cancel r | None => false end then mret cancelled_navigation
         else
           let! summary := navigation_summary entries options hookResult in
           match summary with
           | None => mret cancelled_navigation
           | Some (summaryText, summaryDetails) =>
               let '(newLeafId, editorText) := navigation_target targetId target in
               let fromHook := match hookResult ≫= btr_summary with Some _ => true | None => false end in
               let! summaryId := λ w,
                 let '(env, u) := next_env (w_user w) in
                 of_session (λ env', moveTo env env' newLeafId
                   (if truthy_opt summaryText
                    then Some {| bs_summary := nullish summaryText []; bs_details := summaryDetails;
                                 bs_fromHook := Some fromHook |}
                    else None)) (set_user u w) in
               let! summaryEntry :=
                 match summaryId with
                 | Some id => if truthy id
                              then let! e := getEntry id in
                                   mret (e ≫= λ e, if is_branch_summary e then Some e else None)
                              else mret None
                 | None => mret None
                 end in
               let! newLeaf := getLeafId in
               do! emitOwn (SessionTreeEvent newLeaf oldLeafId summaryEntry fromHook) None in
               mret {| nr_cancelled := false; nr_editorText := editorText; nr_summaryEntry := summaryEntry |}
           end
     end).
End harness.
