(* ===== verification/HarnessFacts.v ===== *)
(** * Theorems about the agent harness

    First the rule by which a relation that handlers, tools, clients and the
    primitive changes respect is respected by every operation; then what follows
    from it for the tools, the phase and the persisted messages; then the single
    operations. *)

From S2P Require Import Prelude JsMap JsString Json Messages SessionTree Session SessionFacts Checkpoint PortableCheckpoint CompactionText CutPoint Compaction BranchSummary AgentLoop AgentLoopFacts AgentLoopStable Agent Prompts Harness.
From Stdlib Require Import Lia.

Set Default Goal Selector "!".

(** ** The last event of a run of the loop *)

Section last_event.
Context {W : Type} `{!LoopEnv (W:=W)}.



End last_event.

Section facts.
Context {S U : Type} `{SessionStorage S} `{!HarnessEnv (S:=S) (U:=U)} (fuel : nat).
Abbreviation World := (World S U).
Abbreviation HM A := (M World Exn A).
Abbreviation St := (World * list AgentEvent)%type.
Implicit Types (w : World).

(** ** What an operation preserves *)

Section preserved.
Variable R : relation World.
Context `{!PreOrder R}.

Definition calm {A} (m : HM A) : Prop := ∀ w, R w (m w).2.

Lemma calm_ret {A} (a : A) : calm (mret a).
Proof. by intros w. Qed.
Lemma calm_throw {A} e : calm (throw (A:=A) e).
Proof. by intros w. Qed.
Lemma calm_lift {A} (r : result Exn A) : calm (lift r).
Proof. by intros w. Qed.
Lemma calm_gets {A} (f : World → A) : calm (gets f).
Proof. by intros w. Qed.
Lemma calm_read {A} (f : S → result SessionError A) : calm (read_session f).
Proof. by intros w. Qed.
Lemma calm_bind {A B} (m : HM A) (f : A → HM B) : calm m → (∀ a, calm (f a)) → calm (m ≫= f).
Proof.
  intros Hm Hf w. unfold mbind, M_bind. specialize (Hm w). destruct (m w) as [[a|e] w1]; [|done].
  simpl in *. etrans; [exact Hm|apply Hf].
Qed.
Lemma calm_catch {A} (m : HM A) h : calm m → (∀ e, calm (h e)) → calm (catch m h).
Proof.
  intros Hm Hh w. unfold catch. specialize (Hm w). destruct (m w) as [[a|e] w1]; [done|].
  simpl in *. destruct e; try done; (etrans; [exact Hm|apply Hh]).
Qed.
Lemma calm_finally {A} (m : HM A) f : calm m → calm f → calm (finally m f).
Proof.
  intros Hm Hf w. unfold finally. specialize (Hm w). destruct (m w) as [r w1]. simpl in *.
  specialize (Hf w1). assert (R w (f w1).2) by (by etrans).
  destruct r as [a|e]; [|destruct e; try done]; by destruct (f w1) as [[] ?].
Qed.

(** The changes the operations of a run make themselves. *)
Record calm_changes : Prop := {
  cc_never : ∀ w, R w (set_never w);
  cc_idle : ∀ w, R w (set_h (set_phase Idle) w);
  cc_controller : ∀ c w, R w (set_h (set_controller c) w);
  cc_steer : ∀ l w, R w (set_h (set_steer l) w);
  cc_follow : ∀ l w, R w (set_h (set_follow l) w);
  cc_next : ∀ l w, R w (set_h (set_next l) w);
  cc_runs : ∀ l w, R w (set_runs l w);
  cc_flushed : ∀ w, R w (set_h (λ h, set_writes (drop 1 (h_pendingSessionWrites h)) h) w);
  cc_write : ∀ w data rest, h_pendingSessionWrites (w_h w) = data :: rest → R w (write data w).2;
  cc_compaction : ∀ a b c d e, calm (of_session (λ env, appendCompaction env a b c d e));
}.

(** Everything the harness calls respects [R]. *)
Record calm_env : Prop := {
  ce_tool : ∀ t i args w, R w (tool_execute (tool_of t) i args w).2;
  ce_choose : ∀ w, R w (choose_call w).2;
  ce_system : ∀ m l ts r, calm (systemPrompt_callback m l ts r);
  ce_stream : ∀ m p ms ts o i l s f g, (∀ x, calm (f x)) → (∀ x y, calm (g x y)) →
    calm (streamSimple m p ms ts o i l s f g);
  ce_complete : ∀ m r w, R w (completeSimple m r w).2;
  ce_event : ∀ i e s, calm (on_event i e s);
  ce_start : ∀ i t im s r, calm (on_before_agent_start i t im s r);
  ce_context : ∀ i ms, calm (on_context i ms);
  ce_request : ∀ i m s o, calm (on_before_provider_request i m s o);
  ce_payload : ∀ i m p, calm (on_before_provider_payload i m p);
  ce_call : ∀ i a b c, calm (on_tool_call i a b c);
  ce_result : ∀ i a b c d, calm (on_tool_result i a b c d);
  ce_compact : ∀ i p es c m k t, calm (on_session_before_compact i p es c m k t);
  ce_tree : ∀ i p, calm (on_session_before_tree i p);
}.
Hypothesis Hchanges : calm_changes.
Hypothesis Henv : calm_env.

Lemma calm_modify f : (∀ w, R w (f w)) → calm (modify f).
Proof. intros Hf w. apply Hf. Qed.
Lemma calm_update f : (∀ w, R w (set_h f w)) → calm (update f).
Proof. apply calm_modify. Qed.
Lemma calm_never {A} : calm (never (A:=A)).
Proof. intros w. apply (cc_never Hchanges). Qed.
Lemma calm_walk {A} (f : S → option (result SessionError A)) : calm (walk f).
Proof. intros w. unfold walk. destruct (f (w_session w)) as [[|]|]; [done..|apply calm_never]. Qed.

Lemma calm_each {A} n type from (call : HandlerId → A → HM A) acc :
  (∀ i a, calm (call i a)) → calm (each_handler n type from call acc).
Proof.
  intros Hcall. revert from acc. induction n as [|n IH]; intros from acc; cbn [each_handler];
    (apply calm_bind; [apply calm_gets|intros h]); destruct (find_first _ _) as [[stamp handler]|];
    try apply calm_ret; try apply calm_never.
  apply calm_bind; [|intros; apply IH]. apply calm_catch; [apply Hcall|intros; apply calm_throw].
Qed.

Lemma calm_emit e s : calm (emitAny fuel e s).
Proof. apply calm_each. intros. apply (ce_event Henv). Qed.
Lemma calm_own e s : calm (emitOwn fuel e s).
Proof. apply calm_emit. Qed.
Lemma calm_hook {A} type (call : HandlerId → HM (option A)) :
  (∀ i, calm (call i)) → calm (emitHook fuel type call).
Proof. intros Hc. apply calm_each. intros. apply calm_bind; [apply Hc|intros; apply calm_ret]. Qed.

#[local] Hint Resolve calm_ret calm_throw calm_lift calm_gets calm_read calm_never calm_walk calm_emit calm_own : calm.
#[local] Hint Resolve ce_system ce_event ce_start ce_context ce_request ce_payload ce_call ce_result ce_compact ce_tree : calm.
#[local] Hint Resolve cc_never cc_idle cc_controller cc_steer cc_follow cc_next cc_runs cc_flushed cc_compaction : calm.

Ltac be_calm := repeat first
  [ solve [eauto with calm] | apply calm_bind; [|intros ?] | apply calm_catch; [|intros ?]
  | apply calm_finally | apply calm_hook; intros ? | apply calm_each; intros ? ?
  | apply calm_update; intros ?; solve [eauto with calm] | apply calm_modify; intros ?; solve [eauto with calm]
  | case_match ].

Lemma calm_state : calm state.
Proof. apply calm_gets. Qed.
Lemma calm_getEntry id : calm (getEntry id).
Proof. apply calm_gets. Qed.
Lemma calm_getLeafId : calm getLeafId.
Proof. apply calm_read. Qed.
#[local] Hint Resolve calm_state calm_getEntry calm_getLeafId : calm.

Lemma calm_queue_update : calm (emitQueueUpdate fuel).
Proof. unfold emitQueueUpdate. be_calm. Qed.
#[local] Hint Resolve calm_queue_update : calm.

Lemma calm_request m i o : calm (emitBeforeProviderRequest fuel m i o).
Proof. unfold emitBeforeProviderRequest. be_calm. Qed.
Lemma calm_payload m p : calm (emitBeforeProviderPayload fuel m p).
Proof. unfold emitBeforeProviderPayload. be_calm. Qed.

Lemma calm_stream run t m p ms ts l : calm (createStreamFn fuel run t m p ms ts l).
Proof.
  unfold createStreamFn, getTurnState. be_calm.
  apply (ce_stream Henv); [apply calm_payload|]. intros. apply calm_own.
Qed.

Lemma calm_turn_state : calm createTurnState.
Proof. unfold createTurnState. be_calm. Qed.
#[local] Hint Resolve calm_turn_state : calm.

Lemma set_h_same w : set_h (λ h, h) w = w.
Proof. by destruct w. Qed.
Lemma set_h_ext f g w : f (w_h w) = g (w_h w) → set_h f w = set_h g w.
Proof. intros Hfg. unfold set_h. by rewrite Hfg. Qed.

Lemma calm_drain queue set_queue mode :
  (∀ l w, R w (set_h (set_queue l) w)) → calm (drainQueuedMessages fuel queue set_queue mode).
Proof.
  intros Hset. unfold drainQueuedMessages. be_calm; apply calm_update; intros w.
  all: match goal with |- context [(h_epoch _ =? ?n)%nat] => destruct (h_epoch (w_h w) =? n)%nat eqn:E end.
  1,3: by erewrite (set_h_ext _ (set_queue (_ ++ queue (w_h w)))) by (by rewrite E).
  all: by rewrite (set_h_ext _ (λ h, h)), set_h_same by (by rewrite E).
Qed.

Lemma calm_steering : calm (getSteeringMessages fuel).
Proof. apply calm_drain, Hchanges. Qed.
Lemma calm_follow_up : calm (getFollowUpMessages fuel).
Proof. apply calm_drain, Hchanges. Qed.

Lemma calm_flush_loop n : calm (flush_loop n).
Proof.
  induction n as [|n IH]; intros w; cbn [flush_loop]; unfold mbind, M_bind, state, gets; simpl;
    destruct (h_pendingSessionWrites (w_h w)) as [|data rest] eqn:E; try done; [apply (cc_never Hchanges)|].
  pose proof (cc_write Hchanges _ _ _ E) as Hw. destruct (write data w) as [[[]|e] w1]; [|done].
  simpl in *. etrans; [exact Hw|]. etrans; [apply (cc_flushed Hchanges)|apply IH].
Qed.
Lemma calm_flush : calm flushPendingSessionWrites.
Proof. intros w. apply calm_flush_loop. Qed.
#[local] Hint Resolve calm_steering calm_follow_up calm_flush : calm.

Lemma calm_thrown {A} (m : M World Thrown A) : (∀ w, R w (m w).2) → calm (of_thrown m).
Proof. intros Hm w. specialize (Hm w). unfold of_thrown. by destruct (m w). Qed.

(** *** The summarizer *)

Definition calmT {A} (m : M World Thrown A) : Prop := ∀ w, R w (m w).2.
Lemma calmT_bind {A B} (m : M World Thrown A) (f : A → M World Thrown B) : calmT m → (∀ a, calmT (f a)) → calmT (m ≫= f).
Proof.
  intros Hm Hf w. unfold mbind, M_bind. specialize (Hm w). destruct (m w) as [[a|e] w1]; [|done].
  simpl in *. etrans; [exact Hm|apply Hf].
Qed.
Lemma calmT_ret {A} (a : A) : calmT (mret a).
Proof. by intros w. Qed.
Lemma calmT_complete m r : calmT (completeSimple m r).
Proof. intros w. apply (ce_complete Henv). Qed.
Lemma calmT_checkpoint {A} (r : result CheckpointError A) : calmT (lift_checkpoint r).
Proof. by intros w. Qed.
#[local] Hint Resolve calmT_ret calmT_complete calmT_checkpoint : calm.
Ltac be_calmT := repeat first [ solve [eauto with calm] | apply calmT_bind; [|intros ?] | case_match ].

Lemma calmT_summary ms m n c p l i : calmT (generateSummary completeSimple ms m n c p l i).
Proof. unfold generateSummary, summary_request. be_calmT. Qed.
Lemma calmT_prefix ms m n l i : calmT (generateTurnPrefixSummary completeSimple ms m n l i).
Proof. unfold generateTurnPrefixSummary, summary_request. be_calmT. Qed.
#[local] Hint Resolve calmT_summary calmT_prefix : calm.
Lemma calmT_compact now p m c l :
  calmT (Compaction.compact is_datetime completeSimple parse_issues entry_value now p m c l).
Proof.
  unfold Compaction.compact, generate_summaries, generatePortableCheckpoint, generate_parsed, completeCheckpoint. be_calmT.
Qed.
Lemma calmT_branch es m c r t : calmT (generateBranchSummary completeSimple es m c r t).
Proof. unfold generateBranchSummary. be_calmT. Qed.

(** *** Compaction and the loop *)

Lemma calm_compaction_result p prep m c l : calm (compaction_result p prep m c l).
Proof.
  unfold compaction_result. destruct p as [r|]; intros w; [by apply calm_thrown; intros ?|].
  apply calm_bind; [|intros; be_calm]. apply calm_thrown, calmT_compact.
Qed.
#[local] Hint Resolve calm_compaction_result : calm.
Lemma calm_runCompaction t c q : calm (runCompaction fuel t c q).
Proof. unfold runCompaction. be_calm. Qed.
#[local] Hint Resolve calm_runCompaction : calm.
Lemma calm_auto ms : calm (maybeAutoCompact fuel ms).
Proof. unfold maybeAutoCompact. be_calm. Qed.
#[local] Hint Resolve calm_auto : calm.
Lemma calm_setTurnState run t : calm (setTurnState run t).
Proof. apply calm_modify. intros. apply (cc_runs Hchanges). Qed.
#[local] Hint Resolve calm_setTurnState : calm.
Lemma calm_prepare run c : calm (prepareNextTurn fuel run c).
Proof. unfold prepareNextTurn. be_calm. Qed.

(** Events of the loop other than the end of a message. *)
Lemma calm_event e s : (∀ m, e ≠ MessageEnd m) → calm (handleAgentEvent fuel e s).
Proof. intros He. destruct e; cbn [handleAgentEvent]; try (by edestruct He); be_calm. Qed.

(** *** A run of the loop *)

(** What the loop preserves of the world and of the events so far: [Q] follows from
    [R], and the end of a message, which writes to the session, respects it. *)
Variable Q : relation St.
Context `{!PreOrder Q}.
Record follows : Prop := {
  fo_world : ∀ w w' log, R w w' → Q (w, log) (w', log);
  fo_event : ∀ e w w' log, (∀ m, e ≠ MessageEnd m) → R w w' → Q (w, log) (w', log ++ [e]);
  fo_message : ∀ m s w log, Q (w, log) ((handleAgentEvent fuel (MessageEnd m) s w).2, log ++ [MessageEnd m]);
}.
Hypothesis Hfollows : follows.

Lemma calm_to_loop {A} (m : HM A) : calm m → AgentLoopStable.calm Q (to_loop m).
Proof.
  intros Hm w log. specialize (Hm w). unfold to_loop. destruct (m w) as [r w']. by apply (fo_world Hfollows).
Qed.

Lemma loop_context_calm t s : calm_context Q (createContext t s).
Proof.
  apply Forall_map, Forall_forall. intros r _ i args w log. apply (fo_world Hfollows), (ce_tool Henv).
Qed.

Lemma loop_world_calm run t : calm_world (LoopEnv0:=loop_env fuel run t) Q.
Proof.
  split; cbn; try done.
  - intros m p ms ts l k. apply calm_to_loop, calm_stream.
  - intros e [w log]. unfold emit. cbn. unfold to_loop.
    assert (Q (w, log) ((handleAgentEvent fuel e (Some run) w).2, log ++ [e])) as Hq.
    { destruct e; try (apply (fo_event Hfollows); [done|]; by apply calm_event). apply (fo_message Hfollows). }
    by destruct (handleAgentEvent fuel e (Some run) w).
  - intros w log. apply (fo_world Hfollows), (ce_choose Henv).
  - by intros ms w log.
  - intros f ms [= <-]. apply calm_to_loop. unfold transformContext. be_calm.
  - intros f x [= <-]. apply calm_to_loop. unfold beforeToolCall. be_calm.
  - intros f x [= <-]. apply calm_to_loop. unfold afterToolCall. be_calm.
  - intros f x [= <-]. split; [apply calm_to_loop, calm_prepare|].
    intros w u w' c Hf Hc. unfold to_loop, prepareNextTurn in Hf.
    match type of Hf with (let '(_, _) := ?m in _) = _ => destruct m as [[o|e] w1] eqn:E; [|done] end.
    injection Hf as -> ->.
    apply M_bind_Ok_inv in E as (? & ? & _ & E). apply M_bind_Ok_inv in E as (? & ? & _ & E).
    apply M_bind_Ok_inv in E as (nt & ? & _ & E). apply M_bind_Ok_inv in E as (? & ? & _ & [= <- _]).
    injection Hc as <-. apply loop_context_calm.
  - intros f [= <-]. apply calm_to_loop, calm_steering.
  - intros f [= <-]. apply calm_to_loop, calm_follow_up.
Qed.

Lemma keeps_run run t prompts c config s :
  keeps Q (@runAgentLoop _ (loop_env fuel run t) fuel prompts (createContext c s) config).
Proof. apply keeps_runAgentLoop; [done|apply loop_world_calm|apply loop_context_calm]. Qed.
Lemma keeps_continue run t c config s :
  keeps Q (@runAgentLoopContinue _ (loop_env fuel run t) fuel (createContext c s) config).
Proof. apply keeps_runAgentLoopContinue; [done|apply loop_world_calm|apply loop_context_calm]. Qed.
End preserved.

(** ** What a whole run preserves *)

Section run.
Variable R : relation World.
Context `{!PreOrder R}.
Hypothesis Hchanges : calm_changes R.
Hypothesis Henv : calm_env R.
Hypothesis Hmessage : ∀ m, calm R (of_session (λ env, Session.appendMessage env m)).

Definition worlds : relation St := λ s s', R s.1 s'.1.
#[local] Instance worlds_preorder : PreOrder worlds.
Proof. split; unfold worlds; [by intros ?|intros ???; by etrans]. Qed.

Lemma calm_handle e s : calm R (handleAgentEvent fuel e s).
Proof.
  destruct e; try by apply calm_event. cbn [handleAgentEvent].
  apply calm_bind; [done|done|]. intros. by apply calm_emit.
Qed.
Lemma worlds_follow : follows R worlds.
Proof. split; [done|done|]. intros m s w log. apply calm_handle. Qed.

Lemma calm_run_loop {A} (m : M St jstr (option A)) : keeps worlds m → calm R (run_loop m).
Proof.
  intros Hm w. specialize (Hm (w, [])). unfold run_loop, worlds in *.
  destruct (m (w, [])) as [r [w' log]]. simpl in *. destruct (w_never w'); [done|].
  destruct r as [[a|]|e]; try done. simpl. etrans; [exact Hm|apply (cc_never _ Hchanges)].
Qed.

#[local] Hint Resolve calm_ret calm_throw calm_gets calm_handle calm_flush calm_auto calm_turn_state calm_setTurnState
  calm_queue_update calm_state : calm.
Ltac changed := first [ apply (cc_idle _ Hchanges) | apply (cc_controller _ Hchanges) | apply (cc_next _ Hchanges) | apply (cc_runs _ Hchanges) ].
Ltac be_calm := repeat first
  [ solve [eauto with calm] | apply calm_bind; [done| |intros ?] | apply calm_catch; [done| |intros ?]
  | apply calm_finally; [done| |] | apply calm_hook; [done..|intros ?]
  | apply calm_update; intros ?; changed | apply calm_modify; intros ?; changed
  | apply (ce_start _ Henv)
  | case_match ].

Lemma calm_await without result : calm R result → calm R (await_run without result).
Proof. intros Hr. unfold await_run. be_calm. Qed.
Lemma calm_begin t ms : calm R (begin_run fuel t ms).
Proof. unfold begin_run, new_run. be_calm. Qed.
Lemma calm_next m : calm R (take_next_turn fuel m).
Proof. unfold take_next_turn. be_calm. Qed.
Lemma calm_failure model e a signal : calm R (emitRunFailure fuel model e a signal).
Proof. unfold emitRunFailure. be_calm. Qed.
#[local] Hint Resolve calm_begin calm_next calm_failure : calm.

Lemma calm_executeTurn t text images : calm R (executeTurn fuel t text images).
Proof.
  unfold executeTurn, getTurnState. be_calm.
  apply calm_run_loop, (keeps_run R Hchanges Henv worlds worlds_follow).
Qed.
Lemma calm_continuation t : calm R (executeContinuation fuel t).
Proof.
  unfold executeContinuation, getTurnState. be_calm.
  apply calm_run_loop, (keeps_continue R Hchanges Henv worlds worlds_follow).
Qed.
End run.

(** ** The operations *)

(** The operations that need the harness to themselves. *)
Inductive structural :=
| CallPrompt (text : jstr) (images : option (list Block))
| CallContinue
| CallSkill (name : jstr) (additionalInstructions : option jstr)
| CallTemplate (name : jstr) (args : list jstr)
| CallCompact (customInstructions : option jstr)
| CallNavigate (targetId : jstr) (options : option NavigateOptions).
Definition run_structural (o : structural) : HM unit :=
  match o with
  | CallPrompt text images => do! prompt fuel text images in mret tt
  | CallContinue => do! continue fuel in mret tt
  | CallSkill name instructions => do! skill fuel name instructions in mret tt
  | CallTemplate name args => do! promptFromTemplate fuel name args in mret tt
  | CallCompact instructions => do! compact fuel instructions in mret tt
  | CallNavigate targetId options => do! navigateTree fuel targetId options in mret tt
  end.
(** All that change the harness; the two halves of [abort] are apart, since the
    run it waits for goes on in between. *)
Inductive operation :=
| Structural (o : structural)
| CallSteer (text : jstr) (images : option (list Block))
| CallFollowUp (text : jstr) (images : option (list Block))
| CallNextTurn (text : jstr) (images : option (list Block))
| CallAppend (message : AgentMessage)
| CallSetModel (model : HarnessModel)
| CallSetThinkingLevel (level : jstr)
| CallSetTools (tools : list ToolRef) (activeToolNames : option (list jstr))
| CallSetActiveTools (names : list jstr)
| CallSetSteeringMode (mode : QueueMode)
| CallSetFollowUpMode (mode : QueueMode)
| CallSetResources (resources : Resources)
| CallSetStreamOptions (options : StreamOptions)
| CallAbort
| CallAbortEnd (begun : AbortResult * list Exn * option nat)
| CallOn (type : jstr) (handler : HandlerId)
| CallUnregister (type : jstr) (handler : HandlerId).
Definition run_operation (o : operation) : HM unit :=
  match o with
  | Structural o => run_structural o
  | CallSteer text images => steer fuel text images
  | CallFollowUp text images => followUp fuel text images
  | CallNextTurn text images => nextTurn fuel text images
  | CallAppend message => appendMessage message
  | CallSetModel model => setModel fuel model
  | CallSetThinkingLevel level => setThinkingLevel fuel level
  | CallSetTools tools names => setTools fuel tools names
  | CallSetActiveTools names => setActiveTools fuel names
  | CallSetSteeringMode mode => setSteeringMode mode
  | CallSetFollowUpMode mode => setFollowUpMode mode
  | CallSetResources resources => setResources fuel resources
  | CallSetStreamOptions options => setStreamOptions options
  | CallAbort => do! abort_begin fuel in mret tt
  | CallAbortEnd begun => do! abort_end fuel begun in mret tt
  | CallOn type handler => on type handler
  | CallUnregister type handler => unregister type handler
  end.
(** One after the other, whatever they throw. *)
Definition run_operations (l : list operation) (w : World) : World := fold_left (λ w o, (run_operation o w).2) l w.

(** ** The tools *)

(** The names are keys, no name is there twice, and every active name is a tool. *)
Record tools_ok (h : HarnessState) : Prop := {
  to_keys : NoDup (map_keys (h_tools h));
  to_names : ∀ k t, (k, t) ∈ h_tools h → tref_name t = k;
  to_active : NoDup (h_activeToolNames h);
  to_known : ∀ name, name ∈ h_activeToolNames h → is_Some (map_get name (h_tools h));
}.

Lemma duplicate_fold names seen dups :
  (fold_left duplicate_step names (seen, dups)).2 = [] ↔ dups = [] ∧ NoDup names ∧ ∀ n, n ∈ names → n ∉ seen.
Proof.
  revert seen dups. induction names as [|n names IH]; intros seen dups; cbn [fold_left].
  { simpl. split; [intros ->; split; [done|split; [constructor|]]; intros n Hn; inversion Hn|by intros []]. }
  change (duplicate_step (seen, dups) n) with (set_add n seen, if set_has n seen then set_add n dups else dups).
  rewrite IH, NoDup_cons.
  destruct (set_has n seen) eqn:E.
  - apply set_has_true in E. split.
    + intros (Hd & _). assert (n ∈ set_add n dups) as Hn by (apply elem_of_set_add; by left). rewrite Hd in Hn. by inversion Hn.
    + intros (_ & _ & Hs). destruct (Hs n); [by left|done].
  - assert (n ∉ seen) as Hn by (intros Hn%set_has_true; congruence).
    split; intros (Hd & Hnd & Hs); (split; [done|]).
    + split; [split; [|done]|].
      * intros Hin. apply (Hs n Hin), elem_of_set_add. by left.
      * intros m [->|Hm]%elem_of_cons; [done|]. intros Hms. apply (Hs m Hm), elem_of_set_add. by right.
    + destruct Hnd as [Hni Hnd]. split; [done|]. intros m Hm Hms%elem_of_set_add.
      destruct Hms as [->|Hms]; [done|]. by apply (Hs m); [right|].
Qed.
Lemma unique_names names message : validateUniqueNames names message = Ok tt ↔ NoDup names.
Proof.
  unfold validateUniqueNames, findDuplicateNames. pose proof (duplicate_fold names [] []) as Hd.
  destruct (fold_left duplicate_step names ([], [])).2 as [|d l].
  - split; [|done]. intros _. by apply Hd.
  - split; [done|]. intros Hn. destruct Hd as [_ Hd]. discriminate Hd. split; [done|]. split; [done|]. intros n _. apply not_elem_of_nil.
Qed.
Lemma known_names names tools : validateToolNames names tools = Ok tt ↔
  NoDup names ∧ ∀ name, name ∈ names → is_Some (map_get name tools).
Proof.
  unfold validateToolNames. pose proof (unique_names names (js "Duplicate active tool name(s)")) as Hu.
  destruct (validateUniqueNames _ _) as [[]|e]; simpl; [|split; [done|]; intros [Hn _]; by apply Hu in Hn].
  assert (filter (λ name, map_has name tools = false) names = [] ↔ ∀ name, name ∈ names → is_Some (map_get name tools)) as Hf.
  { split.
    - intros Hf name Hin. destruct (map_get name tools) eqn:E; [done|].
      assert (name ∈ filter (λ name, map_has name tools = false) names) as Hx
        by (apply list_elem_of_filter; unfold map_has; by rewrite E).
      rewrite Hf in Hx. by inversion Hx.
    - intros Hall. destruct (filter _ names) as [|x l] eqn:E; [done|].
      assert (x ∈ filter (λ name, map_has name tools = false) names) as [Hx Hin]%list_elem_of_filter by (rewrite E; by left).
      unfold map_has in Hx. destruct (Hall x Hin) as [? Hy]. by rewrite Hy in Hx. }
  destruct (filter _ names); split; try done.
  - intros _. split; [by apply Hu|by apply Hf].
  - intros [_ Hall]. by apply Hf in Hall.
Qed.

Lemma tool_map_names tools k t : (k, t) ∈ tool_map tools → tref_name t = k.
Proof.
  unfold tool_map, map_of_entries. assert (∀ m, (∀ k t, (k, t) ∈ m → tref_name t = k) →
    ∀ k t, (k, t) ∈ fold_left (λ m kv, map_set kv.1 kv.2 m) (map (λ t, (tref_name t, t)) tools) m → tref_name t = k) as Hf.
  { induction tools as [|x tools IH]; intros m Hm; [done|]. apply IH. intros j u [Hju|Hju]%map_set_elem; [by simplify_eq/=|by apply Hm]. }
  apply Hf. intros ? ? Hin. by inversion Hin.
Qed.

Lemma set_tools_ok tools active h :
  NoDup (map_keys tools) → (∀ k t, (k, t) ∈ tools → tref_name t = k) → validateToolNames active tools = Ok tt →
  tools_ok (set_tools tools active h).
Proof. intros Hk Hn [Ha Hs]%known_names. by split. Qed.

Lemma newHarness_ok o h : newHarness o = Ok h → tools_ok h.
Proof.
  unfold newHarness. intros (_ & _ & Hh)%result_bind_ok. apply result_bind_ok in Hh as (_ & _ & Hh).
  apply result_bind_ok in Hh as ([] & [Ha Hs]%known_names & [= <-]). split; simpl; [|apply tool_map_names|done|done].
  apply map_of_entries_NoDup.
Qed.

(** The active tools of a turn are those named, in the order of the names. *)
Lemma active_tools_names h : tools_ok h →
  getActiveTools h = map Some (active_tools h) ∧ map tref_name (active_tools h) = h_activeToolNames h.
Proof.
  intros [Hk Hn Ha Hs]. unfold getActiveTools, active_tools. clear Ha.
  induction (h_activeToolNames h) as [|n l IH]; [done|]. cbn [map omap list_omap].
  destruct (Hs n) as [t Ht]; [by left|]. rewrite Ht. destruct IH as [IH1 IH2]; [intros; apply Hs; by right|].
  cbn [map]. split; f_equal; try done. apply Hn, map_get_elem, Ht.
Qed.

Section tools.
Definition keeps_tools : relation World := λ w w', tools_ok (w_h w) → tools_ok (w_h w').
#[local] Instance keeps_tools_preorder : PreOrder keeps_tools.
Proof. split; unfold keeps_tools; [by intros ?|intros ???; tauto]. Qed.

Definition same_tools (f : HarnessState → HarnessState) : Prop :=
  ∀ h, h_tools (f h) = h_tools h ∧ h_activeToolNames (f h) = h_activeToolNames h.
Lemma keeps_h f w : same_tools f → keeps_tools w (set_h f w).
Proof. intros Hf [H1 H2 H3 H4]. destruct (Hf (w_h w)) as [E1 E2]. split; simpl; rewrite ?E1, ?E2; done. Qed.
Lemma keeps_same w w' : w_h w' = w_h w → keeps_tools w w'.
Proof. unfold keeps_tools. by intros ->. Qed.
Lemma keeps_session {A} (m : Env → M S SessionError A) : calm keeps_tools (of_session m).
Proof. intros w. apply keeps_same. unfold of_session. by destruct (next_env _), (m _ _). Qed.
Lemma write_h data w : w_h (write data w).2 = w_h w.
Proof.
  assert (∀ A (m : Env → M S SessionError A) w, w_h (of_session m w).2 = w_h w) as Hs.
  { intros A m w0. unfold of_session. by destruct (next_env _), (m _ _). }
  assert (∀ A (m : Env → M S SessionError A) w, w_h ((do! of_session m in mret tt) w).2 = w_h w) as Hb.
  { intros A m w0. unfold mbind, M_bind. specialize (Hs A m w0). by destruct (of_session m w0) as [[a|e] w1]. }
  destruct data; cbn [write]; try apply Hb; try apply Hs; done.
Qed.
Lemma keeps_changes : calm_changes keeps_tools.
Proof.
  split; try (by intros; apply keeps_h); try (by intros; apply keeps_same).
  - intros. apply keeps_same, write_h.
  - intros. apply keeps_session.
Qed.

Hypothesis Henv : calm_env keeps_tools.

Lemma keeps_update f : same_tools f → calm keeps_tools (update f).
Proof. intros Hf. apply calm_update. intros w. by apply keeps_h. Qed.
Lemma keeps_tools_emit e s : calm keeps_tools (emitAny fuel e s).
Proof. apply calm_emit; [apply _|apply keeps_changes|done]. Qed.
Lemma keeps_queue_update : calm keeps_tools (emitQueueUpdate fuel).
Proof. apply calm_queue_update; [apply _|apply keeps_changes|done]. Qed.
Lemma keeps_write_or_queue data : calm keeps_tools (write_or_queue data).
Proof.
  unfold write_or_queue. apply calm_bind; [apply _|apply calm_gets, _|intros h]. case_bool_decide.
  - intros w. apply keeps_same, write_h.
  - by apply keeps_update.
Qed.
Lemma keeps_turn_state : calm keeps_tools createTurnState.
Proof. apply calm_turn_state; [apply _|apply keeps_changes|done]. Qed.
Lemma keeps_turn_body t text images : calm keeps_tools (executeTurn fuel t text images).
Proof. apply calm_executeTurn; [apply _|apply keeps_changes|done|intros; apply keeps_session]. Qed.
Lemma keeps_continue_body t : calm keeps_tools (executeContinuation fuel t).
Proof. apply calm_continuation; [apply _|apply keeps_changes|done|intros; apply keeps_session]. Qed.

#[local] Hint Resolve keeps_session keeps_tools_emit keeps_queue_update keeps_write_or_queue keeps_turn_state
  keeps_turn_body keeps_continue_body : tools.

Ltac keep_tools := repeat first
  [ solve [auto with tools] | apply calm_ret, _ | apply calm_throw, _ | apply calm_gets, _ | apply calm_read, _ | apply calm_lift, _
  | apply keeps_update; done | apply calm_flush; [apply _|apply keeps_changes]
  | apply calm_bind; [apply _| |intros ?] | apply calm_catch; [apply _| |intros ?] | apply calm_finally; [apply _| |]
  | apply calm_modify; intros ?; by apply keeps_same | case_match ].

Lemma keeps_as_turn {A} (body : HM A) : calm keeps_tools body → calm keeps_tools (as_turn body).
Proof.
  intros Hb. unfold as_turn. keep_tools; try done; intros w;
    first [by apply (keeps_h (set_promise (Some (length (w_promises w)))))|by apply (keeps_h (set_promise None))].
Qed.
Lemma keeps_exclusively {A} p b f (body : HM A) : calm keeps_tools body → calm keeps_tools (exclusively p b f body).
Proof. intros Hb. unfold exclusively. keep_tools; done. Qed.

(** Between the check of the names and the assignment only the session changes. *)
Lemma write_or_queue_tools data w :
  h_tools (w_h (write_or_queue data w).2) = h_tools (w_h w).
Proof.
  unfold write_or_queue, mbind, M_bind. cbn. case_bool_decide; [by rewrite write_h|done].
Qed.

(** A change that fits the tools. *)
Definition change_ok (c : ToolsChange) (h : HarnessState) : Prop :=
  NoDup (map_keys (nullish (tc_tools c) (h_tools h)))
  ∧ (∀ k t, (k, t) ∈ nullish (tc_tools c) (h_tools h) → tref_name t = k)
  ∧ validateToolNames (tc_active c) (nullish (tc_tools c) (h_tools h)) = Ok tt.
Lemma change_ok_tools c h h' :
  change_ok c h → (tc_tools c = None → h_tools h' = h_tools h) → change_ok c h'.
Proof. unfold change_ok. destruct (tc_tools c); cbn; [done|]. intros Hc E. by rewrite E. Qed.

(** What is checked fits. *)
Definition checks (check : HM ToolsChange) : Prop := ∀ w,
  (check w).2 = w ∧ ∀ c w', check w = (Ok c, w') → tools_ok (w_h w) → change_ok c (w_h w).
Lemma setTools_checks tools names : checks (setTools_check tools names).
Proof.
  intros w. unfold setTools_check, of_result, lift, state, gets, mbind, M_bind, mret, M_ret.
  destruct (validateUniqueNames _ _) as [[]|]; [|done]. cbv beta iota.
  destruct (validateToolNames _ _) as [[]|] eqn:E; [|done]. split; [done|]. intros c w' [= <- <-] _.
  split; [apply map_of_entries_NoDup|]. split; [apply tool_map_names|exact E].
Qed.
Lemma setActiveTools_checks names : checks (setActiveTools_check names).
Proof.
  intros w. unfold setActiveTools_check, of_result, lift, state, gets, mbind, M_bind, mret, M_ret.
  destruct (validateToolNames _ _) as [[]|] eqn:E; [|done]. split; [done|]. intros c w' [= <- <-] [H1 H2 _ _]. done.
Qed.

Lemma change_keeps c w : change_ok c (w_h w) → tools_ok (w_h (tools_changed fuel c w).2).
Proof.
  intros (H1 & H2 & H3). unfold tools_changed, mbind, M_bind, update, modify, state, gets. cbv beta iota.
  apply keeps_tools_emit. by apply set_tools_ok.
Qed.

Lemma keeps_change check : checks check → calm keeps_tools (change_tools fuel check).
Proof.
  intros Hc. unfold change_tools. apply calm_catch; [apply _| |intros; apply calm_throw, _].
  intros w Hok. destruct (Hc w) as [Hw Hx]. unfold mbind, M_bind. destruct (check w) as [[c|e] w0] eqn:E; cbn in Hw; subst w0; [|done].
  specialize (Hx c w eq_refl Hok). pose proof (write_or_queue_tools (EActiveToolsChange (tc_active c)) w) as Ht.
  pose proof (keeps_write_or_queue (EActiveToolsChange (tc_active c)) w Hok) as Hk.
  destruct (write_or_queue _ w) as [[[]|e] w1]; [|exact Hk]. apply change_keeps. eapply change_ok_tools; [exact Hx|by intros _].
Qed.
Lemma keeps_setTools tools names : calm keeps_tools (setTools fuel tools names).
Proof. apply keeps_change, setTools_checks. Qed.
Lemma keeps_setActiveTools names : calm keeps_tools (setActiveTools fuel names).
Proof. apply keeps_change, setActiveTools_checks. Qed.

Lemma keeps_navigation es o r : calm keeps_tools (navigation_summary es o r).
Proof.
  unfold navigation_summary. destruct (_ && _); [|apply calm_ret, _].
  apply calm_bind; [apply _|apply calm_gets, _|intros h]. apply calm_bind; [apply _| |intros x; keep_tools].
  apply calm_thrown. apply calmT_branch; first [apply _|apply keeps_changes|done].
Qed.
Lemma keeps_move targets env summary :
  calm keeps_tools (λ w, of_session (λ env', moveTo (env w) env' targets summary) (set_user (next_env (w_user w)).2 w)).
Proof. intros w. etrans; [|apply keeps_session]. by apply keeps_same. Qed.

Lemma keeps_structural o : calm keeps_tools (run_structural o).
Proof.
  destruct o; cbn [run_structural]; (apply calm_bind; [apply _| |intros; apply calm_ret, _]);
    try (apply keeps_as_turn; keep_tools).
  - apply keeps_exclusively. apply calm_bind; [apply _| |intros; keep_tools].
    apply calm_runCompaction; [apply _|apply keeps_changes|done].
  - apply keeps_exclusively. apply calm_bind; [apply _|apply calm_read, _|intros old]. case_bool_decide; [apply calm_ret, _|].
    apply calm_bind; [apply _|apply calm_gets, _|intros [target|]]; [|apply calm_throw, _].
    apply calm_bind; [apply _|apply calm_walk, keeps_changes; apply _|intros [entries ancestor]].
    apply calm_bind; [apply _|apply calm_hook; [apply _|apply keeps_changes|intros; apply (ce_tree _ Henv)]|intros r].
    destruct (match r with Some _ => _ | None => _ end); [apply calm_ret, _|].
    apply calm_bind; [apply _|apply keeps_navigation|intros [[text details]|]]; [|apply calm_ret, _].
    destruct (navigation_target _ _) as [leaf editor]. apply calm_bind; [apply _| |intros id; keep_tools].
    intros w. cbv beta. destruct (next_env (w_user w)) as [env u]. etrans; [|apply keeps_session]. by apply keeps_same.
Qed.

Lemma keeps_operation o : calm keeps_tools (run_operation o).
Proof.
  destruct o; cbn [run_operation]; try apply keeps_setTools; try apply keeps_setActiveTools; try apply keeps_structural.
  - unfold steer, push_queue. keep_tools.
  - unfold followUp, push_queue. keep_tools.
  - unfold nextTurn, push_queue. keep_tools.
  - unfold appendMessage. keep_tools.
  - unfold setModel. keep_tools.
  - unfold setThinkingLevel. keep_tools.
  - unfold setSteeringMode. keep_tools.
  - unfold setFollowUpMode. keep_tools.
  - unfold setResources. keep_tools.
  - unfold setStreamOptions. keep_tools.
  - unfold abort_begin, signal_abort. keep_tools.
  - unfold abort_end. keep_tools.
  - unfold on, register. apply keeps_update. intros h. by destruct (existsb _ _).
  - unfold unregister. keep_tools.
Qed.

End tools.

(** ** The phase *)

Section phase.

(** A step leaves the phase or ends in the idle one, and keeps the promises that
    exist; from a call that never settles nothing is asked. *)
Definition settles : relation World := λ w w',
  w_never w' = true ∨
  w_never w = false ∧ (h_phase (w_h w') = h_phase (w_h w) ∨ h_phase (w_h w') = Idle)
  ∧ (length (w_promises w) <= length (w_promises w'))%nat.
#[local] Instance settles_preorder : PreOrder settles.
Proof.
  split; unfold settles.
  - intros w. destruct (w_never w); [by left|right; eauto].
  - intros w1 w2 w3 [H1|(H1 & P1 & L1)] [H2|(H2 & P2 & L2)]; [by left|congruence|by left|].
    right. split; [done|]. split; [|lia]. destruct P2 as [->|P2]; [done|by right].
Qed.




Hypothesis Henv : calm_env settles.












End phase.
End facts.
