(* ===== verification/HarnessSession.v ===== *)
(** * What a run of the harness persists

    Over the in-memory storage: the messages of a run become entries of the session
    exactly once and in order, and queued writes are flushed in order. *)

From S2P Require Import Prelude JsMap JsString Json Messages SessionTree Session SessionFacts Checkpoint PortableCheckpoint CompactionText CutPoint Compaction BranchSummary AgentLoop AgentLoopFacts AgentLoopStable Agent Prompts Harness HarnessFacts.
From Stdlib Require Import Lia.

Set Default Goal Selector "!".

Abbreviation Storage := InMemorySessionStorage.

Section facts.
Context {U : Type} `{!HarnessEnv (S:=Storage) (U:=U)} (fuel : nat).
Abbreviation World := (World Storage U).
Abbreviation HM A := (M World Exn A).
Abbreviation St := (World * list AgentEvent)%type.
Implicit Types (w : World).

(** ** The messages of the session *)

Definition data_message (d : EntryData) : option AgentMessage :=
  match d with EMessage m => Some m | _ => None end.
Definition stored w : list AgentMessage := omap (λ e, data_message (e_data e)) (ms_entries (w_session w)).
Definition leaf_ok w : Prop := leaf_present (ms_byId (w_session w)) (ms_leafId (w_session w)) = Ok (ms_leafId (w_session w)).
(** No message waits to be written. *)
Definition quiet w : Prop := omap data_message (h_pendingSessionWrites (w_h w)) = [].
Definition good w : Prop := leaf_ok w ∧ quiet w.

(** Steps that store no message. *)
Definition stores_none : relation World := λ w w', good w → good w' ∧ stored w' = stored w.
#[local] Instance stores_none_preorder : PreOrder stores_none.
Proof.
  split; unfold stores_none; [by intros ?|]. intros w1 w2 w3 H1 H2 [H3 H4]%H1. apply H2 in H3 as [H3 ->]. done.
Qed.

(** What the events tell is what is stored. *)
Definition stores : relation St := λ s s', ∃ evs, s'.2 = s.2 ++ evs ∧ (good s.1 → good s'.1 ∧ stored s'.1 = stored s.1 ++ ended evs).
#[local] Instance stores_preorder : PreOrder stores.
Proof.
  split; unfold stores.
  - intros s. exists []. by rewrite !app_nil_r.
  - intros s1 s2 s3 (e1 & E1 & H1) (e2 & E2 & H2). exists (e1 ++ e2). split; [by rewrite E2, E1, <- (assoc_L (++))|].
    intros [H3 H4]%H1. apply H2 in H3 as [H3 ->]. split; [done|]. by rewrite H4, ended_app, <- (assoc_L (++)).
Qed.

(** A change of the harness state but the queued writes, and one of the rest of the world. *)
Lemma none_h f w : (∀ h, h_pendingSessionWrites (f h) = h_pendingSessionWrites h) → stores_none w (set_h f w).
Proof. intros Hf [Hl Hq]. split; [|done]. split; [done|]. unfold quiet. simpl. by rewrite Hf. Qed.
Lemma none_same w w' : w_h w' = w_h w → w_session w' = w_session w → stores_none w w'.
Proof. intros Hh Hs [Hl Hq]. unfold good, leaf_ok, quiet, stored. by rewrite Hh, Hs. Qed.

(** An entry under the leaf: its message, if it has one, is stored. *)
Lemma append_stores w data env st' r :
  leaf_ok w → (∀ t, data ≠ ELeaf t) → appendUnderLeaf env data (w_session w) = (r, st') →
  is_ok r = true ∧ ms_entries st' = ms_entries (w_session w) ++ [leaf_entry env (w_session w) data]
  ∧ leaf_present (ms_byId st') (ms_leafId st') = Ok (ms_leafId st').
Proof.
  intros Hl Hd. unfold appendUnderLeaf, mbind, M_bind, gets, get, lift. simpl. unfold ms_getLeafId. rewrite Hl.
  intros [= <- <-]. simpl. split; [done|]. split; [done|].
  assert (leafIdAfterEntry (leaf_entry env (w_session w) data) = Some (ms_createEntryId env (w_session w))) as Hle.
  { unfold leafIdAfterEntry, leaf_entry. simpl. destruct data; try done. by destruct (Hd targetId). }
  unfold leaf_entry in Hle. simpl in Hle. rewrite Hle. unfold leaf_present, has_id. rewrite bool_decide_eq_true_2; [done|].
  rewrite lookup_insert_eq. done.
Qed.

Lemma under_leaf w data : (∀ t, data ≠ ELeaf t) → good w →
  is_ok (of_session (λ env, appendUnderLeaf env data) w).1 = true
  ∧ good (of_session (λ env, appendUnderLeaf env data) w).2
  ∧ stored (of_session (λ env, appendUnderLeaf env data) w).2 = stored w ++ option_list (data_message data).
Proof.
  intros Hd [Hl Hq]. unfold of_session. destruct (next_env (w_user w)) as [env u].
  destruct (appendUnderLeaf env data (w_session w)) as [r st'] eqn:E.
  apply append_stores in E as (Hr & He & Hl'); [|done..]. split; [by destruct r|]. split; [by split|].
  unfold stored. simpl. rewrite He, omap_app. f_equal.
Qed.

Lemma none_under data : (∀ t, data ≠ ELeaf t) → data_message data = None →
  calm stores_none (of_session (λ env, appendUnderLeaf env data)).
Proof. intros Hd Hm w Hg. destruct (under_leaf w data Hd Hg) as (_ & H1 & H2). split; [done|]. by rewrite H2, Hm, app_nil_r. Qed.

Lemma none_set_leaf id : calm stores_none (of_session (λ env, st_setLeafId env id)).
Proof.
  intros w [Hl Hq]. unfold of_session. destruct (next_env (w_user w)) as [env u]. cbn [st_setLeafId InMemoryStorage].
  unfold ms_setLeafId. destruct (match id with Some _ => _ | None => _ end) eqn:E; [done|].
  split; [|unfold stored; simpl; by rewrite omap_app, app_nil_r]. split; [|done]. unfold leaf_ok, leaf_present. simpl.
  destruct id as [id|]; [|done]. apply negb_false_iff in E. unfold has_id in *. apply bool_decide_eq_true in E as [e He].
  rewrite bool_decide_eq_true_2; [done|]. destruct (decide (id = generateEntryId (env_uuid env) (ms_byId (w_session w)))) as [->|];
    [by rewrite lookup_insert_eq|by rewrite lookup_insert_ne, He].
Qed.

Lemma none_write data : data_message data = None → calm stores_none (write data).
Proof.
  assert (∀ d, (∀ t, d ≠ ELeaf t) → data_message d = None →
    calm stores_none (do! of_session (λ env, appendUnderLeaf env d) in mret tt)) as Hu.
  { intros d Hd Hm. apply calm_bind; [apply _|by apply none_under|intros; apply calm_ret, _]. }
  intros Hm. destruct data; cbn [write]; try (apply Hu; done); try (apply calm_ret, _); try done.
  - apply calm_bind; [apply _| |intros; apply calm_ret, _]. intros w. unfold of_session, appendLabel, mbind, M_bind, gets.
    destruct (next_env (w_user w)) as [env u] eqn:E. destruct (st_getEntry targetId (w_session w)); [|by apply none_same].
    pose proof (none_under (ELabel targetId label) ltac:(done) eq_refl w) as Hw. unfold of_session in Hw. by rewrite E in Hw.
  - apply none_set_leaf.
Qed.

Lemma none_changes : calm_changes stores_none.
Proof.
  split; try (by intros; apply none_h); try (by intros; apply none_same).
  - intros w [Hl Hq]. split; [|done]. split; [done|]. unfold quiet in *. simpl. destruct (h_pendingSessionWrites (w_h w)) as [|d l]; [done|].
    simpl in *. rewrite drop_0. by destruct (data_message d).
  - intros w data rest Hp Hg. apply none_write; [|done]. destruct Hg as [_ Hq]. unfold quiet in Hq. rewrite Hp in Hq. simpl in Hq.
    by destruct (data_message data).
  - intros. by apply none_under.
Qed.

(** ** A run *)

Hypothesis Henv : calm_env stores_none.

Lemma message_end m s w : good w →
  good (handleAgentEvent fuel (MessageEnd m) s w).2 ∧ stored (handleAgentEvent fuel (MessageEnd m) s w).2 = stored w ++ [m].
Proof.
  intros Hg. cbn [handleAgentEvent]. unfold mbind, M_bind. destruct (under_leaf w (EMessage m) ltac:(done) Hg) as (Hr & H1 & H2).
  change (Session.appendMessage ?env m) with (appendUnderLeaf env (EMessage m)).
  destruct (of_session _ w) as [[id|e] w1]; [|done]. simpl in *.
  destruct (calm_emit fuel stores_none none_changes Henv (LoopEvent (MessageEnd m)) s w1 H1) as [H3 ->]. done.
Qed.
Lemma stores_follow : follows fuel stores_none stores.
Proof.
  split.
  - intros w w' log HR. exists []. simpl. rewrite !app_nil_r. done.
  - intros e w w' log He HR. exists [e]. split; [done|]. destruct e; try (by simpl; rewrite app_nil_r). by edestruct He.
  - intros m s w log. exists [MessageEnd m]. split; [done|]. apply message_end.
Qed.

Lemma none_Ok {A} (m : HM A) w r w' : calm stores_none m → m w = (r, w') → good w → good w' ∧ stored w' = stored w.
Proof. intros Hm E Hg. specialize (Hm w Hg). by rewrite E in Hm. Qed.

(** The failure of a run is stored as its last message. *)
Lemma failure_stores model e aborted signal w ms w' : good w →
  emitRunFailure fuel model e aborted signal w = (Ok ms, w') →
  ∃ m, ms = [Assistant m] ∧ is_failed m = true ∧ good w' ∧ stored w' = stored w ++ ms.
Proof.
  intros Hg. unfold emitRunFailure. intros (m & w0 & [= <- <-] & E)%M_bind_Ok_inv.
  apply M_bind_Ok_inv in E as (? & w1 & E1 & E). apply M_bind_Ok_inv in E as (? & w2 & E2 & E).
  apply M_bind_Ok_inv in E as (? & w3 & E3 & E). apply M_bind_Ok_inv in E as (? & w4 & E4 & [= <- <-]).
  assert (∀ ev, (∀ m, ev ≠ MessageEnd m) → calm stores_none (handleAgentEvent fuel ev (Some signal))) as Hc.
  { intros ev Hev. by apply calm_event; [apply _|apply none_changes|..]. }
  apply none_Ok in E1 as [G1 S1]; [|by apply Hc|done]. pose proof (message_end (Assistant (createFailureMessage model e aborted (date (w_user w)))) (Some signal) w1 G1) as [G2 S2].
  rewrite E2 in G2, S2. simpl in G2, S2.
  apply none_Ok in E3 as [G3 S3]; [|by apply Hc|done]. apply none_Ok in E4 as [G4 S4]; [|by apply Hc|done].
  eexists. split; [done|]. split; [by destruct aborted|]. split; [done|]. by rewrite S4, S3, S2, S1.
Qed.

(** A run of the loop stores the messages whose ends it reports. *)
Lemma loop_stores (m : M St jstr (option (list AgentMessage))) w r w' : good w →
  keeps stores m → run_loop m w = (r, w') → r ≠ Err ENever →
  good w' ∧ ∃ o log, m (w, []) = (o, (w', log)) ∧ stored w' = stored w ++ ended log
    ∧ match r with Ok ms => o = Ok (Some ms) | Err _ => ∃ e, o = Err e end.
Proof.
  intros Hg Hm. specialize (Hm (w, [])). unfold run_loop. destruct (m (w, [])) as [o [w1 log]].
  destruct Hm as (evs & Hlog & Hs). simpl in *. destruct (Hs Hg) as [Hg' Hst]. subst log.
  destruct (w_never w1); [by intros [= <- <-] []|].
  destruct o as [[a|]|e]; [|by intros [= <- <-] []|]; intros [= <- <-] _; (split; [done|]; eexists _, evs; by eauto).
Qed.

Lemma finally_Ok {A} (m : HM A) f w a w' : finally m f w = (Ok a, w') → ∃ w1, m w = (Ok a, w1) ∧ f w1 = (Ok tt, w').
Proof.
  unfold finally. destruct (m w) as [r w1]. intros Hf. exists w1. destruct r as [b|e]; [|by destruct e; destruct (f w1) as [[]]].
  destruct (f w1) as [[[]|e] w2]; [|done]. by injection Hf as <- <-.
Qed.
Lemma catch_Ok {A} (m : HM A) h w a w' : catch m h w = (Ok a, w') →
  m w = (Ok a, w') ∨ ∃ e w1, e ≠ ENever ∧ m w = (Err e, w1) ∧ h e w1 = (Ok a, w').
Proof.
  unfold catch. destruct (m w) as [[b|e] w1]; [by left|]. intros Hc. right. exists e, w1. by destruct e.
Qed.

Lemma none_await without result w a w' :
  await_run without result w = (Ok a, w') →
  ∃ ms w1, result w = (Ok ms, w1) ∧ last_assistant ms = Some a ∧ (good w1 → good w' ∧ stored w' = stored w1).
Proof.
  intros (w1 & E & Hf)%finally_Ok. apply M_bind_Ok_inv in E as (ms & w3 & E & Hl).
  destruct (last_assistant ms) eqn:El; [|done]. injection Hl as <- <-. exists ms, w3. split; [done|]. split; [done|].
  intros Hg. eapply none_Ok; [|exact Hf|done]. apply calm_finally; [apply _|apply calm_flush; [apply _|apply none_changes]|].
  apply calm_update. intros. apply (cc_controller _ none_changes).
Qed.

(** What the session got from a run [m] of the loop that answered with [a]: the messages the
    run returns, which are those whose ends it reported, the prompts first; when the run threw,
    those it had reported until then and the message of its failure. *)
Definition run_stored (m : M St jstr (option (list AgentMessage))) (prompts : list AgentMessage) (a : AssistantMessage)
    (before after : list AgentMessage) : Prop :=
  ∃ w r w' log, stored w = before ∧ m (w, []) = (r, (w', log)) ∧
    match r with
    | Ok (Some ms) => ms = ended log ∧ prompts `prefix_of` ms ∧ last_assistant ms = Some a ∧ after = before ++ ms
    | Ok None => False
    | Err _ => is_failed a = true ∧ after = before ++ ended log ++ [Assistant a]
    end.

(** The runs of a prompt and of a continuation. *)
Definition prompt_run (run : nat) (t active : TurnState) (systemPrompt : option jstr) (prompts : list AgentMessage) :
    M St jstr (option (list AgentMessage)) :=
  @runAgentLoop World (loop_env fuel run t) fuel prompts (createContext active systemPrompt) (createLoopConfig active).
Definition continue_run (run : nat) (t active : TurnState) : M St jstr (option (list AgentMessage)) :=
  @runAgentLoopContinue World (loop_env fuel run t) fuel (createContext active None) (createLoopConfig active).

(** A run that returns, or its failure. *)
Lemma run_stores (m : M St jstr (option (list AgentMessage))) h prompts w ms w' : good w →
  keeps stores m →
  (∀ ms st', m (w, []) = (Ok (Some ms), st') → ended st'.2 = ms ∧ prompts `prefix_of` ms) →
  (∀ e w1 ms w', good w1 → h e w1 = (Ok ms, w') →
     ∃ m, ms = [Assistant m] ∧ is_failed m = true ∧ good w' ∧ stored w' = stored w1 ++ ms) →
  catch (run_loop m) h w = (Ok ms, w') →
  good w' ∧ ∀ a, last_assistant ms = Some a → run_stored m prompts a (stored w) (stored w').
Proof.
  intros Hg Hm Hms Hh [E|(e & w1 & Hne & E & Ec)]%catch_Ok.
  - eapply loop_stores in E as (Hg' & o & log & Em & Hs & ->); [|done..]. split; [done|].
    destruct (Hms _ _ Em) as [Hl Hp]. simpl in Hl. intros a Ha. exists w, (Ok (Some ms)), w', log. by rewrite Hs, Hl.
  - eapply loop_stores in E as (Hg' & o & log & Em & Hs & [e' ->]); [|done..|congruence].
    apply Hh in Ec as (m' & -> & Hf & Hg2 & Hs2); [|done]. split; [done|]. intros a [= ->].
    exists w, (Err e'), w1, log. by rewrite Hs2, Hs, <- (assoc_L (++)).
Qed.

Lemma calm_begin_none t ms : calm stores_none (begin_run fuel t ms).
Proof. apply calm_begin; [apply _|apply none_changes|done]. Qed.
Lemma calm_take_none m : calm stores_none (take_next_turn fuel m).
Proof. apply calm_next; [apply _|apply none_changes|done]. Qed.
Lemma calm_turn_state_none : calm stores_none createTurnState.
Proof. apply calm_turn_state; [apply _|apply none_changes|done]. Qed.

(** The prompts of a turn: the queued messages and the new one. *)
Lemma take_next_messages m w l w' : take_next_turn fuel m w = (Ok l, w') → l = h_nextTurnQueue (w_h w) ++ [m].
Proof.
  unfold take_next_turn. intros (h & w1 & [= <- <-] & E)%M_bind_Ok_inv. destruct (h_nextTurnQueue (w_h w)) as [|x q]; [by injection E as <-|].
  apply M_bind_Ok_inv in E as (? & ? & _ & E). by apply M_bind_Ok_inv in E as (? & ? & _ & [= <- _]).
Qed.

Lemma executeTurn_stores t text images w a w' : good w → executeTurn fuel t text images w = (Ok a, w') →
  good w' ∧ ∃ extra run active systemPrompt,
    let prompts := h_nextTurnQueue (w_h w) ++ createUserMessage text images (date (w_user w)) :: extra in
    run_stored (prompt_run run t active systemPrompt prompts) prompts a (stored w) (stored w').
Proof.
  intros Hg. unfold executeTurn. intros (m & w0 & [= <- <-] & E)%M_bind_Ok_inv.
  apply M_bind_Ok_inv in E as (l & w1 & E1 & E). pose proof (take_next_messages _ _ _ _ E1) as ->.
  apply none_Ok in E1 as [G1 S1]; [|apply calm_take_none|done].
  apply M_bind_Ok_inv in E as (before & w2 & E2 & E).
  apply none_Ok in E2 as [G2 S2]; [|apply calm_hook; [apply _|apply none_changes|intros; apply (ce_start _ Henv)]|done].
  apply M_bind_Ok_inv in E as (run & w3 & E3 & E). apply none_Ok in E3 as [G3 S3]; [|apply calm_begin_none|done].
  apply M_bind_Ok_inv in E as (active & w4 & [= <- <-] & E).
  apply none_await in E as (ms & w5 & E & Hl & Hw).
  eapply (run_stores _ _ ((h_nextTurnQueue (w_h w) ++ [createUserMessage text images (date (w_user w))])
            ++ nullish (before ≫= bas_messages) [])) in E as [G5 Ht]; [|done|..].
  - destruct (Hw G5) as [G6 S6]. split; [done|].
    eexists (nullish (before ≫= bas_messages) []), run, _, (before ≫= bas_systemPrompt). cbn zeta.
    rewrite S6, <- S1, <- S2, <- S3. apply Ht in Hl. unfold prompt_run. rewrite <- (assoc_L (++)) in Hl. exact Hl.
  - apply (keeps_run fuel stores_none none_changes Henv stores stores_follow).
  - intros ms' st' Hr. apply runAgentLoop_trace in Hr as (mid & Hlog & _ & Hended & Hp). split; [|done].
    rewrite Hlog. simpl. rewrite ended_app. simpl. by rewrite app_nil_r.
  - clear -Henv. intros e w1 ms w' Hg (active & w2 & [= <- <-] & E)%M_bind_Ok_inv. apply M_bind_Ok_inv in E as (ab & w3 & [= <- <-] & E).
    apply catch_Ok in E as [E|(? & ? & _ & _ & E)]; [|done]. by eapply failure_stores.
Qed.

Lemma executeContinuation_stores t w a w' : good w → executeContinuation fuel t w = (Ok a, w') →
  good w' ∧ ∃ run active, run_stored (continue_run run t active) [] a (stored w) (stored w').
Proof.
  intros Hg. unfold executeContinuation. intros (run & w3 & E3 & E)%M_bind_Ok_inv.
  apply none_Ok in E3 as [G3 S3]; [|apply calm_begin_none|done].
  apply M_bind_Ok_inv in E as (active & w4 & [= <- <-] & E).
  apply none_await in E as (ms & w5 & E & Hl & Hw). eapply (run_stores _ _ []) in E as [G5 Ht]; [|done|..].
  - destruct (Hw G5) as [G6 S6]. split; [done|]. eexists run, _. rewrite S6, <- S3. by apply Ht.
  - apply (keeps_continue fuel stores_none none_changes Henv stores stores_follow).
  - intros ms' st' Hr. apply runAgentLoopContinue_messages in Hr as (_ & mid & Hlog & _ & Hended). split; [|apply prefix_nil].
    rewrite Hlog. simpl. rewrite ended_app. simpl. by rewrite app_nil_r.
  - clear -Henv. intros e w1 ms w' Hg (active & w2 & [= <- <-] & E)%M_bind_Ok_inv. apply M_bind_Ok_inv in E as (ab & w3 & [= <- <-] & E).
    by eapply failure_stores.
Qed.

(** The frame adds and removes no message. *)
Lemma as_turn_Ok {A} (body : HM A) w a w' : as_turn body w = (Ok a, w') →
  ∃ w1 w2, body w1 = (Ok a, w2) ∧ w_session w1 = w_session w ∧ w_session w' = w_session w2
    ∧ h_pendingSessionWrites (w_h w1) = h_pendingSessionWrites (w_h w) ∧ h_pendingSessionWrites (w_h w') = h_pendingSessionWrites (w_h w2)
    ∧ h_nextTurnQueue (w_h w1) = h_nextTurnQueue (w_h w) ∧ h_systemPrompt (w_h w1) = h_systemPrompt (w_h w).
Proof.
  unfold as_turn. intros (h & w0 & [= <- <-] & E)%M_bind_Ok_inv. case_bool_decide; [|done]. cbn iota in E.
  apply M_bind_Ok_inv in E as ([] & w1 & [= <-] & E). apply M_bind_Ok_inv in E as (p & w2 & [= <- <-] & E).
  apply finally_Ok in E as (w3 & E & [= <-]). apply catch_Ok in E as [E|(? & ? & _ & _ & E)].
  - by eexists _, w3.
  - by apply M_bind_Ok_inv in E as (? & ? & _ & ?).
Qed.

Lemma createTurnState_plain w t w' : h_systemPrompt (w_h w) ≠ Some SystemCallback → createTurnState w = (Ok t, w') → w' = w.
Proof.
  intros Hs. unfold createTurnState. intros (c & w1 & E & Ht)%M_bind_Ok_inv. unfold walk in E.
  destruct (buildContext (w_session w)) as [[]|]; [|done..]. injection E as <- <-.
  apply M_bind_Ok_inv in Ht as (h & w2 & [= <- <-] & Ht). apply M_bind_Ok_inv in Ht as (p & w3 & E & Ht).
  apply M_bind_Ok_inv in Ht as (h & w4 & [= <- <-] & [= _ <-]). destruct (h_systemPrompt (w_h w)) as [[]|]; [by injection E|done|by injection E].
Qed.

Lemma good_same w w' : w_session w' = w_session w → h_pendingSessionWrites (w_h w') = h_pendingSessionWrites (w_h w) →
  good w → good w' ∧ stored w' = stored w.
Proof. intros Hs Hp. unfold good, leaf_ok, quiet, stored. by rewrite Hs, Hp. Qed.

Lemma continue_body_stores w a w' : good w →
  (do! flushPendingSessionWrites in
   let! leafId := getLeafId in
   let! leaf := match leafId with
                | Some id => if truthy id then getEntry id else mret None
                | None => mret None
                end in
   match leaf with
   | Some leaf =>
       if is_continuable leaf then
         do! of_session (λ env, st_setLeafId env (e_parentId leaf)) in
         let! turnState := createTurnState in
         if match last (ts_messages turnState) with Some m => is_provider_safe m | None => false end
         then executeContinuation fuel turnState
         else
           do! of_session (λ env, st_setLeafId env leafId) in
           throw (EHarness InvalidState (js "The failed turn has no provider-safe continuation point"))
       else throw (EHarness InvalidState (js "The last turn is not continuable"))
   | None => throw (EHarness InvalidState (js "The last turn is not continuable"))
   end) w = (Ok a, w') →
  good w' ∧ ∃ run t active, run_stored (continue_run run t active) [] a (stored w) (stored w').
Proof.
  intros Hg (? & w1 & E1 & E)%M_bind_Ok_inv. apply none_Ok in E1 as [G1 S1]; [|apply calm_flush; [apply _|apply none_changes]|done].
  apply M_bind_Ok_inv in E as (leafId & w2 & E2 & E). apply none_Ok in E2 as [G2 S2]; [|apply calm_read, _|done].
  apply M_bind_Ok_inv in E as (leaf & w3 & E3 & E).
  apply none_Ok in E3 as [G3 S3]; [|repeat case_match; first [apply calm_gets|apply calm_ret]; apply _|done].
  destruct leaf as [leaf|]; [|done]. destruct (is_continuable leaf); [|done].
  apply M_bind_Ok_inv in E as (? & w4 & E4 & E). apply none_Ok in E4 as [G4 S4]; [|apply none_set_leaf|done].
  apply M_bind_Ok_inv in E as (t & w5 & E5 & E). apply none_Ok in E5 as [G5 S5]; [|apply calm_turn_state_none|done].
  rewrite <- S1, <- S2, <- S3, <- S4, <- S5. destruct (match last _ with Some _ => _ | None => _ end).
  - apply executeContinuation_stores in E as (G & run & active & Hr); [|done]. split; [done|]. by exists run, t, active.
  - by apply M_bind_Ok_inv in E as (? & ? & _ & [=]).
Qed.

(** C17: A run persists what it reports. When handlers and tools leave the messages of
    the session alone, a prompt that returns has run the loop, and has added to the
    session exactly the messages the loop returned, which are those whose ends it
    reported, each once and in order - the queued ones, the prompt and those of the
    hook first - and returns the last assistant message of them. When the loop threw,
    the session got the messages reported until then and one that says that the run
    failed, which is returned. A continuation adds the messages of its run likewise. *)
Theorem run_persists w a w' (Hg : good w) :
  (∀ text images, prompt fuel text images w = (Ok a, w') →
     good w' ∧ ∃ queued time extra run t active systemPrompt,
       let prompts := queued ++ createUserMessage text images time :: extra in
       run_stored (prompt_run run t active systemPrompt prompts) prompts a (stored w) (stored w')
       ∧ (h_systemPrompt (w_h w) ≠ Some SystemCallback → queued = h_nextTurnQueue (w_h w)))
  ∧ (continue fuel w = (Ok a, w') →
     good w' ∧ ∃ run t active, run_stored (continue_run run t active) [] a (stored w) (stored w')).
Proof.
  split.
  - intros text images (w1 & w2 & E & Hs1 & Hs2 & Hp1 & Hp2 & Hq & Hu)%as_turn_Ok.
    destruct (good_same w w1) as [G1 <-]; [done..|]. apply M_bind_Ok_inv in E as (t & w3 & E1 & E).
    pose proof E1 as Hplain. apply none_Ok in E1 as [G3 <-]; [|apply calm_turn_state_none|done].
    apply executeTurn_stores in E as (G4 & extra & run & active & sp & Ht); [|done].
    destruct (good_same w2 w') as [G5 ->]; [done..|].
    split; [done|]. eexists _, _, extra, run, t, active, sp. split; [exact Ht|]. intros Hc.
    apply createTurnState_plain in Hplain as ->; [done|by rewrite Hu].
  - intros (w1 & w2 & E & Hs1 & Hs2 & Hp1 & Hp2 & _ & _)%as_turn_Ok.
    destruct (good_same w w1) as [G1 <-]; [done..|]. apply continue_body_stores in E as [G2 Ht]; [|done].
    destruct (good_same w2 w') as [G5 ->]; done.
Qed.

(** ** Queued writes *)

(** The writes the operations of the harness queue. *)
Definition queueable (d : PendingSessionWrite) : Prop :=
  match d with EMessage _ | EModelChange _ _ | EThinkingLevelChange _ | EActiveToolsChange _ => True | _ => False end.

Lemma write_stores d w : leaf_ok w → queueable d →
  ∃ w', write d w = (Ok tt, w') ∧ leaf_ok w' ∧ w_h w' = w_h w
    ∧ map e_data (ms_entries (w_session w')) = map e_data (ms_entries (w_session w)) ++ [d].
Proof.
  intros Hl Hd.
  assert (write d = (do! of_session (λ env, appendUnderLeaf env d) in mret tt)) as -> by by destruct d.
  unfold of_session, mbind, M_bind. destruct (next_env (w_user w)) as [env u].
  destruct (appendUnderLeaf env d (w_session w)) as [r st'] eqn:E. apply append_stores in E as (Hr & He & Hl'); [|done|by destruct d].
  destruct r; [|done]. eexists. split; [done|]. split; [done|]. split; [done|]. simpl. by rewrite He, map_app.
Qed.

(** Writes made during a run are neither lost nor reordered: a flush appends all of
    them to the session in the order they were made, each once, and empties the queue. *)
Theorem flush_in_order w (Hl : leaf_ok w) (Hq : Forall queueable (h_pendingSessionWrites (w_h w))) :
  ∃ w', flushPendingSessionWrites w = (Ok tt, w') ∧ leaf_ok w' ∧ w_h w' = set_writes [] (w_h w)
    ∧ map e_data (ms_entries (w_session w')) = map e_data (ms_entries (w_session w)) ++ h_pendingSessionWrites (w_h w).
Proof.
  unfold flushPendingSessionWrites. remember (h_pendingSessionWrites (w_h w)) as l eqn:E. revert w Hl E.
  induction Hq as [|d l Hd _ IH]; intros w Hl E; cbn [length flush_loop]; unfold mbind, M_bind, state, gets; cbn; rewrite <- E.
  - exists w. rewrite app_nil_r. split; [done|]. split; [done|]. split; [|done]. unfold set_writes. rewrite E. by destruct (w_h w).
  - destruct (write_stores d w Hl Hd) as (w1 & -> & Hl1 & Hh & He). cbn.
    destruct (IH (set_h (λ h, set_writes (drop 1 (h_pendingSessionWrites h)) h) w1)) as (w2 & -> & Hl2 & Hh2 & He2); [done| |].
    { simpl. by rewrite Hh, <- E. }
    exists w2. split; [done|]. split; [done|]. simpl in *. rewrite Hh2, He2, He, Hh, <- (assoc_L (++)). done.
Qed.
End facts.

(** ** A concrete harness

    The world holds the answers the model still gives and a counter for ids; the one
    tool echoes its arguments; hooks return nothing, but [before_agent_start] throws
    for the prompt "fail". *)

Module HarnessDemo.
Record User := { replies : list AssistantMessage; counter : nat }.
Abbreviation World := (World Storage User).

Definition echo : @AgentTool World :=
  {| tool_name := js "echo"; tool_executionMode := None; tool_prepareArguments := None;
     tool_execute := λ _ _ w, ([], Ok {| atr_content := [TextBlock (js "ok")]; atr_details := None; atr_terminate := None |}, w) |}.
Definition reply : M World Exn StreamResponse := λ w,
  match replies (w_user w) with
  | [] => (Err (EOther (js "no reply")), w)
  | m :: l => (Ok {| sr_events := []; sr_result := m |}, set_user {| replies := l; counter := counter (w_user w) |} w)
  end.

#[export] Instance env : HarnessEnv (S:=Storage) (U:=User) := {|
  next_env := λ u, ({| env_now := 5; env_uuid := λ _, [(48 + N.of_nat (counter u))%N] |},
                    {| replies := replies u; counter := S (counter u) |});
  date := λ _, 7%Z; iso_date := λ _, js "2026-01-01T00:00:00.000Z"; session_id := js "s";
  session_message := λ _, js "session"; checkpoint_message := λ _, js "checkpoint";
  is_datetime := λ _, true; parse_issues := λ _, []; entry_value := λ _, JNull;
  validate := λ _ j, Ok j; choose_call := λ w, (0%nat, w); tool_of := λ _, echo;
  systemPrompt_callback := λ _ _ _ _, mret (js "system");
  streamSimple := λ _ _ _ _ _ _ _ _ _ _, reply;
  completeSimple := λ _ _ w, (Err (ClientThrew (js "offline")), w);
  on_event := λ _ _ _, mret tt;
  on_before_agent_start := λ _ text _ _ _,
    if bool_decide (text = js "fail") then throw (EOther (js "hook")) else mret None;
  on_context := λ _ _, mret None;
  on_before_provider_request := λ _ _ _ _, mret None;
  on_before_provider_payload := λ _ _ _, mret None;
  on_tool_call := λ _ _ _ _, mret None;
  on_tool_result := λ _ _ _ _ _, mret None;
  on_session_before_compact := λ _ _ _ _ _ _ _, mret None;
  on_session_before_tree := λ _ _, mret None |}.

(** Whatever does not look at the world of the embedder is preserved. *)
Lemma demo_calm (R : relation World) `{!PreOrder R} : (∀ u w, R w (set_user u w)) → calm_env R.
Proof.
  intros Hu. split; try (by intros; intros w); try done.
  - intros m p ms ts o i l s f g _ _ w. cbn. unfold reply. destruct (replies (w_user w)); [done|apply Hu].
  - intros i t im s r w. cbn. by case_bool_decide.
Qed.

Definition model : HarnessModel :=
  {| hm_loop := {| lm_id := js "m"; lm_provider := js "p" |};
     hm_limits := {| mo_contextWindow := 100000; mo_maxTokens := 4096; mo_reasoning := false |} |}.
Definition options : HarnessOptions :=
  {| op_tools := Some [{| tref_name := js "echo"; tref_id := 0 |}]; op_resources := None; op_systemPrompt := None;
     op_streamOptions := None; op_model := model; op_thinkingLevel := None; op_activeToolNames := None;
     op_steeringMode := None; op_followUpMode := None; op_compaction := Some CompactionOff |}.
Definition harness : HarnessState :=
  {| h_phase := Idle; h_runAbortController := None; h_runPromise := None; h_pendingSessionWrites := [];
     h_model := model; h_thinkingLevel := js "off"; h_systemPrompt := None; h_streamOptions := no_stream_options;
     h_resources := {| rs_skills := None; rs_promptTemplates := None |};
     h_tools := [(js "echo", {| tref_name := js "echo"; tref_id := 0 |})]; h_activeToolNames := [js "echo"];
     h_steerQueue := []; h_steeringQueueMode := OneAtATime; h_followUpQueue := []; h_followUpQueueMode := OneAtATime;
     h_nextTurnQueue := []; h_compactionSettings := compaction_settings (Some CompactionOff); h_handlers := [];
     h_stamp := 0; h_epoch := 0 |}.
Lemma harness_new : newHarness options = Ok harness.
Proof. reflexivity. Qed.
Definition answer (stop : StopReason) (content : list Block) : AssistantMessage :=
  {| am_content := content; am_provider := js "p"; am_model := js "m"; am_usage := None; am_stopReason := stop;
     am_errorMessage := None; am_timestamp := 6 |}.
Definition calls : AssistantMessage := answer StopToolUse [ToolCallBlock (js "c1") (js "echo") (JObj [])].
Definition bye : AssistantMessage := answer StopStop [TextBlock (js "bye")].
Definition start : World :=
  {| w_h := harness; w_session := empty_storage; w_user := {| replies := [calls; bye]; counter := 0 |};
     w_runs := []; w_promises := []; w_never := false |}.

(** A prompt, a tool call and an answer: four messages. *)
Lemma prompt_runs :
  (prompt 10 (js "hi") None start).1 = Ok bye ∧ length (stored (prompt 10 (js "hi") None start).2) = 4%nat.
Proof. split; vm_compute; reflexivity. Qed.

(** The hook throws after the queued message is taken: the message is lost. *)
Lemma next_turn_lost :
  let w := (nextTurn 10 (js "later") None start).2 in
  let w := (on (js "before_agent_start") 0 w).2 in
  let w' := (prompt 10 (js "fail") None w).2 in
  length (h_nextTurnQueue (w_h w)) = 1%nat ∧ h_nextTurnQueue (w_h w') = [] ∧ stored w' = [].
Proof. vm_compute. split_and!; reflexivity. Qed.
End HarnessDemo.
Import HarnessDemo.

Lemma run_persists_witness :
  good HarnessDemo.start ∧ good (prompt 10 (js "hi") None HarnessDemo.start).2 ∧
  ∃ run t active systemPrompt prompts,
    run_stored (prompt_run 10 run t active systemPrompt prompts) prompts HarnessDemo.bye
      (stored HarnessDemo.start) (stored (prompt 10 (js "hi") None HarnessDemo.start).2).
Proof.
  assert (calm_env (S:=Storage) (U:=HarnessDemo.User) stores_none) as Henv.
  { apply (HarnessDemo.demo_calm _ (PreOrder0:=stores_none_preorder)). intros u w. by apply none_same. }
  assert (good HarnessDemo.start) as Hg by by vm_compute. split; [exact Hg|].
  destruct (prompt 10 (js "hi") None HarnessDemo.start) as [r w'] eqn:E.
  assert (r = Ok HarnessDemo.bye) as -> by (change r with (r, w').1; rewrite <- E; clear E; by vm_compute).
  destruct (run_persists 10 Henv HarnessDemo.start HarnessDemo.bye w' Hg) as [Hp _].
  destruct (Hp (js "hi") None E) as (H1 & queued & time & extra & run & t & active & sp & H2 & _).
  split; [exact H1|]. exists run, t, active, sp, (queued ++ createUserMessage (js "hi") None time :: extra). exact H2.
Defined.


Lemma flush_in_order_witness :
  ∃ w', flushPendingSessionWrites (set_h (set_writes [EMessage (Assistant HarnessDemo.bye); EThinkingLevelChange (js "low")]) HarnessDemo.start)
          = (Ok tt, w') ∧ map e_data (ms_entries (w_session w')) = [EMessage (Assistant HarnessDemo.bye); EThinkingLevelChange (js "low")].
Proof.
  destruct (flush_in_order (set_h (set_writes [EMessage (Assistant HarnessDemo.bye); EThinkingLevelChange (js "low")]) HarnessDemo.start))
    as (w' & E & _ & _ & Hd); [done|by repeat constructor|]. exists w'. by rewrite E, Hd.
Defined.
