(* ===== verification/HarnessTools.v ===== *)
(** * The tools of the harness under overlapping calls

    [setTools] and [setActiveTools] check the names, wait for the session to store
    them, and only then change the harness; other calls may come in between. Here a
    call of one of them is cut at that [await], and calls overlap in any way. *)

From S2P Require Import Prelude JsMap JsString Json Messages SessionTree Session AgentLoop Compaction Harness HarnessFacts HarnessSession.
From Stdlib Require Import Lia.

Set Default Goal Selector "!".

#[export] Instance ToolRef_eq_dec : EqDecision ToolRef.
Proof. solve_decision. Defined.

Section overlap.
Context {S U : Type} `{SessionStorage S} `{!HarnessEnv (S:=S) (U:=U)} (fuel : nat).
Abbreviation World := (World S U).

(** A call up to its [await]: when the harness is idle the change waits for the session;
    otherwise its entry is queued and the call goes on at once. *)
Definition change_start (check : M World Exn ToolsChange) (w : World) : option ToolsChange * World :=
  match (let! c := check in let! h := state in do! write_or_queue (EActiveToolsChange (tc_active c)) in
         mret (c, bool_decide (h_phase h = Idle))) w with
  | (Ok (c, true), w') => (Some c, w')
  | (Ok (c, false), w') => (None, (tools_changed fuel c w').2)
  | (Err _, w') => (None, w')
  end.

(** The harness and the changes that wait. *)
Definition Overlapping : Type := World * list ToolsChange.

Inductive ToolsEvent :=
| Whole (o : operation)
| StartTools (tools : list ToolRef) (activeToolNames : option (list jstr))
| StartActiveTools (toolNames : list jstr)
| Finish (i : nat).

Definition wait (x : option ToolsChange * World) (waiting : list ToolsChange) : Overlapping :=
  (x.2, match x.1 with Some c => waiting ++ [c] | None => waiting end).

Definition tools_step (e : ToolsEvent) (y : Overlapping) : Overlapping :=
  let '(w, waiting) := y in
  match e with
  | Whole o => ((run_operation fuel o w).2, waiting)
  | StartTools tools names => wait (change_start (setTools_check tools names) w) waiting
  | StartActiveTools names => wait (change_start (setActiveTools_check names) w) waiting
  | Finish i => match waiting !! i with
                | Some c => ((tools_changed fuel c w).2, delete i waiting)
                | None => y
                end
  end.
Definition tools_run (events : list ToolsEvent) (y : Overlapping) : Overlapping := fold_left (λ y e, tools_step e y) events y.

(** While a call of [setActiveTools] waits, the tools are not replaced. *)
Definition relies_on_tools (c : ToolsChange) : bool := match tc_tools c with None => true | Some _ => false end.
Definition stable_step (e : ToolsEvent) (y : Overlapping) : bool :=
  let y' := tools_step e y in
  negb (existsb relies_on_tools (y'.2)) || bool_decide (h_tools (w_h y'.1) = h_tools (w_h y.1)).
Fixpoint tools_stable (events : list ToolsEvent) (y : Overlapping) : bool :=
  match events with [] => true | e :: events => stable_step e y && tools_stable events (tools_step e y) end.

Hypothesis Henv : calm_env (keeps_tools (S:=S) (U:=U)).

Definition waiting_ok (y : Overlapping) : Prop :=
  tools_ok (w_h y.1) ∧ Forall (λ c, change_ok c (w_h y.1)) y.2.

Lemma change_start_ok (check : M World Exn ToolsChange) w : checks check → tools_ok (w_h w) →
  tools_ok (w_h (change_start check w).2) ∧
  ∀ c, (change_start check w).1 = Some c → change_ok c (w_h (change_start check w).2).
Proof.
  intros Hc Hok. destruct (Hc w) as [Hw Hx]. unfold change_start, mbind, M_bind, mret, M_ret.
  destruct (check w) as [[c|e] w0] eqn:E; cbn in Hw; subst w0; [|done]. specialize (Hx c w eq_refl Hok). cbn.
  pose proof (write_or_queue_tools (EActiveToolsChange (tc_active c)) w) as Ht.
  pose proof (keeps_write_or_queue (EActiveToolsChange (tc_active c)) w Hok) as Hk.
  destruct (write_or_queue _ w) as [[[]|e] w1]; [|done]. cbn in Ht, Hk.
  assert (change_ok c (w_h w1)) as H1 by (eapply change_ok_tools; [exact Hx|by intros _]).
  destruct (bool_decide (h_phase (w_h w) = Idle)); cbn.
  - split; [done|]. by intros ? [= <-].
  - split; [|done]. by apply change_keeps.
Qed.

Lemma waiting_mono c h h' : h_tools h' = h_tools h → change_ok c h → change_ok c h'.
Proof. intros E Hc. by eapply change_ok_tools. Qed.

(** What waits still fits when the tools are the same, or when nothing relies on them. *)
Lemma still_fits (waiting : list ToolsChange) h h' :
  negb (existsb relies_on_tools waiting) || bool_decide (h_tools h' = h_tools h) = true →
  Forall (λ c, change_ok c h) waiting → Forall (λ c, change_ok c h') waiting.
Proof.
  intros Hs Hall. apply Forall_forall. intros c Hc. rewrite Forall_forall in Hall. specialize (Hall c Hc).
  eapply change_ok_tools; [exact Hall|]. intros Hn. apply orb_true_iff in Hs as [Hs|Hs%bool_decide_eq_true]; [|done].
  apply negb_true_iff in Hs. assert (existsb relies_on_tools waiting = true) as Hx; [|congruence].
  apply existsb_exists. exists c. split; [by apply list_elem_of_In|]. unfold relies_on_tools. by rewrite Hn.
Qed.

Lemma start_step check w (waiting : list ToolsChange) : checks check → waiting_ok (w, waiting) →
  (let y := wait (change_start check w) waiting in
   negb (existsb relies_on_tools y.2) || bool_decide (h_tools (w_h y.1) = h_tools (w_h w)) = true) →
  waiting_ok (wait (change_start check w) waiting).
Proof.
  intros Hc [Hok Hall]. pose proof (change_start_ok check w Hc Hok) as [H1 H2]. cbn in Hok, Hall.
  destruct (change_start check w) as [[c|] w1]; unfold wait; cbn in *; intros Hs; (split; [exact H1|]); cbn.
  - apply Forall_app. split; [|constructor; [by apply H2|constructor]]. eapply still_fits; [|exact Hall].
    rewrite existsb_app in Hs. destruct (existsb relies_on_tools waiting); [done|done].
  - by eapply still_fits.
Qed.

Lemma tools_step_ok e y : waiting_ok y → stable_step e y = true → waiting_ok (tools_step e y).
Proof.
  intros Hy. destruct y as [w waiting]. unfold stable_step. destruct e as [o|tools names|names|i]; cbn [tools_step].
  - intros Hs. destruct Hy as [Hok Hall]. split; [by apply keeps_operation|]. by eapply still_fits.
  - apply start_step; [apply setTools_checks|done].
  - apply start_step; [apply setActiveTools_checks|done].
  - destruct (waiting !! i) as [c|] eqn:Hi; [|done]. destruct Hy as [Hok Hall]. cbn in Hok, Hall. intros Hs. split; cbn.
    + apply change_keeps; [done|]. rewrite Forall_forall in Hall. apply Hall. by eapply list_elem_of_lookup_2.
    + eapply still_fits; [exact Hs|]. by apply Forall_delete.
Qed.

Lemma tools_run_ok events y : waiting_ok y → tools_stable events y = true → waiting_ok (tools_run events y).
Proof.
  revert y. induction events as [|e events IH]; intros y Hy; [done|]. cbn. intros [He Hs]%andb_true_iff.
  apply IH; [by apply tools_step_ok|done].
Qed.

(** C19: The active tools are always tools: from the constructor on, through any
    operations, thrown or not, with calls of [setTools] and [setActiveTools] that overlap
    other calls while the session stores their names, and whatever handlers, tools and
    clients do that keeps it - as every operation they may call does. Each tool is under
    its own name, no name is twice, every active name has a tool, and [getActiveTools]
    and the turns see exactly the active tools in their order. The one condition is that
    the tools are not replaced while a call of [setActiveTools] waits; without it the
    property fails ([overlap_breaks_tools]). *)
Theorem tools_invariant o h events w (Hnew : newHarness o = Ok h) (Hw : w_h w = h)
    (Hstable : tools_stable events (w, []) = true) :
  let h' := w_h (tools_run events (w, [])).1 in
  tools_ok h' ∧ getActiveTools h' = map Some (active_tools h') ∧ map tref_name (active_tools h') = h_activeToolNames h'.
Proof.
  intros h'. assert (tools_ok h') as Hok; [|split; [done|by apply active_tools_names]].
  apply newHarness_ok in Hnew. rewrite <- Hw in Hnew. by apply (tools_run_ok events (w, [])).
Qed.

(** A call that nothing overlaps is its start and its finish. *)
Lemma change_alone (check : M World Exn ToolsChange) (w : World) : checks check →
  (change_tools fuel check w).2 =
  match change_start check w with (Some c, w') => (tools_changed fuel c w').2 | (None, w') => w' end.
Proof.
  intros Hc. destruct (Hc w) as [Hw _]. unfold change_tools, change_start, catch, mbind, M_bind, mret, M_ret, throw.
  destruct (check w) as [[c|e] w0]; cbn in Hw; subst w0; [|by destruct e]. cbn.
  destruct (write_or_queue _ w) as [[[]|e] w1]; [|by destruct e].
  destruct (tools_changed fuel c w1) as [[[]|e] w2] eqn:E; destruct (bool_decide _); cbn; rewrite ?E; try done; by destruct e.
Qed.
End overlap.

(** ** Concrete calls *)

Import HarnessDemo.

Definition tool_ref (name : string) (id : nat) : ToolRef := {| tref_name := js name; tref_id := id |}.

(** A prompt; then new tools and other active tools overlap, the new tools come last. *)
Definition overlapping_events : list ToolsEvent :=
  [Whole (Structural (CallPrompt (js "hi") None)); Whole (CallSetActiveTools [js "none"]);
   StartActiveTools []; StartTools [tool_ref "echo" 1; tool_ref "read" 2] (Some [js "read"]); Finish 0; Finish 0;
   Whole (CallSetActiveTools [js "read"; js "echo"])].

Lemma tools_invariant_witness :
  calm_env (keeps_tools (S:=InMemorySessionStorage) (U:=HarnessDemo.User)) ∧
  map tref_name (active_tools (w_h (tools_run 10 overlapping_events (HarnessDemo.start, [])).1)) = [js "read"; js "echo"] ∧
  tools_ok (w_h (tools_run 10 overlapping_events (HarnessDemo.start, [])).1).
Proof.
  assert (calm_env (keeps_tools (S:=InMemorySessionStorage) (U:=HarnessDemo.User))) as Henv.
  { apply (HarnessDemo.demo_calm _ (PreOrder0:=keeps_tools_preorder)). intros u w. by apply keeps_same. }
  split; [exact Henv|]. split; [vm_compute; reflexivity|].
  refine (proj1 (tools_invariant 10 Henv HarnessDemo.options HarnessDemo.harness overlapping_events HarnessDemo.start _ _ _));
    vm_compute; reflexivity.
Defined.

(** Both calls pass their checks, and when both are done the active tool is none of the tools. *)
Lemma overlap_breaks_tools :
  let h := w_h (tools_run 10 [StartTools [tool_ref "read" 2] (Some [js "read"]); StartActiveTools [js "echo"]; Finish 0; Finish 0]
                  (HarnessDemo.start, [])).1 in
  map fst (h_tools h) = [js "read"] ∧ h_activeToolNames h = [js "echo"] ∧ getActiveTools h = [None].
Proof. vm_compute. auto. Qed.
