(* ===== verification/HarnessOps.v ===== *)
(** * Single operations of the harness

    What a patch of the stream options does to each member and key, what the queues
    lose and keep when they are drained or aborted, and the handlers that are called
    for an event. *)

From S2P Require Import Prelude JsMap JsString Json Messages SessionTree Session CutPoint Compaction AgentLoop Agent Harness HarnessFacts.
From Stdlib Require Import Lia.

Set Default Goal Selector "!".

(** ** Patches of stream options *)

Section patch.
Context {V : Type}.
Implicit Types (m : list (jstr * V)) (l : list (jstr * option V)).

(** What a patch says of a key: nothing, a value, or that it goes. *)
Definition patched (l : list (jstr * option V)) (k : jstr) (old : option V) : option V :=
  match map_get k l with None => old | Some v => v end.

Lemma patch_entry_NoDup m e : NoDup (map_keys m) → NoDup (map_keys (patch_entry m e)).
Proof. destruct e as [k [v|]]; [apply map_keys_set_NoDup|apply map_keys_delete_NoDup]. Qed.

Lemma patch_entry_get m k v j : NoDup (map_keys m) →
  map_get j (patch_entry m (k, v)) = if decide (j = k) then v else map_get j m.
Proof.
  intros Hm. destruct v as [v|]; unfold patch_entry; cbn [fst snd]; [apply map_get_set|].
  case_decide; [subst; by apply map_get_delete_eq|by apply map_get_delete_ne].
Qed.

Lemma patch_fold m l k : NoDup (map_keys l) → NoDup (map_keys m) →
  map_get k (fold_left patch_entry l m) = patched l k (map_get k m).
Proof.
  unfold patched. revert m. induction l as [|[j v] l IH]; intros m; [done|]. unfold map_keys. simpl.
  intros [Hj Hl]%NoDup_cons Hm. rewrite IH; [|done|by apply patch_entry_NoDup].
  rewrite patch_entry_get by done. case_decide as Hk; [subst|done].
  destruct (map_get j l) eqn:E; [|done]. apply map_get_elem in E. destruct Hj. apply list_elem_of_fmap. by exists (j, o).
Qed.

Definition header (m : option (list (jstr * V))) (k : jstr) : option V := map_get k (nullish m []).

Lemma patch_map_get base l k : NoDup (map_keys l) → NoDup (map_keys (nullish base [])) →
  header (patch_map base (Some (Some l))) k = patched l k (header base k).
Proof.
  intros Hl Hb. unfold header, patch_map. rewrite <- patch_fold by done.
  by destruct (fold_left patch_entry l (nullish base [])).
Qed.
End patch.

(** A patch of the stream options changes what it names and nothing else: a member
    it owns is replaced, even by undefined; a header or metadata key it lists is set
    or, listed as undefined, removed; all others stay, in headers and metadata too. *)
Theorem applyStreamOptionsPatch_spec base p
  (Hb : NoDup (map_keys (nullish (so_headers base) [])) ∧ NoDup (map_keys (nullish (so_metadata base) [])))
  (Hp : ∀ l, sp_headers p = Some (Some l) → NoDup (map_keys l)) (Hm : ∀ l, sp_metadata p = Some (Some l) → NoDup (map_keys l)) :
  let r := applyStreamOptionsPatch base (Some p) in
  (so_transport r, so_timeoutMs r, so_maxRetries r, so_maxRetryDelayMs r, so_cacheRetention r)
    = (own (sp_transport p) (so_transport base), own (sp_timeoutMs p) (so_timeoutMs base),
       own (sp_maxRetries p) (so_maxRetries base), own (sp_maxRetryDelayMs p) (so_maxRetryDelayMs base),
       own (sp_cacheRetention p) (so_cacheRetention base))
  ∧ (∀ k, header (so_headers r) k = match sp_headers p with
       | None => header (so_headers base) k | Some None => None | Some (Some l) => patched l k (header (so_headers base) k) end)
  ∧ (∀ k, header (so_metadata r) k = match sp_metadata p with
       | None => header (so_metadata base) k | Some None => None | Some (Some l) => patched l k (header (so_metadata base) k) end).
Proof.
  destruct Hb as [Hb1 Hb2]. split; [done|]. split; intros k; simpl.
  - destruct (sp_headers p) as [[l|]|] eqn:E; [|done..]. apply patch_map_get; [by apply Hp|done].
  - destruct (sp_metadata p) as [[l|]|] eqn:E; [|done..]. apply patch_map_get; [by apply Hm|done].
Qed.

Definition sample_patch : StreamOptionsPatch :=
  {| sp_maxTokens := Some (Some 9%Z); sp_transport := None; sp_timeoutMs := Some None; sp_maxRetries := None;
     sp_maxRetryDelayMs := None; sp_headers := Some (Some [(js "a", None); (js "b", Some (js "2"))]); sp_metadata := None;
     sp_cacheRetention := None |}.
Definition sample_options : StreamOptions :=
  {| so_maxTokens := Some 5%Z; so_transport := Some (js "sse"); so_timeoutMs := Some 3%Z; so_maxRetries := None;
     so_maxRetryDelayMs := None; so_headers := Some [(js "a", js "1"); (js "c", js "3")]; so_metadata := None;
     so_cacheRetention := None |}.
Lemma applyStreamOptionsPatch_spec_witness :
  header (so_headers (applyStreamOptionsPatch sample_options (Some sample_patch))) (js "b") = Some (js "2").
Proof.
  destruct (applyStreamOptionsPatch_spec sample_options sample_patch) as (_ & Hh & _); [..|by rewrite Hh].
  - split; apply (bool_decide_unpack _); by vm_compute.
  - intros l [= <-]. apply (bool_decide_unpack _). by vm_compute.
  - done.
Defined.

(** The patch may name [maxTokens], but the code does not look at it. *)
Lemma patch_maxTokens_ignored base p :
  so_maxTokens (applyStreamOptionsPatch base (Some p)) = so_maxTokens base.
Proof. done. Qed.

(** ** Handlers and queues *)

Section ops.
Context {S U : Type} `{SessionStorage S} `{!HarnessEnv (S:=S) (U:=U)} (fuel : nat).
Abbreviation World := (World S U).
Implicit Types (w : World).

(** A handler registered for the type of a notification is not among those that are
    called for it: [emitOwn] calls the subscribers only. *)
Lemma notification_handler_unused type handler w :
  type ≠ SUBSCRIBER_EVENT_TYPE →
  handlers_of SUBSCRIBER_EVENT_TYPE (w_h (on type handler w).2) = handlers_of SUBSCRIBER_EVENT_TYPE (w_h w).
Proof.
  intros Ht. unfold handlers_of, on, register, update, modify. simpl.
  destruct (existsb _ _); simpl; by rewrite map_get_set_ne.
Qed.

(** A handler is registered once. *)
Lemma on_twice type handler w :
  handlers_of type (w_h (on type handler (on type handler w).2).2) = handlers_of type (w_h (on type handler w).2).
Proof.
  unfold on, register, update, modify. simpl. set (l := handlers_of type (w_h w)).
  assert (∀ h h' n, handlers_of type (set_handlers (map_set type h (h_handlers (w_h w))) n h') = h) as Hs
    by (intros; unfold handlers_of; simpl; by rewrite map_get_set_eq).
  destruct (existsb (λ p, (p.2 =? handler)%nat) l) eqn:E; rewrite !Hs.
  - rewrite E. unfold handlers_of. simpl. by rewrite map_get_set_eq.
  - rewrite existsb_app. simpl. rewrite Nat.eqb_refl, orb_true_r. unfold handlers_of. simpl. by rewrite map_get_set_eq.
Qed.

(** Without subscribers an event does nothing. *)
Lemma emit_quiet e s w : handlers_of SUBSCRIBER_EVENT_TYPE (w_h w) = [] → emitAny fuel e s w = (Ok tt, w).
Proof. intros Hh. unfold emitAny. destruct fuel; cbn [each_handler]; unfold mbind, M_bind, state, gets; by rewrite Hh. Qed.

(** Aborting empties the two queues and says what was in them, signals the run there
    is, and leaves the messages for the next turn. *)
Lemma abort_clears w : handlers_of SUBSCRIBER_EVENT_TYPE (w_h w) = [] →
  ∃ w', abort_begin fuel w =
    (Ok ({| ab_clearedSteer := h_steerQueue (w_h w); ab_clearedFollowUp := h_followUpQueue (w_h w) |}, [], h_runPromise (w_h w)), w')
  ∧ h_steerQueue (w_h w') = [] ∧ h_followUpQueue (w_h w') = [] ∧ h_nextTurnQueue (w_h w') = h_nextTurnQueue (w_h w)
  ∧ w_session w' = w_session w
  ∧ ∀ run, h_runAbortController (w_h w) = Some run → (run < length (w_runs w))%nat → is_signalled run w' = true.
Proof.
  intros Hh. unfold abort_begin, mbind, M_bind, state, gets, update, modify. cbn.
  destruct (h_runAbortController (w_h w)) as [run|] eqn:E; cbn; unfold catch, emitQueueUpdate, emitOwn, mbind, M_bind, state, gets;
    rewrite emit_quiet by done; cbn; (eexists; split; [done|]); cbn; split_and!; try done.
  intros ? [= <-] Hr. unfold is_signalled. cbn. rewrite list_lookup_alter_eq.
  destruct (lookup_lt_is_Some_2 _ _ Hr) as [x ->]. done.
Qed.

(** A message drained while the subscribers fail goes back to the front of its queue. *)
Lemma drain_returns w w' e : emitQueueUpdate fuel (set_h (set_steer (drop 1 (h_steerQueue (w_h w)))) w) = (Err e, w') →
  e ≠ ENever → h_steeringQueueMode (w_h w) = OneAtATime → h_steerQueue (w_h w) ≠ [] →
  h_epoch (w_h w') = h_epoch (w_h w) → h_steerQueue (w_h w') = drop 1 (h_steerQueue (w_h w)) →
  h_steerQueue (w_h (getSteeringMessages fuel w).2) = h_steerQueue (w_h w).
Proof.
  intros He Hn Hm Hq Hep Hs. unfold getSteeringMessages, drainQueuedMessages, mbind, M_bind, state, gets, update, modify. cbn.
  rewrite Hm. destruct (h_steerQueue (w_h w)) as [|m q] eqn:E; [done|]. cbn [take drop] in *.
  unfold catch, mbind, M_bind. unfold set_h at 1 in He. unfold set_h. simpl in *. rewrite drop_0 in *. rewrite He.
  destruct e; try done; cbn; rewrite Hep, Nat.eqb_refl; cbn; by rewrite Hs.
Qed.
End ops.
