(* ===== verification/ToolArguments.v ===== *)
(** * Malformed arguments of tool calls

    apps/worker/src/tool-arguments.ts: a call whose arguments are not JSON, or
    break the declared schema, is not run, and its result says where and why.
    [jsonSyntaxError] is the scanner of the text, [schemaArgumentProblems] the
    check of the parsed value. Their theorems are in ToolArgumentsJson and
    ToolArgumentsSchema. *)

From S2P Require Import Prelude JsMap JsString Json ExecPolicy.
From Stdlib Require Import Lia.

Set Default Goal Selector "!".

(** A double quote, which the texts below contain. *)
Definition dq : jstr := [34%N].

(** ** Texts *)

(** [code.toString(16).padStart(4, "0")] of a code unit, and its [toUpperCase]. *)
Definition hex_text (c : N) : jstr := drop 2 (u_escape c).
Definition upper_hex (s : jstr) : jstr := map (λ c, if (97 <=? c)%N && (c <=? 122)%N then (c - 32)%N else c) s.

Definition visible (value : jstr) : jstr := map (λ c, if (c <? 32)%N then (0x2400 + c)%N else c) value.

Definition quote (value : jstr) : jstr := dq ++ visible value ++ dq.

Definition describe (character : N) : jstr :=
  if (character <? 32)%N then js "control character U+" ++ upper_hex (hex_text character)
  else dq ++ [character] ++ dq.

Inductive bracket := Brace | Bracket.
#[export] Instance bracket_eq_dec : EqDecision bracket.
Proof. solve_decision. Defined.

Definition open_unit (o : bracket) : N := match o with Brace => 123 | Bracket => 91 end%N.
Definition close_unit (o : bracket) : N := match o with Brace => 125 | Bracket => 93 end%N.

Definition opens (character : N) : option bracket :=
  if (character =? 123)%N then Some Brace else if (character =? 91)%N then Some Bracket else None.

Definition container (open : bracket) : jstr :=
  match open with Brace => js "an object" | Bracket => js "an array" end.

(** ** The scanner

    The scanner's [index] is kept as the text from there on, [text.slice(index)];
    a fault is a reason and the text from the offset of the fault on. *)

Record JsonSyntaxError := { offset : nat; reason : jstr; incomplete : bool }.

Record fault := { fault_reason : jstr; fault_at : jstr }.

Definition fail (reason at_ : jstr) : fault := {| fault_reason := reason; fault_at := at_ |}.
Definition end_ (inside : jstr) : fault := fail (js "the text ends " ++ inside) [].

(** The offset of the fault in [text], as the code reports it. *)
Definition syntax_error (text : jstr) (f : fault) : JsonSyntaxError :=
  {| offset := length text - length (fault_at f); reason := fault_reason f;
     incomplete := (length text <=? length text - length (fault_at f))%nat |}.

Definition ESCAPES : list N := [34; 92; 47; 98; 102; 110; 114; 116]%N.

Definition HEX (c : N) : bool :=
  is_digit c || ((97 <=? c) && (c <=? 102))%N || ((65 <=? c) && (c <=? 70))%N.

(** The loop over the four digits; [s] starts at the backslash. *)
Definition hex_fault (s : jstr) : option fault :=
  first_some (λ digit, match s !! digit with
                       | None => Some (end_ (js "inside a \u escape"))
                       | Some character =>
                           if HEX character then None
                           else Some (fail (js "bad escape " ++ quote (take (digit + 1) s) ++ js ": \u needs four hex digits") s)
                       end) [2; 3; 4; 5]%nat.

Definition escape_fault (escape : N) (s : jstr) : fault :=
  fail (js "bad escape " ++ quote [92%N; escape] ++ js " in a string; a backslash must start \" ++ dq
        ++ js ", \\, \/, \b, \f, \n, \r, \t or \uXXXX, so write a literal backslash as \\") s.

Definition control_fault (code : N) (s : jstr) : fault :=
  let name := if (code =? 10)%N then js "line break" else if (code =? 13)%N then js "carriage return"
              else if (code =? 9)%N then js "tab" else js "control character U+" ++ upper_hex (hex_text code) in
  let escape := if (code =? 10)%N then js "\n" else if (code =? 13)%N then js "\r"
                else if (code =? 9)%N then js "\t" else js "\u" ++ hex_text code in
  fail (js "a raw " ++ name ++ js " inside a string; write it as " ++ escape) s.

(** The loop of [string] behind the opening quote: what follows the string. *)
Fixpoint string_loop (s : jstr) : result fault jstr :=
  match s with
  | [] => Err (end_ (js "inside a string, before its closing quote"))
  | code :: s1 =>
      if (code =? 34)%N then Ok s1
      else if (code =? 92)%N then
        match s1 with
        | [] => Err (end_ (js "inside a string escape"))
        | escape :: s2 =>
            if (escape =? 117)%N then
              match hex_fault s, s2 with
              | Some problem, _ => Err problem
              | None, _ :: _ :: _ :: _ :: s3 => string_loop s3
              | None, _ => Err (end_ (js "inside a \u escape"))
              end
            else if bool_decide (escape ∈ ESCAPES) then string_loop s2
            else Err (escape_fault escape s)
        end
      else if (code <? 32)%N then Err (control_fault code s)
      else string_loop s1
  end.

Definition string_ (s : jstr) : result fault jstr := string_loop (drop 1 s).

(** [digits()]: how many there are, and what follows them. *)
Definition digits (s : jstr) : nat * jstr := let '(ds, r) := span_digits s in (length ds, r).

(** [text.slice(start, index + n)], both given as the text from there on. *)
Definition text_between (start index : jstr) (n : nat) : jstr :=
  take (length start - length index + n) start.

Definition invalid_number (start index why : jstr) : fault :=
  fail (js "invalid number " ++ quote (text_between start index 1) ++ why) index.

(** At least one digit, with the reason when there is none. *)
Definition some_digits (start s why : jstr) : result fault jstr :=
  let '(n, r) := digits s in if bool_decide (n = 0%nat) then Err (invalid_number start s why) else Ok r.

(** The parts of [number], from [index] on: the integer, the fraction, the exponent. *)
Definition number_integer (start s : jstr) : result fault jstr :=
  match s with
  | [] => Err (end_ (js "inside a number"))
  | c :: s1 => if (c =? 48)%N then Ok s1 else some_digits start s []
  end.

Definition number_fraction (start s : jstr) : result fault jstr :=
  if bool_decide (head s = Some 46%N) then
    match drop 1 s with
    | [] => Err (end_ (js "inside a number"))
    | s => some_digits start s (js ": digits must follow " ++ dq ++ js "." ++ dq)
    end
  else Ok s.

Definition number_exponent (start s : jstr) : result fault jstr :=
  if bool_decide (head s = Some 101%N) || bool_decide (head s = Some 69%N) then
    let s := drop 1 s in
    match (if bool_decide (head s = Some 43%N) || bool_decide (head s = Some 45%N) then drop 1 s else s) with
    | [] => Err (end_ (js "inside a number"))
    | s => some_digits start s (js ": digits must follow the exponent")
    end
  else Ok s.

Definition number (start : jstr) : result fault jstr :=
  let s := if bool_decide (head start = Some 45%N) then drop 1 start else start in
  let! s := number_integer start s in
  let! s := number_fraction start s in
  number_exponent start s.

Definition LITERALS : list jstr := [js "true"; js "false"; js "null"].

(** The word the text starts with, or ends inside of. *)
Definition literal_at (s : jstr) : option jstr :=
  find_first (λ word, starts_with word s
                      || ((length s <? length word)%nat && starts_with s word)) LITERALS.

Definition literal_fault (s : jstr) (character : N) : fault :=
  fail (if (character =? 39)%N then js "unexpected " ++ dq ++ js "'" ++ dq ++ js ": JSON strings use double quotes"
        else js "unexpected " ++ describe character ++ js " where a value should be") s.

Definition literal (s : jstr) (character : N) : result fault jstr :=
  match literal_at s with
  | None => Err (literal_fault s character)
  | Some word =>
      if (length s <? length word)%nat then Err (end_ (js "inside the literal " ++ word))
      else Ok (drop (length word) s)
  end.

(** A value that is no array and no object. *)
Definition scalar (s : jstr) (character : N) : result fault jstr :=
  if (character =? 34)%N then string_ s
  else if (character =? 45)%N || is_digit character then number s
  else literal s character.

(** ** The state machine *)

Inductive mode := MValue | MKey | MAfter.

Record scanner := { rest : jstr; stack : list bracket; state : mode }.

(** What one turn of the loop does: [return], or [continue] in a new state. *)
Inductive turn := Return (problem : option fault) | Continue (c : scanner).

Definition after_open (open : bracket) : mode := match open with Brace => MKey | Bracket => MValue end.

Definition value_turn (s : jstr) (st : list bracket) : turn :=
  match s with
  | [] => Return (Some (end_ (match st with
                              | [] => js "before any JSON value"
                              | open :: _ => js "inside " ++ container open ++ js ", where a value should follow"
                              end)))
  | character :: s1 =>
      match opens character with
      | Some open =>
          let s2 := skip_ws s1 in
          if bool_decide (head s2 = Some (close_unit open))
          then Continue {| rest := drop 1 s2; stack := st; state := MAfter |}
          else Continue {| rest := s2; stack := open :: st; state := after_open open |}
      | None =>
          match scalar s character with
          | Err problem => Return (Some problem)
          | Ok s => Continue {| rest := s; stack := st; state := MAfter |}
          end
      end
  end.

Definition key_turn (s : jstr) (st : list bracket) : turn :=
  match s with
  | [] => Return (Some (end_ (js "inside an object, before a property name")))
  | character :: _ =>
      if negb (character =? 34)%N then
        Return (Some (fail (if (character =? 39)%N then js "property names need double quotes, not single quotes"
                            else js "expected a property name in double quotes, found " ++ describe character) s))
      else
        match string_ s with
        | Err problem => Return (Some problem)
        | Ok s =>
            match skip_ws s with
            | [] => Return (Some (end_ (js "after a property name, before " ++ dq ++ js ":" ++ dq)))
            | (character :: s1) as s =>
                if negb (character =? 58)%N then
                  Return (Some (fail (js "expected " ++ dq ++ js ":" ++ dq ++ js " after the property name, found " ++ describe character) s))
                else Continue {| rest := s1; stack := st; state := MValue |}
            end
        end
  end.

(** A closing bracket behind a comma. *)
Definition trailing (s : jstr) : option N :=
  match s with c :: _ => if (c =? 125)%N || (c =? 93)%N then Some c else None | [] => None end.

Definition after_turn (s : jstr) (st : list bracket) : turn :=
  match st with
  | [] =>
      match s with
      | [] => Return None
      | character :: _ => Return (Some (fail (js "unexpected text after the end of the JSON value: " ++ describe character) s))
      end
  | open :: st' =>
      let close := close_unit open in
      match s with
      | [] => Return (Some (end_ (js "inside " ++ container open ++ js ", before its closing " ++ dq ++ [close] ++ dq)))
      | character :: s1 =>
          if (character =? 44)%N then
            let s2 := skip_ws s1 in
            match trailing s2 with
            | Some c => Return (Some (fail (js "a trailing comma before " ++ dq ++ [c] ++ dq) s2))
            | None => Continue {| rest := s2; stack := st; state := after_open open |}
            end
          else if (character =? close)%N then Continue {| rest := s1; stack := st'; state := MAfter |}
          else Return (Some (fail (js "expected " ++ dq ++ js "," ++ dq ++ js " or " ++ dq ++ [close] ++ dq ++ js " after "
                                   ++ match open with Brace => js "a property value" | Bracket => js "an array element" end
                                   ++ js ", found " ++ describe character) s))
      end
  end.

Definition step (c : scanner) : turn :=
  let s := skip_ws (rest c) in
  match state c with
  | MValue => value_turn s (stack c)
  | MKey => key_turn s (stack c)
  | MAfter => after_turn s (stack c)
  end.

(** The loop; [None] when the fuel runs out. *)
Fixpoint scan (fuel : nat) (c : scanner) : option (option fault) :=
  match fuel with
  | O => None
  | S fuel => match step c with Return problem => Some problem | Continue c => scan fuel c end
  end.

Definition start (text : jstr) : scanner := {| rest := text; stack := []; state := MValue |}.

(** Every turn that continues consumes a code unit. *)
Definition jsonSyntaxError (text : jstr) : option JsonSyntaxError :=
  syntax_error text <$> default None (scan (S (length text)) (start text)).

(** ** The message *)

Definition ELLIPSIS : jstr := [0x2026%N].
Definition HERE : jstr := [0x27E8%N] ++ js "HERE" ++ [0x27E9%N].

(** [s.lastIndexOf(c)], with [-1]. *)
Fixpoint last_index_of (c : N) (s : jstr) : Z :=
  match s with
  | [] => -1
  | d :: s => let i := last_index_of c s in
              (if 0 <=? i then i + 1 else if (d =? c)%N then 0 else -1)%Z
  end.

Definition invalidJsonProblem (text : jstr) : jstr :=
  let error := default {| offset := 0; reason := js "the text is not a JSON object"; incomplete := false |}
                       (jsonSyntaxError text) in
  let at_ := offset error in
  let before := take at_ text in
  let line := dec (Z.of_nat (length (split_on NL before))) in
  let column := dec (Z.of_nat at_ - last_index_of NL before) in
  let from := (at_ - 40)%nat in
  let near := (if (0 <? from)%nat then ELLIPSIS else []) ++ visible (slice from at_ text) ++ HERE
              ++ visible (slice at_ (at_ + 20) text)
              ++ (if (at_ + 20 <? length text)%nat then ELLIPSIS else []) in
  let cutOff := if incomplete error
                then js " The arguments look cut off: send the complete call again, and split very large content over several smaller calls."
                else [] in
  let where_ := if incomplete error
                then js "after the last of its " ++ dec (Z.of_nat (length text)) ++ js " characters (line " ++ line ++ js ", column " ++ column ++ js ")"
                else js "at character " ++ dec (Z.of_nat (at_ + 1)) ++ js " of " ++ dec (Z.of_nat (length text)) ++ js " (line " ++ line ++ js ", column " ++ column ++ js ")" in
  js "its arguments are invalid JSON: " ++ reason error ++ js ", " ++ where_ ++ js ", near " ++ near ++ js "." ++ cutOff.

Definition notRunMessage (toolName problem : jstr) : jstr :=
  toolName ++ js " was not run: " ++ problem ++ js ". Correct the arguments and call it again.".

(** ** Values

    What a parsed call or a schema may hold. A number is a double, of which the
    code uses [String(n)], the tests of [Number] and the conversion of a text. *)

Class Numbers := {
  num : Type;
  num_text : num → jstr;
  isFinite : num → bool;
  isInteger : num → bool;
  Number_ : jstr → num;
}.

Section schema.
Context `{Numbers}.

Inductive value :=
| VNull
| VBool (b : bool)
| VNum (n : num)
| VStr (s : jstr)
| VArr (l : list value)
| VObj (l : list (jstr * value)).

(** [JSON.stringify] *)
Fixpoint value_text (v : value) : jstr :=
  match v with
  | VNull => js_null
  | VBool b => if b then js_true else js_false
  | VNum n => if isFinite n then num_text n else js_null
  | VStr s => Json.quote s
  | VArr l => 91%N :: JsString.join [44%N] (map value_text l) ++ [93%N]
  | VObj l => 123%N :: JsString.join [44%N] (map (λ '(k, v), Json.quote k ++ 58%N :: value_text v) l) ++ [125%N]
  end.

(** [unknown]: [None] is [undefined]. *)
Abbreviation unknown := (option value).

Definition plainObject (v : unknown) : option (list (jstr * value)) :=
  match v with Some (VObj l) => Some l | _ => None end.

Definition as_array (v : unknown) : option (list value) :=
  match v with Some (VArr l) => Some l | _ => None end.

Definition as_string (v : value) : option jstr := match v with VStr s => Some s | _ => None end.

Definition is_null (v : value) : bool := match v with VNull => true | _ => false end.

(** [object[name] !== undefined]: an own member, or an inherited one. *)
Definition present (name : jstr) (object : list (jstr * value)) : bool :=
  bool_decide (name ∈ object.*1) || bool_decide (name ∈ OBJECT_PROTOTYPE).

Definition unparsedToolArguments (v schema : unknown) : option jstr :=
  match plainObject v with
  | Some [(k, VStr raw)] =>
      if negb (bool_decide (k = js "raw")) then None
      else if match s ← plainObject schema; p ← plainObject (map_get (js "properties") s); map_get (js "raw") p with
              | Some _ => true | None => false end then None
      else match jsonSyntaxError raw with None => None | Some _ => Some raw end
  | _ => None
  end.

Definition is_num (type : jstr) : bool := bool_decide (type = js "number") || bool_decide (type = js "integer").

Definition matchesType (type : jstr) (v : unknown) : bool :=
  if bool_decide (type = js "object") then match v with Some (VObj _) => true | _ => false end
  else if bool_decide (type = js "array") then match v with Some (VArr _) => true | _ => false end
  else if bool_decide (type = js "string") then match v with Some (VStr _) => true | _ => false end
  else if bool_decide (type = js "number") then match v with Some (VNum n) => isFinite n | _ => false end
  else if bool_decide (type = js "integer") then match v with Some (VNum n) => isInteger n | _ => false end
  else if bool_decide (type = js "boolean") then match v with Some (VBool _) => true | _ => false end
  else if bool_decide (type = js "null") then match v with Some VNull => true | _ => false end
  else true.

Definition typeName (type : jstr) : jstr :=
  if bool_decide (type = js "integer") then js "an integer"
  else if bool_decide (type = js "array") then js "an array"
  else if bool_decide (type = js "object") then js "an object"
  else if bool_decide (type = js "null") then js "null"
  else js "a " ++ type.

Definition describeValue (v : unknown) : jstr :=
  match v with
  | Some VNull => js "null"
  | None => js "nothing"
  | Some (VArr _) => js "an array"
  | Some (VObj _) => js "an object"
  | Some (VStr s) => js "a string (" ++ Json.quote (if (40 <? length s)%nat then take 40 s ++ ELLIPSIS else s) ++ js ")"
  | Some (VNum n) => trim (js "the number " ++ num_text n)
  | Some (VBool b) => trim (js " " ++ if b then js_true else js_false)
  end.

Definition typeHint (types : list jstr) (v : unknown) : jstr :=
  match v with
  | Some (VStr s) =>
      let trimmed := trim s in
      if existsb (λ type, bool_decide (type = js "object") || bool_decide (type = js "array")) types
         && (starts_with (js "{") trimmed || starts_with (js "[") trimmed)
      then js "; send the value itself, not JSON text inside a string"
      else if existsb is_num types && truthy trimmed && isFinite (Number_ s)
      then js "; send the number without quotes"
      else []
  | _ => []
  end.

Definition field (path : jstr) : jstr := if truthy path then dq ++ path ++ dq else js "the arguments".

Definition join (path name : jstr) : jstr := if truthy path then path ++ js "." ++ name else name.

(** [JSON.stringify(v)], [undefined] for [undefined]. *)
Definition json_text (v : unknown) : option jstr := value_text <$> v.

Definition rule_types (rule : list (jstr * value)) : list jstr :=
  match map_get (js "type") rule with
  | Some (VArr l) => omap as_string l
  | Some v => omap as_string [v]
  | None => []
  end.

Definition rule_enum (rule : list (jstr * value)) : list value := default [] (as_array (map_get (js "enum") rule)).

Definition rule_required (rule : list (jstr * value)) : list jstr :=
  omap as_string (default [] (as_array (map_get (js "required") rule))).

Definition rule_properties (rule : list (jstr * value)) : list (jstr * value) :=
  default [] (plainObject (map_get (js "properties") rule)).

Definition type_problem (types : list jstr) (item : unknown) (path : jstr) : jstr :=
  field path ++ js " must be " ++ JsString.join (js " or ") (map typeName types) ++ js ", but "
  ++ describeValue item ++ js " was sent" ++ typeHint types item.

Definition enum_problem (options : list value) (item : unknown) (path : jstr) : jstr :=
  field path ++ js " must be one of " ++ JsString.join (js ", ") (map value_text (take 12 options)) ++ js ", but "
  ++ default (js "undefined") (take 60 <$> json_text item) ++ js " was sent".

Definition missing_problem (object : list (jstr * value)) (path name : jstr) : jstr :=
  let sent := take 8 object.*1 in
  field (join path name) ++ js " is required but missing (sent "
  ++ (if (0 <? length sent)%nat then js "fields: " ++ JsString.join (js ", ") sent else js "no fields") ++ js ")".

(** [visit], for the problems so far; [levels] are the depths left up to 32. An
    inherited member of [properties] is no rule: for such a name it does nothing. *)
Fixpoint visit (limit levels : nat) (node : unknown) (item : unknown) (path : jstr) (problems : list jstr) : list jstr :=
  match levels with
  | O => problems
  | S levels =>
      match plainObject node with
      | None => problems
      | Some rule =>
          if (limit <=? length problems)%nat then problems
          else
            let types := rule_types rule in
            if (0 <? length types)%nat && negb (existsb (λ type, matchesType type item) types)
            then problems ++ [type_problem types item path]
            else if (0 <? length (rule_enum rule))%nat
                    && negb (existsb (λ option, bool_decide (Some (value_text option) = json_text item)) (rule_enum rule))
            then problems ++ [enum_problem (rule_enum rule) item path]
            else
              match item with
              | Some (VObj object) =>
                  let properties := rule_properties rule in
                  let required := rule_required rule in
                  let problems := fold_left (λ problems name,
                        if present name object || (limit <=? length problems)%nat then problems
                        else problems ++ [missing_problem object path name]) required problems in
                  fold_left (λ problems '(name, child),
                        match map_get name properties with
                        | None => problems
                        | Some rule' =>
                            if is_null child && negb (bool_decide (name ∈ required)) then problems
                            else visit limit levels (Some rule') (Some child) (join path name) problems
                        end) object problems
              | Some (VArr elements) =>
                  match plainObject (map_get (js "items") rule) with
                  | None => problems
                  | Some _ =>
                      fold_left (λ problems '(index, element),
                        visit limit levels (map_get (js "items") rule) (Some element)
                          (path ++ js "[" ++ dec (Z.of_nat index) ++ js "]") problems)
                        (imap pair elements) problems
                  end
              | _ => problems
              end
      end
  end.

Definition schemaArgumentProblems (schema v : unknown) (limit : nat) : list jstr := visit limit 33 schema v [] [].

End schema.
