(* ===== verification/ToolArgumentsJson.v ===== *)
(** * The scanner of tool arguments finds exactly the JSON texts

    The grammar of RFC 8259 as inductive predicates; a second form of it over
    what is left of the text, for each state of the scanner; and that the
    scanner decides it, with an error offset up to which the text can be
    completed. *)

From S2P Require Import Prelude JsMap JsString Json ToolArguments.
From Stdlib Require Import Lia.

Set Default Goal Selector "!".

(** ** RFC 8259 *)

Definition ws (s : jstr) : Prop := Forall (λ c, is_json_ws c = true) s.

Inductive chars : jstr → Prop :=
| chars_nil : chars []
| chars_plain c s : c ≠ 34%N → c ≠ 92%N → (32 <= c)%N → chars s → chars (c :: s)
| chars_escape e s : e ∈ ESCAPES → chars s → chars (92%N :: e :: s)
| chars_u a b c d s :
    HEX a = true → HEX b = true → HEX c = true → HEX d = true → chars s →
    chars (92%N :: 117%N :: a :: b :: c :: d :: s).

Definition jstring (s : jstr) : Prop := ∃ b, chars b ∧ s = 34%N :: b ++ [34%N].

Definition digit_seq (s : jstr) : Prop := Forall (λ c, is_digit c = true) s.
Definition digits1 (s : jstr) : Prop := s ≠ [] ∧ digit_seq s.

Definition jint (s : jstr) : Prop :=
  s = [48%N] ∨ ∃ c ds, s = c :: ds ∧ is_digit c = true ∧ c ≠ 48%N ∧ digit_seq ds.
Definition jfrac (s : jstr) : Prop := s = [] ∨ ∃ ds, digits1 ds ∧ s = 46%N :: ds.
Definition jexp (s : jstr) : Prop :=
  s = [] ∨ ∃ e sign ds, (e = 101%N ∨ e = 69%N) ∧ (sign = [] ∨ sign = [43%N] ∨ sign = [45%N])
                        ∧ digits1 ds ∧ s = e :: sign ++ ds.
Definition jnumber (s : jstr) : Prop :=
  ∃ sign i f e, (sign = [] ∨ sign = [45%N]) ∧ jint i ∧ jfrac f ∧ jexp e ∧ s = sign ++ i ++ f ++ e.

Inductive jvalue : jstr → Prop :=
| value_literal s : s ∈ LITERALS → jvalue s
| value_string s : jstring s → jvalue s
| value_number s : jnumber s → jvalue s
| value_empty o w : ws w → jvalue (open_unit o :: w ++ [close_unit o])
| value_object s : members s → jvalue (123%N :: s ++ [125%N])
| value_array s : elements s → jvalue (91%N :: s ++ [93%N])
with members : jstr → Prop :=
| members_one w1 k w2 s : ws w1 → jstring k → ws w2 → element s → members (w1 ++ k ++ w2 ++ 58%N :: s)
| members_more w1 k w2 s s' :
    ws w1 → jstring k → ws w2 → element s → members s' → members (w1 ++ k ++ w2 ++ 58%N :: s ++ 44%N :: s')
with elements : jstr → Prop :=
| elements_one s : element s → elements s
| elements_more s s' : element s → elements s' → elements (s ++ 44%N :: s')
with element : jstr → Prop :=
| element_intro w1 s w2 : ws w1 → jvalue s → ws w2 → element (w1 ++ s ++ w2).

(** A JSON text. *)
Definition json_text (s : jstr) : Prop := element s.

Scheme jvalue_mut := Minimality for jvalue Sort Prop
  with members_mut := Minimality for members Sort Prop
  with elements_mut := Minimality for elements Sort Prop
  with element_mut := Minimality for element Sort Prop.
Combined Scheme jvalue_elements_ind from jvalue_mut, members_mut, elements_mut, element_mut.

(** ** White space *)

Lemma skip_ws_split s : ∃ w, ws w ∧ s = w ++ skip_ws s.
Proof.
  induction s as [|c s (w & Hw & IH)]; simpl; [by exists []; repeat constructor|].
  destruct (is_json_ws c) eqn:E; [|by exists []; repeat constructor].
  exists (c :: w). split; [by constructor|]. simpl. by f_equal.
Qed.

Lemma skip_ws_app w s : ws w → skip_ws (w ++ s) = skip_ws s.
Proof. induction 1 as [|c w E _ IH]; simpl; [done|]. by rewrite E. Qed.

Lemma skip_ws_head c s : is_json_ws c = false → skip_ws (c :: s) = c :: s.
Proof. simpl. by intros ->. Qed.

Lemma skip_ws_idem s : skip_ws (skip_ws s) = skip_ws s.
Proof. induction s as [|c s IH]; simpl; [done|]. destruct (is_json_ws c) eqn:E; [done|]. simpl. by rewrite E. Qed.

Lemma skip_ws_head_not s c r : skip_ws s = c :: r → is_json_ws c = false.
Proof.
  induction s as [|d s IH]; simpl; [done|]. destruct (is_json_ws d) eqn:E; [done|]. by intros [= <- _].
Qed.

Lemma skip_ws_extend s t : skip_ws s ≠ [] → skip_ws (s ++ t) = skip_ws s ++ t.
Proof. induction s as [|c s IH]; simpl; [done|]. by destruct (is_json_ws c). Qed.

Lemma skip_ws_ws w : ws w → skip_ws w = [].
Proof. intros Hw. rewrite <- (app_nil_r w), skip_ws_app by done. done. Qed.

Lemma skip_ws_length s : (length (skip_ws s) <= length s)%nat.
Proof. destruct (skip_ws_split s) as (w & _ & E). apply (f_equal length) in E. rewrite length_app in E. lia. Qed.

(** ** What a part of the scanner does

    [f] consumes from its text a prefix in [P], all of it when a [stop] follows;
    a fault comes behind what can still become a [P]; and a result before the end
    of the text does not change with what is added. *)
Record scans (P : jstr → Prop) (stop : jstr → Prop) (f : jstr → jstr → result fault jstr) : Prop := {
  scans_sound b s r : f b s = Ok r → ∃ x, P x ∧ s = x ++ r;
  scans_complete b x r : P x → stop r → f b (x ++ r) = Ok r;
  scans_viable b s e : f b s = Err e → ∃ pre t, s = pre ++ fault_at e ∧ P (pre ++ t);
  scans_extend b b' s r t : f b s = Ok r → r ≠ [] → f b' (s ++ t) = Ok (r ++ t);
  scans_fault b b' s e t : f b s = Err e → fault_at e ≠ [] → ∃ e', f b' (s ++ t) = Err e';
}.

(** One part after another. *)
Definition seq (P Q : jstr → Prop) (s : jstr) : Prop := ∃ x y, P x ∧ Q y ∧ s = x ++ y.

Lemma scans_seq P Q stopP stopQ f g :
  scans P stopP f → scans Q stopQ g →
  (∀ y r, Q y → stopQ r → stopP (y ++ r)) → (∃ y, Q y) →
  scans (seq P Q) stopQ (λ b s, let! s := f b s in g b s).
Proof.
  intros Hf Hg Hstop [y0 Hy0].
  assert (∀ b s e, g b s = Err e → fault_at e ≠ [] → s ≠ []) as Hne.
  { intros b s e H2 He ->. destruct (scans_viable _ _ _ Hg _ _ _ H2) as (pre & u & E & _). by destruct pre, (fault_at e). }
  split.
  - intros b s r (s1 & H1 & H2)%result_bind_ok.
    destruct (scans_sound _ _ _ Hf _ _ _ H1) as (x & Hx & ->).
    destruct (scans_sound _ _ _ Hg _ _ _ H2) as (y & Hy & ->).
    exists (x ++ y). rewrite <- app_assoc. split; [by exists x, y|done].
  - intros b x r (u & v & Hu & Hv & ->) Hr. rewrite <- app_assoc.
    cbn. rewrite (scans_complete _ _ _ Hf) by auto. cbn. by apply (scans_complete _ _ _ Hg).
  - intros b s e. cbn. destruct (f b s) as [s1|e1] eqn:E.
    + intros H2. destruct (scans_sound _ _ _ Hf _ _ _ E) as (x & Hx & ->).
      destruct (scans_viable _ _ _ Hg _ _ _ H2) as (pre & t & -> & Ht).
      exists (x ++ pre), t. rewrite <- !app_assoc. split; [done|]. by exists x, (pre ++ t).
    + intros [= <-]. destruct (scans_viable _ _ _ Hf _ _ _ E) as (pre & t & -> & Ht).
      exists pre, (t ++ y0). split; [done|]. rewrite app_assoc. by exists (pre ++ t), y0.
  - intros b b' s r t (s1 & H1 & H2)%result_bind_ok Hr.
    assert (s1 ≠ []) as Hs1.
    { intros ->. destruct (scans_sound _ _ _ Hg _ _ _ H2) as (y & _ & E). by destruct y, r. }
    cbn. rewrite (scans_extend _ _ _ Hf _ b' _ _ t H1 Hs1). cbn. by apply (scans_extend _ _ _ Hg b).
  - intros b b' s e t. cbn. destruct (f b s) as [s1|e1] eqn:E.
    + intros H2 He. pose proof (Hne _ _ _ H2 He) as Hs1.
      rewrite (scans_extend _ _ _ Hf _ b' _ _ t E Hs1). cbn. by apply (scans_fault _ _ _ Hg b b' s1 e t).
    + intros [= <-] He. destruct (scans_fault _ _ _ Hf b b' s e1 t E He) as [e' ->]. by exists e'.
Qed.

(** ** Strings *)

Lemma hex_fault_cases s2 :
  let s := 92%N :: 117%N :: s2 in
  (hex_fault s = None ∧ ∃ a b c d s3, s2 = a :: b :: c :: d :: s3 ∧
     HEX a = true ∧ HEX b = true ∧ HEX c = true ∧ HEX d = true) ∨
  (∃ e, hex_fault s = Some e ∧ fault_at e = s ∧ ∀ t, ∃ e', hex_fault (s ++ t) = Some e') ∨
  (∃ e t, hex_fault s = Some e ∧ fault_at e = [] ∧ chars (s ++ t)).
Proof.
  intros s. unfold s, hex_fault.
  destruct s2 as [|a s2]; [right; right; eexists _, [48; 48; 48; 48]%N; split_and!; [done..|]; by repeat constructor|].
  destruct (HEX a) eqn:Ha; [|right; left; simpl; rewrite Ha; eexists; split_and!; [done..|eauto]].
  destruct s2 as [|b s2].
  { right; right; simpl; rewrite Ha. eexists _, [48; 48; 48]%N; split_and!; [done..|]; by repeat constructor. }
  destruct (HEX b) eqn:Hb; [|right; left; simpl; rewrite Ha, Hb; eexists; split_and!; [done..|eauto]].
  destruct s2 as [|c s2].
  { right; right; simpl; rewrite Ha, Hb. eexists _, [48; 48]%N; split_and!; [done..|]; by repeat constructor. }
  destruct (HEX c) eqn:Hc; [|right; left; simpl; rewrite Ha, Hb, Hc; eexists; split_and!; [done..|eauto]].
  destruct s2 as [|d s2].
  { right; right; simpl; rewrite Ha, Hb, Hc. eexists _, [48]%N; split_and!; [done..|]; by repeat constructor. }
  destruct (HEX d) eqn:Hd; [|right; left; simpl; rewrite Ha, Hb, Hc, Hd; eexists; split_and!; [done..|eauto]].
  left. simpl. rewrite Ha, Hb, Hc, Hd. split; [done|]. by exists a, b, c, d, s2.
Qed.

Definition jchars (x : jstr) : Prop := ∃ b, chars b ∧ x = b ++ [34%N].

Lemma jchars_nil : jchars [34%N].
Proof. exists []. split; [constructor|done]. Qed.

Lemma jchars_app c x : (∀ s, chars s → chars (c ++ s)) → jchars x → jchars (c ++ x).
Proof. intros Hc (b & Hb & ->). exists (c ++ b). split; [by apply Hc|by rewrite app_assoc]. Qed.

(** The three ways to go on, as one view of the loop. *)
Inductive string_view (s : jstr) : result fault jstr → Prop :=
| sv_close r : s = 34%N :: r → string_view s (Ok r)
| sv_more c s1 : c ≠ [] → s = c ++ s1 → (∀ x, chars x → chars (c ++ x)) →
    (∀ t, string_loop (s ++ t) = string_loop (s1 ++ t)) → string_view s (string_loop s1)
| sv_fault e : fault_at e = s → (∀ t, ∃ e', string_loop (s ++ t) = Err e') → string_view s (Err e)
| sv_end e t : fault_at e = [] → jchars (s ++ t) → string_view s (Err e).

Lemma string_cases s : string_view s (string_loop s).
Proof.
  destruct s as [|c s1]; [apply sv_end with [34%N]; [done|apply jchars_nil]|].
  destruct (decide (c = 34)%N) as [->|H34]; [by apply sv_close|].
  destruct (decide (c = 92)%N) as [->|H92].
  - destruct s1 as [|e s2].
    { apply sv_end with [92; 34]%N; [done|]. exists [92; 92]%N. split; [|done].
      apply chars_escape; [set_solver|constructor]. }
    destruct (decide (e = 117)%N) as [->|Hu].
    + destruct (hex_fault_cases s2) as [(H & a & b & c & d & s3 & -> & ?)|[(e & H & Hat & Hext)|(e & t & H & Hat & Ht)]];
        cbn [string_loop]; cbn -[hex_fault string_loop]; rewrite H.
      * apply sv_more with [92; 117; a; b; c; d]%N; [done..| |].
        { intros x Hx. destruct_and?. by constructor. }
        intros t. cbn -[hex_fault string_loop]. cbn [string_loop]. cbn -[hex_fault string_loop].
        replace (hex_fault _) with (@None fault); [done|].
        destruct_and?. unfold hex_fault. simpl.
        repeat match goal with E : HEX _ = true |- _ => rewrite E; clear E end. done.
      * destruct s2 as [|? [|? [|? [|? ?]]]]; apply sv_fault; try done; intros t;
          destruct (Hext t) as [e' He]; exists e'; simpl; simpl in He; by rewrite He.
      * assert (jchars ((92%N :: 117%N :: s2) ++ (t ++ [34%N]))) as Hj by (exists ((92%N :: 117%N :: s2) ++ t); by rewrite app_assoc).
        destruct s2 as [|? [|? [|? [|? ?]]]]; by apply sv_end with (t ++ [34%N]).
    + assert (string_loop (92%N :: e :: s2) = if bool_decide (e ∈ ESCAPES) then string_loop s2 else Err (escape_fault e (92%N :: e :: s2))) as ->.
      { cbn [string_loop]. simpl. by rewrite (proj2 (N.eqb_neq e 117) Hu). }
      case_bool_decide as He.
      * apply sv_more with [92; e]%N; [done..| |].
        { intros x. by apply chars_escape. }
        intros t. simpl. rewrite (proj2 (N.eqb_neq e 117) Hu). by rewrite bool_decide_true.
      * apply sv_fault; [done|]. intros t. simpl. rewrite (proj2 (N.eqb_neq e 117) Hu), bool_decide_false by done. eauto.
  - simpl. rewrite (proj2 (N.eqb_neq c 34) H34), (proj2 (N.eqb_neq c 92) H92).
    destruct (N.ltb_spec c 32).
    + apply sv_fault; [done|]. intros t. simpl.
      rewrite (proj2 (N.eqb_neq c 34) H34), (proj2 (N.eqb_neq c 92) H92), (proj2 (N.ltb_lt c 32)) by done. eauto.
    + apply sv_more with [c]; [done..| |].
      { intros x. by apply chars_plain. }
      intros t. simpl. rewrite (proj2 (N.eqb_neq c 34) H34), (proj2 (N.eqb_neq c 92) H92).
      by rewrite (proj2 (N.ltb_ge c 32)).
Qed.

Lemma string_complete b r : chars b → string_loop (b ++ 34%N :: r) = Ok r.
Proof.
  induction 1 as [|c s H34 H92 H32 _ IH|e s He _ IH|a b c d s Ha Hb Hc Hd _ IH]; [done|..].
  - simpl. rewrite (proj2 (N.eqb_neq c 34) H34), (proj2 (N.eqb_neq c 92) H92), (proj2 (N.ltb_ge c 32)); done.
  - assert (e ≠ 117%N) as Hu by (intros ->; apply (bool_decide_pack _) in He; vm_compute in He; done).
    simpl. by rewrite (proj2 (N.eqb_neq e 117) Hu), bool_decide_true.
  - cbn -[hex_fault string_loop]. cbn [string_loop]. cbn -[hex_fault string_loop].
    replace (hex_fault _) with (@None fault); [done|].
    unfold hex_fault. simpl. by rewrite Ha, Hb, Hc, Hd.
Qed.

(** Induction over the loop: a property of the results that goes back over the
    units that are consumed. *)
Lemma string_ind (Q : jstr → result fault jstr → Prop) :
  (∀ r, Q (34%N :: r) (Ok r)) →
  (∀ c s1 o, c ≠ [] → (∀ x, chars x → chars (c ++ x)) →
     (∀ t, string_loop ((c ++ s1) ++ t) = string_loop (s1 ++ t)) → Q s1 o → Q (c ++ s1) o) →
  (∀ s e, fault_at e = s → (∀ t, ∃ e', string_loop (s ++ t) = Err e') → Q s (Err e)) →
  (∀ s e t, fault_at e = [] → jchars (s ++ t) → Q s (Err e)) →
  ∀ s, Q s (string_loop s).
Proof.
  intros Hclose Hmore Hfault Hend s.
  induction s as [s IH] using (induction_ltof1 _ (@length N)); unfold ltof in IH.
  destruct (string_cases s) as [r ->|c s1 Hc -> Hx Ht|e He Ht|e t He Ht]; eauto.
  apply Hmore; [done..|]. apply IH. rewrite length_app. destruct c; [done|]. simpl; lia.
Qed.

Lemma scans_string : scans jchars (λ _, True) (λ _, string_loop).
Proof.
  split.
  - intros _ s. pattern s, (string_loop s). apply string_ind; [|..|done|done].
    + intros r r' [= <-]. exists [34%N]. split; [apply jchars_nil|done].
    + intros c s1 o _ Hc _ IH r Hr. destruct (IH r Hr) as (x & Hx & ->).
      exists (c ++ x). rewrite app_assoc. split; [by apply jchars_app|done].
  - intros _ x r (b & Hb & ->) _. rewrite <- app_assoc. by apply string_complete.
  - intros _ s. pattern s, (string_loop s). apply string_ind; [done|..].
    + intros c s1 o _ Hc _ IH e He. destruct (IH e He) as (pre & t & -> & Ht).
      exists (c ++ pre), t. rewrite <- !app_assoc. split; [done|]. by apply jchars_app.
    + intros s' e <- _ e' [= <-]. exists [], [34%N]. split; [done|apply jchars_nil].
    + intros s' e t Hat Ht e' [= <-]. exists s', t. rewrite Hat, app_nil_r. done.
  - intros _ _ s r t. pattern s, (string_loop s). apply string_ind; [|..|done|done].
    + by intros r' [= <-] _.
    + intros c s1 o _ _ Hext IH Hr Hne. rewrite Hext. by apply IH.
  - intros _ _ s e t. pattern s, (string_loop s). apply string_ind; [done|..].
    + intros c s1 o _ _ Hext IH He Hat. rewrite Hext. by apply IH.
    + intros s' e' _ Hext [= <-] _. apply Hext.
    + intros s' e' u Hat _ [= <-] H. done.
Qed.

(** ** Numbers *)

Lemma span_digits_split s : digit_seq (span_digits s).1 ∧ s = (span_digits s).1 ++ (span_digits s).2
  ∧ (∀ c, head (span_digits s).2 = Some c → is_digit c = false).
Proof.
  induction s as [|c s IH]; simpl; [by repeat constructor|].
  destruct (is_digit c) eqn:E.
  - destruct (span_digits s) as [ds r]. destruct IH as (H1 & H2 & H3). simpl in *.
    split_and!; [by constructor|by rewrite H2 at 1|done].
  - simpl. split_and!; [constructor|done|congruence].
Qed.

Definition no_digit (r : jstr) : Prop := ∀ c, head r = Some c → is_digit c = false.

Lemma span_digit_seq ds r : digit_seq ds → no_digit r → span_digits (ds ++ r) = (ds, r).
Proof.
  intros Hds Hr. induction Hds as [|c ds Hc _ IH]; simpl; [|by rewrite Hc, IH].
  destruct r as [|c r]; [done|]. simpl. by rewrite (Hr c eq_refl).
Qed.

Lemma no_digit_app r t : r ≠ [] → no_digit r → no_digit (r ++ t).
Proof. by destruct r. Qed.

(** [some_digits] with a reason, on a text that has not ended. *)
Lemma some_digits_ok b s why r : some_digits b s why = Ok r ↔ ∃ ds, digits1 ds ∧ s = ds ++ r ∧ no_digit r.
Proof.
  unfold some_digits, digits. destruct (span_digits_split s) as (H1 & H2 & H3).
  destruct (span_digits s) as [ds r'] eqn:E. simpl in *. split.
  - case_bool_decide as H0; [done|]. intros [= <-]. exists ds. split_and!; [|done..]. split; [|done]. by destruct ds.
  - intros (ds' & [Hne Hds'] & -> & Hr). rewrite span_digit_seq in E by done. simplify_eq.
    case_bool_decide as H0; [|done]. by destruct ds.
Qed.

Lemma some_digits_err b s why e :
  some_digits b s why = Err e → fault_at e = s ∧ no_digit s.
Proof.
  unfold some_digits, digits. destruct (span_digits_split s) as (H1 & H2 & H3).
  destruct (span_digits s) as [ds r']. simpl in *. case_bool_decide as H0; [|done].
  intros [= <-]. destruct ds; [|done]. simpl in H2. by subst.
Qed.

Lemma some_digits_fault b s why : s ≠ [] → no_digit s → ∃ e, some_digits b s why = Err e.
Proof.
  intros Hs Hd. destruct (some_digits b s why) as [r|e] eqn:E; [|by exists e].
  apply some_digits_ok in E as ([|c ds] & [? Hds] & -> & _); [done|].
  apply Forall_cons in Hds as [Hc _]. specialize (Hd c eq_refl). congruence.
Qed.

Lemma some_digits_extend b b' s why r t :
  some_digits b s why = Ok r → r ≠ [] → some_digits b' (s ++ t) why = Ok (r ++ t).
Proof.
  intros (ds & Hds & -> & Hr)%some_digits_ok Hne. apply some_digits_ok.
  exists ds. rewrite app_assoc. split_and!; [done..|by apply no_digit_app].
Qed.

Lemma digit_0 : digits1 [48%N].
Proof. split; [done|]. by repeat constructor. Qed.


Lemma scans_integer : scans jint no_digit number_integer.
Proof.
  split.
  - intros b [|c s] r; simpl; [done|]. destruct (N.eqb_spec c 48) as [->|Hc].
    + intros [= <-]. exists [48%N]. split; [by left|done].
    + intros ([|c' ds] & [? Hds] & E & _)%some_digits_ok; [done|]. injection E as -> ->.
      apply Forall_cons in Hds as [? ?]. exists (c' :: ds). split; [|done]. right. by exists c', ds.
  - intros b x r [->|(c & ds & -> & Hc & Hn & Hds)] Hr; [done|].
    simpl. rewrite (proj2 (N.eqb_neq c 48) Hn). apply some_digits_ok.
    exists (c :: ds). split_and!; [split; [done|by constructor]|done|done].
  - intros b [|c s] e; simpl.
    + intros [= <-]. exists [], [48%N]. split; [done|by left].
    + destruct (N.eqb_spec c 48) as [->|Hc]; [done|]. intros [Hat _]%some_digits_err.
      exists [], [48%N]. split; [done|by left].
  - intros b b' [|c s] r t; simpl; [done|]. destruct (N.eqb_spec c 48) as [->|Hc]; [by intros [= <-]|].
    intros E. exact (some_digits_extend b b' (c :: s) _ r t E).
  - intros b b' [|c s] e t; simpl; [by intros [= <-]|]. destruct (N.eqb_spec c 48) as [->|Hc]; [done|].
    intros [_ Hd]%some_digits_err _. apply some_digits_fault; [done|]. by apply (no_digit_app (c :: s)).
Qed.

(** An optional part that starts with a mark. *)
Definition no_frac (r : jstr) : Prop := no_digit r ∧ head r ≠ Some 46%N.

Lemma scans_fraction : scans jfrac no_frac number_fraction.
Proof.
  split; unfold number_fraction.
  - intros b s r. case_bool_decide as H; [|intros [= <-]; exists []; split; [by left|done]].
    destruct s as [|c s]; [done|]. injection H as ->. simpl. destruct s as [|d s]; [done|].
    intros (ds & Hds & -> & _)%some_digits_ok. exists (46%N :: ds). split; [|done]. right. by exists ds.
  - intros b x r [->|(ds & Hds & ->)] [Hr Hf]; simpl; [by rewrite bool_decide_false|].
    destruct (ds ++ r) as [|d s] eqn:E; [by destruct Hds as [? _], ds|].
    apply some_digits_ok. by exists ds.
  - intros b s e. case_bool_decide as H; [|done].
    destruct s as [|c s]; [done|]. injection H as ->. simpl. destruct s as [|d s].
    + intros [= <-]. exists [46%N], [48%N]. split; [done|]. right. exists [48%N]. by split; [apply digit_0|].
    + intros [Hat _]%some_digits_err. exists [46%N], [48%N]. rewrite Hat. split; [done|].
      right. exists [48%N]. by split; [apply digit_0|].
  - intros b b' s r t. case_bool_decide as H.
    + destruct s as [|c s]; [done|]. injection H as ->. simpl. destruct s as [|d s]; [done|].
      intros E. exact (some_digits_extend b b' (d :: s) _ r t E).
    + intros [= <-] Hne. destruct s as [|c s]; [done|]. simpl. by rewrite bool_decide_false.
  - intros b b' s e t. case_bool_decide as H; [|done].
    destruct s as [|c s]; [done|]. injection H as ->. simpl. destruct s as [|d s]; [by intros [= <-]|].
    intros [_ Hd]%some_digits_err _. apply some_digits_fault; [done|]. by apply (no_digit_app (d :: s)).
Qed.

Definition no_exp (r : jstr) : Prop := no_digit r ∧ head r ≠ Some 101%N ∧ head r ≠ Some 69%N.

(** The sign of an exponent. *)
Definition skip_sign (s : jstr) : jstr :=
  if bool_decide (head s = Some 43%N) || bool_decide (head s = Some 45%N) then drop 1 s else s.

Lemma skip_sign_split s : ∃ sign, (sign = [] ∨ sign = [43%N] ∨ sign = [45%N]) ∧ s = sign ++ skip_sign s.
Proof.
  unfold skip_sign. destruct s as [|c s]; simpl; [exists []; auto|].
  destruct (decide (c = 43%N)) as [->|]; [exists [43%N]; auto|].
  destruct (decide (c = 45%N)) as [->|]; [exists [45%N]; auto|].
  rewrite !bool_decide_false by congruence. exists []; auto.
Qed.

Lemma skip_sign_digit c s : is_digit c = true → skip_sign (c :: s) = c :: s.
Proof.
  intros Hc. unfold skip_sign. rewrite !bool_decide_false; [done|cbn; intros E; injection E as ->; discriminate Hc..].
Qed.

Lemma skip_sign_app sign s :
  (sign = [] ∨ sign = [43%N] ∨ sign = [45%N]) → digits1 s → ∀ r, skip_sign (sign ++ s ++ r) = s ++ r.
Proof.
  intros [->|[->| ->]] [Hne Hs] r; [|done..]. destruct Hs as [|c s Hc Hs]; [done|]. by apply skip_sign_digit.
Qed.

Lemma skip_sign_extend s t : s ≠ [] → skip_sign (s ++ t) = skip_sign s ++ t.
Proof.
  destruct s as [|c s]; [done|]. intros _. unfold skip_sign. simpl. by destruct (_ || _).
Qed.

(** [number_exponent] by the mark. *)
Lemma number_exponent_mark b e s :
  e = 101%N ∨ e = 69%N →
  number_exponent b (e :: s) = match skip_sign s with
                               | [] => Err (end_ (js "inside a number"))
                               | s' => some_digits b s' (js ": digits must follow the exponent")
                               end.
Proof. by intros [->| ->]. Qed.

Lemma number_exponent_none b s :
  head s ≠ Some 101%N → head s ≠ Some 69%N → number_exponent b s = Ok s.
Proof.
  intros H1 H2. unfold number_exponent.
  by rewrite (bool_decide_false (head s = Some 101%N)), (bool_decide_false (head s = Some 69%N)).
Qed.

Lemma exponent_cases s :
  (head s ≠ Some 101%N ∧ head s ≠ Some 69%N) ∨ ∃ e s', (e = 101%N ∨ e = 69%N) ∧ s = e :: s'.
Proof.
  destruct s as [|c s]; [by left|]. destruct (decide (c = 101%N ∨ c = 69%N)) as [Hc|Hc].
  - right. by exists c, s.
  - left. simpl. split; intros [= ->]; apply Hc; auto.
Qed.

Lemma scans_exponent : scans jexp no_exp number_exponent.
Proof.
  split.
  - intros b s r. destruct (exponent_cases s) as [[? ?]|(e & s' & He & ->)].
    { rewrite number_exponent_none by done. intros [= <-]. exists []. split; [by left|done]. }
    rewrite number_exponent_mark by done. destruct (skip_sign_split s') as (sg & Hsg & E).
    destruct (skip_sign s') as [|d s1]; [done|]. intros (ds & Hds & E' & _)%some_digits_ok.
    exists (e :: sg ++ ds). rewrite E, E'. split; [|simpl; by rewrite app_assoc]. right. by exists e, sg, ds.
  - intros b x r [->|(e & sg & ds & He & Hsg & Hds & ->)] (Hr & H1 & H2); [by apply number_exponent_none|].
    simpl. rewrite number_exponent_mark, <- app_assoc, skip_sign_app by done.
    destruct (ds ++ r) as [|d s] eqn:E; [by destruct Hds as [? _], ds|].
    apply some_digits_ok. by exists ds.
  - intros b s f. destruct (exponent_cases s) as [[? ?]|(e & s' & He & ->)]; [by rewrite number_exponent_none|].
    rewrite number_exponent_mark by done. destruct (skip_sign_split s') as (sg & Hsg & E).
    intros Hf. assert (fault_at f = skip_sign s') as Hat.
    { destruct (skip_sign s') as [|d s1]; [by injection Hf as <-|]. by apply some_digits_err in Hf as [? _]. }
    exists (e :: sg), [48%N]. rewrite Hat, E at 1. split; [done|].
    right. exists e, sg, [48%N]. split_and!; [done..|apply digit_0|done].
  - intros b b' s r t. destruct (exponent_cases s) as [[? ?]|(e & s' & He & ->)].
    { rewrite number_exponent_none by done. intros [= <-] Hne. apply number_exponent_none; by destruct s. }
    change ((e :: s') ++ t) with (e :: s' ++ t). rewrite !number_exponent_mark by done.
    destruct (skip_sign s') as [|d s1] eqn:E; [done|].
    rewrite skip_sign_extend, E by (by intros ->). intros Hd. exact (some_digits_extend b b' (d :: s1) _ r t Hd).
  - intros b b' s f t. destruct (exponent_cases s) as [[? ?]|(e & s' & He & ->)]; [by rewrite number_exponent_none|].
    change ((e :: s') ++ t) with (e :: s' ++ t). rewrite !number_exponent_mark by done.
    destruct (skip_sign s') as [|d s1] eqn:E; [by intros [= <-]|].
    rewrite skip_sign_extend, E by (by intros ->). intros [_ Hd]%some_digits_err _.
    apply (some_digits_fault b' ((d :: s1) ++ t)); [done|]. by apply no_digit_app.
Qed.

(** A number ends before what continues none of its parts. *)
Definition no_number (r : jstr) : Prop := no_frac r ∧ no_exp r.

Lemma no_digit_part y r c : (y = [] ∨ ∃ s, y = c :: s) → is_digit c = false → no_digit r → no_digit (y ++ r).
Proof. intros [->|[s ->]] Hc Hr; [done|]. by intros d [= <-]. Qed.

Definition junsigned : jstr → Prop := seq (seq jint jfrac) jexp.

Definition unsigned (b s : jstr) : result fault jstr :=
  let! s := (let! s := number_integer b s in number_fraction b s) in number_exponent b s.

Lemma scans_unsigned : scans junsigned no_number unsigned.
Proof.
  apply scans_seq with (stopP := no_frac).
  - apply scans_seq with (stopP := no_digit); [apply scans_integer|apply scans_fraction| |by exists []; left].
    intros y r [->|(ds & _ & ->)] [Hr _]; [done|]. by intros d [= <-].
  - destruct scans_exponent as [H1 H2 H3 H4 H5]. split; [done| |done..].
    intros b x r Hx [_ Hr]. by apply H2.
  - intros y r [->|(e & sg & ds & He & _ & _ & ->)] [Hr _]; [done|].
    split; [by intros d [= <-]; destruct He as [->| ->]|]. simpl. by destruct He as [->| ->].
  - by exists []; left.
Qed.

Lemma number_unsigned s : number s = unsigned s (if bool_decide (head s = Some 45%N) then drop 1 s else s).
Proof.
  unfold number, unsigned. cbn.
  by destruct (number_integer _ _) as [s1|e]; cbn; [destruct (number_fraction s s1)|].
Qed.

Lemma junsigned_number sign x : sign = [] ∨ sign = [45%N] → junsigned x → jnumber (sign ++ x).
Proof.
  intros Hs (y & e & (i & f & Hi & Hf & ->) & He & ->). exists sign, i, f, e. by rewrite <- !app_assoc.
Qed.

Lemma jnumber_unsigned x : jnumber x → ∃ sign y, (sign = [] ∨ sign = [45%N]) ∧ junsigned y ∧ x = sign ++ y.
Proof.
  intros (sign & i & f & e & Hs & Hi & Hf & He & ->). exists sign, (i ++ f ++ e). split_and!; [done| |done].
  exists (i ++ f), e. rewrite app_assoc. split_and!; [|done..]. by exists i, f.
Qed.

(** What an unsigned number starts with. *)
Lemma junsigned_head x : junsigned x → ∃ c s, x = c :: s ∧ is_digit c = true.
Proof.
  intros (y & e & (i & f & [->|(c & ds & -> & Hc & _)] & _ & ->) & _ & ->); [by eexists _, _|].
  by eexists _, _.
Qed.

Lemma number_cases s :
  (∃ s1, s = 45%N :: s1 ∧ number s = unsigned s s1) ∨ (head s ≠ Some 45%N ∧ number s = unsigned s s).
Proof.
  rewrite number_unsigned. case_bool_decide as H; [left|by right].
  destruct s as [|c s]; [done|]. injection H as ->. by exists s.
Qed.

Lemma scans_number : scans jnumber no_number (λ _, number).
Proof.
  pose proof scans_unsigned as Hu. split.
  - intros _ s r. destruct (number_cases s) as [(s1 & -> & ->)|[_ ->]]; intros (x & Hx & ->)%(scans_sound _ _ _ Hu).
    + exists (45%N :: x). split; [|done]. apply (junsigned_number [45%N]); auto.
    + exists x. split; [|done]. apply (junsigned_number []); auto.
  - intros _ x r (sg & y & Hsg & Hy & ->)%jnumber_unsigned Hr.
    destruct (junsigned_head y Hy) as (c & s & E & Hc).
    destruct (number_cases ((sg ++ y) ++ r)) as [(s1 & E1 & ->)|[E1 ->]].
    + destruct Hsg as [->| ->]; [|injection E1 as <-; by apply (scans_complete _ _ _ Hu)].
      rewrite E in E1. injection E1 as -> _. discriminate Hc.
    + destruct Hsg as [->| ->]; [by apply (scans_complete _ _ _ Hu)|done].
  - intros _ s e. destruct (number_cases s) as [(s1 & -> & ->)|[_ ->]]; intros (pre & t & -> & Ht)%(scans_viable _ _ _ Hu).
    + exists (45%N :: pre), t. split; [done|]. apply (junsigned_number [45%N]); auto.
    + exists pre, t. split; [done|]. apply (junsigned_number []); auto.
  - intros _ _ s r t. destruct (number_cases s) as [(s1 & -> & ->)|[Hs ->]]; intros Hr Hne.
    + destruct (number_cases ((45%N :: s1) ++ t)) as [(s2 & [= <-] & ->)|[? _]]; [|done].
      by apply (scans_extend _ _ _ Hu _ _ _ _ _ Hr).
    + destruct (number_cases (s ++ t)) as [(s2 & E & _)|[_ ->]]; [|by apply (scans_extend _ _ _ Hu _ _ _ _ _ Hr)].
      destruct s; [done|]. by injection E as -> _.
  - intros _ _ s e t. destruct (number_cases s) as [(s1 & -> & ->)|[Hs ->]]; intros Hr Hne.
    + destruct (number_cases ((45%N :: s1) ++ t)) as [(s2 & [= <-] & ->)|[? _]]; [|done].
      by apply (scans_fault _ _ _ Hu _ _ _ _ _ Hr).
    + destruct (number_cases (s ++ t)) as [(s2 & E & _)|[_ ->]]; [|by apply (scans_fault _ _ _ Hu _ _ _ _ _ Hr)].
      destruct s as [|c s]; [by injection Hr as <-|]. by injection E as -> _.
Qed.

(** ** Literals and scalars *)

Lemma literals_head w w' : w ∈ LITERALS → w' ∈ LITERALS → head w = head w' → w = w'.
Proof.
  assert (∀ w, w ∈ LITERALS → w = js "true" ∨ w = js "false" ∨ w = js "null") as H.
  { intros u Hu. unfold LITERALS in Hu. set_solver. }
  by intros [->|[->| ->]]%H [->|[->| ->]]%H.
Qed.

Lemma literals_start w : w ∈ LITERALS → ∃ c s, w = c :: s ∧ c ≠ 34%N ∧ c ≠ 45%N ∧ is_digit c = false.
Proof.
  assert (∀ w, w ∈ LITERALS → w = js "true" ∨ w = js "false" ∨ w = js "null") as H.
  { intros u Hu. unfold LITERALS in Hu. set_solver. }
  by intros [->|[->| ->]]%H; eexists _, _.
Qed.

(** The word fits what is there: it is there, or what is there is the start of it. *)
Definition fits (s word : jstr) : Prop := word `prefix_of` s ∨ (length s < length word)%nat ∧ s `prefix_of` word.

Lemma fits_test s word :
  starts_with word s || ((length s <? length word)%nat && starts_with s word) = true ↔ fits s word.
Proof. unfold fits. by rewrite orb_true_iff, andb_true_iff, !starts_with_spec, Nat.ltb_lt. Qed.

Lemma fits_head s c word : fits (c :: s) word → word ∈ LITERALS → head word = Some c.
Proof.
  intros Hf (d & w & -> & _)%literals_start. destruct Hf as [[k E]|[_ [k E]]]; by injection E as -> _.
Qed.

Lemma literal_at_fits s word : s ≠ [] → word ∈ LITERALS → (literal_at s = Some word ↔ fits s word).
Proof.
  intros Hs Hw. destruct s as [|c s]; [done|]. unfold literal_at. split.
  - intros [_ H]%find_first_Some. by apply fits_test.
  - intros Hf. destruct (find_first _ _) as [w|] eqn:E.
    + apply find_first_Some in E as [Hw' H%fits_test]. f_equal. apply literals_head; [done..|].
      by rewrite (fits_head s c w), (fits_head s c word).
    + apply find_first_None with (x := word) in E; [|done]. apply fits_test in Hf. congruence.
Qed.

Lemma literal_at_None s : literal_at s = None ↔ ∀ word, word ∈ LITERALS → ¬ fits s word.
Proof.
  unfold literal_at. rewrite find_first_None. split.
  - intros H w Hw Hf%fits_test. rewrite H in Hf; done.
  - intros H w Hw. apply not_true_iff_false. intros Hf%fits_test. by apply (H w).
Qed.

Lemma literal_at_elem s word : literal_at s = Some word → word ∈ LITERALS ∧ fits s word.
Proof. intros [? H%fits_test]%find_first_Some. done. Qed.

Lemma fits_extend s t word : fits (s ++ t) word → fits s word.
Proof.
  intros [H|[Hl [k ->]]].
  - destruct (prefix_weak_total word s (s ++ t) H (prefix_app_r s s t ltac:(done))) as [|Hs]; [by left|].
    destruct (decide (length s < length word)%nat); [by right|].
    left. by rewrite (prefix_length_eq _ _ Hs) by lia.
  - right. rewrite !length_app in *. split; [lia|]. exists (t ++ k). by rewrite app_assoc.
Qed.

Definition scalar_at (s : jstr) : result fault jstr := scalar s (default 0%N (head s)).

Definition literal_text (s : jstr) : result fault jstr := literal s (default 0%N (head s)).

Lemma scans_literal : scans (λ x, x ∈ LITERALS) (λ _, True) (λ _, literal_text).
Proof.
  assert (∀ x r, x ∈ LITERALS → literal_text (x ++ r) = Ok r) as Hcomplete.
  { intros x r Hx. destruct (literals_start x Hx) as (c & s & E & _).
    unfold literal_text, literal.
    rewrite (proj2 (literal_at_fits (x ++ r) x ltac:(by rewrite E) Hx)) by (left; by exists r).
    rewrite length_app, (proj2 (Nat.ltb_ge _ _)) by lia. by rewrite drop_app_length. }
  assert (∀ s r, literal_text s = Ok r → ∃ x, x ∈ LITERALS ∧ s = x ++ r) as Hsound.
  { intros s r. unfold literal_text, literal.
    destruct (literal_at s) as [w|] eqn:E; [|done]. apply literal_at_elem in E as [Hw Hf].
    destruct (Nat.ltb_spec (length s) (length w)) as [|Hl]; [done|]. intros [= <-].
    destruct Hf as [[k ->]|[? _]]; [|lia]. exists w. by rewrite drop_app_length. }
  split; [by intros _|by intros _ x r Hx _; apply Hcomplete|..].
  - intros _ s e. unfold literal_text, literal.
    destruct (literal_at s) as [w|] eqn:E.
    + apply literal_at_elem in E as [Hw Hf].
      destruct (Nat.ltb_spec (length s) (length w)) as [Hl|]; [|done]. intros [= <-].
      destruct Hf as [[k ->]|[_ [k ->]]]; [rewrite length_app in Hl; lia|].
      exists s, k. by rewrite app_nil_r.
    + intros [= <-]. exists [], (js "true"). split; [done|]. unfold LITERALS. set_solver.
  - intros _ _ s r t (x & Hx & ->)%Hsound _. rewrite <- app_assoc. by apply Hcomplete.
  - intros _ _ s e t He Hat. assert (s ≠ []) as Hs.
    { intros ->. vm_compute in He. by injection He as <-. }
    unfold literal_text, literal in *. destruct (literal_at s) as [w|] eqn:E.
    { destruct (_ <? _)%nat; [|done]. by injection He as <-. }
    replace (literal_at (s ++ t)) with (@None jstr); [by eexists|].
    symmetry. apply literal_at_None. intros w Hw Hf%fits_extend.
    by apply (proj1 (literal_at_None s) E w Hw).
Qed.

Definition jscalar (x : jstr) : Prop := jstring x ∨ jnumber x ∨ x ∈ LITERALS.

(** The three kinds of scalars start differently. *)
Lemma jnumber_start x : jnumber x → ∃ c s, x = c :: s ∧ c ≠ 34%N ∧ (c = 45%N ∨ is_digit c = true).
Proof.
  intros (sg & y & [->| ->] & Hy & ->)%jnumber_unsigned; [|by eexists _, _; split_and!; [..|left]].
  destruct (junsigned_head y Hy) as (c & s & -> & Hc). exists c, s. split_and!; [done| |by right].
  by intros ->.
Qed.

Inductive scalar_view (s : jstr) : Prop :=
| scalar_string s1 : s = 34%N :: s1 → (∀ t, scalar_at (s ++ t) = string_loop (s1 ++ t)) → scalar_view s
| scalar_number : (∃ c s1, s = c :: s1 ∧ c ≠ 34%N ∧ (c = 45%N ∨ is_digit c = true)) →
    (∀ t, scalar_at (s ++ t) = number (s ++ t)) → scalar_view s
| scalar_literal : (∀ t, s ≠ [] → scalar_at (s ++ t) = literal_text (s ++ t)) →
    (∀ c s1, s = c :: s1 → c ≠ 34%N ∧ c ≠ 45%N ∧ is_digit c = false) → scalar_view s.

Lemma scalar_cases s : scalar_view s.
Proof.
  destruct s as [|c s]; [by apply scalar_literal|].
  destruct (decide (c = 34)%N) as [->|H34]; [by apply (scalar_string _ s)|].
  destruct ((c =? 45)%N || is_digit c) eqn:Hn.
  - apply scalar_number.
    + exists c, s. split_and!; [done..|]. apply orb_true_iff in Hn as [->%N.eqb_eq|]; auto.
    + intros t. unfold scalar_at, scalar. simpl. by rewrite (proj2 (N.eqb_neq c 34) H34), Hn.
  - apply scalar_literal.
    + intros t _. unfold scalar_at, scalar. simpl. by rewrite (proj2 (N.eqb_neq c 34) H34), Hn.
    + intros c' s' [= <- <-]. apply orb_false_iff in Hn as [Hn%N.eqb_neq ?]. done.
Qed.

Lemma scalar_literal_at s :
  (∀ t, s ≠ [] → scalar_at (s ++ t) = literal_text (s ++ t)) → scalar_at s = literal_text s.
Proof. intros H. destruct s as [|c s]; [done|]. specialize (H [] ltac:(done)). by rewrite app_nil_r in H. Qed.

Lemma scalar_at_nil s o : (∀ t, scalar_at (s ++ t) = o t) → scalar_at s = o [].
Proof. intros H. by rewrite <- H, app_nil_r. Qed.

Lemma scans_scalar : scans jscalar no_number (λ _, scalar_at).
Proof.
  pose proof scans_string as Hs. pose proof scans_number as Hn. pose proof scans_literal as Hl. split.
  - intros _ s r. destruct (scalar_cases s) as [s1 -> H|_ H|H _].
    + rewrite (scalar_at_nil _ _ H), app_nil_r. intros (x & (b & Hb & ->) & ->)%(scans_sound _ _ _ Hs []).
      exists (34%N :: b ++ [34%N]). split; [left; by exists b|done].
    + rewrite (scalar_at_nil _ _ H), app_nil_r. intros (x & Hx & ->)%(scans_sound _ _ _ Hn []).
      exists x. split; [right; by left|done].
    + rewrite (scalar_literal_at _ H). intros (x & Hx & ->)%(scans_sound _ _ _ Hl []).
      exists x. split; [right; by right|done].
  - intros _ x r [(b & Hb & ->)|[Hx|Hx]] Hr.
    + unfold scalar_at, scalar. simpl. rewrite <- app_assoc. by apply string_complete.
    + destruct (jnumber_start x Hx) as (c & s & E & H34 & Hc).
      destruct (scalar_cases x) as [s1 -> _|_ H|_ H]; [by injection E as <-| |].
      * rewrite H. by apply (scans_complete _ _ _ Hn []).
      * destruct (H c s E) as (_ & ? & ?). destruct Hc; congruence.
    + destruct (literals_start x Hx) as (c & s & E & H34 & H45 & Hd).
      destruct (scalar_cases x) as [s1 -> _|(c' & s' & E' & _ & Hc) _|H _]; [by injection E as <-| |].
      * rewrite E in E'. injection E' as <- <-. destruct Hc; congruence.
      * rewrite H by (by rewrite E). by apply (scans_complete _ _ _ Hl []).
  - intros _ s e. destruct (scalar_cases s) as [s1 -> H|_ H|H _].
    + rewrite (scalar_at_nil _ _ H), app_nil_r. intros (pre & t & -> & b & Hb & Et)%(scans_viable _ _ _ Hs []).
      exists (34%N :: pre), t. split; [done|]. left. exists b. split; [done|]. simpl. by rewrite Et.
    + rewrite (scalar_at_nil _ _ H), app_nil_r. intros (pre & t & -> & Ht)%(scans_viable _ _ _ Hn []).
      exists pre, t. split; [done|]. right. by left.
    + rewrite (scalar_literal_at _ H). intros (pre & t & -> & Ht)%(scans_viable _ _ _ Hl []).
      exists pre, t. split; [done|]. right. by right.
  - intros _ _ s r t. destruct (scalar_cases s) as [s1 -> H|_ H|H _].
    + rewrite (scalar_at_nil _ _ H), app_nil_r, H. apply (scans_extend _ _ _ Hs [] []).
    + rewrite (scalar_at_nil _ _ H), app_nil_r, H. apply (scans_extend _ _ _ Hn [] []).
    + rewrite (scalar_literal_at _ H). intros Hr Hne. rewrite H; [by apply (scans_extend _ _ _ Hl [] [])|].
      intros ->. destruct (scans_sound _ _ _ Hl [] _ _ Hr) as (x & _ & E). by destruct x, r.
  - intros _ _ s e t. destruct (scalar_cases s) as [s1 -> H|_ H|H _].
    + rewrite (scalar_at_nil _ _ H), app_nil_r, H. apply (scans_fault _ _ _ Hs [] []).
    + rewrite (scalar_at_nil _ _ H), app_nil_r, H. apply (scans_fault _ _ _ Hn [] []).
    + rewrite (scalar_literal_at _ H). intros He Hat. rewrite H; [by apply (scans_fault _ _ _ Hl [] [] s e)|].
      intros ->. vm_compute in He. by injection He as <-.
Qed.

Lemma jscalar_start x :
  jscalar x → ∃ c s, x = c :: s ∧ opens c = None ∧ is_json_ws c = false ∧ c ≠ 93%N ∧ c ≠ 125%N.
Proof.
  intros [(b & _ & ->)|[Hx|Hx]].
  - by eexists _, _.
  - destruct (jnumber_start x Hx) as (c & s & -> & H34 & Hc). exists c, s. split; [done|].
    destruct Hc as [->|Hc]; [done|]. apply andb_true_iff in Hc as [H1%N.leb_le H2%N.leb_le].
    unfold opens, is_json_ws. repeat (rewrite (proj2 (N.eqb_neq _ _)) by lia). split_and!; [done..|lia|lia].
  - assert (x = js "true" ∨ x = js "false" ∨ x = js "null") as [->|[->| ->]] by (unfold LITERALS in Hx; set_solver);
      by eexists _, _.
Qed.

(** ** The language of the states

    What is left of a text when the scanner is in a state: a second grammar, in
    which white space is skipped as the scanner does. *)
Inductive accepts : mode → list bracket → jstr → Prop :=
| acc_scalar st s x r : skip_ws s = x ++ r → jscalar x → accepts MAfter st r → accepts MValue st s
| acc_empty o st s s1 r :
    skip_ws s = open_unit o :: s1 → skip_ws s1 = close_unit o :: r → accepts MAfter st r → accepts MValue st s
| acc_open o st s s1 :
    skip_ws s = open_unit o :: s1 → accepts (after_open o) (o :: st) s1 → accepts MValue st s
| acc_key st s k s1 r :
    skip_ws s = k ++ s1 → jstring k → skip_ws s1 = 58%N :: r → accepts MValue st r → accepts MKey st s
| acc_end s : skip_ws s = [] → accepts MAfter [] s
| acc_close o st s r : skip_ws s = close_unit o :: r → accepts MAfter st r → accepts MAfter (o :: st) s
| acc_comma o st s r :
    skip_ws s = 44%N :: r → accepts (after_open o) (o :: st) r → accepts MAfter (o :: st) s.

Definition accepted (c : scanner) : Prop := accepts (state c) (stack c) (rest c).

Lemma accepts_same m st s s' : skip_ws s = skip_ws s' → accepts m st s → accepts m st s'.
Proof.
  intros E Hs. destruct Hs as [st s x r H|o st s s1 r H|o st s s1 H|st s k s1 r H|s H|o st s r H|o st s r H];
    rewrite E in H.
  - by apply (acc_scalar st s' x r).
  - by apply (acc_empty o st s' s1 r).
  - by apply (acc_open o st s' s1).
  - by apply (acc_key st s' k s1 r).
  - by apply acc_end.
  - by apply (acc_close o st s' r).
  - by apply (acc_comma o st s' r).
Qed.

Lemma accepts_skip m st s : accepts m st (skip_ws s) ↔ accepts m st s.
Proof. split; apply accepts_same; by rewrite skip_ws_idem. Qed.

Lemma accepts_ws m st w s : ws w → accepts m st s → accepts m st (w ++ s).
Proof. intros Hw Hs. apply accepts_skip. rewrite skip_ws_app by done. by apply accepts_skip. Qed.

(** No number goes on behind a value. *)
Lemma accepts_no_number st s : accepts MAfter st s → no_number s.
Proof.
  assert (∀ c s, is_digit c = false → c ≠ 46%N → c ≠ 101%N → c ≠ 69%N → no_number (c :: s)) as Hc.
  { intros c s' Hd H1 H2 H3. assert (no_digit (c :: s')) as Hn by (by intros d [= <-]).
    repeat split; try done; cbn; congruence. }
  destruct s as [|c s]; [done|]. destruct (is_json_ws c) eqn:E.
  { intros _. unfold is_json_ws in E. rewrite !orb_true_iff, !N.eqb_eq in E.
    by destruct E as [[[->| ->]| ->]| ->]; apply Hc. }
  inversion 1 as [| | | |? Hw|o ? ? ? Hw|o ? ? ? Hw]; subst; rewrite skip_ws_head in Hw by done; [done|..].
  - injection Hw as -> ->. by destruct o; apply Hc.
  - injection Hw as -> ->. by apply Hc.
Qed.

(** Every state can be left: with a value, and what closes the brackets. *)
Lemma accepts_some m st : ∃ t, accepts m st t.
Proof.
  assert (accepts MAfter st (map close_unit st)) as Ha.
  { induction st as [|o st IH]; [by apply acc_end|]. eapply acc_close; [|done]. by destruct o. }
  assert (accepts MValue st (js "null" ++ map close_unit st)) as Hv.
  { eapply (acc_scalar _ _ (js "null")); [done| |done]. right; right. unfold LITERALS. set_solver. }
  destruct m; [by eexists| |by eexists].
  exists ([34; 34; 58]%N ++ js "null" ++ map close_unit st).
  eapply (acc_key _ _ [34; 34]%N); [done| |done|done]. exists []. split; [constructor|done].
Qed.

(** ** The turns of the loop *)

Lemma opens_Some c o : opens c = Some o ↔ c = open_unit o.
Proof.
  unfold opens. split; [|by intros ->; destruct o].
  destruct (N.eqb_spec c 123) as [->|]; [by intros [= <-]|].
  destruct (N.eqb_spec c 91) as [->|]; [by intros [= <-]|done].
Qed.

Lemma bracket_ws o : is_json_ws (open_unit o) = false ∧ is_json_ws (close_unit o) = false.
Proof. by destruct o. Qed.

(** What a turn that continues has consumed. *)
Definition consumes (c c' : scanner) : Prop :=
  ∃ pre, rest c = pre ++ rest c' ∧ pre ≠ [] ∧
    ∀ u, accepts (state c') (stack c') u → accepts (state c) (stack c) (pre ++ u).

(** A turn that returns a fault. *)
Definition faults (c : scanner) (e : fault) : Prop :=
  ∃ pre t, rest c = pre ++ fault_at e ∧ accepts (state c) (stack c) (pre ++ t).

(** Every start of an accepted text can be completed; so a fault can be shown
    where the scanner stands. *)
Lemma faults_here c e w : ws w → rest c = w ++ fault_at e → faults c e.
Proof.
  intros Hw E. destruct (accepts_some (state c) (stack c)) as [t Ht].
  exists w, t. split; [done|]. by apply accepts_ws.
Qed.

Lemma value_turn_sound w s st :
  ws w → skip_ws s = s →
  match value_turn s st with
  | Return None => False
  | Return (Some e) => faults {| rest := w ++ s; stack := st; state := MValue |} e
  | Continue c' => consumes {| rest := w ++ s; stack := st; state := MValue |} c'
  end.
Proof.
  intros Hw Hs. destruct s as [|c s1]; simpl; [by apply faults_here with w|].
  assert (is_json_ws c = false) as Hc by (by apply skip_ws_head_not with (c :: s1) s1).
  destruct (opens c) as [o|] eqn:Ho.
  - apply opens_Some in Ho as ->. destruct (skip_ws_split s1) as (w1 & Hw1 & E).
    case_bool_decide as Hh.
    + destruct (skip_ws s1) as [|d s2]; [done|]. injection Hh as ->.
      exists (w ++ open_unit o :: w1 ++ [close_unit o]). simpl.
      rewrite E, <- !app_assoc. simpl. rewrite <- app_assoc. split_and!; [done|by destruct w|].
      intros u Hu. rewrite <- app_assoc. simpl. apply accepts_ws; [done|].
      apply (acc_empty o _ _ (w1 ++ [close_unit o] ++ u) u); [by rewrite skip_ws_head, <- app_assoc by apply bracket_ws| |done].
      rewrite skip_ws_app by done. apply skip_ws_head, bracket_ws.
    + exists (w ++ open_unit o :: w1). simpl. rewrite <- app_assoc. simpl. rewrite <- E.
      split_and!; [done|by destruct w|]. intros u Hu. rewrite <- app_assoc. simpl. apply accepts_ws; [done|].
      apply (acc_open o _ _ (w1 ++ u)); [by apply skip_ws_head, bracket_ws|]. by apply accepts_ws.
  - change (scalar (c :: s1) c) with (scalar_at (c :: s1)). pose proof scans_scalar as Hsc.
    destruct (scalar_at (c :: s1)) as [r|e] eqn:E.
    + destruct (scans_sound _ _ _ Hsc [] _ _ E) as (x & Hx & E'). destruct (jscalar_start x Hx) as (d & y & Ex & _ & Hd & _).
      exists (w ++ x). simpl. rewrite E', <- app_assoc. split_and!; [done|rewrite Ex; by destruct w|].
      intros u Hu. rewrite <- app_assoc. apply accepts_ws; [done|].
      apply (acc_scalar _ _ x u); [rewrite Ex; by apply skip_ws_head|done..].
    + destruct (scans_viable _ _ _ Hsc [] _ _ E) as (pre & t & E' & Ht). destruct (jscalar_start _ Ht) as (d & y & Ex & _ & Hd & _).
      destruct (accepts_some MAfter st) as [t' Ht'].
      exists (w ++ pre), (t ++ t'). simpl. rewrite E', <- !app_assoc. split; [done|].
      apply accepts_ws; [done|]. rewrite app_assoc.
      apply (acc_scalar _ _ (pre ++ t) t'); [rewrite Ex; by apply skip_ws_head|done..].
Qed.

Lemma jstring_chars x : jchars x → jstring (34%N :: x).
Proof. intros (b & Hb & ->). by exists b. Qed.

Lemma key_turn_sound w s st :
  ws w → skip_ws s = s →
  match key_turn s st with
  | Return None => False
  | Return (Some e) => faults {| rest := w ++ s; stack := st; state := MKey |} e
  | Continue c' => consumes {| rest := w ++ s; stack := st; state := MKey |} c'
  end.
Proof.
  intros Hw Hs. destruct s as [|c s1]; simpl; [by apply faults_here with w|].
  destruct (N.eqb_spec c 34) as [->|]; [|by apply faults_here with w]. simpl.
  change (string_ (34%N :: s1)) with (string_loop s1).
  (* the key, a colon and a value complete what has been read *)
  assert (∀ k w1 u, jchars k → ws w1 → accepts MValue st u →
            accepts MKey st (w ++ 34%N :: k ++ w1 ++ 58%N :: u)) as Hkey.
  { intros k w1 u Hk Hw1 Hu. apply accepts_ws; [done|].
    apply (acc_key _ _ (34%N :: k) (w1 ++ 58%N :: u) u); [done|by apply jstring_chars| |done].
    by rewrite skip_ws_app. }
  destruct (accepts_some MValue st) as [t' Ht'].
  destruct (string_loop s1) as [r|e] eqn:E.
  - destruct (scans_sound _ _ _ scans_string [] _ _ E) as (k & Hk & ->).
    destruct (skip_ws_split r) as (w1 & Hw1 & Er).
    destruct (skip_ws r) as [|d r1] eqn:Er'.
    { exists (w ++ 34%N :: k ++ w1), (58%N :: t'). simpl. rewrite Er, <- !app_assoc. simpl.
      rewrite <- !app_assoc. split; [by rewrite app_nil_r|]. by apply (Hkey k w1). }
    destruct (N.eqb_spec d 58) as [->|]; simpl.
    + exists (w ++ 34%N :: k ++ w1 ++ [58%N]). simpl. rewrite Er, <- !app_assoc. simpl. rewrite <- !app_assoc.
      split_and!; [done|by destruct w|]. intros u Hu. rewrite <- app_assoc. simpl. rewrite <- !app_assoc. by apply Hkey.
    + exists (w ++ 34%N :: k ++ w1), (58%N :: t'). simpl. rewrite Er, <- !app_assoc. simpl.
      rewrite <- !app_assoc. split; [done|]. by apply (Hkey k w1).
  - destruct (scans_viable _ _ _ scans_string [] _ _ E) as (pre & t & -> & Ht).
    exists (w ++ 34%N :: pre), (t ++ 58%N :: t'). rewrite <- !app_assoc. simpl. split; [done|].
    rewrite app_assoc. by apply (Hkey (pre ++ t) []); [|constructor|].
Qed.

Lemma after_turn_sound w s st :
  ws w → skip_ws s = s →
  match after_turn s st with
  | Return None => accepts MAfter st (w ++ s)
  | Return (Some e) => faults {| rest := w ++ s; stack := st; state := MAfter |} e
  | Continue c' => consumes {| rest := w ++ s; stack := st; state := MAfter |} c'
  end.
Proof.
  intros Hw Hs. destruct st as [|o st]; simpl.
  { destruct s as [|c s]; [|by apply faults_here with w].
    apply accepts_ws; [done|]. by apply acc_end. }
  destruct s as [|c s1]; simpl; [by apply faults_here with w|].
  destruct (N.eqb_spec c 44) as [->|].
  - (* behind the comma *)
    destruct (skip_ws_split s1) as (w1 & Hw1 & E).
    assert (∀ u, accepts (after_open o) (o :: st) u → accepts MAfter (o :: st) (w ++ 44%N :: w1 ++ u)) as Hu.
    { intros u Hu. apply accepts_ws; [done|]. apply (acc_comma o _ _ (w1 ++ u)); [done|]. by apply accepts_ws. }
    assert (∀ text, faults {| rest := w ++ 44%N :: s1; stack := o :: st; state := MAfter |} (fail text (skip_ws s1))) as Hf.
    { intros text. destruct (accepts_some (after_open o) (o :: st)) as [t Ht].
      exists (w ++ 44%N :: w1), t. simpl. rewrite <- !app_assoc. simpl. rewrite <- E. split; [done|]. by apply Hu. }
    assert (consumes {| rest := w ++ 44%N :: s1; stack := o :: st; state := MAfter |}
              {| rest := skip_ws s1; stack := o :: st; state := after_open o |}) as Hc.
    { exists (w ++ 44%N :: w1). simpl. rewrite <- app_assoc. simpl. rewrite <- E. split_and!; [done|by destruct w|].
      intros u Hx. rewrite <- app_assoc. by apply Hu. }
    by destruct (trailing _).
  - destruct (N.eqb_spec c (close_unit o)) as [->|]; [|by apply faults_here with w].
    exists (w ++ [close_unit o]). simpl. rewrite <- app_assoc. split_and!; [done|by destruct w|].
    intros u Hu. rewrite <- app_assoc. apply accepts_ws; [done|].
    apply (acc_close o _ _ u); [|done]. by apply skip_ws_head, bracket_ws.
Qed.

Lemma step_sound c :
  match step c with
  | Return None => accepted c
  | Return (Some e) => faults c e
  | Continue c' => consumes c c'
  end.
Proof.
  destruct c as [s st m]. destruct (skip_ws_split s) as (w & Hw & E). pose proof (skip_ws_idem s) as Hi.
  unfold step, accepted. cbn [rest stack state].
  remember (skip_ws s) as s0 eqn:Es. clear Es. subst s. destruct m.
  - pose proof (value_turn_sound w s0 st Hw Hi). by destruct (value_turn s0 st) as [[e|]|c'].
  - pose proof (key_turn_sound w s0 st Hw Hi). by destruct (key_turn s0 st) as [[e|]|c'].
  - by apply after_turn_sound.
Qed.

Lemma accepts_after_open_head o st s c r :
  accepts (after_open o) st s → skip_ws s = c :: r → c ≠ 93%N ∧ c ≠ 125%N.
Proof.
  intros Hs E. destruct o; simpl in Hs; inversion Hs as [? ? x ? H Hx|o' ? ? ? ? H|o' ? ? ? H|? ? k ? ? H Hk| | |]; subst;
    rewrite E in H.
  - destruct Hk as (b & _ & ->). by injection H as ->.
  - destruct (jscalar_start x Hx) as (d & y & -> & _ & _ & ? & ?). by injection H as -> _.
  - injection H as -> _. by destruct o'.
  - injection H as -> _. by destruct o'.
Qed.

(** A turn keeps an accepted text accepted. *)
Lemma step_complete c :
  accepted c → step c = Return None ∨ ∃ c', step c = Continue c' ∧ accepted c'.
Proof.
  destruct c as [s st m]. unfold accepted. cbn [rest stack state].
  destruct 1 as [st s x r H Hx Ha|o st s s1 r H H1 Ha|o st s s1 H Ha|st s k s1 r H (b & Hb & ->) H1 Ha|s H|o st s r H Ha|o st s r H Ha];
    unfold step; cbn [rest stack state]; rewrite H.
  - right. destruct (jscalar_start x Hx) as (c & y & -> & Ho & _). simpl. rewrite Ho.
    change (scalar _ c) with (scalar_at ((c :: y) ++ r)).
    rewrite (scans_complete _ _ _ scans_scalar []) by eauto using accepts_no_number. by eexists.
  - right. simpl. rewrite (proj2 (opens_Some _ o) eq_refl), H1. simpl. rewrite bool_decide_true by done. by eexists.
  - right. simpl. rewrite (proj2 (opens_Some _ o) eq_refl). case_bool_decide as Hh.
    + destruct (skip_ws s1) as [|d s2] eqn:E; [done|]. injection Hh as ->.
      destruct (accepts_after_open_head _ _ _ _ _ Ha E). by destruct o.
    + eexists. split; [done|]. by apply accepts_skip.
  - right. simpl. change (string_ _) with (string_loop ((b ++ [34%N]) ++ s1)).
    rewrite <- app_assoc; change ([34%N] ++ s1) with (34%N :: s1); rewrite string_complete by done. rewrite H1. simpl. by eexists.
  - by left.
  - right. simpl. rewrite (proj2 (N.eqb_neq _ 44)), N.eqb_refl by (by destruct o). by eexists.
  - right. simpl. replace (trailing (skip_ws r)) with (@None N).
    + eexists. split; [done|]. by apply accepts_skip.
    + destruct (skip_ws r) as [|d s2] eqn:E; [done|]. simpl.
      destruct (accepts_after_open_head _ _ _ _ _ Ha E) as [H93 H125].
      by rewrite (proj2 (N.eqb_neq _ _) H93), (proj2 (N.eqb_neq _ _) H125).
Qed.

(** More text behind what is left. *)
Definition more (t : jstr) (c : scanner) : scanner := {| rest := rest c ++ t; stack := stack c; state := state c |}.

Definition extends (t : jstr) (o o' : turn) : Prop :=
  match o with
  | Return None => True
  | Return (Some e) => fault_at e ≠ [] → ∃ e', o' = Return (Some e')
  | Continue c' => rest c' ≠ [] → o' = Continue (more t c')
  end.

Lemma value_turn_extend s st t : s ≠ [] → extends t (value_turn s st) (value_turn (s ++ t) st).
Proof.
  destruct s as [|c s1]; [done|]. intros _. change ((c :: s1) ++ t) with (c :: s1 ++ t).
  cbn [value_turn key_turn]. destruct (opens c) as [o|].
  - case_bool_decide as Hh; simpl; intros Hr.
    + destruct (skip_ws s1) as [|d s2] eqn:E; [done|]. rewrite skip_ws_extend by (by rewrite E).
      rewrite E. simpl in *. by rewrite bool_decide_true.
    + rewrite skip_ws_extend by done. rewrite bool_decide_false; [done|]. by destruct (skip_ws s1).
  - change (scalar (c :: s1) c) with (scalar_at (c :: s1)). change (scalar (c :: s1 ++ t) c) with (scalar_at ((c :: s1) ++ t)).
    pose proof scans_scalar as Hsc. set (s' := (c :: s1) ++ t). destruct (scalar_at (c :: s1)) as [r|e] eqn:E; simpl; intros Hr.
    + unfold s'. pose proof (scans_extend _ _ _ Hsc [] [] _ _ t E Hr) as ->. done.
    + unfold s'. destruct (scans_fault _ _ _ Hsc [] [] _ _ t E Hr) as [e' ->]. by exists e'.
Qed.

Lemma key_turn_extend s st t : s ≠ [] → extends t (key_turn s st) (key_turn (s ++ t) st).
Proof.
  destruct s as [|c s1]; [done|]. intros _. change ((c :: s1) ++ t) with (c :: s1 ++ t).
  cbn [value_turn key_turn]. destruct (c =? 34)%N; simpl; [|by intros; eexists].
  change (string_ (c :: s1)) with (string_loop s1). change (string_ (c :: s1 ++ t)) with (string_loop (s1 ++ t)).
  destruct (string_loop s1) as [r|e] eqn:E; simpl.
  - destruct (skip_ws r) as [|d r1] eqn:Er; [by intros []|].
    rewrite (scans_extend _ _ _ scans_string [] [] _ _ t E) by (by intros ->).
    rewrite skip_ws_extend, Er by (by rewrite Er). simpl. destruct (d =? 58)%N; simpl; [done|by intros; eexists].
  - intros Hr. destruct (scans_fault _ _ _ scans_string [] [] _ _ t E Hr) as [e' ->]. by exists e'.
Qed.

Lemma after_turn_extend s st t : s ≠ [] → extends t (after_turn s st) (after_turn (s ++ t) st).
Proof.
  destruct s as [|c s1]; [done|]. intros _. change ((c :: s1) ++ t) with (c :: s1 ++ t).
  destruct st as [|o st]; cbn [after_turn]; [by intros; eexists|].
  destruct (c =? 44)%N; [|by destruct (c =? close_unit o)%N; simpl; [|intros; eexists]].
  destruct (skip_ws s1) as [|d s2] eqn:E; [by intros []|].
  rewrite skip_ws_extend, E by (by rewrite E). simpl. destruct (_ || _); simpl; [by intros; eexists|done].
Qed.

Lemma step_extend c t : extends t (step c) (step (more t c)).
Proof.
  destruct c as [s st m]. unfold step. cbn [rest stack state more].
  destruct (decide (skip_ws s = [])) as [E|E].
  - rewrite E. destruct m; simpl; [by intros []..|]. by destruct st; [|intros []].
  - rewrite skip_ws_extend by done. destruct m; [by apply value_turn_extend|by apply key_turn_extend|by apply after_turn_extend].
Qed.

(** ** The loop *)

Lemma consumes_length c c' : consumes c c' → (length (rest c') < length (rest c))%nat.
Proof. intros (pre & E & Hne & _). rewrite E, length_app. destruct pre; [done|]. simpl. lia. Qed.

(** The fuel is enough. *)
Lemma scan_total n c : (length (rest c) < n)%nat → is_Some (scan n c).
Proof.
  revert c. induction n as [|n IH]; intros c Hn; [lia|]. simpl.
  pose proof (step_sound c) as H. destruct (step c) as [o|c']; [done|].
  apply IH. apply consumes_length in H. lia.
Qed.

Lemma scan_sound n c :
  match scan n c with
  | Some None => accepted c
  | Some (Some e) => faults c e
  | None => True
  end.
Proof.
  revert c. induction n as [|n IH]; intros c; simpl; [done|].
  pose proof (step_sound c) as H. destruct (step c) as [[e|]|c']; [done..|].
  specialize (IH c'). destruct H as (pre & E & _ & H).
  destruct (scan n c') as [[e|]|]; [| |done].
  - destruct IH as (pre' & t & E' & Ht). exists (pre ++ pre'), t.
    rewrite E, E', <- !app_assoc. split; [done|]. by apply H.
  - unfold accepted. rewrite E. by apply H.
Qed.

Lemma scan_complete n c : accepted c → (length (rest c) < n)%nat → scan n c = Some None.
Proof.
  revert c. induction n as [|n IH]; intros c Hc Hn; [lia|]. simpl. pose proof (step_sound c) as Hs.
  destruct (step_complete c Hc) as [->|(c' & E & Hc')]; [done|]. rewrite E in *.
  apply IH; [done|]. apply consumes_length in Hs. lia.
Qed.

(** A fault before the end is one for every continuation of the text. *)
Lemma scan_fault n c e t : scan n c = Some (Some e) → fault_at e ≠ [] → ¬ accepted (more t c).
Proof.
  revert c. induction n as [|n IH]; intros c; simpl; [done|].
  pose proof (step_extend c t) as Hx. destruct (step c) as [[e'|]|c'] eqn:E; [..|intros Hs Hat].
  - intros [= ->] Hat Ha. destruct (Hx Hat) as [e1 E1].
    destruct (step_complete _ Ha) as [E2|(c' & E2 & _)]; congruence.
  - done.
  - intros Ha. pose proof (scan_sound n c') as Hf. rewrite Hs in Hf. destruct Hf as (pre & u & Er & _).
    assert (step (more t c) = Continue (more t c')) as E1.
    { apply Hx. rewrite Er. by destruct pre, (fault_at e). }
    destruct (step_complete _ Ha) as [E2|(c2 & E2 & Ha2)]; rewrite E1 in E2; [done|].
    injection E2 as <-. by apply (IH c').
Qed.

(** ** The two grammars *)

(** The white space, the member or element, and what follows. *)
Lemma grammar_accepts :
  (∀ s, jvalue s → ∀ st r, accepts MAfter st r → accepts MValue st (s ++ r)) ∧
  (∀ s, members s → ∀ st r, accepts MAfter st r → accepts MKey (Brace :: st) (s ++ 125%N :: r)) ∧
  (∀ s, elements s → ∀ st r, accepts MAfter st r → accepts MValue (Bracket :: st) (s ++ 93%N :: r)) ∧
  (∀ s, element s → ∀ st r, accepts MAfter st r → accepts MValue st (s ++ r)).
Proof.
  assert (∀ st s r, jscalar s → accepts MAfter st r → accepts MValue st (s ++ r)) as Hsc.
  { intros st s r Hs Hr. apply (acc_scalar _ _ s r); [|done..].
    destruct (jscalar_start s Hs) as (c & y & -> & _ & Hc & _). by apply skip_ws_head. }
  assert (∀ o st r, accepts MAfter st r → accepts MAfter (o :: st) (close_unit o :: r)) as Hclose.
  { intros o st r Hr. apply (acc_close o _ _ r); [|done]. by apply skip_ws_head, bracket_ws. }
  assert (∀ o st r, accepts (after_open o) (o :: st) r → accepts MAfter (o :: st) (44%N :: r)) as Hcomma.
  { intros o st r Hr. by apply (acc_comma o _ _ r). }
  assert (∀ w1 k w2 st r, ws w1 → jstring k → ws w2 → accepts MValue st r →
            accepts MKey st (w1 ++ k ++ w2 ++ 58%N :: r)) as Hkey.
  { intros w1 k w2 st r Hw1 Hk Hw2 Hr. apply accepts_ws; [done|].
    apply (acc_key _ _ k (w2 ++ 58%N :: r) r); [|done| |done].
    - by destruct Hk as (b & _ & ->).
    - by rewrite skip_ws_app. }
  apply jvalue_elements_ind.
  - intros s Hs st r. apply Hsc. right. by right.
  - intros s Hs st r. apply Hsc. by left.
  - intros s Hs st r. apply Hsc. right. by left.
  - intros o w Hw st r Hr. simpl. rewrite <- app_assoc.
    apply (acc_empty o _ _ (w ++ close_unit o :: r) r); [by apply skip_ws_head, bracket_ws| |done].
    rewrite skip_ws_app by done. by apply skip_ws_head, bracket_ws.
  - intros s _ IH st r Hr. simpl. rewrite <- app_assoc.
    apply (acc_open Brace _ _ (s ++ 125%N :: r)); [done|]. by apply IH.
  - intros s _ IH st r Hr. simpl. rewrite <- app_assoc.
    apply (acc_open Bracket _ _ (s ++ 93%N :: r)); [done|]. by apply IH.
  - intros w1 k w2 s Hw1 Hk Hw2 _ IH st r Hr. rewrite <- !app_assoc. simpl. apply Hkey; [done..|].
    apply IH. by apply (Hclose Brace).
  - intros w1 k w2 s s' Hw1 Hk Hw2 _ IH _ IH' st r Hr. rewrite <- !app_assoc. simpl. rewrite <- app_assoc.
    apply Hkey; [done..|]. apply IH. apply (Hcomma Brace). by apply IH'.
  - intros s _ IH st r Hr. apply IH. by apply (Hclose Bracket).
  - intros s s' _ IH _ IH' st r Hr. rewrite <- app_assoc. simpl. apply IH. apply (Hcomma Bracket). by apply IH'.
  - intros w1 s w2 Hw1 _ IH Hw2 st r Hr. rewrite <- !app_assoc. apply accepts_ws; [done|].
    apply IH. by apply accepts_ws.
Qed.

(** What stands between the brackets. *)
Definition items (o : bracket) : jstr → Prop := match o with Brace => members | Bracket => elements end.

Lemma items_value o s : items o s → jvalue (open_unit o :: s ++ [close_unit o]).
Proof. destruct o; [apply value_object|apply value_array]. Qed.

Definition value_split (st : list bracket) (s : jstr) : Prop :=
  ∃ w v r, s = w ++ v ++ r ∧ ws w ∧ jvalue v ∧ accepts MAfter st r.
Definition items_split (o : bracket) (st : list bracket) (s : jstr) : Prop :=
  ∃ i r, s = i ++ close_unit o :: r ∧ items o i ∧ accepts MAfter st r.
Definition after_split (o : bracket) (st : list bracket) (s : jstr) : Prop :=
  ∃ w r, ws w ∧ accepts MAfter st r ∧
    (s = w ++ close_unit o :: r ∨ ∃ i, items o i ∧ s = w ++ 44%N :: i ++ close_unit o :: r).

Lemma value_split_of st s :
  (∀ o s1, (length s1 < length s)%nat → accepts (after_open o) (o :: st) s1 → items_split o st s1) →
  accepts MValue st s → value_split st s.
Proof.
  intros IH Hs. destruct (skip_ws_split s) as (w & Hw & E).
  inversion Hs as [? ? x r H Hx Ha|o ? ? s1 r H H1 Ha|o ? ? s1 H Ha| | | |]; subst; rewrite H in E.
  - exists w, x, r. split_and!; [done..| |done]. destruct Hx as [|[|]]; [by apply value_string|by apply value_number|by apply value_literal].
  - destruct (skip_ws_split s1) as (w1 & Hw1 & E1). rewrite H1 in E1.
    exists w, (open_unit o :: w1 ++ [close_unit o]), r. rewrite E, E1. simpl. rewrite <- app_assoc.
    split_and!; [done..|by apply value_empty|done].
  - destruct (IH o s1) as (i & r & -> & Hi & Hr); [|done|].
    { apply (f_equal length) in E. rewrite length_app in E. simpl in E. lia. }
    exists w, (open_unit o :: i ++ [close_unit o]), r. rewrite E. simpl. rewrite <- app_assoc.
    split_and!; [done..|by apply items_value|done].
Qed.

Lemma after_split_of o st s :
  (∀ s1, (length s1 < length s)%nat → accepts (after_open o) (o :: st) s1 → items_split o st s1) →
  accepts MAfter (o :: st) s → after_split o st s.
Proof.
  intros IH Hs. destruct (skip_ws_split s) as (w & Hw & E).
  inversion Hs as [| | | | |? ? ? r H Ha|? ? ? r H Ha]; subst; rewrite H in E.
  - exists w, r. auto.
  - destruct (IH r) as (i & r' & -> & Hi & Hr); [|done|].
    { apply (f_equal length) in E. rewrite length_app in E. simpl in E. lia. }
    exists w, r'. split_and!; [done..|]. right. by exists i.
Qed.

Lemma jvalue_length v : jvalue v → (0 < length v)%nat.
Proof.
  destruct v; [|simpl; lia].
  inversion 1 as [? ?%literals_start|? (?&?&?)|? (?&?&?&?)%jnumber_start| | |]; naive_solver.
Qed.

(** An element, or a member, with what follows it. *)
Lemma items_split_bracket st s :
  value_split (Bracket :: st) s →
  (∀ s1, (length s1 < length s)%nat → accepts MAfter (Bracket :: st) s1 → after_split Bracket st s1) →
  items_split Bracket st s.
Proof.
  intros (w & v & r & -> & Hw & Hv & Hr) IH. destruct (IH r) as (w2 & r' & Hw2 & Hr' & Hcase); [|done|].
  { pose proof (jvalue_length v Hv). rewrite !length_app. lia. }
  assert (element (w ++ v ++ w2)) as He by by constructor.
  destruct Hcase as [->|(i & Hi & ->)]; [exists (w ++ v ++ w2), r'|exists ((w ++ v ++ w2) ++ 44%N :: i), r'];
    rewrite <- ?app_assoc; simpl; rewrite <- ?app_assoc; split_and!; try done.
  - by constructor.
  - rewrite !app_assoc. by constructor; rewrite <- ?app_assoc.
Qed.

Lemma items_split_brace st s :
  accepts MKey (Brace :: st) s →
  (∀ s1, (length s1 < length s)%nat → accepts MValue (Brace :: st) s1 → value_split (Brace :: st) s1) →
  (∀ s1, (length s1 < length s)%nat → accepts MAfter (Brace :: st) s1 → after_split Brace st s1) →
  items_split Brace st s.
Proof.
  intros Hs IHv IHa. destruct (skip_ws_split s) as (w & Hw & E).
  inversion Hs as [| | |? ? k s1 r H Hk H1 Ha| | |]; subst. rewrite H in E.
  destruct (skip_ws_split s1) as (w1 & Hw1 & E1). rewrite H1 in E1.
  apply (f_equal length) in E as El. rewrite E1, !length_app in El. simpl in El.
  destruct (IHv r) as (w2 & v & r1 & -> & Hw2 & Hv & Hr1); [lia|done|].
  pose proof (jvalue_length v Hv). rewrite !length_app in El.
  destruct (IHa r1) as (w3 & r2 & Hw3 & Hr2 & Hcase); [lia|done|].
  assert (element (w2 ++ v ++ w3)) as He by by constructor.
  destruct Hcase as [->|(i & Hi & ->)];
    [exists (w ++ k ++ w1 ++ 58%N :: (w2 ++ v ++ w3)), r2
    |exists (w ++ k ++ w1 ++ 58%N :: (w2 ++ v ++ w3) ++ 44%N :: i), r2].
  - rewrite E, E1. repeat (rewrite <- app_assoc; simpl). split_and!; [done| |done]. by apply members_one.
  - rewrite E, E1. repeat (rewrite <- app_assoc; simpl). split_and!; [done| |done].
    change (members (w ++ k ++ w1 ++ 58%N :: w2 ++ v ++ w3 ++ 44%N :: i)).
    replace (w2 ++ v ++ w3 ++ 44%N :: i) with ((w2 ++ v ++ w3) ++ 44%N :: i) by by rewrite <- !app_assoc.
    by apply members_more.
Qed.

Lemma accepts_grammar n :
  ∀ s, (length s < n)%nat →
  (∀ st, accepts MValue st s → value_split st s) ∧
  (∀ o st, accepts MAfter (o :: st) s → after_split o st s) ∧
  (∀ o st, accepts (after_open o) (o :: st) s → items_split o st s).
Proof.
  induction n as [|n IH]; [lia|]. intros s Hn.
  assert (∀ o st s1, (length s1 < length s)%nat → accepts (after_open o) (o :: st) s1 → items_split o st s1) as IHi.
  { intros o st s1 Hl. apply IH. lia. }
  assert (∀ o st s1, (length s1 < length s)%nat → accepts MAfter (o :: st) s1 → after_split o st s1) as IHa.
  { intros o st s1 Hl. apply IH. lia. }
  assert (∀ st, accepts MValue st s → value_split st s) as Hv.
  { intros st. apply value_split_of. intros o s1. apply IHi. }
  split_and!; [done| |].
  - intros o st. apply after_split_of. by apply IHi.
  - intros [] st Hs.
    + apply items_split_brace; [done| |by apply IHa]. intros s1 Hl. apply IH. lia.
    + apply items_split_bracket; [by apply Hv|by apply IHa].
Qed.

Lemma accepted_json_text text : accepted (start text) ↔ json_text text.
Proof.
  unfold accepted, start. cbn [rest stack state]. split.
  - intros Hs. destruct (accepts_grammar (S (length text)) text) as [H _]; [lia|].
    destruct (H [] Hs) as (w & v & r & -> & Hw & Hv & Hr). constructor; [done..|].
    inversion Hr as [| | | |? Hws| |]. destruct (skip_ws_split r) as (w2 & Hw2 & E).
    rewrite Hws, app_nil_r in E. by subst.
  - intros Hs. rewrite <- (app_nil_r text). apply grammar_accepts; [done|]. by apply acc_end.
Qed.

(** ** The theorems *)

Lemma scan_start text :
  ∃ o, scan (S (length text)) (start text) = Some o ∧ jsonSyntaxError text = syntax_error text <$> o.
Proof.
  destruct (scan_total (S (length text)) (start text)) as [o E]; [simpl; lia|].
  exists o. unfold jsonSyntaxError. by rewrite E.
Qed.

Lemma jsonSyntaxError_valid text : jsonSyntaxError text = None ↔ json_text text.
Proof.
  destruct (scan_start text) as (o & E & ->). rewrite <- accepted_json_text. split.
  - intros Ho. pose proof (scan_sound (S (length text)) (start text)) as H. rewrite E in H. by destruct o.
  - intros H. rewrite (scan_complete (S (length text)) (start text) H) in E by (simpl; lia). by injection E as <-.
Qed.

(** C24: The scanner is a decision procedure for JSON that also says where a text
    goes wrong: there is no error exactly for the texts of RFC 8259; with an
    error, everything before its offset can be completed to a JSON text; and the
    error is [incomplete] - the model is told that its arguments were cut off -
    exactly when the whole text can be completed. *)
Theorem jsonSyntaxError_spec text :
  match jsonSyntaxError text with
  | None => json_text text
  | Some e =>
      ¬ json_text text ∧
      (∃ t, json_text (take (offset e) text ++ t)) ∧
      (incomplete e = true ↔ ∃ t, json_text (text ++ t))
  end.
Proof.
  destruct (jsonSyntaxError text) as [e|] eqn:He; [|by apply jsonSyntaxError_valid].
  split; [by rewrite <- jsonSyntaxError_valid, He|].
  destruct (scan_start text) as (o & E & Eo). rewrite He in Eo. destruct o as [f|]; [|done].
  injection Eo as ->. pose proof (scan_sound (S (length text)) (start text)) as H.
  rewrite E in H. destruct H as (pre & t & Et & Ht). cbn [rest start] in Et.
  change (accepted (start (pre ++ t))) in Ht. apply accepted_json_text in Ht.
  assert (length text - length (fault_at f) = length pre)%nat as El by (rewrite Et, length_app; lia).
  cbn [offset incomplete syntax_error]. rewrite El. split.
  { exists t. by rewrite Et, take_app_length. }
  rewrite Nat.leb_le, Et at 1. rewrite length_app. split.
  - intros Hl. destruct (fault_at f); [|simpl in Hl; lia]. rewrite app_nil_r in Et. exists t. by rewrite Et.
  - intros [u Hu]. destruct (decide (fault_at f = [])) as [->|Hne]; [simpl; lia|].
    destruct (scan_fault _ _ _ u E Hne). by apply accepted_json_text in Hu.
Qed.

(** Arguments an adapter kept as text are recognised, unless the schema has a
    [raw] of its own or the text is JSON after all. *)
Lemma unparsedToolArguments_Some `{Numbers} v schema raw :
  unparsedToolArguments v schema = Some raw ↔
  v = Some (VObj [(js "raw", VStr raw)]) ∧ ¬ json_text raw ∧
  (s ← plainObject schema; p ← plainObject (map_get (js "properties") s); map_get (js "raw") p) = None.
Proof.
  split.
  - unfold unparsedToolArguments. destruct (plainObject v) as [[|[k [| | |s| |]] [|]]|] eqn:Ev; try done.
    case_bool_decide as Hk; simpl; [|done]. destruct (_ ≫= _) eqn:Ep; [done|].
    destruct (jsonSyntaxError s) eqn:Ej; [|done]. intros [= ->]. subst k. split_and!; [|by rewrite <- jsonSyntaxError_valid, Ej|done].
    destruct v as [[]|]; simpl in Ev; congruence.
  - intros (-> & Hj & Hp). unfold unparsedToolArguments. cbn [plainObject]. rewrite bool_decide_true by done. cbn [negb].
    rewrite Hp. rewrite <- jsonSyntaxError_valid in Hj. by destruct (jsonSyntaxError raw).
Qed.

(** The offset of a word that is not one is where the word starts. *)
Example literal_offset :
  offset <$> jsonSyntaxError (js "[trux]") = Some 1%nat ∧
  (∃ t, json_text (take 4 (js "[trux]") ++ t)) ∧ ¬ ∃ t, json_text (take 5 (js "[trux]") ++ t).
Proof.
  split_and!; [by vm_compute|exists (js "e]"); by apply jsonSyntaxError_valid; vm_compute|].
  intros [t Ht]. apply accepted_json_text in Ht. revert Ht.
  apply (scan_fault 10 (start (js "[trux")) (literal_fault (js "trux") 116%N) t); [by vm_compute|done].
Qed.
