(* ===== verification/ToolArgumentsSchema.v ===== *)
(** * Arguments against the declared schema

    The problems that are reported are the first ones of the list of all
    problems in document order, and there is none exactly when every value that
    a rule reaches keeps it. *)

From S2P Require Import Prelude JsMap JsString Json ExecPolicy ToolArguments.
From Stdlib Require Import Lia.

Set Default Goal Selector "!".

Section schema.
Context `{Numbers}.
Implicit Types (node item : option value) (rule : list (jstr * value)) (path : jstr).

(** ** All problems, in document order *)

(** The first thing wrong with a value itself. *)
Definition own_problem rule item path : option jstr :=
  if (0 <? length (rule_types rule))%nat && negb (existsb (λ type, matchesType type item) (rule_types rule))
  then Some (type_problem (rule_types rule) item path)
  else if (0 <? length (rule_enum rule))%nat
          && negb (existsb (λ option, bool_decide (Some (value_text option) = json_text item)) (rule_enum rule))
  then Some (enum_problem (rule_enum rule) item path)
  else None.

Fixpoint all_problems (levels : nat) node item path : list jstr :=
  match levels with
  | O => []
  | S levels =>
      match plainObject node with
      | None => []
      | Some rule =>
          match own_problem rule item path with
          | Some problem => [problem]
          | None =>
              match item with
              | Some (VObj object) =>
                  flat_map (λ name, if present name object then [] else [missing_problem object path name]) (rule_required rule)
                  ++ flat_map (λ '(name, child),
                       match map_get name (rule_properties rule) with
                       | None => []
                       | Some rule' => if is_null child && negb (bool_decide (name ∈ rule_required rule)) then []
                                       else all_problems levels (Some rule') (Some child) (join path name)
                       end) object
              | Some (VArr elements) =>
                  match plainObject (map_get (js "items") rule) with
                  | None => []
                  | Some _ => flat_map (λ '(index, element),
                                all_problems levels (map_get (js "items") rule) (Some element)
                                  (path ++ js "[" ++ dec (Z.of_nat index) ++ js "]")) (imap pair elements)
                  end
              | _ => []
              end
          end
      end
  end.

(** ** The limit *)

(** A step of a loop that adds to the problems, up to the limit. *)
Definition adds (limit : nat) (f : list jstr → list jstr) (new : list jstr) : Prop :=
  ∀ problems, (length problems <= limit)%nat → f problems = take limit (problems ++ new).

Lemma adds_nil limit : adds limit (λ problems, problems) [].
Proof. intros ps Hps. by rewrite app_nil_r, take_ge. Qed.

Lemma adds_app limit f g l k : adds limit f l → adds limit g k → adds limit (λ ps, g (f ps)) (l ++ k).
Proof.
  intros Hf Hg ps Hps. rewrite Hf, Hg by (done || rewrite length_take; lia).
  rewrite app_assoc. destruct (decide (length (ps ++ l) <= limit)%nat) as [Hl|Hl].
  - by rewrite (take_ge (ps ++ l)).
  - rewrite (take_app_le (ps ++ l)) by lia. rewrite take_app_le by (rewrite length_take; lia).
    by rewrite take_take, Nat.min_id.
Qed.

Lemma adds_fold {A} limit (f : list jstr → A → list jstr) (g : A → list jstr) (l : list A) :
  (∀ x, adds limit (λ ps, f ps x) (g x)) → adds limit (λ ps, fold_left f l ps) (flat_map g l).
Proof.
  intros Hf. induction l as [|x l IH]; [apply adds_nil|]. simpl.
  by apply (adds_app limit (λ ps, f ps x) (λ ps, fold_left f l ps)).
Qed.

(** Pushing one problem when there is room. *)
Lemma adds_push limit problem :
  adds limit (λ ps, if (limit <=? length ps)%nat then ps else ps ++ [problem]) [problem].
Proof.
  intros ps Hps. destruct (Nat.leb_spec limit (length ps)).
  - rewrite take_app_le, take_ge by lia. done.
  - rewrite take_ge; [done|]. rewrite length_app. simpl. lia.
Qed.

(** A step that first looks whether there is room left. *)
Lemma adds_guard limit f l : adds limit f l → adds limit (λ ps, if (limit <=? length ps)%nat then ps else f ps) l.
Proof.
  intros Hf ps Hps. destruct (Nat.leb_spec limit (length ps)); [|by apply Hf].
  by rewrite take_app_le, take_ge by lia.
Qed.

Lemma adds_ext limit f g l : (∀ ps, f ps = g ps) → adds limit f l → adds limit g l.
Proof. intros E Hf ps Hps. rewrite <- E. by apply Hf. Qed.

Lemma visit_adds limit levels node item path :
  adds limit (visit limit levels node item path) (all_problems levels node item path).
Proof.
  revert node item path. induction levels as [|levels IH]; intros node item path; simpl; [apply adds_nil|].
  destruct (plainObject node) as [rule|]; [|apply adds_nil]. unfold own_problem.
  destruct (_ && _); [apply adds_push|]. destruct (_ && _); [apply adds_push|]. apply adds_guard.
  destruct item as [[| | | |elements|object]|]; try apply adds_nil.
  - destruct (plainObject (map_get (js "items") rule)); [|apply adds_nil].
    apply adds_fold. intros [i x]. apply IH.
  - eapply (adds_app limit (λ ps, fold_left _ (rule_required rule) ps)).
    + apply adds_fold. intros name. destruct (present name object); [apply adds_nil|apply adds_push].
    + apply adds_fold. intros [name child]. destruct (map_get name _); [|apply adds_nil].
      destruct (_ && _); [apply adds_nil|apply IH].
Qed.

Lemma schemaArgumentProblems_all schema v limit :
  schemaArgumentProblems schema v limit = take limit (all_problems 33 schema v []).
Proof. unfold schemaArgumentProblems. by rewrite (visit_adds limit 33) by (simpl; lia). Qed.

(** ** What a call must keep *)

(** A value keeps a rule: its type, the values it may have, the fields it needs. *)
Definition keeps rule item : Prop :=
  (rule_types rule = [] ∨ ∃ type, type ∈ rule_types rule ∧ matchesType type item = true) ∧
  (rule_enum rule = [] ∨ ∃ option, option ∈ rule_enum rule ∧ Some (value_text option) = json_text item) ∧
  ∀ object name, item = Some (VObj object) → name ∈ rule_required rule → present name object = true.

(** From a rule and a value to the rules of the members and of the items; a
    [null] for an optional member is as good as none. *)
Inductive below rule : value → value → value → Prop :=
| below_member object name child (rule' : value) :
    (name, child) ∈ object → map_get name (rule_properties rule) = Some rule' →
    (child = VNull → name ∈ rule_required rule) →
    below rule (VObj object) rule' child
| below_item elements child (rule' : value) :
    child ∈ elements → map_get (js "items") rule = Some rule' → below rule (VArr elements) rule' child.

(** The rules and the values that are compared, by depth. *)
Inductive reached node item : nat → option value → option value → Prop :=
| reached_top : reached node item 0 node item
| reached_below n rule i (rule' : value) child :
    reached node item n (Some (VObj rule)) (Some i) → below rule i rule' child →
    reached node item (S n) (Some rule') (Some child).

Lemma own_problem_None rule item path :
  own_problem rule item path = None ↔
  (rule_types rule = [] ∨ ∃ type, type ∈ rule_types rule ∧ matchesType type item = true) ∧
  (rule_enum rule = [] ∨ ∃ option, option ∈ rule_enum rule ∧ Some (value_text option) = json_text item).
Proof.
  assert (∀ {A} (p : A → bool) (l : list A),
            (0 <? length l)%nat && negb (existsb p l) = false ↔ l = [] ∨ ∃ x, x ∈ l ∧ p x = true) as Hb.
  { intros A p l. rewrite andb_false_iff, Nat.ltb_ge, negb_false_iff, existsb_exists.
    split.
    - intros [Hl|(x & Hx & Hp)]; [left; by destruct l; [|simpl in Hl; lia]|right; exists x; by rewrite list_elem_of_In].
    - intros [->|(x & Hx & Hp)]; [by left|right; exists x; by rewrite <- list_elem_of_In]. }
  unfold own_problem. pose proof (Hb _ (λ type, matchesType type item) (rule_types rule)) as Ht.
  pose proof (Hb _ (λ option, bool_decide (Some (value_text option) = json_text item)) (rule_enum rule)) as He.
  setoid_rewrite bool_decide_eq_true in He.
  destruct (_ && _); [|destruct (_ && _)]; rewrite <- Ht, <- He; naive_solver.
Qed.

(** Everything a rule reaches in less than [levels] steps keeps its rule. *)
Definition clean (levels : nat) node item : Prop :=
  ∀ n rule i, (n < levels)%nat → reached node item n (Some (VObj rule)) i → keeps rule i.

Lemma reached_down rule i (rule' : value) child n a b :
  below rule i rule' child → reached (Some rule') (Some child) n a b →
  reached (Some (VObj rule)) (Some i) (S n) a b.
Proof.
  intros Hb. induction 1 as [|n r j r' c _ IH Hb']; [|by eapply reached_below].
  eapply reached_below; [apply reached_top|done].
Qed.

Lemma reached_up node item n a b :
  reached node item (S n) a b →
  ∃ rule i (rule' : value) child, node = Some (VObj rule) ∧ item = Some i ∧ below rule i rule' child ∧
    reached (Some rule') (Some child) n a b.
Proof.
  remember (S n) as m eqn:Em. intros Hr. revert n Em.
  induction Hr as [|n r j r' c Hr IH Hb]; intros m Em; [done|]. injection Em as <-.
  destruct n as [|n].
  - inversion Hr; subst. exists r, j, r', c. split_and!; [done..|apply reached_top].
  - destruct (IH n eq_refl) as (rule & i & rule' & child & -> & -> & Hb0 & Hr0).
    exists rule, i, rule', child. split_and!; [done..|by eapply reached_below].
Qed.

Lemma clean_step levels rule item :
  clean (S levels) (Some (VObj rule)) item ↔
  keeps rule item ∧ ∀ i (rule' : value) child, item = Some i → below rule i rule' child → clean levels (Some rule') (Some child).
Proof.
  split.
  - intros Hc. split; [apply (Hc 0%nat); [lia|apply reached_top]|].
    intros i rule' child -> Hb n r j Hn Hr. apply (Hc (S n)); [lia|]. by eapply reached_down.
  - intros [Hk Hc] [|n] r j Hn Hr; [by inversion Hr; subst|].
    apply reached_up in Hr as (? & i & rule' & child & [= <-] & -> & Hb & Hr).
    apply (Hc i rule' child eq_refl Hb n); [lia|done].
Qed.

Lemma flat_map_nil_iff {A B} (f : A → list B) l : flat_map f l = [] ↔ ∀ x, x ∈ l → f x = [].
Proof.
  induction l as [|x l IH]; simpl; [set_solver|].
  split; [intros [Hx Hl]%app_nil; set_solver|]. intros Hl. rewrite Hl, (proj2 IH); set_solver.
Qed.

Lemma elem_of_imap_pair {A} (l : list A) x : x ∈ l ↔ ∃ i, (i, x) ∈ imap pair l.
Proof.
  setoid_rewrite list_elem_of_lookup. setoid_rewrite list_lookup_imap. split.
  - intros [i Hi]. exists i, i. by rewrite Hi.
  - intros (i & j & Hj). exists j. destruct (l !! j); [|done]. simpl in Hj. by simplify_eq.
Qed.

Lemma all_problems_nil levels node item path : all_problems levels node item path = [] ↔ clean levels node item.
Proof.
  revert node item path. induction levels as [|levels IH]; intros node item path.
  { split; [|done]. intros _ n rule i Hn. lia. }
  simpl. destruct (plainObject node) as [rule|] eqn:En; cycle 1.
  { split; [|done]. intros _ [|n] rule i _ Hr; [inversion Hr; by subst|].
    apply reached_up in Hr as (? & ? & ? & ? & -> & _). done. }
  assert (node = Some (VObj rule)) as -> by (destruct node as [[]|]; naive_solver).
  rewrite clean_step. unfold keeps. pose proof (own_problem_None rule item path) as Ho.
  destruct (own_problem rule item path) as [problem|].
  { split; [done|]. intros [(Ht & He & _) _]. discriminate (proj2 Ho (conj Ht He)). }
  destruct (proj1 Ho eq_refl) as [Ht He].
  destruct item as [[| | | |elements|object]|];
    try (split; [|done]; intros _; split; [split_and!; [done..|]; by intros ??|]; intros ? ? ? [= <-] Hb; by inversion Hb).
  - (* items *)
    destruct (plainObject (map_get (js "items") rule)) as [r|] eqn:Er.
    + rewrite flat_map_nil_iff. split.
      * intros Hl. split; [by split_and!|]. intros i rule' child [= <-] Hb. inversion Hb as [|? ? ? Hx Hm]; subst.
        apply elem_of_imap_pair in Hx as [j Hj%Hl]. rewrite Hm in Hj. by apply IH in Hj.
      * intros [_ Hl] [j x] Hx. destruct (map_get (js "items") rule) as [rule'|] eqn:Em; [|done].
        apply IH, (Hl _ _ _ eq_refl). apply below_item; [|done]. apply elem_of_imap_pair. by exists j.
    + split; [|done]. intros _. split; [by split_and!|]. intros i rule' child [= <-] Hb.
      inversion Hb as [|? ? ? _ Hm]; subst. intros [|n] r' j _ Hr.
      * inversion Hr; subst. by rewrite Hm in Er.
      * apply reached_up in Hr as (? & ? & ? & ? & E & _). by rewrite Hm, E in Er.
  - (* fields *)
    rewrite app_nil, !flat_map_nil_iff. split.
    + intros [Hm Hl]. split.
      * split_and!; [done..|]. intros object' name [= <-] Hn%Hm. by destruct (present name object).
      * intros i rule' child [= <-] Hb. inversion Hb as [? name ? ? Hx Hp Hnull|]; subst.
        specialize (Hl _ Hx). simpl in Hl. rewrite Hp in Hl. destruct (is_null child) eqn:Ec; simpl in Hl.
        -- rewrite bool_decide_true in Hl by (destruct child; try done; by apply Hnull). by apply IH in Hl.
        -- by apply IH in Hl.
    + intros [(_ & _ & Hm) Hl]. split.
      * intros name Hn. by rewrite (Hm object name eq_refl Hn).
      * intros [name child] Hx. destruct (map_get name (rule_properties rule)) as [rule'|] eqn:Ep; [|done].
        destruct (is_null child) eqn:Ec; simpl.
        -- case_bool_decide as Hn; simpl; [|done]. apply IH, (Hl _ _ _ eq_refl). by apply (below_member _ _ name).
        -- apply IH, (Hl _ _ _ eq_refl). apply (below_member _ _ name); [done..|]. by intros ->.
Qed.

(** C26: A call is refused exactly when it breaks its schema: with room for one
    problem, none is reported if and only if every value that a rule reaches
    within 32 levels - through declared members and items, where [null] for an
    optional member counts as absent - has the type, one of the values and the
    fields that the rule asks for. The problems reported are the first of all
    problems in document order, [limit] at most. One of the values means one with
    the same JSON text, the order of the members included: a call whose object
    equals an option of the enum but for that order is valid, and refused
    ([reordered_enum_refused]). *)
Theorem schemaArgumentProblems_spec schema v limit :
  schemaArgumentProblems schema v limit = take limit (all_problems 33 schema v []) ∧
  ((0 < limit)%nat → schemaArgumentProblems schema v limit = [] ↔
    ∀ n rule item, (n <= 32)%nat → reached schema v n (Some (VObj rule)) item → keeps rule item).
Proof.
  rewrite schemaArgumentProblems_all. split; [done|]. intros Hl.
  transitivity (all_problems 33 schema v [] = []).
  { destruct limit; [lia|]. by destruct (all_problems 33 schema v []). }
  rewrite all_problems_nil. unfold clean. split; intros Hc n rule item Hn; apply Hc; lia.
Qed.
End schema.

(** ** Concrete calls *)

Module ToolCallDemo.

(** Whole numbers, and [None] for [NaN]. *)
#[export] Instance whole : Numbers := {|
  num := option Z;
  num_text n := match n with Some z => dec z | None => js "NaN" end;
  isFinite n := match n with Some _ => true | None => false end;
  isInteger n := match n with Some _ => true | None => false end;
  Number_ s := parse_nonempty 10 (trim s);
|}.

Definition str (s : string) : value := VStr (js s).
Definition obj (l : list (string * value)) : value := VObj (map (λ '(k, v), (js k, v)) l).
Definition type (s : string) : value := obj [("type", str s)]%string.

(** A tool with two required fields, one of them an enum, and a list of records. *)
Definition schema : value := obj [
  ("type", str "object");
  ("required", VArr [str "id"; str "kind"]);
  ("properties", obj [
    ("id", type "string");
    ("kind", obj [("type", str "string"); ("enum", VArr [str "email"; str "other"])]);
    ("count", type "integer");
    ("variants", obj [("type", str "array");
                      ("items", obj [("required", VArr [str "body"]); ("properties", obj [("body", type "string")])])])])]%string.

Definition good : value := obj [
  ("id", str "a"); ("kind", str "email"); ("count", VNull); ("variants", VArr [obj [("body", str "hi")]]); ("extra", VBool true)]%string.

Definition bad : value := obj [
  ("id", VNum (Some 7%Z)); ("kind", str "sms"); ("count", str "3"); ("variants", VArr [obj [("subject", str "x")]])]%string.

(** The comment above the function says that a valid call is never refused. Equality
    of JSON values does not look at the order of the members of an object; the code
    compares texts. *)
Definition enum_schema : value := obj [("enum", VArr [obj [("a", VNum (Some 1%Z)); ("b", VNum (Some 2%Z))]])]%string.

Lemma reordered_enum_refused :
  schemaArgumentProblems (Some enum_schema) (Some (obj [("a", VNum (Some 1%Z)); ("b", VNum (Some 2%Z))]%string)) 5 = []
  ∧ length (schemaArgumentProblems (Some enum_schema) (Some (obj [("b", VNum (Some 2%Z)); ("a", VNum (Some 1%Z))]%string)) 5) = 1%nat.
Proof. by vm_compute. Qed.

Example good_call : schemaArgumentProblems (Some schema) (Some good) 5 = [].
Proof. by vm_compute. Qed.

Example bad_call :
  schemaArgumentProblems (Some schema) (Some bad) 5 =
  [dq ++ js "id" ++ dq ++ js " must be a string, but the number 7 was sent";
   dq ++ js "kind" ++ dq ++ js " must be one of " ++ dq ++ js "email" ++ dq ++ js ", " ++ dq ++ js "other" ++ dq
     ++ js ", but " ++ dq ++ js "sms" ++ dq ++ js " was sent";
   dq ++ js "count" ++ dq ++ js " must be an integer, but a string (" ++ dq ++ js "3" ++ dq ++ js ") was sent; send the number without quotes";
   dq ++ js "variants[0].body" ++ dq ++ js " is required but missing (sent fields: subject)"].
Proof. by vm_compute. Qed.

(** A required field that every object inherits is never missed. *)
Example inherited_field :
  schemaArgumentProblems (Some (obj [("required", VArr [str "constructor"])]%string)) (Some (obj [])) 5 = [].
Proof. by vm_compute. Qed.

End ToolCallDemo.

(** The theorem at the good call: all it reaches keeps its rule. *)
Lemma schemaArgumentProblems_spec_witness :
  (0 < 5)%nat ∧
  ∀ n rule item, (n <= 32)%nat →
    @reached ToolCallDemo.whole (Some ToolCallDemo.schema) (Some ToolCallDemo.good) n (Some (VObj rule)) item →
    @keeps ToolCallDemo.whole rule item.
Proof.
  split; [lia|].
  apply (proj1 (proj2 (@schemaArgumentProblems_spec ToolCallDemo.whole (Some ToolCallDemo.schema) (Some ToolCallDemo.good) 5) ltac:(lia))).
  by vm_compute.
Defined.
