(* ===== verification/DiffModel.v ===== *)
(** * Unified diffs as they are shown

    packages/thread-ui/src/diff-model.ts: parsing of a unified diff into files
    and numbered lines, the words that changed between a removed and an added
    line, anchors of comments, and the window of rows that is drawn. The
    theorems are in DiffModelFacts. The lower case of a text and the letters and
    digits of Unicode are arguments. *)

From S2P Require Import Prelude JsMap JsString Json RegExp ExecPolicy.
From Stdlib Require Import Lia.

Set Default Goal Selector "!".

(** ** Data *)

Inductive DiffLineKind := Context | Add | Remove | Hunk | Meta.
#[export] Instance DiffLineKind_eq_dec : EqDecision DiffLineKind.
Proof. solve_decision. Defined.

Record DiffRange := { rg_start : nat; rg_end : nat }.

Record DiffLine := {
  dl_id : jstr; dl_kind : DiffLineKind; dl_raw : jstr; dl_content : jstr;
  dl_oldLine : option Z; dl_newLine : option Z; dl_changed : list DiffRange;
}.

Inductive DiffStatus := Added | Deleted | Renamed | Modified | Binary.
#[export] Instance DiffStatus_eq_dec : EqDecision DiffStatus.
Proof. solve_decision. Defined.

(** A lookup of an extension in the table finds a name, or a member that every
    object inherits, which is no string. *)
Inductive Language := Lang (name : jstr) | Inherited (member : jstr).

Record DiffFile := {
  df_id : jstr; df_oldPath : jstr; df_newPath : jstr; df_displayPath : jstr; df_language : Language;
  df_status : DiffStatus; df_additions : Z; df_deletions : Z; df_lines : list DiffLine;
}.

Inductive DiffSide := Old | New.
Record DiffAnchor := { an_path : jstr; an_oldPath : jstr; an_side : DiffSide; an_line : Z; an_contextHash : jstr }.

(** Assignments to the fields of a file. *)
Definition with_oldPath (p : jstr) (f : DiffFile) : DiffFile :=
  {| df_id := df_id f; df_oldPath := p; df_newPath := df_newPath f; df_displayPath := df_displayPath f;
     df_language := df_language f; df_status := df_status f; df_additions := df_additions f;
     df_deletions := df_deletions f; df_lines := df_lines f |}.
Definition with_newPath (p : jstr) (f : DiffFile) : DiffFile :=
  {| df_id := df_id f; df_oldPath := df_oldPath f; df_newPath := p; df_displayPath := df_displayPath f;
     df_language := df_language f; df_status := df_status f; df_additions := df_additions f;
     df_deletions := df_deletions f; df_lines := df_lines f |}.
Definition with_display (p : jstr) (l : Language) (f : DiffFile) : DiffFile :=
  {| df_id := df_id f; df_oldPath := df_oldPath f; df_newPath := df_newPath f; df_displayPath := p;
     df_language := l; df_status := df_status f; df_additions := df_additions f;
     df_deletions := df_deletions f; df_lines := df_lines f |}.
Definition with_status (s : DiffStatus) (f : DiffFile) : DiffFile :=
  {| df_id := df_id f; df_oldPath := df_oldPath f; df_newPath := df_newPath f; df_displayPath := df_displayPath f;
     df_language := df_language f; df_status := s; df_additions := df_additions f;
     df_deletions := df_deletions f; df_lines := df_lines f |}.
Definition with_lines (a d : Z) (l : list DiffLine) (f : DiffFile) : DiffFile :=
  {| df_id := df_id f; df_oldPath := df_oldPath f; df_newPath := df_newPath f; df_displayPath := df_displayPath f;
     df_language := df_language f; df_status := df_status f; df_additions := df_additions f + a;
     df_deletions := df_deletions f + d; df_lines := l |}.

(** ** Paths *)

Definition DIFF_GIT : jstr := js "diff --git ".

(** [JSON.parse] of a quoted path is a string or throws. *)
Definition unquote (path : jstr) : jstr :=
  if negb (starts_with [34%N] path) || negb (ends_with [34%N] path) then path
  else match json_parse path with
       | Some (JStr s) => s
       | _ => take (length path - 2) (drop 1 path)
       end.

(** [/^diff --git a\/(.+) b\/(.+)$/]: the first group is the longest that leaves
    room for the second. *)
Definition diff_git_groups (header : jstr) : option (jstr * jstr) :=
  if negb (starts_with (js "diff --git a/") header) then None
  else
    let body := drop 13 header in
    if existsb is_line_end body then None
    else
      i ← find_first (λ i, starts_with (js " b/") (drop i body) && (i + 3 <? length body)%nat)
            (reverse (List.seq 1 (length body)));
      Some (take i body, drop (i + 3) body).

Definition diffPaths (header : jstr) : jstr * jstr :=
  match diff_git_groups header with
  | Some (a, b) => (unquote a, unquote b)
  | None => (drop 11 header, drop 11 header)
  end.

Definition ARROW : jstr := js " -> ".
Definition arrow (oldPath newPath : jstr) : jstr := oldPath ++ ARROW ++ newPath.

Definition LANGUAGES : list (jstr * jstr) := map (λ '(k, v), (js k, js v)) [
  ("ts", "typescript"); ("tsx", "tsx"); ("js", "javascript"); ("jsx", "jsx"); ("json", "json"); ("css", "css");
  ("scss", "scss"); ("html", "html"); ("md", "markdown"); ("rs", "rust"); ("py", "python"); ("rb", "ruby");
  ("go", "go"); ("java", "java"); ("sh", "bash"); ("yml", "yaml"); ("yaml", "yaml"); ("toml", "toml"); ("sql", "sql")]%string.

Section diff.
Context (toLowerCase : jstr → jstr) (letter_or_number : N → bool).

Definition languageForPath (path : jstr) : Language :=
  let extension := toLowerCase (default [] (last (split_on 46%N path))) in
  match map_get extension LANGUAGES with
  | Some name => Lang name
  | None => if bool_decide (extension ∈ OBJECT_PROTOTYPE) then Inherited extension else Lang (js "text")
  end.

Definition makeFile (oldPath newPath : jstr) (index : nat) : DiffFile :=
  {| df_id := dec (Z.of_nat index) ++ js ":" ++ oldPath ++ js ":" ++ newPath;
     df_oldPath := oldPath; df_newPath := newPath;
     df_displayPath := if bool_decide (oldPath = newPath) then newPath else arrow oldPath newPath;
     df_language := languageForPath newPath; df_status := Modified;
     df_additions := 0; df_deletions := 0; df_lines := [] |}.

Definition makeLine (file : DiffFile) (kind : DiffLineKind) (raw content : jstr) (oldLine newLine : option Z) : DiffLine :=
  {| dl_id := df_id file ++ js ":" ++ dec (Z.of_nat (length (df_lines file)));
     dl_kind := kind; dl_raw := raw; dl_content := content; dl_oldLine := oldLine; dl_newLine := newLine;
     dl_changed := [] |}.

(** [current.lines.push(makeLine(current, ...))] *)
Definition push_line (kind : DiffLineKind) (raw content : jstr) (oldLine newLine : option Z) (a d : Z) (f : DiffFile) : DiffFile :=
  with_lines a d (df_lines f ++ [makeLine f kind raw content oldLine newLine]) f.

(** ** Parsing *)

(** [input.replace(/\r\n/g, "\n")] *)
Fixpoint unix_lines (s : jstr) : jstr :=
  match s with
  | [] => []
  | c :: s' =>
      match s' with
      | d :: s'' => if (c =? CR)%N && (d =? NL)%N then NL :: unix_lines s'' else c :: unix_lines s'
      | [] => [c]
      end
  end.

(** A number, and an optional [,] with another: [(\d+)(?:,\d+)?]. *)
Definition hunk_count (s : jstr) : option jstr :=
  match s with
  | 44%N :: s => let '(ds, r) := span_digits s in match ds with [] => None | _ => Some r end
  | _ => Some s
  end.

Definition hunk_side (s : jstr) : option (Z * jstr) :=
  let '(ds, r) := span_digits s in
  n ← parse_nonempty 10 ds; r ← hunk_count r; Some (n, r).

Definition strip (p s : jstr) : option jstr := if starts_with p s then Some (drop (length p) s) else None.

(** A header of a hunk, by the regular expression of the code: the first numbers
    of both sides, then anything up to the end of the line. *)
Definition hunk_header (raw : jstr) : option (Z * Z) :=
  s ← strip (js "@@ -") raw; '(old, s) ← hunk_side s;
  s ← strip (js " +") s; '(new, s) ← hunk_side s;
  s ← strip (js " @@") s;
  if existsb is_line_end s then None else Some (old, new).

(** The loop's variables; [current] is the last of the files. *)
Record parser := { ps_done : list DiffFile; ps_current : option DiffFile; ps_oldLine : Z; ps_newLine : Z }.

Definition ps_files (p : parser) : list DiffFile := ps_done p ++ match ps_current p with Some f => [f] | None => [] end.

Definition at_current (f : DiffFile) (p : parser) : parser :=
  {| ps_done := ps_done p; ps_current := Some f; ps_oldLine := ps_oldLine p; ps_newLine := ps_newLine p |}.
Definition at_lines (f : DiffFile) (oldLine newLine : Z) (p : parser) : parser :=
  {| ps_done := ps_done p; ps_current := Some f; ps_oldLine := oldLine; ps_newLine := newLine |}.

Definition WORKSPACE_DIFF : jstr := js "Workspace diff".

(** The status a line of the header gives to the file. *)
Definition mark_status (raw : jstr) (f : DiffFile) : DiffFile :=
  let f := if starts_with (js "new file mode ") raw then with_status Added f else f in
  let f := if starts_with (js "deleted file mode ") raw then with_status Deleted f else f in
  if starts_with (js "Binary files ") raw || starts_with (js "GIT binary patch") raw then with_status Binary f else f.

(** The lines of a file, behind its header. *)
Definition body_line (raw : jstr) (f : DiffFile) (p : parser) : parser :=
  let f := mark_status raw f in
  match hunk_header raw with
  | Some (old, new) => at_lines (push_line Hunk raw raw None None 0 0 f) old new p
  | None =>
      if starts_with (js "+") raw && negb (starts_with (js "+++") raw) then
        at_lines (push_line Add raw (drop 1 raw) None (Some (ps_newLine p)) 1 0 f) (ps_oldLine p) (ps_newLine p + 1) p
      else if starts_with (js "-") raw && negb (starts_with (js "---") raw) then
        at_lines (push_line Remove raw (drop 1 raw) (Some (ps_oldLine p)) None 0 1 f) (ps_oldLine p + 1) (ps_newLine p) p
      else if starts_with (js " ") raw then
        at_lines (push_line Context raw (drop 1 raw) (Some (ps_oldLine p)) (Some (ps_newLine p)) 0 0 f)
          (ps_oldLine p + 1) (ps_newLine p + 1) p
      else if starts_with (js "\ No newline") raw then at_current (push_line Meta raw raw None None 0 0 f) p
      else if truthy raw && negb (starts_with (js "index ") raw) && negb (starts_with (js "--- ") raw)
              && negb (starts_with (js "+++ ") raw) && negb (starts_with (js "similarity index ") raw)
      then at_current (push_line Meta raw raw None None 0 0 f) p
      else at_current f p
  end.

Definition file_line (raw : jstr) (f : DiffFile) (p : parser) : parser :=
  if starts_with (js "rename from ") raw then
    let f := with_status Renamed (with_oldPath (drop 12 raw) f) in
    at_current (with_display (arrow (df_oldPath f) (df_newPath f)) (df_language f) f) p
  else if starts_with (js "rename to ") raw then
    let f := with_status Renamed (with_newPath (drop 10 raw) f) in
    at_current (with_display (arrow (df_oldPath f) (df_newPath f)) (languageForPath (df_newPath f)) f) p
  else body_line raw f p.

Definition parse_line (p : parser) (raw : jstr) : parser :=
  let start f := {| ps_done := ps_files p; ps_current := Some f; ps_oldLine := ps_oldLine p; ps_newLine := ps_newLine p |} in
  if starts_with DIFF_GIT raw then
    let '(oldPath, newPath) := diffPaths raw in start (makeFile oldPath newPath (length (ps_files p)))
  else
    match ps_current p with
    | Some f => file_line raw f p
    | None =>
        if negb (truthy (trim raw)) then p
        else let f := makeFile WORKSPACE_DIFF WORKSPACE_DIFF (length (ps_files p)) in file_line raw f (start f)
    end.

Definition parser_start : parser := {| ps_done := []; ps_current := None; ps_oldLine := 0; ps_newLine := 0 |}.

(** ** Words *)

(** The code units of the first character, a surrogate pair or one unit. *)
Definition first_char (s : jstr) : jstr :=
  match s with
  | c :: d :: _ => if is_high c && is_low d then [c; d] else [c]
  | _ => take 1 s
  end.

Definition code_point (ch : jstr) : N :=
  match ch with
  | [c; d] => (0x10000 + (c - 0xd800) * 0x400 + (d - 0xdc00))%N
  | c :: _ => c
  | [] => 0%N
  end.

(** [\s], [[\p{L}\p{N}_$]], and what is neither. *)
Inductive char_class := Space | Word | Other.
#[export] Instance char_class_eq_dec : EqDecision char_class.
Proof. solve_decision. Defined.

Definition classify (ch : jstr) : char_class :=
  let c := code_point ch in
  if is_ws c then Space else if letter_or_number c || (c =? 95)%N || (c =? 36)%N then Word else Other.

Record token := { tk_value : jstr; tk_start : nat; tk_end : nat }.

(** The longest start of characters of one class; the fuel is the length. *)
Fixpoint class_run (fuel : nat) (k : char_class) (s : jstr) : jstr :=
  match fuel with
  | O => []
  | S fuel =>
      let ch := first_char s in
      if truthy s && bool_decide (classify ch = k) then ch ++ class_run fuel k (drop (length ch) s) else []
  end.

(** One match of [/\s+|[\p{L}\p{N}_$]+|[^\s\p{L}\p{N}_$]/u]. *)
Definition next_token (s : jstr) : jstr :=
  let ch := first_char s in
  match classify ch with Other => ch | k => class_run (length s) k s end.

Fixpoint tokens_from (fuel at_ : nat) (s : jstr) : list token :=
  match fuel, s with
  | S fuel, _ :: _ =>
      let t := next_token s in
      {| tk_value := t; tk_start := at_; tk_end := at_ + length t |}
        :: tokens_from fuel (at_ + length t) (drop (length t) s)
  | _, _ => []
  end.

Definition tokens (value : jstr) : list token := tokens_from (length value) 0 value.

(** An element of a [Uint16Array]. *)
Definition u16 (n : Z) : Z := n mod 65536.

(** One row of the table, from the row below: [table[i][j]] for every [j]. *)
Fixpoint lcs_row (x : jstr) (rights : list jstr) (below : list Z) : list Z :=
  match rights, below with
  | y :: rights, b :: below =>
      let row := lcs_row x rights below in
      (if bool_decide (x = y) then u16 (default 0 (head below) + 1)%Z else u16 (Z.max b (default 0 (head row))%Z)) :: row
  | _, _ => [0%Z]
  end.

Fixpoint lcs_table (lefts rights : list jstr) : list (list Z) :=
  match lefts with
  | [] => [replicate (S (length rights)) 0%Z]
  | x :: lefts =>
      let table := lcs_table lefts rights in
      lcs_row x rights (default [] (head table)) :: table
  end.

Definition cell (table : list (list Z)) (i j : nat) : Z := default 0%Z (row ← table !! i; row !! j).

(** The walk from the corner: the places kept on both sides. *)
Fixpoint walk (fuel : nat) (lefts rights : list jstr) (table : list (list Z)) (i j : nat) : list nat * list nat :=
  match fuel with
  | O => ([], [])
  | S fuel =>
      match lefts !! i, rights !! j with
      | Some x, Some y =>
          if bool_decide (x = y) then
            let '(l, r) := walk fuel lefts rights table (S i) (S j) in (i :: l, j :: r)
          else if (cell table i (S j) <=? cell table (S i) j)%Z then walk fuel lefts rights table (S i) j
          else walk fuel lefts rights table i (S j)
      | _, _ => ([], [])
      end
  end.

Fixpoint merge_from (previous : DiffRange) (values : list DiffRange) : list DiffRange :=
  match values with
  | [] => [previous]
  | v :: values =>
      if (rg_end previous =? rg_start v)%nat then merge_from {| rg_start := rg_start previous; rg_end := rg_end v |} values
      else previous :: merge_from v values
  end.

Definition mergeRanges (values : list DiffRange) : list DiffRange :=
  match values with [] => [] | v :: values => merge_from v values end.

Definition token_range (t : token) : DiffRange := {| rg_start := tk_start t; rg_end := tk_end t |}.

(** [ts.filter((_, at) => !same.has(at))] *)
Definition not_kept (same : list nat) (ts : list token) : list token :=
  omap (λ '(at_, t), if bool_decide (at_ ∈ same) then None else Some t) (imap pair ts).

Definition whole_range (s : jstr) : list DiffRange :=
  if truthy s then [{| rg_start := 0; rg_end := length s |}] else [].

Definition MAX_TOKENS : nat := 256.

Definition changedRanges (left right : jstr) : list DiffRange * list DiffRange :=
  let leftTokens := tokens left in
  let rightTokens := tokens right in
  if (MAX_TOKENS <? length leftTokens)%nat || (MAX_TOKENS <? length rightTokens)%nat
  then (whole_range left, whole_range right)
  else
    let ls := map tk_value leftTokens in
    let rs := map tk_value rightTokens in
    let '(sameLeft, sameRight) := walk (length ls + length rs) ls rs (lcs_table ls rs) 0 0 in
    (mergeRanges (map token_range (not_kept sameLeft leftTokens)),
     mergeRanges (map token_range (not_kept sameRight rightTokens))).

(** ** Annotation *)

Definition with_changed (r : list DiffRange) (l : DiffLine) : DiffLine :=
  {| dl_id := dl_id l; dl_kind := dl_kind l; dl_raw := dl_raw l; dl_content := dl_content l;
     dl_oldLine := dl_oldLine l; dl_newLine := dl_newLine l; dl_changed := r |}.

(** The lines of a kind at the start, and the others. *)
Fixpoint span_kind (k : DiffLineKind) (lines : list DiffLine) : list DiffLine * list DiffLine :=
  match lines with
  | l :: rest =>
      if bool_decide (dl_kind l = k) then let '(a, b) := span_kind k rest in (l :: a, b) else ([], lines)
  | [] => ([], [])
  end.

Definition annotate_pair (r a : DiffLine) : DiffLine * DiffLine :=
  let ranges := changedRanges (dl_content r) (dl_content a) in
  (with_changed ranges.1 r, with_changed ranges.2 a).

(** The removed and the added lines of a block, changed pair by pair. *)
Fixpoint annotate_block (removed added : list DiffLine) : list DiffLine * list DiffLine :=
  match removed, added with
  | r :: removed, a :: added =>
      let '(r, a) := annotate_pair r a in
      let '(rs, az) := annotate_block removed added in (r :: rs, a :: az)
  | _, _ => (removed, added)
  end.

Fixpoint annotate_from (fuel : nat) (lines : list DiffLine) : list DiffLine :=
  match fuel, lines with
  | S fuel, l :: rest =>
      if negb (bool_decide (dl_kind l = Remove)) then l :: annotate_from fuel rest
      else
        let '(removed, rest) := span_kind Remove lines in
        let '(added, rest) := span_kind Add rest in
        let '(removed, added) := annotate_block removed added in
        removed ++ added ++ annotate_from fuel rest
  | _, _ => lines
  end.

Definition annotateWordChanges (lines : list DiffLine) : list DiffLine := annotate_from (length lines) lines.

Definition annotate_file (f : DiffFile) : DiffFile := with_lines 0 0 (annotateWordChanges (df_lines f)) f.

Definition parseUnifiedDiff (input : jstr) : list DiffFile :=
  let p := fold_left parse_line (split_on NL (unix_lines input)) parser_start in
  filter (λ f, df_lines f ≠ [] ∨ df_status f ≠ Modified) (map annotate_file (ps_files p)).

End diff.

(** ** Anchors *)

Definition imul (a b : Z) : Z := (a * b) mod 2 ^ 32.

(** The loop; the 32 bits are kept as a number that is not negative, as the last
    [>>> 0] leaves them. *)
Definition fnv (value : jstr) : Z :=
  fold_left (λ hash c, imul (Z.lxor hash (Z.of_N c)) 16777619) value 2166136261%Z.

(** [n.toString(16)] *)
Fixpoint hex_digits (fuel : nat) (n : N) : jstr :=
  match fuel with
  | O => []
  | S fuel => (if (n <? 16)%N then [] else hex_digits fuel (n / 16)) ++ [hex_digit (n mod 16)]
  end.

Definition padStart (width : nat) (c : N) (s : jstr) : jstr := replicate (width - length s) c ++ s.

Definition shortHash (value : jstr) : jstr := padStart 8 48%N (hex_digits 8 (Z.to_N (fnv value))).

Definition kind_text (k : DiffLineKind) : jstr :=
  match k with
  | Context => js "context" | Add => js "add" | Remove => js "remove" | Hunk => js "hunk" | Meta => js "meta"
  end.

Definition diffLineAnchor (file : DiffFile) (line : DiffLine) : option DiffAnchor :=
  number ← (match dl_newLine line with Some n => Some n | None => dl_oldLine line end);
  Some {| an_path := if bool_decide (df_status file = Deleted) then df_oldPath file else df_newPath file;
          an_oldPath := df_oldPath file;
          an_side := match dl_newLine line with None => Old | Some _ => New end;
          an_line := number;
          an_contextHash := shortHash (kind_text (dl_kind line) ++ [NUL] ++ dl_content line) |}.

(** ** The rows that are drawn *)

Record virtual_range := { vr_start : Z; vr_end : Z; vr_offsetTop : Z; vr_offsetBottom : Z }.

(** Heights and offsets are whole pixels. *)
Definition virtualRange (total scrollTop viewportHeight rowHeight overscan : Z) : virtual_range :=
  let start := Z.max 0 (scrollTop / rowHeight - overscan) in
  let end_ := Z.min total (- (- (scrollTop + viewportHeight) / rowHeight) + overscan) in
  {| vr_start := start; vr_end := end_; vr_offsetTop := start * rowHeight;
     vr_offsetBottom := Z.max 0 ((total - end_) * rowHeight) |}.
