(* ===== verification/DiffModelWords.v ===== *)
(** * The words that changed

    What is left of two changed lines without their marked ranges is the same
    text, and the tokens that are left are a longest common subsequence of the
    tokens of both lines. *)

From S2P Require Import Prelude JsMap JsString DiffModel.
From Stdlib Require Import Lia.

Set Default Goal Selector "!".

(** ** Longest common subsequences *)

Definition common (c l r : list jstr) : Prop := c `sublist_of` l ∧ c `sublist_of` r.

(** [n] is the greatest length of a common subsequence. *)
Definition is_lcs (n : nat) (l r : list jstr) : Prop :=
  (∃ c, common c l r ∧ length c = n) ∧ ∀ c, common c l r → (length c <= n)%nat.

Lemma is_lcs_unique n m l r : is_lcs n l r → is_lcs m l r → n = m.
Proof.
  intros [(c & Hc & <-) Hn] [(d & Hd & <-) Hm]. pose proof (Hn d Hd). pose proof (Hm c Hc). lia.
Qed.

Lemma is_lcs_nil_l r : is_lcs 0 [] r.
Proof.
  split; [exists []; split; [split; [done|apply sublist_nil_l]|done]|].
  by intros c [->%sublist_nil_r _].
Qed.

Lemma is_lcs_nil_r l : is_lcs 0 l [].
Proof.
  split; [exists []; split; [split; [apply sublist_nil_l|done]|done]|].
  by intros c [_ ->%sublist_nil_r].
Qed.

Lemma sublist_tails x y (c l : list jstr) : y :: c `sublist_of` x :: l → c `sublist_of` l.
Proof.
  intros [H|(c' & [= -> ->] & H)]%sublist_cons_r; [|done].
  etrans; [|exact H]. by apply sublist_cons.
Qed.

Lemma is_lcs_match n x l r : is_lcs n l r → is_lcs (S n) (x :: l) (x :: r).
Proof.
  intros [(c & [Hl Hr] & <-) Hn]. split.
  - exists (x :: c). split; [split; by apply sublist_skip|done].
  - intros [|y c'] [H1 H2]; [simpl; lia|]. simpl. apply le_n_S, Hn. split; by eapply sublist_tails.
Qed.

Lemma is_lcs_differ n m x y l r :
  x ≠ y → is_lcs n l (y :: r) → is_lcs m (x :: l) r → is_lcs (Nat.max n m) (x :: l) (y :: r).
Proof.
  intros Hxy [(c & [Hl Hr] & <-) Hn] [(d & [Hdl Hdr] & <-) Hm]. split.
  - destruct (Nat.max_spec (length c) (length d)) as [[_ ->]|[_ ->]].
    + exists d. split; [split; [done|by apply sublist_cons]|done].
    + exists c. split; [split; [by apply sublist_cons|done]|done].
  - intros e [H1 H2]. destruct (proj1 (sublist_cons_r x e l) H1) as [H1'|(e' & -> & H1')].
    { specialize (Hn e (conj H1' H2)). lia. }
    destruct (proj1 (sublist_cons_r y _ r) H2) as [H2'|(e'' & [= -> ->] & H2')]; [|done].
    specialize (Hm _ (conj H1 H2')). lia.
Qed.

(** ** The table *)

(** A row for the words behind [left]: [row[j]] belongs to [drop j rights]. *)
Definition row_spec (left rights : list jstr) (row : list Z) : Prop :=
  ∀ j, (j <= length rights)%nat →
    ∃ n, row !! j = Some (Z.of_nat n) ∧ is_lcs n left (drop j rights).

Lemma is_lcs_bound n l r : is_lcs n l r → (n <= length l)%nat.
Proof. intros [(c & [Hl _] & <-) _]. by apply sublist_length. Qed.

Lemma row_spec_cons left y rights z row :
  row_spec left (y :: rights) (z :: row) ↔
  (∃ n, z = Z.of_nat n ∧ is_lcs n left (y :: rights)) ∧ row_spec left rights row.
Proof.
  split.
  - intros H. split.
    + destruct (H 0%nat) as (n & [= ->] & Hn); [simpl; lia|]. by exists n.
    + intros j Hj. destruct (H (S j)) as (n & ? & ?); [simpl; lia|]. by exists n.
  - intros [(n & -> & Hn) H] [|j] Hj; [by exists n|]. apply (H j). simpl in Hj. lia.
Qed.

Lemma row_spec_head left rights row :
  row_spec left rights row → ∃ n, default 0%Z (head row) = Z.of_nat n ∧ is_lcs n left rights.
Proof. intros H. destruct (H 0%nat) as (n & E & Hn); [lia|]. exists n. by destruct row; simplify_eq/=. Qed.

Lemma u16_small n : (Z.of_nat n < 65536)%Z → u16 (Z.of_nat n) = Z.of_nat n.
Proof. intros H. unfold u16. apply Z.mod_small. lia. Qed.

Lemma lcs_row_spec x left rights below :
  (Z.of_nat (length left) < 65535)%Z →
  row_spec left rights below → row_spec (x :: left) rights (lcs_row x rights below).
Proof.
  intros Hl. revert below. induction rights as [|y rights IH]; intros below Hb.
  { intros j Hj. simpl in Hj. assert (j = 0%nat) as -> by lia. exists 0%nat.
    destruct below; (split; [done|apply is_lcs_nil_r]). }
  destruct below as [|b below]; [by destruct (Hb 0%nat) as (n & ? & _); [simpl; lia|]|].
  apply row_spec_cons in Hb as [(n & -> & Hn) Hb]. pose proof (IH below Hb) as Hr. simpl.
  apply row_spec_cons. split; [|done].
  destruct (row_spec_head _ _ _ Hb) as (m & Em & Hm). destruct (row_spec_head _ _ _ Hr) as (k & Ek & Hk).
  case_bool_decide as Hxy.
  - subst y. exists (S m). split; [|by apply is_lcs_match].
    pose proof (is_lcs_bound _ _ _ Hm). rewrite Em, <- (u16_small (S m)) by lia. f_equal. lia.
  - exists (Nat.max n k). split; [|by apply is_lcs_differ].
    pose proof (is_lcs_bound _ _ _ Hn). pose proof (is_lcs_bound _ _ _ Hk). simpl in *.
    rewrite Ek, <- (u16_small (Nat.max n k)) by lia. f_equal. lia.
Qed.

Lemma lcs_table_spec lefts rights i :
  (Z.of_nat (length lefts) < 65536)%Z → (i <= length lefts)%nat →
  ∃ row, lcs_table lefts rights !! i = Some row ∧ row_spec (drop i lefts) rights row.
Proof.
  revert i. induction lefts as [|x lefts IH]; intros i Hl Hi; simpl.
  - simpl in Hi. assert (i = 0%nat) as -> by lia. eexists. split; [done|].
    intros j Hj. exists 0%nat. split; [|apply is_lcs_nil_l].
    change (0%Z :: _) with (replicate (S (length rights)) 0%Z). apply lookup_replicate. split; [done|lia].
  - cbn [length] in Hl. destruct i as [|i].
    + eexists. split; [done|]. destruct (IH 0%nat) as (row & E & Hr); [lia..|].
      destruct (lcs_table lefts rights) as [|row' table]; [done|]. injection E as ->.
      simpl. by apply lcs_row_spec; [lia|].
    + simpl. apply IH; simpl in Hi; lia.
Qed.

Lemma cell_spec lefts rights i j :
  (Z.of_nat (length lefts) < 65536)%Z → (i <= length lefts)%nat → (j <= length rights)%nat →
  ∃ n, cell (lcs_table lefts rights) i j = Z.of_nat n ∧ is_lcs n (drop i lefts) (drop j rights).
Proof.
  intros Hl Hi Hj. destruct (lcs_table_spec lefts rights i Hl Hi) as (row & E & Hr).
  destruct (Hr j Hj) as (n & En & Hn). exists n. unfold cell. rewrite E. simpl. by rewrite En.
Qed.

(** ** The walk *)

(** The elements of [xs], numbered from [k], whose number is in [same]. *)
Fixpoint picked (same : list nat) (k : nat) (xs : list jstr) : list jstr :=
  match xs with
  | [] => []
  | x :: xs => (if bool_decide (k ∈ same) then [x] else []) ++ picked same (S k) xs
  end.

Lemma picked_sublist same k xs : picked same k xs `sublist_of` xs.
Proof.
  revert k. induction xs as [|x xs IH]; intros k; simpl; [done|].
  case_bool_decide; simpl; [by apply sublist_skip|by apply sublist_cons].
Qed.

Lemma picked_below i same k xs : (i < k)%nat → picked (i :: same) k xs = picked same k xs.
Proof.
  revert k. induction xs as [|x xs IH]; intros k Hk; simpl; [done|]. rewrite IH by lia. f_equal.
  do 2 case_bool_decide; set_solver by lia.
Qed.

Lemma picked_skip same k x xs : (∀ i, i ∈ same → (k < i)%nat) → picked same k (x :: xs) = picked same (S k) xs.
Proof. intros H. simpl. rewrite bool_decide_false; [done|]. intros Hk%H. lia. Qed.

Lemma picked_none k xs : picked [] k xs = [].
Proof. revert k. induction xs as [|x xs IH]; intros k; simpl; [done|]. by rewrite IH. Qed.

Lemma picked_here i same x xs :
  (∀ k, k ∈ same → (i < k)%nat) → picked (i :: same) i (x :: xs) = x :: picked same (S i) xs.
Proof. intros H. simpl. rewrite bool_decide_true by set_solver. by rewrite picked_below by lia. Qed.

(** What the walk keeps from places [i] and [j] on. *)
Record walked (lefts rights : list jstr) (i j : nat) (l r : list nat) : Prop := {
  walked_left k : k ∈ l → (i <= k)%nat;
  walked_right k : k ∈ r → (j <= k)%nat;
  walked_same : picked l i (drop i lefts) = picked r j (drop j rights);
  walked_lcs : is_lcs (length (picked l i (drop i lefts))) (drop i lefts) (drop j rights);
}.

Lemma walked_stop lefts rights i j :
  lefts !! i = None ∨ rights !! j = None → walked lefts rights i j [] [].
Proof.
  intros H. split; [set_solver..| |]; rewrite ?picked_none; [done|].
  destruct H as [H|H]; apply lookup_ge_None in H; rewrite (drop_ge _ _ H); [apply is_lcs_nil_l|apply is_lcs_nil_r].
Qed.

Lemma walk_spec fuel lefts rights i j :
  (Z.of_nat (length lefts) < 65536)%Z →
  (i <= length lefts)%nat → (j <= length rights)%nat → ((length lefts - i) + (length rights - j) <= fuel)%nat →
  walked lefts rights i j (walk fuel lefts rights (lcs_table lefts rights) i j).1
    (walk fuel lefts rights (lcs_table lefts rights) i j).2.
Proof.
  intros Hlen. revert i j. induction fuel as [|fuel IH]; intros i j Hi Hj Hfuel; simpl.
  { apply walked_stop. left. apply lookup_ge_None. lia. }
  destruct (lefts !! i) as [x|] eqn:Ex; [|apply walked_stop; auto].
  destruct (rights !! j) as [y|] eqn:Ey; [|apply walked_stop; auto].
  pose proof (lookup_lt_Some _ _ _ Ex) as Hi'. pose proof (lookup_lt_Some _ _ _ Ey) as Hj'.
  pose proof (drop_S _ _ _ Ex) as Dx. pose proof (drop_S _ _ _ Ey) as Dy.
  case_bool_decide as Hxy.
  - subst y. destruct (walk fuel lefts rights _ (S i) (S j)) as [l r] eqn:E.
    pose proof (IH (S i) (S j) Hi' Hj' ltac:(lia)) as Hw. rewrite E in Hw. destruct Hw as [Hl Hr Hs Hn]. simpl in *.
    assert (∀ k, k ∈ l → (i < k)%nat) as Hl' by (intros k Hk%Hl; lia).
    assert (∀ k, k ∈ r → (j < k)%nat) as Hr' by (intros k Hk%Hr; lia).
    split.
    + intros k [->|Hk%Hl]%elem_of_cons; lia.
    + intros k [->|Hk%Hr]%elem_of_cons; lia.
    + by rewrite Dx, Dy, !picked_here, Hs.
    + rewrite Dx, Dy, picked_here by done. simpl. by apply is_lcs_match.
  - destruct (cell_spec lefts rights (S i) j) as (a & Ea & Ha); [lia..|].
    destruct (cell_spec lefts rights i (S j)) as (b & Eb & Hb); [lia..|].
    rewrite Ea, Eb. rewrite Dy in Ha. rewrite Dx in Hb.
    pose proof (is_lcs_differ _ _ _ _ _ _ Hxy Ha Hb) as Hab. rewrite <- Dx, <- Dy in Hab.
    destruct (Z.leb_spec (Z.of_nat b) (Z.of_nat a)).
    + destruct (IH (S i) j) as [Hl Hr Hs Hn]; [lia..|]. rewrite <- Dy in Ha.
      split; [intros k Hk%Hl; lia|done| |]; rewrite Dx at 1; rewrite picked_skip by (intros k Hk%Hl; lia); [done|].
      rewrite (is_lcs_unique _ _ _ _ Hn Ha). by replace a with (Nat.max a b) by lia.
    + destruct (IH i (S j)) as [Hl Hr Hs Hn]; [lia..|]. rewrite <- Dx in Hb.
      split; [done|intros k Hk%Hr; lia| |].
      * rewrite Dy, picked_skip by (intros k Hk%Hr; lia). done.
      * rewrite (is_lcs_unique _ _ _ _ Hn Hb). by replace b with (Nat.max a b) by lia.
Qed.

(** ** Tokens tile the line *)

Section tokens.
Context (letter_or_number : N → bool).

Abbreviation tokens := (tokens letter_or_number).

Lemma first_char_prefix s : first_char s `prefix_of` s.
Proof.
  destruct s as [|c [|d s]]; [by exists []..|]. simpl.
  destruct (_ && _); [by exists s|by exists (d :: s)].
Qed.

Lemma first_char_length s : s ≠ [] → (0 < length (first_char s))%nat.
Proof. destruct s as [|c [|d s]]; [done|simpl; lia|]. intros _. simpl. destruct (_ && _); simpl; lia. Qed.

Lemma class_run_prefix fuel k s : class_run letter_or_number fuel k s `prefix_of` s.
Proof.
  revert s. induction fuel as [|fuel IH]; intros s; simpl; [apply prefix_nil|].
  destruct (_ && _); [|apply prefix_nil]. destruct (first_char_prefix s) as [t E].
  assert (drop (length (first_char s)) s = t) as -> by (rewrite E at 2; by rewrite drop_app_length).
  rewrite E at 2. apply prefix_app, IH.
Qed.

Lemma next_token_prefix s : next_token letter_or_number s `prefix_of` s.
Proof. unfold next_token. destruct (classify _ _); [apply class_run_prefix..|apply first_char_prefix]. Qed.

Lemma next_token_length s : s ≠ [] → (0 < length (next_token letter_or_number s))%nat.
Proof.
  intros Hs. pose proof (first_char_length s Hs) as Hf. unfold next_token.
  assert (∀ k, classify letter_or_number (first_char s) = k →
            (0 < length (class_run letter_or_number (length s) k s))%nat) as Hrun.
  { intros k Hk. destruct (length s) as [|n] eqn:El; [by destruct s|]. simpl.
    rewrite bool_decide_true by done. destruct s; [done|]. simpl truthy. cbn [andb]. rewrite length_app. lia. }
  by destruct (classify _ _) eqn:E; [apply Hrun..|].
Qed.

(** The tokens stand one after the other from [at_] on, and none is empty. *)
Fixpoint tiled (at_ : nat) (ts : list token) : Prop :=
  match ts with
  | [] => True
  | t :: ts => tk_start t = at_ ∧ tk_end t = (at_ + length (tk_value t))%nat ∧ tk_value t ≠ [] ∧ tiled (tk_end t) ts
  end.

Definition text_of (ts : list token) : jstr := concat (map tk_value ts).

Lemma tokens_from_spec fuel at_ s :
  (length s <= fuel)%nat →
  tiled at_ (tokens_from letter_or_number fuel at_ s) ∧ text_of (tokens_from letter_or_number fuel at_ s) = s.
Proof.
  revert at_ s. induction fuel as [|fuel IH]; intros at_ s Hs; [by destruct s; [|simpl in Hs; lia]|].
  destruct s as [|c s]; [done|]. cbn [tokens_from]. set (t := next_token letter_or_number (c :: s)).
  pose proof (next_token_length (c :: s) ltac:(done)) as Hl. fold t in Hl.
  destruct (next_token_prefix (c :: s)) as [r E]. fold t in E.
  assert (drop (length t) (c :: s) = r) as -> by (rewrite E; by rewrite drop_app_length).
  destruct (IH (at_ + length t)%nat r) as [IH1 IH2].
  { apply (f_equal length) in E. rewrite length_app in E. simpl in *. lia. }
  unfold text_of in *. cbn. split_and!; [done..| |done|by rewrite IH2].
  intros E0. rewrite E0 in Hl. simpl in Hl. lia.
Qed.

Lemma tokens_spec v : tiled 0 (tokens v) ∧ text_of (tokens v) = v.
Proof. by apply tokens_from_spec. Qed.

(** ** Ranges *)

Definition covers (p : nat) (r : DiffRange) : bool := ((rg_start r <=? p) && (p <? rg_end r))%nat.
Definition covered (p : nat) (rs : list DiffRange) : bool := existsb (covers p) rs.

(** What is left of a text, numbered from [at_], without its marked ranges. *)
Fixpoint unmarked_from (at_ : nat) (s : jstr) (rs : list DiffRange) : jstr :=
  match s with
  | [] => []
  | c :: s => (if covered at_ rs then [] else [c]) ++ unmarked_from (S at_) s rs
  end.
Definition unmarked (s : jstr) (rs : list DiffRange) : jstr := unmarked_from 0 s rs.

Lemma unmarked_from_app at_ s t rs :
  unmarked_from at_ (s ++ t) rs = unmarked_from at_ s rs ++ unmarked_from (at_ + length s) t rs.
Proof.
  revert at_. induction s as [|c s IH]; intros at_; simpl; [by rewrite Nat.add_0_r|].
  by rewrite IH, <- app_assoc, Nat.add_succ_r.
Qed.

Lemma unmarked_from_all at_ s rs :
  (∀ p, (at_ <= p < at_ + length s)%nat → covered p rs = true) → unmarked_from at_ s rs = [].
Proof.
  revert at_. induction s as [|c s IH]; intros at_ H; simpl; [done|].
  rewrite H by (simpl; lia). apply IH. intros p Hp. apply H. simpl. lia.
Qed.

Lemma unmarked_from_none at_ s rs :
  (∀ p, (at_ <= p < at_ + length s)%nat → covered p rs = false) → unmarked_from at_ s rs = s.
Proof.
  revert at_. induction s as [|c s IH]; intros at_ H; simpl; [done|].
  rewrite H by (simpl; lia). simpl. f_equal. apply IH. intros p Hp. apply H. simpl. lia.
Qed.

(** Ranges in order: none is empty, and each starts where the last ended or later. *)
Fixpoint ordered (lo : nat) (rs : list DiffRange) : Prop :=
  match rs with [] => True | r :: rs => (lo <= rg_start r < rg_end r)%nat ∧ ordered (rg_end r) rs end.

(** Ranges with something between them, up to [hi]. *)
Fixpoint spaced (lo hi : nat) (rs : list DiffRange) : Prop :=
  match rs with
  | [] => True
  | r :: rs => (lo <= rg_start r < rg_end r)%nat ∧ (rg_end r <= hi)%nat ∧ spaced (S (rg_end r)) hi rs
  end.

Definition within (hi : nat) (rs : list DiffRange) : Prop := Forall (λ r, (rg_end r <= hi)%nat) rs.

Lemma merge_from_spaced lo hi r rs :
  (lo <= rg_start r < rg_end r)%nat → (rg_end r <= hi)%nat → ordered (rg_end r) rs → within hi rs →
  spaced lo hi (merge_from r rs).
Proof.
  revert lo r. induction rs as [|v rs IH]; intros lo r Hr Hh Ho Hw; simpl; [done|].
  destruct Ho as [Hv Ho]. apply Forall_cons in Hw as [Hvh Hw].
  destruct (Nat.eqb_spec (rg_end r) (rg_start v)) as [E|].
  - apply IH; simpl; [lia|done..].
  - simpl. split; [done|]. split; [done|]. apply IH; [lia|done..].
Qed.

Lemma mergeRanges_spaced hi rs : ordered 0 rs → within hi rs → spaced 0 hi (mergeRanges rs).
Proof.
  destruct rs as [|r rs]; [done|]. intros [Hr Ho] Hw. apply Forall_cons in Hw as [? Hw].
  by apply merge_from_spaced.
Qed.

Lemma merge_from_covered p r rs :
  (rg_start r <= rg_end r)%nat → ordered (rg_end r) rs →
  covered p (merge_from r rs) = covers p r || covered p rs.
Proof.
  revert r. induction rs as [|v rs IH]; intros r Hr Ho; simpl; [done|]. destruct Ho as [Hv Ho].
  destruct (Nat.eqb_spec (rg_end r) (rg_start v)) as [E|].
  - rewrite IH by (simpl; lia || done). unfold covered in *. simpl. rewrite orb_assoc. f_equal.
    unfold covers. simpl. apply eq_true_iff_eq.
    rewrite orb_true_iff, !andb_true_iff, !Nat.leb_le, !Nat.ltb_lt. lia.
  - simpl. rewrite IH by (lia || done). done.
Qed.

Lemma mergeRanges_covered p rs : ordered 0 rs → covered p (mergeRanges rs) = covered p rs.
Proof. destruct rs as [|r rs]; [done|]. intros [Hr Ho]. simpl. apply merge_from_covered; [lia|done]. Qed.

Lemma unmarked_ext at_ s rs rs' :
  (∀ p, (at_ <= p)%nat → covered p rs = covered p rs') → unmarked_from at_ s rs = unmarked_from at_ s rs'.
Proof.
  revert at_. induction s as [|c s IH]; intros at_ H; simpl; [done|]. rewrite H by lia. f_equal.
  apply IH. intros p Hp. apply H. lia.
Qed.

(** ** The tokens that are not kept *)

Fixpoint dropped (same : list nat) (k : nat) (ts : list token) : list token :=
  match ts with
  | [] => []
  | t :: ts => (if bool_decide (k ∈ same) then [] else [t]) ++ dropped same (S k) ts
  end.

Lemma not_kept_dropped same ts : not_kept same ts = dropped same 0 ts.
Proof.
  unfold not_kept.
  assert (∀ k, omap (λ '(at_, t), if bool_decide (at_ ∈ same) then None else Some t) (imap (λ i t, (k + i, t)%nat) ts)
               = dropped same k ts) as H; [|by apply (H 0%nat)].
  induction ts as [|t ts IH]; intros k; [done|]. simpl. rewrite Nat.add_0_r.
  assert (imap ((λ i t, (k + i, t)%nat) ∘ S) ts = imap (λ i t, (S k + i, t)%nat) ts) as ->.
  { apply imap_ext. intros i x _. simpl. f_equal. lia. }
  rewrite IH. by case_bool_decide.
Qed.

Lemma dropped_ordered same k at_ ts :
  tiled at_ ts → ordered at_ (map token_range (dropped same k ts)) ∧
  within (at_ + length (text_of ts)) (map token_range (dropped same k ts)).
Proof.
  revert k at_. induction ts as [|t ts IH]; intros k at_; simpl; [by repeat constructor|].
  intros (E1 & E2 & Hne & Ht). destruct (IH (S k) _ Ht) as [Ho Hw].
  assert (0 < length (tk_value t))%nat by (destruct (tk_value t); [done|simpl; lia]).
  unfold text_of in *. simpl. rewrite length_app. rewrite E2 in Hw, Ho. rewrite <- Nat.add_assoc in Hw.
  case_bool_decide; simpl.
  - split; [|done]. destruct (map token_range (dropped same (S k) ts)); [done|]. simpl in *. intuition lia.
  - rewrite E1, E2. split; [split; [lia|done]|]. constructor; [simpl; lia|done].
Qed.

Lemma ordered_not_covered lo p rs : ordered lo rs → (p < lo)%nat → covered p rs = false.
Proof.
  revert lo. induction rs as [|r rs IH]; intros lo; simpl; [done|]. intros [Hr Ho] Hp.
  apply orb_false_iff. split; [|apply (IH (rg_end r)); [done|lia]].
  unfold covers. apply andb_false_iff. left. apply Nat.leb_gt. lia.
Qed.

Lemma unmarked_dropped same k at_ ts rs :
  tiled at_ ts →
  (∀ p, (at_ <= p)%nat → covered p rs = covered p (map token_range (dropped same k ts))) →
  unmarked_from at_ (text_of ts) rs = concat (picked same k (map tk_value ts)).
Proof.
  revert k at_. induction ts as [|t ts IH]; intros k at_ Ht Hc; [done|].
  destruct Ht as (E1 & E2 & Hne & Ht). unfold text_of in *. cbn [map concat].
  rewrite unmarked_from_app, <- E2. simpl picked.
  pose proof (dropped_ordered same (S k) _ _ Ht) as [Ho _].
  rewrite (IH (S k)); [|done|].
  - simpl in Hc. case_bool_decide; simpl; simpl in Hc.
    + rewrite unmarked_from_none; [done|]. intros p Hp. rewrite Hc by lia.
      apply (ordered_not_covered (tk_end t)); [done|lia].
    + rewrite unmarked_from_all; [done|]. intros p Hp. rewrite Hc by lia.
      unfold covers. simpl. rewrite E1, E2, (proj2 (Nat.leb_le _ _)), (proj2 (Nat.ltb_lt _ _)) by lia. done.
  - intros p Hp. rewrite Hc by lia. simpl. case_bool_decide; simpl; [done|].
    unfold covers. simpl. rewrite E2 in Hp |- *. by rewrite (proj2 (Nat.ltb_ge _ _)), andb_false_r by lia.
Qed.

(** ** The theorem *)

Lemma unmarked_merged same v :
  unmarked v (mergeRanges (map token_range (not_kept same (tokens v)))) = concat (picked same 0 (map tk_value (tokens v)))
  ∧ spaced 0 (length v) (mergeRanges (map token_range (not_kept same (tokens v)))).
Proof.
  destruct (tokens_spec v) as [Ht Ev]. rewrite not_kept_dropped.
  destruct (dropped_ordered same 0 0 _ Ht) as [Ho Hw]. rewrite Ev in Hw. split.
  - unfold unmarked. rewrite <- Ev at 1. apply unmarked_dropped; [done|].
    intros p _. by apply mergeRanges_covered.
  - by apply mergeRanges_spaced.
Qed.

Lemma unmarked_whole s : unmarked s (whole_range s) = [] ∧ spaced 0 (length s) (whole_range s).
Proof.
  unfold whole_range. destruct s as [|c s]; [done|]. split.
  - apply unmarked_from_all. intros p Hp. simpl. unfold covers. simpl.
    rewrite orb_false_r. apply Nat.ltb_lt. simpl in Hp. lia.
  - simpl. split_and!; [lia..|done].
Qed.

(** C28: The ranges that are marked as changed are in order, within their lines,
    and apart from each other. What is not marked is the same text on both sides;
    it consists of common tokens of both lines, in order; and for lines of at most
    256 tokens no other choice of common tokens is longer. *)
Theorem changedRanges_lcs left right :
  spaced 0 (length left) (changedRanges letter_or_number left right).1 ∧
  spaced 0 (length right) (changedRanges letter_or_number left right).2 ∧
  ∃ kept,
    unmarked left (changedRanges letter_or_number left right).1 = concat kept ∧
    unmarked right (changedRanges letter_or_number left right).2 = concat kept ∧
    common kept (map tk_value (tokens left)) (map tk_value (tokens right)) ∧
    ((length (tokens left) <= 256)%nat → (length (tokens right) <= 256)%nat →
     ∀ other, common other (map tk_value (tokens left)) (map tk_value (tokens right)) →
       (length other <= length kept)%nat).
Proof.
  unfold changedRanges. unfold MAX_TOKENS.
  destruct (Nat.ltb_spec 256 (length (tokens left))) as [Hl|Hl]; simpl;
    [|destruct (Nat.ltb_spec 256 (length (tokens right))) as [Hr|Hr]; simpl].
  1,2: destruct (unmarked_whole left) as [El Sl], (unmarked_whole right) as [Er Sr]; split_and!; [done..|];
    exists []; rewrite El, Er; split_and!; try done; [split; apply sublist_nil_l|lia].
  set (ls := map tk_value (tokens left)). set (rs := map tk_value (tokens right)).
  assert (length ls = length (tokens left)) as Els by apply length_map.
  pose proof (walk_spec (length ls + length rs) ls rs 0 0 ltac:(lia) ltac:(lia) ltac:(lia) ltac:(lia)) as Hw.
  destruct (walk _ ls rs _ 0 0) as [l r]. destruct Hw as [_ _ Hsame [_ Hmax]]. simpl in *. rewrite drop_0 in *.
  destruct (unmarked_merged l left) as [El Sl], (unmarked_merged r right) as [Er Sr]. fold ls in El. fold rs in Er.
  split_and!; [done..|]. exists (picked l 0 ls). split_and!; [done|by rewrite Er, Hsame| |done].
  split; [apply picked_sublist|]. rewrite Hsame. apply picked_sublist.
Qed.

End tokens.
