(* ===== verification/DiffModelFacts.v ===== *)
(** * Printed diffs are parsed back

    A diff that is printed from changes - a path and hunks of kept, removed and
    added lines - is parsed into one file per change, with every line under its
    number on both sides. What the parser takes for a header instead is at the
    end, with the window of rows. *)

From S2P Require Import Prelude JsMap JsString Json RegExp ExecPolicy DiffModel DiffModelWords.
From Stdlib Require Import Lia.

Set Default Goal Selector "!".

(** ** Changes and how they are printed *)

Inductive edit := Keep (text : jstr) | Del (text : jstr) | Ins (text : jstr).

Record hunk := { hk_old : Z; hk_new : Z; hk_edits : list edit; hk_heading : jstr }.
Record change := { ch_path : jstr; ch_hunks : list hunk }.

Definition edit_line (e : edit) : jstr :=
  match e with Keep s => 32%N :: s | Del s => 45%N :: s | Ins s => 43%N :: s end.

Definition on_old (e : edit) : Z := match e with Ins _ => 0 | _ => 1 end.
Definition on_new (e : edit) : Z := match e with Del _ => 0 | _ => 1 end.

Definition hunk_line (h : hunk) : jstr :=
  js "@@ -" ++ dec (hk_old h) ++ js "," ++ dec (zsum on_old (hk_edits h)) ++ js " +" ++ dec (hk_new h)
  ++ js "," ++ dec (zsum on_new (hk_edits h)) ++ js " @@" ++ hk_heading h.

Definition hunk_text (h : hunk) : list jstr := hunk_line h :: map edit_line (hk_edits h).

Definition change_text (c : change) : list jstr :=
  (js "diff --git a/" ++ ch_path c ++ js " b/" ++ ch_path c) :: (js "--- a/" ++ ch_path c) :: (js "+++ b/" ++ ch_path c)
  :: flat_map hunk_text (ch_hunks c).

Definition print_diff (cs : list change) : jstr := join [NL] (flat_map change_text cs).

(** ** What a reader expects *)

(** A line of a file without its id. *)
Record row := { rw_kind : DiffLineKind; rw_raw : jstr; rw_content : jstr; rw_old : option Z; rw_new : option Z }.

(** The lines of a hunk: each has the number of the lines before it on its sides. *)
Fixpoint numbered (old new : Z) (es : list edit) : list row :=
  match es with
  | [] => []
  | e :: es =>
      match e with
      | Keep s => {| rw_kind := Context; rw_raw := edit_line e; rw_content := s; rw_old := Some old; rw_new := Some new |}
      | Del s => {| rw_kind := Remove; rw_raw := edit_line e; rw_content := s; rw_old := Some old; rw_new := None |}
      | Ins s => {| rw_kind := Add; rw_raw := edit_line e; rw_content := s; rw_old := None; rw_new := Some new |}
      end :: numbered (old + on_old e) (new + on_new e) es
  end.

Definition hunk_rows (h : hunk) : list row :=
  {| rw_kind := Hunk; rw_raw := hunk_line h; rw_content := hunk_line h; rw_old := None; rw_new := None |}
  :: numbered (hk_old h) (hk_new h) (hk_edits h).

Definition row_line (id : jstr) (k : nat) (r : row) : DiffLine :=
  {| dl_id := id ++ js ":" ++ dec (Z.of_nat k); dl_kind := rw_kind r; dl_raw := rw_raw r; dl_content := rw_content r;
     dl_oldLine := rw_old r; dl_newLine := rw_new r; dl_changed := [] |}.

Definition count_kind (k : DiffLineKind) (r : row) : Z := if bool_decide (rw_kind r = k) then 1 else 0.

(** The lines of a file with more rows behind them, counted. *)
Definition add_rows (rows : list row) (f : DiffFile) : DiffFile :=
  with_lines (zsum (count_kind Add) rows) (zsum (count_kind Remove) rows)
    (df_lines f ++ imap (λ i, row_line (df_id f) (length (df_lines f) + i)) rows) f.

Section facts.
Context (toLowerCase : jstr → jstr) (letter_or_number : N → bool).

Definition expected_file (index : nat) (c : change) : DiffFile :=
  annotate_file letter_or_number
    (add_rows (flat_map hunk_rows (ch_hunks c)) (makeFile toLowerCase (ch_path c) (ch_path c) index)).

(** ** What can be printed *)

Definition one_line (s : jstr) : Prop := existsb is_line_end s = false.

(** A removed or added line that does not look like the header of a file. *)
Definition plain_edit (e : edit) : Prop :=
  match e with
  | Keep s => one_line s
  | Del s => one_line s ∧ starts_with (js "--") s = false
  | Ins s => one_line s ∧ starts_with (js "++") s = false
  end.

Definition plain_hunk (h : hunk) : Prop :=
  (0 <= hk_old h)%Z ∧ (0 <= hk_new h)%Z ∧ one_line (hk_heading h) ∧ ∀ e, e ∈ hk_edits h → plain_edit e.

(** A path without [ b/] in it and without quotes around it. *)
Definition plain_path (p : jstr) : Prop :=
  p ≠ [] ∧ one_line p ∧ unquote p = p ∧ ∀ i, starts_with (js " b/") (drop i p) = false.

Definition plain_change (c : change) : Prop :=
  plain_path (ch_path c) ∧ ch_hunks c ≠ [] ∧ ∀ h, h ∈ ch_hunks c → plain_hunk h.

(** ** Adding lines *)

Lemma with_lines_eq a d l f a' d' l' :
  a = a' → d = d' → l = l' → with_lines a d l f = with_lines a' d' l' f.
Proof. by intros -> -> ->. Qed.

Lemma with_lines_twice a d l a' d' l' f :
  with_lines a d l (with_lines a' d' l' f) = with_lines (a' + a) (d' + d) l f.
Proof. unfold with_lines. cbn. by rewrite !Z.add_assoc. Qed.

Lemma add_rows_nil f : add_rows [] f = f.
Proof. unfold add_rows, with_lines. destruct f. cbn. by rewrite !zsum_nil, !Z.add_0_r, app_nil_r. Qed.

Lemma add_rows_app rs rs' f : add_rows (rs ++ rs') f = add_rows rs' (add_rows rs f).
Proof.
  unfold add_rows. rewrite with_lines_twice. apply with_lines_eq; [by rewrite zsum_app..|].
  cbn. rewrite imap_app, <- app_assoc, length_app, length_imap. do 2 f_equal.
  apply imap_ext. intros i r _. unfold compose. f_equal. lia.
Qed.

Lemma push_line_row kind raw content old new f :
  push_line kind raw content old new (if bool_decide (kind = Add) then 1 else 0) (if bool_decide (kind = Remove) then 1 else 0) f =
  add_rows [{| rw_kind := kind; rw_raw := raw; rw_content := content; rw_old := old; rw_new := new |}] f.
Proof.
  unfold push_line, add_rows. apply with_lines_eq; [by rewrite zsum_cons, zsum_nil, Z.add_0_r..|].
  simpl. unfold makeLine, row_line. simpl. by rewrite Nat.add_0_r.
Qed.

(** ** Numbers of a header *)

Lemma dec_nonneg z : (0 <= z)%Z → dec z = digits_of (S (Z.to_nat (Z.log2 z))) z.
Proof. intros Hz. unfold dec. by rewrite (proj2 (Z.ltb_ge _ _)). Qed.

Lemma span_digits_dec z r :
  (0 <= z)%Z → (∀ c, head r = Some c → is_digit c = false) →
  span_digits (dec z ++ r) = (dec z, r) ∧ parse_nonempty 10 (dec z) = Some z.
Proof.
  intros Hz Hr. rewrite dec_nonneg by done. set (n := S _).
  assert (parse_digits 10 0 (digits_of n z) = Some z) as Hp.
  { apply digits_of_parse; [split; [done|by apply digits_fuel]|done]. }
  split.
  - assert (∀ c, c ∈ digits_of n z → is_digit c = true) as Hd by (intros c; by apply digits_of_digits).
    clear Hp. induction (digits_of n z) as [|c s IH]; simpl.
    + destruct r as [|c r]; [done|]. simpl. by rewrite Hr.
    + rewrite Hd by set_solver. rewrite IH by set_solver. done.
  - destruct (digits_of n z) as [|c s] eqn:E; [|done]. unfold n in E. simpl in E.
    apply app_nil in E as [_ ?]. done.
Qed.

Lemma hunk_side_dec z k r :
  (0 <= z)%Z → (0 <= k)%Z → (∀ c, head r = Some c → is_digit c = false) →
  hunk_side (dec z ++ js "," ++ dec k ++ r) = Some (z, r).
Proof.
  intros Hz Hk Hr. unfold hunk_side.
  destruct (span_digits_dec z (js "," ++ dec k ++ r) Hz) as [-> Hp]; [by intros c [= <-]|].
  rewrite Hp. simpl. destruct (span_digits_dec k r Hk Hr) as [-> Hp']. by destruct (dec k).
Qed.

Lemma zsum_edits_nonneg (f : edit → Z) es : (∀ e, (0 <= f e)%Z) → (0 <= zsum f es)%Z.
Proof. intros H. apply zsum_nonneg. auto. Qed.

Lemma strip_app p s : strip p (p ++ s) = Some s.
Proof.
  unfold strip. rewrite (proj2 (starts_with_spec p (p ++ s))) by by exists s. by rewrite drop_app_length.
Qed.

Lemma hunk_header_line h : plain_hunk h → hunk_header (hunk_line h) = Some (hk_old h, hk_new h).
Proof.
  intros (Ho & Hn & Hh & _). unfold hunk_header, hunk_line.
  assert (∀ e, (0 <= on_old e)%Z ∧ (0 <= on_new e)%Z) as Hs by (by intros []).
  rewrite strip_app. cbn [mbind option_bind].
  rewrite hunk_side_dec; [|done|by apply zsum_edits_nonneg; apply Hs|by intros c [= <-]].
  cbn [mbind option_bind]. rewrite strip_app. cbn [mbind option_bind].
  rewrite hunk_side_dec; [|done|by apply zsum_edits_nonneg; apply Hs|by intros c [= <-]].
  cbn [mbind option_bind]. rewrite strip_app. cbn [mbind option_bind]. by rewrite Hh.
Qed.

(** ** The lines of a hunk *)

Abbreviation parse_line := (parse_line toLowerCase).

(** The parser in the middle of a file. *)
Definition reading (done : list DiffFile) (f : DiffFile) (old new : Z) : parser :=
  {| ps_done := done; ps_current := Some f; ps_oldLine := old; ps_newLine := new |}.

Lemma parse_edit done f old new e :
  plain_edit e →
  parse_line (reading done f old new) (edit_line e) =
  reading done (add_rows (numbered old new [e]) f) (old + on_old e) (new + on_new e).
Proof.
  intros He. destruct e as [s|s|s]; cbn [numbered].
  - rewrite <- (push_line_row Context). reflexivity.
  - rewrite <- (push_line_row Remove). destruct He as [_ He].
    unfold DiffModel.parse_line, edit_line, reading. cbn [ps_current].
    change (starts_with DIFF_GIT (45%N :: s)) with false. cbn iota.
    unfold file_line. change (starts_with (js "rename from ") (45%N :: s)) with false.
    change (starts_with (js "rename to ") (45%N :: s)) with false. cbn iota.
    unfold body_line. change (hunk_header (45%N :: s)) with (@None (Z * Z)).
    change (starts_with (js "+") (45%N :: s)) with false.
    change (starts_with (js "-") (45%N :: s)) with true.
    change (starts_with (js "---") (45%N :: s)) with (starts_with (js "--") s). rewrite He.
    cbn. by rewrite Z.add_0_r.
  - rewrite <- (push_line_row Add). destruct He as [_ He].
    unfold DiffModel.parse_line, edit_line, reading. cbn [ps_current].
    change (starts_with DIFF_GIT (43%N :: s)) with false. cbn iota.
    unfold file_line. change (starts_with (js "rename from ") (43%N :: s)) with false.
    change (starts_with (js "rename to ") (43%N :: s)) with false. cbn iota.
    unfold body_line. change (hunk_header (43%N :: s)) with (@None (Z * Z)).
    change (starts_with (js "+") (43%N :: s)) with true.
    change (starts_with (js "+++") (43%N :: s)) with (starts_with (js "++") s). rewrite He.
    cbn. by rewrite Z.add_0_r.
Qed.

Lemma numbered_cons old new e es :
  numbered old new (e :: es) = numbered old new [e] ++ numbered (old + on_old e) (new + on_new e) es.
Proof. by destruct e. Qed.

Lemma parse_edits done f old new es :
  (∀ e, e ∈ es → plain_edit e) →
  fold_left parse_line (map edit_line es) (reading done f old new) =
  reading done (add_rows (numbered old new es) f) (old + zsum on_old es) (new + zsum on_new es).
Proof.
  revert f old new. induction es as [|e es IH]; intros f old new He.
  - simpl. by rewrite add_rows_nil, !zsum_nil, !Z.add_0_r.
  - cbn [map fold_left]. rewrite parse_edit by (apply He; set_solver). rewrite IH by (intros; apply He; set_solver).
    rewrite (numbered_cons old new e es), add_rows_app, !zsum_cons, !Z.add_assoc. done.
Qed.

Lemma hunk_line_at h : ∃ s, hunk_line h = 64%N :: 64%N :: 32%N :: s.
Proof. by eexists. Qed.

Lemma parse_hunk done f old new h :
  plain_hunk h →
  ∃ old' new', fold_left parse_line (hunk_text h) (reading done f old new) = reading done (add_rows (hunk_rows h) f) old' new'.
Proof.
  intros Hh. unfold hunk_text. cbn [fold_left].
  assert (parse_line (reading done f old new) (hunk_line h) =
          reading done (add_rows [{| rw_kind := Hunk; rw_raw := hunk_line h; rw_content := hunk_line h; rw_old := None; rw_new := None |}] f)
            (hk_old h) (hk_new h)) as ->.
  { rewrite <- (push_line_row Hunk). pose proof (hunk_header_line h Hh) as Hhead.
    destruct (hunk_line_at h) as [s E]. unfold DiffModel.parse_line, reading. cbn [ps_current].
    rewrite E in *. change (starts_with DIFF_GIT _) with false. cbn iota.
    unfold file_line. change (starts_with (js "rename from ") _) with false. change (starts_with (js "rename to ") _) with false. cbn iota.
    unfold body_line. rewrite Hhead. reflexivity. }
  rewrite parse_edits by apply Hh. eexists _, _. rewrite <- add_rows_app. reflexivity.
Qed.

Lemma parse_hunks done f old new hs :
  (∀ h, h ∈ hs → plain_hunk h) →
  ∃ old' new', fold_left parse_line (flat_map hunk_text hs) (reading done f old new) =
               reading done (add_rows (flat_map hunk_rows hs) f) old' new'.
Proof.
  revert f old new. induction hs as [|h hs IH]; intros f old new Hh; cbn [flat_map].
  - eexists _, _. simpl. by rewrite add_rows_nil.
  - rewrite fold_left_app. destruct (parse_hunk done f old new h) as (o & n & ->); [apply Hh; set_solver|].
    rewrite add_rows_app. apply IH. intros; apply Hh; set_solver.
Qed.

(** ** Files *)

Lemma existsb_app_false {A} (p : A → bool) l k : existsb p l = false → existsb p k = false → existsb p (l ++ k) = false.
Proof. intros H1 H2. by rewrite existsb_app, H1, H2. Qed.

Lemma find_first_rev_seq (ok : nat → bool) n k :
  (1 <= k <= n)%nat → ok k = true → (∀ i, (k < i <= n)%nat → ok i = false) →
  find_first ok (reverse (List.seq 1 n)) = Some k.
Proof.
  induction n as [|n IH]; intros Hk Hok Hi; [lia|]. rewrite List.seq_S, reverse_app. simpl.
  destruct (decide (k = S n)) as [->|]; [by rewrite Hok|].
  rewrite Hi by lia. apply IH; [lia|done|]. intros; apply Hi; lia.
Qed.

(** The paths of the header: the only place where [ b/] can split it. *)
Lemma diffPaths_header p : plain_path p → diffPaths (js "diff --git a/" ++ p ++ js " b/" ++ p) = (p, p).
Proof.
  intros (Hne & Hl & Hq & Hb). unfold diffPaths, diff_git_groups.
  change (starts_with (js "diff --git a/") (js "diff --git a/" ++ p ++ js " b/" ++ p)) with true. cbn [negb].
  change (drop 13 (js "diff --git a/" ++ p ++ js " b/" ++ p)) with (p ++ js " b/" ++ p).
  rewrite !existsb_app_false by done.
  assert (0 < length p)%nat as Hp by (destruct p; [done|simpl; lia]).
  assert (length (p ++ js " b/" ++ p) = length p + (3 + length p))%nat as El by by rewrite !length_app.
  rewrite El, (find_first_rev_seq _ _ (length p)).
  - cbn [mbind option_bind]. rewrite take_app_length, <- drop_drop, drop_app_length.
    change (drop 3 (js " b/" ++ p)) with p. by rewrite Hq.
  - lia.
  - rewrite drop_app_length. apply andb_true_iff. split; [reflexivity|]. apply Nat.ltb_lt. lia.
  - intros i Hi. apply andb_false_iff. left.
    replace i with (length p + (i - length p))%nat by lia. rewrite <- drop_drop, drop_app_length.
    destruct (i - length p)%nat as [|[|[|k]]] eqn:Ek; [lia|done..|]. apply (Hb k).
Qed.

Lemma parse_change fs c p :
  plain_change c → ps_files p = fs →
  ∃ old' new', fold_left parse_line (change_text c) p =
    reading fs (add_rows (flat_map hunk_rows (ch_hunks c)) (makeFile toLowerCase (ch_path c) (ch_path c) (length fs))) old' new'.
Proof.
  intros (Hp & _ & Hh) <-. unfold change_text. cbn [fold_left].
  assert (parse_line p (js "diff --git a/" ++ ch_path c ++ js " b/" ++ ch_path c) =
          reading (ps_files p) (makeFile toLowerCase (ch_path c) (ch_path c) (length (ps_files p))) (ps_oldLine p) (ps_newLine p)) as ->.
  { unfold DiffModel.parse_line.
    change (starts_with DIFF_GIT (js "diff --git a/" ++ ch_path c ++ js " b/" ++ ch_path c)) with true. cbn iota.
    by rewrite diffPaths_header. }
  set (f := makeFile _ _ _ _).
  assert (∀ o n, parse_line (reading (ps_files p) f o n) (js "--- a/" ++ ch_path c) = reading (ps_files p) f o n) as -> by done.
  assert (∀ o n, parse_line (reading (ps_files p) f o n) (js "+++ b/" ++ ch_path c) = reading (ps_files p) f o n) as -> by done.
  by apply parse_hunks.
Qed.

Definition raw_file (index : nat) (c : change) : DiffFile :=
  add_rows (flat_map hunk_rows (ch_hunks c)) (makeFile toLowerCase (ch_path c) (ch_path c) index).

Lemma ps_files_reading fs f o n : ps_files (reading fs f o n) = fs ++ [f].
Proof. done. Qed.

Lemma parse_changes cs p :
  (∀ c, c ∈ cs → plain_change c) →
  ps_files (fold_left parse_line (flat_map change_text cs) p) =
  ps_files p ++ imap (λ i, raw_file (length (ps_files p) + i)) cs.
Proof.
  revert p. induction cs as [|c cs IH]; intros p Hc; [by rewrite app_nil_r|]. cbn [flat_map].
  rewrite fold_left_app. destruct (parse_change (ps_files p) c p) as (o & n & ->); [apply Hc; set_solver|done|].
  rewrite IH by (intros; apply Hc; set_solver). rewrite ps_files_reading, <- app_assoc. cbn [imap app].
  rewrite Nat.add_0_r. do 2 f_equal. apply imap_ext. intros i x _.
  unfold compose. rewrite length_app. cbn [length]. f_equal. lia.
Qed.

(** ** The text of a diff *)

Lemma unix_text_id s : CR ∉ s → unix_lines s = s.
Proof.
  induction s as [|c s IH]; intros H; [done|]. destruct s as [|d s]; [done|].
  change (unix_lines (c :: d :: s)) with (if (c =? CR)%N && (d =? NL)%N then NL :: unix_lines s else c :: unix_lines (d :: s)).
  destruct (N.eqb_spec c CR) as [->|]; [set_solver|]. cbn [andb]. rewrite IH; set_solver.
Qed.

Lemma one_line_elem s c : one_line s → c ∈ s → is_line_end c = false.
Proof.
  intros H Hc. unfold one_line in H. apply not_true_iff_false. intros Hl.
  rewrite (proj2 (existsb_exists is_line_end s)) in H; [done|]. exists c. by rewrite <- list_elem_of_In.
Qed.

Lemma one_line_dec z : (0 <= z)%Z → one_line (dec z).
Proof.
  intros Hz. unfold one_line. apply not_true_iff_false. intros (c & Hc%list_elem_of_In & Hl)%existsb_exists.
  rewrite dec_nonneg in Hc by done. apply digits_of_digits in Hc; [|done].
  apply andb_true_iff in Hc as [H1%N.leb_le H2%N.leb_le]. unfold is_line_end in Hl.
  rewrite !orb_true_iff, !N.eqb_eq in Hl. lia.
Qed.

Lemma one_line_app s t : one_line s → one_line t → one_line (s ++ t).
Proof. apply existsb_app_false. Qed.

Lemma hunk_one_line h l : plain_hunk h → l ∈ hunk_text h → one_line l.
Proof.
  intros (Ho & Hn & Hh & He) [->|(e & -> & Hin)%list_elem_of_fmap]%elem_of_cons.
  - assert (∀ e, (0 <= on_old e)%Z ∧ (0 <= on_new e)%Z) as Hs by (by intros []). unfold hunk_line.
    repeat apply one_line_app; try done; apply one_line_dec; try done; apply zsum_edits_nonneg; apply Hs.
  - specialize (He e Hin). destruct e; simpl in *; [|destruct He as [He _]..]; exact He.
Qed.

Lemma change_one_line c l : plain_change c → l ∈ change_text c → one_line l.
Proof.
  intros ((_ & Hp & _) & _ & Hh) [->|[->|[->|Hl]%elem_of_cons]%elem_of_cons]%elem_of_cons.
  1-3: by repeat apply one_line_app.
  apply list_elem_of_In, in_flat_map in Hl as (h & Hin%list_elem_of_In & Hl%list_elem_of_In).
  apply (hunk_one_line h); [by apply Hh|done].
Qed.

Lemma diff_one_line cs l : (∀ c, c ∈ cs → plain_change c) → l ∈ flat_map change_text cs → one_line l.
Proof.
  intros Hc (c & Hin%list_elem_of_In & Hl%list_elem_of_In)%list_elem_of_In%in_flat_map.
  by apply (change_one_line c); [apply Hc|].
Qed.

Lemma elem_of_join sep (ls : list jstr) c : c ∈ join sep ls → c ∈ sep ∨ ∃ l, l ∈ ls ∧ c ∈ l.
Proof.
  induction ls as [|l ls IH]; [by intros ?%elem_of_nil|]. destruct ls as [|l' ls].
  - intros H. right. exists l. set_solver.
  - rewrite join_cons by done. intros [H|[H|H]%elem_of_app]%elem_of_app; [right; exists l; set_solver|by left|].
    destruct (IH H) as [|(k & ? & ?)]; [by left|]. right. exists k. set_solver.
Qed.

Lemma filter_keeps {A} (P : A → Prop) `{∀ x, Decision (P x)} (l : list A) : (∀ x, x ∈ l → P x) → filter P l = l.
Proof.
  induction l as [|x l IH]; intros Hl; [done|].
  rewrite filter_cons_True by (apply Hl; set_solver). rewrite IH; [done|]. intros; apply Hl; set_solver.
Qed.

(** Annotation touches nothing but [changed], and that only in pairs of a removed
    and an added line. *)
Definition same_line (l l' : DiffLine) : Prop := with_changed [] l = with_changed [] l'.

Lemma span_kind_app k ls : ls = (span_kind k ls).1 ++ (span_kind k ls).2.
Proof.
  induction ls as [|l ls IH]; simpl; [done|]. case_bool_decide; [|done].
  destruct (span_kind k ls) as [a b]. simpl in *. by f_equal.
Qed.

Lemma annotate_block_same removed added :
  Forall2 same_line removed (annotate_block letter_or_number removed added).1 ∧
  Forall2 same_line added (annotate_block letter_or_number removed added).2.
Proof.
  assert (∀ ls, Forall2 same_line ls ls) as Hrefl by (intros ls; induction ls; by constructor).
  revert added. induction removed as [|r rs IH]; intros added; simpl; [done|].
  destruct added as [|a az]; [done|]. simpl. destruct (IH az) as [H1 H2].
  destruct (annotate_block letter_or_number rs az) as [rs' az']. simpl in *. by split; constructor.
Qed.

Lemma annotate_from_same fuel ls :
  Forall2 same_line ls (annotate_from letter_or_number fuel ls).
Proof.
  assert (∀ ls, Forall2 same_line ls ls) as Hrefl by (intros l0; induction l0; by constructor).
  revert ls. induction fuel as [|fuel IH]; intros ls; [apply Hrefl|]. destruct ls as [|l rest]; [apply Hrefl|].
  cbn [annotate_from]. destruct (negb _); [by constructor|].
  pose proof (span_kind_app Remove (l :: rest)) as E1. destruct (span_kind Remove (l :: rest)) as [removed rest1].
  pose proof (span_kind_app Add rest1) as E2. destruct (span_kind Add rest1) as [added rest2]. simpl in E1, E2.
  rewrite E1, E2. destruct (annotate_block_same removed added) as [H1 H2].
  destruct (annotate_block letter_or_number removed added) as [removed' added'].
  by repeat apply Forall2_app.
Qed.

(** A file with hunks has lines. *)
Lemma annotated_lines i c : ch_hunks c ≠ [] → df_lines (annotate_file letter_or_number (raw_file i c)) ≠ [].
Proof.
  intros Hne E. apply (f_equal length) in E. cbn in E. unfold annotateWordChanges in E.
  rewrite <- (Forall2_length _ _ _ (annotate_from_same _ _)) in E. cbn in E. rewrite length_imap in E.
  by destruct (ch_hunks c).
Qed.

(** C27: A printed diff is parsed back: for every list of changes whose paths do
    not contain [ b/] and whose removed and added lines do not look like a header
    of a file, the parser gives one file per change, in order, with every line of
    every hunk under the number it has on the old and on the new side, and with
    the counts of added and removed lines. *)
Theorem parseUnifiedDiff_printed cs :
  (∀ c, c ∈ cs → plain_change c) →
  parseUnifiedDiff toLowerCase letter_or_number (print_diff cs) = imap expected_file cs.
Proof.
  intros Hc. unfold parseUnifiedDiff, print_diff. rewrite unix_text_id; cycle 1.
  { intros [Hin%list_elem_of_singleton|(l & Hl & Hin)]%elem_of_join; [done|].
    pose proof (one_line_elem l _ (diff_one_line cs l Hc Hl) Hin) as H. done. }
  assert (ps_files (fold_left parse_line (split_on NL (join [NL] (flat_map change_text cs))) parser_start)
          = imap raw_file cs) as ->.
  { destruct cs as [|c cs]; [done|]. rewrite split_join; [by rewrite parse_changes|done|].
    intros l Hl Hin. pose proof (one_line_elem l _ (diff_one_line _ l Hc Hl) Hin) as H. done. }
  change (map (annotate_file letter_or_number) (imap raw_file cs)) with (annotate_file letter_or_number <$> imap raw_file cs).
  rewrite fmap_imap. apply filter_keeps. intros f Hf. left.
  apply list_elem_of_lookup in Hf as [i Hi]. rewrite list_lookup_imap in Hi.
  destruct (cs !! i) as [c|] eqn:Ei; [|done]. injection Hi as <-.
  destruct (Hc c) as (_ & Hne & _); [by eapply list_elem_of_lookup_2|]. by apply annotated_lines.
Qed.
End facts.

(** ** A printed diff *)

Module DiffDemo.

Definition path : jstr := js "src/a.ts".

Definition demo : change := {|
  ch_path := path;
  ch_hunks := [{| hk_old := 4; hk_new := 4; hk_heading := js " main";
                  hk_edits := [Keep (js "const a = 1;"); Del (js "const b = a;"); Ins (js "const b = 2;"); Ins (js "const c = b;"); Keep []] |}];
|}.

(** ASCII. *)
Definition lower (s : jstr) : jstr := map (λ c, if (65 <=? c)%N && (c <=? 90)%N then (c + 32)%N else c) s.
Definition ascii_word (c : N) : bool := is_digit c || ((97 <=? c) && (c <=? 122))%N || ((65 <=? c) && (c <=? 90))%N.

Lemma demo_plain : plain_change demo.
Proof.
  split_and!; [split_and!; [done..|]|done|].
  - intros i. do 9 (destruct i; [done|]). done.
  - intros h ->%list_elem_of_singleton. split_and!; [done..|]. intros e He.
    repeat (apply elem_of_cons in He as [->|He]; [done|]). by apply elem_of_nil in He.
Qed.

(** The numbers of the lines, and what is marked in the changed ones. *)
Definition shown : list (DiffLineKind * option Z * option Z * list jstr) :=
  map (λ l, (dl_kind l, dl_oldLine l, dl_newLine l, map (λ r, slice (rg_start r) (rg_end r) (dl_content l)) (dl_changed l)))
    (df_lines (expected_file lower ascii_word 0 demo)).

Example demo_lines : shown = [
  (Hunk, None, None, []); (Context, Some 4%Z, Some 4%Z, []); (Remove, Some 5%Z, None, [js "a"]);
  (Add, None, Some 5%Z, [js "2"]); (Add, None, Some 6%Z, []); (Context, Some 6%Z, Some 7%Z, [])].
Proof. by vm_compute. Qed.

(** A removed line that starts with two dashes is taken for the header of a file:
    it is not shown, not counted, and the lines behind it get wrong numbers. *)
Definition sql_diff : jstr := join [NL] (map js ["diff --git a/q.sql b/q.sql"; "@@ -7,3 +7,2 @@"; " select 1;"; "--- total"; "-select 2;"]%string).

Example removed_comment_lost :
  map (λ f, (df_deletions f, map (λ l, (dl_kind l, dl_oldLine l)) (df_lines f))) (parseUnifiedDiff lower ascii_word sql_diff) =
  [(1%Z, [(Hunk, None); (Context, Some 7%Z); (Remove, Some 8%Z)])].
Proof. by vm_compute. Qed.

(** A directory whose name ends in [ b] splits the header in the wrong place. *)
Example ambiguous_header :
  diffPaths (js "diff --git a/x b/y b/x b/y") = (js "x b/y b/x", js "y").
Proof. by vm_compute. Qed.

(** A file called [constructor] has a function for its language. *)
Example inherited_language : languageForPath lower (js "lib/util.constructor") = Inherited (js "constructor").
Proof. by vm_compute. Qed.

End DiffDemo.

Lemma parseUnifiedDiff_printed_witness :
  (∀ c, c ∈ [DiffDemo.demo] → plain_change c) ∧
  parseUnifiedDiff DiffDemo.lower DiffDemo.ascii_word (print_diff [DiffDemo.demo]) =
  [expected_file DiffDemo.lower DiffDemo.ascii_word 0 DiffDemo.demo].
Proof.
  assert (∀ c, c ∈ [DiffDemo.demo] → plain_change c) as Hc.
  { intros c ->%list_elem_of_singleton. exact DiffDemo.demo_plain. }
  split; [exact Hc|]. exact (parseUnifiedDiff_printed DiffDemo.lower DiffDemo.ascii_word [DiffDemo.demo] Hc).
Defined.

(** ** Anchors and rows *)

Lemma hash_digits_length fuel n : (length (hex_digits fuel n) <= fuel)%nat.
Proof.
  revert n. induction fuel as [|fuel IH]; intros n; simpl; [done|]. rewrite length_app. simpl.
  destruct (_ <? _)%N; simpl; [lia|]. specialize (IH (n / 16)%N). lia.
Qed.

(** A hash has eight digits. *)
Lemma shortHash_length s : length (shortHash s) = 8%nat.
Proof.
  unfold shortHash, padStart. rewrite length_app, length_replicate.
  pose proof (hash_digits_length 8 (Z.to_N (fnv s))). lia.
Qed.

(** The anchor of a line is on the new side unless the line was removed. *)
Lemma diffLineAnchor_parsed file o n e r :
  r ∈ numbered o n [e] →
  ∃ a, diffLineAnchor file (row_line (df_id file) 0 r) = Some a ∧
    an_side a = match e with Del _ => Old | _ => New end ∧
    an_line a = match e with Del _ => o | _ => n end.
Proof. by destruct e; intros ->%list_elem_of_singleton; eexists. Qed.

(** Every row that is in view is drawn, and the heights add up to those of all
    rows. *)
Lemma virtualRange_covers total scrollTop viewportHeight rowHeight overscan :
  (0 < rowHeight)%Z → (0 <= overscan)%Z → (0 <= scrollTop)%Z → (0 <= viewportHeight)%Z →
  (scrollTop <= total * rowHeight)%Z →
  let v := virtualRange total scrollTop viewportHeight rowHeight overscan in
  (∀ r, (0 <= r < total)%Z → (scrollTop < (r + 1) * rowHeight)%Z → (r * rowHeight < scrollTop + viewportHeight)%Z →
        (vr_start v <= r < vr_end v)%Z) ∧
  (vr_offsetTop v + (vr_end v - vr_start v) * rowHeight + vr_offsetBottom v = total * rowHeight)%Z.
Proof.
  intros Hh Ho Hs Hv Ht v. unfold v, virtualRange. cbn [vr_start vr_end vr_offsetTop vr_offsetBottom].
  pose proof (Z.div_mod scrollTop rowHeight ltac:(lia)). pose proof (Z.mod_pos_bound scrollTop rowHeight Hh).
  pose proof (Z.div_mod (- (scrollTop + viewportHeight)) rowHeight ltac:(lia)).
  pose proof (Z.mod_pos_bound (- (scrollTop + viewportHeight)) rowHeight Hh).
  set (a := (scrollTop / rowHeight)%Z) in *. set (b := (- (scrollTop + viewportHeight) / rowHeight)%Z) in *.
  split; [intros r Hr Hlo Hhi; assert (a <= r)%Z by nia; assert (r < - b)%Z by nia; lia|].
  rewrite (Z.max_r 0 ((total - _) * rowHeight)) by nia. nia.
Qed.
