(* ===== verification/ProviderErrors.v ===== *)
(** * Provider failures

    packages/shared/src/provider-errors.ts: what a thrown value says about a
    failed provider request, and whether the request is worth a retry. A thrown
    value is anything; objects live in a heap, since their chain of causes may be
    a cycle. Unicode case mappings are arguments. *)

From S2P Require Import Prelude JsMap JsString RegExp.
From Stdlib Require Import Lia.

Set Default Goal Selector "!".

(** ** Thrown values *)

(** Numbers as far as they are looked at: a fraction is any finite one. *)
Inductive jnum := JInt (z : Z) | JFraction | JNaN | JInfinity.
#[export] Instance jnum_eq_dec : EqDecision jnum.
Proof. solve_decision. Defined.

(** A value; [Other] is a function or another value without properties here. *)
Inductive thrown := Undefined | Null | Bool (b : bool) | Num (n : jnum) | Str (s : jstr) | Ref (r : nat) | Other.
#[export] Instance thrown_eq_dec : EqDecision thrown.
Proof. solve_decision. Defined.

(** What reading a property gives, own or inherited, and the classes the code
    asks for. *)
Record object := {
  ob_properties : list (jstr * thrown);
  ob_array : bool;
  ob_error : bool;
  ob_argumentError : bool;
}.

Abbreviation heap := (gmap nat object).

Definition truthy_value (v : thrown) : bool :=
  match v with
  | Undefined | Null => false
  | Bool b => b
  | Num n => match n with JInt z => negb (z =? 0)%Z | JNaN => false | _ => true end
  | Str s => truthy s
  | Ref _ | Other => true
  end.

(** ** Statuses *)

Inductive ProviderFailureCategory :=
  Success | Aborted | Connection | PermanentClient | RateLimit | Server | Timeout | UnknownFailure.
#[export] Instance ProviderFailureCategory_eq_dec : EqDecision ProviderFailureCategory.
Proof. solve_decision. Defined.

Inductive ProviderAttemptStatusClass := S2xx | S3xx | S4xx | S5xx | SNetwork | SUnknown.

Record ProviderRetryClassification := {
  retryable : bool; category : ProviderFailureCategory; status : option Z; code : option jstr; requestId : option jstr;
}.

Definition TIMEOUT_CODES : list jstr := map js
  ["ETIMEDOUT"; "ESOCKETTIMEDOUT"; "UND_ERR_CONNECT_TIMEOUT"; "UND_ERR_HEADERS_TIMEOUT"; "UND_ERR_BODY_TIMEOUT"]%string.
Definition CONNECTION_CODES : list jstr := map js
  ["ECONNABORTED"; "ECONNREFUSED"; "ECONNRESET"; "EHOSTDOWN"; "EHOSTUNREACH"; "EPIPE"; "ENETDOWN"; "ENETRESET";
   "ENETUNREACH"; "EAI_AGAIN"; "UND_ERR_SOCKET"]%string.

Definition isRetryableProviderStatus (status : option Z) : bool :=
  match status with
  | None => true
  | Some s => if (s =? 408) || (s =? 425) || (s =? 429) then true
              else if 500 <=? s then true else s <? 400
  end%Z.

(** The rules of the classification, in their order. *)
Definition verdict (status : option Z) (isAbort isTimeout isConnection isRateLimit : bool) : bool * ProviderFailureCategory :=
  if isAbort && negb isTimeout then (false, Aborted)
  else if bool_decide (status = Some 408%Z) || bool_decide (status = Some 425%Z) then (true, Timeout)
  else if bool_decide (status = Some 429%Z) then (true, RateLimit)
  else if match status with Some s => (500 <=? s)%Z | None => false end then (true, Server)
  else if match status with Some _ => negb (isRetryableProviderStatus status) | None => false end
  then (false, PermanentClient)
  else if isTimeout then (true, Timeout)
  else if isConnection then (true, Connection)
  else if isRateLimit then (true, RateLimit)
  else (true, UnknownFailure).

Definition validStatus (n : option jnum) : option Z :=
  match n with
  | Some (JInt z) => if (100 <=? z)%Z && (z <=? 599)%Z then Some z else None
  | _ => None
  end.

Definition safeDiagnosticValue (value : option jstr) (maxLength : nat) : option jstr :=
  match trim <$> value with
  | Some normalized => if truthy normalized then Some (take maxLength normalized) else None
  | None => None
  end.

(** [s.includes(t)] *)
Fixpoint includes (t s : jstr) : bool :=
  starts_with t s || match s with [] => false | _ :: s => includes t s end.

(** ** The chain of causes *)

Section heap.
Context (toLowerCase toUpperCase : jstr → jstr) (objects : heap).

Definition objectProperty (v : thrown) (key : jstr) : thrown :=
  match v with
  | Ref r => match objects !! r with Some o => default Undefined (map_get key (ob_properties o)) | None => Undefined end
  | _ => Undefined
  end.

Definition stringProperty (v : thrown) (key : jstr) : option jstr :=
  match objectProperty v key with Str s => if truthy (trim s) then Some s else None | _ => None end.

Definition numberProperty (v : thrown) (key : jstr) : option jnum :=
  match objectProperty v key with
  | Num n => match n with JInt _ | JFraction => Some n | _ => None end
  | _ => None
  end.

Definition CAUSE : jstr := js "cause".

(** The loop, for the values seen and the rounds left. *)
Fixpoint chain_from (rounds : nat) (seen : list thrown) (current : thrown) : list thrown :=
  match rounds with
  | O => []
  | S rounds =>
      if truthy_value current && negb (bool_decide (current ∈ seen))
      then current :: chain_from rounds (current :: seen) (objectProperty current CAUSE)
      else []
  end.

Definition errorChain (error : thrown) : list thrown := chain_from 8 [] error.

Definition firstStatus (chain : list thrown) : option Z :=
  first_some (λ candidate, validStatus (match numberProperty candidate (js "status") with
                                        | Some n => Some n
                                        | None => numberProperty candidate (js "statusCode")
                                        end)) chain.

Definition firstCode (chain : list thrown) : option jstr :=
  (λ v, take 128 (toUpperCase (trim v))) <$> first_some (λ candidate, stringProperty candidate (js "code")) chain.

Definition firstRequestId (chain : list thrown) : option jstr :=
  (λ v, take 240 (trim v)) <$> first_some (λ candidate, match stringProperty candidate (js "requestId") with
                                                        | Some s => Some s
                                                        | None => stringProperty candidate (js "request_id")
                                                        end) chain.

Definition isTimeoutMessage (v : option jstr) : bool :=
  match v with Some s => truthy s && re_test (js "\b(?:timed? out|timeout)\b") s | None => false end.

Definition isConnectionMessage (v : option jstr) : bool :=
  match v with
  | Some s => truthy s && re_test (js "(?:fetch failed|socket hang up|connection (?:closed|refused|reset)|network error)") s
  | None => false
  end.

(** ** Classification *)

Definition classifyProviderFailure (error : thrown) : ProviderRetryClassification :=
  let chain := errorChain error in
  let status := firstStatus chain in
  let code := firstCode chain in
  let requestId := firstRequestId chain in
  let names := map (λ candidate, toLowerCase <$> stringProperty candidate (js "name")) chain in
  let messages := map (λ candidate, toLowerCase <$> stringProperty candidate (js "message")) chain in
  let isTimeout := bool_decide (Some (js "timeouterror") ∈ names)
                   || bool_decide (nullish code [] ∈ TIMEOUT_CODES)
                   || existsb isTimeoutMessage messages in
  let isAbort := bool_decide (Some (js "aborterror") ∈ names)
                 || bool_decide (code = Some (js "ABORT_ERR")) || bool_decide (code = Some (js "UND_ERR_ABORTED")) in
  let isConnection := bool_decide (nullish code [] ∈ CONNECTION_CODES) || existsb isConnectionMessage messages in
  let isRateLimit := match code with Some c => includes (js "RATE_LIMIT") c | None => false end in
  let '(retryable, category) := verdict status isAbort isTimeout isConnection isRateLimit in
  {| retryable := retryable; category := category; status := status; code := code; requestId := requestId |}.

Definition isRetryableProviderFailure (error : thrown) : bool := retryable (classifyProviderFailure error).

Definition providerAttemptStatusClass (status : option Z) (error : thrown) : ProviderAttemptStatusClass :=
  let by_error :=
    if bool_decide (error = Undefined) then SUnknown
    else match category (classifyProviderFailure error) with Connection | Timeout => SNetwork | _ => SUnknown end in
  match status with
  | Some s =>
      if (200 <=? s)%Z && (s <? 300)%Z then S2xx
      else if (300 <=? s)%Z && (s <? 400)%Z then S3xx
      else if (400 <=? s)%Z && (s <? 500)%Z then S4xx
      else if (500 <=? s)%Z && (s <? 600)%Z then S5xx
      else by_error
  | None => by_error
  end.

(** ** Theorems *)

Lemma chain_from_seen rounds seen current v :
  v ∈ chain_from rounds seen current → v ∉ seen ∧ truthy_value v = true.
Proof.
  revert seen current. induction rounds as [|n IH]; intros seen current; simpl; [by intros ?%elem_of_nil|].
  destruct (truthy_value current) eqn:Et; simpl; [|by intros ?%elem_of_nil].
  case_bool_decide as Hs; simpl; [by intros ?%elem_of_nil|].
  intros [->|H%IH]%elem_of_cons; [done|]. set_solver.
Qed.

Lemma chain_from_NoDup rounds seen current : NoDup (chain_from rounds seen current).
Proof.
  revert seen current. induction rounds as [|n IH]; intros seen current; simpl; [constructor|].
  destruct (_ && _); constructor; [|apply IH]. intros [H _]%chain_from_seen. set_solver.
Qed.

Lemma chain_from_length rounds seen current : (length (chain_from rounds seen current) <= rounds)%nat.
Proof.
  revert seen current. induction rounds as [|n IH]; intros seen current; simpl; [lia|].
  destruct (_ && _); simpl; [|lia]. specialize (IH (current :: seen) (objectProperty current CAUSE)). lia.
Qed.

(** The chain of causes of a value, cyclic or not: at most eight values, none
    twice. *)
Lemma errorChain_bounded error : (length (errorChain error) <= 8)%nat ∧ NoDup (errorChain error).
Proof. split; [apply chain_from_length|apply chain_from_NoDup]. Qed.

Lemma validStatus_Some n s : validStatus n = Some s → n = Some (JInt s) ∧ (100 <= s <= 599)%Z.
Proof.
  destruct n as [[z| | |]|]; simpl; try done. destruct (_ && _) eqn:E; [|done]. intros [= <-].
  apply andb_true_iff in E as [?%Z.leb_le ?%Z.leb_le]. split; [done|lia].
Qed.

(** Statuses are those of HTTP. *)
Lemma firstStatus_valid chain s : firstStatus chain = Some s → (100 <= s <= 599)%Z.
Proof. unfold firstStatus. intros H. apply first_some_Some in H as (v & _ & H). apply validStatus_Some in H as [_ H]. exact H. Qed.

Lemma isRetryableProviderStatus_spec s :
  isRetryableProviderStatus (Some s) = true ↔ s = 408%Z ∨ s = 425%Z ∨ s = 429%Z ∨ (500 <= s)%Z ∨ (s < 400)%Z.
Proof.
  unfold isRetryableProviderStatus.
  destruct (Z.eqb_spec s 408), (Z.eqb_spec s 425), (Z.eqb_spec s 429), (Z.leb_spec 500 s), (Z.ltb_spec s 400);
    cbn; split; (lia || done).
Qed.

#[local] Arguments isRetryableProviderStatus : simpl never.

(** A branch, by its result. *)
#[local] Ltac verdict_leaf :=
  split; [split; [intros; first [discriminate|by left|by right]|intros [?|?]; first [discriminate|reflexivity]]|];
  split; [intros; first [reflexivity|congruence]|];
  split; [intros; first [discriminate|by split]|intros [? ?]; first [reflexivity|congruence]].

Lemma verdict_policy st isAbort isTimeout isConnection isRateLimit :
  let v := verdict st isAbort isTimeout isConnection isRateLimit in
  (v.1 = false ↔ v.2 = Aborted ∨ v.2 = PermanentClient) ∧
  (v.2 ≠ Aborted → v.1 = isRetryableProviderStatus st) ∧
  (v.2 = PermanentClient ↔ v.2 ≠ Aborted ∧ isRetryableProviderStatus st = false).
Proof.
  unfold verdict. destruct (isAbort && negb isTimeout); [cbn; verdict_leaf|].
  destruct st as [s|]; cycle 1.
  { rewrite !bool_decide_false by done. change (isRetryableProviderStatus None) with true.
    destruct isTimeout, isConnection, isRateLimit; cbn; verdict_leaf. }
  destruct (bool_decide (Some s = Some 408%Z) || bool_decide (Some s = Some 425%Z)) eqn:E1.
  { assert (isRetryableProviderStatus (Some s) = true) as ->; [|cbn; verdict_leaf].
    apply isRetryableProviderStatus_spec. apply orb_true_iff in E1 as [[= ->]%bool_decide_eq_true|[= ->]%bool_decide_eq_true]; auto. }
  destruct (bool_decide (Some s = Some 429%Z)) eqn:E2.
  { apply bool_decide_eq_true in E2 as [= ->]. change (isRetryableProviderStatus (Some 429%Z)) with true. cbn. verdict_leaf. }
  destruct (Z.leb_spec 500 s).
  { assert (isRetryableProviderStatus (Some s) = true) as ->; [|cbn; verdict_leaf]. apply isRetryableProviderStatus_spec. auto. }
  destruct (isRetryableProviderStatus (Some s)); cbn; [|verdict_leaf].
  destruct isTimeout, isConnection, isRateLimit; cbn; verdict_leaf.
Qed.

(** There is one retry policy: a failure is given up exactly when the request
    was aborted, or when its status is one of the client's - 4xx but 408, 425 and
    429, which are transient - ; otherwise, a status alone decides as
    [isRetryableProviderStatus] does. Statuses are those of HTTP. *)
Theorem classifyProviderFailure_policy error :
  let c := classifyProviderFailure error in
  (retryable c = false ↔ category c = Aborted ∨ category c = PermanentClient) ∧
  (category c ≠ Aborted → retryable c = isRetryableProviderStatus (status c)) ∧
  (category c = PermanentClient ↔
     category c ≠ Aborted ∧ ∃ s, status c = Some s ∧ (400 <= s < 500)%Z ∧ s ≠ 408%Z ∧ s ≠ 425%Z ∧ s ≠ 429%Z) ∧
  (∀ s, status c = Some s → (100 <= s <= 599)%Z).
Proof.
  intros c. unfold c, classifyProviderFailure.
  pose proof (firstStatus_valid (errorChain error)) as Hv.
  set (st := firstStatus (errorChain error)) in *. clearbody st.
  match goal with |- context [verdict ?a ?b ?c ?d ?e] =>
    pose proof (verdict_policy a b c d e) as (H1 & H2 & H3); destruct (verdict a b c d e) as [r cat] end.
  cbn in *. split; [exact H1|]. split; [exact H2|]. split; [|exact Hv].
  rewrite H3. split; intros [Ha Hs]; (split; [done|]).
  - destruct st as [s|]; [|discriminate Hs]. exists s. split; [done|].
    pose proof (isRetryableProviderStatus_spec s) as Hr. rewrite Hs in Hr.
    destruct (decide (s = 408%Z ∨ s = 425%Z ∨ s = 429%Z ∨ (500 <= s)%Z ∨ (s < 400)%Z)) as [H|H]; [|lia].
    discriminate (proj2 Hr H).
  - destruct Hs as (s & -> & Hs). apply not_true_iff_false. rewrite isRetryableProviderStatus_spec. lia.
Qed.
End heap.
