(* ===== verification/ToolFailures.v ===== *)
(** * Classes of tool failures

    apps/worker/src/tool-failures.ts: why a tool call failed, whether the same call
    would fail again, and whether a call that changes something may have taken
    effect. The regular expressions run in the model of RegExp; those with the [i]
    flag are in lower case and test the text with its ASCII letters in lower case. *)

From S2P Require Import Prelude JsMap JsString Json RegExp ExecPolicy ProviderErrors.
From Stdlib Require Import Lia.

Set Default Goal Selector "!".

Inductive ToolFailureCategory :=
| InvalidInput | MissingResource | Configuration | Credentials | CreditExhausted | Transient | UnknownOutcome | UnknownClass.
#[export] Instance ToolFailureCategory_eq_dec : EqDecision ToolFailureCategory.
Proof. solve_decision. Defined.

Inductive Outcome := NotApplied | OutcomeUnknown.
#[export] Instance Outcome_eq_dec : EqDecision Outcome.
Proof. solve_decision. Defined.

Definition category_text (c : ToolFailureCategory) : jstr :=
  match c with
  | InvalidInput => js "invalid_input" | MissingResource => js "missing_resource"
  | Configuration => js "configuration" | Credentials => js "credentials"
  | CreditExhausted => js "credit_exhausted" | Transient => js "transient"
  | UnknownOutcome => js "unknown_outcome" | UnknownClass => js "unknown"
  end.

Definition outcome_text (o : Outcome) : jstr :=
  match o with NotApplied => js "not_applied" | OutcomeUnknown => js "unknown" end.

(** The category is its text; an action is [None] where the table of actions has
    only a member that every object inherits. *)
Record ToolFailure := {
  tf_category : jstr;
  tf_deterministic : bool;
  tf_outcome : Outcome;
  tf_outcomeVersion : option Z;
  tf_status : option Z;
  tf_code : option jstr;
  tf_action : option jstr;
}.

Definition DETERMINISTIC : list ToolFailureCategory :=
  [InvalidInput; MissingResource; Configuration; Credentials; CreditExhausted].

Definition RIGHT_ARROW : jstr := [0x2192%N].

Definition ACTIONS (c : ToolFailureCategory) : jstr :=
  match c with
  | InvalidInput => js "The arguments are not valid for this tool. Correct them before calling again; the same call fails the same way."
  | MissingResource => js "Check the exact path, ID or URL first (list, search or read what exists). If it is right, the source is unavailable: use another source or tell the user. The same call fails the same way."
  | Configuration => js "This needs a configuration or administrator change (admission, connector review, proxy or network settings). Tell the user what is blocked; retrying will not help."
  | Credentials => js "The connection's credentials are invalid or expired. Ask the user to reconnect it in Settings " ++ RIGHT_ARROW ++ js " Connectors; retrying before that will not help."
  | CreditExhausted => js "The provider is out of credit or quota. Tell the user that plainly and that they should contact support or their administrator; retrying will not help."
  | Transient => js "This looks temporary. One retry of the same call is reasonable; if it fails again, use another approach or tell the user."
  | UnknownOutcome => js "This call changes something and failed partway, so it may already have taken effect. Berry does not repeat it automatically; tell the user it may or may not have happened."
  | UnknownClass => js "Read the error, change the approach or the arguments, and do not repeat the same call unchanged."
  end.

Definition toolFailureAction (category : ToolFailureCategory) : jstr := ACTIONS category.

(** ** Patterns *)

Definition ascii_lower (s : jstr) : jstr := map (λ c, if (65 <=? c)%N && (c <=? 90)%N then (c + 32)%N else c) s.

(** [/pattern/i.test(s)] *)
Definition re_test_i (pattern s : jstr) : bool := re_test pattern (ascii_lower s).

(** [[^.\n]{0,n}], written out. *)
Fixpoint up_to (n : nat) : jstr :=
  match n with O => [] | S n => js "(?:[^.\n]" ++ up_to n ++ js ")?" end.

Definition CREDIT_EXHAUSTED_PATTERN : jstr := js "insufficient_quota|billing details|payment required|(?:out of|exhausted|insufficient|no remaining) (?:your )?(?:credits?|quota|balance)|credit (?:balance )?(?:is )?exhausted|quota (?:is )?exceeded".
Definition CREDENTIALS_PATTERN : jstr := js "invalid_token|invalid_grant|token (?:is )?(?:invalid|expired|revoked)|(?:invalid|expired|revoked) (?:access |refresh )?token|has expired; reconnect|reauthenticat|re-authenticat|reconnect it|unauthori[sz]ed|(?:connector|connection|account|google|microsoft|drive|gmail|calendar|workspace|outlook|teams)\b" ++ up_to 40 ++ js "\bnot connected|authentication (?:failed|required)".
Definition CONFIGURATION_PATTERN : jstr := js "not admitted|not enabled for this turn|is unavailable because its definition changed|definition changed (?:after|since) (?:administrator )?review|re-?approv|administrator must|allowlist|not allowed by (?:the )?(?:network|execution) policy|network policy|no proxy provider configured|proxy is not configured|not configured|capability is disabled|tool is disabled".
Definition MISSING_PATTERN : jstr := js "\benoent\b|no such file|\[not_found\]|\bnot found\b|does not exist|\b404\b|no longer exists|challenge_detected|has been deleted|no module named|modulenotfounderror".
Definition INVALID_SPECIFIC_PATTERN : jstr := js "oldtext was not found|was not found in the file|must remain under|paths must contain".
Definition INVALID_PATTERN : jstr := js "\binvalid\b|\bmust\b|\brequired\b|\bexpected\b|\bschema\b|unsupported|not supported|malformed|cannot parse|syntaxerror|was not found in|exceeds|limited to|must remain under|\b(?:400|422)\b".
Definition TRANSIENT_PATTERN : jstr := js "timed out|timeout|econnreset|connection reset|etimedout|socket hang up|temporar(?:y|ily)|try again later|rate limit|too many requests|proxy_unavailable|tunnel|sandbox is probably not running|sandbox was not found|internal server error|service unavailable|bad gateway|\b50[234]\b|\b429\b".
Definition NOT_SENT_CODES : list jstr := map js ["ECONNREFUSED"; "ENOTFOUND"; "EAI_AGAIN"; "EHOSTUNREACH"; "ENETUNREACH"]%string.
Definition RAN_COMMAND_PATTERN : jstr := js "\n\nCommand exited with code (?:\d+|unknown)$".
Definition CHECKED_RESULT_PATTERN : jstr := js "does not match the tool's output schema|has an output schema but did not return structured content|failed to validate structured content".
Definition TOOL_FAILURE_OUTCOME_VERSION : Z := 4.

(** ** Reading the thrown value *)

Section failures.
Context (toLowerCase toUpperCase : jstr → jstr) (objects : heap).

Abbreviation prop := (objectProperty objects).

(** [record(value)]: an object that is no array. *)
Definition record (v : thrown) : option thrown :=
  match v with
  | Ref r => match objects !! r with
             | Some o => if ob_array o then None else Some v
             | None => Some v
             end
  | _ => None
  end.

(** [record(value)?.key] *)
Definition field (v : thrown) (key : jstr) : thrown :=
  match record v with Some v => prop v key | None => Undefined end.

Definition stringValue (v : thrown) : option jstr :=
  match v with Str s => if truthy (trim s) then Some (trim s) else None | _ => None end.

Definition numberValue (v : thrown) : option Z :=
  match v with Num (JInt z) => Some z | _ => None end.

Definition or_else {A} (a b : option A) : option A := match a with Some _ => a | None => b end.

Record details := { dt_status : option Z; dt_code : option jstr; dt_text : option jstr }.

Definition structured_details (structured : thrown) : details :=
  let nested := default structured (record (prop structured (js "error"))) in
  let text := join (js " ") (omap (λ x, x)
                [stringValue (prop nested (js "message")); stringValue (prop nested (js "description"));
                 stringValue (prop structured (js "error_description"))]) in
  {| dt_status := or_else (numberValue (prop nested (js "status")))
                    (or_else (numberValue (prop nested (js "statusCode"))) (numberValue (prop structured (js "status"))));
     dt_code := or_else (stringValue (prop nested (js "code")))
                  (or_else (stringValue (prop structured (js "code"))) (stringValue (prop structured (js "error"))));
     dt_text := if truthy text then Some text else None |}.

(** The loops over a value and its causes, for the rounds left. *)
Fixpoint first_cause {A} (f : thrown → option A) (rounds : nat) (current : thrown) : option A :=
  match rounds with
  | O => None
  | S rounds =>
      if truthy_value current then
        match f current with Some a => Some a | None => first_cause f rounds (field current CAUSE) end
      else None
  end.

Definition structuredFailureDetails (error : thrown) : details :=
  default {| dt_status := None; dt_code := None; dt_text := None |}
    (first_cause (λ current, structured_details <$> record (field current (js "structuredContent"))) 5 error).

Inductive Phase := NotSent | Dispatched | Rejected.
#[export] Instance Phase_eq_dec : EqDecision Phase.
Proof. solve_decision. Defined.

Definition phase_of (v : thrown) : option Phase :=
  if bool_decide (v = Str (js "not_sent")) then Some NotSent
  else if bool_decide (v = Str (js "dispatched")) then Some Dispatched
  else if bool_decide (v = Str (js "rejected")) then Some Rejected
  else None.

Definition toolCallPhase (error : thrown) : option Phase :=
  first_cause (λ current, phase_of (field current (js "toolCallPhase"))) 5 error.

Definition httpStatusCode (error : thrown) : option Z :=
  first_cause (λ current, match field current (js "code") with
                          | Num (JInt z) => if (100 <=? z)%Z && (z <? 600)%Z then Some z else None
                          | _ => None
                          end) 5 error.

(** [error instanceof Error], and a message that is a text. *)
Definition instance_of (f : object → bool) (v : thrown) : bool :=
  match v with Ref r => match objects !! r with Some o => f o | None => false end | _ => false end.

Definition errorText (error : thrown) : jstr :=
  if instance_of ob_error error then match prop error (js "message") with Str s => s | _ => [] end
  else match error with Str s => s | _ => [] end.

(** ** What is known of a failure *)

Definition failure_status (error : thrown) : option Z :=
  or_else (dt_status (structuredFailureDetails error))
    (or_else (status (classifyProviderFailure toLowerCase toUpperCase objects error)) (httpStatusCode error)).

Definition failure_code (error : thrown) : option jstr :=
  or_else (dt_code (structuredFailureDetails error)) (code (classifyProviderFailure toLowerCase toUpperCase objects error)).

Definition failure_message (error : thrown) : jstr :=
  join (js " ") (List.filter truthy
    (errorText error :: default [] (dt_text (structuredFailureDetails error)) :: [default [] (failure_code error)])).

Definition transport_category (error : thrown) : ProviderFailureCategory :=
  category (classifyProviderFailure toLowerCase toUpperCase objects error).

Definition rateLimited (error : thrown) : bool :=
  bool_decide (failure_status error = Some 429%Z) || bool_decide (transport_category error = RateLimit)
  || re_test_i (js "rate_limit") (nullish (failure_code error) []).

Definition ran (error : thrown) : bool := re_test RAN_COMMAND_PATTERN (errorText error).

Definition dispatched (error : thrown) : bool :=
  bool_decide (toolCallPhase error = Some Dispatched) || re_test_i CHECKED_RESULT_PATTERN (failure_message error).

(** A sign that the call was turned down before it did anything. *)
Definition refused (error : thrown) : bool :=
  instance_of ob_argumentError error
  || bool_decide (toolCallPhase error = Some NotSent) || bool_decide (toolCallPhase error = Some Rejected)
  || rateLimited error || bool_decide (nullish (failure_code error) [] ∈ NOT_SENT_CODES)
  || re_test (js "\bNothing was run\b") (failure_message error).

Definition notApplied (error : thrown) : bool := negb (dispatched error) && negb (ran error) && refused error.

Definition is_transient (error : thrown) (timedOut : bool) : bool :=
  timedOut
  || bool_decide (transport_category error = Timeout) || bool_decide (transport_category error = Connection)
  || bool_decide (transport_category error = Server)
  || rateLimited error
  || bool_decide (failure_status error = Some 408%Z)
  || match failure_status error with Some s => (500 <=? s)%Z | None => false end
  || re_test_i TRANSIENT_PATTERN (failure_message error)
  || re_test_i (js "proxy_unavailable|timeout") (nullish (failure_code error) []).

Definition has_status (error : thrown) (s : Z) : bool := bool_decide (failure_status error = Some s).

Definition failure_category (error : thrown) (changesState timedOut : bool) : ToolFailureCategory :=
  let message := failure_message error in
  if instance_of ob_argumentError error then InvalidInput
  else if has_status error 402 || re_test_i CREDIT_EXHAUSTED_PATTERN message then CreditExhausted
  else if has_status error 401 || re_test_i CREDENTIALS_PATTERN message then Credentials
  else if has_status error 403 || re_test_i CONFIGURATION_PATTERN message then Configuration
  else if is_transient error timedOut
  then if changesState && negb (notApplied error) then UnknownOutcome else Transient
  else if re_test_i INVALID_SPECIFIC_PATTERN message then InvalidInput
  else if has_status error 404 || re_test_i MISSING_PATTERN message
          || re_test_i (js "not_found|challenge") (nullish (failure_code error) []) then MissingResource
  else if has_status error 400 || has_status error 409 || has_status error 422 || re_test_i INVALID_PATTERN message then InvalidInput
  else UnknownClass.

Definition failure_outcome (error : thrown) (changesState timedOut : bool) : Outcome :=
  if negb changesState || notApplied error then NotApplied
  else
    let c := failure_category error changesState timedOut in
    if ran error || dispatched error || bool_decide (c = UnknownClass) || bool_decide (c = UnknownOutcome)
    then OutcomeUnknown else NotApplied.

Definition classifyToolFailure (error : thrown) (changesState timedOut : bool) : ToolFailure :=
  let c := failure_category error changesState timedOut in
  {| tf_category := category_text c;
     tf_deterministic := bool_decide (c ∈ DETERMINISTIC);
     tf_outcome := failure_outcome error changesState timedOut;
     tf_outcomeVersion := Some TOOL_FAILURE_OUTCOME_VERSION;
     tf_status := failure_status error;
     tf_code := match failure_code error with Some c => if truthy c then Some c else None | None => None end;
     tf_action := Some (ACTIONS c) |}.

End failures.

(** ** Stored failures *)

Definition CATEGORIES : list ToolFailureCategory :=
  [InvalidInput; MissingResource; Configuration; Credentials; CreditExhausted; Transient; UnknownOutcome; UnknownClass].

(** [category in ACTIONS], with the action: an own member or an inherited one. *)
Definition action_member (category : jstr) : option (option jstr) :=
  match find_first (λ c, bool_decide (category_text c = category)) CATEGORIES with
  | Some c => Some (Some (ACTIONS c))
  | None => if bool_decide (category ∈ OBJECT_PROTOTYPE) then Some None else None
  end.

Definition json_string (j : option json) : option jstr := match j with Some (JStr s) => Some s | _ => None end.
Definition json_number (j : option json) : option Z := match j with Some (JNum z) => Some z | _ => None end.

Definition storedToolFailure (output : json) : option ToolFailure :=
  failure ← member (js "failure") output;
  category ← json_string (member (js "category") failure);
  action ← action_member category;
  Some {| tf_category := category;
          tf_deterministic := match member (js "deterministic") failure with Some (JBool b) => b | _ => false end;
          tf_outcome := if bool_decide (json_string (member (js "outcome") failure) = Some (js "unknown")) then OutcomeUnknown else NotApplied;
          tf_outcomeVersion := json_number (member (js "outcomeVersion") failure);
          tf_status := json_number (member (js "status") failure);
          tf_code := json_string (member (js "code") failure);
          tf_action := or_else (json_string (member (js "action") failure)) action |}.

(** The output of a failed step, as it is stored. *)
Definition failure_members (f : ToolFailure) : list (jstr * json) :=
  [(js "category", JStr (tf_category f)); (js "deterministic", JBool (tf_deterministic f));
   (js "outcome", JStr (outcome_text (tf_outcome f)))]
  ++ match tf_outcomeVersion f with Some v => [(js "outcomeVersion", JNum v)] | None => [] end
  ++ match tf_status f with Some s => [(js "status", JNum s)] | None => [] end
  ++ match tf_code f with Some c => [(js "code", JStr c)] | None => [] end
  ++ match tf_action f with Some a => [(js "action", JStr a)] | None => [] end.

Definition failure_output (f : ToolFailure) : json := JObj [(js "failure", JObj (failure_members f))].

(** ** Theorems *)

Section theorems.
Context (toLowerCase toUpperCase : jstr → jstr) (objects : heap).

Abbreviation category_of := (failure_category toLowerCase toUpperCase objects).
Abbreviation outcome_of := (failure_outcome toLowerCase toUpperCase objects).
Abbreviation was_refused := (refused toLowerCase toUpperCase objects).
Abbreviation was_dispatched := (dispatched toLowerCase toUpperCase objects).
Abbreviation was_run := (ran objects).

(** The two classes of a call that may have taken effect or may be repeated. *)
Lemma category_transient error changesState timedOut :
  category_of error changesState timedOut = Transient →
  changesState = false ∨ notApplied toLowerCase toUpperCase objects error = true.
Proof.
  unfold failure_category. repeat case_match; try done. intros _.
  destruct changesState; [right|by left]. by destruct (notApplied _ _ _ error).
Qed.

Lemma category_unknown_outcome error changesState timedOut :
  category_of error changesState timedOut = UnknownOutcome →
  changesState = true ∧ notApplied toLowerCase toUpperCase objects error = false.
Proof.
  unfold failure_category. repeat case_match; try done. intros _.
  match goal with E : (_ && negb _) = true |- _ => apply andb_true_iff in E as [-> E]; by apply negb_true_iff in E end.
Qed.

Lemma notApplied_true error :
  notApplied toLowerCase toUpperCase objects error = true ↔
  was_dispatched error = false ∧ was_run error = false ∧ was_refused error = true.
Proof. unfold notApplied. rewrite !andb_true_iff, !negb_true_iff. tauto. Qed.

Lemma deterministic_class c : c ∈ DETERMINISTIC ↔ c ≠ Transient ∧ c ≠ UnknownOutcome ∧ c ≠ UnknownClass.
Proof. unfold DETERMINISTIC. destruct c; set_solver. Qed.

(** C25: A change is never called not applied against the evidence. For a call that
    changes something: if it reached its target, or its command ran, its outcome
    is unknown, whatever the error says besides; it is called transient - worth
    the same call again - only with evidence that it was turned down before it
    did anything; and it is called not applied only with that evidence, or when
    nothing shows that it left and it fails the same way every time. The outcome
    of a call that only reads is never unknown. *)
Theorem classifyToolFailure_outcome error timedOut :
  (was_dispatched error = true ∨ was_run error = true →
     outcome_of error true timedOut = OutcomeUnknown ∧ category_of error true timedOut ≠ Transient) ∧
  (category_of error true timedOut = Transient →
     was_dispatched error = false ∧ was_run error = false ∧ was_refused error = true) ∧
  (outcome_of error true timedOut = NotApplied →
     was_dispatched error = false ∧ was_run error = false ∧
     (was_refused error = true ∨ category_of error true timedOut ∈ DETERMINISTIC)) ∧
  outcome_of error false timedOut = NotApplied ∧ category_of error false timedOut ≠ UnknownOutcome.
Proof.
  assert (category_of error true timedOut = Transient →
     was_dispatched error = false ∧ was_run error = false ∧ was_refused error = true) as Htr.
  { intros [?|Hn]%category_transient; [done|]. by apply notApplied_true. }
  split; [|split; [exact Htr|split; [|split; [done|by intros [? _]%category_unknown_outcome]]]].
  - intros Hd. assert (notApplied toLowerCase toUpperCase objects error = false) as Hn.
    { apply not_true_iff_false. rewrite notApplied_true. destruct Hd; intuition congruence. }
    split; [|intros (? & ? & _)%Htr; destruct Hd; congruence].
    unfold failure_outcome. rewrite Hn. cbn [negb orb].
    destruct Hd as [->| ->]; by rewrite ?orb_true_r.
  - unfold failure_outcome. cbn [negb orb].
    destruct (notApplied toLowerCase toUpperCase objects error) eqn:Hn.
    { intros _. apply notApplied_true in Hn. intuition. }
    destruct (was_run error) eqn:Hr; [done|]. destruct (was_dispatched error) eqn:Hd; [done|]. cbn [orb].
    case_bool_decide as H1; [done|]. case_bool_decide as H2; [done|]. intros _.
    split_and!; [done..|]. right. apply deterministic_class. split_and!; [|done..].
    intros Ht. destruct (Htr Ht) as (_ & _ & Href). assert (true = false); [|done].
    rewrite <- Hn. symmetry. by apply notApplied_true.
Qed.

(** The flag is that of the class: what fails the same way is neither transient
    nor unknown. *)
Lemma classifyToolFailure_deterministic error changesState timedOut :
  tf_deterministic (classifyToolFailure toLowerCase toUpperCase objects error changesState timedOut) = true ↔
  category_of error changesState timedOut ∉ [Transient; UnknownOutcome; UnknownClass].
Proof. cbn. rewrite bool_decide_eq_true, deterministic_class. set_solver. Qed.

(** ** Stored failures *)

(** A classification that is stored with a failed step is read back from it. *)
Theorem storedToolFailure_roundtrip error changesState timedOut :
  let f := classifyToolFailure toLowerCase toUpperCase objects error changesState timedOut in
  storedToolFailure (failure_output f) = Some f.
Proof.
  intros f. unfold f, classifyToolFailure.
  set (c := category_of error changesState timedOut). set (o := outcome_of error changesState timedOut).
  set (st := failure_status _ _ _ error). set (cd := match failure_code _ _ _ error with Some _ => _ | None => None end).
  clearbody c o st cd.
  destruct st as [st|], cd as [cd|], c, o; vm_compute; reflexivity.
Qed.

End theorems.

(** ** Concrete failures *)

Module FailureDemo.

Definition error_of (properties : list (string * thrown)) : object :=
  {| ob_properties := map (λ '(k, v), (js k, v)) properties; ob_array := false; ob_error := true; ob_argumentError := false |}.
Definition text (s : string) : thrown := Str (js s).

(** An error that is the cause of itself. *)
Definition objects : heap := {[
  0%nat := error_of [("name", text "Error"); ("message", text "socket hang up"); ("cause", Ref 0)];
  1%nat := error_of [("message", text "connect ECONNREFUSED 10.0.0.1:443"); ("code", text "ECONNREFUSED")];
  2%nat := error_of [("message", text "Request failed"); ("status", Num (JInt 404)); ("toolCallPhase", text "dispatched")];
  3%nat := error_of [("message", text "Google Workspace is not connected for this user")];
  4%nat := error_of [("message", text "edits[0].oldText was not found in /workspace/notes.md")];
  5%nat := error_of [("message", text "The terminal is not connected to a running sandbox")]
]}%string.

Definition classify (r : nat) (changesState : bool) : jstr * Outcome :=
  let f := classifyToolFailure ascii_lower (λ s, s) objects (Ref r) changesState false in (tf_category f, tf_outcome f).

(** Every pattern of the code is one the model reads. *)
Example patterns_parse :
  forallb (λ p, match parse_re p with Some _ => true | None => false end)
    [CREDIT_EXHAUSTED_PATTERN; CREDENTIALS_PATTERN; CONFIGURATION_PATTERN; MISSING_PATTERN; INVALID_SPECIFIC_PATTERN;
     INVALID_PATTERN; TRANSIENT_PATTERN; RAN_COMMAND_PATTERN; CHECKED_RESULT_PATTERN] = true.
Proof. by vm_compute. Qed.

(** A lost connection leaves a change unknown; a refused one does not; a call that
    was dispatched may have been applied although the target says 404. *)
Example classes :
  map (λ r, classify r true) [0; 1; 2; 4; 5]%nat =
  [(js "unknown_outcome", OutcomeUnknown); (js "transient", NotApplied); (js "missing_resource", OutcomeUnknown);
   (js "invalid_input", NotApplied); (js "unknown", OutcomeUnknown)] ∧
  map (λ r, classify r false) [0; 3]%nat = [(js "transient", NotApplied); (js "credentials", NotApplied)].
Proof. by vm_compute. Qed.

Example self_cause : errorChain objects (Ref 0) = [Ref 0].
Proof. by vm_compute. Qed.

(** A stored failure whose category is a member that every object inherits is
    read as a failure, and its action is no text. *)
Example inherited_category :
  tf_action <$> storedToolFailure (JObj [(js "failure", JObj [(js "category", JStr (js "constructor"))])]) = Some None.
Proof. by vm_compute. Qed.

End FailureDemo.

(** The theorem at the dispatched call that was answered with 404. *)
Lemma classifyToolFailure_outcome_witness :
  dispatched ascii_lower (λ s, s) FailureDemo.objects (Ref 2) = true ∧
  failure_outcome ascii_lower (λ s, s) FailureDemo.objects (Ref 2) true false = OutcomeUnknown.
Proof.
  assert (dispatched ascii_lower (λ s, s) FailureDemo.objects (Ref 2) = true) as H by (vm_compute; reflexivity).
  split; [exact H|].
  exact (proj1 (proj1 (classifyToolFailure_outcome ascii_lower (λ s, s) FailureDemo.objects (Ref 2) false) (or_introl H))).
Defined.
