(* ===== verification/OutputGuard.v ===== *)
(** * Output that repeats itself

    apps/worker/src/turn-runner.ts: [ExactOutputRepetitionGuard], which watches the text
    and the reasoning of a model while they stream, and stops a model that writes the
    same cycle again and again. The runner shows it every piece of output.

    A check is due each [OUTPUT_REPETITION_CHECK_INTERVAL] units; it looks at the last
    [OUTPUT_REPETITION_WINDOW] units for a period of at most
    [OUTPUT_REPETITION_MAX_PERIOD]. *)

From S2P Require Import Prelude JsString.
From Stdlib Require Import Lia.

Set Default Goal Selector "!".

Definition OUTPUT_REPETITION_WINDOW : nat := 1024.
Definition OUTPUT_REPETITION_MAX_PERIOD : nat := 128.
Definition OUTPUT_REPETITION_CHECK_INTERVAL : nat := 128.

(** [s.slice(-n)] *)
Definition last_units (n : nat) (s : jstr) : jstr := drop (length s - n) s.

Record RepetitionChannelState := { rc_tail : jstr; rc_observed : nat; rc_nextCheck : nat }.

Definition new_channel : RepetitionChannelState := {| rc_tail := []; rc_observed := 0; rc_nextCheck := OUTPUT_REPETITION_WINDOW |}.

Inductive Channel := TextChannel | ReasoningChannel.
#[export] Instance Channel_eq_dec : EqDecision Channel.
Proof. solve_decision. Defined.
Definition channel_name (c : Channel) : jstr := match c with TextChannel => js "text" | ReasoningChannel => js "reasoning" end.

(** The state of each channel. *)
Record ExactOutputRepetitionGuard := { eg_text : RepetitionChannelState; eg_reasoning : RepetitionChannelState }.
Definition new_guard : ExactOutputRepetitionGuard := {| eg_text := new_channel; eg_reasoning := new_channel |}.
Definition get_channel (c : Channel) (g : ExactOutputRepetitionGuard) : RepetitionChannelState :=
  match c with TextChannel => eg_text g | ReasoningChannel => eg_reasoning g end.
Definition set_channel (c : Channel) (state : RepetitionChannelState) (g : ExactOutputRepetitionGuard) : ExactOutputRepetitionGuard :=
  match c with
  | TextChannel => {| eg_text := state; eg_reasoning := eg_reasoning g |}
  | ReasoningChannel => {| eg_text := eg_text g; eg_reasoning := state |}
  end.

(** The loop over the suffix, for one period. *)
Definition repeats (suffix : jstr) (period : nat) : bool :=
  forallb (λ index, bool_decide (suffix !! index = suffix !! (index mod period))) (seq period (length suffix - period)).

Definition repetition_message (channel : Channel) (observed : nat) : jstr :=
  js "The model entered an exact repeating " ++ channel_name channel ++ js " loop. Berry stopped the output after "
  ++ dec (Z.of_nat observed) ++ js " characters to prevent runaway token use. Retry the task or select another model.".

(** The message of what is thrown, and the state that is left. *)
Definition observe_channel (channel : Channel) (delta : jstr) (state : RepetitionChannelState) : option jstr * RepetitionChannelState :=
  let observed := (rc_observed state + length delta)%nat in
  let tail := last_units (OUTPUT_REPETITION_WINDOW * 2) (rc_tail state ++ delta) in
  if (observed <? rc_nextCheck state)%nat || (length tail <? OUTPUT_REPETITION_WINDOW)%nat
  then (None, {| rc_tail := tail; rc_observed := observed; rc_nextCheck := rc_nextCheck state |})
  else
    let suffix := last_units OUTPUT_REPETITION_WINDOW tail in
    let state := {| rc_tail := tail; rc_observed := observed; rc_nextCheck := observed + OUTPUT_REPETITION_CHECK_INTERVAL |} in
    if existsb (repeats suffix) (seq 1 OUTPUT_REPETITION_MAX_PERIOD) then (Some (repetition_message channel observed), state) else (None, state).

Definition observe (delta : jstr) (channel : Channel) (g : ExactOutputRepetitionGuard) : option jstr * ExactOutputRepetitionGuard :=
  match delta with
  | [] => (None, g)
  | _ => let '(thrown, state) := observe_channel channel delta (get_channel channel g) in (thrown, set_channel channel state g)
  end.

(** A stream, as far as nothing is thrown. *)
Fixpoint observes (stream : list (jstr * Channel)) (g : ExactOutputRepetitionGuard) : option jstr * ExactOutputRepetitionGuard :=
  match stream with
  | [] => (None, g)
  | (delta, channel) :: stream =>
      match observe delta channel g with
      | (Some message, g) => (Some message, g)
      | (None, g) => observes stream g
      end
  end.

(** ** What a stream has written *)

Definition output (channel : Channel) (stream : list (jstr * Channel)) : jstr :=
  concat (map fst (List.filter (λ d, bool_decide (d.2 = channel)) stream)).

(** [s] is the same again after [p] units, all through. *)
Definition cycles (p : nat) (s : jstr) : Prop := ∀ i, (p <= i < length s)%nat → s !! i = s !! (i - p)%nat.

Lemma repeats_cycles p s : (0 < p)%nat → repeats s p = true ↔ cycles p s.
Proof.
  intros Hp. unfold repeats, cycles. rewrite forallb_forall. split.
  - intros H. assert (Hm : ∀ i, (i < length s)%nat → s !! i = s !! (i mod p)%nat).
    { intros i Hi. destruct (decide (i < p)%nat); [by rewrite Nat.mod_small|]. apply (bool_decide_eq_true _), H, in_seq. lia. }
    intros i Hi. rewrite (Hm i), (Hm (i - p)%nat) by lia. f_equal. replace i with ((i - p) + 1 * p)%nat at 1 by lia. by rewrite Nat.Div0.mod_add.
  - intros H i [Hi1 Hi2]%in_seq. apply bool_decide_eq_true. assert (Hi : (i < length s)%nat) by lia. clear Hi1 Hi2.
    induction i as [i IH] using (well_founded_induction lt_wf). destruct (decide (i < p)%nat); [by rewrite Nat.mod_small|].
    rewrite H by lia. rewrite IH by lia. f_equal. replace i with ((i - p) + 1 * p)%nat at 2 by lia. by rewrite Nat.Div0.mod_add.
Qed.

Lemma cycles_inside p l s l' : cycles p (l ++ s ++ l') → cycles p s.
Proof.
  intros H i Hi. specialize (H (length l + i)%nat). rewrite !length_app in H. specialize (H ltac:(lia)).
  rewrite lookup_app_r, lookup_app_l in H by lia. replace (length l + i - p)%nat with (length l + (i - p))%nat in H by lia.
  rewrite lookup_app_r, lookup_app_l in H by lia. by replace (length l + i - length l)%nat with i in H by lia; replace (length l + (i - p) - length l)%nat with (i - p)%nat in H by lia.
Qed.

Lemma length_last n s : length (last_units n s) = Nat.min n (length s).
Proof. unfold last_units. rewrite length_drop. lia. Qed.
Lemma last_split n s : s = take (length s - n) s ++ last_units n s.
Proof. symmetry. apply take_drop. Qed.

(** The last units of a text whose end is [s']. *)
Lemma last_app n s s' : (n <= length s')%nat → last_units n (s ++ s') = last_units n s'.
Proof.
  intros H. unfold last_units. rewrite length_app, drop_app_ge by lia. f_equal. lia.
Qed.
Lemma last_last n m s : (n <= m)%nat → last_units n (last_units m s) = last_units n s.
Proof.
  intros H. destruct (decide (m <= length s)%nat).
  - rewrite (last_split m s) at 2. symmetry. apply last_app. rewrite length_last. lia.
  - unfold last_units at 2. by replace (length s - m)%nat with 0%nat by lia.
Qed.
Lemma last_tail m s d : last_units m (last_units m s ++ d) = last_units m (s ++ d).
Proof.
  destruct (decide (m <= length s)%nat).
  - transitivity (last_units m (take (length s - m) s ++ last_units m s ++ d)); [|by rewrite app_assoc, <- last_split].
    symmetry. apply last_app. rewrite length_app, length_last. lia.
  - unfold last_units at 2. by replace (length s - m)%nat with 0%nat by lia.
Qed.

(** ** What a guard that has thrown nothing knows *)

Definition PERIODS (p : nat) : Prop := (1 <= p <= OUTPUT_REPETITION_MAX_PERIOD)%nat.

(** The text [t] ends in a cycle. *)
Definition looping (t : jstr) : Prop :=
  (OUTPUT_REPETITION_WINDOW <= length t)%nat ∧ ∃ p, PERIODS p ∧ cycles p (last_units OUTPUT_REPETITION_WINDOW t).

(** The state after the text [t]: the last check was less than an interval ago, and
    found no cycle. *)
Record watched (t : jstr) (state : RepetitionChannelState) : Prop := {
  watched_observed : rc_observed state = length t;
  watched_tail : rc_tail state = last_units (OUTPUT_REPETITION_WINDOW * 2) t;
  watched_check : (rc_nextCheck state = OUTPUT_REPETITION_WINDOW ∧ (length t < OUTPUT_REPETITION_WINDOW)%nat)
    ∨ ∃ c, (OUTPUT_REPETITION_WINDOW <= c <= length t)%nat ∧ rc_nextCheck state = (c + OUTPUT_REPETITION_CHECK_INTERVAL)%nat
           ∧ (length t < c + OUTPUT_REPETITION_CHECK_INTERVAL)%nat ∧ ¬ looping (take c t);
}.

Lemma existsb_looping t : (OUTPUT_REPETITION_WINDOW <= length t)%nat →
  existsb (repeats (last_units OUTPUT_REPETITION_WINDOW t)) (seq 1 OUTPUT_REPETITION_MAX_PERIOD) = true ↔ looping t.
Proof.
  intros Hl. rewrite existsb_exists. unfold looping, PERIODS. split.
  - intros (p & Hp%in_seq & H). split; [done|]. exists p. split; [lia|]. apply repeats_cycles; [lia|done].
  - intros [_ (p & Hp & H)]. exists p. rewrite in_seq. split; [lia|]. apply repeats_cycles; [lia|done].
Qed.

Lemma observe_channel_watched channel d t state : watched t state →
  let '(thrown, state') := observe_channel channel d state in
  match thrown with
  | Some message => message = repetition_message channel (length (t ++ d)) ∧ looping (t ++ d)
  | None => watched (t ++ d) state'
  end.
Proof.
  intros [Ho Ht Hc]. unfold observe_channel. rewrite Ho, Ht, <- length_app, last_tail, length_last.
  set (t' := t ++ d). assert (Hlen : (length t <= length t')%nat) by (unfold t'; rewrite length_app; lia).
  destruct ((length t' <? rc_nextCheck state)%nat || _) eqn:Edue.
  - split; [done|done|]. cbn. apply orb_true_iff in Edue as [E%Nat.ltb_lt|E%Nat.ltb_lt].
    + destruct Hc as [[Hn _]|(c & Hc & Hn & _ & Hno)]; [left; lia|right]. exists c. split_and!; [lia|lia|done|lia|].
      unfold t'. by rewrite take_app_le by lia.
    + left. unfold OUTPUT_REPETITION_WINDOW in *. destruct Hc as [[Hn _]|(c & Hc & _)]; [split; [done|lia]|lia].
  - apply orb_false_iff in Edue as [E1%Nat.ltb_ge E2%Nat.ltb_ge]. rewrite last_last by (unfold OUTPUT_REPETITION_WINDOW; lia).
    assert (Hw : (OUTPUT_REPETITION_WINDOW <= length t')%nat) by lia. pose proof (existsb_looping t' Hw) as Hl.
    destruct (existsb _ _); [split; [done|by apply Hl]|]. split; [done|done|]. right. exists (length t'). cbn.
    split_and!; [lia|lia|done|unfold OUTPUT_REPETITION_CHECK_INTERVAL; lia|]. rewrite firstn_all. intros Hloop. by apply Hl in Hloop.
Qed.

Lemma watched_new : watched [] new_channel.
Proof. split; [done|done|]. left. split; [done|]. apply Nat.ltb_lt. vm_compute. done. Qed.

(** A cycle as long as the window and an interval contains a check. *)
Lemma watched_no_cycle t state p : watched t state → PERIODS p →
  (OUTPUT_REPETITION_WINDOW + OUTPUT_REPETITION_CHECK_INTERVAL - 1 <= length t)%nat →
  ¬ cycles p (last_units (OUTPUT_REPETITION_WINDOW + OUTPUT_REPETITION_CHECK_INTERVAL - 1) t).
Proof.
  intros [_ _ Hc] Hp Hlen Hcy. unfold OUTPUT_REPETITION_WINDOW, OUTPUT_REPETITION_CHECK_INTERVAL in *.
  destruct Hc as [[_ Hc]|(c & Hc & _ & Hnear & Hno)]; [lia|]. apply Hno. unfold looping, OUTPUT_REPETITION_WINDOW.
  rewrite length_take. split; [lia|]. exists p. split; [done|].
  assert (E : last_units (1024 + 128 - 1) t = drop (length t - 1151) (take (c - 1024) t) ++ last_units 1024 (take c t) ++ drop c t).
  { assert (Ht : t = take (c - 1024) t ++ last_units 1024 (take c t) ++ drop c t).
    { rewrite <- (take_drop c t) at 1. rewrite (last_split 1024 (take c t)) at 1. rewrite length_take, take_take, <- app_assoc.
      by replace (Nat.min (Nat.min c (length t) - 1024) c) with (c - 1024)%nat by lia. }
    transitivity (drop (length t - 1151) (take (c - 1024) t ++ last_units 1024 (take c t) ++ drop c t)).
    - unfold last_units at 1. by rewrite <- Ht.
    - rewrite drop_app_le; [done|]. rewrite length_take. lia. }
  rewrite E in Hcy. by apply cycles_inside in Hcy.
Qed.

(** ** Streams *)

Definition watching (stream : list (jstr * Channel)) (g : ExactOutputRepetitionGuard) : Prop :=
  ∀ channel, watched (output channel stream) (get_channel channel g).

Lemma output_snoc channel stream d c : output channel (stream ++ [(d, c)]) = output channel stream ++ (if bool_decide (c = channel) then d else []).
Proof. unfold output. rewrite List.filter_app, map_app, concat_app. cbn. case_bool_decide; cbn; by rewrite ?app_nil_r. Qed.

Lemma observe_watching stream g d channel : watching stream g →
  let '(thrown, g') := observe d channel g in
  match thrown with
  | Some message => message = repetition_message channel (length (output channel (stream ++ [(d, channel)]))) ∧ looping (output channel (stream ++ [(d, channel)]))
  | None => watching (stream ++ [(d, channel)]) g'
  end.
Proof.
  intros Hw. unfold observe. destruct d as [|u d'].
  - intros c. rewrite output_snoc. specialize (Hw c). case_bool_decide; by rewrite app_nil_r.
  - generalize (u :: d'). intros d. pose proof (observe_channel_watched channel d (output channel stream) (get_channel channel g) (Hw channel)) as H.
    rewrite output_snoc, bool_decide_eq_true_2 by done. destruct (observe_channel _ _ _) as [[message|] state]; [done|].
    intros c. rewrite output_snoc. case_bool_decide as E; [subst c; by destruct channel|]. rewrite app_nil_r. specialize (Hw c). by destruct channel, c.
Qed.

Lemma observes_watching stream stream' g : watching stream g →
  match observes stream' g with
  | (Some message, _) => ∃ before d channel after, stream' = before ++ (d, channel) :: after
      ∧ message = repetition_message channel (length (output channel (stream ++ before ++ [(d, channel)])))
      ∧ looping (output channel (stream ++ before ++ [(d, channel)]))
  | (None, g') => watching (stream ++ stream') g'
  end.
Proof.
  revert stream g. induction stream' as [|[d channel] stream' IH]; intros stream g Hw; cbn; [by rewrite app_nil_r|].
  pose proof (observe_watching stream g d channel Hw) as H. destruct (observe d channel g) as [[message|] g1].
  - exists [], d, channel, stream'. by destruct H.
  - specialize (IH _ _ H). destruct (observes stream' g1) as [[message|] g2]; [|by rewrite <- app_assoc in IH].
    destruct IH as (before & d' & c & after & -> & Hm & Hl). exists ((d, channel) :: before), d', c, after.
    rewrite <- !app_assoc in Hm, Hl. by split_and!.
Qed.

(** A stream that was not stopped was not stopped at any of its pieces. *)
Lemma observes_app before after g :
  observes (before ++ after) g = match observes before g with
                                 | (Some message, g) => (Some message, g)
                                 | (None, g) => observes after g
                                 end.
Proof.
  revert g. induction before as [|[d channel] before IH]; intros g; cbn; [done|].
  destruct (observe d channel g) as [[message|] g1]; [done|]. apply IH.
Qed.

Lemma unstopped_no_cycle before g channel p : observes before new_guard = (None, g) → PERIODS p →
  (1151 <= length (output channel before))%nat → ¬ cycles p (last_units 1151 (output channel before)).
Proof.
  intros E Hp Hl. assert (Hw : watching [] new_guard) by (intros []; apply watched_new).
  pose proof (observes_watching [] before new_guard Hw) as H. rewrite E in H.
  by apply (watched_no_cycle _ (get_channel channel g)).
Qed.

(** Pieces of at most [k] units end at least every [k] units of a channel. *)
Lemma piece_ends k stream channel n : (∀ d, d ∈ stream → (length d.1 <= k)%nat) →
  (0 < n <= length (output channel stream))%nat →
  ∃ before, before `prefix_of` stream ∧ (n <= length (output channel before) < n + k)%nat.
Proof.
  induction stream as [|[d c] stream IH] using rev_ind; intros Hk Hn; [cbn in Hn; lia|].
  destruct (decide (n <= length (output channel stream))%nat) as [Hle|Hgt].
  - destruct IH as (before & Hb & Hlen); [intros x Hx; apply Hk; set_solver|lia|].
    exists before. split; [by apply prefix_app_r|done].
  - exists (stream ++ [(d, c)]). split; [done|]. specialize (Hk (d, c) ltac:(set_solver)). cbn in Hk.
    rewrite output_snoc, length_app in *. case_bool_decide; cbn in *; lia.
Qed.

Lemma output_short channel stream : (∀ d, d ∈ stream → (length d.1 <= 0)%nat) → output channel stream = [].
Proof.
  intros H. induction stream as [|[d c] stream IH] using rev_ind; [done|]. rewrite output_snoc, IH by set_solver.
  specialize (H (d, c) ltac:(set_solver)). destruct d; [by case_bool_decide|cbn in H; lia].
Qed.

(** The end of a text, where it lies inside a part of the whole. *)
Lemma ends_inside n o rest left repeated right : o ++ rest = left ++ repeated ++ right →
  (length left + n <= length o <= length left + length repeated)%nat →
  ∃ a b, repeated = a ++ last_units n o ++ b.
Proof.
  intros E Hl. assert (Ho : o = left ++ take (length o - length left) repeated).
  { transitivity (take (length o) (left ++ repeated ++ right)); [by rewrite <- E, take_app_length|].
    rewrite take_app_ge, take_app_le by lia. done. }
  exists (take (length o - length left - n) repeated), (drop (length o - length left) repeated).
  set (x := (length o - length left)%nat) in *. rewrite Ho at 1.
  rewrite last_app by (rewrite length_take; lia). rewrite <- (take_drop x repeated) at 1.
  rewrite app_assoc. f_equal. rewrite (last_split n (take x repeated)) at 1. f_equal.
  rewrite length_take, take_take. f_equal. lia.
Qed.

(** C23: The guard stops a stream exactly for what it says. It stops only when the last 1024 units of
    one channel repeat exactly with a period of at most 128 units. And it does stop: however the output
    is cut into pieces and the channels alternate, after no piece that was let through does a channel end
    in such a repetition of 1151 units; so where no piece is longer than [k] units, the output of a stream
    that was not stopped holds no repetition of [1150 + k] units anywhere. A repetition inside one longer
    piece, with other text behind it in the same piece, is not seen. *)
Theorem guard_stops_loops stream :
  match observes stream new_guard with
  | (Some message, _) => ∃ before d channel after p, stream = before ++ (d, channel) :: after
      ∧ message = repetition_message channel (length (output channel (before ++ [(d, channel)])))
      ∧ (1 <= p <= 128)%nat ∧ (1024 <= length (output channel (before ++ [(d, channel)])))%nat
      ∧ cycles p (last_units 1024 (output channel (before ++ [(d, channel)])))
  | (None, _) => ∀ channel p, (1 <= p <= 128)%nat →
      (∀ before, before `prefix_of` stream → (1151 <= length (output channel before))%nat →
         ¬ cycles p (last_units 1151 (output channel before)))
      ∧ (∀ k left repeated right, (∀ d, d ∈ stream → (length d.1 <= k)%nat) →
           output channel stream = left ++ repeated ++ right → (1150 + k <= length repeated)%nat →
           ¬ cycles p repeated)
  end.
Proof.
  assert (Hw : watching [] new_guard) by (intros []; apply watched_new). pose proof (observes_watching [] stream new_guard Hw) as H. cbn [app] in H.
  destruct (observes stream new_guard) as [[message|] g] eqn:E.
  - destruct H as (before & d & channel & after & E' & Hm & Hl & p & Hp & Hcy). by exists before, d, channel, after, p.
  - intros channel p Hp. clear H.
    assert (Hpre : ∀ before, before `prefix_of` stream → (1151 <= length (output channel before))%nat →
         ¬ cycles p (last_units 1151 (output channel before))).
    { intros before [after ->]. rewrite observes_app in E. destruct (observes before new_guard) as [[|] g'] eqn:Eb; [done|].
      by apply (unstopped_no_cycle before g'). }
    split; [exact Hpre|]. intros k left repeated right Hk Hout Hlen Hcy.
    destruct (piece_ends k stream channel (length left + 1151)) as (before & Hb & Hn); [done|..].
    { rewrite Hout, !length_app. destruct k; [|lia]. exfalso.
      rewrite (output_short channel stream Hk) in Hout. symmetry in Hout.
      apply app_eq_nil in Hout as [_ [-> _]%app_eq_nil]. cbn in Hlen. lia. }
    apply (Hpre before Hb); [lia|]. destruct Hb as [after ->].
    assert (∃ rest, output channel before ++ rest = left ++ repeated ++ right) as [rest Hr].
    { exists (output channel after). rewrite <- Hout. unfold output. by rewrite List.filter_app, map_app, concat_app. }
    destruct (ends_inside 1151 (output channel before) rest left repeated right Hr) as (a & b & ->); [lia|].
    by apply cycles_inside in Hcy.
Qed.
