(* ===== verification/TurnSteps.v ===== *)
(** * Steps of a durable turn

    apps/worker/src/turn-runner.ts, the part that looks at the journal of a turn:
    its steps and what is stored with them, the tools and their policies, when two
    calls are the same call, and how errors and results are compared.

    A step's input and output are JSON; [JNull] is an output that is [null]. Dates
    are milliseconds. The collation of [localeCompare], SHA-256 (as hex digits),
    and Unicode lower case are arguments. *)

From S2P Require Import Prelude JsMap JsString Json RegExp ExecPolicy ProviderErrors ToolFailures.
From Stdlib Require Import Lia.

Set Default Goal Selector "!".

(** ** Data *)

Inductive TurnRunState :=
| Queued | AssemblingContext | CallingModel | PersistingResponse | ExecutingTool | Compacting
| WaitingRun | Finalizing | CompletedRun | FailedRun | CancelledRun | RecoveryRun.
#[export] Instance TurnRunState_eq_dec : EqDecision TurnRunState.
Proof. solve_decision. Defined.

Inductive StepState := Pending | Running | Completed | Failed | Waiting | RecoveryRequired | Cancelled.
#[export] Instance StepState_eq_dec : EqDecision StepState.
Proof. solve_decision. Defined.

Inductive ToolRetryClass := ReadOnly | Idempotent | IdempotentWithKey | NonIdempotentManual.
#[export] Instance ToolRetryClass_eq_dec : EqDecision ToolRetryClass.
Proof. solve_decision. Defined.

Inductive ToolRepeatPolicy := CompareResult | BlockAfterSuccess | BoundedPolling.
#[export] Instance ToolRepeatPolicy_eq_dec : EqDecision ToolRepeatPolicy.
Proof. solve_decision. Defined.

Inductive OutcomeCertainty := CertaintyKnown | CertaintyUnknown | NotApplicable.
#[export] Instance OutcomeCertainty_eq_dec : EqDecision OutcomeCertainty.
Proof. solve_decision. Defined.

#[export] Instance json_eq_dec : EqDecision json.
Proof.
  refine (fix go (a b : json) : Decision (a = b) :=
    match a, b with
    | JNull, JNull => left eq_refl
    | JBool x, JBool y => cast_if (decide (x = y))
    | JNum x, JNum y => cast_if (decide (x = y))
    | JStr x, JStr y => cast_if (decide (x = y))
    | JArr x, JArr y => cast_if (@list_eq_dec _ go x y)
    | JObj x, JObj y => cast_if (@list_eq_dec _ (@prod_eq_dec _ _ _ go) x y)
    | _, _ => right _
    end); clear go; abstract congruence.
Defined.

Record DurableTurnStep := {
  st_id : jstr;
  st_sequence : Z;
  st_type : jstr;
  st_state : StepState;
  st_input : json;
  st_output : json;
  st_retryClass : option ToolRetryClass;
  st_idempotencyKey : option jstr;
  st_attempt : Z;
  st_error : option jstr;
  st_resultFingerprint : option jstr;
  st_deadlineAt : option Z;
  st_idleDeadlineAt : option Z;
  st_timedOut : bool;
  st_abortAcknowledged : bool;
  st_outcomeCertainty : option OutcomeCertainty;
  st_startedAt : option Z;
}.

Record DurableTurnProgress := {
  pr_progressEpoch : Z;
  pr_progressKind : option jstr;
  pr_consecutiveNoProgress : Z;
  pr_physicalModelAttempt : Z;
  pr_logicalModelIteration : Z;
  pr_toolRepairAttempts : Z;
  pr_cumulativeToolMs : Z;
  pr_cumulativeActiveComputeMs : Z;
  pr_budgetReason : option jstr;
}.

Inductive ApprovalStatus := ApprovalPending | Approved | Denied | Expired.
#[export] Instance ApprovalStatus_eq_dec : EqDecision ApprovalStatus.
Proof. solve_decision. Defined.

Record DurableApproval := { ap_id : jstr; ap_stepId : option jstr; ap_status : ApprovalStatus }.

(** Of the journal of the session, the ids of its entries. *)
Record DurableTurnSnapshot := {
  sn_id : jstr;
  sn_tenantId : jstr;
  sn_state : TurnRunState;
  sn_version : Z;
  sn_cancelled : bool;
  sn_runtimeRequest : json;
  sn_sandboxId : option jstr;
  sn_progress : option DurableTurnProgress;
  sn_steps : list DurableTurnStep;
  sn_entries : list jstr;
  sn_approvals : list DurableApproval;
}.

(** [{ ...step, member: v }] *)
Definition set_state (v : StepState) (s : DurableTurnStep) : DurableTurnStep :=
  {| st_id := st_id s; st_sequence := st_sequence s; st_type := st_type s; st_state := v; st_input := st_input s; st_output
     := st_output s; st_retryClass := st_retryClass s; st_idempotencyKey := st_idempotencyKey s; st_attempt :=
     st_attempt s; st_error := st_error s; st_resultFingerprint := st_resultFingerprint s; st_deadlineAt :=
     st_deadlineAt s; st_idleDeadlineAt := st_idleDeadlineAt s; st_timedOut := st_timedOut s; st_abortAcknowledged :=
     st_abortAcknowledged s; st_outcomeCertainty := st_outcomeCertainty s; st_startedAt := st_startedAt s |}.

Definition set_error (v : option jstr) (s : DurableTurnStep) : DurableTurnStep :=
  {| st_id := st_id s; st_sequence := st_sequence s; st_type := st_type s; st_state := st_state s; st_input := st_input s;
     st_output := st_output s; st_retryClass := st_retryClass s; st_idempotencyKey := st_idempotencyKey s; st_attempt
     := st_attempt s; st_error := v; st_resultFingerprint := st_resultFingerprint s; st_deadlineAt := st_deadlineAt s;
     st_idleDeadlineAt := st_idleDeadlineAt s; st_timedOut := st_timedOut s; st_abortAcknowledged :=
     st_abortAcknowledged s; st_outcomeCertainty := st_outcomeCertainty s; st_startedAt := st_startedAt s |}.

Definition set_output (v : json) (s : DurableTurnStep) : DurableTurnStep :=
  {| st_id := st_id s; st_sequence := st_sequence s; st_type := st_type s; st_state := st_state s; st_input := st_input s;
     st_output := v; st_retryClass := st_retryClass s; st_idempotencyKey := st_idempotencyKey s; st_attempt :=
     st_attempt s; st_error := st_error s; st_resultFingerprint := st_resultFingerprint s; st_deadlineAt :=
     st_deadlineAt s; st_idleDeadlineAt := st_idleDeadlineAt s; st_timedOut := st_timedOut s; st_abortAcknowledged :=
     st_abortAcknowledged s; st_outcomeCertainty := st_outcomeCertainty s; st_startedAt := st_startedAt s |}.

Definition set_input (v : json) (s : DurableTurnStep) : DurableTurnStep :=
  {| st_id := st_id s; st_sequence := st_sequence s; st_type := st_type s; st_state := st_state s; st_input := v; st_output
     := st_output s; st_retryClass := st_retryClass s; st_idempotencyKey := st_idempotencyKey s; st_attempt :=
     st_attempt s; st_error := st_error s; st_resultFingerprint := st_resultFingerprint s; st_deadlineAt :=
     st_deadlineAt s; st_idleDeadlineAt := st_idleDeadlineAt s; st_timedOut := st_timedOut s; st_abortAcknowledged :=
     st_abortAcknowledged s; st_outcomeCertainty := st_outcomeCertainty s; st_startedAt := st_startedAt s |}.

Definition set_resultFingerprint (v : option jstr) (s : DurableTurnStep) : DurableTurnStep :=
  {| st_id := st_id s; st_sequence := st_sequence s; st_type := st_type s; st_state := st_state s; st_input := st_input s;
     st_output := st_output s; st_retryClass := st_retryClass s; st_idempotencyKey := st_idempotencyKey s; st_attempt
     := st_attempt s; st_error := st_error s; st_resultFingerprint := v; st_deadlineAt := st_deadlineAt s;
     st_idleDeadlineAt := st_idleDeadlineAt s; st_timedOut := st_timedOut s; st_abortAcknowledged :=
     st_abortAcknowledged s; st_outcomeCertainty := st_outcomeCertainty s; st_startedAt := st_startedAt s |}.

Definition set_outcomeCertainty (v : option OutcomeCertainty) (s : DurableTurnStep) : DurableTurnStep :=
  {| st_id := st_id s; st_sequence := st_sequence s; st_type := st_type s; st_state := st_state s; st_input := st_input s;
     st_output := st_output s; st_retryClass := st_retryClass s; st_idempotencyKey := st_idempotencyKey s; st_attempt
     := st_attempt s; st_error := st_error s; st_resultFingerprint := st_resultFingerprint s; st_deadlineAt :=
     st_deadlineAt s; st_idleDeadlineAt := st_idleDeadlineAt s; st_timedOut := st_timedOut s; st_abortAcknowledged :=
     st_abortAcknowledged s; st_outcomeCertainty := v; st_startedAt := st_startedAt s |}.

Definition set_deadlines (deadline idle : Z) (s : DurableTurnStep) : DurableTurnStep :=
  {| st_id := st_id s; st_sequence := st_sequence s; st_type := st_type s; st_state := st_state s; st_input := st_input s;
     st_output := st_output s; st_retryClass := st_retryClass s; st_idempotencyKey := st_idempotencyKey s; st_attempt
     := st_attempt s; st_error := st_error s; st_resultFingerprint := st_resultFingerprint s; st_deadlineAt := Some
     deadline; st_idleDeadlineAt := Some idle; st_timedOut := st_timedOut s; st_abortAcknowledged :=
     st_abortAcknowledged s; st_outcomeCertainty := st_outcomeCertainty s; st_startedAt := st_startedAt s |}.

Definition set_timedOut (timedOut acknowledged : bool) (s : DurableTurnStep) : DurableTurnStep :=
  {| st_id := st_id s; st_sequence := st_sequence s; st_type := st_type s; st_state := st_state s; st_input := st_input s;
     st_output := st_output s; st_retryClass := st_retryClass s; st_idempotencyKey := st_idempotencyKey s; st_attempt
     := st_attempt s; st_error := st_error s; st_resultFingerprint := st_resultFingerprint s; st_deadlineAt :=
     st_deadlineAt s; st_idleDeadlineAt := st_idleDeadlineAt s; st_timedOut := timedOut; st_abortAcknowledged :=
     acknowledged; st_outcomeCertainty := st_outcomeCertainty s; st_startedAt := st_startedAt s |}.

Definition IDENTICAL_TOOL_FAILURE_LIMIT : nat := 5.
Definition STORED_TOOL_ERROR_LIMIT : nat := Z.to_nat 4000.
Definition TOOL_REPEAT_HISTORY_LIMIT : nat := 32.
Definition DUPLICATE_TOOL_CALL_SUPPRESSED : jstr := js "duplicate_tool_call_suppressed".
Definition UNCHANGED_RETRY_REFUSED : jstr := js "unchanged_retry_refused".
Definition DUPLICATE_TOOL_CALL_LOOP : jstr := js "duplicate_tool_call_loop".
Definition TOOL_USE_STOPPED : jstr := js "tool_use_stopped".

Definition TERMINAL_STATES : list TurnRunState := [CompletedRun; FailedRun; CancelledRun; RecoveryRun].

(** ** Reading JSON *)

(** [record(value)] and [record(value)?.key]; [None] is [undefined] or [null]. *)
Definition record (v : option json) : option json := match v with Some (JObj l) => Some (JObj l) | _ => None end.
Definition field (k : string) (v : option json) : option json := v ← record v; member (js k) v.

Definition stringValue (v : option json) : option jstr :=
  match v with Some (JStr s) => if truthy (trim s) then Some s else None | _ => None end.

(** [step.input.key] *)
Definition input (k : string) (step : DurableTurnStep) : option json := member (js k) (st_input step).
Definition arguments (step : DurableTurnStep) : option json := input "arguments" step.
(** [step.input.arguments ?? {}] *)
Definition arguments_or_empty (step : DurableTurnStep) : json :=
  match arguments step with None | Some JNull => JObj [] | Some v => v end.

(** [record(step.output)?.failure], as a record. *)
Definition stored_failure (step : DurableTurnStep) : option json := record (field "failure" (Some (st_output step))).
Definition refused_before (step : DurableTurnStep) : bool :=
  bool_decide (stored_failure step ≫= member (js "refusedUnchangedRetry") = Some (JBool true)).

(** ** Steps *)

Definition is_state (s : StepState) (step : DurableTurnStep) : bool := bool_decide (st_state step = s).
Definition isUnfinishedStep (step : DurableTurnStep) : bool := is_state Pending step || is_state Running step || is_state Waiting step.
Definition isToolStep (step : DurableTurnStep) : bool := starts_with (js "tool.") (st_type step).
Definition toolCallIdForStep (step : DurableTurnStep) : jstr := default (st_id step) (stringValue (input "toolCallId" step)).
Definition toolNameForStep (step : DurableTurnStep) : jstr := default (drop 5 (st_type step)) (stringValue (input "toolName" step)).
Definition isRunnableToolStep (step : DurableTurnStep) : bool := isToolStep step && (is_state Pending step || is_state Running step).

Definition manual (step : DurableTurnStep) : bool := bool_decide (st_retryClass step = Some NonIdempotentManual).
Definition read_only (step : DurableTurnStep) : bool := bool_decide (st_retryClass step = Some ReadOnly).

Definition SANDBOX_TOOLS : list jstr := [js "bash"; js "edit"].
Definition holdsForReview (step : DurableTurnStep) : bool := manual step && negb (bool_decide (toolNameForStep step ∈ SANDBOX_TOOLS)).

Definition PARALLEL_READ_ONLY_TOOLS : list jstr := [js "read"; js "grep"; js "find"; js "ls"].
Definition BACKSLASH : N := 92%N.
Definition forward_slashes (s : jstr) : jstr := map (λ c, if (c =? BACKSLASH)%N then 47%N else c) s.

Definition isParallelReadOnlyToolStep (step : DurableTurnStep) : bool :=
  let toolName := toolNameForStep step in
  let parallel := bool_decide (toolName ∈ PARALLEL_READ_ONLY_TOOLS) in
  if parallel && match stringValue (field "path" (arguments step)) with
                 | Some p => includes (js "/runtime-skills/") (forward_slashes p)
                 | None => false
                 end
  then false
  else isRunnableToolStep step && read_only step
       && negb (bool_decide (input "requiresApproval" step = Some (JBool true))) && parallel.

Definition hasAmbiguousNonIdempotentTool (snapshot : DurableTurnSnapshot) : bool :=
  bool_decide (sn_state snapshot = ExecutingTool)
  && existsb (λ step, isToolStep step && is_state Running step && manual step) (sn_steps snapshot).
Definition hasRunningHeldTool (snapshot : DurableTurnSnapshot) : bool :=
  bool_decide (sn_state snapshot = ExecutingTool)
  && existsb (λ step, isToolStep step && is_state Running step && holdsForReview step) (sn_steps snapshot).

Definition modelIteration (steps : list DurableTurnStep) : Z :=
  Z.of_nat (length (List.filter (λ step, bool_decide (st_type step = js "model.call")) steps)).
Definition nextStepSequence (steps : list DurableTurnStep) : Z :=
  (match last steps with Some step => st_sequence step | None => -1 end + 1)%Z.

(** [sort] with a comparison of sequences: the sort is stable. *)
Fixpoint insert_by {A} (le : A → A → bool) (a : A) (l : list A) : list A :=
  match l with
  | [] => [a]
  | x :: l' => if le a x then a :: l else x :: insert_by le a l'
  end.
Definition sort_by {A} (le : A → A → bool) (l : list A) : list A := foldr (insert_by le) [] l.
Definition ascending (a b : DurableTurnStep) : bool := (st_sequence a <=? st_sequence b)%Z.
Definition descending (a b : DurableTurnStep) : bool := (st_sequence b <=? st_sequence a)%Z.

(** ** Policies *)

Record DurableToolPolicy := {
  po_retryClass : ToolRetryClass;
  po_repeatPolicy : ToolRepeatPolicy;
  po_requiresApproval : bool;
  po_approvalKind : jstr;
}.

Definition durableToolPolicy (name permissionMode : jstr) : DurableToolPolicy :=
  let is_ (s : string) := bool_decide (name = js s) in
  let full := bool_decide (permissionMode = js "full-access") in
  let edits := bool_decide (permissionMode ∈ [js "auto-edit"; js "full-access"]) in
  if is_ "read" || is_ "check_environment" || is_ "find" || is_ "ls" || is_ "grep" || is_ "bash"
  then {| po_retryClass := if is_ "bash" then NonIdempotentManual else ReadOnly; po_repeatPolicy := CompareResult;
          po_requiresApproval := if is_ "bash" then negb full else false;
          po_approvalKind := if is_ "bash" then js "shell" else js "file-edit" |}
  else if is_ "activate_skill" || is_ "ask_user_question" || is_ "compose_message"
  then {| po_retryClass := ReadOnly; po_repeatPolicy := BlockAfterSuccess; po_requiresApproval := false; po_approvalKind := js "file-edit" |}
  else if is_ "write"
  then {| po_retryClass := Idempotent; po_repeatPolicy := BlockAfterSuccess; po_requiresApproval := negb edits; po_approvalKind := js "file-edit" |}
  else if is_ "edit"
  then {| po_retryClass := NonIdempotentManual; po_repeatPolicy := BlockAfterSuccess; po_requiresApproval := negb edits; po_approvalKind := js "file-edit" |}
  else if is_ "persist_artifact"
  then {| po_retryClass := IdempotentWithKey; po_repeatPolicy := BlockAfterSuccess; po_requiresApproval := false; po_approvalKind := js "file-edit" |}
  else if is_ "upload_file"
  then {| po_retryClass := Idempotent; po_repeatPolicy := BlockAfterSuccess; po_requiresApproval := negb full; po_approvalKind := js "shell" |}
  else if is_ "inspect_images"
  then {| po_retryClass := IdempotentWithKey; po_repeatPolicy := CompareResult; po_requiresApproval := false; po_approvalKind := js "file-edit" |}
  else if is_ "create_image"
  then {| po_retryClass := NonIdempotentManual; po_repeatPolicy := BlockAfterSuccess; po_requiresApproval := false; po_approvalKind := js "file-edit" |}
  else {| po_retryClass := NonIdempotentManual; po_repeatPolicy := BlockAfterSuccess; po_requiresApproval := negb full; po_approvalKind := js "shell" |}.

Definition APPROVAL_KINDS : list jstr :=
  map js ["file-edit"; "shell"; "terminal"; "mcp"; "browser"; "credential"; "workspace-trust"]%string.
Definition approvalKind (value : option json) : jstr :=
  match value with Some (JStr s) => if bool_decide (s ∈ APPROVAL_KINDS) then s else js "shell" | _ => js "shell" end.

Definition NON_OBSERVATIONAL_READ_ONLY_TOOLS : list jstr := [js "ask_user_question"; js "compose_message"].

Definition policy_text (p : ToolRepeatPolicy) : jstr :=
  match p with CompareResult => js "compare_result" | BlockAfterSuccess => js "block_after_success" | BoundedPolling => js "bounded_polling" end.
(** [isToolRepeatPolicy], with the policy. *)
Definition isToolRepeatPolicy (value : option json) : option ToolRepeatPolicy :=
  match value with
  | Some (JStr s) => find_first (λ p, bool_decide (policy_text p = s)) [CompareResult; BlockAfterSuccess; BoundedPolling]
  | _ => None
  end.

Definition repeatPolicyForStep (step : DurableTurnStep) : ToolRepeatPolicy :=
  match isToolRepeatPolicy (input "repeatPolicy" step) with
  | Some persisted => persisted
  | None =>
      let toolName := toolNameForStep step in
      if bool_decide (toolName ∈ map js ["read"; "grep"; "find"; "ls"; "bash"; "inspect_images"]%string) then CompareResult
      else if read_only step && negb (bool_decide (toolName ∈ NON_OBSERVATIONAL_READ_ONLY_TOOLS)) then CompareResult
      else BlockAfterSuccess
  end.

Definition declaredPolling (step : DurableTurnStep) : bool := bool_decide (repeatPolicyForStep step = BoundedPolling).
Definition supportsResultOnlyNoProgress (step : DurableTurnStep) : bool :=
  (bool_decide (repeatPolicyForStep step = CompareResult) || bool_decide (repeatPolicyForStep step = BoundedPolling))
  && negb (bool_decide (toolNameForStep step ∈ NON_OBSERVATIONAL_READ_ONLY_TOOLS)).

(** ** Limits of a run *)

Inductive ToolClass := ClassRead | ClassCommand | ClassConnector | ClassImage | ClassDefault.
#[export] Instance ToolClass_eq_dec : EqDecision ToolClass.
Proof. solve_decision. Defined.

Record ToolExecutionLimit := { idleTimeoutMs : Z; maxDurationMs : Z }.

Definition DEFAULT_TOOL_LIMITS (c : ToolClass) : ToolExecutionLimit :=
  match c with
  | ClassRead => {| idleTimeoutMs := 120000; maxDurationMs := 15 * 60000 |}
  | ClassCommand => {| idleTimeoutMs := 180000; maxDurationMs := 20 * 60000 |}
  | ClassConnector => {| idleTimeoutMs := 120000; maxDurationMs := 15 * 60000 |}
  | ClassImage => {| idleTimeoutMs := 15 * 60000; maxDurationMs := 30 * 60000 |}
  | ClassDefault => {| idleTimeoutMs := 120000; maxDurationMs := 15 * 60000 |}
  end%Z.

Record Options := {
  op_toolIdleTimeoutMs : option Z;
  op_toolMaxDurationMs : option Z;
  op_toolClassLimits : ToolClass → option ToolExecutionLimit;
  op_maxCumulativeToolTimeMs : option Z;
  op_noProgressWarningThreshold : option Z;
  op_noProgressHardThreshold : option Z;
  op_maxToolRepairAttempts : option Z;
  op_snapshotIntervalSeconds : option Z;
  op_enforceRepeatGuard : bool;
}.

Definition toolClass (toolName : jstr) : ToolClass :=
  if bool_decide (toolName ∈ map js ["create_image"; "inspect_images"]%string) then ClassImage
  else if bool_decide (toolName ∈ PARALLEL_READ_ONLY_TOOLS) || bool_decide (toolName = js "read") then ClassRead
  else if bool_decide (toolName ∈ map js ["bash"; "write"; "edit"; "mkdir"; "move"; "copy"; "delete"]%string) then ClassCommand
  else if existsb (λ prefix, starts_with prefix toolName) (map js ["browser"; "calendar"; "drive"; "mail"; "mcp"]%string) then ClassConnector
  else ClassDefault.

Definition toolExecutionLimits (toolName : jstr) (options : Options) : ToolExecutionLimit :=
  let category := toolClass toolName in
  let configured := nullish (op_toolClassLimits options category) (DEFAULT_TOOL_LIMITS category) in
  {| idleTimeoutMs := Z.max 1 (nullish (op_toolIdleTimeoutMs options) (idleTimeoutMs configured));
     maxDurationMs := Z.max 1 (nullish (op_toolMaxDurationMs options) (maxDurationMs configured)) |}.

Definition DEFAULT_CUMULATIVE_TOOL_TIME_MS : Z := 30 * 60000.
Definition DEFAULT_NO_PROGRESS_WARNING_THRESHOLD : Z := 3.
Definition DEFAULT_NO_PROGRESS_HARD_THRESHOLD : Z := 5.

Definition cumulativeToolBudget (options : Options) : Z :=
  Z.max 60000 (nullish (op_maxCumulativeToolTimeMs options) DEFAULT_CUMULATIVE_TOOL_TIME_MS).
Definition noProgressWarningThreshold (options : Options) : Z :=
  Z.max 1 (nullish (op_noProgressWarningThreshold options) DEFAULT_NO_PROGRESS_WARNING_THRESHOLD).
Definition noProgressHardThreshold (options : Options) : Z :=
  Z.max (noProgressWarningThreshold options + 1) (nullish (op_noProgressHardThreshold options) DEFAULT_NO_PROGRESS_HARD_THRESHOLD).

Definition identicalToolFailureLimit (step : DurableTurnStep) : nat :=
  if bool_decide (toolNameForStep step = js "activate_skill") then 3 else IDENTICAL_TOOL_FAILURE_LIMIT.
