(* ===== verification/TurnCalls.v ===== *)
(** * When two tool calls are the same, and fail the same

    apps/worker/src/turn-runner.ts: the spelling of paths in arguments and errors,
    the fingerprints of calls and results, and what the steps of a turn say about
    the next call: failures with the same error, repeats of a call that cannot
    succeed unchanged, earlier calls that may have taken effect, repeated results. *)

From S2P Require Import Prelude JsMap JsString Json RegExp ExecPolicy ProviderErrors ToolFailures TurnSteps.
From Stdlib Require Import Lia.

Set Default Goal Selector "!".

(** ** Spelling of paths *)

Definition SLASH : N := 47%N.
Definition DOT : N := 46%N.
Definition is_quote (c : N) : bool := ((c =? 39) || (c =? 34) || (c =? 96))%N.

Fixpoint span {A} (p : A → bool) (s : list A) : list A * list A :=
  match s with
  | c :: s' => if p c then let '(a, b) := span p s' in (c :: a, b) else ([], s)
  | [] => ([], [])
  end.

Definition PATH_ARGUMENT_KEY : jstr := js "(?:path|file|dir|directory|cwd|target|source|destination|src|dest)s?$".
Definition URL_PATTERN : jstr := js "^[a-z][a-z\d+.-]*:\/\/".

(** Runs of slashes become one. *)
Fixpoint single_slashes (s : jstr) : jstr :=
  match s with
  | c :: s' =>
      if (c =? SLASH)%N && match s' with d :: _ => (d =? SLASH)%N | [] => false end
      then single_slashes s'
      else c :: single_slashes s'
  | [] => []
  end.

(** Each [/.] before a slash or the end removed. *)
Fixpoint drop_dot_segments (s : jstr) : jstr :=
  match s with
  | c :: ((d :: s'') as s') =>
      if (c =? SLASH)%N && (d =? DOT)%N && match s'' with e :: _ => (e =? SLASH)%N | [] => true end
      then drop_dot_segments s''
      else c :: drop_dot_segments s'
  | _ => s
  end.

(** A first [./], and a last slash, removed. *)
Definition drop_leading_dot (s : jstr) : jstr :=
  match s with c :: d :: s' => if (c =? DOT)%N && (d =? SLASH)%N then s' else s | _ => s end.
Definition drop_last_slash (s : jstr) : jstr :=
  match reverse s with c :: r => if (c =? SLASH)%N then reverse r else s | [] => s end.

Definition cosmeticPath (value workspaceRoot : jstr) : jstr :=
  let trimmed := trim value in
  if existsb is_ws trimmed || re_test_i URL_PATTERN trimmed then value
  else
    let path := drop_leading_dot (drop_dot_segments (single_slashes trimmed)) in
    let path := if bool_decide (path = workspaceRoot) || starts_with (workspaceRoot ++ [SLASH]) path
                then drop (S (length workspaceRoot)) path else path in
    if (1 <? length path)%nat then drop_last_slash path else path.

(** ** Texts of errors *)

Definition lower_unit (c : N) : N := if ((65 <=? c) && (c <=? 90))%N then (c + 32)%N else c.

(** The text after [p], compared without case. *)
Fixpoint strip_prefix_i (p s : jstr) : option jstr :=
  match p, s with
  | [], _ => Some s
  | a :: p, c :: s => if (lower_unit a =? lower_unit c)%N then strip_prefix_i p s else None
  | _ :: _, [] => None
  end.

Definition digits1 (s : jstr) : option jstr :=
  match span is_digit s with ([], _) => None | (_, s) => Some s end.

(** The text after the note of a repair attempt. *)
Definition strip_repair_prefix (s : jstr) : option jstr :=
  s ← strip_prefix_i (js "Tool failed (repair attempt ") s;
  s ← digits1 s;
  s ← strip_prefix_i [SLASH] s;
  s ← digits1 s;
  strip_prefix_i (js ").") (span (λ c, negb (c =? 41 (* ) *))%N) s).2.

Definition toolFailureIdentity (value : option jstr) : jstr :=
  match value with
  | Some v => let v := trim v in match strip_repair_prefix v with Some r => trim_start r | None => v end
  | None => []
  end.

(** A run of units that are neither white space nor quotes. *)
Definition path_unit (c : N) : bool := negb (is_ws c) && negb (is_quote c).
Definition has_slash (s : jstr) : bool := existsb (λ c, (c =? SLASH)%N) s.

(** The paths of a text, quoted or not, one after the other. *)
Fixpoint replace_paths (fuel : nat) (f : jstr → jstr) (s : jstr) : jstr :=
  match fuel, s with
  | O, _ | _, [] => s
  | S fuel, c :: s' =>
      if is_quote c then
        let '(run, rest) := span path_unit s' in
        match rest with
        | d :: rest' => if has_slash run && (d =? c)%N then c :: f run ++ c :: replace_paths fuel f rest' else c :: replace_paths fuel f s'
        | [] => c :: replace_paths fuel f s'
        end
      else if is_ws c then c :: replace_paths fuel f s'
      else let '(run, rest) := span path_unit s in
           (if has_slash run then f run else run) ++ replace_paths fuel f rest
  end.

(** Texts in quotes, within a line. *)
Fixpoint mask_quoted (fuel : nat) (s : jstr) : jstr :=
  match fuel, s with
  | O, _ | _, [] => s
  | S fuel, c :: s' =>
      if is_quote c then
        match span (λ d, negb (is_quote d) && negb (d =? NL)%N) s' with
        | (_, d :: rest) => if (d =? c)%N then js "<quoted>" ++ mask_quoted fuel rest else c :: mask_quoted fuel s'
        | (_, []) => c :: mask_quoted fuel s'
        end
      else c :: mask_quoted fuel s'
  end.

(** Runs with a slash. *)
Fixpoint mask_paths (fuel : nat) (s : jstr) : jstr :=
  match fuel, s with
  | O, _ | _, [] => s
  | S fuel, c :: s' =>
      if path_unit c
      then let '(run, rest) := span path_unit s in (if has_slash run then js "<path>" else run) ++ mask_paths fuel rest
      else c :: mask_paths fuel s'
  end.

Definition is_hex (c : N) : bool := is_digit c || ((97 <=? lower_unit c) && (lower_unit c <=? 102))%N.

(** Words of six or more hex digits, and numbers, for the unit before. *)
Fixpoint mask_numbers (fuel : nat) (before : option N) (s : jstr) : jstr :=
  match fuel, s with
  | O, _ | _, [] => s
  | S fuel, c :: s' =>
      let '(hex, after_hex) := span is_hex s in
      let boundary := negb (match before with Some b => is_word b | None => false end) in
      let ends_word := negb (match after_hex with d :: _ => is_word d | [] => false end) in
      if boundary && (6 <=? length hex)%nat && ends_word then js "<n>" ++ mask_numbers fuel (last hex) after_hex
      else if is_digit c then let '(digits, rest) := span is_digit s in js "<n>" ++ mask_numbers fuel (last digits) rest
      else c :: mask_numbers fuel (Some c) s'
  end.

(** Whether a stored error may have been cut. *)
Definition strip_stored_prefix (s : jstr) : jstr :=
  let exact := starts_with (js "Tool failed (repair attempt ") s in
  match strip_repair_prefix s with
  | Some (32%N :: r) => if exact then r else s
  | _ => s
  end.
Definition storedErrorMayBeCut (error : option jstr) : bool :=
  match error with Some e => (STORED_TOOL_ERROR_LIMIT <=? length (strip_stored_prefix e))%nat | None => false end.

Definition first_line (s : jstr) : jstr := hd [] (split_on NL s).

(** ** Canonical arguments *)

Section calls.
Context (locale_le : jstr → jstr → bool) (sha256 : jstr → jstr).

Definition sort_members {A} (l : list (jstr * A)) : list (jstr * A) := sort_by (λ a b, locale_le a.1 b.1) l.

Fixpoint canonicalizeToolArguments (value : json) : json :=
  match value with
  | JArr l => JArr (map canonicalizeToolArguments l)
  | JObj l => JObj (sort_members (map (λ '(k, v), (k, canonicalizeToolArguments v)) l))
  | _ => value
  end.

Definition REPEAT_ARGUMENT_IGNORED_KEYS : list jstr := map js
  ["timeout"; "timeout_ms"; "request_id"; "requestId"; "tool_call_id"; "toolCallId"; "idempotency_key"; "idempotencyKey"]%string.

Fixpoint canonicalizeRepeatArguments (value : json) : json :=
  match value with
  | JArr l => JArr (map canonicalizeRepeatArguments l)
  | JObj l => JObj (sort_members (List.filter (λ kv, negb (bool_decide (kv.1 ∈ REPEAT_ARGUMENT_IGNORED_KEYS)))
                      (map (λ '(k, v), (k, canonicalizeRepeatArguments v)) l)))
  | _ => value
  end.

Fixpoint cosmeticArguments (workspaceRoot key : jstr) (value : json) : json :=
  match value with
  | JStr s => JStr (if re_test_i PATH_ARGUMENT_KEY key then cosmeticPath s workspaceRoot else s)
  | JArr l => JArr (map (cosmeticArguments workspaceRoot key) l)
  | JObj l => JObj (sort_members (map (λ '(k, v), (k, cosmeticArguments workspaceRoot k v)) l))
  | _ => value
  end.

Definition COMMAND : jstr := js "command".

(** One round of the loop over the aliases of [command]. *)
Definition unalias (args : list (jstr * json)) (alias : jstr) : list (jstr * json) :=
  match map_get alias args with
  | None => args
  | Some v => map_delete alias (match map_get COMMAND args with None => map_set COMMAND v args | Some _ => args end)
  end.

Definition repeatArgumentsForSignature (toolName : jstr) (value : json) : json :=
  if negb (bool_decide (toolName = js "bash")) then canonicalizeRepeatArguments value
  else
    match value with
    | JStr s => JObj [(COMMAND, JStr (trim s))]
    | JObj l =>
        let args := fold_left unalias [js "cmd"; js "shellCommand"; js "shell_command"] l in
        let args := match map_get COMMAND args with Some (JStr s) => map_set COMMAND (JStr (trim s)) args | _ => args end in
        canonicalizeRepeatArguments (JObj args)
    | _ => canonicalizeRepeatArguments value
    end.

(** [sha256(JSON.stringify(value) ?? String(value))] *)
Definition digest (value : option json) : jstr :=
  sha256 (match value with Some v => stringify v | None => js "undefined" end).
Definition toolArgumentFingerprint (value : option json) : jstr := digest (canonicalizeToolArguments <$> value).

Definition progressFingerprint (runId : jstr) (value : json) : jstr :=
  sha256 (runId ++ js ":result:" ++ stringify (canonicalizeToolArguments value)).

(** ** The snapshot and the environment *)

Context (toLowerCase toUpperCase : jstr → jstr) (sandbox_cwd : option jstr).

(** Slashes at the end removed. *)
Definition strip_trailing_slashes (s : jstr) : jstr := reverse (span (λ c, (c =? SLASH)%N) (reverse s)).2.

Definition durableWorkspacePath (snapshot : DurableTurnSnapshot) : jstr :=
  let configured := default [] (trim <$> sandbox_cwd) in
  let value := or_str configured (nullish (stringValue (member (js "workspacePath") (sn_runtimeRequest snapshot))) (js "/workspace")) in
  or_str (strip_trailing_slashes (forward_slashes value)) (js "/workspace").

Definition toolRepeatSignature (step : DurableTurnStep) : jstr :=
  let toolName := toLowerCase (trim (toolNameForStep step)) in
  digest (Some (JObj [(js "toolName", JStr toolName);
                      (js "arguments", repeatArgumentsForSignature toolName (arguments_or_empty step))])).

Definition failureArgumentFingerprint (snapshot : DurableTurnSnapshot) (step : DurableTurnStep) : jstr :=
  toolArgumentFingerprint (cosmeticArguments (durableWorkspacePath snapshot) [] <$> arguments step).

Definition failureIdentity (snapshot : DurableTurnSnapshot) (value : option jstr) : jstr :=
  let text := toolFailureIdentity value in
  replace_paths (length text) (λ path, cosmeticPath path (durableWorkspacePath snapshot)) text.

Definition maskedFailure (value : option jstr) : jstr :=
  let text := toolFailureIdentity value in
  let text := mask_quoted (length text) text in
  let text := mask_paths (length text) text in
  toLowerCase (mask_numbers (length text) None text).

Definition resultFingerprintForStep (snapshot : DurableTurnSnapshot) (step : DurableTurnStep) : option jstr :=
  if truthy_opt (st_resultFingerprint step) then st_resultFingerprint step
  else match st_output step with JNull => None | output => Some (progressFingerprint (sn_id snapshot) output) end.

(** ** Failures of the same call *)

(** The earlier steps of the same type with the same arguments, latest first. *)
Definition preceding_same (snapshot : DurableTurnSnapshot) (step : DurableTurnStep) : list DurableTurnStep :=
  let fingerprint := failureArgumentFingerprint snapshot step in
  sort_by descending (List.filter (λ candidate,
    (st_sequence candidate <? st_sequence step)%Z && bool_decide (st_type candidate = st_type step)
    && bool_decide (failureArgumentFingerprint snapshot candidate = fingerprint)) (sn_steps snapshot)).

(** The loop over them while they fail with one error, for what it has seen. *)
Fixpoint repeated_loop (snapshot : DurableTurnSnapshot) (limit : nat) (error : option jstr) (count : nat)
    (l : list DurableTurnStep) : option jstr :=
  match l with
  | [] => None
  | candidate :: l =>
      let e := failureIdentity snapshot (st_error candidate) in
      if negb (is_state Failed candidate) || negb (truthy e)
         || match error with Some r => negb (bool_decide (e = r)) | None => false end
      then None
      else if (limit <=? S count)%nat then Some (take (Z.to_nat 1000) e)
      else repeated_loop snapshot limit (Some e) (S count) l
  end.

Definition repeatedToolFailure (snapshot : DurableTurnSnapshot) (step : DurableTurnStep) : option jstr :=
  repeated_loop snapshot (identicalToolFailureLimit step) None 0 (preceding_same snapshot step).

Fixpoint matching_loop (snapshot : DurableTurnSnapshot) (error : option jstr) (l : list DurableTurnStep) : nat :=
  match l with
  | [] => 0
  | candidate :: l =>
      let e := failureIdentity snapshot (st_error candidate) in
      if negb (is_state Failed candidate) || negb (truthy e)
         || match error with Some r => negb (bool_decide (e = r)) | None => false end
      then 0
      else S (matching_loop snapshot (Some e) l)
  end.

Definition matchingToolFailureCount (snapshot : DurableTurnSnapshot) (step : DurableTurnStep) : nat :=
  matching_loop snapshot None (preceding_same snapshot step).

Fixpoint same_error_loop (masked : jstr) (l : list DurableTurnStep) : nat :=
  match l with
  | [] => 0
  | candidate :: l =>
      if negb (is_state Failed candidate) || negb (bool_decide (maskedFailure (st_error candidate) = masked)) then 0
      else S (same_error_loop masked l)
  end.

Definition sameErrorRun (snapshot : DurableTurnSnapshot) (step : DurableTurnStep) (message : jstr) : nat :=
  S (same_error_loop (maskedFailure (Some message))
       (sort_by descending (List.filter (λ candidate,
          (st_sequence candidate <? st_sequence step)%Z && bool_decide (st_type candidate = st_type step)) (sn_steps snapshot)))).

(** ** Retries of a call that cannot succeed unchanged *)

Record UnchangedFailedRetry := { ur_previous : DurableTurnStep; ur_failure : ToolFailure; ur_previousError : jstr }.

Definition first_error_line (error : option jstr) : jstr := take (Z.to_nat 500) (first_line (toolFailureIdentity error)).

(** A call between the two that ran. *)
Definition ran_between (previous step candidate : DurableTurnStep) : bool :=
  (st_sequence previous <? st_sequence candidate)%Z && (st_sequence candidate <? st_sequence step)%Z
  && isToolStep candidate
  && (is_state Completed candidate
      || is_state Failed candidate
         && negb (bool_decide (st_error candidate = Some DUPLICATE_TOOL_CALL_SUPPRESSED))
         && negb (refused_before candidate)).

Definition unchangedFailedRetry (snapshot : DurableTurnSnapshot) (step : DurableTurnStep) : option UnchangedFailedRetry :=
  match preceding_same snapshot step with
  | [] => None
  | previous :: _ =>
      if negb (is_state Failed previous) then None
      else
        failure ← storedToolFailure (st_output previous);
        let previousError := match stringValue (stored_failure previous ≫= member (js "previousError")) with
                             | Some e => e
                             | None => first_error_line (st_error previous)
                             end in
        let ranBetween := List.filter (ran_between previous step) (sn_steps snapshot) in
        let refusal := Some {| ur_previous := previous; ur_failure := failure; ur_previousError := previousError |} in
        if bool_decide (tf_category failure ∈ map category_text [Credentials; Configuration; CreditExhausted]) then refusal
        else if bool_decide (tf_category failure ∈ map category_text [InvalidInput; MissingResource])
        then if existsb (λ candidate, negb (read_only candidate)) ranBetween then None else refusal
        else None
  end.

(** ** Earlier calls that may have taken effect *)

Definition with_outcome (o : Outcome) (f : ToolFailure) : ToolFailure :=
  {| tf_category := tf_category f; tf_deterministic := tf_deterministic f; tf_outcome := o;
     tf_outcomeVersion := tf_outcomeVersion f; tf_status := tf_status f; tf_code := tf_code f; tf_action := tf_action f |}.

(** An [Error] with a text, and further members. *)
Definition error_object (name text : jstr) (members : list (jstr * thrown)) : object :=
  {| ob_properties := members ++ [(js "name", Str name); (js "message", Str text)];
     ob_array := false; ob_error := true; ob_argumentError := false |}.

(** The stored text of a failed step, as the error it is classified as. *)
Definition stored_error (step : DurableTurnStep) : object :=
  let text := toolFailureIdentity (st_error step) in
  let toolName := toolNameForStep step in
  let localArgumentRefusal := starts_with (toolName ++ js " was not run: ") text in
  let mayHaveRun := (starts_with (js "mcp__") toolName || bool_decide (toolName = js "create_image")) && negb localArgumentRefusal in
  error_object (js "Error") text
    (match storedToolFailure (st_output step) ≫= tf_status with Some s => [(js "status", Num (JInt s))] | None => [] end
     ++ (if mayHaveRun then [(js "toolCallPhase", Str (js "dispatched"))] else [])).

Definition certainty_unknown (step : DurableTurnStep) : bool := bool_decide (st_outcomeCertainty step = Some CertaintyUnknown).

(** What the stored text says, for a call that began and is not repeated by itself. *)
Definition reclassified (step : DurableTurnStep) : option ToolFailure :=
  if negb (manual step) || (st_attempt step =? 0)%Z then None
  else
    let failure := classifyToolFailure toLowerCase toUpperCase {[0%nat := stored_error step]} (Ref 0) true false in
    let uncertain := certainty_unknown step || storedErrorMayBeCut (st_error step) in
    if bool_decide (tf_outcome failure = OutcomeUnknown) || uncertain then Some (with_outcome OutcomeUnknown failure) else None.

Definition uncertainFailure (step : DurableTurnStep) : option ToolFailure :=
  if refused_before step then None
  else
    match storedToolFailure (st_output step) with
    | Some f =>
        if bool_decide (tf_outcome f = OutcomeUnknown) then Some f
        else if bool_decide (tf_outcomeVersion f = Some TOOL_FAILURE_OUTCOME_VERSION) && negb (certainty_unknown step) then None
        else reclassified step
    | None => reclassified step
    end.

(** The uncertain calls a held call was waiting for. *)
Definition heldByIds (step : DurableTurnStep) : list jstr :=
  match input "heldBy" step with
  | Some (JArr l) => omap (λ v, match v with JStr s => Some s | _ => None end) l
  | _ => []
  end.

Definition resolved_ids (snapshot : DurableTurnSnapshot) (step : DurableTurnStep) : list jstr :=
  heldByIds step
  ++ flat_map (λ candidate, if bool_decide (st_type candidate = st_type step) && is_state Completed candidate
                            then heldByIds candidate else []) (sn_steps snapshot).

Definition uncertainEarlierCalls (snapshot : DurableTurnSnapshot) (step : DurableTurnStep) : list (DurableTurnStep * ToolFailure) :=
  let resolved := resolved_ids snapshot step in
  omap (λ candidate, (λ failure, (candidate, failure)) <$> uncertainFailure candidate)
    (sort_by descending (List.filter (λ candidate,
       (st_sequence candidate <? st_sequence step)%Z && bool_decide (st_type candidate = st_type step)
       && is_state Failed candidate && negb (bool_decide (st_id candidate ∈ resolved))) (sn_steps snapshot))).

(** ** Notes for the model *)

Definition SANDBOX_INTERRUPTED_ACTION : jstr := js "It stopped before it finished, so it may have done some, all or none of its work. Check the workspace and continue.".
Definition SANDBOX_EARLIER_EFFECTS : jstr := js " Whatever it did before the error has already happened. Fix the problem and continue; do not repeat a step that sent or changed something outside the sandbox (for example an API request) unless you know it did not happen.".

Definition unknown_outcome_class (failure : ToolFailure) : bool := bool_decide (tf_category failure = category_text UnknownOutcome).

Definition toolFailureNote (failure : ToolFailure) (step : DurableTurnStep) : jstr :=
  let unknown := bool_decide (tf_outcome failure = OutcomeUnknown) in
  let class_ := js "Failure class: " ++ tf_category failure ++ js ". " in
  let own_action := default [] (tf_action failure) in
  if negb (holdsForReview step) then
    class_ ++ (if unknown_outcome_class failure then SANDBOX_INTERRUPTED_ACTION else own_action)
    ++ (if unknown then SANDBOX_EARLIER_EFFECTS else [])
  else
    class_ ++ own_action
    ++ (if unknown && negb (unknown_outcome_class failure)
        then js " This call may already have changed something, so the next call of this tool waits for the user to review it."
        else []).

Definition unchangedRetryMessage (retry : UnchangedFailedRetry) : jstr :=
  join [NL]
    [js "Not run: this exact call already failed in this task, and nothing since could make it succeed.";
     js "Previous error: " ++ ur_previousError retry;
     toolFailureNote (ur_failure retry) (ur_previous retry)].

(** ** Repeated calls and results *)

(** The latest change of a file, by a completed step before [step] that [f] accepts, or -1. *)
Definition latest_change (f : DurableTurnStep → bool) (snapshot : DurableTurnSnapshot) (step : DurableTurnStep) : Z :=
  fold_left (λ latest candidate,
    if negb (is_state Completed candidate) || (st_sequence step <=? st_sequence candidate)%Z
       || (st_sequence candidate <=? latest)%Z || negb (f candidate)
    then latest else st_sequence candidate) (sn_steps snapshot) (-1)%Z.

Definition basename (path : jstr) : option jstr := last (List.filter truthy (split_on SLASH path)).
Definition path_argument (step : DurableTurnStep) : jstr := trim (default [] (stringValue (field "path" (arguments step)))).

Definition writes_or_edits (step : DurableTurnStep) : bool :=
  bool_decide (toolNameForStep step = js "write") || bool_decide (toolNameForStep step = js "edit").

Definition lastChangeOfPublishedFile (snapshot : DurableTurnSnapshot) (step : DurableTurnStep) : Z :=
  let path := path_argument step in
  if negb (truthy path) then (-1)%Z
  else
    let base := default [] (basename path) in
    let names text := includes path text || includes [DOT] base && includes base text in
    latest_change (λ candidate,
      let text := if bool_decide (toolNameForStep candidate = js "bash") then stringValue (field "command" (arguments candidate))
                  else if writes_or_edits candidate then stringValue (field "path" (arguments candidate))
                  else None in
      match text with Some text => names text | None => false end) snapshot step.

Definition lastEditOfReferencedFile (snapshot : DurableTurnSnapshot) (step : DurableTurnStep) : Z :=
  let argumentsText := stringify (arguments_or_empty step) in
  latest_change (λ candidate,
    writes_or_edits candidate
    && (let path := path_argument candidate in
        truthy path
        && (includes path argumentsText
            || match basename path with
               | Some base => includes [DOT] base && includes base argumentsText
               | None => false
               end))) snapshot step.

Definition QUOTES : jstr := [91; 34; 39; 93; 63]%N.
Definition PENDING_JOB_STATE : jstr :=
  js "(?:status|state|job_?status)\?" ++ QUOTES ++ js "\s*[:=]\s*\?" ++ QUOTES
  ++ js "(?:running|pending|queued|processing|in[_ -]?progress|started|scraping|waiting)".

Definition reportsPendingJobState (output : json) : bool :=
  match output with
  | JNull => false
  | _ => re_test_i PENDING_JOB_STATE (take (Z.to_nat 20000) (match output with JStr s => s | _ => stringify output end))
  end.

Inductive RepeatDecision := Allow | AllowWithWarning | Suppress | Terminate.
#[export] Instance RepeatDecision_eq_dec : EqDecision RepeatDecision.
Proof. solve_decision. Defined.

Record ToolRepeatAssessment := {
  ra_signature : jstr;
  ra_policy : ToolRepeatPolicy;
  ra_priorCompletedCount : nat;
  ra_consecutiveSameResultCount : nat;
  ra_priorSuppressionCount : nat;
  ra_decision : RepeatDecision;
}.

Definition freshSince (snapshot : DurableTurnSnapshot) (step : DurableTurnStep) : Z :=
  if bool_decide (repeatPolicyForStep step = CompareResult) then lastEditOfReferencedFile snapshot step
  else if bool_decide (toolNameForStep step = js "persist_artifact") then lastChangeOfPublishedFile snapshot step
  else (-1)%Z.

(** The earlier steps with the same signature since then, in order. *)
Definition relevant_steps (snapshot : DurableTurnSnapshot) (step : DurableTurnStep) : list DurableTurnStep :=
  let signature := toolRepeatSignature step in
  let fresh := freshSince snapshot step in
  last_n TOOL_REPEAT_HISTORY_LIMIT (sort_by ascending (List.filter (λ candidate,
    negb (bool_decide (st_id candidate = st_id step)) && (st_sequence candidate <? st_sequence step)%Z
    && (fresh <? st_sequence candidate)%Z && isToolStep candidate
    && bool_decide (toolRepeatSignature candidate = signature)) (sn_steps snapshot))).

Definition suppressed_step (step : DurableTurnStep) : bool :=
  is_state Failed step && bool_decide (st_error step = Some DUPLICATE_TOOL_CALL_SUPPRESSED).

(** How many of the last results are the last one. *)
Fixpoint same_results (snapshot : DurableTurnSnapshot) (last : jstr) (reversed : list DurableTurnStep) : nat :=
  match reversed with
  | [] => 0
  | candidate :: l => if bool_decide (resultFingerprintForStep snapshot candidate = Some last) then S (same_results snapshot last l) else 0
  end.

Definition assessRepeatedToolCall (snapshot : DurableTurnSnapshot) (step : DurableTurnStep) : ToolRepeatAssessment :=
  let policy := repeatPolicyForStep step in
  let relevant := relevant_steps snapshot step in
  let completed := List.filter (is_state Completed) relevant in
  let suppressions := List.filter suppressed_step relevant in
  let consecutive :=
    match last completed ≫= resultFingerprintForStep snapshot with
    | Some fingerprint => if truthy fingerprint then same_results snapshot fingerprint (reverse completed) else 0
    | None => 0
    end in
  let compare := bool_decide (policy = CompareResult) in
  let polling := compare && match last completed with Some s => reportsPendingJobState (st_output s) | None => false end in
  {| ra_signature := toolRepeatSignature step;
     ra_policy := policy;
     ra_priorCompletedCount := length completed;
     ra_consecutiveSameResultCount := consecutive;
     ra_priorSuppressionCount := length suppressions;
     ra_decision :=
       if (0 <? length suppressions)%nat then Terminate
       else if bool_decide (policy = BlockAfterSuccess) && (0 <? length completed)%nat then Suppress
       else if polling then Allow
       else if compare && (2 <=? consecutive)%nat then Suppress
       else if compare && (consecutive =? 1)%nat then AllowWithWarning
       else Allow |}.

(** ** Progress *)

Definition progressState (snapshot : DurableTurnSnapshot) : DurableTurnProgress :=
  match sn_progress snapshot with
  | Some p => p
  | None => {| pr_progressEpoch := 0; pr_progressKind := None; pr_consecutiveNoProgress := 0; pr_physicalModelAttempt := 0;
               pr_logicalModelIteration := modelIteration (sn_steps snapshot); pr_toolRepairAttempts := 0;
               pr_cumulativeToolMs := 0; pr_cumulativeActiveComputeMs := 0; pr_budgetReason := None |}
  end.

Definition with_progress (p : DurableTurnProgress) (snapshot : DurableTurnSnapshot) : DurableTurnSnapshot :=
  {| sn_id := sn_id snapshot; sn_tenantId := sn_tenantId snapshot; sn_state := sn_state snapshot; sn_version := sn_version snapshot;
     sn_cancelled := sn_cancelled snapshot; sn_runtimeRequest := sn_runtimeRequest snapshot; sn_sandboxId := sn_sandboxId snapshot;
     sn_progress := Some p; sn_steps := sn_steps snapshot; sn_entries := sn_entries snapshot; sn_approvals := sn_approvals snapshot |}.

Definition with_steps (steps : list DurableTurnStep) (snapshot : DurableTurnSnapshot) : DurableTurnSnapshot :=
  {| sn_id := sn_id snapshot; sn_tenantId := sn_tenantId snapshot; sn_state := sn_state snapshot; sn_version := sn_version snapshot;
     sn_cancelled := sn_cancelled snapshot; sn_runtimeRequest := sn_runtimeRequest snapshot; sn_sandboxId := sn_sandboxId snapshot;
     sn_progress := sn_progress snapshot; sn_steps := steps; sn_entries := sn_entries snapshot; sn_approvals := sn_approvals snapshot |}.

Definition nextProgress (snapshot : DurableTurnSnapshot) (kind : jstr) (noProgress : bool) (toolMs toolRepairAttempts : Z) : DurableTurnProgress :=
  let current := progressState snapshot in
  {| pr_progressEpoch := pr_progressEpoch current + 1;
     pr_progressKind := Some kind;
     pr_consecutiveNoProgress := if noProgress then pr_consecutiveNoProgress current + 1 else 0;
     pr_physicalModelAttempt := pr_physicalModelAttempt current;
     pr_logicalModelIteration := pr_logicalModelIteration current;
     pr_toolRepairAttempts := pr_toolRepairAttempts current + toolRepairAttempts;
     pr_cumulativeToolMs := pr_cumulativeToolMs current + Z.max 0 toolMs;
     pr_cumulativeActiveComputeMs := pr_cumulativeActiveComputeMs current;
     pr_budgetReason := pr_budgetReason current |}%Z.

Definition with_budgetReason (reason : jstr) (p : DurableTurnProgress) : DurableTurnProgress :=
  {| pr_progressEpoch := pr_progressEpoch p; pr_progressKind := pr_progressKind p; pr_consecutiveNoProgress := pr_consecutiveNoProgress p;
     pr_physicalModelAttempt := pr_physicalModelAttempt p; pr_logicalModelIteration := pr_logicalModelIteration p;
     pr_toolRepairAttempts := pr_toolRepairAttempts p; pr_cumulativeToolMs := pr_cumulativeToolMs p;
     pr_cumulativeActiveComputeMs := pr_cumulativeActiveComputeMs p; pr_budgetReason := Some reason |}.

Record ProgressAssessment := { pa_noProgress : bool; pa_kind : jstr }.

Definition assessToolProgress (snapshot : DurableTurnSnapshot) (step : DurableTurnStep) (fingerprint : jstr) : ProgressAssessment :=
  if negb (supportsResultOnlyNoProgress step) then {| pa_noProgress := false; pa_kind := js "tool_progress" |}
  else
    let completed := last_n 8 (List.filter (λ candidate,
      is_state Completed candidate && supportsResultOnlyNoProgress candidate
      && bool_decide (toolRepeatSignature candidate = toolRepeatSignature step)) (sn_steps snapshot)) in
    let fingerprints := List.filter truthy (omap (resultFingerprintForStep snapshot) completed) in
    if bool_decide (fingerprint ∈ fingerprints) then
      {| pa_noProgress := true;
         pa_kind :=
           if declaredPolling step then js "declared_polling"
           else match reverse fingerprints with
                | previous :: twoBack :: _ =>
                    if negb (bool_decide (previous = twoBack)) && bool_decide (twoBack = fingerprint)
                    then js "alternating_no_progress" else js "result_repeated"
                | _ => js "result_repeated"
                end |}
    else {| pa_noProgress := false; pa_kind := js "tool_progress" |}.

End calls.

(** ** Results as they are stored *)

Definition clean_text (s : jstr) : jstr := map (λ c, if (c =? NUL)%N then 0xfffd%N else c) s.
Fixpoint clean (value : json) : json :=
  match value with
  | JStr s => JStr (clean_text s)
  | JArr l => JArr (map clean l)
  | JObj l => JObj (map_of_entries (map (λ '(k, v), (clean_text k, clean v)) l))
  | _ => value
  end.
