(* ===== verification/TurnRunner.v ===== *)
(** * Executing the tool calls of a turn

    apps/worker/src/turn-runner.ts: [DurableTurnRunner] while a turn executes its
    tool calls. What the runner does to its surroundings - commits to the journal,
    calls of tools, reservations - is the trace of its run; their answers, the clock
    and fresh ids are functions of the trace. The steps of the snapshot are mutable:
    the snapshot is part of the state. *)

From S2P Require Import Prelude JsMap JsString Json RegExp ExecPolicy ProviderErrors ToolFailures Prompts TurnSteps TurnCalls.
From Stdlib Require Import Lia.

Set Default Goal Selector "!".

(** ** What is thrown *)

(** [Thrown] is any other value, in the heap of its objects, with the usage of a
    [DurableToolExecutionError]. *)
Inductive Failure :=
| ToolTimeout (message : jstr) (wall abortAcknowledged : bool)
| CancellationError
| RetryableError (message : jstr)
| TerminalError (message : jstr)
| InterruptedError (toolName : jstr)
| Thrown (objects : heap) (error : thrown) (usage : option json).

Definition throwing (o : object) : Failure := Thrown {[0%nat := o]} (Ref 0) None.
(** [new Error(message)] and [new ToolArgumentError(message)] *)
Definition Error (message : jstr) : Failure := throwing (error_object (js "Error") message []).
Definition ToolArgumentError (message : jstr) : Failure :=
  throwing {| ob_properties := ob_properties (error_object (js "ToolArgumentError") message []);
              ob_array := false; ob_error := true; ob_argumentError := true |}.

(** ** Mutations *)

Record DurableStepMutation := {
  mu_step : DurableTurnStep;
  mu_incrementAttempt : bool;
  mu_sessionEntryId : option jstr;
  mu_cancellationAcknowledged : bool;
  mu_repeat : option (RepeatDecision * jstr * ToolRepeatPolicy);
}.
Definition plain (s : DurableTurnStep) : DurableStepMutation :=
  {| mu_step := s; mu_incrementAttempt := false; mu_sessionEntryId := None; mu_cancellationAcknowledged := false; mu_repeat := None |}.
Definition starting (s : DurableTurnStep) : DurableStepMutation :=
  {| mu_step := s; mu_incrementAttempt := true; mu_sessionEntryId := None; mu_cancellationAcknowledged := false; mu_repeat := None |}.
Definition acknowledged (s : DurableTurnStep) : DurableStepMutation :=
  {| mu_step := s; mu_incrementAttempt := false; mu_sessionEntryId := None; mu_cancellationAcknowledged := true; mu_repeat := None |}.
Definition assessed (d : RepeatDecision) (a : ToolRepeatAssessment) (entry : option jstr) (s : DurableTurnStep) : DurableStepMutation :=
  {| mu_step := s; mu_incrementAttempt := false; mu_sessionEntryId := entry; mu_cancellationAcknowledged := false;
     mu_repeat := Some (d, ra_signature a, ra_policy a) |}.

Record QuestionOption := { qo_label : jstr; qo_description : option jstr }.
Record DurableQuestionItem := { qi_question : jstr; qi_options : list QuestionOption; qi_multi : bool }.

Inductive TurnEvent :=
| ToolStart (toolCallId name : jstr) (args : json)
| ToolEnd (toolCallId status summary : jstr)
| QuestionRequest (questionId toolCallId : jstr) (questions : list DurableQuestionItem)
| ApprovalRequest (approvalId kind title detail : jstr) (destructive : bool)
| ErrorEvent (message : jstr)
| TurnEnd (turnId status : jstr)
| ProgressEvent (progressKind : jstr) (progressEpoch consecutiveNoProgress : Z) (budgetReason : option jstr)
| DeadlineExceeded (wall : bool)
| UsageEvent (usage : json)
| MessageStartEvent (messageId : jstr)
| MessageDeltaEvent (messageId text : jstr)
| MessageEndEvent (messageId : jstr)
| ProviderAttemptEvent (report : option (option Z)).   (* of a report, or of a request that reported nothing *)

(** The entries of this part are tool results; their times are left out. *)
Record ResultEntry := {
  en_entryId : jstr; en_stepId : jstr; en_parentId : option jstr; en_toolCallId : jstr; en_toolName : jstr;
  en_text : jstr; en_isError : bool;
}.
Record ToolResultMessage := {
  tm_id : jstr; tm_toolCallId : jstr; tm_name : jstr; tm_input : json; tm_status : jstr;
  tm_output : option json; tm_summary : jstr; tm_durationMs : option Z;
}.
Record OutboxItem := { ox_eventType : jstr; ox_dedupeKey : jstr; ox_reason : jstr; ox_availableAt : option Z }.
Record ApprovalMutation := { am_id : jstr; am_stepId : jstr; am_toolCallId : jstr; am_kind : jstr; am_title : jstr; am_detail : jstr }.
Record QuestionMutation := { qm_id : jstr; qm_stepId : jstr; qm_toolCallId : jstr; qm_questions : list DurableQuestionItem }.

(** The answer of the model, with its calls: id, name and arguments. *)
Record AssistantMessage := { aa_id : jstr; aa_text : jstr; aa_reasoning : option jstr; aa_toolCalls : list (jstr * jstr * json) }.

Record DurableTurnMutation := {
  m_expectedState : TurnRunState;
  m_nextState : TurnRunState;
  m_steps : list DurableStepMutation;
  m_events : list TurnEvent;
  m_entries : list ResultEntry;
  m_results : list ToolResultMessage;
  m_approval : option ApprovalMutation;
  m_question : option QuestionMutation;
  m_assistant : option AssistantMessage;
  m_terminalAssistant : option (jstr * option jstr);
  m_sandbox : option json;
  m_nextAction : option jstr;
  m_waitingReason : option jstr;
  m_error : option jstr;
  m_taskStatus : option jstr;
  m_outbox : list OutboxItem;
  m_keepLease : bool;
  m_progress : option DurableTurnProgress;
  m_recoveryReference : option (jstr * jstr);
}.

(** ** Results *)

Record TurnToolResult := {
  tr_output : json; tr_summary : jstr; tr_fingerprintBasis : option json; tr_sandbox : option json; tr_usage : option json;
}.

Definition NULL_ESCAPE : jstr := [BACKSLASH] ++ js "u0000".
(** The text of the members of a result. *)
Definition result_text (result : TurnToolResult) : jstr :=
  stringify (JObj ([(js "output", tr_output result); (js "summary", JStr (tr_summary result))]
    ++ match tr_fingerprintBasis result with Some b => [(js "progress", JObj [(js "fingerprintBasis", b)])] | None => [] end
    ++ match tr_sandbox result with Some s => [(js "sandbox", s)] | None => [] end
    ++ match tr_usage result with Some u => [(js "usage", u)] | None => [] end)).

Definition journalSafeToolResult (result : TurnToolResult) : TurnToolResult :=
  if negb (includes NULL_ESCAPE (result_text result)) then result
  else {| tr_output := clean (tr_output result); tr_summary := clean_text (tr_summary result);
          tr_fingerprintBasis := clean <$> tr_fingerprintBasis result; tr_sandbox := clean <$> tr_sandbox result;
          tr_usage := clean <$> tr_usage result |}.

Definition durableToolResultText (output : json) : jstr :=
  match output with
  | JStr s => s
  | _ =>
      match field "content" (Some output), field "text" (Some output) with
      | Some (JStr s), _ => s
      | _, Some (JStr s) => s
      | _, _ => stringify output
      end
  end.

(** ** Questions *)

Definition has_label (option : json) : bool :=
  match stringValue (field "label" (Some option)) with Some l => truthy (trim l) | None => false end.
Definition has_text (value : option json) : bool := match stringValue value with Some q => truthy (trim q) | None => false end.

Definition q34 : jstr := [34%N].
Definition optionsProblem (options : option json) (name : jstr) : option jstr :=
  match options with
  | None => None
  | Some (JArr l) =>
      if (12 <? length l)%nat then Some (name ++ js " must be an array of at most 12 {label, description?} objects.")
      else match find_index (λ o, negb (has_label o)) l with
           | Some i => Some (name ++ js "[" ++ dec (Z.of_nat i) ++ js "] needs a non-empty " ++ q34 ++ js "label" ++ q34 ++ js " string.")
           | None => None
           end
  | Some _ => Some (name ++ js " must be an array of at most 12 {label, description?} objects.")
  end.

Definition typeof (v : json) : jstr :=
  match v with JBool _ => js "boolean" | JNum _ => js "number" | JStr _ => js "string" | _ => js "object" end.

(** The loop over a batch, from an index. *)
Fixpoint batch_problem (i : nat) (l : list json) : option jstr :=
  match l with
  | [] => None
  | candidate :: l =>
      if has_text (field "question" (Some candidate)) then
        match optionsProblem (field "options" (Some candidate)) (js "questions[" ++ dec (Z.of_nat i) ++ js "].options") with
        | Some problem => Some (js "ask_user_question " ++ problem)
        | None => batch_problem (S i) l
        end
      else
        let received := match candidate with
                        | JObj members => or_str (join (js ", ") (take 8 members.*1)) (js "no fields")
                        | _ => typeof candidate
                        end in
        Some (js "ask_user_question questions[" ++ dec (Z.of_nat i) ++ js "] needs a non-empty " ++ q34 ++ js "question" ++ q34
              ++ js " string (received: " ++ received ++ js "). Put the question text in " ++ q34 ++ js "question" ++ q34
              ++ js " and each choice in options[].label; nothing was shown to the user.")
  end.

Definition questionBatchProblem (value : option json) : option jstr :=
  let q := λ s, q34 ++ js s ++ q34 in
  match field "questions" value with
  | None =>
      if has_text (field "question" value) then optionsProblem (field "options" value) (js "options")
      else Some (js "ask_user_question needs " ++ q "questions" ++ js ": [{question, options?, multi?}] (or a single " ++ q "question" ++ js ").")
  | Some (JArr l) =>
      if (length l =? 0)%nat || (5 <? length l)%nat
      then Some (js "ask_user_question " ++ q "questions" ++ js " must be an array of 1-5 {question, options?, multi?} objects; ask the most important ones first.")
      else batch_problem 0 l
  | Some _ => Some (js "ask_user_question " ++ q "questions" ++ js " must be an array of 1-5 {question, options?, multi?} objects; ask the most important ones first.")
  end.

(** A text that is not blank, cut to [n] units; [null] where that is empty. *)
Definition cut_text (n : Z) (value : option json) : option jstr :=
  s ← stringValue value; let s := take (Z.to_nat n) s in if truthy s then Some s else None.

Definition normalize_option (raw : json) : option QuestionOption :=
  label ← cut_text 240 (field "label" (Some raw));
  Some {| qo_label := label; qo_description := cut_text 1000 (field "description" (Some raw)) |}.

Definition normalize_question (candidate : json) : option DurableQuestionItem :=
  question ← cut_text 2000 (field "question" (Some candidate));
  Some {| qi_question := question;
          qi_options := match field "options" (Some candidate) with Some (JArr l) => take 12 (omap normalize_option l) | _ => [] end;
          qi_multi := bool_decide (field "multi" (Some candidate) = Some (JBool true)) |}.

Definition durableQuestionItems (value : option json) : list DurableQuestionItem :=
  let input := nullish (record value) (JObj []) in
  let batch := match field "questions" (Some input) with Some (JArr l) => omap normalize_question l | _ => [] end in
  take 5 (match batch with
          | [] => match normalize_question input with Some legacy => [legacy] | None => [] end
          | _ => batch
          end).

(** ** The runner and its surroundings *)

Inductive Effect :=
| Committed (m : DurableTurnMutation)
| CommitFailed (m : DurableTurnMutation)
| Appended (events : list TurnEvent)            (* to the stream of the turn, besides its commits *)
| Executed (s : DurableTurnStep)
| ModelCalled (s : DurableTurnStep)
| Reserved (costMicros : jstr)
| Released (error : option jstr).

Record BudgetReservationDecision := { bd_allowed : bool; bd_reason : option jstr; bd_code : option jstr }.

(** How an operation under its deadlines ended: how it settled itself, and what
    happened before that. *)
Record OperationEnd := {
  oe_settled : result Failure TurnToolResult;
  oe_aborted : option Failure;                (* the signal fired, with this reason *)
  oe_timeout : option (jstr * bool);          (* a deadline passed: message, wall *)
  oe_heartbeat : option Failure;              (* the lease was lost, or a heartbeat failed *)
  oe_cleanedUp : bool;                        (* it settled within the time for clean-up *)
}.

(** How a batch of operations under one deadline ended: every one settled, or the
    batch was given up, with what had settled by then and when. *)
Inductive BatchEnd :=
| BatchSettled (outcomes : nat → result Failure TurnToolResult)
| BatchGivenUp (error : Failure) (timedOutAt : option Z) (interrupted : bool) (settled : nat → option (result Failure TurnToolResult * Z)).

Record ImageGeneration := { ig_costMicros : jstr; ig_model : jstr; ig_providerId : jstr }.
Record RuntimeRequest := { rq_imageGeneration : option ImageGeneration; rq_visionCost : option jstr; rq_extraSkills : list Skill }.

(** The answers. [None] of [e_commit] is success; [e_reserve] is [None] for a
    repository without reservations; the drafts of [compose_message] and the
    admitted request of the turn are parsed by zod schemas. *)
Record Environment := {
  e_commit : list Effect → DurableTurnMutation → option Failure;
  e_execute : list Effect → DurableTurnStep → OperationEnd;
  e_batch : list Effect → list DurableTurnStep → BatchEnd;
  e_supportsAbort : DurableTurnStep → bool;
  e_reserve : list Effect → jstr → option (result Failure BudgetReservationDecision);
  e_now : nat → Z;
  e_uuid : nat → jstr;
  e_parseDraft : option json → result Failure (json * jstr * nat);
  e_admitted : json → result Failure (option RuntimeRequest);
  e_string : heap → thrown → jstr;            (* String(value) *)
}.

Record World := { w_trace : list Effect; w_snapshot : DurableTurnSnapshot; w_ticks : nat; w_uuids : nat }.

Section runner.
Context (locale_le : jstr → jstr → bool) (sha256 toLowerCase toUpperCase : jstr → jstr) (sandbox_cwd : option jstr).
Context (options : Options) (env : Environment).

Abbreviation RM := (M World Failure).

Definition emit (e : Effect) : RM unit :=
  modify (λ w, {| w_trace := w_trace w ++ [e]; w_snapshot := w_snapshot w; w_ticks := w_ticks w; w_uuids := w_uuids w |}).

Definition commit (m : DurableTurnMutation) : RM unit :=
  let! trace := gets w_trace in
  match e_commit env trace m with
  | None => emit (Committed m)
  | Some f => do! emit (CommitFailed m) in throw f
  end.

Definition now : RM Z := λ w,
  (Ok (e_now env (w_ticks w)),
   {| w_trace := w_trace w; w_snapshot := w_snapshot w; w_ticks := S (w_ticks w); w_uuids := w_uuids w |}).

Definition randomUUID : RM jstr := λ w,
  (Ok (e_uuid env (w_uuids w)),
   {| w_trace := w_trace w; w_snapshot := w_snapshot w; w_ticks := w_ticks w; w_uuids := S (w_uuids w) |}).

Definition randomUUIDs {A} (l : list A) : RM (list (A * jstr)) :=
  foldr (λ a rest, let! id := randomUUID in let! l := rest in mret ((a, id) :: l)) (mret []) l.

(** An assignment to the members of a step of the snapshot. *)
Definition update_step (step : DurableTurnStep) : RM unit :=
  modify (λ w, {| w_trace := w_trace w;
                  w_snapshot := with_steps (map (λ s, if bool_decide (st_id s = st_id step) then step else s)
                                              (sn_steps (w_snapshot w))) (w_snapshot w);
                  w_ticks := w_ticks w; w_uuids := w_uuids w |}).

Definition catch {A} (m : RM A) (handler : Failure → RM A) : RM A :=
  λ w, match m w with (Err f, w') => handler f w' | r => r end.

Definition OutboxWake (snapshot : DurableTurnSnapshot) (state : jstr) : OutboxItem :=
  {| ox_eventType := js "turn.execute"; ox_dedupeKey := sn_id snapshot ++ js ":wake:" ++ dec (sn_version snapshot + 1) ++ js ":" ++ state;
     ox_reason := js "continue"; ox_availableAt := None |}.

Definition state_text (s : TurnRunState) : jstr :=
  match s with
  | Queued => js "queued" | AssemblingContext => js "assembling_context" | CallingModel => js "calling_model"
  | PersistingResponse => js "persisting_response" | ExecutingTool => js "executing_tool" | Compacting => js "compacting"
  | WaitingRun => js "waiting" | Finalizing => js "finalizing" | CompletedRun => js "completed" | FailedRun => js "failed"
  | CancelledRun => js "cancelled" | RecoveryRun => js "recovery_required"
  end.

Definition with_outbox (outbox : list OutboxItem) (m : DurableTurnMutation) : DurableTurnMutation :=
  {| m_expectedState := m_expectedState m; m_nextState := m_nextState m; m_steps := m_steps m; m_events := m_events m;
     m_entries := m_entries m; m_results := m_results m; m_approval := m_approval m; m_question := m_question m; m_assistant := m_assistant m;
     m_terminalAssistant := m_terminalAssistant m; m_sandbox := m_sandbox m; m_nextAction := m_nextAction m;
     m_waitingReason := m_waitingReason m; m_error := m_error m; m_taskStatus := m_taskStatus m; m_outbox := outbox;
     m_keepLease := m_keepLease m; m_progress := m_progress m; m_recoveryReference := m_recoveryReference m |}.

Definition commitAndWake (snapshot : DurableTurnSnapshot) (m : DurableTurnMutation) : RM unit :=
  commit (if bool_decide (m_nextState m ∈ TERMINAL_STATES) then m
          else with_outbox (m_outbox m ++ [OutboxWake snapshot (state_text (m_nextState m))]) m).

(** ** Parts of mutations *)

Definition sandbox_snapshot (snapshot : DurableTurnSnapshot) (key reason : jstr) : OutboxItem :=
  {| ox_eventType := js "sandbox.snapshot"; ox_dedupeKey := sn_id snapshot ++ js ":snapshot:" ++ key; ox_reason := reason; ox_availableAt := None |}.
Definition if_sandbox (snapshot : DurableTurnSnapshot) (item : OutboxItem) : list OutboxItem :=
  if truthy_opt (sn_sandboxId snapshot) then [item] else [].

Definition scheduledSandboxSnapshot (snapshot : DurableTurnSnapshot) (intervalSeconds : Z) : RM OutboxItem :=
  let! t := now in
  let intervalMs := (Z.max 1 intervalSeconds * 1000)%Z in
  let availableAtMs := (t + intervalMs)%Z in
  mret {| ox_eventType := js "sandbox.snapshot";
          ox_dedupeKey := sn_id snapshot ++ js ":snapshot:interval:" ++ dec (availableAtMs / intervalMs);
          ox_reason := js "interval"; ox_availableAt := Some availableAtMs |}.

(** The next call of the model, as a step. *)
Definition model_call (snapshot : DurableTurnSnapshot) (id : jstr) (wrapUp : option jstr) : DurableStepMutation :=
  let iteration := (modelIteration (sn_steps snapshot) + 1)%Z in
  plain {| st_id := id; st_sequence := nextStepSequence (sn_steps snapshot); st_type := js "model.call"; st_state := Pending;
           st_input := JObj ((js "iteration", JNum iteration) :: match wrapUp with Some r => [(js "wrapUp", JStr r)] | None => [] end);
           st_output := JNull; st_retryClass := Some IdempotentWithKey;
           st_idempotencyKey := Some (sn_id snapshot ++ js ":model:" ++ dec iteration); st_attempt := 0; st_error := None;
           st_resultFingerprint := None; st_deadlineAt := None; st_idleDeadlineAt := None; st_timedOut := false;
           st_abortAcknowledged := false; st_outcomeCertainty := None; st_startedAt := None |}.

Definition remaining_tools (snapshot : DurableTurnSnapshot) (step : DurableTurnStep) : bool :=
  existsb (λ candidate, negb (bool_decide (st_id candidate = st_id step)) && isRunnableToolStep candidate) (sn_steps snapshot).
Definition next_state (remaining : bool) : TurnRunState := if remaining then ExecutingTool else CallingModel.

(** The call of the model that follows the last tool call. *)
Definition model_call_unless (remaining : bool) (snapshot : DurableTurnSnapshot) : RM (list DurableStepMutation) :=
  if remaining then mret [] else let! id := randomUUID in mret [model_call snapshot id None].

Definition cut (n : Z) (s : jstr) : jstr := take (Z.to_nat n) s.

Definition result_entry (snapshot : DurableTurnSnapshot) (step : DurableTurnStep) (entryId text : jstr) (isError : bool) : ResultEntry :=
  {| en_entryId := entryId; en_stepId := st_id step; en_parentId := last (sn_entries snapshot);
     en_toolCallId := toolCallIdForStep step; en_toolName := toolNameForStep step; en_text := text; en_isError := isError |}.
Definition result_message (step : DurableTurnStep) (id status : jstr) (output : option json) (summary : jstr) (durationMs : option Z) : ToolResultMessage :=
  {| tm_id := id; tm_toolCallId := toolCallIdForStep step; tm_name := toolNameForStep step; tm_input := arguments_or_empty step;
     tm_status := status; tm_output := output; tm_summary := summary; tm_durationMs := durationMs |}.

Definition error_output (error message : jstr) : json := JObj [(js "error", JStr error); (js "message", JStr message)].

(** A mutation while tools execute, with the parts that most of them have. *)
Definition tools_mutation (next : TurnRunState) (steps : list DurableStepMutation) (events : list TurnEvent)
    (entries : list ResultEntry) (results : list ToolResultMessage) (progress : option DurableTurnProgress) (nextAction : jstr) : DurableTurnMutation :=
  {| m_expectedState := ExecutingTool; m_nextState := next; m_steps := steps; m_events := events; m_entries := entries;
     m_results := results; m_approval := None; m_question := None; m_assistant := None; m_terminalAssistant := None; m_sandbox := None;
     m_nextAction := Some nextAction; m_waitingReason := None; m_error := None; m_taskStatus := None; m_outbox := [];
     m_keepLease := false; m_progress := progress; m_recoveryReference := None |}.

(** ** An operation under its deadlines *)

Definition HEARTBEAT_FAILED : jstr := js "Turn heartbeat failed during a long-running operation".

(** [f instanceof DurableTurnRetryableError], and [instanceof Error]. *)
Definition retryable_error (f : Failure) : bool := match f with ToolTimeout _ _ _ | RetryableError _ => true | _ => false end.
Definition error_instance (f : Failure) : bool :=
  match f with Thrown objects error _ => instance_of objects ob_error error | _ => true end.

Definition longOperationAbortError (timeout : option (jstr * bool)) (heartbeat abortReason : option Failure) (abortAcknowledged : bool) : Failure :=
  match timeout with
  | Some (message, wall) => ToolTimeout message wall abortAcknowledged
  | None =>
      match heartbeat with
      | Some f => if retryable_error f then f else RetryableError HEARTBEAT_FAILED
      | None => match abortReason with
                | Some f => if error_instance f then f else RetryableError (js "Long-running operation was aborted")
                | None => RetryableError (js "Long-running operation was aborted")
                end
      end
  end.

Definition cancelled_by (reason : option Failure) : bool := match reason with Some CancellationError => true | _ => false end.

(** What the caller of [withHeartbeat] gets. *)
Definition settle (abortable preserveResultAfterTimeout : bool) (o : OperationEnd) : result Failure TurnToolResult :=
  if abortable && match oe_aborted o with Some _ => true | None => false end
  then Err (longOperationAbortError (oe_timeout o) (oe_heartbeat o) (oe_aborted o) (oe_cleanedUp o))
  else
    match oe_settled o with
    | Err e =>
        if match oe_timeout o, oe_heartbeat o with None, None => false | _, _ => true end
        then Err (longOperationAbortError (oe_timeout o) (oe_heartbeat o) None false)
        else if cancelled_by (oe_aborted o) then Err CancellationError
        else Err e
    | Ok r =>
        match oe_timeout o with
        | Some (message, wall) =>
            if negb (preserveResultAfterTimeout && negb abortable) then Err (ToolTimeout message wall false)
            else match oe_heartbeat o with
                 | Some f => Err (if retryable_error f then f else RetryableError HEARTBEAT_FAILED)
                 | None => if cancelled_by (oe_aborted o) then Err CancellationError else Ok r
                 end
        | None => match oe_heartbeat o with
                  | Some f => Err (if retryable_error f then f else RetryableError HEARTBEAT_FAILED)
                  | None => if cancelled_by (oe_aborted o) then Err CancellationError else Ok r
                  end
        end
    end.

Definition run_tool (step : DurableTurnStep) : RM TurnToolResult :=
  let! trace := gets w_trace in
  do! emit (Executed step) in
  lift (settle (read_only step && e_supportsAbort env step) (manual step) (e_execute env trace step)).

(** ** Texts and classes of what is thrown *)

Definition INTERRUPTED : jstr := js " was interrupted: the worker running it stopped before it reported a result.".

Definition failure_message (f : Failure) : jstr :=
  match f with
  | ToolTimeout m _ _ | RetryableError m | TerminalError m => m
  | CancellationError => js "The turn was cancelled by the user"
  | InterruptedError toolName => toolName ++ INTERRUPTED
  | Thrown objects error _ => if instance_of objects ob_error error then errorText objects error else e_string env objects error
  end.

Definition failure_usage (f : Failure) : list TurnEvent := match f with Thrown _ _ (Some u) => [UsageEvent u] | _ => [] end.
Definition is_timeout (f : Failure) : bool := match f with ToolTimeout _ _ _ => true | _ => false end.

Definition interruptedToolFailure : ToolFailure :=
  {| tf_category := category_text UnknownOutcome; tf_deterministic := false; tf_outcome := OutcomeUnknown;
     tf_outcomeVersion := Some TOOL_FAILURE_OUTCOME_VERSION; tf_status := None; tf_code := None;
     tf_action := Some (toolFailureAction UnknownOutcome) |}.

Definition classified (f : Failure) (changesState : bool) : ToolFailure :=
  match f with
  | InterruptedError _ => interruptedToolFailure
  | Thrown objects error _ => classifyToolFailure toLowerCase toUpperCase objects error changesState false
  | _ =>
      let name := if is_timeout f then js "DurableToolTimeoutError" else js "Error" in
      classifyToolFailure toLowerCase toUpperCase {[0%nat := error_object name (failure_message f) []]} (Ref 0) changesState (is_timeout f)
  end.

(** ** Recovery *)

Record RecoveryDetails := {
  rd_timedOut : bool;
  rd_outcomeCertainty : OutcomeCertainty;
  rd_failure : option ToolFailure;
  rd_usage : list TurnEvent;
  rd_held : option DurableTurnStep;
  rd_heldBy : list jstr;
}.
Definition outcome_unknown : RecoveryDetails :=
  {| rd_timedOut := false; rd_outcomeCertainty := CertaintyUnknown; rd_failure := None; rd_usage := []; rd_held := None; rd_heldBy := [] |}.

Definition PAUSED_NOTICE : jstr := js "Berry paused before this step because an earlier one didn't reply, so it can't tell whether that one went through. Check it, then press Continue.".
Definition NO_REPLY_NOTICE : jstr := js "Berry didn't get a reply from this action, so it can't tell whether it went through. Check it, then press Continue to run it again.".
Definition AMBIGUOUS_OPERATION : jstr := js "ambiguous_external_operation".

Definition with_heldBy (ids : list jstr) (j : json) : json :=
  match j with JObj l => JObj (map_set (js "heldBy") (JArr (map JStr ids)) l) | _ => JObj [(js "heldBy", JArr (map JStr ids))] end.

Definition recovery_step (reason : jstr) (details : RecoveryDetails) (step : DurableTurnStep) : DurableTurnStep :=
  let step := match rd_held details with Some _ => set_input (with_heldBy (rd_heldBy details) (st_input step)) step | None => step end in
  let step := set_error (Some (cut 4000 reason)) (set_state RecoveryRequired step) in
  let step := match rd_failure details with Some f => set_output (failure_output f) step | None => step end in
  let step := if rd_timedOut details then set_timedOut true (st_abortAcknowledged step) step else step in
  set_outcomeCertainty (Some (rd_outcomeCertainty details)) step.

Definition transitionAmbiguousToolToRecovery (reason : jstr) (details : RecoveryDetails) : RM unit :=
  let! snapshot := gets w_snapshot in
  let step := match rd_held details with
              | Some s => Some s
              | None => find_first (λ c, isToolStep c && is_state Running c && holdsForReview c) (sn_steps snapshot)
              end in
  match step with
  | None => throw (RetryableError (js "The interrupted tool reference was not available"))
  | Some step =>
      let notice := match rd_held details with Some _ => PAUSED_NOTICE | None => NO_REPLY_NOTICE end in
      let progress := progressState snapshot in
      let! messageId := randomUUID in
      commit {| m_expectedState := ExecutingTool; m_nextState := RecoveryRun;
                m_steps := [acknowledged (recovery_step reason details step)];
                m_events := ToolEnd (toolCallIdForStep step) (js "failed") (js "No reply came back, so this may or may not have gone through.")
                  :: rd_usage details ++ [ErrorEvent notice; TurnEnd (sn_id snapshot) (js "failed")];
                m_entries := [];
                m_results := [result_message step messageId (js "failed") None notice None];
                m_approval := None; m_question := None; m_assistant := None;
                m_terminalAssistant := Some (js "failed", Some notice); m_sandbox := None;
                m_nextAction := Some (js "Review the external operation outcome before choosing retry or completion");
                m_waitingReason := None; m_error := Some AMBIGUOUS_OPERATION; m_taskStatus := Some (js "failed");
                m_outbox := if_sandbox snapshot (sandbox_snapshot snapshot (js "recovery-required") (js "before-finalize"));
                m_keepLease := false;
                m_progress := Some {| pr_progressEpoch := pr_progressEpoch progress + 1; pr_progressKind := Some (js "budget_exceeded");
                  pr_consecutiveNoProgress := pr_consecutiveNoProgress progress; pr_physicalModelAttempt := pr_physicalModelAttempt progress;
                  pr_logicalModelIteration := pr_logicalModelIteration progress; pr_toolRepairAttempts := pr_toolRepairAttempts progress;
                  pr_cumulativeToolMs := pr_cumulativeToolMs progress; pr_cumulativeActiveComputeMs := pr_cumulativeActiveComputeMs progress;
                  pr_budgetReason := Some AMBIGUOUS_OPERATION |};
                m_recoveryReference := Some (st_id step, toolCallIdForStep step) |}
  end.

(** ** Tool use stops *)

Record StopGuard := {
  sg_error : jstr; sg_reason : jstr; sg_progressKind : jstr;
  sg_repeat : option ToolRepeatAssessment;
  sg_progress : option DurableTurnProgress;
  sg_completed : option (TurnToolResult * jstr * Z);
}.

Record StopResult := {
  sr_step : DurableTurnStep; sr_mutation : jstr → DurableStepMutation; sr_completed : bool; sr_output : json;
  sr_summary : jstr; sr_text : jstr; sr_durationMs : option Z;
}.

Definition STOPPED_TEXT : jstr := js "Not run: Berry stopped tool use for this task before this call.".

Definition stopped_call (guard : StopGuard) (step : DurableTurnStep) : StopResult :=
  match sg_completed guard with
  | Some (result, fingerprint, durationMs) =>
      {| sr_step := step;
         sr_mutation := λ entryId, {| mu_step := set_resultFingerprint (Some fingerprint) (set_output (tr_output result) (set_state Completed step));
                                      mu_incrementAttempt := false; mu_sessionEntryId := Some entryId; mu_cancellationAcknowledged := false; mu_repeat := None |};
         sr_completed := true; sr_output := tr_output result; sr_summary := cut 2000 (tr_summary result);
         sr_text := durableToolResultText (tr_output result); sr_durationMs := Some durationMs |}
  | None =>
      let failed := set_error (Some (sg_error guard)) (set_state Failed step) in
      {| sr_step := step;
         sr_mutation := λ _, match sg_repeat guard with Some a => assessed Terminate a None failed | None => plain failed end;
         sr_completed := false; sr_output := error_output (sg_error guard) (sg_reason guard);
         sr_summary := js "Not run: " ++ sg_reason guard; sr_text := js "Not run: " ++ sg_reason guard; sr_durationMs := None |}
  end.

Definition queued_call (step : DurableTurnStep) : StopResult :=
  {| sr_step := step; sr_mutation := λ _, plain (set_error (Some TOOL_USE_STOPPED) (set_state Cancelled step));
     sr_completed := false; sr_output := JObj [(js "error", JStr TOOL_USE_STOPPED)];
     sr_summary := STOPPED_TEXT; sr_text := STOPPED_TEXT; sr_durationMs := None |}.

Definition status_text (completed : bool) : jstr := if completed then js "completed" else js "failed".

Definition stopToolUse (step : DurableTurnStep) (guard : StopGuard) : RM TurnRunState :=
  let! snapshot := gets w_snapshot in
  let progress := with_budgetReason (sg_error guard)
    (nullish (sg_progress guard) (nextProgress snapshot (sg_progressKind guard) true 0 0)) in
  let queued := sort_by ascending (List.filter (λ c, negb (bool_decide (st_id c = st_id step)) && isRunnableToolStep c) (sn_steps snapshot)) in
  let! results := randomUUIDs (stopped_call guard step :: map queued_call queued) in
  let! id := randomUUID in
  do! commitAndWake snapshot
    (tools_mutation CallingModel
       (map (λ r, sr_mutation r.1 r.2) results ++ [model_call snapshot id (Some (cut 2000 (sg_reason guard)))])
       (map (λ r, ToolEnd (toolCallIdForStep (sr_step r.1)) (status_text (sr_completed r.1)) (sr_summary r.1)) results
        ++ [ProgressEvent (sg_progressKind guard) (pr_progressEpoch progress) (pr_consecutiveNoProgress progress) (Some (sg_error guard))])
       (map (λ r, result_entry snapshot (sr_step r.1) r.2 (sr_text r.1) (negb (sr_completed r.1))) results)
       (map (λ r, result_message (sr_step r.1) r.2 (status_text (sr_completed r.1)) (Some (sr_output r.1)) (sr_summary r.1) (sr_durationMs r.1)) results)
       (Some progress) (js "Ask the model for a final answer without tools")) in
  mret CallingModel.

Definition no_guard_parts (error reason kind : jstr) : StopGuard :=
  {| sg_error := error; sg_reason := reason; sg_progressKind := kind; sg_repeat := None; sg_progress := None; sg_completed := None |}.

Definition identicalFailureGuard (step : DurableTurnStep) (lastError : jstr) : StopGuard :=
  no_guard_parts (js "identical_tool_failure_limit")
    (toolNameForStep step ++ js " failed " ++ dec (Z.of_nat (identicalToolFailureLimit step))
     ++ js " times with the same input and the same error. Last error: " ++ cut 600 lastError) (js "repair_budget").

Definition toolTimeBudgetGuard (budgetMs : Z) : StopGuard :=
  no_guard_parts (js "tool_time_budget")
    (js "the task used up its " ++ dec ((budgetMs + 30000) / 60000) ++ js "-minute tool-time budget.") (js "budget_exceeded").

Definition repairBudgetGuard (toolName : jstr) (repairBudget : Z) : StopGuard :=
  no_guard_parts (js "repair_budget_exhausted")
    (toolName ++ js " failed " ++ dec repairBudget ++ js " times in a row and its repair attempts are used up.") (js "repair_budget").

Definition noProgressReason (consecutive : Z) : jstr :=
  js "the last " ++ dec consecutive ++ js " tool results made no progress.".

Definition duplicateLoopGuard (assessment : ToolRepeatAssessment) : StopGuard :=
  {| sg_error := DUPLICATE_TOOL_CALL_LOOP;
     sg_reason := js "the same tool call kept being repeated after it returned an unchanged result.";
     sg_progressKind := js "result_repeated"; sg_repeat := Some assessment; sg_progress := None; sg_completed := None |}.

Definition noProgressGuard (result : TurnToolResult) (fingerprint : jstr) (progress : DurableTurnProgress) (durationMs : Z) : StopGuard :=
  let kind := nullish (pr_progressKind progress) [] in
  {| sg_error := js "no_progress_budget"; sg_reason := noProgressReason (pr_consecutiveNoProgress progress);
     sg_progressKind := if bool_decide (kind ∈ [js "alternating_no_progress"; js "declared_polling"]) then kind else js "result_repeated";
     sg_repeat := None; sg_progress := Some progress; sg_completed := Some (result, fingerprint, durationMs) |}.

(** ** Calls that are not run *)

Definition SUPPRESSED_SUMMARY : jstr := js "Duplicate tool call suppressed.".
Definition paragraphs (l : list string) : jstr := join [NL; NL] (map js l).

Definition suppression_message (step : DurableTurnStep) (assessment : ToolRepeatAssessment) : jstr :=
  if bool_decide (toolNameForStep step = js "persist_artifact") then paragraphs
    ["Duplicate publication suppressed.";
     "This file was already published in this task, and no later write, edit or shell command names it, so no new version was created.";
     "The earlier published file is current. Do not say a new or rebuilt version was published; if the file should have changed, rebuild it and publish it again."]
  else if bool_decide (ra_policy assessment = BlockAfterSuccess) then paragraphs
    ["Duplicate tool call suppressed.";
     "This external operation already completed successfully once.";
     "Running it again could repeat the external change.";
     "Continue using the existing result, choose a different operation, or explain the blocker. Do not repeat this call."]
  else paragraphs
    ["Duplicate tool call suppressed.";
     "This exact tool and input already completed twice with the same result.";
     "Running it again would not provide new information.";
     "Choose different arguments, use a different tool, continue using the existing result, or explain the blocker. Do not repeat this call."].

Definition RESULT_REPEATED : jstr := js "result_repeated".
Definition progress_event (p : DurableTurnProgress) (kind : jstr) : TurnEvent :=
  ProgressEvent kind (pr_progressEpoch p) (pr_consecutiveNoProgress p) None.

(** The common part of [suppressRepeatedToolCall] and [refuseUnchangedRetry]: the
    call fails without being run. *)
Definition not_run (step : DurableTurnStep) (mutation : DurableStepMutation) (error message summary next_tool next_model : jstr) : RM TurnRunState :=
  let! snapshot := gets w_snapshot in
  let! entryId := randomUUID in
  let progress := nextProgress snapshot RESULT_REPEATED true 0 0 in
  let remaining := remaining_tools snapshot step in
  let! calls := model_call_unless remaining snapshot in
  do! commitAndWake snapshot
    (tools_mutation (next_state remaining) (mutation :: calls)
       [ToolEnd (toolCallIdForStep step) (js "failed") summary; progress_event progress RESULT_REPEATED]
       [result_entry snapshot step entryId message true]
       [result_message step entryId (js "failed") (Some (error_output error message)) summary None]
       (Some progress) (if remaining then next_tool else next_model)) in
  mret (next_state remaining).

Definition suppressRepeatedToolCall (step : DurableTurnStep) (assessment : ToolRepeatAssessment) : RM TurnRunState :=
  not_run step (assessed Suppress assessment None (set_error (Some DUPLICATE_TOOL_CALL_SUPPRESSED) (set_state Failed step)))
    DUPLICATE_TOOL_CALL_SUPPRESSED (suppression_message step assessment) SUPPRESSED_SUMMARY
    (js "Execute the next tool step after suppressing the duplicate tool call")
    (js "Give the model one correction turn after suppressing the duplicate tool call").

Definition refusal_output (retry : UnchangedFailedRetry) (with_error : bool) : json :=
  JObj [(js "failure", JObj (failure_members (ur_failure retry) ++ [(js "refusedUnchangedRetry", JBool true)]
                             ++ (if with_error then [(js "previousError", JStr (ur_previousError retry))] else [])))].

Definition refuseUnchangedRetry (step : DurableTurnStep) (retry : UnchangedFailedRetry) : RM TurnRunState :=
  let message := unchangedRetryMessage retry in
  not_run step (plain (set_output (refusal_output retry true) (set_error (Some message) (set_state Failed step))))
    UNCHANGED_RETRY_REFUSED message (js "Unchanged retry of a failed call was not run.")
    (js "Execute the next tool step after refusing an unchanged retry")
    (js "Let the model act on the refused unchanged retry").

(** ** What happens to a call *)

(** The arguments of the call cannot run: the note found when it arrived, or the
    problem with a batch of questions. *)
Definition questionProblem (step : DurableTurnStep) : option jstr :=
  if bool_decide (toolNameForStep step = js "ask_user_question") then questionBatchProblem (arguments step) else None.
Definition argumentError (step : DurableTurnStep) : option jstr :=
  match questionProblem step with
  | Some _ => None
  | None => match input "argumentError" step with Some (JStr e) => Some e | _ => None end
  end.

Definition interrupted (step : DurableTurnStep) : bool :=
  is_state Running step && manual step && match argumentError step with None => true | Some _ => false end.

Definition approval_of (snapshot : DurableTurnSnapshot) (step : DurableTurnStep) : option DurableApproval :=
  find_first (λ a, bool_decide (ap_stepId a = Some (st_id step))) (sn_approvals snapshot).
Definition requiresApproval (step : DurableTurnStep) : bool :=
  bool_decide (input "requiresApproval" step = Some (JBool true))
  && match argumentError step with None => true | Some _ => false end && negb (interrupted step).

Inductive Decision :=
| Stop (guard : StopGuard)
| Hold (uncertain : list (DurableTurnStep * ToolFailure))
| Refuse (retry : UnchangedFailedRetry)
| SuppressCall
| Ask (questions : list DurableQuestionItem)
| Recover
| NotApproved (status : jstr)
| RequestApproval
| AwaitApproval
| Run.

Definition calls := uncertainEarlierCalls toLowerCase toUpperCase.
Definition assess := assessRepeatedToolCall locale_le sha256 toLowerCase.

Definition repairBudget (step : DurableTurnStep) : Z :=
  let limit := Z.of_nat (identicalToolFailureLimit step) in
  Z.min limit (Z.max 1 (nullish (op_maxToolRepairAttempts options) limit)).

(** The guards of [executeTool], in their order, up to the first that holds. *)
Definition decision (snapshot : DurableTurnSnapshot) (step : DurableTurnStep) : Decision :=
  let budget := cumulativeToolBudget options in
  if (budget <=? pr_cumulativeToolMs (progressState snapshot))%Z then Stop (toolTimeBudgetGuard budget)
  else if (repairBudget step <? Z.of_nat IDENTICAL_TOOL_FAILURE_LIMIT)%Z
          && (repairBudget step <=? Z.of_nat (matchingToolFailureCount locale_le sha256 sandbox_cwd snapshot step))%Z
  then Stop (repairBudgetGuard (toolNameForStep step) (repairBudget step))
  else
    let uncertain := if is_state Pending step && holdsForReview step then calls snapshot step else [] in
    match uncertain with
    | _ :: _ => Hold uncertain
    | [] =>
        match repeatedToolFailure locale_le sha256 sandbox_cwd snapshot step with
        | Some e => Stop (identicalFailureGuard step e)
        | None =>
            match (if is_state Pending step then unchangedFailedRetry locale_le sha256 sandbox_cwd snapshot step else None) with
            | Some retry => Refuse retry
            | None =>
                let assessment := assess snapshot step in
                let guarded := negb (is_state Running step && manual step) && op_enforceRepeatGuard options in
                if guarded && bool_decide (ra_decision assessment = Terminate) then Stop (duplicateLoopGuard assessment)
                else if guarded && bool_decide (ra_decision assessment = Suppress) then SuppressCall
                else if bool_decide (toolNameForStep step = js "ask_user_question")
                        && match questionProblem step, argumentError step with None, None => true | _, _ => false end
                then Ask (durableQuestionItems (arguments step))
                else if interrupted step && holdsForReview step then Recover
                else if requiresApproval step
                then match ap_status <$> approval_of snapshot step with
                     | Some Approved => Run
                     | Some Denied => NotApproved (js "denied")
                     | Some Expired => NotApproved (js "expired")
                     | Some ApprovalPending => AwaitApproval
                     | None => RequestApproval
                     end
                else Run
            end
        end
    end.

(** ** Calls that wait *)

Definition wait_mutation (snapshot : DurableTurnSnapshot) (steps : list DurableStepMutation) (events : list TurnEvent)
    (approval : option ApprovalMutation) (question : option QuestionMutation) (reason nextAction taskStatus key : jstr) : DurableTurnMutation :=
  {| m_expectedState := ExecutingTool; m_nextState := WaitingRun; m_steps := steps; m_events := events; m_entries := []; m_results := [];
     m_approval := approval; m_question := question; m_assistant := None; m_terminalAssistant := None; m_sandbox := None; m_nextAction := Some nextAction;
     m_waitingReason := Some reason; m_error := None; m_taskStatus := Some taskStatus;
     m_outbox := [sandbox_snapshot snapshot key (js "before-wait")]; m_keepLease := false; m_progress := None; m_recoveryReference := None |}.

Definition askQuestion (step : DurableTurnStep) (questions : list DurableQuestionItem) : RM TurnRunState :=
  let! snapshot := gets w_snapshot in
  match questions with
  | [] => throw (TerminalError (js "ask_user_question requires at least one valid question"))
  | _ =>
      let! questionId := randomUUID in
      let superseded := List.filter (λ c, negb (bool_decide (st_id c = st_id step)) && isRunnableToolStep c) (sn_steps snapshot) in
      do! commit (wait_mutation snapshot
        (plain (set_state Waiting step)
         :: map (λ c, plain (set_error (Some (js "superseded_by_question")) (set_state Cancelled c))) superseded)
        [ToolStart (toolCallIdForStep step) (toolNameForStep step) (arguments_or_empty step);
         QuestionRequest questionId (toolCallIdForStep step) questions]
        None (Some {| qm_id := questionId; qm_stepId := st_id step; qm_toolCallId := toolCallIdForStep step; qm_questions := questions |})
        (js "user_input") (js "Wait for the user to answer the persisted question") (js "running")
        (js "question:" ++ st_id step)) in
      mret WaitingRun
  end.

Definition requestApproval (step : DurableTurnStep) : RM TurnRunState :=
  let! snapshot := gets w_snapshot in
  let! approvalId := randomUUID in
  let kind := approvalKind (input "approvalKind" step) in
  let title := js "Approve " ++ toolNameForStep step in
  let detail := stringify (arguments_or_empty step) in
  do! commit (wait_mutation snapshot [plain (set_state Waiting step)]
    [ApprovalRequest approvalId kind title (cut 4000 detail) (manual step)]
    (Some {| am_id := approvalId; am_stepId := st_id step; am_toolCallId := toolCallIdForStep step; am_kind := kind; am_title := title; am_detail := detail |})
    None (js "approval") (js "Wait for an approval decision") (js "waiting-for-approval") (js "approval:" ++ st_id step)) in
  mret WaitingRun.

Definition notApproved (step : DurableTurnStep) (status : jstr) : RM TurnRunState :=
  let! snapshot := gets w_snapshot in
  let! entryId := randomUUID in
  let remaining := remaining_tools snapshot step in
  let! calls := model_call_unless remaining snapshot in
  let summary := js "Approval " ++ status in
  do! commitAndWake snapshot
    (tools_mutation (next_state remaining)
       (plain (set_error (Some (js "Tool approval was " ++ status)) (set_state Failed step)) :: calls)
       [ToolEnd (toolCallIdForStep step) (js "denied") summary]
       [result_entry snapshot step entryId (js "Tool not executed because approval was " ++ status ++ js ".") true]
       [result_message step entryId (js "denied") None summary None]
       None (if remaining then js "Execute the next tool step" else js "Tell the model the tool was denied")) in
  mret (next_state remaining).

(** An interrupted call of a tool that is held. *)
Definition AMBIGUOUS_SUMMARY : jstr := js "The tool outcome is ambiguous and requires operator review.".
Definition recoverInterrupted (step : DurableTurnStep) : RM TurnRunState :=
  let! snapshot := gets w_snapshot in
  let! messageId := randomUUID in
  do! commit {| m_expectedState := ExecutingTool; m_nextState := RecoveryRun;
        m_steps := [plain (set_outcomeCertainty (Some CertaintyUnknown)
          (set_error (Some (js "The worker stopped after this non-idempotent tool began; its outcome is ambiguous.")) (set_state RecoveryRequired step)))];
        m_events := [ToolEnd (toolCallIdForStep step) (js "failed") AMBIGUOUS_SUMMARY;
          ErrorEvent (js "A tool may have changed external state before the worker stopped. Human recovery is required.");
          TurnEnd (sn_id snapshot) (js "failed")];
        m_entries := []; m_results := [result_message step messageId (js "failed") None AMBIGUOUS_SUMMARY None];
        m_approval := None; m_question := None; m_assistant := None;
        m_terminalAssistant := Some (js "failed", Some (js "Something interrupted this response. Retry to continue."));
        m_sandbox := None; m_nextAction := Some (js "Review the tool outcome and choose retry, mark complete, or cancel");
        m_waitingReason := None; m_error := Some (js "ambiguous_non_idempotent_tool"); m_taskStatus := Some (js "failed");
        m_outbox := if_sandbox snapshot (sandbox_snapshot snapshot (js "recovery-required") (js "before-finalize"));
        m_keepLease := false; m_progress := None; m_recoveryReference := Some (st_id step, toolCallIdForStep step) |} in
  mret RecoveryRun.

Definition uncertain_text (step : DurableTurnStep) (uncertain : list (DurableTurnStep * ToolFailure)) : jstr :=
  let n := length uncertain in
  let name := toolNameForStep step in
  let latest := match uncertain with (previous, _) :: _ => st_error previous | [] => None end in
  join [32%N]
    [js "Not run: " ++ (if (n =? 1)%nat then js "an earlier " ++ name ++ js " call" else dec (Z.of_nat n) ++ js " earlier " ++ name ++ js " calls")
     ++ js " may already have taken effect.";
     (if (n =? 1)%nat then js "Its" else js "The latest") ++ js " error: " ++ first_error_line latest;
     js "Review it before this call runs."].

Definition holdCall (step : DurableTurnStep) (uncertain : list (DurableTurnStep * ToolFailure)) : RM TurnRunState :=
  do! transitionAmbiguousToolToRecovery (uncertain_text step uncertain)
    {| rd_timedOut := false; rd_outcomeCertainty := NotApplicable; rd_failure := head (map snd uncertain); rd_usage := [];
       rd_held := Some step; rd_heldBy := map (λ u, st_id u.1) uncertain |} in
  mret RecoveryRun.

(** ** Calls that run *)

Definition reserve (costMicros fallback : jstr) : RM unit :=
  let! trace := gets w_trace in
  match e_reserve env trace costMicros with
  | None => mret tt
  | Some answer =>
      do! emit (Reserved costMicros) in
      let! d := lift answer in
      if bd_allowed d then mret tt else throw (Error (nullish (bd_reason d) fallback))
  end.

Definition durableRuntimeRequest (snapshot : DurableTurnSnapshot) : result Failure (option RuntimeRequest) :=
  e_admitted env (sn_runtimeRequest snapshot).

(** The skills of a request without a capability version. *)
Definition stored_skill (candidate : json) : option Skill :=
  match record (Some candidate) with
  | None => None
  | Some parsed =>
      if bool_decide (member (js "disableModelInvocation") parsed = Some (JBool true)) then None
      else
        name ← stringValue (member (js "name") parsed);
        content ← (match member (js "content") parsed with Some (JStr s) => if truthy s then Some s else None | _ => None end);
        filePath ← stringValue (member (js "filePath") parsed);
        Some {| sk_name := name;
                sk_description := match member (js "description") parsed with Some (JStr s) => s | _ => [] end;
                sk_content := content; sk_filePath := filePath; sk_disableModelInvocation := false;
                sk_resources := Some (match member (js "resources") parsed with
                                      | Some (JArr l) => omap (λ v, match v with JStr s => Some s | _ => None end) l
                                      | _ => [] end) |}
  end.

Definition durableSkills (snapshot : DurableTurnSnapshot) : result Failure (list Skill) :=
  match durableRuntimeRequest snapshot with
  | Err f => Err f
  | Ok (Some runtime) => Ok (List.filter (λ s, negb (sk_disableModelInvocation s)) (rq_extraSkills runtime))
  | Ok None => Ok (match member (js "extraSkills") (sn_runtimeRequest snapshot) with Some (JArr l) => omap stored_skill l | _ => [] end)
  end.

Definition skill_named (name : option jstr) (skills : list Skill) : option Skill :=
  find_first (λ s, bool_decide (name = Some (sk_name s))) skills.

Definition text_result (members : list (jstr * json)) (summary : jstr) : TurnToolResult :=
  {| tr_output := JObj members; tr_summary := summary; tr_fingerprintBasis := None; tr_sandbox := None; tr_usage := None |}.

Definition builtInPresentationToolResult (snapshot : DurableTurnSnapshot) (name : jstr) (value : option json) : result Failure (option TurnToolResult) :=
  if bool_decide (name = js "compose_message") then
    match e_parseDraft env value with
    | Err f => Err f
    | Ok (draft, kind, variants) =>
        let noun := if bool_decide (kind = js "email") then js "email" else js "message" in
        let summary := js "Prepared " ++ dec (Z.of_nat variants) ++ js " " ++ noun ++ js " "
          ++ (if (variants =? 1)%nat then js "draft" else js "drafts") ++ js " in an editable writing block." in
        Ok (Some (text_result [(js "text", JStr summary); (js "draft", draft)] summary))
    end
  else if bool_decide (name = js "activate_skill") then
    match durableSkills snapshot with
    | Err f => Err f
    | Ok skills =>
        let requestedName := stringValue (field "name" value) in
        match skill_named requestedName skills with
        | None => Err (Error (js "Unknown or non-model-invocable skill: " ++ nullish requestedName (js "(missing)")))
        | Some skill =>
            let alreadyActive := existsb (λ s,
              is_state Completed s && bool_decide (toolNameForStep s = js "activate_skill")
              && bool_decide (stringValue (field "name" (arguments s)) = Some (sk_name skill))) (sn_steps snapshot) in
            if alreadyActive
            then Ok (Some (text_result [(js "skill", JStr (sk_name skill)); (js "alreadyActive", JBool true);
                       (js "content", JStr (js "<skill_already_active name=" ++ quote (sk_name skill) ++ js " />"))]
                     (sk_name skill ++ js " is already active")))
            else Ok (Some (text_result [(js "skill", JStr (sk_name skill)); (js "alreadyActive", JBool false);
                       (js "location", JStr (sk_filePath skill)); (js "content", JStr (formatSkillInvocation skill None))]
                     (js "Activated " ++ sk_name skill)))
        end
    end
  else Ok None.

(** A skill that is kept outside the package. *)
Definition managed_skill (filePath : jstr) : bool :=
  starts_with (js "/personal-skills/") filePath || starts_with (js "/organization-skills/") filePath.

Definition VISION_ADAPTER_MAX_ATTEMPTS : Z := 2.
Definition not_admitted (what : string) : Failure := Error (js what ++ js " was not admitted for this turn").

(** The body of the [try]: what is checked and reserved before the tool runs. *)
Definition runCall (step : DurableTurnStep) (was_interrupted : bool) : RM TurnToolResult :=
  let! snapshot := gets w_snapshot in
  let toolName := toolNameForStep step in
  if was_interrupted then throw (InterruptedError toolName)
  else
    match argumentError step, questionProblem step with
    | Some e, _ => throw (ToolArgumentError e)
    | None, Some e => throw (Error e)
    | None, None =>
        do! (if bool_decide (toolName = js "create_image") then
               let! runtime := lift (durableRuntimeRequest snapshot) in
               match runtime ≫= rq_imageGeneration with
               | Some i => if truthy (ig_costMicros i) then reserve (ig_costMicros i) (js "Image generation was blocked by the spend limit")
                           else throw (not_admitted "Image generation")
               | None => throw (not_admitted "Image generation")
               end
             else mret tt) in
        do! (if bool_decide (toolName = js "inspect_images") then
               let! runtime := lift (durableRuntimeRequest snapshot) in
               match runtime ≫= rq_visionCost with
               | Some visionCost =>
                   if truthy visionCost
                   then match parse_bigint visionCost with
                        | Some cost => reserve (dec (cost * VISION_ADAPTER_MAX_ATTEMPTS)) (js "Vision inspection was blocked by the spend limit")
                        | None => throw (throwing (error_object (js "SyntaxError") (js "Cannot convert " ++ visionCost ++ js " to a BigInt") []))
                        end
                   else throw (not_admitted "Vision inspection")
               | None => throw (not_admitted "Vision inspection")
               end
             else mret tt) in
        let! storedSkill := (if bool_decide (toolName = js "activate_skill")
                             then let! skills := lift (durableSkills snapshot) in
                                  mret (skill_named (stringValue (field "name" (arguments step))) skills)
                             else mret None) in
        if match storedSkill with Some s => managed_skill (sk_filePath s) | None => false end then run_tool step
        else
          let! presented := lift (builtInPresentationToolResult snapshot toolName (arguments step)) in
          match presented with Some r => mret r | None => run_tool step end
    end.

(** ** After the call *)

Definition no_nul (s : jstr) : jstr := clean_text s.

Definition recorded (a : ToolRepeatAssessment) (entry : option jstr) (s : DurableTurnStep) : DurableStepMutation :=
  assessed (ra_decision a) a entry s.

Definition repair_message (attempt budget : Z) (sameError : nat) (message : jstr) : jstr :=
  let guidance := if (3 <=? Z.of_nat sameError)%Z && (attempt <? Z.of_nat sameError)%Z
    then js "; same error " ++ dec (Z.of_nat sameError) ++ js " times in a row with changed arguments: check that the target exists and the input is valid, change approach, or tell the user what is blocking"
    else [] in
  js "Tool failed (repair attempt " ++ dec attempt ++ js "/" ++ dec budget ++ guidance ++ js "). " ++ message.

(** The step as it is stored after a failure. *)
Definition failed_step (step : DurableTurnStep) (f : Failure) (failure : ToolFailure) (text : jstr) : DurableTurnStep :=
  let step' := set_output (failure_output failure) (set_error (Some text) (set_state Failed step)) in
  match f with
  | ToolTimeout _ _ ack =>
      set_outcomeCertainty (Some (if manual step then CertaintyUnknown else CertaintyKnown)) (set_timedOut true ack step')
  | _ => if bool_decide (tf_outcome failure = OutcomeUnknown) then set_outcomeCertainty (Some CertaintyUnknown) step' else step'
  end.

(** The [catch] of [executeTool]. *)
Definition callFailed (before : DurableTurnSnapshot) (step : DurableTurnStep) (toolStartedAt : Z) (f : Failure) : RM TurnRunState :=
  if is_timeout f && holdsForReview step then
    do! transitionAmbiguousToolToRecovery (failure_message f)
      {| rd_timedOut := true; rd_outcomeCertainty := CertaintyUnknown; rd_failure := None; rd_usage := []; rd_held := None; rd_heldBy := [] |} in
    mret RecoveryRun
  else if match f with CancellationError | RetryableError _ | TerminalError _ => true | _ => false end then throw f
  else
    let! snapshot := gets w_snapshot in
    let message := no_nul (cut (Z.of_nat STORED_TOOL_ERROR_LIMIT) (failure_message f)) in
    let repairAttempt := (Z.of_nat (matchingToolFailureCount locale_le sha256 sandbox_cwd before step) + 1)%Z in
    let assessment := assess before step in
    let! ended := now in
    let durationMs := Z.max 0 (ended - toolStartedAt) in
    let progress := nextProgress snapshot (js "repair_budget") false durationMs 1 in
    let sameError := sameErrorRun toLowerCase snapshot step message in
    let failure := classified f (manual step) in
    if unknown_outcome_class failure && holdsForReview step then
      do! transitionAmbiguousToolToRecovery message
        {| rd_timedOut := false; rd_outcomeCertainty := CertaintyUnknown; rd_failure := Some failure; rd_usage := failure_usage f;
           rd_held := None; rd_heldBy := [] |} in
      mret RecoveryRun
    else
      let text := repair_message repairAttempt (repairBudget step) sameError message in
      let! entryId := randomUUID in
      let remaining := remaining_tools snapshot step in
      let! calls := model_call_unless remaining snapshot in
      do! commitAndWake snapshot
        (tools_mutation (next_state remaining)
           (recorded assessment None (failed_step step f failure text) :: calls)
           (ToolEnd (toolCallIdForStep step) (js "failed") (cut 2000 message)
            :: match f with ToolTimeout _ wall _ => [DeadlineExceeded wall] | _ => [] end ++ failure_usage f)
           [result_entry snapshot step entryId (text ++ [NL] ++ toolFailureNote failure step) true]
           [result_message step entryId (js "failed") None (cut 2000 message) (Some durationMs)]
           (Some progress) (if remaining then js "Execute the next tool step" else js "Let the model handle the failed tool result")) in
      mret (next_state remaining).

(** The members of a mutation that results add. *)
Definition with_sandbox (sandbox : option json) (outbox : list OutboxItem) (m : DurableTurnMutation) : DurableTurnMutation :=
  {| m_expectedState := m_expectedState m; m_nextState := m_nextState m; m_steps := m_steps m; m_events := m_events m;
     m_entries := m_entries m; m_results := m_results m; m_approval := m_approval m; m_question := m_question m; m_assistant := m_assistant m;
     m_terminalAssistant := m_terminalAssistant m; m_sandbox := sandbox; m_nextAction := m_nextAction m;
     m_waitingReason := m_waitingReason m; m_error := m_error m; m_taskStatus := m_taskStatus m; m_outbox := outbox;
     m_keepLease := m_keepLease m; m_progress := m_progress m; m_recoveryReference := m_recoveryReference m |}.

Definition image_usage (snapshot : DurableTurnSnapshot) (step : DurableTurnStep) : RM (list TurnEvent) :=
  if bool_decide (toolNameForStep step = js "create_image") then
    let! runtime := lift (durableRuntimeRequest snapshot) in
    mret (match runtime ≫= rq_imageGeneration with
          | Some i => [UsageEvent (JObj [(js "kind", JStr (js "usage")); (js "inputTokens", JNum 0); (js "outputTokens", JNum 0);
                        (js "totalTokens", JNum 0); (js "costRawMicros", JStr (ig_costMicros i)); (js "model", JStr (ig_model i));
                        (js "servedModel", JStr (ig_model i)); (js "servedProvider", JStr (ig_providerId i))])]
          | None => []
          end)
  else mret [].

Definition usage_event (result : TurnToolResult) : list TurnEvent := match tr_usage result with Some u => [UsageEvent u] | None => [] end.

Definition resultFingerprintForToolResult (snapshot : DurableTurnSnapshot) (result : TurnToolResult) : jstr :=
  progressFingerprint locale_le sha256 (sn_id snapshot) (nullish (tr_fingerprintBasis result) (tr_output result)).

Definition assess_progress := assessToolProgress locale_le sha256 toLowerCase.

(** What follows a result. *)
Definition callCompleted (before : DurableTurnSnapshot) (step : DurableTurnStep) (toolStartedAt : Z) (raw : TurnToolResult) : RM TurnRunState :=
  let! snapshot := gets w_snapshot in
  let result := journalSafeToolResult raw in
  let assessment := assess before step in
  let! ended := now in
  let durationMs := Z.max 0 (ended - toolStartedAt) in
  let fingerprint := resultFingerprintForToolResult snapshot result in
  let a := assess_progress snapshot step fingerprint in
  let progress := nextProgress snapshot (pa_kind a) (pa_noProgress a) durationMs 0 in
  if pa_noProgress a && (noProgressHardThreshold options <=? pr_consecutiveNoProgress progress)%Z
  then stopToolUse step (noProgressGuard result fingerprint progress durationMs)
  else
    let warn := pa_noProgress a && (0 <? ra_priorCompletedCount assessment)%nat && bool_decide (ra_policy assessment = CompareResult)
                || pa_noProgress a && (noProgressWarningThreshold options <=? pr_consecutiveNoProgress progress)%Z in
    let! entryId := randomUUID in
    let remaining := remaining_tools snapshot step in
    let! calls := model_call_unless remaining snapshot in
    let! image := image_usage snapshot step in
    let! outbox := (match tr_sandbox result with
                    | Some _ => let! item := scheduledSandboxSnapshot snapshot (nullish (op_snapshotIntervalSeconds options) 900%Z) in mret [item]
                    | None => mret []
                    end) in
    do! commitAndWake snapshot (with_sandbox (tr_sandbox result) outbox
      (tools_mutation (next_state remaining)
         (recorded assessment (Some entryId) (set_resultFingerprint (Some fingerprint) (set_output (tr_output result) (set_state Completed step))) :: calls)
         (ToolEnd (toolCallIdForStep step) (js "completed") (cut 2000 (tr_summary result))
          :: image ++ usage_event result ++ (if warn then [progress_event progress (pa_kind a)] else []))
         [result_entry snapshot step entryId (durableToolResultText (tr_output result)) false]
         [result_message step entryId (js "completed") (Some (tr_output result)) (cut 2000 (tr_summary result)) (Some durationMs)]
         (Some progress) (if remaining then js "Execute the next tool step" else js "Continue the model with persisted tool results"))) in
    mret (next_state remaining).

(** ** One call *)

Definition run_mutation (steps : list DurableStepMutation) (events : list TurnEvent) (nextAction : jstr) : DurableTurnMutation :=
  {| m_expectedState := ExecutingTool; m_nextState := ExecutingTool; m_steps := steps; m_events := events; m_entries := [];
     m_results := []; m_approval := None; m_question := None; m_assistant := None; m_terminalAssistant := None; m_sandbox := None;
     m_nextAction := Some nextAction; m_waitingReason := None; m_error := None; m_taskStatus := None; m_outbox := [];
     m_keepLease := true; m_progress := None; m_recoveryReference := None |}.

Definition executeCall (step : DurableTurnStep) : RM TurnRunState :=
  let! before := gets w_snapshot in
  let limits := toolExecutionLimits (toolNameForStep step) options in
  let stopped := interrupted step in
  let! toolStartedAt := (match (if stopped then st_startedAt step else None) with Some t => mret t | None => now end) in
  let started := set_deadlines (toolStartedAt + maxDurationMs limits) (toolStartedAt + idleTimeoutMs limits) (set_state Running step) in
  do! (if stopped then mret tt
       else
         do! commit (run_mutation [starting started]
               [ToolStart (toolCallIdForStep step) (toolNameForStep step) (arguments_or_empty step)]
               (js "Execute " ++ st_type step)) in
         update_step started) in
  let step' := if stopped then step else started in
  let! r := catch (let! r := runCall step' stopped in mret (Ok r)) (λ f, mret (Err f)) in
  match r with
  | Err f => callFailed before step' toolStartedAt f
  | Ok result => callCompleted before step' toolStartedAt result
  end.

Definition executeStep (step : DurableTurnStep) : RM TurnRunState :=
  let! snapshot := gets w_snapshot in
  match decision snapshot step with
  | Stop guard => stopToolUse step guard
  | Hold uncertain => holdCall step uncertain
  | Refuse retry => refuseUnchangedRetry step retry
  | SuppressCall => suppressRepeatedToolCall step (assess snapshot step)
  | Ask questions => askQuestion step questions
  | Recover => recoverInterrupted step
  | NotApproved status => notApproved step status
  | RequestApproval => requestApproval step
  | AwaitApproval => do! emit (Released None) in mret WaitingRun
  | Run => executeCall step
  end.

Definition continueModel : RM TurnRunState :=
  let! snapshot := gets w_snapshot in
  let! id := randomUUID in
  do! commitAndWake snapshot
    (tools_mutation CallingModel [model_call snapshot id None] [] [] [] None (js "Continue the model after tool results")) in
  mret CallingModel.

(** ** A batch of reads *)

Record Suppressed := { sp_step : DurableTurnStep; sp_assessment : ToolRepeatAssessment; sp_batchDuplicate : bool; sp_refusal : option UnchangedFailedRetry }.

(** The loop that sorts the calls of a batch, for the signatures seen. *)
Fixpoint split_batch (snapshot : DurableTurnSnapshot) (seen : list jstr) (steps : list DurableTurnStep)
    : list DurableTurnStep * list Suppressed :=
  match steps with
  | [] => ([], [])
  | step :: steps =>
      let assessment := assess snapshot step in
      match (if is_state Pending step then unchangedFailedRetry locale_le sha256 sandbox_cwd snapshot step else None) with
      | Some refusal =>
          let '(run, suppressed) := split_batch snapshot seen steps in
          (run, {| sp_step := step; sp_assessment := assessment; sp_batchDuplicate := false; sp_refusal := Some refusal |} :: suppressed)
      | None =>
          let duplicate := bool_decide (ra_signature assessment ∈ seen) in
          if op_enforceRepeatGuard options && (bool_decide (ra_decision assessment = Suppress) || duplicate)
          then let '(run, suppressed) := split_batch snapshot seen steps in
               (run, {| sp_step := step; sp_assessment := assessment; sp_batchDuplicate := duplicate; sp_refusal := None |} :: suppressed)
          else let '(run, suppressed) := split_batch snapshot (ra_signature assessment :: seen) steps in (step :: run, suppressed)
      end
  end.

Definition suppressed_message (s : Suppressed) : jstr :=
  match sp_refusal s with
  | Some refusal => unchangedRetryMessage refusal
  | None =>
      if sp_batchDuplicate s then js "Duplicate tool call suppressed because the same tool and input was already scheduled in this tool batch."
      else if bool_decide (ra_policy (sp_assessment s) = BlockAfterSuccess)
      then js "Duplicate tool call suppressed because this external operation already completed successfully once."
      else js "Duplicate tool call suppressed because this tool and input already completed successfully with no new result."
  end.

(** What the batch commits, as it is collected. *)
Record Batch := {
  ba_mutations : list DurableStepMutation; ba_events : list TurnEvent; ba_entries : list ResultEntry; ba_results : list ToolResultMessage;
  ba_progress : DurableTurnProgress; ba_sandbox : option json; ba_hardNoProgress : bool;
}.
Definition extend (b : Batch) (mutation : DurableStepMutation) (events : list TurnEvent) (entry : ResultEntry) (result : ToolResultMessage)
    (progress : DurableTurnProgress) (sandbox : option json) (hard : bool) : Batch :=
  {| ba_mutations := ba_mutations b ++ [mutation]; ba_events := ba_events b ++ events; ba_entries := ba_entries b ++ [entry];
     ba_results := ba_results b ++ [result]; ba_progress := progress;
     ba_sandbox := match ba_sandbox b with Some s => Some s | None => sandbox end; ba_hardNoProgress := ba_hardNoProgress b || hard |}.

Definition add_suppressed (snapshot : DurableTurnSnapshot) (b : Batch) (s : Suppressed * jstr) : Batch :=
  let '(s, entryId) := s in
  let step := sp_step s in
  let message := suppressed_message s in
  let error := match sp_refusal s with Some _ => UNCHANGED_RETRY_REFUSED | None => DUPLICATE_TOOL_CALL_SUPPRESSED end in
  let summary := match sp_refusal s with Some _ => UNCHANGED_RETRY_REFUSED | None => SUPPRESSED_SUMMARY end in
  let progress := nextProgress (with_progress (ba_progress b) snapshot) RESULT_REPEATED true 0 0 in
  let failed := match sp_refusal s with
                | Some refusal => set_output (refusal_output refusal false) (set_error (Some message) (set_state Failed step))
                | None => set_error (Some DUPLICATE_TOOL_CALL_SUPPRESSED) (set_state Failed step)
                end in
  extend b (assessed Suppress (sp_assessment s) None failed)
    [ToolEnd (toolCallIdForStep step) (js "failed") summary; progress_event progress RESULT_REPEATED]
    (result_entry snapshot step entryId message true)
    (result_message step entryId (js "failed") (Some (error_output error message)) summary None)
    progress None false.

(** The steps with the outcomes collected so far, as the assessment of a result sees them. *)
Definition assessment_snapshot (snapshot : DurableTurnSnapshot) (executable : list DurableTurnStep) (step : DurableTurnStep) (b : Batch) : DurableTurnSnapshot :=
  with_progress (ba_progress b) (with_steps
    (sn_steps snapshot ++ map (λ m,
       let original := nullish (find_first (λ c, bool_decide (st_id c = st_id (mu_step m))) executable) step in
       set_resultFingerprint (st_resultFingerprint (mu_step m)) (set_output (st_output (mu_step m)) (set_state (st_state (mu_step m)) original)))
       (ba_mutations b)) snapshot).

Definition add_result (snapshot : DurableTurnSnapshot) (executable : list DurableTurnStep) (durationMs : Z)
    (step : DurableTurnStep) (entryId : jstr) (assessment : ToolRepeatAssessment) (raw : TurnToolResult) (b : Batch) : Batch :=
  let result := journalSafeToolResult raw in
  let fingerprint := resultFingerprintForToolResult snapshot result in
  let view := assessment_snapshot snapshot executable step b in
  let a := assess_progress view step fingerprint in
  let progress := nextProgress view (pa_kind a) (pa_noProgress a) durationMs 0 in
  let hard := pa_noProgress a && (noProgressHardThreshold options <=? pr_consecutiveNoProgress progress)%Z in
  let warn := pa_noProgress a && ((noProgressWarningThreshold options <=? pr_consecutiveNoProgress progress)%Z
                                  || (0 <? ra_priorCompletedCount assessment)%nat) in
  extend b
    (recorded assessment (Some entryId) (set_resultFingerprint (Some fingerprint) (set_output (tr_output result) (set_state Completed step))))
    ((if warn then [progress_event progress (pa_kind a)] else [])
     ++ ToolEnd (toolCallIdForStep step) (js "completed") (cut 2000 (tr_summary result)) :: usage_event result)
    (result_entry snapshot step entryId (durableToolResultText (tr_output result)) false)
    (result_message step entryId (js "completed") (Some (tr_output result)) (cut 2000 (tr_summary result)) (Some durationMs))
    progress (tr_sandbox result) hard.

Definition batch_failed_step (step : DurableTurnStep) (f : Failure) (message : jstr) : DurableTurnStep :=
  let step' := set_output (failure_output (classified f false)) (set_error (Some message) (set_state Failed step)) in
  match f with
  | ToolTimeout _ _ ack => set_outcomeCertainty (Some CertaintyKnown) (set_timedOut true ack step')
  | _ => step'
  end.

Definition add_failure (snapshot : DurableTurnSnapshot) (durationMs : Z) (step : DurableTurnStep) (entryId : jstr)
    (assessment : ToolRepeatAssessment) (f : Failure) (b : Batch) : Batch :=
  let message := no_nul (cut 4000 (failure_message f)) in
  let progress := nextProgress (with_progress (ba_progress b) snapshot) (js "repair_budget") false durationMs 1 in
  extend b (recorded assessment None (batch_failed_step step f message))
    (ToolEnd (toolCallIdForStep step) (js "failed") (cut 2000 message)
     :: match f with ToolTimeout _ wall _ => [DeadlineExceeded wall] | _ => [] end ++ failure_usage f)
    (result_entry snapshot step entryId (js "Tool failed: " ++ message ++ [NL] ++ toolFailureNote (classified f false) step) true)
    (result_message step entryId (js "failed") None (cut 2000 message) (Some durationMs))
    progress None false.

Definition stored_argument_error (step : DurableTurnStep) : option jstr :=
  match input "argumentError" step with Some (JStr e) => Some e | _ => None end.

Definition abort_error (f : Failure) : bool :=
  is_timeout f
  || match f with
     | Thrown objects error _ => instance_of objects ob_error error && bool_decide (objectProperty objects error (js "name") = Str (js "AbortError"))
     | _ => false
     end.

(** The outcome of each call of the batch, or what the batch throws. *)
Definition batch_outcomes (steps : list DurableTurnStep) (ended : BatchEnd) : result Failure (list (result Failure TurnToolResult)) :=
  let outcomes f := imap (λ i step, match stored_argument_error step with Some e => Err (ToolArgumentError e) | None => f i end) steps in
  match ended with
  | BatchSettled o => Ok (outcomes o)
  | BatchGivenUp error timedOutAt was_interrupted settled =>
      match timedOutAt with
      | Some deadline =>
          if is_timeout error && negb was_interrupted && forallb read_only steps
          then Ok (outcomes (λ i,
            match settled i with
            | Some (outcome, at_) =>
                if (at_ <=? deadline)%Z && negb (match outcome with Err f => abort_error f | Ok _ => false end) then outcome else Err error
            | None => Err error
            end))
          else Err error
      | None => Err error
      end
  end.

Definition first_cancellation (outcomes : list (result Failure TurnToolResult)) : bool :=
  existsb (λ o, match o with Err CancellationError => true | _ => false end) outcomes.

(** The loop over the calls that ran. *)
Fixpoint add_outcomes (before snapshot : DurableTurnSnapshot) (executable : list DurableTurnStep) (startedAt : Z)
    (l : list ((DurableTurnStep * jstr) * result Failure TurnToolResult)) (b : Batch) : RM Batch :=
  match l with
  | [] => mret b
  | ((step, entryId), outcome) :: l =>
      let! t := now in
      let durationMs := Z.max 0 (t - startedAt) in
      let assessment := assess before step in
      add_outcomes before snapshot executable startedAt l
        match outcome with
        | Ok raw => add_result snapshot executable durationMs step entryId assessment raw b
        | Err f => add_failure snapshot durationMs step entryId assessment f b
        end
  end.

Definition finishBatch (b : Batch) : RM TurnRunState :=
  let! snapshot := gets w_snapshot in
  let wrapUp := if ba_hardNoProgress b then Some (noProgressReason (pr_consecutiveNoProgress (ba_progress b))) else None in
  let! id := randomUUID in
  let! outbox := (match ba_sandbox b with
                  | Some _ => let! item := scheduledSandboxSnapshot snapshot (nullish (op_snapshotIntervalSeconds options) 900%Z) in mret [item]
                  | None => mret []
                  end) in
  do! commitAndWake snapshot (with_sandbox (ba_sandbox b) outbox
    (tools_mutation CallingModel (ba_mutations b ++ [model_call snapshot id wrapUp])
       (ba_events b ++ match wrapUp with
                       | Some _ => [ProgressEvent RESULT_REPEATED (pr_progressEpoch (ba_progress b))
                                      (pr_consecutiveNoProgress (ba_progress b)) (Some (js "no_progress_budget"))]
                       | None => []
                       end)
       (ba_entries b) (ba_results b)
       (Some (match wrapUp with Some _ => with_budgetReason (js "no_progress_budget") (ba_progress b) | None => ba_progress b end))
       (match wrapUp with
        | Some _ => js "Ask the model for a final answer without tools"
        | None => js "Continue the model with the persisted read-only tool batch"
        end))) in
  mret CallingModel.

(** The guards of a batch, which stop it as a whole. *)
Definition batch_stop (snapshot : DurableTurnSnapshot) (steps : list DurableTurnStep) : option (DurableTurnStep * StopGuard) :=
  let budget := cumulativeToolBudget options in
  if (budget <=? pr_cumulativeToolMs (progressState snapshot))%Z
  then match steps with step :: _ => Some (step, toolTimeBudgetGuard budget) | [] => None end
  else
    match first_some (λ step, (λ e, (step, identicalFailureGuard step e)) <$> repeatedToolFailure locale_le sha256 sandbox_cwd snapshot step) steps with
    | Some stop => Some stop
    | None =>
        if op_enforceRepeatGuard options
        then (λ step, (step, duplicateLoopGuard (assess snapshot step)))
             <$> find_first (λ step, bool_decide (ra_decision (assess snapshot step) = Terminate)) steps
        else None
    end.

Definition executeParallelReadOnlyTools (steps : list DurableTurnStep) : RM TurnRunState :=
  let! before := gets w_snapshot in
  match batch_stop before steps with
  | Some (step, guard) => stopToolUse step guard
  | None =>
      let '(executable, suppressed) := split_batch before [] steps in
      let limits := toolExecutionLimits (js "read") options in
      let! startedAt := now in
      let start step := set_deadlines (startedAt + maxDurationMs limits) (startedAt + idleTimeoutMs limits) (set_state Running step) in
      do! commit (run_mutation (map (λ step, starting (start step)) executable)
            (map (λ step, ToolStart (toolCallIdForStep step) (toolNameForStep step) (arguments_or_empty step)) (List.filter (is_state Pending) executable))
            (js "Execute " ++ dec (Z.of_nat (length executable)) ++ js " independent read-only tools concurrently")) in
      do! foldr (λ step rest, do! update_step (start step) in rest) (mret tt) executable in
      let running := map start executable in
      let! snapshot := gets w_snapshot in
      let! withIds := randomUUIDs running in
      let! trace := gets w_trace in
      do! foldr (λ step rest, match stored_argument_error step with Some _ => rest | None => do! emit (Executed step) in rest end) (mret tt) running in
      let! outcomes := lift (batch_outcomes running (e_batch env trace running)) in
      if first_cancellation outcomes then throw CancellationError
      else
        let! suppressedIds := randomUUIDs suppressed in
        let empty := {| ba_mutations := []; ba_events := []; ba_entries := []; ba_results := []; ba_progress := progressState before;
                        ba_sandbox := None; ba_hardNoProgress := false |} in
        let! b := add_outcomes before snapshot running startedAt (zip withIds outcomes) (fold_left (add_suppressed snapshot) suppressedIds empty) in
        finishBatch b
  end.

Definition executeTool : RM TurnRunState :=
  let! snapshot := gets w_snapshot in
  let runnable := sort_by ascending (List.filter isRunnableToolStep (sn_steps snapshot)) in
  if (1 <? length runnable)%nat && forallb isParallelReadOnlyToolStep runnable
  then executeParallelReadOnlyTools runnable
  else match runnable with
       | [] => continueModel
       | step :: _ => executeStep step
       end.

(** ** A claimed run *)

(** The mutation that ends a run with its unfinished steps. *)
Definition ending (snapshot : DurableTurnSnapshot) (next : TurnRunState) (steps : list DurableStepMutation) (tools : list (DurableTurnStep * jstr))
    (toolStatus summary : jstr) (events : list TurnEvent) (terminal : jstr * option jstr) (error : option jstr) (taskStatus key : jstr) : DurableTurnMutation :=
  {| m_expectedState := sn_state snapshot; m_nextState := next; m_steps := steps;
     m_events := map (λ t, ToolEnd (toolCallIdForStep t.1) (js "failed") summary) tools ++ events;
     m_entries := []; m_results := map (λ t, result_message t.1 t.2 toolStatus None summary None) tools;
     m_approval := None; m_question := None; m_assistant := None; m_terminalAssistant := Some terminal; m_sandbox := None; m_nextAction := None;
     m_waitingReason := None; m_error := error; m_taskStatus := Some taskStatus;
     m_outbox := if_sandbox snapshot (sandbox_snapshot snapshot key (js "before-finalize"));
     m_keepLease := false; m_progress := None; m_recoveryReference := None |}.

Definition cancelRun : RM unit :=
  let! snapshot := gets w_snapshot in
  let unfinished := List.filter isUnfinishedStep (sn_steps snapshot) in
  let! tools := randomUUIDs (List.filter isToolStep unfinished) in
  commit (ending snapshot CancelledRun (map (λ s, acknowledged (set_state Cancelled s)) unfinished) tools
    (js "cancelled") (js "Interrupted by the user.") [TurnEnd (sn_id snapshot) (js "cancelled")]
    (js "cancelled", None) None (js "cancelled") (js "cancelled")).

Definition failRun (message : jstr) : RM unit :=
  let! snapshot := gets w_snapshot in
  let unfinished := List.filter isUnfinishedStep (sn_steps snapshot) in
  let error := cut 4000 message in
  let! tools := randomUUIDs (List.filter isToolStep unfinished) in
  commit (ending snapshot FailedRun (map (λ s, plain (set_error (Some error) (set_state Failed s))) unfinished) tools
    (js "failed") (cut 2000 message) [ErrorEvent error; TurnEnd (sn_id snapshot) (js "failed")]
    (js "failed", Some error) (Some error) (js "failed") (js "failed")).

Definition NEEDS_CLASSIFICATION : jstr := js "A non-idempotent tool failed after its durable running marker; recovery classification is required.".

(** The [catch] of [execute], for a failure with its message; [retry] if it is to be
    tried again. *)
Definition caught (message : jstr) (retry : bool) (f : Failure) : RM TurnRunState :=
  let! snapshot := gets w_snapshot in
  let held := hasRunningHeldTool snapshot in
  match f with
  | CancellationError =>
      if held
      then catch (do! transitionAmbiguousToolToRecovery (js "The external mutation was interrupted before Berry received a receipt.") outcome_unknown in
                  mret RecoveryRun) (λ _, mret CancelledRun)
      else mret CancelledRun
  | _ =>
      let! recovered := (if held
        then catch (do! transitionAmbiguousToolToRecovery message outcome_unknown in mret true)
                   (λ p, if retryable_error p then throw p else mret false)
        else mret false) in
      if recovered : bool then mret RecoveryRun
      else if retry then do! emit (Released (Some message)) in throw (if retryable_error f then f else RetryableError message)
      else
        let! snapshot := gets w_snapshot in
        if hasAmbiguousNonIdempotentTool snapshot
        then do! emit (Released (Some message)) in throw (RetryableError NEEDS_CLASSIFICATION)
        else catch (do! failRun message in mret FailedRun)
               (λ p, do! emit (Released (Some message)) in throw (if retryable_error p then p else TerminalError message))
  end.

End runner.
