(* ===== verification/TurnRunnerFacts.v ===== *)
(** * What executing tool calls commits

    Rules for the operations of the runner that follow its trace and its snapshot,
    and what every run of [executeTool] does with them. *)

From S2P Require Import Prelude JsMap JsString Json ProviderErrors ToolFailures Prompts TurnSteps TurnCalls TurnRunner.
From Stdlib Require Import Lia.

Set Default Goal Selector "!".

Section rules.
Context (env : Environment).

Abbreviation RM := (M World Failure).

(** [m] run with this trace and this snapshot ends in [Q]. *)
Definition leads {A} (tr : list Effect) (sn : DurableTurnSnapshot) (m : RM A)
    (Q : result Failure A → list Effect → DurableTurnSnapshot → Prop) : Prop :=
  ∀ w, w_trace w = tr → w_snapshot w = sn → let '(r, w') := m w in Q r (w_trace w') (w_snapshot w').

Lemma leads_ret {A} tr sn (a : A) Q : Q (Ok a) tr sn → leads tr sn (mret a) Q.
Proof. by intros H w <- <-. Qed.
Lemma leads_throw {A} tr sn f (Q : result Failure A → _) : Q (Err f) tr sn → leads tr sn (throw f) Q.
Proof. by intros H w <- <-. Qed.
Lemma leads_lift {A} tr sn (r : result Failure A) Q : Q r tr sn → leads tr sn (lift r) Q.
Proof. by intros H w <- <-. Qed.
Lemma leads_bind {A B} tr sn (m : RM A) (f : A → RM B) Q :
  leads tr sn m (λ r tr' sn', match r with Ok a => leads tr' sn' (f a) Q | Err e => Q (Err e) tr' sn' end) →
  leads tr sn (m ≫= f) Q.
Proof.
  intros H w Ht Hs. specialize (H w Ht Hs). unfold mbind, M_bind. destruct (m w) as [[a|e] w']; [|done].
  by apply H.
Qed.
Lemma leads_mono {A} tr sn (m : RM A) (Q Q' : result Failure A → _) :
  leads tr sn m Q → (∀ r tr' sn', Q r tr' sn' → Q' r tr' sn') → leads tr sn m Q'.
Proof. intros H HQ w Ht Hs. specialize (H w Ht Hs). destruct (m w). by apply HQ. Qed.
Lemma leads_snapshot tr sn (Q : result Failure DurableTurnSnapshot → _) : Q (Ok sn) tr sn → leads tr sn (gets w_snapshot) Q.
Proof. by intros H w <- <-. Qed.
Lemma leads_trace tr sn (Q : result Failure (list Effect) → _) : Q (Ok tr) tr sn → leads tr sn (gets w_trace) Q.
Proof. by intros H w <- <-. Qed.
Lemma leads_emit tr sn e Q : Q (Ok tt) (tr ++ [e]) sn → leads tr sn (emit e) Q.
Proof. by intros H w <- <-. Qed.
Lemma leads_commit tr sn m Q :
  Q (Ok tt) (tr ++ [Committed m]) sn → (∀ f, Q (Err f) (tr ++ [CommitFailed m]) sn) → leads tr sn (commit env m) Q.
Proof.
  intros H1 H2 w <- <-. unfold commit, gets, mbind, M_bind. destruct (e_commit env (w_trace w) m); [apply H2|apply H1].
Qed.
Lemma leads_now tr sn Q : (∀ t, Q (Ok t) tr sn) → leads tr sn (now env) Q.
Proof. intros H w <- <-. apply H. Qed.
Lemma leads_uuid tr sn Q : (∀ id, Q (Ok id) tr sn) → leads tr sn (randomUUID env) Q.
Proof. intros H w <- <-. apply H. Qed.
Lemma leads_uuids {A} tr sn (l : list A) (Q : result Failure (list (A * jstr)) → _) :
  (∀ l', l'.*1 = l → Q (Ok l') tr sn) → leads tr sn (randomUUIDs env l) Q.
Proof.
  revert Q. induction l as [|a l IH]; intros Q H; cbn; [by apply leads_ret, H|].
  apply leads_bind, leads_uuid. intros id. apply leads_bind, IH. intros l' <-. apply leads_ret, (H ((a, id) :: l')). done.
Qed.
Lemma leads_update tr sn step Q :
  Q (Ok tt) tr (with_steps (map (λ s, if bool_decide (st_id s = st_id step) then step else s) (sn_steps sn)) sn) →
  leads tr sn (update_step step) Q.
Proof. by intros H w <- <-. Qed.
Lemma leads_catch {A} tr sn (m : RM A) h (Q : result Failure A → _) :
  leads tr sn m (λ r tr' sn', match r with Ok a => Q (Ok a) tr' sn' | Err f => leads tr' sn' (h f) Q end) →
  leads tr sn (catch m h) Q.
Proof.
  intros H w Ht Hs. specialize (H w Ht Hs). unfold catch. destruct (m w) as [[a|f] w']; [done|]. by apply H.
Qed.

End rules.

(** Follows a computation as far as it is known. *)
Ltac walk :=
  repeat match goal with
    | |- leads _ _ (_ ≫= _) _ => apply leads_bind
    | |- leads _ _ (gets w_snapshot) _ => apply leads_snapshot
    | |- leads _ _ (gets w_trace) _ => apply leads_trace
    | |- leads _ _ (mret _) _ => apply leads_ret
    | |- leads _ _ (throw _) _ => apply leads_throw
    | |- leads _ _ (lift _) _ => apply leads_lift
    | |- leads _ _ (emit _) _ => apply leads_emit
    | |- leads _ _ (now _) _ => apply leads_now; intros ?
    | |- leads _ _ (randomUUID _) _ => apply leads_uuid; intros ?
    | |- leads _ _ (randomUUIDs _ _) _ => apply leads_uuids; intros ? ?
    | |- leads _ _ (commit _ _) _ => apply leads_commit; [|intros ?]
    | |- leads _ _ (update_step _) _ => apply leads_update
    | |- leads _ _ (catch _ _) _ => apply leads_catch
    | _ => progress cbn beta iota zeta
    end.

(** ** What a run leaves in the journal *)

(** The commits that end a run of [executeTool]: all but the mark that a call runs. *)
Definition final (e : Effect) : option DurableTurnMutation :=
  match e with Committed m => if m_keepLease m then None else Some m | _ => None end.

Definition closed (s : DurableTurnStep) : bool := is_state Completed s || is_state Failed s || is_state Cancelled s.
(** What is told of a call: its id, and whether it completed. *)
Definition told (x : DurableStepMutation) : jstr * bool := (toolCallIdForStep (mu_step x), is_state Completed (mu_step x)).
Definition told_user (r : ToolResultMessage) : jstr * bool := (tm_toolCallId r, bool_decide (tm_status r = js "completed")).
Definition told_model (e : ResultEntry) : jstr * bool := (en_toolCallId e, negb (en_isError e)).
Definition step_ids (l : list DurableStepMutation) : list jstr := map (λ x, st_id (mu_step x)) l.

(** The ids of the calls that are left to run. *)
Definition open_calls (sn : DurableTurnSnapshot) : list jstr := map st_id (List.filter isRunnableToolStep (sn_steps sn)).

(** Calls that were left to run, none of them twice (when no two steps have one id). *)
Definition once (sn : DurableTurnSnapshot) (ids : list jstr) : Prop :=
  (∀ id, id ∈ ids → id ∈ open_calls sn) ∧ (NoDup (map st_id (sn_steps sn)) → NoDup ids).

(** Every one of these calls was left to run and ends, with one result for the user and one
    for the model, which say whether it completed. *)
Definition answered (sn : DurableTurnSnapshot) (m : DurableTurnMutation) (tools : list DurableStepMutation) : Prop :=
  Forall (λ x, closed (mu_step x) = true) tools ∧ once sn (step_ids tools)
  ∧ map told_user (m_results m) = map told tools ∧ map told_model (m_entries m) = map told tools.

(** The commit calls the model, with no call left to run. *)
Definition calls_model (sn : DurableTurnSnapshot) (m : DurableTurnMutation) : Prop :=
  ∃ tools call, m_steps m = tools ++ [call] ∧ answered sn m tools
    ∧ st_type (mu_step call) = js "model.call" ∧ st_state (mu_step call) = Pending
    ∧ ∀ id, id ∈ open_calls sn → id ∈ step_ids tools.

(** The commit ends one call and leaves another to run. *)
Definition goes_on (sn : DurableTurnSnapshot) (m : DurableTurnMutation) : Prop :=
  ∃ x, m_steps m = [x] ∧ answered sn m [x] ∧ ∃ id, id ∈ open_calls sn ∧ id ≠ st_id (mu_step x).

Definition ends_in (sn : DurableTurnSnapshot) (s : TurnRunState) (m : DurableTurnMutation) : Prop :=
  m_expectedState m = ExecutingTool ∧ m_nextState m = s ∧
  match s with
  | CallingModel => calls_model sn m
  | ExecutingTool => goes_on sn m
  | WaitingRun => ∃ x rest, m_steps m = x :: rest ∧ st_state (mu_step x) = Waiting
                            ∧ Forall (λ y, st_state (mu_step y) = Cancelled) rest
  | RecoveryRun => ∃ x, m_steps m = [x] ∧ st_state (mu_step x) = RecoveryRequired
                        ∧ m_recoveryReference m = Some (st_id (mu_step x), toolCallIdForStep (mu_step x))
  | _ => False
  end.

Definition outcome (sn : DurableTurnSnapshot) (new : list Effect) (r : result Failure TurnRunState) : Prop :=
  match r with
  | Ok s => (∃ m, omap final new = [m] ∧ ends_in sn s m)
            ∨ (s = WaitingRun ∧ omap final new = [] ∧ last new = Some (Released None))
  | Err _ => omap final new = []
  end.

Lemma outcome_after sn mid new r : omap final mid = [] → outcome sn new r → outcome sn (mid ++ new) r.
Proof.
  intros H. unfold outcome. rewrite omap_app, H. destruct r as [s|f]; [|done].
  intros [?|(-> & Hf & Hl)]; [by left|right]. by rewrite last_app, Hl.
Qed.

(** ** When a call runs *)

(** The mark that it runs was committed before, and counts the attempt. *)
Definition marked (before : list Effect) (s : DurableTurnStep) : Prop :=
  ∃ m, Committed m ∈ before ∧ starting s ∈ m_steps m.

Definition finished (sn : DurableTurnSnapshot) (tr : list Effect) (r : result Failure TurnRunState) (tr' : list Effect) : Prop :=
  ∃ new, tr' = tr ++ new ∧ outcome sn new r ∧ ∀ s, Executed s ∉ new.

Lemma elem_of_open_calls sn id : id ∈ open_calls sn ↔ ∃ s, s ∈ sn_steps sn ∧ isRunnableToolStep s = true ∧ st_id s = id.
Proof.
  unfold open_calls. rewrite list_elem_of_fmap. setoid_rewrite list_elem_of_In. setoid_rewrite filter_In. naive_solver.
Qed.

Lemma remaining_tools_spec sn step : remaining_tools sn step = true ↔ ∃ id, id ∈ open_calls sn ∧ id ≠ st_id step.
Proof.
  unfold remaining_tools. rewrite existsb_exists. setoid_rewrite elem_of_open_calls. split.
  - intros (s & Hs & [Hne%negb_true_iff%bool_decide_eq_false Hr]%andb_true_iff). apply list_elem_of_In in Hs. eauto 6.
  - intros (_ & (s & Hs & Hr & <-) & Hne). exists s. apply list_elem_of_In in Hs. split; [done|].
    rewrite Hr, andb_true_r. by apply negb_true_iff, bool_decide_eq_false.
Qed.

Lemma final_last new m : m_keepLease m = false → omap final new = [] → omap final (new ++ [Committed m]) = [m].
Proof. intros Hk Hn. rewrite omap_app, Hn. simpl. by rewrite Hk. Qed.

(** One call is no call twice. *)
Lemma once_one sn id : id ∈ open_calls sn → once sn [id].
Proof. intros H. split; [intros i ->%list_elem_of_singleton; done|]. intros _. apply NoDup_singleton. Qed.

(** A commit of the results of one call, with the next call of the model when none is left. *)
Lemma ends_one sn step id x calls m :
  st_id step ∈ open_calls sn → st_id (mu_step x) = st_id step → closed (mu_step x) = true →
  calls = (if remaining_tools sn step then [] else [model_call sn id None]) →
  m_expectedState m = ExecutingTool → m_nextState m = next_state (remaining_tools sn step) → m_steps m = x :: calls →
  map told_user (m_results m) = [told x] → map told_model (m_entries m) = [told x] →
  ends_in sn (next_state (remaining_tools sn step)) m.
Proof.
  intros Hopen Hid Hc -> He Hn Hs Hr Hen. split_and!; [done..|].
  assert (Ha : answered sn m [x]) by (split_and!; [by constructor|by apply (once_one sn); cbn; rewrite Hid|done..]).
  pose proof (remaining_tools_spec sn step) as Hspec. destruct (remaining_tools sn step); cbn [next_state].
  - destruct (proj1 Hspec eq_refl) as (i & Hi & Hne). exists x. split; [done|]. split; [done|]. exists i. by rewrite Hid.
  - exists [x], (model_call sn id None). rewrite Hs. split_and!; [done| |done|done|]; [apply Ha|]. intros i Hi. cbn. rewrite Hid.
    destruct (decide (i = st_id step)) as [->|Hne]; [set_solver|]. exfalso. by discriminate (proj2 Hspec (ex_intro _ i (conj Hi Hne))).
Qed.

Section operations.
Context (locale_le : jstr → jstr → bool) (sha256 toLowerCase toUpperCase : jstr → jstr) (sandbox_cwd : option jstr).
Context (options : Options) (env : Environment).

Lemma model_call_unless_spec tr sn step Q :
  (∀ id, Q (Ok (if remaining_tools sn step then [] else [model_call sn id None])) tr sn) →
  leads tr sn (model_call_unless env (remaining_tools sn step) sn) Q.
Proof. intros H. unfold model_call_unless. destruct (remaining_tools sn step); walk; [apply (H [])|apply H]. Qed.

(** A last commit, and what it leads to. *)
Lemma commit_final tr sn r m :
  m_keepLease m = false → ends_in sn r m →
  ∀ tr', tr' = tr ++ [Committed m] → finished sn tr (Ok r) tr'.
Proof.
  intros Hk He tr' ->. exists [Committed m]. split_and!; [done| |set_solver].
  left. exists m. split; [|done]. by apply (final_last []).
Qed.
Lemma commit_failed tr sn m f : finished sn tr (Err f) (tr ++ [CommitFailed m]).
Proof. exists [CommitFailed m]. split_and!; [done..|set_solver]. Qed.

Lemma commitAndWake_leads tr sn m Q :
  (∀ outbox, let m' := with_outbox outbox m in
     Q (Ok tt) (tr ++ [Committed m']) sn ∧ ∀ f, Q (Err f) (tr ++ [CommitFailed m']) sn) →
  leads tr sn (commitAndWake env sn m) Q.
Proof.
  intros H. unfold commitAndWake. case_bool_decide.
  - assert (Hm : with_outbox (m_outbox m) m = m) by (by destruct m). specialize (H (m_outbox m)). rewrite Hm in H.
    apply leads_commit; apply H.
  - apply leads_commit; apply H.
Qed.

Lemma not_run_finished tr sn step x error message summary a b : st_id step ∈ open_calls sn →
  st_id (mu_step x) = st_id step → closed (mu_step x) = true → told x = (toolCallIdForStep step, false) →
  leads tr sn (not_run env step x error message summary a b) (λ r tr' _, finished sn tr r tr').
Proof.
  intros Hopen Hid Hc Hcall. unfold not_run. walk. apply model_call_unless_spec. intros call_id. apply leads_bind, commitAndWake_leads.
  intros outbox. split; [walk|intros f; apply commit_failed].
  eapply commit_final; [..|done]; [done|]. eapply ends_one; try done; cbn; by rewrite Hcall.
Qed.

Lemma suppressRepeatedToolCall_finished tr sn step a : st_id step ∈ open_calls sn →
  leads tr sn (suppressRepeatedToolCall env step a) (λ r tr' _, finished sn tr r tr').
Proof. intros H. by apply not_run_finished. Qed.
Lemma refuseUnchangedRetry_finished tr sn step retry : st_id step ∈ open_calls sn →
  leads tr sn (refuseUnchangedRetry env step retry) (λ r tr' _, finished sn tr r tr').
Proof. intros H. by apply not_run_finished. Qed.

Lemma notApproved_finished tr sn step status : st_id step ∈ open_calls sn →
  leads tr sn (notApproved env step status) (λ r tr' _, finished sn tr r tr').
Proof.
  intros Hopen. unfold notApproved. walk. apply model_call_unless_spec. intros call_id. apply leads_bind, commitAndWake_leads.
  intros outbox. split; [walk|intros f; apply commit_failed].
  eapply commit_final; [..|done]; [done|]. by eapply ends_one; try done; cbn.
Qed.

(** The results of [stopToolUse]: of the call itself and of those behind it. *)
Definition stop_results (guard : StopGuard) (sn : DurableTurnSnapshot) (step : DurableTurnStep) : list StopResult :=
  stopped_call guard step
  :: map queued_call (sort_by ascending (List.filter (λ c, negb (bool_decide (st_id c = st_id step)) && isRunnableToolStep c) (sn_steps sn))).

Lemma elem_of_insert_by {A} le (a : A) l x : x ∈ insert_by le a l ↔ x = a ∨ x ∈ l.
Proof.
  induction l as [|b l IH]; simpl; [set_solver|]. destruct (le a b); [set_solver|]. rewrite !elem_of_cons, IH. set_solver.
Qed.
Lemma elem_of_sort_by {A} le (l : list A) x : x ∈ sort_by le l ↔ x ∈ l.
Proof. induction l as [|a l IH]; simpl; [set_solver|]. by rewrite elem_of_insert_by, IH, elem_of_cons. Qed.
Lemma elem_of_filter_bool {A} (f : A → bool) l x : x ∈ List.filter f l ↔ x ∈ l ∧ f x = true.
Proof. rewrite !list_elem_of_In. apply filter_In. Qed.

Lemma insert_by_perm {A} le (a : A) l : insert_by le a l ≡ₚ a :: l.
Proof. induction l as [|b l IH]; [done|]. simpl. destruct (le a b); [done|]. rewrite IH. apply Permutation_swap. Qed.
Lemma sort_by_perm {A} le (l : list A) : sort_by le l ≡ₚ l.
Proof. induction l as [|a l IH]; [done|]. simpl. by rewrite insert_by_perm, IH. Qed.
Lemma NoDup_map_filter {A B} (f : A → B) p l : NoDup (map f l) → NoDup (map f (List.filter p l)).
Proof.
  induction l as [|a l IH]; [done|]. cbn. rewrite NoDup_cons. intros [Ha Hl]. destruct (p a); [|by apply IH]. cbn.
  apply NoDup_cons. split; [|by apply IH]. intros (x & Hx & [H _]%elem_of_filter_bool)%list_elem_of_fmap.
  apply Ha. rewrite Hx. by apply list_elem_of_fmap_2.
Qed.

Lemma stop_results_spec guard sn step r : r ∈ stop_results guard sn step →
  ∀ id, told (sr_mutation r id) = (toolCallIdForStep (sr_step r), sr_completed r)
        ∧ st_id (mu_step (sr_mutation r id)) = st_id (sr_step r) ∧ closed (mu_step (sr_mutation r id)) = true.
Proof.
  unfold stop_results. rewrite elem_of_cons, list_elem_of_fmap. intros [->|(s & -> & _)] id; [|done].
  unfold stopped_call. destruct (sg_completed guard) as [[[? ?] ?]|]; [done|]. unfold told. cbn. by destruct (sg_repeat guard).
Qed.

Lemma stop_results_once guard sn step : st_id step ∈ open_calls sn →
  once sn (map (λ r, st_id (sr_step r)) (stop_results guard sn step)).
Proof.
  intros Hopen. unfold stop_results. cbn [map]. rewrite map_map.
  assert (Hfirst : st_id (sr_step (stopped_call guard step)) = st_id step) by (unfold stopped_call; by destruct (sg_completed guard) as [[[? ?] ?]|]).
  rewrite Hfirst. cbn [queued_call sr_step].
  set (queued := sort_by _ _).
  assert (Hq : ∀ s, s ∈ queued → s ∈ sn_steps sn ∧ st_id s ≠ st_id step ∧ isRunnableToolStep s = true).
  { intros s [Hs [Hne%negb_true_iff%bool_decide_eq_false Hr]%andb_true_iff]%elem_of_sort_by%elem_of_filter_bool. done. }
  split.
  - intros id [->|(s & -> & Hs)%list_elem_of_fmap]%elem_of_cons; [done|]. apply elem_of_open_calls. exists s. by destruct (Hq s Hs) as (? & _ & ?).
  - intros Hnd. apply NoDup_cons. split.
    + intros (s & E & Hs)%list_elem_of_fmap. by destruct (Hq s Hs) as (_ & Hne & _).
    + unfold queued. rewrite sort_by_perm. by apply NoDup_map_filter.
Qed.

Lemma stop_results_cover guard sn step id : id ∈ open_calls sn → ∃ r, r ∈ stop_results guard sn step ∧ st_id (sr_step r) = id.
Proof.
  rewrite elem_of_open_calls. intros (s & Hs & Hr & <-). unfold stop_results. setoid_rewrite elem_of_cons.
  destruct (decide (st_id s = st_id step)) as [->|Hne].
  - eexists. split; [by left|]. unfold stopped_call. by destruct (sg_completed guard) as [[[? ?] ?]|].
  - exists (queued_call s). split; [right|done]. apply list_elem_of_fmap. exists s. split; [done|].
    rewrite elem_of_sort_by, elem_of_filter_bool, Hr, andb_true_r. split; [done|]. by apply negb_true_iff, bool_decide_eq_false.
Qed.

Lemma status_told b : bool_decide (status_text b = js "completed") = b.
Proof. by destruct b. Qed.

Lemma stopToolUse_finished tr sn step guard : st_id step ∈ open_calls sn →
  leads tr sn (stopToolUse env step guard) (λ r tr' _, finished sn tr r tr').
Proof.
  intros Hopen. unfold stopToolUse. walk. apply commitAndWake_leads. intros outbox. split; [walk|intros f; apply commit_failed].
  eapply commit_final; [..|done]; [done|]. fold (stop_results guard sn step) in H.
  assert (Hspec : ∀ p, p ∈ l' → p.1 ∈ stop_results guard sn step) by (intros p Hp; rewrite <- H; by apply list_elem_of_fmap_2).
  assert (Hids : step_ids (map (λ r, sr_mutation r.1 r.2) l') = map (λ r, st_id (sr_step r)) (stop_results guard sn step)).
  { unfold step_ids. rewrite <- H, !map_map. apply map_ext_in. intros p Hp%list_elem_of_In. by apply (stop_results_spec _ _ _ _ (Hspec p Hp)). }
  split_and!; [done..|]. eexists (map (λ r, sr_mutation r.1 r.2) l'), _. split_and!; [done| |done|done|].
  - split_and!; cbn [m_results m_entries tools_mutation with_outbox].
    + apply Forall_fmap, Forall_forall. intros p Hp. by apply (stop_results_spec _ _ _ _ (Hspec p Hp)).
    + rewrite Hids. by apply stop_results_once.
    + rewrite !map_map. apply map_ext_in. intros p Hp%list_elem_of_In. destruct (stop_results_spec _ _ _ _ (Hspec p Hp) p.2) as (-> & _ & _).
      unfold told_user. cbn. by rewrite status_told.
    + rewrite !map_map. apply map_ext_in. intros p Hp%list_elem_of_In. destruct (stop_results_spec _ _ _ _ (Hspec p Hp) p.2) as (-> & _ & _).
      unfold told_model. cbn. by rewrite negb_involutive.
  - intros i (r & Hr & <-)%(stop_results_cover guard _ step). rewrite Hids. by apply (list_elem_of_fmap_2 (λ r, st_id (sr_step r))).
Qed.

Lemma continueModel_finished tr sn : open_calls sn = [] →
  leads tr sn (continueModel env) (λ r tr' _, finished sn tr r tr').
Proof.
  intros Hopen. unfold continueModel. walk. apply commitAndWake_leads. intros outbox. split; [walk|intros f; apply commit_failed].
  eapply commit_final; [..|done]; [done|]. split_and!; [done..|]. eexists [], _. split_and!; [done| |done|done|].
  - split_and!; [by constructor| |done|done]. split; [set_solver|]. intros _. constructor.
  - rewrite Hopen. set_solver.
Qed.

Lemma askQuestion_finished tr sn step questions :
  leads tr sn (askQuestion env step questions) (λ r tr' _, finished sn tr r tr').
Proof.
  unfold askQuestion. walk. destruct questions as [|q qs].
  { walk. exists []. rewrite app_nil_r. split_and!; [done..|set_solver]. }
  walk; [|apply commit_failed]. eapply commit_final; [..|done]; [done|]. split_and!; [done..|].
  eexists _, _. split_and!; [done|done|]. by apply Forall_fmap, Forall_forall.
Qed.

Lemma requestApproval_finished tr sn step :
  leads tr sn (requestApproval env step) (λ r tr' _, finished sn tr r tr').
Proof.
  unfold requestApproval. walk; [|apply commit_failed]. eapply commit_final; [..|done]; [done|]. split_and!; [done..|].
  eexists _, []. split_and!; [done|done|by constructor].
Qed.

Lemma recoverInterrupted_finished tr sn step :
  leads tr sn (recoverInterrupted env step) (λ r tr' _, finished sn tr r tr').
Proof.
  unfold recoverInterrupted. walk; [|apply commit_failed]. eapply commit_final; [..|done]; [done|]. split_and!; [done..|].
  eexists. by split_and!.
Qed.

(** A commit that hands a call to recovery ends the run there. *)
Definition recovered (sn : DurableTurnSnapshot) (tr : list Effect) (r : result Failure unit) (tr' : list Effect) : Prop :=
  finished sn tr (match r with Ok _ => Ok RecoveryRun | Err f => Err f end) tr'.

Lemma input_held k ids s : js k ≠ js "heldBy" → input k (set_input (with_heldBy ids (st_input s)) s) = input k s.
Proof.
  intros Hk. unfold input. cbn [set_input st_input]. destruct (st_input s) as [| | | | |l]; cbn [with_heldBy member];
    [by rewrite <- (map_get_set_ne _ _ (JArr (map JStr ids)) [] Hk)..|by apply map_get_set_ne].
Qed.

Lemma recovery_step_spec reason details s :
  st_id (recovery_step reason details s) = st_id s ∧ st_state (recovery_step reason details s) = RecoveryRequired
  ∧ toolCallIdForStep (recovery_step reason details s) = toolCallIdForStep s.
Proof.
  assert (H : ∀ k, js k ≠ js "heldBy" → input k (recovery_step reason details s) = input k s).
  { intros k Hk. transitivity (input k (match rd_held details with Some _ => set_input (with_heldBy (rd_heldBy details) (st_input s)) s | None => s end)).
    - unfold recovery_step. by destruct (rd_held details), (rd_failure details), (rd_timedOut details).
    - destruct (rd_held details); [by apply input_held|done]. }
  unfold toolCallIdForStep. rewrite H by done.
  unfold recovery_step. by destruct (rd_held details), (rd_failure details), (rd_timedOut details).
Qed.

Lemma transition_recovered tr sn reason details :
  leads tr sn (transitionAmbiguousToolToRecovery env reason details) (λ r tr' _, recovered sn tr r tr').
Proof.
  unfold transitionAmbiguousToolToRecovery. walk. case_match; walk.
  - unfold recovered. eapply commit_final; [..|done]; [done|]. split_and!; [done..|]. eexists. split; [done|].
    cbn [acknowledged mu_step]. by destruct (recovery_step_spec reason details d) as (-> & -> & ->).
  - apply commit_failed.
  - exists []. rewrite app_nil_r. split_and!; [done..|set_solver].
Qed.

Lemma holdCall_finished tr sn step uncertain :
  leads tr sn (holdCall env step uncertain) (λ r tr' _, finished sn tr r tr').
Proof.
  unfold holdCall. walk. eapply leads_mono; [apply transition_recovered|]. intros [[]|f] tr' sn' H; [by walk|done].
Qed.

(** ** Calls that run *)

Definition executed (e : Effect) : option DurableTurnStep := match e with Executed s => Some s | _ => None end.

(** Computations that neither end the run nor run a tool. *)
Definition quietly (sn : DurableTurnSnapshot) (tr tr' : list Effect) (sn' : DurableTurnSnapshot) : Prop :=
  sn' = sn ∧ ∃ mid, tr' = tr ++ mid ∧ omap final mid = [] ∧ omap executed mid = [].
Definition quiet {A} (m : M World Failure A) : Prop := ∀ tr sn, leads tr sn m (λ _ tr' sn', quietly sn tr tr' sn').

Lemma quietly_refl sn tr : quietly sn tr tr sn.
Proof. split; [done|]. exists []. by rewrite app_nil_r. Qed.
Lemma quietly_trans sn tr1 tr2 sn2 tr3 sn3 : quietly sn tr1 tr2 sn2 → quietly sn2 tr2 tr3 sn3 → quietly sn tr1 tr3 sn3.
Proof.
  intros (-> & mid & -> & H1 & H2) (-> & mid' & -> & H3 & H4). split; [done|]. exists (mid ++ mid').
  by rewrite app_assoc, !omap_app, H1, H2, H3, H4.
Qed.
Lemma quiet_ret {A} (a : A) : quiet (mret a).
Proof. intros tr sn. walk. apply quietly_refl. Qed.
Lemma quiet_throw {A} f : quiet (throw f : M World Failure A).
Proof. intros tr sn. walk. apply quietly_refl. Qed.
Lemma quiet_lift {A} (r : result Failure A) : quiet (lift r).
Proof. intros tr sn. walk. apply quietly_refl. Qed.
Lemma quiet_trace : quiet (gets w_trace).
Proof. intros tr sn. walk. apply quietly_refl. Qed.
Lemma quiet_snapshot : quiet (gets w_snapshot).
Proof. intros tr sn. walk. apply quietly_refl. Qed.
Lemma quiet_reserved cost : quiet (emit (Reserved cost)).
Proof. intros tr sn. walk. split; [done|]. by exists [Reserved cost]. Qed.
Lemma quiet_bind {A B} (m : M World Failure A) (f : A → M World Failure B) : quiet m → (∀ a, quiet (f a)) → quiet (m ≫= f).
Proof.
  intros Hm Hf tr sn. apply leads_bind. eapply leads_mono; [apply Hm|]. intros [a|e] tr' sn' H; [|done].
  eapply leads_mono; [apply Hf|]. intros r tr2 sn2 H'. by eapply quietly_trans.
Qed.
Create HintDb quiet.
Hint Resolve quiet_ret quiet_throw quiet_lift quiet_trace quiet_snapshot quiet_reserved quiet_bind : quiet.

Lemma quiet_reserve cost fallback : quiet (reserve env cost fallback).
Proof.
  unfold reserve. apply quiet_bind; [apply quiet_trace|]. intros trace. destruct (e_reserve env trace cost); [|apply quiet_ret].
  apply quiet_bind; [apply quiet_reserved|]. intros _. apply quiet_bind; [apply quiet_lift|]. intros d.
  destruct (bd_allowed d); auto with quiet.
Qed.
Hint Resolve quiet_reserve : quiet.

(** After something quiet. *)
Lemma leads_quiet {A B} tr sn (m : M World Failure A) (f : A → M World Failure B) (Q : result Failure B → _) :
  quiet m → (∀ e tr', quietly sn tr tr' sn → Q (Err e) tr' sn) →
  (∀ a tr', quietly sn tr tr' sn → leads tr' sn (f a) Q) → leads tr sn (m ≫= f) Q.
Proof.
  intros Hm He Hf. apply leads_bind. eapply leads_mono; [apply Hm|]. intros [a|e] tr' sn' H; pose proof H as [-> _]; auto.
Qed.

(** The calls that a run runs. *)
Definition runnable_now (step : DurableTurnStep) (stopped : bool) : Prop :=
  stopped = false ∧ argumentError step = None ∧ questionProblem step = None.

Lemma runCall_leads tr sn step stopped :
  leads tr sn (runCall env step stopped) (λ _ tr' sn', sn' = sn ∧ ∃ mid, tr' = tr ++ mid ∧ omap final mid = []
    ∧ (omap executed mid = [] ∨ omap executed mid = [step] ∧ runnable_now step stopped)).
Proof.
  set (Q := λ (_ : result Failure TurnToolResult) (tr' : list Effect) (sn' : DurableTurnSnapshot), _).
  assert (Hend : ∀ r tr', quietly sn tr tr' sn → Q r tr' sn) by (intros r tr' (_ & mid & H); split; naive_solver).
  pose proof (quietly_refl sn tr) as H0.
  unfold runCall. walk. destruct stopped; [walk; by apply Hend|].
  destruct (argumentError step) eqn:Ea; [walk; by apply Hend|]. destruct (questionProblem step) eqn:Eq; [walk; by apply Hend|].
  assert (Hrun : ∀ tr', quietly sn tr tr' sn → leads tr' sn (run_tool env step) Q).
  { intros tr' (_ & mid & -> & H1 & H2). unfold run_tool. walk. split; [done|]. exists (mid ++ [Executed step]).
    rewrite <- app_assoc, !omap_app, H1, H2. split_and!; [done..|by right]. }
  apply leads_quiet; [|eauto|intros _ tr1 H1].
  { destruct (bool_decide _); [|apply quiet_ret]. apply quiet_bind; [apply quiet_lift|]. intros rt. repeat case_match; auto with quiet. }
  apply leads_quiet; [|intros; apply Hend; by eapply quietly_trans|intros _ tr2 H2].
  { destruct (bool_decide _); [|apply quiet_ret]. apply quiet_bind; [apply quiet_lift|]. intros rt. repeat case_match; auto with quiet. }
  apply leads_quiet; [|intros; apply Hend; eauto using quietly_trans|intros skill tr3 H3].
  { destruct (bool_decide _); [|apply quiet_ret]. apply quiet_bind; [apply quiet_lift|]. auto with quiet. }
  assert (H123 : quietly sn tr tr3 sn) by eauto using quietly_trans. clear H1 H2 H3.
  destruct (match skill with Some _ => _ | None => _ end); [by apply Hrun|]. apply leads_quiet; [apply quiet_lift|intros; apply Hend; eauto using quietly_trans|].
  intros presented tr4 H4. destruct presented; [walk; apply Hend; eauto using quietly_trans|]. apply Hrun. eauto using quietly_trans.
Qed.

Lemma quietly_finished tr sn f tr' sn' : quietly sn tr tr' sn' → finished sn tr (Err f) tr'.
Proof.
  intros (_ & mid & -> & H1 & H2). exists mid. split_and!; [done..|]. intros s Hs.
  assert (s ∈ omap executed mid) by (apply list_elem_of_omap; by exists (Executed s)). rewrite H2 in *. set_solver.
Qed.
Lemma throw_finished tr sn f : finished sn tr (Err f) tr.
Proof. eapply quietly_finished, quietly_refl. Qed.

Lemma transition_finished tr sn reason details :
  leads tr sn (do! transitionAmbiguousToolToRecovery env reason details in mret RecoveryRun) (λ r tr' _, finished sn tr r tr').
Proof.
  apply leads_bind. eapply leads_mono; [apply transition_recovered|]. intros [[]|f] tr' sn' H; [by walk|done].
Qed.

Lemma finished_after tr tr1 sn r tr' : quietly sn tr tr1 sn → finished sn tr1 r tr' → finished sn tr r tr'.
Proof.
  intros (_ & mid & -> & H1 & H2) (new & -> & Ho & Hx). exists (mid ++ new). rewrite app_assoc. split_and!; [done| |].
  - by apply outcome_after.
  - intros s [Hs|Hs]%elem_of_app; [|by eapply Hx].
    assert (s ∈ omap executed mid) by (apply list_elem_of_omap; by exists (Executed s)). rewrite H2 in *. set_solver.
Qed.

Lemma failed_step_spec step f failure text :
  st_id (failed_step step f failure text) = st_id step ∧ closed (failed_step step f failure text) = true
  ∧ toolCallIdForStep (failed_step step f failure text) = toolCallIdForStep step
  ∧ is_state Completed (failed_step step f failure text) = false.
Proof. unfold failed_step. destruct f; split_and!; try done; by destruct (bool_decide _). Qed.

Lemma callFailed_finished tr sn before step t f : st_id step ∈ open_calls sn →
  leads tr sn (callFailed locale_le sha256 toLowerCase toUpperCase sandbox_cwd options env before step t f) (λ r tr' _, finished sn tr r tr').
Proof.
  intros Hopen. unfold callFailed. destruct (is_timeout f && holdsForReview step); [apply transition_finished|].
  destruct (match f with CancellationError => _ | _ => _ end); [walk; apply throw_finished|].
  walk. destruct (unknown_outcome_class _ && _); [apply transition_finished|].
  walk. apply model_call_unless_spec. intros call_id. apply leads_bind, commitAndWake_leads.
  intros outbox. split; [walk|intros e; apply commit_failed].
  eapply commit_final; [..|done]; [done|].
  match goal with |- context [failed_step ?s ?e ?c ?x] => pose proof (failed_step_spec s e c x) as (Hs1 & Hs2 & Hs3 & Hs4) end.
  eapply (ends_one sn step); try done; unfold told, told_user, told_model;
    cbn [recorded assessed mu_step tools_mutation with_outbox m_results m_entries map result_entry result_message tm_toolCallId
         tm_status en_toolCallId en_isError]; by rewrite ?Hs3, ?Hs4.
Qed.

Lemma callCompleted_finished tr sn before step t raw : st_id step ∈ open_calls sn →
  leads tr sn (callCompleted locale_le sha256 toLowerCase options env before step t raw) (λ r tr' _, finished sn tr r tr').
Proof.
  intros Hopen. unfold callCompleted. walk. destruct (_ && _); [by apply stopToolUse_finished|].
  walk. apply model_call_unless_spec. intros call_id. apply leads_quiet.
  { unfold image_usage. destruct (bool_decide _); auto with quiet. }
  { intros e tr' H. by eapply quietly_finished. }
  intros image tr' H. apply leads_quiet.
  { destruct (tr_sandbox _); [|apply quiet_ret]. unfold scheduledSandboxSnapshot. intros tr1 sn1. walk. apply quietly_refl. }
  { intros e tr2 H2. eapply quietly_finished, quietly_trans; done. }
  intros outbox tr2 H2. pose proof (quietly_trans _ _ _ _ _ _ H H2) as Hq. clear H H2.
  apply leads_bind, commitAndWake_leads. intros outbox'. split; [walk|intros e]; eapply finished_after; try done; [|apply commit_failed].
  eapply commit_final; [..|done]; [done|]. by eapply ends_one; try done; cbn.
Qed.

(** ** Which calls run *)

(** What the snapshot says for a call that runs: nothing earlier is left to be
    reviewed, what it needs was approved, and no guard is against it. *)
Record may_run (sn : DurableTurnSnapshot) (step : DurableTurnStep) : Prop := {
  run_listed : step ∈ sn_steps sn;
  run_open : isRunnableToolStep step = true;
  run_arguments : argumentError step = None ∧ questionProblem step = None;
  run_no_question : toolNameForStep step ≠ js "ask_user_question";
  run_first : manual step = true → st_state step = Pending;
  run_approved : input "requiresApproval" step = Some (JBool true) → ap_status <$> approval_of sn step = Some Approved;
  run_certain : holdsForReview step = true → uncertainEarlierCalls toLowerCase toUpperCase sn step = [];
  run_changed : st_state step = Pending → unchangedFailedRetry locale_le sha256 sandbox_cwd sn step = None;
  run_new : op_enforceRepeatGuard options = true →
    ra_decision (assessRepeatedToolCall locale_le sha256 toLowerCase sn step) ∈ [Allow; AllowWithWarning];
  run_budget : (pr_cumulativeToolMs (progressState sn) < cumulativeToolBudget options)%Z;
}.

Definition started (deadline idle : Z) (step : DurableTurnStep) : DurableTurnStep := set_deadlines deadline idle (set_state Running step).

(** The effects of a run: how it ends, and which calls run in it. *)
Definition run_post (sn : DurableTurnSnapshot) (tr : list Effect) (r : result Failure TurnRunState) (tr' : list Effect) : Prop :=
  ∃ new, tr' = tr ++ new ∧ outcome sn new r
    ∧ (∀ before s after, new = before ++ Executed s :: after →
         marked before s ∧ ∃ step deadline idle, s = started deadline idle step ∧ may_run sn step)
    ∧ (Forall (λ s, read_only s = true) (omap executed new) ∨ (length (omap executed new) <= 1)%nat).

Lemma finished_post tr sn r tr' : finished sn tr r tr' → run_post sn tr r tr'.
Proof.
  intros (new & -> & Ho & Hx). exists new. split_and!; [done..| |].
  - intros before s after ->. exfalso. apply (Hx s). set_solver.
  - left. apply Forall_forall. intros s Hs. apply list_elem_of_omap in Hs as (e & He & Hs). destruct e; try done.
    simplify_eq/=. by destruct (Hx s).
Qed.

Lemma approval_Run (o : option ApprovalStatus) :
  match o with
  | Some Approved => Run | Some Denied => NotApproved (js "denied") | Some Expired => NotApproved (js "expired")
  | Some ApprovalPending => AwaitApproval | None => RequestApproval
  end = Run → o = Some Approved.
Proof. by destruct o as [[]|]. Qed.

Lemma decision_run sn step :
  decision locale_le sha256 toLowerCase toUpperCase sandbox_cwd options sn step = Run →
  step ∈ sn_steps sn → isRunnableToolStep step = true →
  argumentError step = None → questionProblem step = None → interrupted step = false → may_run sn step.
Proof.
  intros Hd Hin Hopen Ha Hq Hi. revert Hd. unfold decision.
  destruct (Z.leb_spec (cumulativeToolBudget options) (pr_cumulativeToolMs (progressState sn))) as [|Hbudget]; [done|].
  destruct (_ && _); [done|].
  assert (Hfirst : manual step = true → st_state step = Pending).
  { intros Hm. unfold interrupted in Hi. rewrite Ha, Hm, !andb_true_r in Hi. unfold isRunnableToolStep in Hopen.
    rewrite Hi, orb_false_r in Hopen. apply andb_true_iff in Hopen as [_ H]. by apply bool_decide_eq_true in H. }
  assert (Hheld : holdsForReview step = true → is_state Pending step = true).
  { intros [Hm _]%andb_true_iff. apply bool_decide_eq_true. auto. }
  destruct (if is_state Pending step && holdsForReview step then _ else []) eqn:Eu; [|done].
  destruct (repeatedToolFailure _ _ _ _ _); [done|].
  destruct (if is_state Pending step then _ else None) eqn:Er; [done|].
  assert (Hrm : is_state Running step && manual step = false).
  { unfold interrupted in Hi. by rewrite Ha, andb_true_r in Hi. }
  rewrite Hrm, Hi, Hq, Ha. cbn [negb andb].
  destruct (op_enforceRepeatGuard options && bool_decide (_ = Terminate)) eqn:Et; [done|].
  destruct (op_enforceRepeatGuard options && bool_decide (_ = Suppress)) eqn:Es; [done|].
  destruct (bool_decide (toolNameForStep step = _) && true) eqn:En; [done|].
  intros Hrun. split; try done.
  - rewrite andb_true_r in En. by apply bool_decide_eq_false in En.
  - intros Happ. unfold requiresApproval in Hrun. rewrite Happ, Ha, Hi in Hrun. rewrite bool_decide_eq_true_2 in Hrun by done.
    by apply approval_Run.
  - intros Hh. rewrite (Hheld Hh), Hh in Eu. done.
  - intros Hp. by rewrite (bool_decide_eq_true_2 _ Hp : is_state Pending step = true) in Er.
  - intros He. rewrite He in Et, Es. apply bool_decide_eq_false in Et, Es. unfold assess in *.
    destruct (ra_decision _); set_solver.
Qed.

(** Marking calls as running leaves the same calls to run. *)
Definition mark (l : list DurableTurnStep) (sn : DurableTurnSnapshot) : DurableTurnSnapshot :=
  fold_left (λ sn x, with_steps (map (λ s, if bool_decide (st_id s = st_id x) then x else s) (sn_steps sn)) sn) l sn.

Definition same_open (sn sn' : DurableTurnSnapshot) : Prop :=
  (∀ id, id ∈ open_calls sn ↔ id ∈ open_calls sn') ∧ map st_id (sn_steps sn') = map st_id (sn_steps sn).

Lemma same_open_mark sn x : isRunnableToolStep x = true → st_id x ∈ open_calls sn → same_open sn (mark [x] sn).
Proof.
  intros Hx Hin. split.
  - intros id. rewrite !elem_of_open_calls. cbn [mark fold_left with_steps sn_steps]. split.
    + intros (s & Hs & Hr & <-). exists (if bool_decide (st_id s = st_id x) then x else s). split.
      * apply list_elem_of_fmap. by exists s.
      * by case_bool_decide.
    + intros (s' & (s & -> & Hs)%list_elem_of_fmap & Hr & <-). case_bool_decide; [|by exists s].
      by apply elem_of_open_calls.
  - cbn. rewrite map_map. apply map_ext. intros s. by case_bool_decide.
Qed.

Lemma once_same sn sn' ids : same_open sn sn' → once sn' ids → once sn ids.
Proof. intros [H1 H2] [H3 H4]. split; [intros id Hid; by apply H1, H3|]. rewrite <- H2. exact H4. Qed.

Lemma answered_same sn sn' m tools : same_open sn sn' → answered sn' m tools → answered sn m tools.
Proof. intros Hsame (H1 & H2 & H3). split; [done|]. split; [by eapply once_same|done]. Qed.

Lemma outcome_same_open sn sn' new r : same_open sn sn' → outcome sn' new r → outcome sn new r.
Proof.
  intros Hsame. destruct r as [s|f]; [|done]. intros [(m & Hm & He & Hn & Hs)|?]; [left|by right]. exists m.
  split; [done|]. split; [done|]. split; [done|]. destruct s; try done.
  - destruct Hs as (tools & call & H1 & H2 & H3 & H4 & H5). exists tools, call. split_and!; try done; [by eapply answered_same|].
    intros id Hid. by apply H5, Hsame.
  - destruct Hs as (x & H1 & H2 & id & Hid & Hne). exists x. split; [done|]. split; [by eapply answered_same|].
    exists id. split; [by apply Hsame|done].
Qed.

Lemma finished_executed_nil sn tr r tr' : finished sn tr r tr' → ∃ new, tr' = tr ++ new ∧ outcome sn new r ∧ omap executed new = [].
Proof.
  intros (new & -> & Ho & Hx). exists new. split_and!; [done..|]. apply elem_of_nil_inv. clear -Hx. intros s Hs.
  apply list_elem_of_omap in Hs as (e & He & Hs). destruct e; try done. simplify_eq/=. by destruct (Hx s).
Qed.

Lemma omap_executed_single (new before after : list Effect) s x :
  omap executed new = [x] → new = before ++ Executed s :: after → s = x ∧ omap executed before = [] ∧ omap executed after = [].
Proof.
  intros H ->. rewrite omap_app in H. cbn in H. destruct (omap executed before) as [|y l]; cbn in H; [by simplify_eq|].
  by destruct l.
Qed.

Lemma executeCall_post tr sn step :
  decision locale_le sha256 toLowerCase toUpperCase sandbox_cwd options sn step = Run →
  step ∈ sn_steps sn → isRunnableToolStep step = true →
  leads tr sn (executeCall locale_le sha256 toLowerCase toUpperCase sandbox_cwd options env step) (λ r tr' _, run_post sn tr r tr').
Proof.
  intros Hd Hin Hopen. unfold executeCall. destruct (interrupted step) eqn:Hi.
  - walk.
    assert (Hid : st_id step ∈ open_calls sn) by (apply elem_of_open_calls; by exists step).
    assert (Hcall : ∀ tr1 t, leads tr1 sn
      (callFailed locale_le sha256 toLowerCase toUpperCase sandbox_cwd options env sn step t (InterruptedError (toolNameForStep step)))
      (λ r tr' _, run_post sn tr1 r tr')).
    { intros tr1 t. eapply leads_mono; [by apply callFailed_finished|]. intros r tr' sn' H. by apply finished_post. }
    destruct (st_startedAt step); walk; unfold runCall; walk; apply Hcall.
  - walk; [|apply finished_post, commit_failed].
    set (deadline := (_ + maxDurationMs _)%Z). set (idle := (_ + idleTimeoutMs _)%Z). fold (started deadline idle step).
    set (step' := started deadline idle step).
    set (m := run_mutation _ _ _).
    change (with_steps _ sn) with (mark [step'] sn).
    assert (Hsame : same_open sn (mark [step'] sn)).
    { apply same_open_mark.
      - unfold isRunnableToolStep in *. apply andb_true_iff in Hopen as [Ht _]. change (isToolStep step') with (isToolStep step). by rewrite Ht.
      - apply elem_of_open_calls. by exists step. }
    assert (Hid : st_id step' ∈ open_calls (mark [step'] sn)) by (apply Hsame, elem_of_open_calls; by exists step).
    eapply leads_mono; [apply runCall_leads|].
    intros r tr1 sn1 (-> & mid & -> & H1 & H2).
    assert (Hpost : ∀ r tr', finished (mark [step'] sn) ((tr ++ [Committed m]) ++ mid) r tr' → run_post sn tr r tr').
    { intros r' tr' Hf. apply finished_executed_nil in Hf as (new & -> & Ho & Hx).
      exists (Committed m :: mid ++ new). rewrite <- !app_assoc. split_and!; [done| | |].
      - apply (outcome_same_open _ _ _ _ Hsame), (outcome_after _ (_ :: mid)); done.
      - intros before s after Heq. destruct H2 as [H2|[H2 (_ & Ha & Hq)]].
        { assert (omap executed (Committed m :: mid ++ new) = []) as Hn by (cbn; by rewrite omap_app, H2, Hx).
          rewrite Heq, omap_app in Hn. cbn in Hn. by destruct (omap executed before). }
        assert (Hs : omap executed (Committed m :: mid ++ new) = [step']) by (cbn; by rewrite omap_app, H2, Hx).
        destruct (omap_executed_single _ _ _ _ _ Hs Heq) as (-> & _ & _). split.
        + exists m. split; [|by left]. destruct before; simplify_eq/=. by left.
        + exists step, deadline, idle. split; [done|]. by apply decision_run.
      - right. cbn. rewrite omap_app, Hx, app_nil_r. destruct H2 as [->|[-> _]]; cbn; lia. }
    destruct r as [result|f]; walk.
    + eapply leads_mono; [by apply callCompleted_finished|]. intros. by apply Hpost.
    + eapply leads_mono; [by apply callFailed_finished|]. intros. by apply Hpost.
Qed.

Lemma executeStep_post tr sn step : step ∈ sn_steps sn → isRunnableToolStep step = true →
  leads tr sn (executeStep locale_le sha256 toLowerCase toUpperCase sandbox_cwd options env step) (λ r tr' _, run_post sn tr r tr').
Proof.
  intros Hin Hopen. assert (Hid : st_id step ∈ open_calls sn) by (apply elem_of_open_calls; by exists step).
  unfold executeStep. walk. destruct (decision _ _ _ _ _ _ _ _) eqn:Hd; [..|by apply executeCall_post];
    (eapply leads_mono; [|intros ??? H; exact (finished_post _ _ _ _ H)]).
  - by apply stopToolUse_finished.
  - apply holdCall_finished.
  - by apply refuseUnchangedRetry_finished.
  - by apply suppressRepeatedToolCall_finished.
  - apply askQuestion_finished.
  - apply recoverInterrupted_finished.
  - by apply notApproved_finished.
  - apply requestApproval_finished.
  - walk. exists [Released None]. split_and!; [done|by right|]. set_solver.
Qed.

(** ** Batches *)

(** What a batch has collected for the calls with these ids. *)
Definition collected (ids : list jstr) (b : Batch) : Prop :=
  Forall (λ x, closed (mu_step x) = true) (ba_mutations b)
  ∧ map told_user (ba_results b) = map told (ba_mutations b)
  ∧ map told_model (ba_entries b) = map told (ba_mutations b)
  ∧ step_ids (ba_mutations b) = ids.

Lemma collected_extend ids b x events entry result progress sandbox hard :
  collected ids b → closed (mu_step x) = true →
  told_user result = told x → told_model entry = told x →
  collected (ids ++ [st_id (mu_step x)]) (extend b x events entry result progress sandbox hard).
Proof.
  intros (H1 & H2 & H3 & <-) Hc Hr He. unfold collected, step_ids. cbn. rewrite !map_app, H2, H3. cbn. rewrite Hr, He.
  split_and!; [|done..]. apply Forall_app. by split; [|constructor].
Qed.

Lemma collected_suppressed ids sn b p : collected ids b → collected (ids ++ [st_id (sp_step p.1)]) (add_suppressed sn b p).
Proof.
  intros H. destruct p as [x id]. unfold add_suppressed. cbn [fst].
  match goal with |- collected (_ ++ [?i]) (extend _ ?y _ _ _ _ _ _) =>
    replace i with (st_id (mu_step y)) by (by destruct (sp_refusal x)) end.
  apply collected_extend; by destruct (sp_refusal x).
Qed.

Lemma collected_all_suppressed sn l ids b : collected ids b →
  collected (ids ++ map (λ p, st_id (sp_step p.1)) l) (fold_left (add_suppressed sn) l b).
Proof.
  revert ids b. induction l as [|p l IH]; intros ids b H; cbn; [by rewrite app_nil_r|].
  rewrite cons_middle, app_assoc. by apply IH, collected_suppressed.
Qed.

Lemma collected_result ids sn executable d step id a raw b : collected ids b →
  collected (ids ++ [st_id step]) (add_result locale_le sha256 toLowerCase options sn executable d step id a raw b).
Proof.
  intros H. unfold add_result. match goal with |- collected (_ ++ [?i]) (extend _ ?y _ _ _ _ _ _) => change i with (st_id (mu_step y)) end.
  by apply collected_extend.
Qed.

Lemma batch_failed_step_spec step f message : let s := batch_failed_step toLowerCase toUpperCase env step f message in
  st_id s = st_id step ∧ closed s = true ∧ toolCallIdForStep s = toolCallIdForStep step ∧ is_state Completed s = false.
Proof. unfold batch_failed_step. by destruct f. Qed.

Lemma collected_failure ids sn d step id a f b : collected ids b →
  collected (ids ++ [st_id step]) (add_failure toLowerCase toUpperCase env sn d step id a f b).
Proof.
  intros H. unfold add_failure. match goal with |- context [batch_failed_step _ _ _ _ _ ?m] => pose proof (batch_failed_step_spec step f m) as (H1 & H2 & H3 & H4) end.
  rewrite <- H1. apply collected_extend; [done|done|..]; unfold told_user, told_model, told;
    cbn [result_message result_entry recorded assessed mu_step tm_toolCallId tm_status en_toolCallId en_isError]; by rewrite H3, H4.
Qed.

Lemma add_outcomes_leads tr sn before snapshot executable t l ids b : collected ids b →
  leads tr sn (add_outcomes locale_le sha256 toLowerCase toUpperCase options env before snapshot executable t l b)
    (λ r tr' sn', sn' = sn ∧ tr' = tr ∧ match r with Ok b' => collected (ids ++ map (λ x, st_id x.1.1) l) b' | Err _ => False end).
Proof.
  revert ids b. induction l as [|[[step id] o] l IH]; intros ids b H; cbn [add_outcomes]; walk.
  - by rewrite app_nil_r.
  - cbn [map fst]. rewrite cons_middle, app_assoc. apply IH. destruct o; [by apply collected_result|by apply collected_failure].
Qed.

Lemma split_batch_spec sn seen steps run suppressed :
  split_batch locale_le sha256 toLowerCase sandbox_cwd options sn seen steps = (run, suppressed) →
  steps ≡ₚ map sp_step suppressed ++ run
  ∧ ∀ s, s ∈ run → (st_state s = Pending → unchangedFailedRetry locale_le sha256 sandbox_cwd sn s = None)
      ∧ (op_enforceRepeatGuard options = true → ra_decision (assessRepeatedToolCall locale_le sha256 toLowerCase sn s) ≠ Suppress).
Proof.
  revert seen run suppressed. induction steps as [|step steps IH]; intros seen run suppressed; cbn [split_batch].
  { intros [= <- <-]. split; [done|intros s H; by apply not_elem_of_nil in H]. }
  destruct (if is_state Pending step then _ else None) eqn:Er; [|destruct (op_enforceRepeatGuard options && _) eqn:Es];
    (destruct (split_batch _ _ _ _ _ _ _ steps) as [run' suppressed'] eqn:E; intros [= <- <-]; apply IH in E as [E1 E2]; cbn [map sp_step];
     split; [first [by rewrite E1|rewrite E1; apply Permutation_middle]|try done]).
  intros s [->|Hs]%elem_of_cons; [|by apply E2]. split.
  - intros Hp. by rewrite (bool_decide_eq_true_2 _ Hp : is_state Pending step = true) in Er.
  - intros He. rewrite He in Es. apply orb_false_iff in Es as [Es _]. by apply bool_decide_eq_false in Es.
Qed.

Lemma leads_marks tr sn (f : DurableTurnStep → DurableTurnStep) l Q :
  Q (Ok tt) tr (mark (map f l) sn) → leads tr sn (foldr (λ step rest, do! update_step (f step) in rest) (mret tt) l) Q.
Proof.
  revert sn. induction l as [|x l IH]; intros sn H; cbn [foldr]; walk; [done|]. by apply IH.
Qed.

Lemma same_open_marks sn l :
  (∀ x, x ∈ l → isRunnableToolStep x = true ∧ st_id x ∈ open_calls sn) → same_open sn (mark l sn).
Proof.
  revert sn. induction l as [|x l IH]; intros sn H; [by split|]. change (mark (x :: l) sn) with (mark l (mark [x] sn)).
  destruct (H x) as [Hx Hid]; [by left|]. pose proof (same_open_mark sn x Hx Hid) as H1.
  assert (H2 : same_open (mark [x] sn) (mark l (mark [x] sn))).
  { apply IH. intros y Hy. destruct (H y) as [Hy1 Hy2]; [by right|]. split; [done|]. by apply H1. }
  destruct H1 as [H1 E1], H2 as [H2 E2]. split; [intros id; by rewrite (H1 id), (H2 id)|congruence].
Qed.

(** The calls of a batch that its tools run. *)
Definition to_run (l : list DurableTurnStep) : list DurableTurnStep :=
  List.filter (λ s, match stored_argument_error s with Some _ => false | None => true end) l.

Lemma leads_executed tr sn l Q :
  Q (Ok tt) (tr ++ map Executed (to_run l)) sn →
  leads tr sn (foldr (λ step rest, match stored_argument_error step with Some _ => rest | None => do! emit (Executed step) in rest end) (mret tt) l) Q.
Proof.
  revert tr. induction l as [|x l IH]; intros tr H; cbn [foldr to_run List.filter map] in *; [walk; by rewrite app_nil_r in H|].
  destruct (stored_argument_error x); [by apply IH|]. walk. apply IH. by rewrite <- app_assoc.
Qed.

Lemma executed_to_run l : omap final (map Executed l) = [] ∧ omap executed (map Executed l) = l.
Proof. induction l as [|x l [IH1 IH2]]; [done|]. cbn. by rewrite IH1, IH2. Qed.

Lemma finishBatch_finished tr sn ids b : collected ids b → once sn ids → (∀ id, id ∈ open_calls sn → id ∈ ids) →
  leads tr sn (finishBatch options env b) (λ r tr' _, finished sn tr r tr').
Proof.
  intros (H1 & H2 & H3 & <-) Honce Hall. unfold finishBatch, scheduledSandboxSnapshot.
  destruct (ba_sandbox b); walk; (apply commitAndWake_leads; intros outbox; split; [walk|intros e; apply commit_failed]);
    (eapply commit_final; [..|done]; [done|]; split_and!; [done..|]; eexists (ba_mutations b), _; by split_and!).
Qed.

Lemma parallel_may_run sn step : step ∈ sn_steps sn → isParallelReadOnlyToolStep step = true → stored_argument_error step = None →
  (pr_cumulativeToolMs (progressState sn) < cumulativeToolBudget options)%Z →
  (st_state step = Pending → unchangedFailedRetry locale_le sha256 sandbox_cwd sn step = None) →
  (op_enforceRepeatGuard options = true →
     ra_decision (assessRepeatedToolCall locale_le sha256 toLowerCase sn step) ∈ [Allow; AllowWithWarning]) →
  may_run sn step.
Proof.
  intros Hin Hp Ha Hb Hu Hd. unfold isParallelReadOnlyToolStep in Hp. destruct (bool_decide (toolNameForStep step ∈ _) && _); [done|].
  apply andb_true_iff in Hp as [[[Hopen Hro]%andb_true_iff Happ]%andb_true_iff Hname].
  apply bool_decide_eq_true in Hro, Hname. apply negb_true_iff, bool_decide_eq_false in Happ.
  assert (Hn : toolNameForStep step ≠ js "ask_user_question") by (intros E; rewrite E in Hname; by vm_compute in Hname; set_solver).
  assert (Hq : questionProblem step = None) by (unfold questionProblem; by rewrite bool_decide_eq_false_2).
  assert (Hm : manual step = false) by (apply bool_decide_eq_false; congruence).
  split; try done.
  - split; [|done]. unfold argumentError. by rewrite Hq.
  - by rewrite Hm.
  - unfold holdsForReview. by rewrite Hm.
Qed.

Lemma batch_stop_none sn steps : batch_stop locale_le sha256 toLowerCase sandbox_cwd options sn steps = None → steps ≠ [] →
  (pr_cumulativeToolMs (progressState sn) < cumulativeToolBudget options)%Z
  ∧ (op_enforceRepeatGuard options = true →
     ∀ s, s ∈ steps → ra_decision (assessRepeatedToolCall locale_le sha256 toLowerCase sn s) ≠ Terminate).
Proof.
  unfold batch_stop. intros H Hne.
  destruct (Z.leb_spec (cumulativeToolBudget options) (pr_cumulativeToolMs (progressState sn))); [by destruct steps|]. split; [done|].
  intros He s Hs. destruct (first_some _ steps); [done|]. rewrite He in H. destruct (find_first _ steps) eqn:Ef; [done|].
  specialize (proj1 (find_first_None _ _) Ef s Hs) as E. by apply bool_decide_eq_false in E.
Qed.

Lemma batch_stop_elem sn steps step guard :
  batch_stop locale_le sha256 toLowerCase sandbox_cwd options sn steps = Some (step, guard) → step ∈ steps.
Proof.
  unfold batch_stop. destruct (_ <=? _)%Z; [destruct steps; [done|intros [= <- <-]; by left]|].
  destruct (first_some _ steps) as [x|] eqn:E.
  - intros [= ->]. apply first_some_Some in E as (s & Hs & E). destruct (repeatedToolFailure _ _ _ _ _); [|done]. by injection E as <- _.
  - destruct (op_enforceRepeatGuard options); [|done]. destruct (find_first _ steps) as [s|] eqn:Ef; [|done]. intros [= -> _].
    by apply find_first_Some in Ef as [Ef _].
Qed.

Lemma batch_outcomes_length steps ended outcomes : batch_outcomes steps ended = Ok outcomes → length outcomes = length steps.
Proof. unfold batch_outcomes. destruct ended; repeat case_match; intros [= <-]; by rewrite length_imap. Qed.

Lemma zip_ids (l : list (DurableTurnStep * jstr)) (o : list (result Failure TurnToolResult)) : length o = length l →
  map (λ x, st_id x.1.1) (zip l o) = map st_id l.*1.
Proof.
  intros H. rewrite <- (map_map (λ x : (DurableTurnStep * jstr) * result Failure TurnToolResult, x.1) (λ x, st_id x.1)).
  change (map (λ x, x.1) (zip l o)) with (zip l o).*1. rewrite fst_zip by lia. symmetry. apply map_map.
Qed.

Lemma parallel_post tr sn steps :
  steps ≠ [] → forallb isParallelReadOnlyToolStep steps = true →
  steps ≡ₚ List.filter isRunnableToolStep (sn_steps sn) →
  leads tr sn (executeParallelReadOnlyTools locale_le sha256 toLowerCase toUpperCase sandbox_cwd options env steps)
    (λ r tr' _, run_post sn tr r tr').
Proof.
  intros Hne Hpar Hperm.
  assert (Hsteps : ∀ s, s ∈ steps ↔ s ∈ sn_steps sn ∧ isRunnableToolStep s = true) by (intros s; by rewrite Hperm, elem_of_filter_bool).
  unfold executeParallelReadOnlyTools. walk.
  destruct (batch_stop _ _ _ _ _ _ _) as [[step guard]|] eqn:Hstop.
  { apply batch_stop_elem in Hstop. eapply leads_mono; [apply stopToolUse_finished|intros; by apply finished_post].
    apply elem_of_open_calls. exists step. by apply Hsteps in Hstop as []. }
  destruct (batch_stop_none _ _ Hstop Hne) as [Hbudget Hterm].
  destruct (split_batch _ _ _ _ _ _ _ _) as [run suppressed] eqn:Hsplit. apply split_batch_spec in Hsplit as [Hall Hrun].
  assert (Hcover : ∀ s, s ∈ steps ↔ s ∈ run ∨ s ∈ map sp_step suppressed) by (intros s; rewrite Hall, elem_of_app; tauto).
  walk; [|apply finished_post, commit_failed].
  set (deadline := (t + maxDurationMs _)%Z). set (idle := (t + idleTimeoutMs _)%Z).
  match goal with |- leads (tr ++ [Committed ?m]) _ _ _ => set (m0 := m) end.
  apply (leads_marks _ _ (started deadline idle)). walk.
  change (map (λ step, set_deadlines deadline idle (set_state Running step)) run) with (map (started deadline idle) run).
  set (running := map (started deadline idle) run). set (sn1 := mark running sn).
  assert (Hparallel : ∀ s, s ∈ run → isParallelReadOnlyToolStep s = true ∧ s ∈ sn_steps sn ∧ isRunnableToolStep s = true).
  { intros s Hs. assert (s ∈ steps) by (apply Hcover; by left). split; [|by apply Hsteps].
    rewrite forallb_forall in Hpar. by apply Hpar, list_elem_of_In. }
  assert (Hsame : same_open sn sn1).
  { apply same_open_marks. intros x (s & -> & Hs)%list_elem_of_fmap. destruct (Hparallel s Hs) as (_ & Hin & Hr). split.
    - unfold isRunnableToolStep in *. apply andb_true_iff in Hr as [Ht _]. change (isToolStep (started deadline idle s)) with (isToolStep s). by rewrite Ht.
    - apply elem_of_open_calls. by exists s. }
  assert (Hids : map (λ x, st_id (sp_step x)) suppressed ++ map st_id running ≡ₚ open_calls sn).
  { unfold open_calls. rewrite <- Hperm, Hall, map_app, map_map. unfold running. by rewrite map_map. }
  assert (Honce : once sn1 (map (λ x, st_id (sp_step x)) suppressed ++ map st_id running)).
  { split; [intros id; rewrite Hids; by apply Hsame|]. intros Hnd. rewrite (proj2 Hsame) in Hnd. rewrite Hids. by apply NoDup_map_filter. }
  assert (Hpost : ∀ new r tr', tr' = (((tr ++ [Committed m0]) ++ map Executed (to_run running)) ++ new) →
    outcome sn1 new r → omap executed new = [] → run_post sn tr r tr').
  { intros new r tr' -> Ho Hx. exists (Committed m0 :: map Executed (to_run running) ++ new). rewrite <- !app_assoc.
    destruct (executed_to_run (to_run running)) as [E1 E2].
    assert (Hex : omap executed (Committed m0 :: map Executed (to_run running) ++ new) = to_run running).
    { cbn. by rewrite omap_app, E2, Hx, app_nil_r. }
    assert (Hran : ∀ s, s ∈ to_run running → ∃ step, s = started deadline idle step ∧ step ∈ run ∧ may_run sn step).
    { intros s [(step & -> & Hs)%list_elem_of_fmap Ha]%elem_of_filter_bool. exists step. split_and!; [done..|].
      destruct (Hparallel step Hs) as (Hp & Hin & _). destruct (Hrun step Hs) as [Hu Hd]. apply parallel_may_run; try done.
      - change (stored_argument_error (started deadline idle step)) with (stored_argument_error step) in Ha. by destruct (stored_argument_error step).
      - intros He. specialize (Hd He). assert (step ∈ steps) as Hst by (apply Hcover; by left). specialize (Hterm He step Hst).
        destruct (ra_decision _); set_solver. }
    split_and!; [done| | |].
    - by apply (outcome_same_open _ _ _ _ Hsame), (outcome_after _ (_ :: map Executed (to_run running))).
    - intros before s after Heq.
      assert (Hs : s ∈ to_run running).
      { rewrite <- Hex. apply list_elem_of_omap. exists (Executed s). split; [|done]. rewrite Heq. set_solver. }
      destruct (Hran s Hs) as (step & -> & Hstep & Hmay). split; [|by exists step, deadline, idle].
      exists m0. split; [destruct before; simplify_eq/=; by left|]. apply (list_elem_of_fmap_2 (λ x, starting (started deadline idle x))). done.
    - left. rewrite Hex. apply Forall_forall. intros s (step & -> & Hstep & _)%Hran. destruct (Hparallel step Hstep) as (Hp & _).
      unfold isParallelReadOnlyToolStep in Hp. destruct (bool_decide (toolNameForStep step ∈ _) && _); [done|].
      by apply andb_true_iff in Hp as [[[_ Hro]%andb_true_iff _]%andb_true_iff _]. }
  assert (Herr : ∀ f, run_post sn tr (Err f) ((tr ++ [Committed m0]) ++ map Executed (to_run running))).
  { intros f. apply (Hpost []); [by rewrite app_nil_r|done..]. }
  apply leads_executed. walk. destruct (batch_outcomes _ _) as [outcomes|f] eqn:Eo; walk; [|apply Herr].
  destruct (first_cancellation outcomes); [walk; apply Herr|]. walk.
  apply batch_outcomes_length in Eo.
  eapply leads_mono.
  { apply add_outcomes_leads, (collected_all_suppressed _ _ []). by split_and!. }
  intros [b|f] tr1 sn2 (-> & -> & Hb); [|done].
  assert (Hlen : length outcomes = length l') by (by rewrite Eo, <- (H : l'.*1 = running), length_fmap).
  rewrite zip_ids, (H : l'.*1 = running), app_nil_l, <- (map_map fst (λ x, st_id (sp_step x))), (H0 : map fst l'0 = _) in Hb by done.
  eapply leads_mono; [eapply finishBatch_finished; [exact Hb|exact Honce|]|].
  - intros id Hid%Hsame. by rewrite Hids.
  - intros r tr' sn' (new & -> & Ho & Hx)%finished_executed_nil. by eapply Hpost.
Qed.

Lemma executeTool_post tr sn :
  leads tr sn (executeTool locale_le sha256 toLowerCase toUpperCase sandbox_cwd options env) (λ r tr' _, run_post sn tr r tr').
Proof.
  unfold executeTool. walk. set (runnable := sort_by ascending (List.filter isRunnableToolStep (sn_steps sn))).
  assert (Hr : ∀ s, s ∈ runnable ↔ s ∈ sn_steps sn ∧ isRunnableToolStep s = true).
  { intros s. unfold runnable. by rewrite elem_of_sort_by, elem_of_filter_bool. }
  destruct ((1 <? length runnable)%nat && forallb isParallelReadOnlyToolStep runnable) eqn:E.
  - apply andb_true_iff in E as [E1 E2]. apply parallel_post; [by intros ->|done|apply sort_by_perm].
  - clear E. destruct runnable as [|step rest].
    + eapply leads_mono; [apply continueModel_finished|intros; by apply finished_post].
      apply elem_of_nil_inv. intros id (s & Hs & Ho & _)%elem_of_open_calls. by apply (not_elem_of_nil s), Hr.
    + destruct (proj1 (Hr step)) as [Hin Ho]; [by left|]. by apply executeStep_post.
Qed.

(** C15: A run of [executeTool] that returns has ended in one commit, and returns
    the state that commit leaves the turn in - or it found that the approval of its
    call is still awaited, committed nothing, released the turn and waits; a run that
    throws has committed nothing but the mark that a call runs. The commit expects the turn to execute
    tools. When it calls the model, it ends every call that was left to run, and
    those only, none of them twice, each with exactly one result for the user and
    one for the model, in the order of its steps, which say completed exactly for
    the calls that it stores as completed; the next call of the model is the last
    of its steps. When it leaves the turn executing tools, it ends exactly one call
    that was left to run, likewise with its results, and another one is left. When
    it hands the turn to recovery, it names the one call to be reviewed. *)
Theorem executeTool_commits w :
  let '(r, w') := executeTool locale_le sha256 toLowerCase toUpperCase sandbox_cwd options env w in
  ∃ new, w_trace w' = w_trace w ++ new ∧ outcome (w_snapshot w) new r.
Proof.
  pose proof (executeTool_post _ _ w eq_refl eq_refl) as H. destruct (executeTool _ _ _ _ _ _ _ w) as [r w'].
  destruct H as (new & -> & Ho & _). by exists new.
Qed.

(** C16: No call of a tool runs past the guards. Whenever a run of [executeTool] calls
    a tool, the mark that the call runs, with its attempt counted, was committed
    before; the call was left to run, is no question to the user, and its arguments can run; if it cannot be
    repeated it had not begun; if it needs approval it was approved; if it changes
    something outside the sandbox, no earlier call of its tool may have taken
    effect without a decision since; if it is the same as its latest failed call,
    something has changed that could make it succeed; the guard against repeats
    does not suppress it; and the task has tool time left. Only reads run side by
    side: a run that calls a tool that does not only read calls that tool alone. *)
Theorem call_runs_cleared w :
  let '(_, w') := executeTool locale_le sha256 toLowerCase toUpperCase sandbox_cwd options env w in
  ∃ new, w_trace w' = w_trace w ++ new
    ∧ (∀ before s after, new = before ++ Executed s :: after →
         marked before s ∧ ∃ step deadline idle, s = started deadline idle step ∧ may_run (w_snapshot w) step)
    ∧ (Forall (λ s, read_only s = true) (omap executed new) ∨ (length (omap executed new) <= 1)%nat).
Proof.
  pose proof (executeTool_post _ _ w eq_refl eq_refl) as H. destruct (executeTool _ _ _ _ _ _ _ w) as [r w'].
  destruct H as (new & -> & _ & Hx). by exists new.
Qed.

End operations.
