(* ===== verification/TurnTraces.v ===== *)
(** * What a claimed turn tries to commit

    A run that executes the tools of a snapshot, seen from outside: which commits it
    tries, what they do to the calls of the snapshot, and which calls it runs. *)

From S2P Require Import Prelude JsMap JsString Json ProviderErrors ToolFailures Prompts TurnSteps TurnCalls TurnRunner TurnRunnerFacts.
From Stdlib Require Import Lia.

Set Default Goal Selector "!".

(** ** The same call *)

(** What no commit changes of a call: all but its state, its outcome, and the calls
    it is held for. *)
Record same_call (s s' : DurableTurnStep) : Prop := {
  same_id : st_id s' = st_id s;
  same_sequence : st_sequence s' = st_sequence s;
  same_type : st_type s' = st_type s;
  same_class : st_retryClass s' = st_retryClass s;
  same_idempotency : st_idempotencyKey s' = st_idempotencyKey s;
  same_input : ∀ k, js k ≠ js "heldBy" → input k s' = input k s;
}.

#[export] Instance same_call_equivalence : Equivalence same_call.
Proof.
  split.
  - intros s. by split.
  - intros s s' H. split; intros; symmetry; by apply H.
  - intros s1 s2 s3 H1 H2. split; intros; (etrans; [by apply H2|by apply H1]).
Qed.

(** The call can run: its arguments are fine, and it is no question to the user. *)
Definition can_run (s : DurableTurnStep) : bool :=
  match argumentError s, questionProblem s with None, None => true | _, _ => false end
  && negb (bool_decide (toolNameForStep s = js "ask_user_question")).
(** It can run, and is not repeated by itself. *)
Definition once (s : DurableTurnStep) : bool := manual s && can_run s.

Section same.
Context (s s' : DurableTurnStep) (Hsame : same_call s s').

Lemma same_name : toolNameForStep s' = toolNameForStep s.
Proof. unfold toolNameForStep. rewrite (same_input _ _ Hsame) by done. by rewrite (same_type _ _ Hsame). Qed.
Lemma same_tool : isToolStep s' = isToolStep s.
Proof. unfold isToolStep. by rewrite (same_type _ _ Hsame). Qed.
Lemma same_manual : manual s' = manual s.
Proof. unfold manual. by rewrite (same_class _ _ Hsame). Qed.
Lemma same_arguments : arguments s' = arguments s.
Proof. apply (same_input _ _ Hsame). done. Qed.
Lemma same_question : questionProblem s' = questionProblem s.
Proof. unfold questionProblem. by rewrite same_name, same_arguments. Qed.
Lemma same_argumentError : argumentError s' = argumentError s.
Proof. unfold argumentError. rewrite same_question, (same_input _ _ Hsame); done. Qed.
Lemma same_can_run : can_run s' = can_run s.
Proof. unfold can_run. by rewrite same_argumentError, same_question, same_name. Qed.
Lemma same_once : once s' = once s.
Proof. unfold once. by rewrite same_manual, same_can_run. Qed.
End same.

(** ** Commits that are tried *)

Definition settled (state : StepState) : bool := negb (bool_decide (state ∈ [Pending; Running; Waiting])).

(** What a commit may make of a call: it ends it, or it lets one run or wait that was
    left to run. *)
Definition step_change (mark : bool) (s x : DurableTurnStep) : Prop :=
  same_call s x ∧
  match st_state x with
  | Pending => False
  | Running => mark = true ∧ (once s = true → st_state s = Pending)
  | Waiting => mark = false ∧ (once s = true → st_state s = Pending)
  | _ => mark = false
  end.

Definition attempt (e : Effect) : option DurableTurnMutation := match e with Committed m | CommitFailed m => Some m | _ => None end.

(** Who is asked: nobody, or one person about one call, for which the turn waits. *)
Definition asks (m : DurableTurnMutation) : Prop :=
  match m_approval m, m_question m with
  | None, None => True
  | Some a, None => m_nextState m = WaitingRun
                    ∧ ∃ x, m_steps m = [x] ∧ isToolStep (mu_step x) = true ∧ st_id (mu_step x) = am_stepId a ∧ st_state (mu_step x) = Waiting
  | None, Some _ => m_nextState m = WaitingRun
  | Some _, Some _ => False
  end.

Record proper (sn : DurableTurnSnapshot) (m : DurableTurnMutation) : Prop := {
  proper_steps : ∀ x, x ∈ m_steps m → isToolStep (mu_step x) = true → ∃ s, s ∈ sn_steps sn ∧ step_change (m_keepLease m) s (mu_step x);
  proper_asks : asks m;
  proper_keeps : m_keepLease m = true → m_nextState m = ExecutingTool;
}.

(** A commit that only ends calls, and asks nobody. *)
Record calm (sn : DurableTurnSnapshot) (m : DurableTurnMutation) : Prop := {
  calm_lease : m_keepLease m = false;
  calm_approval : m_approval m = None;
  calm_question : m_question m = None;
  calm_steps : ∀ x, x ∈ m_steps m → isToolStep (mu_step x) = true →
    settled (st_state (mu_step x)) = true ∧ ∃ s, s ∈ sn_steps sn ∧ same_call s (mu_step x);
}.

Lemma calm_proper sn m : calm sn m → proper sn m.
Proof.
  intros [Hk Ha Hq H]. split; [|unfold asks; by rewrite Ha, Hq|by rewrite Hk]. intros x Hx Ht. destruct (H x Hx Ht) as (Hs & s & Hin & Hsame).
  exists s. split; [done|]. split; [done|]. rewrite Hk. by destruct (st_state (mu_step x)).
Qed.

(** Only the first commit of a run may let a call run or wait. *)
Definition lead_calm (sn : DurableTurnSnapshot) (l : list DurableTurnMutation) : Prop :=
  match l with [] => True | m :: l => proper sn m ∧ Forall (calm sn) l end.

Lemma calm_lead sn l : Forall (calm sn) l → lead_calm sn l.
Proof. destruct 1; [done|]. by split; [apply calm_proper|]. Qed.
Lemma lead_calm_proper sn l : lead_calm sn l → Forall (proper sn) l.
Proof. destruct l; [by constructor|]. intros [H1 H2]. constructor; [done|]. eapply Forall_impl; [exact H2|apply calm_proper]. Qed.
Lemma lead_calm_app sn l l' : lead_calm sn l → Forall (calm sn) l' → lead_calm sn (l ++ l').
Proof. destruct l as [|m l]; [intros _; apply calm_lead|]. intros [H1 H2] H3. split; [done|]. by apply Forall_app. Qed.

(** The calls of the current snapshot are those of the claimed one. *)
Definition descends (sn0 sn : DurableTurnSnapshot) : Prop :=
  ∀ s, s ∈ sn_steps sn → ∃ s0, s0 ∈ sn_steps sn0 ∧ same_call s0 s.

Lemma descends_refl sn : descends sn sn.
Proof. intros s Hs. by exists s. Qed.

Lemma descends_update sn0 sn step s0 :
  descends sn0 sn → s0 ∈ sn_steps sn0 → same_call s0 step →
  descends sn0 (with_steps (map (λ s, if bool_decide (st_id s = st_id step) then step else s) (sn_steps sn)) sn).
Proof.
  intros H Hs0 Hsame s (s1 & -> & Hs1)%list_elem_of_fmap. case_bool_decide; [by exists s0|]. by apply H.
Qed.

Section claimed.
Context (locale_le : jstr → jstr → bool) (sha256 toLowerCase toUpperCase : jstr → jstr) (sandbox_cwd : option jstr).
Context (options : Options) (env : Environment).
Context (sn0 : DurableTurnSnapshot).

(** The step is a call of the claimed snapshot. *)
Definition known (step : DurableTurnStep) : Prop := ∃ s, s ∈ sn_steps sn0 ∧ same_call s step.

Definition calmly {A} (tr : list Effect) (_ : result Failure A) (tr' : list Effect) (sn' : DurableTurnSnapshot) : Prop :=
  descends sn0 sn' ∧ ∃ new, tr' = tr ++ new ∧ Forall (calm sn0) (omap attempt new).

Lemma calmly_refl {A} tr (r : result Failure A) sn : descends sn0 sn → calmly tr r tr sn.
Proof. intros H. split; [done|]. exists []. by rewrite app_nil_r. Qed.

Lemma calmly_emit {A} tr (r : result Failure A) sn e : descends sn0 sn → (∀ m, attempt e = Some m → calm sn0 m) → calmly tr r (tr ++ [e]) sn.
Proof.
  intros H He. split; [done|]. exists [e]. split; [done|]. cbn. destruct (attempt e) as [m|]; [|by constructor].
  by constructor; [apply He|constructor].
Qed.

Lemma calmly_trans {A B} tr (r : result Failure A) tr1 sn1 (r' : result Failure B) tr2 sn2 :
  calmly tr r tr1 sn1 → calmly tr1 r' tr2 sn2 → calmly tr r' tr2 sn2.
Proof.
  intros (_ & new1 & -> & H1) (H & new2 & -> & H2). split; [done|]. exists (new1 ++ new2). rewrite app_assoc. split; [done|].
  rewrite omap_app. by apply Forall_app.
Qed.

Definition stays {A} (sn : DurableTurnSnapshot) (m : M World Failure A) : Prop := ∀ tr, leads tr sn m (calmly tr).

Lemma stay_bind {A B} sn (m : M World Failure A) (f : A → M World Failure B) :
  stays sn m → (∀ a sn', descends sn0 sn' → stays sn' (f a)) → stays sn (m ≫= f).
Proof.
  intros Hm Hf tr. apply leads_bind. eapply leads_mono; [apply Hm|]. intros [a|e] tr' sn' H; [|done].
  pose proof H as [Hd _]. eapply leads_mono; [by apply Hf|]. intros r tr2 sn2 H'. by eapply calmly_trans.
Qed.

Lemma stay_ret {A} sn (a : A) : descends sn0 sn → stays sn (mret a).
Proof. intros H tr. walk. by apply calmly_refl. Qed.
Lemma stay_throw {A} sn f : descends sn0 sn → stays sn (throw f : M World Failure A).
Proof. intros H tr. walk. by apply calmly_refl. Qed.
Lemma stay_lift {A} sn (r : result Failure A) : descends sn0 sn → stays sn (lift r).
Proof. intros H tr. walk. by apply calmly_refl. Qed.
Lemma stay_emit sn e : descends sn0 sn → attempt e = None → stays sn (emit e).
Proof. intros H He tr. walk. apply calmly_emit; [done|]. by rewrite He. Qed.
Lemma stay_now sn : descends sn0 sn → stays sn (now env).
Proof. intros H tr. walk. by apply calmly_refl. Qed.
Lemma stay_uuid sn : descends sn0 sn → stays sn (randomUUID env).
Proof. intros H tr. walk. by apply calmly_refl. Qed.
Lemma stay_quiet {A} sn (m : M World Failure A) : descends sn0 sn → (∀ tr sn, leads tr sn m (λ _ tr' sn', tr' = tr ∧ sn' = sn)) → stays sn m.
Proof. intros H Hm tr. eapply leads_mono; [apply Hm|]. intros r tr' sn' [-> ->]. by apply calmly_refl. Qed.
Lemma stay_catch {A} sn (m : M World Failure A) h :
  stays sn m → (∀ f sn', descends sn0 sn' → stays sn' (h f)) → stays sn (catch m h).
Proof.
  intros Hm Hh tr. apply leads_catch. eapply leads_mono; [apply Hm|]. intros [a|f] tr' sn' H; [done|].
  pose proof H as [Hd _]. eapply leads_mono; [by apply Hh|]. intros r tr2 sn2 H'. by eapply calmly_trans.
Qed.

(** With the snapshot, and with fresh ids for a list. *)
Lemma stay_snapshot {A} sn (f : DurableTurnSnapshot → M World Failure A) : stays sn (f sn) → stays sn (gets w_snapshot ≫= f).
Proof. intros H tr. walk. apply H. Qed.
Lemma stay_trace {A} sn (f : list Effect → M World Failure A) : (∀ t, stays sn (f t)) → stays sn (gets w_trace ≫= f).
Proof. intros H tr. walk. apply H. Qed.
Lemma stay_uuids {A B} sn (l : list A) (f : list (A * jstr) → M World Failure B) :
  (∀ l', l'.*1 = l → stays sn (f l')) → stays sn (randomUUIDs env l ≫= f).
Proof. intros H tr. walk. by apply H. Qed.

Lemma stay_uuid_bind {A} sn (f : jstr → M World Failure A) : (∀ id, stays sn (f id)) → stays sn (randomUUID env ≫= f).
Proof. intros H tr. walk. apply H. Qed.
Lemma stay_now_bind {A} sn (f : Z → M World Failure A) : (∀ t, stays sn (f t)) → stays sn (now env ≫= f).
Proof. intros H tr. walk. apply H. Qed.

(** A mutation of a step that is no call, or ends a known one. *)
Definition ends (x : DurableStepMutation) : Prop :=
  isToolStep (mu_step x) = true → settled (st_state (mu_step x)) = true ∧ known (mu_step x).

Lemma ends_model_call sn id wrapUp : ends (model_call sn id wrapUp).
Proof. by intros H. Qed.
Lemma ends_call step x : known step → same_call step (mu_step x) → settled (st_state (mu_step x)) = true → ends x.
Proof. intros (s & Hs & Hsame) Hx Hst _. split; [done|]. exists s. split; [done|]. by etrans. Qed.

Lemma calm_ends m : m_keepLease m = false → m_approval m = None → m_question m = None → Forall ends (m_steps m) → calm sn0 m.
Proof. intros Hk Ha Hq H. split; [done..|]. intros x Hx Ht. rewrite Forall_forall in H. by destruct (H x Hx Ht). Qed.

Lemma stay_commit sn m : descends sn0 sn → m_keepLease m = false → m_approval m = None → m_question m = None →
  Forall ends (m_steps m) → stays sn (commit env m).
Proof. intros Hd Hk Ha Hq H tr. apply leads_commit; [|intros f]; apply calmly_emit; try done; intros m' [= <-]; by apply calm_ends. Qed.
Lemma stay_commitAndWake sn sn1 m : descends sn0 sn → m_keepLease m = false → m_approval m = None → m_question m = None →
  Forall ends (m_steps m) → stays sn (commitAndWake env sn1 m).
Proof. intros Hd Hk Ha Hq H. unfold commitAndWake. case_bool_decide; by apply stay_commit. Qed.

Lemma known_in sn s : descends sn0 sn → s ∈ sn_steps sn → known s.
Proof. intros H Hs. destruct (H s Hs) as (s0 & ? & ?). by exists s0. Qed.

Lemma stay_model_call_unless {B} sn remaining (f : list DurableStepMutation → M World Failure B) :
  descends sn0 sn → (∀ calls, Forall ends calls → stays sn (f calls)) → stays sn (model_call_unless env remaining sn ≫= f).
Proof.
  intros Hd H tr. unfold model_call_unless. destruct remaining; walk; apply H; [by constructor|].
  apply Forall_singleton, ends_model_call.
Qed.

End claimed.

#[export] Hint Resolve stay_ret stay_throw stay_lift stay_now stay_uuid : stays.

(** Follows a computation that stays calm. *)
Ltac stay :=
  repeat match goal with
    | |- stays _ _ (gets w_snapshot ≫= _) => apply stay_snapshot
    | |- stays _ _ (gets w_trace ≫= _) => apply stay_trace; intros ?
    | |- stays _ _ (randomUUIDs _ _ ≫= _) => apply stay_uuids; intros ? ?
    | |- stays _ _ (randomUUID _ ≫= _) => apply stay_uuid_bind; intros ?
    | |- stays _ _ (now _ ≫= _) => apply stay_now_bind; intros ?
    | |- stays _ _ (model_call_unless _ _ _ ≫= _) => apply stay_model_call_unless; [done|intros ? ?]
    | |- stays _ _ (_ ≫= _) => apply stay_bind; [|intros ? ? ?]
    | |- stays _ _ (mret _) => by apply stay_ret
    | |- stays _ _ (throw _) => by apply stay_throw
    | |- stays _ _ (lift _) => by apply stay_lift
    | |- stays _ _ (now _) => by apply stay_now
    | |- stays _ _ (randomUUID _) => by apply stay_uuid
    | |- stays _ _ (emit _) => by apply stay_emit
    | |- stays _ _ (commitAndWake _ _ _) => apply stay_commitAndWake; [done..|]
    | |- stays _ _ (commit _ _) => apply stay_commit; [done..|]
    | _ => progress cbn beta iota zeta
    end.

Section operations.
Context (locale_le : jstr → jstr → bool) (sha256 toLowerCase toUpperCase : jstr → jstr) (sandbox_cwd : option jstr).
Context (options : Options) (env : Environment).
Context (sn0 sn : DurableTurnSnapshot) (Hd : descends sn0 sn).

Lemma not_run_stays step x error message summary a b : ends sn0 x → stays sn0 sn (not_run env step x error message summary a b).
Proof. intros Hx. unfold not_run. stay. by constructor. Qed.

Lemma notApproved_stays step status : known sn0 step → stays sn0 sn (notApproved env step status).
Proof. intros Hk. unfold notApproved. stay. constructor; [|done]. by eapply ends_call; [exact Hk|split|]. Qed.

Lemma known_runnable c (p : DurableTurnStep → bool) : c ∈ sort_by ascending (List.filter p (sn_steps sn)) → known sn0 c.
Proof. rewrite elem_of_sort_by, elem_of_filter_bool. intros [Hc _]. by eapply known_in. Qed.

Lemma stopToolUse_stays step guard : known sn0 step → stays sn0 sn (stopToolUse env step guard).
Proof.
  intros Hk. unfold stopToolUse. stay. apply Forall_app. split; [|by apply Forall_singleton, ends_model_call].
  apply Forall_fmap, Forall_forall. intros p Hp.
  assert (Hin : p.1 ∈ stop_results guard sn step) by (rewrite <- (H : l'.*1 = stop_results guard sn step); by apply list_elem_of_fmap_2).
  unfold stop_results in Hin. apply elem_of_cons in Hin as [E|(c & E & Hc)%list_elem_of_fmap]; cbn; rewrite E.
  - unfold stopped_call. destruct (sg_completed guard) as [[[? ?] ?]|]; [|destruct (sg_repeat guard)]; by eapply ends_call; [exact Hk|split|].
  - by eapply ends_call; [by eapply known_runnable|split|].
Qed.

Lemma continueModel_stays : stays sn0 sn (continueModel env).
Proof. unfold continueModel. stay. apply Forall_singleton, ends_model_call. Qed.

Lemma recoverInterrupted_stays step : known sn0 step → stays sn0 sn (recoverInterrupted env step).
Proof. intros Hk. unfold recoverInterrupted. stay. apply Forall_singleton. by eapply ends_call; [exact Hk|split|]. Qed.

Lemma same_recovery_step reason details s : same_call s (recovery_step reason details s) ∧ st_state (recovery_step reason details s) = RecoveryRequired.
Proof.
  assert (H : ∀ k, js k ≠ js "heldBy" → input k (recovery_step reason details s) = input k s).
  { intros k Hk. unfold recovery_step. destruct (rd_held details), (rd_failure details), (rd_timedOut details); try done; by apply input_held. }
  split; [split; [..|done]|]; unfold recovery_step; by destruct (rd_held details), (rd_failure details), (rd_timedOut details).
Qed.

Lemma transition_stays reason details : (∀ s, rd_held details = Some s → known sn0 s) →
  stays sn0 sn (transitionAmbiguousToolToRecovery env reason details).
Proof.
  intros Hh. unfold transitionAmbiguousToolToRecovery. stay.
  destruct (match rd_held details with Some s => Some s | None => _ end) as [step|] eqn:E; stay.
  assert (Hk : known sn0 step).
  { destruct (rd_held details) eqn:Eh; [simplify_eq; by apply Hh|]. apply find_first_Some in E as [E _]. by eapply known_in. }
  destruct (same_recovery_step reason details step) as [H1 H2]. apply Forall_singleton. eapply ends_call; [exact Hk|exact H1|].
  cbn [acknowledged mu_step]. by rewrite H2.
Qed.

Lemma holdCall_stays step uncertain : known sn0 step → stays sn0 sn (holdCall env step uncertain).
Proof. intros Hk. unfold holdCall. stay. apply transition_stays. by intros s [= <-]. Qed.

Lemma same_failed_step step f failure text :
  same_call step (failed_step step f failure text) ∧ settled (st_state (failed_step step f failure text)) = true.
Proof. unfold failed_step. destruct f; try (by split); destruct (bool_decide _); by split. Qed.

Lemma callFailed_stays before step t f : known sn0 step →
  stays sn0 sn (callFailed locale_le sha256 toLowerCase toUpperCase sandbox_cwd options env before step t f).
Proof.
  intros Hk. unfold callFailed. destruct (is_timeout f && holdsForReview step); [stay; by apply transition_stays|].
  destruct (match f with CancellationError => _ | _ => _ end); [stay|].
  stay. destruct (unknown_outcome_class _ && _); [stay; by apply transition_stays|].
  stay. constructor; [|done]. destruct (same_failed_step step f (classified toLowerCase toUpperCase env f (manual step))
    (repair_message (Z.of_nat (matchingToolFailureCount locale_le sha256 sandbox_cwd before step) + 1) (repairBudget options step)
       (sameErrorRun toLowerCase sn step (no_nul (cut (Z.of_nat STORED_TOOL_ERROR_LIMIT) (failure_message env f))))
       (no_nul (cut (Z.of_nat STORED_TOOL_ERROR_LIMIT) (failure_message env f))))) as [H1 H2].
  by eapply ends_call.
Qed.

Lemma callCompleted_stays before step t raw : known sn0 step →
  stays sn0 sn (callCompleted locale_le sha256 toLowerCase options env before step t raw).
Proof.
  intros Hk. unfold callCompleted. stay. destruct (_ && _); [by apply stopToolUse_stays|]. stay.
  - unfold image_usage. destruct (bool_decide _); stay.
  - destruct (tr_sandbox _); [unfold scheduledSandboxSnapshot|]; stay.
  - constructor; [|done]. by eapply ends_call; [exact Hk|split|].
Qed.

End operations.

(** ** Commits that let a call run or wait *)

Section leading.
Context (locale_le : jstr → jstr → bool) (sha256 toLowerCase toUpperCase : jstr → jstr) (sandbox_cwd : option jstr).
Context (options : Options) (env : Environment).
Context (sn0 : DurableTurnSnapshot).

(** The run may start with a commit that does. *)
Definition led {A} (tr : list Effect) (_ : result Failure A) (tr' : list Effect) (sn' : DurableTurnSnapshot) : Prop :=
  descends sn0 sn' ∧ ∃ new, tr' = tr ++ new ∧ lead_calm sn0 (omap attempt new).

Lemma calmly_led {A} tr (r : result Failure A) tr' sn' : calmly sn0 tr r tr' sn' → led tr r tr' sn'.
Proof. intros (H & new & -> & Hn). split; [done|]. exists new. split; [done|]. by apply calm_lead. Qed.

Lemma led_calmly {A B} tr (r : result Failure A) tr1 sn1 (r' : result Failure B) tr2 sn2 :
  led tr r tr1 sn1 → calmly sn0 tr1 r' tr2 sn2 → led tr r' tr2 sn2.
Proof.
  intros (_ & new1 & -> & H1) (H & new2 & -> & H2). split; [done|]. exists (new1 ++ new2). rewrite app_assoc. split; [done|].
  rewrite omap_app. by apply lead_calm_app.
Qed.

Lemma led_attempt {A} tr (r : result Failure A) m e sn' : attempt e = Some m → proper sn0 m → descends sn0 sn' → led tr r (tr ++ [e]) sn'.
Proof. intros He Hm H. split; [done|]. exists [e]. split; [done|]. cbn. rewrite He. by split; [|constructor]. Qed.

Lemma leads_stays {A} tr sn (m : M World Failure A) : stays sn0 sn m → leads tr sn m (led tr).
Proof. intros H. eapply leads_mono; [apply H|]. intros r tr' sn' H'. by apply calmly_led. Qed.

(** The steps of the snapshot that a commit may let run or wait. *)
Definition startable (step : DurableTurnStep) : Prop :=
  ∃ s, s ∈ sn_steps sn0 ∧ same_call s step ∧ (once s = true → st_state s = Pending).

Lemma askQuestion_led tr step questions : known sn0 step → can_run step = false →
  leads tr sn0 (askQuestion env step questions) (led tr).
Proof.
  intros (s0 & Hs0 & Hsame) Hc. unfold askQuestion. walk. destruct questions as [|q qs].
  { walk. apply calmly_led, calmly_refl, descends_refl. }
  assert (Ho : once s0 = false) by (rewrite <- (same_once _ _ Hsame); unfold once; by rewrite Hc, andb_false_r).
  set (Q := led tr). pose proof (descends_refl sn0) as Hd. walk; eapply led_attempt; try done; (split; [|done|done]); intros x [->|(c & -> & Hx)%list_elem_of_fmap]%elem_of_cons Ht.
  1,3: exists s0; split; [done|]; split; [by etrans; [exact Hsame|split]|by rewrite Ho].
  all: apply elem_of_filter_bool in Hx as [Hx _]; destruct (Hd c Hx) as (s & Hs & Hsm); exists s; split; [done|]; split; [|done]; by etrans; [exact Hsm|split].
Qed.

Lemma requestApproval_led tr step : startable step → isToolStep step = true → leads tr sn0 (requestApproval env step) (led tr).
Proof.
  intros (s0 & Hs0 & Hsame & Hp) Ht. unfold requestApproval. pose proof (descends_refl sn0) as Hd.
  walk; eapply led_attempt; try done; (split; [|split; [done|]; by eexists|done]); intros x ->%list_elem_of_singleton _;
    exists s0; (split; [done|]; split; [by etrans; [exact Hsame|split]|]; cbn; eauto).
Qed.

Lemma reserve_stays sn1 cost fallback : descends sn0 sn1 → stays sn0 sn1 (reserve env cost fallback).
Proof.
  intros H. unfold reserve. stay. destruct (e_reserve env t cost); stay. destruct (bd_allowed _); stay.
Qed.

Lemma run_tool_stays sn1 step : descends sn0 sn1 → stays sn0 sn1 (run_tool env step).
Proof. intros H. unfold run_tool. stay. Qed.

Lemma runCall_stays sn1 step stopped : descends sn0 sn1 → stays sn0 sn1 (runCall env step stopped).
Proof.
  intros H. pose proof reserve_stays. pose proof run_tool_stays. unfold runCall. stay. repeat first [case_match; stay | by auto].
Qed.

(** A call that is to run and was not interrupted had not begun, unless it may. *)
Lemma startable_in step : step ∈ sn_steps sn0 → isRunnableToolStep step = true → interrupted step = false → startable step.
Proof.
  intros Hin Hr Hi. exists step. split_and!; [done|done|]. intros [Hm [Hc _]%andb_true_iff]%andb_true_iff.
  unfold interrupted in Hi. rewrite Hm in Hi. destruct (argumentError step); [done|]. rewrite !andb_true_r in Hi.
  unfold isRunnableToolStep in Hr. rewrite Hi, orb_false_r in Hr. apply andb_true_iff in Hr as [_ Hr]. by apply bool_decide_eq_true in Hr.
Qed.

Lemma run_mutation_proper l events nextAction :
  (∀ x, x ∈ l → mu_step x = set_state Running (mu_step x) ∧ startable (mu_step x)) → proper sn0 (run_mutation l events nextAction).
Proof.
  intros H. split; [|done|done]. intros x Hx Ht. destruct (H x Hx) as (E & s & Hs & Hsame & Hp). exists s. split; [done|]. split; [done|]. by rewrite E.
Qed.

Lemma executeCall_led tr step : step ∈ sn_steps sn0 → isRunnableToolStep step = true →
  leads tr sn0 (executeCall locale_le sha256 toLowerCase toUpperCase sandbox_cwd options env step) (led tr).
Proof.
  intros Hin Hr. pose proof (descends_refl sn0) as Hd. assert (Hk : known sn0 step) by by eapply known_in.
  unfold executeCall. destruct (interrupted step) eqn:Hi.
  - apply leads_stays. stay; try (destruct (st_startedAt step); stay).
    1,2: apply stay_catch; [stay; by apply runCall_stays|intros f sn2 H'; stay].
    all: case_match; [by apply callCompleted_stays|by apply callFailed_stays].
  - destruct (startable_in step Hin Hr Hi) as (s0 & Hs0 & Hsame & Hp).
    apply leads_bind, leads_snapshot. cbn zeta iota. apply leads_bind, leads_now. intros t.
    set (step' := set_deadlines _ _ _). set (m := run_mutation _ _ _).
    assert (Hsame' : same_call s0 step') by (by etrans; [exact Hsame|split]).
    assert (Hk' : known sn0 step') by by exists s0.
    assert (Hm : proper sn0 m).
    { apply run_mutation_proper. intros x ->%list_elem_of_singleton. split; [done|]. by exists s0. }
    apply leads_bind, leads_bind, leads_commit; [apply leads_update|intros f; by eapply led_attempt].
    eapply leads_mono; [|intros r tr' sn' H; eapply led_calmly, H; by eapply (led_attempt tr (Ok tt) m (Committed m) sn0)].
    set (sn1 := with_steps _ sn0). assert (Hd1 : descends sn0 sn1) by by eapply descends_update.
    apply stay_bind; [apply stay_catch; [stay; by apply runCall_stays|intros f sn2 H'; stay]|].
    intros r sn2 H2. destruct r; [by apply callCompleted_stays|by apply callFailed_stays].
Qed.

(** *** One call *)

Lemma decision_ask sn step questions :
  decision locale_le sha256 toLowerCase toUpperCase sandbox_cwd options sn step = Ask questions → can_run step = false.
Proof.
  unfold decision. intros H. repeat case_match; try done; apply andb_false_iff; right; apply negb_false_iff;
    (match goal with E : bool_decide (toolNameForStep step = js "ask_user_question") && _ = true |- _ => by apply andb_true_iff in E as [E _] end).
Qed.

Lemma decision_request sn step :
  decision locale_le sha256 toLowerCase toUpperCase sandbox_cwd options sn step = RequestApproval → interrupted step = false.
Proof.
  unfold decision. intros H. repeat case_match; try done;
    (match goal with E : requiresApproval step = true |- _ => apply andb_true_iff in E as [_ E]; by apply negb_true_iff in E end).
Qed.

Lemma executeStep_led tr step : step ∈ sn_steps sn0 → isRunnableToolStep step = true →
  leads tr sn0 (executeStep locale_le sha256 toLowerCase toUpperCase sandbox_cwd options env step) (led tr).
Proof.
  intros Hin Hr. pose proof (descends_refl sn0) as Hd. assert (Hk : known sn0 step) by by eapply known_in.
  unfold executeStep. apply leads_bind, leads_snapshot. destruct (decision _ _ _ _ _ _ _ _) eqn:E.
  - apply leads_stays. by apply stopToolUse_stays.
  - apply leads_stays. by apply holdCall_stays.
  - apply leads_stays, not_run_stays; [done|]. by eapply ends_call; [exact Hk|split|].
  - apply leads_stays, not_run_stays; [done|]. by eapply ends_call; [exact Hk|split|].
  - by eapply askQuestion_led, decision_ask.
  - apply leads_stays. by apply recoverInterrupted_stays.
  - apply leads_stays. by apply notApproved_stays.
  - eapply requestApproval_led; [by eapply startable_in, decision_request|]. by apply andb_true_iff in Hr as [Ht _].
  - apply leads_stays. stay.
  - by apply executeCall_led.
Qed.

(** *** Batches *)

Lemma same_batch_failed_step f step message :
  same_call step (batch_failed_step toLowerCase toUpperCase env step f message)
  ∧ settled (st_state (batch_failed_step toLowerCase toUpperCase env step f message)) = true.
Proof. unfold batch_failed_step. destruct f; by split. Qed.

Definition batch_ends (b : Batch) : Prop := Forall (ends sn0) (ba_mutations b).

Lemma add_suppressed_ends sn l b : (∀ x, x ∈ l → known sn0 (sp_step x.1)) → batch_ends b → batch_ends (fold_left (add_suppressed sn) l b).
Proof.
  revert b. induction l as [|[x id] l IH]; intros b Hl Hb; [done|]. apply IH; [set_solver|]. unfold batch_ends in *. cbn.
  apply Forall_app. split; [done|]. apply Forall_singleton. eapply ends_call; [apply (Hl (x, id)); by left| |];
    unfold assessed; cbn; by destruct (sp_refusal x).
Qed.

Lemma add_outcomes_ends sn before snapshot executable startedAt l b :
  descends sn0 sn → (∀ x, x ∈ l → known sn0 x.1.1) → batch_ends b →
  ∀ tr, leads tr sn (add_outcomes locale_le sha256 toLowerCase toUpperCase options env before snapshot executable startedAt l b)
    (λ r tr' sn', calmly sn0 tr r tr' sn' ∧ ∀ b', r = Ok b' → batch_ends b').
Proof.
  intros Hd. revert b. induction l as [|[[step id] outcome] l IH]; intros b Hl Hb tr; cbn [add_outcomes].
  { walk. split; [by apply calmly_refl|]. by intros b' [= <-]. }
  walk. apply IH; [set_solver|]. assert (Hk : known sn0 step) by (apply (Hl ((step, id), outcome)); by left).
  unfold batch_ends in *. destruct outcome as [raw|f]; cbn; apply Forall_app; (split; [done|]); apply Forall_singleton.
  - by eapply ends_call; [exact Hk|split|].
  - by eapply ends_call; [exact Hk|..]; apply same_batch_failed_step.
Qed.

Lemma finishBatch_stays sn b : descends sn0 sn → batch_ends b → stays sn0 sn (finishBatch options env b).
Proof.
  intros Hd Hb. unfold finishBatch, scheduledSandboxSnapshot. stay; [destruct (ba_sandbox b); stay|].
  apply Forall_app. split; [done|]. apply Forall_singleton, ends_model_call.
Qed.

Lemma descends_mark sn l : descends sn0 sn → (∀ x, x ∈ l → known sn0 x) → descends sn0 (mark l sn).
Proof.
  revert sn. induction l as [|x l IH]; intros sn Hd Hl; [done|]. apply (IH (mark [x] sn)); [|set_solver].
  destruct (Hl x) as (s & Hs & Hsame); [by left|]. by eapply descends_update.
Qed.

Lemma parallel_once step : isParallelReadOnlyToolStep step = true → once step = false.
Proof.
  unfold isParallelReadOnlyToolStep. destruct (bool_decide (toolNameForStep step ∈ _) && _); [done|].
  intros [[[_ Hro]%andb_true_iff _]%andb_true_iff _]%andb_true_iff. unfold once. apply bool_decide_eq_true in Hro.
  unfold manual. rewrite bool_decide_eq_false_2; [done|]. congruence.
Qed.

Lemma batch_stop_in steps step guard : steps ≠ [] →
  batch_stop locale_le sha256 toLowerCase sandbox_cwd options sn0 steps = Some (step, guard) → step ∈ steps.
Proof.
  intros Hne. unfold batch_stop. destruct (_ <=? _)%Z; [destruct steps; [done|]; intros [= -> _]; by left|].
  destruct (first_some _ steps) eqn:E.
  - intros [= ->]. apply first_some_Some in E as (s & Hs & E). destruct (repeatedToolFailure _ _ _ _ s); by simplify_eq/=.
  - destruct (op_enforceRepeatGuard options); [|done]. destruct (find_first _ steps) eqn:E'; intros [= <- _].
    by apply find_first_Some in E' as [E' _].
Qed.

Lemma executed_stays l sn : descends sn0 sn →
  stays sn0 sn (foldr (λ step rest, match stored_argument_error step with Some _ => rest | None => do! emit (Executed step) in rest end) (mret tt) l).
Proof.
  revert sn. induction l as [|x l IH]; intros sn Hd; cbn [foldr]; [stay|]. destruct (stored_argument_error x); [by apply IH|].
  apply stay_bind; [stay|]. auto.
Qed.

Lemma add_outcomes_bind {A} sn before snapshot executable startedAt l b (f : Batch → M World Failure A) :
  descends sn0 sn → (∀ x, x ∈ l → known sn0 x.1.1) → batch_ends b →
  (∀ b' sn', descends sn0 sn' → batch_ends b' → stays sn0 sn' (f b')) →
  stays sn0 sn (add_outcomes locale_le sha256 toLowerCase toUpperCase options env before snapshot executable startedAt l b ≫= f).
Proof.
  intros Hd Hl Hb Hf tr. apply leads_bind. eapply leads_mono; [by apply add_outcomes_ends|].
  intros [b'|e] tr' sn' [H Hb']; [|done]. pose proof H as [Hd' _].
  eapply leads_mono; [apply Hf; [done|by apply Hb']|]. intros r tr2 sn2 H2. by eapply calmly_trans.
Qed.

Lemma parallel_led tr steps :
  (∀ s, s ∈ steps → s ∈ sn_steps sn0 ∧ isParallelReadOnlyToolStep s = true) → steps ≠ [] →
  leads tr sn0 (executeParallelReadOnlyTools locale_le sha256 toLowerCase toUpperCase sandbox_cwd options env steps) (led tr).
Proof.
  intros Hsteps Hne. pose proof (descends_refl sn0) as Hd. unfold executeParallelReadOnlyTools.
  apply leads_bind, leads_snapshot. cbn zeta iota.
  destruct (batch_stop _ _ _ _ _ _ _) as [[step guard]|] eqn:Hstop.
  { apply leads_stays, stopToolUse_stays; [done|]. apply batch_stop_in in Hstop; [|done]. eapply known_in; [done|]. by apply Hsteps. }
  destruct (split_batch _ _ _ _ _ _ _ _) as [run suppressed] eqn:Hsplit. apply split_batch_spec in Hsplit as [Hcover _].
  apply leads_bind, leads_now. intros t. cbn zeta.
  set (deadline := (t + maxDurationMs _)%Z). set (idle := (t + idleTimeoutMs _)%Z).
  change (λ step, set_deadlines deadline idle (set_state Running step)) with (started deadline idle).
  assert (Hrun : ∀ s, s ∈ run → s ∈ sn_steps sn0 ∧ isParallelReadOnlyToolStep s = true) by (intros s Hs; apply Hsteps; rewrite Hcover; apply elem_of_app; by right).
  set (running := map (started deadline idle) run).
  assert (Hrunning : ∀ x, x ∈ running → known sn0 x).
  { intros x (s & -> & Hs)%list_elem_of_fmap. exists s. split; [by apply Hrun|]. by split. }
  match goal with |- leads _ _ (commit _ ?m ≫= _) _ => set (m0 := m) end.
  assert (Hm : proper sn0 m0).
  { apply run_mutation_proper. intros x (s & -> & Hs)%list_elem_of_fmap. split; [done|]. destruct (Hrun s Hs) as [Hin Hp].
    exists s. split_and!; [done|by split|]. by rewrite parallel_once. }
  apply leads_bind, leads_commit; [|intros f; by eapply led_attempt].
  eapply leads_mono; [|intros r tr' sn' H; eapply led_calmly, H; by eapply (led_attempt tr (Ok tt) m0 (Committed m0) sn0)].
  apply leads_bind, (leads_marks _ _ (started deadline idle)). fold running. set (sn1 := mark running sn0).
  assert (Hd1 : descends sn0 sn1) by by apply descends_mark.
  match goal with |- leads ?tr _ ?m _ => assert (Hm1 : stays sn0 sn1 m); [|apply Hm1] end.
  apply stay_snapshot, stay_uuids. intros withIds HwithIds. apply stay_trace. intros trace.
  apply stay_bind; [by apply executed_stays|]. intros _ sn2 Hd2. apply stay_bind; [by apply stay_lift|]. intros outcomes sn3 Hd3.
  destruct (first_cancellation outcomes); [by apply stay_throw|]. apply stay_uuids. intros suppressedIds HsuppressedIds.
  apply add_outcomes_bind; [done| | |intros b sn4 Hd4 Hb; by apply finishBatch_stays].
  - intros [[step id] o] Hx%elem_of_zip_l. apply Hrunning. rewrite <- HwithIds. by apply (list_elem_of_fmap_2 fst) in Hx.
  - apply add_suppressed_ends; [|by constructor]. intros [x id] Hx%(list_elem_of_fmap_2 fst). cbn in *. rewrite HsuppressedIds in Hx.
    apply (known_in sn0 sn0); [done|]. apply Hsteps. rewrite Hcover. apply elem_of_app. left. by apply list_elem_of_fmap_2.
Qed.

Lemma executeTool_led tr :
  leads tr sn0 (executeTool locale_le sha256 toLowerCase toUpperCase sandbox_cwd options env) (led tr).
Proof.
  unfold executeTool. apply leads_bind, leads_snapshot. cbn zeta.
  set (runnable := sort_by ascending (List.filter isRunnableToolStep (sn_steps sn0))).
  assert (Hr : ∀ s, s ∈ runnable ↔ s ∈ sn_steps sn0 ∧ isRunnableToolStep s = true).
  { intros s. unfold runnable. by rewrite elem_of_sort_by, elem_of_filter_bool. }
  destruct ((1 <? length runnable)%nat && forallb isParallelReadOnlyToolStep runnable) eqn:E.
  - apply andb_true_iff in E as [E1 E2]. rewrite forallb_forall in E2. apply parallel_led; [|by intros ->].
    intros s Hs. split; [by apply Hr|]. by apply E2, list_elem_of_In.
  - destruct runnable as [|step rest]; [apply leads_stays, continueModel_stays, descends_refl|].
    destruct (proj1 (Hr step)) as [Hin Ho]; [by left|]. by apply executeStep_led.
Qed.

(** *** The whole run *)

Lemma closing_ends sn (f : DurableTurnStep → DurableStepMutation) :
  descends sn0 sn → (∀ s, same_call s (mu_step (f s)) ∧ settled (st_state (mu_step (f s))) = true) →
  Forall (ends sn0) (map f (List.filter isUnfinishedStep (sn_steps sn))).
Proof.
  intros Hd Hf. apply Forall_fmap, Forall_forall. intros s [Hs _]%elem_of_filter_bool. destruct (Hf s) as [H1 H2].
  eapply ends_call; [by eapply known_in|done|done].
Qed.

Lemma cancelRun_stays sn : descends sn0 sn → stays sn0 sn (cancelRun env).
Proof. intros Hd. unfold cancelRun. stay. by apply closing_ends. Qed.

Lemma failRun_stays sn message : descends sn0 sn → stays sn0 sn (failRun env message).
Proof. intros Hd. unfold failRun. stay. by apply closing_ends. Qed.

(** The rest of [caught], after it has tried to hand a call to recovery. *)
Lemma unrecovered_stays sn f (recovered retry : bool) message : descends sn0 sn →
  stays sn0 sn (if recovered then mret RecoveryRun
    else if retry then do! emit (Released (Some message)) in throw (if retryable_error f then f else RetryableError message)
    else
      let! snapshot := gets w_snapshot in
      if hasAmbiguousNonIdempotentTool snapshot
      then do! emit (Released (Some message)) in throw (RetryableError NEEDS_CLASSIFICATION)
      else catch (do! failRun env message in mret FailedRun)
             (λ p, do! emit (Released (Some message)) in throw (if retryable_error p then p else TerminalError message))).
Proof.
  intros Hd. destruct recovered; [stay|]. destruct retry; [stay|]. stay.
  destruct (hasAmbiguousNonIdempotentTool sn); [stay|].
  apply stay_catch; [stay; by apply failRun_stays|]. intros p sn2 Hd2. stay.
Qed.

Lemma recovery_tried_stays {A} sn reason details (a : A) h : descends sn0 sn → (∀ s, rd_held details = Some s → known sn0 s) →
  (∀ f sn', descends sn0 sn' → stays sn0 sn' (h f)) →
  stays sn0 sn (catch (do! transitionAmbiguousToolToRecovery env reason details in mret a) h).
Proof. intros Hd Hh H. apply stay_catch; [|done]. stay. by apply transition_stays. Qed.

Lemma caught_stays sn message retry f : descends sn0 sn → stays sn0 sn (caught env message retry f).
Proof.
  intros Hd. unfold caught. apply stay_snapshot. cbn zeta.
  assert (Htried : stays sn0 sn (if hasRunningHeldTool sn
    then catch (do! transitionAmbiguousToolToRecovery env message outcome_unknown in mret true)
               (λ p, if retryable_error p then throw p else mret false)
    else mret false)).
  { destruct (hasRunningHeldTool sn); [|stay]. apply recovery_tried_stays; [done..|]. intros p sn2 Hd2. destruct (retryable_error p); stay. }
  destruct f; try (apply stay_bind; [exact Htried|intros recovered sn2 Hd2; by apply (unrecovered_stays sn2 _ recovered)]).
  destruct (hasRunningHeldTool sn); [|stay]. apply recovery_tried_stays; [done..|]. intros p sn2 Hd2. stay.
Qed.
End leading.

(** ** The calls that run *)

Section executions.
Context (locale_le : jstr → jstr → bool) (sha256 toLowerCase toUpperCase : jstr → jstr) (sandbox_cwd : option jstr).
Context (options : Options) (env : Environment).

(** Nothing runs. *)
Definition idle {A} (m : M World Failure A) : Prop :=
  ∀ tr sn, leads tr sn m (λ _ tr' _, ∃ new, tr' = tr ++ new ∧ omap executed new = []).

Lemma rest_nil tr (tr' : list Effect) : tr' = tr → ∃ new, tr' = tr ++ new ∧ omap executed new = [].
Proof. intros ->. exists []. by rewrite app_nil_r. Qed.
Lemma rest_ret {A} (a : A) : idle (mret a).
Proof. intros tr sn. walk. by apply rest_nil. Qed.
Lemma rest_throw {A} f : idle (throw f : M World Failure A).
Proof. intros tr sn. walk. by apply rest_nil. Qed.
Lemma rest_emit e : executed e = None → idle (emit e).
Proof. intros He tr sn. walk. exists [e]. split; [done|]. cbn. by rewrite He. Qed.
Lemma rest_commit m : idle (commit env m).
Proof. intros tr sn. walk; by eexists. Qed.
Lemma rest_bind {A B} (m : M World Failure A) (f : A → M World Failure B) : idle m → (∀ a, idle (f a)) → idle (m ≫= f).
Proof.
  intros Hm Hf tr sn. apply leads_bind. eapply leads_mono; [apply Hm|]. intros [a|e] tr' sn' (new & -> & H); [|by exists new].
  eapply leads_mono; [apply Hf|]. intros r tr2 sn2 (new2 & -> & H2). exists (new ++ new2). by rewrite app_assoc, omap_app, H, H2.
Qed.
Lemma rest_catch {A} (m : M World Failure A) h : idle m → (∀ f, idle (h f)) → idle (catch m h).
Proof.
  intros Hm Hf tr sn. apply leads_catch. eapply leads_mono; [apply Hm|]. intros [a|e] tr' sn' (new & -> & H); [by exists new|].
  eapply leads_mono; [apply Hf|]. intros r tr2 sn2 (new2 & -> & H2). exists (new ++ new2). by rewrite app_assoc, omap_app, H, H2.
Qed.
Lemma rest_snapshot : idle (gets w_snapshot).
Proof. intros tr sn. walk. by apply rest_nil. Qed.
Lemma rest_uuids {A} (l : list A) : idle (randomUUIDs env l).
Proof. intros tr sn. walk. by apply rest_nil. Qed.
Lemma rest_uuid : idle (randomUUID env).
Proof. intros tr sn. walk. by apply rest_nil. Qed.

Hint Resolve rest_ret rest_throw rest_emit rest_commit rest_bind rest_catch rest_snapshot rest_uuids rest_uuid : idle.

Lemma rest_transition reason details : idle (transitionAmbiguousToolToRecovery env reason details).
Proof. unfold transitionAmbiguousToolToRecovery. apply rest_bind; [auto with idle|]. intros sn. case_match; auto with idle. Qed.
Lemma rest_failRun message : idle (failRun env message).
Proof. unfold failRun. auto with idle. Qed.
Lemma rest_cancelRun : idle (cancelRun env).
Proof. unfold cancelRun. auto with idle. Qed.
Hint Resolve rest_transition rest_failRun rest_cancelRun : idle.

Lemma rest_caught message retry f : idle (caught env message retry f).
Proof.
  unfold caught. apply rest_bind; [auto with idle|]. intros sn.
  destruct f; (destruct (hasRunningHeldTool sn); repeat first [solve [auto with idle] | apply rest_catch | apply rest_bind | progress intros | case_match]).
Qed.

(** The calls that run in a trace, for the snapshot that was claimed. *)
Definition runs_cleared (sn : DurableTurnSnapshot) (new : list Effect) : Prop :=
  (∀ before s after, new = before ++ Executed s :: after →
     marked before s ∧ ∃ step deadline idle, s = started deadline idle step
                       ∧ may_run locale_le sha256 toLowerCase toUpperCase sandbox_cwd options sn step)
  ∧ (Forall (λ s, read_only s = true) (omap executed new) ∨ (length (omap executed new) <= 1)%nat).

Lemma runs_cleared_app sn l l' : runs_cleared sn l → omap executed l' = [] → runs_cleared sn (l ++ l').
Proof.
  intros [H1 H2] Hl. split; [|by rewrite omap_app, Hl, app_nil_r]. intros before s after Heq.
  apply app_eq_app in Heq as (k & [[-> Hk]|[-> Hk]]).
  - destruct k as [|e k]; simplify_eq/=; by eapply H1.
  - exfalso. rewrite Hk, omap_app in Hl. cbn in Hl. by destruct (omap executed k).
Qed.

Lemma idle_cleared sn new : omap executed new = [] → runs_cleared sn new.
Proof. intros Hn. apply (runs_cleared_app sn [] new); [|done]. split; [by intros []|left; constructor]. Qed.
End executions.
