(* ===== verification/TurnJournal.v ===== *)
(** * The journal of a turn

    The rows of one turn in the database, and the transactions that change them: of
    the worker ([SqlDurableTurnRepository] of apps/worker/src/turn-runner.ts) and of
    the API (apps/api/src/runtime/durable-turn.service.ts). A transaction that is
    refused or fails leaves the rows as they are.

    Left out are the tables that no decision of the runner reads: events, messages,
    the outbox, tool calls (their states follow those of the steps), tasks and
    sessions. [now] is the clock of the database. *)

From S2P Require Import Prelude JsMap JsString Json ProviderErrors ToolFailures Prompts TurnSteps TurnCalls TurnRunner.
From Stdlib Require Import Lia.

Set Default Goal Selector "!".

(** ** Rows *)

Record Question := { qu_id : jstr; qu_stepId : jstr; qu_pending : bool }.

Record Journal := {
  jn_id : jstr;
  jn_tenantId : jstr;
  jn_state : TurnRunState;
  jn_version : Z;
  jn_cancelled : bool;
  jn_lease : option (jstr * Z);               (* lease_owner, lease_expires_at *)
  jn_generation : Z;                          (* ownership_generation *)
  jn_runtimeRequest : json;
  jn_sandboxId : option jstr;
  jn_progress : DurableTurnProgress;
  jn_steps : list DurableTurnStep;
  jn_approvals : list DurableApproval;
  jn_questions : list Question;
  jn_recovery : option (jstr * jstr);         (* recovery_step_id, recovery_tool_call_id *)
  jn_waitingReason : option jstr;
  jn_nextAction : option jstr;
  jn_error : option jstr;
}.

Definition set_lease (lease : option (jstr * Z)) (generation : Z) (j : Journal) : Journal :=
  {| jn_id := jn_id j; jn_tenantId := jn_tenantId j; jn_state := jn_state j; jn_version := jn_version j; jn_cancelled := jn_cancelled j;
     jn_lease := lease; jn_generation := generation; jn_runtimeRequest := jn_runtimeRequest j; jn_sandboxId := jn_sandboxId j;
     jn_progress := jn_progress j; jn_steps := jn_steps j; jn_approvals := jn_approvals j; jn_questions := jn_questions j;
     jn_recovery := jn_recovery j; jn_waitingReason := jn_waitingReason j; jn_nextAction := jn_nextAction j; jn_error := jn_error j |}.

Definition set_approvals (approvals : list DurableApproval) (j : Journal) : Journal :=
  {| jn_id := jn_id j; jn_tenantId := jn_tenantId j; jn_state := jn_state j; jn_version := jn_version j; jn_cancelled := jn_cancelled j;
     jn_lease := jn_lease j; jn_generation := jn_generation j; jn_runtimeRequest := jn_runtimeRequest j; jn_sandboxId := jn_sandboxId j;
     jn_progress := jn_progress j; jn_steps := jn_steps j; jn_approvals := approvals; jn_questions := jn_questions j;
     jn_recovery := jn_recovery j; jn_waitingReason := jn_waitingReason j; jn_nextAction := jn_nextAction j; jn_error := jn_error j |}.

Definition set_questions (questions : list Question) (j : Journal) : Journal :=
  {| jn_id := jn_id j; jn_tenantId := jn_tenantId j; jn_state := jn_state j; jn_version := jn_version j; jn_cancelled := jn_cancelled j;
     jn_lease := jn_lease j; jn_generation := jn_generation j; jn_runtimeRequest := jn_runtimeRequest j; jn_sandboxId := jn_sandboxId j;
     jn_progress := jn_progress j; jn_steps := jn_steps j; jn_approvals := jn_approvals j; jn_questions := questions;
     jn_recovery := jn_recovery j; jn_waitingReason := jn_waitingReason j; jn_nextAction := jn_nextAction j; jn_error := jn_error j |}.

(** The run enters a state, with these steps and this lease. *)
Definition enter (state : TurnRunState) (cancelled : bool) (lease : option (jstr * Z)) (steps : list DurableTurnStep)
    (recovery : option (jstr * jstr)) (waitingReason nextAction error : option jstr) (j : Journal) : Journal :=
  {| jn_id := jn_id j; jn_tenantId := jn_tenantId j; jn_state := state; jn_version := jn_version j + 1; jn_cancelled := cancelled;
     jn_lease := lease; jn_generation := jn_generation j; jn_runtimeRequest := jn_runtimeRequest j; jn_sandboxId := jn_sandboxId j;
     jn_progress := jn_progress j; jn_steps := steps; jn_approvals := jn_approvals j; jn_questions := jn_questions j;
     jn_recovery := recovery; jn_waitingReason := waitingReason; jn_nextAction := nextAction; jn_error := error |}.

Definition terminal (state : TurnRunState) : bool := bool_decide (state ∈ TERMINAL_STATES).

(** ** Claims *)

Definition lease_free (now : Z) (owner : jstr) (j : Journal) : bool :=
  match jn_lease j with None => true | Some (o, expires) => (expires <=? now)%Z || bool_decide (o = owner) end.

Definition claim (now : Z) (owner : jstr) (leaseSeconds : Z) (j : Journal) : option Journal :=
  if negb (terminal (jn_state j)) && lease_free now owner j
  then Some (set_lease (Some (owner, now + leaseSeconds * 1000)%Z) (jn_generation j + 1) j)
  else None.

(** [mapSnapshot]; the entries are those of the session. *)
Definition mapSnapshot (entries : list jstr) (j : Journal) : DurableTurnSnapshot :=
  {| sn_id := jn_id j; sn_tenantId := jn_tenantId j; sn_state := jn_state j; sn_version := jn_version j; sn_cancelled := jn_cancelled j;
     sn_runtimeRequest := match record (Some (jn_runtimeRequest j)) with Some r => r | None => JObj [] end;
     sn_sandboxId := jn_sandboxId j; sn_progress := Some (jn_progress j);
     sn_steps := sort_by ascending (jn_steps j); sn_entries := entries; sn_approvals := jn_approvals j |}.

Definition owns (owner : jstr) (generation : Z) (j : Journal) : bool :=
  match jn_lease j with Some (o, _) => bool_decide (o = owner) && (jn_generation j =? generation)%Z | None => false end.

Definition heartbeat (now : Z) (owner : jstr) (leaseSeconds generation : Z) (j : Journal) : option Journal :=
  if owns owner generation j && negb (jn_cancelled j)
  then Some (set_lease (Some (owner, now + leaseSeconds * 1000)%Z) (jn_generation j) j) else None.

Definition release (owner : jstr) (generation : Z) (error : option jstr) (j : Journal) : Journal :=
  if owns owner generation j
  then
    {| jn_id := jn_id j; jn_tenantId := jn_tenantId j; jn_state := jn_state j; jn_version := jn_version j; jn_cancelled := jn_cancelled j;
       jn_lease := None; jn_generation := jn_generation j; jn_runtimeRequest := jn_runtimeRequest j; jn_sandboxId := jn_sandboxId j;
       jn_progress := jn_progress j; jn_steps := jn_steps j; jn_approvals := jn_approvals j; jn_questions := jn_questions j;
       jn_recovery := jn_recovery j; jn_waitingReason := jn_waitingReason j; jn_nextAction := jn_nextAction j;
       jn_error := match error with Some e => Some (cut 4000 e) | None => jn_error j end |}
  else j.

(** ** Steps *)

Definition same_key (key : option jstr) (row : DurableTurnStep) : bool :=
  match key with Some k => bool_decide (st_idempotencyKey row = Some k) | None => false end.

(** The row is in the way of an insertion: the id, the sequence and the key are unique. *)
Definition conflicts (s row : DurableTurnStep) : bool :=
  bool_decide (st_id row = st_id s) || (st_sequence row =? st_sequence s)%Z || same_key (st_idempotencyKey s) row.

Definition coalesce {A} (new old : option A) : option A := match new with Some v => Some v | None => old end.

Definition started_at (now : Z) (s : DurableTurnStep) : option Z := if is_state Running s then Some now else None.

(** The row of a new step. *)
Definition inserted (now : Z) (x : DurableStepMutation) : DurableTurnStep :=
  let s := mu_step x in
  {| st_id := st_id s; st_sequence := st_sequence s; st_type := st_type s; st_state := st_state s; st_input := st_input s;
     st_output := st_output s; st_retryClass := st_retryClass s; st_idempotencyKey := st_idempotencyKey s;
     st_attempt := if mu_incrementAttempt x then 1 else 0; st_error := st_error s; st_resultFingerprint := st_resultFingerprint s;
     st_deadlineAt := st_deadlineAt s; st_idleDeadlineAt := st_idleDeadlineAt s; st_timedOut := st_timedOut s;
     st_abortAcknowledged := st_abortAcknowledged s; st_outcomeCertainty := st_outcomeCertainty s;
     st_startedAt := coalesce (started_at now s) (st_startedAt s) |}.

(** The row after an update. *)
Definition updated (now : Z) (x : DurableStepMutation) (row : DurableTurnStep) : DurableTurnStep :=
  let s := mu_step x in
  {| st_id := st_id row; st_sequence := st_sequence row; st_type := st_type row; st_state := st_state s; st_input := st_input s;
     st_output := match st_output s with JNull => st_output row | v => v end;
     st_retryClass := coalesce (st_retryClass s) (st_retryClass row);
     st_idempotencyKey := coalesce (st_idempotencyKey s) (st_idempotencyKey row);
     st_attempt := if mu_incrementAttempt x then st_attempt row + 1 else st_attempt row; st_error := st_error s;
     st_resultFingerprint := coalesce (st_resultFingerprint s) (st_resultFingerprint row);
     st_deadlineAt := coalesce (st_deadlineAt s) (st_deadlineAt row);
     st_idleDeadlineAt := coalesce (st_idleDeadlineAt s) (st_idleDeadlineAt row);
     st_timedOut := st_timedOut s || st_timedOut row; st_abortAcknowledged := st_abortAcknowledged s || st_abortAcknowledged row;
     st_outcomeCertainty := coalesce (st_outcomeCertainty s) (st_outcomeCertainty row);
     st_startedAt := coalesce (coalesce (st_startedAt row) (started_at now s)) (st_startedAt s) |}.

Definition update_row (id : jstr) (f : DurableTurnStep → DurableTurnStep) (rows : list DurableTurnStep) : list DurableTurnStep :=
  map (λ row, if bool_decide (st_id row = id) then f row else row) rows.

Definition CONFLICT_UNRESOLVED : jstr := js " conflicted but its persisted row could not be resolved".
Definition OWNED_BY_ANOTHER : jstr := js " is already owned by another durable operation".

Definition upsertStep (now : Z) (x : DurableStepMutation) (rows : list DurableTurnStep) : result Failure (list DurableTurnStep) :=
  let s := mu_step x in
  if negb (existsb (conflicts s) rows) then Ok (rows ++ [inserted now x])
  else
    let by_key := find_first (same_key (st_idempotencyKey s)) rows in
    let persisted := match by_key with Some row => Some row | None => find_first (λ row, (st_sequence row =? st_sequence s)%Z) rows end in
    match persisted with
    | None => Err (RetryableError (js "Step " ++ dec (st_sequence s) ++ CONFLICT_UNRESOLVED))
    | Some row =>
        let isIdempotentReplay := truthy_opt (st_idempotencyKey s) && same_key (st_idempotencyKey s) row && negb (bool_decide (st_id row = st_id s)) in
        if negb isIdempotentReplay && negb (bool_decide (st_id row = st_id s))
        then Err (RetryableError (js "Step sequence " ++ dec (st_sequence s) ++ OWNED_BY_ANOTHER))
        else if isIdempotentReplay then Ok rows
        else Ok (update_row (st_id row) (updated now x) rows)
    end.

Fixpoint upsert_steps (now : Z) (l : list DurableStepMutation) (rows : list DurableTurnStep) : result Failure (list DurableTurnStep) :=
  match l with
  | [] => Ok rows
  | x :: l => match upsertStep now x rows with Ok rows => upsert_steps now l rows | Err f => Err f end
  end.

(** ** Closing what a run leaves *)

Definition unfinished_states : list StepState := [Pending; Running; Waiting].

Definition close_row (state : StepState) (reason : jstr) (row : DurableTurnStep) : DurableTurnStep :=
  set_error (coalesce (st_error row) (Some reason)) (set_state state row).

Definition closeTerminalChildren (terminalState : TurnRunState) (rows : list DurableTurnStep) : list DurableTurnStep :=
  let failed := bool_decide (terminalState ∈ [FailedRun; RecoveryRun]) in
  map (λ row, if bool_decide (st_state row ∈ unfinished_states)
              then close_row (if failed then Failed else Cancelled)
                     (if failed then js "Closed with terminal run" else js "Cancelled with terminal run") row
              else row) rows.

Definition set_status (status : ApprovalStatus) (a : DurableApproval) : DurableApproval :=
  {| ap_id := ap_id a; ap_stepId := ap_stepId a; ap_status := status |}.
Definition is_pending (a : DurableApproval) : bool := bool_decide (ap_status a = ApprovalPending).
Definition expire_approvals (l : list DurableApproval) : list DurableApproval :=
  map (λ a, if is_pending a then set_status Expired a else a) l.
Definition close_question (q : Question) : Question := {| qu_id := qu_id q; qu_stepId := qu_stepId q; qu_pending := false |}.

(** ** Commits *)

Definition insertApproval (approval : option ApprovalMutation) (l : list DurableApproval) : list DurableApproval :=
  match approval with
  | None => l
  | Some a => if existsb (λ b, bool_decide (ap_id b = am_id a)) l then l
              else l ++ [{| ap_id := am_id a; ap_stepId := Some (am_stepId a); ap_status := ApprovalPending |}]
  end.
Definition insertQuestion (question : option QuestionMutation) (l : list Question) : list Question :=
  match question with
  | None => l
  | Some q => if existsb (λ b, bool_decide (qu_id b = qm_id q)) l then l
              else l ++ [{| qu_id := qm_id q; qu_stepId := qm_stepId q; qu_pending := true |}]
  end.

Definition commit_progress (p : option DurableTurnProgress) (old : DurableTurnProgress) : DurableTurnProgress :=
  match p with
  | None => old
  | Some p =>
      {| pr_progressEpoch := pr_progressEpoch p; pr_progressKind := coalesce (pr_progressKind p) (pr_progressKind old);
         pr_consecutiveNoProgress := pr_consecutiveNoProgress p; pr_physicalModelAttempt := pr_physicalModelAttempt p;
         pr_logicalModelIteration := pr_logicalModelIteration p; pr_toolRepairAttempts := pr_toolRepairAttempts p;
         pr_cumulativeToolMs := pr_cumulativeToolMs p; pr_cumulativeActiveComputeMs := pr_cumulativeActiveComputeMs p;
         pr_budgetReason := coalesce (pr_budgetReason p) (pr_budgetReason old) |}
  end.

Definition commit_journal (now : Z) (owner : jstr) (generation : Z) (m : DurableTurnMutation) (j : Journal) : result Failure Journal :=
  if negb (match jn_lease j with
           | Some (o, expires) => bool_decide (o = owner) && (now <? expires)%Z && (jn_generation j =? generation)%Z
           | None => false
           end)
  then Err (RetryableError (js "Turn lease expired before state persistence"))
  else if negb (bool_decide (jn_state j = m_expectedState m))
  then Err (RetryableError (js "Turn state changed from " ++ state_text (m_expectedState m) ++ js " to " ++ state_text (jn_state j)))
  else if jn_cancelled j && negb (bool_decide (m_nextState m = CancelledRun))
  then Err (RetryableError (js "Turn was cancelled before state persistence"))
  else
    match upsert_steps now (m_steps m) (jn_steps j) with
    | Err f => Err f
    | Ok rows =>
        let next := m_nextState m in
        let approvals := insertApproval (m_approval m) (jn_approvals j) in
        let questions := insertQuestion (m_question m) (jn_questions j) in
        Ok {| jn_id := jn_id j; jn_tenantId := jn_tenantId j; jn_state := next; jn_version := jn_version j + 1; jn_cancelled := jn_cancelled j;
              jn_lease := if m_keepLease m then jn_lease j else None; jn_generation := jn_generation j;
              jn_runtimeRequest := jn_runtimeRequest j;
              jn_sandboxId := match m_sandbox m ≫= member (js "id") with Some (JStr id) => Some id | _ => jn_sandboxId j end;
              jn_progress := commit_progress (m_progress m) (jn_progress j);
              jn_steps := if terminal next then closeTerminalChildren next rows else rows;
              jn_approvals := if terminal next then expire_approvals approvals else approvals;
              jn_questions := if terminal next then map close_question questions else questions;
              jn_recovery := if bool_decide (next = RecoveryRun) then m_recoveryReference m else None;
              jn_waitingReason := m_waitingReason m; jn_nextAction := m_nextAction m; jn_error := m_error m |}
    end.

(** ** What the API does *)

(** The text of a member, as [->>] gives it. *)
Definition json_text (v : option json) : option jstr :=
  match v with None | Some JNull => None | Some (JStr s) => Some s | Some v => Some (stringify v) end.

Fixpoint drop_blanks (s : jstr) : jstr := match s with c :: s' => if (c =? 32)%N then drop_blanks s' else s | [] => [] end.
Definition btrim (s : jstr) : jstr := reverse (drop_blanks (reverse (drop_blanks s))).

Definition HELD_TOOL_STEP_SQL (row : DurableTurnStep) : bool :=
  let name := match btrim <$> json_text (input "toolName" row) with
              | Some n => if truthy n then n else drop 5 (st_type row)
              | None => drop 5 (st_type row)
              end in
  negb (bool_decide (name ∈ SANDBOX_TOOLS)).

(** The latest call that may have taken effect, but for one step. *)
Definition ambiguous (except : option jstr) (rows : list DurableTurnStep) : option DurableTurnStep :=
  head (sort_by descending (List.filter (λ row,
    negb (bool_decide (except = Some (st_id row))) && is_state Running row && manual row && HELD_TOOL_STEP_SQL row) rows)).

Definition WAIT_AMBIGUOUS : jstr := js "Ambiguous external operation discovered while an interactive wait expired".
Definition WAIT_SUMMARY : jstr := js " Another non-idempotent tool has an uncertain outcome and requires operator recovery.".

Definition expireWaitTransaction (stepId : option jstr) (summary : jstr) (j : Journal) : Journal :=
  let found := ambiguous stepId (jn_steps j) in
  let found_id := st_id <$> found in
  let rows := map (λ row,
    if bool_decide (st_state row ∈ unfinished_states)
    then close_row (if bool_decide (stepId = Some (st_id row)) then Failed
                    else if bool_decide (found_id = Some (st_id row)) then RecoveryRequired else Cancelled)
                   (if bool_decide (found_id = Some (st_id row)) then WAIT_AMBIGUOUS else summary) row
    else row) (jn_steps j) in
  let j := set_questions (map close_question (jn_questions j)) (set_approvals (expire_approvals (jn_approvals j)) j) in
  let closed :=
    if terminal (jn_state j) then j
    else enter (match found with Some _ => RecoveryRun | None => FailedRun end) (jn_cancelled j) None (jn_steps j)
           ((λ row, (st_id row, toolCallIdForStep row)) <$> found) None None
           (Some (match found with Some _ => summary ++ WAIT_SUMMARY | None => summary end)) j in
  {| jn_id := jn_id closed; jn_tenantId := jn_tenantId closed; jn_state := jn_state closed; jn_version := jn_version closed;
     jn_cancelled := jn_cancelled closed; jn_lease := jn_lease closed; jn_generation := jn_generation closed;
     jn_runtimeRequest := jn_runtimeRequest closed; jn_sandboxId := jn_sandboxId closed; jn_progress := jn_progress closed;
     jn_steps := rows; jn_approvals := jn_approvals closed; jn_questions := jn_questions closed; jn_recovery := jn_recovery closed;
     jn_waitingReason := jn_waitingReason closed; jn_nextAction := jn_nextAction closed; jn_error := jn_error closed |}.

Definition APPROVAL_EXPIRED : jstr := js "This approval expired before a decision was recorded.".
Definition QUESTION_EXPIRED : jstr := js "This question expired before it was answered. Start a follow-up turn if you still want to continue.".

(** A decision on an approval, which may have expired by then. *)
Definition decideApproval (expired : bool) (approvalId : jstr) (approved : bool) (j : Journal) : Journal :=
  match find_first (λ a, bool_decide (ap_id a = approvalId)) (jn_approvals j) with
  | None => j
  | Some a =>
      if negb (is_pending a) then j
      else if expired then
        let j := set_approvals (map (λ b, if bool_decide (ap_id b = approvalId) then set_status Expired b else b) (jn_approvals j)) j in
        if bool_decide (jn_state j = WaitingRun) then expireWaitTransaction (ap_stepId a) APPROVAL_EXPIRED j else j
      else if negb (bool_decide (jn_state j = WaitingRun)) then j
      else
        let status := if approved then Approved else Denied in
        let j := set_approvals (map (λ b, if bool_decide (ap_id b = approvalId) then set_status status b else b) (jn_approvals j)) j in
        let rows := match ap_stepId a with
                    | Some id => update_row id (λ row, set_error None (set_state Pending row)) (jn_steps j)
                    | None => jn_steps j
                    end in
        enter ExecutingTool (jn_cancelled j) None rows (jn_recovery j) None (Some (js "Resume after approval")) (jn_error j) j
  end.

(** The call of the model that follows an answer or a confirmation. *)
Definition next_model_call (id : jstr) (members : list (jstr * json)) (j : Journal) : DurableTurnStep :=
  let iteration := (modelIteration (jn_steps j) + 1)%Z in
  {| st_id := id; st_sequence := (foldr Z.max 0 (map st_sequence (jn_steps j)) + 1)%Z; st_type := js "model.call"; st_state := Pending;
     st_input := JObj ((js "iteration", JNum iteration) :: members); st_output := JNull; st_retryClass := Some IdempotentWithKey;
     st_idempotencyKey := Some (jn_id j ++ js ":model:" ++ dec iteration); st_attempt := 0; st_error := None; st_resultFingerprint := None;
     st_deadlineAt := None; st_idleDeadlineAt := None; st_timedOut := false; st_abortAcknowledged := false; st_outcomeCertainty := None;
     st_startedAt := None |}.

(** A step is completed from outside, and the model goes on. A call of the model that
    is not unique fails the transaction. *)
Definition complete_step (stepId : jstr) (output : json) (call : DurableTurnStep) (rows : list DurableTurnStep) : option (list DurableTurnStep) :=
  if existsb (conflicts call) rows then None
  else Some (update_row stepId (λ row, set_error None (set_output output (set_state Completed row))) rows ++ [call]).

(** An answer to a question; [newId] is the id of the call of the model. *)
Definition answerQuestion (expired : bool) (questionId : jstr) (output : json) (newId : jstr) (j : Journal) : Journal :=
  match find_first (λ q, bool_decide (qu_id q = questionId)) (jn_questions j) with
  | None => j
  | Some q =>
      if negb (qu_pending q) || negb (bool_decide (jn_state j = WaitingRun)) then j
      else if expired then expireWaitTransaction (Some (qu_stepId q)) QUESTION_EXPIRED j
      else
        let call := next_model_call newId [(js "resumedFromQuestionId", JStr questionId)] j in
        match complete_step (qu_stepId q) output call (jn_steps j) with
        | None => j
        | Some rows =>
            let questions := map (λ b, if bool_decide (qu_id b = questionId) then close_question b else b) (jn_questions j) in
            enter CallingModel (jn_cancelled j) None rows (jn_recovery j) None (Some (js "Continue after user input")) (jn_error j)
              (set_questions questions j)
        end
  end.

(** The user stops the turn. *)
Definition cancelActiveDurableRun (j : Journal) : Journal :=
  if terminal (jn_state j) then j
  else
    let found := ambiguous None (jn_steps j) in
    let rows := map (λ row,
      if bool_decide (st_state row ∈ unfinished_states)
      then set_state (if bool_decide ((st_id <$> found) = Some (st_id row)) then RecoveryRequired else Cancelled) row
      else row) (jn_steps j) in
    enter (match found with Some _ => RecoveryRun | None => CancelledRun end) true None rows
      ((λ row, (st_id row, toolCallIdForStep row)) <$> found) None None (jn_error j)
      (set_questions (map close_question (jn_questions j)) (set_approvals (expire_approvals (jn_approvals j)) j)).

Inductive RecoveryAction := RetryTool | MarkComplete | CancelRecovery.

Definition CONFIRMATION : json :=
  JObj [(js "confirmedByOperator", JBool true); (js "summary", JStr (js "Operator confirmed that the external tool completed."))].

(** What a person decides of a call whose outcome is not known. *)
Definition recover (action : RecoveryAction) (newId : jstr) (j : Journal) : Journal :=
  if negb (bool_decide (jn_state j = RecoveryRun)) then j
  else
    match action with
    | CancelRecovery =>
        {| jn_id := jn_id j; jn_tenantId := jn_tenantId j; jn_state := CancelledRun; jn_version := jn_version j; jn_cancelled := true;
           jn_lease := jn_lease j; jn_generation := jn_generation j; jn_runtimeRequest := jn_runtimeRequest j; jn_sandboxId := jn_sandboxId j;
           jn_progress := jn_progress j; jn_steps := jn_steps j; jn_approvals := jn_approvals j; jn_questions := jn_questions j;
           jn_recovery := None; jn_waitingReason := jn_waitingReason j; jn_nextAction := jn_nextAction j; jn_error := jn_error j |}
    | _ =>
        match jn_recovery j with
        | None => j
        | Some (stepId, _) =>
            match action with
            | MarkComplete =>
                match complete_step stepId CONFIRMATION (next_model_call newId [(js "operatorRecovery", JStr (js "mark-complete"))] j) (jn_steps j) with
                | None => j
                | Some rows =>
                    enter CallingModel false (jn_lease j) rows None (jn_waitingReason j)
                      (Some (js "Continue after operator-confirmed tool completion")) None j
                end
            | _ =>
                enter ExecutingTool false (jn_lease j)
                  (update_row stepId (λ row, if is_state RecoveryRequired row then set_error None (set_state Pending row) else row) (jn_steps j))
                  None (jn_waitingReason j) (Some (js "Retry tool after explicit operator confirmation")) None j
            end
        end
    end.
