(* ===== verification/TurnPhases.v ===== *)
(** * The other phases of a turn

    apps/worker/src/turn-runner.ts: [DurableTurnRunner] while it assembles the context,
    calls the model, compacts and finalizes, and [execute], which dispatches on the
    state of the claimed run. As in TurnRunner the trace of a run is what the runner does
    to its surroundings; what the model, the tools and the compactor answer is a function
    of the trace.

    Left out: the stream of the answer, usage and the events of provider attempts, alerts,
    the diagnostics stored with the call of the model, the entries of messages and contexts
    but for their ids. Estimates of tokens and costs, the contexts to write, and the
    recognition of environment checks are arguments. A progress of some members is
    completed with those of the snapshot, which are what the commit leaves. *)

From S2P Require Import Prelude JsMap JsString Double CutPoint ToolArguments Json RegExp ExecPolicy ProviderErrors ToolFailures Prompts TurnSteps TurnCalls TurnRunner.
From Stdlib Require Import Lia.

Set Default Goal Selector "!".

(** ** What the model answers *)

Record TurnModelToolIntent := {
  ti_id : jstr;
  ti_providerCallId : option jstr;
  ti_name : jstr;
  ti_input : json;
  ti_retryClass : ToolRetryClass;
  ti_repeatPolicy : option ToolRepeatPolicy;
  ti_idempotencyKey : option jstr;
  ti_requiresApproval : bool;
  ti_approvalKind : jstr;
  ti_invocation : option (jstr * json);
}.

(** [outputTokens] is [None] where it is not finite. *)
Record TurnModelResult := {
  mr_text : jstr;
  mr_reasoning : option jstr;
  mr_finishReason : option jstr;
  mr_providerResponseId : option jstr;
  mr_outputTokens : option Z;
  mr_toolCalls : list TurnModelToolIntent;
  mr_usage : option json;                      (* as the event it parses to *)
}.

(** Of the reports of requests to the provider, their ordinals. *)
Record ModelEnd := { ml_result : result Failure TurnModelResult; ml_reports : list (option Z) }.

Definition with_calls (calls : list TurnModelToolIntent) (text : jstr) (r : TurnModelResult) : TurnModelResult :=
  {| mr_text := text; mr_reasoning := mr_reasoning r; mr_finishReason := mr_finishReason r;
     mr_providerResponseId := mr_providerResponseId r; mr_outputTokens := mr_outputTokens r; mr_toolCalls := calls;
     mr_usage := mr_usage r |}.

(** ** Settings *)

Record PhaseOptions := {
  ph_maxModelIterations : option Z;
  ph_maxTurnDurationMs : option Z;
  ph_maxActiveComputeMs : option Z;
  ph_maxModelAttempts : option Z;
  ph_modelIdleTimeoutMs : option Z;
  ph_contextWindowTokens : option Z;
  ph_compactor : bool;
}.

Definition DEFAULT_ACTIVE_COMPUTE_MS : Z := 2 * 60 * 60000.
Definition MODEL_CONTEXT_SAFETY_TOKENS : Z := 1024.
Definition USE_TOOL_NAME : jstr := js "use_tool".
Definition SELF_VALIDATING_TOOLS : list jstr := map js ["read"; "bash"; "edit"; "write"; "grep"; "find"; "ls"]%string.
(** 0.01 *)
Definition d_0_01 : double := {| d_mant := 5764607523034235; d_scale := 59 |}.

(** ** Steps *)

Definition latestStep (steps : list DurableTurnStep) (type : string) : option DurableTurnStep :=
  find_first (λ step, bool_decide (st_type step = js type)) (reverse steps).

Definition numberValue (v : option json) : option Z := match v with Some (JNum z) => Some z | _ => None end.

(** A new step of the runner. *)
Definition new_step (id : jstr) (sequence : Z) (type : jstr) (state : StepState) (input output : json)
    (retryClass : option ToolRetryClass) (key : option jstr) : DurableTurnStep :=
  {| st_id := id; st_sequence := sequence; st_type := type; st_state := state; st_input := input; st_output := output;
     st_retryClass := retryClass; st_idempotencyKey := key; st_attempt := 0; st_error := None; st_resultFingerprint := None;
     st_deadlineAt := None; st_idleDeadlineAt := None; st_timedOut := false; st_abortAcknowledged := false;
     st_outcomeCertainty := None; st_startedAt := None |}.

Definition set_startedAt (v : Z) (s : DurableTurnStep) : DurableTurnStep :=
  {| st_id := st_id s; st_sequence := st_sequence s; st_type := st_type s; st_state := st_state s; st_input := st_input s;
     st_output := st_output s; st_retryClass := st_retryClass s; st_idempotencyKey := st_idempotencyKey s; st_attempt := st_attempt s;
     st_error := st_error s; st_resultFingerprint := st_resultFingerprint s; st_deadlineAt := st_deadlineAt s;
     st_idleDeadlineAt := st_idleDeadlineAt s; st_timedOut := st_timedOut s; st_abortAcknowledged := st_abortAcknowledged s;
     st_outcomeCertainty := st_outcomeCertainty s; st_startedAt := Some v |}.

(** A call of the model to come, with a member and a suffix of its key. *)
Definition model_step (snapshot : DurableTurnSnapshot) (id : jstr) (sequence : Z) (members : list (jstr * json)) (suffix : jstr) : DurableTurnStep :=
  let iteration := (modelIteration (sn_steps snapshot) + 1)%Z in
  new_step id sequence (js "model.call") Pending (JObj ((js "iteration", JNum iteration) :: members)) JNull (Some IdempotentWithKey)
    (Some (sn_id snapshot ++ js ":model:" ++ dec iteration ++ suffix)).

(** ** Progress *)

(** [reconcileModelCallProgress]; the ordinals that are not positive numbers are [None]. *)
Definition reconcileModelCallProgress (baseline : DurableTurnProgress) (reports : list (option Z)) (elapsedMs : Z) : DurableTurnProgress :=
  let highest := foldr (λ r h, match r with Some n => if (0 <? n)%Z then Z.max n h else h | None => h end) 0%Z reports in
  let physicalAttempts := Z.max (Z.max 1 (Z.of_nat (length reports))) highest in
  {| pr_progressEpoch := pr_progressEpoch baseline; pr_progressKind := pr_progressKind baseline;
     pr_consecutiveNoProgress := pr_consecutiveNoProgress baseline;
     pr_physicalModelAttempt := (pr_physicalModelAttempt baseline + physicalAttempts)%Z;
     pr_logicalModelIteration := pr_logicalModelIteration baseline; pr_toolRepairAttempts := pr_toolRepairAttempts baseline;
     pr_cumulativeToolMs := pr_cumulativeToolMs baseline;
     pr_cumulativeActiveComputeMs := (pr_cumulativeActiveComputeMs baseline + Z.max 0 elapsedMs)%Z; pr_budgetReason := pr_budgetReason baseline |}.

Definition with_iteration (attempts iteration : Z) (p : DurableTurnProgress) : DurableTurnProgress :=
  {| pr_progressEpoch := pr_progressEpoch p; pr_progressKind := pr_progressKind p; pr_consecutiveNoProgress := pr_consecutiveNoProgress p;
     pr_physicalModelAttempt := (pr_physicalModelAttempt p + attempts)%Z; pr_logicalModelIteration := iteration;
     pr_toolRepairAttempts := pr_toolRepairAttempts p; pr_cumulativeToolMs := pr_cumulativeToolMs p;
     pr_cumulativeActiveComputeMs := pr_cumulativeActiveComputeMs p; pr_budgetReason := pr_budgetReason p |}.

(** ** The context window *)

Definition completedCompactionForCurrentTail (snapshot : DurableTurnSnapshot) : option DurableTurnStep :=
  let tailEntryId := default (js "empty") (last (sn_entries snapshot)) in
  let idempotencyKey := sn_id snapshot ++ js ":compact:" ++ tailEntryId in
  find_first (λ step, bool_decide (st_type step = js "session.compact") && is_state Completed step
                      && bool_decide (st_idempotencyKey step = Some idempotencyKey)) (reverse (sn_steps snapshot)).

Definition modelContextWindow (snapshot : DurableTurnSnapshot) (options : PhaseOptions) : Z :=
  nullish (numberValue (member (js "contextWindowTokens") (sn_runtimeRequest snapshot))) (nullish (ph_contextWindowTokens options) 128000%Z).

Definition safety_tokens (contextWindow : Z) : Z := Z.min MODEL_CONTEXT_SAFETY_TOKENS (Z.max 1 (dfloor (times contextWindow d_0_01))).

Definition shouldCompactSnapshot (snapshot : DurableTurnSnapshot) (options : PhaseOptions) (estimatedTokens : Z) : bool :=
  let contextWindow := modelContextWindow snapshot options in
  let completedCompaction := completedCompactionForCurrentTail snapshot in
  let compactedTokensAfter := match numberValue (step ← completedCompaction; field "tokensAfter" (Some (st_output step))) with
                              | Some n => if (0 <=? n)%Z then Some n else None
                              | None => None
                              end in
  let reserveThreshold := Z.max 1 (Z.min (contextWindow - cs_reserveTokens DEFAULT_COMPACTION_SETTINGS)
                                     (dfloor (times contextWindow (cs_triggerRatio DEFAULT_COMPACTION_SETTINGS)))) in
  if match compactedTokensAfter with Some n => (n <=? reserveThreshold)%Z | None => false end
     && (estimatedTokens + safety_tokens contextWindow <? contextWindow)%Z
  then false
  else shouldCompact estimatedTokens contextWindow DEFAULT_COMPACTION_SETTINGS.

Definition contextAwareMaxOutputTokens (snapshot : DurableTurnSnapshot) (options : PhaseOptions) (estimatedInputTokens : Z) : Z :=
  let contextWindow := modelContextWindow snapshot options in
  let requestedMaxOutputTokens := Z.max 1 (nullish (numberValue (member (js "maxTokens") (sn_runtimeRequest snapshot))) 8000%Z) in
  Z.min requestedMaxOutputTokens (Z.max 0 (contextWindow - estimatedInputTokens - safety_tokens contextWindow)).

(** ** Calls *)

Definition unwrapToolInvocation (call : TurnModelToolIntent) (policyForTool : jstr → DurableToolPolicy) (runId : jstr) : TurnModelToolIntent :=
  if negb (bool_decide (ti_name call = USE_TOOL_NAME)) then call
  else
    match stringValue (field "tool" (Some (ti_input call))) with
    | None => call
    | Some name =>
        let nested := field "arguments" (Some (ti_input call)) in
        if bool_decide (name = USE_TOOL_NAME) || match nested with None | Some JNull | Some (JObj _) => false | _ => true end then call
        else
          let policy := policyForTool name in
          {| ti_id := ti_id call; ti_providerCallId := ti_providerCallId call; ti_name := name;
             ti_input := match nested with Some (JObj members) => JObj members | _ => JObj [] end;
             ti_retryClass := po_retryClass policy; ti_repeatPolicy := Some (po_repeatPolicy policy);
             ti_idempotencyKey := if bool_decide (po_retryClass policy = IdempotentWithKey)
                                  then Some (nullish (ti_idempotencyKey call) (runId ++ js ":tool:" ++ nullish (ti_providerCallId call) (ti_id call)))
                                  else None;
             ti_requiresApproval := po_requiresApproval policy; ti_approvalKind := po_approvalKind policy;
             ti_invocation := Some (ti_name call, ti_input call) |}
    end.

(** A probe of the shell that is an environment check runs as one. *)
Definition as_environment_check (check : json) (call : TurnModelToolIntent) : TurnModelToolIntent :=
  {| ti_id := ti_id call; ti_providerCallId := ti_providerCallId call; ti_name := js "check_environment"; ti_input := check;
     ti_retryClass := ReadOnly; ti_repeatPolicy := Some CompareResult; ti_idempotencyKey := None; ti_requiresApproval := false;
     ti_approvalKind := ti_approvalKind call; ti_invocation := Some (nullish (ti_invocation call) (ti_name call, ti_input call)) |}.

Fixpoint duplicate_from (seen : list jstr) (calls : list TurnModelToolIntent) : option jstr :=
  match calls with
  | [] => None
  | call :: calls => if bool_decide (ti_id call ∈ seen) then Some (ti_id call) else duplicate_from (ti_id call :: seen) calls
  end.
Definition firstDuplicateToolCallId (calls : list TurnModelToolIntent) : option jstr := duplicate_from [] calls.

Section arguments.
Context `{Numbers} (number : Z → num).

Fixpoint value_of (j : json) : value :=
  match j with
  | JNull => VNull
  | JBool b => VBool b
  | JNum z => VNum (number z)
  | JStr s => VStr s
  | JArr l => VArr (map value_of l)
  | JObj l => VObj (map (λ '(k, v), (k, value_of v)) l)
  end.

(** [toolArgumentError]; the schemas of the definitions, and of the tools they do not name. *)
Definition toolArgumentError (call : TurnModelToolIntent) (declaredSchemas : list (jstr * option value)) (undeclaredSchema : jstr → option value) : option jstr :=
  let sentName := match ti_invocation call with Some (name, _) => name | None => ti_name call end in
  let sent := match ti_invocation call with Some (_, arguments) => arguments | None => ti_input call end in
  match unparsedToolArguments (Some (value_of sent)) (map_get sentName declaredSchemas ≫= id) with
  | Some raw => Some (notRunMessage sentName (invalidJsonProblem raw))
  | None =>
      if bool_decide (ti_name call ∈ SELF_VALIDATING_TOOLS) then None
      else
        match (match map_get (ti_name call) declaredSchemas ≫= id with Some schema => Some schema | None => undeclaredSchema (ti_name call) end) with
        | None => None
        | Some schema =>
            match schemaArgumentProblems (Some schema) (Some (value_of (ti_input call))) 5 with
            | [] => None
            | problems => Some (notRunMessage (ti_name call) (js "its arguments do not match the tool schema: " ++ JsString.join (js "; ") problems))
            end
        end
  end.
End arguments.

(** ** Texts *)

Definition low_first (toLowerCase : jstr → jstr) (s : jstr) : jstr := toLowerCase (take 1 s) ++ drop 1 s.

(** [formatCount]: the digits in groups of three. *)
Fixpoint grouped (n : nat) (digits : jstr) : jstr :=
  match digits with
  | [] => []
  | d :: digits => (if bool_decide (n = 3%nat) then js "," else []) ++ [d] ++ grouped (if bool_decide (n = 3%nat) then 1 else S n) digits
  end.
Definition formatCount (value : Z) : jstr := reverse (grouped 0 (reverse (dec (Z.max 0 value)))).

Definition providerLengthStopMessage (result : TurnModelResult) (requestedMaxOutputTokens : Z) : jstr :=
  let reportedOutputTokens := match mr_outputTokens result with Some n => if (0 <? n)%Z then Some n else None | None => None end in
  let reasoningCharacters := Z.of_nat (length (default [] (mr_reasoning result))) in
  let observations :=
    [match reportedOutputTokens with
     | None => js "no provider-reported output-token usage"
     | Some n => formatCount n ++ js " provider-reported output tokens"
     end]
    ++ (if (0 <? reasoningCharacters)%Z then [formatCount reasoningCharacters ++ js " streamed reasoning characters"] else [])
    ++ (if truthy (mr_text result) then [formatCount (Z.of_nat (length (mr_text result))) ++ js " streamed answer characters"] else []) in
  let diagnosis :=
    match reportedOutputTokens with
    | Some n =>
        if (n <? requestedMaxOutputTokens)%Z
        then js "The reported output is below Berry's requested limit, which indicates a lower provider-side generation cap or incorrect model metadata."
        else js "The provider-reported output reached Berry's requested limit."
    | None => js "Check the provider's actual generation cap and model metadata."
    end in
  let responseReference := match mr_providerResponseId result with
                           | Some id => if truthy id then js " Provider response ID: " ++ id ++ js "." else []
                           | None => []
                           end in
  js "The provider ended the response with finish reason " ++ q34 ++ js "length" ++ q34
  ++ js " before the model completed. Berry requested up to " ++ formatCount requestedMaxOutputTokens
  ++ js " output tokens. Observed: " ++ JsString.join (js " and ") observations ++ js ". " ++ diagnosis ++ responseReference.

(** Nearest integer of a quotient, halves upward. *)
Definition round_div (a b : Z) : Z := ((2 * a + b) / (2 * b))%Z.

Definition array (v : option json) : list json := match v with Some (JArr l) => l | _ => [] end.

(** The files that the completed calls of a run saved. *)
Definition saved_names (steps : list DurableTurnStep) : list jstr :=
  map_values (map_of_entries (omap (λ candidate,
    if is_state Completed candidate && isToolStep candidate then
      let artifact := field "artifact" (Some (st_output candidate)) in
      match stringValue (field "fileId" artifact), stringValue (field "name" artifact) with
      | Some fileId, Some name => Some (fileId, name)
      | _, _ => None
      end
    else None) steps)).

Definition modelRetryExhaustedMessage (snapshot : DurableTurnSnapshot) (step : DurableTurnStep) (idleTimeoutMs : Z) : jstr :=
  let diagnostics := field "providerDiagnostics" (Some (st_output step)) in
  let causes := omap (λ entry, stringValue (field "cause" (Some entry))) (array (field "attemptCauses" diagnostics)) in
  let lastCause := match stringValue (field "failureCause" diagnostics) with Some c => Some c | None => last causes end in
  let seconds := dec (round_div idleTimeoutMs 1000) in
  let reason :=
    if (0 <? length causes)%nat && forallb (λ cause, bool_decide (cause = js "idle_timeout")) causes
    then js "the model stopped sending output, and Berry ended "
         ++ (if (length causes =? 1)%nat then js "the attempt" else js "each of " ++ dec (Z.of_nat (length causes)) ++ js " attempts")
         ++ js " after " ++ seconds ++ js " seconds without progress (idle timeout)"
    else
      match lastCause with
      | None => []
      | Some cause =>
          if bool_decide (cause = js "idle_timeout")
          then js "the last attempt stopped sending output for " ++ seconds ++ js " seconds (idle timeout)"
          else if bool_decide (cause = js "max_duration") then js "the last attempt exceeded the maximum model request duration"
          else if bool_decide (cause = js "unknown") then []
          else js "the last attempt failed with a " ++ map (λ c, if (c =? 95)%N then 32%N else c) cause ++ js " error"
      end in
  let saved := saved_names (sn_steps snapshot) in
  JsString.join (js " ")
    ([js "Model request failed after " ++ dec (st_attempt step) ++ js " attempts" ++ (if truthy reason then js ": " ++ reason else []) ++ js "."]
     ++ (if (0 <? length saved)%nat
         then [js "Work saved before the failure is kept: " ++ JsString.join (js ", ") (take 8 saved)
               ++ (if (8 <? length saved)%nat then js " and " ++ dec (Z.of_nat (length saved) - 8) ++ js " more" else []) ++ js "."]
         else [])
     ++ [js "Use Continue to resume from what is already saved."]).

Definition finalAnswerFallback (toLowerCase : jstr → jstr) (reason : jstr) : jstr :=
  js "I stopped working on this because " ++ low_first toLowerCase reason ++ [10%N; 10%N]
  ++ js "Tell me how you would like to continue, or correct the input and ask again.".

Definition failedPublication (result : TurnToolResult) : bool :=
  bool_decide (field "publication" (Some (tr_output result)) = Some (JStr (js "failed"))).

Definition publicationRepairInstruction (unpublished : list TurnToolResult) : jstr :=
  let line result :=
    let output := Some (tr_output result) in
    js "- " ++ default (js "file") (stringValue (field "name" output)) ++ js " (" ++ default (js "unknown path") (stringValue (field "path" output))
    ++ js "): " ++ default (js "publication failed") (stringValue (field "reason" output)) in
  JsString.join [10%N]
    ([js "Berry could not publish these output files after your answer:"] ++ map line unpublished
     ++ [js "Your answer is saved and any other files were published. For each file the user still needs, publish it with persist_artifact using its path; if it is missing or broken, recreate it first. If it cannot be published, tell the user which file was not delivered. Do not say a file was delivered unless it was published."]).

Definition PROVIDER_CREDIT_EXHAUSTED_MESSAGE : jstr :=
  js "The AI provider is out of credit, so Berry can't respond right now. Please contact support or your administrator. Trying again or choosing another model from the same provider won't help until credit is added.".

Definition publicProviderFailureMessage (failure : ProviderRetryClassification) : jstr :=
  if bool_decide (status failure = Some 413%Z)
  then js "The model request exceeded the provider's payload size limit (HTTP 413). Reduce the image sizes or number of images, or shorten the conversation before retrying."
  else if bool_decide (status failure = Some 402%Z) then PROVIDER_CREDIT_EXHAUSTED_MESSAGE
  else
    let base := match category failure with
                | Aborted => js "The model provider request was aborted"
                | Connection => js "Berry could not connect to the model provider"
                | PermanentClient => js "The model provider rejected the request"
                | RateLimit => js "The model provider rate-limited the request"
                | Server => js "The model provider returned a server error"
                | Timeout => js "The model provider request timed out"
                | Success | UnknownFailure => js "The model provider request failed"
                end in
    base ++ (match status failure with None => [] | Some s => js " (HTTP " ++ dec s ++ js ")" end) ++ js "."
    ++ (if retryable failure then js " Berry will retry it." else js " Check the selected model and provider configuration before retrying.").

(** ** The runner *)

Section phases.
Context `{Numbers} (number : Z → num).

(** The answers of the surroundings of these phases. *)
Record ModelEnvironment := {
  me_checkpointPresent : bool;
  me_groundingPresent : bool;
  me_createdAt : Z;
  me_humanWaitMs : Z;
  me_waitingStartedAt : option Z;
  me_prepare : list Effect → list jstr → result Failure (list (jstr * option value));  (* the tools of the request *)
  me_contextTokens : list Effect → DurableTurnSnapshot → Z;                            (* estimates *)
  me_uncompactedTokens : DurableTurnSnapshot → Z;
  me_cost : DurableTurnSnapshot → Z → Z → jstr;
  me_context : list Effect → result Failure (list jstr);                               (* ids of contexts to journal *)
  me_append : list Effect → list TurnEvent → option Failure;                           (* [appendEvents] *)
  me_call : list Effect → DurableTurnStep → Z → ModelEnd;                              (* under its deadlines *)
  me_retained : list Effect → result Failure bool;                                     (* [heartbeat] *)
  me_policy : jstr → jstr → option DurableToolPolicy;
  me_environmentCheck : json → option json;
  me_argumentSchema : jstr → option value;
  me_compact : list Effect → result Failure json;
  me_finalize : list Effect → result Failure (list TurnToolResult);
  me_providerError : Failure → bool;                                                   (* [instanceof ProviderAttemptError] *)
  me_compactionError : Failure → bool;                                                 (* [instanceof CompactionRetryableError] *)
}.

Context (locale_le : jstr → jstr → bool) (sha256 toLowerCase toUpperCase : jstr → jstr) (sandbox_cwd : option jstr).
Context (options : Options) (phases : PhaseOptions) (env : Environment) (me : ModelEnvironment).

Abbreviation RM := (M World Failure).

(** [snapshot.entries] gets more entries. *)
Definition push_entries (ids : list jstr) : RM unit :=
  modify (λ w,
    let sn := w_snapshot w in
    {| w_trace := w_trace w;
       w_snapshot := {| sn_id := sn_id sn; sn_tenantId := sn_tenantId sn; sn_state := sn_state sn; sn_version := sn_version sn;
                        sn_cancelled := sn_cancelled sn; sn_runtimeRequest := sn_runtimeRequest sn; sn_sandboxId := sn_sandboxId sn;
                        sn_progress := sn_progress sn; sn_steps := sn_steps sn;
                        sn_entries := sn_entries sn ++ List.filter (λ id, negb (bool_decide (id ∈ sn_entries sn))) ids;
                        sn_approvals := sn_approvals sn |};
       w_ticks := w_ticks w; w_uuids := w_uuids w |}).

Definition ask {A} (answer : list Effect → result Failure A) : RM A := let! trace := gets w_trace in lift (answer trace).
Definition append_events (events : list TurnEvent) : RM unit :=
  let! trace := gets w_trace in match me_append me trace events with None => emit (Appended events) | Some f => throw f end.

(** The events of the requests to the provider behind an answer, or behind a failure. *)
Definition attempt_events (reports : list (option Z)) : list TurnEvent :=
  match reports with [] => [ProviderAttemptEvent None] | _ => map (λ r, ProviderAttemptEvent (Some r)) reports end.
Definition usage_events (result : TurnModelResult) : list TurnEvent :=
  match mr_usage result with Some u => [UsageEvent u] | None => [] end.
Definition end_events (messageId : jstr) (reports : list (option Z)) (result : TurnModelResult) : list TurnEvent :=
  MessageEndEvent messageId :: attempt_events reports ++ usage_events result.

(** A mutation of these phases. *)
Definition phase_mutation (expected next : TurnRunState) (steps : list DurableStepMutation) (nextAction : option jstr) : DurableTurnMutation :=
  {| m_expectedState := expected; m_nextState := next; m_steps := steps; m_events := []; m_entries := []; m_results := [];
     m_approval := None; m_question := None; m_assistant := None; m_terminalAssistant := None; m_sandbox := None;
     m_nextAction := nextAction; m_waitingReason := None; m_error := None; m_taskStatus := None; m_outbox := [];
     m_keepLease := false; m_progress := None; m_recoveryReference := None |}.

(** A commit within a phase: the worker keeps the lease. *)
Definition kept_mutation (state : TurnRunState) (steps : list DurableStepMutation) (nextAction : option jstr) (progress : option DurableTurnProgress) : DurableTurnMutation :=
  {| m_expectedState := state; m_nextState := state; m_steps := steps; m_events := []; m_entries := []; m_results := [];
     m_approval := None; m_question := None; m_assistant := None; m_terminalAssistant := None; m_sandbox := None;
     m_nextAction := nextAction; m_waitingReason := None; m_error := None; m_taskStatus := None; m_outbox := [];
     m_keepLease := true; m_progress := progress; m_recoveryReference := None |}.

Definition with_answer (answer : AssistantMessage) (m : DurableTurnMutation) : DurableTurnMutation :=
  {| m_expectedState := m_expectedState m; m_nextState := m_nextState m; m_steps := m_steps m; m_events := m_events m;
     m_entries := m_entries m; m_results := m_results m; m_approval := m_approval m; m_question := m_question m; m_assistant := Some answer;
     m_terminalAssistant := m_terminalAssistant m; m_sandbox := m_sandbox m; m_nextAction := m_nextAction m;
     m_waitingReason := m_waitingReason m; m_error := m_error m; m_taskStatus := m_taskStatus m; m_outbox := m_outbox m;
     m_keepLease := m_keepLease m; m_progress := m_progress m; m_recoveryReference := m_recoveryReference m |}.

Definition with_phase_progress (progress : DurableTurnProgress) (m : DurableTurnMutation) : DurableTurnMutation :=
  {| m_expectedState := m_expectedState m; m_nextState := m_nextState m; m_steps := m_steps m; m_events := m_events m;
     m_entries := m_entries m; m_results := m_results m; m_approval := m_approval m; m_question := m_question m; m_assistant := m_assistant m;
     m_terminalAssistant := m_terminalAssistant m; m_sandbox := m_sandbox m; m_nextAction := m_nextAction m;
     m_waitingReason := m_waitingReason m; m_error := m_error m; m_taskStatus := m_taskStatus m; m_outbox := m_outbox m;
     m_keepLease := m_keepLease m; m_progress := Some progress; m_recoveryReference := m_recoveryReference m |}.

Definition with_results (events : list TurnEvent) (results : list ToolResultMessage) (taskStatus : option jstr) (outbox : list OutboxItem)
    (m : DurableTurnMutation) : DurableTurnMutation :=
  {| m_expectedState := m_expectedState m; m_nextState := m_nextState m; m_steps := m_steps m; m_events := events;
     m_entries := m_entries m; m_results := results; m_approval := m_approval m; m_question := m_question m; m_assistant := m_assistant m;
     m_terminalAssistant := m_terminalAssistant m; m_sandbox := m_sandbox m; m_nextAction := m_nextAction m;
     m_waitingReason := m_waitingReason m; m_error := m_error m; m_taskStatus := taskStatus; m_outbox := outbox;
     m_keepLease := m_keepLease m; m_progress := m_progress m; m_recoveryReference := m_recoveryReference m |}.

(** *** Assembling *)

Definition assemble : RM unit :=
  let! snapshot := gets w_snapshot in
  let sequence := nextStepSequence (sn_steps snapshot) in
  let! stepId := randomUUID env in
  let! callId := randomUUID env in
  commitAndWake env snapshot
    (with_results [] [] (Some (js "running")) []
      (phase_mutation (sn_state snapshot) CallingModel
        [plain (new_step stepId sequence (js "context.assemble") Completed
                  (JObj [(js "checkpointPresent", JBool (me_checkpointPresent me)); (js "groundingPresent", JBool (me_groundingPresent me))])
                  (JObj [(js "assembled", JBool true)]) None None);
         plain (model_step snapshot callId (sequence + 1) [] [])]
        (Some (js "Call the configured model")))).

(** *** Calling the model *)

Definition DURATION_LIMIT : Z := 2 * 60 * 60 * 1000.

(** Why no request is sent, by the limits of the run at a time. *)
Definition model_limit (snapshot : DurableTurnSnapshot) (step : DurableTurnStep) (t : Z) : option jstr :=
  let maxModelIterations := Z.max 1 (nullish (ph_maxModelIterations phases) 200%Z) in
  let maxTurnDurationMs := Z.max 60000 (nullish (ph_maxTurnDurationMs phases) DURATION_LIMIT) in
  let waitingMs := (me_humanWaitMs me + match me_waitingStartedAt me with
                                        | Some s => if bool_decide (sn_state snapshot = WaitingRun) then Z.max 0 (t - s) else 0
                                        | None => 0
                                        end)%Z in
  let maxModelAttempts := Z.max 1 (nullish (ph_maxModelAttempts phases) 3%Z) in
  if (maxModelIterations <? modelIteration (sn_steps snapshot))%Z
  then Some (js "The task exceeded the " ++ dec maxModelIterations
             ++ js "-step model safety limit. Click the Continue/Play button in the bottom-right corner if you want Berry to continue from the latest saved progress.")
  else if (maxTurnDurationMs <? t - me_createdAt me - waitingMs)%Z
  then Some (js "The task exceeded the " ++ dec (round_div maxTurnDurationMs 60000)
             ++ js "-minute execution safety limit. Berry stopped it to prevent an abandoned or looping task from blocking other work.")
  else if (Z.max 60000 (nullish (ph_maxActiveComputeMs phases) DEFAULT_ACTIVE_COMPUTE_MS) <=? pr_cumulativeActiveComputeMs (progressState snapshot))%Z
  then Some (js "The task exceeded its active-compute budget. Berry stopped it before starting another model request.")
  else if (maxModelAttempts <=? st_attempt step)%Z
  then Some (modelRetryExhaustedMessage snapshot step (nullish (ph_modelIdleTimeoutMs phases) 240000%Z))
  else None.

(** The files that completed steps staged. *)
Definition stagedArtifactFileIds (steps : list DurableTurnStep) : list jstr :=
  fold_left (λ ids id, set_add id ids)
    (flat_map (λ candidate,
       if is_state Completed candidate
       then omap (λ artifact, stringValue (field "fileId" (Some artifact))) (array (field "artifacts" (Some (st_output candidate))))
       else []) steps) [].

Definition reserveNextModelCall (costMicros : jstr) : RM (option BudgetReservationDecision) :=
  let! trace := gets w_trace in
  match e_reserve env trace costMicros with
  | None => mret None
  | Some answer => do! emit (Reserved costMicros) in let! d := lift answer in mret (Some d)
  end.

Definition SPEND_LIMIT : jstr := js "Your spend limit has been reached.".
Definition RESERVATION_INACTIVE : jstr := js "The budget reservation for this turn is no longer active.".

Definition finishForBudget (reason : jstr) : RM unit :=
  let! snapshot := gets w_snapshot in
  let! messageId := randomUUID env in
  commit env (with_answer {| aa_id := messageId;
                             aa_text := js "I stopped because " ++ low_first toLowerCase reason ++ js " Increase the applicable allowance, then continue this task.";
                             aa_reasoning := None; aa_toolCalls := [] |}
    (with_results [TurnEnd (sn_id snapshot) (js "completed")] [] (Some (js "completed"))
       (if_sandbox snapshot (sandbox_snapshot snapshot (js "budget") (js "before-finalize")))
       (phase_mutation (sn_state snapshot) CompletedRun
          (map (λ step, plain (set_error (Some (js "budget_exceeded")) (set_state Cancelled step))) (List.filter isUnfinishedStep (sn_steps snapshot))) None))).

Definition journalContext : RM unit :=
  let! entries := ask (me_context me) in
  if (length entries =? 0)%nat then mret tt
  else do! commit env (kept_mutation CallingModel [] None None) in push_entries entries.

Definition permission_mode (snapshot : DurableTurnSnapshot) : jstr :=
  default (js "ask") (stringValue (member (js "permissionMode") (sn_runtimeRequest snapshot))).

Definition policy_for (snapshot : DurableTurnSnapshot) (name : jstr) : DurableToolPolicy :=
  nullish (me_policy me name (permission_mode snapshot)) (durableToolPolicy name (permission_mode snapshot)).

(** The calls of an answer as they run. *)
Definition run_as (snapshot : DurableTurnSnapshot) (definitions : list (jstr * option value)) (call : TurnModelToolIntent) : TurnModelToolIntent :=
  let unwrapped := unwrapToolInvocation call (policy_for snapshot) (sn_id snapshot) in
  if bool_decide (ti_name unwrapped = js "bash") && existsb (λ d, bool_decide (d.1 = js "check_environment")) definitions
  then match me_environmentCheck me (ti_input unwrapped) with Some check => as_environment_check check unwrapped | None => unwrapped end
  else unwrapped.

(** The step of a call. *)
Definition tool_step (call : TurnModelToolIntent) (argumentError : option jstr) (id : jstr) (sequence : Z) : DurableTurnStep :=
  new_step id sequence (js "tool." ++ ti_name call) Pending
    (JObj ([(js "toolCallId", JStr (ti_id call)); (js "toolName", JStr (ti_name call)); (js "arguments", ti_input call)]
       ++ match ti_repeatPolicy call with Some p => [(js "repeatPolicy", JStr (policy_text p))] | None => [] end
       ++ [(js "requiresApproval", JBool (ti_requiresApproval call)); (js "approvalKind", JStr (ti_approvalKind call))]
       ++ match ti_invocation call with Some (name, _) => [(js "invokedAs", JStr name)] | None => [] end
       ++ match argumentError with Some e => if truthy e then [(js "argumentError", JStr e)] else [] | None => [] end))
    JNull (Some (ti_retryClass call)) (ti_idempotencyKey call).

(** What is stored of an answer. *)
Definition answer_output (messageId text : jstr) (result : TurnModelResult) (finishReason : json) (rest : list (jstr * json)) : json :=
  JObj ([(js "messageId", JStr messageId); (js "text", JStr text);
         (js "toolCallIds", JArr (map (λ call, JStr (ti_id call)) (mr_toolCalls result))); (js "finishReason", finishReason)]
    ++ match mr_providerResponseId result with
       | Some id => if truthy id then [(js "providerResponseId", JStr id)] else []
       | None => []
       end ++ rest).

Definition EMPTY_TWICE : jstr := js "The model returned an empty response twice. Berry stopped the run instead of incorrectly marking it complete. Retry the task or select another configured model.".
Definition CONTENT_FILTER : jstr := js "The provider stopped the response because its content filter was triggered.".

Definition finish_reason (result : TurnModelResult) : json := match mr_finishReason result with Some r => JStr r | None => JNull end.

(** An answer without text and calls: the model is asked once more. *)
Definition emptyResponse (step : DurableTurnStep) (messageId : jstr) (reports : list (option Z)) (result : TurnModelResult) (progress : DurableTurnProgress) : RM TurnRunState :=
  let! snapshot := gets w_snapshot in
  let emptyOutput := JObj ([(js "messageId", JStr messageId); (js "text", JStr []); (js "toolCallIds", JArr []); (js "emptyResponse", JBool true);
                            (js "finishReason", finish_reason result)]
                           ++ match mr_providerResponseId result with
                              | Some id => if truthy id then [(js "providerResponseId", JStr id)] else []
                              | None => []
                              end
                           ++ [(js "reasoningCharacters", JNum (Z.of_nat (length (default [] (mr_reasoning result)))))]) in
  if bool_decide (field "recoveryReason" (Some (st_input step)) = Some (JStr (js "empty_response")))
  then do! update_step (set_output emptyOutput step) in
       do! append_events (end_events messageId reports result) in throw (TerminalError EMPTY_TWICE)
  else
    let! id := randomUUID env in
    do! commitAndWake env snapshot
      (with_results (end_events messageId reports result) [] None []
        (with_phase_progress (with_iteration 0 (modelIteration (sn_steps snapshot)) progress)
          (phase_mutation CallingModel CallingModel
            [plain (set_output emptyOutput (set_state Completed step));
             plain (model_step snapshot id (nextStepSequence (sn_steps snapshot)) [(js "recoveryReason", JStr (js "empty_response"))] (js ":empty-response-recovery"))]
            (Some (js "Retry the model once because it returned no text or tool call"))))) in
    mret CallingModel.

(** The text of a final answer, which was not streamed. *)
Definition withheld_text (step : DurableTurnStep) (messageId : jstr) (result : TurnModelResult) : list TurnEvent :=
  match stringValue (field "wrapUp" (Some (st_input step))) with
  | Some _ => [MessageDeltaEvent messageId (mr_text result)]
  | None => []
  end.

(** An answer is stored, with a step for each call. *)
Definition acceptResponse (step : DurableTurnStep) (definitions : list (jstr * option value)) (messageId : jstr) (reports : list (option Z)) (result : TurnModelResult)
    (progress : DurableTurnProgress) : RM TurnRunState :=
  let! snapshot := gets w_snapshot in
  let nextSequence := nextStepSequence (sn_steps snapshot) in
  let schemas := map_of_entries definitions in
  let! calls := randomUUIDs env (mr_toolCalls result) in
  let toolSteps := imap (λ index '(call, id),
    tool_step call (toolArgumentError number call schemas (me_argumentSchema me)) id (nextSequence + Z.of_nat index)) calls in
  let next := if (0 <? length toolSteps)%nat then ExecutingTool else Finalizing in
  do! commitAndWake env snapshot
    (with_answer {| aa_id := messageId; aa_text := mr_text result;
                    aa_reasoning := match mr_reasoning result with Some r => if truthy r then Some r else None | None => None end;
                    aa_toolCalls := map (λ call, (ti_id call, ti_name call, ti_input call)) (mr_toolCalls result) |}
      (with_results (withheld_text step messageId result ++ end_events messageId reports result) [] None []
      (with_phase_progress (with_iteration 0 (modelIteration (sn_steps snapshot)) progress)
        (phase_mutation CallingModel next
          ({| mu_step := set_output (answer_output messageId (mr_text result) result (finish_reason result) []) (set_state Completed step);
              mu_incrementAttempt := false; mu_sessionEntryId := Some messageId; mu_cancellationAcknowledged := false; mu_repeat := None |}
           :: map plain toolSteps)
          (Some (if (0 <? length toolSteps)%nat then js "Execute the next durable tool step" else js "Finalize the turn")))))) in
  mret next.

Definition DUPLICATE_ID : jstr := js "The provider returned duplicate tool-call id ".
Definition LOST_AFTER_MODEL : jstr := js "Turn lease was lost after the model request".

(** What becomes of an answer. *)
Definition handleResponse (step : DurableTurnStep) (definitions : list (jstr * option value)) (effectiveMaxTokens : Z) (messageId : jstr)
    (reports : list (option Z)) (result : TurnModelResult) (progress : DurableTurnProgress) : RM TurnRunState :=
  let! snapshot := gets w_snapshot in
  let result := with_calls (map (run_as snapshot definitions) (mr_toolCalls result)) (mr_text result) result in
  let! retained := ask (me_retained me) in
  if negb retained then throw (RetryableError LOST_AFTER_MODEL)
  else
    match (match firstDuplicateToolCallId (mr_toolCalls result) with Some id => if truthy id then Some id else None | None => None end) with
    | Some id => throw (TerminalError (DUPLICATE_ID ++ id ++ js "."))
    | None =>
        let normalizedFinishReason := toLowerCase <$> mr_finishReason result in
        let wrapUpReason := stringValue (field "wrapUp" (Some (st_input step))) in
        if bool_decide (normalizedFinishReason = Some (js "length")) || bool_decide (normalizedFinishReason = Some (js "max_tokens"))
        then
          do! update_step (set_output (answer_output messageId (mr_text result) result (finish_reason result)
            [(js "outputTokens", match mr_outputTokens result with Some n => JNum n | None => JNull end);
             (js "requestedMaxOutputTokens", JNum effectiveMaxTokens);
             (js "reasoningCharacters", JNum (Z.of_nat (length (default [] (mr_reasoning result)))))]) step) in
          do! append_events (attempt_events reports ++ usage_events result) in
          throw (TerminalError (providerLengthStopMessage result effectiveMaxTokens))
        else if bool_decide (normalizedFinishReason = Some (js "content_filter"))
        then
          do! update_step (set_output (answer_output messageId (mr_text result) result (finish_reason result) []) step) in
          do! append_events (end_events messageId reports result) in throw (TerminalError CONTENT_FILTER)
        else
          let blank := negb (truthy (trim (mr_text result))) in
          let result := match wrapUpReason with
                        | Some reason => if (0 <? length (mr_toolCalls result))%nat || blank
                                         then with_calls [] (finalAnswerFallback toLowerCase reason) result else result
                        | None => result
                        end in
          if negb (truthy (trim (mr_text result))) && (length (mr_toolCalls result) =? 0)%nat
          then emptyResponse step messageId reports result progress
          else acceptResponse step definitions messageId reports result progress
    end.

Definition model_cancelled (f : Failure) : bool := match f with CancellationError => true | _ => false end.

(** The request is sent, marked as running before. *)
Definition requestModel (step : DurableTurnStep) (definitions : list (jstr * option value)) (effectiveMaxTokens : Z) : RM TurnRunState :=
  let! snapshot := gets w_snapshot in
  let modelProgress := progressState snapshot in
  let iteration := modelIteration (sn_steps snapshot) in
  do! journalContext in
  let! messageId := randomUUID env in
  let! modelStartedAt := now env in
  let running := set_startedAt modelStartedAt (set_output (JObj [(js "streamMessageId", JStr messageId)]) (set_state Running step)) in
  do! commit env (kept_mutation CallingModel [starting running] (Some (js "Model request in progress")) (Some (with_iteration 1 iteration modelProgress))) in
  do! append_events [MessageStartEvent messageId] in
  let! trace := gets w_trace in
  do! emit (ModelCalled running) in
  let o := me_call me trace step effectiveMaxTokens in
  let! endedAt := now env in
  let progress := with_iteration 0 iteration (reconcileModelCallProgress modelProgress (ml_reports o) (endedAt - modelStartedAt)) in
  match ml_result o with
  | Err f =>
      do! catch (append_events (attempt_events (ml_reports o))) (λ _, mret tt) in
      do! (if model_cancelled f then mret tt
           else commit env (kept_mutation CallingModel [] (Some (js "Release the failed model request for retry or terminal handling")) (Some progress))) in
      throw f
  | Ok result =>
      do! commit env (kept_mutation CallingModel [] (Some (js "Validate and persist the completed model response")) (Some progress)) in
      handleResponse step definitions effectiveMaxTokens messageId (ml_reports o) result progress
  end.

Definition STOPPED_BEFORE_CALL : jstr := js " Berry stopped before calling the model again; your work so far is saved. Continue the task or send a new message to start a fresh budgeted turn.".

(** A request needs a reservation of its cost. *)
Definition reserveAndCall (step : DurableTurnStep) (definitions : list (jstr * option value)) (activeContextTokens effectiveMaxTokens : Z) : RM TurnRunState :=
  let! snapshot := gets w_snapshot in
  let! budget := reserveNextModelCall (me_cost me snapshot activeContextTokens effectiveMaxTokens) in
  match budget with
  | Some d =>
      if bd_allowed d then requestModel step definitions effectiveMaxTokens
      else if bool_decide (bd_code d = Some (js "reservation_inactive")) || bool_decide (bd_code d = Some (js "reservation_missing"))
      then throw (TerminalError (nullish (bd_reason d) RESERVATION_INACTIVE ++ STOPPED_BEFORE_CALL))
      else do! finishForBudget (nullish (bd_reason d) SPEND_LIMIT) in mret CompletedRun
  | None => requestModel step definitions effectiveMaxTokens
  end.

(** The context is compacted first. *)
Definition requestCompaction (step : DurableTurnStep) (activeContextTokens : Z) : RM TurnRunState :=
  let! snapshot := gets w_snapshot in
  match completedCompactionForCurrentTail snapshot with
  | Some _ => throw (TerminalError (js "Context remains above the safe model limit after compaction (" ++ dec activeContextTokens ++ js " estimated tokens)."))
  | None =>
      let! id := randomUUID env in
      do! commitAndWake env snapshot
        (phase_mutation CallingModel Compacting
          [plain (set_error None (set_state Pending step));
           plain (new_step id (nextStepSequence (sn_steps snapshot)) (js "session.compact") Pending
                    (JObj [(js "reason", JStr (js "token-threshold")); (js "estimatedUncompactedTokens", JNum (me_uncompactedTokens me snapshot))])
                    JNull (Some IdempotentWithKey) (Some (sn_id snapshot ++ js ":compact:" ++ default (js "empty") (last (sn_entries snapshot)))))]
          (Some (js "Create a portable checkpoint before the next model request"))) in
      mret Compacting
  end.

Definition callModel : RM TurnRunState :=
  let! snapshot := gets w_snapshot in
  match latestStep (sn_steps snapshot) "model.call" with
  | None => throw (TerminalError (js "calling_model has no model.call step"))
  | Some step =>
      if is_state Completed step
      then do! commitAndWake env snapshot (phase_mutation CallingModel Finalizing [] (Some (js "Finalize the already completed model turn"))) in
           mret Finalizing
      else
        let! t := now env in
        match model_limit snapshot step t with
        | Some message => throw (TerminalError message)
        | None =>
            do! commit env (kept_mutation CallingModel [plain (set_state Running step)] (Some (js "Preparing tools and files for the model request"))
                              (Some (with_iteration 0 (modelIteration (sn_steps snapshot)) (progressState snapshot)))) in
            let! definitions := ask (λ trace, me_prepare me trace (stagedArtifactFileIds (sn_steps snapshot))) in
            let! trace := gets w_trace in
            let activeContextTokens := me_contextTokens me trace snapshot in
            if ph_compactor phases && shouldCompactSnapshot snapshot phases activeContextTokens
            then requestCompaction step activeContextTokens
            else
              let effectiveMaxTokens := contextAwareMaxOutputTokens snapshot phases activeContextTokens in
              if (effectiveMaxTokens <? 1)%Z
              then throw (TerminalError (js "The estimated model input (" ++ dec activeContextTokens ++ js " tokens) leaves no output capacity in the "
                     ++ dec (modelContextWindow snapshot phases)
                     ++ js "-token context window. Compact the task or use a model with a larger context window."))
              else reserveAndCall step definitions activeContextTokens effectiveMaxTokens
        end
  end.

(** *** Compacting *)

Definition LOST_AFTER_COMPACTION : jstr := js "Turn lease was lost after compaction".

Definition compact : RM unit :=
  let! snapshot := gets w_snapshot in
  if negb (ph_compactor phases) then throw (TerminalError (js "Durable turn entered compacting without a configured compactor"))
  else
    match latestStep (sn_steps snapshot) "session.compact" with
    | None => throw (TerminalError (js "compacting has no session.compact step"))
    | Some step =>
        do! commit env (kept_mutation Compacting [starting (set_state Running step)] (Some (js "Portable checkpoint generation in progress")) None) in
        let! result := ask (me_compact me) in
        let! retained := ask (me_retained me) in
        if negb retained then throw (RetryableError LOST_AFTER_COMPACTION)
        else commitAndWake env snapshot
               (phase_mutation Compacting CallingModel [plain (set_output result (set_state Completed step))]
                  (Some (js "Resume the pending model request from the portable checkpoint")))
    end.

(** *** Finalizing *)

(** Runs of white space become one space. *)
Fixpoint one_space (after : bool) (s : jstr) : jstr :=
  match s with
  | [] => []
  | c :: s => if is_ws c then (if after then one_space true s else 32%N :: one_space true s) else c :: one_space false s
  end.

Definition publication_failed (message : jstr) : TurnToolResult :=
  {| tr_output := JObj [(js "publication", JStr (js "failed")); (js "path", JStr (js "outputs/")); (js "name", JStr (js "output files"));
                        (js "reason", JStr (cut 300 (one_space false message))); (js "workspaceUnavailable", JBool true)];
     tr_summary := js "Not published: output files"; tr_fingerprintBasis := None; tr_sandbox := None; tr_usage := None |}.

Definition publicationMessages (results : list TurnToolResult) (status : jstr) : RM (list ToolResultMessage) :=
  let! withIds := randomUUIDs env results in
  let! withCalls := randomUUIDs env withIds in
  mret (map (λ '((r, id), callId),
    {| tm_id := id; tm_toolCallId := callId; tm_name := js "persist_artifact"; tm_input := JObj []; tm_status := status;
       tm_output := Some (tr_output r); tm_summary := tr_summary r; tm_durationMs := None |}) withCalls).

Definition finalize_outbox (snapshot : DurableTurnSnapshot) : list OutboxItem :=
  [{| ox_eventType := js "memory.extract"; ox_dedupeKey := sn_id snapshot ++ js ":memory"; ox_reason := []; ox_availableAt := None |};
   {| ox_eventType := js "knowledge.index-task"; ox_dedupeKey := sn_id snapshot ++ js ":knowledge"; ox_reason := []; ox_availableAt := None |}]
  ++ if_sandbox snapshot (sandbox_snapshot snapshot (js "final") (js "before-finalize")).

Definition workspace_unavailable (result : TurnToolResult) : bool :=
  bool_decide (field "workspaceUnavailable" (Some (tr_output result)) = Some (JBool true)).

Definition finalize : RM TurnRunState :=
  let! snapshot := gets w_snapshot in
  let! finalizedArtifacts := catch (ask (me_finalize me))
    (λ f, match f with
          | CancellationError | RetryableError _ | ToolTimeout _ _ _ | TerminalError _ => throw f
          | _ => mret [publication_failed (failure_message env f)]
          end) in
  let published := List.filter (λ r, negb (failedPublication r)) finalizedArtifacts in
  let unpublished := List.filter failedPublication finalizedArtifacts in
  let repairable := List.filter (λ r, negb (workspace_unavailable r)) unpublished in
  let repairRequested := existsb (λ step, bool_decide (st_type step = js "model.call")
    && match stringValue (field "publicationRepair" (Some (st_input step))) with Some _ => true | None => false end) (sn_steps snapshot) in
  let sequence := nextStepSequence (sn_steps snapshot) in
  let outputs := JArr (map tr_output unpublished) in
  let! stepId := randomUUID env in
  if (0 <? length repairable)%nat && negb repairRequested
  then
    let! callId := randomUUID env in
    let! results := publicationMessages published (js "completed") in
    do! commitAndWake env snapshot (with_results [] results None []
      (phase_mutation (sn_state snapshot) CallingModel
        [plain (new_step stepId sequence (js "turn.finalize") Completed (JObj []) (JObj [(js "completed", JBool false); (js "unpublished", outputs)]) None None);
         plain (model_step snapshot callId (sequence + 1) [(js "publicationRepair", JStr (publicationRepairInstruction unpublished))] (js ":publication-repair"))]
        (Some (js "Ask the model to publish or report the files that could not be published")))) in
    mret CallingModel
  else
    let! done := publicationMessages published (js "completed") in
    let! failed := publicationMessages unpublished (js "failed") in
    do! commit env (with_results [TurnEnd (sn_id snapshot) (js "completed")] (done ++ failed) (Some (js "completed")) (finalize_outbox snapshot)
      (phase_mutation (sn_state snapshot) CompletedRun
        [plain (new_step stepId sequence (js "turn.finalize") Completed (JObj [])
                  (JObj ((js "completed", JBool true) :: (if (0 <? length unpublished)%nat then [(js "unpublished", outputs)] else []))) None None)] None)) in
    mret CompletedRun.

(** *** A claimed run *)

(** What a failure says, and whether the run is tried again. *)
Definition providerFailure (f : Failure) : option ProviderRetryClassification :=
  match f with
  | Thrown objects error _ => if me_providerError me f then Some (classifyProviderFailure toLowerCase toUpperCase objects error) else None
  | _ => None
  end.
Definition failureMessage (f : Failure) : jstr :=
  match providerFailure f with Some p => publicProviderFailureMessage p | None => failure_message env f end.
Definition retried (f : Failure) : bool :=
  retryable_error f || me_compactionError me f || match providerFailure f with Some p => retryable p | None => false end.

Definition dispatch : RM TurnRunState :=
  let! snapshot := gets w_snapshot in
  if sn_cancelled snapshot then do! cancelRun env in mret CancelledRun
  else
    match sn_state snapshot with
    | Queued | AssemblingContext => do! assemble in mret CallingModel
    | CallingModel => callModel
    | ExecutingTool => executeTool locale_le sha256 toLowerCase toUpperCase sandbox_cwd options env
    | Compacting => do! compact in mret CallingModel
    | Finalizing | PersistingResponse => finalize
    | state => do! emit (Released None) in mret state
    end.

Definition execute : RM TurnRunState :=
  catch dispatch (λ f, caught env (failureMessage f) (retried f) f).

End phases.
