(* ===== verification/TurnPhasesFacts.v ===== *)
(** * What the other phases of a turn commit

    Every commit that a run of [execute] tries while no tools execute: it ends calls of
    the snapshot, or adds calls that no worker has started; it asks nobody, and keeps the
    lease only to go on in the same state. A run calls tools only when tools execute. *)

From S2P Require Import Prelude JsMap JsString Double ToolArguments Json ProviderErrors ToolFailures Prompts TurnSteps TurnCalls TurnRunner TurnRunnerFacts TurnTraces TurnJournal TurnPhases.
From Stdlib Require Import Lia.

Set Default Goal Selector "!".

(** ** Computations that keep an invariant *)

(** Every snapshot satisfies [I], and every effect [Q]. *)
Section keeping.
Context (env : Environment) (I : DurableTurnSnapshot → Prop) (Q : Effect → Prop).

Definition keeping {A} (tr : list Effect) (_ : result Failure A) (tr' : list Effect) (sn' : DurableTurnSnapshot) : Prop :=
  I sn' ∧ ∃ new, tr' = tr ++ new ∧ Forall Q new.
Definition keeps {A} (sn : DurableTurnSnapshot) (m : M World Failure A) : Prop := ∀ tr, leads tr sn m (keeping tr).

Lemma keeping_refl {A} tr (r : result Failure A) sn : I sn → keeping tr r tr sn.
Proof. intros H. split; [done|]. exists []. by rewrite app_nil_r. Qed.
Lemma keeping_one {A} tr (r : result Failure A) sn e : I sn → Q e → keeping tr r (tr ++ [e]) sn.
Proof. intros H He. split; [done|]. exists [e]. split; [done|]. by apply Forall_singleton. Qed.
Lemma keeping_trans {A B} tr (r : result Failure A) tr1 sn1 (r' : result Failure B) tr2 sn2 :
  keeping tr r tr1 sn1 → keeping tr1 r' tr2 sn2 → keeping tr r' tr2 sn2.
Proof.
  intros (_ & new1 & -> & H1) (H & new2 & -> & H2). split; [done|]. exists (new1 ++ new2). rewrite app_assoc. split; [done|].
  by apply Forall_app.
Qed.

Lemma keep_bind {A B} sn (m : M World Failure A) (f : A → M World Failure B) :
  keeps sn m → (∀ a sn', I sn' → keeps sn' (f a)) → keeps sn (m ≫= f).
Proof.
  intros Hm Hf tr. apply leads_bind. eapply leads_mono; [apply Hm|]. intros [a|e] tr' sn' H; [|done].
  pose proof H as [Hi _]. eapply leads_mono; [by apply Hf|]. intros r tr2 sn2 H'. by eapply keeping_trans.
Qed.
Lemma keep_catch {A} sn (m : M World Failure A) h : keeps sn m → (∀ f sn', I sn' → keeps sn' (h f)) → keeps sn (catch m h).
Proof.
  intros Hm Hh tr. apply leads_catch. eapply leads_mono; [apply Hm|]. intros [a|f] tr' sn' H; [done|].
  pose proof H as [Hi _]. eapply leads_mono; [by apply Hh|]. intros r tr2 sn2 H'. by eapply keeping_trans.
Qed.
Lemma keep_ret {A} sn (a : A) : I sn → keeps sn (mret a).
Proof. intros H tr. walk. by apply keeping_refl. Qed.
Lemma keep_throw {A} sn f : I sn → keeps sn (throw f : M World Failure A).
Proof. intros H tr. walk. by apply keeping_refl. Qed.
Lemma keep_lift {A} sn (r : result Failure A) : I sn → keeps sn (lift r).
Proof. intros H tr. walk. by apply keeping_refl. Qed.
Lemma keep_emit sn e : I sn → Q e → keeps sn (emit e).
Proof. intros H He tr. walk. by apply keeping_one. Qed.
Lemma keep_update sn step : I (with_steps (map (λ s, if bool_decide (st_id s = st_id step) then step else s) (sn_steps sn)) sn) →
  keeps sn (update_step step).
Proof. intros H tr. walk. by apply keeping_refl. Qed.
Lemma keep_ask {A} sn (answer : list Effect → result Failure A) : I sn → keeps sn (ask answer).
Proof. intros H tr. unfold ask. walk. by apply keeping_refl. Qed.
Lemma keep_append `{Numbers} me sn events : I sn → Q (Appended events) → keeps sn (append_events me events).
Proof. intros Hi He tr. unfold append_events. walk. case_match; walk; [by apply keeping_refl|by apply keeping_one]. Qed.
Lemma keep_commit sn m : I sn → Q (Committed m) → Q (CommitFailed m) → keeps sn (commit env m).
Proof. intros H H1 H2 tr. apply leads_commit; [|intros f]; by apply keeping_one. Qed.

Lemma keep_snapshot {A} sn (f : DurableTurnSnapshot → M World Failure A) : keeps sn (f sn) → keeps sn (gets w_snapshot ≫= f).
Proof. intros H tr. walk. apply H. Qed.
Lemma keep_trace {A} sn (f : list Effect → M World Failure A) : (∀ t, keeps sn (f t)) → keeps sn (gets w_trace ≫= f).
Proof. intros H tr. walk. apply H. Qed.
Lemma keep_now {A} sn (f : Z → M World Failure A) : (∀ t, keeps sn (f t)) → keeps sn (now env ≫= f).
Proof. intros H tr. walk. apply H. Qed.
Lemma keep_uuid {A} sn (f : jstr → M World Failure A) : (∀ id, keeps sn (f id)) → keeps sn (randomUUID env ≫= f).
Proof. intros H tr. walk. apply H. Qed.
Lemma keep_uuids {A B} sn (l : list A) (f : list (A * jstr) → M World Failure B) :
  (∀ l', l'.*1 = l → keeps sn (f l')) → keeps sn (randomUUIDs env l ≫= f).
Proof. intros H tr. walk. by apply H. Qed.
Lemma keep_ask_bind {A B} sn (answer : list Effect → result Failure A) (f : A → M World Failure B) :
  I sn → (∀ a, keeps sn (f a)) → keeps sn (ask answer ≫= f).
Proof.
  intros Hi Hf tr. unfold ask. walk. destruct (answer tr); [apply Hf|by apply keeping_refl].
Qed.
Lemma keep_append_bind `{Numbers} {A} me sn events (f : unit → M World Failure A) :
  I sn → Q (Appended events) → keeps sn (f tt) → keeps sn (append_events me events ≫= f).
Proof.
  intros Hi He Hf tr. unfold append_events. walk. case_match; walk; [by apply keeping_refl|].
  eapply leads_mono; [apply Hf|]. intros r tr' sn' H'. eapply keeping_trans; [|exact H'].
  by apply (keeping_one _ (Ok tt)).
Qed.
Lemma keep_emit_bind {A} sn e (f : unit → M World Failure A) : I sn → Q e → keeps sn (f tt) → keeps sn (emit e ≫= f).
Proof.
  intros Hi He Hf tr. walk. eapply leads_mono; [apply Hf|]. intros r tr' sn' H'. eapply keeping_trans; [|exact H'].
  by apply (keeping_one _ (Ok tt)).
Qed.
Lemma keep_commit_bind {A} sn m (f : unit → M World Failure A) :
  I sn → Q (Committed m) → Q (CommitFailed m) → keeps sn (f tt) → keeps sn (commit env m ≫= f).
Proof.
  intros Hi H1 H2 Hf tr. apply leads_bind, leads_commit; [|intros e; by apply keeping_one].
  eapply leads_mono; [apply Hf|]. intros r tr' sn' H'. eapply keeping_trans; [|exact H']. by apply (keeping_one _ (Ok tt)).
Qed.
Lemma keep_assoc {A B C} sn (m : M World Failure A) (f : A → M World Failure B) (g : B → M World Failure C) :
  keeps sn (m ≫= λ a, f a ≫= g) → keeps sn ((m ≫= f) ≫= g).
Proof.
  intros H tr w Ht Hs. specialize (H tr w Ht Hs). unfold mbind, M_bind in *. by destruct (m w) as [[a|e] w'].
Qed.
End keeping.

(** Follows a computation that keeps an invariant. *)
Ltac keep :=
  repeat match goal with
    | |- keeps _ _ _ (gets w_snapshot ≫= _) => apply keep_snapshot
    | |- keeps _ _ _ (gets w_trace ≫= _) => apply keep_trace; intros ?
    | |- keeps _ _ _ (randomUUIDs _ _ ≫= _) => apply keep_uuids; intros ? ?
    | |- keeps _ _ _ (randomUUID _ ≫= _) => apply keep_uuid; intros ?
    | |- keeps _ _ _ (now _ ≫= _) => apply keep_now; intros ?
    | |- keeps _ _ _ (ask _ ≫= _) => apply keep_ask_bind; [done|intros ?]
    | |- keeps _ _ _ (append_events _ _ ≫= _) => apply keep_append_bind; [done|done|]
    | |- keeps _ _ _ (_ ≫= _) => apply keep_bind; [|intros ? ? ?]
    | |- keeps _ _ _ (catch _ _) => apply keep_catch; [|intros ? ? ?]
    | |- keeps _ _ _ (mret _) => by apply keep_ret
    | |- keeps _ _ _ (throw _) => by apply keep_throw
    | |- keeps _ _ _ (lift _) => by apply keep_lift
    | |- keeps _ _ _ (ask _) => by apply keep_ask
    | |- keeps _ _ _ (append_events _ _) => by apply keep_append
    | _ => progress cbn beta iota zeta
    end.

(** When nothing is said of the snapshot. *)
Definition any_snapshot (_ : DurableTurnSnapshot) : Prop := True.

(** ** Commits of these phases *)

(** What a commit may do that the rows accept: it expects the state of the snapshot. *)
Record phase_commit (sn : DurableTurnSnapshot) (m : DurableTurnMutation) : Prop := {
  phase_waits : sn_state sn = WaitingRun → terminal (m_nextState m) = true;
  phase_keeps : m_keepLease m = true → m_nextState m = sn_state sn ∧ terminal (m_nextState m) = false
    ∧ ∀ x, x ∈ m_steps m → isToolStep (mu_step x) = false;
  phase_approval : m_approval m = None;
  phase_question : m_question m = None;
  phase_calls : ∀ x, x ∈ m_steps m → isToolStep (mu_step x) = true →
    settled (st_state (mu_step x)) = true ∧ known sn (mu_step x) ∨ st_state (mu_step x) = Pending;
}.

(** Steps that end known calls, start new ones, or are no calls. *)
Definition phase_step (sn : DurableTurnSnapshot) (x : DurableStepMutation) : Prop :=
  isToolStep (mu_step x) = true → settled (st_state (mu_step x)) = true ∧ known sn (mu_step x) ∨ st_state (mu_step x) = Pending.

Definition phase_effect (sn : DurableTurnSnapshot) (e : Effect) : Prop :=
  executed e = None ∧ ∀ m, attempt e = Some m → m_expectedState m = sn_state sn → phase_commit sn m.

(** The snapshot of a run, as it goes on. *)
Definition same_run (sn0 sn : DurableTurnSnapshot) : Prop := descends sn0 sn ∧ sn_state sn = sn_state sn0.

Lemma same_run_refl sn : same_run sn sn.
Proof. split; [apply descends_refl|done]. Qed.

Lemma phase_ends sn x : ends sn x → phase_step sn x.
Proof. intros H Ht. left. by apply H. Qed.
Lemma phase_other sn x : isToolStep (mu_step x) = false → phase_step sn x.
Proof. intros H Ht. congruence. Qed.
Lemma phase_new sn x : st_state (mu_step x) = Pending → phase_step sn x.
Proof. by right. Qed.
#[export] Hint Resolve phase_ends phase_other phase_new : phases.

Lemma phase_closing sn m : m_keepLease m = false → m_approval m = None → m_question m = None →
  (m_expectedState m = sn_state sn → sn_state sn = WaitingRun → terminal (m_nextState m) = true) →
  Forall (phase_step sn) (m_steps m) → m_expectedState m = sn_state sn → phase_commit sn m.
Proof.
  intros Hk Ha Hq Hw Hs He. split; [auto|by rewrite Hk|done..|]. intros x Hx. rewrite Forall_forall in Hs. by apply Hs.
Qed.

Lemma phase_keeping sn m : m_nextState m = m_expectedState m → terminal (m_nextState m) = false → m_expectedState m ≠ WaitingRun →
  m_approval m = None → m_question m = None → (∀ x, x ∈ m_steps m → isToolStep (mu_step x) = false) →
  m_expectedState m = sn_state sn → phase_commit sn m.
Proof.
  intros Hn Ht Hw Ha Hq Hs He. split; [congruence|intros _; split_and!; [congruence|done..]|done..|].
  intros x Hx Hx'. by rewrite Hs in Hx'.
Qed.

Section effects.
Context (env : Environment) (sn0 sn : DurableTurnSnapshot) (Hsn : same_run sn0 sn).

Abbreviation keeps := (keeps (same_run sn0) (phase_effect sn0)).

Lemma keep_phase m : (m_expectedState m = sn_state sn0 → phase_commit sn0 m) → keeps sn (commit env m).
Proof. intros H. apply keep_commit; [done|..]; (split; [done|]); by intros ? [= <-]. Qed.
Lemma keep_phase_wake sn1 m : (∀ outbox, m_expectedState m = sn_state sn0 → phase_commit sn0 (with_outbox outbox m)) →
  keeps sn (commitAndWake env sn1 m).
Proof.
  intros H. unfold commitAndWake. case_bool_decide; apply keep_phase; [|apply H].
  specialize (H (m_outbox m)). by destruct m.
Qed.
Lemma phase_released error : keeps sn (emit (Released error)).
Proof. by apply keep_emit. Qed.
End effects.

#[export] Hint Resolve same_run_refl phase_released : phases.

(** Splits a commit of a phase into what its steps do. *)
Ltac closing_phase := intros; apply phase_closing; [done|done|done|intros ? ?; first [done | cbn in *; congruence]| |done].

(** *** Failures *)

Section failing.
Context (env : Environment) (sn0 sn : DurableTurnSnapshot) (Hsn : same_run sn0 sn).

Abbreviation keeps := (keeps (same_run sn0) (phase_effect sn0)).

Lemma closing_phases (f : DurableTurnStep → DurableStepMutation) :
  (∀ s, same_call s (mu_step (f s)) ∧ settled (st_state (mu_step (f s))) = true) →
  Forall (phase_step sn0) (map f (List.filter isUnfinishedStep (sn_steps sn))).
Proof.
  intros Hf. eapply Forall_impl; [by apply closing_ends; [apply Hsn|]|]. intros x. apply phase_ends.
Qed.

Lemma cancelRun_keeps : keeps sn (cancelRun env).
Proof. unfold cancelRun. keep. apply keep_phase; [done|]. closing_phase. by apply closing_phases. Qed.

Lemma failRun_keeps message : keeps sn (failRun env message).
Proof. unfold failRun. keep. apply keep_phase; [done|]. closing_phase. by apply closing_phases. Qed.

Lemma transition_keeps reason : keeps sn (transitionAmbiguousToolToRecovery env reason outcome_unknown).
Proof.
  unfold transitionAmbiguousToolToRecovery. keep. cbn [rd_held outcome_unknown].
  destruct (find_first _ (sn_steps sn)) as [step|] eqn:E; keep. apply keep_phase; [done|]. closing_phase.
  apply Forall_singleton, phase_ends. apply find_first_Some in E as [E _]. destruct (same_recovery_step reason outcome_unknown step) as [H1 H2].
  eapply ends_call; [eapply known_in; [apply Hsn|exact E]|exact H1|]. cbn [acknowledged mu_step]. by rewrite H2.
Qed.
End failing.

#[export] Hint Resolve cancelRun_keeps failRun_keeps transition_keeps : phases.
#[export] Hint Resolve keep_ret keep_throw keep_lift keep_catch keep_bind : phases.

Lemma caught_keeps env sn0 sn message retry f : same_run sn0 sn → keeps (same_run sn0) (phase_effect sn0) sn (caught env message retry f).
Proof.
  intros Hsn. unfold caught. keep.
  assert (Htried : keeps (same_run sn0) (phase_effect sn0) sn (if hasRunningHeldTool sn
    then catch (do! transitionAmbiguousToolToRecovery env message outcome_unknown in mret true)
               (λ p, if retryable_error p then throw p else mret false)
    else mret false)).
  { destruct (hasRunningHeldTool sn); keep; [by apply transition_keeps|]. destruct (retryable_error _); keep. }
  assert (Hrest : ∀ (recovered : bool) sn', same_run sn0 sn' → keeps (same_run sn0) (phase_effect sn0) sn' (if recovered then mret RecoveryRun
      else if retry then do! emit (Released (Some message)) in throw (if retryable_error f then f else RetryableError message)
      else
        let! snapshot := gets w_snapshot in
        if hasAmbiguousNonIdempotentTool snapshot
        then do! emit (Released (Some message)) in throw (RetryableError NEEDS_CLASSIFICATION)
        else catch (do! failRun env message in mret FailedRun)
               (λ p, do! emit (Released (Some message)) in throw (if retryable_error p then p else TerminalError message)))).
  { intros recovered sn' H'. destruct recovered; [keep|]. destruct retry; [keep; by apply phase_released|]. keep.
    destruct (hasAmbiguousNonIdempotentTool sn'); keep; first [by apply phase_released | by apply failRun_keeps]. }
  destruct f; try (apply keep_bind; [exact Htried|intros recovered sn2 H2; by apply (Hrest recovered)]).
  destruct (hasRunningHeldTool sn); keep. by apply transition_keeps.
Qed.

(** *** Steps of the phases *)

Lemma latestStep_spec steps type step : latestStep steps type = Some step → step ∈ steps ∧ st_type step = js type.
Proof.
  unfold latestStep. intros [Hs Ht%bool_decide_eq_true]%find_first_Some. split; [|done]. by rewrite elem_of_reverse in Hs.
Qed.

Lemma latestStep_other steps type step : latestStep steps type = Some step → (∀ s, st_type s = js type → isToolStep s = false) →
  isToolStep step = false.
Proof. intros [_ H]%latestStep_spec Ht. by apply Ht. Qed.

Lemma model_call_other s : st_type s = js "model.call" → isToolStep s = false.
Proof. unfold isToolStep. by intros ->. Qed.
Lemma compact_other s : st_type s = js "session.compact" → isToolStep s = false.
Proof. unfold isToolStep. by intros ->. Qed.

Section calling.
Context {numbers : Numbers} (number : Z → num).
Context (locale_le : jstr → jstr → bool) (sha256 toLowerCase toUpperCase : jstr → jstr) (sandbox_cwd : option jstr).
Context (options : Options) (phases : PhaseOptions) (env : Environment) (me : ModelEnvironment).
Context (sn0 : DurableTurnSnapshot).

Abbreviation keeps := (keeps (same_run sn0) (phase_effect sn0)).

(** The mutation that goes on in the same state. *)
Lemma kept_keeps sn state steps nextAction progress : same_run sn0 sn → state = CallingModel ∨ state = Compacting →
  (∀ x, x ∈ steps → isToolStep (mu_step x) = false) → keeps sn (commit env (kept_mutation state steps nextAction progress)).
Proof. intros Hsn Hst Hs. apply keep_phase; [done|]. by destruct Hst as [-> | ->]; intros ?; apply phase_keeping. Qed.

Lemma same_run_push sn ids : same_run sn0 sn → keeps sn (push_entries ids).
Proof. intros Hsn tr w <- <-. by apply keeping_refl. Qed.

Lemma journalContext_keeps sn : same_run sn0 sn → keeps sn (journalContext env me).
Proof.
  intros Hsn. unfold journalContext. keep. destruct (_ =? _)%nat; keep; [|by apply same_run_push].
  apply kept_keeps; [done|by left|]. by intros x ?%not_elem_of_nil.
Qed.

Lemma finishForBudget_keeps sn reason : same_run sn0 sn → keeps sn (finishForBudget toLowerCase env reason).
Proof. intros Hsn. unfold finishForBudget. keep. apply keep_phase; [done|]. closing_phase. by apply closing_phases. Qed.

Lemma reserveNextModelCall_keeps sn cost : same_run sn0 sn → keeps sn (reserveNextModelCall env cost).
Proof. intros Hsn. unfold reserveNextModelCall. keep. destruct (e_reserve env _ cost); keep. by apply keep_emit. Qed.

Section step.
Context (step : DurableTurnStep) (Hk : known sn0 step) (Ht : isToolStep step = false).

Lemma update_keeps sn output : same_run sn0 sn → keeps sn (update_step (set_output output step)).
Proof.
  intros [Hd Hst]. apply keep_update. destruct Hk as (s0 & Hs0 & Hs). split; [|done].
  eapply descends_update; [done|exact Hs0|]. etrans; [exact Hs|by split].
Qed.

Lemma emptyResponse_keeps sn messageId reports result progress : same_run sn0 sn → keeps sn (emptyResponse env me step messageId reports result progress).
Proof.
  intros Hsn. unfold emptyResponse. keep. case_bool_decide; keep; [by apply update_keeps|]. apply keep_phase_wake; [done|]. closing_phase.
  constructor; [by apply phase_other|]. by apply Forall_singleton, phase_new.
Qed.

Lemma acceptResponse_keeps sn definitions messageId reports result progress : same_run sn0 sn →
  keeps sn (acceptResponse number env me step definitions messageId reports result progress).
Proof.
  intros Hsn. unfold acceptResponse. keep. apply keep_phase_wake; [done|]. closing_phase.
  constructor; [by apply phase_other|]. apply Forall_fmap, Forall_forall. intros x (i & [call id] & -> & _)%elem_of_lookup_imap.
  by apply phase_new.
Qed.

Lemma handleResponse_keeps sn definitions maxTokens messageId reports result progress : same_run sn0 sn →
  keeps sn (handleResponse number toLowerCase env me step definitions maxTokens messageId reports result progress).
Proof.
  intros Hsn. unfold handleResponse. keep. destruct (negb _); keep. destruct (match firstDuplicateToolCallId _ with Some _ => _ | None => _ end); keep.
  destruct (_ || _); keep; [by apply update_keeps|]. destruct (bool_decide _); keep; [by apply update_keeps|].
  destruct (_ && _); [by apply emptyResponse_keeps|by apply acceptResponse_keeps].
Qed.

Lemma requestModel_keeps sn definitions maxTokens : same_run sn0 sn →
  keeps sn (requestModel number toLowerCase env me step definitions maxTokens).
Proof.
  intros Hsn. unfold requestModel. keep; [by apply journalContext_keeps| | |].
  - apply kept_keeps; [done|by left|]. by intros x ->%list_elem_of_singleton.
  - by apply keep_emit.
  - destruct (ml_result _); keep; [|by apply handleResponse_keeps|destruct (model_cancelled _); keep].
    all: apply kept_keeps; [done|by left|]; by intros x ?%not_elem_of_nil.
Qed.

Lemma reserveAndCall_keeps sn definitions tokens maxTokens : same_run sn0 sn →
  keeps sn (reserveAndCall number toLowerCase env me step definitions tokens maxTokens).
Proof.
  intros Hsn. unfold reserveAndCall. keep; [by apply reserveNextModelCall_keeps|].
  destruct a as [d|]; [|by apply requestModel_keeps]. destruct (bd_allowed d); [by apply requestModel_keeps|].
  destruct (_ || _); keep. by apply finishForBudget_keeps.
Qed.

Lemma requestCompaction_keeps sn tokens : same_run sn0 sn → keeps sn (requestCompaction env me step tokens).
Proof.
  intros Hsn. unfold requestCompaction. keep. destruct (completedCompactionForCurrentTail sn); keep.
  apply keep_phase_wake; [done|]. closing_phase. repeat constructor; by apply phase_new.
Qed.
End step.

Lemma callModel_keeps sn : same_run sn0 sn → keeps sn (callModel number toLowerCase phases env me).
Proof.
  intros Hsn. unfold callModel. keep. destruct (latestStep (sn_steps sn) "model.call") as [step|] eqn:E; keep.
  pose proof (latestStep_other _ _ _ E model_call_other) as Ht. apply latestStep_spec in E as [E _].
  assert (Hk : known sn0 step) by (eapply known_in; [apply Hsn|done]).
  destruct (is_state Completed step); keep; [apply keep_phase_wake; [done|]; closing_phase; by constructor|].
  destruct (model_limit _ _ _ _ _); keep; [apply kept_keeps; [done|by left|by intros x ->%list_elem_of_singleton]|].
  destruct (_ && _); [by apply requestCompaction_keeps|]. destruct (_ <? _)%Z; keep. by apply reserveAndCall_keeps.
Qed.

Lemma compact_keeps sn : same_run sn0 sn → keeps sn (compact phases env me).
Proof.
  intros Hsn. unfold compact. keep. destruct (negb _); keep. destruct (latestStep (sn_steps sn) "session.compact") as [step|] eqn:E; keep.
  all: pose proof (latestStep_other _ _ _ E compact_other) as Ht.
  - apply kept_keeps; [done|by right|]. by intros x ->%list_elem_of_singleton.
  - destruct (negb _); keep. apply keep_phase_wake; [done|]. closing_phase. by apply Forall_singleton, phase_other.
Qed.

Lemma assemble_keeps sn : same_run sn0 sn → sn_state sn0 ≠ WaitingRun → keeps sn (assemble env me).
Proof.
  intros Hsn Hw. unfold assemble. keep. apply keep_phase_wake; [done|]. closing_phase. constructor; [by apply phase_other|].
  by apply Forall_singleton, phase_new.
Qed.

Lemma publicationMessages_keeps sn results status : same_run sn0 sn → keeps sn (publicationMessages env results status).
Proof. intros Hsn. unfold publicationMessages. keep. Qed.

Lemma finalize_keeps sn : same_run sn0 sn → sn_state sn0 ≠ WaitingRun → keeps sn (finalize env me).
Proof.
  intros Hsn Hw. unfold finalize. keep; [case_match; keep|]. destruct (_ && _); keep; try by apply publicationMessages_keeps.
  - apply keep_phase_wake; [done|]. closing_phase. constructor; [by apply phase_other|]. by apply Forall_singleton, phase_new.
  - apply keep_phase; [done|]. closing_phase. by apply Forall_singleton, phase_other.
Qed.
End calling.

(** ** A claimed run *)

Section claimed.
Context {numbers : Numbers} (number : Z → num).
Context (locale_le : jstr → jstr → bool) (sha256 toLowerCase toUpperCase : jstr → jstr) (sandbox_cwd : option jstr).
Context (options : Options) (phases : PhaseOptions) (env : Environment) (me : ModelEnvironment).
Context (sn : DurableTurnSnapshot).

Abbreviation execute := (execute number locale_le sha256 toLowerCase toUpperCase sandbox_cwd options phases env me).
Abbreviation executeTool := (executeTool locale_le sha256 toLowerCase toUpperCase sandbox_cwd options env).
Abbreviation runs_cleared := (runs_cleared locale_le sha256 toLowerCase toUpperCase sandbox_cwd options sn).

Lemma execute_keeps : sn_state sn ≠ ExecutingTool → keeps (same_run sn) (phase_effect sn) sn execute.
Proof.
  intros Hst. pose proof (same_run_refl sn) as Hsn. unfold execute, dispatch. apply keep_catch; [|intros f sn' H'; by apply caught_keeps]. keep.
  destruct (sn_cancelled sn); keep; [by apply cancelRun_keeps|].
  destruct (sn_state sn) eqn:E; keep; try done;
    first [by apply callModel_keeps | by apply compact_keeps | by apply phase_released
          | apply assemble_keeps; congruence | apply finalize_keeps; congruence].
Qed.

(** The commits it tries, and the effects that are no calls of tools. *)
Lemma execute_phase tr : sn_state sn ≠ ExecutingTool →
  leads tr sn execute (λ _ tr' _, ∃ new, tr' = tr ++ new ∧ Forall (phase_effect sn) new).
Proof. intros Hst. eapply leads_mono; [by apply execute_keeps|]. by intros r tr' sn' [_ H']. Qed.

Lemma execute_tools : sn_state sn = ExecutingTool →
  ∀ tr (Q : result Failure TurnRunState → list Effect → DurableTurnSnapshot → Prop),
  leads tr sn (cancelRun env) (λ r tr' sn', Q (match r with Ok _ => Ok CancelledRun | Err f => Err f end) tr' sn') →
  leads tr sn executeTool Q → leads tr sn (dispatch number locale_le sha256 toLowerCase toUpperCase sandbox_cwd options phases env me) Q.
Proof.
  intros Hst tr Q Hc He. unfold dispatch. apply leads_bind, leads_snapshot. destruct (sn_cancelled sn); [|by rewrite Hst].
  apply leads_bind. eapply leads_mono; [exact Hc|]. intros [[]|f] tr' sn' H'; [by apply leads_ret|done].
Qed.

Lemma execute_led tr : sn_state sn = ExecutingTool → leads tr sn execute (led sn tr).
Proof.
  intros Hst. unfold execute. apply leads_catch. eapply leads_mono.
  - apply execute_tools; [done| |apply executeTool_led]. eapply leads_mono; [apply cancelRun_stays, descends_refl|].
    intros r tr' sn' H'%calmly_led. exact H'.
  - intros [a|f] tr' sn' H'; [done|]. pose proof H' as [Hd _]. eapply leads_mono; [by apply caught_stays|].
    intros r tr2 sn2 H2. by eapply led_calmly.
Qed.

(** The calls that run were cleared for the snapshot. *)
Lemma execute_cleared tr : leads tr sn execute (λ _ tr' _, ∃ new, tr' = tr ++ new ∧ runs_cleared new).
Proof.
  destruct (decide (sn_state sn = ExecutingTool)) as [Hst|Hst].
  - unfold execute. apply leads_catch, (leads_mono _ _ _ (λ _ tr' _, ∃ new, tr' = tr ++ new ∧ runs_cleared new)).
    + apply execute_tools; [done| |].
      * eapply leads_mono; [apply rest_cancelRun|]. intros r tr' sn' (new & -> & H'). exists new. split; [done|]. by apply idle_cleared.
      * eapply leads_mono; [apply executeTool_post|]. intros r tr' sn' (new & -> & _ & H1 & H2). exists new. by split_and!.
    + intros [a|f] tr' sn' (new & -> & H'); [by exists new|]. eapply leads_mono; [apply rest_caught|].
      intros r tr2 sn2 (new2 & -> & H2). exists (new ++ new2). rewrite app_assoc. split; [done|]. by apply runs_cleared_app.
  - eapply leads_mono; [by apply execute_phase|]. intros r tr' sn' (new & -> & H'). exists new. split; [done|].
    apply idle_cleared. induction H' as [|e new [He _] _ IH]; [done|]. cbn. by rewrite He.
Qed.
End claimed.
