(* ===== verification/TurnDemo.v ===== *)
(** * Runs of tool calls, evaluated

    A worker, a repository and tools given as functions, and what the runner does
    with them in cases the code does not treat as its comments say. *)

From S2P Require Import Prelude JsMap JsString ToolArguments ToolArgumentsSchema Json ProviderErrors ToolFailures Prompts TurnSteps TurnCalls TurnRunner TurnRunnerFacts TurnTraces TurnPhases.

Set Default Goal Selector "!".

(** ** A turn and its surroundings *)

Definition upper_unit (c : N) : N := if ((97 <=? c) && (c <=? 122))%N then (c - 32)%N else c.

(** A call of a tool, as the runner finds it. *)
Definition a_call (id : string) (sequence : Z) (tool : string) (retryClass : ToolRetryClass) (args : list (jstr * json)) : DurableTurnStep :=
  {| st_id := js id; st_sequence := sequence; st_type := js "tool." ++ js tool; st_state := Pending;
     st_input := JObj [(js "toolCallId", JStr (js id)); (js "toolName", JStr (js tool)); (js "arguments", JObj args)];
     st_output := JNull; st_retryClass := Some retryClass; st_idempotencyKey := None; st_attempt := 0; st_error := None;
     st_resultFingerprint := None; st_deadlineAt := None; st_idleDeadlineAt := None; st_timedOut := false;
     st_abortAcknowledged := false; st_outcomeCertainty := None; st_startedAt := None |}.

Definition a_turn (steps : list DurableTurnStep) : DurableTurnSnapshot :=
  {| sn_id := js "run"; sn_tenantId := js "tenant"; sn_state := ExecutingTool; sn_version := 3; sn_cancelled := false;
     sn_runtimeRequest := JObj []; sn_sandboxId := None; sn_progress := None; sn_steps := steps; sn_entries := [js "e1"]; sn_approvals := [] |}.

Definition an_image : ImageGeneration := {| ig_costMicros := js "5"; ig_model := js "m"; ig_providerId := js "p" |}.

(** Every call ends like this; the spend limit admits nothing. *)
Definition surroundings (r : result Failure TurnToolResult) : Environment :=
  {| e_commit := λ _ _, None;
     e_execute := λ _ _, {| oe_settled := r; oe_aborted := None; oe_timeout := None; oe_heartbeat := None; oe_cleanedUp := true |};
     e_batch := λ _ _, BatchSettled (λ _, r);
     e_supportsAbort := λ _, false;
     e_reserve := λ _ _, Some (Ok {| bd_allowed := false; bd_reason := Some (js "user spend limit has been reached."); bd_code := None |});
     e_now := λ n, Z.of_nat n;
     e_uuid := λ n, js "u" ++ dec (Z.of_nat n);
     e_parseDraft := λ _, Err (TerminalError (js "no draft"));
     e_admitted := λ _, Ok (Some {| rq_imageGeneration := Some an_image; rq_visionCost := None; rq_extraSkills := [] |});
     e_string := λ _ _, [] |}.

Definition default_options : Options :=
  {| op_toolIdleTimeoutMs := None; op_toolMaxDurationMs := None; op_toolClassLimits := λ _, None; op_maxCumulativeToolTimeMs := None;
     op_noProgressWarningThreshold := None; op_noProgressHardThreshold := None; op_maxToolRepairAttempts := None;
     op_snapshotIntervalSeconds := None; op_enforceRepeatGuard := true |}.

Definition text_answer (s : string) : TurnToolResult :=
  {| tr_output := JStr (js s); tr_summary := js s; tr_fingerprintBasis := None; tr_sandbox := None; tr_usage := None |}.

(** What fails because a file is missing. *)
Definition missing_file : Failure := Error (js "ENOENT: no such file or directory").

Definition run_turn (r : result Failure TurnToolResult) (steps : list DurableTurnStep) : result Failure TurnRunState * World :=
  executeTool js_le (λ s, s) ascii_lower (map upper_unit) None default_options (surroundings r)
    {| w_trace := []; w_snapshot := a_turn steps; w_ticks := 0; w_uuids := 0 |}.

Definition next_turn_state (o : result Failure TurnRunState * World) : option TurnRunState := match o.1 with Ok s => Some s | Err _ => None end.
(** The calls of tools of a run. *)
Definition called (o : result Failure TurnRunState * World) : list jstr :=
  omap (λ e, match e with Executed s => Some (st_id s) | _ => None end) (w_trace o.2).
(** The step of this id as the run leaves it: its last commit. *)
Definition stored (id : string) (o : result Failure TurnRunState * World) : list DurableTurnStep :=
  let l := flat_map (λ e, match e with Committed m => map mu_step (m_steps m) | _ => [] end) (w_trace o.2) in
  match last (List.filter (λ s, bool_decide (st_id s = js id)) l) with Some s => [s] | None => [] end.
(** A step that began once. *)
Definition began (s : DurableTurnStep) : DurableTurnStep :=
  {| st_id := st_id s; st_sequence := st_sequence s; st_type := st_type s; st_state := st_state s; st_input := st_input s;
     st_output := st_output s; st_retryClass := st_retryClass s; st_idempotencyKey := st_idempotencyKey s; st_attempt := 1;
     st_error := st_error s; st_resultFingerprint := st_resultFingerprint s; st_deadlineAt := st_deadlineAt s;
     st_idleDeadlineAt := st_idleDeadlineAt s; st_timedOut := st_timedOut s; st_abortAcknowledged := st_abortAcknowledged s;
     st_outcomeCertainty := st_outcomeCertainty s; st_startedAt := st_startedAt s |}.

(** ** What they do *)

(** An image whose budget is refused is not generated: nothing is called. Its
    failure is stored with an unknown outcome all the same, and the next image call,
    with another prompt, is held for review as if the first could have taken effect. *)
Lemma image_refusal_holds_next :
  let image id n prompt := a_call id n "create_image" NonIdempotentManual [(js "prompt", JStr (js prompt))] in
  let first := run_turn (Ok (text_answer "image")) [image "a" 1%Z "cat"] in
  let second := run_turn (Ok (text_answer "image")) (map began (stored "a" first) ++ [image "b" 2%Z "dog"]) in
  next_turn_state first = Some CallingModel ∧ called first = []
  ∧ map st_outcomeCertainty (stored "a" first) = [Some CertaintyUnknown]
  ∧ next_turn_state second = Some RecoveryRun ∧ called second = [].
Proof. vm_compute. auto. Qed.

(** A file that was missing stays missing until something changes; a call that was
    denied, and so changed nothing, counts as such a change. *)
Lemma denied_call_releases_retry :
  let read id n := a_call id n "read" ReadOnly [(js "path", JStr (js "x"))] in
  let failed := map began (stored "a" (run_turn (Err missing_file) [read "a" 1%Z])) in
  let denied := set_error (Some (js "Tool approval was denied")) (set_state Failed (a_call "b" 2 "bash" NonIdempotentManual [])) in
  called (run_turn (Ok (text_answer "text")) (failed ++ [read "c" 3%Z])) = []
  ∧ called (run_turn (Ok (text_answer "text")) (failed ++ [denied; read "c" 3%Z])) = [js "c"].
Proof. vm_compute. auto. Qed.

(** The refusal of an unchanged retry names the error of the call that ran. In a batch
    of reads that error is not kept: the next refusal names the refusal before it. *)
Lemma batch_refusal_loses_error :
  let read id n path := a_call id n "read" ReadOnly [(js "path", JStr (js path))] in
  let failed := map began (stored "a" (run_turn (Err missing_file) [read "a" 1%Z "x"])) in
  let retry := run_turn (Ok (text_answer "text")) (failed ++ [read "b" 2%Z "x"]) in
  let batch := run_turn (Ok (text_answer "text")) (failed ++ [read "b" 2%Z "x"; read "c" 3%Z "y"]) in
  let named o := ur_previousError <$> unchangedFailedRetry js_le (λ s, s) None (a_turn (failed ++ stored "b" o)) (read "d" 4%Z "x") in
  called retry = [] ∧ called batch = [js "c"]
  ∧ named retry = Some (js "ENOENT: no such file or directory")
  ∧ named batch = Some (js "Not run: this exact call already failed in this task, and nothing since could make it succeed.").
Proof. vm_compute. auto. Qed.

(** Two reads side by side end in one commit. *)
Definition two_reads : list DurableTurnStep :=
  [a_call "a" 1 "read" ReadOnly [(js "path", JStr (js "x"))]; a_call "b" 2 "read" ReadOnly [(js "path", JStr (js "y"))]].

Lemma executeTool_commits_witness :
  next_turn_state (run_turn (Ok (text_answer "text")) two_reads) = Some CallingModel
  ∧ ∃ new, w_trace (run_turn (Ok (text_answer "text")) two_reads).2 = new
      ∧ outcome (a_turn two_reads) new (run_turn (Ok (text_answer "text")) two_reads).1.
Proof.
  split; [vm_compute; reflexivity|].
  pose proof (executeTool_commits js_le (λ s, s) ascii_lower (map upper_unit) None default_options
    (surroundings (Ok (text_answer "text"))) {| w_trace := []; w_snapshot := a_turn two_reads; w_ticks := 0; w_uuids := 0 |}) as H.
  unfold run_turn. destruct (executeTool _ _ _ _ _ _ _ _) as [r w']. destruct H as (new & E & H). exists new. split; [exact E|exact H].
Defined.

(** ** A turn that calls the model *)

#[export] Instance demo_numbers : Numbers := ToolCallDemo.whole.
Definition demo_number (z : Z) : num := Some z.

(** A call that is not repeated by itself, and needs an approval. *)
Definition mail_call : TurnModelToolIntent :=
  {| ti_id := js "mail"; ti_providerCallId := None; ti_name := js "send_mail"; ti_input := JObj [(js "to", JStr (js "a@b.c"))];
     ti_retryClass := NonIdempotentManual; ti_repeatPolicy := None; ti_idempotencyKey := None; ti_requiresApproval := true;
     ti_approvalKind := js "mail"; ti_invocation := None |}.

(** A model that asks for the call. *)
Definition a_client : ModelEnvironment :=
  {| me_checkpointPresent := false; me_groundingPresent := false; me_createdAt := 0; me_humanWaitMs := 0; me_waitingStartedAt := None;
     me_prepare := λ _ _, Ok []; me_contextTokens := λ _ _, 100%Z; me_uncompactedTokens := λ _, 0%Z; me_cost := λ _ _ _, js "5";
     me_context := λ _, Ok []; me_append := λ _ _, None;
     me_call := λ _ _ _, {| ml_result := Ok {| mr_text := js "I will send it."; mr_reasoning := None; mr_finishReason := Some (js "tool_calls");
                                               mr_providerResponseId := None; mr_outputTokens := Some 7%Z; mr_toolCalls := [mail_call]; mr_usage := None |};
                            ml_reports := [Some 1%Z] |};
     me_retained := λ _, Ok true; me_policy := λ _ _, None; me_environmentCheck := λ _, None; me_argumentSchema := λ _, None;
     me_compact := λ _, Ok JNull; me_finalize := λ _, Ok []; me_providerError := λ _, false; me_compactionError := λ _, false |}.

(** The spend limits admit every request; every commit is accepted. *)
Definition a_host : Environment :=
  let e := surroundings (Ok (text_answer "sent")) in
  {| e_commit := e_commit e; e_execute := e_execute e; e_batch := e_batch e; e_supportsAbort := e_supportsAbort e; e_reserve := λ _ _, Some (Ok {| bd_allowed := true; bd_reason := None; bd_code := None |});
     e_now := e_now e; e_uuid := e_uuid e; e_parseDraft := e_parseDraft e; e_admitted := e_admitted e; e_string := e_string e |}.

Definition phase_options : PhaseOptions :=
  {| ph_maxModelIterations := None; ph_maxTurnDurationMs := None; ph_maxActiveComputeMs := None; ph_maxModelAttempts := None;
     ph_modelIdleTimeoutMs := None; ph_contextWindowTokens := None; ph_compactor := false |}.

Abbreviation demo_execute := (execute demo_number js_le (λ s, s) ascii_lower (map upper_unit) None default_options phase_options a_host a_client).

(** The effects of a run; its ids begin with [uuids]. *)
Definition effects (uuids : nat) (sn : DurableTurnSnapshot) : list Effect :=
  w_trace (demo_execute {| w_trace := []; w_snapshot := sn; w_ticks := 0; w_uuids := uuids |}).2.

(** A turn that is about to call the model. *)
Definition a_model_turn : DurableTurnSnapshot :=
  let sn := a_turn [] in
  {| sn_id := sn_id sn; sn_tenantId := sn_tenantId sn; sn_state := CallingModel; sn_version := sn_version sn; sn_cancelled := false;
     sn_runtimeRequest := sn_runtimeRequest sn; sn_sandboxId := None; sn_progress := None; sn_steps := [model_step sn (js "model") 1 [] []];
     sn_entries := []; sn_approvals := [] |}.
Definition a_model_world : World := {| w_trace := []; w_snapshot := a_model_turn; w_ticks := 0; w_uuids := 0 |}.
Definition the_effects : list Effect := effects 0 a_model_turn.
Definition the_request : DurableTurnStep := match omap (λ e, match e with ModelCalled s => Some s | _ => None end) the_effects with s :: _ => s | [] => a_call "" 0 "" ReadOnly [] end.
Definition the_answer_commit : DurableTurnMutation :=
  match omap (λ e, match attempt e with Some m => if bool_decide (m_nextState m = ExecutingTool) then Some m else None | None => None end) the_effects with
  | m :: _ => m
  | [] => phase_mutation Queued Queued [] None
  end.
