(* ===== verification/TurnModelCalls.v ===== *)
(** * Calls of the model

    When a run calls the model, and what becomes of the answer. *)

From S2P Require Import Prelude JsMap JsString Double ToolArguments Json ProviderErrors ToolFailures Prompts TurnSteps TurnCalls TurnRunner TurnRunnerFacts TurnTraces TurnJournal TurnPhases TurnPhasesFacts TurnDemo.
From Stdlib Require Import Lia.

Set Default Goal Selector "!".

(** ** Runs that do not call the model *)

Definition silent (e : Effect) : Prop := match e with ModelCalled _ => False | _ => True end.

Abbreviation is_silent := (keeps any_snapshot silent).

Section silence.
Context (env : Environment).

Lemma silent_commit sn m : is_silent sn (commit env m).
Proof. by apply keep_commit. Qed.
Lemma silent_wake sn sn1 m : is_silent sn (commitAndWake env sn1 m).
Proof. apply silent_commit. Qed.
Lemma silent_released sn error : is_silent sn (emit (Released error)).
Proof. by apply keep_emit. Qed.
Lemma silent_update sn step : is_silent sn (update_step step).
Proof. by apply keep_update. Qed.

Lemma silent_transition sn reason details : is_silent sn (transitionAmbiguousToolToRecovery env reason details).
Proof. unfold transitionAmbiguousToolToRecovery. keep. case_match; keep. apply silent_commit. Qed.
Lemma silent_cancelRun sn : is_silent sn (cancelRun env).
Proof. unfold cancelRun. keep. apply silent_commit. Qed.
Lemma silent_failRun sn message : is_silent sn (failRun env message).
Proof. unfold failRun. keep. apply silent_commit. Qed.

Lemma silent_caught sn message retry f : is_silent sn (caught env message retry f).
Proof.
  unfold caught. keep.
  destruct f; repeat first [apply silent_transition | apply silent_failRun | apply silent_released | progress keep | case_match].
Qed.
End silence.

Section requests.
Context {numbers : Numbers} (number : Z → num).
Context (locale_le : jstr → jstr → bool) (sha256 toLowerCase toUpperCase : jstr → jstr) (sandbox_cwd : option jstr).
Context (options : Options) (phases : PhaseOptions) (env : Environment) (me : ModelEnvironment).

Lemma silent_handleResponse sn step definitions maxTokens messageId reports result progress :
  is_silent sn (handleResponse number toLowerCase env me step definitions maxTokens messageId reports result progress).
Proof.
  unfold handleResponse, emptyResponse, acceptResponse. keep.
  repeat first [apply silent_update | apply silent_wake | progress keep | case_match].
Qed.

Lemma silent_finishForBudget sn reason : is_silent sn (finishForBudget toLowerCase env reason).
Proof. unfold finishForBudget. keep. apply silent_commit. Qed.

Lemma silent_requestCompaction sn step tokens : is_silent sn (requestCompaction env me step tokens).
Proof. unfold requestCompaction. keep. case_match; keep. apply silent_wake. Qed.

(** ** When the model is called *)

(** The message that is to be streamed, and the start of it. *)
Definition streamed_id (s : DurableTurnStep) : jstr :=
  match field "streamMessageId" (Some (st_output s)) with Some (JStr id) => id | _ => [] end.
Definition opened (s : DurableTurnStep) : Effect := Appended [MessageStartEvent (streamed_id s)].
Definition request (mark : DurableTurnMutation) (s : DurableTurnStep) : list Effect := [Committed mark; opened s; ModelCalled s].

(** A run calls the model once: after it has marked the request as running, with no
    other effect between but the start of the message, and nothing else does. *)
Definition one_call (P : list Effect → DurableTurnMutation → DurableTurnStep → Prop) (new : list Effect) : Prop :=
  Forall silent new
  ∨ ∃ before mark s after, new = before ++ request mark s ++ after ∧ Forall silent before ∧ Forall silent after ∧ P before mark s.

Definition calls_once {A} (P : list Effect → DurableTurnMutation → DurableTurnStep → Prop) (tr : list Effect)
    (_ : result Failure A) (tr' : list Effect) (_ : DurableTurnSnapshot) : Prop := ∃ new, tr' = tr ++ new ∧ one_call P new.

Lemma silent_once {A} P sn (m : M World Failure A) tr : is_silent sn m → leads tr sn m (calls_once P tr).
Proof. intros H. eapply leads_mono; [apply H|]. intros r tr' sn' (_ & new & -> & Hn). exists new. split; [done|by left]. Qed.

(** The mark of a request. *)
Definition marks_request (step : DurableTurnStep) (mark : DurableTurnMutation) (s : DurableTurnStep) : Prop :=
  m_steps mark = [starting s] ∧ m_expectedState mark = CallingModel ∧ m_keepLease mark = true
  ∧ ∃ t messageId, s = set_startedAt t (set_output (JObj [(js "streamMessageId", JStr messageId)]) (set_state Running step)).

(** Contexts that are journaled before. *)
Definition journal_commits (l : list Effect) : Prop := l = [] ∨ ∃ m, l = [Committed m] ∧ m_steps m = [].

Lemma journalContext_leads tr sn : leads tr sn (journalContext env me)
  (λ r tr' _, ∃ l, tr' = tr ++ l ∧ Forall silent l ∧ (r = Ok tt → journal_commits l)).
Proof.
  unfold journalContext, ask, push_entries. walk. destruct (me_context me tr) as [ids|f]; [|exists []; by rewrite app_nil_r].
  destruct (_ =? _)%nat; walk.
  - exists []. rewrite app_nil_r. split_and!; [done..|by left].
  - intros w Ht _. cbn. rewrite Ht. eexists. split_and!; [done|by repeat constructor|]. intros _. right. by eexists.
  - eexists. by split_and!; [|repeat constructor|].
Qed.

Lemma after_request {A} P tr before mark s sn (m : M World Failure A) : Forall silent before → P before mark s → is_silent sn m →
  leads ((((tr ++ before) ++ [Committed mark]) ++ [opened s]) ++ [ModelCalled s]) sn m (calls_once P tr).
Proof.
  intros Hb Hp Hm. eapply leads_mono; [apply Hm|]. intros r tr' sn' (_ & after & -> & Ha). exists (before ++ request mark s ++ after).
  split; [unfold request; by rewrite <- !app_assoc|]. right. by exists before, mark, s, after.
Qed.

Lemma requestModel_once tr sn step definitions maxTokens :
  leads tr sn (requestModel number toLowerCase env me step definitions maxTokens)
    (calls_once (λ before mark s, journal_commits before ∧ marks_request step mark s) tr).
Proof.
  unfold requestModel. apply leads_bind, leads_snapshot. cbn zeta. apply leads_bind. eapply leads_mono; [apply journalContext_leads|].
  intros [[]|f] tr1 sn1 (journal & -> & Hs & Hj); [|exists journal; split; [done|by left]]. specialize (Hj eq_refl).
  apply leads_bind, leads_uuid. intros messageId. apply leads_bind, leads_now. intros t. cbn zeta.
  set (mark := kept_mutation _ _ _ _). apply leads_bind, leads_commit.
  2: { intros f. exists (journal ++ [CommitFailed mark]). rewrite <- app_assoc. split; [done|left]. apply Forall_app. by repeat constructor. }
  apply leads_bind. unfold append_events at 1. apply leads_bind, leads_trace. destruct (me_append me _ _); walk.
  { exists (journal ++ [Committed mark]). rewrite <- app_assoc. split; [done|left]. apply Forall_app. by repeat constructor. }
  set (s := set_startedAt _ _). change [MessageStartEvent messageId] with [MessageStartEvent (streamed_id s)]. fold (opened s).
  apply after_request; [done|split; [done|]; split_and!; [done..|by eexists _, _]|].
  destruct (ml_result _); keep; [apply silent_commit|apply silent_handleResponse|]. destruct (model_cancelled _); keep. apply silent_commit.
Qed.
(** The limits of a run are kept at a time. *)
Record within_limits (sn : DurableTurnSnapshot) (step : DurableTurnStep) (t : Z) : Prop := {
  within_iterations : (modelIteration (sn_steps sn) <= Z.max 1 (nullish (ph_maxModelIterations phases) 200))%Z;
  within_duration : (t - me_createdAt me - me_humanWaitMs me <= Z.max 60000 (nullish (ph_maxTurnDurationMs phases) (2 * 60 * 60 * 1000)))%Z;
  within_compute : (pr_cumulativeActiveComputeMs (progressState sn)
                    < Z.max 60000 (nullish (ph_maxActiveComputeMs phases) (2 * 60 * 60000)))%Z;
  within_attempts : (st_attempt step < Z.max 1 (nullish (ph_maxModelAttempts phases) 3))%Z;
}.

Lemma model_limit_none sn step t : sn_state sn = CallingModel → model_limit phases me sn step t = None → within_limits sn step t.
Proof.
  unfold model_limit. cbn zeta. intros Hst. rewrite bool_decide_eq_false_2 by congruence.
  replace (match me_waitingStartedAt me with Some _ => 0 | None => 0 end)%Z with 0%Z by by destruct (me_waitingStartedAt me).
  repeat match goal with |- (if ?b then _ else _) = None → _ => destruct b eqn:?; [done|] end.
  intros _. unfold DURATION_LIMIT, DEFAULT_ACTIVE_COMPUTE_MS in *. split; lia.
Qed.

(** The request fits the context window, and its cost is reserved. *)
Record affordable (sn : DurableTurnSnapshot) (tr reserved : list Effect) : Prop := {
  affordable_output : (1 <= contextAwareMaxOutputTokens sn phases (me_contextTokens me tr sn))%Z;
  affordable_context : ph_compactor phases && shouldCompactSnapshot sn phases (me_contextTokens me tr sn) = false;
  affordable_cost : let cost := me_cost me sn (me_contextTokens me tr sn) (contextAwareMaxOutputTokens sn phases (me_contextTokens me tr sn)) in
    match e_reserve env tr cost with
    | None => reserved = []
    | Some answer => ∃ d, answer = Ok d ∧ bd_allowed d = true ∧ reserved = [Reserved cost]
    end;
}.

(** What holds when the model is called. *)
Definition request_cleared (sn : DurableTurnSnapshot) (tr before : list Effect) (mark : DurableTurnMutation) (s : DurableTurnStep) : Prop :=
  ∃ step t prepared reserved journal,
    latestStep (sn_steps sn) "model.call" = Some step ∧ is_state Completed step = false ∧ within_limits sn step t
    ∧ before = Committed prepared :: reserved ++ journal ∧ m_steps prepared = [plain (set_state Running step)]
    ∧ affordable sn (tr ++ [Committed prepared]) reserved ∧ journal_commits journal ∧ marks_request step mark s.

Lemma journal_silent l : journal_commits l → Forall silent l.
Proof. intros [->|(m & -> & _)]; by repeat constructor. Qed.

(** The effects before a request that has its own. *)
Lemma once_before {A} P (Q : list Effect → DurableTurnMutation → DurableTurnStep → Prop) tr l sn (m : M World Failure A) :
  Forall silent l → (∀ before mark s, P before mark s → Q (l ++ before) mark s) →
  leads (tr ++ l) sn m (calls_once P (tr ++ l)) → leads (tr ++ l) sn m (calls_once Q tr).
Proof.
  intros Hl HPQ Hm. eapply leads_mono; [exact Hm|]. intros r tr' sn' (new & -> & Hn). exists (l ++ new). rewrite app_assoc. split; [done|].
  destruct Hn as [Hn|(before & mark & s & after & -> & Hb & Ha & Hp)]; [left; by apply Forall_app|right].
  exists (l ++ before), mark, s, after. rewrite app_assoc. split_and!; [done|by apply Forall_app|done|by apply HPQ].
Qed.

Lemma silent_before {A} Q tr l sn (m : M World Failure A) : Forall silent l → is_silent sn m → leads (tr ++ l) sn m (calls_once Q tr).
Proof. intros Hl Hm. apply (once_before (λ _ _ _, False)); [done|done|by apply silent_once]. Qed.

Lemma reserveAndCall_once tr sn step definitions tokens maxTokens :
  leads tr sn (reserveAndCall number toLowerCase env me step definitions tokens maxTokens)
    (calls_once (λ before mark s, ∃ reserved journal, before = reserved ++ journal ∧ journal_commits journal ∧ marks_request step mark s
       ∧ let cost := me_cost me sn tokens maxTokens in
         match e_reserve env tr cost with
         | None => reserved = []
         | Some answer => ∃ d, answer = Ok d ∧ bd_allowed d = true ∧ reserved = [Reserved cost]
         end) tr).
Proof.
  unfold reserveAndCall, reserveNextModelCall. apply leads_bind, leads_snapshot. apply leads_bind, leads_bind, leads_trace.
  destruct (e_reserve env tr _) as [answer|] eqn:E; walk.
  - destruct answer as [d|f]; walk; [|eexists; split; [done|left; by repeat constructor]].
    assert (Hs : Forall silent [Reserved (me_cost me sn tokens maxTokens)]) by by repeat constructor.
    destruct (bd_allowed d) eqn:Ed.
    + eapply once_before; [done| |apply requestModel_once]. intros before mark s [Hj Hm]. exists [Reserved (me_cost me sn tokens maxTokens)], before.
      split_and!; [done..|]. by exists d.
    + apply silent_before; [done|]. destruct (_ || _); keep. apply silent_finishForBudget.
  - eapply leads_mono; [apply requestModel_once|]. intros r tr' sn' (new & -> & Hn). exists new. split; [done|].
    destruct Hn as [Hn|(before & mark & s & after & -> & Hb & Ha & Hj & Hm)]; [by left|right].
    exists before, mark, s, after. split_and!; [done..|]. by exists [], before.
Qed.

Lemma callModel_once tr sn : sn_state sn = CallingModel →
  leads tr sn (callModel number toLowerCase phases env me) (calls_once (request_cleared sn tr) tr).
Proof.
  intros Hst. unfold callModel. apply leads_bind, leads_snapshot.
  destruct (latestStep (sn_steps sn) "model.call") as [step|] eqn:El; [|apply silent_once; keep].
  destruct (is_state Completed step) eqn:Ec; [apply silent_once; keep; apply silent_wake|].
  apply leads_bind, leads_now. intros t. destruct (model_limit _ _ _ _ _) eqn:Elim; [apply silent_once; keep|].
  set (prepared := kept_mutation _ _ _ _). apply leads_bind, leads_commit; [|intros f; eexists; split; [done|left; by repeat constructor]].
  assert (Hs : Forall silent [Committed prepared]) by by repeat constructor.
  unfold ask. apply leads_bind, leads_bind, leads_trace, leads_lift.
  destruct (me_prepare me _ _) as [definitions|f]; [|eexists; by split; [done|left]]. apply leads_bind, leads_trace. cbn zeta.
  destruct (_ && _) eqn:Ecomp; [apply silent_before; [done|apply silent_requestCompaction]|].
  destruct (_ <? 1)%Z eqn:Emax; [apply silent_before; [done|keep]|].
  eapply once_before; [done| |apply reserveAndCall_once]. intros before mark s (reserved & journal & -> & Hj & Hm & Hr).
  exists step, t, prepared, reserved, journal. split_and!; try done; [by apply model_limit_none|]. split; [lia|done|done].
Qed.

Abbreviation execute := (execute number locale_le sha256 toLowerCase toUpperCase sandbox_cwd options phases env me).

Lemma execute_once tr sn : sn_state sn = CallingModel →
  leads tr sn execute (calls_once (λ before mark s, sn_cancelled sn = false ∧ request_cleared sn tr before mark s) tr).
Proof.
  intros Hst. unfold execute, dispatch. set (P := λ _ _ _, _). apply leads_catch, (leads_mono _ _ _ (calls_once P tr)).
  - apply leads_bind, leads_snapshot. destruct (sn_cancelled sn) eqn:Ec; [apply silent_once; keep; apply silent_cancelRun|].
    rewrite Hst. eapply leads_mono; [by apply callModel_once|]. intros r tr' sn' (new & -> & Hn). exists new. split; [done|].
    destruct Hn as [Hn|(before & mark & s & after & -> & Hb & Ha & Hp)]; [by left|right]. by exists before, mark, s, after.
  - intros [a|f] tr' sn' (new & -> & Hn); [by exists new|]. eapply leads_mono; [apply silent_caught|].
    intros r tr2 sn2 (_ & new2 & -> & H2). exists (new ++ new2). rewrite app_assoc. split; [done|].
    destruct Hn as [Hn|(before & mark & s & after & -> & Hb & Ha & Hp)]; [left; by apply Forall_app|right].
    exists before, mark, s, (after ++ new2). rewrite <- !app_assoc. split_and!; [done..|by apply Forall_app|done].
Qed.

(** An effect that is not silent splits a trace in one way. *)
Lemma split_silent l a before s s' after : Forall silent l → Forall silent a →
  l ++ ModelCalled s' :: a = before ++ ModelCalled s :: after → before = l ∧ s = s' ∧ after = a.
Proof.
  intros Hl Ha. revert before. induction Hl as [|e l He Hl IH]; intros [|e' before] E; simplify_eq/=; [done|..].
  - apply Forall_app in Ha as [_ [[] _]%Forall_cons].
  - done.
  - match goal with E : _ = _ |- _ => by destruct (IH _ E) as (-> & -> & ->) end.
Qed.

(** C12: A run that calls the model calls it once, and only when all of this holds: the turn is not
    cancelled; its latest call of the model is not completed and has attempts left; the steps, the time
    and the compute of the turn are within their limits; the request fits the context window, and needs
    no compaction first; the cost of the request was reserved, when there is a budget; and the commit
    before, which kept the lease, marked this very request as running with one more attempt. Between
    that commit and the call only the start of the message is added to the stream. *)
Theorem model_called_cleared w before s after :
  w_trace w = [] → sn_state (w_snapshot w) = CallingModel → w_trace (execute w).2 = before ++ ModelCalled s :: after →
  sn_cancelled (w_snapshot w) = false ∧ Forall silent before ∧ Forall silent after
  ∧ ∃ earlier mark, before = earlier ++ [Committed mark; opened s] ∧ request_cleared (w_snapshot w) [] earlier mark s.
Proof.
  intros Ht Hst E. pose proof (execute_once [] (w_snapshot w) Hst w Ht eq_refl) as H. destruct (execute w) as [r w'].
  cbn in E. destruct H as (new & Hn & H). rewrite E in Hn. cbn in Hn. subst new. destruct H as [H|(b & mark & s' & a & E' & Hb & Ha & Hc & Hp)].
  - apply Forall_app in H as [_ [[] _]%Forall_cons].
  - change (request mark s' ++ a) with ([Committed mark; opened s'] ++ ModelCalled s' :: a) in E'. rewrite app_assoc in E'.
    symmetry in E'. apply split_silent in E' as (-> & -> & ->); [|by apply Forall_app; split; [|repeat constructor]|done].
    split_and!; [done|by apply Forall_app; split; [|repeat constructor]|done|by exists b, mark].
Qed.

End requests.

Lemma model_called_cleared_witness :
  Forall silent (take 4 the_effects) ∧ Forall silent (drop 5 the_effects)
  ∧ ∃ earlier mark, take 4 the_effects = earlier ++ [Committed mark; opened the_request]
      ∧ request_cleared phase_options a_host a_client a_model_turn [] earlier mark the_request.
Proof.
  apply (model_called_cleared demo_number js_le (λ s, s) ascii_lower (map upper_unit) None default_options phase_options a_host a_client a_model_world).
  - reflexivity.
  - reflexivity.
  - vm_compute. reflexivity.
Defined.
