(* ===== verification/TurnAnswers.v ===== *)
(** * Answers of the model

    Where the calls of a turn come from, and what becomes of every answer. *)

From S2P Require Import Prelude JsMap JsString Double ToolArguments Json ProviderErrors ToolFailures Prompts TurnSteps TurnCalls TurnRunner TurnRunnerFacts TurnTraces TurnJournal TurnPhases TurnPhasesFacts TurnDemo.
From Stdlib Require Import Lia.

Set Default Goal Selector "!".

(** ** Which answers run calls *)

Definition CUT_SHORT : list jstr := map js ["length"; "max_tokens"]%string.

Lemma duplicate_from_None seen calls : duplicate_from seen calls = None → NoDup (map ti_id calls) ∧ ∀ c, c ∈ calls → ti_id c ∉ seen.
Proof.
  revert seen. induction calls as [|c calls IH]; intros seen; cbn; [intros _; split; [constructor|by intros c ?%not_elem_of_nil]|].
  destruct (bool_decide (ti_id c ∈ seen)) eqn:E; [done|]. apply bool_decide_eq_false in E. intros [H1 H2]%IH. split.
  - constructor; [|done]. intros (c' & Hid & Hc')%list_elem_of_fmap. apply (H2 c' Hc'). rewrite <- Hid. by left.
  - intros c' [->|Hc']%elem_of_cons; [done|]. intros Hin. apply (H2 c' Hc'). by right.
Qed.

Lemma duplicate_from_Some seen calls id : duplicate_from seen calls = Some id → ∃ c, c ∈ calls ∧ ti_id c = id.
Proof.
  revert seen. induction calls as [|c calls IH]; intros seen; cbn; [done|]. case_bool_decide; [intros [= <-]; exists c; split; [by left|done]|].
  intros (c' & Hc' & <-)%IH. exists c'. split; [by right|done].
Qed.

(** The calls of an answer have ids that differ, when none is empty. *)
Definition distinct_calls (calls : list TurnModelToolIntent) : Prop := (∀ c, c ∈ calls → ti_id c ≠ []) → NoDup (map ti_id calls).

Lemma no_duplicate calls :
  match firstDuplicateToolCallId calls with Some id => if truthy id then Some id else None | None => None end = None → distinct_calls calls.
Proof.
  unfold firstDuplicateToolCallId. destruct (duplicate_from [] calls) as [id|] eqn:E; [|intros _ _; by apply duplicate_from_None in E as [E _]].
  destruct id; [|done]. intros _ Hne. apply duplicate_from_Some in E as (c & Hc & Hid). by destruct (Hne c Hc).
Qed.

Section answers.
Context {numbers : Numbers} (number : Z → num).
Context (locale_le : jstr → jstr → bool) (sha256 toLowerCase toUpperCase : jstr → jstr) (sandbox_cwd : option jstr).
Context (options : Options) (phases : PhaseOptions) (env : Environment) (me : ModelEnvironment).

(** The calls of an answer, as they are to run. *)
Definition calls_of (sn : DurableTurnSnapshot) (definitions : list (jstr * option value)) (answer : TurnModelResult) : list TurnModelToolIntent :=
  map (run_as me sn definitions) (mr_toolCalls answer).

(** The steps of calls: one for each, in their order. *)
Definition call_steps (sn : DurableTurnSnapshot) (definitions : list (jstr * option value)) (calls : list (TurnModelToolIntent * jstr)) : list DurableTurnStep :=
  imap (λ index '(call, id), tool_step call (toolArgumentError number call (map_of_entries definitions) (me_argumentSchema me)) id
          (nextStepSequence (sn_steps sn) + Z.of_nat index)) calls.

(** The commit stores an answer with its calls. *)
Record carries (sn : DurableTurnSnapshot) (definitions : list (jstr * option value)) (text : jstr) (calls : list TurnModelToolIntent)
    (m : DurableTurnMutation) : Prop := {
  carries_steps : ∃ first ids, map mu_step (m_steps m) = first :: call_steps sn definitions (zip calls ids)
    ∧ length ids = length calls ∧ st_type first = js "model.call" ∧ st_state first = Completed;
  carries_answer : ∃ a, m_assistant m = Some a ∧ aa_text a = text ∧ aa_toolCalls a = map (λ c, (ti_id c, ti_name c, ti_input c)) calls;
}.

(** The commit moves the turn to tools with the calls of an answer of the model. *)
Definition asked_by_answer (sn : DurableTurnSnapshot) (m : DurableTurnMutation) : Prop :=
  ∃ step definitions tr maxTokens answer,
    latestStep (sn_steps sn) "model.call" = Some step ∧ ml_result (me_call me tr step maxTokens) = Ok answer
    ∧ toLowerCase <$> mr_finishReason answer ∉ map Some (js "content_filter" :: CUT_SHORT)
    ∧ stringValue (field "wrapUp" (Some (st_input step))) = None
    ∧ calls_of sn definitions answer ≠ [] ∧ distinct_calls (calls_of sn definitions answer)
    ∧ carries sn definitions (mr_text answer) (calls_of sn definitions answer) m.

(** ** Commits that move to tools *)

(** A commit that is tried moves to tools only with an answer. *)
Definition answered_by (sn : DurableTurnSnapshot) (e : Effect) : Prop :=
  ∀ m, attempt e = Some m → m_nextState m = ExecutingTool → asked_by_answer sn m.

Abbreviation answers sn0 := (keeps any_snapshot (answered_by sn0)).

Lemma answers_other sn0 sn m : m_nextState m ≠ ExecutingTool → answers sn0 sn (commit env m).
Proof. intros H. apply keep_commit; [done|..]; by intros ? [= <-] ?. Qed.
Lemma answers_wake sn0 sn sn1 m : m_nextState m ≠ ExecutingTool → answers sn0 sn (commitAndWake env sn1 m).
Proof. intros H. unfold commitAndWake. by case_bool_decide; apply answers_other. Qed.
Lemma answers_emit sn0 sn e : attempt e = None → answers sn0 sn (emit e).
Proof. intros H. apply keep_emit; [done|]. intros m. by rewrite H. Qed.
Lemma answers_update sn0 sn step : answers sn0 sn (update_step step).
Proof. by apply keep_update. Qed.

(** Follows a computation none of whose commits move to tools. *)
Ltac others :=
  repeat first [ by apply answers_other | by apply answers_wake | by apply answers_emit | apply answers_update | progress keep | case_match ].

Lemma answers_caught sn0 sn message retry f : answers sn0 sn (caught env message retry f).
Proof. unfold caught, failRun, transitionAmbiguousToolToRecovery. destruct f; others. Qed.
Lemma answers_cancelRun sn0 sn : answers sn0 sn (cancelRun env).
Proof. unfold cancelRun. others. Qed.
Lemma answers_assemble sn0 sn : answers sn0 sn (assemble env me).
Proof. unfold assemble. others. Qed.
Lemma answers_compact sn0 sn : answers sn0 sn (compact phases env me).
Proof. unfold compact. others. Qed.
Lemma answers_finalize sn0 sn : answers sn0 sn (finalize env me).
Proof. unfold finalize, publicationMessages. others. Qed.
Lemma answers_compaction sn0 sn step tokens : answers sn0 sn (requestCompaction env me step tokens).
Proof. unfold requestCompaction. others. Qed.
Lemma answers_budget sn0 sn reason : answers sn0 sn (finishForBudget toLowerCase env reason).
Proof. unfold finishForBudget. others. Qed.
(** *** The answer that is taken *)

(** The snapshot, but for entries that were added. *)
Record journaled (sn0 sn : DurableTurnSnapshot) : Prop := {
  journaled_id : sn_id sn = sn_id sn0;
  journaled_request : sn_runtimeRequest sn = sn_runtimeRequest sn0;
  journaled_steps : sn_steps sn = sn_steps sn0;
}.

Lemma journaled_run_as sn0 sn definitions call : journaled sn0 sn → run_as me sn definitions call = run_as me sn0 definitions call.
Proof. intros [H1 H2 _]. unfold run_as, policy_for, permission_mode. by rewrite H1, H2. Qed.
Lemma journaled_calls sn0 sn definitions answer : journaled sn0 sn → calls_of sn definitions answer = calls_of sn0 definitions answer.
Proof. intros H. unfold calls_of. apply map_ext. intros call. by apply journaled_run_as. Qed.
Lemma journaled_carries sn0 sn definitions text calls m : journaled sn0 sn → carries sn definitions text calls m → carries sn0 definitions text calls m.
Proof. intros [_ _ H] [H1 H2]. split; [|done]. unfold call_steps in *. by rewrite <- H. Qed.

Lemma map_plain l : map mu_step (map plain l) = l.
Proof. rewrite map_map. apply map_id. Qed.
Lemma zip_fresh {A} (l : list A) (l' : list (A * jstr)) : l'.*1 = l → l' = zip l (l'.*2) ∧ length (l'.*2) = length l.
Proof. intros <-. rewrite !length_fmap. split; [|done]. induction l' as [|[a id] l' IH]; [done|]. cbn. by rewrite <- IH. Qed.

Lemma answers_accept sn0 sn step definitions messageId reports result progress : st_type step = js "model.call" →
  (mr_toolCalls result ≠ [] → ∀ m, carries sn definitions (mr_text result) (mr_toolCalls result) m → asked_by_answer sn0 m) →
  answers sn0 sn (acceptResponse number env me step definitions messageId reports result progress).
Proof.
  intros Ht Hq. unfold acceptResponse. keep. destruct (zip_fresh _ _ H) as [Hz Hl].
  match goal with |- answers _ _ (commitAndWake _ _ ?m) => set (m0 := m) end.
  assert (Hm : ∀ outbox, m_nextState (with_outbox outbox m0) = ExecutingTool → asked_by_answer sn0 (with_outbox outbox m0)).
  { intros outbox Hn. apply Hq; [|split; [|by eexists]].
    - intros E. rewrite E in Hl. destruct l' as [|x l']; [|by cbn in Hl]. by subst m0.
    - eexists _, (l'.*2). rewrite <- Hz. split_and!; [cbn; rewrite map_plain; reflexivity|done|exact Ht|done]. }
  unfold commitAndWake. case_bool_decide; apply keep_commit; try done; intros ? [= <-]; [..|apply Hm|apply Hm].
  all: intros Hn; by specialize (Hm (m_outbox m0) Hn).
Qed.
Lemma answers_empty sn0 sn step messageId reports result progress : answers sn0 sn (emptyResponse env me step messageId reports result progress).
Proof. unfold emptyResponse. others. Qed.

(** The answer of the model for the latest call of the snapshot. *)
Definition latest_answer (sn : DurableTurnSnapshot) (step : DurableTurnStep) (answer : TurnModelResult) : Prop :=
  latestStep (sn_steps sn) "model.call" = Some step ∧ ∃ tr maxTokens, ml_result (me_call me tr step maxTokens) = Ok answer.

(** Destructs the condition of a computation. *)
Ltac branch E := match goal with |- keeps _ _ _ (if ?b then _ else _) => destruct b eqn:E end.

Lemma answers_handle sn0 sn step definitions maxTokens messageId reports answer progress : journaled sn0 sn → latest_answer sn0 step answer →
  answers sn0 sn (handleResponse number toLowerCase env me step definitions maxTokens messageId reports answer progress).
Proof.
  intros Hj (Hl & tr & tokens & Ha). pose proof (latestStep_spec _ _ _ Hl) as [_ Htype]. unfold handleResponse. keep.
  branch E; [keep|]. cbn [with_calls mr_toolCalls mr_text mr_finishReason].
  change (map (run_as me sn definitions) (mr_toolCalls answer)) with (calls_of sn definitions answer).
  destruct (match firstDuplicateToolCallId _ with Some _ => _ | None => _ end) eqn:Ed; [keep|]. apply no_duplicate in Ed.
  branch E1; [others|]. branch E2; [others|]. branch E3; [apply answers_empty|]. clear E3. apply answers_accept; [done|].
  apply orb_false_iff in E1 as [E11%bool_decide_eq_false E12%bool_decide_eq_false]. apply bool_decide_eq_false in E2.
  destruct (stringValue _) as [reason|] eqn:Ew.
  - intros Hne m. destruct (_ || _) eqn:E4; [done|]. apply orb_false_iff in E4 as [E4 _]. cbn in Hne.
    destruct (calls_of sn definitions answer); [done|]. discriminate.
  - cbn. intros Hne m Hm. exists step, definitions, tr, tokens, answer.
    rewrite <- (journaled_calls _ _ _ _ Hj). split_and!; try done; [|by eapply journaled_carries].
    cbn. rewrite !not_elem_of_cons. split_and!; [done..|apply not_elem_of_nil].
Qed.

Lemma answers_request sn0 sn step definitions maxTokens : journaled sn0 sn → latestStep (sn_steps sn0) "model.call" = Some step →
  answers sn0 sn (requestModel number toLowerCase env me step definitions maxTokens).
Proof.
  intros Hj Hl. unfold requestModel. apply keep_snapshot. cbn zeta. intros tr. apply leads_bind.
  assert (Hjournal : leads tr sn (journalContext env me) (λ r tr' sn', keeping any_snapshot (answered_by sn0) tr r tr' sn' ∧ journaled sn0 sn')).
  { unfold journalContext, ask, push_entries. walk. destruct (me_context me tr) as [ids|f]; [|split; [by apply keeping_refl|done]].
    destruct (_ =? _)%nat; walk; [split; [by apply keeping_refl|done]|intros w Ht Hs; cbn; rewrite Ht, Hs|];
      (split; [apply keeping_one; [done|by intros ? [= <-]]|by destruct Hj]). }
  eapply leads_mono; [exact Hjournal|]. intros [[]|f] tr1 sn1 [Hk Hj1]; [|done].
  match goal with |- leads _ _ ?m _ => assert (Hm : answers sn0 sn1 m) end.
  2: { eapply leads_mono; [apply Hm|]. intros r tr2 sn2 H2. by eapply keeping_trans. }
  apply keep_uuid. intros messageId. apply keep_now. intros t. cbn zeta. apply keep_commit_bind; [done|by intros ? [= <-]..|].
  apply keep_append_bind; [done|done|]. apply keep_trace. intros trace. apply keep_emit_bind; [done|done|]. apply keep_now. intros t'.
  destruct (ml_result _) as [answer|f] eqn:Ea.
  - apply keep_commit_bind; [done|by intros ? [= <-]..|]. apply answers_handle; [done|]. split; [done|by eexists _, _].
  - keep. destruct (model_cancelled f); others.
Qed.

Lemma answers_reserve sn0 sn step definitions tokens maxTokens : journaled sn0 sn → latestStep (sn_steps sn0) "model.call" = Some step →
  answers sn0 sn (reserveAndCall number toLowerCase env me step definitions tokens maxTokens).
Proof.
  intros Hj Hl. unfold reserveAndCall, reserveNextModelCall. apply keep_snapshot, keep_assoc, keep_trace. intros tr.
  destruct (e_reserve env tr _) as [answer|]; [|by apply answers_request].
  apply keep_assoc, keep_emit_bind; [done|done|]. apply keep_assoc. intros tr'. walk. destruct answer as [d|f]; [|by apply keeping_refl].
  walk. match goal with |- leads _ _ ?m _ => assert (Hm : answers sn0 sn m); [|apply Hm] end.
  branch E; [by apply answers_request|]. branch E'; keep. apply answers_budget.
Qed.

Lemma answers_callModel sn : answers sn sn (callModel number toLowerCase phases env me).
Proof.
  unfold callModel. keep. destruct (latestStep (sn_steps sn) "model.call") as [step|] eqn:El; [|keep].
  branch E; [others|]. keep. destruct (model_limit _ _ _ _ _); [keep|]. apply keep_commit_bind; [done|by intros ? [= <-]..|]. keep.
  branch E1; [apply answers_compaction|]. branch E2; [keep|]. by apply answers_reserve.
Qed.

(** ** Every run *)

Abbreviation execute := (execute number locale_le sha256 toLowerCase toUpperCase sandbox_cwd options phases env me).

Lemma execute_answers sn : sn_state sn ≠ ExecutingTool → answers sn sn execute.
Proof.
  intros Hst. unfold execute, dispatch. apply keep_catch; [|intros f sn' _; apply answers_caught]. keep.
  branch E; [others; apply answers_cancelRun|]. destruct (sn_state sn); try done;
    first [apply answers_callModel | others; first [apply answers_assemble | apply answers_compact | apply answers_finalize]].
Qed.

(** C13: The calls a turn executes are those of an answer: a run that does not execute tools tries a
    commit that moves the turn to its tools only if it got an answer of the model for the latest call of
    the model, which was neither cut short nor filtered nor meant to be the last, with calls of different
    ids. That commit completes the call of the model, stores the text and the calls of the answer, and
    adds exactly one step per call, in the order of the calls, as the call is to run. *)
Theorem tools_asked_by_answer w e m :
  w_trace w = [] → sn_state (w_snapshot w) ≠ ExecutingTool → e ∈ w_trace (execute w).2 → attempt e = Some m →
  m_nextState m = ExecutingTool → asked_by_answer (w_snapshot w) m.
Proof.
  intros Ht Hst He Ha Hn. pose proof (execute_answers _ Hst [] w Ht eq_refl) as H. destruct (execute w) as [r w'].
  destruct H as (_ & new & E & H). cbn in He, E. rewrite E in He. rewrite Forall_forall in H. by apply (H e He).
Qed.
(** ** What becomes of an answer *)

Inductive Fate :=
| LeaseLost
| Refused (message : jstr) (streamed : list Effect)
| AskedAgain
| Answered (text : jstr) (calls : list TurnModelToolIntent).

Definition blank (text : jstr) : bool := negb (truthy (trim text)).
Definition finished_by (reason : string) (answer : TurnModelResult) : bool := bool_decide (toLowerCase <$> mr_finishReason answer = Some (js reason)).

Definition wraps_up (step : DurableTurnStep) : option jstr := stringValue (field "wrapUp" (Some (st_input step))).

(** The fate of an answer, with its calls as they run: a final answer runs no calls, an
    empty answer is asked for once more. The stream gets the end of the message, unless
    the answer was cut short, with the requests to the provider and the usage. *)
Definition fate (retained : bool) (step : DurableTurnStep) (maxTokens : Z) (messageId : jstr) (reports : list (option Z))
    (answer : TurnModelResult) (calls : list TurnModelToolIntent) : Fate :=
  let ended := [Appended (end_events messageId reports answer)] in
  let secondTime := bool_decide (field "recoveryReason" (Some (st_input step)) = Some (JStr (js "empty_response"))) in
  match retained, firstDuplicateToolCallId calls with
  | false, _ => LeaseLost
  | true, Some (c :: id) => Refused (DUPLICATE_ID ++ (c :: id) ++ js ".") []
  | true, _ =>
      if finished_by "length" answer || finished_by "max_tokens" answer then Refused (providerLengthStopMessage answer maxTokens) [Appended (attempt_events reports ++ usage_events answer)]
      else if finished_by "content_filter" answer then Refused CONTENT_FILTER ended
      else
        match wraps_up step, calls with
        | None, [] => if blank (mr_text answer) then (if secondTime then Refused EMPTY_TWICE ended else AskedAgain) else Answered (mr_text answer) []
        | None, _ => Answered (mr_text answer) calls
        | Some reason, [] => if blank (mr_text answer) then Answered (finalAnswerFallback toLowerCase reason) [] else Answered (mr_text answer) []
        | Some reason, _ => Answered (finalAnswerFallback toLowerCase reason) []
        end
  end.

Lemma fallback_not_blank reason : blank (finalAnswerFallback toLowerCase reason) = false.
Proof. unfold blank. rewrite trim_keeps; [done|]. exists 73%N. split; [by left|done]. Qed.

(** The steps of an answer that was empty: the call of the model ends, another begins. *)
Definition asks_again (sn : DurableTurnSnapshot) (step : DurableTurnStep) (m : DurableTurnMutation) : Prop :=
  m_nextState m = CallingModel ∧ ∃ output id,
    map mu_step (m_steps m) = [set_output output (set_state Completed step);
      model_step sn id (nextStepSequence (sn_steps sn)) [(js "recoveryReason", JStr (js "empty_response"))] (js ":empty-response-recovery")].

(** What a run does with an answer of this fate, whose message ends with these events. *)
Definition meets (sn : DurableTurnSnapshot) (step : DurableTurnStep) (definitions : list (jstr * option value)) (messageId : jstr)
    (ended : list TurnEvent) (tr : list Effect) (f : Fate) (r : result Failure TurnRunState) (tr' : list Effect) : Prop :=
  match f with
  | LeaseLost => r = Err (RetryableError LOST_AFTER_MODEL) ∧ tr' = tr
  | Refused message streamed => r = Err (TerminalError message) ∧ tr' = tr ++ streamed
  | AskedAgain => r = Ok CallingModel ∧ ∃ m, tr' = tr ++ [Committed m] ∧ asks_again sn step m
      ∧ m_events m = ended
  | Answered text calls =>
      let next := match calls with [] => Finalizing | _ => ExecutingTool end in
      r = Ok next ∧ ∃ m, tr' = tr ++ [Committed m] ∧ m_nextState m = next ∧ carries sn definitions text calls m
      ∧ m_events m = match wraps_up step with Some _ => [MessageDeltaEvent messageId text] | None => [] end ++ ended
  end.

Section accepted.
Context (Hcommit : ∀ tr m, e_commit env tr m = None) (Happend : ∀ tr events, me_append me tr events = None).

Lemma leads_accepted tr sn m Q : Q (Ok tt) (tr ++ [Committed m]) sn → leads tr sn (commit env m) Q.
Proof. intros H w <- <-. unfold commit, gets, mbind, M_bind. by rewrite Hcommit. Qed.
Lemma leads_woken tr sn sn1 m Q : (∀ outbox, Q (Ok tt) (tr ++ [Committed (with_outbox outbox m)]) sn) → leads tr sn (commitAndWake env sn1 m) Q.
Proof.
  intros H. unfold commitAndWake. case_bool_decide; apply leads_accepted; [|apply H].
  specialize (H (m_outbox m)). by destruct m.
Qed.

Lemma refused_leads tr sn step definitions messageId ended output events message :
  leads tr sn (do! update_step (set_output output step) in do! append_events me events in throw (TerminalError message))
    (λ r tr' _, meets sn step definitions messageId ended tr (Refused message [Appended events]) r tr').
Proof. unfold append_events. walk. rewrite Happend. by walk. Qed.

Lemma accept_leads tr sn step definitions messageId reports answer progress : st_type step = js "model.call" →
  leads tr sn (acceptResponse number env me step definitions messageId reports answer progress)
    (λ r tr' _, meets sn step definitions messageId (end_events messageId reports answer) tr (Answered (mr_text answer) (mr_toolCalls answer)) r tr').
Proof.
  intros Ht. unfold acceptResponse. walk. destruct (zip_fresh _ _ H) as [Hz Hl]. apply leads_woken. intros outbox. walk.
  set (steps := imap _ l').
  assert (Hn : (if (0 <? length steps)%nat then ExecutingTool else Finalizing) = match mr_toolCalls answer with [] => Finalizing | _ => ExecutingTool end).
  { unfold steps. rewrite length_imap, <- H, <- length_fmap with (f := fst). by destruct (l'.*1). }
  split; [by rewrite Hn|]. eexists. split_and!; [done|by rewrite <- Hn| |done]. split; [|by eexists].
  eexists _, (l'.*2). rewrite <- Hz. split_and!; [cbn; rewrite map_plain; reflexivity|done|exact Ht|done].
Qed.

Lemma empty_leads tr sn step definitions messageId reports answer progress :
  leads tr sn (emptyResponse env me step messageId reports answer progress)
    (λ r tr' _, meets sn step definitions messageId (end_events messageId reports answer) tr
       (if bool_decide (field "recoveryReason" (Some (st_input step)) = Some (JStr (js "empty_response")))
        then Refused EMPTY_TWICE [Appended (end_events messageId reports answer)] else AskedAgain) r tr').
Proof.
  unfold emptyResponse. walk. case_bool_decide; [apply refused_leads|]. walk. apply leads_woken. intros outbox. walk.
  split; [done|]. eexists. split; [done|]. split; [|done]. split; [done|]. by eexists _, _.
Qed.

(** What follows when the answer has no duplicate calls. *)
Lemma distinct_leads tr sn step definitions messageId reports answer calls progress :
  let result := with_calls calls (mr_text answer) answer in
  let wrapUpReason := wraps_up step in
  let taken := match wrapUpReason with
               | Some reason => if (0 <? length calls)%nat || blank (mr_text answer)
                                then with_calls [] (finalAnswerFallback toLowerCase reason) result else result
               | None => result
               end in
  st_type step = js "model.call" →
  leads tr sn (if blank (mr_text taken) && (length (mr_toolCalls taken) =? 0)%nat
               then emptyResponse env me step messageId reports taken progress
               else acceptResponse number env me step definitions messageId reports taken progress)
    (λ r tr' _, meets sn step definitions messageId (end_events messageId reports answer) tr
       (match wrapUpReason, calls with
        | None, [] => if blank (mr_text answer)
                      then (if bool_decide (field "recoveryReason" (Some (st_input step)) = Some (JStr (js "empty_response")))
                            then Refused EMPTY_TWICE [Appended (end_events messageId reports answer)] else AskedAgain)
                      else Answered (mr_text answer) []
        | None, _ => Answered (mr_text answer) calls
        | Some reason, [] => if blank (mr_text answer) then Answered (finalAnswerFallback toLowerCase reason) [] else Answered (mr_text answer) []
        | Some reason, _ => Answered (finalAnswerFallback toLowerCase reason) []
        end) r tr').
Proof.
  intros result wrapUpReason taken Ht. subst taken result. destruct wrapUpReason as [reason|], calls as [|c calls]; cbn -[blank].
  - destruct (blank (mr_text answer)) eqn:Eb; cbn -[blank]; [rewrite fallback_not_blank|rewrite Eb]; cbn; by apply accept_leads.
  - rewrite fallback_not_blank. by apply accept_leads.
  - destruct (blank (mr_text answer)) eqn:Eb; cbn; [|by apply accept_leads].
    exact (empty_leads tr sn step definitions messageId reports (with_calls [] (mr_text answer) answer) progress).
  - rewrite andb_false_r. by apply accept_leads.
Qed.

Lemma handle_leads tr sn step definitions maxTokens messageId reports answer progress retained :
  me_retained me tr = Ok retained → st_type step = js "model.call" →
  leads tr sn (handleResponse number toLowerCase env me step definitions maxTokens messageId reports answer progress)
    (λ r tr' _, meets sn step definitions messageId (end_events messageId reports answer) tr
       (fate retained step maxTokens messageId reports answer (calls_of sn definitions answer)) r tr').
Proof.
  intros Hr Ht. unfold handleResponse, ask. walk. rewrite Hr. change (map (run_as me sn definitions) (mr_toolCalls answer)) with (calls_of sn definitions answer).
  cbn [with_calls mr_toolCalls mr_text mr_finishReason]. generalize (calls_of sn definitions answer). intros calls.
  unfold fate, finished_by. destruct retained; cbn [negb]; [|by walk].
  destruct (firstDuplicateToolCallId calls) as [[|c id]|]; cbn [truthy length Nat.eqb negb];
    [|walk; cbn; by rewrite app_nil_r|];
    (match goal with |- leads _ _ (if ?b then _ else _) _ => destruct b end; [by apply refused_leads|]);
    (match goal with |- leads _ _ (if ?b then _ else _) _ => destruct b end; [by apply refused_leads|]);
    by apply distinct_leads.
Qed.
End accepted.

(** C14: Every answer of the model meets one fate, when the commits and the events of the run are accepted.
    An answer whose calls share an id is refused, and so is one that was cut short, that was filtered, or
    that was empty for the second time: the run ends with an error that says so, no commit stores the
    answer, and the stream gets the requests to the provider and the usage, with the end of the message
    unless it was cut short (nothing for shared ids). A run that has lost its lease leaves no trace and is
    retried. A final answer, after a guard stopped the use of tools, runs no calls: the text that came with
    calls, or with no text, is replaced. An answer with neither text nor calls is asked for once more. Any
    other answer is stored with one step per call, and the run goes on with the calls, or ends when there
    are none; the commit carries the same events, and the text that was withheld of a final answer. *)
Theorem answer_handled w step definitions maxTokens messageId reports answer progress retained :
  (∀ tr m, e_commit env tr m = None) → (∀ tr events, me_append me tr events = None) →
  me_retained me (w_trace w) = Ok retained → st_type step = js "model.call" →
  let '(r, w') := handleResponse number toLowerCase env me step definitions maxTokens messageId reports answer progress w in
  meets (w_snapshot w) step definitions messageId (end_events messageId reports answer) (w_trace w)
    (fate retained step maxTokens messageId reports answer (calls_of (w_snapshot w) definitions answer)) r (w_trace w').
Proof. intros Hc Ha Hr Ht. by apply (handle_leads Hc Ha (w_trace w) (w_snapshot w)). Qed.
End answers.

Lemma tools_asked_by_answer_witness :
  m_nextState the_answer_commit = ExecutingTool ∧ asked_by_answer demo_number ascii_lower a_client a_model_turn the_answer_commit.
Proof.
  assert (Hn : m_nextState the_answer_commit = ExecutingTool) by (vm_compute; reflexivity). split; [exact Hn|].
  apply (tools_asked_by_answer demo_number js_le (λ s, s) ascii_lower (map upper_unit) None default_options phase_options a_host a_client a_model_world
           (Committed the_answer_commit)).
  - reflexivity.
  - discriminate.
  - apply list_elem_of_lookup. exists 6%nat. vm_compute. reflexivity.
  - reflexivity.
  - exact Hn.
Defined.

(** A last answer that came with a call: nothing is run. *)
Definition wrap_up_step : DurableTurnStep := model_step a_model_turn (js "model") 1 [(js "wrapUp", JStr (js "Budget used up."))] [].
Definition mail_answer : TurnModelResult :=
  {| mr_text := js "Sent."; mr_reasoning := None; mr_finishReason := Some (js "tool_calls"); mr_providerResponseId := None;
     mr_outputTokens := None; mr_toolCalls := [mail_call]; mr_usage := Some JNull |}.

Lemma answer_handled_witness :
  let '(r, w') := handleResponse demo_number ascii_lower a_host a_client wrap_up_step [] 8000 (js "m") [Some 1%Z] mail_answer (progressState a_model_turn) a_model_world in
  meets demo_number a_client a_model_turn wrap_up_step [] (js "m") (end_events (js "m") [Some 1%Z] mail_answer) [] (Answered (finalAnswerFallback ascii_lower (js "Budget used up.")) []) r (w_trace w').
Proof.
  apply (answer_handled demo_number ascii_lower a_host a_client a_model_world wrap_up_step [] 8000 (js "m") [Some 1%Z] mail_answer (progressState a_model_turn) true).
  - intros tr m. reflexivity.
  - intros tr events. reflexivity.
  - reflexivity.
  - reflexivity.
Defined.
