(* ===== verification/TurnSystem.v ===== *)
(** * A turn and its workers

    The rows of a turn, the workers that claimed it, and the requests of people, as one
    system. A worker that claimed a turn runs [execute] on the snapshot it got; its
    commits reach the rows, are refused, or are applied without the worker learning of
    it. It may stop at any point, and go on after its lease is lost. Clocks are not
    assumed to agree or to advance: each step has its own [now].

    A claim and the reading of the rows it claimed are one step: whatever changes rows
    between them takes the lease away. A claim whose rows cannot be read is released. *)

From S2P Require Import Prelude JsMap JsString ToolArguments Json ProviderErrors ToolFailures Prompts TurnSteps TurnCalls TurnRunner TurnRunnerFacts TurnTraces TurnJournal TurnPhases.
From Stdlib Require Import Lia.

Set Default Goal Selector "!".

(** A claim of the turn, and what its worker did since. *)
Record Worker := { wk_owner : jstr; wk_generation : Z; wk_snapshot : DurableTurnSnapshot; wk_trace : list Effect }.

(** [sy_retried] lists the steps a person had run again, [sy_granted] those a person approved. *)
Record System := { sy_journal : Journal; sy_workers : list Worker; sy_retried : list jstr; sy_granted : list jstr }.

Definition with_journal (j : Journal) (s : System) : System :=
  {| sy_journal := j; sy_workers := sy_workers s; sy_retried := sy_retried s; sy_granted := sy_granted s |}.
Definition with_workers (l : list Worker) (s : System) : System :=
  {| sy_journal := sy_journal s; sy_workers := l; sy_retried := sy_retried s; sy_granted := sy_granted s |}.
Definition acts (e : Effect) (wk : Worker) : Worker :=
  {| wk_owner := wk_owner wk; wk_generation := wk_generation wk; wk_snapshot := wk_snapshot wk; wk_trace := wk_trace wk ++ [e] |}.

(** The id, the sequence and the key tell rows apart. *)
Record distinct (rows : list DurableTurnStep) : Prop := {
  distinct_id : ∀ x y, x ∈ rows → y ∈ rows → st_id x = st_id y → x = y;
  distinct_sequence : ∀ x y, x ∈ rows → y ∈ rows → st_sequence x = st_sequence y → x = y;
  distinct_key : ∀ x y k, x ∈ rows → y ∈ rows → st_idempotencyKey x = Some k → st_idempotencyKey y = Some k → x = y;
}.

(** ** What people do *)

Inductive Request :=
| Decide (expired : bool) (approvalId : jstr) (approved : bool)
| Answer (expired : bool) (questionId : jstr) (output : json) (newId : jstr)
| Cancel
| Recover (action : RecoveryAction) (newId : jstr).

Definition serve (r : Request) (j : Journal) : Journal :=
  match r with
  | Decide expired id approved => decideApproval expired id approved j
  | Answer expired id output newId => answerQuestion expired id output newId j
  | Cancel => cancelActiveDurableRun j
  | Recover action newId => recover action newId j
  end.

(** The step a request runs again. *)
Definition retried_by (r : Request) (j : Journal) : list jstr :=
  match r, jn_recovery j with
  | Recover RetryTool _, Some (id, _) => if bool_decide (jn_state j = RecoveryRun) then [id] else []
  | _, _ => []
  end.

(** The step a request lets run. *)
Definition granted_by (r : Request) (j : Journal) : list jstr :=
  match r with
  | Decide false id true =>
      match find_first (λ a, bool_decide (ap_id a = id)) (jn_approvals j) with
      | Some a => if is_pending a && bool_decide (jn_state j = WaitingRun) then match ap_stepId a with Some s => [s] | None => [] end else []
      | None => []
      end
  | _ => []
  end.

(** ** What workers do *)

(** Steps that are no calls, and calls that are new, have ids of their own. *)
Definition fresh_ids (m : DurableTurnMutation) (j : Journal) : Prop :=
  ∀ x, x ∈ m_steps m →
    (isToolStep (mu_step x) = false →
       ∀ y, (y ∈ jn_steps j ∨ y ∈ map mu_step (m_steps m)) → isToolStep y = true → st_id y ≠ st_id (mu_step x))
    ∧ (isToolStep (mu_step x) = true → st_state (mu_step x) = Pending → ∀ row, row ∈ jn_steps j → st_id row ≠ st_id (mu_step x)).

(** What an effect of a worker does to the rows. *)
Inductive effect_on (now : Z) (wk : Worker) (j : Journal) : Effect → Journal → Prop :=
| effect_committed m j' :
    fresh_ids m j → commit_journal now (wk_owner wk) (wk_generation wk) m j = Ok j' → effect_on now wk j (Committed m) j'
| effect_unanswered m j' :
    fresh_ids m j → commit_journal now (wk_owner wk) (wk_generation wk) m j = Ok j' → effect_on now wk j (CommitFailed m) j'
| effect_refused m : effect_on now wk j (CommitFailed m) j
| effect_appended events : effect_on now wk j (Appended events) j
| effect_executed c : effect_on now wk j (Executed c) j
| effect_called s : effect_on now wk j (ModelCalled s) j
| effect_reserved cost : effect_on now wk j (Reserved cost) j
| effect_released error : effect_on now wk j (Released error) (release (wk_owner wk) (wk_generation wk) error j)
| effect_unreleased error : effect_on now wk j (Released error) j.

Section system.
Context {numbers : Numbers} (number : Z → num).
Context (locale_le : jstr → jstr → bool) (sha256 toLowerCase toUpperCase : jstr → jstr) (sandbox_cwd : option jstr).
Context (options : Options) (phases : PhaseOptions).

(** The effects are the first ones of a run on the snapshot, in some surroundings. *)
Definition may_trace (sn : DurableTurnSnapshot) (tr : list Effect) : Prop :=
  ∃ env me ticks uuids rest,
    w_trace (execute number locale_le sha256 toLowerCase toUpperCase sandbox_cwd options phases env me
               {| w_trace := []; w_snapshot := sn; w_ticks := ticks; w_uuids := uuids |}).2 = tr ++ rest.

Inductive turn_step (s : System) : System → Prop :=
| step_claim now owner seconds entries j' :
    claim now owner seconds (sy_journal s) = Some j' →
    turn_step s (with_journal j' (with_workers
      (sy_workers s ++ [{| wk_owner := owner; wk_generation := jn_generation j'; wk_snapshot := mapSnapshot entries j'; wk_trace := [] |}]) s))
| step_effect now i wk e j' :
    sy_workers s !! i = Some wk → may_trace (wk_snapshot wk) (wk_trace wk ++ [e]) →
    effect_on now wk (sy_journal s) e j' →
    turn_step s (with_journal j' (with_workers (<[i := acts e wk]> (sy_workers s)) s))
| step_heartbeat now i wk seconds j' :
    sy_workers s !! i = Some wk → heartbeat now (wk_owner wk) seconds (wk_generation wk) (sy_journal s) = Some j' →
    turn_step s (with_journal j' s)
| step_release i wk error :
    sy_workers s !! i = Some wk →
    turn_step s (with_journal (release (wk_owner wk) (wk_generation wk) error (sy_journal s)) s)
| step_request r :
    turn_step s {| sy_journal := serve r (sy_journal s); sy_workers := sy_workers s;
                   sy_retried := retried_by r (sy_journal s) ++ sy_retried s;
                   sy_granted := granted_by r (sy_journal s) ++ sy_granted s |}.

(** A turn that was admitted: no calls of tools, no approvals, no workers. *)
Definition admitted (s : System) : Prop :=
  distinct (jn_steps (sy_journal s)) ∧ (∀ row, row ∈ jn_steps (sy_journal s) → isToolStep row = false)
  ∧ jn_approvals (sy_journal s) = [] ∧ jn_questions (sy_journal s) = []
  ∧ jn_lease (sy_journal s) = None ∧ terminal (jn_state (sy_journal s)) = false
  ∧ sy_workers s = [] ∧ sy_retried s = [] ∧ sy_granted s = [].

Inductive turn_reachable : System → Prop :=
| reachable_admitted s : admitted s → turn_reachable s
| reachable_step s s' : turn_reachable s → turn_step s s' → turn_reachable s'.

End system.

(** ** What is counted *)

Definition runs_once (id : jstr) (e : Effect) : bool :=
  match e with Executed c => bool_decide (st_id c = id) && manual c | _ => false end.

(** How often workers called a tool, for a step that is not repeated by itself. *)
Definition executions (id : jstr) (s : System) : nat :=
  sum_list_with (λ wk, length (List.filter (runs_once id) (wk_trace wk))) (sy_workers s).

Definition count_of (id : jstr) (l : list jstr) : nat := length (List.filter (λ x, bool_decide (x = id)) l).
Definition retries (id : jstr) (s : System) : nat := count_of id (sy_retried s).
