(* ===== verification/TurnSystemFacts.v ===== *)
(** * A call that is not repeated runs once

    Invariants of the system of a turn, its workers and the people who decide for it. *)

From S2P Require Import Prelude JsMap JsString ToolArguments Json ProviderErrors ToolFailures Prompts TurnSteps TurnCalls TurnRunner TurnRunnerFacts TurnTraces TurnJournal TurnPhases TurnPhasesFacts TurnSystem.
From Stdlib Require Import Lia.

Set Default Goal Selector "!".

(** ** Rows *)

Lemma same_key_spec key row : same_key key row = true ↔ ∃ k, key = Some k ∧ st_idempotencyKey row = Some k.
Proof.
  unfold same_key. destruct key as [k|]; [|split; [done|by intros (? & ? & _)]]. rewrite bool_decide_eq_true.
  split; [by exists k|]. by intros (k' & [= <-] & ?).
Qed.

Lemma conflicts_none s rows : existsb (conflicts s) rows = false →
  ∀ row, row ∈ rows → st_id row ≠ st_id s ∧ st_sequence row ≠ st_sequence s ∧ same_key (st_idempotencyKey s) row = false.
Proof.
  intros H row Hrow. assert (Hc : conflicts s row = false).
  { destruct (conflicts s row) eqn:E; [|done]. assert (existsb (conflicts s) rows = true); [|congruence].
    apply existsb_exists. exists row. by rewrite <- list_elem_of_In. }
  unfold conflicts in Hc. apply orb_false_iff in Hc as [[H1 H2]%orb_false_iff H3]. apply bool_decide_eq_false in H1.
  apply Z.eqb_neq in H2. done.
Qed.

Lemma distinct_snoc rows s : distinct rows → (∀ row, row ∈ rows → st_id row ≠ st_id s ∧ st_sequence row ≠ st_sequence s ∧ same_key (st_idempotencyKey s) row = false) →
  distinct (rows ++ [s]).
Proof.
  intros [H1 H2 H3] H. assert (Hk : ∀ row k, row ∈ rows → st_idempotencyKey row = Some k → st_idempotencyKey s = Some k → False).
  { intros row k Hrow E1 E2. destruct (H row Hrow) as (_ & _ & E). assert (same_key (st_idempotencyKey s) row = true); [|congruence].
    apply same_key_spec. by exists k. }
  split; intros x y *; rewrite !elem_of_app, !list_elem_of_singleton; intros [Hx| ->] [Hy| ->]; try done; eauto; intros.
  - by destruct (H x Hx).
  - by destruct (H y Hy).
  - by destruct (H x Hx) as (_ & ? & _).
  - by destruct (H y Hy) as (_ & ? & _).
  - exfalso. by eapply Hk.
  - exfalso. by eapply Hk.
Qed.

(** A change of rows that leaves what tells them apart. *)
Definition keeps_identity (f : DurableTurnStep → DurableTurnStep) : Prop :=
  ∀ row, st_id (f row) = st_id row ∧ st_sequence (f row) = st_sequence row ∧ st_idempotencyKey (f row) = st_idempotencyKey row.

Lemma distinct_map rows f : distinct rows → keeps_identity f → distinct (map f rows).
Proof.
  intros [H1 H2 H3] Hf. split; intros x y *; intros (x' & -> & Hx)%list_elem_of_fmap (y' & -> & Hy)%list_elem_of_fmap;
    destruct (Hf x') as (Ex & Ex' & Ex''), (Hf y') as (Ey & Ey' & Ey''); rewrite ?Ex, ?Ex', ?Ex'', ?Ey, ?Ey', ?Ey''; intros; f_equal; eauto.
Qed.

(** [updated] may give a row the key of its mutation, if no other row has it. *)
Lemma distinct_updated now x rows :
  distinct rows → (∀ row, row ∈ rows → same_key (st_idempotencyKey (mu_step x)) row = true → st_id row = st_id (mu_step x)) →
  distinct (update_row (st_id (mu_step x)) (updated now x) rows).
Proof.
  intros [H1 H2 H3] Hk. split; intros r1 r2 *; intros (x1 & -> & Hx1)%list_elem_of_fmap (x2 & -> & Hx2)%list_elem_of_fmap;
    repeat case_bool_decide; cbn; intros; try (exfalso; congruence); try (f_equal; eauto; by apply H1; congruence); eauto.
  - assert (x1 = x2) by by apply H2. by subst x2.
  - assert (x1 = x2) by by apply H2. by subst x2.
  - unfold coalesce in *. exfalso. destruct (st_idempotencyKey (mu_step x)) as [k'|] eqn:E; simplify_eq/=.
    + apply H0, Hk; [done|]. unfold same_key. by apply bool_decide_eq_true.
    + assert (x1 = x2) by by eapply H3. by subst x2.
  - unfold coalesce in *. exfalso. destruct (st_idempotencyKey (mu_step x)) as [k'|] eqn:E; simplify_eq/=.
    + apply H, Hk; [done|]. unfold same_key. by apply bool_decide_eq_true.
    + assert (x1 = x2) by by eapply H3. by subst x2.
Qed.

(** What an upsert does: a new row, nothing, or the update of the row of its id. *)
Inductive upserted (now : Z) (x : DurableStepMutation) (rows : list DurableTurnStep) : list DurableTurnStep → Prop :=
| upserted_new :
    (∀ row, row ∈ rows → st_id row ≠ st_id (mu_step x) ∧ st_sequence row ≠ st_sequence (mu_step x)
                         ∧ same_key (st_idempotencyKey (mu_step x)) row = false) →
    upserted now x rows (rows ++ [inserted now x])
| upserted_replay row :
    row ∈ rows → same_key (st_idempotencyKey (mu_step x)) row = true → st_id row ≠ st_id (mu_step x) → upserted now x rows rows
| upserted_row row :
    row ∈ rows → st_id row = st_id (mu_step x) →
    (same_key (st_idempotencyKey (mu_step x)) row = true ∨ ∀ r, r ∈ rows → same_key (st_idempotencyKey (mu_step x)) r = false) →
    upserted now x rows (update_row (st_id (mu_step x)) (updated now x) rows).

Lemma upsertStep_cases now x rows rows' : upsertStep now x rows = Ok rows' → upserted now x rows rows'.
Proof.
  unfold upsertStep. cbn zeta. destruct (existsb _ rows) eqn:E; cbn [negb].
  2: { intros [= <-]. constructor. by apply conflicts_none. }
  destruct (find_first (same_key _) rows) as [row|] eqn:Ek.
  - apply find_first_Some in Ek as [Hrow Hk]. rewrite Hk, andb_true_r.
    destruct (bool_decide (st_id row = st_id (mu_step x))) eqn:Ei; rewrite ?andb_false_r, ?andb_true_r; cbn [negb andb].
    + apply bool_decide_eq_true in Ei. intros [= <-]. rewrite Ei. econstructor; eauto.
    + apply bool_decide_eq_false in Ei. destruct (truthy_opt _); [|done]. intros [= <-]. by econstructor.
  - destruct (find_first (λ row, (st_sequence row =? _)%Z) rows) as [row|] eqn:Es; [|done].
    apply find_first_Some in Es as [Hrow _]. assert (Hk : ∀ r, r ∈ rows → same_key (st_idempotencyKey (mu_step x)) r = false) by by apply find_first_None.
    rewrite (Hk row Hrow), andb_false_r. cbn [negb andb].
    destruct (bool_decide (st_id row = st_id (mu_step x))) eqn:Ei; [|done]. apply bool_decide_eq_true in Ei.
    intros [= <-]. rewrite Ei. econstructor; eauto.
Qed.

Lemma upserted_distinct now x rows rows' : distinct rows → upserted now x rows rows' → distinct rows'.
Proof.
  intros Hd [H|row Hrow Hk Hi|row Hrow Hi Hk]; [by apply distinct_snoc|done|]. apply distinct_updated; [done|].
  intros r Hr E. destruct Hk as [Hk|Hk]; [|by rewrite Hk in E]. apply same_key_spec in E as (k & E1 & E2).
  apply same_key_spec in Hk as (k' & E3 & E4). rewrite <- Hi. f_equal. eapply distinct_key; [exact Hd|done|done|exact E2|congruence].
Qed.

Lemma updated_same now x row : same_call row (mu_step x) → same_call row (updated now x row).
Proof.
  intros H. split; [done|done|done| | |by apply (same_input _ _ H)]; cbn; unfold coalesce.
  - rewrite (same_class _ _ H). by destruct (st_retryClass row).
  - rewrite (same_idempotency _ _ H). by destruct (st_idempotencyKey row).
Qed.

(** *** The upserts of a commit *)

Section upserts.
Context (now : Z) (rows0 : list DurableTurnStep) (all : list DurableStepMutation).
Context (Hdistinct0 : distinct rows0).

(** The mutation of a call is of a call there is, or of a new one. *)
Definition of_row (x : DurableStepMutation) : Prop := ∃ row0, row0 ∈ rows0 ∧ same_call row0 (mu_step x).
Definition of_none (x : DurableStepMutation) : Prop := st_state (mu_step x) = Pending ∧ ∀ row0, row0 ∈ rows0 → st_id row0 ≠ st_id (mu_step x).
Context (Hcalls : ∀ x, x ∈ all → isToolStep (mu_step x) = true → of_row x ∨ of_none x).
Context (Hothers : ∀ x, x ∈ all → isToolStep (mu_step x) = false →
  ∀ y, (y ∈ rows0 ∨ y ∈ map mu_step all) → isToolStep y = true → st_id y ≠ st_id (mu_step x)).

(** What became of the row of a call. *)
Inductive row_outcome (l : list DurableStepMutation) (row : DurableTurnStep) : Prop :=
| row_kept row0 : row0 ∈ rows0 → same_call row0 row → st_state row = st_state row0 →
    (∀ x, x ∈ l → isToolStep (mu_step x) = true → st_id (mu_step x) ≠ st_id row) → row_outcome l row
| row_changed row0 x : row0 ∈ rows0 → same_call row0 row → x ∈ l → isToolStep (mu_step x) = true → same_call row0 (mu_step x) →
    st_state row = st_state (mu_step x) → row_outcome l row
| row_new x : (∀ row0, row0 ∈ rows0 → st_id row0 ≠ st_id row) → x ∈ l → isToolStep (mu_step x) = true → st_id (mu_step x) = st_id row →
    st_state row = Pending → row_outcome l row.

Record upserts_done (l : list DurableStepMutation) (rows : list DurableTurnStep) : Prop := {
  done_distinct : distinct rows;
  done_persist : ∀ row0, row0 ∈ rows0 → isToolStep row0 = true → ∃ row, row ∈ rows ∧ same_call row0 row;
  done_outcome : ∀ row, row ∈ rows → isToolStep row = true → row_outcome l row;
}.

Lemma upserts_start : upserts_done [] rows0.
Proof.
  split; [done|by eexists|]. intros row Hrow _. eapply row_kept; [exact Hrow|done|done|]. by intros x Hx%not_elem_of_nil.
Qed.

Lemma outcome_more l x row :
  row_outcome l row → (isToolStep (mu_step x) = true → st_id (mu_step x) = st_id row → of_none x) → row_outcome (l ++ [x]) row.
Proof.
  intros [row0 H0 Hs Hst Hl|row0 y H0 Hs Hy Hty Hsy Hst|y H0 Hy Hty Hid Hst] Hx.
  - eapply row_kept; [exact H0|done|done|]. intros y [Hy| ->%list_elem_of_singleton]%elem_of_app Ht; [by apply Hl|].
    intros E. destruct (Hx Ht E) as [_ Hn]. apply (Hn row0 H0). by rewrite E, (same_id _ _ Hs).
  - eapply row_changed; eauto. set_solver.
  - eapply row_new; eauto. set_solver.
Qed.

(** The call of a known mutation has a row. *)
Lemma of_row_row l rows x : upserts_done l rows → isToolStep (mu_step x) = true → of_row x →
  ∃ row, row ∈ rows ∧ same_call row (mu_step x).
Proof.
  intros H Ht (row0 & H0 & Hs). destruct (done_persist _ _ H row0 H0) as (row & Hrow & Hs').
  - by rewrite <- (same_tool _ _ Hs).
  - exists row. split; [done|]. etrans; [by symmetry|done].
Qed.

Lemma tool_row_ids l rows x row : upserts_done l rows → l ⊆ all → x ∈ all → isToolStep (mu_step x) = false →
  row ∈ rows → isToolStep row = true → st_id row ≠ st_id (mu_step x).
Proof.
  intros H Hl Hx Hf Hrow Ht. destruct (done_outcome _ _ H row Hrow Ht) as [row0 H0 Hs _ _|row0 y H0 Hs _ _ _ _|y _ Hy Hty Hid _].
  1,2: rewrite (same_id _ _ Hs); apply (Hothers x Hx Hf); [by left|by rewrite <- (same_tool _ _ Hs)].
  rewrite <- Hid. apply (Hothers x Hx Hf); [|done]. right. apply list_elem_of_fmap_2, Hl, Hy.
Qed.

Lemma upserts_more l rows x rows' : upserts_done l rows → l ⊆ all → x ∈ all → upsertStep now x rows = Ok rows' → upserts_done (l ++ [x]) rows'.
Proof.
  intros H Hl Hx Hup%upsertStep_cases. pose proof H as [Hd Hp Ho].
  split; [by eapply upserted_distinct|..].
  - intros row0 H0 Ht. destruct (Hp row0 H0 Ht) as (row & Hrow & Hs). destruct Hup as [Hn|r Hr _ _|r Hr Hi Hk].
    + exists row. split; [set_solver|done].
    + by exists row.
    + destruct (decide (st_id row = st_id (mu_step x))) as [E|E].
      2: { exists row. split; [|done]. apply list_elem_of_fmap. exists row. by rewrite bool_decide_eq_false_2. }
      exists (updated now x row). split; [apply list_elem_of_fmap; exists row; by rewrite bool_decide_eq_true_2|].
      assert (Htr : isToolStep row = true) by by rewrite (same_tool _ _ Hs).
      destruct (isToolStep (mu_step x)) eqn:Htx; [|by destruct (tool_row_ids _ _ _ row H Hl Hx Htx Hrow Htr)].
      destruct (Hcalls x Hx Htx) as [(r0 & Hr0 & Hs0)|[_ Hnone]].
      2: { destruct (Hnone row0 H0). by rewrite <- E, (same_id _ _ Hs). }
      assert (r0 = row0) as -> by (apply (distinct_id _ Hdistinct0); [done..|]; by rewrite <- (same_id _ _ Hs0), <- E, (same_id _ _ Hs)).
      etrans; [exact Hs|]. apply updated_same. etrans; [by symmetry|done].
  - intros row Hrow Ht. destruct Hup as [Hn|r Hr Hk Hi|r Hr Hi Hk].
    + apply elem_of_app in Hrow as [Hrow| ->%list_elem_of_singleton].
      * apply outcome_more; [by apply Ho|]. intros _ E. by destruct (Hn row Hrow).
      * change (isToolStep (mu_step x) = true) in Ht. destruct (Hcalls x Hx Ht) as [Hrow|[Hpend Hnone]].
        -- destruct (of_row_row _ _ _ H Ht Hrow) as (row & Hr & Hs). destruct (Hn row Hr) as [[] _]. symmetry. apply (same_id _ _ Hs).
        -- eapply (row_new _ _ x); [exact Hnone|set_solver|done|done|done].
    + apply outcome_more; [by apply Ho|]. intros Htx E. destruct (Hcalls x Hx Htx) as [Hx'|]; [exfalso|done].
      destruct (of_row_row _ _ _ H Htx Hx') as (row1 & Hr1 & Hs). apply Hi. rewrite (same_id _ _ Hs). f_equal.
      apply same_key_spec in Hk as (k & E1 & E2). eapply distinct_key; [exact Hd|done|done|exact E2|]. by rewrite <- (same_idempotency _ _ Hs).
    + apply list_elem_of_fmap in Hrow as (row1 & -> & Hrow). case_bool_decide as E.
      2: { apply outcome_more; [by apply Ho|]. intros _ E'. by rewrite E' in E. }
      change (isToolStep row1 = true) in Ht.
      destruct (isToolStep (mu_step x)) eqn:Htx; [|by destruct (tool_row_ids _ _ _ row1 H Hl Hx Htx Hrow Ht)].
      destruct (Hcalls x Hx Htx) as [(r0 & Hr0 & Hs0)|[Hpend Hnone]].
      * destruct (of_row_row _ _ _ H Htx ltac:(by exists r0)) as (row2 & Hrow2 & Hs2).
        assert (row2 = row1) as -> by (apply (distinct_id _ Hd); [done..|]; by rewrite E, (same_id _ _ Hs2)).
        eapply (row_changed _ _ r0 x); [done| |set_solver|done..].
        etrans; [exact Hs0|]. etrans; [symmetry; exact Hs2|]. by apply updated_same.
      * eapply (row_new _ _ x); [|set_solver|done|by symmetry|done]. intros r0 Hr0. cbn. rewrite E. by apply Hnone.
Qed.

Lemma upserts_all l l' rows rows' : upserts_done l rows → l ++ l' ⊆ all → upsert_steps now l' rows = Ok rows' → upserts_done (l ++ l') rows'.
Proof.
  revert l rows. induction l' as [|x l' IH]; intros l rows H Hl Hup; cbn in Hup.
  - injection Hup as <-. by rewrite app_nil_r.
  - destruct (upsertStep now x rows) as [rows1|f] eqn:E; [|done]. change (l ++ x :: l') with (l ++ [x] ++ l') in *. rewrite app_assoc in *.
    eapply IH; [|done|exact Hup]. eapply upserts_more; [exact H|set_solver|set_solver|done].
Qed.

Lemma upsert_steps_done rows' : upsert_steps now all rows0 = Ok rows' → upserts_done all rows'.
Proof. intros H. by apply (upserts_all [] all rows0 rows' upserts_start). Qed.
End upserts.

(** ** The journal *)

(** How many runs a row still allows. *)
Definition opens (row : DurableTurnStep) : nat := if bool_decide (st_state row ∈ [Pending; Waiting]) then 1 else 0.

Definition nobody_asked (j : Journal) : Prop :=
  (∀ a, a ∈ jn_approvals j → is_pending a = false) ∧ (∀ q, q ∈ jn_questions j → qu_pending q = false).

(** One person is asked at most, about a call that waits, while the run waits. *)
Record sound (j : Journal) : Prop := {
  sound_rows : distinct (jn_steps j);
  sound_lease : terminal (jn_state j) = true → jn_lease j = None;
  sound_approvals : ∀ a b, a ∈ jn_approvals j → b ∈ jn_approvals j → ap_id a = ap_id b → a = b;
  sound_approval : ∀ a, a ∈ jn_approvals j → is_pending a = true → jn_state j = WaitingRun
    ∧ (∀ b, b ∈ jn_approvals j → is_pending b = true → b = a) ∧ (∀ q, q ∈ jn_questions j → qu_pending q = false)
    ∧ ∃ row, row ∈ jn_steps j ∧ ap_stepId a = Some (st_id row) ∧ st_state row = Waiting;
  sound_question : ∀ q, q ∈ jn_questions j → qu_pending q = true → jn_state j = WaitingRun
    ∧ (∀ p, p ∈ jn_questions j → qu_pending p = true → qu_id p = qu_id q);
}.

Lemma sound_quiet j : distinct (jn_steps j) → (terminal (jn_state j) = true → jn_lease j = None) →
  (∀ a b, a ∈ jn_approvals j → b ∈ jn_approvals j → ap_id a = ap_id b → a = b) → nobody_asked j → sound j.
Proof.
  intros H1 H2 H3 [Ha Hq]. split; try done.
  - intros a Hin Hp. by rewrite Ha in Hp.
  - intros q Hin Hp. by rewrite Hq in Hp.
Qed.

Lemma sound_nobody j : sound j → jn_state j ≠ WaitingRun → nobody_asked j.
Proof.
  intros H Hs. split.
  - intros a Ha. destruct (is_pending a) eqn:E; [|done]. by destruct (sound_approval _ H a Ha E).
  - intros q Hq. destruct (qu_pending q) eqn:E; [|done]. by destruct (sound_question _ H q Hq E).
Qed.

(** Approvals that change keep their ids. *)
Lemma unique_map (l : list DurableApproval) f : (∀ a, ap_id (f a) = ap_id a) →
  (∀ a b, a ∈ l → b ∈ l → ap_id a = ap_id b → a = b) → ∀ a b, a ∈ map f l → b ∈ map f l → ap_id a = ap_id b → a = b.
Proof.
  intros Hf H a b (x & -> & Hx)%list_elem_of_fmap (y & -> & Hy)%list_elem_of_fmap. rewrite !Hf. intros E. f_equal. by apply H.
Qed.

Lemma expire_id a : ap_id (if is_pending a then set_status Expired a else a) = ap_id a.
Proof. by destruct (is_pending a). Qed.
Lemma expired_not_pending l a : a ∈ expire_approvals l → is_pending a = false.
Proof. intros (b & -> & _)%list_elem_of_fmap. destruct (is_pending b) eqn:E; done. Qed.
Lemma closed_not_pending l q : q ∈ map close_question l → qu_pending q = false.
Proof. by intros (b & -> & _)%list_elem_of_fmap. Qed.

(** Rows that are closed, or set in a state. *)
Lemma closed_same state reason row : same_call row (close_row state reason row).
Proof. by split. Qed.

Lemma terminal_children next rows row : row ∈ closeTerminalChildren next rows →
  ∃ row1, row1 ∈ rows ∧ same_call row1 row ∧ (st_state row = st_state row1 ∨ settled (st_state row) = true).
Proof.
  intros (row1 & -> & H)%list_elem_of_fmap. exists row1. split; [done|]. case_bool_decide; [|by split; [|left]].
  split; [by split|right]. cbn. by destruct (bool_decide _).
Qed.

Lemma settled_opens row : settled (st_state row) = true → opens row = 0%nat.
Proof. unfold settled, opens. by destruct (st_state row). Qed.

Lemma opens_one row : st_state row = Pending ∨ st_state row = Waiting → opens row = 1%nat.
Proof. unfold opens. by intros [-> | ->]. Qed.
Lemma opens_running row : st_state row = Running → opens row = 0%nat.
Proof. unfold opens. by intros ->. Qed.
Lemma opens_at_most row : (opens row <= 1)%nat.
Proof. unfold opens. case_bool_decide; lia. Qed.

(** ** Commits *)

(** The mutation is of the calls of the turn, or adds new ones; who is asked is asked
    about a call of the turn. *)
Record fits (m : DurableTurnMutation) (j : Journal) : Prop := {
  fits_calls : ∀ x, x ∈ m_steps m → isToolStep (mu_step x) = true → of_row (jn_steps j) x ∨ of_none (jn_steps j) x;
  fits_others : fresh_ids m j;
  fits_waits : m_expectedState m = WaitingRun → terminal (m_nextState m) = true;
  fits_keeps : m_keepLease m = true → terminal (m_nextState m) = false;
  fits_asks : asks m;
  fits_asked : m_approval m ≠ None → ∀ x, x ∈ m_steps m → isToolStep (mu_step x) = true → of_row (jn_steps j) x;
}.

Record committed (owner : jstr) (generation : Z) (m : DurableTurnMutation) (j j' : Journal) (rows : list DurableTurnStep) : Prop := {
  committed_lease : ∃ expires, jn_lease j = Some (owner, expires);
  committed_generation : jn_generation j = generation ∧ jn_generation j' = generation;
  committed_state : jn_state j = m_expectedState m ∧ jn_state j' = m_nextState m;
  committed_kept : jn_lease j' = if m_keepLease m then jn_lease j else None;
  committed_steps : jn_steps j' = if terminal (m_nextState m) then closeTerminalChildren (m_nextState m) rows else rows;
  committed_approvals : jn_approvals j' = let l := insertApproval (m_approval m) (jn_approvals j) in
    if terminal (m_nextState m) then expire_approvals l else l;
  committed_questions : jn_questions j' = let l := insertQuestion (m_question m) (jn_questions j) in
    if terminal (m_nextState m) then map close_question l else l;
}.

Lemma commit_journal_spec now owner generation m j j' : commit_journal now owner generation m j = Ok j' →
  ∃ rows, upsert_steps now (m_steps m) (jn_steps j) = Ok rows ∧ committed owner generation m j j' rows.
Proof.
  unfold commit_journal. destruct (jn_lease j) as [[o expires]|] eqn:El; [|done]. cbn zeta.
  destruct (bool_decide (o = owner)) eqn:Eo; [|done]. destruct (now <? expires)%Z; [|done].
  destruct (jn_generation j =? generation)%Z eqn:Eg; [|done]. cbn [negb andb].
  destruct (bool_decide (jn_state j = m_expectedState m)) eqn:Es; [|done]. cbn [negb].
  destruct (jn_cancelled j && _); [done|]. destruct (upsert_steps now (m_steps m) (jn_steps j)) as [rows|f]; [|done].
  intros [= <-]. exists rows. split; [done|]. apply bool_decide_eq_true in Eo as ->. apply Z.eqb_eq in Eg. apply bool_decide_eq_true in Es.
  split; try done; [by eexists|cbn; by rewrite El].
Qed.

Lemma insertApproval_in approval l a : a ∈ insertApproval approval l →
  a ∈ l ∨ ∃ am, approval = Some am ∧ a = {| ap_id := am_id am; ap_stepId := Some (am_stepId am); ap_status := ApprovalPending |}
                ∧ ∀ b, b ∈ l → ap_id b ≠ am_id am.
Proof.
  unfold insertApproval. destruct approval as [am|]; [|by left]. destruct (existsb _ l) eqn:E; [by left|].
  rewrite elem_of_app, list_elem_of_singleton. intros [H|H]; [by left|]. right. exists am. split_and!; [done|done|].
  intros b Hb Hid. assert (existsb (λ b, bool_decide (ap_id b = am_id am)) l = true); [|congruence].
  apply existsb_exists. exists b. rewrite <- list_elem_of_In. by rewrite bool_decide_eq_true_2.
Qed.

Lemma insertQuestion_in question l q : q ∈ insertQuestion question l →
  q ∈ l ∨ ∃ qm, question = Some qm ∧ q = {| qu_id := qm_id qm; qu_stepId := qm_stepId qm; qu_pending := true |}.
Proof.
  unfold insertQuestion. destruct question as [qm|]; [|by left]. destruct (existsb _ l); [by left|].
  rewrite elem_of_app, list_elem_of_singleton. intros [H|H]; [by left|]. right. by exists qm.
Qed.

Lemma insertApproval_unique approval l :
  (∀ a b, a ∈ l → b ∈ l → ap_id a = ap_id b → a = b) →
  ∀ a b, a ∈ insertApproval approval l → b ∈ insertApproval approval l → ap_id a = ap_id b → a = b.
Proof.
  intros H a b [Ha|(am & E & -> & Hn)]%insertApproval_in [Hb|(bm & E' & -> & Hn')]%insertApproval_in Hid; simplify_eq/=; try done; auto.
  - by destruct (Hn' a Ha).
  - by destruct (Hn b Hb).
Qed.

(** The rows after a commit. *)
Lemma committed_rows now owner generation m j j' rows :
  sound j → fits m j → upsert_steps now (m_steps m) (jn_steps j) = Ok rows → committed owner generation m j j' rows →
  upserts_done (jn_steps j) (m_steps m) rows ∧ distinct (jn_steps j')
  ∧ (∀ row0, row0 ∈ jn_steps j → isToolStep row0 = true → ∃ row, row ∈ jn_steps j' ∧ same_call row0 row)
  ∧ (∀ row, row ∈ jn_steps j' → isToolStep row = true → ∃ row1, row1 ∈ rows ∧ isToolStep row1 = true ∧ row_outcome (jn_steps j) (m_steps m) row1
       ∧ same_call row1 row ∧ (st_state row = st_state row1 ∨ settled (st_state row) = true)).
Proof.
  intros Hs Hf Hup Hc. pose proof (upsert_steps_done now _ _ (sound_rows _ Hs) (fits_calls _ _ Hf) (λ x Hx, proj1 (fits_others _ _ Hf x Hx)) _ Hup) as Hdone.
  pose proof Hdone as [Hd Hp Ho]. rewrite (committed_steps _ _ _ _ _ _ Hc). split; [done|].
  destruct (terminal (m_nextState m)).
  - split_and!.
    + apply distinct_map; [done|]. intros row. by case_bool_decide.
    + intros row0 H0 Ht. destruct (Hp row0 H0 Ht) as (row & Hrow & Hsame). eexists. split; [by apply list_elem_of_fmap_2|].
      etrans; [exact Hsame|]. by case_bool_decide; [apply closed_same|].
    + intros row (row1 & Hrow1 & Hsame & Hst)%terminal_children Ht. assert (isToolStep row1 = true) by by rewrite <- (same_tool _ _ Hsame).
      exists row1. by split_and!; [|..|by apply Ho| |].
  - split_and!; [done|done|]. intros row Hrow Ht. exists row. split_and!; try done; [by apply Ho|by left].
Qed.

Lemma commit_sound now owner generation m j j' :
  sound j → fits m j → commit_journal now owner generation m j = Ok j' → sound j'.
Proof.
  intros Hs Hf (rows & Hup & Hc)%commit_journal_spec. destruct (committed_rows _ _ _ _ _ _ _ Hs Hf Hup Hc) as (Hdone & Hd & _ & _).
  pose proof (committed_state _ _ _ _ _ _ Hc) as [Est Est']. pose proof (committed_approvals _ _ _ _ _ _ Hc) as Ea.
  pose proof (committed_questions _ _ _ _ _ _ Hc) as Eq. pose proof (committed_steps _ _ _ _ _ _ Hc) as Esteps. cbn zeta in Ea, Eq.
  assert (Hlease : terminal (jn_state j') = true → jn_lease j' = None).
  { rewrite Est', (committed_kept _ _ _ _ _ _ Hc). destruct (m_keepLease m) eqn:E; [|done]. by rewrite (fits_keeps _ _ Hf E). }
  pose proof (insertApproval_unique (m_approval m) _ (sound_approvals _ Hs)) as Hunique.
  destruct (terminal (m_nextState m)) eqn:Et.
  { apply sound_quiet; [done|done| |].
    - rewrite Ea. apply unique_map; [|done]. apply expire_id.
    - split; [rewrite Ea; intros ?; apply expired_not_pending|rewrite Eq; intros ?; apply closed_not_pending]. }
  destruct (sound_nobody _ Hs) as [Hna Hnq].
  { intros E. rewrite (fits_waits _ _ Hf) in Et; congruence. }
  pose proof (fits_asks _ _ Hf) as Hasks. unfold asks in Hasks.
  assert (Hq0 : m_question m = None → ∀ q, q ∈ jn_questions j' → qu_pending q = false).
  { rewrite Eq. intros -> q Hq. by apply Hnq. }
  assert (Ha0 : m_approval m = None → ∀ a, a ∈ jn_approvals j' → is_pending a = false).
  { rewrite Ea. intros -> a Ha. by apply Hna. }
  destruct (m_approval m) as [am|] eqn:Eam; destruct (m_question m) as [qm|] eqn:Eqm; [done|..].
  - destruct Hasks as (Hnext & x & Hx & Htx & Hid & Hwx). split; try done; [by rewrite Ea| |].
    + assert (Hall : ∀ a, a ∈ jn_approvals j' → is_pending a = true → a = {| ap_id := am_id am; ap_stepId := Some (am_stepId am); ap_status := ApprovalPending |}).
      { rewrite Ea. intros a [Ha|(am' & [= <-] & -> & _)]%insertApproval_in Hp; [|done]. by rewrite (Hna a Ha) in Hp. }
      intros a Ha Hp. split_and!; [congruence| |by apply Hq0|].
      * intros b Hb Hpb. by rewrite (Hall a), (Hall b).
      * rewrite (Hall a Ha Hp). cbn. assert (Hx' : x ∈ m_steps m) by (rewrite Hx; by left).
        destruct (of_row_row _ _ _ _ Hdone Htx) as (row & Hrow & Hsame); [by apply (fits_asked _ _ Hf); [rewrite Eam|..]|].
        exists row. rewrite Esteps, <- Hid, (same_id _ _ Hsame). split_and!; [done|done|].
        destruct (done_outcome _ _ _ Hdone row Hrow) as [row0 H0 _ _ Hno|row0 y H0 _ Hy _ _ Hst|y H0 Hy Hty Hyid Hst].
        -- by rewrite <- (same_tool _ _ Hsame).
        -- destruct (Hno x Hx' Htx). apply (same_id _ _ Hsame).
        -- rewrite Hx in Hy. apply list_elem_of_singleton in Hy as ->. by rewrite Hst.
        -- exfalso. destruct (fits_asked _ _ Hf ltac:(by rewrite Eam) x Hx' Htx) as (row0 & Hr0 & Hs0).
           apply (H0 row0 Hr0). by rewrite <- (same_id _ _ Hs0), (same_id _ _ Hsame).
    + intros q Hq Hp. by rewrite Hq0 in Hp.
  - split; try done; [by rewrite Ea| |].
    + intros a Ha Hp. by rewrite Ha0 in Hp.
    + assert (Hall : ∀ q, q ∈ jn_questions j' → qu_pending q = true → qu_id q = qm_id qm).
      { rewrite Eq. intros q [Hq|(qm' & [= <-] & ->)]%insertQuestion_in Hp; [|done]. by rewrite (Hnq q Hq) in Hp. }
      intros q Hq Hp. split; [congruence|]. intros p Hin Hpp. by rewrite (Hall p), (Hall q).
  - apply sound_quiet; [done|done|by rewrite Ea|]. split; [by apply Ha0|by apply Hq0].
Qed.

(** ** Requests *)

(** The calls stay, and a row allows no more runs than it did, but for those of [extra]. *)
Record rows_follow (extra : jstr → nat) (rows rows' : list DurableTurnStep) : Prop := {
  follow_persist : ∀ row0, row0 ∈ rows → isToolStep row0 = true → ∃ row, row ∈ rows' ∧ same_call row0 row;
  follow_opens : ∀ row, row ∈ rows' → isToolStep row = true → ∃ row0, row0 ∈ rows ∧ same_call row0 row ∧ (opens row <= opens row0 + extra (st_id row0))%nat;
}.

Lemma follow_refl extra rows : rows_follow extra rows rows.
Proof. split; intros row Hrow Ht; exists row; (split; [done|]); [done|]. split; [done|lia]. Qed.

Lemma follow_map extra rows f :
  (∀ row, row ∈ rows → same_call row (f row) ∧ (opens (f row) <= opens row + extra (st_id row))%nat) → rows_follow extra rows (map f rows).
Proof.
  intros H. split.
  - intros row0 H0 _. exists (f row0). split; [by apply list_elem_of_fmap_2|by apply H].
  - intros row (row0 & -> & H0)%list_elem_of_fmap _. exists row0. split; [done|by apply H].
Qed.

Lemma follow_snoc extra rows rows' call : rows_follow extra rows rows' → isToolStep call = false → rows_follow extra rows (rows' ++ [call]).
Proof.
  intros [H1 H2] Hc. split.
  - intros row0 H0 Ht. destruct (H1 row0 H0 Ht) as (row & Hrow & Hsame). exists row. split; [set_solver|done].
  - intros row [Hrow| ->%list_elem_of_singleton]%elem_of_app Ht; [by apply H2|]. by rewrite Hc in Ht.
Qed.

Lemma opens_le row row' : st_state row' = st_state row ∨ settled (st_state row') = true → (opens row' <= opens row)%nat.
Proof. intros [E|H%settled_opens]; [unfold opens; by rewrite E|lia]. Qed.

Definition no_more (_ : jstr) : nat := 0.

(** The result of a request: unchanged, or the run has left the worker. *)
Record served (extra : jstr → nat) (j j' : Journal) : Prop := {
  served_sound : sound j';
  served_rows : rows_follow extra (jn_steps j) (jn_steps j');
  served_generation : jn_generation j' = jn_generation j;
  served_lease : jn_lease j' = None ∨ jn_lease j' = jn_lease j ∧ jn_state j' = jn_state j ∧ jn_steps j' = jn_steps j;
}.

Lemma served_refl extra j : sound j → served extra j j.
Proof. intros H. split; [done|apply follow_refl|done|by right]. Qed.

Lemma update_identity id f : keeps_identity f → keeps_identity (λ row, if bool_decide (st_id row = id) then f row else row).
Proof. intros H row. case_bool_decide; [apply H|done]. Qed.

(** Rows that a wait leaves when it expires. *)
Definition wait_row (stepId found_id : option jstr) (summary : jstr) (row : DurableTurnStep) : DurableTurnStep :=
  if bool_decide (st_state row ∈ unfinished_states)
  then close_row (if bool_decide (stepId = Some (st_id row)) then Failed
                  else if bool_decide (found_id = Some (st_id row)) then RecoveryRequired else Cancelled)
                 (if bool_decide (found_id = Some (st_id row)) then WAIT_AMBIGUOUS else summary) row
  else row.

Lemma wait_row_same stepId found_id summary row :
  same_call row (wait_row stepId found_id summary row)
  ∧ (st_state (wait_row stepId found_id summary row) = st_state row ∨ settled (st_state (wait_row stepId found_id summary row)) = true).
Proof.
  unfold wait_row. case_bool_decide; [|split; [done|by left]]. split; [by split|right]. cbn. by repeat case_bool_decide.
Qed.

Lemma expireWait_steps stepId summary j : ∃ found_id, jn_steps (expireWaitTransaction stepId summary j) = map (wait_row stepId found_id summary) (jn_steps j).
Proof. by eexists. Qed.

Lemma expireWait_served stepId summary j :
  distinct (jn_steps j) → (terminal (jn_state j) = true → jn_lease j = None) →
  (∀ a b, a ∈ jn_approvals j → b ∈ jn_approvals j → ap_id a = ap_id b → a = b) →
  served no_more j (expireWaitTransaction stepId summary j).
Proof.
  intros Hd Hl Ha. destruct (expireWait_steps stepId summary j) as [found_id Es]. split.
  - apply sound_quiet.
    + rewrite Es. apply distinct_map; [done|]. intros row. destruct (wait_row_same stepId found_id summary row) as [H _].
      split_and!; apply H.
    + unfold expireWaitTransaction. cbn. destruct (terminal (jn_state j)); cbn; auto.
    + unfold expireWaitTransaction. cbn. destruct (terminal (jn_state j)); cbn; (apply unique_map; [apply expire_id|done]).
    + split; unfold expireWaitTransaction; cbn; destruct (terminal (jn_state j)); cbn; intros ?; (apply expired_not_pending || apply closed_not_pending).
  - rewrite Es. apply follow_map. intros row _. destruct (wait_row_same stepId found_id summary row) as [H1 H2%opens_le]. split; [done|lia].
  - unfold expireWaitTransaction. cbn. by destruct (terminal (jn_state j)).
  - left. unfold expireWaitTransaction. cbn. destruct (terminal (jn_state j)) eqn:E; [by auto|done].
Qed.

Lemma decided_unique approvalId status (l : list DurableApproval) :
  (∀ a b, a ∈ l → b ∈ l → ap_id a = ap_id b → a = b) →
  let l' := map (λ b, if bool_decide (ap_id b = approvalId) then set_status status b else b) l in
  ∀ a b, a ∈ l' → b ∈ l' → ap_id a = ap_id b → a = b.
Proof. intros H. apply unique_map; [|done]. intros a. by case_bool_decide. Qed.

Lemma decided_not_pending j a status b : sound j → a ∈ jn_approvals j → is_pending a = true → status ≠ ApprovalPending →
  b ∈ map (λ b, if bool_decide (ap_id b = ap_id a) then set_status status b else b) (jn_approvals j) → is_pending b = false.
Proof.
  intros Hs Ha Hp Hst (b' & -> & Hb)%list_elem_of_fmap. case_bool_decide as E; [by apply bool_decide_eq_false|].
  destruct (is_pending b') eqn:Eb; [|done]. destruct (sound_approval _ Hs a Ha Hp) as (_ & Hone & _). by rewrite (Hone b' Hb Eb) in E.
Qed.

Lemma decideApproval_served expired approvalId approved j : sound j → served no_more j (decideApproval expired approvalId approved j).
Proof.
  intros Hs. pose proof (served_refl no_more j Hs) as Hrefl. unfold decideApproval.
  destruct (find_first _ (jn_approvals j)) as [a|] eqn:Ef; [|done]. apply find_first_Some in Ef as [Ha Hid%bool_decide_eq_true].
  destruct (is_pending a) eqn:Hp; [|done]. cbn [negb]. destruct (sound_approval _ Hs a Ha Hp) as (Hw & Hone & Hq & row & Hrow & Hstep & Hwait).
  subst approvalId. rewrite !(bool_decide_eq_true_2 (jn_state _ = WaitingRun)) by done. cbn [negb]. destruct expired.
  { cbn zeta.
    set (j1 := set_approvals _ j). destruct (expireWait_served (ap_stepId a) APPROVAL_EXPIRED j1) as [H1 H2 H3 H4];
      [apply (sound_rows _ Hs)|apply (sound_lease _ Hs)|by apply decided_unique, sound_approvals|by split]. }
  cbn zeta. rewrite Hstep. set (status := if approved then Approved else Denied).
  assert (Hst : status ≠ ApprovalPending) by (unfold status; by destruct approved).
  split; [|cbn|done|by left].
  - apply sound_quiet; [|done|by apply decided_unique, sound_approvals|split; [|exact Hq]].
    + cbn. apply distinct_map; [apply (sound_rows _ Hs)|]. by apply update_identity.
    + intros b Hb. by eapply decided_not_pending.
  - apply follow_map. intros r Hr. case_bool_decide as E; [|split; [done|lia]]. split; [by split|].
    assert (r = row) as -> by by apply (distinct_id _ (sound_rows _ Hs)). rewrite !opens_one by auto. lia.
Qed.

(** A step that is completed from outside. *)
Lemma complete_step_spec stepId output call rows rows' : complete_step stepId output call rows = Some rows' → distinct rows → isToolStep call = false →
  distinct rows' ∧ rows_follow no_more rows rows'.
Proof.
  unfold complete_step. destruct (existsb _ rows) eqn:E; [done|]. intros [= <-] Hd Hc. split.
  - apply distinct_snoc; [apply distinct_map; [done|by apply update_identity]|].
    intros row (row1 & -> & H1)%list_elem_of_fmap. pose proof (conflicts_none _ _ E row1 H1). by case_bool_decide.
  - apply follow_snoc; [|done]. apply follow_map. intros row _. case_bool_decide; [|split; [done|lia]]. split; [by split|].
    rewrite settled_opens by done. lia.
Qed.

Lemma answerQuestion_served expired questionId output newId j : sound j → served no_more j (answerQuestion expired questionId output newId j).
Proof.
  intros Hs. pose proof (served_refl no_more j Hs) as Hrefl. unfold answerQuestion.
  destruct (find_first _ (jn_questions j)) as [q|] eqn:Ef; [|done]. apply find_first_Some in Ef as [Hq Hid%bool_decide_eq_true].
  destruct (qu_pending q) eqn:Hp; [|done]. cbn [negb orb]. destruct (sound_question _ Hs q Hq Hp) as (Hw & Hone).
  rewrite (bool_decide_eq_true_2 (jn_state j = WaitingRun)) by done. cbn [negb]. destruct expired.
  { apply expireWait_served; [apply (sound_rows _ Hs)|apply (sound_lease _ Hs)|apply (sound_approvals _ Hs)]. }
  cbn zeta. destruct (complete_step _ _ _ _) as [rows|] eqn:Ec; [|done].
  apply complete_step_spec in Ec as [Hd Hf]; [|apply (sound_rows _ Hs)|done]. split; [|exact Hf|done|by left].
  apply sound_quiet; [exact Hd|done|apply (sound_approvals _ Hs)|]. split.
  - intros a Ha. destruct (is_pending a) eqn:E; [|done]. destruct (sound_approval _ Hs a Ha E) as (_ & _ & Hnq & _). by rewrite (Hnq q) in Hp.
  - intros p (p' & -> & Hp')%list_elem_of_fmap. case_bool_decide as E; [done|]. destruct (qu_pending p') eqn:Ep; [|done].
    by rewrite (Hone p' Hp' Ep), Hid in E.
Qed.

Lemma cancel_served j : sound j → served no_more j (cancelActiveDurableRun j).
Proof.
  intros Hs. unfold cancelActiveDurableRun. destruct (terminal (jn_state j)); [by apply served_refl|]. cbn zeta.
  split; [|cbn|done|by left].
  - apply sound_quiet; [|done|apply unique_map; [apply expire_id|apply (sound_approvals _ Hs)]|].
    + cbn. apply distinct_map; [apply (sound_rows _ Hs)|]. intros row. by case_bool_decide.
    + split; [intros ?; apply expired_not_pending|intros ?; apply closed_not_pending].
  - apply follow_map. intros row _. case_bool_decide; [|split; [done|lia]]. split; [by split|]. apply (Nat.le_trans _ (opens row)); [|lia].
    apply opens_le. right. cbn. by case_bool_decide.
Qed.

Lemma recover_served action newId j : sound j → served (λ id, count_of id (retried_by (Recover action newId) j)) j (recover action newId j).
Proof.
  intros Hs. set (extra := λ id, _). pose proof (served_refl extra j Hs) as Hrefl. unfold recover.
  destruct (bool_decide (jn_state j = RecoveryRun)) eqn:Hst; [|done]. pose proof Hst as Hst'. apply bool_decide_eq_true in Hst'. cbn [negb].
  assert (Hl : jn_lease j = None) by (apply (sound_lease _ Hs); by rewrite Hst').
  assert (Hn : nobody_asked j) by (apply sound_nobody; [done|congruence]).
  destruct action.
  - destruct (jn_recovery j) as [[stepId call]|] eqn:Er; [|done]. split; [|cbn|done|left; exact Hl].
    + apply sound_quiet; [cbn|done|apply (sound_approvals _ Hs)|done].
      apply distinct_map; [apply (sound_rows _ Hs)|]. apply update_identity. intros row. by destruct (is_state _ row).
    + apply follow_map. intros row _. destruct (bool_decide (st_id row = stepId)) eqn:E; [|split; [done|lia]]. apply bool_decide_eq_true in E.
      destruct (is_state RecoveryRequired row); [|split; [done|lia]].
      split; [by split|]. unfold extra, count_of. cbn. rewrite Er, Hst. cbn. rewrite (bool_decide_eq_true_2 (stepId = st_id row)) by done.
      rewrite opens_one by auto. cbn. lia.
  - destruct (jn_recovery j) as [[stepId call]|]; [|done]. destruct (complete_step _ _ _ _) as [rows|] eqn:Ec; [|done].
    apply complete_step_spec in Ec as [Hd Hf]; [|apply (sound_rows _ Hs)|done]. split; [|cbn|done|left; exact Hl].
    + apply sound_quiet; [exact Hd|done|apply (sound_approvals _ Hs)|done].
    + destruct Hf as [Hf1 Hf2]. split; [done|]. intros row Hrow Ht. destruct (Hf2 row Hrow Ht) as (row0 & ? & ? & ?). exists row0.
      split_and!; [done|done|]. unfold no_more in *. lia.
  - split; [|apply follow_refl|done|left; exact Hl]. apply sound_quiet; [apply (sound_rows _ Hs)|done|apply (sound_approvals _ Hs)|done].
Qed.

Lemma serve_served r j : sound j → served (λ id, count_of id (retried_by r j)) j (serve r j).
Proof.
  intros Hs. destruct r as [e id b|e id o n| |action n]; [..|by apply recover_served].
  - by apply decideApproval_served.
  - by apply answerQuestion_served.
  - by apply cancel_served.
Qed.

(** *** Approvals *)

Lemma commit_approved now owner generation m j j' a : commit_journal now owner generation m j = Ok j' →
  a ∈ jn_approvals j' → ap_status a = Approved → a ∈ jn_approvals j.
Proof.
  intros (rows & _ & Hc)%commit_journal_spec. rewrite (committed_approvals _ _ _ _ _ _ Hc). cbn zeta. intros Ha Hst.
  assert (H : a ∈ insertApproval (m_approval m) (jn_approvals j)).
  { destruct (terminal (m_nextState m)); [|done]. apply list_elem_of_fmap in Ha as (b & -> & Hb). by destruct (is_pending b). }
  by apply insertApproval_in in H as [H|(am & _ & -> & _)].
Qed.

Lemma expired_approved l a : a ∈ expire_approvals l → ap_status a = Approved → a ∈ l.
Proof. intros (b & -> & Hb)%list_elem_of_fmap. by destruct (is_pending b). Qed.

Lemma expireWait_approved stepId summary j a :
  a ∈ jn_approvals (expireWaitTransaction stepId summary j) → ap_status a = Approved → a ∈ jn_approvals j.
Proof. unfold expireWaitTransaction. cbn. destruct (terminal (jn_state j)); cbn; apply expired_approved. Qed.

Lemma decided_approved approvalId status (l : list DurableApproval) a : status ≠ Approved →
  a ∈ map (λ b, if bool_decide (ap_id b = approvalId) then set_status status b else b) l → ap_status a = Approved → a ∈ l.
Proof. intros Hst (b & -> & Hb)%list_elem_of_fmap. by case_bool_decide. Qed.

(** An approval that is granted was granted before, or by this request. *)
Lemma serve_approved r j a id : sound j → a ∈ jn_approvals (serve r j) → ap_status a = Approved → ap_stepId a = Some id →
  a ∈ jn_approvals j ∨ id ∈ granted_by r j.
Proof.
  intros Hs. destruct r as [expired i approved|expired i o n| |action n]; cbn [serve].
  - unfold decideApproval. cbn [granted_by]. destruct (find_first _ (jn_approvals j)) as [b|] eqn:Ef; [|by left].
    apply find_first_Some in Ef as [Hb Hid%bool_decide_eq_true]. destruct (is_pending b) eqn:Hp; cbn [negb]; [|by left].
    destruct (sound_approval _ Hs b Hb Hp) as (Hw & _). rewrite !(bool_decide_eq_true_2 (jn_state _ = WaitingRun)) by done. cbn [negb andb].
    destruct expired; cbn zeta.
    + intros Ha Hst _. apply expireWait_approved in Ha; [|done]. left. by apply (decided_approved i Expired).
    + cbn. intros Ha Hst Hstep. destruct approved; [|left; by apply (decided_approved i Denied)].
      apply list_elem_of_fmap in Ha as (c & -> & Hc). case_bool_decide as E; [right|by left].
      assert (c = b) as -> by (apply (sound_approvals _ Hs); congruence). cbn in Hstep. rewrite Hstep. by left.
  - left. unfold answerQuestion in *. repeat case_match; try done. by eapply expireWait_approved.
  - intros Ha Hst _. left. unfold cancelActiveDurableRun in *. destruct (terminal _); [done|]. by apply expired_approved.
  - left. unfold recover in *. by repeat case_match.
Qed.

(** ** Traces *)

Section traces.
Context {numbers : Numbers} (number : Z → num).
Context (locale_le : jstr → jstr → bool) (sha256 toLowerCase toUpperCase : jstr → jstr) (sandbox_cwd : option jstr).
Context (options : Options) (phases : PhaseOptions).

Abbreviation may_trace := (may_trace number locale_le sha256 toLowerCase toUpperCase sandbox_cwd options phases).
Abbreviation runs_cleared := (runs_cleared locale_le sha256 toLowerCase toUpperCase sandbox_cwd options).

Lemma lead_calm_prefix sn l l' : lead_calm sn (l ++ l') → lead_calm sn l.
Proof. destruct l as [|m l]; [done|]. intros [H1 [H2 _]%Forall_app]. by split. Qed.

Lemma runs_cleared_prefix sn l l' : runs_cleared sn (l ++ l') → runs_cleared sn l.
Proof.
  intros [H1 H2]. split.
  - intros before s after ->. apply (H1 before s (after ++ l')). by rewrite <- app_assoc.
  - rewrite omap_app in H2. destruct H2 as [[H2 _]%Forall_app|H2]; [by left|right]. rewrite length_app in H2. lia.
Qed.

(** What holds of the effects of every run on a snapshot, and of the first ones of them. *)
Lemma may_trace_leads sn tr (P : list Effect → Prop) : (∀ l l', P (l ++ l') → P l) →
  (∀ env me, leads [] sn (execute number locale_le sha256 toLowerCase toUpperCase sandbox_cwd options phases env me)
     (λ _ tr' _, ∃ new, tr' = [] ++ new ∧ P new)) → may_trace sn tr → P tr.
Proof.
  intros HP Hl (env & me & ticks & uuids & rest & E).
  specialize (Hl env me {| w_trace := []; w_snapshot := sn; w_ticks := ticks; w_uuids := uuids |} eq_refl eq_refl).
  destruct (execute _ _ _ _ _ _ _ _ _ _ _) as [r w]. destruct Hl as (new & Hn & Hp). cbn in E, Hn. rewrite Hn in E. rewrite E in Hp. by eapply HP.
Qed.

Lemma may_trace_led sn tr : sn_state sn = ExecutingTool → may_trace sn tr → lead_calm sn (omap attempt tr).
Proof.
  intros Hst. apply (may_trace_leads sn tr (λ l, lead_calm sn (omap attempt l))).
  - intros l l'. rewrite omap_app. apply lead_calm_prefix.
  - intros env me. eapply leads_mono; [by apply execute_led|]. by intros r tr' sn' [_ Hn].
Qed.

Lemma may_trace_phase sn tr : sn_state sn ≠ ExecutingTool → may_trace sn tr → Forall (phase_effect sn) tr.
Proof.
  intros Hst. apply may_trace_leads; [by intros l l' [? _]%Forall_app|]. intros env me. by apply execute_phase.
Qed.

Lemma executed_state sn tr c : may_trace sn tr → Executed c ∈ tr → sn_state sn = ExecutingTool.
Proof.
  intros Hm Hc. destruct (decide (sn_state sn = ExecutingTool)) as [|Hst]; [done|]. pose proof (may_trace_phase sn tr Hst Hm) as Hp.
  rewrite Forall_forall in Hp. by destruct (Hp _ Hc).
Qed.

Lemma may_trace_cleared sn tr : may_trace sn tr → runs_cleared sn tr.
Proof. apply may_trace_leads; [apply runs_cleared_prefix|]. intros env me. apply execute_cleared. Qed.

Lemma may_trace_prefix sn tr e : may_trace sn (tr ++ [e]) → may_trace sn tr.
Proof. intros (env & me & ticks & uuids & rest & E). exists env, me, ticks, uuids, (e :: rest). by rewrite E, <- app_assoc. Qed.

(** *** Marks *)

(** The commit lets the call run. *)
Definition marks_call (id : jstr) (e : Effect) : bool :=
  match e with
  | Committed m => m_keepLease m && existsb (λ x, isToolStep (mu_step x) && bool_decide (st_id (mu_step x) = id)) (m_steps m)
  | _ => false
  end.
Definition count_if (p : Effect → bool) (tr : list Effect) : nat := length (List.filter p tr).

Lemma count_if_app p tr tr' : count_if p (tr ++ tr') = (count_if p tr + count_if p tr')%nat.
Proof. unfold count_if. by rewrite List.filter_app, length_app. Qed.
Lemma count_if_pos p tr e : e ∈ tr → p e = true → (1 <= count_if p tr)%nat.
Proof.
  intros (l1 & l2 & ->)%list_elem_of_split H. rewrite count_if_app. unfold count_if at 2. cbn. rewrite H. cbn. lia.
Qed.
Lemma count_if_zero p tr : count_if p tr = 0%nat ↔ ∀ e, e ∈ tr → p e = false.
Proof.
  split.
  - intros H e He. destruct (p e) eqn:E; [|done]. pose proof (count_if_pos p tr e He E). lia.
  - intros H. unfold count_if. induction tr as [|e tr IH]; [done|]. cbn. rewrite H by (by left). apply IH. intros e' He'. apply H. by right.
Qed.

(** A call that runs was in the snapshot, it may run, and a commit said so before. *)
Lemma executed_spec sn tr c : may_trace sn tr → Executed c ∈ tr →
  marked tr c ∧ ∃ step, same_call step c ∧ may_run locale_le sha256 toLowerCase toUpperCase sandbox_cwd options sn step.
Proof.
  intros [H _]%may_trace_cleared Hc. apply list_elem_of_split in Hc as (before & after & Htr).
  destruct (H before c after Htr) as [(m & Hm & Hin) (step & deadline & idle & -> & Hrun)]. split.
  - exists m. split; [|done]. rewrite Htr. set_solver.
  - exists step. split; [by split|done].
Qed.

Lemma may_run_once sn step : may_run locale_le sha256 toLowerCase toUpperCase sandbox_cwd options sn step →
  manual step = true → once step = true ∧ isToolStep step = true.
Proof.
  intros H Hm. destruct (run_arguments _ _ _ _ _ _ _ _ H) as [H1 H2]. pose proof (run_no_question _ _ _ _ _ _ _ _ H) as H3.
  pose proof (run_open _ _ _ _ _ _ _ _ H) as H4. unfold isRunnableToolStep in H4. apply andb_true_iff in H4 as [H4 _]. split; [|done].
  unfold once, can_run. rewrite Hm, H1, H2. by rewrite bool_decide_eq_false_2.
Qed.

(** Calls that are not repeated run as often as they are marked at most. *)
Lemma runs_marked sn tr id : may_trace sn tr → (count_if (runs_once id) tr <= count_if (marks_call id) tr)%nat.
Proof.
  intros Hm. destruct (decide (count_if (runs_once id) tr = 0%nat)) as [E|E]; [lia|].
  assert (Hex : ∃ c, Executed c ∈ tr ∧ st_id c = id ∧ manual c = true).
  { destruct (existsb (runs_once id) tr) eqn:Ee.
    - apply existsb_exists in Ee as (e & He & Hr). rewrite <- list_elem_of_In in He. destruct e as [| | |c| | |]; try done.
      cbn in Hr. apply andb_true_iff in Hr as [Hr1 Hr2]. apply bool_decide_eq_true in Hr1. by exists c.
    - destruct E. apply count_if_zero. intros e He. destruct (runs_once id e) eqn:Er; [|done].
      assert (existsb (runs_once id) tr = true); [|congruence]. apply existsb_exists. exists e. by rewrite <- list_elem_of_In. }
  destruct Hex as (c & Hc & Hid & Hman). destruct (executed_spec sn tr c Hm Hc) as [(m & Hcm & Hin) (step & Hsame & Hrun)].
  assert (H1 : (1 <= count_if (marks_call id) tr)%nat).
  { apply (count_if_pos _ _ (Committed m)); [done|]. cbn.
    assert (Ht : isToolStep c = true).
    { rewrite (same_tool _ _ Hsame). eapply may_run_once; [done|]. by rewrite <- (same_manual _ _ Hsame). }
    pose proof (lead_calm_proper _ _ (may_trace_led _ _ (executed_state _ _ _ Hm Hc) Hm)) as Hprop. rewrite Forall_forall in Hprop.
    assert (Hpm : proper sn m) by (apply Hprop; apply list_elem_of_omap; by exists (Committed m)).
    destruct (proper_steps _ _ Hpm _ Hin Ht) as (s & _ & _ & Hst). destruct (may_trace_cleared _ _ Hm) as [Hcl _].
    apply list_elem_of_split in Hc as (b & a & Htr). destruct (Hcl b c a Htr) as [_ (step' & d & i & -> & _)].
    cbn in Hst. destruct Hst as [-> _]. cbn. apply existsb_exists. eexists. split; [by rewrite <- list_elem_of_In; exact Hin|].
    cbn. apply andb_true_iff. split; [exact Ht|]. by rewrite bool_decide_eq_true_2. }
  destruct (may_trace_cleared _ _ Hm) as [_ [Hro|Hone]].
  - rewrite Forall_forall in Hro. assert (Hr : read_only c = true) by (apply Hro; apply list_elem_of_omap; by exists (Executed c)).
    unfold read_only, manual in *. apply bool_decide_eq_true in Hr, Hman. congruence.
  - assert (count_if (runs_once id) tr <= length (omap executed tr))%nat; [|lia]. clear. unfold count_if.
    induction tr as [|e tr IH]; [done|]. cbn. destruct e; cbn; try lia. destruct (_ && _); cbn; lia.
Qed.
End traces.

(** ** What a commit spends *)

(** The changes of calls that may run once leave room for [k] more runs. *)
Definition spends (k : nat) (m : DurableTurnMutation) (j : Journal) : Prop :=
  ∀ x row0, x ∈ m_steps m → isToolStep (mu_step x) = true → row0 ∈ jn_steps j → same_call row0 (mu_step x) → once row0 = true →
    (opens (mu_step x) + k <= opens row0)%nat.

Definition touches (id : jstr) (m : DurableTurnMutation) : Prop := ∃ x, x ∈ m_steps m ∧ isToolStep (mu_step x) = true ∧ st_id (mu_step x) = id.

Lemma commit_counts k now owner generation m j j' row :
  sound j → fits m j → spends k m j → commit_journal now owner generation m j = Ok j' →
  row ∈ jn_steps j' → isToolStep row = true → once row = true →
  (∃ row0, row0 ∈ jn_steps j ∧ same_call row0 row ∧ ((opens row <= opens row0)%nat ∧ ¬ touches (st_id row) m ∨ (opens row + k <= opens row0)%nat))
  ∨ ∀ row0, row0 ∈ jn_steps j → st_id row0 ≠ st_id row.
Proof.
  intros Hs Hf Hk (rows & Hup & Hc)%commit_journal_spec Hrow Ht Ho.
  destruct (committed_rows _ _ _ _ _ _ _ Hs Hf Hup Hc) as (Hdone & _ & _ & Hrows).
  destruct (Hrows row Hrow Ht) as (row1 & Hrow1 & Ht1 & Hout & Hsame & Hst%opens_le). pose proof (same_id _ _ Hsame) as Hid.
  destruct Hout as [row0 H0 Hs0 Hst0 Hno|row0 x H0 Hs0 Hx Htx Hsx Hst0|x H0 _ _ _ _].
  - left. exists row0. split_and!; [done|by etrans; [exact Hs0|]|]. left. split; [unfold opens in *; by rewrite <- Hst0|].
    intros (x & Hx & Htx & Hidx). apply (Hno x Hx Htx). congruence.
  - left. exists row0. split_and!; [done|by etrans; [exact Hs0|]|]. right.
    assert (Ho0 : once row0 = true) by by rewrite <- (same_once _ _ (transitivity Hs0 Hsame)).
    pose proof (Hk x row0 Hx Htx H0 Hsx Ho0) as H. assert (opens row1 = opens (mu_step x)) by (unfold opens; by rewrite Hst0). lia.
  - right. intros row0 Hr0. rewrite Hid. by apply H0.
Qed.

Lemma commit_persists now owner generation m j j' : sound j → fits m j → commit_journal now owner generation m j = Ok j' →
  ∀ row0, row0 ∈ jn_steps j → isToolStep row0 = true → ∃ row, row ∈ jn_steps j' ∧ same_call row0 row.
Proof.
  intros Hs Hf (rows & Hup & Hc)%commit_journal_spec. by destruct (committed_rows _ _ _ _ _ _ _ Hs Hf Hup Hc) as (_ & _ & H & _).
Qed.

(** ** The system *)

Lemma sum_insert {A} (f : A → nat) (l : list A) i x y : l !! i = Some x →
  (sum_list_with f (<[i := y]> l) + f x = sum_list_with f l + f y)%nat.
Proof.
  revert i. induction l as [|z l IH]; intros [|i] H; simplify_eq/=; [lia|]. specialize (IH i H). lia.
Qed.

Definition marks (id : jstr) (s : System) : nat := sum_list_with (λ wk, count_if (marks_call id) (wk_trace wk)) (sy_workers s).

(** The claim is the last one, and the lease is not given back. *)
Definition holds (wk : Worker) (j : Journal) : Prop := jn_lease j ≠ None ∧ wk_generation wk = jn_generation j.

Section system.
Context {numbers : Numbers} (number : Z → num).
Context (locale_le : jstr → jstr → bool) (sha256 toLowerCase toUpperCase : jstr → jstr) (sandbox_cwd : option jstr).
Context (options : Options) (phases : PhaseOptions).

Abbreviation may_trace := (may_trace number locale_le sha256 toLowerCase toUpperCase sandbox_cwd options phases).
Abbreviation turn_step := (turn_step number locale_le sha256 toLowerCase toUpperCase sandbox_cwd options phases).
Abbreviation turn_reachable := (turn_reachable number locale_le sha256 toLowerCase toUpperCase sandbox_cwd options phases).

(** What holds of a worker. *)
Record worker_fine (s : System) (wk : Worker) : Prop := {
  fine_generation : (wk_generation wk <= jn_generation (sy_journal s))%Z;
  fine_rows : ∀ c, c ∈ sn_steps (wk_snapshot wk) → isToolStep c = true → ∃ row, row ∈ jn_steps (sy_journal s) ∧ same_call c row;
  fine_trace : wk_trace wk = [] ∨ may_trace (wk_snapshot wk) (wk_trace wk);
  fine_holds : holds wk (sy_journal s) → jn_state (sy_journal s) = sn_state (wk_snapshot wk)
    ∧ (omap attempt (wk_trace wk) = [] → ∀ c, c ∈ sn_steps (wk_snapshot wk) → c ∈ jn_steps (sy_journal s));
  fine_approved : ∀ a id, a ∈ sn_approvals (wk_snapshot wk) → ap_status a = Approved → ap_stepId a = Some id → id ∈ sy_granted s;
}.

(** A call that may run once has no more marks than people had it run. *)
Record turn_invariant (s : System) : Prop := {
  inv_sound : sound (sy_journal s);
  inv_generations : NoDup (wk_generation <$> sy_workers s);
  inv_workers : ∀ wk, wk ∈ sy_workers s → worker_fine s wk;
  inv_marks : ∀ row, row ∈ jn_steps (sy_journal s) → isToolStep row = true → once row = true →
    (marks (st_id row) s + opens row <= 1 + retries (st_id row) s)%nat;
  inv_marked : ∀ id, marks id s ≠ 0%nat → ∃ row, row ∈ jn_steps (sy_journal s) ∧ isToolStep row = true ∧ st_id row = id;
  inv_approved : ∀ a id, a ∈ jn_approvals (sy_journal s) → ap_status a = Approved → ap_stepId a = Some id → id ∈ sy_granted s;
}.

Lemma admitted_invariant s : admitted s → turn_invariant s.
Proof.
  intros (H0 & H1 & H2 & H3 & H4 & H5 & H6 & H7 & H8). split.
  - apply sound_quiet; rewrite ?H2, ?H3; [done|by rewrite H5|by intros ? ? ?%not_elem_of_nil|].
    unfold nobody_asked. rewrite H2, H3. by split; intros ? ?%not_elem_of_nil.
  - rewrite H6. constructor.
  - rewrite H6. by intros ? ?%not_elem_of_nil.
  - intros row Hrow Ht. by rewrite (H1 row Hrow) in Ht.
  - intros id. unfold marks. by rewrite H6.
  - rewrite H2. by intros ? ? ?%not_elem_of_nil.
Qed.

(** A worker stays fine while the calls stay, and no lease is given but to it. *)
Lemma worker_stays s s' wk : worker_fine s wk →
  (jn_generation (sy_journal s) <= jn_generation (sy_journal s'))%Z → sy_granted s ⊆ sy_granted s' →
  (∀ row0, row0 ∈ jn_steps (sy_journal s) → isToolStep row0 = true → ∃ row, row ∈ jn_steps (sy_journal s') ∧ same_call row0 row) →
  (holds wk (sy_journal s') →
     holds wk (sy_journal s) ∧ jn_state (sy_journal s') = jn_state (sy_journal s) ∧ jn_steps (sy_journal s') = jn_steps (sy_journal s)) →
  worker_fine s' wk.
Proof.
  intros [H1 H2 H3 H4 H5] Hg Hgr Hrows Hh. split; [lia| |done| |].
  - intros c Hc Ht. destruct (H2 c Hc Ht) as (row & Hrow & Hsame). destruct (Hrows row Hrow) as (row' & Hrow' & Hsame').
    + by rewrite (same_tool _ _ Hsame).
    + exists row'. split; [done|by etrans].
  - intros Hhold. destruct (Hh Hhold) as (Hold & -> & ->). by apply H4.
  - intros a id Ha Hst Hid. by eapply Hgr, H5.
Qed.

(** The marks stay within what is allowed when each row pays for the new ones. *)
Lemma account s s' (dm extra : jstr → nat) : turn_invariant s →
  (∀ row0, row0 ∈ jn_steps (sy_journal s) → isToolStep row0 = true → ∃ row, row ∈ jn_steps (sy_journal s') ∧ same_call row0 row) →
  (∀ id, marks id s' = (marks id s + dm id)%nat) → (∀ id, retries id s' = (retries id s + extra id)%nat) →
  (∀ id, dm id ≠ 0%nat → ∃ row0, row0 ∈ jn_steps (sy_journal s) ∧ isToolStep row0 = true ∧ st_id row0 = id) →
  (∀ row, row ∈ jn_steps (sy_journal s') → isToolStep row = true → once row = true →
     (∃ row0, row0 ∈ jn_steps (sy_journal s) ∧ same_call row0 row ∧ (dm (st_id row) + opens row <= opens row0 + extra (st_id row))%nat)
     ∨ ∀ row0, row0 ∈ jn_steps (sy_journal s) → st_id row0 ≠ st_id row) →
  (∀ row, row ∈ jn_steps (sy_journal s') → isToolStep row = true → once row = true →
     (marks (st_id row) s' + opens row <= 1 + retries (st_id row) s')%nat)
  ∧ ∀ id, marks id s' ≠ 0%nat → ∃ row, row ∈ jn_steps (sy_journal s') ∧ isToolStep row = true ∧ st_id row = id.
Proof.
  intros Hi Hp Hm Hr Hd Hrows. split.
  - intros row Hrow Ht Ho. rewrite Hm, Hr. destruct (Hrows row Hrow Ht Ho) as [(row0 & H0 & Hs & Hle)|Hnew].
    + pose proof (inv_marks _ Hi row0 H0) as H. rewrite <- (same_tool _ _ Hs), <- (same_once _ _ Hs), <- (same_id _ _ Hs) in H.
      specialize (H Ht Ho). lia.
    + assert (marks (st_id row) s = 0%nat).
      { destruct (decide (marks (st_id row) s = 0%nat)) as [E|E]; [done|]. destruct (inv_marked _ Hi _ E) as (r & Hr0 & _ & Hid). by destruct (Hnew r). }
      assert (dm (st_id row) = 0%nat).
      { destruct (decide (dm (st_id row) = 0%nat)) as [E|E]; [done|]. destruct (Hd _ E) as (r & Hr0 & _ & Hid). by destruct (Hnew r). }
      pose proof (opens_at_most row). lia.
  - intros id. rewrite Hm. intros E. assert (H : ∃ row0, row0 ∈ jn_steps (sy_journal s) ∧ isToolStep row0 = true ∧ st_id row0 = id).
    { destruct (decide (dm id = 0%nat)) as [E'|E']; [apply (inv_marked _ Hi); lia|by apply Hd]. }
    destruct H as (row0 & H0 & Ht & <-). destruct (Hp row0 H0 Ht) as (row & Hrow & Hs). exists row.
    split_and!; [done|by rewrite (same_tool _ _ Hs)|apply (same_id _ _ Hs)].
Qed.

(** *** Steps that no effect of a worker makes *)

(** A lease that is renewed or given back. *)
Lemma lease_invariant s j' : turn_invariant s → sound j' → jn_steps j' = jn_steps (sy_journal s) → jn_state j' = jn_state (sy_journal s) →
  jn_approvals j' = jn_approvals (sy_journal s) → jn_generation j' = jn_generation (sy_journal s) →
  (jn_lease (sy_journal s) = None → jn_lease j' = None) → turn_invariant (with_journal j' s).
Proof.
  intros Hi Hs Hsteps Hst Hap Hg Hl. destruct (account s (with_journal j' s) (λ _, 0%nat) (λ _, 0%nat)) as [Hm Hm']; try done.
  - intros row0 H0 _. exists row0. cbn. by rewrite Hsteps.
  - cbn. rewrite Hsteps. intros row Hrow _ _. left. exists row. split_and!; [done..|lia].
  - split; [done|apply Hi| |done|done|].
    + intros wk Hwk. apply (worker_stays s); [by apply Hi|cbn; lia|done| |].
      * intros row0 H0 _. exists row0. cbn. by rewrite Hsteps.
      * intros [Hn Hgen]. cbn in *. split_and!; [|done|done]. split; [by intros ?%Hl|congruence].
    + cbn. rewrite Hap. apply Hi.
Qed.

Lemma heartbeat_invariant now s wk seconds j' : turn_invariant s → heartbeat now (wk_owner wk) seconds (wk_generation wk) (sy_journal s) = Some j' →
  turn_invariant (with_journal j' s).
Proof.
  intros Hi H. unfold heartbeat in H. destruct (owns _ _ _ && _) eqn:E; [|done]. injection H as <-. apply andb_true_iff in E as [E _].
  unfold owns in E. destruct (jn_lease (sy_journal s)) as [[o t]|] eqn:El; [|done]. apply lease_invariant; try done; [|by rewrite El].
  destruct (inv_sound _ Hi) as [H1 H2 H3 H4 H5]. split; try done. cbn. intros Ht%H2. by rewrite El in Ht.
Qed.

Lemma release_sound owner generation error j : sound j → sound (release owner generation error j).
Proof. intros H. unfold release. destruct (owns _ _ _); [|done]. destruct H as [H1 H2 H3 H4 H5]. by split. Qed.

Lemma release_invariant s owner generation error : turn_invariant s → turn_invariant (with_journal (release owner generation error (sy_journal s)) s).
Proof.
  intros Hi. apply lease_invariant; [done|by apply release_sound, Hi|..]; unfold release; by destruct (owns _ _ _).
Qed.

Lemma request_invariant s r : turn_invariant s →
  turn_invariant {| sy_journal := serve r (sy_journal s); sy_workers := sy_workers s; sy_retried := retried_by r (sy_journal s) ++ sy_retried s;
                    sy_granted := granted_by r (sy_journal s) ++ sy_granted s |}.
Proof.
  intros Hi. pose proof (serve_served r _ (inv_sound _ Hi)) as [Hs [Hp Ho] Hg Hl]. set (s' := {| sy_journal := _ |}).
  destruct (account s s' (λ _, 0%nat) (λ id, count_of id (retried_by r (sy_journal s)))) as [Hm Hm']; try done.
  - intros id. unfold retries, count_of. cbn. rewrite List.filter_app, length_app. lia.
  - intros row Hrow Ht _. left. destruct (Ho row Hrow Ht) as (row0 & H0 & Hsame & Hle). exists row0. rewrite (same_id _ _ Hsame). by split_and!.
  - split; [done|apply Hi| |done|done|].
    + intros wk Hwk. apply (worker_stays s); [by apply Hi|cbn; lia|cbn; set_solver|done|].
      intros [Hn Hgen]. cbn in *. destruct Hl as [Hl|(Hl & Hst & Hsteps)]; [done|]. split_and!; [|done|done]. split; congruence.
    + intros a id Ha Hst Hid. cbn in *. apply elem_of_app. destruct (serve_approved r _ a id (inv_sound _ Hi) Ha Hst Hid); [right|by left].
      by eapply (inv_approved _ Hi).
Qed.

(** *** Claims and commits *)

Lemma claim_invariant now owner seconds entries s j' : turn_invariant s → claim now owner seconds (sy_journal s) = Some j' →
  turn_invariant (with_journal j' (with_workers
    (sy_workers s ++ [{| wk_owner := owner; wk_generation := jn_generation j'; wk_snapshot := mapSnapshot entries j'; wk_trace := [] |}]) s)).
Proof.
  intros Hi H. unfold claim in H. destruct (negb _ && _) eqn:E; [|done]. injection H as <-. apply andb_true_iff in E as [Et%negb_true_iff _].
  set (j' := set_lease _ _ (sy_journal s)). set (wk := {| wk_owner := owner |}). set (s' := with_journal _ _).
  assert (Hmarks : ∀ id, marks id s' = (marks id s + 0)%nat).
  { intros id. unfold marks, s'. cbn. rewrite sum_list_with_app. cbn. unfold count_if. cbn. lia. }
  destruct (account s s' (λ _, 0%nat) (λ _, 0%nat)) as [Hm Hm']; try done.
  - intros row0 H0 _. by exists row0.
  - intros row Hrow _ _. left. exists row. split_and!; [done..|lia].
  - destruct (inv_sound _ Hi) as [H1 H2 H3 H4 H5]. split; [| | |done|done|apply Hi].
    + split; try done. cbn. by rewrite Et.
    + cbn. rewrite fmap_app. apply NoDup_app. split_and!; [apply Hi| |apply NoDup_singleton].
      intros g (w & -> & Hw)%list_elem_of_fmap Hg%list_elem_of_singleton. pose proof (fine_generation _ _ (inv_workers _ Hi w Hw)). cbn in *. lia.
    + cbn. intros w [Hw| ->%list_elem_of_singleton]%elem_of_app.
      * apply (worker_stays s); [by apply Hi|cbn; lia|done|by eexists|]. intros [_ Hg]. cbn in Hg.
        pose proof (fine_generation _ _ (inv_workers _ Hi w Hw)). lia.
      * split; cbn; [lia| |by left| |].
        -- intros c Hc%elem_of_sort_by Ht. by exists c.
        -- intros _. split; [done|]. by intros _ c Hc%elem_of_sort_by.
        -- apply Hi.
Qed.

(** A commit that spends what the rows allow, by the worker that holds the lease. *)
Lemma commit_invariant now wk m j' s s' k (dm : jstr → nat) :
  turn_invariant s → commit_journal now (wk_owner wk) (wk_generation wk) m (sy_journal s) = Ok j' →
  fits m (sy_journal s) → spends k m (sy_journal s) →
  sy_journal s' = j' → sy_retried s' = sy_retried s → sy_granted s' = sy_granted s →
  (∀ id, marks id s' = (marks id s + dm id)%nat) → (∀ id, (dm id <= k)%nat) → (∀ id, dm id ≠ 0%nat → touches id m) →
  (∀ x, x ∈ m_steps m → isToolStep (mu_step x) = true → k ≠ 0%nat → of_row (jn_steps (sy_journal s)) x) →
  NoDup (wk_generation <$> sy_workers s') → (∀ w, w ∈ sy_workers s' → worker_fine s' w) → turn_invariant s'.
Proof.
  intros Hi Hc Hf Hk Hj Hr Hg Hm Hle Htouch Hrow Hnd Hw.
  destruct (account s s' dm (λ _, 0%nat)) as [H1 H2].
  - done.
  - rewrite Hj. eapply commit_persists; [apply Hi|done|done].
  - done.
  - intros id. unfold retries. rewrite Hr. lia.
  - intros id E. destruct (Htouch id E) as (x & Hx & Ht & <-). specialize (Hle (st_id (mu_step x))).
    destruct (Hrow x Hx Ht ltac:(lia)) as (row0 & H0 & Hs). exists row0.
    split_and!; [done|by rewrite <- (same_tool _ _ Hs)|symmetry; apply (same_id _ _ Hs)].
  - rewrite Hj. intros row Hin Ht Ho. destruct (commit_counts k now _ _ m _ _ row (inv_sound _ Hi) Hf Hk Hc Hin Ht Ho) as [(row0 & H0 & Hs & Hcase)|Hnew]; [left|by right].
    exists row0. split_and!; [done|done|]. destruct Hcase as [[Hop Hnt]|Hop]; [|specialize (Hle (st_id row)); lia].
    destruct (decide (dm (st_id row) = 0%nat)) as [E|E]; [lia|]. by destruct (Hnt (Htouch _ E)).
  - split; try done; [rewrite Hj; by eapply commit_sound; [apply Hi| |]|].
    rewrite Hj, Hg. intros a id Ha Hst Hid. eapply (inv_approved _ Hi); [by eapply commit_approved|done|done].
Qed.

Lemma commit_generation now owner generation m j j' : commit_journal now owner generation m j = Ok j' →
  jn_lease j ≠ None ∧ jn_generation j = generation ∧ jn_generation j' = generation ∧ jn_state j = m_expectedState m ∧ jn_state j' = m_nextState m
  ∧ (jn_lease j' ≠ None → m_keepLease m = true).
Proof.
  intros (rows & _ & Hc)%commit_journal_spec. destruct (committed_lease _ _ _ _ _ _ Hc) as [expires Hl].
  destruct (committed_generation _ _ _ _ _ _ Hc), (committed_state _ _ _ _ _ _ Hc). rewrite (committed_kept _ _ _ _ _ _ Hc).
  split_and!; try done; [by rewrite Hl|]. by destruct (m_keepLease m).
Qed.

(** *** Effects *)

Lemma acts_generations i wk e (l : list Worker) : l !! i = Some wk → wk_generation <$> <[i := acts e wk]> l = wk_generation <$> l.
Proof. intros H. rewrite list_fmap_insert. apply list_insert_id. by rewrite list_lookup_fmap, H. Qed.

Lemma acts_marks j' i wk e s id : sy_workers s !! i = Some wk →
  marks id (with_journal j' (with_workers (<[i := acts e wk]> (sy_workers s)) s)) = (marks id s + count_if (marks_call id) [e])%nat.
Proof.
  intros H. unfold marks. cbn [sy_workers with_journal with_workers]. pose proof (sum_insert (λ w, count_if (marks_call id) (wk_trace w)) _ i wk (acts e wk) H) as E.
  cbn beta in E. change (wk_trace (acts e wk)) with (wk_trace wk ++ [e]) in E. rewrite count_if_app in E. lia.
Qed.

(** The other claims are older. *)
Lemma others_older i k wk w s : turn_invariant s → sy_workers s !! i = Some wk → sy_workers s !! k = Some w → k ≠ i →
  wk_generation w ≠ wk_generation wk.
Proof.
  intros Hi Hwk Hw Hne E. apply Hne. pose proof (inv_generations _ Hi) as Hn. rewrite NoDup_alt in Hn.
  apply (Hn k i (wk_generation w)); rewrite list_lookup_fmap, ?Hw, ?Hwk; cbn; by rewrite ?E.
Qed.

Lemma acts_workers (P : Worker → Prop) i wk e (l : list Worker) : P (acts e wk) → (∀ k w, l !! k = Some w → k ≠ i → P w) →
  ∀ w, w ∈ <[i := acts e wk]> l → P w.
Proof.
  intros H1 H2 w (k & Hk)%list_elem_of_lookup_1. apply list_lookup_insert_Some in Hk as [(-> & <- & _)|[Hne Hk]]; [done|].
  apply (H2 k); [done|]. congruence.
Qed.

(** What the worker that holds the lease tries to commit fits, and spends what is allowed:
    a run is marked by a commit that keeps the lease while tools execute. *)
Record good_attempt (wk : Worker) (m : DurableTurnMutation) (k : nat) (s : System) : Prop := {
  good_fits : fits m (sy_journal s);
  good_spends : spends k m (sy_journal s);
  good_next : m_keepLease m = true → m_nextState m = sn_state (wk_snapshot wk);
  good_calls : ∀ x, x ∈ m_steps m → isToolStep (mu_step x) = true → k ≠ 0%nat → of_row (jn_steps (sy_journal s)) x;
  good_marks : ∀ id, (count_if (marks_call id) [Committed m] <= k)%nat;
}.

Lemma known_of_row s wk x : turn_invariant s → wk ∈ sy_workers s → isToolStep (mu_step x) = true → known (wk_snapshot wk) (mu_step x) →
  of_row (jn_steps (sy_journal s)) x.
Proof.
  intros Hi Hwk Ht (c & Hc & Hs). destruct (fine_rows _ _ (inv_workers _ Hi wk Hwk) c Hc) as (row & Hrow & Hs').
  - by rewrite <- (same_tool _ _ Hs).
  - exists row. split; [done|]. etrans; [by symmetry|done].
Qed.

Lemma marks_at_most id m : (count_if (marks_call id) [Committed m] <= if m_keepLease m then 1 else 0)%nat.
Proof. unfold count_if. cbn. destruct (m_keepLease m); cbn; [|done]. destruct (existsb _ _); cbn; lia. Qed.

(** While tools execute. *)
Lemma tools_attempt wk e m s : turn_invariant s → wk ∈ sy_workers s → sn_state (wk_snapshot wk) = ExecutingTool →
  may_trace (wk_snapshot wk) (wk_trace wk ++ [e]) → attempt e = Some m → fresh_ids m (sy_journal s) → holds wk (sy_journal s) →
  m_expectedState m = jn_state (sy_journal s) → good_attempt wk m (if m_keepLease m then 1 else 0) s.
Proof.
  intros Hi Hwk Hex Htr%may_trace_led He Hfresh Hh Hst; [|done]. destruct (fine_holds _ _ (inv_workers _ Hi wk Hwk) Hh) as [Hj Hview].
  rewrite omap_app in Htr. cbn in Htr. rewrite He in Htr. cbn in Htr.
  assert (Hp : proper (wk_snapshot wk) m ∧ (omap attempt (wk_trace wk) = [] ∨ calm (wk_snapshot wk) m)).
  { destruct (omap attempt (wk_trace wk)) as [|m1 l] eqn:E; cbn in Htr; [split; [apply Htr|by left]|].
    destruct Htr as [_ [_ Hcalm]%Forall_app]. inversion Hcalm; subst. split; [by apply calm_proper|by right]. }
  destruct Hp as [Hp Hcase].
  assert (Hof : ∀ x, x ∈ m_steps m → isToolStep (mu_step x) = true → of_row (jn_steps (sy_journal s)) x).
  { intros x Hx Ht. destruct (proper_steps _ _ Hp x Hx Ht) as (c & Hc & Hs & _). apply (known_of_row s wk); [done..|]. by exists c. }
  split; [split; try done; auto| |by intros Hk; rewrite Hex, (proper_keeps _ _ Hp Hk)|auto|intros id; apply marks_at_most].
  - by rewrite Hst, Hj, Hex.
  - intros Hk. by rewrite (proper_keeps _ _ Hp Hk).
  - apply (proper_asks _ _ Hp).
  - intros x row0 Hx Ht H0 Hs Ho. destruct Hcase as [E|Hcalm].
    + destruct (proper_steps _ _ Hp x Hx Ht) as (c & Hc & Hsc & Hstate).
      assert (c = row0) as ->.
      { apply (distinct_id _ (sound_rows _ (inv_sound _ Hi))); [by apply Hview|done|]. by rewrite <- (same_id _ _ Hsc), (same_id _ _ Hs). }
      destruct (st_state (mu_step x)) eqn:Ex; try (rewrite Hstate, settled_opens by (by rewrite Ex); cbn; lia); [done|..].
      * destruct Hstate as [-> Hpend]. rewrite (opens_one row0), opens_running by auto. cbn. lia.
      * destruct Hstate as [-> Hpend]. rewrite (opens_one row0) by auto. pose proof (opens_at_most (mu_step x)). cbn. lia.
    + rewrite (calm_lease _ _ Hcalm). destruct (calm_steps _ _ Hcalm x Hx Ht) as [Hset _]. rewrite settled_opens by done. cbn. lia.
Qed.

(** In the other phases. *)
Lemma phase_attempt wk e m s : turn_invariant s → wk ∈ sy_workers s → sn_state (wk_snapshot wk) ≠ ExecutingTool →
  may_trace (wk_snapshot wk) (wk_trace wk ++ [e]) → attempt e = Some m → fresh_ids m (sy_journal s) → holds wk (sy_journal s) →
  m_expectedState m = jn_state (sy_journal s) → good_attempt wk m 0 s.
Proof.
  intros Hi Hwk Hex Htr%may_trace_phase He Hfresh Hh Hst; [|done]. destruct (fine_holds _ _ (inv_workers _ Hi wk Hwk) Hh) as [Hj _].
  apply Forall_app in Htr as [_ [[_ Hphase] _]%Forall_cons]. destruct (Hphase m He) as [Hw Hk Ha Hq Hcalls]; [congruence|].
  split; [split; try done| | |done|].
  - intros x Hx Ht. destruct (Hcalls x Hx Ht) as [[_ Hknown]|Hp]; [left; by apply (known_of_row s wk)|right].
    split; [done|]. by apply (Hfresh x Hx).
  - intros E. apply Hw. congruence.
  - intros E. by destruct (Hk E) as (_ & ? & _).
  - unfold asks. by rewrite Ha, Hq.
  - intros x row0 Hx Ht H0 Hs _. destruct (Hcalls x Hx Ht) as [[Hset _]|Hp]; [rewrite settled_opens by done; lia|].
    destruct (proj2 (Hfresh x Hx) Ht Hp row0 H0). symmetry. apply (same_id _ _ Hs).
  - intros E. by destruct (Hk E) as (? & _ & _).
  - intros id. unfold count_if. cbn. destruct (m_keepLease m) eqn:E; [|done]. destruct (Hk eq_refl) as (_ & _ & Hno). cbn.
    destruct (existsb _ _) eqn:Ex; [|done]. apply existsb_exists in Ex as (x & Hx & [Ht _]%andb_true_iff). rewrite <- list_elem_of_In in Hx.
    by rewrite (Hno x Hx) in Ht.
Qed.

Lemma attempt_good wk e m s : turn_invariant s → wk ∈ sy_workers s →
  may_trace (wk_snapshot wk) (wk_trace wk ++ [e]) → attempt e = Some m → fresh_ids m (sy_journal s) → holds wk (sy_journal s) →
  m_expectedState m = jn_state (sy_journal s) → ∃ k, good_attempt wk m k s.
Proof.
  intros. destruct (decide (sn_state (wk_snapshot wk) = ExecutingTool)); eexists; [by eapply tools_attempt|by eapply phase_attempt].
Qed.

(** The worker that acted, and the others, after a commit. *)
Lemma committed_workers now i wk e m k j' s : turn_invariant s → sy_workers s !! i = Some wk →
  may_trace (wk_snapshot wk) (wk_trace wk ++ [e]) → attempt e = Some m → good_attempt wk m k s →
  commit_journal now (wk_owner wk) (wk_generation wk) m (sy_journal s) = Ok j' →
  let s' := with_journal j' (with_workers (<[i := acts e wk]> (sy_workers s)) s) in
  ∀ w, w ∈ sy_workers s' → worker_fine s' w.
Proof.
  intros Hi Hwk Htr He [Hf _ Hkeep _ _] Hc s'. pose proof (commit_generation _ _ _ _ _ _ Hc) as (Hn & Hg & Hg' & Hst & Hst' & Hlease).
  pose proof (commit_persists _ _ _ _ _ _ (inv_sound _ Hi) Hf Hc) as Hp.
  pose proof (inv_workers _ Hi wk (list_elem_of_lookup_2 _ _ _ Hwk)) as Hfine. apply acts_workers.
  - destruct (inv_workers _ Hi wk (list_elem_of_lookup_2 _ _ _ Hwk)) as [H1 H2 H3 H4 H5]. split; cbn in *; [lia| |by right| |done].
    + intros c Hin Ht. destruct (H2 c Hin Ht) as (row & Hrow & Hs). destruct (Hp row Hrow) as (row' & Hrow' & Hs').
      * by rewrite (same_tool _ _ Hs).
      * exists row'. split; [done|by etrans].
    + intros [Hl _]. split; [rewrite Hst'; auto|]. rewrite omap_app. cbn. rewrite He. by destruct (omap _ _).
  - intros n w Hn' Hne. pose proof (inv_workers _ Hi w (list_elem_of_lookup_2 _ _ _ Hn')) as Hw.
    apply (worker_stays s); [done|cbn; lia|done|done|]. intros [_ Hgw]. cbn in *. by destruct (others_older _ _ _ _ _ Hi Hwk Hn' Hne); congruence.
Qed.

(** An effect that leaves the rows. *)
Lemma trace_invariant i wk e s : turn_invariant s → sy_workers s !! i = Some wk → may_trace (wk_snapshot wk) (wk_trace wk ++ [e]) →
  (∀ id, marks_call id e = false) → turn_invariant (with_journal (sy_journal s) (with_workers (<[i := acts e wk]> (sy_workers s)) s)).
Proof.
  intros Hi Hwk Htr He. set (s' := with_journal _ _).
  assert (Hm : ∀ id, marks id s' = marks id s) by (intros id; unfold s'; rewrite (acts_marks _ i wk) by done; unfold count_if; cbn; rewrite He; cbn; lia).
  split; [apply Hi| | | | |apply Hi].
  - cbn. rewrite acts_generations by done. apply Hi.
  - apply acts_workers; [|intros k w Hk%list_elem_of_lookup_2 _; by destruct (inv_workers _ Hi w Hk)].
    destruct (inv_workers _ Hi wk (list_elem_of_lookup_2 _ _ _ Hwk)) as [H1 H2 H3 H4 H5]. split; cbn in *; [done|done|by right| |done].
    intros Hh. destruct (H4 Hh) as [H6 H7]. split; [done|]. rewrite omap_app. intros [E _]%app_eq_nil. by apply H7.
  - intros row. rewrite Hm. apply Hi.
  - intros id. rewrite Hm. apply Hi.
Qed.

(** An effect marks what a commit marks. *)
Lemma effect_marks id e m : attempt e = Some m → (count_if (marks_call id) [e] <= count_if (marks_call id) [Committed m])%nat.
Proof. destruct e; intros [= ->]; [done|]. unfold count_if. cbn. lia. Qed.
Lemma marks_touch id m : count_if (marks_call id) [Committed m] ≠ 0%nat → touches id m.
Proof.
  unfold count_if. cbn. destruct (m_keepLease m); cbn; [|done]. destruct (existsb _ _) eqn:E; [|done]. intros _.
  apply existsb_exists in E as (x & Hx & [Ht Hid%bool_decide_eq_true]%andb_true_iff). rewrite <- list_elem_of_In in Hx. by exists x.
Qed.

Lemma effect_invariant now i wk e j' s : turn_invariant s → sy_workers s !! i = Some wk →
  may_trace (wk_snapshot wk) (wk_trace wk ++ [e]) → effect_on now wk (sy_journal s) e j' →
  turn_invariant (with_journal j' (with_workers (<[i := acts e wk]> (sy_workers s)) s)).
Proof.
  intros Hi Hwk Htr He. set (s' := with_journal _ _).
  assert (Hcommit : ∀ m, attempt e = Some m → fresh_ids m (sy_journal s) →
    commit_journal now (wk_owner wk) (wk_generation wk) m (sy_journal s) = Ok j' → turn_invariant s').
  { intros m Ha Hfresh Hc. pose proof (commit_generation _ _ _ _ _ _ Hc) as (Hn & Hg & _ & Hst & _).
    destruct (attempt_good wk e m s) as [k Hgood]; [done|by eapply list_elem_of_lookup_2|done..|by split|done|]. pose proof (λ id, effect_marks id e m Ha) as Hle.
    apply (commit_invariant now wk m j' s s' k (λ id, count_if (marks_call id) [e])); try done; [apply Hgood|apply (good_spends _ _ _ _ Hgood)|..].
    - intros id. by apply acts_marks.
    - intros id. pose proof (good_marks _ _ _ _ Hgood id). specialize (Hle id). lia.
    - intros id E. apply marks_touch. specialize (Hle id). lia.
    - apply Hgood.
    - cbn. rewrite acts_generations by done. apply Hi.
    - by eapply committed_workers. }
  destruct He as [m j' Hf Hc|m j' Hf Hc|m|events|c|c|cost|error|error].
  1,2: by eapply Hcommit.
  1,2,3,4,5,7: by apply trace_invariant.
  exact (release_invariant _ (wk_owner wk) (wk_generation wk) error (trace_invariant i wk (Released error) s Hi Hwk Htr ltac:(done))).
Qed.

Lemma reachable_invariant s : turn_reachable s → turn_invariant s.
Proof.
  induction 1 as [s Hs|s s' _ IH Hstep]; [by apply admitted_invariant|].
  destruct Hstep as [now owner seconds entries j' Hc|now i wk e j' Hwk Htr He|now i wk seconds j' Hwk Hh|i wk error Hwk|r].
  - by eapply claim_invariant.
  - by eapply effect_invariant.
  - by eapply heartbeat_invariant.
  - by apply release_invariant.
  - by apply request_invariant.
Qed.
End system.
