(* ===== verification/TurnOnce.v ===== *)
(** * Calls that run at most once, and calls that were approved

    What the invariants of TurnSystemFacts give for the tools that are called, with a
    turn in which the model asks for a call that is not repeated, a person approves it,
    and it runs. *)

From S2P Require Import Prelude JsMap JsString ToolArguments ToolArgumentsSchema Json ProviderErrors ToolFailures Prompts TurnSteps TurnCalls TurnRunner TurnRunnerFacts TurnTraces TurnJournal TurnPhases TurnPhasesFacts TurnSystem TurnSystemFacts TurnDemo.
From Stdlib Require Import Lia.

Set Default Goal Selector "!".

(** ** A turn *)

Definition a_run : Journal :=
  {| jn_id := js "run"; jn_tenantId := js "tenant"; jn_state := CallingModel; jn_version := 1; jn_cancelled := false; jn_lease := None;
     jn_generation := 0; jn_runtimeRequest := JObj []; jn_sandboxId := None; jn_progress := progressState (a_turn []);
     jn_steps := [model_step (a_turn []) (js "model") 1 [] []];
     jn_approvals := []; jn_questions := []; jn_recovery := None; jn_waitingReason := None; jn_nextAction := None; jn_error := None |}.

(** ** What its workers do *)

Abbreviation demo_reachable := (turn_reachable demo_number js_le (λ s, s) ascii_lower (map upper_unit) None default_options phase_options).
Definition freshb (m : DurableTurnMutation) (j : Journal) : bool :=
  forallb (λ x, if isToolStep (mu_step x)
                then negb (is_state Pending (mu_step x)) || forallb (λ row, negb (bool_decide (st_id row = st_id (mu_step x)))) (jn_steps j)
                else forallb (λ y, negb (isToolStep y && bool_decide (st_id y = st_id (mu_step x)))) (jn_steps j ++ map mu_step (m_steps m))) (m_steps m).

(** The rows after an effect, when it reaches them. *)
Definition acted (e : Effect) (wk : Worker) (j : Journal) : option Journal :=
  match e with
  | Committed m =>
      if freshb m j then match commit_journal 1 (wk_owner wk) (wk_generation wk) m j with Ok j' => Some j' | Err _ => None end else None
  | Released error => Some (release (wk_owner wk) (wk_generation wk) error j)
  | _ => Some j
  end.

Fixpoint plays (i : nat) (l : list Effect) (s : System) : System :=
  match l with
  | [] => s
  | e :: l =>
      match sy_workers s !! i with
      | Some wk =>
          match acted e wk (sy_journal s) with
          | Some j' => plays i l (with_journal j' (with_workers (<[i := acts e wk]> (sy_workers s)) s))
          | None => s
          end
      | None => s
      end
  end.

Definition claims (s : System) : System :=
  match claim 0 (js "w") 90 (sy_journal s) with
  | Some j => with_journal j (with_workers
      (sy_workers s ++ [{| wk_owner := js "w"; wk_generation := jn_generation j; wk_snapshot := mapSnapshot [] j; wk_trace := [] |}]) s)
  | None => s
  end.

Definition requests (r : Request) (s : System) : System :=
  {| sy_journal := serve r (sy_journal s); sy_workers := sy_workers s; sy_retried := retried_by r (sy_journal s) ++ sy_retried s;
     sy_granted := granted_by r (sy_journal s) ++ sy_granted s |}.

Definition the_snapshot (i : nat) (s : System) : DurableTurnSnapshot :=
  match sy_workers s !! i with Some wk => wk_snapshot wk | None => a_turn [] end.

(** The model asks for the call, a worker asks for the approval, a person grants it,
    another worker runs the call, and is stopped. *)
Definition system_model : System := claims {| sy_journal := a_run; sy_workers := []; sy_retried := []; sy_granted := [] |}.
Definition system_claimed : System := claims (plays 0 (effects 0 (the_snapshot 0 system_model)) system_model).
Definition system_waits : System := plays 1 (effects 100 (the_snapshot 1 system_claimed)) system_claimed.
Definition mail_approved : Request := Decide false (match jn_approvals (sy_journal system_waits) with a :: _ => ap_id a | [] => [] end) true.
Definition system_resumed : System := claims (requests mail_approved system_waits).
Definition a_system : System := plays 2 (take 2 (effects 200 (the_snapshot 2 system_resumed))) system_resumed.

(** The call that was run. *)
Definition the_call : DurableTurnStep :=
  match omap executed (effects 200 (the_snapshot 2 system_resumed)) with c :: _ => c | [] => a_call "" 0 "" ReadOnly [] end.

(** *** Its steps are those of the system *)

Lemma freshb_spec m j : freshb m j = true → fresh_ids m j.
Proof.
  unfold freshb. intros H x Hx. rewrite forallb_forall in H. specialize (H x). rewrite <- list_elem_of_In in H. specialize (H Hx).
  destruct (isToolStep (mu_step x)); (split; [|try done]); try done; intros.
  - rewrite (bool_decide_eq_true_2 (st_state _ = Pending) ltac:(done) : is_state Pending (mu_step x) = true) in H. cbn in H.
    rewrite forallb_forall in H. specialize (H row). rewrite <- list_elem_of_In in H. by apply negb_true_iff, bool_decide_eq_false in H.
  - rewrite forallb_forall in H. specialize (H y). rewrite <- list_elem_of_In, elem_of_app in H.
    specialize (H ltac:(done)). apply negb_true_iff, andb_false_iff in H as [H|H]; [congruence|]. by apply bool_decide_eq_false in H.
Qed.

Lemma acted_effect e wk j j' : acted e wk j = Some j' → effect_on 1 wk j e j'.
Proof.
  unfold acted. destruct e as [m|m|events|c|c|cost|error]; [|by intros [= <-]; constructor..].
  destruct (freshb m j) eqn:E; [|done]. destruct (commit_journal _ _ _ _ _) eqn:Ec; [|done]. intros [= <-].
  constructor; [by apply freshb_spec|done].
Qed.

Lemma claims_reachable s : demo_reachable s → demo_reachable (claims s).
Proof.
  intros H. unfold claims. destruct (claim _ _ _ _) eqn:E; [|done]. eapply reachable_step; [exact H|].
  by eapply (step_claim _ _ _ _ _ _ _ _ _ 0 (js "w") 90 []).
Qed.

Lemma requests_reachable r s : demo_reachable s → demo_reachable (requests r s).
Proof. intros H. eapply reachable_step; [exact H|apply step_request]. Qed.

(** A worker goes on with its run. *)
Lemma plays_reachable uuids i wk l l' s : demo_reachable s → sy_workers s !! i = Some wk →
  effects uuids (wk_snapshot wk) = wk_trace wk ++ l ++ l' → demo_reachable (plays i l s).
Proof.
  revert wk s. induction l as [|e l IH]; intros wk s Hs Hwk He; cbn [plays]; [done|]. rewrite Hwk.
  destruct (acted e wk (sy_journal s)) as [j'|] eqn:Ea; [|done]. apply (IH (acts e wk)).
  - eapply reachable_step; [exact Hs|]. eapply step_effect; [exact Hwk| |by apply acted_effect].
    exists a_host, a_client, 0%nat, uuids, (l ++ l'). rewrite <- app_assoc. exact He.
  - cbn. apply list_lookup_insert_eq. by eapply lookup_lt_Some.
  - cbn. rewrite <- app_assoc. exact He.
Qed.

(** A worker that has done nothing yet does the first effects of its run. *)
Lemma begins_reachable uuids i n s : demo_reachable s → (wk_trace <$> sy_workers s !! i) = Some [] →
  demo_reachable (plays i (take n (effects uuids (the_snapshot i s))) s).
Proof.
  intros Hs Ht. destruct (sy_workers s !! i) as [wk|] eqn:E; [|done]. injection Ht as Ht.
  unfold the_snapshot. rewrite E. apply (plays_reachable uuids i wk _ (drop n (effects uuids (wk_snapshot wk)))); [done|done|].
  rewrite Ht. cbn [app]. symmetry. apply take_drop.
Qed.

Lemma plays_all_reachable uuids i s : demo_reachable s → (wk_trace <$> sy_workers s !! i) = Some [] →
  demo_reachable (plays i (effects uuids (the_snapshot i s)) s).
Proof. intros Hs Ht. rewrite <- (firstn_all (effects uuids (the_snapshot i s))). by apply begins_reachable. Qed.

Lemma admitted_run : admitted {| sy_journal := a_run; sy_workers := []; sy_retried := []; sy_granted := [] |}.
Proof.
  split_and!; try done.
  - split; by intros x y * ->%list_elem_of_singleton ->%list_elem_of_singleton.
  - by intros row ->%list_elem_of_singleton.
Qed.

Lemma system_reachable : demo_reachable a_system.
Proof.
  apply begins_reachable; [|vm_compute; reflexivity]. apply claims_reachable, requests_reachable.
  apply plays_all_reachable; [|vm_compute; reflexivity]. apply claims_reachable.
  apply plays_all_reachable; [|vm_compute; reflexivity]. apply claims_reachable. apply reachable_admitted, admitted_run.
Qed.

(** ** Properties *)

Section properties.
Context {numbers : Numbers} (number : Z → num).
Context (locale_le : jstr → jstr → bool) (sha256 toLowerCase toUpperCase : jstr → jstr) (sandbox_cwd : option jstr).
Context (options : Options) (phases : PhaseOptions).

(** C2: A tool call that is not safe to repeat (a step of class non_idempotent_manual) is handed to its
    tool at most once, plus once for each time a person decided to retry it: over all workers that ever
    claimed the turn, when workers crash at any point, go on after their lease was taken over, lose the
    answer to a commit that was applied, disagree about the time, and while people approve, answer, stop
    the turn or decide a recovery. *)
Theorem manual_call_runs_once s id :
  turn_reachable number locale_le sha256 toLowerCase toUpperCase sandbox_cwd options phases s →
  (executions id s <= 1 + retries id s)%nat.
Proof.
  intros H%reachable_invariant. assert (Hle : (executions id s <= marks id s)%nat).
  { unfold executions, marks. pose proof (inv_workers _ _ _ _ _ _ _ _ _ H) as Hw. induction (sy_workers s) as [|wk l IH]; [done|]. cbn.
    assert (length (List.filter (runs_once id) (wk_trace wk)) <= count_if (marks_call id) (wk_trace wk))%nat.
    { destruct (fine_trace _ _ _ _ _ _ _ _ _ _ (Hw wk ltac:(by left))) as [->|Ht]; [done|]. by eapply runs_marked. }
    specialize (IH ltac:(intros w ?; apply Hw; by right)). lia. }
  destruct (decide (executions id s = 0%nat)) as [E|E]; [lia|].
  assert (Hc : ∃ wk c, wk ∈ sy_workers s ∧ Executed c ∈ wk_trace wk ∧ st_id c = id ∧ manual c = true).
  { clear H Hle. unfold executions in E. induction (sy_workers s) as [|wk l IH]; [done|]. cbn in E.
    destruct (decide (length (List.filter (runs_once id) (wk_trace wk)) = 0%nat)) as [E0|E0].
    - destruct IH as (w & c & Hw & Hc); [lia|]. exists w, c. split; [by right|done].
    - destruct (List.filter _ (wk_trace wk)) as [|e t] eqn:Ef; [done|]. assert (He : e ∈ List.filter (runs_once id) (wk_trace wk)) by (rewrite Ef; by left).
      apply elem_of_filter_bool in He as [He Hr]. destruct e as [| | |c| | |]; try done. cbn in Hr. apply andb_true_iff in Hr as [Hid%bool_decide_eq_true Hm].
      exists wk, c. split_and!; [by left|done..]. }
  destruct Hc as (wk & c & Hwk & Hc & <- & Hm). destruct (inv_workers _ _ _ _ _ _ _ _ _ H wk Hwk) as [_ Hrows [Ht|Ht] _ _];
    [rewrite Ht in Hc; by apply not_elem_of_nil in Hc|].
  destruct (executed_spec _ _ _ _ _ _ _ _ _ _ _ Ht Hc) as [_ (step & Hsame & Hrun)].
  destruct (may_run_once _ _ _ _ _ _ _ _ Hrun) as [Ho Htool]; [by rewrite <- (same_manual _ _ Hsame)|].
  destruct (Hrows step) as (row & Hrow & Hs); [apply (run_listed _ _ _ _ _ _ _ _ Hrun)|done|].
  assert (Hid : st_id row = st_id c) by by rewrite (same_id _ _ Hs), (same_id _ _ Hsame).
  pose proof (inv_marks _ _ _ _ _ _ _ _ _ H row Hrow) as Hmarks. rewrite (same_tool _ _ Hs), (same_once _ _ Hs), Hid in Hmarks.
  specialize (Hmarks Htool Ho). lia.
Qed.

(** C3: A call that requires an approval is handed to its tool only after a person approved that call:
    an approval that expired, was denied, or is of another call does not let it run, and no worker that
    holds an old snapshot, retries or resumes the turn runs it without. *)
Theorem unapproved_call_never_runs s wk c :
  turn_reachable number locale_le sha256 toLowerCase toUpperCase sandbox_cwd options phases s →
  wk ∈ sy_workers s → Executed c ∈ wk_trace wk → input "requiresApproval" c = Some (JBool true) → st_id c ∈ sy_granted s.
Proof.
  intros H%reachable_invariant Hwk Hc Hreq. destruct (inv_workers _ _ _ _ _ _ _ _ _ H wk Hwk) as [_ _ [Ht|Ht] _ Happ];
    [rewrite Ht in Hc; by apply not_elem_of_nil in Hc|].
  destruct (executed_spec _ _ _ _ _ _ _ _ _ _ _ Ht Hc) as [_ (step & Hsame & Hrun)].
  pose proof (run_approved _ _ _ _ _ _ _ _ Hrun) as Ha. rewrite <- (same_input _ _ Hsame) in Ha by done. specialize (Ha Hreq).
  destruct (approval_of (wk_snapshot wk) step) as [a|] eqn:E; [|done]. injection Ha as Ha.
  apply find_first_Some in E as [Hin Hid%bool_decide_eq_true]. rewrite (same_id _ _ Hsame). by eapply Happ.
Qed.
End properties.

Lemma manual_call_runs_once_witness :
  executions (st_id the_call) a_system = 1%nat ∧ (executions (st_id the_call) a_system <= 1 + retries (st_id the_call) a_system)%nat.
Proof.
  split; [vm_compute; reflexivity|].
  apply (manual_call_runs_once demo_number js_le (λ s, s) ascii_lower (map upper_unit) None default_options phase_options). apply system_reachable.
Defined.

Definition last_worker : Worker :=
  match sy_workers a_system with [_; _; wk] => wk | _ => {| wk_owner := []; wk_generation := 0; wk_snapshot := a_turn []; wk_trace := [] |} end.

Lemma unapproved_call_never_runs_witness :
  input "requiresApproval" the_call = Some (JBool true) ∧ st_id the_call ∈ sy_granted a_system.
Proof.
  split; [vm_compute; reflexivity|].
  apply (unapproved_call_never_runs demo_number js_le (λ s, s) ascii_lower (map upper_unit) None default_options phase_options a_system last_worker).
  - apply system_reachable.
  - apply list_elem_of_lookup. exists 2%nat. vm_compute. reflexivity.
  - apply list_elem_of_lookup. exists 1%nat. vm_compute. reflexivity.
  - vm_compute. reflexivity.
Defined.
